(* ===== verification/_CoqProject ===== *)
-Q . S2P
Prelude.v
Str.v
Bitmap.v
Model.v
Csr.v
Paths.v
CsrGraph.v
Resolve.v
Auth.v
Policy.v
Spool.v
Registry.v
RegistryProofs.v
RegistryPull.v
SqlStore.v
SqlProofs.v
SqlGraph.v
SqlReindex.v
Schema.v
Language.v
Interner.v
ProjectIndex.v
Webhooks.v
Contract.v
ContractProofs.v
Federation.v
Pipeline.v
Reindex.v
ReindexProofs.v
Incremental.v
Json.v
Config.v
Http.v
HttpProofs.v
Hub.v
HubProofs.v
Modules.v
Tools.v
ToolsProofs.v
Mcp.v
McpProofs.v
Blast.v
Scim.v
Verify.v
PolicyGate.v
Review.v
Fts.v
Vector.v
Search.v
Provenance.v
Sync.v
Cst.v
Extract.v
ExtractMore.v
ExtractData.v
ExtractAll.v
ExtractProofs.v
ExtractExact.v
Traces.v
Query.v
Link.v
Markdown.v
Docs.v
NoteCmds.v
Migration.v
Watch.v
HubViews.v
Journal.v
Rules.v
Budget.v
