(* ===== verification/Prelude.v ===== *)
(** * Weave-graph: a verification of its core

    Weave-graph indexes source repositories into a graph of symbols (nodes) and
    references (edges), keeps the graph in SQLite, answers reachability and path
    queries from a compressed adjacency, searches it by text and by meaning,
    checks policies and boundary contracts over it, serves it to tools over MCP
    under role-based access, and shares signed snapshots between machines
    through a registry.  This library translates the Rust code of those parts
    into executable definitions and proves what makes them correct.  A doc
    comment of the form "src/<file>:<first>-<last> [symbol]" before a definition
    names the code it translates.

    ** The parts and how they interact

    - weave-graph-parse turns the syntax tree of a file into symbols and raw
      references ([ParsedFile]), with an extractor per language (extract/) behind
      the parser that caches the tree (parser.rs), and resolves the references against a project-wide index
      (resolve.rs) into edges; contract.rs selects the exported symbols.
    - weave-graph-store-sqlite keeps nodes, edges, notes, trace spans and doc
      links in tables (backend.rs) created by versioned migrations (schema.rs),
      a full-text table (fts.rs) and a vector table (vector.rs) beside them.  It
      implements the [Storage] trait of weave-graph-core (storage.rs).
    - weave-graph-core loads any [Storage] into a [CsrGraph] (csr.rs) and
      computes reachability and shortest paths on it; resolve.rs finds the
      symbol a query names; policy.rs lints the file graph; cluster.rs and
      modules.rs fold it into modules; federation.rs finds cycles across
      repositories; auth.rs and rbac.rs decide who sees what.
    - weave-graph-hub's registry.rs accepts uploads of snapshots, queues them
      per repository, commits them in a worker and serves pulls; server.rs and
      client.rs carry that over HTTP, provenance.rs signs and checks what is
      carried, webhooks.rs notifies subscribers of commits.
    - weave-graph-mcp answers tool calls over the graph (handler.rs and a file
      per tool) for the caller its guard describes.
    - weave-graph-cli drives them: index.rs builds and updates the index,
      contracts.rs, policy.rs, verify.rs and pr_review.rs are the gates,
      waiver.rs the ways around them, rbac.rs the directory of identities,
      config.rs the settings, search.rs the search, query.rs the query language,
      federation.rs the link of two repositories, traces.rs the spans of a
      running program, docs.rs and notes.rs what people write about the code, sync.rs the exchange with the hub.

    ** The files

    - Prelude: results, 32-bit casts, loops with early return, binary search,
      sorting, vectors that panic out of range, and their lemmas.  Str: the
      [str] methods, on byte strings.  Bitmap: the Roaring bitmap of the visited
      sets as a class ([Bitmap]) with its documented laws ([BitmapLaws]) and an
      instance.
    - Model: [Node], [Edge], [StorageError] and the [Storage] trait as a class;
      [StorageView] is what a store promises its readers.
    - Csr, Paths, CsrGraph: csr.rs.  Paths holds the invariant of breadth-first
      path search that csr.rs and backend.rs share.  The theorems of CsrGraph
      are proved against [StorageView] and [BitmapLaws]:
      loading keeps exactly the edges between known nodes
      ([load_outbound_exact], [from_nodes_and_edges_load]), the transposition is
      one ([build_reverse_transposes]), reachability is the ball of the given
      radius ([reachable_nodes_ball], [callers_within_inverse_ball]), and a path
      query returns a shortest path or there is none ([query_path_shortest]).
    - Resolve: the chain of lookups and the edit distance of its suggestions
      ([resolve_symbol_spec], [levenshtein_edit_distance]).
    - Auth: token comparison ([bearer_token_matches_exact]), visibility
      ([visible_iff]) and masking ([mask_node_no_leak]).
    - Policy: boundaries, cycles, orphans, coupling, each with an exact
      specification ([lint_scoped_exact], [search_cycles_correct],
      [orphan_files_exact], [semantic_coupling_exact]).
    - Spool, Registry, RegistryProofs, RegistryPull: registry.rs.  The state is
      the two directory trees and the in-memory heads; [step] is one
      client operation, worker round, worker that leaves the pool, completion that
      panics, or restart with or without a verifier.  Over every sequence of them the queue
      stays bounded and drains ([registry_queue_safe]), though not over an eviction in
      the middle of a push ([eviction_race_underflows]); an accepted push never
      overwrites a head it has not seen ([push_complete_no_lost_update]) and was
      verified ([accepted_push_is_verified]); chunks reassemble the upload
      ([chunked_upload_reassembles], [spool_chunk_bounded]); what was pushed is
      what is pulled ([push_drain_pull]); pruning keeps what retention says
      ([prune_retention_exact]); file names read back and stay inside the
      directory ([job_filename_roundtrip], [safe_component_stays_inside]).
    - SqlStore, SqlProofs, SqlGraph, SqlReindex: backend.rs.  The tables are
      maps from row ids, a statement is a function on them that fails as a
      whole; [Sqlite]/[SqliteLaws] name what is taken from SQLite.  Every
      statement keeps a database valid ([sqlite_integrity]); a valid
      database is a [StorageView] ([sqlite_refines_storage]), so the graph
      theorems hold of it, and its own path search agrees with the graph's
      ([sql_and_csr_paths_agree]); re-indexing a file replaces exactly its rows
      and drops every edge into or out of it, whether or not the engine enforces
      foreign keys ([reindex_file_exact], [purge_edges_then_nodes], [upsert_node_identity]);
      notes live, expire and are recalled as documented
      ([notes_recall_lifecycle]).
    - Schema: migrations and index handling ([migrate_resumable],
      [drop_recreate_indexes]).
    - Language, Interner, ProjectIndex: language.rs and resolve.rs of
      weave-graph-parse.  The arena interner is a faithful table of strings for
      any hash function ([interner_correct]); the index resolves references as
      a resolution over the plain symbol list does ([project_resolution_sound]).
    - Cst, Extract, ExtractMore, ExtractData, ExtractAll, ExtractProofs,
      ExtractExact: extract/ and parser.rs of weave-graph-parse.  Cst is the
      syntax tree as data with tree-sitter's accessors and util.rs; Extract holds
      Rust, Python, JavaScript and TypeScript, Go, Java, C and C++ with the route
      detectors of the frameworks, ExtractMore and ExtractData the other
      languages, ExtractAll the query-driven and generic extractors, the dispatch
      and the parser.  Whatever the language and the tree, the file is well
      formed: monikers of this file, lines of the tree, callers that are declared
      ([extract_well_formed]); the symbols of Rust are exactly the declarations
      its walk reaches ([rust_symbols_exact]).
    - Reindex, ReindexProofs, Incremental, Pipeline, Federation: index.rs of the
      command line and federation.rs.  A full rebuild leaves exactly the rows of
      the files and of their resolved references ([full_reindex_exact]); the
      incremental update is characterised against the database before it
      ([incremental_exact]); the two threads of the parser complete on every
      schedule ([pipeline_completes], [pipeline_failure]); Tarjan's search
      terminates with the strongly connected components of edges that stay among the
      given nodes ([tarjan_scc_correct]).
    - Webhooks: a connection is opened only when every address of the one answer
      is public, and then the notice is sent ([webhook_guard]).
    - Contract, ContractProofs: contract.rs, contracts.rs, waiver.rs.  What is
      checked against a link is decided by the exported declarations, by each
      symbol's last one ([link_then_check_exact]); the gate passes only what it should
      ([check_contracts_gate]); submodule baselines ([submodule_check_rolls]).
    - Json, Config: JSON values; config.rs over a TOML reader and printer.  A key
      that is set reads back and no other changes ([config_set_get]).
    - Http, HttpProofs, Hub, HubProofs: server.rs and client.rs.  What the client
      writes is what the server reads however the network cuts it; a chunked
      push over the wire is the registry's push ([hub_push_delivers]).
    - Modules: cluster.rs and modules.rs; modules partition the files into
      connected groups ([modules_partition_connected]).
    - Tools, ToolsProofs, Mcp, McpProofs: weave-graph-mcp.  The tools compute
      what they name ([impact_radius_exact], [trace_incoming_exact]); the graph
      answered from is that of the database, from the constructors on
      ([mcp_coherent]); a caller without a
      token learns nothing ([unauthorised_learns_nothing]) and a masked caller
      nothing of what is hidden ([masked_answers_hide]).
    - Blast, Review, Verify, PolicyGate: blast.rs, pr_review.rs, verify.rs and
      policy.rs of the command line, each gate with the exact condition under
      which it fails ([blast_exact], [pr_review_gate_exact],
      [verify_verdict_exact], [policy_gate_exact], [civil_from_days_correct]).
    - Scim: rbac.rs of the command line; the directory server refines an abstract
      directory, with writes that fail before or after the file is emptied
      ([scim_refines_directory], [failed_write_loses_directory]) and removing a user revokes access
      ([scim_deprovision_revokes]).
    - Fts, Vector, Search: fts.rs, synonym.rs, vector.rs, embedding.rs, ranking.rs
      and the commands and tools on them.  The full-text table mirrors the nodes
      ([fts_mirrors_nodes]); a page is the visible part of the ranking
      ([search_page_exact]); the vectors are those of the chunks
      ([vector_index_exact]); a search shows what the caller may see
      ([search_shows_visible]) and the exhaustive search all matches
      ([find_all_exact]).
    - Provenance, Sync: provenance.rs of the hub and of the core, sync.rs.  A
      signature covers repository, commit and payload
      ([snapshot_signature_sound], [mock_provenance_exact]); a push publishes a
      bounded number of times, from the default branch only, the index without
      the excluded vectors ([sync_push_exact]); a pull replaces the index by what
      was published ([sync_pull_exact]).
    - Traces, Query, Link: trace.rs, and traces.rs, query.rs and federation.rs of
      the command line.  Importing spans stores each under its ids with the symbol
      it resolves to ([traces_import_exact]) and the summary is the exact count and
      nearest-rank percentiles ([aggregate_exact]); a query, read from its text with
      its filters, answers with the transitive callers, the reachable nodes, a
      shortest path ([query_exact]), a masked one nothing of what is hidden
      ([query_masked_hides]), and the fast path answers as the other
      ([query_fast_path_agrees]); linking two repositories reports exactly the
      edges within and across them and their cycles ([link_graph_exact]).
    - Markdown, Docs, NoteCmds: markdown.rs of weave-graph-parse, docs.rs and
      notes.rs of the command line.  Front matter and wikilinks are read back as
      they were written ([front_matter_roundtrip], [wikilinks_roundtrip]); the
      edges of notes are exactly what the notes ask for and sections are made only
      for headings that are linked ([doc_edges_exact],
      [doc_nodes_exact], [gc_topics_exact]); a re-index keeps every note that has
      not expired, attaches it by its moniker and marks it stale by its span's hash,
      twins of one moniker excepted ([notes_reattached]), a rebuild
      copies each once ([notes_carried_over]).
    - Migration: migration.rs of the command line.  The plan names exactly the
      repositories that call the symbol, in an order in which each comes before
      those it references, or reports a cycle ([survey_exact], [kahn_spec]).
    - Watch: watch.rs, cache.rs and the index command of main.rs.  Events are
      debounced into exactly the bursts between silences ([watch_debounce_exact]);
      no change is lost whatever a tick answers ([watch_loses_nothing]); a batch is
      deferred exactly when it reaches the ceiling ([watch_gate_exact]); a snapshot
      that is restored holds what the last run of this version on that commit and a
      clean tree left, over every history of commands ([restored_was_saved]).
    - Journal, Rules, Budget: journal.rs, rules.rs and resource_budget.rs of the
      command line.  The journal counts exactly what a change reaches
      ([journal_exact]); rule candidates are exactly the lines that state one
      ([candidates_exact]) and each text is decided once over every sequence of
      reviews ([review_decides_once], [confirm_exact]); the budget of an index run
      is within its bounds whatever the system reports ([admission_bounds]).
    - HubViews: canvas.rs and policy_lint.rs of the hub with their routes.  A canvas
      draws exactly the modules that are not excluded, without overlap
      ([canvas_exact]); the mesh views depend only on the repositories the caller
      may see and show only modules it may see ([mesh_shows_allowed]).  With the views
      in place, whatever bytes arrive a connection takes the registry only through
      operations of its own, where its thread panics too, and a caller without the
      token changes nothing ([connection_safe]).

    ** Conventions

    A panic is [None] of an option, an error is [Err] of [result].  Integers are
    [N], [Z] or [nat] with the source's width where it matters: casts to [u32]
    wrap ([as_u32]), parsing is bounded ([parse_uint]), sums saturate where the
    source's do.  Floating-point values that are only stored are bit patterns;
    those that are computed with are IEEE numbers of the Standard Library's
    SpecFloat, rounded at 32 or 64 bits.  Strings are bytes; trimming and
    splitting on white space is that of ASCII, the Unicode classes of characters
    are a parameter ([CharTables]).  Hash maps whose order cannot be observed
    are [gmap]; where the order of iteration is unspecified and could show, it
    is a parameter ([ReadDir], [HashOrder], the row order of [Sqlite]) or the
    result is sorted as in the source.  Clock readings are arguments, git's
    answers and the contents of files too.  The features are those of the full
    build (rbac, notes, federation, policy-lint, vector, fts, hub-provenance)
    without slm and http-compression, each optional step modelled by the component
    it belongs to: the index runs of Reindex write the tables of the graph, and the
    steps for notes, Markdown, spans, vectors and texts are operations of NoteCmds,
    Docs, Traces, Vector and Fts; the dispatcher of the MCP server is the one without
    the search and lint tools, which Search models as calls.  [policy_gate_exact]
    covers the federated run and a log that cannot be written.

    Loops that are not structural take fuel: a path search runs at most once per
    node, cycle search at most one level per file, probing at most once per
    bucket, an upload once per byte, an
    adaptive search window four times; the theorems state that these bounds
    suffice, that is, that a result is returned.  The clustering is the exception: the
    source does not bound its rounds, and what is said of modules is said once it has
    settled.

    Outside the repository, and parameters here, with their documented laws as
    classes where a theorem needs them: SQLite with its file format, FTS5 and
    sqlite-vec, tree-sitter with its grammars and queries, the Roaring bitmap, the
    file system's listing order, the
    resolver's answers, SHA-256, BLAKE3, Ed25519, serde_json, TOML and YAML,
    regular expressions, the embedding model, the hash of the interner, the events of
    the CommonMark parser.

    ** Not modelled

    The argument parsing of the command line, with the commands that
    only print or call a language model (main.rs, report.rs,
    export.rs, viz.rs, doc_provenance.rs, ask.rs, slm.rs); lock files, git hooks, the
    place of the index and the detection of network file systems (lock.rs, hooks.rs,
    storage_location.rs, fs_safety.rs); accept loops, timeouts and
    compression of the servers; the Turso backend, which repeats
    the statements of the SQLite one over an asynchronous client; the Python and
    WebAssembly bindings. *)

From stdpp Require Export base tactics option list sorting gmap strings numbers relations.
Export stdpp.list_basics.list stdpp.list_relations.list stdpp.list_monad.list
  stdpp.list_misc.list stdpp.list_tactics.list stdpp.list_numbers.list.

Create HintDb weave.

Declare Scope weave_scope.
Delimit Scope weave_scope with weave.
Global Open Scope weave_scope.

(** ** Results: Rust's [Result<T, E>] *)

Inductive result (A E : Type) : Type :=
| Ok (a : A)
| Err (e : E).
Arguments Ok {_ _} _.
Arguments Err {_ _} _.

Definition result_bind {A B E} (r : result A E) (k : A → result B E) : result B E :=
  match r with Ok a => k a | Err e => Err e end.

Definition result_map {A B E} (f : A → B) (r : result A E) : result B E :=
  match r with Ok a => Ok (f a) | Err e => Err e end.

Definition result_ok {A E} (r : result A E) : option A :=
  match r with Ok a => Some a | Err _ => None end.

Definition is_ok {A E} (r : result A E) : bool :=
  match r with Ok _ => true | Err _ => false end.

(** The [?] operator. *)
Notation "'let?' x ':=' r 'in' k" := (result_bind r (λ x, k))
  (at level 10, x name, r at level 100, k at level 200) : weave_scope.

#[global] Instance result_eq_dec {A E} `{EqDecision A, EqDecision E} : EqDecision (result A E).
Proof. solve_decision. Defined.

(** ** Machine integers *)

Definition u32_MAX : N := 4294967295.
Definition u64_modulus : N := 18446744073709551616.

(** The cast [n as u32] of a [usize]. *)
Definition as_u32 (n : nat) : N := (N.of_nat n `mod` 4294967296)%N.

(** The cast [i as usize] of a [u32]. *)
Definition as_usize (i : N) : nat := N.to_nat i.

(** [f32] and [f64] values are kept as their IEEE 754 bit patterns; [<] on
    them compares sign-magnitude keys and is false when a side is NaN. *)
Definition float_key (sign_bit : N) (bits : N) : Z :=
  if (bits <? sign_bit)%N then Z.of_N bits else (- Z.of_N (bits - sign_bit))%Z.

Definition f32_is_nan (bits : N) : bool := (2139095040 <? bits `mod` 2147483648)%N.
Definition f32_lt (a b : N) : bool :=
  negb (f32_is_nan a) && negb (f32_is_nan b) &&
  (float_key 2147483648 a <? float_key 2147483648 b)%Z.

(** ** Bounded loops with an early exit

    [for _ in 0..n { .. break r .. }] over a state: the body either continues
    with a new state or breaks with a result.  The recursion is on the binary
    counter, so that a loop bounded by [u32::MAX] that breaks early can be
    evaluated. *)

Inductive flow (S R : Type) : Type :=
| Continue (s : S)
| Break (r : R).
Arguments Continue {_ _} _.
Arguments Break {_ _} _.

Definition flow_bind {S R} (x : flow S R) (f : S → flow S R) : flow S R :=
  match x with Continue s => f s | Break r => Break r end.

Fixpoint for_pos {S R} (p : positive) (f : S → flow S R) (s : S) : flow S R :=
  match p with
  | xH => f s
  | xO p => flow_bind (for_pos p f s) (for_pos p f)
  | xI p => flow_bind (f s) (λ s, flow_bind (for_pos p f s) (for_pos p f))
  end.

Definition for_N {S R} (n : N) (f : S → flow S R) (s : S) : flow S R :=
  match n with N0 => Continue s | Npos p => for_pos p f s end.

(** The reference definition, by recursion on a unary counter. *)
Fixpoint for_nat {S R} (n : nat) (f : S → flow S R) (s : S) : flow S R :=
  match n with
  | O => Continue s
  | Datatypes.S n => flow_bind (f s) (for_nat n f)
  end.

Lemma flow_bind_assoc {S R} (x : flow S R) f g :
  flow_bind (flow_bind x f) g = flow_bind x (λ s, flow_bind (f s) g).
Proof. by destruct x. Qed.

Lemma for_nat_add {S R} n m (f : S → flow S R) s :
  for_nat (n + m) f s = flow_bind (for_nat n f s) (for_nat m f).
Proof.
  revert s; induction n as [|n IH]; intros s; [done|].
  simpl. rewrite flow_bind_assoc. destruct (f s); [apply IH|done].
Qed.

Lemma for_pos_nat {S R} p (f : S → flow S R) s :
  for_pos p f s = for_nat (Pos.to_nat p) f s.
Proof.
  revert s; induction p as [p IH|p IH|]; intros s.
  - rewrite Pos2Nat.inj_xI. simpl. destruct (f s) as [s'|]; [|done]. simpl.
    replace (Pos.to_nat p + (Pos.to_nat p + 0)) with (Pos.to_nat p + Pos.to_nat p) by lia.
    rewrite for_nat_add, IH. destruct (for_nat _ f s'); simpl; auto.
  - rewrite Pos2Nat.inj_xO. cbn [for_pos].
    replace (2 * Pos.to_nat p) with (Pos.to_nat p + Pos.to_nat p) by lia.
    rewrite for_nat_add, IH. destruct (for_nat _ f s); simpl; auto.
  - change (Pos.to_nat 1) with 1. simpl. by destruct (f s).
Qed.

Lemma for_N_nat {S R} n (f : S → flow S R) s :
  for_N n f s = for_nat (N.to_nat n) f s.
Proof. destruct n as [|p]; [done|]. apply for_pos_nat. Qed.

(** ** Slices: [binary_search], [dedup], sorting *)

(** [<[u32]>::binary_search]: the halving loop of the standard library. *)
Fixpoint bsearch_loop (fuel : nat) (l : list N) (x : N) (base size : nat) : nat :=
  match fuel with
  | O => base
  | S fuel =>
      if decide (size ≤ 1) then base else
      let half := Nat.div2 size in
      let mid := base + half in
      let base := match l !! mid with
                  | Some y => if (x <? y)%N then base else mid
                  | None => base
                  end in
      bsearch_loop fuel l x base (size - half)
  end.

Definition binary_search (l : list N) (x : N) : option nat :=
  match l with
  | [] => None
  | _ =>
      let base := bsearch_loop (length l) l x 0 (length l) in
      match l !! base with
      | Some y => if (y =? x)%N then Some base else None
      | None => None
      end
  end.

(** [Vec::dedup]: drops each element equal to the one kept before it. *)
Fixpoint dedup_from {A} `{EqDecision A} (prev : A) (l : list A) : list A :=
  match l with
  | [] => []
  | x :: l => if decide (prev = x) then dedup_from prev l else x :: dedup_from x l
  end.

Definition dedup {A} `{EqDecision A} (l : list A) : list A :=
  match l with [] => [] | x :: l => x :: dedup_from x l end.

(** Total orders given by a boolean comparison, as [Ord::cmp] gives them. *)
Class OrdB {A} (leb : A → A → bool) : Prop := {
  ordb_total x y : leb x y = true ∨ leb y x = true;
  ordb_trans x y z : leb x y = true → leb y z = true → leb x z = true;
  ordb_antisym x y : leb x y = true → leb y x = true → x = y;
}.

Definition pair_leb {A B} `{EqDecision A} (la : A → A → bool) (lb : B → B → bool)
    (x y : A * B) : bool :=
  if decide (x.1 = y.1) then lb x.2 y.2 else la x.1 y.1.

(** Lexicographic order of vectors. *)
Fixpoint list_leb {A} `{EqDecision A} (leb : A → A → bool) (l k : list A) : bool :=
  match l, k with
  | [], _ => true
  | _ :: _, [] => false
  | x :: l, y :: k => if decide (x = y) then list_leb leb l k else leb x y
  end.

(** Iteration of a [BTreeSet]: ascending. *)
Definition btree_iter {A} `{Countable A} (leb : A → A → bool) (s : gset A) : list A :=
  @merge_sort A (λ x y, leb x y = true) (λ x y, decide (leb x y = true)) (elements s).

(** [slice::sort] and [sort_unstable] on a type with a total order; a stable
    merge sort. *)
Definition sort_by {A} (leb : A → A → bool) (l : list A) : list A :=
  @merge_sort A (λ x y, leb x y = true) (λ x y, decide (leb x y = true)) l.

#[global] Instance OrdB_N : OrdB N.leb.
Proof.
  split; intros *; rewrite ?N.leb_le; lia.
Qed.

#[global] Instance OrdB_nat : OrdB Nat.leb.
Proof.
  split; intros *; rewrite ?Nat.leb_le; lia.
Qed.

#[global] Instance OrdB_string : OrdB String.leb.
Proof.
  split.
  - apply String.leb_total.
  - intros x y z ?%Is_true_true ?%Is_true_true. apply Is_true_true.
    by apply (transitivity (R := String.le) (y := y)).
  - apply String.leb_antisym.
Qed.

#[global] Instance OrdB_pair {A B} `{EqDecision A} (la : A → A → bool) (lb : B → B → bool) :
  OrdB la → OrdB lb → OrdB (pair_leb la lb).
Proof.
  intros Ha Hb. split; intros; unfold pair_leb in *; repeat case_decide; try congruence.
  - apply ordb_total.
  - apply ordb_total.
  - repeat match goal with H : fst _ = fst _ |- _ => rewrite H in *; clear H end.
    eapply ordb_trans; eauto.
  - exfalso. destruct x, y, z; simpl in *; subst.
    match goal with H : _ ≠ _ |- _ => apply H end. eauto using ordb_antisym.
  - eauto using ordb_trans.
  - destruct x, y; simpl in *; subst. f_equal. eauto using ordb_antisym.
  - exfalso. eauto using ordb_antisym.
Qed.

Section sort_by.
Context {A : Type} (leb : A → A → bool).

Lemma elem_of_btree_iter `{Countable A} x (s : gset A) : x ∈ btree_iter leb s ↔ x ∈ s.
Proof. unfold btree_iter. by rewrite merge_sort_Permutation, elem_of_elements. Qed.

Lemma sort_by_perm l : sort_by leb l ≡ₚ l.
Proof. apply merge_sort_Permutation. Qed.

Lemma elem_of_sort_by x l : x ∈ sort_by leb l ↔ x ∈ l.
Proof. by rewrite sort_by_perm. Qed.

Lemma length_sort_by l : length (sort_by leb l) = length l.
Proof. by rewrite sort_by_perm. Qed.

Lemma NoDup_sort_by l : NoDup (sort_by leb l) ↔ NoDup l.
Proof. by rewrite sort_by_perm. Qed.

(** A comparison by key is total and transitive, not antisymmetric. *)
Lemma sort_by_sorted_key l :
  (∀ x y, leb x y = true ∨ leb y x = true) →
  (∀ x y z, leb x y = true → leb y z = true → leb x z = true) →
  StronglySorted (λ x y, leb x y = true) (sort_by leb l).
Proof.
  intros Htot Htr. apply Sorted_StronglySorted; [|apply Sorted_merge_sort].
  - intros x y z. apply Htr.
  - intros x y. apply Htot.
Qed.

Lemma sort_by_sorted l : OrdB leb → StronglySorted (λ x y, leb x y = true) (sort_by leb l).
Proof.
  intros HO. apply Sorted_StronglySorted; [|apply Sorted_merge_sort].
  - intros x y z. apply ordb_trans.
  - intros x y. apply ordb_total.
Qed.

Lemma sort_by_unique l1 l2 :
  OrdB leb → StronglySorted (λ x y, leb x y = true) l2 → l1 ≡ₚ l2 → sort_by leb l1 = l2.
Proof.
  intros HO Hs Hp. assert (AntiSymm (=) (λ x y, leb x y = true)) as HA.
  { intros x y. apply ordb_antisym. }
  apply (StronglySorted_unique (λ x y, leb x y = true)); [by apply sort_by_sorted|done|].
  by rewrite sort_by_perm.
Qed.
End sort_by.

(** Across the split point of a sorted list. *)
Lemma take_sorted_leb {A} {leb : A → A → bool} k l x y :
  StronglySorted (λ x y, leb x y = true) l → x ∈ take k l → y ∈ drop k l → leb x y = true.
Proof.
  intros Hs Hx Hy. rewrite <-(take_drop k l) in Hs.
  by apply (StronglySorted_app_1_elem_of _ (take k l) (drop k l) x y Hs).
Qed.

Lemma elem_of_dedup_from {A} `{EqDecision A} (p x : A) l :
  x ∈ dedup_from p l ∨ x = p ↔ x ∈ l ∨ x = p.
Proof.
  revert p; induction l as [|y l IH]; intros p; simpl; [done|].
  case_decide; subst.
  - rewrite IH, elem_of_cons. naive_solver.
  - rewrite !elem_of_cons. specialize (IH y). naive_solver.
Qed.

Lemma elem_of_dedup {A} `{EqDecision A} (x : A) l : x ∈ dedup l ↔ x ∈ l.
Proof.
  destruct l as [|y l]; [done|]. simpl. rewrite !elem_of_cons.
  pose proof (elem_of_dedup_from y x l). naive_solver.
Qed.

(** Deduplicating a sorted list yields a strictly sorted one. *)
Lemma dedup_from_sorted {A} `{EqDecision A} (leb : A → A → bool) p l :
  OrdB leb → StronglySorted (λ x y, leb x y = true) (p :: l) →
  StronglySorted (λ x y, leb x y = true ∧ x ≠ y) (p :: dedup_from p l).
Proof.
  intros HO. revert p; induction l as [|y l IH]; intros p Hs; simpl.
  - repeat constructor.
  - apply StronglySorted_inv in Hs as [Hs HF]. inversion HF as [|?? Hpy HF']; subst.
    case_decide; subst.
    + by apply IH.
    + specialize (IH _ Hs). constructor; [done|]. constructor; [done|].
      apply StronglySorted_inv in IH as [IH HIH].
      rewrite Forall_forall in HIH |- *. intros z Hz. destruct (HIH _ Hz) as [Hyz Hne].
      split; [eauto using ordb_trans|]. intros ->. eauto using ordb_antisym.
Qed.

Lemma dedup_sorted {A} `{EqDecision A} (leb : A → A → bool) l :
  OrdB leb → StronglySorted (λ x y, leb x y = true) l →
  StronglySorted (λ x y, leb x y = true ∧ x ≠ y) (dedup l).
Proof.
  intros HO. destruct l as [|x l]; intros Hs; [constructor|]. by apply dedup_from_sorted.
Qed.

Lemma strict_sorted_NoDup {A} (leb : A → A → bool) l :
  StronglySorted (λ x y, leb x y = true ∧ x ≠ y) l → NoDup l.
Proof.
  induction 1 as [|x l _ IH HF]; constructor; [|done].
  intros Hx. rewrite Forall_forall in HF. by destruct (HF _ Hx).
Qed.

Lemma strict_sorted_lt l :
  StronglySorted (λ x y, (x <=? y)%N = true ∧ x ≠ y) l → StronglySorted N.lt l.
Proof.
  induction 1 as [|x l _ IH HF]; constructor; [done|].
  eapply Forall_impl; [done|]. intros y [?%N.leb_le ?]. lia.
Qed.

(** Distinct keys in ascending order are strictly ascending. *)
Lemma sorted_key_lt {A} (key : A → N) (l : list A) :
  StronglySorted (λ a b, (key a <=? key b)%N = true) l → NoDup (key <$> l) →
  StronglySorted N.lt (key <$> l).
Proof.
  induction 1 as [|a l _ IH HF]; cbn; [constructor|]. intros [Ha Hl]%NoDup_cons.
  constructor; [auto|]. rewrite Forall_fmap. rewrite !Forall_forall in *.
  intros b Hb. specialize (HF b Hb). rewrite N.leb_le in HF. simpl.
  assert (key a ≠ key b); [|lia]. intros Heq. apply Ha. rewrite Heq. by apply list_elem_of_fmap_2.
Qed.

Lemma dedup_id (l : list N) : StronglySorted N.lt l → dedup l = l.
Proof.
  assert (∀ p l, StronglySorted N.lt (p :: l) → dedup_from p l = l) as Hd.
  { intros p k; revert p. induction k as [|x k IH]; intros p Hs; [done|].
    apply StronglySorted_inv in Hs as [Hs HF]. inversion HF; subst. simpl.
    rewrite decide_False by lia. f_equal. auto. }
  destruct l as [|x l]; intros Hs; [done|]. simpl. by rewrite Hd.
Qed.

Lemma StronglySorted_lookup_lt (l : list N) i j x y :
  StronglySorted N.lt l → l !! i = Some x → l !! j = Some y → i < j → (x < y)%N.
Proof.
  intros Hs. revert i j; induction Hs as [|z l Hs IH HF]; intros i j Hi Hj Hij; [done|].
  destruct j as [|j]; [lia|]. simpl in Hj. destruct i as [|i]; simpl in Hi.
  - simplify_eq. rewrite Forall_forall in HF. apply HF. eapply list_elem_of_lookup_2; eauto.
  - eapply IH; eauto; lia.
Qed.

Lemma StronglySorted_lookup_inj (l : list N) i j x :
  StronglySorted N.lt l → l !! i = Some x → l !! j = Some x → i = j.
Proof.
  intros Hs Hi Hj. destruct (decide (i < j)); [|destruct (decide (j < i)); [|lia]].
  - pose proof (StronglySorted_lookup_lt _ _ _ _ _ Hs Hi Hj l0). lia.
  - pose proof (StronglySorted_lookup_lt _ _ _ _ _ Hs Hj Hi l0). lia.
Qed.

(** The loop keeps the index of [x], when there is one, inside its window. *)
Lemma bsearch_loop_spec fuel (l : list N) x base size i :
  StronglySorted N.lt l → l !! i = Some x →
  base + size ≤ length l → base ≤ i < base + size → size ≤ fuel →
  bsearch_loop fuel l x base size = i.
Proof.
  intros Hs Hi. revert base size; induction fuel as [|fuel IH]; intros base size Hlen Hin Hf;
    simpl; [lia|].
  case_decide as Hsz; [lia|].
  pose proof (Nat.div2_decr size (size - 1)) as Hd.
  assert (Nat.div2 size < size ∧ 1 ≤ Nat.div2 size ∧ 2 * Nat.div2 size ≤ size) as (?&?&?).
  { pose proof (Nat.div2_odd size) as Ho. destruct (Nat.odd size); simpl in Ho; lia. }
  destruct (lookup_lt_is_Some_2 l (base + Nat.div2 size)) as [y Hy]; [lia|].
  rewrite Hy. destruct (N.ltb_spec x y) as [Hlt|Hge].
  - apply IH; [lia| |lia]. split; [lia|].
    destruct (decide (i < base + Nat.div2 size)); [lia|].
    destruct (decide (i = base + Nat.div2 size)) as [->|]; [simplify_eq; lia|].
    pose proof (StronglySorted_lookup_lt l _ i _ _ Hs Hy Hi ltac:(lia)). lia.
  - apply IH; [lia| |lia]. split; [|lia].
    destruct (decide (base + Nat.div2 size ≤ i)); [lia|].
    pose proof (StronglySorted_lookup_lt l i _ _ _ Hs Hi Hy ltac:(lia)). lia.
Qed.

Lemma binary_search_sound l x i : binary_search l x = Some i → l !! i = Some x.
Proof.
  unfold binary_search. destruct l as [|z l]; [done|].
  destruct (_ !! _) as [y|] eqn:Hy; [|done].
  destruct (N.eqb_spec y x); intros; simplify_eq. done.
Qed.

(** On a strictly sorted slice the search finds exactly the index of [x]. *)
Lemma binary_search_Some l x i :
  StronglySorted N.lt l → binary_search l x = Some i ↔ l !! i = Some x.
Proof.
  intros Hs. split; [apply binary_search_sound|]. intros Hi.
  unfold binary_search. destruct l as [|z l]; [done|].
  pose proof (lookup_lt_Some _ _ _ Hi).
  erewrite bsearch_loop_spec by (eauto; lia).
  rewrite Hi. by rewrite N.eqb_refl.
Qed.

Lemma binary_search_None l x :
  StronglySorted N.lt l → binary_search l x = None ↔ x ∉ l.
Proof.
  intros Hs. split.
  - intros Hn [i Hi]%list_elem_of_lookup. apply (binary_search_Some _ _ _ Hs) in Hi. congruence.
  - intros Hx. destruct (binary_search l x) as [i|] eqn:E; [|done].
    apply binary_search_sound in E. destruct Hx. by eapply list_elem_of_lookup_2.
Qed.

#[export] Hint Resolve sort_by_sorted sort_by_perm elem_of_sort_by OrdB_N OrdB_nat OrdB_string : weave.

(** ** Vectors

    Indexing and slicing panic out of range: [None]. *)

Definition vec_set {A} (l : list A) (i : nat) (x : A) : option (list A) :=
  if decide (i < length l) then Some (<[i:=x]> l) else None.

Definition slice {A} (l : list A) (s e : nat) : option (list A) :=
  if decide (s ≤ e ∧ e ≤ length l) then Some (take (e - s) (drop s l)) else None.

(** [iter().enumerate()]. *)
Definition enumerate {A} (l : list A) : list (nat * A) := imap pair l.

(** A [for] loop whose body may panic. *)
Fixpoint foldlM {A B} (f : A → B → option A) (l : list B) (a : A) : option A :=
  match l with
  | [] => Some a
  | x :: l => a ← f a x; foldlM f l a
  end.

Lemma foldlM_app {A B} (f : A → B → option A) l1 l2 a :
  foldlM f (l1 ++ l2) a = foldlM f l1 a ≫= foldlM f l2.
Proof.
  revert a; induction l1 as [|x l1 IH]; intros a; [done|].
  simpl. destruct (f a x); simpl; auto.
Qed.

(** The loop runs to the end when the body preserves an invariant indexed by
    the consumed prefix. *)
Lemma foldlM_inv {A B} (P : list B → A → Prop) (f : A → B → option A) l a :
  P [] a →
  (∀ pre x post a, l = pre ++ x :: post → P pre a → ∃ a', f a x = Some a' ∧ P (pre ++ [x]) a') →
  ∃ a', foldlM f l a = Some a' ∧ P l a'.
Proof.
  intros H0 Hstep.
  assert (∀ post pre a, l = pre ++ post → P pre a →
    ∃ a', foldlM f post a = Some a' ∧ P l a') as Hgen.
  { induction post as [|x post IH]; intros pre b Hl HP; simpl.
    - rewrite app_nil_r in Hl. subst. eauto.
    - destruct (Hstep pre x post b Hl HP) as (b' & -> & HP'). simpl.
      apply (IH (pre ++ [x])); [|done]. by rewrite <-app_assoc. }
  by apply (Hgen l []).
Qed.

Lemma vec_set_lt {A} (l : list A) i x : i < length l → vec_set l i x = Some (<[i:=x]> l).
Proof. intros. unfold vec_set. by rewrite decide_True. Qed.

Lemma vec_set_mid {A} (l k : list A) i x y :
  i = length l → vec_set (l ++ y :: k) i x = Some (l ++ x :: k).
Proof.
  intros ->. rewrite vec_set_lt by (rewrite length_app; simpl; lia).
  f_equal. by rewrite insert_app_r_alt, Nat.sub_diag by lia.
Qed.

Lemma slice_mid {A} (a b c : list A) s e :
  s = length a → e = length a + length b → slice (a ++ b ++ c) s e = Some b.
Proof.
  intros -> ->. unfold slice. rewrite decide_True by (rewrite !length_app; lia).
  f_equal. rewrite drop_app_length. rewrite Nat.add_sub_swap, Nat.sub_diag by lia. simpl.
  by rewrite take_app_length.
Qed.

Lemma length_omap_le {A B} (f : A → option B) l : length (omap f l) ≤ length l.
Proof. induction l as [|x l IH]; [done|]. cbn. destruct (f x); simpl; lia. Qed.

(** ** Bounded reachability *)

Lemma enumerate_snd {A} (l : list A) : (enumerate l).*2 = l.
Proof. unfold enumerate. rewrite fmap_imap. change (imap (const id) l = l). by rewrite imap_const, list_fmap_id. Qed.

Lemma bsteps_S_inv {A} (R : relation A) n x y :
  bsteps R (S n) x y → bsteps R n x y ∨ ∃ z, bsteps R n x z ∧ R z y.
Proof.
  revert x; induction n as [|n IH]; intros x Hb.
  - inversion Hb as [|?? z ? Hxz Hb']; subst; [left; constructor|].
    inversion Hb'; subst. right. exists x. split; [constructor|done].
  - inversion Hb as [|?? z ? Hxz Hb']; subst; [left; constructor|].
    destruct (IH _ Hb') as [?|(w & ? & ?)].
    + left. by econstructor.
    + right. exists w. split; [by econstructor|done].
Qed.

Lemma bsteps_closed {A} (R : relation A) (P : A → Prop) n x y :
  P x → (∀ a b, P a → R a b → P b) → bsteps R n x y → P y.
Proof. intros Hx Hcl Hb. revert Hx. induction Hb; eauto. Qed.

Lemma StronglySorted_filter {A} (R : A → A → Prop) (P : A → Prop) `{∀ x, Decision (P x)} l : StronglySorted R l → StronglySorted R (filter P l).
Proof.
  induction 1 as [|x l Hl IH Hx]; [constructor|]. rewrite filter_cons. case_decide; [|done]. constructor; [done|].
  rewrite Forall_forall in *. intros y [_ Hy]%list_elem_of_filter. by apply Hx.
Qed.

Lemma bsteps_flip {A} (R : relation A) n x y : bsteps R n x y ↔ bsteps (flip R) n y x.
Proof.
  assert (∀ (R : relation A) n x y, bsteps R n x y → bsteps (flip R) n y x) as Hf.
  { intros Q k a b. induction 1 as [|k a c b Hac Hb IH]; [constructor|].
    eapply bsteps_r; [done|]. exact Hac. }
  split; [apply Hf|]. intros Hb%Hf. exact Hb.
Qed.

Lemma size_union_le {A} `{Countable A} (X Y : gset A) : size (X ∪ Y) ≤ size X + size Y.
Proof. rewrite size_union_alt. assert (size (Y ∖ X) ≤ size Y) by (apply subseteq_size; set_solver). lia. Qed.

Lemma size_list_to_set_le {A} `{Countable A} (l : list A) : size (list_to_set l : gset A) ≤ length l.
Proof.
  induction l as [|x l IH]; [done|]. cbn. etrans; [apply size_union_le|]. rewrite size_singleton. lia.
Qed.
