(* ===== verification/Str.v ===== *)
(** * Strings: the [str] methods the code uses

    A Rust string is its UTF-8 bytes, kept as a [string] of [ascii] bytes;
    [String.leb] is the byte order of [str::cmp].  Each method comes with the
    equation that specifies it. *)

From Stdlib Require Export Ascii.
From S2P Require Import Prelude.

#[global] Open Scope string_scope.
#[global] Open Scope nat_scope.
#[global] Open Scope list_scope.

#[global] Arguments String.append : simpl nomatch.

(** ** Definitions *)

(** [str::strip_prefix] and [starts_with]. *)
Fixpoint strip_prefix (p s : string) : option string :=
  match p, s with
  | EmptyString, _ => Some s
  | String a p, String b s => if decide (a = b) then strip_prefix p s else None
  | String _ _, EmptyString => None
  end.

Definition starts_with (s p : string) : bool := bool_decide (is_Some (strip_prefix p s)).

(** [str::strip_suffix] and [ends_with]: the first position at which the rest
    is the suffix. *)
Fixpoint strip_suffix (suf s : string) : option string :=
  if decide (s = suf) then Some "" else
  match s with
  | EmptyString => None
  | String a s => String a <$> strip_suffix suf s
  end.

Definition ends_with (s suf : string) : bool := bool_decide (is_Some (strip_suffix suf s)).

(** [str::split_once(pat)]: around the first occurrence. *)
Fixpoint split_once (s pat : string) : option (string * string) :=
  match strip_prefix pat s with
  | Some rest => Some ("", rest)
  | None =>
      match s with
      | EmptyString => None
      | String a s => (λ '(l, r), (String a l, r)) <$> split_once s pat
      end
  end.

(** [str::rsplit_once(pat)]: around the last occurrence. *)
Fixpoint rsplit_once (s pat : string) : option (string * string) :=
  match s with
  | EmptyString => if decide (pat = "") then Some ("", "") else None
  | String a s' =>
      match rsplit_once s' pat with
      | Some (l, r) => Some (String a l, r)
      | None => (λ rest, ("", rest)) <$> strip_prefix pat s
      end
  end.

(** [str::contains(pat)]. *)
Definition str_contains (s pat : string) : bool := bool_decide (is_Some (split_once s pat)).

(** [str::split(c)] on a single-byte separator. *)
Fixpoint split_char (c : ascii) (s : string) : list string :=
  match s with
  | EmptyString => [""]
  | String a s =>
      if decide (a = c) then "" :: split_char c s
      else match split_char c s with
           | [] => [String a ""]
           | x :: l => String a x :: l
           end
  end.

(** [str::lines]: the pieces between newlines, without the carriage return
    before one; no piece after a final newline. *)
Fixpoint unterminate (ps : list string) : list string :=
  match ps with
  | [] => []
  | [x] => match x with EmptyString => [] | _ => [x] end
  | x :: ps => default x (strip_suffix (String "013"%char "") x) :: unterminate ps
  end.
Definition lines (s : string) : list string := unterminate (split_char "010"%char s).

(** [[String]::join(sep)]. *)
Fixpoint join (sep : string) (l : list string) : string :=
  match l with
  | [] => ""
  | [x] => x
  | x :: l => x +:+ sep +:+ join sep l
  end.

(** Byte classes. *)
Definition byte (a : ascii) : N := N_of_ascii a.
Definition is_digit (a : ascii) : bool := (48 <=? byte a)%N && (byte a <=? 57)%N.
Definition is_upper (a : ascii) : bool := (65 <=? byte a)%N && (byte a <=? 90)%N.
Definition is_lower (a : ascii) : bool := (97 <=? byte a)%N && (byte a <=? 122)%N.
Definition is_alpha (a : ascii) : bool := is_upper a || is_lower a.
Definition is_alnum (a : ascii) : bool := is_alpha a || is_digit a.
(** ASCII whitespace as [char::is_whitespace] sees it. *)
Definition is_space (a : ascii) : bool :=
  ((9 <=? byte a)%N && (byte a <=? 13)%N) || (byte a =? 32)%N.
(** [char::is_ascii_control] on a byte. *)
Definition is_control (a : ascii) : bool := (byte a <? 32)%N || (byte a =? 127)%N.

Definition lower_byte (a : ascii) : ascii :=
  if is_upper a then ascii_of_N (byte a + 32) else a.

Fixpoint str_map (f : ascii → ascii) (s : string) : string :=
  match s with EmptyString => "" | String a s => String (f a) (str_map f s) end.

(** [str::to_ascii_lowercase]. *)
Definition to_ascii_lowercase (s : string) : string := str_map lower_byte s.

(** [s.bytes().all(p)] and [any]. *)
Fixpoint str_all (p : ascii → bool) (s : string) : bool :=
  match s with EmptyString => true | String a s => p a && str_all p s end.
Definition str_any (p : ascii → bool) (s : string) : bool := negb (str_all (λ a, negb (p a)) s).

(** [str::trim_start_matches(c)], [trim_end_matches(c)] and [trim]. *)
Fixpoint trim_start_by (p : ascii → bool) (s : string) : string :=
  match s with
  | EmptyString => ""
  | String a s' => if p a then trim_start_by p s' else s
  end.
Fixpoint trim_end_by (p : ascii → bool) (s : string) : string :=
  match s with
  | EmptyString => ""
  | String a s =>
      match trim_end_by p s with
      | EmptyString => if p a then "" else String a ""
      | t => String a t
      end
  end.
Definition trim (s : string) : string := trim_end_by is_space (trim_start_by is_space s).

(** [str::replace] of one character. *)
Fixpoint replace_char (c : ascii) (t s : string) : string :=
  match s with
  | EmptyString => ""
  | String a s => (if decide (a = c) then t else String a "") +:+ replace_char c t s
  end.

Definition is_empty (s : string) : bool := match s with EmptyString => true | _ => false end.

(** Decimal printing of an unsigned integer, as [Display] prints it. *)
Definition digit_char (d : N) : ascii := ascii_of_N (48 + d).
Fixpoint dec_digits (fuel : nat) (n : N) (acc : string) : string :=
  match fuel with
  | O => acc
  | S fuel =>
      let acc := String (digit_char (n mod 10)) acc in
      if (n <? 10)%N then acc else dec_digits fuel (n / 10) acc
  end.
Definition dec (n : N) : string := dec_digits (S (N.to_nat (N.log2 n))) n "".

(** Decimal parsing of digits only. *)
Fixpoint parse_digits (s : string) (acc : N) : option N :=
  match s with
  | EmptyString => Some acc
  | String a s => if is_digit a then parse_digits s (acc * 10 + (byte a - 48)) else None
  end.
(** [str::parse::<uN>()] with bound [max]: an optional [+], at least one digit,
    no overflow. *)
Definition parse_uint (max : N) (s : string) : option N :=
  let body := match strip_prefix "+" s with Some r => r | None => s end in
  if is_empty body then None else
  n ← parse_digits body 0; if (n <=? max)%N then Some n else None.

(** ** Specifications *)

Lemma append_nil_r s : s +:+ "" = s.
Proof. induction s as [|a s IH]; [done|]. simpl. by rewrite IH. Qed.

Lemma append_assoc a b c : (a +:+ b) +:+ c = a +:+ (b +:+ c).
Proof. induction a as [|x a IH]; [done|]. simpl. by rewrite IH. Qed.

Lemma length_append a b : String.length (a +:+ b) = String.length a + String.length b.
Proof. induction a as [|x a IH]; [done|]. simpl. by rewrite IH. Qed.

Lemma append_inv_head a b c : a +:+ b = a +:+ c → b = c.
Proof. induction a as [|x a IH]; [done|]. simpl. intros ?; simplify_eq. auto. Qed.

Lemma append_inv_len a b c d :
  String.length a = String.length c → a +:+ b = c +:+ d → a = c ∧ b = d.
Proof.
  revert c; induction a as [|x a IH]; intros [|y c] Hl; simplify_eq/=; [done|].
  intros ?; simplify_eq. destruct (IH c Hl) as [-> ->]; done.
Qed.

Lemma append_inv_tail a b c : a +:+ c = b +:+ c → a = b.
Proof.
  intros Heq. apply (append_inv_len a c b c); [|done].
  apply (f_equal String.length) in Heq. rewrite !length_append in Heq. lia.
Qed.

Lemma strip_prefix_Some p s r : strip_prefix p s = Some r ↔ s = p +:+ r.
Proof.
  revert s; induction p as [|a p IH]; intros s; simpl.
  - split; intros; simplify_eq; done.
  - destruct s as [|b s]; [done|]. case_decide; subst.
    + rewrite IH. split; intros; simplify_eq; done.
    + split; intros; simplify_eq.
Qed.

Lemma strip_prefix_None p s : strip_prefix p s = None ↔ ∀ r, s ≠ p +:+ r.
Proof.
  rewrite eq_None_not_Some. split.
  - intros Hn r Hr. apply Hn. exists r. by apply strip_prefix_Some.
  - intros Hn [r Hr%strip_prefix_Some]. by eapply Hn.
Qed.

Lemma starts_with_true s p : starts_with s p = true ↔ ∃ r, s = p +:+ r.
Proof.
  unfold starts_with. rewrite bool_decide_eq_true. split; intros [r Hr]; exists r;
    by apply strip_prefix_Some.
Qed.

Lemma strip_suffix_Some suf s r : strip_suffix suf s = Some r ↔ s = r +:+ suf.
Proof.
  revert r; induction s as [|a s IH]; intros r; simpl.
  - case_decide as Hd.
    + subst. split; intros; simplify_eq; [done|]. destruct r; [done|]. simplify_eq.
    + split; [done|]. destruct r, suf; intros; simplify_eq/=.
  - case_decide as Hd.
    + subst. split; intros; simplify_eq; [done|].
      apply (append_inv_tail "" r (String a s)) in H. by subst.
    + rewrite fmap_Some. setoid_rewrite IH. split.
      * intros (t & -> & ->). done.
      * destruct r as [|b r]; simpl; intros; simplify_eq. eauto.
Qed.

Lemma ends_with_true s suf : ends_with s suf = true ↔ ∃ r, s = r +:+ suf.
Proof.
  unfold ends_with. rewrite bool_decide_eq_true. split; intros [r Hr]; exists r;
    by apply strip_suffix_Some.
Qed.

Lemma split_once_sound s pat l r : split_once s pat = Some (l, r) → s = l +:+ pat +:+ r.
Proof.
  revert l r; induction s as [|a s IH]; intros l r; simpl.
  - destruct (strip_prefix pat "") as [t|] eqn:E; [|done]. intros; simplify_eq.
    by apply strip_prefix_Some in E.
  - destruct (strip_prefix pat (String a s)) as [t|] eqn:E.
    + intros; simplify_eq. by apply strip_prefix_Some in E.
    + rewrite fmap_Some. intros ([l' r'] & Hs & ?). simplify_eq. simpl. f_equal. auto.
Qed.

Lemma split_once_complete s pat l r :
  s = l +:+ pat +:+ r → ∃ l' r', split_once s pat = Some (l', r').
Proof.
  revert l; induction s as [|a s IH]; intros l Hs.
  - destruct l; [|done]. apply (strip_prefix_Some pat "" r) in Hs. simpl. rewrite Hs. eauto.
  - simpl. destruct (strip_prefix pat (String a s)) as [t|] eqn:E; [eauto|].
    destruct l as [|b l]; simpl in Hs.
    + apply strip_prefix_Some in Hs. congruence.
    + simplify_eq. destruct (IH l eq_refl) as (l' & r' & ->). simpl. eauto.
Qed.

Lemma str_contains_true s pat : str_contains s pat = true ↔ ∃ l r, s = l +:+ pat +:+ r.
Proof.
  unfold str_contains. rewrite bool_decide_eq_true. split.
  - intros [[l r] H%split_once_sound]. eauto.
  - intros (l & r & H). destruct (split_once_complete s pat l r H) as (? & ? & ->). eauto.
Qed.

Lemma rsplit_once_sound s pat l r : rsplit_once s pat = Some (l, r) → s = l +:+ pat +:+ r.
Proof.
  revert l r; induction s as [|a s IH]; intros l r; simpl.
  - case_decide; intros; simplify_eq. done.
  - destruct (rsplit_once s pat) as [[l' r']|].
    + intros; simplify_eq. simpl. f_equal. auto.
    + intros (t & Ht & ?)%fmap_Some. simplify_eq.
      by apply (strip_prefix_Some pat (String a s)).
Qed.

(** Joining what [split] separates gives the string back. *)
Lemma split_char_nonempty c s : split_char c s ≠ [].
Proof. destruct s as [|a s]; simpl; [done|]. case_decide; [done|]. by destruct (split_char c s). Qed.

Lemma join_split_char c s : join (String c "") (split_char c s) = s.
Proof.
  induction s as [|a s IH]; [done|]. simpl.
  pose proof (split_char_nonempty c s) as Hne. case_decide; subst.
  - destruct (split_char c s) as [|x l]; [done|]. simpl in *. by rewrite IH.
  - destruct (split_char c s) as [|x [|y l]]; [done|simpl in *; by subst|].
    cbn [join String.append] in *. by rewrite IH.
Qed.

Lemma str_all_forall p s : str_all p s = true ↔ Forall (λ a, p a = true) (String.list_ascii_of_string s).
Proof.
  induction s as [|a s IH]; simpl; [by split|]. rewrite andb_true_iff, IH, Forall_cons. done.
Qed.

Lemma str_all_append p a b : str_all p (a +:+ b) = str_all p a && str_all p b.
Proof. induction a as [|x a IH]; [done|]. simpl. by rewrite IH, andb_assoc. Qed.

Lemma byte_inj a b : byte a = byte b → a = b.
Proof. intros H. rewrite <-(ascii_N_embedding a), <-(ascii_N_embedding b). by f_equal. Qed.

Lemma byte_lt a : (byte a < 256)%N.
Proof. apply N_ascii_bounded. Qed.

(** ** Decimal round trip *)

Lemma digit_char_digit d : (d < 10)%N → is_digit (digit_char d) = true ∧ byte (digit_char d) = (48 + d)%N.
Proof.
  intros Hd. assert (byte (digit_char d) = (48 + d)%N) as Hb.
  { unfold byte, digit_char. apply N_ascii_embedding. lia. }
  split; [|done]. unfold is_digit. rewrite Hb. apply andb_true_iff. rewrite !N.leb_le. lia.
Qed.

Lemma parse_dec_digits fuel n acc k :
  (n < 2 ^ N.of_nat fuel)%N → fuel ≠ 0 →
  parse_digits (dec_digits fuel n acc) k = 
  parse_digits acc (k * 10 ^ N.of_nat (String.length (dec_digits fuel n "")) + n).
Proof.
  assert (∀ fuel n acc, dec_digits fuel n acc = dec_digits fuel n "" +:+ acc) as Happ.
  { clear. induction fuel as [|fuel IH]; intros n acc; [done|]. cbn [dec_digits].
    destruct (n <? 10)%N; [done|]. rewrite IH. rewrite (IH _ (String _ "")).
    by rewrite append_assoc. }
  revert n acc k; induction fuel as [|fuel IH]; intros n acc k Hn Hf; [done|].
  cbn [dec_digits]. destruct (N.ltb_spec n 10) as [Hlt|Hge].
  - rewrite N.mod_small by done. destruct (digit_char_digit n Hlt) as [Hd Hb].
    simpl. rewrite Hd, Hb. f_equal. lia.
  - assert (fuel ≠ 0) as Hf' by (intros ->; simpl in Hn; lia).
    assert (n / 10 < 2 ^ N.of_nat fuel)%N as Hn'.
    { apply N.Div0.div_lt_upper_bound. rewrite Nat2N.inj_succ, N.pow_succ_r' in Hn.
      revert Hn. generalize (2 ^ N.of_nat fuel)%N. intros; lia. }
    rewrite IH by done.
    assert (n mod 10 < 10)%N as Hm by (apply N.mod_lt; lia).
    destruct (digit_char_digit _ Hm) as [Hd Hb].
    rewrite (Happ fuel (n / 10)%N (String _ "")), length_append. simpl.
    rewrite Hd, Hb. f_equal. rewrite Nat.add_1_r, Nat2N.inj_succ, N.pow_succ_r'.
    pose proof (N.div_mod n 10 ltac:(lia)) as Hdm. revert Hdm.
    generalize (10 ^ N.of_nat (String.length (dec_digits fuel (n / 10) "")))%N (n / 10)%N (n mod 10)%N.
    intros P q m ->. replace (48 + m - 48)%N with m by lia. ring.
Qed.

Lemma parse_digits_dec n : parse_digits (dec n) 0 = Some n.
Proof.
  unfold dec. rewrite parse_dec_digits; [simpl; f_equal; lia| |done].
  rewrite Nat2N.inj_succ, N2Nat.id. destruct (decide (n = 0%N)) as [->|]; [done|].
  apply N.log2_spec. lia.
Qed.

Lemma dec_inj n m : dec n = dec m → n = m.
Proof. intros H. apply (f_equal (λ s, parse_digits s 0)) in H. rewrite !parse_digits_dec in H. by simplify_eq. Qed.

Lemma dec_digits_first fuel n acc :
  fuel ≠ 0 → ∃ a s, dec_digits fuel n acc = String a s ∧ is_digit a = true.
Proof.
  revert n acc; induction fuel as [|fuel IH]; intros n acc Hf; [done|]. cbn [dec_digits].
  assert (n mod 10 < 10)%N as Hm by (apply N.mod_lt; lia).
  destruct (digit_char_digit _ Hm) as [Hd _].
  destruct (n <? 10)%N; [eauto|]. destruct fuel as [|fuel]; [simpl; eauto|]. apply IH. done.
Qed.

Lemma parse_uint_dec_opt max n :
  parse_uint max (dec n) = if (n <=? max)%N then Some n else None.
Proof.
  unfold parse_uint. pose proof (parse_digits_dec n) as Hp.
  destruct (dec_digits_first (S (N.to_nat (N.log2 n))) n "") as (a & s & Hd & Ha); [done|].
  fold (dec n) in Hd. rewrite Hd in *. simpl.
  destruct (decide _) as [<-|]; [done|]. cbn [is_empty]. by rewrite Hp.
Qed.

Lemma parse_uint_dec max n : (n ≤ max)%N → parse_uint max (dec n) = Some n.
Proof. intros Hn%N.leb_le. by rewrite parse_uint_dec_opt, Hn. Qed.

(** ** Text without a separator *)

Definition no_char (c : ascii) (s : string) : Prop := str_all (λ a, negb (bool_decide (a = c))) s = true.

Lemma no_char_cons c a s : no_char c (String a s) ↔ a ≠ c ∧ no_char c s.
Proof. unfold no_char. cbn. rewrite andb_true_iff, negb_true_iff, bool_decide_eq_false. done. Qed.

Lemma no_char_append c a b : no_char c (a +:+ b) ↔ no_char c a ∧ no_char c b.
Proof. unfold no_char. by rewrite str_all_append, andb_true_iff. Qed.

(** The first separator splits a text in one way. *)
Lemma split_at_char c a b a' b' :
  no_char c a → no_char c a' → a +:+ String c "" +:+ b = a' +:+ String c "" +:+ b' → a = a' ∧ b = b'.
Proof.
  revert a'; induction a as [|x a IH]; intros [|x' a'] Ha Ha' Heq; cbn in Heq.
  - by simplify_eq.
  - simplify_eq. by apply no_char_cons in Ha' as [? _].
  - simplify_eq. by apply no_char_cons in Ha as [? _].
  - simplify_eq. apply no_char_cons in Ha as [_ Ha], Ha' as [_ Ha'].
    destruct (IH a' Ha Ha') as [-> ->]; [done|]. done.
Qed.

Lemma split_once_no_char c a b : no_char c a → split_once (a +:+ String c b) (String c "") = Some (a, b).
Proof.
  induction a as [|x a IH]; intros Ha.
  - cbn. by rewrite decide_True.
  - apply no_char_cons in Ha as [Hx Ha]. change (String x a +:+ String c b) with (String x (a +:+ String c b)).
    cbn [split_once strip_prefix]. rewrite decide_False by done. by rewrite (IH Ha).
Qed.

Lemma split_char_one c y : no_char c y → split_char c y = [y].
Proof.
  induction y as [|a y IH]; intros Hy; [done|]. apply no_char_cons in Hy as [Ha Hy]. cbn.
  rewrite decide_False by done. by rewrite (IH Hy).
Qed.

Lemma split_char_cons c x r : no_char c x → split_char c (x +:+ String c r) = x :: split_char c r.
Proof.
  induction x as [|a x IH]; intros Hx.
  - cbn. by rewrite decide_True.
  - apply no_char_cons in Hx as [Ha Hx]. change (String a x +:+ String c r) with (String a (x +:+ String c r)).
    cbn [split_char]. rewrite decide_False by done. by rewrite (IH Hx).
Qed.

Lemma split_char_join c l :
  l ≠ [] → Forall (no_char c) l → split_char c (join (String c "") l) = l.
Proof.
  induction l as [|x [|y l] IH]; intros Hne HF; [done| |]; apply Forall_cons in HF as [Hx HF].
  - by apply split_char_one.
  - change (join (String c "") (x :: y :: l)) with (x +:+ String c (join (String c "") (y :: l))).
    rewrite split_char_cons by done. by rewrite IH.
Qed.

Lemma append_last a s r c : s ≠ "" → a +:+ s = r +:+ String c "" → ∃ s', s = s' +:+ String c "".
Proof.
  revert r; induction a as [|x a IH]; intros r Hne Heq; [by exists r|].
  destruct r as [|y r]; cbn in Heq; simplify_eq; [|by eapply IH].
  by destruct a, s.
Qed.

(** ** Decimal text *)

Lemma parse_digits_all s k n : parse_digits s k = Some n → str_all is_digit s = true.
Proof.
  revert k; induction s as [|a s IH]; intros k H; cbn in *; [done|].
  destruct (is_digit a); [|done]. by eapply IH.
Qed.

Lemma dec_all_digits n : str_all is_digit (dec n) = true.
Proof. eapply parse_digits_all, parse_digits_dec. Qed.

Lemma dec_nonempty n : dec n ≠ "".
Proof.
  intros H. pose proof (parse_uint_dec n n ltac:(lia)) as Hp. rewrite H in Hp. by vm_compute in Hp.
Qed.

Lemma digits_no_char c s : is_digit c = false → str_all is_digit s = true → no_char c s.
Proof.
  intros Hc. induction s as [|a s IH]; [done|]. cbn [str_all]. rewrite andb_true_iff. intros [Ha Hs].
  apply no_char_cons. split; [by intros ->; rewrite Hc in Ha|by apply IH].
Qed.

(** ** Trimming *)

Lemma trim_start_by_no_char p c s : no_char c s → no_char c (trim_start_by p s).
Proof.
  induction s as [|a s IH]; intros H; [done|]. cbn. destruct (p a); [|done]. apply IH.
  by apply no_char_cons in H as [_ H].
Qed.

Lemma trim_end_by_no_char p c s : no_char c s → no_char c (trim_end_by p s).
Proof.
  induction s as [|a s IH]; intros H; [done|]. apply no_char_cons in H as [Ha H]. specialize (IH H). cbn.
  destruct (trim_end_by p s) as [|b t]; [|by apply no_char_cons].
  destruct (p a); [done|]. by apply no_char_cons.
Qed.

Lemma trim_end_by_idem p s : trim_end_by p (trim_end_by p s) = trim_end_by p s.
Proof.
  induction s as [|a s IH]; [done|]. cbn. destruct (trim_end_by p s) as [|b t] eqn:Ht.
  - destruct (p a) eqn:Ha; [done|]. cbn. by rewrite Ha.
  - cbn [trim_end_by] in *. by rewrite IH.
Qed.

Lemma trim_start_by_head p s : trim_start_by p s = "" ∨ ∃ a r, trim_start_by p s = String a r ∧ p a = false.
Proof.
  induction s as [|a s IH]; [by left|]. cbn. destruct (p a) eqn:Ha; [done|]. right. by exists a, s.
Qed.

Lemma trim_idem s : trim (trim s) = trim s.
Proof.
  unfold trim. destruct (trim_start_by_head is_space s) as [->|(a & r & -> & Ha)]; [done|].
  assert (∃ r', trim_end_by is_space (String a r) = String a r') as [r' Hr].
  { cbn. rewrite Ha. destruct (trim_end_by is_space r); eauto. }
  assert (trim_start_by is_space (trim_end_by is_space (String a r)) = trim_end_by is_space (String a r)) as ->.
  { rewrite Hr. cbn [trim_start_by]. by rewrite Ha. }
  apply trim_end_by_idem.
Qed.
