(* ===== verification/Bitmap.v ===== *)
(** * The visited-set interface

    The traversals of [weave-graph-core] keep their visited sets in a
    [roaring::RoaringBitmap], a third-party crate.  It is a parameter of the
    model: [Bitmap] names the operations the code calls and [BitmapLaws] what
    the crate documents of them (a set of [u32], iterated in ascending order;
    [insert] returns whether the value was new).  [gset_bitmap] is a concrete
    instance, used where a statement is evaluated. *)

From S2P Require Import Prelude.

Class Bitmap (B : Type) := {
  bm_new : B;
  bm_contains : B → N → bool;
  bm_insert : B → N → B * bool;
  bm_union : B → B → B;
  bm_iter : B → list N;
}.

Class BitmapLaws (B : Type) `{Bitmap B} : Prop := {
  bm_contains_new x : bm_contains bm_new x = false;
  bm_contains_insert b y x :
    bm_contains (bm_insert b y).1 x = bool_decide (x = y) || bm_contains b x;
  bm_insert_fresh b y : (bm_insert b y).2 = negb (bm_contains b y);
  bm_contains_union a b x : bm_contains (bm_union a b) x = bm_contains a x || bm_contains b x;
  bm_iter_sorted b : StronglySorted N.lt (bm_iter b);
  bm_iter_spec b x : x ∈ bm_iter b ↔ bm_contains b x = true;
}.

#[global] Instance gset_bitmap : Bitmap (gset N) := {|
  bm_new := ∅;
  bm_contains s x := bool_decide (x ∈ s);
  bm_insert s x := ({[x]} ∪ s, negb (bool_decide (x ∈ s)));
  bm_union s t := s ∪ t;
  bm_iter s := sort_by N.leb (elements s);
|}.

#[global] Instance gset_bitmap_laws : BitmapLaws (gset N).
Proof.
  split; simpl; intros.
  - apply bool_decide_eq_false. set_solver.
  - rewrite <-bool_decide_or. apply bool_decide_ext. set_solver.
  - done.
  - rewrite <-bool_decide_or. apply bool_decide_ext. set_solver.
  - pose proof (sort_by_sorted N.leb (elements b) _) as Hs.
    assert (NoDup (sort_by N.leb (elements b))) as Hnd
      by (apply NoDup_sort_by, NoDup_elements).
    revert Hs Hnd. generalize (sort_by N.leb (elements b)).
    induction 1 as [|x l Hs IH HF]; intros Hnd; constructor.
    + apply NoDup_cons in Hnd as [_ ?]. auto.
    + apply NoDup_cons in Hnd as [Hx _]. rewrite Forall_forall in HF |- *.
      intros y Hy. specialize (HF _ Hy). apply N.leb_le in HF.
      destruct (decide (x = y)) as [->|]; [done|]. lia.
  - rewrite elem_of_sort_by, elem_of_elements, bool_decide_eq_true. done.
Qed.

Section bitmap_lemmas.
Context {B} `{BitmapLaws B}.

Lemma bm_contains_insert_true b x y :
  bm_contains (bm_insert b y).1 x = true ↔ x = y ∨ bm_contains b x = true.
Proof. rewrite bm_contains_insert, orb_true_iff, bool_decide_eq_true. done. Qed.

Lemma bm_contains_union_true a b x :
  bm_contains (bm_union a b) x = true ↔ bm_contains a x = true ∨ bm_contains b x = true.
Proof. by rewrite bm_contains_union, orb_true_iff. Qed.
End bitmap_lemmas.
