(* ===== verification/Model.v ===== *)
(** * Domain types and the storage interface of [weave-graph-core]

    [Node], [Edge], [Confidence] and [edge_confidence] (model.rs), [StorageError]
    (error.rs) and the read side of the [Storage] trait (storage.rs), with its
    provided methods and the documented laws its clients rely on. *)

From S2P Require Import Prelude.

(** ** Domain types *)

Abbreviation NodeId := N (only parsing).
Abbreviation EdgeId := N (only parsing).

(** src/crates/weave-graph-core/src/model.rs:8-18 [Node] *)
Record Node := mkNode {
  node_id : NodeId;
  node_repo_id : string;
  node_path : string;
  node_symbol : string;
  node_kind : string;
  node_line_start : N;
  node_line_end : N;
  node_signature : string;
}.

(** src/crates/weave-graph-core/src/model.rs:29-38 [Edge]
    The [f64] weight is kept as its bit pattern: no operation modelled here
    computes with it. *)
Record Edge := mkEdge {
  edge_id : EdgeId;
  source_id : NodeId;
  target_id : NodeId;
  edge_kind : string;
  weight : N;
  extractor : option string;
  resolution_kind : option string;
}.

#[global] Instance Node_eq_dec : EqDecision Node.
Proof. solve_decision. Defined.
#[global] Instance Edge_eq_dec : EqDecision Edge.
Proof. solve_decision. Defined.

(** src/crates/weave-graph-core/src/model.rs:46-50 [Confidence] *)
Inductive Confidence := Exact | Heuristic.

#[global] Instance Confidence_eq_dec : EqDecision Confidence.
Proof. solve_decision. Defined.

(** src/crates/weave-graph-core/src/model.rs:71-71 [AMBIGUOUS_HEURISTIC] *)
Definition AMBIGUOUS_HEURISTIC : string := "AMBIGUOUS_HEURISTIC".

(** src/crates/weave-graph-core/src/model.rs:58-65 [edge_confidence] *)
Definition edge_confidence (kind : string) (rk : option string) : Confidence :=
  match rk with
  | Some k => if decide (k = AMBIGUOUS_HEURISTIC) then Heuristic else Exact
  | None => if decide (kind = "CALLS_DYNAMIC") then Heuristic else Exact
  end.

(** src/crates/weave-graph-core/src/error.rs:1-13 [StorageError] *)
Inductive StorageError :=
| Backend (msg : string)
| SchemaTooNew (found max : N).

#[global] Instance StorageError_eq_dec : EqDecision StorageError.
Proof. solve_decision. Defined.

(** ** The [Storage] trait

    [Self] is the backend's state.  A streaming method [for_each_*] with an
    [FnMut] closure is a fold over the closure's captured state. *)
(** src/crates/weave-graph-core/src/storage.rs:12-93 [Storage] *)
Class Storage (S : Type) := {
  get_node : S → NodeId → result (option Node) StorageError;
  get_edges : S → NodeId → result (list Edge) StorageError;
  get_callers : S → NodeId → result (list Edge) StorageError;
  all_nodes : S → result (list Node) StorageError;
  all_edges : S → result (list Edge) StorageError;
  for_each_node {A} : S → (A → Node → A) → A → result A StorageError;
  for_each_edge {A} : S → (A → Edge → A) → A → result A StorageError;
  get_node_by_symbol : S → string → result (option Node) StorageError;
}.

(** ** Provided methods of the trait *)
Section provided.
Context {S : Type} `{Storage S}.

(** src/crates/weave-graph-core/src/storage.rs:46-48 [Storage::edge_count] *)
Definition edge_count_default (s : S) : result nat StorageError :=
  result_map length (all_edges s).

(** src/crates/weave-graph-core/src/storage.rs:51-53 [Storage::node_count] *)
Definition node_count_default (s : S) : result nat StorageError :=
  result_map length (all_nodes s).

(** src/crates/weave-graph-core/src/storage.rs:61-66 [Storage::for_each_node] *)
Definition for_each_node_default {A} (s : S) (f : A → Node → A) (a : A) :
    result A StorageError :=
  let? ns := all_nodes s in Ok (foldl f a ns).

(** src/crates/weave-graph-core/src/storage.rs:88-93 [Storage::for_each_edge] *)
Definition for_each_edge_default {A} (s : S) (f : A → Edge → A) (a : A) :
    result A StorageError :=
  let? es := all_edges s in Ok (foldl f a es).

(** src/crates/weave-graph-core/src/storage.rs:77-85 [Storage::get_node_by_symbol] *)
Definition get_node_by_symbol_default (s : S) (sym : string) :
    result (option Node) StorageError :=
  for_each_node s (λ found n,
    match found with
    | None => if decide (node_symbol n = sym) then Some n else None
    | Some _ => found
    end) None.
End provided.

(** The contents of a healthy store, and what the documentation of the trait
    promises of its methods on them: nodes in id order (ids are the primary
    key), [get_node] the node with that id, [get_edges]/[get_callers] exactly
    the outbound/inbound edges, streaming equal to materialising. *)
Record StorageView {S} `{Storage S} (s : S) (ns : list Node) (es : list Edge) : Prop := {
  view_nodes : all_nodes s = Ok ns;
  view_edges : all_edges s = Ok es;
  view_ids : StronglySorted N.lt (node_id <$> ns);
  view_for_each_node {A} f (a : A) : for_each_node s f a = Ok (foldl f a ns);
  view_for_each_edge {A} f (a : A) : for_each_edge s f a = Ok (foldl f a es);
  view_get_node i : get_node s i = Ok (list_find (λ n, node_id n = i) ns ≫= λ p, Some p.2);
  view_get_edges i : ∃ l, get_edges s i = Ok l ∧ l ≡ₚ filter (λ e, source_id e = i) es;
  view_get_callers i : ∃ l, get_callers s i = Ok l ∧ l ≡ₚ filter (λ e, target_id e = i) es;
  view_by_symbol sym :
    ∃ o, get_node_by_symbol s sym = Ok o ∧
      match o with
      | Some n => n ∈ ns ∧ node_symbol n = sym
      | None => Forall (λ n, node_symbol n ≠ sym) ns
      end;
}.

(** ** An in-memory store

    Two lists behind the trait's provided methods: the smallest backend that
    meets [StorageView], used where a statement about any store is evaluated. *)
Definition mem_store : Type := list Node * list Edge.

#[global] Instance mem_storage : Storage mem_store := {|
  get_node s i := Ok (list_find (λ n, node_id n = i) s.1 ≫= λ p, Some p.2);
  get_edges s i := Ok (filter (λ e, source_id e = i) s.2);
  get_callers s i := Ok (filter (λ e, target_id e = i) s.2);
  all_nodes s := Ok s.1;
  all_edges s := Ok s.2;
  for_each_node A s f a := Ok (foldl f a s.1);
  for_each_edge A s f a := Ok (foldl f a s.2);
  get_node_by_symbol s sym :=
    Ok (list_find (λ n, node_symbol n = sym) s.1 ≫= λ p, Some p.2);
|}.

Lemma mem_store_view ns es :
  StronglySorted N.lt (node_id <$> ns) → StorageView ((ns, es) : mem_store) ns es.
Proof.
  intros Hs. split; try done; intros; simpl.
  - eauto.
  - eauto.
  - eexists; split; [done|]. destruct (list_find _ ns) as [[i n]|] eqn:Hf; simpl.
    + apply list_find_Some in Hf as (Hi & ? & _). split; [by eapply list_elem_of_lookup_2|done].
    + by apply list_find_None in Hf.
Qed.
