(* ===== verification/Csr.v ===== *)
(** * The CSR adjacency of [weave-graph-core] (csr.rs)

    [CompactCsr], its construction from sorted edges, its transposition, and
    the hop-bounded BFS over it.  A panic is [None]. *)

From S2P Require Import Prelude Bitmap Model.

(** ** Definitions *)

(** src/crates/weave-graph-core/src/csr.rs:27-31 [CompactCsr] *)
Record CompactCsr := mkCsr {
  row_offsets : list nat;
  column_indices : list N;
}.

(** src/crates/weave-graph-core/src/csr.rs:34-39 [CompactCsr::new] *)
Definition csr_new : CompactCsr := mkCsr [0] [].

(** src/crates/weave-graph-core/src/csr.rs:22-25 [sort_and_dedup_edges] *)
Definition sort_and_dedup_edges (edges : list (N * N)) : list (N * N) :=
  dedup (sort_by (pair_leb N.leb N.leb) edges).

(** src/crates/weave-graph-core/src/csr.rs:54-57 [CompactCsr::from_sorted_edges]
    The loop [while current_node < u]: [k] is the number of its iterations. *)
Fixpoint advance (k : nat) (current : N) (offs : list nat) (len : nat) : option (N * list nat) :=
  match k with
  | O => Some (current, offs)
  | S k =>
      let current := (current + 1)%N in
      offs ← vec_set offs (as_usize current) len;
      advance k current offs len
  end.

(** src/crates/weave-graph-core/src/csr.rs:47-59 [CompactCsr::from_sorted_edges]
    The body of the loop over the edges; the state is
    [(current_node, row_offsets, column_indices)]. *)
Definition from_sorted_step (node_count : nat) (st : N * list nat * list N) (e : N * N) :
    option (N * list nat * list N) :=
  let '(current, offs, cols) := st in
  let '(u, v) := e in
  if decide (node_count ≤ as_usize u ∨ node_count ≤ as_usize v) then Some st else
  st ← advance (N.to_nat (u - current)) current offs (length cols);
  Some (st.1, st.2, cols ++ [v]).

(** src/crates/weave-graph-core/src/csr.rs:41-69 [CompactCsr::from_sorted_edges] *)
Definition from_sorted_edges (edges : list (N * N)) (node_count : nat) : option CompactCsr :=
  if decide (N.of_nat node_count ≤ u32_MAX)%N then
    st ← foldlM (from_sorted_step node_count) edges (0%N, replicate (S node_count) 0, []);
    let '(current, offs, cols) := st in
    st ← advance (N.to_nat (as_u32 node_count - current)) current offs (length cols);
    Some (mkCsr st.2 cols)
  else None.

(** src/crates/weave-graph-core/src/csr.rs:71-78 [CompactCsr::neighbors_slice] *)
Definition neighbors_slice (c : CompactCsr) (u : N) : option (list N) :=
  if decide (length (row_offsets c) ≤ as_usize u + 1) then Some [] else
  start ← row_offsets c !! as_usize u;
  end_ ← row_offsets c !! as_usize (u + 1);
  slice (column_indices c) start end_.

(** src/crates/weave-graph-core/src/csr.rs:80-82 [CompactCsr::node_count] *)
Definition csr_node_count (c : CompactCsr) : nat := length (row_offsets c) - 1.

(** src/crates/weave-graph-core/src/csr.rs:84-86 [CompactCsr::edge_count] *)
Definition csr_edge_count (c : CompactCsr) : nat := length (column_indices c).

(** src/crates/weave-graph-core/src/csr.rs:89-93 [CompactCsr::build_reverse] *)
Definition in_degree_step (deg : list nat) (v : N) : option (list nat) :=
  d ← deg !! as_usize v; vec_set deg (as_usize v) (d + 1).

(** src/crates/weave-graph-core/src/csr.rs:97-100 [CompactCsr::build_reverse] *)
Definition prefix_step (deg : list nat) (st : list nat * nat) (i : nat) : option (list nat * nat) :=
  offs ← vec_set st.1 i st.2;
  d ← deg !! i;
  Some (offs, st.2 + d).

(** src/crates/weave-graph-core/src/csr.rs:107-111 [CompactCsr::build_reverse]
    The state is [(current_offsets, column_indices)]. *)
Definition scatter_step (u : nat) (st : list nat * list N) (v : N) : option (list nat * list N) :=
  pos ← st.1 !! as_usize v;
  cols ← vec_set st.2 pos (as_u32 u);
  offs ← vec_set st.1 (as_usize v) (pos + 1);
  Some (offs, cols).

(** src/crates/weave-graph-core/src/csr.rs:88-118 [CompactCsr::build_reverse] *)
Definition build_reverse (c : CompactCsr) : option CompactCsr :=
  let n := csr_node_count c in
  deg ← foldlM in_degree_step (column_indices c) (replicate n 0);
  st ← foldlM (prefix_step deg) (seq 0 n) (replicate (S n) 0, 0);
  offs ← vec_set st.1 n st.2;
  st ← foldlM (λ st u, nbrs ← neighbors_slice c (as_u32 u); foldlM (scatter_step u) nbrs st)
         (seq 0 n) (offs, replicate (csr_edge_count c) 0%N);
  Some (mkCsr offs st.2).

Section bfs.
Context {B} `{Bitmap B}.

(** src/crates/weave-graph-core/src/csr.rs:134-138 [bfs_within]
    One neighbor of a frontier node; the state is [(reached, next)]. *)
Definition bfs_visit (st : B * list N) (neighbor : N) : B * list N :=
  let '(reached, fresh) := bm_insert st.1 neighbor in
  (reached, if fresh then st.2 ++ [neighbor] else st.2).

(** src/crates/weave-graph-core/src/csr.rs:132-139 [bfs_within] *)
Definition bfs_expand (c : CompactCsr) (reached : B) (frontier : list N) : option (B * list N) :=
  foldlM (λ st node, nbrs ← neighbors_slice c node; Some (foldl bfs_visit st nbrs))
    frontier (reached, []).

(** src/crates/weave-graph-core/src/csr.rs:131-144 [bfs_within]
    One round of the loop; a panic breaks with [None]. *)
Definition bfs_round (c : CompactCsr) (st : B * list N) : flow (B * list N) (option B) :=
  match bfs_expand c st.1 st.2 with
  | None => Break None
  | Some (reached, []) => Break (Some reached)
  | Some (reached, next) => Continue (reached, next)
  end.

(** src/crates/weave-graph-core/src/csr.rs:126-146 [bfs_within] *)
Definition bfs_within (c : CompactCsr) (from_index : N) (max_hops : N) : option B :=
  match for_N max_hops (bfs_round c) ((bm_insert bm_new from_index).1, [from_index]) with
  | Continue (reached, _) => Some reached
  | Break r => r
  end.
End bfs.

(** ** Representation: a CSR holds a list of rows *)

Fixpoint starts (k : nat) (rows : list (list N)) : list nat :=
  match rows with
  | [] => []
  | r :: rows => k :: starts (k + length r) rows
  end.

Definition offsets (rows : list (list N)) : list nat := starts 0 rows ++ [length (concat rows)].

Record csr_rep (c : CompactCsr) (rows : list (list N)) : Prop := {
  rep_offsets : row_offsets c = offsets rows;
  rep_columns : column_indices c = concat rows;
}.

(** Row [i] of the adjacency the sorted edges describe: in-range endpoints only. *)
Definition valid_edge (n : nat) (e : N * N) : Prop := as_usize e.1 < n ∧ as_usize e.2 < n.

Definition row_of (n : nat) (es : list (N * N)) (i : nat) : list N :=
  snd <$> filter (λ e, as_usize e.1 = i ∧ valid_edge n e) es.

Definition rows_of (n : nat) (es : list (N * N)) (m : nat) : list (list N) :=
  row_of n es <$> seq 0 m.
#[global] Arguments rows_of : simpl never.

#[global] Instance valid_edge_dec n e : Decision (valid_edge n e).
Proof. unfold valid_edge. apply _. Defined.

Lemma starts_app k a b : starts k (a ++ b) = starts k a ++ starts (k + length (concat a)) b.
Proof.
  revert k; induction a as [|r a IH]; intros k; simpl; [by rewrite Nat.add_0_r|].
  rewrite IH, length_app. do 3 f_equal. lia.
Qed.

Lemma length_starts k rows : length (starts k rows) = length rows.
Proof. revert k; induction rows; intros; simpl; auto. Qed.

Lemma length_offsets rows : length (offsets rows) = S (length rows).
Proof. unfold offsets. rewrite length_app, length_starts. simpl. lia. Qed.

(** A start does not depend on the row it opens. *)
Lemma starts_snoc k rows r r' : starts k (rows ++ [r]) = starts k (rows ++ [r']).
Proof. by rewrite !starts_app. Qed.

Lemma offsets_app a b :
  offsets (a ++ b) = starts 0 a ++ (Nat.add (length (concat a)) <$> offsets b).
Proof.
  assert (∀ k b, starts k b = Nat.add k <$> starts 0 b) as Hs.
  { intros k b'; revert k. induction b' as [|r b' IH]; intros k; simpl; [done|].
    rewrite Nat.add_0_r. f_equal. rewrite (IH (k + length r)), (IH (length r)).
    rewrite <-list_fmap_compose. apply list_fmap_ext. intros; simpl. lia. }
  unfold offsets. rewrite starts_app, concat_app, length_app, <-app_assoc. f_equal.
  rewrite fmap_app. simpl. by rewrite <-Hs.
Qed.

Lemma lookup_offsets rows i :
  i ≤ length rows → offsets rows !! i = Some (length (concat (take i rows))).
Proof.
  intros Hi. rewrite <-(take_drop i rows) at 1. rewrite offsets_app.
  rewrite lookup_app_r; rewrite length_starts, length_take; [|lia].
  replace (i - i `min` length rows) with 0 by lia. rewrite list_lookup_fmap.
  unfold offsets. destruct (drop i rows) as [|r ?]; simpl; f_equal; lia.
Qed.

(** Reading a row never panics and returns the row; out of range it is empty. *)
Lemma neighbors_slice_rep c rows u :
  csr_rep c rows → neighbors_slice c u = Some (default [] (rows !! as_usize u)).
Proof.
  intros [Ho Hc]. unfold neighbors_slice. rewrite Ho, Hc, length_offsets.
  case_decide as Hu.
  - rewrite lookup_ge_None_2 by lia. done.
  - replace (as_usize (u + 1)) with (S (as_usize u)) by (unfold as_usize; lia).
    rewrite !lookup_offsets by lia. simpl.
    destruct (lookup_lt_is_Some_2 rows (as_usize u)) as [r Hr]; [lia|].
    rewrite Hr. simpl. rewrite <-(take_drop_middle rows (as_usize u) r) at 1 by done.
    rewrite concat_app. cbn [concat].
    apply slice_mid; [done|].
    rewrite (take_S_r _ _ r) by done. rewrite concat_app, length_app. simpl.
    by rewrite app_nil_r.
Qed.

Lemma node_count_rep c rows : csr_rep c rows → csr_node_count c = length rows.
Proof. intros [Ho _]. unfold csr_node_count. rewrite Ho, length_offsets. lia. Qed.

(** ** [from_sorted_edges] *)

Lemma row_of_app n es es' i : row_of n (es ++ es') i = row_of n es i ++ row_of n es' i.
Proof. unfold row_of. by rewrite filter_app, fmap_app. Qed.

Lemma row_of_nil n es i :
  (∀ e, e ∈ es → valid_edge n e → as_usize e.1 ≠ i) → row_of n es i = [].
Proof.
  intros Hes. unfold row_of. replace (filter _ es) with ([] : list (N * N)); [done|].
  symmetry. destruct (filter _ es) as [|e l] eqn:E; [done|].
  assert (e ∈ e :: l) as He by set_solver. rewrite <-E in He.
  apply list_elem_of_filter in He as [[??] ?]. by edestruct Hes.
Qed.

Lemma rows_of_S n es m : rows_of n es (S m) = rows_of n es m ++ [row_of n es m].
Proof. unfold rows_of. rewrite seq_S, fmap_app. done. Qed.

Lemma length_rows_of n es m : length (rows_of n es m) = m.
Proof. unfold rows_of. by rewrite length_fmap, length_seq. Qed.

(** Advancing the row cursor opens empty rows. *)
Lemma advance_spec k current rows m :
  length rows = S (as_usize current) →
  advance k current (starts 0 rows ++ replicate (k + m) 0) (length (concat rows)) =
  Some ((current + N.of_nat k)%N, starts 0 (rows ++ replicate k []) ++ replicate m 0).
Proof.
  revert current rows; induction k as [|k IH]; intros current rows Hlen; simpl.
  - rewrite app_nil_r, N.add_0_r. done.
  - rewrite vec_set_mid by (rewrite length_starts; unfold as_usize in *; lia). simpl.
    pose proof (IH (current + 1)%N (rows ++ [[]])) as IH'.
    rewrite concat_app, app_nil_r, starts_app in IH'. simpl in IH'.
    rewrite <-app_assoc in IH'. simpl in IH'. rewrite IH'.
    + rewrite <-app_assoc. simpl. do 2 f_equal. lia.
    + rewrite length_app. simpl. unfold as_usize in *. lia.
Qed.

(** The loop invariant: rows up to the cursor hold the edges seen so far. *)
Definition fse_inv (n : nat) (pre : list (N * N)) (st : N * list nat * list N) : Prop :=
  let '(current, offs, cols) := st in
  let rows := rows_of n pre (S (as_usize current)) in
  as_usize current ≤ n ∧
  (∀ e, e ∈ pre → valid_edge n e → as_usize e.1 ≤ as_usize current) ∧
  (current = 0%N ∨ ∃ e, e ∈ pre ∧ e.1 = current) ∧
  offs = starts 0 rows ++ replicate (n - as_usize current) 0 ∧
  cols = concat rows.

(** Rows past the last seen source are empty. *)
Lemma rows_of_extend n pre c k :
  (∀ e, e ∈ pre → valid_edge n e → as_usize e.1 ≤ c) →
  rows_of n pre (S c) ++ replicate k [] = rows_of n pre (S c + k).
Proof.
  intros Hle. induction k as [|k IH]; [by rewrite app_nil_r, Nat.add_0_r|].
  rewrite Nat.add_succ_r, (rows_of_S _ _ (S c + k)), <-IH, replicate_S_end, app_assoc. f_equal.
  rewrite row_of_nil; [done|]. intros e He Hv. specialize (Hle _ He Hv). lia.
Qed.

Lemma advance_inv n pre current offs cols u :
  fse_inv n pre (current, offs, cols) → (current ≤ u)%N → as_usize u ≤ n →
  advance (N.to_nat (u - current)) current offs (length cols) =
  Some (u, starts 0 (rows_of n pre (S (as_usize u))) ++ replicate (n - as_usize u) 0) ∧
  cols = concat (rows_of n pre (S (as_usize u))).
Proof.
  intros (Hn & Hle & _ & -> & ->) Hcu Hu.
  pose proof (rows_of_extend n pre (as_usize current) (N.to_nat (u - current)) Hle) as Hext.
  replace (S (as_usize current) + N.to_nat (u - current)) with (S (as_usize u)) in Hext
    by (unfold as_usize; lia).
  replace (n - as_usize current) with (N.to_nat (u - current) + (n - as_usize u))
    by (unfold as_usize in *; lia).
  rewrite advance_spec by apply length_rows_of.
  rewrite Hext. split; [do 2 f_equal; lia|].
  rewrite <-Hext, concat_app.
  assert (∀ k, concat (replicate k ([] : list N)) = []) as ->.
  { induction k; simpl; auto. }
  by rewrite app_nil_r.
Qed.

Lemma fse_step n es pre e post st :
  es = pre ++ e :: post → StronglySorted (λ a b, (a.1 ≤ b.1)%N) es → fse_inv n pre st →
  ∃ st', from_sorted_step n st e = Some st' ∧ fse_inv n (pre ++ [e]) st'.
Proof.
  intros -> Hs Hinv. destruct st as [[current offs] cols], e as [u v]. unfold from_sorted_step.
  assert (∀ e', e' ∈ pre → (e'.1 ≤ u)%N) as Hsort.
  { intros e' He'. apply (StronglySorted_app_1_elem_of _ pre ((u, v) :: post) e' (u, v) Hs He').
    set_solver. }
  case_decide as Hval.
  - eexists; split; [done|]. destruct Hinv as (Hn & Hle & Hcur & Ho & Hc).
    assert (rows_of n (pre ++ [(u, v)]) (S (as_usize current)) =
            rows_of n pre (S (as_usize current))) as Hrows.
    { unfold rows_of. apply list_fmap_ext. intros i ? _. rewrite row_of_app.
      rewrite (row_of_nil n [(u, v)]), app_nil_r; [done|].
      intros e' ->%list_elem_of_singleton [??]; simpl in *; lia. }
    unfold fse_inv. rewrite Hrows. split_and!; auto.
    + intros e' [He'| ->%list_elem_of_singleton]%elem_of_app Hv'; [auto|].
      destruct Hv'; simpl in *; lia.
    + destruct Hcur as [?|(e' & ? & ?)]; [by left|]. right. exists e'. set_solver.
  - assert (valid_edge n (u, v)) as Hv by (unfold valid_edge; simpl; lia).
    assert (current ≤ u)%N as Hcu.
    { destruct Hinv as (_ & _ & [->|(e' & ? & <-)] & _); [lia|auto]. }
    destruct (advance_inv _ _ _ _ _ u Hinv Hcu) as [Hadv ->].
    { destruct Hv; simpl in *; lia. }
    rewrite Hadv. cbn [mbind option_bind fst snd]. eexists; split; [done|]. unfold fse_inv.
    assert (rows_of n (pre ++ [(u, v)]) (as_usize u) = rows_of n pre (as_usize u)) as Hrows.
    { unfold rows_of. apply list_fmap_ext. intros i j Hj. apply lookup_seq in Hj.
      rewrite row_of_app, (row_of_nil n [(u, v)]), app_nil_r; [done|].
      intros e' ->%list_elem_of_singleton _. simpl. lia. }
    assert (row_of n [(u, v)] (as_usize u) = [v]) as Hrow.
    { unfold row_of. rewrite filter_cons_True by done. done. }
    rewrite !rows_of_S, Hrows, row_of_app, Hrow. split_and!.
    + destruct Hv; simpl in *; lia.
    + intros e' [He'| ->%list_elem_of_singleton]%elem_of_app _; [|done].
      specialize (Hsort _ He'). unfold as_usize. lia.
    + right. exists (u, v). set_solver.
    + rewrite (starts_snoc _ _ _ (row_of n pre (as_usize u) ++ [v])). done.
    + rewrite !concat_app. simpl. by rewrite !app_nil_r, app_assoc.
Qed.

(** On edges sorted by source, construction returns, and row [u] holds the
    targets of the in-range edges from [u] in their order. *)
Lemma from_sorted_edges_rep es n :
  (N.of_nat n ≤ u32_MAX)%N → StronglySorted (λ a b, (a.1 ≤ b.1)%N) es →
  ∃ c, from_sorted_edges es n = Some c ∧ csr_rep c (rows_of n es n).
Proof.
  intros Hn Hs. unfold from_sorted_edges. rewrite decide_True by done.
  edestruct (foldlM_inv (fse_inv n) (from_sorted_step n) es
    (0%N, replicate (S n) 0, [])) as ([[current offs] cols] & -> & Hinv).
  - unfold fse_inv. split_and!; [unfold as_usize; lia|set_solver|by left| |done].
    unfold as_usize. simpl. by rewrite Nat.sub_0_r.
  - intros; eapply fse_step; eauto.
  - simpl. assert (as_u32 n = N.of_nat n) as ->.
    { unfold as_u32. apply N.mod_small. unfold u32_MAX in Hn. lia. }
    assert (current ≤ N.of_nat n)%N as Hcn by (destruct Hinv as [Hc _]; unfold as_usize in Hc; lia).
    destruct (advance_inv _ _ _ _ _ (N.of_nat n) Hinv Hcn) as [Hadv ->].
    { unfold as_usize. lia. }
    rewrite Hadv. cbn [mbind option_bind snd]. eexists; split; [done|].
    unfold as_usize. rewrite Nat2N.id, Nat.sub_diag. cbn [replicate].
    rewrite app_nil_r, rows_of_S.
    rewrite (row_of_nil n es n); [|intros e _ [??]; unfold as_usize in *; lia].
    split; simpl.
    + unfold offsets. by rewrite starts_app.
    + by rewrite concat_app, app_nil_r.
Qed.

(** ** [build_reverse] *)

(** The edges of a list of rows, in storage order, and row [v] of the transpose. *)
Definition flat_from (k : nat) (rows : list (list N)) : list (nat * N) :=
  concat (imap (λ i row, pair (k + i) <$> row) rows).

Definition rev_row (es : list (nat * N)) (v : nat) : list N :=
  (λ e, as_u32 e.1) <$> filter (λ e, as_usize e.2 = v) es.

Definition rev_rows (rows : list (list N)) : list (list N) :=
  rev_row (flat_from 0 rows) <$> seq 0 (length rows).
#[global] Arguments rev_rows : simpl never.

(** Every column index names a row. *)
Definition csr_closed (rows : list (list N)) : Prop :=
  Forall (λ v, as_usize v < length rows) (concat rows).

Lemma flat_from_cons k r rows :
  flat_from k (r :: rows) = (pair k <$> r) ++ flat_from (S k) rows.
Proof.
  unfold flat_from. rewrite imap_cons. cbn [concat]. rewrite Nat.add_0_r. f_equal. f_equal.
  apply imap_ext. intros; simpl. f_equal. f_equal. lia.
Qed.

Lemma flat_from_snd k rows : snd <$> flat_from k rows = concat rows.
Proof.
  revert k; induction rows as [|r rows IH]; intros k; [done|].
  rewrite flat_from_cons, fmap_app, IH. cbn [concat]. f_equal.
  rewrite <-list_fmap_compose. apply list_fmap_id.
Qed.

Lemma elem_of_flat_from k rows u v :
  (u, v) ∈ flat_from k rows ↔ ∃ i row, u = k + i ∧ rows !! i = Some row ∧ v ∈ row.
Proof.
  revert k; induction rows as [|r rows IH]; intros k.
  - split; [set_solver|]. intros (i & row & _ & Hl & _). done.
  - rewrite flat_from_cons, elem_of_app, IH, list_elem_of_fmap. split.
    + intros [(v' & ? & ?)|(i & row & -> & Hi & Hv)]; simplify_eq.
      * exists 0, r. split_and!; auto.
      * exists (S i), row. split_and!; auto.
    + intros ([|i] & row & -> & Hi & Hv); simplify_eq/=.
      * left. exists v. by rewrite Nat.add_0_r.
      * right. exists i, row. split_and!; auto.
Qed.

Lemma rev_row_app es es' v : rev_row (es ++ es') v = rev_row es v ++ rev_row es' v.
Proof. unfold rev_row. by rewrite filter_app, fmap_app. Qed.

Lemma rev_row_single e v :
  rev_row [e] v = if decide (as_usize e.2 = v) then [as_u32 e.1] else [].
Proof. unfold rev_row. rewrite filter_cons. by case_decide. Qed.

Lemma rev_row_cons e es v : rev_row (e :: es) v = rev_row [e] v ++ rev_row es v.
Proof. apply (rev_row_app [e]). Qed.

Lemma length_rev_rows rows : length (rev_rows rows) = length rows.
Proof. unfold rev_rows. by rewrite length_fmap, length_seq. Qed.

Lemma lookup_rev_rows rows v :
  v < length rows → rev_rows rows !! v = Some (rev_row (flat_from 0 rows) v).
Proof. intros. unfold rev_rows. by rewrite list_lookup_fmap, lookup_seq_lt. Qed.

(** Counting: after the first loop each slot holds the length of its row. *)
Lemma in_degree_loop es n :
  Forall (λ v, as_usize v < n) (snd <$> es) →
  foldlM in_degree_step (snd <$> es) (replicate n 0) =
  Some ((λ v, length (rev_row es v)) <$> seq 0 n).
Proof.
  intros Hes.
  destruct (foldlM_inv
    (λ pre deg, ∃ es1 es2, es = es1 ++ es2 ∧ pre = snd <$> es1 ∧
       deg = (λ v, length (rev_row es1 v)) <$> seq 0 n)
    in_degree_step (snd <$> es) (replicate n 0)) as (deg & -> & es1 & es2 & -> & Hpre & ->).
  - exists [], es. split_and!; [done..|]. apply list_eq. intros i.
    rewrite list_lookup_fmap. destruct (decide (i < n)).
    + rewrite lookup_replicate_2, lookup_seq_lt by done. done.
    + rewrite !lookup_ge_None_2; [done|..]; rewrite ?length_seq, ?length_replicate; lia.
  - intros pre v post deg Hsplit (es1 & es2 & -> & -> & ->).
    rewrite fmap_app in Hsplit. simplify_list_eq. destruct es2 as [|[u w] es2]; simplify_eq/=.
    rewrite Forall_app in Hes. destruct Hes as [_ [Hw _]%Forall_cons].
    unfold in_degree_step. rewrite list_lookup_fmap, lookup_seq_lt by done. simpl.
    rewrite vec_set_lt by (by rewrite length_fmap, length_seq).
    eexists; split; [done|]. exists (es1 ++ [(u, v)]), es2.
    split_and!; [by rewrite <-app_assoc|by rewrite fmap_app|].
    apply list_eq. intros i. destruct (decide (i < n)).
    2:{ rewrite !lookup_ge_None_2; [done|..];
        rewrite ?length_insert, ?length_fmap, ?length_seq; lia. }
    rewrite (list_lookup_fmap _ (seq 0 n)), lookup_seq_lt by done. simpl.
    rewrite rev_row_app, rev_row_single, length_app. simpl. case_decide.
    + subst. rewrite list_lookup_insert_eq; [done|]. by rewrite length_fmap, length_seq.
    + rewrite list_lookup_insert_ne, list_lookup_fmap, lookup_seq_lt by done. simpl.
      by rewrite Nat.add_0_r.
  - do 2 f_equal. apply (f_equal length) in Hpre. rewrite !length_fmap, length_app in Hpre.
    destruct es2; [by rewrite app_nil_r|simpl in *; lia].
Qed.

(** Prefix sums of the row lengths are the offsets. *)
Lemma prefix_loop R n :
  length R = n →
  foldlM (prefix_step (length <$> R)) (seq 0 n) (replicate (S n) 0, 0) =
  Some (starts 0 R ++ [0], length (concat R)).
Proof.
  intros Hn.
  destruct (foldlM_inv
    (λ pre st, ∃ i, i ≤ n ∧ pre = seq 0 i ∧
       st = (starts 0 (take i R) ++ replicate (S n - i) 0, length (concat (take i R))))
    (prefix_step (length <$> R)) (seq 0 n) (replicate (S n) 0, 0))
    as (st & -> & i & Hi & Hpre & ->).
  - exists 0. split_and!; [lia|done|done].
  - intros pre x post st Hsplit (i & Hi & -> & ->).
    assert (i < n ∧ x = i) as [Hlt ->].
    { pose proof (f_equal length Hsplit) as Hl. rewrite length_app, !length_seq in Hl. simpl in Hl.
      split; [lia|]. assert (seq 0 n !! i = Some x) as Hx.
      { rewrite Hsplit, lookup_app_r by (rewrite length_seq; lia).
        by rewrite length_seq, Nat.sub_diag. }
      apply lookup_seq in Hx. lia. }
    destruct (lookup_lt_is_Some_2 R i) as [r Hr]; [lia|].
    unfold prefix_step. replace (S n - i) with (S (n - i)) by lia. cbn [fst snd replicate].
    rewrite vec_set_mid by (rewrite length_starts, length_take; lia). simpl.
    rewrite list_lookup_fmap, Hr. simpl. eexists; split; [done|]. exists (S i).
    split_and!; [lia|by rewrite seq_S|].
    rewrite (take_S_r _ _ r), starts_app, concat_app, length_app by done. simpl.
    rewrite app_nil_r, <-app_assoc. done.
  - apply (f_equal length) in Hpre. rewrite !length_seq in Hpre. subst i.
    rewrite take_ge by lia. replace (S n - n) with 1 by lia. done.
Qed.

(** The start of row [v], and where row [v] lies among the columns. *)
Definition row_start (R : list (list N)) (v : nat) : nat := length (concat (take v R)).

Lemma row_start_S R v r : R !! v = Some r → row_start R (S v) = row_start R v + length r.
Proof.
  intros Hr. unfold row_start. rewrite (take_S_r _ _ r), concat_app, length_app by done.
  simpl. by rewrite app_nil_r.
Qed.

Lemma row_start_mono R v w : v ≤ w → row_start R v ≤ row_start R w.
Proof.
  intros Hvw. unfold row_start.
  assert (take w R = take v R ++ take (w - v) (drop v R)) as ->.
  { rewrite <-(take_drop v R) at 1. rewrite take_app. f_equal.
    - rewrite take_take. f_equal. lia.
    - destruct (decide (v ≤ length R)); [rewrite length_take_le by lia; done|].
      rewrite drop_ge by lia. by rewrite !take_nil. }
  rewrite concat_app, length_app. lia.
Qed.

Lemma row_start_bound R v r :
  R !! v = Some r → row_start R v + length r ≤ length (concat R).
Proof.
  intros Hr. rewrite <-(row_start_S _ _ _ Hr).
  transitivity (row_start R (length R + S v)); [apply row_start_mono; lia|].
  unfold row_start. rewrite take_ge by lia. done.
Qed.

(** Distinct rows occupy distinct positions. *)
Lemma row_pos_inj R v w r s k j :
  R !! v = Some r → R !! w = Some s → k < length r → j < length s →
  row_start R v + k = row_start R w + j → v = w.
Proof.
  intros Hr Hs Hk Hj Heq. destruct (decide (v < w)); [|destruct (decide (w < v)); [|lia]].
  - pose proof (row_start_mono R (S v) w ltac:(lia)). rewrite (row_start_S _ _ _ Hr) in *. lia.
  - pose proof (row_start_mono R (S w) v ltac:(lia)). rewrite (row_start_S _ _ _ Hs) in *. lia.
Qed.

Lemma concat_by_lookup R (cols : list N) :
  length cols = length (concat R) →
  (∀ v r k x, R !! v = Some r → r !! k = Some x → cols !! (row_start R v + k) = Some x) →
  cols = concat R.
Proof.
  revert cols; induction R as [|r R IH]; intros cols Hlen Hl; simpl in *.
  - by apply nil_length_inv.
  - rewrite length_app in Hlen. rewrite <-(take_drop (length r) cols). f_equal.
    + apply list_eq. intros i. destruct (decide (i < length r)).
      * rewrite lookup_take, decide_True by done. destruct (lookup_lt_is_Some_2 r i) as [x Hx]; [done|].
        rewrite Hx. by apply (Hl 0 r i x).
      * rewrite !lookup_ge_None_2; [done|lia|rewrite length_take; lia].
    + apply IH; [rewrite length_drop; lia|]. intros v s k x Hv Hk.
      rewrite lookup_drop. pose proof (Hl (S v) s k x Hv Hk) as H.
      unfold row_start in *. simpl in H. rewrite length_app in H.
      rewrite <-H. f_equal. lia.
Qed.

(** The scatter loop over the edges in storage order. *)
Definition scatter_inv (n : nat) (R : list (list N)) (pre : list (nat * N))
    (st : list nat * list N) : Prop :=
  length st.1 = S n ∧ length st.2 = length (concat R) ∧
  (∀ v, v < n → st.1 !! v = Some (row_start R v + length (rev_row pre v))) ∧
  (∀ v k x, v < n → rev_row pre v !! k = Some x → st.2 !! (row_start R v + k) = Some x).

Lemma scatter_loop n es offs :
  let R := rev_row es <$> seq 0 n in
  Forall (λ v, as_usize v < n) (snd <$> es) →
  offs = offsets R →
  ∃ st, foldlM (λ st e, scatter_step e.1 st e.2) es
          (offs, replicate (length (concat R)) 0%N) = Some st ∧ st.2 = concat R.
Proof.
  intros R Hes ->.
  assert (length R = n) as HRn by (subst R; by rewrite length_fmap, length_seq).
  assert (∀ v, v < n → R !! v = Some (rev_row es v)) as HR.
  { intros v Hv. subst R. by rewrite list_lookup_fmap, lookup_seq_lt. }
  clearbody R.
  destruct (foldlM_inv (scatter_inv n R) (λ st e, scatter_step e.1 st e.2) es
    (offsets R, replicate (length (concat R)) 0%N)) as (st & -> & _ & Hlen & _ & Hst).
  - split_and!; simpl; [by rewrite length_offsets, HRn|by rewrite length_replicate| |done].
    intros v Hv. rewrite lookup_offsets, Nat.add_0_r by lia. done.
  - intros pre [u w] post [cur cols] -> (Hcl & Hll & Hcur & Hcols). simpl in *.
    rewrite fmap_app, Forall_app in Hes. destruct Hes as [_ [Hw _]%Forall_cons]. simpl in Hw.
    assert (length (rev_row pre (as_usize w)) <
            length (rev_row (pre ++ (u, w) :: post) (as_usize w))) as Hfit.
    { rewrite (cons_middle (u, w)), !rev_row_app, !length_app, rev_row_single.
      rewrite decide_True by done. simpl. lia. }
    pose proof (row_start_bound _ _ _ (HR _ Hw)) as Hbound.
    unfold scatter_step. rewrite Hcur by done. simpl.
    rewrite vec_set_lt by lia. simpl. rewrite vec_set_lt by lia. simpl.
    eexists; split; [done|]. unfold scatter_inv; simpl. rewrite !length_insert.
    split_and!; [done|done| |].
    + intros v Hv. rewrite rev_row_app, rev_row_single, length_app. simpl.
      case_decide; subst.
      * rewrite list_lookup_insert_eq by lia. simpl. f_equal. lia.
      * rewrite list_lookup_insert_ne by done. simpl. rewrite Hcur by done. f_equal. lia.
    + intros v k x Hv Hx. rewrite rev_row_app, rev_row_single in Hx. simpl in Hx.
      apply lookup_app_Some in Hx as [Hx|[Hge Hx]].
      * rewrite list_lookup_insert_ne; [by apply Hcols|]. intros Heq.
        pose proof (lookup_lt_Some _ _ _ Hx).
        assert (length (rev_row pre v) ≤ length (rev_row (pre ++ (u, w) :: post) v)).
        { rewrite rev_row_app, length_app. lia. }
        assert (v = as_usize w) as -> by
          (symmetry; eapply (row_pos_inj R); [by apply HR|by apply HR|exact Hfit| |exact Heq]; lia).
        lia.
      * case_decide; [|done]. subst. apply list_lookup_singleton_Some in Hx as [? <-].
        replace k with (length (rev_row pre (as_usize w))) by lia.
        rewrite list_lookup_insert_eq by lia. done.
  - eexists; split; [done|]. apply concat_by_lookup; [done|].
    intros v r k x Hv Hk. assert (v < n) by (apply lookup_lt_Some in Hv; lia).
    rewrite HR in Hv by done. simplify_eq. by apply Hst.
Qed.

(** The nested loop over rows visits the edges in storage order. *)
Lemma foldlM_rows {A} (f : nat → A → N → option A) c rows (st : A) :
  csr_rep c rows → (N.of_nat (length rows) ≤ u32_MAX)%N →
  foldlM (λ st u, nbrs ← neighbors_slice c (as_u32 u); foldlM (f u) nbrs st)
    (seq 0 (length rows)) st =
  foldlM (λ st e, f e.1 st e.2) (flat_from 0 rows) st.
Proof.
  intros Hrep Hn.
  assert (∀ rs k st, (∀ i, i < length rs → rows !! (k + i) = rs !! i) →
            k + length rs ≤ length rows →
    foldlM (λ st u, nbrs ← neighbors_slice c (as_u32 u); foldlM (f u) nbrs st)
      (seq k (length rs)) st =
    foldlM (λ st e, f e.1 st e.2) (flat_from k rs) st) as Hgen; [|by apply Hgen].
  induction rs as [|r rs IH]; intros k st' Hl Hk; [done|].
  cbn [length seq foldlM]. rewrite flat_from_cons, foldlM_app.
  rewrite (neighbors_slice_rep _ _ _ Hrep).
  assert (as_usize (as_u32 k) = k) as ->.
  { unfold as_usize, as_u32. simpl in Hk. unfold u32_MAX in Hn. rewrite N.mod_small; lia. }
  pose proof (Hl 0) as H0. rewrite Nat.add_0_r in H0. rewrite H0 by (simpl; lia). simpl.
  assert (∀ l st, foldlM (λ st e, f e.1 st e.2) (pair k <$> l) st = foldlM (f k) l st) as ->.
  { induction l as [|v l IHl]; intros st''; [done|]. simpl. destruct (f k st'' v); simpl; auto. }
  destruct (foldlM (f k) r st'); [simpl|done]. apply IH; [|simpl in Hk; lia].
  intros i Hi. replace (S k + i) with (k + S i) by lia. apply Hl. simpl. lia.
Qed.

(** Transposing keeps every edge. *)
Lemma length_concat_rev es n :
  Forall (λ v, as_usize v < n) (snd <$> es) →
  length (concat (rev_row es <$> seq 0 n)) = length es.
Proof.
  induction es as [|[u w] es IH]; intros Hn; simpl in *.
  - induction n as [|n IHn]; [done|]. by rewrite seq_S, fmap_app, concat_app, length_app, IHn.
  - apply Forall_cons in Hn as [Hw Hn]. rewrite <-(IH Hn). clear IH Hn.
    assert (∀ a m, as_usize w < a ∨ a + m ≤ as_usize w →
      length (concat (rev_row ((u, w) :: es) <$> seq a m)) = length (concat (rev_row es <$> seq a m)))
      as Hout.
    { intros a m Ha. do 2 f_equal. apply list_fmap_ext. intros i v Hv. apply lookup_seq in Hv.
      rewrite rev_row_cons, rev_row_single, decide_False; [done|simpl; lia]. }
    replace n with (as_usize w + (1 + (n - S (as_usize w)))) by lia.
    rewrite !seq_app, !fmap_app, !concat_app, !length_app, !Hout by lia. simpl.
    rewrite rev_row_cons, rev_row_single, decide_True by done. simpl.
    rewrite ?app_nil_r, (Hout (as_usize w + 1)) by lia. lia.
Qed.

Lemma build_reverse_rep c rows :
  csr_rep c rows → csr_closed rows → (N.of_nat (length rows) ≤ u32_MAX)%N →
  ∃ r, build_reverse c = Some r ∧ csr_rep r (rev_rows rows).
Proof.
  intros Hrep Hcl Hn. unfold build_reverse. rewrite (node_count_rep _ _ Hrep).
  unfold csr_closed in Hcl. rewrite <-(flat_from_snd 0) in Hcl.
  rewrite (rep_columns _ _ Hrep), <-(flat_from_snd 0), in_degree_loop by done. simpl.
  replace ((λ v, length (rev_row (flat_from 0 rows) v)) <$> seq 0 (length rows))
    with (length <$> rev_rows rows) by (unfold rev_rows; by rewrite <-list_fmap_compose).
  rewrite prefix_loop by apply length_rev_rows. simpl.
  rewrite (vec_set_mid (starts 0 (rev_rows rows)) [])
    by (by rewrite length_starts, length_rev_rows). simpl.
  rewrite (foldlM_rows scatter_step) by done.
  destruct (scatter_loop (length rows) (flat_from 0 rows) (offsets (rev_rows rows)))
    as (st & Hst & Hcols); [done|done|].
  change (rev_row (flat_from 0 rows) <$> seq 0 (length rows)) with (rev_rows rows) in *.
  assert (csr_edge_count c = length (concat (rev_rows rows))) as ->.
  2:{ unfold offsets in *. rewrite Hst. simpl. eexists; split; [done|]. by split. }
  unfold csr_edge_count. rewrite (rep_columns _ _ Hrep), <-(flat_from_snd 0), length_fmap.
  symmetry. by apply length_concat_rev.
Qed.

(** ** Breadth-first search *)

(** The adjacency relation a CSR represents. *)
Definition csr_edge (rows : list (list N)) (u v : N) : Prop :=
  ∃ row, rows !! as_usize u = Some row ∧ v ∈ row.

Lemma csr_edge_default rows u v : csr_edge rows u v ↔ v ∈ default [] (rows !! as_usize u).
Proof.
  unfold csr_edge. destruct (rows !! as_usize u); simpl; split; [naive_solver|eauto|naive_solver|].
  set_solver.
Qed.

Section bfs_spec.
Context {B} `{BitmapLaws B}.

Lemma bfs_visit_loop nbrs (st : B * list N) :
  let st' := foldl bfs_visit st nbrs in
  (∀ x, bm_contains st'.1 x = true ↔ bm_contains st.1 x = true ∨ x ∈ nbrs) ∧
  (∀ x, x ∈ st'.2 ↔ x ∈ st.2 ∨ (x ∈ nbrs ∧ bm_contains st.1 x = false)).
Proof.
  revert st; induction nbrs as [|v nbrs IH]; intros [reached next]; simpl.
  { split; intros; set_solver. }
  destruct (bm_insert reached v) as [reached' fresh] eqn:E.
  pose proof (bm_insert_fresh reached v) as Hf. rewrite E in Hf. simpl in Hf. subst fresh.
  assert (bfs_visit (reached, next) v =
    (reached', if negb (bm_contains reached v) then next ++ [v] else next)) as ->.
  { unfold bfs_visit. simpl. by rewrite E. }
  assert (∀ x, bm_contains reached' x = true ↔ x = v ∨ bm_contains reached x = true) as Hc.
  { intros x. rewrite <-bm_contains_insert_true, E. done. }
  destruct (IH (reached', if negb (bm_contains reached v) then next ++ [v] else next)) as [IH1 IH2].
  simpl in *. split; intros x.
  - rewrite IH1, Hc, elem_of_cons. tauto.
  - rewrite IH2, elem_of_cons, <-!not_true_iff_false, Hc.
    destruct (bm_contains reached v) eqn:Ev; simpl; rewrite ?elem_of_app, ?list_elem_of_singleton.
    + destruct (decide (x = v)) as [->|]; [rewrite Ev|]; tauto.
    + destruct (decide (x = v)) as [->|]; [rewrite Ev; intuition congruence|tauto].
Qed.

Lemma bfs_expand_spec c rows (reached : B) frontier :
  csr_rep c rows →
  ∃ reached' next, bfs_expand c reached frontier = Some (reached', next) ∧
  (∀ x, bm_contains reached' x = true ↔
        bm_contains reached x = true ∨ ∃ y, y ∈ frontier ∧ csr_edge rows y x) ∧
  (∀ x, x ∈ next ↔ bm_contains reached x = false ∧ ∃ y, y ∈ frontier ∧ csr_edge rows y x).
Proof.
  intros Hrep. unfold bfs_expand.
  destruct (foldlM_inv (λ pre (st : B * list N),
    (∀ x, bm_contains st.1 x = true ↔
        bm_contains reached x = true ∨ ∃ y, y ∈ pre ∧ csr_edge rows y x) ∧
    (∀ x, x ∈ st.2 ↔ bm_contains reached x = false ∧ ∃ y, y ∈ pre ∧ csr_edge rows y x))
    (λ st node, nbrs ← neighbors_slice c node; Some (foldl bfs_visit st nbrs))
    frontier (reached, [])) as ([r n] & -> & H1 & H2); [..|by eauto].
  - split; intros; set_solver.
  - intros pre y post st -> [I1 I2]. rewrite (neighbors_slice_rep _ _ _ Hrep). simpl.
    eexists; split; [done|].
    destruct (bfs_visit_loop (default [] (rows !! as_usize y)) st) as [V1 V2].
    split; intros x.
    + rewrite V1, I1, <-csr_edge_default. setoid_rewrite elem_of_app.
      setoid_rewrite list_elem_of_singleton. naive_solver.
    + rewrite V2, I2, <-csr_edge_default, <-!not_true_iff_false, I1.
      setoid_rewrite elem_of_app. setoid_rewrite list_elem_of_singleton. split.
      * naive_solver.
      * intros [Hx (z & [Hz| ->] & Hzx)]; [naive_solver|].
        destruct (decide (Exists (λ w, x ∈ default [] (rows !! as_usize w)) pre))
          as [(w & Hw & Hwx)%Exists_exists|Hn].
        { left. rewrite <-csr_edge_default in Hwx. eauto. }
        right. split; [done|]. intros [?|(w & Hw & Hwx)]; [done|]. destruct Hn.
        apply Exists_exists. exists w. by rewrite <-csr_edge_default.
Qed.

(** After [k] rounds the visited set is the [k]-hop ball, and every node of it
    off the frontier has all its successors in it. *)
Definition bfs_inv (rows : list (list N)) (s : N) (k : nat) (st : B * list N) : Prop :=
  (∀ x, bm_contains st.1 x = true ↔ bsteps (csr_edge rows) k s x) ∧
  (∀ x, x ∈ st.2 → bsteps (csr_edge rows) k s x) ∧
  (∀ x y, bsteps (csr_edge rows) k s x → csr_edge rows x y →
          x ∈ st.2 ∨ bsteps (csr_edge rows) k s y).

Lemma bfs_inv_init rows s : bfs_inv rows s 0 ((bm_insert bm_new s).1, [s]).
Proof.
  assert (∀ x, bsteps (csr_edge rows) 0 s x ↔ x = s) as Hz.
  { intros x; split; [by inversion 1|intros ->; constructor]. }
  split_and!; simpl; intros x; rewrite ?Hz.
  - rewrite bm_contains_insert_true, bm_contains_new. naive_solver.
  - set_solver.
  - set_solver.
Qed.

Lemma bfs_inv_step c rows s k st :
  csr_rep c rows → bfs_inv rows s k st →
  ∃ reached next, bfs_expand c st.1 st.2 = Some (reached, next) ∧
    bfs_inv rows s (S k) (reached, next).
Proof.
  intros Hrep (I1 & I2 & I3).
  destruct (bfs_expand_spec c rows st.1 st.2 Hrep) as (reached & next & He & E1 & E2).
  exists reached, next. split; [done|].
  assert (∀ x, bm_contains reached x = true ↔ bsteps (csr_edge rows) (S k) s x) as Hball.
  { intros x. rewrite E1, I1. split.
    - intros [?|(y & Hy & Hyx)]; [eapply bsteps_weaken; [|done]; lia|].
      eapply bsteps_r; eauto.
    - intros [?|(z & Hz & Hzx)]%bsteps_S_inv; [by left|].
      destruct (I3 _ _ Hz Hzx); eauto. }
  split_and!; simpl; [done| |].
  - intros x. rewrite E2, <-Hball, E1. naive_solver.
  - intros x y Hx Hxy. destruct (decide (bm_contains st.1 x = true)) as [Hc|Hc].
    + right. rewrite <-Hball, E1. rewrite I1 in Hc.
      destruct (I3 _ _ Hc Hxy); [right; eauto|left; by rewrite I1].
    + left. rewrite E2. apply not_true_iff_false in Hc. split; [done|].
      rewrite <-Hball, E1 in Hx. destruct Hx; [congruence|done].
Qed.

(** An empty frontier means the ball is closed: more hops add nothing. *)
Lemma bfs_inv_done rows s k (reached : B) m x :
  bfs_inv rows s k (reached, []) → k ≤ m →
  bm_contains reached x = true ↔ bsteps (csr_edge rows) m s x.
Proof.
  intros (I1 & _ & I3) Hkm. rewrite I1. split; [by apply bsteps_weaken|].
  apply (bsteps_closed _ (λ x, bsteps (csr_edge rows) k s x)); [constructor|].
  intros a b Ha Hab. destruct (I3 _ _ Ha Hab); [set_solver|done].
Qed.

Lemma bfs_rounds c rows s n k st :
  csr_rep c rows → bfs_inv rows s k st →
  match for_nat n (bfs_round c) st with
  | Continue st' => bfs_inv rows s (k + n) st'
  | Break r => ∃ b, r = Some b ∧
      ∀ x, bm_contains b x = true ↔ bsteps (csr_edge rows) (k + n) s x
  end.
Proof.
  intros Hrep. revert k st; induction n as [|n IH]; intros k st Hinv; simpl.
  { by rewrite Nat.add_0_r. }
  destruct (bfs_inv_step c rows s k st Hrep Hinv) as (reached & next & He & Hinv').
  unfold bfs_round at 1. rewrite He. rewrite Nat.add_succ_r. destruct next as [|v next]; simpl.
  - exists reached. split; [done|]. intros x. eapply bfs_inv_done; [done|lia].
  - apply (IH (S k) (reached, v :: next) Hinv').
Qed.

(** The search never panics and visits exactly the [max_hops]-ball. *)
Lemma bfs_within_rep c rows s max_hops :
  csr_rep c rows →
  ∃ b : B, bfs_within c s max_hops = Some b ∧
    ∀ x, bm_contains b x = true ↔ bsteps (csr_edge rows) (N.to_nat max_hops) s x.
Proof.
  intros Hrep. unfold bfs_within. rewrite for_N_nat.
  pose proof (bfs_rounds c rows s (N.to_nat max_hops) 0 _ Hrep (bfs_inv_init rows s)) as Hr.
  destruct (for_nat _ _ _) as [[b f]|r].
  - exists b. split; [done|]. apply Hr.
  - destruct Hr as (b & -> & Hb). eauto.
Qed.
End bfs_spec.
