(* ===== verification/Paths.v ===== *)
(** * Breadth-first path search: the shared invariant

    [CsrGraph::query_path] (csr.rs) and [SqliteStorage::query_path]
    (backend.rs) run the same search over different adjacency and visited-set
    structures.  This file states its invariant once, over a successor
    relation, a ghost distance map, the predecessor map and the queue, and
    proves that each move of the loop keeps it. *)

From S2P Require Import Prelude.

(** The predecessor walk of both functions:
    [while cur != from { path.push(cur); cur = predecessor[&cur]; }].
    A missing predecessor panics ([None]). *)
Fixpoint walk (fuel : nat) (pred : gmap N N) (from cur : N) (path : list N) : option (list N) :=
  if decide (cur = from) then Some path else
  match fuel with
  | O => None
  | S fuel => p ← pred !! cur; walk fuel pred from p (path ++ [cur])
  end.

(** [l] continues a path from [x]. *)
Fixpoint chain {A} (R : relation A) (x : A) (l : list A) : Prop :=
  match l with
  | [] => True
  | y :: l => R x y ∧ chain R y l
  end.

(** [p] is a path from [s] to [t] of least length. *)
Definition shortest_path (R : relation N) (s t : N) (p : list N) : Prop :=
  ∃ l, p = s :: l ∧ chain R s l ∧ last p = Some t ∧ ∀ k, bsteps R k s t → length l ≤ k.

Section path_lemmas.
Context {A : Type} (R : relation A).

Lemma chain_snoc x l y :
  chain R x (l ++ [y]) ↔ chain R x l ∧ R (default x (last l)) y.
Proof.
  revert x; induction l as [|z l IH]; intros x; [simpl; tauto|].
  cbn [chain app]. rewrite IH, last_cons. destruct (last l); simpl; tauto.
Qed.

Lemma chain_bsteps x l : chain R x l → bsteps R (length l) x (default x (last l)).
Proof.
  revert x; induction l as [|y l IH]; intros x; [intros _; constructor|].
  intros [Hxy Hl]. rewrite last_cons. simpl. econstructor; [done|].
  specialize (IH _ Hl). destruct (last l); simpl in *; done.
Qed.

(** A bounded path out of a set leaves it by some edge. *)
Lemma bsteps_exit (P : A → Prop) `{!∀ x, Decision (P x)} k s x :
  bsteps R k s x → P s → ¬ P x → ∃ j y z, j < k ∧ bsteps R j s z ∧ P z ∧ R z y ∧ ¬ P y.
Proof.
  induction 1 as [|k s y x Hsy Hb IH]; intros Hs Hx; [done|].
  destruct (decide (P y)) as [Hy|Hy].
  - destruct (IH Hy Hx) as (j & w & z & ? & ? & ? & ? & ?).
    exists (S j), w, z. split_and!; [lia|by econstructor|done..].
  - exists 0, y, s. split_and!; [lia|constructor|done..].
Qed.
End path_lemmas.

Lemma shortest_path_bsteps R s t p :
  shortest_path R s t p → ∃ l, p = s :: l ∧ bsteps R (length l) s t.
Proof.
  intros (l & -> & Hch & Hlast & _). exists l. split; [done|]. apply chain_bsteps in Hch.
  rewrite last_cons in Hlast. destruct (last l); simpl in *; congruence.
Qed.

(** ** The invariant *)
Section invariant.
Context (R : relation N) (s : N).

Definition near (D : gmap N nat) (a b : N) : Prop :=
  ∀ da db, D !! a = Some da → D !! b = Some db → da ≤ db ≤ S da.

(** [W] is the worklist: the node being expanded, if any, then the queue. *)
Record bfs_path_inv (W : list N) (D : gmap N nat) (P : gmap N N) : Prop := {
  bp_root : D !! s = Some 0;
  bp_pred x d : D !! x = Some d → x ≠ s →
    ∃ p dp, P !! x = Some p ∧ D !! p = Some dp ∧ d = S dp ∧ R p x;
  bp_min x d k : D !! x = Some d → bsteps R k s x → d ≤ k;
  bp_queue x : x ∈ W → is_Some (D !! x);
  bp_sorted : StronglySorted (near D) W;
  bp_closed x y : is_Some (D !! x) → x ∉ W → R x y → is_Some (D !! y);
}.

Lemma bfs_path_init P : bfs_path_inv [s] {[s := 0]} P.
Proof.
  split.
  - by rewrite lookup_singleton_eq.
  - intros x d [-> _]%lookup_singleton_Some. done.
  - intros x d k [_ <-]%lookup_singleton_Some _. lia.
  - intros x ->%list_elem_of_singleton. rewrite lookup_singleton_eq. eauto.
  - repeat constructor.
  - intros x y [d [<- _]%lookup_singleton_Some] Hx. set_solver.
Qed.

(** Discovering [y] from the node [u] being expanded. *)
Lemma bfs_path_discover u W D P y :
  bfs_path_inv (u :: W) D P → R u y → D !! y = None →
  ∃ du, D !! u = Some du ∧ bfs_path_inv (u :: W ++ [y]) (<[y := S du]> D) (<[y := u]> P).
Proof.
  intros [Hr Hp Hm Hq Hs Hc] Huy Hy.
  destruct (Hq u) as [du Hu]; [set_solver|]. exists du. split; [done|].
  assert (∀ x dx, D !! x = Some dx → x ≠ y) as Hne by (intros; congruence).
  assert (∀ a b, D !! a ≠ None → D !! b ≠ None → near D a b → near (<[y := S du]> D) a b) as Hnear.
  { intros a b Ha Hb Hab da db. rewrite !lookup_insert_ne by congruence. apply Hab. }
  split.
  - rewrite lookup_insert_ne by congruence. done.
  - intros x d Hx Hxs. destruct (decide (y = x)) as [->|Hyx].
    + rewrite lookup_insert_eq in Hx. simplify_eq. exists u, du.
      rewrite lookup_insert_eq, lookup_insert_ne by congruence. done.
    + rewrite lookup_insert_ne in Hx by done.
      destruct (Hp _ _ Hx Hxs) as (p & dp & ? & ? & ? & ?). exists p, dp.
      rewrite !lookup_insert_ne by (done || congruence). done.
  - intros x d k Hx Hb. destruct (decide (y = x)) as [->|Hyx].
    2:{ rewrite lookup_insert_ne in Hx by done. eauto. }
    rewrite lookup_insert_eq in Hx. simplify_eq. destruct (decide (S du ≤ k)) as [|Hlt]; [done|].
    destruct (bsteps_exit R (λ z, is_Some (D !! z)) k s x Hb) as (j & w & z & Hj & Hz & [dz Hdz] & Hzw & Hw).
    { rewrite Hr. eauto. } { rewrite Hy. by intros [? ?]. }
    pose proof (Hm _ _ _ Hdz Hz).
    destruct (decide (z ∈ u :: W)) as [Hin|Hout].
    + apply elem_of_cons in Hin as [->|Hin]; [simplify_eq; lia|].
      apply StronglySorted_inv in Hs as [_ HF]. rewrite Forall_forall in HF.
      pose proof (HF _ Hin _ _ Hu Hdz). lia.
    + destruct Hw. eapply Hc; eauto.
  - intros x Hx. destruct (decide (y = x)) as [->|]; [rewrite lookup_insert_eq; eauto|].
    rewrite lookup_insert_ne by done. apply Hq. set_solver.
  - rewrite app_comm_cons. apply StronglySorted_app. split_and!.
    + intros a b Ha ->%list_elem_of_singleton. intros da db.
      destruct (Hq _ Ha) as [da' Hda]. rewrite lookup_insert_eq, lookup_insert_ne by congruence.
      intros ??. simplify_eq. apply StronglySorted_inv in Hs as [_ HF].
      apply elem_of_cons in Ha as [->|Ha]; [simplify_eq; lia|].
      rewrite Forall_forall in HF. pose proof (HF _ Ha _ _ Hu Hda). lia.
    + assert (∀ x, x ∈ u :: W → D !! x ≠ None) as Hin.
      { intros x Hx. destruct (Hq x Hx). congruence. }
      clear -Hs Hnear Hin. revert Hin. induction Hs as [|a l Hs IH HF]; intros Hin; constructor.
      * apply IH. set_solver.
      * rewrite Forall_forall in HF |- *. intros b Hb. apply Hnear; [set_solver..|auto].
    + repeat constructor.
  - intros a b Ha Hna Hab. destruct (decide (y = b)) as [->|]; [rewrite lookup_insert_eq; eauto|].
    rewrite lookup_insert_ne by done. eapply (Hc a); [|set_solver|done].
    rewrite lookup_insert_ne in Ha by set_solver. done.
Qed.

(** The expanded node leaves the worklist once its successors are known. *)
Lemma bfs_path_finish u W D P :
  bfs_path_inv (u :: W) D P → (∀ y, R u y → is_Some (D !! y)) → bfs_path_inv W D P.
Proof.
  intros [Hr Hp Hm Hq Hs Hc] Hu. split; auto.
  - intros x Hx. apply Hq. set_solver.
  - by apply StronglySorted_inv in Hs as [??].
  - intros x y Hx HxW Hxy. destruct (decide (x = u)) as [->|]; [auto|].
    eapply Hc; eauto. set_solver.
Qed.

(** An empty worklist: the known nodes are closed under the relation. *)
Lemma bfs_path_exhausted D P t :
  bfs_path_inv [] D P → D !! t = None → ¬ rtc R s t.
Proof.
  intros [Hr _ _ _ _ Hc] Ht Hst.
  assert (is_Some (D !! t)) as [? ?]; [|congruence].
  clear Ht. revert t Hst. apply (rtc_ind_r (R := R) (λ t, is_Some (D !! t)) s); [rewrite Hr; eauto|].
  intros y z _ Hyz Hy. eapply Hc; eauto. set_solver.
Qed.

(** The predecessor walk from a known node rebuilds a path of its distance. *)
Lemma walk_spec W D P x d fuel acc :
  bfs_path_inv W D P → D !! x = Some d → d ≤ fuel →
  ∃ l, walk fuel P s x acc = Some (acc ++ l) ∧ length l = d ∧
    chain R s (reverse l) ∧ default s (last (reverse l)) = x.
Proof.
  intros HI. revert x d acc; induction fuel as [|fuel IH]; intros x d acc Hx Hd.
  - assert (x = s) as ->.
    { destruct (decide (x = s)) as [|Hne]; [done|].
      destruct (bp_pred _ _ _ HI _ _ Hx Hne) as (?&?&?&?&?&?). lia. }
    exists []. simpl. rewrite decide_True by done. rewrite (bp_root _ _ _ HI) in Hx.
    simplify_eq. by rewrite app_nil_r.
  - simpl. case_decide as Hxs.
    { subst. rewrite (bp_root _ _ _ HI) in Hx. simplify_eq. exists []. by rewrite app_nil_r. }
    destruct (bp_pred _ _ _ HI _ _ Hx Hxs) as (p & dp & Hp & Hdp & -> & Hpx).
    rewrite Hp. simpl. destruct (IH p dp (acc ++ [x]) Hdp ltac:(lia)) as (l & Hw & Hl & Hch & Hlast).
    exists (x :: l). rewrite Hw, <-app_assoc. split_and!; [done|simpl; lia| |].
    + rewrite reverse_cons. apply chain_snoc. by rewrite Hlast.
    + by rewrite reverse_cons, last_snoc.
Qed.

(** The path returned when [t] is discovered from [u]. *)
Lemma bfs_path_found u W D P t du fuel :
  bfs_path_inv (u :: W ++ [t]) (<[t := S du]> D) (<[t := u]> P) →
  D !! u = Some du → u ≠ t → R u t → du ≤ fuel →
  ∃ l, walk fuel (<[t := u]> P) s u [t] = Some (t :: l) ∧
    shortest_path R s t (reverse ((t :: l) ++ [s])).
Proof.
  intros HI Hu Hne Hut Hf.
  destruct (walk_spec _ _ _ u du fuel [t] HI) as (l & Hw & Hl & Hch & Hlast); [|done|].
  { by rewrite lookup_insert_ne. }
  exists l. split; [done|]. rewrite reverse_app, reverse_singleton, reverse_cons. simpl.
  exists (reverse l ++ [t]). split_and!; [done| | |].
  - apply chain_snoc. rewrite Hlast. done.
  - rewrite app_comm_cons, last_snoc. done.
  - intros k Hk. rewrite length_app, length_reverse. simpl.
    pose proof (bp_min _ _ _ HI t (S du) k ltac:(by rewrite lookup_insert_eq) Hk). lia.
Qed.
End invariant.
