(* ===== verification/CsrGraph.v ===== *)
(** * [CsrGraph] (csr.rs): the read structure derived from the store

    Loading (id compaction, edge sorting), adjacency, bounded reachability in
    both directions and shortest paths, in terms of storage ids.  The visited
    set is any [Bitmap]; the store any [Storage]. *)

From S2P Require Import Prelude Bitmap Model Csr Paths.

(** ** Definitions *)

(** src/crates/weave-graph-core/src/csr.rs:15-18 [CsrGraph] *)
Record CsrGraph := mkCsrGraph {
  csr : CompactCsr;
  index_to_id : list NodeId;
}.

(** src/crates/weave-graph-core/src/csr.rs:151-156 [CsrGraph::empty] *)
Definition csr_graph_empty : CsrGraph := mkCsrGraph csr_new [].

(** src/crates/weave-graph-core/src/csr.rs:170-178 [CsrGraph::load]
    The closure that compacts one edge, skipping unknown endpoints. *)
Definition compact_edge (ids : list NodeId) (acc : list (N * N)) (source target : NodeId) :
    list (N * N) :=
  match binary_search ids source with
  | None => acc
  | Some u =>
      match binary_search ids target with
      | None => acc
      | Some v => acc ++ [(as_u32 u, as_u32 v)]
      end
  end.

(** src/crates/weave-graph-core/src/csr.rs:162-184 [CsrGraph::load] *)
Definition load {S} `{Storage S} (storage : S) : option (result CsrGraph StorageError) :=
  match for_each_node storage (λ acc n, acc ++ [node_id n]) [] with
  | Err e => Some (Err e)
  | Ok ids =>
      let ids := sort_by N.leb ids in
      match for_each_edge storage
              (λ acc e, compact_edge ids acc (source_id e) (target_id e)) [] with
      | Err e => Some (Err e)
      | Ok edges =>
          c ← from_sorted_edges (sort_and_dedup_edges edges) (length ids);
          Some (Ok (mkCsrGraph c ids))
      end
  end.

(** src/crates/weave-graph-core/src/csr.rs:188-211 [CsrGraph::from_nodes_and_edges]
    Edges carry their (ignored) weight. *)
Definition from_nodes_and_edges (nodes : list NodeId) (edges : list (NodeId * NodeId * N)) :
    option (result CsrGraph StorageError) :=
  let ids := dedup (sort_by N.leb nodes) in
  let es := foldl (λ acc e, compact_edge ids acc e.1.1 e.1.2) [] edges in
  c ← from_sorted_edges (sort_and_dedup_edges es) (length ids);
  Some (Ok (mkCsrGraph c ids)).

(** src/crates/weave-graph-core/src/csr.rs:213-215 [CsrGraph::node_count] *)
Definition graph_node_count (g : CsrGraph) : nat := csr_node_count (csr g).

(** src/crates/weave-graph-core/src/csr.rs:217-219 [CsrGraph::edge_count] *)
Definition graph_edge_count (g : CsrGraph) : nat := csr_edge_count (csr g).

(** src/crates/weave-graph-core/src/csr.rs:222-232 [CsrGraph::outbound] *)
Definition outbound (g : CsrGraph) (id : NodeId) : option (list NodeId) :=
  match binary_search (index_to_id g) id with
  | None => Some []
  | Some index =>
      nbrs ← neighbors_slice (csr g) (as_u32 index);
      mapM (λ n, index_to_id g !! as_usize n) nbrs
  end.

(** src/crates/weave-graph-core/src/csr.rs:311-313 [CsrGraph::id_of_index] *)
Definition id_of_index (g : CsrGraph) (index : N) : option NodeId :=
  index_to_id g !! as_usize index.

Section with_bitmap.
Context {B} `{Bitmap B}.

(** src/crates/weave-graph-core/src/csr.rs:283-289 [CsrGraph::reachable_within] *)
Definition reachable_within (g : CsrGraph) (from : NodeId) (max_hops : N) : option B :=
  match binary_search (index_to_id g) from with
  | None => Some bm_new
  | Some from_index => bfs_within (csr g) (as_u32 from_index) max_hops
  end.

(** src/crates/weave-graph-core/src/csr.rs:295-302 [CsrGraph::callers_within] *)
Definition callers_within (g : CsrGraph) (from : NodeId) (max_hops : N) : option B :=
  match binary_search (index_to_id g) from with
  | None => Some bm_new
  | Some from_index =>
      reverse ← build_reverse (csr g);
      bfs_within reverse (as_u32 from_index) max_hops
  end.

(** src/crates/weave-graph-core/src/csr.rs:317-322 [CsrGraph::reachable_nodes] *)
Definition reachable_nodes (g : CsrGraph) (from : NodeId) (max_hops : N) : option (list NodeId) :=
  b ← reachable_within g from max_hops;
  Some (omap (id_of_index g) (bm_iter b)).

(** src/crates/weave-graph-core/src/csr.rs:245-273 [CsrGraph::query_path]
    The state of the search loop: visited set, predecessor map, queue. *)
Record path_state := mkPath {
  ps_visited : B;
  ps_pred : gmap N N;
  ps_queue : list N;
}.

(** src/crates/weave-graph-core/src/csr.rs:251-272 [CsrGraph::query_path]
    One neighbor of the node being expanded; [Break] returns from the function
    (with [None] on a panic of the predecessor walk). *)
Definition path_visit (fuel : nat) (from_index to_index current : N)
    (st : path_state) (neighbor : N) : flow path_state (option (list N)) :=
  if bm_contains (ps_visited st) neighbor then Continue st else
  let visited := (bm_insert (ps_visited st) neighbor).1 in
  let pred := <[neighbor := current]> (ps_pred st) in
  if decide (neighbor = to_index) then
    Break (path ← walk fuel pred from_index current [to_index];
           Some (reverse (path ++ [from_index])))
  else Continue (mkPath visited pred (ps_queue st ++ [neighbor])).

Fixpoint path_visits (fuel : nat) (from_index to_index current : N)
    (nbrs : list N) (st : path_state) : flow path_state (option (list N)) :=
  match nbrs with
  | [] => Continue st
  | v :: nbrs => flow_bind (path_visit fuel from_index to_index current st v)
                   (path_visits fuel from_index to_index current nbrs)
  end.

(** src/crates/weave-graph-core/src/csr.rs:250-275 [CsrGraph::query_path]
    [while let Some(current) = queue.pop_front()]; [None] is a panic or an
    exhausted fuel, [Some None] "no path". *)
Fixpoint path_loop (fuel : nat) (wfuel : nat) (c : CompactCsr) (from_index to_index : N)
    (st : path_state) : option (option (list N)) :=
  match fuel with
  | O => None
  | S fuel =>
      match ps_queue st with
      | [] => Some None
      | current :: queue =>
          nbrs ← neighbors_slice c current;
          match path_visits wfuel from_index to_index current nbrs
                  (mkPath (ps_visited st) (ps_pred st) queue) with
          | Continue st => path_loop fuel wfuel c from_index to_index st
          | Break r => p ← r; Some (Some p)
          end
      end
  end.

(** src/crates/weave-graph-core/src/csr.rs:238-276 [CsrGraph::query_path]
    At most one node is queued per row, so [node_count + 1] iterations and
    predecessor steps are enough. *)
Definition query_path (g : CsrGraph) (from to : NodeId) : option (option (list NodeId)) :=
  match binary_search (index_to_id g) from, binary_search (index_to_id g) to with
  | Some fi, Some ti =>
      let from_index := as_u32 fi in
      let to_index := as_u32 ti in
      if decide (from_index = to_index) then Some (Some [from]) else
      let n := S (graph_node_count g) in
      r ← path_loop n n (csr g) from_index to_index
            (mkPath (bm_insert bm_new from_index).1 ∅ [from_index]);
      match r with
      | None => Some None
      | Some path => ids ← mapM (λ i, index_to_id g !! as_usize i) path; Some (Some ids)
      end
  | _, _ => Some None
  end.
End with_bitmap.

(** ** What a graph represents *)

(** [g] holds the nodes [ids] and the relation [E] on them. *)
Record graph_rep (g : CsrGraph) (ids : list NodeId) (E : relation NodeId) : Prop := {
  gr_ids : index_to_id g = ids;
  gr_sorted : StronglySorted N.lt ids;
  gr_small : (N.of_nat (length ids) ≤ u32_MAX)%N;
  gr_dom a b : E a b → a ∈ ids ∧ b ∈ ids;
  gr_rows : ∃ rows, csr_rep (csr g) rows ∧ length rows = length ids ∧
    Forall (StronglySorted N.lt) rows ∧
    ∀ u v, csr_edge rows u v ↔
      ∃ a b, ids !! as_usize u = Some a ∧ ids !! as_usize v = Some b ∧ E a b;
}.

(** The edges of a store between stored nodes. *)
Definition store_edge (ns : list Node) (es : list Edge) (a b : NodeId) : Prop :=
  a ∈ node_id <$> ns ∧ b ∈ node_id <$> ns ∧ ∃ e, e ∈ es ∧ source_id e = a ∧ target_id e = b.

Definition pair_edge (ids : list NodeId) (es : list (NodeId * NodeId)) (a b : NodeId) : Prop :=
  a ∈ ids ∧ b ∈ ids ∧ (a, b) ∈ es.

(** ** Compaction *)

Lemma as_u32_small n : (N.of_nat n ≤ u32_MAX)%N → as_u32 n = N.of_nat n.
Proof. intros. unfold as_u32. apply N.mod_small. unfold u32_MAX in *. lia. Qed.

Lemma as_usize_as_u32 n : (N.of_nat n ≤ u32_MAX)%N → as_usize (as_u32 n) = n.
Proof. intros. rewrite as_u32_small by done. unfold as_usize. lia. Qed.

Lemma elem_of_compact_fold ids (es : list (NodeId * NodeId)) u v :
  StronglySorted N.lt ids → (N.of_nat (length ids) ≤ u32_MAX)%N →
  (u, v) ∈ foldl (λ acc e, compact_edge ids acc e.1 e.2) [] es ↔
  ∃ a b, ids !! as_usize u = Some a ∧ ids !! as_usize v = Some b ∧ (a, b) ∈ es.
Proof.
  intros Hs Hn. induction es as [|[a b] es IH] using rev_ind.
  { simpl. split; [set_solver|]. intros (?&?&?&?&?). set_solver. }
  rewrite foldl_app. simpl. unfold compact_edge at 1.
  setoid_rewrite elem_of_app. setoid_rewrite list_elem_of_singleton.
  destruct (binary_search ids a) as [i|] eqn:Ha.
  2:{ rewrite IH. apply binary_search_None in Ha; [|done]. split; [naive_solver|].
      intros (x & y & Hx & ? & [?|?]); [eauto 10|]. simplify_eq. destruct Ha.
      eapply list_elem_of_lookup_2; eauto. }
  destruct (binary_search ids b) as [j|] eqn:Hb.
  2:{ rewrite IH. apply binary_search_None in Hb; [|done]. split; [naive_solver|].
      intros (x & y & ? & Hy & [?|?]); [eauto 10|]. simplify_eq. destruct Hb.
      eapply list_elem_of_lookup_2; eauto. }
  apply binary_search_Some in Ha, Hb; [|done..].
  pose proof (lookup_lt_Some _ _ _ Ha). pose proof (lookup_lt_Some _ _ _ Hb).
  rewrite elem_of_app, list_elem_of_singleton, IH. split.
  - intros [?|?]; [naive_solver|]. simplify_eq. exists a, b.
    rewrite !as_usize_as_u32 by lia. auto.
  - intros (x & y & Hx & Hy & [?|?]); [eauto 10|]. simplify_eq. right.
    rewrite !as_u32_small by lia. unfold as_usize in *.
    pose proof (StronglySorted_lookup_inj ids _ _ _ Hs Hx Ha).
    pose proof (StronglySorted_lookup_inj ids _ _ _ Hs Hy Hb). f_equal; lia.
Qed.

(** ** Building the graph *)

Lemma sort_and_dedup_sorted es :
  StronglySorted (λ x y, pair_leb N.leb N.leb x y = true ∧ x ≠ y) (sort_and_dedup_edges es).
Proof. apply dedup_sorted; [apply _|]. apply sort_by_sorted, _. Qed.

Lemma elem_of_sort_and_dedup e es : e ∈ sort_and_dedup_edges es ↔ e ∈ es.
Proof. unfold sort_and_dedup_edges. by rewrite elem_of_dedup, elem_of_sort_by. Qed.

Lemma pair_sorted_fst (l : list (N * N)) :
  StronglySorted (λ x y, pair_leb N.leb N.leb x y = true ∧ x ≠ y) l →
  StronglySorted (λ a b, (a.1 ≤ b.1)%N) l.
Proof.
  induction 1 as [|x l _ IH HF]; constructor; [done|].
  eapply Forall_impl; [done|]. intros y [Hle _]. unfold pair_leb in Hle.
  case_decide; [lia|]. by apply N.leb_le.
Qed.

Lemma row_of_sorted n (l : list (N * N)) i :
  StronglySorted (λ x y, pair_leb N.leb N.leb x y = true ∧ x ≠ y) l →
  StronglySorted N.lt (row_of n l i).
Proof.
  unfold row_of. induction 1 as [|[u v] l _ IH HF]; [constructor|].
  rewrite filter_cons. case_decide as Hx; [|done]. simpl. constructor; [done|].
  rewrite Forall_forall in HF. rewrite Forall_forall. intros w ([u' w'] & -> & [Hx' Hin]%list_elem_of_filter)%list_elem_of_fmap.
  destruct (HF _ Hin) as [Hle Hne]. destruct Hx as [Hu _], Hx' as [Hu' _]. simpl in *.
  assert (u = u') as -> by (unfold as_usize in *; lia).
  unfold pair_leb in Hle. simpl in Hle. rewrite decide_True in Hle by done.
  apply N.leb_le in Hle. destruct (decide (v = w')) as [->|]; [done|lia].
Qed.

Lemma csr_edge_rows_of n es u v :
  csr_edge (rows_of n es n) u v ↔ (u, v) ∈ es ∧ valid_edge n (u, v).
Proof.
  unfold csr_edge, rows_of. setoid_rewrite list_lookup_fmap. split.
  - intros (row & Hrow & Hv). apply fmap_Some in Hrow as (i & Hi & ->).
    apply lookup_seq in Hi as [-> ?].
    apply list_elem_of_fmap in Hv as ([u' v'] & -> & [[Hu Hval] Hin]%list_elem_of_filter).
    simpl in *. assert (u' = u) as -> by (unfold as_usize in *; lia). done.
  - intros [Hin [Hu Hv]]. simpl in *. exists (row_of n es (as_usize u)).
    rewrite lookup_seq_lt by done. split; [done|].
    apply list_elem_of_fmap. exists (u, v). split; [done|]. apply list_elem_of_filter.
    unfold valid_edge. auto.
Qed.

(** A sorted, deduplicated list of compact edges builds a graph of exactly them. *)
Lemma build_graph_rep ids (es : list (N * N)) (E : relation NodeId) :
  StronglySorted N.lt ids → (N.of_nat (length ids) ≤ u32_MAX)%N →
  (∀ a b, E a b → a ∈ ids ∧ b ∈ ids) →
  (∀ u v, (u, v) ∈ es ↔ ∃ a b, ids !! as_usize u = Some a ∧ ids !! as_usize v = Some b ∧ E a b) →
  ∃ c, from_sorted_edges (sort_and_dedup_edges es) (length ids) = Some c ∧
       graph_rep (mkCsrGraph c ids) ids E.
Proof.
  intros Hs Hn Hd HE. pose proof (sort_and_dedup_sorted es) as Hsort.
  destruct (from_sorted_edges_rep (sort_and_dedup_edges es) (length ids)) as (c & Hc & Hrep);
    [done|by apply pair_sorted_fst|].
  exists c. split; [done|]. split; simpl; [done..|].
  exists (rows_of (length ids) (sort_and_dedup_edges es) (length ids)).
  split_and!; [done|apply length_rows_of| |].
  - unfold rows_of. apply Forall_fmap, Forall_forall. intros i _. simpl. by apply row_of_sorted.
  - intros u v. rewrite csr_edge_rows_of, elem_of_sort_and_dedup, HE. split; [tauto|].
    intros (a & b & Ha & Hb & ?). split; [eauto|].
    apply lookup_lt_Some in Ha, Hb. done.
Qed.

Lemma foldl_snoc_map {A C} (f : A → C) l acc :
  foldl (λ acc n, acc ++ [f n]) acc l = acc ++ (f <$> l).
Proof.
  revert acc; induction l as [|x l IH]; intros acc; simpl; [by rewrite app_nil_r|].
  by rewrite IH, <-app_assoc.
Qed.

Lemma foldl_fmap {A C D} (f : D → C → D) (g : A → C) l acc :
  foldl f acc (g <$> l) = foldl (λ acc x, f acc (g x)) acc l.
Proof. revert acc; induction l; intros; simpl; auto. Qed.

Lemma sorted_lt_leb l : StronglySorted N.lt l → StronglySorted (λ x y, (x <=? y)%N = true) l.
Proof.
  induction 1 as [|x l _ IH HF]; constructor; [done|].
  eapply Forall_impl; [done|]. intros y ?. apply N.leb_le. lia.
Qed.

(** Loading a store succeeds and represents its nodes and edges. *)
Lemma load_rep {S} `{Storage S} (s : S) ns es :
  StorageView s ns es → (N.of_nat (length ns) ≤ u32_MAX)%N →
  ∃ g, load s = Some (Ok g) ∧ graph_rep g (node_id <$> ns) (store_edge ns es).
Proof.
  intros HV Hn. unfold load.
  rewrite (view_for_each_node _ _ _ HV), foldl_snoc_map. simpl.
  rewrite (sort_by_unique N.leb (node_id <$> ns) (node_id <$> ns))
    by (try apply _; try done; by apply sorted_lt_leb, (view_ids _ _ _ HV)).
  rewrite (view_for_each_edge _ _ _ HV).
  pose proof (foldl_fmap (λ acc e, compact_edge (node_id <$> ns) acc e.1 e.2)
    (λ e, (source_id e, target_id e)) es []) as Hf. simpl in Hf. rewrite <-Hf.
  destruct (build_graph_rep (node_id <$> ns)
    (foldl (λ acc e, compact_edge (node_id <$> ns) acc e.1 e.2) []
       ((λ e, (source_id e, target_id e)) <$> es)) (store_edge ns es)) as (c & Hc & Hg).
  - apply (view_ids _ _ _ HV).
  - by rewrite length_fmap.
  - intros a b (? & ? & _). done.
  - intros u v. rewrite elem_of_compact_fold; [|apply (view_ids _ _ _ HV)|by rewrite length_fmap].
    unfold store_edge. split.
    + intros (a & b & Ha & Hb & (e & He & ?)%list_elem_of_fmap). simplify_eq.
      exists (source_id e), (target_id e).
      split_and!; [done|done|by eapply list_elem_of_lookup_2|by eapply list_elem_of_lookup_2|eauto].
    + intros (a & b & Ha & Hb & _ & _ & e & ? & <- & <-). exists (source_id e), (target_id e).
      split_and!; [done..|]. apply list_elem_of_fmap. eauto.
  - rewrite Hc. simpl. eauto.
Qed.

(** [from_nodes_and_edges] builds the same kind of graph from slices. *)
Lemma from_nodes_and_edges_rep nodes edges :
  (N.of_nat (length (dedup (sort_by N.leb nodes))) ≤ u32_MAX)%N →
  let ids := dedup (sort_by N.leb nodes) in
  ∃ g, from_nodes_and_edges nodes edges = Some (Ok g) ∧
       graph_rep g ids (pair_edge ids (fst <$> edges)).
Proof.
  intros Hn ids. unfold from_nodes_and_edges. fold ids.
  assert (StronglySorted N.lt ids) as Hs
    by (apply strict_sorted_lt, dedup_sorted; [apply _|apply sort_by_sorted, _]).
  pose proof (foldl_fmap (λ acc e, compact_edge ids acc e.1 e.2) fst edges []) as Hf.
  simpl in Hf. rewrite <-Hf.
  destruct (build_graph_rep ids (foldl (λ acc e, compact_edge ids acc e.1 e.2) [] (fst <$> edges))
    (pair_edge ids (fst <$> edges))) as (c & Hc & Hg); [done..| | |].
  - intros a b (? & ? & _). done.
  - intros u v. rewrite elem_of_compact_fold by done. unfold pair_edge.
    split; intros (a & b & Ha & Hb & Hin); exists a, b; split_and!; try tauto;
      eapply list_elem_of_lookup_2; eauto.
  - rewrite Hc. simpl. eauto.
Qed.

(** ** Adjacency and reachability in terms of storage ids *)

Section graph.
Context {g : CsrGraph} {ids : list NodeId} {E : relation NodeId} (Hg : graph_rep g ids E).

Lemma graph_index a i : ids !! i = Some a → binary_search (index_to_id g) a = Some i.
Proof. intros. rewrite (gr_ids _ _ _ Hg). apply binary_search_Some; [apply (gr_sorted _ _ _ Hg)|done]. Qed.

Lemma graph_index_None a : a ∉ ids → binary_search (index_to_id g) a = None.
Proof. intros. rewrite (gr_ids _ _ _ Hg). apply binary_search_None; [apply (gr_sorted _ _ _ Hg)|done]. Qed.

Lemma graph_small i a : ids !! i = Some a → (N.of_nat i ≤ u32_MAX)%N.
Proof. intros Hi%lookup_lt_Some. pose proof (gr_small _ _ _ Hg). lia. Qed.

Lemma outbound_rep a :
  ∃ l, outbound g a = Some l ∧ StronglySorted N.lt l ∧ ∀ b, b ∈ l ↔ E a b.
Proof.
  unfold outbound. destruct (decide (a ∈ ids)) as [Ha|Ha].
  2:{ rewrite graph_index_None by done. exists []. split_and!; [done|constructor|].
      intros b. split; [set_solver|]. intros ?%(gr_dom _ _ _ Hg). tauto. }
  apply list_elem_of_lookup in Ha as [i Hi]. rewrite (graph_index _ _ Hi).
  destruct (gr_rows _ _ _ Hg) as (rows & Hrep & Hlen & Hsorted & Hedge).
  rewrite (neighbors_slice_rep _ _ _ Hrep), as_usize_as_u32 by eauto using graph_small.
  destruct (lookup_lt_is_Some_2 rows i) as [row Hrow].
  { apply lookup_lt_Some in Hi. lia. }
  rewrite Hrow, (gr_ids _ _ _ Hg). simpl.
  assert (∀ v, v ∈ row → csr_edge rows (N.of_nat i) v) as Hin.
  { intros v Hv. exists row. unfold as_usize. by rewrite Nat2N.id. }
  assert (∃ l, mapM (λ n, ids !! as_usize n) row = Some l) as [l Hl].
  { apply mapM_is_Some. apply Forall_forall. intros v Hv.
    apply Hin, Hedge in Hv as (? & b & _ & Hb & _). simpl. rewrite Hb. eauto. }
  exists l. split; [done|]. apply mapM_Some in Hl. split.
  - pose proof (Forall_lookup_1 _ _ _ _ Hsorted Hrow) as Hs. clear -Hl Hs Hg.
    induction Hl as [|v b row l Hvb Hl IH]; [constructor|].
    apply StronglySorted_inv in Hs as [Hs HF]. constructor; [auto|].
    apply Forall_forall. intros c (j & Hj)%list_elem_of_lookup.
    destruct (Forall2_lookup_r _ _ _ _ _ Hl Hj) as (w & Hw & Hwc).
    eapply StronglySorted_lookup_lt; [apply (gr_sorted _ _ _ Hg)|done|done|].
    rewrite Forall_forall in HF. apply list_elem_of_lookup_2, HF in Hw. unfold as_usize. lia.
  - intros b. split.
    + intros (j & Hj)%list_elem_of_lookup.
      destruct (Forall2_lookup_r _ _ _ _ _ Hl Hj) as (w & Hw & Hwb).
      apply list_elem_of_lookup_2, Hin, Hedge in Hw as (a' & b' & Ha' & Hb' & ?).
      unfold as_usize in Ha'. rewrite Nat2N.id in Ha'. simplify_eq. done.
    + intros Hab. destruct (gr_dom _ _ _ Hg _ _ Hab) as [_ (j & Hj)%list_elem_of_lookup].
      destruct (proj2 (Hedge (N.of_nat i) (N.of_nat j))) as (row' & Hrow' & Hv).
      { exists a, b. unfold as_usize. by rewrite !Nat2N.id. }
      unfold as_usize in Hrow'. rewrite Nat2N.id in Hrow'. simplify_eq.
      apply list_elem_of_lookup in Hv as (k & Hk).
      destruct (Forall2_lookup_l _ _ _ _ _ Hl Hk) as (c & Hc & Hjc).
      unfold as_usize in Hjc. rewrite Nat2N.id in Hjc. simplify_eq.
      by eapply list_elem_of_lookup_2.
Qed.

End graph.

(** Hop-bounded reachability over compact indices is reachability over ids. *)
Lemma bsteps_index ids (E : relation NodeId) rows k i a x :
  StronglySorted N.lt ids → (∀ a b, E a b → a ∈ ids ∧ b ∈ ids) →
  (∀ u v, csr_edge rows u v ↔
     ∃ a b, ids !! as_usize u = Some a ∧ ids !! as_usize v = Some b ∧ E a b) →
  ids !! as_usize i = Some a →
  bsteps (csr_edge rows) k i x ↔ ∃ b, ids !! as_usize x = Some b ∧ bsteps E k a b.
Proof.
  intros Hs Hd Hedge Hia. split.
  - intros Hb. revert a Hia. induction Hb as [k i|k i j x Hij Hb IH]; intros a Ha.
    + exists a. split; [done|constructor].
    + apply Hedge in Hij as (a' & b & ? & Hb' & Hab). simplify_eq.
      destruct (IH _ Hb') as (c & Hc & Hbc). exists c. split; [done|]. by econstructor.
  - intros (b & Hx & Hb). revert i Hia. induction Hb as [k a|k a c b Hac Hb IH]; intros i Ha.
    + assert (i = x) as ->.
      { pose proof (StronglySorted_lookup_inj _ _ _ _ Hs Ha Hx).
        unfold as_usize in *. lia. }
      constructor.
    + destruct (Hd _ _ Hac) as [_ (j & Hj)%list_elem_of_lookup].
      apply (bsteps_l _ _ _ (N.of_nat j)).
      * apply Hedge. exists a, c. unfold as_usize in *. by rewrite Nat2N.id.
      * apply IH; [done|]. unfold as_usize. by rewrite Nat2N.id.
Qed.


(** The transposed rows hold the inverse relation. *)
Lemma csr_edge_rev rows u v :
  (N.of_nat (length rows) ≤ u32_MAX)%N → csr_closed rows →
  csr_edge (rev_rows rows) v u ↔ csr_edge rows u v.
Proof.
  intros Hn Hcl. split.
  - intros (row & Hrow & Hu). pose proof (lookup_lt_Some _ _ _ Hrow) as Hlt.
    rewrite length_rev_rows in Hlt. rewrite lookup_rev_rows in Hrow by done. simplify_eq.
    apply list_elem_of_fmap in Hu as ([i w] & -> & [Hw Hin]%list_elem_of_filter). simpl in *.
    apply elem_of_flat_from in Hin as (j & row & -> & Hj & Hwr). simpl.
    pose proof (lookup_lt_Some _ _ _ Hj). exists row. rewrite as_usize_as_u32 by lia.
    split; [done|]. assert (w = v) as -> by (unfold as_usize in *; lia). done.
  - intros (row & Hrow & Hv). pose proof (lookup_lt_Some _ _ _ Hrow) as Hlt.
    assert (as_usize v < length rows) as Hvn.
    { unfold csr_closed in Hcl. rewrite Forall_forall in Hcl. apply Hcl.
      rewrite list_elem_of_In, in_concat. exists row. rewrite <-!list_elem_of_In.
      split; [by eapply list_elem_of_lookup_2|done]. }
    exists (rev_row (flat_from 0 rows) (as_usize v)). rewrite lookup_rev_rows by done.
    split; [done|]. apply list_elem_of_fmap. exists (as_usize u, v). split.
    + simpl. rewrite as_u32_small by lia. unfold as_usize. by rewrite N2Nat.id.
    + apply list_elem_of_filter. split; [done|]. apply elem_of_flat_from. eauto.
Qed.

Section traversal.
Context {B} `{BitmapLaws B}.
Context {g : CsrGraph} {ids : list NodeId} {E : relation NodeId} (Hg : graph_rep g ids E).

Lemma graph_closed rows :
  length rows = length ids →
  (∀ u v, csr_edge rows u v ↔
     ∃ a b, ids !! as_usize u = Some a ∧ ids !! as_usize v = Some b ∧ E a b) →
  csr_closed rows.
Proof.
  intros Hlen Hedge. apply Forall_forall. intros v Hv.
  rewrite list_elem_of_In, in_concat in Hv. destruct Hv as (row & Hrow & Hv).
  rewrite <-list_elem_of_In in Hv. rewrite <-list_elem_of_In in Hrow.
  apply list_elem_of_lookup in Hrow as [i Hi].
  destruct (proj1 (Hedge (N.of_nat i) v)) as (a & b & _ & Hb & _).
  { exists row. unfold as_usize. by rewrite Nat2N.id. }
  apply lookup_lt_Some in Hb. lia.
Qed.

(** [reachable_within] marks the indices of the ids within [k] hops. *)
Lemma reachable_within_rep a k :
  ∃ b : B, reachable_within g a k = Some b ∧
    ∀ x, bm_contains b x = true ↔
      ∃ y, ids !! as_usize x = Some y ∧ a ∈ ids ∧ bsteps E (N.to_nat k) a y.
Proof.
  unfold reachable_within. destruct (decide (a ∈ ids)) as [Ha|Ha].
  2:{ rewrite (graph_index_None Hg) by done. exists bm_new. split; [done|].
      intros x. rewrite bm_contains_new. naive_solver. }
  pose proof Ha as (i & Hi)%list_elem_of_lookup. rewrite (graph_index Hg _ _ Hi).
  destruct (gr_rows _ _ _ Hg) as (rows & Hrep & _ & _ & Hedge).
  destruct (bfs_within_rep (B := B) (csr g) rows (as_u32 i) k Hrep) as (b & -> & Hb).
  exists b. split; [done|]. intros x. rewrite Hb.
  rewrite (bsteps_index ids E rows _ _ a); [naive_solver|apply Hg..|done|].
  rewrite as_usize_as_u32; [done|]. by apply (graph_small Hg i a).
Qed.

(** [callers_within] does the same over the inverse relation. *)
Lemma callers_within_rep a k :
  ∃ b : B, callers_within g a k = Some b ∧
    ∀ x, bm_contains b x = true ↔
      ∃ y, ids !! as_usize x = Some y ∧ a ∈ ids ∧ bsteps (flip E) (N.to_nat k) a y.
Proof.
  unfold callers_within. destruct (decide (a ∈ ids)) as [Ha|Ha].
  2:{ rewrite (graph_index_None Hg) by done. exists bm_new. split; [done|].
      intros x. rewrite bm_contains_new. naive_solver. }
  pose proof Ha as (i & Hi)%list_elem_of_lookup. rewrite (graph_index Hg _ _ Hi).
  destruct (gr_rows _ _ _ Hg) as (rows & Hrep & Hlen & Hsorted & Hedge).
  pose proof (graph_closed rows Hlen Hedge) as Hcl.
  assert (N.of_nat (length rows) ≤ u32_MAX)%N as Hn
    by (rewrite Hlen; apply (gr_small _ _ _ Hg)).
  destruct (build_reverse_rep (csr g) rows Hrep Hcl Hn) as (r & Hr & Hrrep).
  rewrite Hr. simpl.
  destruct (bfs_within_rep (B := B) r (rev_rows rows) (as_u32 i) k Hrrep) as (b & -> & Hb).
  exists b. split; [done|]. intros x. rewrite Hb.
  rewrite (bsteps_index ids (flip E) (rev_rows rows) _ _ a); [naive_solver|apply Hg| | |].
  - intros u v ?%(gr_dom _ _ _ Hg). tauto.
  - intros u v. rewrite csr_edge_rev, Hedge by done. unfold flip. naive_solver.
  - rewrite as_usize_as_u32; [done|]. by apply (graph_small Hg i a).
Qed.
End traversal.

(** ** Shortest paths *)

Section path.
Context {B} `{BitmapLaws B}.
Context (R : relation N) (n : nat) (s t : N).
Context (Hclosed : ∀ u v, R u v → as_usize v < n) (Hs : as_usize s < n) (Hst : s ≠ t).

(** The loop invariant: [W] the worklist, [k] the number of nodes popped, [D]
    the (ghost) distances. *)
Record path_inv (W : list N) (k : nat) (D : gmap N nat) (st : @path_state B) : Prop := {
  pi_bfs : bfs_path_inv R s W D (ps_pred st);
  pi_visited x : bm_contains (ps_visited st) x = true ↔ is_Some (D !! x);
  pi_target : D !! t = None;
  pi_dom x : is_Some (D !! x) → as_usize x < n;
  pi_count : k + length (ps_queue st) ≤ size D;
  pi_dist x d : D !! x = Some d → d ≤ k;
}.

Lemma size_bounded (D : gmap N nat) :
  (∀ x, is_Some (D !! x) → as_usize x < n) → size D ≤ n.
Proof.
  intros HD. rewrite <-size_dom. trans (size (list_to_set (N.of_nat <$> seq 0 n) : gset N)).
  - apply subseteq_size. intros x Hx%elem_of_dom. apply HD in Hx.
    apply elem_of_list_to_set, list_elem_of_fmap. exists (as_usize x).
    split; [unfold as_usize; by rewrite N2Nat.id|]. apply elem_of_seq. lia.
  - rewrite size_list_to_set; [by rewrite length_fmap, length_seq|].
    apply NoDup_fmap_2; [apply _|apply NoDup_seq].
Qed.

Lemma path_visits_spec wfuel u k nbrs D st :
  n ≤ wfuel → (∀ v, v ∈ nbrs → R u v) →
  path_inv (u :: ps_queue st) (S k) D st → (∀ d, D !! u = Some d → d ≤ k) →
  match path_visits wfuel s t u nbrs st with
  | Continue st' => ∃ D', path_inv (u :: ps_queue st') (S k) D' st' ∧ D ⊆ D' ∧
      ∀ v, v ∈ nbrs → is_Some (D' !! v)
  | Break r => ∃ p, r = Some p ∧ shortest_path R s t p
  end.
Proof.
  intros Hw. revert D st; induction nbrs as [|v nbrs IH]; intros D st Hn HI Hu; simpl.
  { exists D. split_and!; [done..|set_solver]. }
  assert (R u v) as Huv by set_solver.
  assert (as_usize v < n) by eauto. unfold path_visit at 1.
  destruct (bm_contains (ps_visited st) v) eqn:Hv; simpl.
  { apply (pi_visited _ _ _ _ HI) in Hv as [dv Hv].
    specialize (IH D st ltac:(set_solver) HI Hu).
    destruct (path_visits _ _ _ _ _ _); [|done].
    destruct IH as (D' & ? & Hsub & HD'). exists D'. split_and!; [done..|].
    intros w [->|?]%elem_of_cons; [|auto]. exists dv. by eapply lookup_weaken. }
  assert (D !! v = None) as HDv.
  { apply eq_None_not_Some. rewrite <-(pi_visited _ _ _ _ HI), Hv. done. }
  destruct (bfs_path_discover R s u (ps_queue st) D (ps_pred st) v (pi_bfs _ _ _ _ HI) Huv HDv)
    as (du & Hdu & HI').
  pose proof (size_bounded D (pi_dom _ _ _ _ HI)).
  case_decide as Hvt; simpl.
  { subst v. pose proof (pi_count _ _ _ _ HI). pose proof (Hu _ Hdu).
    destruct (bfs_path_found R s u (ps_queue st) D (ps_pred st) t du wfuel HI' Hdu)
      as (l & Hwalk & Hp); [congruence|done|lia|].
    rewrite Hwalk. simpl. eauto. }
  assert (path_inv (u :: (ps_queue st ++ [v])) (S k) (<[v:=S du]> D)
    (mkPath (bm_insert (ps_visited st) v).1 (<[v:=u]> (ps_pred st)) (ps_queue st ++ [v]))) as HI2.
  { split; simpl; [done|..].
    - intros x. rewrite bm_contains_insert_true, (pi_visited _ _ _ _ HI).
      rewrite lookup_insert_is_Some. destruct (decide (x = v)); naive_solver.
    - rewrite lookup_insert_ne by done. apply (pi_target _ _ _ _ HI).
    - intros x. rewrite lookup_insert_is_Some. intros [<-|[_ ?]]; [done|].
      by apply (pi_dom _ _ _ _ HI).
    - rewrite map_size_insert_None, length_app by done. simpl.
      pose proof (pi_count _ _ _ _ HI). lia.
    - intros x d [[<- <-]|[_ ?]]%lookup_insert_Some.
      + specialize (Hu _ Hdu). lia.
      + by eapply (pi_dist _ _ _ _ HI). }
  specialize (IH _ (mkPath (bm_insert (ps_visited st) v).1 (<[v:=u]> (ps_pred st))
    (ps_queue st ++ [v])) ltac:(set_solver) HI2).
  destruct (path_visits _ _ _ _ nbrs _) as [st'|r].
  - destruct IH as (D' & ? & Hsub & HD').
    { intros d. rewrite lookup_insert_ne by congruence. auto. }
    exists D'. split_and!; [done| |].
    + etrans; [|done]. by apply insert_subseteq.
    + intros w [->|?]%elem_of_cons; [|auto]. exists (S du).
      eapply lookup_weaken; [|done]. by rewrite lookup_insert_eq.
  - apply IH. intros d. rewrite lookup_insert_ne by congruence. auto.
Qed.

Lemma path_loop_spec c rows fuel k wfuel D st :
  csr_rep c rows → (∀ u v, csr_edge rows u v ↔ R u v) → n ≤ wfuel → n < fuel + k →
  path_inv (ps_queue st) k D st →
  ∃ r, path_loop fuel wfuel c s t st = Some r ∧
    match r with
    | Some p => shortest_path R s t p
    | None => ¬ rtc R s t
    end.
Proof.
  intros Hrep HR Hw. revert k D st; induction fuel as [|fuel IH]; intros k D st Hf HI.
  { pose proof (size_bounded D (pi_dom _ _ _ _ HI)). pose proof (pi_count _ _ _ _ HI). lia. }
  simpl. destruct (ps_queue st) as [|u queue] eqn:Hq.
  { exists None. split; [done|].
    eapply bfs_path_exhausted; [apply (pi_bfs _ _ _ _ HI)|apply (pi_target _ _ _ _ HI)]. }
  rewrite (neighbors_slice_rep _ _ _ Hrep). simpl.
  assert (∀ v, v ∈ default [] (rows !! as_usize u) ↔ R u v) as Hnb.
  { intros v. by rewrite <-csr_edge_default, HR. }
  pose proof (path_visits_spec wfuel u k (default [] (rows !! as_usize u)) D
    (mkPath (ps_visited st) (ps_pred st) queue)) as HV.
  destruct (path_visits _ _ _ _ _ _) as [st'|r].
  - destruct HV as (D' & HI' & _ & HD'); [done|naive_solver| | |].
    + destruct HI as [? ? ? ? Hc Hd]. split; simpl; [done..| |].
      * rewrite Hq in Hc. simpl in Hc. lia.
      * intros x d ?%Hd. lia.
    + apply (pi_dist _ _ _ _ HI).
    + apply (IH (S k) D'); [lia|]. destruct HI' as [Hb ? ? ? ? ?]. split; [|done..].
      eapply bfs_path_finish; [done|]. intros y ?%Hnb. auto.
  - destruct HV as (p & -> & Hp); [done|naive_solver| | |].
    + destruct HI as [? ? ? ? Hc Hd]. split; simpl; [done..| |].
      * rewrite Hq in Hc. simpl in Hc. lia.
      * intros x d ?%Hd. lia.
    + apply (pi_dist _ _ _ _ HI).
    + simpl. exists (Some p). done.
Qed.

Lemma path_inv_init :
  path_inv [s] 0 {[s := 0]} (mkPath (bm_insert bm_new s).1 ∅ [s]).
Proof.
  split; simpl.
  - apply bfs_path_init.
  - intros x. rewrite bm_contains_insert_true, bm_contains_new, lookup_singleton_is_Some.
    naive_solver.
  - by rewrite lookup_singleton_ne.
  - intros x [d [<- _]%lookup_singleton_Some]. done.
  - by rewrite map_size_singleton.
  - intros x d [_ <-]%lookup_singleton_Some. done.
Qed.
End path.

(** A path over compact indices, read back as ids. *)
Lemma chain_ids (ids : list NodeId) (E : relation NodeId) rows i a l :
  (∀ u v, csr_edge rows u v ↔
     ∃ a b, ids !! as_usize u = Some a ∧ ids !! as_usize v = Some b ∧ E a b) →
  ids !! as_usize i = Some a → chain (csr_edge rows) i l →
  ∃ l', mapM (λ i, ids !! as_usize i) l = Some l' ∧ chain E a l' ∧ length l' = length l ∧
    ids !! as_usize (default i (last l)) = Some (default a (last l')).
Proof.
  intros Hedge. revert i a; induction l as [|j l IH]; intros i a Ha; simpl; [by exists []|].
  intros [Hij Hl]. apply Hedge in Hij as (a' & b & ? & Hb & Hab). simplify_eq.
  destruct (IH _ _ Hb Hl) as (l' & Hl' & Hch & Hlen & Hlast).
  rewrite Hb. simpl. rewrite Hl'. simpl. exists (b :: l'). split_and!; [done..|simpl; lia|].
  change (ids !! as_usize (default i (last (j :: l))) = Some (default a (last (b :: l')))).
  rewrite !last_cons. destruct (last l), (last l'); done.
Qed.

Lemma query_path_rep {B} `{BitmapLaws B} g ids E a b :
  graph_rep g ids E →
  ∃ r, query_path (B := B) g a b = Some r ∧
    match r with
    | Some p => shortest_path E a b p
    | None => a ∉ ids ∨ b ∉ ids ∨ ¬ rtc E a b
    end.
Proof.
  intros Hg. unfold query_path. destruct (decide (a ∈ ids)) as [Ha|Ha].
  2:{ rewrite (graph_index_None Hg) by done. exists None. auto. }
  pose proof Ha as (i & Hi)%list_elem_of_lookup. rewrite (graph_index Hg _ _ Hi).
  destruct (decide (b ∈ ids)) as [Hb|Hb].
  2:{ rewrite (graph_index_None Hg) by done. exists None. auto. }
  pose proof Hb as (j & Hj)%list_elem_of_lookup. rewrite (graph_index Hg _ _ Hj).
  pose proof (graph_small Hg _ _ Hi). pose proof (graph_small Hg _ _ Hj).
  destruct (gr_rows _ _ _ Hg) as (rows & Hrep & Hlen & _ & Hedge).
  case_decide as Hij.
  { rewrite !as_u32_small in Hij by done. assert (i = j) as -> by lia. simplify_eq.
    exists (Some [a]). split; [done|]. exists []. split_and!; [done..|]. intros; simpl; lia. }
  assert (ids !! as_usize (as_u32 i) = Some a) as Hi' by by rewrite as_usize_as_u32.
  assert (ids !! as_usize (as_u32 j) = Some b) as Hj' by by rewrite as_usize_as_u32.
  unfold graph_node_count. rewrite (node_count_rep _ _ Hrep).
  assert (∀ k, bsteps E k a b → bsteps (csr_edge rows) k (as_u32 i) (as_u32 j)) as Hsteps.
  { intros k Hk. apply (bsteps_index ids E rows k (as_u32 i) a); [apply Hg..|done|done|]. eauto. }
  assert (∀ u v, csr_edge rows u v → as_usize v < length rows) as Hcl.
  { intros u v (? & ? & _ & Hv & _)%Hedge. apply lookup_lt_Some in Hv. lia. }
  assert (as_usize (as_u32 i) < length rows) as Hlt.
  { apply lookup_lt_Some in Hi'. lia. }
  destruct (path_loop_spec (B := B) (csr_edge rows) (length rows) (as_u32 i) (as_u32 j) Hcl Hlt Hij
    (csr g) rows (S (length rows)) 0 (S (length rows)) {[as_u32 i := 0]}
    (mkPath (bm_insert bm_new (as_u32 i)).1 ∅ [as_u32 i])) as (r & -> & Hr); [done..|lia|lia| |].
  { by apply path_inv_init. }
  cbn [mbind option_bind]. destruct r as [p|].
  - destruct Hr as (l & -> & Hch & Hlast & Hmin).
    destruct (chain_ids ids E rows _ a l Hedge Hi' Hch) as (l' & Hl' & Hch' & Hlen' & Hlast').
    rewrite (gr_ids _ _ _ Hg). cbn [mapM mbind option_bind].
    rewrite Hi'. simpl. rewrite Hl'. simpl. exists (Some (a :: l')). split; [done|].
    exists l'. split_and!; [done..| |].
    + rewrite last_cons in Hlast |- *.
      assert (default (as_u32 i) (last l) = as_u32 j) as Hd by (destruct (last l); simpl; congruence).
      rewrite Hd, Hj' in Hlast'. simplify_eq. destruct (last l'); done.
    + intros k Hk%Hsteps. rewrite Hlen'. auto.
  - exists None. split; [done|]. right; right. intros [k Hk]%rtc_bsteps.
    apply Hr. apply Hsteps in Hk. apply rtc_bsteps; eauto.
Qed.

(** ** The contract of the read structure *)

(** [omap] with an index lookup keeps the order of sorted indices. *)
Lemma omap_index_sorted (ids : list NodeId) l :
  StronglySorted N.lt ids → StronglySorted N.lt l →
  StronglySorted N.lt (omap (λ i, ids !! as_usize i) l).
Proof.
  intros Hs. induction 1 as [|i l _ IH HF]; [constructor|].
  cbn. destruct (ids !! as_usize i) as [a|] eqn:Ha; [|done]. constructor; [done|].
  apply Forall_forall. intros b (j & Hj & Hb)%list_elem_of_omap.
  rewrite Forall_forall in HF. specialize (HF _ Hj).
  eapply StronglySorted_lookup_lt; [exact Hs|done|done|]. unfold as_usize. lia.
Qed.

(** Loading a store with at most [u32::MAX] nodes never panics, and the
    loaded graph's [outbound] lists, for every id, exactly the distinct targets
    of stored edges between stored nodes, in ascending order; an unknown id has
    none. *)
Theorem load_outbound_exact {S} `{Storage S} (s : S) ns es
    (Hview : StorageView s ns es) (Hsmall : (N.of_nat (length ns) ≤ u32_MAX)%N) :
  ∃ g, load s = Some (Ok g) ∧ graph_node_count g = length ns ∧
    ∀ a, ∃ l, outbound g a = Some l ∧ StronglySorted N.lt l ∧
      ∀ b, b ∈ l ↔ store_edge ns es a b.
Proof.
  destruct (load_rep s ns es Hview Hsmall) as (g & Hl & Hg). exists g. split_and!; [done| |].
  - destruct (gr_rows _ _ _ Hg) as (rows & Hrep & Hlen & _). unfold graph_node_count.
    by rewrite (node_count_rep _ _ Hrep), Hlen, length_fmap.
  - intros a. apply (outbound_rep Hg).
Qed.

(** [load] and [from_nodes_and_edges] agree: building from a store's ids
    and endpoint pairs gives the very graph that loading the store gives. *)
Theorem from_nodes_and_edges_load {S} `{Storage S} (s : S) ns es (w : Edge → N)
    (Hview : StorageView s ns es) :
  from_nodes_and_edges (node_id <$> ns) ((λ e, (source_id e, target_id e, w e)) <$> es) = load s.
Proof.
  unfold from_nodes_and_edges, load.
  pose proof (view_ids _ _ _ Hview) as Hs.
  rewrite (view_for_each_node _ _ _ Hview), foldl_snoc_map. simpl.
  rewrite (sort_by_unique N.leb (node_id <$> ns) (node_id <$> ns))
    by (try apply _; try done; by apply sorted_lt_leb).
  rewrite (view_for_each_edge _ _ _ Hview), foldl_fmap. simpl.
  by rewrite (dedup_id _ Hs).
Qed.

(** C5: [reachable_nodes] terminates without panicking for every hop bound and
    returns, in ascending order, exactly the ids within [max_hops] edges of a
    stored start (the start included); an unknown start reaches nothing. *)
Theorem reachable_nodes_ball {B} `{BitmapLaws B} {S} `{Storage S} (s : S) ns es a k
    (Hview : StorageView s ns es) (Hsmall : (N.of_nat (length ns) ≤ u32_MAX)%N) :
  ∃ g l, load s = Some (Ok g) ∧ reachable_nodes (B := B) g a k = Some l ∧
    StronglySorted N.lt l ∧
    ∀ y, y ∈ l ↔ a ∈ node_id <$> ns ∧ bsteps (store_edge ns es) (N.to_nat k) a y.
Proof.
  destruct (load_rep s ns es Hview Hsmall) as (g & Hl & Hg).
  destruct (reachable_within_rep (B := B) Hg a k) as (b & Hb & Hspec).
  exists g, (omap (id_of_index g) (bm_iter b)). split_and!; [done| | |].
  - unfold reachable_nodes. by rewrite Hb.
  - unfold id_of_index. rewrite (gr_ids _ _ _ Hg).
    apply omap_index_sorted; [apply Hg|apply bm_iter_sorted].
  - intros y. rewrite list_elem_of_omap. unfold id_of_index. rewrite (gr_ids _ _ _ Hg).
    setoid_rewrite bm_iter_spec. setoid_rewrite Hspec. split; [naive_solver|].
    intros [Ha Hy]. assert (y ∈ node_id <$> ns) as (i & Hi)%list_elem_of_lookup.
    { eapply (bsteps_closed _ (λ y, y ∈ node_id <$> ns)); [exact Ha| |exact Hy]. intros ? ? _ (_ & ? & _). done. }
    exists (N.of_nat i). unfold as_usize. rewrite Nat2N.id. eauto 6.
Qed.

(** [callers_within] (the same search over the transposed CSR) marks
    exactly the indices of the ids from which the start can be reached in at
    most [max_hops] edges. *)
Theorem callers_within_inverse_ball {B} `{BitmapLaws B} {S} `{Storage S} (s : S) ns es a k
    (Hview : StorageView s ns es) (Hsmall : (N.of_nat (length ns) ≤ u32_MAX)%N)
    (Ha : a ∈ node_id <$> ns) :
  ∃ g (b : B), load s = Some (Ok g) ∧ callers_within g a k = Some b ∧
    ∀ y i, id_of_index g i = Some y →
      bm_contains b i = true ↔ bsteps (store_edge ns es) (N.to_nat k) y a.
Proof.
  destruct (load_rep s ns es Hview Hsmall) as (g & Hl & Hg).
  destruct (callers_within_rep (B := B) Hg a k) as (b & Hb & Hspec).
  exists g, b. split_and!; [done..|]. intros y i Hi. unfold id_of_index in Hi.
  rewrite (gr_ids _ _ _ Hg) in Hi. rewrite Hspec, (bsteps_flip (store_edge ns es)). naive_solver.
Qed.

(** [build_reverse] never panics on a loaded CSR and transposes it: [u] is
    in row [v] of the result exactly when [v] is in row [u] of the argument,
    and the number of edges is unchanged. *)
Theorem build_reverse_transposes {S} `{Storage S} (s : S) ns es
    (Hview : StorageView s ns es) (Hsmall : (N.of_nat (length ns) ≤ u32_MAX)%N) :
  ∃ g r, load s = Some (Ok g) ∧ build_reverse (csr g) = Some r ∧
    csr_node_count r = csr_node_count (csr g) ∧ csr_edge_count r = csr_edge_count (csr g) ∧
    ∀ u v, ∃ ru rv, neighbors_slice (csr g) u = Some ru ∧ neighbors_slice r v = Some rv ∧
      (u ∈ rv ↔ v ∈ ru).
Proof.
  destruct (load_rep s ns es Hview Hsmall) as (g & Hl & Hg).
  destruct (gr_rows _ _ _ Hg) as (rows & Hrep & Hlen & _ & Hedge).
  pose proof (graph_closed rows Hlen Hedge) as Hcl.
  assert (N.of_nat (length rows) ≤ u32_MAX)%N as Hn by (rewrite Hlen; apply (gr_small _ _ _ Hg)).
  destruct (build_reverse_rep (csr g) rows Hrep Hcl Hn) as (r & Hr & Hrrep).
  exists g, r. split_and!; [done..| | |].
  - by rewrite (node_count_rep _ _ Hrep), (node_count_rep _ _ Hrrep), length_rev_rows.
  - unfold csr_edge_count. rewrite (rep_columns _ _ Hrep), (rep_columns _ _ Hrrep).
    rewrite <-(flat_from_snd 0 rows), length_fmap. apply length_concat_rev.
    by rewrite flat_from_snd.
  - intros u v. rewrite (neighbors_slice_rep _ _ _ Hrep), (neighbors_slice_rep _ _ _ Hrrep).
    do 2 eexists. split_and!; [done..|]. rewrite <-!csr_edge_default. by apply csr_edge_rev.
Qed.

(** C1: [query_path] always returns (the search and the predecessor walk
    terminate, and no index or map lookup panics); a returned path is a
    shortest path of stored edges from [a] to [b], and [None] means that an
    endpoint is unknown or [b] is unreachable from [a]. *)
Theorem query_path_shortest {B} `{BitmapLaws B} {S} `{Storage S} (s : S) ns es a b
    (Hview : StorageView s ns es) (Hsmall : (N.of_nat (length ns) ≤ u32_MAX)%N) :
  ∃ g r, load s = Some (Ok g) ∧ query_path (B := B) g a b = Some r ∧
    match r with
    | Some p => shortest_path (store_edge ns es) a b p
    | None => a ∉ node_id <$> ns ∨ b ∉ node_id <$> ns ∨ ¬ rtc (store_edge ns es) a b
    end.
Proof.
  destruct (load_rep s ns es Hview Hsmall) as (g & Hl & Hg).
  destruct (query_path_rep (B := B) g _ _ a b Hg) as (r & Hr & Hspec). eauto.
Qed.

(** A store with the cycle 2 -> 5 -> 9 -> 2, a duplicate edge and a dangling one. *)
Definition ex_node (i : N) : Node := mkNode i "r" "p.rs" "f" "fn" 1 2 "".
Definition ex_edge (i a b : N) : Edge := mkEdge i a b "CALLS" 0 None None.
Definition ex_store : mem_store :=
  (ex_node <$> [2; 5; 9]%N,
   [ex_edge 1 2 5; ex_edge 2 5 9; ex_edge 3 9 2; ex_edge 4 2 5; ex_edge 5 5 77]).

Lemma ex_store_view : StorageView ex_store (fst ex_store) (snd ex_store).
Proof. apply mem_store_view. repeat constructor. Qed.

Lemma load_outbound_exact_witness :
  ∃ g, load ex_store = Some (Ok g) ∧ outbound g 5 = Some [9%N].
Proof.
  destruct (load_outbound_exact ex_store _ _ ex_store_view ltac:(done)) as (g & Hg & _ & _).
  exists g. split; [exact Hg|]. vm_compute in Hg. by simplify_eq.
Defined.

Lemma from_nodes_and_edges_load_witness :
  from_nodes_and_edges [2; 5; 9]%N
    [(2, 5, 0); (5, 9, 0); (9, 2, 0); (2, 5, 0); (5, 77, 0)]%N = load ex_store.
Proof. exact (from_nodes_and_edges_load ex_store _ _ weight ex_store_view). Defined.

Lemma reachable_nodes_ball_witness :
  ∃ g l, load ex_store = Some (Ok g) ∧ reachable_nodes (B := gset N) g 2 1 = Some l ∧
    l = [2; 5]%N.
Proof.
  destruct (reachable_nodes_ball (B := gset N) ex_store _ _ 2 1 ex_store_view ltac:(done))
    as (g & l & Hg & Hl & _).
  exists g, l. split_and!; [done..|]. vm_compute in Hg. simplify_eq. vm_compute in Hl. by simplify_eq.
Defined.

Lemma callers_within_inverse_ball_witness :
  ∃ g (b : gset N), load ex_store = Some (Ok g) ∧ callers_within g 2 1 = Some b ∧
    bm_iter b = [0; 2]%N.
Proof.
  destruct (callers_within_inverse_ball (B := gset N) ex_store _ _ 2 1 ex_store_view ltac:(done))
    as (g & l & Hg & Hl & _); [set_solver|].
  exists g, l. split_and!; [done..|]. vm_compute in Hg. simplify_eq. vm_compute in Hl. by simplify_eq.
Defined.

Lemma build_reverse_transposes_witness :
  ∃ g r, load ex_store = Some (Ok g) ∧ build_reverse (csr g) = Some r ∧
    column_indices r = [2; 0; 1]%N.
Proof.
  destruct (build_reverse_transposes ex_store _ _ ex_store_view ltac:(done))
    as (g & r & Hg & Hr & _).
  exists g, r. split_and!; [done..|]. vm_compute in Hg. simplify_eq. vm_compute in Hr. by simplify_eq.
Defined.

Lemma query_path_shortest_witness :
  ∃ g r, load ex_store = Some (Ok g) ∧ query_path (B := gset N) g 5 2 = Some r ∧
    r = Some [5; 9; 2]%N.
Proof.
  destruct (query_path_shortest (B := gset N) ex_store _ _ 5 2 ex_store_view ltac:(done))
    as (g & r & Hg & Hr & _).
  exists g, r. split_and!; [done..|]. vm_compute in Hg. simplify_eq. vm_compute in Hr. by simplify_eq.
Defined.
