(* ===== verification/Resolve.v ===== *)
(** * Symbol resolution (weave-graph-core/resolve.rs)

    The lookup chain every query command uses: exact, case-insensitive, short
    name, then suggestions ranked by edit distance. *)

From S2P Require Import Prelude Str Model.

(** ** Definitions *)

(** src/crates/weave-graph-core/src/resolve.rs:11-11 [MAX_SUGGESTIONS] *)
Definition MAX_SUGGESTIONS : nat := 5.

(** src/crates/weave-graph-core/src/resolve.rs:13-15 [exact_match] *)
Definition exact_match (nodes : list Node) (symbol : string) : option NodeId :=
  (λ p, node_id p.2) <$> list_find (λ n, node_symbol n = symbol) nodes.

(** src/crates/weave-graph-core/src/resolve.rs:17-23 [case_insensitive_match] *)
Definition case_insensitive_match (nodes : list Node) (symbol : string) : option NodeId :=
  let lower := to_ascii_lowercase symbol in
  (λ p, node_id p.2) <$> list_find (λ n, to_ascii_lowercase (node_symbol n) = lower) nodes.

(** src/crates/weave-graph-core/src/resolve.rs:29-35 [short_name_matches] *)
Definition short_name_matches (nodes : list Node) (short_name : string) : list Node :=
  let suffix := "::" +:+ short_name in
  filter (λ n, node_symbol n = short_name ∨ ends_with (node_symbol n) suffix = true) nodes.

(** src/crates/weave-graph-core/src/resolve.rs:46-52 [levenshtein]
    One cell of the table, [curr[j + 1] = ..]. *)
Definition lev_cell (prev : list nat) (ac : ascii) (curr : list nat) (jb : nat * ascii) :
    option (list nat) :=
  let '(j, bc) := jb in
  if decide (ac = bc) then x ← prev !! j; vec_set curr (j + 1) x
  else p ← prev !! j; q ← prev !! (j + 1); r ← curr !! j;
       vec_set curr (j + 1) (1 + (p `min` q) `min` r).

(** src/crates/weave-graph-core/src/resolve.rs:44-54 [levenshtein]
    One row; the state is [(prev, curr)], swapped at the end. *)
Definition lev_row (b : list ascii) (st : list nat * list nat) (ia : nat * ascii) :
    option (list nat * list nat) :=
  curr ← vec_set st.2 0 (ia.1 + 1);
  curr ← foldlM (lev_cell st.1 ia.2) (enumerate b) curr;
  Some (curr, st.1).

(** src/crates/weave-graph-core/src/resolve.rs:40-56 [levenshtein] *)
Definition levenshtein (a b : string) : option nat :=
  let a := String.list_ascii_of_string a in
  let b := String.list_ascii_of_string b in
  st ← foldlM (lev_row b) (enumerate a) (seq 0 (length b + 1), replicate (length b + 1) 0);
  st.1 !! length b.

(** src/crates/weave-graph-core/src/resolve.rs:90-92 [resolve_symbol]
    The comparison of the ranking: distance, then symbol. *)
Definition rank_leb (x y : Node * nat) : bool :=
  if decide (x.2 = y.2) then String.leb (node_symbol x.1) (node_symbol y.1) else Nat.leb x.2 y.2.

(** src/crates/weave-graph-core/src/resolve.rs:66-98 [resolve_symbol] *)
Definition resolve_symbol (nodes : list Node) (symbol : string) :
    option (result NodeId (list string)) :=
  match exact_match nodes symbol with
  | Some id => Some (Ok id)
  | None =>
    match case_insensitive_match nodes symbol with
    | Some id => Some (Ok id)
    | None =>
      match short_name_matches nodes symbol with
      | [single] => Some (Ok (node_id single))
      | [] =>
          ranked ← mapM (λ n,
            d ← levenshtein (to_ascii_lowercase (node_symbol n)) (to_ascii_lowercase symbol);
            Some (n, d)) nodes;
          Some (Err ((λ p, node_symbol p.1) <$> take MAX_SUGGESTIONS (sort_by rank_leb ranked)))
      | multiple => Some (Err (node_symbol <$> multiple))
      end
    end
  end.

(** src/crates/weave-graph-core/src/resolve.rs:104-113 [format_not_found] *)
Definition format_not_found (symbol : string) (suggestions : list string) : string :=
  match suggestions with
  | [] => "symbol not found: " +:+ symbol
  | _ => "symbol not found: " +:+ symbol +:+ " (did you mean: " +:+ join ", " suggestions +:+ "?)"
  end.

(** ** The specification of edit distance

    [edits k a b]: [a] becomes [b] by [k] single-byte insertions, deletions and
    substitutions. *)
Inductive edits : nat → list ascii → list ascii → Prop :=
| edits_nil : edits 0 [] []
| edits_keep k x a b : edits k a b → edits k (x :: a) (x :: b)
| edits_subst k x y a b : edits k a b → edits (S k) (x :: a) (y :: b)
| edits_delete k x a b : edits k a b → edits (S k) (x :: a) b
| edits_insert k y a b : edits k a b → edits (S k) a (y :: b).
#[export] Hint Constructors edits : weave.

(** The textbook recurrence. *)
Fixpoint lev (a b : list ascii) {struct a} : nat :=
  match a with
  | [] => length b
  | x :: a' =>
      (fix go (b : list ascii) : nat :=
         match b with
         | [] => S (length a')
         | y :: b' => if decide (x = y) then lev a' b'
                      else S ((lev a' b' `min` lev a' b) `min` go b')
         end) b
  end.

Lemma lev_nil_r a : lev a [] = length a.
Proof. by destruct a. Qed.

Lemma lev_cons x a y b :
  lev (x :: a) (y :: b) =
  if decide (x = y) then lev a b else S ((lev a b `min` lev a (y :: b)) `min` lev (x :: a) b).
Proof. done. Qed.

(** Neighbouring cells differ by at most one. *)
Lemma lev_lipschitz a b :
  (∀ x, lev a b ≤ S (lev (x :: a) b) ∧ lev (x :: a) b ≤ S (lev a b)) ∧
  (∀ y, lev a b ≤ S (lev a (y :: b)) ∧ lev a (y :: b) ≤ S (lev a b)).
Proof.
  remember (length a + length b) as n eqn:Hn. revert a b Hn.
  induction (lt_wf n) as [n _ IH]. intros a b Hn.
  assert (∀ a' b', length a' + length b' < n →
    (∀ x, lev a' b' ≤ S (lev (x :: a') b') ∧ lev (x :: a') b' ≤ S (lev a' b')) ∧
    (∀ y, lev a' b' ≤ S (lev a' (y :: b')) ∧ lev a' (y :: b') ≤ S (lev a' b'))) as IH'.
  { intros a' b' Hlt. eapply IH; [exact Hlt|done]. }
  clear IH. split.
  - intros x. destruct b as [|z b].
    { rewrite !lev_nil_r. simpl. lia. }
    rewrite lev_cons. destruct (IH' a b) as [H1 H2]; [simpl in Hn; lia|].
    specialize (H1 x). specialize (H2 z). case_decide; lia.
  - intros y. destruct a as [|z a]; [simpl; lia|].
    rewrite lev_cons. destruct (IH' a b) as [H1 H2]; [simpl in Hn; lia|].
    specialize (H1 z). specialize (H2 y). case_decide; lia.
Qed.

Lemma edits_lev a b : edits (lev a b) a b.
Proof.
  revert b; induction a as [|x a IHa]; intros b.
  - simpl. induction b; simpl; auto with weave.
  - induction b as [|y b IHb].
    + rewrite lev_nil_r. simpl. constructor. specialize (IHa []). by rewrite lev_nil_r in IHa.
    + rewrite lev_cons. case_decide; subst; [auto with weave|].
      destruct (Nat.min_dec (lev a b `min` lev a (y :: b)) (lev (x :: a) b)) as [->| ->];
        [destruct (Nat.min_dec (lev a b) (lev a (y :: b))) as [->| ->]|]; auto with weave.
Qed.

Lemma lev_least k a b : edits k a b → lev a b ≤ k.
Proof.
  induction 1 as [|k x a b _ IH|k x y a b _ IH|k x a b _ IH|k y a b _ IH]; [done|..].
  - rewrite lev_cons. by rewrite decide_True.
  - rewrite lev_cons. case_decide; lia.
  - destruct (lev_lipschitz a b) as [Hx _]. specialize (Hx x). lia.
  - destruct (lev_lipschitz a b) as [_ Hy]. specialize (Hy y). lia.
Qed.

Lemma edits_snoc k a b j c d : edits k a b → edits j c d → edits (k + j) (a ++ c) (b ++ d).
Proof. induction 1; simpl; auto with weave. Qed.

Lemma edits_rev k a b : edits k a b → edits k (reverse a) (reverse b).
Proof.
  induction 1 as [|k x a b _ IH|k x y a b _ IH|k x a b _ IH|k y a b _ IH];
    rewrite ?reverse_cons; [constructor|..].
  - rewrite <-(Nat.add_0_r k). apply edits_snoc; auto with weave.
  - rewrite <-Nat.add_1_r. apply edits_snoc; auto with weave.
  - rewrite <-Nat.add_1_r, <-(app_nil_r (reverse b)). apply edits_snoc; auto with weave.
  - rewrite <-Nat.add_1_r, <-(app_nil_r (reverse a)). apply edits_snoc; auto with weave.
Qed.

(** ** The table computes the recurrence *)
Section table.
Context (b : list ascii).

(** Column [j] of the row for the prefix [pa]. *)
Definition lev_at (pa : list ascii) (j : nat) : nat := lev (reverse pa) (reverse (take j b)).

Lemma lev_at_S pa ac j bc :
  b !! j = Some bc →
  lev_at (pa ++ [ac]) (S j) =
  if decide (ac = bc) then lev_at pa j
  else S ((lev_at pa j `min` lev_at pa (S j)) `min` lev_at (pa ++ [ac]) j).
Proof.
  intros Hj. unfold lev_at. rewrite (take_S_r b j bc Hj), !reverse_app.
  change (reverse [ac]) with [ac]. change (reverse [bc]) with [bc].
  cbn [app]. by rewrite lev_cons.
Qed.

Lemma lev_inner pa ac prev curr :
  (∀ j, j ≤ length b → prev !! j = Some (lev_at pa j)) →
  length curr = length b + 1 → curr !! 0 = Some (lev_at (pa ++ [ac]) 0) →
  ∃ curr', foldlM (lev_cell prev ac) (enumerate b) curr = Some curr' ∧
    length curr' = length b + 1 ∧
    ∀ j, j ≤ length b → curr' !! j = Some (lev_at (pa ++ [ac]) j).
Proof.
  intros Hprev Hlen H0. unfold enumerate.
  destruct (foldlM_inv (λ pre (curr : list nat), length curr = length b + 1 ∧
    ∀ j, j ≤ length pre → curr !! j = Some (lev_at (pa ++ [ac]) j))
    (lev_cell prev ac) (imap pair b) curr) as (curr' & -> & Hl & Hc).
  - split; [done|]. intros j Hj. simpl in Hj. by replace j with 0 by lia.
  - intros pre [j bc] post c Hsplit [Hl Hc].
    assert (imap pair b !! length pre = Some (j, bc)) as Hat.
    { rewrite Hsplit. rewrite lookup_app_r, Nat.sub_diag by lia. done. }
    rewrite list_lookup_imap in Hat. apply fmap_Some in Hat as (bc' & Hbc & ?). simplify_eq.
    pose proof (lookup_lt_Some _ _ _ Hbc) as Hlt.
    set (v := lev_at (pa ++ [ac]) (S (length pre))).
    assert (lev_cell prev ac c (length pre, bc') = Some (<[S (length pre):=v]> c)) as ->.
    { unfold lev_cell, v. rewrite (lev_at_S _ _ _ _ Hbc), Nat.add_1_r.
      rewrite !Hprev, Hc by lia. simpl.
      case_decide; simpl; by rewrite vec_set_lt by lia. }
    eexists; split; [done|]. rewrite length_insert. split; [done|].
    intros k Hk. rewrite length_app in Hk. simpl in Hk.
    destruct (decide (k = S (length pre))) as [->|].
    + by rewrite list_lookup_insert_eq by lia.
    + rewrite list_lookup_insert_ne by lia. apply Hc. lia.
  - exists curr'. split_and!; [done..|]. intros j Hj. apply Hc. by rewrite length_imap.
Qed.

Lemma lev_rows a :
  ∃ st, foldlM (lev_row b) (enumerate a) (seq 0 (length b + 1), replicate (length b + 1) 0) = Some st ∧
    ∀ j, j ≤ length b → st.1 !! j = Some (lev_at a j).
Proof.
  unfold enumerate.
  destruct (foldlM_inv (λ pre (st : list nat * list nat),
    length st.1 = length b + 1 ∧ length st.2 = length b + 1 ∧
    ∀ j, j ≤ length b → st.1 !! j = Some (lev_at pre.*2 j))
    (lev_row b) (imap pair a) (seq 0 (length b + 1), replicate (length b + 1) 0))
    as (st & -> & _ & _ & Hst).
  - simpl. rewrite length_seq, length_replicate. split_and!; [done..|]. intros j Hj.
    rewrite lookup_seq_lt by lia. unfold lev_at. simpl. rewrite length_reverse, length_take.
    f_equal. lia.
  - intros pre [i ac] post [prev curr] Hsplit (Hl1 & Hl2 & Hp). simpl in *.
    assert (imap pair a !! length pre = Some (i, ac)) as Hat.
    { rewrite Hsplit. rewrite lookup_app_r, Nat.sub_diag by lia. done. }
    rewrite list_lookup_imap in Hat. apply fmap_Some in Hat as (ac' & _ & ?). simplify_eq.
    unfold lev_row. simpl. rewrite vec_set_lt by lia. simpl.
    destruct (lev_inner pre.*2 ac' prev (<[0:=length pre + 1]> curr)) as (c & -> & Hlc & Hc); [done|..].
    + by rewrite length_insert.
    + rewrite list_lookup_insert_eq by lia. unfold lev_at. rewrite take_0. simpl.
      rewrite lev_nil_r, length_reverse, length_app, length_fmap. done.
    + simpl. eexists; split; [done|]. simpl. split_and!; [done..|]. intros j Hj.
      rewrite fmap_app. auto.
  - exists st. split; [done|]. intros j Hj. rewrite Hst by done. do 2 f_equal.
    clear. change (imap pair a) with (imap (λ i x, (0 + i, x)) a). generalize 0.
    induction a as [|x a IH]; intros k; [done|]. rewrite imap_cons. simpl. f_equal.
    rewrite <-(IH (S k)) at 2. f_equal. apply imap_ext. intros. simpl. f_equal. lia.
Qed.
End table.

Lemma levenshtein_lev a b :
  levenshtein a b = Some (lev (reverse (String.list_ascii_of_string a))
                              (reverse (String.list_ascii_of_string b))).
Proof.
  unfold levenshtein. destruct (lev_rows (String.list_ascii_of_string b)
    (String.list_ascii_of_string a)) as (st & -> & Hst). simpl. rewrite Hst by done.
  unfold lev_at. by rewrite firstn_all.
Qed.

(** ** The contract *)

(** [levenshtein] never panics and computes the edit distance of the two
    byte strings: the result many single-byte edits suffice, and no fewer do. *)
Theorem levenshtein_edit_distance a b :
  ∃ d, levenshtein a b = Some d ∧
    edits d (String.list_ascii_of_string a) (String.list_ascii_of_string b) ∧
    ∀ k, edits k (String.list_ascii_of_string a) (String.list_ascii_of_string b) → d ≤ k.
Proof.
  eexists. split_and!; [apply levenshtein_lev| |].
  - rewrite <-(reverse_involutive (String.list_ascii_of_string a)) at 2.
    rewrite <-(reverse_involutive (String.list_ascii_of_string b)) at 2.
    apply edits_rev, edits_lev.
  - intros k Hk%edits_rev. by apply lev_least.
Qed.

(** The distance the ranking uses. *)
Definition distance (symbol : string) (n : Node) : nat :=
  lev (reverse (String.list_ascii_of_string (to_ascii_lowercase (node_symbol n))))
      (reverse (String.list_ascii_of_string (to_ascii_lowercase symbol))).

Lemma rank_leb_total x y : rank_leb x y = true ∨ rank_leb y x = true.
Proof.
  unfold rank_leb. repeat case_decide; try congruence; [apply String.leb_total|].
  rewrite !Nat.leb_le. lia.
Qed.

Lemma rank_leb_trans x y z : rank_leb x y = true → rank_leb y z = true → rank_leb x z = true.
Proof.
  unfold rank_leb. repeat case_decide; rewrite ?Nat.leb_le; try lia; try congruence.
  apply (ordb_trans (leb := String.leb)).
Qed.

Lemma ranked_spec nodes symbol :
  mapM (λ n, d ← levenshtein (to_ascii_lowercase (node_symbol n)) (to_ascii_lowercase symbol);
             Some (n, d)) nodes = Some ((λ n, (n, distance symbol n)) <$> nodes).
Proof.
  induction nodes as [|n nodes IH]; [done|]. simpl. rewrite levenshtein_lev. simpl.
  by rewrite IH.
Qed.

Lemma find_node_Some (P : Node → Prop) `{!∀ n, Decision (P n)} nodes id :
  (λ p : nat * Node, node_id p.2) <$> list_find P nodes = Some id →
  ∃ n, n ∈ nodes ∧ P n ∧ node_id n = id.
Proof.
  intros ([i n] & Hf & ->)%fmap_Some. apply list_find_Some in Hf as (Hi & HP & _).
  exists n. split_and!; [by eapply list_elem_of_lookup_2|done..].
Qed.

Lemma find_node_None (P : Node → Prop) `{!∀ n, Decision (P n)} nodes :
  (λ p : nat * Node, node_id p.2) <$> list_find P nodes = None → Forall (λ n, ¬ P n) nodes.
Proof. intros Hf%fmap_None. by apply list_find_None in Hf. Qed.

Definition is_short_name (symbol : string) (n : Node) : Prop :=
  node_symbol n = symbol ∨ ∃ p, node_symbol n = p +:+ "::" +:+ symbol.

Lemma elem_of_short_names nodes symbol n :
  n ∈ short_name_matches nodes symbol ↔ n ∈ nodes ∧ is_short_name symbol n.
Proof.
  unfold short_name_matches, is_short_name. rewrite list_elem_of_filter, ends_with_true. tauto.
Qed.

(** [resolve_symbol] always returns.  An id it resolves belongs to a node
    matched by the first tier that has a match (exact, else case-insensitive,
    else the only short-name match); on a miss the suggestions are all the
    short-name candidates when there are several, and otherwise the symbols of
    the (at most five) nodes nearest in edit distance. *)
Theorem resolve_symbol_spec nodes symbol :
  ∃ r, resolve_symbol nodes symbol = Some r ∧
    match r with
    | Ok id => ∃ n, n ∈ nodes ∧ node_id n = id ∧
        (node_symbol n = symbol ∨
         Forall (λ m, node_symbol m ≠ symbol) nodes ∧
           (to_ascii_lowercase (node_symbol n) = to_ascii_lowercase symbol ∨
            ∀ m, m ∈ nodes → is_short_name symbol m → m = n))
    | Err l =>
        Forall (λ m, node_symbol m ≠ symbol ∧
                     to_ascii_lowercase (node_symbol m) ≠ to_ascii_lowercase symbol) nodes ∧
        ((2 ≤ length l ∧ ∀ s, s ∈ l ↔ ∃ n, n ∈ nodes ∧ is_short_name symbol n ∧ node_symbol n = s) ∨
         Forall (λ m, ¬ is_short_name symbol m) nodes ∧
         ∃ near far, near ++ far ≡ₚ nodes ∧ l = node_symbol <$> near ∧
           length near = MAX_SUGGESTIONS `min` length nodes ∧
           ∀ x y, x ∈ near → y ∈ far → distance symbol x ≤ distance symbol y)
    end.
Proof.
  unfold resolve_symbol. destruct (exact_match nodes symbol) as [id|] eqn:He.
  { exists (Ok id). split; [done|]. apply find_node_Some in He as (n & ? & ? & ?). eauto. }
  apply find_node_None in He.
  destruct (case_insensitive_match nodes symbol) as [id|] eqn:Hc.
  { exists (Ok id). split; [done|]. apply find_node_Some in Hc as (n & ? & ? & ?). eauto 10. }
  apply find_node_None in Hc.
  assert (Forall (λ m, node_symbol m ≠ symbol ∧
    to_ascii_lowercase (node_symbol m) ≠ to_ascii_lowercase symbol) nodes) as Hmiss
    by (by apply Forall_and).
  pose proof (elem_of_short_names nodes symbol) as Hsn.
  destruct (short_name_matches nodes symbol) as [|n1 [|n2 ms]].
  - rewrite ranked_spec. cbn [mbind option_bind]. eexists; split; [done|]. split; [done|]. right.
    split; [apply Forall_forall; intros m Hm Hs; set_solver|].
    set (ranked := (λ n, (n, distance symbol n)) <$> nodes).
    assert (sort_by rank_leb ranked ≡ₚ ranked) as Hperm by apply sort_by_perm.
    exists (fst <$> take MAX_SUGGESTIONS (sort_by rank_leb ranked)),
      (fst <$> drop MAX_SUGGESTIONS (sort_by rank_leb ranked)). split_and!.
    + rewrite <-fmap_app, take_drop, Hperm. unfold ranked. rewrite <-list_fmap_compose.
      by rewrite list_fmap_id.
    + by rewrite <-list_fmap_compose.
    + rewrite length_fmap, length_take, length_sort_by. unfold ranked. by rewrite length_fmap.
    + assert (∀ p, p ∈ sort_by rank_leb ranked → p.2 = distance symbol p.1) as Hd.
      { intros p. rewrite Hperm. intros (n & -> & _)%list_elem_of_fmap. done. }
      intros x y (p & -> & Hp)%list_elem_of_fmap (q & -> & Hq)%list_elem_of_fmap.
      pose proof (take_sorted_leb _ _ _ _
        (sort_by_sorted_key rank_leb ranked rank_leb_total rank_leb_trans) Hp Hq) as Hle.
      apply subseteq_take, Hd in Hp. apply subseteq_drop, Hd in Hq.
      unfold rank_leb in Hle. case_decide; [lia|]. apply Nat.leb_le in Hle. lia.
  - exists (Ok (node_id n1)). split; [done|]. exists n1.
    destruct (proj1 (Hsn n1)) as [Hin _]; [set_solver|]. split_and!; [done..|].
    right. split; [done|]. right. intros m Hm Hs. apply list_elem_of_singleton, Hsn. done.
  - eexists; split; [done|]. split; [done|]. left. split; [simpl; lia|].
    intros s. rewrite list_elem_of_fmap. setoid_rewrite Hsn. naive_solver.
Qed.

(** The ambiguous short-name answer is not capped at [MAX_SUGGESTIONS]: for
    every [k >= 2] some graph makes [resolve_symbol] fail with [k] candidates. *)
Theorem ambiguous_suggestions_unbounded k (Hk : 2 ≤ k) :
  ∃ nodes l, resolve_symbol nodes "f" = Some (Err l) ∧ length l = k.
Proof.
  set (n := mkNode 1 "r" "p" "m::f" "fn" 1 1 "").
  exists (replicate k n), (replicate k "m::f").
  assert (∀ (P : Node → Prop) `{!∀ n, Decision (P n)}, ¬ P n → list_find P (replicate k n) = None) as Hf.
  { intros P HP Hn. apply list_find_None, Forall_forall.
    intros x [-> _]%elem_of_replicate. done. }
  unfold resolve_symbol, exact_match, case_insensitive_match.
  rewrite !Hf by done. simpl.
  assert (short_name_matches (replicate k n) "f" = replicate k n) as ->.
  { clear Hk Hf. induction k as [|j IH]; [done|]. unfold short_name_matches in *.
    cbn [replicate]. rewrite filter_cons_True by (right; done). f_equal. exact IH. }
  rewrite length_replicate. split; [|done]. destruct k as [|[|k]]; [lia|lia|].
  cbn [replicate fmap list_fmap]. by rewrite fmap_replicate.
Qed.

Lemma ambiguous_suggestions_unbounded_witness :
  ∃ nodes l, resolve_symbol nodes "f" = Some (Err l) ∧ length l = 6.
Proof. apply (ambiguous_suggestions_unbounded 6). lia. Defined.
