(* ===== verification/Auth.v ===== *)
(** * Credentials and masking (weave-graph-core: auth.rs, rbac.rs)

    The constant-time secret comparison, the identity provider and the
    [RbacGuard] every consumer of node data goes through. *)

From S2P Require Import Prelude Str Model.

(** ** Secrets *)

(** The bytes of a secret, padded with the zeroes of [chain(repeat(0))] up to
    the [take(length)] bound. *)
Definition padded (length : nat) (bytes : list N) : list N :=
  bytes ++ replicate (length - List.length bytes) 0%N.

(** src/crates/weave-graph-core/src/auth.rs:2-15 [constant_time_eq] *)
Definition constant_time_eq (left right : list N) : bool :=
  let length := List.length left `max` List.length right in
  let difference := N.lxor (N.of_nat (List.length left)) (N.of_nat (List.length right)) in
  let difference :=
    foldl (λ difference '(left_byte, right_byte), N.lor difference (N.lxor left_byte right_byte))
      difference (zip (padded length left) (padded length right)) in
  (difference =? 0)%N.

Definition as_bytes (s : string) : list N := byte <$> String.list_ascii_of_string s.

(** src/crates/weave-graph-core/src/auth.rs:18-22 [bearer_token_matches] *)
Definition bearer_token_matches (header : option string) (expected_token : string) : bool :=
  match header ≫= strip_prefix "Bearer " with
  | Some token => constant_time_eq (as_bytes token) (as_bytes expected_token)
  | None => false
  end.

(** ** Identities *)

(** src/crates/weave-graph-core/src/rbac.rs:28-40 [Identity] *)
Record Identity := mkIdentity {
  subject : string;
  roles : list string;
  path_scope : list string;
}.

(** src/crates/weave-graph-core/src/rbac.rs:45-51 [Identity::anonymous] *)
Definition anonymous : Identity := mkIdentity "anonymous" [] [].

(** src/crates/weave-graph-core/src/rbac.rs:56-58 [Identity::is_internal] *)
Definition is_internal (i : Identity) : bool := bool_decide ("internal" ∈ roles i).

(** src/crates/weave-graph-core/src/rbac.rs:65-67 [Identity::can_waive] *)
Definition can_waive (i : Identity) : bool := bool_decide ("allow-drift" ∈ roles i).

(** src/crates/weave-graph-core/src/rbac.rs:84-88 [StaticAuthProvider] *)
Record StaticAuthProvider := mkAuthProvider {
  users : gmap string (list string * list string);
}.

(** src/crates/weave-graph-core/src/rbac.rs:91-98 [StaticAuthProvider::new] *)
Definition auth_provider_new (us : gmap string (list string)) : StaticAuthProvider :=
  mkAuthProvider ((λ roles, (roles, [])) <$> us).

(** src/crates/weave-graph-core/src/rbac.rs:104-106 [StaticAuthProvider::with_path_scopes] *)
Definition with_path_scopes (us : gmap string (list string * list string)) : StaticAuthProvider :=
  mkAuthProvider us.

(** src/crates/weave-graph-core/src/rbac.rs:110-119 [StaticAuthProvider::resolve] *)
Definition resolve_identity (p : StaticAuthProvider) (credential : option string) : Identity :=
  match credential ≫= λ subject, (λ entry, (subject, entry)) <$> users p !! subject with
  | Some (subject, (roles, path_scope)) => mkIdentity subject roles path_scope
  | None => anonymous
  end.

(** src/crates/weave-graph-core/src/rbac.rs:128-130 [in_module] *)
Definition in_module (path prefix : string) : bool :=
  bool_decide (path = prefix) || is_empty prefix || starts_with path (prefix +:+ "/").

(** ** The guard *)

(** src/crates/weave-graph-core/src/rbac.rs:136-136 [HIDDEN_MARKER] *)
Definition HIDDEN_MARKER : string := "<rbac: hidden>".

(** src/crates/weave-graph-core/src/rbac.rs:150-161 [RbacGuard] *)
Record RbacGuard := mkGuard {
  identity : Identity;
  is_public : Node → bool;
}.

(** src/crates/weave-graph-core/src/rbac.rs:169-184 [RbacGuard::visible] *)
Definition visible (g : RbacGuard) (node : Node) : bool :=
  if is_internal (identity g) &&
     (bool_decide (path_scope (identity g) = []) ||
      existsb (in_module (node_path node)) (path_scope (identity g)))
  then true
  else is_public g node.

(** src/crates/weave-graph-core/src/rbac.rs:203-217 [RbacGuard::mask_node] *)
Definition mask_node (g : RbacGuard) (node : Node) : Node :=
  if visible g node then node
  else mkNode (node_id node) (node_repo_id node) HIDDEN_MARKER HIDDEN_MARKER HIDDEN_MARKER 0 0 "".

(** ** Secrets: the comparison decides equality *)

Lemma xor_fold_zero l d :
  foldl (λ d '(a, b), N.lor d (N.lxor a b)) d l = 0%N ↔
  d = 0%N ∧ Forall (λ '(a, b), a = b) l.
Proof.
  revert d; induction l as [|[a b] l IH]; intros d; simpl.
  - split; [by split|tauto].
  - rewrite IH, N.lor_eq_0_iff, N.lxor_eq_0_iff, Forall_cons. tauto.
Qed.

Lemma zip_equal {A} (l k : list A) :
  length l = length k → Forall (λ '(a, b), a = b) (zip l k) ↔ l = k.
Proof.
  revert k; induction l as [|x l IH]; intros [|y k] Hl; simplify_eq/=; [by split|].
  rewrite Forall_cons, IH by lia. split; [intros [-> ->]; done|intros; simplify_eq; done].
Qed.

Lemma constant_time_eq_true l r : constant_time_eq l r = true ↔ l = r.
Proof.
  unfold constant_time_eq. rewrite N.eqb_eq, xor_fold_zero, N.lxor_eq_0_iff, Nat2N.inj_iff.
  split.
  - intros [Hlen HF]. rewrite Hlen, Nat.max_id in HF. unfold padded in HF.
    rewrite Hlen, Nat.sub_diag in HF. simpl in HF. rewrite !app_nil_r in HF.
    by apply zip_equal.
  - intros ->. split; [done|]. by apply zip_equal.
Qed.

Lemma as_bytes_inj s t : as_bytes s = as_bytes t → s = t.
Proof.
  intros H. unfold as_bytes in H. apply list_fmap_eq_inj in H; [|exact byte_inj].
  rewrite <-(String.string_of_list_ascii_of_string s), <-(String.string_of_list_ascii_of_string t).
  by f_equal.
Qed.

Lemma bearer_match header token : bearer_token_matches header token = true ↔ header = Some ("Bearer " +:+ token).
Proof.
  unfold bearer_token_matches. destruct header as [v|]; [|simpl; by split].
  cbn [mbind option_bind]. destruct (strip_prefix "Bearer " v) as [t|] eqn:E.
  - apply strip_prefix_Some in E as ->. rewrite constant_time_eq_true. split.
    + intros ->%as_bytes_inj. done.
    + intros [= ->]. done.
  - split; [done|]. intros [= ->]. by eapply strip_prefix_None in E.
Qed.

(** [constant_time_eq] accepts exactly equal byte strings, and a request
    is authorised by [bearer_token_matches] exactly when its header is
    [Bearer ] followed by the expected token: no prefix, suffix, padding or
    other scheme passes. *)
Theorem bearer_token_matches_exact header token l r :
  (constant_time_eq l r = true ↔ l = r) ∧
  (bearer_token_matches header token = true ↔ header = Some ("Bearer " +:+ token)).
Proof. split; [apply constant_time_eq_true|apply bearer_match]. Qed.

(** ** Masking *)

Definition under (path prefix : string) : Prop :=
  prefix = "" ∨ path = prefix ∨ ∃ rest, path = prefix +:+ "/" +:+ rest.

Lemma in_module_true path prefix : in_module path prefix = true ↔ under path prefix.
Proof.
  unfold in_module, under. rewrite !orb_true_iff, bool_decide_eq_true, starts_with_true.
  setoid_rewrite append_assoc. destruct prefix; simpl; naive_solver.
Qed.

(** The guard shows a node exactly when it is public, or the identity is
    [internal] and unscoped, or [internal] with one of its scopes a
    boundary-safe prefix of the node's path. *)
Theorem visible_iff g n :
  visible g n = true ↔
  is_public g n = true ∨
  ("internal" ∈ roles (identity g) ∧
   (path_scope (identity g) = [] ∨ ∃ p, p ∈ path_scope (identity g) ∧ under (node_path n) p)).
Proof.
  unfold visible, is_internal.
  destruct (bool_decide_reflect ("internal" ∈ roles (identity g))) as [Hi|Hi]; simpl; [|naive_solver].
  destruct (bool_decide_reflect (path_scope (identity g) = [])) as [Hs|Hs]; simpl; [naive_solver|].
  destruct (existsb _ _) eqn:He.
  - apply existsb_exists in He as (p & Hp%list_elem_of_In & Hin%in_module_true). naive_solver.
  - split; [by left|]. intros [?|[_ [?|(p & Hp & Hu)]]]; [done..|].
    apply in_module_true in Hu. rewrite list_elem_of_In in Hp.
    assert (existsb (in_module (node_path n)) (path_scope (identity g)) = true) as Ht
      by (apply existsb_exists; eauto). congruence.
Qed.

(** Masking leaks nothing but identity: two hidden nodes with the same id
    and repository are masked to the same node, whatever their path, symbol,
    kind, lines and signature; ids, hence a node list's length and order,
    survive. *)
Theorem mask_node_no_leak g n m
    (Hn : visible g n = false) (Hm : visible g m = false)
    (Hid : node_id n = node_id m) (Hrepo : node_repo_id n = node_repo_id m) :
  mask_node g n = mask_node g m ∧ ∀ ns : list Node, node_id <$> (mask_node g <$> ns) = node_id <$> ns.
Proof.
  split.
  - unfold mask_node. by rewrite Hn, Hm, Hid, Hrepo.
  - intros ns. rewrite <-list_fmap_compose. apply list_fmap_ext. intros i x _. simpl.
    unfold mask_node. by destruct (visible g x).
Qed.

Lemma mask_node_no_leak_witness :
  let g := mkGuard (mkIdentity "bob" ["internal"] ["src/ui"]) (λ _, false) in
  let n := mkNode 7 "r" "src/core/a.rs" "secret" "fn" 3 9 "fn secret()" in
  let m := mkNode 7 "r" "src/uix/b.rs" "other" "struct" 1 2 "struct Other" in
  mask_node g n = mask_node g m ∧ ∀ ns : list Node, node_id <$> (mask_node g <$> ns) = node_id <$> ns.
Proof. apply mask_node_no_leak; vm_compute; reflexivity. Defined.

(** The glob form that the documentation of [path_scope] gives as its
    example ([crates/weave-graph-hub/**]) grants nothing under that directory:
    a path in such a scope is the literal glob or lies under a directory
    called [**]. *)
Theorem glob_scope_matches_only_literally dir path
    (Hin : in_module path (dir +:+ "/**") = true) :
  path = dir +:+ "/**" ∨ ∃ rest, path = dir +:+ "/**/" +:+ rest.
Proof.
  apply in_module_true in Hin as [He|[->|[rest ->]]].
  - by destruct dir.
  - by left.
  - right. exists rest. by rewrite !append_assoc.
Qed.

Lemma glob_scope_matches_only_literally_witness :
  in_module "crates/weave-graph-hub/src/lib.rs" "crates/weave-graph-hub/**" = false ∧
  ("a/**" = "a/**" ∨ ∃ rest, "a/**" = "a/**/" +:+ rest).
Proof.
  split; [reflexivity|]. apply (glob_scope_matches_only_literally "a" "a/**"). reflexivity.
Defined.
