(* ===== verification/Policy.v ===== *)
(** * Graph policy (weave-graph-core/policy.rs)

    Boundary rules, dependency cycles, orphan files and semantic coupling over
    the file graph. *)

From S2P Require Import Prelude Str Model Paths Auth.

(** ** Definitions *)

(** src/crates/weave-graph-core/src/policy.rs:19-29 [Boundary] *)
Record Boundary := mkBoundary {
  from : string;
  to : string;
  allowed_roles : list string;
  owner_role : option string;
}.

(** src/crates/weave-graph-core/src/policy.rs:43-48 [BoundaryRule] *)
Inductive BoundaryRule :=
| Disallow (b : Boundary)
| Require_ (b : Boundary).

(** src/crates/weave-graph-core/src/policy.rs:51-55 [BoundaryRule::boundary] *)
Definition boundary (r : BoundaryRule) : Boundary :=
  match r with Disallow b | Require_ b => b end.

(** src/crates/weave-graph-core/src/policy.rs:59-69 [Violation] *)
Record Violation := mkViolation {
  v_kind : string;
  v_from : string;
  v_to : string;
  v_examples : list string;
  v_owner_role : option string;
}.

(** src/crates/weave-graph-core/src/policy.rs:160-160 [find_cycles]
    [nodes.iter().map(..).collect()] into a [HashMap]: the last entry wins. *)
Definition file_of (nodes : list Node) : gmap NodeId string :=
  foldl (λ m n, <[node_id n := node_path n]> m) ∅ nodes.

(** src/crates/weave-graph-core/src/policy.rs:107-114 [lint_scoped] *)
Definition exempt (b : Boundary) (current_roles : list string) : bool :=
  negb (bool_decide (allowed_roles b = [])) &&
  existsb (λ role, bool_decide (role ∈ current_roles)) (allowed_roles b).

(** src/crates/weave-graph-core/src/policy.rs:115-124 [lint_scoped] *)
Definition crosses (path_of : gmap NodeId string) (b : Boundary) (e : Edge) : bool :=
  match path_of !! source_id e, path_of !! target_id e with
  | Some src, Some dst => in_module src (from b) && in_module dst (to b)
  | _, _ => false
  end.

(** src/crates/weave-graph-core/src/policy.rs:126-142 [lint_scoped] *)
Definition example_of (nodes : list Node) (e : NodeId * NodeId) : option string :=
  a ← (list_find (λ n, node_id n = e.1) nodes : option (nat * Node));
  b ← (list_find (λ n, node_id n = e.2) nodes : option (nat * Node));
  Some (node_symbol a.2 +:+ " (" +:+ node_path a.2 +:+ ") -> " +:+
        node_symbol b.2 +:+ " (" +:+ node_path b.2 +:+ ")").

(** src/crates/weave-graph-core/src/policy.rs:106-149 [lint_scoped]
    The body of the loop over the rules: the violation the rule pushes, if any. *)
Definition lint_rule (nodes : list Node) (edges : list Edge) (current_roles : list string)
    (rule : BoundaryRule) : option Violation :=
  let path_of := file_of nodes in
  let b := boundary rule in
  if exempt b current_roles then None else
  let crossing := (λ e, (source_id e, target_id e)) <$>
                    filter (λ e, crosses path_of b e = true) edges in
  kind ← match rule, crossing with
         | Disallow _, _ :: _ => Some "disallow"
         | Require_ _, [] => Some "require"
         | _, _ => None
         end;
  Some (mkViolation kind (from b) (to b) (omap (example_of nodes) (take 5 crossing))
          (owner_role b)).

(** src/crates/weave-graph-core/src/policy.rs:151-151 [lint_scoped] *)
Definition violation_leb (a b : Violation) : bool :=
  pair_leb String.leb (pair_leb String.leb String.leb)
    (v_kind a, (v_from a, v_to a)) (v_kind b, (v_from b, v_to b)).

(** src/crates/weave-graph-core/src/policy.rs:96-153 [lint_scoped] *)
Definition lint_scoped (nodes : list Node) (edges : list Edge) (rules : list BoundaryRule)
    (current_roles : list string) : list Violation :=
  sort_by violation_leb (omap (lint_rule nodes edges current_roles) rules).

(** src/crates/weave-graph-core/src/policy.rs:81-83 [lint] *)
Definition lint (nodes : list Node) (edges : list Edge) (rules : list BoundaryRule) :
    list Violation := lint_scoped nodes edges rules [].

(** src/crates/weave-graph-core/src/policy.rs:179-179 [FileGraph] *)
Definition FileGraph : Type := gmap string (gset string).

(** src/crates/weave-graph-core/src/policy.rs:162-168 [find_cycles]
    One edge of the file graph. *)
Definition add_file_edge (files : gmap NodeId string) (adjacency : FileGraph) (e : Edge) : FileGraph :=
  match files !! source_id e, files !! target_id e with
  | Some a, Some b =>
      if decide (a = b) then adjacency
      else <[a := {[b]} ∪ default ∅ (adjacency !! a)]> adjacency
  | _, _ => adjacency
  end.

(** src/crates/weave-graph-core/src/policy.rs:160-168 [find_cycles] *)
Definition file_graph (nodes : list Node) (edges : list Edge) : FileGraph :=
  foldl (add_file_edge (file_of nodes)) ∅ edges.

(** src/crates/weave-graph-core/src/policy.rs:170-172 [find_cycles]
    The search state: colours (1 on the stack, 2 done), stack, cycles found. *)
Record cycle_state := mkCycles {
  color : gmap string N;
  stack : list string;
  found : gset (list string);
}.

(** src/crates/weave-graph-core/src/policy.rs:183-212 [dfs_cycle]
    [None] when the fuel, a bound on the recursion depth, runs out. *)
Fixpoint dfs_cycle (fuel : nat) (adjacency : FileGraph) (file : string) (st : cycle_state) :
    option cycle_state :=
  match fuel with
  | O => None
  | S fuel =>
      match color st !! file with
      | Some 1%N =>
          let start := default 0 (fst <$> list_find (λ f, f = file) (stack st)) in
          Some (mkCycles (color st) (stack st) ({[drop start (stack st) ++ [file]]} ∪ found st))
      | Some 2%N => Some st
      | _ =>
          st ← foldlM (λ st next, dfs_cycle fuel adjacency next st)
                 (btree_iter String.leb (default ∅ (adjacency !! file)))
                 (mkCycles (<[file := 1%N]> (color st)) (stack st ++ [file]) (found st));
          Some (mkCycles (<[file := 2%N]> (color st)) (removelast (stack st)) (found st))
      end
  end.

(** src/crates/weave-graph-core/src/policy.rs:215-220 [rotate_canonical]
    The position of the first minimum. *)
Fixpoint min_pos (l : list string) : option nat :=
  match l with
  | [] => None
  | x :: l =>
      match min_pos l with
      | None => Some 0
      | Some i => match l !! i with
                  | Some y => if String.leb x y then Some 0 else Some (S i)
                  | None => Some 0
                  end
      end
  end.

(** src/crates/weave-graph-core/src/policy.rs:214-224 [rotate_canonical] *)
Definition rotate_canonical (cycle : list string) : list string :=
  match min_pos cycle with
  | Some i => drop i cycle ++ take i cycle
  | None => cycle
  end.

(** The files of the graph, sources and targets: the recursion is at most
    that deep, plus the call that finds a visited file. *)
Definition graph_files (adjacency : FileGraph) : gset string :=
  dom adjacency ∪ ⋃ (map_to_list adjacency).*2.

(** src/crates/weave-graph-core/src/policy.rs:170-176 [find_cycles] *)
Definition search_cycles (adjacency : FileGraph) : option cycle_state :=
  foldlM (λ st start, dfs_cycle (S (size (graph_files adjacency))) adjacency start st)
    (btree_iter String.leb (dom adjacency)) (mkCycles ∅ [] ∅).

(** src/crates/weave-graph-core/src/policy.rs:159-177 [find_cycles] *)
Definition find_cycles (nodes : list Node) (edges : list Edge) : option (list (list string)) :=
  st ← search_cycles (file_graph nodes edges);
  Some (rotate_canonical <$> btree_iter (list_leb String.leb) (found st)).

(** src/crates/weave-graph-core/src/policy.rs:231-238 [orphan_files] *)
Definition target_file (files : gmap NodeId string) (targeted : gset string) (e : Edge) : gset string :=
  match files !! source_id e, files !! target_id e with
  | Some a, Some b => if decide (a = b) then targeted else {[b]} ∪ targeted
  | _, _ => targeted
  end.

(** src/crates/weave-graph-core/src/policy.rs:229-244 [orphan_files] *)
Definition orphan_files (nodes : list Node) (edges : list Edge) : list string :=
  let targeted := foldl (target_file (file_of nodes)) ∅ edges in
  let files : gset string := list_to_set (node_path <$> nodes) in
  btree_iter String.leb (files ∖ targeted).

(** src/crates/weave-graph-core/src/policy.rs:253-262 [SemanticCouplingRule]
    The [f32] threshold is its bit pattern. *)
Record SemanticCouplingRule := mkCoupling {
  within : string;
  threshold : N;
  exempt_globs : list string;
}.

(** src/crates/weave-graph-core/src/policy.rs:265-269 [SemanticCouplingFinding] *)
Record SemanticCouplingFinding := mkFinding {
  file_a : string;
  file_b : string;
  similarity : N;
}.

(** src/crates/weave-graph-core/src/policy.rs:276-281 [glob_matches] *)
Definition glob_matches (pattern path : string) : bool :=
  match strip_suffix "/**" pattern with
  | Some prefix => bool_decide (path = prefix) || starts_with path (prefix +:+ "/")
  | None => bool_decide (pattern = path)
  end.

(** src/crates/weave-graph-core/src/policy.rs:325-329 [semantic_coupling_findings] *)
Definition ordered (a b : string) : string * string := if String.leb a b then (a, b) else (b, a).

(** src/crates/weave-graph-core/src/policy.rs:295-302 [semantic_coupling_findings] *)
Definition declared_pairs (files : gmap NodeId string) (edges : list Edge) : list (string * string) :=
  omap (λ e, a ← files !! source_id e; b ← files !! target_id e; Some (ordered a b)) edges.

(** src/crates/weave-graph-core/src/policy.rs:305-338 [semantic_coupling_findings]
    The body of the loop over the pairs. *)
Definition coupling_of (files : gmap NodeId string) (declared : list (string * string))
    (rule : SemanticCouplingRule) (p : NodeId * NodeId * N) : option SemanticCouplingFinding :=
  let '(a, b, sim) := p in
  if f32_lt sim (threshold rule) then None else
  fa ← files !! a;
  fb ← files !! b;
  if decide (fa = fb) then None else
  if negb (in_module fa (within rule)) || negb (in_module fb (within rule)) then None else
  if existsb (λ g, glob_matches g fa || glob_matches g fb) (exempt_globs rule) then None else
  let key := ordered fa fb in
  if decide (key ∈ declared) then None else
  Some (mkFinding key.1 key.2 sim).

(** src/crates/weave-graph-core/src/policy.rs:289-343 [semantic_coupling_findings] *)
Definition semantic_coupling_findings (nodes : list Node) (edges : list Edge)
    (pairs : list (NodeId * NodeId * N)) (rule : SemanticCouplingRule) :
    list SemanticCouplingFinding :=
  let files := file_of nodes in
  let declared := declared_pairs files edges in
  sort_by (λ x y, pair_leb String.leb String.leb (file_a x, file_b x) (file_a y, file_b y))
    (omap (coupling_of files declared rule) pairs).

(** ** The cycle search *)

Definition adj (G : FileGraph) (a b : string) : Prop := b ∈ default ∅ (G !! a).

(** [c] goes round from its first file back to it, along edges. *)
Definition is_cycle (G : FileGraph) (c : list string) : Prop :=
  ∃ f l, c = f :: l ++ [f] ∧ chain (adj G) f (l ++ [f]).

Section search.
Context (G : FileGraph).

Record cyc_ok (st : cycle_state) : Prop := {
  co_grey f : color st !! f = Some 1%N ↔ f ∈ stack st;
  co_colors f c : color st !! f = Some c → c = 1%N ∨ c = 2%N;
  co_nodup : NoDup (stack st);
  co_chain : match stack st with [] => True | f :: l => chain (adj G) f l end;
  co_sound c : c ∈ found st → is_cycle G c;
  co_topo : found st = ∅ → ∃ F : list string, (∀ x, x ∈ F ↔ color st !! x = Some 2%N) ∧
    ∀ i x y, F !! i = Some x → adj G x y → ∃ j, j < i ∧ F !! j = Some y;
}.

(** What a call does to the state. *)
Record cyc_le (st st' : cycle_state) : Prop := {
  cl_stack : stack st' = stack st;
  cl_dom : dom (color st) ⊆ dom (color st');
  cl_found : found st ⊆ found st';
  cl_black f : color st !! f = Some 2%N → color st' !! f = Some 2%N;
}.

#[local] Instance cyc_le_preorder : PreOrder cyc_le.
Proof.
  split.
  - intros st. split; done.
  - intros a b c [] []. split; [congruence|set_solver..|auto].
Qed.

Definition follows (stk : list string) (file : string) : Prop :=
  match last stk with None => True | Some f => adj G f file end.

(** A back edge to a file on the stack closes a cycle. *)
Lemma back_edge stk file :
  match stk with [] => True | f :: l => chain (adj G) f l end →
  file ∈ stk → follows stk file →
  is_cycle G (drop (default 0 (fst <$> list_find (λ f, f = file) stk)) stk ++ [file]).
Proof.
  intros Hch Hin Hf. destruct (list_find_elem_of (λ f, f = file) stk file Hin eq_refl) as [[i f] Hl].
  rewrite Hl. simpl. apply list_find_Some in Hl as (Hi & -> & _).
  rewrite (drop_S _ _ _ Hi). exists file, (drop (S i) stk). split; [done|].
  apply chain_snoc. rewrite <-(take_drop i stk) in Hch, Hf.
  rewrite (drop_S _ _ _ Hi) in Hch, Hf.
  unfold follows in Hf. rewrite last_app in Hf. rewrite last_cons in Hf.
  split; [|destruct (last (drop (S i) stk)); simpl in *; done].
  clear -Hch. destruct (take i stk) as [|a l]; [done|]. simpl in Hch.
  revert a Hch. induction l as [|b l IH]; intros a [Hab Hch]; simpl in *; eauto.
Qed.

Lemma removelast_snoc {A} (l : list A) x : removelast (l ++ [x]) = l.
Proof. apply removelast_last. Qed.

Lemma cyc_ok_back st file :
  cyc_ok st → follows (stack st) file → color st !! file = Some 1%N →
  cyc_ok (mkCycles (color st) (stack st)
    ({[drop (default 0 (fst <$> list_find (λ f, f = file) (stack st))) (stack st) ++ [file]]}
      ∪ found st)).
Proof.
  intros [Hg Hc Hn Hch Hs Ht] Hf Hgrey. split; simpl; try done.
  - intros c [->%elem_of_singleton|?]%elem_of_union; [|auto].
    apply back_edge; [done|by apply Hg|done].
  - intros He. exfalso. set_solver.
Qed.

Lemma cyc_ok_push st file :
  cyc_ok st → follows (stack st) file → color st !! file = None →
  cyc_ok (mkCycles (<[file:=1%N]> (color st)) (stack st ++ [file]) (found st)).
Proof.
  intros [Hg Hc Hn Hch Hs Ht] Hf Hw. split; simpl.
  - intros f. rewrite elem_of_app, list_elem_of_singleton. destruct (decide (file = f)) as [->|].
    + rewrite lookup_insert_eq. tauto.
    + rewrite lookup_insert_ne, Hg by done. naive_solver.
  - intros f c [[_ <-]|[_ ?]]%lookup_insert_Some; eauto.
  - apply NoDup_app. split_and!; [done| |apply NoDup_singleton].
    intros x Hx ->%list_elem_of_singleton. apply Hg in Hx. congruence.
  - destruct (stack st) as [|f l]; [done|]. simpl. apply chain_snoc. split; [done|].
    unfold follows in Hf. rewrite last_cons in Hf. destruct (last l); done.
  - done.
  - intros He. destruct (Ht He) as (F & HF & Hdec). exists F. split; [|done].
    intros x. rewrite HF. destruct (decide (file = x)) as [->|].
    + rewrite lookup_insert_eq, Hw. naive_solver.
    + by rewrite lookup_insert_ne.
Qed.

Lemma cyc_ok_pop st stk file :
  cyc_ok st → stack st = stk ++ [file] →
  (found st = ∅ → ∀ y, adj G file y → color st !! y = Some 2%N) →
  cyc_ok (mkCycles (<[file:=2%N]> (color st)) (removelast (stack st)) (found st)).
Proof.
  intros [Hg Hc Hn Hch Hs Ht] Hstk Hsucc. rewrite Hstk in *. rewrite removelast_snoc.
  apply NoDup_app in Hn as (Hn & Hdis & _). split; simpl.
  - intros f. destruct (decide (file = f)) as [->|].
    + rewrite lookup_insert_eq. split; [done|]. intros Hf. set_solver.
    + rewrite lookup_insert_ne, Hg by done. set_solver.
  - intros f c [[_ <-]|[_ ?]]%lookup_insert_Some; eauto.
  - done.
  - destruct stk as [|f l]; [done|]. simpl in Hch. by apply chain_snoc in Hch as [? _].
  - done.
  - intros He. destruct (Ht He) as (F & HF & Hdec). exists (F ++ [file]). split.
    + intros x. rewrite elem_of_app, list_elem_of_singleton, HF.
      destruct (decide (file = x)) as [->|]; [rewrite lookup_insert_eq|rewrite lookup_insert_ne by done]; naive_solver.
    + intros i x y [Hi|[Hi ?]]%lookup_app_Some Hxy.
      * destruct (Hdec _ _ _ Hi Hxy) as (j & ? & Hj). exists j. split; [done|].
        apply lookup_app_l_Some. done.
      * apply list_lookup_singleton_Some in H as [? <-].
        specialize (Hsucc He _ Hxy). apply HF, list_elem_of_lookup in Hsucc as [j Hj].
        pose proof (lookup_lt_Some _ _ _ Hj). exists j. split; [lia|].
        by apply lookup_app_l_Some.
Qed.

Lemma adj_files a b : adj G a b → b ∈ graph_files G.
Proof.
  unfold adj, graph_files. destruct (G !! a) as [s|] eqn:Ha; simpl; [|set_solver].
  intros Hb. apply elem_of_union_r, elem_of_union_list. exists s. split; [|done].
  apply list_elem_of_fmap. exists (a, s). split; [done|]. by apply elem_of_map_to_list.
Qed.

Lemma unvisited_decreases (V X : gset string) x :
  x ∈ V → x ∉ X → size (V ∖ ({[x]} ∪ X)) < size (V ∖ X).
Proof. intros. apply subset_size. set_solver. Qed.

(** A call with enough fuel for the files not yet coloured returns, keeps the
    invariant, and leaves [file] done unless a cycle was found. *)
Lemma dfs_cycle_spec fuel file st :
  cyc_ok st → follows (stack st) file → file ∈ graph_files G →
  size (graph_files G ∖ dom (color st)) < fuel →
  ∃ st', dfs_cycle fuel G file st = Some st' ∧ cyc_ok st' ∧ cyc_le st st' ∧
    (found st' = ∅ → color st' !! file = Some 2%N).
Proof.
  revert file st; induction fuel as [|fuel IH]; intros file st Hok Hf HV Hfuel; [lia|].
  cbn [dfs_cycle]. destruct (color st !! file) as [c|] eqn:Hc.
  { destruct (co_colors _ Hok _ _ Hc) as [->| ->].
    - eexists; split; [done|]. split; [by apply cyc_ok_back|]. split.
      + split; simpl; set_solver.
      + simpl. intros He. exfalso. set_solver.
    - eexists; split; [done|]. split_and!; [done|reflexivity|done]. }
  set (st0 := mkCycles (<[file:=1%N]> (color st)) (stack st ++ [file]) (found st)).
  pose proof (cyc_ok_push st file Hok Hf Hc) as Hok0. fold st0 in Hok0.
  set (succ := btree_iter String.leb (default ∅ (G !! file))).
  assert (∀ y, y ∈ succ ↔ adj G file y) as Hsucc by (intros y; apply elem_of_btree_iter).
  assert (size (graph_files G ∖ dom (color st0)) < fuel) as Hfuel0.
  { simpl. rewrite dom_insert_L.
    pose proof (unvisited_decreases (graph_files G) (dom (color st)) file HV) as Hd.
    apply not_elem_of_dom in Hc. specialize (Hd Hc). lia. }
  destruct (foldlM_inv (λ pre st1, cyc_ok st1 ∧ cyc_le st0 st1 ∧
    (found st1 = ∅ → ∀ y, y ∈ pre → color st1 !! y = Some 2%N))
    (λ st next, dfs_cycle fuel G next st) succ st0) as (st1 & Hfold & Hok1 & Hle1 & Hdone).
  - split_and!; [done|reflexivity|set_solver].
  - intros pre y post st1 Hsplit (Hok1 & Hle1 & Hdone).
    assert (adj G file y) as Hy by (apply Hsucc; rewrite Hsplit; set_solver).
    destruct (IH y st1) as (st2 & Hst2 & Hok2 & Hle2 & Hblack); [done|..].
    + unfold follows. rewrite (cl_stack _ _ Hle1). simpl. by rewrite last_snoc.
    + by eapply adj_files.
    + eapply Nat.le_lt_trans; [|exact Hfuel0]. apply subseteq_size.
      pose proof (cl_dom _ _ Hle1). set_solver.
    + exists st2. split; [done|]. split_and!; [done|by etrans|].
      intros He z [Hz| ->%list_elem_of_singleton]%elem_of_app; [|auto].
      apply (cl_black _ _ Hle2), Hdone; [|done]. pose proof (cl_found _ _ Hle2). set_solver.
  - rewrite Hfold. cbn [mbind option_bind]. eexists; split; [done|]. split_and!.
    + apply (cyc_ok_pop st1 (stack st)); [done|apply (cl_stack _ _ Hle1)|].
      intros He y Hy. apply Hdone; [done|]. by apply Hsucc.
    + pose proof (cl_dom _ _ Hle1) as Hd. simpl in Hd. rewrite dom_insert_L in Hd.
      split; simpl.
      * rewrite (cl_stack _ _ Hle1). apply removelast_snoc.
      * rewrite dom_insert_L. set_solver.
      * apply (cl_found _ _ Hle1).
      * intros f Hb. destruct (decide (file = f)) as [->|]; [by rewrite lookup_insert_eq|].
        rewrite lookup_insert_ne by done. apply (cl_black _ _ Hle1). simpl.
        by rewrite lookup_insert_ne.
    + simpl. intros _. by rewrite lookup_insert_eq.
Qed.

Lemma search_cycles_spec :
  ∃ st, search_cycles G = Some st ∧ cyc_ok st ∧
    (found st = ∅ → ∀ x, x ∈ dom G → color st !! x = Some 2%N).
Proof.
  unfold search_cycles.
  destruct (foldlM_inv (λ pre st, cyc_ok st ∧ stack st = [] ∧
    (found st = ∅ → ∀ x, x ∈ pre → color st !! x = Some 2%N))
    (λ st start, dfs_cycle (S (size (graph_files G))) G start st)
    (btree_iter String.leb (dom G)) (mkCycles ∅ [] ∅)) as (st & -> & Hok & _ & Hdone).
  - split_and!; [|done|set_solver]. split; simpl; try done.
    + intros f. rewrite lookup_empty. set_solver.
    + constructor.
    + intros _. exists []. split; [intros x; rewrite lookup_empty; set_solver|done].
  - intros pre x post st Hsplit (Hok & Hstk & Hdone).
    assert (x ∈ dom G) as Hx.
    { rewrite <-(elem_of_btree_iter String.leb x (dom G)), Hsplit. set_solver. }
    destruct (dfs_cycle_spec (S (size (graph_files G))) x st) as (st' & -> & Hok' & Hle & Hb).
    + done.
    + unfold follows. by rewrite Hstk.
    + unfold graph_files. set_solver.
    + apply Nat.lt_succ_r, subseteq_size. set_solver.
    + exists st'. split; [done|]. split_and!; [done|by rewrite (cl_stack _ _ Hle)|].
      intros He z [Hz| ->%list_elem_of_singleton]%elem_of_app; [|auto].
      apply (cl_black _ _ Hle), Hdone; [|done]. pose proof (cl_found _ _ Hle). set_solver.
  - exists st. split_and!; [done..|]. intros He x Hx. apply Hdone; [done|].
    by rewrite elem_of_btree_iter.
Qed.

(** A topological order of the done files excludes cycles. *)
Lemma topo_acyclic (F : list string) x :
  (∀ i x y, F !! i = Some x → adj G x y → ∃ j, j < i ∧ F !! j = Some y) →
  x ∈ F → ¬ tc (adj G) x x.
Proof.
  intros Hdec [i Hi]%list_elem_of_lookup.
  assert (∀ x y, tc (adj G) x y → ∀ i, F !! i = Some x → ∃ j, j < i ∧ F !! j = Some y) as Htc.
  { induction 1 as [a b Hab|a b c Hab _ IH]; intros k Hk; [eauto|].
    destruct (Hdec _ _ _ Hk Hab) as (j & ? & Hj). destruct (IH _ Hj) as (j' & ? & ?).
    exists j'. split; [lia|done]. }
  revert x Hi. induction (lt_wf i) as [i _ IH]. intros x Hi Hx.
  destruct (Htc _ _ Hx _ Hi) as (j & Hji & Hj). by eapply IH.
Qed.

Lemma cycle_tc f l : chain (adj G) f (l ++ [f]) → tc (adj G) f f.
Proof.
  assert (∀ l a b, chain (adj G) a (l ++ [b]) → tc (adj G) a b) as Hc.
  { clear. induction l as [|c l IH]; intros a b; simpl.
    - intros [? _]. by apply tc_once.
    - intros [Hac Hl]. eapply tc_l; eauto. }
  apply Hc.
Qed.

Lemma adj_dom x y : adj G x y → x ∈ (dom G : gset string).
Proof.
  unfold adj. intros Hy. destruct (G !! x) as [s|] eqn:E; [|set_solver].
  apply (elem_of_dom_2 (D := gset string) G x s E).
Qed.
End search.

(** ** The contract *)

(** C10: the cycle search terminates (its depth never exceeds the number of
    files), every path it records is a real dependency cycle (before
    [rotate_canonical]), and it records none exactly when the file graph is
    acyclic. *)
Theorem search_cycles_correct nodes edges :
  ∃ st, search_cycles (file_graph nodes edges) = Some st ∧
    (∀ c, c ∈ found st → is_cycle (file_graph nodes edges) c) ∧
    (found st = ∅ ↔ ∀ f, ¬ tc (adj (file_graph nodes edges)) f f).
Proof.
  set (G := file_graph nodes edges).
  destruct (search_cycles_spec G) as (st & Hst & Hok & Hdone).
  exists st. split_and!; [done|apply Hok|]. split.
  - intros He f Hf. destruct (co_topo _ _ Hok He) as (F & HF & Hdec).
    assert (∃ y, adj G f y) as [y Hy] by (inversion Hf; eauto).
    apply (topo_acyclic G F f Hdec); [|done]. apply HF, Hdone; [done|]. by eapply adj_dom.
  - intros Hac. destruct (decide (found st = ∅)) as [|Hne]; [done|].
    apply set_choose_L in Hne as [c Hc].
    destruct (co_sound _ _ Hok _ Hc) as (f & l & _ & Hch). exfalso.
    eapply Hac, cycle_tc, Hch.
Qed.

(** [find_cycles] reports something that is not a cycle of the graph: on
    the files a -> c, c -> b, b -> c, the recorded ring [c; b; c] carries its
    closing file, so rotating it to its smallest file gives [b; c; c], although
    no file depends on itself. *)
Theorem find_cycles_rotation_breaks_ring :
  let n i p := mkNode i "r" p "s" "fn" 1 1 "" in
  let e i a b := mkEdge i a b "CALLS" 0 None None in
  let nodes := [n 1 "a"; n 2 "b"; n 3 "c"]%N in
  let edges := [e 1 1 3; e 2 3 2; e 3 2 3]%N in
  find_cycles nodes edges = Some [["b"; "c"; "c"]] ∧
  ¬ is_cycle (file_graph nodes edges) ["b"; "c"; "c"].
Proof.
  intros n e nodes edges. split; [vm_compute; reflexivity|].
  intros (f & l & Heq & Hch). destruct l as [|a [|b [|? ?]]]; simplify_eq/=.
Qed.

(** An edge crosses a boundary when its endpoints' files lie under its sides. *)
Definition crossing (nodes : list Node) (b : Boundary) (e : Edge) : Prop :=
  ∃ src dst, file_of nodes !! source_id e = Some src ∧ file_of nodes !! target_id e = Some dst ∧
    under src (from b) ∧ under dst (to b).

Lemma crosses_true nodes b e : crosses (file_of nodes) b e = true ↔ crossing nodes b e.
Proof.
  unfold crosses, crossing. destruct (_ !! source_id e), (_ !! target_id e); try naive_solver.
  rewrite andb_true_iff, !in_module_true. naive_solver.
Qed.

Lemma exempt_false b roles :
  exempt b roles = false ↔ ∀ r, r ∈ allowed_roles b → r ∉ roles.
Proof.
  unfold exempt. split.
  - intros He r Hr Hin. apply not_true_iff_false in He. apply He, andb_true_iff. split.
    + apply negb_true_iff, bool_decide_eq_false. intros Hnil. rewrite Hnil in Hr.
      by apply not_elem_of_nil in Hr.
    + apply existsb_exists. exists r. rewrite <-list_elem_of_In, bool_decide_eq_true. done.
  - intros Hno. apply not_true_iff_false. rewrite andb_true_iff. intros [_ Hex].
    apply existsb_exists in Hex as (r & Hr%list_elem_of_In & Hin%bool_decide_eq_true). set_solver.
Qed.

Lemma crossing_edges_nil nodes b edges :
  (λ e : Edge, (source_id e, target_id e)) <$> filter (λ e, crosses (file_of nodes) b e = true) edges = [] ↔
  ¬ ∃ e, e ∈ edges ∧ crossing nodes b e.
Proof.
  split.
  - intros Hn%fmap_nil_inv (e & He & Hc). apply crosses_true in Hc.
    assert (e ∈ filter (λ e, crosses (file_of nodes) b e = true) edges) as Hin
      by by apply list_elem_of_filter. rewrite Hn in Hin. set_solver.
  - intros Hn. destruct (filter _ edges) as [|e l] eqn:E; [done|]. exfalso. apply Hn.
    assert (e ∈ e :: l) as He by set_solver. rewrite <-E in He.
    apply list_elem_of_filter in He as [Hc ?]. exists e. by rewrite <-crosses_true.
Qed.

Lemma lint_rule_Some nodes edges roles rule v :
  lint_rule nodes edges roles rule = Some v →
  v_from v = from (boundary rule) ∧ v_to v = to (boundary rule) ∧
  v_owner_role v = owner_role (boundary rule) ∧ length (v_examples v) ≤ 5 ∧
  (∀ r, r ∈ allowed_roles (boundary rule) → r ∉ roles) ∧
  match rule with
  | Disallow b => v_kind v = "disallow" ∧ ∃ e, e ∈ edges ∧ crossing nodes b e
  | Require_ b => v_kind v = "require" ∧ ¬ ∃ e, e ∈ edges ∧ crossing nodes b e
  end.
Proof.
  unfold lint_rule. destruct (exempt _ _) eqn:He; [done|]. pose proof (proj1 (exempt_false _ _) He) as He'.
  pose proof (crossing_edges_nil nodes (boundary rule) edges) as Hnil.
  destruct (_ <$> filter _ edges) as [|x l] eqn:Hx; destruct rule as [b|b]; simpl in *; try done.
  - intros; simplify_eq/=. split_and!; [done..|simpl; lia|done|done|]. tauto.
  - intros; simplify_eq/=. split_and!; try done.
    + etrans; [apply (length_omap_le (example_of nodes) (x :: take 4 l))|].
      simpl. rewrite length_take. lia.
    + destruct (decide (Exists (λ e, crosses (file_of nodes) b e = true) edges)) as [Hex|Hex].
      * apply Exists_exists in Hex as (e & ? & Hc%crosses_true). eauto.
      * exfalso. enough (x :: l = []) by done. apply Hnil. intros (e & ? & Hc%crosses_true).
        apply Hex, Exists_exists. eauto.
Qed.

Lemma lint_rule_fires nodes edges roles rule :
  (∀ r, r ∈ allowed_roles (boundary rule) → r ∉ roles) →
  match rule with
  | Disallow b => ∃ e, e ∈ edges ∧ crossing nodes b e
  | Require_ b => ¬ ∃ e, e ∈ edges ∧ crossing nodes b e
  end → ∃ v, lint_rule nodes edges roles rule = Some v.
Proof.
  intros He Hr. unfold lint_rule. rewrite (proj2 (exempt_false _ _) He).
  pose proof (crossing_edges_nil nodes (boundary rule) edges) as Hnil.
  destruct rule as [b|b]; simpl in *; destruct (_ <$> filter _ edges) as [|x l]; simpl; try eauto.
  - exfalso. by apply Hnil.
  - exfalso. apply Hnil in Hr. done.
Qed.

(** [lint_scoped] reports exactly the broken rules that none of the
    caller's roles exempts: a [disallow] for every boundary some edge crosses,
    a [require] for every boundary no edge crosses, sorted by kind and sides,
    each with at most five examples. *)
Theorem lint_scoped_exact nodes edges rules roles :
  (∀ f t, (∃ v, v ∈ lint_scoped nodes edges rules roles ∧ v_kind v = "disallow" ∧
                v_from v = f ∧ v_to v = t) ↔
     ∃ b, Disallow b ∈ rules ∧ from b = f ∧ to b = t ∧
          (∀ r, r ∈ allowed_roles b → r ∉ roles) ∧ ∃ e, e ∈ edges ∧ crossing nodes b e) ∧
  (∀ f t, (∃ v, v ∈ lint_scoped nodes edges rules roles ∧ v_kind v = "require" ∧
                v_from v = f ∧ v_to v = t) ↔
     ∃ b, Require_ b ∈ rules ∧ from b = f ∧ to b = t ∧
          (∀ r, r ∈ allowed_roles b → r ∉ roles) ∧ ¬ ∃ e, e ∈ edges ∧ crossing nodes b e) ∧
  StronglySorted (λ v w, violation_leb v w = true) (lint_scoped nodes edges rules roles) ∧
  Forall (λ v, length (v_examples v) ≤ 5) (lint_scoped nodes edges rules roles).
Proof.
  unfold lint_scoped. setoid_rewrite elem_of_sort_by. setoid_rewrite list_elem_of_omap. split_and!.
  - intros f t. split.
    + intros (v & (rule & Hin & Hv) & Hk & <- & <-).
      apply lint_rule_Some in Hv as (-> & -> & _ & _ & Hro & Hm).
      destruct rule as [b|b]; destruct Hm as [? ?]; [|congruence]. exists b. done.
    + intros (b & Hin & <- & <- & Hro & He).
      destruct (lint_rule_fires nodes edges roles (Disallow b) Hro He) as [v Hv].
      pose proof (lint_rule_Some _ _ _ _ _ Hv) as (? & ? & _ & _ & _ & ? & _).
      exists v. split; [eauto|done].
  - intros f t. split.
    + intros (v & (rule & Hin & Hv) & Hk & <- & <-).
      apply lint_rule_Some in Hv as (-> & -> & _ & _ & Hro & Hm).
      destruct rule as [b|b]; destruct Hm as [? ?]; [congruence|]. exists b. done.
    + intros (b & Hin & <- & <- & Hro & He).
      destruct (lint_rule_fires nodes edges roles (Require_ b) Hro He) as [v Hv].
      pose proof (lint_rule_Some _ _ _ _ _ Hv) as (? & ? & _ & _ & _ & ? & _).
      exists v. split; [eauto|done].
  - apply sort_by_sorted_key; unfold violation_leb; intros *;
      [apply ordb_total|apply ordb_trans].
  - apply Forall_forall. intros v Hv. apply elem_of_sort_by, list_elem_of_omap in Hv as (r & _ & Hv).
    by apply lint_rule_Some in Hv as (_ & _ & _ & ? & _).
Qed.

(** ** Orphans *)

Lemma elem_of_targeted files edges (acc : gset string) f :
  f ∈ foldl (target_file files) acc edges ↔
  f ∈ acc ∨ ∃ e a, e ∈ edges ∧ files !! source_id e = Some a ∧ files !! target_id e = Some f ∧ a ≠ f.
Proof.
  revert acc; induction edges as [|e edges IH]; intros acc; simpl; [set_solver|].
  rewrite IH. setoid_rewrite elem_of_cons. unfold target_file.
  destruct (files !! source_id e) as [a|] eqn:Ha, (files !! target_id e) as [b|] eqn:Hb;
    [case_decide|..]; try rewrite elem_of_union, elem_of_singleton; split.
  all: try (intros [?|(e' & a' & ? & ?)]; [naive_solver|right; exists e', a'; naive_solver]).
  all: intros [?|(e' & a' & [->|?] & Ha' & Hb' & ?)]; simplify_eq; try naive_solver.
Qed.

(** [orphan_files] lists, in order, exactly the files of the graph on which
    no other file has an edge. *)
Theorem orphan_files_exact nodes edges f :
  f ∈ orphan_files nodes edges ↔
  f ∈ node_path <$> nodes ∧
  ¬ ∃ e a, e ∈ edges ∧ file_of nodes !! source_id e = Some a ∧
           file_of nodes !! target_id e = Some f ∧ a ≠ f.
Proof.
  unfold orphan_files. rewrite elem_of_btree_iter, elem_of_difference, elem_of_list_to_set.
  rewrite elem_of_targeted. set_solver.
Qed.

(** ** Semantic coupling *)

Lemma ordered_eq a b c d :
  ordered a b = ordered c d ↔ (a = c ∧ b = d) ∨ (a = d ∧ b = c).
Proof.
  unfold ordered. split.
  - destruct (String.leb a b), (String.leb c d); intros; simplify_eq; auto.
  - intros [[-> ->]|[-> ->]]; [done|].
    destruct (String.leb d c) eqn:E1, (String.leb c d) eqn:E2; try done.
    + by rewrite (String.leb_antisym d c E1 E2).
    + destruct (String.leb_total c d); congruence.
Qed.

Lemma elem_of_declared files edges k :
  k ∈ declared_pairs files edges ↔
  ∃ e a b, e ∈ edges ∧ files !! source_id e = Some a ∧ files !! target_id e = Some b ∧ k = ordered a b.
Proof.
  unfold declared_pairs. rewrite list_elem_of_omap. split.
  - intros (e & He & Hk). destruct (files !! source_id e) as [a|] eqn:Ha; [|done].
    destruct (files !! target_id e) as [b|] eqn:Hb; [|done]. simplify_eq/=. eauto 8.
  - intros (e & a & b & He & Ha & Hb & ->). exists e. by rewrite Ha, Hb.
Qed.

(** A semantic-coupling finding is raised exactly for the pairs that clear
    the threshold, join two different files under [within], neither of them
    exempt, between which no edge runs in either direction; the files of a
    finding are reported in order. *)
Theorem semantic_coupling_exact nodes edges pairs rule x :
  x ∈ semantic_coupling_findings nodes edges pairs rule ↔
  ∃ a b fa fb, (a, b, similarity x) ∈ pairs ∧
    file_of nodes !! a = Some fa ∧ file_of nodes !! b = Some fb ∧
    (file_a x, file_b x) = ordered fa fb ∧ fa ≠ fb ∧
    f32_lt (similarity x) (threshold rule) = false ∧
    under fa (within rule) ∧ under fb (within rule) ∧
    (∀ g, g ∈ exempt_globs rule → glob_matches g fa = false ∧ glob_matches g fb = false) ∧
    ¬ ∃ e, e ∈ edges ∧
      ((file_of nodes !! source_id e = Some fa ∧ file_of nodes !! target_id e = Some fb) ∨
       (file_of nodes !! source_id e = Some fb ∧ file_of nodes !! target_id e = Some fa)).
Proof.
  unfold semantic_coupling_findings. rewrite elem_of_sort_by, list_elem_of_omap.
  set (files := file_of nodes). split.
  - intros ([[a b] sim] & Hin & Hx). unfold coupling_of in Hx.
    destruct (f32_lt sim _) eqn:Hlt; [done|].
    destruct (files !! a) as [fa|] eqn:Ha; [|done]. destruct (files !! b) as [fb|] eqn:Hb; [|done].
    simpl in Hx. case_decide as Hne; [done|].
    destruct (_ || _) eqn:Hmod in Hx; [done|]. apply orb_false_iff in Hmod as [H1 H2].
    apply negb_false_iff, in_module_true in H1, H2.
    destruct (existsb _ _) eqn:Hg; [done|]. case_decide as Hd; [done|]. simplify_eq/=.
    exists a, b, fa, fb. split_and!; try done; [by destruct (ordered fa fb)|..].
    + intros g Hgin. rewrite <-orb_false_iff. apply not_true_iff_false. intros Ht.
      apply not_true_iff_false in Hg. apply Hg, existsb_exists. exists g.
      rewrite <-list_elem_of_In. done.
    + intros (e & He & Hends). apply Hd, elem_of_declared.
      destruct Hends as [[? ?]|[? ?]]; do 3 eexists; (split_and!; [done..|]); apply ordered_eq; auto.
  - intros (a & b & fa & fb & Hin & Ha & Hb & Hk & Hne & Hlt & H1 & H2 & Hg & Hno).
    exists (a, b, similarity x). split; [done|]. unfold coupling_of. rewrite Hlt, Ha, Hb. simpl.
    rewrite decide_False by done.
    apply in_module_true in H1, H2. rewrite H1, H2. simpl.
    destruct (existsb _ _) eqn:Hex.
    { apply existsb_exists in Hex as (g & Hgin%list_elem_of_In & Ht). destruct (Hg _ Hgin) as [E1 E2].
      rewrite E1, E2 in Ht. done. }
    rewrite decide_False.
    + rewrite <-Hk. by destruct x.
    + rewrite elem_of_declared. intros (e & a' & b' & He & Ha' & Hb' & Heq). apply Hno.
      exists e. split; [done|]. apply ordered_eq in Heq as [[-> ->]|[-> ->]]; auto.
Qed.
