(* ===== verification/Spool.v ===== *)
(** * The registry's files (weave-graph-hub/registry.rs)

    The directory model, the path-component filter, the spool file names and
    the list of leftover jobs.  A directory is a finite map from file names to
    contents and modification times; the order in which [fs::read_dir] lists
    it is unspecified and therefore a parameter. *)

From S2P Require Import Prelude Str.

(** ** Directories *)

Record file := mkFile { content : string; mtime : N }.

#[global] Instance file_eq_dec : EqDecision file.
Proof. solve_decision. Defined.

Abbreviation dir := (gmap string file) (only parsing).

(** [fs::read_dir(..).flatten()]: some listing of the directory. *)
Class ReadDir := read_dir : dir → list (string * file).
Class ReadDirLaws `{ReadDir} : Prop := read_dir_perm (d : dir) : read_dir d ≡ₚ map_to_list d.

#[global] Instance map_read_dir : ReadDir := map_to_list.
#[global] Instance map_read_dir_laws : ReadDirLaws.
Proof. intros d. reflexivity. Qed.

(** [fs::rename]: replaces the destination; fails when the source is missing. *)
Definition rename (d : dir) (src dst : string) : option dir :=
  f ← d !! src; Some (<[dst := f]> (delete src d)).

(** [fs::write] to a temporary name, then [fs::rename] over the destination. *)
Definition write_atomic (now : N) (d : dir) (tmp dst contents : string) : option dir :=
  rename (<[tmp := mkFile contents now]> d) tmp dst.

(** ** Path components *)

(** src/crates/weave-graph-hub/src/registry.rs:39-40 [is_safe_path_component] *)
Definition is_safe_byte (b : ascii) : bool :=
  is_alnum b || bool_decide (b = "-"%char) || bool_decide (b = "_"%char) || bool_decide (b = "."%char).

(** src/crates/weave-graph-hub/src/registry.rs:34-41 [is_safe_path_component] *)
Definition is_safe_path_component (s : string) : bool :=
  negb (is_empty s) && (Nat.leb (String.length s) 128) &&
  negb (bool_decide (s = ".")) && negb (bool_decide (s = "..")) && str_all is_safe_byte s.

(** ** Spool jobs *)

(** src/crates/weave-graph-hub/src/registry.rs:720-725 [SpoolJob]
    The path is its name in the spool directory. *)
Record SpoolJob := mkJob {
  job_seq : N;
  job_sha : string;
  job_retention : N;
  job_path : string;
}.

(** [format!("{seq:020}")]. *)
Fixpoint zeros (n : nat) : string := match n with O => "" | S n => String "0" (zeros n) end.
Definition pad20 (n : N) : string := zeros (20 - String.length (dec n)) +:+ dec n.

(** src/crates/weave-graph-hub/src/registry.rs:731-731 [parse_job_filename]
    The stem [{seq:020}_{sha}_{retention}]. *)
Definition job_stem (seq : N) (sha : string) (retention : N) : string :=
  pad20 seq +:+ "_" +:+ sha +:+ "_" +:+ dec retention.

(** src/crates/weave-graph-hub/src/registry.rs:727-729 [job_filename] *)
Definition job_filename (seq : N) (sha : string) (retention : N) : string :=
  job_stem seq sha retention +:+ ".tar.zst".

(** src/crates/weave-graph-hub/src/registry.rs:567-567 [Registry::finish_upload] *)
Definition sig_filename (seq : N) (sha : string) (retention : N) : string :=
  job_stem seq sha retention +:+ ".sig".

Definition u64_MAX : N := 18446744073709551615.

(** src/crates/weave-graph-hub/src/registry.rs:734-742 [parse_job_filename] *)
Definition parse_job_filename (stem : string) : option (N * string * N) :=
  '(seq_str, rest) ← split_once stem "_";
  '(sha, retention_str) ← rsplit_once rest "_";
  seq ← parse_uint u64_MAX seq_str;
  retention ← parse_uint u64_MAX retention_str;
  Some (seq, sha, retention).

(** src/crates/weave-graph-hub/src/registry.rs:749-763 [leftover_jobs] *)
Definition job_of_entry (name : string) : option SpoolJob :=
  stem ← strip_suffix ".tar.zst" name;
  '(seq, sha, retention) ← parse_job_filename stem;
  Some (mkJob seq sha retention name).

(** src/crates/weave-graph-hub/src/registry.rs:744-767 [leftover_jobs] *)
Definition leftover_jobs `{ReadDir} (spool : dir) : list SpoolJob :=
  sort_by (λ a b, (job_seq a <=? job_seq b)%N) (omap (λ e, job_of_entry e.1) (read_dir spool)).

#[global] Arguments job_of_entry : simpl never.
#[global] Arguments leftover_jobs : simpl never.

(** ** Names *)

Lemma split_once_char l c r :
  str_all (λ a, negb (bool_decide (a = c))) l = true →
  split_once (l +:+ String c "" +:+ r) (String c "") = Some (l, r).
Proof.
  induction l as [|a l IH]; intros Hl.
  - simpl. destruct (decide (c = c)); done.
  - cbn [str_all] in Hl. apply andb_true_iff in Hl as [Ha Hl].
    apply negb_true_iff, bool_decide_eq_false in Ha. simpl.
    rewrite decide_False by congruence. simpl in IH. by rewrite IH.
Qed.

Lemma rsplit_once_none c r :
  str_all (λ a, negb (bool_decide (a = c))) r = true → rsplit_once r (String c "") = None.
Proof.
  induction r as [|a r IH]; intros Hr; [done|].
  cbn [str_all] in Hr. apply andb_true_iff in Hr as [Ha Hr].
  apply negb_true_iff, bool_decide_eq_false in Ha. simpl. rewrite IH by done.
  by rewrite decide_False by congruence.
Qed.

Lemma rsplit_once_char l c r :
  str_all (λ a, negb (bool_decide (a = c))) r = true →
  rsplit_once (l +:+ String c "" +:+ r) (String c "") = Some (l, r).
Proof.
  intros Hr. induction l as [|a l IH].
  - simpl. rewrite rsplit_once_none by done. by destruct (decide (c = c)).
  - simpl in *. by rewrite IH.
Qed.

Lemma digits_no_underscore s :
  str_all is_digit s = true → str_all (λ a, negb (bool_decide (a = "_"%char))) s = true.
Proof.
  rewrite !str_all_forall. intros HF. eapply Forall_impl; [exact HF|]. intros a Ha. simpl in *.
  apply negb_true_iff, bool_decide_eq_false. intros ->. done.
Qed.

Lemma zeros_digits n : str_all is_digit (zeros n) = true.
Proof. by induction n. Qed.

Lemma parse_digits_zeros n s : parse_digits (zeros n +:+ s) 0 = parse_digits s 0.
Proof. by induction n. Qed.

Lemma parse_uint_pad20 n :
  parse_uint u64_MAX (pad20 n) = if (n <=? u64_MAX)%N then Some n else None.
Proof.
  unfold pad20. destruct (20 - String.length (dec n)) as [|k] eqn:E.
  - by apply parse_uint_dec_opt.
  - unfold parse_uint. cbn [zeros String.append strip_prefix]. rewrite decide_False by done.
    cbn [is_empty]. change (parse_digits (String "0" (zeros k +:+ dec n)) 0)
      with (parse_digits (zeros (S k) +:+ dec n) 0).
    by rewrite parse_digits_zeros, parse_digits_dec.
Qed.

Lemma parse_job_stem seq sha retention :
  parse_job_filename (job_stem seq sha retention) =
  if (seq <=? u64_MAX)%N && (retention <=? u64_MAX)%N then Some (seq, sha, retention) else None.
Proof.
  unfold parse_job_filename, job_stem. rewrite split_once_char.
  - cbn [mbind option_bind]. rewrite rsplit_once_char.
    + cbn [mbind option_bind]. rewrite parse_uint_pad20, parse_uint_dec_opt.
      by destruct (seq <=? u64_MAX)%N, (retention <=? u64_MAX)%N.
    + apply digits_no_underscore, dec_all_digits.
  - apply digits_no_underscore. unfold pad20. by rewrite str_all_append, zeros_digits, dec_all_digits.
Qed.

Lemma job_of_job_filename seq sha retention :
  job_of_entry (job_filename seq sha retention) =
  if (seq <=? u64_MAX)%N && (retention <=? u64_MAX)%N
  then Some (mkJob seq sha retention (job_filename seq sha retention)) else None.
Proof.
  unfold job_of_entry.
  assert (strip_suffix ".tar.zst" (job_filename seq sha retention)
    = Some (job_stem seq sha retention)) as -> by by apply strip_suffix_Some.
  cbn [mbind option_bind]. rewrite parse_job_stem. by destruct (_ && _).
Qed.

(** A spool file name determines its job: for every sequence number and
    retention that fit 64 bits and every sha, underscores included, parsing
    the name gives back all three fields. *)
Theorem job_filename_roundtrip seq sha retention
    (Hseq : (seq ≤ u64_MAX)%N) (Hret : (retention ≤ u64_MAX)%N) :
  job_of_entry (job_filename seq sha retention) =
  Some (mkJob seq sha retention (job_filename seq sha retention)).
Proof. apply N.leb_le in Hseq, Hret. by rewrite job_of_job_filename, Hseq, Hret. Qed.

Lemma job_filename_roundtrip_witness :
  job_of_entry "00000000000000000007_a_b_30.tar.zst" =
  Some (mkJob 7 "a_b" 30 "00000000000000000007_a_b_30.tar.zst").
Proof.
  refine (job_filename_roundtrip 7 "a_b" 30 _ _); unfold u64_MAX; lia.
Defined.

(** A component that passes the filter cannot leave its directory: it is
    non-empty, at most 128 bytes, neither [.] nor [..], and holds no slash,
    backslash, NUL or other separator. *)
Theorem safe_component_stays_inside s (Hsafe : is_safe_path_component s = true) :
  s ≠ "" ∧ String.length s ≤ 128 ∧ s ≠ "." ∧ s ≠ ".." ∧
  ∀ l c r, s = l +:+ String c r → c ≠ "/"%char ∧ c ≠ "\"%char ∧ byte c ≠ 0%N ∧ c ≠ ":"%char.
Proof.
  unfold is_safe_path_component in Hsafe. rewrite !andb_true_iff, !negb_true_iff in Hsafe.
  destruct Hsafe as [[[[Hne Hlen] Hd] Hdd] Hall].
  apply Nat.leb_le in Hlen. apply bool_decide_eq_false in Hd, Hdd.
  split_and!; [by intros ->|done..|]. intros l c r ->.
  rewrite str_all_append in Hall. apply andb_true_iff in Hall as [_ Hc].
  cbn [str_all] in Hc. apply andb_true_iff in Hc as [Hc _].
  split_and!; intros Heq; subst; try done.
  assert (c = "000"%char) as -> by (by apply byte_inj). done.
Qed.

Lemma safe_component_stays_inside_witness :
  is_safe_path_component "v1.2_rc-3" = true ∧ is_safe_path_component "../etc" = false ∧
  "v1.2_rc-3" ≠ "..".
Proof.
  split_and!; [reflexivity..|].
  apply (safe_component_stays_inside "v1.2_rc-3"). reflexivity.
Defined.

(** A safe component survives [str::trim]. *)
Lemma trim_end_all p s : str_all (λ a, negb (p a)) s = true → trim_end_by p s = s.
Proof.
  induction s as [|a s IH]; intros Hs; [done|]. cbn [str_all] in Hs.
  apply andb_true_iff in Hs as [Ha Hs]. apply negb_true_iff in Ha. simpl. rewrite IH by done.
  destruct s; [by rewrite Ha|done].
Qed.

Lemma trim_safe s : is_safe_path_component s = true → trim s = s.
Proof.
  unfold is_safe_path_component. rewrite !andb_true_iff. intros [_ Hall].
  assert (str_all (λ a, negb (is_space a)) s = true) as Hns.
  { rewrite str_all_forall in Hall |- *. eapply Forall_impl; [exact Hall|]. intros a Ha. simpl in *.
    apply negb_true_iff. destruct a as [[] [] [] [] [] [] [] []]; vm_compute in Ha |- *; done. }
  unfold trim. rewrite <-(trim_end_all is_space s Hns) at 2. f_equal.
  destruct s as [|a s]; [done|]. cbn [str_all] in Hns. apply andb_true_iff in Hns as [Ha _].
  apply negb_true_iff in Ha. simpl. by rewrite Ha.
Qed.
