(* ===== verification/Registry.v ===== *)
(** * The graph registry (weave-graph-hub/registry.rs)

    The accept path (reservation, chunks, conflict check, spool), the per-repo
    worker (commit, prune) and the reads, as functions of the registry's state:
    its two directory trees and the in-memory state of each repository.  Clock
    readings are arguments, the signature verifier is a field.  An [io::Error]
    is its kind; writes into existing directories succeed, and the one I/O
    failure modelled is a missing file.  [None] is a panic. *)

From S2P Require Import Prelude Str Spool.

(** ** State *)

(** src/crates/weave-graph-hub/src/registry.rs:62-75 [RegistryConfig] *)
Record RegistryConfig := mkRegConfig {
  max_queue_depth_per_repo : nat;
  max_pushes_per_minute_per_repo : N;
  max_snapshot_bytes : N;
}.

(** src/crates/weave-graph-hub/src/registry.rs:80-96 [PushDecision] *)
Inductive PushDecision :=
| Accepted
| Conflict
| RateLimited (retry_after_secs : N)
| SignatureInvalid.

(** src/crates/weave-graph-hub/src/registry.rs:99-102 [PullResult] *)
Inductive PullResult :=
| Found (bytes : string) (sig : option string)
| NotFound.

Inductive IoError := InvalidInput | InvalidData | MissingFile.

#[global] Instance PushDecision_eq_dec : EqDecision PushDecision.
Proof. solve_decision. Defined.
#[global] Instance IoError_eq_dec : EqDecision IoError.
Proof. solve_decision. Defined.

(** src/crates/weave-graph-hub/src/registry.rs:104-107 [RateWindow] *)
Record RateWindow := mkRate { window_start : N; count : N }.

(** src/crates/weave-graph-hub/src/registry.rs:113-118 [RepoHead] *)
Record RepoHead := mkHead {
  sha : option string;
  next_seq : N;
  pending : nat;
  uploads : gmap string N;
}.

(** src/crates/weave-graph-hub/src/registry.rs:120-124 [RepoState] *)
Record RepoState := mkRepoState { head : RepoHead; rate : RateWindow }.

(** A verifier of snapshot signatures: repo, sha, payload, signature bytes. *)
Definition verifier_fn : Type := string → string → string → list N → bool.

(** src/crates/weave-graph-hub/src/registry.rs:126-139 [Registry] *)
Record Registry := mkRegistry {
  config : RegistryConfig;
  provenance_verifier : option verifier_fn;
  store : gmap string (gmap string file);
  spool : gmap string (gmap string file);
  repos : gmap string RepoState;
}.

Definition with_store (r : Registry) (repo : string) (d : gmap string file) : Registry :=
  mkRegistry (config r) (provenance_verifier r) (<[repo := d]> (store r)) (spool r) (repos r).
Definition with_spool (r : Registry) (repo : string) (d : gmap string file) : Registry :=
  mkRegistry (config r) (provenance_verifier r) (store r) (<[repo := d]> (spool r)) (repos r).
Definition with_repo (r : Registry) (repo : string) (st : RepoState) : Registry :=
  mkRegistry (config r) (provenance_verifier r) (store r) (spool r) (<[repo := st]> (repos r)).
Definition store_of (r : Registry) (repo : string) : gmap string file := default ∅ (store r !! repo).
Definition spool_of (r : Registry) (repo : string) : gmap string file := default ∅ (spool r !! repo).
Definition with_uploads (h : RepoHead) (u : gmap string N) : RepoHead :=
  mkHead (sha h) (next_seq h) (pending h) u.

(** src/crates/weave-graph-hub/src/registry.rs:24-24 [UPLOAD_RESERVATION_TTL] *)
Definition UPLOAD_RESERVATION_TTL : N := 900.

(** ** Signatures *)

(** A hexadecimal digit. *)
Definition hex_digit (a : ascii) : option N :=
  if is_digit a then Some (byte a - 48)%N
  else if (97 <=? byte a)%N && (byte a <=? 102)%N then Some (byte a - 87)%N
  else if (65 <=? byte a)%N && (byte a <=? 70)%N then Some (byte a - 55)%N
  else None.

(** [u8::from_str_radix(.., 16)] on two bytes: a leading [+] is a sign. *)
Definition hex_pair (a b : ascii) : option N :=
  if decide (a = "+"%char) then hex_digit b
  else x ← hex_digit a; y ← hex_digit b; Some (x * 16 + y)%N.

(** A UTF-8 continuation byte: slicing a string there panics. *)
Definition is_continuation (a : ascii) : bool := (128 <=? byte a)%N && (byte a <? 192)%N.
Definition boundary_at (s : string) : bool :=
  match s with EmptyString => true | String a _ => negb (is_continuation a) end.

(** src/crates/weave-graph-hub/src/registry.rs:52-55 [decode_hex] *)
Fixpoint decode_pairs (s : string) : option (option (list N)) :=
  match s with
  | String a (String b rest) =>
      if boundary_at s && boundary_at rest then
        match hex_pair a b with
        | None => Some None
        | Some v => bytes ← decode_pairs rest; Some (option_map (cons v) bytes)
        end
      else None
  | _ => Some (Some [])
  end.

(** src/crates/weave-graph-hub/src/registry.rs:48-56 [decode_hex] *)
Definition decode_hex (s : string) : option (option (list N)) :=
  if Nat.even (String.length s) then decode_pairs s else Some None.

Section registry.
Context `{ReadDir}.

(** ** Accepting *)

(** src/crates/weave-graph-hub/src/registry.rs:193-198 [Registry::read_persisted_head] *)
Definition read_persisted_head (d : gmap string file) : option string :=
  f ← d !! "HEAD";
  let s := trim (content f) in
  if is_empty s then None else Some s.

(** src/crates/weave-graph-hub/src/registry.rs:217-219 [Registry::repo_state] *)
Definition next_seq_of (jobs : list SpoolJob) : N :=
  match jobs with
  | [] => 0
  | j :: js => (foldl N.max (job_seq j) (job_seq <$> js) + 1)%N
  end.

(** src/crates/weave-graph-hub/src/registry.rs:205-252 [Registry::repo_state] *)
Definition repo_state (now : N) (r : Registry) (repo_id : string) : Registry * RepoState :=
  match repos r !! repo_id with
  | Some st => (r, st)
  | None =>
      let r := with_store r repo_id (store_of r repo_id) in
      let r := with_spool r repo_id (spool_of r repo_id) in
      let leftover := leftover_jobs (spool_of r repo_id) in
      let st := mkRepoState
        (mkHead (read_persisted_head (store_of r repo_id)) (next_seq_of leftover)
           (length leftover) ∅)
        (mkRate now 0) in
      (with_repo r repo_id st, st)
  end.

(** src/crates/weave-graph-hub/src/registry.rs:146-169 [Registry::open]
    On the directories found under [data_dir]: every repository that has a
    spool directory gets its state back. *)
Definition open (now : N) (cfg : RegistryConfig) (store spool : gmap string (gmap string file)) :
    Registry :=
  foldl (λ r repo_id, (repo_state now r repo_id).1)
    (mkRegistry cfg None store spool ∅) (map_to_list spool).*1.

(** src/crates/weave-graph-hub/src/registry.rs:177-183 [Registry::with_provenance_verifier] *)
Definition with_provenance_verifier (r : Registry) (verifier : verifier_fn) : Registry :=
  mkRegistry (config r) (Some verifier) (store r) (spool r) (repos r).

(** src/crates/weave-graph-hub/src/bin/weave-registry/main.rs:181-199 [run]
    A registry as a deployment starts it, with or without a verifier. *)
Definition launch (now : N) (cfg : RegistryConfig) (verifier : option verifier_fn)
    (store spool : gmap string (gmap string file)) : Registry :=
  let r := open now cfg store spool in
  match verifier with Some v => with_provenance_verifier r v | None => r end.

(** src/crates/weave-graph-hub/src/registry.rs:355-358 [Registry::upload_path] *)
Definition upload_path (target_sha : string) : string := target_sha +:+ ".tmp".

(** src/crates/weave-graph-hub/src/registry.rs:290-293 [Registry::begin_upload] *)
Definition base_conflicts (base_sha : option string) (h : RepoHead) : bool :=
  match base_sha, sha h with
  | Some base, Some s => negb (bool_decide (s = base))
  | _, _ => false
  end.

(** src/crates/weave-graph-hub/src/registry.rs:302-311 [Registry::begin_upload]
    The rolling window; [false] when the limit is reached. *)
Definition take_rate (cfg : RegistryConfig) (now : N) (w : RateWindow) : RateWindow * bool :=
  let w := if (60 <=? now - window_start w)%N then mkRate now 0 else w in
  if (max_pushes_per_minute_per_repo cfg <=? count w)%N then (w, false)
  else (mkRate (window_start w) (count w + 1), true).

(** src/crates/weave-graph-hub/src/registry.rs:362-377 [Registry::expire_uploads] *)
Definition expired_uploads (now : N) (u : gmap string N) : list string :=
  fst <$> filter (λ e, (UPLOAD_RESERVATION_TTL ≤ now - e.2)%N) (map_to_list u).

(** src/crates/weave-graph-hub/src/registry.rs:360-381 [Registry::expire_uploads] *)
Definition expire_uploads (now : N) (r : Registry) (repo_id : string) (st : RepoState) :
    Registry * RepoState :=
  let gone := expired_uploads now (uploads (head st)) in
  let st := mkRepoState (with_uploads (head st) (foldr delete (uploads (head st)) gone)) (rate st) in
  let d := foldr (λ s d, delete (upload_path s) d) (spool_of r repo_id) gone in
  (with_spool (with_repo r repo_id st) repo_id d, st).

(** src/crates/weave-graph-hub/src/registry.rs:262-331 [Registry::begin_upload] *)
Definition begin_upload (now : N) (r : Registry) (repo_id target_sha : string)
    (base_sha : option string) : Registry * result PushDecision IoError :=
  if negb (is_safe_path_component repo_id) || negb (is_safe_path_component target_sha)
  then (r, Err InvalidInput) else
  let '(r, st) := repo_state now r repo_id in
  let '(r, st) := expire_uploads now r repo_id st in
  let h := head st in
  let full := (max_queue_depth_per_repo (config r) <=? pending h + size (uploads h))%nat in
  if bool_decide (is_Some (uploads h !! target_sha)) then (r, Ok Accepted) else
  if full then (r, Ok (RateLimited 5)) else
  if base_conflicts base_sha h then (r, Ok Conflict) else
  let '(w, allowed) := take_rate (config r) now (rate st) in
  let r := with_repo r repo_id (mkRepoState h w) in
  if negb allowed then (r, Ok (RateLimited 60)) else
  if full then (r, Ok (RateLimited 5)) else
  if base_conflicts base_sha h then (r, Ok Conflict) else
  (with_repo r repo_id (mkRepoState (with_uploads h (<[target_sha := now]> (uploads h))) w),
   Ok Accepted).

(** src/crates/weave-graph-hub/src/registry.rs:334-349 [Registry::abandon_upload] *)
Definition abandon_upload (r : Registry) (repo_id target_sha : string) : Registry :=
  if negb (is_safe_path_component repo_id) || negb (is_safe_path_component target_sha) then r else
  let r := match repos r !! repo_id with
           | Some st => with_repo r repo_id
               (mkRepoState (with_uploads (head st) (delete target_sha (uploads (head st)))) (rate st))
           | None => r
           end in
  with_spool r repo_id (delete (upload_path target_sha) (spool_of r repo_id)).

(** src/crates/weave-graph-hub/src/registry.rs:383-391 [Registry::take_upload_reservation] *)
Definition take_upload_reservation (r : Registry) (repo_id target_sha : string) : Registry * bool :=
  match repos r !! repo_id with
  | Some st =>
      (with_repo r repo_id
         (mkRepoState (with_uploads (head st) (delete target_sha (uploads (head st)))) (rate st)),
       bool_decide (is_Some (uploads (head st) !! target_sha)))
  | None => (r, false)
  end.

(** src/crates/weave-graph-hub/src/registry.rs:253-259 [Registry::get_spool_offset] *)
Definition get_spool_offset (r : Registry) (repo_id target_sha : string) : N :=
  if negb (is_safe_path_component repo_id) || negb (is_safe_path_component target_sha) then 0 else
  match spool_of r repo_id !! upload_path target_sha with
  | Some f => N.of_nat (String.length (content f))
  | None => 0
  end.

(** src/crates/weave-graph-hub/src/registry.rs:393-439 [Registry::spool_chunk] *)
Definition spool_chunk (now : N) (r : Registry) (repo_id target_sha : string) (start_offset : N)
    (chunk : string) : Registry * result N IoError :=
  if negb (is_safe_path_component repo_id) || negb (is_safe_path_component target_sha)
  then (r, Err InvalidInput) else
  let tmp := upload_path target_sha in
  let existing := match spool_of r repo_id !! tmp with Some f => content f | None => "" end in
  let existing_len := N.of_nat (String.length existing) in
  if negb (start_offset =? 0)%N && negb (existing_len =? start_offset)%N then (r, Err InvalidData) else
  let next_len := (start_offset + N.of_nat (String.length chunk))%N in
  if (u64_modulus <=? next_len)%N then (r, Err InvalidInput) else
  if (max_snapshot_bytes (config r) <? next_len)%N then (r, Err InvalidInput) else
  let kept := if (start_offset =? 0)%N then "" else existing in
  let data := kept +:+ chunk in
  (with_spool r repo_id (<[tmp := mkFile data now]> (spool_of r repo_id)),
   Ok (N.of_nat (String.length data))).

(** src/crates/weave-graph-hub/src/registry.rs:503-517 [Registry::finish_upload]
    The signature check: [Ok true] passes it. *)
Definition check_signature (r : Registry) (repo_id target_sha : string) (signature : option string) :
    option (result bool IoError) :=
  match provenance_verifier r with
  | None => Some (Ok true)
  | Some verify =>
      match spool_of r repo_id !! upload_path target_sha with
      | None => Some (Err MissingFile)
      | Some f =>
          match signature with
          | None => Some (Ok false)
          | Some s =>
              bytes ← decode_hex s;
              Some (Ok (match bytes with
                        | Some sig => verify repo_id target_sha (content f) sig
                        | None => false
                        end))
          end
      end
  end.

(** src/crates/weave-graph-hub/src/registry.rs:538-573 [Registry::finish_upload]
    The conflict check, the advance of the head and the move into the queue. *)
Definition enqueue (now : N) (r : Registry) (repo_id target_sha : string) (base_sha : option string)
    (retention : N) (signature : option string) (st : RepoState) :
    Registry * result PushDecision IoError :=
  let h := head st in
  if (max_queue_depth_per_repo (config r) <=? pending h)%nat then (r, Ok (RateLimited 5)) else
  if base_conflicts base_sha h then (r, Ok Conflict) else
  let seq := next_seq h in
  let r := with_repo r repo_id
    (mkRepoState (mkHead (Some target_sha) (seq + 1) (pending h + 1) (uploads h)) (rate st)) in
  let d := spool_of r repo_id in
  let d := match signature with
           | Some sig => <[sig_filename seq target_sha retention := mkFile sig now]> d
           | None => d
           end in
  match rename d (upload_path target_sha) (job_filename seq target_sha retention) with
  | Some d => (with_spool r repo_id d, Ok Accepted)
  | None => (with_spool r repo_id d, Err MissingFile)
  end.

(** src/crates/weave-graph-hub/src/registry.rs:483-574 [Registry::finish_upload] *)
Definition finish_upload (now : N) (r : Registry) (repo_id target_sha : string)
    (base_sha : option string) (retention : N) (signature : option string) (reserved : bool) :
    option (Registry * result PushDecision IoError) :=
  if negb (is_safe_path_component repo_id) || negb (is_safe_path_component target_sha)
  then Some (r, Err InvalidInput) else
  verified ← check_signature r repo_id target_sha signature;
  match verified with
  | Err e => Some (r, Err e)
  | Ok false => Some (r, Ok SignatureInvalid)
  | Ok true =>
      let '(r, st) := repo_state now r repo_id in
      if reserved then Some (enqueue now r repo_id target_sha base_sha retention signature st) else
      let '(w, allowed) := take_rate (config r) now (rate st) in
      let st := mkRepoState (head st) w in
      let r := with_repo r repo_id st in
      if negb allowed then Some (r, Ok (RateLimited 60)) else
      Some (enqueue now r repo_id target_sha base_sha retention signature st)
  end.

(** src/crates/weave-graph-hub/src/registry.rs:465-481 [Registry::push_complete] *)
Definition push_complete (now : N) (r : Registry) (repo_id target_sha : string)
    (base_sha : option string) (retention : N) (signature : option string) :
    option (Registry * result PushDecision IoError) :=
  let '(r, reserved) := take_upload_reservation r repo_id target_sha in
  '(r, res) ← finish_upload now r repo_id target_sha base_sha retention signature reserved;
  if decide (res = Ok Accepted) then Some (r, res)
  else Some (abandon_upload r repo_id target_sha, res).

(** src/crates/weave-graph-hub/src/registry.rs:445-463 [Registry::push] *)
Definition push (now : N) (r : Registry) (repo_id target_sha : string) (base_sha : option string)
    (retention : N) (signature : option string) (payload : string) :
    option (Registry * result PushDecision IoError) :=
  match begin_upload now r repo_id target_sha base_sha with
  | (r, Ok Accepted) =>
      match spool_chunk now r repo_id target_sha 0 payload with
      | (r, Ok _) => push_complete now r repo_id target_sha base_sha retention signature
      | (r, Err e) => Some (abandon_upload r repo_id target_sha, Err e)
      end
  | (r, res) => Some (r, res)
  end.

(** ** Reading *)

(** src/crates/weave-graph-hub/src/registry.rs:578-601 [Registry::pull] *)
Definition pull (r : Registry) (repo_id commit_sha : string) : PullResult :=
  if negb (is_safe_path_component repo_id) ||
     (negb (bool_decide (commit_sha = "latest")) && negb (is_safe_path_component commit_sha))
  then NotFound else
  let resolved := if decide (commit_sha = "latest") then read_persisted_head (store_of r repo_id)
                  else Some commit_sha in
  match resolved with
  | None => NotFound
  | Some s =>
      match store_of r repo_id !! (s +:+ ".tar.zst") with
      | Some f => Found (content f) (content <$> store_of r repo_id !! (s +:+ ".sig"))
      | None => NotFound
      end
  end.

(** src/crates/weave-graph-hub/src/registry.rs:604-607 [Registry::pending_jobs] *)
Definition pending_jobs (now : N) (r : Registry) (repo_id : string) : Registry * nat :=
  let '(r, st) := repo_state now r repo_id in (r, pending (head st)).

(** src/crates/weave-graph-hub/src/registry.rs:713-718 [read_webhook] *)
Definition read_webhook (d : gmap string file) : option string :=
  f ← d !! "webhook.txt";
  let s := trim (content f) in
  if is_empty s then None else Some s.

(** src/crates/weave-graph-hub/src/registry.rs:679-698 [Registry::set_webhook]
    [registerable] is the verdict of [validate_registerable(url)]. *)
Definition set_webhook (now : N) (registerable : string → bool) (r : Registry)
    (repo_id url : string) : Registry * result unit IoError :=
  if negb (is_safe_path_component repo_id) then (r, Err InvalidInput) else
  let d := store_of r repo_id in
  if is_empty url then (with_store r repo_id (delete "webhook.txt" d), Ok ()) else
  if negb (registerable url) then (with_store r repo_id d, Err InvalidInput) else
  match write_atomic now d "webhook.txt.tmp" "webhook.txt" url with
  | Some d => (with_store r repo_id d, Ok ())
  | None => (with_store r repo_id d, Err MissingFile)
  end.

(** ** The worker *)

(** [Path::extension] and [Path::file_stem] of a file name. *)
Definition extension (name : string) : option string :=
  match rsplit_once name "." with
  | Some (stem, ext) => if is_empty stem then None else Some ext
  | None => None
  end.
Definition file_stem (name : string) : string :=
  match rsplit_once name "." with
  | Some (stem, _) => if is_empty stem then name else stem
  | None => name
  end.

(** src/crates/weave-graph-hub/src/registry.rs:901-901 [prune_retention]
    [path.with_extension("").with_extension("sig")]. *)
Definition sidecar (name : string) : string := file_stem (file_stem name) +:+ ".sig".

(** src/crates/weave-graph-hub/src/registry.rs:896-896 [prune_retention] *)
Definition blob_leb (a b : N * string) : bool := pair_leb N.leb String.leb a b.

(** src/crates/weave-graph-hub/src/registry.rs:885-896 [prune_retention] *)
Definition blobs_oldest_first (d : gmap string file) : list (N * string) :=
  sort_by blob_leb
    ((λ e, (mtime e.2, e.1)) <$> filter (λ e, extension e.1 = Some "zst") (read_dir d)).

(** src/crates/weave-graph-hub/src/registry.rs:881-905 [prune_retention] *)
Definition prune_retention (d : gmap string file) (retention : N) : gmap string file :=
  let blobs := blobs_oldest_first d in
  if (retention <? N.of_nat (length blobs))%N then
    foldl (λ d b, delete (sidecar b.2) (delete b.2 d)) d
      (take (length blobs - N.to_nat retention) blobs)
  else d.

(** src/crates/weave-graph-hub/src/registry.rs:843-876 [commit_job] *)
Definition commit_job (now : N) (store_dir spool_dir : gmap string file) (job : SpoolJob) :
    gmap string file * bool :=
  match spool_dir !! job_path job with
  | None => (store_dir, false)
  | Some f =>
      let blob := job_sha job +:+ ".tar.zst" in
      match write_atomic now store_dir (blob +:+ ".tmp") blob (content f) with
      | None => (store_dir, false)
      | Some d =>
          let d := match spool_dir !! sig_filename (job_seq job) (job_sha job) (job_retention job) with
                   | Some s => default d (write_atomic now d (job_sha job +:+ ".sig.tmp")
                                            (job_sha job +:+ ".sig") (content s))
                   | None => d
                   end in
          match write_atomic now d "HEAD.tmp" "HEAD" (job_sha job) with
          | Some d => (prune_retention d (job_retention job), true)
          | None => (d, false)
          end
      end
  end.

(** src/crates/weave-graph-hub/src/registry.rs:823-838 [dispatch_webhook]
    The notification sent, if a webhook is registered. *)
Definition dispatch_webhook (store_dir : gmap string file) (repo_id s : string) :
    list (string * string * string) :=
  match read_webhook store_dir with
  | Some url => [(url, repo_id, s)]
  | None => []
  end.

(** src/crates/weave-graph-hub/src/registry.rs:796-811 [worker_loop]
    One job; the state carries the notifications sent.  The decrement of
    [pending] panics below zero. *)
Definition worker_job (repo_id : string) (st : Registry * list (string * string * string))
    (tj : N * SpoolJob) : option (Registry * list (string * string * string)) :=
  let '(r, sent) := st in
  let '(now, job) := tj in
  let '(d, committed) := commit_job now (store_of r repo_id) (spool_of r repo_id) job in
  let r := with_store r repo_id d in
  let r := with_spool r repo_id
    (delete (sig_filename (job_seq job) (job_sha job) (job_retention job))
       (delete (job_path job) (spool_of r repo_id))) in
  rs ← repos r !! repo_id;
  let h := head rs in
  if decide (pending h = 0) then None else
  let r := with_repo r repo_id
    (mkRepoState (mkHead (sha h) (next_seq h) (pending h - 1) (uploads h)) (rate rs)) in
  Some (r, if committed then sent ++ dispatch_webhook d repo_id (job_sha job) else sent).

(** src/crates/weave-graph-hub/src/registry.rs:786-795 [worker_loop]
    The round of a worker that finds no job and is not woken for five minutes: the
    repository leaves the pool, with its reservations, and the thread ends. *)
Definition worker_evict (r : Registry) (repo_id : string) : Registry :=
  match leftover_jobs (spool_of r repo_id) with
  | [] => mkRegistry (config r) (provenance_verifier r) (store r) (spool r) (delete repo_id (repos r))
  | _ => r
  end.

(** src/crates/weave-graph-hub/src/registry.rs:796-811 [worker_loop]
    One round over the spool, job [i] committed at time [times i]. *)
Definition worker_drain (times : nat → N) (r : Registry) (repo_id : string) :
    option (Registry * list (string * string * string)) :=
  foldlM (worker_job repo_id) (imap (λ i j, (times i, j)) (leftover_jobs (spool_of r repo_id))) (r, []).
End registry.
