(* ===== verification/RegistryProofs.v ===== *)
(** * The registry's guarantees

    The queue invariant over every interleaving of operations and restarts, the
    exactness of the accept decision, resumable uploads, retention, and the
    round trip of a snapshot from push to pull. *)

From S2P Require Import Prelude Str Spool Registry.

Section proofs.
Context `{ReadDirLaws}.

(** ** The jobs of a spool directory *)

Definition jobs (d : dir) : list SpoolJob := omap (λ e, job_of_entry e.1) (map_to_list d).

Lemma leftover_jobs_perm d : leftover_jobs d ≡ₚ jobs d.
Proof. unfold leftover_jobs, jobs. by rewrite sort_by_perm, read_dir_perm. Qed.

Lemma job_of_entry_path name j : job_of_entry name = Some j → job_path j = name.
Proof.
  unfold job_of_entry. intros (stem & _ & Hj)%bind_Some.
  apply bind_Some in Hj as ([[seq s] ret] & _ & ?). by simplify_eq.
Qed.

Lemma elem_of_jobs j d :
  j ∈ jobs d ↔ is_Some (d !! job_path j) ∧ job_of_entry (job_path j) = Some j.
Proof.
  unfold jobs. rewrite list_elem_of_omap. split.
  - intros ([name f] & Hin & Hj). simpl in Hj. pose proof (job_of_entry_path _ _ Hj) as <-.
    apply elem_of_map_to_list in Hin. eauto.
  - intros [[f Hf] Hj]. exists (job_path j, f). by rewrite elem_of_map_to_list.
Qed.

Lemma NoDup_jobs d : NoDup (jobs d).
Proof.
  unfold jobs. pose proof (NoDup_fst_map_to_list d) as Hnd.
  induction (map_to_list d) as [|[k f] l IH]; [constructor|].
  rewrite fmap_cons in Hnd. apply NoDup_cons in Hnd as [Hk Hnd]. cbn [omap list_omap fst].
  destruct (job_of_entry k) as [j|] eqn:Hj; [|auto]. constructor; [|auto].
  intros ([k' f'] & Hin & Hj')%list_elem_of_omap. simpl in Hj'.
  pose proof (job_of_entry_path _ _ Hj). pose proof (job_of_entry_path _ _ Hj'). subst.
  apply Hk, list_elem_of_fmap. eexists (_, f'). split; [|done]. simpl. congruence.
Qed.

(** Two directories whose job files are the same have the same queue. *)
Lemma jobs_equiv d1 d2 : (∀ j, j ∈ jobs d1 ↔ j ∈ jobs d2) → jobs d1 ≡ₚ jobs d2.
Proof. intros Heq. apply NoDup_Permutation; auto using NoDup_jobs. Qed.

Lemma jobs_insert_other d k f : job_of_entry k = None → jobs (<[k:=f]> d) ≡ₚ jobs d.
Proof.
  intros Hk. apply jobs_equiv. intros j. rewrite !elem_of_jobs.
  destruct (decide (k = job_path j)) as [->|]; [rewrite Hk; naive_solver|].
  by rewrite lookup_insert_ne.
Qed.

Lemma jobs_delete_other d k : job_of_entry k = None → jobs (delete k d) ≡ₚ jobs d.
Proof.
  intros Hk. apply jobs_equiv. intros j. rewrite !elem_of_jobs.
  destruct (decide (k = job_path j)) as [->|]; [rewrite Hk; naive_solver|].
  by rewrite lookup_delete_ne.
Qed.

Lemma jobs_insert_new d k f j :
  job_of_entry k = Some j → d !! k = None → jobs (<[k:=f]> d) ≡ₚ j :: jobs d.
Proof.
  intros Hj Hk. pose proof (job_of_entry_path _ _ Hj) as Hp.
  assert (j ∉ jobs d) as Hnot.
  { rewrite elem_of_jobs, Hp, Hk. intros [[? ?] _]. done. }
  apply NoDup_Permutation; [apply NoDup_jobs|constructor; auto using NoDup_jobs|].
  intros i. rewrite elem_of_cons, !elem_of_jobs.
  destruct (decide (k = job_path i)) as [Hki|Hne].
  - subst. rewrite Hki in *. rewrite Hj, lookup_insert_eq, Hk. naive_solver.
  - rewrite lookup_insert_ne by done. naive_solver.
Qed.

Lemma jobs_delete d j : j ∈ jobs d → jobs d ≡ₚ j :: jobs (delete (job_path j) d).
Proof.
  intros Hj. pose proof (proj1 (elem_of_jobs _ _) Hj) as [[f Hf] He].
  rewrite <-(insert_delete_id d (job_path j) f Hf) at 1.
  by rewrite (jobs_insert_new _ _ _ _ He (lookup_delete_eq d (job_path j))).
Qed.

(** ** Names that are not jobs *)

Lemma suffix_clash a b p q :
  String.length p = String.length q → a +:+ p = b +:+ q → p = q.
Proof.
  intros Hl Heq. apply (append_inv_len a p b q); [|done].
  apply (f_equal String.length) in Heq. rewrite !length_append in Heq. lia.
Qed.

Lemma not_job name suf :
  String.length suf = 4 → suf ≠ ".zst" → job_of_entry (name +:+ suf) = None.
Proof.
  intros Hl Hs. unfold job_of_entry.
  destruct (strip_suffix ".tar.zst" (name +:+ suf)) as [stem|] eqn:E; [|done].
  apply strip_suffix_Some in E. exfalso. apply Hs.
  apply (suffix_clash name (stem +:+ ".tar")); [done|]. by rewrite append_assoc.
Qed.

Lemma upload_not_job s : job_of_entry (upload_path s) = None.
Proof. by apply not_job. Qed.

Lemma sig_not_job seq s ret : job_of_entry (sig_filename seq s ret) = None.
Proof. by apply not_job. Qed.

(** ** The queue invariant *)

Record repo_ok (max : nat) (d : dir) (h : RepoHead) : Prop := {
  ok_pending : length (jobs d) ≤ pending h;
  ok_seq j : j ∈ jobs d → (job_seq j < next_seq h)%N;
  ok_depth : pending h ≤ max;
}.

Abbreviation depth r := (max_queue_depth_per_repo (config r)).

(** Queued jobs are counted, numbered below the next number, and within the
    watermark; so are those of a repository without state, which its next use
    recovers. *)
Record registry_ok (r : Registry) : Prop := {
  rok_repo repo st : repos r !! repo = Some st → repo_ok (depth r) (spool_of r repo) (head st);
  rok_spool repo : length (jobs (spool_of r repo)) ≤ depth r;
}.

Lemma repo_ok_perm m d d' h : jobs d' ≡ₚ jobs d → repo_ok m d h → repo_ok m d' h.
Proof. intros Hp [H1 H2 H3]. split; [by rewrite Hp| |done]. intros j. rewrite Hp. auto. Qed.

Lemma repo_ok_uploads m d h u : repo_ok m d (with_uploads h u) ↔ repo_ok m d h.
Proof. split; intros [? ? ?]; split; auto. Qed.

Lemma spool_of_with_spool r repo d repo' :
  spool_of (with_spool r repo d) repo' = if decide (repo = repo') then d else spool_of r repo'.
Proof.
  unfold spool_of. simpl. case_decide; subst; [by rewrite lookup_insert_eq|].
  by rewrite lookup_insert_ne.
Qed.

Lemma store_of_with_store r repo d repo' :
  store_of (with_store r repo d) repo' = if decide (repo = repo') then d else store_of r repo'.
Proof.
  unfold store_of. simpl. case_decide; subst; [by rewrite lookup_insert_eq|].
  by rewrite lookup_insert_ne.
Qed.

Lemma registry_ok_repo r repo st :
  registry_ok r → repo_ok (depth r) (spool_of r repo) (head st) → registry_ok (with_repo r repo st).
Proof.
  intros Hr Hst. split; [|apply Hr]. intros repo' st' Hl. cbn [with_repo repos] in Hl.
  apply lookup_insert_Some in Hl as [[<- <-]|[? ?]]; [exact Hst|]. by apply Hr.
Qed.

Lemma registry_ok_spool r repo d :
  registry_ok r → (∀ st, repos r !! repo = Some st → repo_ok (depth r) d (head st)) →
  length (jobs d) ≤ depth r → registry_ok (with_spool r repo d).
Proof.
  intros Hr Hd Hl. split.
  - intros repo' st' Hst. rewrite spool_of_with_spool. case_decide; subst; [auto|by apply Hr].
  - intros repo'. rewrite spool_of_with_spool. case_decide; subst; [auto|by apply Hr].
Qed.

Lemma registry_ok_spool_same r repo d :
  registry_ok r → jobs d ≡ₚ jobs (spool_of r repo) → registry_ok (with_spool r repo d).
Proof.
  intros Hr Hp. apply registry_ok_spool; [done| |].
  - intros st Hst. eapply repo_ok_perm; [done|]. by apply Hr.
  - rewrite Hp. apply Hr.
Qed.

(** Replacing a repository's spool and state together. *)
Lemma registry_ok_both r repo d st :
  registry_ok r → repo_ok (depth r) d (head st) →
  registry_ok (with_spool (with_repo r repo st) repo d).
Proof.
  intros Hr Hst. assert (length (jobs d) ≤ depth r) as Hl by (destruct Hst; lia). split.
  - intros repo' st' Hst'. cbn [with_repo with_spool repos] in Hst'.
    rewrite spool_of_with_spool. apply lookup_insert_Some in Hst' as [[<- <-]|[? ?]].
    + by rewrite decide_True.
    + rewrite decide_False by done. by apply Hr.
  - intros repo'. rewrite spool_of_with_spool. case_decide; subst; [done|by apply Hr].
Qed.

Lemma registry_ok_store r repo d : registry_ok (with_store r repo d) ↔ registry_ok r.
Proof. split; intros [H1 H2]; split; auto. Qed.

Lemma next_seq_of_spec js j : j ∈ js → (job_seq j < next_seq_of js)%N.
Proof.
  assert (∀ l a, (a ≤ foldl N.max a l)%N ∧ ∀ x, x ∈ l → (x ≤ foldl N.max a l)%N) as Hmax.
  { induction l as [|y l IH]; intros a; simpl; [split; [lia|set_solver]|].
    destruct (IH (N.max a y)) as [H1 H2]. split; [lia|].
    intros x [->|Hx]%elem_of_cons; [lia|auto]. }
  destruct js as [|i js]; [set_solver|]. unfold next_seq_of.
  destruct (Hmax (job_seq <$> js) (job_seq i)) as [H1 H2].
  intros [->|Hj]%elem_of_cons; [lia|].
  assert (job_seq j ∈ job_seq <$> js) as Hin by (apply list_elem_of_fmap; eauto).
  specialize (H2 _ Hin). lia.
Qed.

(** ** Operations keep it *)

Lemma repo_state_ok now r repo :
  registry_ok r →
  registry_ok (repo_state now r repo).1 ∧
  repos (repo_state now r repo).1 !! repo = Some (repo_state now r repo).2 ∧
  (∀ repo', spool_of (repo_state now r repo).1 repo' = spool_of r repo') ∧
  (∀ repo', store_of (repo_state now r repo).1 repo' = store_of r repo') ∧
  config (repo_state now r repo).1 = config r ∧
  provenance_verifier (repo_state now r repo).1 = provenance_verifier r.
Proof.
  intros Hr. unfold repo_state. destruct (repos r !! repo) as [st|] eqn:Hst; [done|].
  cbv zeta. set (r1 := with_spool (with_store r repo (store_of r repo)) repo
    (spool_of (with_store r repo (store_of r repo)) repo)).
  assert (∀ repo', spool_of r1 repo' = spool_of r repo') as Hsp.
  { intros repo'. unfold r1. rewrite spool_of_with_spool. by case_decide; subst. }
  assert (∀ repo', store_of r1 repo' = store_of r repo') as Hso.
  { intros repo'. change (store_of r1 repo') with
      (store_of (with_store r repo (store_of r repo)) repo').
    rewrite store_of_with_store. by case_decide; subst. }
  split_and!; simpl; [| |done..].
  - apply registry_ok_repo.
    + split; [intros repo' st' Hst'|intros repo']; rewrite Hsp; by apply Hr.
    + simpl. split; simpl; rewrite ?leftover_jobs_perm; [done| |rewrite Hsp; apply Hr].
      intros j Hj. apply next_seq_of_spec. by rewrite leftover_jobs_perm.
  - by rewrite lookup_insert_eq.
Qed.

Lemma jobs_delete_uploads d gone :
  jobs (foldr (λ s d, delete (upload_path s) d) d gone) ≡ₚ jobs d.
Proof.
  induction gone as [|s gone IH]; [done|]. simpl.
  by rewrite jobs_delete_other by apply upload_not_job.
Qed.

Lemma expire_uploads_ok now r repo st :
  registry_ok r → repos r !! repo = Some st →
  registry_ok (expire_uploads now r repo st).1 ∧
  repos (expire_uploads now r repo st).1 !! repo = Some (expire_uploads now r repo st).2.
Proof.
  intros Hr Hst. unfold expire_uploads. cbn [fst snd]. split; [|simpl; by rewrite lookup_insert_eq].
  apply registry_ok_spool_same; [|apply jobs_delete_uploads].
  apply registry_ok_repo; [done|]. cbn [head]. rewrite repo_ok_uploads. by apply Hr.
Qed.

Lemma begin_upload_ok now r repo target base :
  registry_ok r → registry_ok (begin_upload now r repo target base).1.
Proof.
  intros Hr. unfold begin_upload. case_match; [done|].
  destruct (repo_state_ok now r repo Hr) as (HA & HB & _).
  destruct (repo_state now r repo) as [r1 st1]. cbn [fst snd] in *.
  destruct (expire_uploads_ok now r1 repo st1 HA HB) as (HC & HD).
  destruct (expire_uploads now r1 repo st1) as [r2 st2]. cbn [fst snd] in *.
  pose proof (rok_repo _ HC _ _ HD) as HE.
  repeat case_match; cbn [fst]; try done;
    repeat (apply registry_ok_repo; [|cbn [head]; by rewrite ?repo_ok_uploads]); done.
Qed.

Lemma abandon_upload_ok r repo target : registry_ok r → registry_ok (abandon_upload r repo target).
Proof.
  intros Hr. unfold abandon_upload. case_match; [done|].
  apply registry_ok_spool_same; [|].
  - destruct (repos r !! repo) as [st|] eqn:Hst; [|done].
    apply registry_ok_repo; [done|]. cbn [head]. rewrite repo_ok_uploads. by apply Hr.
  - rewrite jobs_delete_other by apply upload_not_job. by destruct (repos r !! repo).
Qed.

Lemma spool_chunk_ok now r repo target off chunk :
  registry_ok r → registry_ok (spool_chunk now r repo target off chunk).1.
Proof.
  intros Hr. unfold spool_chunk. repeat case_match; cbn [fst]; try done.
  all: apply registry_ok_spool_same; [done|]; apply jobs_insert_other, upload_not_job.
Qed.

Lemma take_reservation_ok r repo target :
  registry_ok r → registry_ok (take_upload_reservation r repo target).1.
Proof.
  intros Hr. unfold take_upload_reservation. case_match; [|done]. cbn [fst].
  apply registry_ok_repo; [done|]. cbn [head]. rewrite repo_ok_uploads. by apply Hr.
Qed.

Lemma spool_of_with_repo r repo st repo' : spool_of (with_repo r repo st) repo' = spool_of r repo'.
Proof. done. Qed.

(** Moving the upload into the queue adds one job, with a fresh number. *)
Lemma enqueue_jobs m d d' h sig now target ret :
  repo_ok m d h → pending h < m →
  rename (match sig with
          | Some s => <[sig_filename (next_seq h) target ret := mkFile s now]> d
          | None => d
          end) (upload_path target) (job_filename (next_seq h) target ret) = Some d' →
  repo_ok m d' (mkHead (Some target) (next_seq h + 1) (pending h + 1) (uploads h)).
Proof.
  intros [Hp Hs _] Hm Hren. set (d1 := match sig with Some _ => _ | None => _ end) in Hren.
  assert (jobs d1 ≡ₚ jobs d) as Hd1.
  { unfold d1. destruct sig; [|done]. apply jobs_insert_other, sig_not_job. }
  apply bind_Some in Hren as (f & Hf & [= <-]).
  set (d2 := delete (upload_path target) d1).
  assert (jobs d2 ≡ₚ jobs d) as Hd2.
  { unfold d2. by rewrite jobs_delete_other by apply upload_not_job. }
  pose proof (job_of_job_filename (next_seq h) target ret) as Hname.
  destruct (_ && _).
  - assert (d2 !! job_filename (next_seq h) target ret = None) as Hfresh.
    { apply eq_None_not_Some. intros Hin.
      assert (mkJob (next_seq h) target ret (job_filename (next_seq h) target ret) ∈ jobs d) as Hj.
      { rewrite <-Hd2, elem_of_jobs. done. }
      apply Hs in Hj. simpl in Hj. lia. }
    pose proof (jobs_insert_new d2 _ f _ Hname Hfresh) as Hins. split.
    + rewrite Hins, Hd2. simpl. lia.
    + intros j. rewrite Hins, Hd2, elem_of_cons. intros [->|Hj%Hs]; simpl; lia.
    + simpl. lia.
  - pose proof (jobs_insert_other d2 _ f Hname) as Hins. split.
    + rewrite Hins, Hd2. simpl. lia.
    + intros j. rewrite Hins, Hd2. intros Hj%Hs. simpl. lia.
    + simpl. lia.
Qed.

Lemma enqueue_ok now r repo target base ret sig st :
  registry_ok r → repo_ok (depth r) (spool_of r repo) (head st) →
  registry_ok (enqueue now r repo target base ret sig st).1.
Proof.
  intros Hr Hst. unfold enqueue. destruct (Nat.leb_spec (depth r) (pending (head st))); [done|].
  case_match; [done|]. rewrite !spool_of_with_repo.
  destruct (rename _ _ _) as [d'|] eqn:Hren; cbn [fst]; apply registry_ok_both; try done.
  - by apply (enqueue_jobs _ _ _ _ _ _ _ _ Hst) in Hren.
  - destruct Hst as [Hp Hs Hd].
    match goal with |- repo_ok _ ?d _ => assert (jobs d ≡ₚ jobs (spool_of r repo)) as Hj end.
    { destruct sig; [|done]. apply jobs_insert_other, sig_not_job. }
    split; cbn [head pending next_seq]; [rewrite Hj; lia| |lia].
    intros j. rewrite Hj. intros Hi%Hs. lia.
Qed.

Lemma finish_upload_ok now r repo target base ret sig reserved r' res :
  registry_ok r →
  finish_upload now r repo target base ret sig reserved = Some (r', res) → registry_ok r'.
Proof.
  intros Hr. unfold finish_upload. case_match; [by intros; simplify_eq|].
  intros (v & _ & Hv)%bind_Some. destruct v as [[]|e]; [|by simplify_eq..].
  destruct (repo_state_ok now r repo Hr) as (HA & HB & _).
  destruct (repo_state now r repo) as [r1 st1]. cbn [fst snd] in *.
  pose proof (rok_repo _ HA _ _ HB) as Hst. destruct reserved.
  - pose proof (enqueue_ok now r1 repo target base ret sig st1 HA Hst) as He.
    injection Hv as Hv. rewrite Hv in He. exact He.
  - destruct (take_rate (config r1) now (rate st1)) as [w allowed].
    assert (registry_ok (with_repo r1 repo (mkRepoState (head st1) w))) as HC
      by (by apply registry_ok_repo).
    destruct allowed; cbn [negb] in Hv; [|by simplify_eq].
    pose proof (enqueue_ok now _ repo target base ret sig (mkRepoState (head st1) w) HC Hst) as He.
    injection Hv as Hv. rewrite Hv in He. exact He.
Qed.

Lemma push_complete_ok now r repo target base ret sig r' res :
  registry_ok r → push_complete now r repo target base ret sig = Some (r', res) → registry_ok r'.
Proof.
  intros Hr. unfold push_complete.
  pose proof (take_reservation_ok r repo target Hr) as HA.
  destruct (take_upload_reservation r repo target) as [r1 reserved]. cbn [fst] in HA.
  intros ([r2 res2] & Hf & Hres)%bind_Some. apply finish_upload_ok in Hf; [|done].
  case_decide; simplify_eq; [done|]. by apply abandon_upload_ok.
Qed.

Lemma push_ok now r repo target base ret sig payload r' res :
  registry_ok r → push now r repo target base ret sig payload = Some (r', res) → registry_ok r'.
Proof.
  intros Hr. unfold push. pose proof (begin_upload_ok now r repo target base Hr) as HA.
  destruct (begin_upload now r repo target base) as [r1 [[]|]]; cbn [fst] in HA;
    try (by intros; simplify_eq).
  pose proof (spool_chunk_ok now r1 repo target 0 payload HA) as HB.
  destruct (spool_chunk now r1 repo target 0 payload) as [r2 [n|e]]; cbn [fst] in HB.
  - by apply push_complete_ok.
  - intros; simplify_eq. by apply abandon_upload_ok.
Qed.

(** ** The worker *)

Lemma imap_snd {A B} (f : nat → B) (l : list A) : (imap (λ i j, (f i, j)) l).*2 = l.
Proof.
  revert f; induction l as [|x l IH]; intros f; [done|]. rewrite imap_cons. simpl. f_equal.
  apply (IH (λ i, f (S i))).
Qed.

(** Committing one queued job removes it and nothing else, and the decrement
    does not underflow. *)
Lemma worker_job_ok repo r sent now j js :
  registry_ok r → is_Some (repos r !! repo) → jobs (spool_of r repo) ≡ₚ j :: js →
  ∃ r' sent', worker_job repo (r, sent) (now, j) = Some (r', sent') ∧
    registry_ok r' ∧ is_Some (repos r' !! repo) ∧ jobs (spool_of r' repo) ≡ₚ js.
Proof.
  intros Hr [st Hst] Hj. unfold worker_job.
  destruct (commit_job _ _ _ _) as [d committed]. cbv zeta.
  change (spool_of (with_store r repo d) repo) with (spool_of r repo).
  set (sp := delete (sig_filename (job_seq j) (job_sha j) (job_retention j))
    (delete (job_path j) (spool_of r repo))).
  assert (jobs sp ≡ₚ js) as Hsp.
  { unfold sp. rewrite jobs_delete_other by apply sig_not_job.
    apply (Permutation_cons_inv (a := j)). rewrite <-Hj. symmetry. apply jobs_delete.
    rewrite Hj. set_solver. }
  cbn [with_spool with_store repos]. rewrite Hst. cbn [mbind option_bind].
  destruct (rok_repo _ Hr _ _ Hst) as [Hp Hs Hd]. rewrite Hj in Hp. simpl in Hp.
  rewrite decide_False by lia. do 2 eexists. split; [done|]. split_and!.
  - apply (registry_ok_repo (with_spool (with_store r repo d) repo sp) repo).
    + apply registry_ok_spool; [by rewrite registry_ok_store| |].
      * intros st' Hst'. cbn [with_store repos] in Hst'. simplify_eq.
        split; [rewrite Hsp; cbn; lia| |done].
        intros i. rewrite Hsp. intros Hi. apply Hs. rewrite Hj. set_solver.
      * rewrite Hsp. cbn. lia.
    + rewrite spool_of_with_spool, decide_True by done. cbn [head].
      split; cbn [pending next_seq]; [rewrite Hsp; lia| |cbn in *; lia].
      intros i. rewrite Hsp. intros Hi. apply Hs. rewrite Hj. set_solver.
  - simpl. rewrite lookup_insert_eq. eauto.
  - rewrite spool_of_with_repo, spool_of_with_spool. by rewrite decide_True.
Qed.

Lemma worker_jobs_ok repo tjs r sent :
  registry_ok r → is_Some (repos r !! repo) → jobs (spool_of r repo) ≡ₚ tjs.*2 →
  ∃ r' sent', foldlM (worker_job repo) tjs (r, sent) = Some (r', sent') ∧
    registry_ok r' ∧ jobs (spool_of r' repo) ≡ₚ [].
Proof.
  revert r sent; induction tjs as [|[now j] tjs IH]; intros r sent Hr Hst Hj; simpl in *; [eauto|].
  destruct (worker_job_ok repo r sent now j tjs.*2 Hr Hst Hj) as (r1 & s1 & Hw & H1 & H2 & H3).
  unfold worker_job in Hw. cbn [mbind option_bind]. fold (worker_job repo (r, sent) (now, j)) in Hw.
  change (∃ r' sent', worker_job repo (r, sent) (now, j) ≫= foldlM (worker_job repo) tjs
    = Some (r', sent') ∧ registry_ok r' ∧ jobs (spool_of r' repo) ≡ₚ []).
  rewrite Hw. cbn [mbind option_bind]. by apply IH.
Qed.

Lemma worker_drain_ok times r repo :
  registry_ok r → is_Some (repos r !! repo) →
  ∃ r' sent, worker_drain times r repo = Some (r', sent) ∧ registry_ok r' ∧
    leftover_jobs (spool_of r' repo) = [].
Proof.
  intros Hr Hst. unfold worker_drain.
  destruct (worker_jobs_ok repo (imap (λ i j, (times i, j)) (leftover_jobs (spool_of r repo))) r [])
    as (r' & sent & Hw & Hok & Hj); [done..| |].
  - by rewrite imap_snd, leftover_jobs_perm.
  - exists r', sent. split_and!; [done..|]. rewrite <-leftover_jobs_perm in Hj.
    by apply Permutation_nil_r in Hj.
Qed.

(** ** Every run of the registry *)

(** One operation, by a client, the worker, or a restart.  Each is taken as a whole: the
    worker does not leave the pool in the middle of a push (see
    [eviction_race_underflows]).  A completion that panics has given up the reservation. *)
Inductive step (r : Registry) : Registry → Prop :=
| step_begin now repo target base : step r (begin_upload now r repo target base).1
| step_chunk now repo target off chunk : step r (spool_chunk now r repo target off chunk).1
| step_abandon repo target : step r (abandon_upload r repo target)
| step_complete now repo target base ret sig r' res :
    push_complete now r repo target base ret sig = Some (r', res) → step r r'
| step_push now repo target base ret sig payload r' res :
    push now r repo target base ret sig payload = Some (r', res) → step r r'
| step_webhook now ok repo url : step r (set_webhook now ok r repo url).1
| step_pending now repo : step r (pending_jobs now r repo).1
| step_drain times repo r' sent :
    is_Some (repos r !! repo) → worker_drain times r repo = Some (r', sent) → step r r'
| step_evict repo : step r (worker_evict r repo)
| step_panic repo target : step r (take_upload_reservation r repo target).1
| step_restart now verifier : step r (launch now (config r) verifier (store r) (spool r)).

Lemma open_ok now cfg st sp :
  (∀ repo d, sp !! repo = Some d → length (jobs d) ≤ max_queue_depth_per_repo cfg) →
  registry_ok (open now cfg st sp).
Proof.
  intros Hsp. unfold open.
  assert (registry_ok (mkRegistry cfg None st sp ∅)) as H0'.
  { split; [done|]. intros repo. unfold spool_of. simpl. destruct (sp !! repo) as [d|] eqn:E; simpl.
    - by eapply Hsp.
    - unfold jobs. rewrite map_to_list_empty. simpl. lia. }
  revert H0'. generalize (mkRegistry cfg None st sp ∅). induction (map_to_list sp).*1 as [|repo l IH];
    intros r Hr; [done|]. simpl. apply IH. by apply repo_state_ok.
Qed.

Lemma launch_ok now cfg v st sp :
  (∀ repo d, sp !! repo = Some d → length (jobs d) ≤ max_queue_depth_per_repo cfg) →
  registry_ok (launch now cfg v st sp).
Proof. intros Hsp. pose proof (open_ok now cfg st sp Hsp) as [H1 H2]. unfold launch. destruct v; by split. Qed.

Lemma worker_evict_ok r repo : registry_ok r → registry_ok (worker_evict r repo).
Proof.
  intros [H1 H2]. unfold worker_evict. destruct (leftover_jobs _); [|by split]. split; [|done].
  intros repo' st Hst. cbn [repos] in Hst. apply lookup_delete_Some in Hst as [_ Hst]. by apply (H1 repo').
Qed.

Lemma step_ok r r' : registry_ok r → step r r' → registry_ok r'.
Proof.
  intros Hr Hs. inversion Hs; subst;
    eauto using begin_upload_ok, spool_chunk_ok, abandon_upload_ok, push_complete_ok, push_ok, worker_evict_ok, take_reservation_ok.
  - unfold set_webhook. repeat case_match; cbn [fst]; rewrite ?registry_ok_store; done.
  - unfold pending_jobs. destruct (repo_state_ok now r repo Hr) as [HA _].
    by destruct (repo_state now r repo).
  - destruct (worker_drain_ok times r repo Hr) as (r1 & s1 & Hw & Hok & _); [done|]. congruence.
  - apply launch_ok. intros repo d Hd. pose proof (rok_spool _ Hr repo) as Hl. unfold spool_of in Hl.
    by rewrite Hd in Hl.
Qed.

Lemma steps_ok r r' : registry_ok r → rtc step r r' → registry_ok r'.
Proof. induction 2; eauto using step_ok. Qed.
End proofs.

(** C2: From a launch, with any verifier or none, on a data directory within the
    watermark, over every sequence of whole client operations, worker rounds, idle
    workers that leave the pool, completions that panic, and restarts: for a live
    repository the number of pending pushes covers the queued jobs and stays within
    [max_queue_depth_per_repo]; so a worker round never underflows the counter and
    leaves the queue empty; and a repository that left the pool is recovered by its
    next use with exactly its queued jobs pending.  A push that is under way while
    the worker leaves is not such a sequence, and can underflow the counter
    ([eviction_race_underflows]). *)
Theorem registry_queue_safe `{ReadDirLaws} now cfg verifier st sp r repo times
    (Hinit : ∀ repo d, sp !! repo = Some d → length (leftover_jobs d) ≤ max_queue_depth_per_repo cfg)
    (Hrun : rtc step (launch now cfg verifier st sp) r) :
  (∀ rs, repos r !! repo = Some rs →
     length (leftover_jobs (spool_of r repo)) ≤ pending (head rs) ≤ max_queue_depth_per_repo (config r) ∧
     ∃ r' sent, worker_drain times r repo = Some (r', sent) ∧ leftover_jobs (spool_of r' repo) = []) ∧
  (repos r !! repo = None → ∀ now',
     pending (head (repo_state now' r repo).2) = length (leftover_jobs (spool_of r repo)) ∧
     pending (head (repo_state now' r repo).2) ≤ max_queue_depth_per_repo (config r)).
Proof.
  assert (registry_ok r) as Hok.
  { eapply steps_ok; [|done]. apply launch_ok. intros repo' d Hd. rewrite <-leftover_jobs_perm. eauto. }
  split.
  - intros rs Hrs. destruct (rok_repo _ Hok _ _ Hrs) as [? _ ?]. split; [by rewrite leftover_jobs_perm|].
    destruct (worker_drain_ok times r repo Hok) as (r' & sent & ? & _ & ?); eauto.
  - intros Hnone now'. destruct (repo_state_ok now' r repo Hok) as (HA & HB & Hsp & _ & Hcfg & _).
    destruct (rok_repo _ HA _ _ HB) as [_ _ Hd]. rewrite Hcfg in Hd. split; [|done].
    unfold repo_state in *. rewrite Hnone. cbn [snd head pending].
    by rewrite spool_of_with_spool, decide_True by done.
Qed.

(** A registry that accepted one push, not yet committed. *)
Definition ex_config : RegistryConfig := mkRegConfig 2 10 100.
Definition ex_pushed : Registry :=
  match push 1 (open 0 ex_config ∅ ∅) "repo" "sha1" None 2 (Some "ab") "payload" with
  | Some (r, _) => r
  | None => open 0 ex_config ∅ ∅
  end.

Lemma registry_queue_safe_witness :
  ∃ r' sent, worker_drain (λ i, N.of_nat i + 2)%N ex_pushed "repo" = Some (r', sent) ∧
    leftover_jobs (spool_of r' "repo") = [] ∧ pull r' "repo" "latest" = Found "payload" (Some "ab").
Proof.
  destruct (registry_queue_safe 0 ex_config None ∅ ∅ ex_pushed "repo" (λ i, N.of_nat i + 2)%N)
    as [Hlive _].
  - intros repo d Hd. by rewrite lookup_empty in Hd.
  - apply rtc_once. eapply (step_push _ 1 "repo" "sha1" None 2 (Some "ab") "payload").
    vm_compute. reflexivity.
  - destruct (repos ex_pushed !! "repo") as [rs|] eqn:Hrs; [|vm_compute in Hrs; discriminate].
    destruct (Hlive rs eq_refl) as (_ & r' & sent & Hd & Hl). exists r', sent.
    split; [exact Hd|]. split; [exact Hl|]. clear Hl Hlive Hrs. vm_compute in Hd. injection Hd as <- _. vm_compute. reflexivity.
Defined.

(** A push that fetched the state of an idle repository before its worker left the pool
    counts on that state; when another request has made a new state in between, the job
    is drained by a worker whose counter does not hold it, and the decrement underflows. *)
Example eviction_race_underflows :
  let drained := match worker_drain (λ i, N.of_nat i + 2)%N ex_pushed "repo" with Some (r, _) => r | None => ex_pushed end in
  let uploaded := (spool_chunk 400 drained "repo" "sha2" 0 "next").1 in
  let held := (repo_state 400 uploaded "repo").2 in
  let recreated := (repo_state 401 (worker_evict uploaded "repo") "repo").1 in
  let pushed := enqueue 402 recreated "repo" "sha2" (Some "sha1") 1 None held in
  pushed.2 = Ok Accepted ∧
  (if worker_drain (λ i, 500)%N (with_spool recreated "repo" (spool_of pushed.1 "repo")) "repo" then false else true) = true.
Proof. split; vm_compute; reflexivity. Qed.

(** ** The accept decision *)

Definition same_head (h h' : RepoHead) : Prop :=
  sha h' = sha h ∧ next_seq h' = next_seq h ∧ pending h' = pending h.

(** What [enqueue] does on each of its branches. *)
Definition enqueue_post (now : N) (r : Registry) (repo target : string) (base : option string)
    (ret : N) (sig : option string) (st : RepoState) (r' : Registry)
    (res : result PushDecision IoError) : Prop :=
  match res with
  | Ok Accepted =>
      pending (head st) < max_queue_depth_per_repo (config r) ∧
      (base = None ∨ sha (head st) = None ∨ base = sha (head st)) ∧
      repos r' !! repo = Some (mkRepoState
        (mkHead (Some target) (next_seq (head st) + 1) (pending (head st) + 1) (uploads (head st)))
        (rate st)) ∧
      ∃ f, spool_of r repo !! upload_path target = Some f ∧
           spool_of r' repo !! job_filename (next_seq (head st)) target ret = Some f ∧
           spool_of r' repo = <[job_filename (next_seq (head st)) target ret := f]>
             (delete (upload_path target)
                (match sig with
                 | Some s => <[sig_filename (next_seq (head st)) target ret := mkFile s now]>
                               (spool_of r repo)
                 | None => spool_of r repo
                 end)) ∧
           store_of r' repo = store_of r repo
  | Ok Conflict => r' = r ∧ ∃ b h, base = Some b ∧ sha (head st) = Some h ∧ b ≠ h
  | Ok (RateLimited n) => r' = r ∧ n = 5%N ∧ max_queue_depth_per_repo (config r) ≤ pending (head st)
  | Ok SignatureInvalid => False
  | Err e => e = MissingFile ∧ spool_of r repo !! upload_path target = None
  end.

Lemma base_conflicts_true base h :
  base_conflicts base h = true ↔ ∃ b s, base = Some b ∧ sha h = Some s ∧ b ≠ s.
Proof.
  unfold base_conflicts. destruct base as [b|], (sha h) as [s|]; try naive_solver.
  rewrite negb_true_iff, bool_decide_eq_false. naive_solver.
Qed.

Lemma base_conflicts_false base h :
  base_conflicts base h = false ↔ base = None ∨ sha h = None ∨ base = sha h.
Proof.
  unfold base_conflicts. destruct base as [b|], (sha h) as [s|]; try naive_solver.
  rewrite negb_false_iff, bool_decide_eq_true. naive_solver.
Qed.

Lemma names_differ_4 a b p q :
  String.length p = 4 → String.length q = 4 → p ≠ q → a +:+ p ≠ b +:+ q.
Proof. intros Hp Hq Hne Heq. apply Hne. apply (suffix_clash a b); congruence. Qed.

Lemma job_ne_sig seq s ret seq' s' ret' : job_filename seq s ret ≠ sig_filename seq' s' ret'.
Proof.
  unfold job_filename, sig_filename. change ".tar.zst" with (".tar" +:+ ".zst").
  rewrite <-append_assoc. by apply names_differ_4.
Qed.

Lemma upload_ne_sig s seq' s' ret' : upload_path s ≠ sig_filename seq' s' ret'.
Proof. unfold upload_path, sig_filename. by apply names_differ_4. Qed.

Lemma enqueue_spec now r repo target base ret sig st r' res :
  enqueue now r repo target base ret sig st = (r', res) →
  enqueue_post now r repo target base ret sig st r' res ∧
  ∀ repo', repo' ≠ repo → repos r' !! repo' = repos r !! repo' ∧ spool_of r' repo' = spool_of r repo'.
Proof.
  unfold enqueue. destruct (Nat.leb_spec (max_queue_depth_per_repo (config r)) (pending (head st))).
  { intros; simplify_eq. done. }
  destruct (base_conflicts base (head st)) eqn:Hb.
  { intros; simplify_eq. split; [|done]. split; [done|]. apply base_conflicts_true in Hb. naive_solver. }
  apply base_conflicts_false in Hb. cbv zeta.
  change (spool_of (with_repo r repo _) repo) with (spool_of r repo).
  set (d1 := match sig with Some _ => _ | None => _ end).
  assert (d1 !! upload_path target = spool_of r repo !! upload_path target) as Hup.
  { unfold d1. destruct sig; [|done]. rewrite lookup_insert_ne; [done|].
    intros Heq. symmetry in Heq. by apply upload_ne_sig in Heq. }
  unfold rename. destruct (d1 !! upload_path target) as [f|] eqn:Hf; cbn [mbind option_bind];
    intros; simplify_eq; (split; [|intros repo' Hne; simpl; rewrite lookup_insert_ne,
      spool_of_with_spool, decide_False by done; done]).
  - split_and!; [done..|simpl; by rewrite lookup_insert_eq|].
    exists f. rewrite <-Hup, spool_of_with_spool, decide_True by done.
    split_and!; [done|by rewrite lookup_insert_eq|done|done].
  - done.
Qed.

(** What [finish_upload] does to a repository with state [rs]. *)
Definition finish_post (now : N) (r : Registry) (repo target : string) (base : option string)
    (ret : N) (sig : option string) (rs : RepoState) (r' : Registry)
    (res : result PushDecision IoError) : Prop :=
  match res with
  | Ok Accepted => ∃ w, enqueue_post now (with_repo r repo (mkRepoState (head rs) w)) repo target
                          base ret sig (mkRepoState (head rs) w) r' res
  | Ok _ => ∃ rs', repos r' !! repo = Some rs' ∧ same_head (head rs) (head rs')
  | Err _ => True
  end.

Lemma enqueue_finish now r repo target base ret sig rs w r' res :
  enqueue now (with_repo r repo (mkRepoState (head rs) w)) repo target base ret sig
    (mkRepoState (head rs) w) = (r', res) →
  finish_post now r repo target base ret sig rs r' res ∧
  ∀ repo', repo' ≠ repo → repos r' !! repo' = repos r !! repo' ∧ spool_of r' repo' = spool_of r repo'.
Proof.
  intros He. apply enqueue_spec in He as [Hp Ho]. split.
  - unfold finish_post. destruct res as [[]|]; [eauto| | |done|done];
      destruct Hp as [-> _]; eexists; (split; [simpl; by rewrite lookup_insert_eq|done]).
  - intros repo' Hne. destruct (Ho repo' Hne) as [-> ->]. simpl. by rewrite !lookup_insert_ne.
Qed.

Lemma finish_upload_spec `{ReadDir} now r repo target base ret sig reserved rs r' res :
  repos r !! repo = Some rs →
  finish_upload now r repo target base ret sig reserved = Some (r', res) →
  finish_post now r repo target base ret sig rs r' res ∧
  ∀ repo', repo' ≠ repo → repos r' !! repo' = repos r !! repo' ∧ spool_of r' repo' = spool_of r repo'.
Proof.
  intros Hrs Hfin. unfold finish_upload in Hfin. destruct (negb _ || negb _).
  { injection Hfin as <- <-. done. }
  apply bind_Some in Hfin as (v & _ & Hv).
  destruct v as [[]|e]; [|injection Hv as <- <-; (split; [try done; by exists rs|done])..].
  unfold repo_state in Hv. rewrite Hrs in Hv. cbv iota beta in Hv. destruct reserved.
  - injection Hv as Hv. apply (enqueue_finish _ _ _ _ _ _ _ _ (rate rs)). rewrite <-Hv.
    assert (with_repo r repo (mkRepoState (head rs) (rate rs)) = r) as ->.
    { destruct r, rs. unfold with_repo. simpl in *. by rewrite insert_id. }
    by destruct rs.
  - destruct (take_rate _ now _) as [w []]; cbn [negb] in Hv.
    + injection Hv as Hv. by apply enqueue_finish in Hv.
    + injection Hv as <- <-. split.
      * eexists. split; [simpl; by rewrite lookup_insert_eq|done].
      * intros repo' Hne. simpl. by rewrite lookup_insert_ne.
Qed.

Lemma abandon_upload_other r repo target repo' :
  repo' ≠ repo →
  repos (abandon_upload r repo target) !! repo' = repos r !! repo' ∧
  spool_of (abandon_upload r repo target) repo' = spool_of r repo'.
Proof.
  intros Hne. unfold abandon_upload. destruct (negb _ || negb _); [done|].
  rewrite spool_of_with_spool, decide_False by done. simpl.
  destruct (repos r !! repo); simpl; by rewrite ?lookup_insert_ne.
Qed.

Lemma abandon_upload_head r repo target rs h :
  repos r !! repo = Some rs → same_head h (head rs) →
  ∃ rs', repos (abandon_upload r repo target) !! repo = Some rs' ∧ same_head h (head rs').
Proof.
  intros Hrs Hh. unfold abandon_upload. destruct (negb _ || negb _); [eauto|].
  simpl. rewrite Hrs. simpl. rewrite lookup_insert_eq. eauto.
Qed.

(** C3: an accepted push never loses an update: [push_complete] answers
    [Accepted] only when the caller's base is the current head (or no base or
    no head is set) and the queue has room; the head then moves to the pushed
    sha, and the uploaded file becomes the next job.  Any other decision leaves
    the head, the sequence and the pending count as they were.  Other
    repositories are never touched. *)
Theorem push_complete_no_lost_update `{ReadDir} now r repo target base ret sig r' res rs
    (Hlive : repos r !! repo = Some rs)
    (Hcall : push_complete now r repo target base ret sig = Some (r', res)) :
  match res with
  | Ok Accepted =>
      (base = None ∨ sha (head rs) = None ∨ base = sha (head rs)) ∧
      pending (head rs) < max_queue_depth_per_repo (config r) ∧
      ∃ rs' f, repos r' !! repo = Some rs' ∧ sha (head rs') = Some target ∧
        next_seq (head rs') = (next_seq (head rs) + 1)%N ∧ pending (head rs') = pending (head rs) + 1 ∧
        spool_of r repo !! upload_path target = Some f ∧
        spool_of r' repo !! job_filename (next_seq (head rs)) target ret = Some f
  | Ok _ => ∃ rs', repos r' !! repo = Some rs' ∧ same_head (head rs) (head rs')
  | Err _ => True
  end ∧
  ∀ repo', repo' ≠ repo → repos r' !! repo' = repos r !! repo' ∧ spool_of r' repo' = spool_of r repo'.
Proof.
  unfold push_complete, take_upload_reservation in Hcall. rewrite Hlive in Hcall.
  cbv iota beta zeta in Hcall. apply bind_Some in Hcall as ([r2 res2] & Hfin & Hres).
  eapply finish_upload_spec in Hfin as [Hpost Hoth]; [|simpl; by rewrite lookup_insert_eq].
  assert (∀ repo', repo' ≠ repo → repos r2 !! repo' = repos r !! repo' ∧
    spool_of r2 repo' = spool_of r repo') as Hother.
  { intros repo' Hne. destruct (Hoth repo' Hne) as [-> ->]. simpl. by rewrite lookup_insert_ne. }
  case_decide as Hacc; simplify_eq.
  - split; [|done]. destruct Hpost as (w & Hp & Hb & Hr2 & f & Hf & Hjob & _).
    split_and!; [done..|]. eexists _, f. split_and!; done.
  - split.
    + destruct res as [[]|]; try done; destruct Hpost as (rs' & Hrs' & Hh);
        by eapply abandon_upload_head.
    + intros repo' Hne. destruct (abandon_upload_other r2 repo target repo' Hne) as [-> ->]. auto.
Qed.

(** A registry whose upload of [sha2] is complete and reserved. *)
Definition ex_uploaded : Registry :=
  (spool_chunk 3 (begin_upload 3 ex_pushed "repo" "sha2" (Some "sha1")).1 "repo" "sha2" 0 "next").1.

Definition completed (x : option (Registry * result PushDecision IoError)) : Registry :=
  match x with Some (r, _) => r | None => ex_uploaded end.

Lemma push_complete_no_lost_update_witness :
  let r' := completed (push_complete 4 ex_uploaded "repo" "sha2" (Some "sha1") 2 None) in
  push_complete 4 ex_uploaded "repo" "sha2" (Some "sha1") 2 None = Some (r', Ok Accepted) ∧
    ∃ rs', repos r' !! "repo" = Some rs' ∧ sha (head rs') = Some "sha2".
Proof.
  intros r'. split; [vm_compute; reflexivity|].
  destruct (repos ex_uploaded !! "repo") as [rs|] eqn:Hrs; [|vm_compute in Hrs; done].
  destruct (push_complete_no_lost_update 4 ex_uploaded "repo" "sha2" (Some "sha1") 2 None
    r' (Ok Accepted) rs Hrs) as [(_ & _ & rs' & f & Hrs' & Hs & _) _]; [vm_compute; reflexivity|].
  exists rs'. split; [exact Hrs'|exact Hs].
Defined.

(** When a verifier is configured, an accepted push was signed: its
    signature header decodes, the verifier accepts the decoded bytes for this
    repository, sha and the very file that enters the queue. *)
Theorem accepted_push_is_verified `{ReadDir} now r repo target base ret sig r' rs verify
    (Hlive : repos r !! repo = Some rs) (Hverifier : provenance_verifier r = Some verify)
    (Hcall : push_complete now r repo target base ret sig = Some (r', Ok Accepted)) :
  ∃ s bytes f, sig = Some s ∧ decode_hex s = Some (Some bytes) ∧
    spool_of r' repo !! job_filename (next_seq (head rs)) target ret = Some f ∧
    verify repo target (content f) bytes = true.
Proof.
  unfold push_complete, take_upload_reservation in Hcall. rewrite Hlive in Hcall.
  cbv iota beta zeta in Hcall. apply bind_Some in Hcall as ([r2 res2] & Hfin & Hres).
  case_decide; [|by simplify_eq]. simplify_eq. pose proof Hfin as Hfin'.
  eapply finish_upload_spec in Hfin' as [(w & _ & _ & _ & f & Hf & Hjob & _) _];
    [|simpl; by rewrite lookup_insert_eq].
  unfold finish_upload in Hfin. destruct (negb _ || negb _); [done|].
  apply bind_Some in Hfin as (v & Hv & Hfin). destruct v as [[]|]; [|done..].
  unfold check_signature in Hv. cbn [with_repo provenance_verifier] in Hv. rewrite Hverifier in Hv.
  change (spool_of r repo !! upload_path target = Some f) in Hf.
  change (match spool_of r repo !! upload_path target with
    | None => Some (Err MissingFile)
    | Some f => match sig with
      | None => Some (Ok false)
      | Some s => bytes ← decode_hex s;
          Some (Ok (match bytes with Some b => verify repo target (content f) b | None => false end))
      end end = Some (Ok true)) in Hv.
  rewrite Hf in Hv. destruct sig as [s|]; [|done].
  apply bind_Some in Hv as ([bytes|] & Hd & Hv); [|done]. simplify_eq.
  exists s, bytes, f. split_and!; [done..|congruence].
Qed.

(** The same registry behind a verifier that wants the one-byte signature 7. *)
Definition ex_verified : Registry :=
  mkRegistry ex_config (Some (λ _ _ _ sig, bool_decide (sig = [7%N])))
    (store ex_uploaded) (spool ex_uploaded) (repos ex_uploaded).

Lemma accepted_push_is_verified_witness :
  let r' := completed (push_complete 4 ex_verified "repo" "sha2" (Some "sha1") 2 (Some "07")) in
  ∃ rs bytes f, push_complete 4 ex_verified "repo" "sha2" (Some "sha1") 2 (Some "07") = Some (r', Ok Accepted) ∧
    decode_hex "07" = Some (Some bytes) ∧
    spool_of r' "repo" !! job_filename (next_seq (head rs)) "sha2" 2 = Some f ∧
    bool_decide (bytes = [7%N]) = true.
Proof.
  intros r'.
  destruct (repos ex_verified !! "repo") as [rs|] eqn:Hrs; [|vm_compute in Hrs; done].
  destruct (accepted_push_is_verified 4 ex_verified "repo" "sha2" (Some "sha1") 2 (Some "07") r' rs
    _ Hrs eq_refl) as (s & bytes & f & H1 & H2 & H3 & H4); [vm_compute; reflexivity|].
  injection H1 as <-. exists rs, bytes, f.
  split_and!; [vm_compute; reflexivity|exact H2|exact H3|exact H4].
Defined.
