(* ===== verification/RegistryPull.v ===== *)
(** * From upload to pull

    Resumable uploads, the commit of a queued job, retention, and the round
    trip of a snapshot; then what a restart forgets. *)

From S2P Require Import Prelude Str Spool Registry RegistryProofs.

(** ** Chunked uploads *)

(** A client sending its chunks one after the other, each at the offset the
    last answer gave. *)
Fixpoint upload_chunks (now : N) (r : Registry) (repo target : string) (off : N)
    (chunks : list string) : Registry * result N IoError :=
  match chunks with
  | [] => (r, Ok off)
  | c :: cs =>
      match spool_chunk now r repo target off c with
      | (r, Ok off) => upload_chunks now r repo target off cs
      | (r, Err e) => (r, Err e)
      end
  end.

Definition concat_str (l : list string) : string := foldr String.append "" l.

Lemma spool_chunk_next now r repo target p c :
  is_safe_path_component repo = true → is_safe_path_component target = true →
  (p = "" ∨ content <$> spool_of r repo !! upload_path target = Some p) →
  (N.of_nat (String.length (p +:+ c)) ≤ max_snapshot_bytes (config r))%N →
  (max_snapshot_bytes (config r) < u64_modulus)%N →
  spool_chunk now r repo target (N.of_nat (String.length p)) c =
  (with_spool r repo (<[upload_path target := mkFile (p +:+ c) now]> (spool_of r repo)),
   Ok (N.of_nat (String.length (p +:+ c)))).
Proof.
  intros Hr Ht Hp Hmax Hu. unfold spool_chunk. rewrite Hr, Ht. simpl.
  rewrite length_append in *. rewrite Nat2N.inj_add in *.
  assert ((if (N.of_nat (String.length p) =? 0)%N then "" else
    match spool_of r repo !! upload_path target with Some f => content f | None => "" end) = p) as ->.
  { destruct Hp as [->|Hp]; [done|]. destruct (_ !! _); simplify_eq/=.
    destruct (N.eqb_spec (N.of_nat (String.length (content f))) 0); [|done].
    destruct (content f); [done|]. simpl in *. lia. }
  destruct (_ && _) eqn:E.
  { apply andb_true_iff in E as [E1 E2]. rewrite negb_true_iff, N.eqb_neq in E1, E2.
    destruct Hp as [->|Hp]; [done|]. destruct (_ !! _); simplify_eq/=. }
  destruct (N.leb_spec u64_modulus (N.of_nat (String.length p) + N.of_nat (String.length c))); [lia|].
  destruct (N.ltb_spec (max_snapshot_bytes (config r))
    (N.of_nat (String.length p) + N.of_nat (String.length c))); [lia|].
  do 2 f_equal. by rewrite length_append, Nat2N.inj_add.
Qed.

Lemma upload_chunks_spec now r repo target p chunks :
  is_safe_path_component repo = true → is_safe_path_component target = true →
  (chunks = [] → content <$> spool_of r repo !! upload_path target = Some p) →
  (p = "" ∨ content <$> spool_of r repo !! upload_path target = Some p) →
  (N.of_nat (String.length (p +:+ concat_str chunks)) ≤ max_snapshot_bytes (config r))%N →
  (max_snapshot_bytes (config r) < u64_modulus)%N →
  ∃ r', upload_chunks now r repo target (N.of_nat (String.length p)) chunks =
      (r', Ok (N.of_nat (String.length (p +:+ concat_str chunks)))) ∧
    content <$> spool_of r' repo !! upload_path target = Some (p +:+ concat_str chunks) ∧
    repos r' = repos r ∧ config r' = config r.
Proof.
  intros Hr Ht. revert r p; induction chunks as [|c cs IH]; intros r p Hne Hp Hmax Hu; simpl in *.
  { exists r. rewrite append_nil_r. auto. }
  rewrite <-append_assoc in *.
  rewrite spool_chunk_next; [|done..|rewrite !length_append in *; lia|done].
  set (r1 := with_spool r repo (<[upload_path target := mkFile (p +:+ c) now]> (spool_of r repo))).
  assert (content <$> spool_of r1 repo !! upload_path target = Some (p +:+ c)) as Hr1.
  { unfold r1. rewrite spool_of_with_spool, decide_True by done. by rewrite lookup_insert_eq. }
  destruct (IH r1 (p +:+ c)) as (r' & Hup & Hc & Hrep & Hcfg); auto.
  exists r'. auto.
Qed.

(** A snapshot sent in any chunking is reassembled byte for byte: starting
    at offset 0 and resuming at each returned offset, every chunk is accepted
    as long as the total fits [max_snapshot_bytes], and the spooled upload is
    the concatenation of the chunks. *)
Theorem chunked_upload_reassembles now r repo target chunks
    (Hrepo : is_safe_path_component repo = true) (Htarget : is_safe_path_component target = true)
    (Hsome : chunks ≠ [])
    (Hfits : (N.of_nat (String.length (concat_str chunks)) ≤ max_snapshot_bytes (config r))%N)
    (Hu64 : (max_snapshot_bytes (config r) < u64_modulus)%N) :
  ∃ r', upload_chunks now r repo target 0 chunks =
      (r', Ok (N.of_nat (String.length (concat_str chunks)))) ∧
    content <$> spool_of r' repo !! upload_path target = Some (concat_str chunks) ∧
    get_spool_offset r' repo target = N.of_nat (String.length (concat_str chunks)).
Proof.
  destruct (upload_chunks_spec now r repo target "" chunks) as (r' & Hup & Hc & _); auto; [done|].
  exists r'. split_and!; [done..|]. unfold get_spool_offset. rewrite Hrepo, Htarget. simpl.
  destruct (spool_of r' repo !! _) as [f|]; simpl in Hc; [|done]. injection Hc as ->. done.
Qed.

Lemma chunked_upload_reassembles_witness :
  ∃ r', upload_chunks 5 ex_pushed "repo" "sha9" 0 ["ab"; ""; "cd"] = (r', Ok 4%N) ∧
    content <$> spool_of r' "repo" !! "sha9.tmp" = Some "abcd".
Proof.
  destruct (chunked_upload_reassembles 5 ex_pushed "repo" "sha9" ["ab"; ""; "cd"])
    as (r' & Hup & Hc & _); [reflexivity|reflexivity|done|vm_compute; discriminate|vm_compute; reflexivity|].
  exists r'. split; [exact Hup|exact Hc].
Defined.

(** No chunk takes an upload past the byte limit, and a rejected chunk
    changes nothing: when [spool_chunk] answers with a length, it is the length
    of the spooled file, the chunk is its end, and it is within
    [max_snapshot_bytes]; an error leaves the registry as it was. *)
Theorem spool_chunk_bounded now r repo target off chunk :
  match spool_chunk now r repo target off chunk with
  | (r', Ok len) =>
      (len ≤ max_snapshot_bytes (config r))%N ∧ len = (off + N.of_nat (String.length chunk))%N ∧
      ∃ f p, spool_of r' repo !! upload_path target = Some f ∧ content f = p +:+ chunk ∧
             len = N.of_nat (String.length (content f)) ∧
             (off = 0%N ∨ content <$> spool_of r repo !! upload_path target = Some p ∨ p = "")
  | (r', Err _) => r' = r
  end.
Proof.
  unfold spool_chunk. destruct (negb _ || negb _); [done|]. cbv zeta.
  destruct (negb _ && negb _) eqn:E; [done|].
  destruct (N.leb_spec u64_modulus (off + N.of_nat (String.length chunk))); [done|].
  destruct (N.ltb_spec (max_snapshot_bytes (config r)) (off + N.of_nat (String.length chunk))); [done|].
  assert (N.of_nat (String.length ((if (off =? 0)%N then "" else
    match spool_of r repo !! upload_path target with Some f => content f | None => "" end) +:+ chunk))
    = (off + N.of_nat (String.length chunk))%N) as Hlen.
  { rewrite length_append, Nat2N.inj_add. f_equal.
    destruct (N.eqb_spec off 0) as [->|Hne]; [done|].
    simpl in E. by apply negb_false_iff, N.eqb_eq in E. }
  rewrite Hlen. split_and!; [done..|].
  eexists _, _. rewrite spool_of_with_spool, decide_True by done. rewrite lookup_insert_eq.
  split_and!; [done|done|by rewrite <-Hlen|].
  destruct (N.eqb_spec off 0); [auto|]. destruct (_ !! _); simpl; auto.
Qed.

(** ** Retention *)

Section retention.
Context `{ReadDirLaws}.

Definition is_blob (d : dir) (name : string) : Prop :=
  is_Some (d !! name) ∧ extension name = Some "zst".

Lemma blobs_perm d :
  blobs_oldest_first d ≡ₚ
  (λ e : string * file, (mtime e.2, e.1)) <$> filter (λ e, extension e.1 = Some "zst") (map_to_list d).
Proof. unfold blobs_oldest_first. by rewrite sort_by_perm, read_dir_perm. Qed.

Lemma elem_of_blobs d t name :
  (t, name) ∈ blobs_oldest_first d ↔
  ∃ f, d !! name = Some f ∧ mtime f = t ∧ extension name = Some "zst".
Proof.
  rewrite blobs_perm, list_elem_of_fmap. split.
  - intros ([k f] & ? & [Hext Hin]%list_elem_of_filter). simplify_eq/=.
    apply elem_of_map_to_list in Hin. eauto.
  - intros (f & Hf & <- & Hext). exists (name, f). split; [done|].
    apply list_elem_of_filter. by rewrite elem_of_map_to_list.
Qed.

Lemma NoDup_blobs d : NoDup (blobs_oldest_first d).*2.
Proof.
  rewrite blobs_perm, <-list_fmap_compose.
  assert (∀ l : list (string * file), NoDup l.*1 →
    NoDup ((snd ∘ (λ e : string * file, (mtime e.2, e.1))) <$> filter (λ e, extension e.1 = Some "zst") l)) as Hgen.
  { induction l as [|[k f] l IH]; intros Hnd; [constructor|]. rewrite fmap_cons in Hnd.
    apply NoDup_cons in Hnd as [Hk Hnd]. rewrite filter_cons. case_decide; [|auto].
    rewrite fmap_cons. constructor; [|auto].
    intros ([k' f'] & Heq & [_ Hin]%list_elem_of_filter)%list_elem_of_fmap. simpl in *. subst.
    apply Hk, list_elem_of_fmap. by exists (k', f'). }
  apply Hgen, NoDup_fst_map_to_list.
Qed.

Lemma blobs_sorted d :
  StronglySorted (λ a b, blob_leb a b = true) (blobs_oldest_first d).
Proof. apply sort_by_sorted. unfold blob_leb. apply _. Qed.

Lemma lookup_delete_fold (bs : list (N * string)) (d : dir) name :
  foldl (λ d b, delete (sidecar b.2) (delete b.2 d)) d bs !! name =
  if decide (name ∈ bs.*2 ∨ name ∈ sidecar <$> bs.*2) then None else d !! name.
Proof.
  revert d; induction bs as [|[t b] bs IH]; intros d.
  - cbn [foldl]. rewrite decide_False by set_solver. done.
  - cbn [foldl fmap list_fmap snd]. rewrite IH. repeat case_decide; try done.
    + exfalso. set_solver.
    + destruct (decide (sidecar b = name)) as [->|]; [by rewrite lookup_delete_eq|].
      rewrite lookup_delete_ne by done.
      destruct (decide (b = name)) as [->|]; [by rewrite lookup_delete_eq|]. exfalso. set_solver.
    + rewrite !lookup_delete_ne by set_solver. done.
Qed.

Definition evicted (d : dir) (retention : N) : list (N * string) :=
  take (length (blobs_oldest_first d) - N.to_nat retention) (blobs_oldest_first d).

Lemma prune_lookup d retention name :
  prune_retention d retention !! name =
  if decide (name ∈ (evicted d retention).*2 ∨ name ∈ sidecar <$> (evicted d retention).*2)
  then None else d !! name.
Proof.
  unfold prune_retention, evicted.
  destruct (N.ltb_spec retention (N.of_nat (length (blobs_oldest_first d)))) as [Hlt|Hge].
  - apply lookup_delete_fold.
  - replace (length (blobs_oldest_first d) - N.to_nat retention) with 0 by lia.
    rewrite take_0. rewrite decide_False by set_solver. done.
Qed.

Lemma rsplit_dot l r :
  str_all (λ a, negb (bool_decide (a = "."%char))) r = true →
  rsplit_once (l +:+ "." +:+ r) "." = Some (l, r).
Proof. apply rsplit_once_char. Qed.

Lemma file_stem_dot l r :
  l ≠ "" → str_all (λ a, negb (bool_decide (a = "."%char))) r = true →
  file_stem (l +:+ "." +:+ r) = l.
Proof. intros Hl Hr. unfold file_stem. rewrite rsplit_dot by done. by destruct l. Qed.

Lemma extension_dot l r :
  l ≠ "" → str_all (λ a, negb (bool_decide (a = "."%char))) r = true →
  extension (l +:+ "." +:+ r) = Some r.
Proof. intros Hl Hr. unfold extension. rewrite rsplit_dot by done. by destruct l. Qed.

Definition blob_name (s : string) : string := s +:+ ".tar.zst".

Lemma blob_name_alt s : blob_name s = (s +:+ ".tar") +:+ ".zst".
Proof. unfold blob_name. by rewrite append_assoc. Qed.

Lemma append_nonempty a b : b ≠ "" → a +:+ b ≠ "".
Proof. by destruct a. Qed.

Lemma extension_blob s : extension (blob_name s) = Some "zst".
Proof. rewrite blob_name_alt. apply (extension_dot (s +:+ ".tar") "zst"); [by apply append_nonempty|done]. Qed.

Lemma sidecar_blob s : s ≠ "" → sidecar (blob_name s) = s +:+ ".sig".
Proof.
  intros Hs. unfold sidecar. rewrite blob_name_alt.
  pose proof (file_stem_dot (s +:+ ".tar") "zst") as E1.
  pose proof (file_stem_dot s "tar" Hs eq_refl) as E2. simpl in E1, E2.
  rewrite E1 by (done || by apply append_nonempty). by rewrite E2.
Qed.

(** A blob newer than every other is never evicted by a positive retention. *)
Lemma newest_kept d retention name f :
  d !! name = Some f → extension name = Some "zst" → (1 ≤ retention)%N →
  (∀ n g, d !! n = Some g → extension n = Some "zst" → n ≠ name → (mtime g < mtime f)%N) →
  name ∉ (evicted d retention).*2.
Proof.
  intros Hf Hext Hret Hnew ([t n] & -> & Hin)%list_elem_of_fmap. simpl in *.
  pose proof (NoDup_blobs d) as Hnd. pose proof (blobs_sorted d) as Hs. unfold evicted in Hin.
  set (bs := blobs_oldest_first d) in *. set (k := length bs - N.to_nat retention) in *.
  assert ((t, n) ∈ bs) as Hbs by by apply subseteq_take in Hin.
  pose proof Hbs as (f' & Hf' & <- & _)%elem_of_blobs. simplify_eq.
  destruct (drop k bs) as [|[t' n'] l] eqn:Hd.
  { apply (f_equal length) in Hd. rewrite length_drop in Hd. simpl in Hd.
    unfold k in Hd. assert (length bs ≠ 0) by (destruct bs; [set_solver|done]). lia. }
  assert ((t', n') ∈ drop k bs) as Hin' by (rewrite Hd; set_solver).
  assert ((t', n') ∈ bs) as Hbs' by by apply subseteq_drop in Hin'.
  apply elem_of_blobs in Hbs' as (g & Hg & <- & Hext').
  rewrite <-(take_drop k bs) in Hnd, Hs. rewrite fmap_app in Hnd.
  apply NoDup_app in Hnd as (_ & Hdis & _).
  assert (n' ≠ n) as Hne.
  { intros ->. apply (Hdis n); apply list_elem_of_fmap; [by exists (mtime f, n)|by exists (mtime g, n)]. }
  pose proof (StronglySorted_app_1_elem_of _ _ _ _ _ Hs Hin Hin') as Hle.
  specialize (Hnew _ _ Hg Hext' Hne). unfold blob_leb, pair_leb in Hle. simpl in Hle.
  case_decide; [lia|]. apply N.leb_le in Hle. lia.
Qed.
End retention.

(** Pruning keeps the [retention] newest blobs and nothing it should not
    remove: a blob survives exactly when it is not among the oldest ones over
    the limit, at most [retention] blobs remain, and a file that is neither a
    blob nor the sidecar of an evicted blob is untouched. *)
Theorem prune_retention_exact `{ReadDirLaws} (d : gmap string file) retention :
  (∀ name, is_blob (prune_retention d retention) name →
     is_blob d name ∧ name ∉ (evicted d retention).*2) ∧
  (∀ name, (∀ b, b ∈ (evicted d retention).*2 → name ≠ b ∧ name ≠ sidecar b) →
     prune_retention d retention !! name = d !! name) ∧
  (∀ t n t' n', (t, n) ∈ evicted d retention → is_blob d n' → n' ∉ (evicted d retention).*2 →
     (∃ f, d !! n' = Some f ∧ mtime f = t') → (t ≤ t')%N) ∧
  length (blobs_oldest_first d) - length (evicted d retention) ≤ N.to_nat retention.
Proof.
  split_and!.
  - intros name [[f Hf] Hext]. rewrite prune_lookup in Hf. case_decide; [done|].
    split; [split; eauto|tauto].
  - intros name Hne. rewrite prune_lookup, decide_False; [done|].
    intros [Hin|(b & -> & Hin)%list_elem_of_fmap]; destruct (Hne _ Hin); done.
  - intros t n t' n' Hin [_ Hext] Hn' (f & Hf & <-).
    assert ((mtime f, n') ∈ blobs_oldest_first d) as Hbs by (apply elem_of_blobs; eauto).
    unfold evicted in *. set (k := length _ - _) in *.
    rewrite <-(take_drop k (blobs_oldest_first d)) in Hbs.
    apply elem_of_app in Hbs as [Hbs|Hbs].
    { destruct Hn'. apply list_elem_of_fmap. by exists (mtime f, n'). }
    pose proof (take_sorted_leb k _ _ _ (blobs_sorted d) Hin Hbs) as Hle.
    unfold blob_leb, pair_leb in Hle. simpl in Hle. case_decide; [lia|]. by apply N.leb_le.
  - unfold evicted. rewrite length_take. lia.
Qed.

Lemma prune_retention_exact_witness :
  let d : gmap string file := <["a.tar.zst" := mkFile "1" 1]> (<["b.tar.zst" := mkFile "2" 2]> ∅) in
  (evicted d 1).*2 = ["a.tar.zst"] ∧ prune_retention d 1 !! "b.tar.zst" = d !! "b.tar.zst".
Proof.
  intros d. split; [vm_compute; reflexivity|].
  destruct (prune_retention_exact d 1) as (_ & Hkeep & _). apply Hkeep.
  intros b Hb. vm_compute in Hb. apply list_elem_of_singleton in Hb as ->. done.
Defined.

(** ** Commit *)

Lemma write_atomic_eq now (d : dir) tmp dst c :
  write_atomic now d tmp dst c = Some (<[dst := mkFile c now]> (delete tmp d)).
Proof. unfold write_atomic, rename. rewrite lookup_insert_eq. simpl. by rewrite delete_insert_eq. Qed.

(** The store after the three writes of a commit, before pruning. *)
Definition committed_dir (now : N) (d : dir) (s payload : string) (sig : option string) : dir :=
  let d := <[blob_name s := mkFile payload now]> (delete (blob_name s +:+ ".tmp") d) in
  let d := match sig with
           | Some c => <[s +:+ ".sig" := mkFile c now]> (delete (s +:+ ".sig.tmp") d)
           | None => d
           end in
  <["HEAD" := mkFile s now]> (delete "HEAD.tmp" d).

Lemma commit_job_eq `{ReadDir} now (sd sp : dir) j f :
  sp !! job_path j = Some f →
  commit_job now sd sp j =
  (prune_retention (committed_dir now sd (job_sha j) (content f)
     (content <$> sp !! sig_filename (job_seq j) (job_sha j) (job_retention j))) (job_retention j), true).
Proof.
  intros Hf. unfold commit_job. rewrite Hf. cbv zeta. fold (blob_name (job_sha j)).
  rewrite write_atomic_eq. unfold committed_dir.
  destruct (sp !! sig_filename _ _ _) as [g|]; simpl; by rewrite !write_atomic_eq.
Qed.

Lemma zst_ne a b p : String.length p = 4 → p ≠ ".zst" → blob_name a ≠ b +:+ p.
Proof. intros. rewrite blob_name_alt. apply names_differ_4; [done..|congruence]. Qed.

Section committed.
Context (now : N) (d : dir) (s payload : string) (sig : option string).

Lemma committed_blob : committed_dir now d s payload sig !! blob_name s = Some (mkFile payload now).
Proof.
  unfold committed_dir. cbv zeta.
  rewrite lookup_insert_ne by (intros Heq; symmetry in Heq; by apply (zst_ne s "" "HEAD") in Heq).
  rewrite lookup_delete_ne by (intros Heq; symmetry in Heq; by apply (zst_ne s "HEAD" ".tmp") in Heq).
  destruct sig as [c|]; [|by rewrite lookup_insert_eq].
  rewrite lookup_insert_ne by (intros Heq; symmetry in Heq; by apply (zst_ne s s ".sig") in Heq).
  rewrite lookup_delete_ne; [by rewrite lookup_insert_eq|].
  intros Heq. symmetry in Heq. apply (zst_ne s (s +:+ ".sig") ".tmp"); [done..|].
  by rewrite append_assoc.
Qed.

Lemma committed_head : committed_dir now d s payload sig !! "HEAD" = Some (mkFile s now).
Proof. unfold committed_dir. cbv zeta. by rewrite lookup_insert_eq. Qed.

Lemma sig_ne_HEAD : s +:+ ".sig" ≠ "HEAD".
Proof. by apply (names_differ_4 s "" ".sig" "HEAD"). Qed.

Lemma committed_sig c :
  sig = Some c → committed_dir now d s payload sig !! (s +:+ ".sig") = Some (mkFile c now).
Proof.
  intros ->. unfold committed_dir. cbv zeta.
  rewrite lookup_insert_ne by (intros Heq; symmetry in Heq; by apply sig_ne_HEAD in Heq).
  rewrite lookup_delete_ne; [by rewrite lookup_insert_eq|].
  intros Heq. symmetry in Heq. by apply (names_differ_4 s "HEAD" ".sig" ".tmp") in Heq.
Qed.

(** Another blob was there before. *)
Lemma committed_other_blob n g :
  committed_dir now d s payload sig !! n = Some g → extension n = Some "zst" → n ≠ blob_name s →
  d !! n = Some g.
Proof.
  intros Hn Hext Hne. unfold committed_dir in Hn. cbv zeta in Hn.
  rewrite lookup_insert_ne in Hn by (intros <-; done).
  apply lookup_delete_Some in Hn as [_ Hn].
  destruct sig as [c|].
  - rewrite lookup_insert_ne in Hn.
    + apply lookup_delete_Some in Hn as [_ Hn]. rewrite lookup_insert_ne in Hn by congruence.
      by apply lookup_delete_Some in Hn as [_ ?].
    + intros <-. destruct (decide (s = "")) as [->|Hs]; [done|].
      pose proof (extension_dot s "sig" Hs eq_refl) as E. simpl in E. congruence.
  - rewrite lookup_insert_ne in Hn by congruence. by apply lookup_delete_Some in Hn as [_ ?].
Qed.
End committed.

(** What a committed snapshot answers to a pull. *)
Lemma pull_committed `{ReadDirLaws} now (d : dir) s payload sig retention r repo :
  is_safe_path_component repo = true → is_safe_path_component s = true →
  (1 ≤ retention)%N → (∀ n g, d !! n = Some g → (mtime g < now)%N) →
  (∀ n, is_Some (d !! n) → extension n = Some "zst" → ∃ s', s' ≠ "" ∧ n = blob_name s') →
  store_of r repo = prune_retention (committed_dir now d s payload sig) retention →
  ∃ sg, pull r repo "latest" = Found payload sg ∧ ∀ c, sig = Some c → sg = Some c.
Proof.
  intros Hrepo Hs Hret Hold Hcanon Hstore. set (d' := committed_dir now d s payload sig) in *.
  assert (s ≠ "") as Hne by (by intros ->).
  assert (∀ b, b ∈ (evicted d' retention).*2 → ∃ s', s' ≠ "" ∧ s' ≠ s ∧ b = blob_name s') as Hev.
  { intros b Hb. assert (b ≠ blob_name s) as Hbs.
    { intros ->. revert Hb. apply (newest_kept d' retention _ (mkFile payload now));
        [apply committed_blob|apply extension_blob|done|].
      intros n g Hg Hext Hn. apply committed_other_blob in Hg; [|done..]. simpl. eauto. }
    apply list_elem_of_fmap in Hb as ([t b'] & -> & Hb). simpl in *.
    apply subseteq_take, elem_of_blobs in Hb as (g & Hg & _ & Hext).
    apply committed_other_blob in Hg; [|done..].
    destruct (Hcanon b') as (s' & Hs' & ->); [eauto|done|]. exists s'. split_and!; [done| |done].
    intros ->. done. }
  assert (∀ name, (∀ s', s' ≠ "" → s' ≠ s → name ≠ blob_name s' ∧ name ≠ s' +:+ ".sig") →
    store_of r repo !! name = d' !! name) as Hkeep.
  { intros name Hname. rewrite Hstore, prune_lookup, decide_False; [done|].
    intros [Hin|(b & -> & Hin)%list_elem_of_fmap];
      destruct (Hev _ Hin) as (s' & Hs' & Hss & ->); destruct (Hname s' Hs' Hss) as [H1 H2]; [done|].
    apply H2. by apply sidecar_blob. }
  assert (store_of r repo !! "HEAD" = Some (mkFile s now)) as Hhead.
  { rewrite Hkeep; [apply committed_head|]. intros s' _ _. split; intros Heq; symmetry in Heq.
    - by apply (zst_ne s' "" "HEAD") in Heq.
    - by apply sig_ne_HEAD in Heq. }
  assert (store_of r repo !! (s +:+ ".tar.zst") = Some (mkFile payload now)) as Hblob.
  { rewrite Hkeep; [apply committed_blob|]. intros s' _ Hss. split.
    - intros Heq. by apply append_inv_tail in Heq.
    - by apply zst_ne. }
  unfold pull. rewrite Hrepo. simpl. unfold read_persisted_head. rewrite Hhead.
  cbn [mbind option_bind content]. rewrite (trim_safe s) by done. destruct s as [|a s']; [done|]. cbn [is_empty].
  rewrite Hblob. eexists; split; [done|]. intros c Hc.
  rewrite Hkeep; [unfold d'; by rewrite (committed_sig _ _ _ _ _ c Hc)|].
  intros s'' _ Hss. split; [|intros Heq; by apply append_inv_tail in Heq].
  intros Heq. symmetry in Heq. by apply zst_ne in Heq.
Qed.

(** ** Round trip *)

(** The queue of an idle repository after an accepted push. *)
Lemma enqueued_job `{ReadDirLaws} (d d' : dir) seq target ret sig now f :
  leftover_jobs d = [] → (seq ≤ u64_MAX)%N → (ret ≤ u64_MAX)%N →
  d' = <[job_filename seq target ret := f]> (delete (upload_path target)
         (match sig with
          | Some s => <[sig_filename seq target ret := mkFile s now]> d
          | None => d
          end)) →
  leftover_jobs d' = [mkJob seq target ret (job_filename seq target ret)] ∧
  (∀ s, sig = Some s → content <$> d' !! sig_filename seq target ret = Some s).
Proof.
  intros Hd Hseq Hret ->. set (d1 := delete (upload_path target) _).
  assert (jobs d1 ≡ₚ []) as Hd1.
  { unfold d1. rewrite jobs_delete_other by apply upload_not_job.
    destruct sig; [rewrite jobs_insert_other by apply sig_not_job|];
      rewrite <-leftover_jobs_perm, Hd; done. }
  apply Permutation_nil_r in Hd1.
  pose proof (job_of_job_filename seq target ret) as Hj.
  apply N.leb_le in Hseq, Hret. rewrite Hseq, Hret in Hj. simpl in Hj.
  assert (d1 !! job_filename seq target ret = None) as Hnone.
  { apply eq_None_not_Some. intros Hin. assert (mkJob seq target ret (job_filename seq target ret) ∈ jobs d1)
      as Hbad by (apply elem_of_jobs; done). rewrite Hd1 in Hbad. set_solver. }
  split.
  - apply Permutation_singleton_r. rewrite leftover_jobs_perm, (jobs_insert_new _ _ _ _ Hj Hnone), Hd1. done.
  - intros s ->. rewrite lookup_insert_ne by apply job_ne_sig. unfold d1.
    rewrite lookup_delete_ne by apply upload_ne_sig. by rewrite lookup_insert_eq.
Qed.

Lemma push_complete_accepted `{ReadDir} now r repo target base ret sig r' rs :
  repos r !! repo = Some rs →
  push_complete now r repo target base ret sig = Some (r', Ok Accepted) →
  is_safe_path_component repo = true ∧ is_safe_path_component target = true ∧
  ∃ st w, head st = with_uploads (head rs) (delete target (uploads (head rs))) ∧
    enqueue_post now (with_repo r repo (mkRepoState (head st) w)) repo target base ret sig
      (mkRepoState (head st) w) r' (Ok Accepted).
Proof.
  intros Hlive Hcall. unfold push_complete, take_upload_reservation in Hcall. rewrite Hlive in Hcall.
  cbv iota beta zeta in Hcall. apply bind_Some in Hcall as ([r2 res2] & Hfin & Hres).
  case_decide; [|by simplify_eq]. simplify_eq. pose proof Hfin as Hfin'.
  eapply finish_upload_spec in Hfin' as [[w Hp] _]; [|simpl; by rewrite lookup_insert_eq].
  unfold finish_upload in Hfin. destruct (negb _ || negb _) eqn:E; [done|].
  apply orb_false_iff in E as [E1%negb_false_iff E2%negb_false_iff]. split_and!; [done..|].
  eexists (mkRepoState _ (rate rs)), w. split; [done|].
  destruct Hp as (? & ? & ? & f & ? & ? & ? & ?). split_and!; [done..|]. exists f. split_and!; done.
Qed.

(** C24: what is pushed can be pulled.  When an idle repository's upload is
    accepted with a retention of at least one, the worker's next round (at a
    time later than every stored file) commits it, and pulling [latest] then
    returns the uploaded bytes, with the signature that came with the push. *)
Theorem push_drain_pull `{ReadDirLaws} now times r repo target base ret sig r1 rs f
    (Hlive : repos r !! repo = Some rs) (Hidle : leftover_jobs (spool_of r repo) = [])
    (Hup : spool_of r repo !! upload_path target = Some f)
    (Hret : (1 ≤ ret ≤ u64_MAX)%N) (Hseq : (next_seq (head rs) ≤ u64_MAX)%N)
    (Hclock : ∀ n g, store_of r repo !! n = Some g → (mtime g < times 0%nat)%N)
    (Hcanon : ∀ n, is_Some (store_of r repo !! n) → extension n = Some "zst" →
                ∃ s, s ≠ "" ∧ n = blob_name s)
    (Hcall : push_complete now r repo target base ret sig = Some (r1, Ok Accepted)) :
  ∃ r2 sent sg, worker_drain times r1 repo = Some (r2, sent) ∧
    pull r2 repo "latest" = Found (content f) sg ∧ ∀ s, sig = Some s → sg = Some s.
Proof.
  destruct (push_complete_accepted _ _ _ _ _ _ _ _ _ Hlive Hcall)
    as (Hsr & Hst & st & w & Hh & _ & _ & Hr1 & f' & Hf' & _ & Hspool & Hstore).
  simpl in Hr1, Hspool, Hstore. rewrite Hh in Hr1, Hspool. simpl in Hr1, Hspool.
  change (spool_of r repo !! upload_path target = Some f') in Hf'. simplify_eq.
  change (store_of r1 repo = store_of r repo) in Hstore.
  destruct (enqueued_job (spool_of r repo) (spool_of r1 repo) (next_seq (head rs)) target ret sig now f)
    as [Hjobs Hsig]; [done..|apply Hret|exact Hspool|].
  unfold worker_drain. rewrite Hjobs. cbn [imap foldlM]. unfold worker_job at 1.
  rewrite (commit_job_eq _ _ _ _ f) by (simpl; rewrite Hspool; by rewrite lookup_insert_eq).
  cbv zeta beta iota. cbn [job_seq job_sha job_retention job_path with_store with_spool repos].
  rewrite Hr1. cbn [mbind option_bind head pending]. rewrite decide_False by lia.
  cbn [mbind option_bind foldlM].
  match goal with |- context [Some (?r2, ?sent)] =>
    destruct (pull_committed (times 0) (store_of r repo) target (content f)
      (content <$> spool_of r1 repo !! sig_filename (next_seq (head rs)) target ret) ret r2 repo)
      as (sg & Hpull & Hsg) end; [done|done|apply Hret|done|done| |].
  - unfold store_of at 1. cbn [with_repo with_spool with_store store]. rewrite lookup_insert_eq.
    cbn [default]. by rewrite Hstore.
  - do 3 eexists. split; [done|]. split; [exact Hpull|]. intros s Hs. apply Hsg. auto.
Qed.

(** The first commit of [ex_pushed] done, then [sha2] uploaded. *)
Definition ex_idle : Registry :=
  match worker_drain (λ i, N.of_nat i + 2)%N ex_pushed "repo" with
  | Some (r, _) => (spool_chunk 3 (begin_upload 3 r "repo" "sha2" (Some "sha1")).1 "repo" "sha2" 0 "next").1
  | None => ex_pushed
  end.

Lemma push_drain_pull_witness :
  let r1 := completed (push_complete 4 ex_idle "repo" "sha2" (Some "sha1") 1 (Some "cd")) in
  ∃ r2 sent, worker_drain (λ i, N.of_nat i + 5)%N r1 "repo" = Some (r2, sent) ∧
    pull r2 "repo" "latest" = Found "next" (Some "cd").
Proof.
  intros r1.
  destruct (repos ex_idle !! "repo") as [rs|] eqn:Hrs; [|vm_compute in Hrs; done].
  destruct (push_drain_pull 4 (λ i, N.of_nat i + 5)%N ex_idle "repo" "sha2" (Some "sha1") 1 (Some "cd")
    r1 rs (mkFile "next" 3) Hrs) as (r2 & sent & sg & Hd & Hp & Hs).
  - vm_compute. reflexivity.
  - vm_compute. reflexivity.
  - unfold u64_MAX. lia.
  - vm_compute in Hrs. injection Hrs as <-. vm_compute. discriminate.
  - assert (map_Forall (λ _ g, (mtime g < 5)%N) (store_of ex_idle "repo")) as Hall
      by (apply (bool_decide_unpack _); vm_compute; exact I).
    intros n g Hg. exact (Hall n g Hg).
  - assert (map_Forall (λ n (_ : file), extension n = Some "zst" → n = blob_name "sha1")
      (store_of ex_idle "repo")) as Hall by (apply (bool_decide_unpack _); vm_compute; exact I).
    intros n [g Hg] Hext. exists "sha1". split; [done|]. exact (Hall n g Hg Hext).
  - vm_compute. reflexivity.
  - exists r2, sent. split; [exact Hd|]. rewrite (Hs "cd" eq_refl) in Hp. exact Hp.
Defined.

(** ** What goes wrong *)

(** A restart does not resume where it left off: after an accepted push of
    sha2 on sha1 whose job is still queued, the reopened registry has forgotten
    sha2: it accepts a push based on the stale sha1 and answers [Conflict] to
    one based on sha2, the head it had acknowledged. *)
Theorem restart_forgets_queued_head :
  let r := completed (push_complete 4 ex_idle "repo" "sha2" (Some "sha1") 1 None) in
  let r' := open 10 (config r) (store r) (spool r) in
  (sha ∘ head <$> repos r !! "repo") = Some (Some "sha2") ∧
  snd <$> push 11 r' "repo" "sha3" (Some "sha1") 1 None "lost" = Some (Ok Accepted) ∧
  snd <$> push 11 r' "repo" "sha3" (Some "sha2") 1 None "kept" = Some (Ok Conflict).
Proof. vm_compute. done. Qed.

(** A push can be refused and still move the head: completing an upload
    that was never spooled fails with a missing file, yet the head, the
    sequence and the pending count have advanced, so the next push on the real
    head conflicts. *)
Theorem failed_push_advances_head :
  let r := ex_idle in
  let r' := completed (push_complete 4 r "repo" "ghost" (Some "sha1") 1 None) in
  snd <$> push_complete 4 r "repo" "ghost" (Some "sha1") 1 None = Some (Err MissingFile) ∧
  (sha ∘ head <$> repos r' !! "repo") = Some (Some "ghost") ∧
  (pending ∘ head <$> repos r' !! "repo") = Some 1 ∧
  snd <$> push_complete 5 r' "repo" "sha2" (Some "sha1") 1 None = Some (Ok Conflict).
Proof. vm_compute. done. Qed.

(** The encoding of signatures, two lower-case digits a byte. *)
Definition hex_char (d : N) : ascii := if (d <? 10)%N then ascii_of_N (48 + d) else ascii_of_N (87 + d).
Fixpoint encode_hex (bytes : list N) : string :=
  match bytes with
  | [] => ""
  | b :: bytes => String (hex_char (b / 16)) (String (hex_char (b mod 16)) (encode_hex bytes))
  end.

Lemma hex_char_spec d : (d < 16)%N →
  hex_digit (hex_char d) = Some d ∧ hex_char d ≠ "+"%char ∧ is_continuation (hex_char d) = false.
Proof.
  intros Hd. assert (∃ k, k < 16 ∧ d = N.of_nat k) as (k & Hk & ->)
    by (exists (N.to_nat d); lia).
  do 16 (destruct k as [|k]; [vm_compute; done|]). lia.
Qed.

Lemma boundary_encode bytes :
  Forall (λ b, (b < 256)%N) bytes → boundary_at (encode_hex bytes) = true.
Proof.
  intros [|b l Hb _]; [done|]. simpl. apply negb_true_iff, hex_char_spec.
  apply N.Div0.div_lt_upper_bound. lia.
Qed.

Lemma decode_encode bytes : Forall (λ b, (b < 256)%N) bytes → decode_hex (encode_hex bytes) = Some (Some bytes).
Proof.
  intros Hbytes. unfold decode_hex. assert (Nat.even (String.length (encode_hex bytes)) = true) as ->.
  { induction bytes as [|b l IH]; [done|]. inversion Hbytes; subst. simpl. auto. }
  induction bytes as [|b l IH]; [done|]. inversion Hbytes as [|?? Hb Hl]; subst.
  pose proof (boundary_encode (b :: l) Hbytes) as Hbd.
  cbn [encode_hex decode_pairs] in *. rewrite Hbd, (boundary_encode l Hl). cbn [andb].
  destruct (hex_char_spec (b / 16)) as (H1 & Hp & _); [apply N.Div0.div_lt_upper_bound; lia|].
  destruct (hex_char_spec (b mod 16)) as (H2 & _ & _); [apply N.mod_lt; lia|].
  unfold hex_pair. rewrite decide_False, H1, H2 by done. cbn [mbind option_bind].
  rewrite IH by done. simpl. do 3 f_equal. rewrite (N.div_mod b 16) at 3 by lia. lia.
Qed.

(** [decode_hex] inverts the hexadecimal encoding of any byte string, but
    it is not the strict, total parser its comment promises: it takes a sign
    for a digit, and it panics on an even-length header in which a multi-byte
    character straddles a pair. *)
Theorem decode_hex_behaviour bytes (Hbytes : Forall (λ b, (b < 256)%N) bytes) :
  decode_hex (encode_hex bytes) = Some (Some bytes) ∧
  decode_hex "+f" = Some (Some [15%N]) ∧
  decode_hex (String "a" (String (ascii_of_N 195) (String (ascii_of_N 169) "b"))) = None.
Proof. split; [by apply decode_encode|by vm_compute]. Qed.

Lemma decode_hex_behaviour_witness :
  decode_hex (encode_hex [0; 171; 255]%N) = Some (Some [0; 171; 255]%N).
Proof. apply (decode_hex_behaviour [0; 171; 255]%N). repeat constructor. Defined.
