(* ===== verification/SqlStore.v ===== *)
(** * The SQLite store (weave-graph-store-sqlite: backend.rs, schema.rs;
      weave-graph-core: schema.rs, notes.rs)

    The tables of the schema and, for each method of [SqliteStorage], the
    effect of its SQL statements on them.  SQLite itself is outside the
    repository: [Sqlite] names what the model takes from it (the rowid given to
    an inserted row, the order of an unordered [SELECT], whether foreign keys
    are enforced) and [SqliteLaws] what its documentation promises.  A failing
    statement changes nothing; a method that fails after earlier statements
    keeps their effect, as autocommit does. *)

From S2P Require Import Prelude Str Model Paths.

(** ** The engine *)

Class Sqlite := {
  fresh_rowid : gset N → N;
  select_order : ∀ {A : Type}, list A → list A;
  foreign_keys : bool;
}.

Class SqliteLaws `{Sqlite} : Prop := {
  fresh_rowid_new s : fresh_rowid s ∉ s;
  select_order_perm {A} (l : list A) : select_order l ≡ₚ l;
}.

(** Rowids one past the largest, rows in rowid order, foreign keys on (the
    default of the bundled build). *)
Definition max_rowid (s : gset N) : N := foldr N.max 0%N (elements s).
#[global] Instance sqlite_default : Sqlite := {|
  fresh_rowid s := (max_rowid s + 1)%N;
  select_order A l := l;
  foreign_keys := true;
|}.

#[global] Instance sqlite_default_laws : SqliteLaws.
Proof.
  split; [|done]. intros s Hin. simpl in Hin. unfold max_rowid in Hin.
  apply elem_of_elements in Hin.
  assert (∀ (l : list N) x, x ∈ l → (x ≤ foldr N.max 0 l)%N) as Hmax.
  { induction l as [|y l IH]; intros x Hx; [set_solver|]. simpl.
    apply elem_of_cons in Hx as [->|Hx]; [lia|]. specialize (IH _ Hx). lia. }
  specialize (Hmax _ _ Hin). lia.
Qed.

(** ** Tables *)

(** src/crates/weave-graph-core/src/notes.rs:12-15 [NoteTier] *)
Inductive NoteTier := Ephemeral | Crystallized.

(** src/crates/weave-graph-core/src/notes.rs:18-23 [NoteTier::as_str] *)
Definition tier_as_str (t : NoteTier) : string :=
  match t with Ephemeral => "ephemeral" | Crystallized => "crystallized" end.

(** src/crates/weave-graph-core/src/notes.rs:27-33 [NoteTier::parse] *)
Definition tier_parse (s : string) : NoteTier :=
  if decide (s = "ephemeral") then Ephemeral else Crystallized.

(** src/crates/weave-graph-core/src/notes.rs:40-58 [Note] *)
Record Note := mkNote {
  note_id : N;
  note_target : option NodeId;
  note_moniker : string;
  note_kind : string;
  note_tier : NoteTier;
  note_author : string;
  note_content : string;
  note_hash : option string;
  note_stale : bool;
  note_expires_at : option Z;
  note_created_at : Z;
}.

(** src/crates/weave-graph-core/src/schema.rs:99-114 [V4_NOTES_TABLE]
    A row of [notes]: the tier is text. *)
Record note_row := mkNoteRow {
  nr_target : option NodeId;
  nr_moniker : string;
  nr_kind : string;
  nr_tier : string;
  nr_author : string;
  nr_content : string;
  nr_hash : option string;
  nr_stale : bool;
  nr_expires_at : option Z;
  nr_created_at : Z;
}.

(** src/crates/weave-graph-core/src/trace.rs:15-28 [TraceSpan] *)
Record TraceSpan := mkSpan {
  trace_id : string;
  span_id : string;
  parent_span_id : option string;
  service : option string;
  span_name : string;
  span_symbol : option string;
  span_path : option string;
  start_us : Z;
  duration_us : Z;
  status_code : string;
}.

(** src/crates/weave-graph-core/src/schema.rs:53-62 [V1_CREATE_TABLES]
    A row of [contracts], with the columns the code reads. *)
Record contract_row := mkContract {
  service_a : string;
  service_b : string;
  contract_hash : option string;
  source_commit_sha : string;
  entries_blob : option string;
}.

(** src/crates/weave-graph-core/src/schema.rs:147-155 [V7_RESOLVER_INPUTS] *)
Record unresolved_row := mkUnresolved {
  ur_repo_id : string;
  ur_path : string;
  ur_short_name : string;
}.

#[global] Instance unresolved_eq_dec : EqDecision unresolved_row.
Proof. solve_decision. Defined.
#[global] Instance contract_eq_dec : EqDecision contract_row.
Proof. solve_decision. Defined.

(** src/crates/weave-graph-core/src/provenance.rs:15-21 [Provenance] *)
Record Provenance := mkProvenance {
  prov_doc_id : NodeId;
  commit_hash : string;
  merkle_root_of : string;
  signature_of : string;
}.

(** src/crates/weave-graph-core/src/schema.rs:45-51 [V1_CREATE_TABLES]
    A row of [doc_links] (with the columns V3 adds). *)
Record doc_link := mkDocLink {
  dl_doc_id : NodeId;
  dl_section : string;
  dl_target : NodeId;
  dl_kind : string;
  dl_commit : option string;
  dl_hash : option string;
  dl_signature : option string;
}.

(** src/crates/weave-graph-core/src/schema.rs:23-68 [V1_CREATE_TABLES]
    The database: each table a map from rowid to row ([nodes] and [edges] rows
    carry their id), tables without a key a list. *)
Record Db := mkDb {
  nodes : gmap N Node;
  edges : gmap N Edge;
  notes : gmap N note_row;
  trace_spans : gmap N TraceSpan;
  doc_links : gmap N doc_link;
  contracts : list contract_row;
  unresolved_refs : list unresolved_row;
}.

Definition empty_db : Db := mkDb ∅ ∅ ∅ ∅ ∅ [] [].
Definition with_nodes (db : Db) x := mkDb x (edges db) (notes db) (trace_spans db) (doc_links db) (contracts db) (unresolved_refs db).
Definition with_edges (db : Db) x := mkDb (nodes db) x (notes db) (trace_spans db) (doc_links db) (contracts db) (unresolved_refs db).
Definition with_notes (db : Db) x := mkDb (nodes db) (edges db) x (trace_spans db) (doc_links db) (contracts db) (unresolved_refs db).
Definition with_spans (db : Db) x := mkDb (nodes db) (edges db) (notes db) x (doc_links db) (contracts db) (unresolved_refs db).
Definition with_doc_links (db : Db) x := mkDb (nodes db) (edges db) (notes db) (trace_spans db) x (contracts db) (unresolved_refs db).
Definition with_contracts (db : Db) x := mkDb (nodes db) (edges db) (notes db) (trace_spans db) (doc_links db) x (unresolved_refs db).
Definition with_unresolved (db : Db) x := mkDb (nodes db) (edges db) (notes db) (trace_spans db) (doc_links db) (contracts db) x.

Definition unique_failed : StorageError := Backend "UNIQUE constraint failed".
Definition fk_failed : StorageError := Backend "FOREIGN KEY constraint failed".

Definition rows {A} (t : gmap N A) : list A := (map_to_list t).*2.

(** A loop over a slice whose body may fail: [for x in l { body(x)?; }]. *)
Fixpoint try_loop {A B} (body : Db → A → Db * result B StorageError) (l : list A) (db : Db) :
    Db * result (list B) StorageError :=
  match l with
  | [] => (db, Ok [])
  | x :: l =>
      match body db x with
      | (db, Err e) => (db, Err e)
      | (db, Ok b) =>
          match try_loop body l db with
          | (db, Ok bs) => (db, Ok (b :: bs))
          | (db, Err e) => (db, Err e)
          end
      end
  end.

Section sqlite.
Context `{Sqlite}.

(** ** Nodes *)

(** src/crates/weave-graph-core/src/schema.rs:34-34 [idx_nodes_natural_key] *)
Definition same_key (a b : Node) : bool :=
  bool_decide (node_repo_id a = node_repo_id b) && bool_decide (node_path a = node_path b) &&
  bool_decide (node_symbol a = node_symbol b) && bool_decide (node_line_start a = node_line_start b).

(** The row, other than [except], holding a node's natural key. *)
Definition key_holder (db : Db) (n : Node) (except : option N) : option Node :=
  (snd <$> list_find (λ m, same_key m n = true ∧ Some (node_id m) ≠ except) (rows (nodes db))).

Definition with_id (n : Node) (i : N) : Node :=
  mkNode i (node_repo_id n) (node_path n) (node_symbol n) (node_kind n)
    (node_line_start n) (node_line_end n) (node_signature n).

(** src/crates/weave-graph-store-sqlite/src/backend.rs:326-333 [SqliteStorage::upsert_nodes]
    [INSERT INTO nodes .. RETURNING id]. *)
Definition insert_node (db : Db) (n : Node) : Db * result NodeId StorageError :=
  match key_holder db n None with
  | Some _ => (db, Err unique_failed)
  | None =>
      let id := fresh_rowid (dom (nodes db)) in
      (with_nodes db (<[id := with_id n id]> (nodes db)), Ok id)
  end.

(** src/crates/weave-graph-store-sqlite/src/backend.rs:319-325 [SqliteStorage::upsert_nodes]
    [UPDATE nodes SET line_start, line_end, signature WHERE id]. *)
Definition update_node (db : Db) (id : NodeId) (n : Node) : Db * result () StorageError :=
  match nodes db !! id with
  | None => (db, Ok ())
  | Some m =>
      let m := mkNode (node_id m) (node_repo_id m) (node_path m) (node_symbol m) (node_kind m)
                 (node_line_start n) (node_line_end n) (node_signature n) in
      match key_holder db m (Some id) with
      | Some _ => (db, Err unique_failed)
      | None => (with_nodes db (<[id := m]> (nodes db)), Ok ())
      end
  end.

(** src/crates/weave-graph-store-sqlite/src/backend.rs:312-351 [SqliteStorage::upsert_nodes] *)
Definition candidates (db : Db) (n : Node) : list Node :=
  select_order (filter (λ m, node_repo_id m = node_repo_id n ∧ node_path m = node_path n ∧
                             node_symbol m = node_symbol n ∧ node_kind m = node_kind n)
                 (rows (nodes db))).

(** src/crates/weave-graph-store-sqlite/src/backend.rs:352-358 [SqliteStorage::upsert_nodes] *)
Definition existing (rs : list Node) (n : Node) : option Node :=
  match list_find (λ m, node_signature m = node_signature n) rs with
  | Some p => Some p.2
  | None => snd <$> list_find (λ m, node_line_start m = node_line_start n) rs
  end.

(** src/crates/weave-graph-store-sqlite/src/backend.rs:337-381 [SqliteStorage::upsert_nodes] *)
Definition upsert_one_node (db : Db) (n : Node) : Db * result NodeId StorageError :=
  match existing (candidates db n) n with
  | Some m =>
      match update_node db (node_id m) n with
      | (db, Ok _) => (db, Ok (node_id m))
      | (db, Err e) => (db, Err e)
      end
  | None => insert_node db n
  end.

(** src/crates/weave-graph-store-sqlite/src/backend.rs:310-390 [SqliteStorage::upsert_nodes] *)
Definition upsert_nodes (db : Db) (ns : list Node) : Db * result (list NodeId) StorageError :=
  try_loop upsert_one_node ns db.

(** src/crates/weave-graph-store-sqlite/src/backend.rs:1042-1045 [SqliteStorage::upsert_node]
    [ids[0]]: [upsert_nodes] of one node returns one id. *)
Definition upsert_node (db : Db) (n : Node) : Db * result NodeId StorageError :=
  match upsert_nodes db [n] with
  | (db, Ok (id :: _)) => (db, Ok id)
  | (db, Ok []) => (db, Err (Backend "index out of bounds"))
  | (db, Err e) => (db, Err e)
  end.

(** src/crates/weave-graph-store-sqlite/src/backend.rs:284-298 [SqliteStorage::insert_fresh_nodes]
    [INSERT .. ON CONFLICT(natural key) DO UPDATE .. RETURNING id]. *)
Definition insert_or_replace_node (db : Db) (n : Node) : Db * result NodeId StorageError :=
  match key_holder db n None with
  | Some m =>
      (with_nodes db (<[node_id m := mkNode (node_id m) (node_repo_id m) (node_path m) (node_symbol m)
         (node_kind n) (node_line_start m) (node_line_end n) (node_signature n)]> (nodes db)),
       Ok (node_id m))
  | None => insert_node db n
  end.

(** src/crates/weave-graph-store-sqlite/src/backend.rs:268-307 [SqliteStorage::insert_fresh_nodes] *)
Definition insert_fresh_nodes (db : Db) (ns : list Node) : Db * result (list NodeId) StorageError :=
  try_loop insert_or_replace_node ns db.

(** ** Deleting nodes *)

(** src/crates/weave-graph-core/src/schema.rs:36-51 [V1_CREATE_TABLES]
    Whether an edge or a doc link still references the node. *)
Definition referenced (db : Db) (id : NodeId) : bool :=
  existsb (λ e, bool_decide (source_id e = id) || bool_decide (target_id e = id)) (rows (edges db)) ||
  existsb (λ l, bool_decide (dl_target l = id)) (rows (doc_links db)).

(** src/crates/weave-graph-core/src/schema.rs:102-102 [V4_NOTES_TABLE]
    [ON DELETE SET NULL]. *)
Definition orphan_note (gone : list NodeId) (r : note_row) : note_row :=
  match nr_target r with
  | Some i =>
      if decide (i ∈ gone) then
        mkNoteRow None (nr_moniker r) (nr_kind r) (nr_tier r) (nr_author r) (nr_content r)
          (nr_hash r) (nr_stale r) (nr_expires_at r) (nr_created_at r)
      else r
  | None => r
  end.

(** One [DELETE FROM nodes WHERE ..] statement: it fails as a whole when
    foreign keys are enforced and an edge or doc link references a deleted row. *)
Definition delete_nodes (db : Db) (gone : list NodeId) : Db * result N StorageError :=
  if foreign_keys && existsb (referenced db) gone then (db, Err fk_failed) else
  let db' := with_nodes db (foldr delete (nodes db) gone) in
  let db' := if foreign_keys then with_notes db' (orphan_note gone <$> notes db') else db' in
  (db', Ok (N.of_nat (length gone))).

Definition file_nodes (db : Db) (repo_id path : string) : list NodeId :=
  node_id <$> filter (λ n, node_repo_id n = repo_id ∧ node_path n = path) (rows (nodes db)).

(** src/crates/weave-graph-store-sqlite/src/backend.rs:1126-1137 [SqliteStorage::purge_file_nodes] *)
Definition purge_file_nodes (db : Db) (repo_id path : string) : Db * result N StorageError :=
  delete_nodes db (file_nodes db repo_id path).

(** src/crates/weave-graph-store-sqlite/src/backend.rs:420-453 [SqliteStorage::purge_file_nodes_except] *)
Definition purge_file_nodes_except (db : Db) (repo_id path : string) (retained : list NodeId) :
    Db * result N StorageError :=
  let stale := filter (λ i, i ∉ retained) (select_order (file_nodes db repo_id path)) in
  match try_loop (λ db i, delete_nodes db [i]) stale db with
  | (db, Ok _) => (db, Ok (N.of_nat (length stale)))
  | (db, Err e) => (db, Err e)
  end.

(** src/crates/weave-graph-store-sqlite/src/backend.rs:142-154 [SqliteStorage::purge_orphaned_nodes_by_kind] *)
Definition purge_orphaned_nodes_by_kind (db : Db) (kind : string) : Db * result N StorageError :=
  let targets := target_id <$> rows (edges db) in
  delete_nodes db (node_id <$> filter (λ n, node_kind n = kind ∧ node_id n ∉ targets) (rows (nodes db))).

(** src/crates/weave-graph-store-sqlite/src/backend.rs:1111-1124 [SqliteStorage::purge_file_edges] *)
Definition purge_file_edges (db : Db) (repo_id path : string) : Db * result N StorageError :=
  let ids := file_nodes db repo_id path in
  let kept := filter (λ p : N * Edge, ¬ (source_id p.2 ∈ ids ∨ target_id p.2 ∈ ids)) (edges db) in
  (with_edges db kept, Ok (N.of_nat (size (edges db) - size kept))).

(** ** Edges *)

(** src/crates/weave-graph-core/src/schema.rs:43-43 [idx_edges_natural_key] *)
Definition edge_holder (db : Db) (e : Edge) : option (N * Edge) :=
  snd <$> list_find (λ p : N * Edge, source_id p.2 = source_id e ∧ target_id p.2 = target_id e ∧
                                     edge_kind p.2 = edge_kind e) (map_to_list (edges db)).

(** src/crates/weave-graph-store-sqlite/src/backend.rs:1047-1074 [SqliteStorage::upsert_edge] *)
Definition upsert_edge (db : Db) (e : Edge) : Db * result EdgeId StorageError :=
  match edge_holder db e with
  | Some (id, f) =>
      (with_edges db (<[id := mkEdge id (source_id f) (target_id f) (edge_kind f)
         (weight e) (extractor e) (resolution_kind e)]> (edges db)), Ok id)
  | None =>
      if foreign_keys &&
         negb (bool_decide (is_Some (nodes db !! source_id e)) &&
               bool_decide (is_Some (nodes db !! target_id e)))
      then (db, Err fk_failed) else
      let id := fresh_rowid (dom (edges db)) in
      (with_edges db (<[id := mkEdge id (source_id e) (target_id e) (edge_kind e)
         (weight e) (extractor e) (resolution_kind e)]> (edges db)), Ok id)
  end.

(** src/crates/weave-graph-store-sqlite/src/backend.rs:393-417 [SqliteStorage::upsert_edges] *)
Definition upsert_edges (db : Db) (es : list Edge) : Db * result () StorageError :=
  match try_loop upsert_edge es db with
  | (db, Ok _) => (db, Ok ())
  | (db, Err e) => (db, Err e)
  end.

(** ** Reads

    A row is read back as the value that was written: ids and lines come from
    [u32] values, so [row_to_node]'s and [row_to_edge]'s casts from the columns'
    64 bits are the identity on them, and a read of an open database does not
    fail.  A table another program has filled is outside this. *)

(** src/crates/weave-graph-store-sqlite/src/backend.rs:919-929 [SqliteStorage::get_node] *)
Definition sql_get_node (db : Db) (id : NodeId) : result (option Node) StorageError :=
  Ok (nodes db !! id).

(** src/crates/weave-graph-store-sqlite/src/backend.rs:931-943 [SqliteStorage::get_edges] *)
Definition sql_get_edges (db : Db) (id : NodeId) : result (list Edge) StorageError :=
  Ok (select_order (filter (λ e, source_id e = id) (rows (edges db)))).

(** src/crates/weave-graph-store-sqlite/src/backend.rs:945-958 [SqliteStorage::get_callers] *)
Definition sql_get_callers (db : Db) (id : NodeId) : result (list Edge) StorageError :=
  Ok (select_order (filter (λ e, target_id e = id) (rows (edges db)))).

(** src/crates/weave-graph-store-sqlite/src/backend.rs:960-968 [SqliteStorage::all_nodes] *)
Definition sql_all_nodes (db : Db) : result (list Node) StorageError :=
  Ok (sort_by (λ a b, (node_id a <=? node_id b)%N) (select_order (rows (nodes db)))).

(** src/crates/weave-graph-store-sqlite/src/backend.rs:978-988 [SqliteStorage::get_node_by_symbol] *)
Definition sql_get_node_by_symbol (db : Db) (symbol : string) : result (option Node) StorageError :=
  Ok (hd_error (select_order (filter (λ n, node_symbol n = symbol) (rows (nodes db))))).

(** src/crates/weave-graph-store-sqlite/src/backend.rs:990-1000 [SqliteStorage::all_edges] *)
Definition sql_all_edges (db : Db) : result (list Edge) StorageError :=
  Ok (sort_by (λ a b, pair_leb N.leb N.leb (source_id a, target_id a) (source_id b, target_id b))
        (select_order (rows (edges db)))).

(** src/crates/weave-graph-store-sqlite/src/backend.rs:1002-1007 [SqliteStorage::edge_count] *)
Definition sql_edge_count (db : Db) : result nat StorageError := Ok (size (edges db)).

(** src/crates/weave-graph-store-sqlite/src/backend.rs:1009-1014 [SqliteStorage::node_count] *)
Definition sql_node_count (db : Db) : result nat StorageError := Ok (size (nodes db)).

(** src/crates/weave-graph-store-sqlite/src/backend.rs:1016-1026 [SqliteStorage::for_each_node] *)
Definition sql_for_each_node {A} (db : Db) (f : A → Node → A) (a : A) : result A StorageError :=
  let? ns := sql_all_nodes db in Ok (foldl f a ns).

(** src/crates/weave-graph-store-sqlite/src/backend.rs:1028-1040 [SqliteStorage::for_each_edge] *)
Definition sql_for_each_edge {A} (db : Db) (f : A → Edge → A) (a : A) : result A StorageError :=
  let? es := sql_all_edges db in Ok (foldl f a es).

#[global] Instance sqlite_storage : Storage Db := {|
  get_node := sql_get_node;
  get_edges := sql_get_edges;
  get_callers := sql_get_callers;
  all_nodes := sql_all_nodes;
  all_edges := sql_all_edges;
  for_each_node A := sql_for_each_node;
  for_each_edge A := sql_for_each_edge;
  get_node_by_symbol := sql_get_node_by_symbol;
|}.

(** src/crates/weave-graph-store-sqlite/src/backend.rs:1080-1082 [SqliteStorage::query_path]
    The search state: predecessors (of visited nodes) and queue. *)
Record sql_path := mkSqlPath { sp_pred : gmap N N; sp_queue : list N }.

(** src/crates/weave-graph-store-sqlite/src/backend.rs:1085-1102 [SqliteStorage::query_path] *)
Fixpoint sql_visits (fuel : nat) (from to current : NodeId) (targets : list NodeId) (st : sql_path) :
    flow sql_path (option (list NodeId)) :=
  match targets with
  | [] => Continue st
  | t :: targets =>
      if decide (is_Some (sp_pred st !! t)) then sql_visits fuel from to current targets st else
      let pred := <[t := current]> (sp_pred st) in
      if decide (t = to) then
        Break (path ← walk fuel pred from current [to]; Some (reverse (path ++ [from])))
      else sql_visits fuel from to current targets (mkSqlPath pred (sp_queue st ++ [t]))
  end.

(** src/crates/weave-graph-store-sqlite/src/backend.rs:1084-1104 [SqliteStorage::query_path] *)
Fixpoint sql_path_loop (fuel wfuel : nat) (db : Db) (from to : NodeId) (st : sql_path) :
    option (option (list NodeId)) :=
  match fuel with
  | O => None
  | S fuel =>
      match sp_queue st with
      | [] => Some None
      | current :: queue =>
          match sql_get_edges db current with
          | Err _ => None
          | Ok es =>
              match sql_visits wfuel from to current (target_id <$> es) (mkSqlPath (sp_pred st) queue) with
              | Continue st => sql_path_loop fuel wfuel db from to st
              | Break r => p ← r; Some (Some p)
              end
          end
      end
  end.

(** src/crates/weave-graph-store-sqlite/src/backend.rs:1076-1105 [SqliteStorage::query_path]
    Each node is queued once, when some edge reaches it: one more round than
    there are edges, plus the start, is enough. *)
Definition sql_query_path (db : Db) (from to : NodeId) : option (option (list NodeId)) :=
  if decide (from = to) then Some (Some [from]) else
  let n := S (S (size (edges db))) in
  sql_path_loop n n db from to (mkSqlPath {[from := from]} [from]).

(** ** Unresolved references *)

(** src/crates/weave-graph-store-sqlite/src/backend.rs:1139-1156 [SqliteStorage::upsert_unresolved_refs] *)
Definition upsert_unresolved_refs (db : Db) (repo_id path : string) (refs : list string) :
    Db * result () StorageError :=
  (with_unresolved db (unresolved_refs db ++ (mkUnresolved repo_id path <$> refs)), Ok ()).

(** src/crates/weave-graph-store-sqlite/src/backend.rs:1158-1171 [SqliteStorage::purge_file_unresolved_refs] *)
Definition purge_file_unresolved_refs (db : Db) (repo_id path : string) : Db * result N StorageError :=
  let kept := filter (λ r, ¬ (ur_repo_id r = repo_id ∧ ur_path r = path)) (unresolved_refs db) in
  (with_unresolved db kept, Ok (N.of_nat (length (unresolved_refs db) - length kept))).

(** src/crates/weave-graph-store-sqlite/src/backend.rs:1173-1190 [SqliteStorage::get_files_with_unresolved_refs] *)
Definition get_files_with_unresolved_refs (db : Db) (repo_id short_name : string) :
    result (list string) StorageError :=
  Ok (select_order (ur_path <$> filter (λ r, ur_repo_id r = repo_id ∧ ur_short_name r = short_name)
        (unresolved_refs db))).

(** src/crates/weave-graph-store-sqlite/src/backend.rs:1192-1209 [SqliteStorage::get_unresolved_refs_for_path] *)
Definition get_unresolved_refs_for_path (db : Db) (repo_id path : string) :
    result (list string) StorageError :=
  Ok (select_order (ur_short_name <$> filter (λ r, ur_repo_id r = repo_id ∧ ur_path r = path)
        (unresolved_refs db))).

(** ** Doc links *)

(** src/crates/weave-graph-store-sqlite/src/doc_provenance.rs:34-72 [upsert_doc_link]
    Delete-then-insert in one transaction: a failing insert rolls both back. *)
Definition upsert_doc_link (db : Db) (doc_id : NodeId) (section : string) (target : NodeId)
    (kind : string) (p : option Provenance) : Db * result () StorageError :=
  if match p with Some r => negb (prov_doc_id r =? doc_id)%N | None => false end then
    (db, Err (Backend ("provenance doc_id " +:+ dec (default 0%N (prov_doc_id <$> p)) +:+
                       " does not match doc_links doc_id " +:+ dec doc_id)))
  else
  let kept := filter (λ x : N * doc_link, ¬ (dl_doc_id x.2 = doc_id ∧ dl_section x.2 = section ∧
                                             dl_target x.2 = target ∧ dl_kind x.2 = kind)) (doc_links db) in
  if foreign_keys && negb (bool_decide (is_Some (nodes db !! target))) then (db, Err fk_failed) else
  (with_doc_links db (<[fresh_rowid (dom kept) :=
     mkDocLink doc_id section target kind (commit_hash <$> p) (merkle_root_of <$> p) (signature_of <$> p)]> kept),
   Ok ()).

(** src/crates/weave-graph-store-sqlite/src/doc_provenance.rs:15-22 [DocLinkProvenance] *)
Record DocLinkProvenance := mkDlp {
  doc_link_id : N;
  dlp_target : NodeId;
  dlp_section : string;
  dlp_kind : string;
  dlp_provenance : Provenance;
}.

(** src/crates/weave-graph-store-sqlite/src/doc_provenance.rs:73-102 [doc_links_with_provenance] *)
Definition doc_links_with_provenance (db : Db) : result (list DocLinkProvenance) StorageError :=
  Ok (omap (λ x : N * doc_link,
        c ← dl_commit x.2; h ← dl_hash x.2; s ← dl_signature x.2;
        Some (mkDlp x.1 (dl_target x.2) (dl_section x.2) (dl_kind x.2) (mkProvenance (dl_doc_id x.2) c h s)))
      (sort_by (λ a b : N * doc_link, (a.1 <=? b.1)%N) (select_order (map_to_list (doc_links db))))).

(** ** Contracts *)

(** src/crates/weave-graph-store-sqlite/src/backend.rs:462-490 [SqliteStorage::upsert_contract] *)
Definition upsert_contract (db : Db) (a b hash commit blob : string) : Db * result () StorageError :=
  let kept := filter (λ c, ¬ (service_a c = a ∧ service_b c = b)) (contracts db) in
  (with_contracts db (kept ++ [mkContract a b (Some hash) commit (Some blob)]), Ok ()).

(** src/crates/weave-graph-store-sqlite/src/backend.rs:496-519 [SqliteStorage::contract_expectations] *)
Definition contract_expectations (db : Db) (a : string) :
    result (list (string * string * string * string)) StorageError :=
  Ok (select_order (omap (λ c, h ← contract_hash c;
        if decide (service_a c = a)
        then Some (service_b c, h, source_commit_sha c, default "" (entries_blob c)) else None)
      (contracts db))).

(** ** Notes *)

Definition note_fk_ok (db : Db) (target : option NodeId) : bool :=
  negb foreign_keys ||
  match target with Some i => bool_decide (is_Some (nodes db !! i)) | None => true end.

(** src/crates/weave-graph-store-sqlite/src/backend.rs:1211-1233 [SqliteStorage::pin_note] *)
Definition pin_note (db : Db) (n : Note) : Db * result N StorageError :=
  if negb (note_fk_ok db (note_target n)) then (db, Err fk_failed) else
  let id := fresh_rowid (dom (notes db)) in
  (with_notes db (<[id := mkNoteRow (note_target n) (note_moniker n) (note_kind n)
     (tier_as_str (note_tier n)) (note_author n) (note_content n) (note_hash n) (note_stale n)
     (note_expires_at n) (note_created_at n)]> (notes db)), Ok id).

(** src/crates/weave-graph-store-sqlite/src/backend.rs:884-898 [note_from_row] *)
Definition note_from_row (p : N * note_row) : Note :=
  let r := p.2 in
  mkNote p.1 (nr_target r) (nr_moniker r) (nr_kind r) (tier_parse (nr_tier r)) (nr_author r)
    (nr_content r) (nr_hash r) (nr_stale r) (nr_expires_at r) (nr_created_at r).

(** src/crates/weave-graph-store-sqlite/src/backend.rs:1235-1245 [SqliteStorage::all_notes] *)
Definition all_notes (db : Db) : result (list Note) StorageError :=
  Ok (note_from_row <$>
      sort_by (λ a b : N * note_row, pair_leb Z.leb N.leb (nr_created_at a.2, a.1) (nr_created_at b.2, b.1))
        (select_order (map_to_list (notes db)))).

(** src/crates/weave-graph-store-sqlite/src/backend.rs:1254-1254 [SqliteStorage::recall_notes]
    [tier = 'crystallized' OR expires_at > ?1]; a comparison with NULL is not true. *)
Definition recalled (now : Z) (r : note_row) : bool :=
  bool_decide (nr_tier r = "crystallized") ||
  match nr_expires_at r with Some t => (now <? t)%Z | None => false end.

(** src/crates/weave-graph-store-sqlite/src/backend.rs:1247-1263 [SqliteStorage::recall_notes] *)
Definition recall_notes (db : Db) (now : Z) : result (list Note) StorageError :=
  Ok (note_from_row <$>
      sort_by (λ a b : N * note_row, pair_leb Z.leb N.leb (- nr_created_at a.2, a.1)%Z (- nr_created_at b.2, b.1)%Z)
        (select_order (filter (λ p : N * note_row, recalled now p.2 = true) (map_to_list (notes db))))).

(** src/crates/weave-graph-store-sqlite/src/backend.rs:1265-1278 [SqliteStorage::reattach_note] *)
Definition reattach_note (db : Db) (id : N) (target : option NodeId) (stale : bool) :
    Db * result () StorageError :=
  match notes db !! id with
  | None => (db, Ok ())
  | Some r =>
      if negb (note_fk_ok db target) then (db, Err fk_failed) else
      (with_notes db (<[id := mkNoteRow target (nr_moniker r) (nr_kind r) (nr_tier r) (nr_author r)
         (nr_content r) (nr_hash r) stale (nr_expires_at r) (nr_created_at r)]> (notes db)), Ok ())
  end.

(** src/crates/weave-graph-store-sqlite/src/backend.rs:1284-1284 [SqliteStorage::delete_expired_notes] *)
Definition expired (now : Z) (r : note_row) : bool :=
  bool_decide (nr_tier r = "ephemeral") &&
  match nr_expires_at r with Some t => (t <=? now)%Z | None => false end.

(** src/crates/weave-graph-store-sqlite/src/backend.rs:1280-1289 [SqliteStorage::delete_expired_notes] *)
Definition delete_expired_notes (db : Db) (now : Z) : Db * result N StorageError :=
  let kept := filter (λ p : N * note_row, expired now p.2 = false) (notes db) in
  (with_notes db kept, Ok (N.of_nat (size (notes db) - size kept))).

(** ** Trace spans *)

(** src/crates/weave-graph-store-sqlite/src/backend.rs:1291-1321 [SqliteStorage::upsert_trace_span] *)
Definition upsert_trace_span (db : Db) (s : TraceSpan) : Db * result () StorageError :=
  match list_find (λ p : N * TraceSpan, trace_id p.2 = trace_id s ∧ span_id p.2 = span_id s)
          (map_to_list (trace_spans db)) with
  | Some (_, (id, _)) => (with_spans db (<[id := s]> (trace_spans db)), Ok ())
  | None => (with_spans db (<[fresh_rowid (dom (trace_spans db)) := s]> (trace_spans db)), Ok ())
  end.

(** src/crates/weave-graph-store-sqlite/src/backend.rs:1323-1335 [SqliteStorage::all_trace_spans] *)
Definition all_trace_spans (db : Db) : result (list TraceSpan) StorageError :=
  Ok (snd <$> sort_by (λ a b : N * TraceSpan, pair_leb Z.leb N.leb (start_us a.2, a.1) (start_us b.2, b.1))
        (select_order (map_to_list (trace_spans db)))).
End sqlite.
