(* ===== verification/SqlGraph.v ===== *)
(** * The SQLite store as a [Storage], and its own path search

    A valid database meets the interface the graph is proved against
    ([StorageView]), so every theorem of [CsrGraph] holds of a graph loaded from
    it; the search the backend runs on the edge table itself gives a path of the
    same length. *)

From S2P Require Import Prelude Str Bitmap Model Csr Paths CsrGraph SqlStore SqlProofs.

Section view.
Context `{SqliteLaws}.

Definition stored_nodes (db : Db) : list Node :=
  sort_by (λ a b, (node_id a <=? node_id b)%N) (select_order (rows (nodes db))).
Definition stored_edges (db : Db) : list Edge :=
  sort_by (λ a b, pair_leb N.leb N.leb (source_id a, target_id a) (source_id b, target_id b))
    (select_order (rows (edges db))).

Lemma elem_of_stored_nodes db n : n ∈ stored_nodes db ↔ ∃ i, nodes db !! i = Some n.
Proof. unfold stored_nodes. rewrite elem_of_sort_by, select_order_perm. apply elem_of_rows. Qed.

Lemma elem_of_stored_edges db e : e ∈ stored_edges db ↔ ∃ i, edges db !! i = Some e.
Proof. unfold stored_edges. rewrite elem_of_sort_by, select_order_perm. apply elem_of_rows. Qed.

Lemma stored_nodes_perm db : stored_nodes db ≡ₚ rows (nodes db).
Proof. unfold stored_nodes. rewrite sort_by_perm. apply select_order_perm. Qed.

Lemma stored_edges_perm db : stored_edges db ≡ₚ rows (edges db).
Proof. unfold stored_edges. rewrite sort_by_perm. apply select_order_perm. Qed.

Lemma rows_ids db : db_ok db → node_id <$> rows (nodes db) = (map_to_list (nodes db)).*1.
Proof.
  intros Hok. unfold rows. rewrite <-list_fmap_compose. apply list_fmap_ext.
  intros k [i n] Hk%list_elem_of_lookup_2%elem_of_map_to_list. simpl.
  by apply (no_id _ (do_nodes _ Hok)).
Qed.

Lemma stored_ids_sorted db : db_ok db → StronglySorted N.lt (node_id <$> stored_nodes db).
Proof.
  intros Hok. apply sorted_key_lt.
  - apply sort_by_sorted_key; intros; rewrite !N.leb_le in *; lia.
  - rewrite stored_nodes_perm, rows_ids by done. apply NoDup_fst_map_to_list.
Qed.

Lemma sqlite_view_lemma db : db_ok db → StorageView db (stored_nodes db) (stored_edges db).
Proof.
  intros Hok. split; try done.
  - by apply stored_ids_sorted.
  - intros i. cbn [get_node sqlite_storage]. unfold sql_get_node. f_equal.
    destruct (list_find _ (stored_nodes db)) as [[k n]|] eqn:Hf; cbn [mbind option_bind].
    + apply list_find_Some in Hf as (Hl & Hid & _).
      apply list_elem_of_lookup_2, elem_of_stored_nodes in Hl as [j Hj].
      rewrite (no_id _ (do_nodes _ Hok) _ _ Hj) in Hid. by subst.
    + apply list_find_None in Hf. rewrite Forall_forall in Hf.
      destruct (nodes db !! i) as [n|] eqn:Hn; [|done].
      destruct (Hf n); [apply elem_of_stored_nodes; eauto|by apply (no_id _ (do_nodes _ Hok))].
  - intros i. eexists. split; [done|]. by rewrite select_order_perm, stored_edges_perm.
  - intros i. eexists. split; [done|]. by rewrite select_order_perm, stored_edges_perm.
  - intros sym. eexists. split; [done|].
    destruct (select_order _) as [|n l] eqn:Hs; simpl.
    + rewrite Forall_forall. intros n [i Hn]%elem_of_stored_nodes Hsym.
      assert (n ∈ (nil : list Node)) as ?%elem_of_nil; [|done].
      rewrite <-Hs, select_order_perm, list_elem_of_filter, elem_of_rows. eauto.
    + assert (n ∈ n :: l) as Hin by set_solver.
      rewrite <-Hs, select_order_perm, list_elem_of_filter, elem_of_rows in Hin.
      rewrite elem_of_stored_nodes. naive_solver.
Qed.

Definition edge_rel (db : Db) (a b : NodeId) : Prop :=
  ∃ i e, edges db !! i = Some e ∧ source_id e = a ∧ target_id e = b.

(** With foreign keys enforced, the graph's relation is the edge table's. *)
Lemma store_edge_rel db a b :
  db_ok db → store_edge (stored_nodes db) (stored_edges db) a b ↔ edge_rel db a b.
Proof.
  intros Hok. unfold store_edge, edge_rel. setoid_rewrite list_elem_of_fmap.
  setoid_rewrite elem_of_stored_nodes. setoid_rewrite elem_of_stored_edges. split; [naive_solver|].
  intros (i & e & Hi & <- & <-). destruct (eo_fk _ _ (do_edges _ Hok) _ _ Hi) as [[n Hn] [m Hm]].
  pose proof (no_id _ (do_nodes _ Hok) _ _ Hn). pose proof (no_id _ (do_nodes _ Hok) _ _ Hm).
  naive_solver.
Qed.
End view.

(** ** Path search over the edge table *)
Section path.
Context `{SqliteLaws} (db : Db) (s t : NodeId).
Context (Hst : s ≠ t).

Definition reach_bound : gset N := {[s]} ∪ list_to_set (target_id <$> rows (edges db)).

Lemma reach_bound_size : size reach_bound ≤ S (size (edges db)).
Proof.
  unfold reach_bound. etrans; [apply size_union_le|]. rewrite size_singleton.
  pose proof (size_list_to_set_le (target_id <$> rows (edges db))) as Hle. revert Hle.
  rewrite length_fmap. unfold rows at 2. rewrite length_fmap, length_map_to_list. lia.
Qed.

Record sql_path_inv (W : list N) (k : nat) (D : gmap N nat) (st : sql_path) : Prop := {
  si_bfs : bfs_path_inv (edge_rel db) s W D (sp_pred st);
  si_pred x : is_Some (sp_pred st !! x) ↔ is_Some (D !! x);
  si_target : D !! t = None;
  si_dom : dom D ⊆ reach_bound;
  si_count : k + length (sp_queue st) ≤ size D;
  si_dist x d : D !! x = Some d → d ≤ k;
}.

Lemma si_size W k D st : sql_path_inv W k D st → size D ≤ S (size (edges db)).
Proof.
  intros HI. rewrite <-size_dom. etrans; [|apply reach_bound_size].
  apply subseteq_size, (si_dom _ _ _ _ HI).
Qed.

Lemma sql_visits_spec wfuel u k ts D st :
  S (size (edges db)) ≤ wfuel → (∀ v, v ∈ ts → edge_rel db u v) →
  sql_path_inv (u :: sp_queue st) (S k) D st → (∀ d, D !! u = Some d → d ≤ k) →
  match sql_visits wfuel s t u ts st with
  | Continue st' => ∃ D', sql_path_inv (u :: sp_queue st') (S k) D' st' ∧ D ⊆ D' ∧
      ∀ v, v ∈ ts → is_Some (D' !! v)
  | Break r => ∃ p, r = Some p ∧ shortest_path (edge_rel db) s t p
  end.
Proof.
  intros Hw. revert D st; induction ts as [|v ts IH]; intros D st Hn HI Hu; simpl.
  { exists D. split_and!; [done..|set_solver]. }
  assert (edge_rel db u v) as Huv by set_solver.
  destruct (decide (is_Some (sp_pred st !! v))) as [Hv|Hv].
  { apply (si_pred _ _ _ _ HI) in Hv as [dv Hv].
    specialize (IH D st ltac:(set_solver) HI Hu).
    destruct (sql_visits _ _ _ _ _ _); [|done].
    destruct IH as (D' & ? & Hsub & HD'). exists D'. split_and!; [done..|].
    intros w [->|?]%elem_of_cons; [|auto]. exists dv. by eapply lookup_weaken. }
  assert (D !! v = None) as HDv.
  { apply eq_None_not_Some. by rewrite <-(si_pred _ _ _ _ HI). }
  destruct (bfs_path_discover (edge_rel db) s u (sp_queue st) D (sp_pred st) v (si_bfs _ _ _ _ HI) Huv HDv)
    as (du & Hdu & HI').
  pose proof (si_size _ _ _ _ HI).
  case_decide as Hvt; simpl.
  { subst v. pose proof (si_count _ _ _ _ HI). pose proof (Hu _ Hdu).
    destruct (bfs_path_found (edge_rel db) s u (sp_queue st) D (sp_pred st) t du wfuel HI' Hdu)
      as (l & Hwalk & Hp); [congruence|done|lia|].
    rewrite Hwalk. simpl. eauto. }
  assert (sql_path_inv (u :: (sp_queue st ++ [v])) (S k) (<[v:=S du]> D)
    (mkSqlPath (<[v:=u]> (sp_pred st)) (sp_queue st ++ [v]))) as HI2.
  { split; simpl; [done|..].
    - intros x. rewrite !lookup_insert_is_Some, (si_pred _ _ _ _ HI). done.
    - rewrite lookup_insert_ne by done. apply (si_target _ _ _ _ HI).
    - rewrite dom_insert. pose proof (si_dom _ _ _ _ HI).
      destruct Huv as (i & e & Hi & _ & <-). unfold reach_bound in *.
      assert (target_id e ∈ target_id <$> rows (edges db)); [|set_solver].
      apply list_elem_of_fmap_2, elem_of_rows. eauto.
    - rewrite map_size_insert_None, length_app by done. simpl.
      pose proof (si_count _ _ _ _ HI). lia.
    - intros x d [[<- <-]|[_ ?]]%lookup_insert_Some.
      + specialize (Hu _ Hdu). lia.
      + by eapply (si_dist _ _ _ _ HI). }
  specialize (IH _ (mkSqlPath (<[v:=u]> (sp_pred st)) (sp_queue st ++ [v])) ltac:(set_solver) HI2).
  assert (∀ d, <[v:=S du]> D !! u = Some d → d ≤ k) as Hu'.
  { intros d. rewrite lookup_insert_ne by congruence. auto. }
  specialize (IH Hu'). destruct (sql_visits _ _ _ _ ts _) as [st'|r]; [|done].
  destruct IH as (D' & ? & Hsub & HD'). exists D'. split_and!; [done| |].
  - etrans; [|done]. by apply insert_subseteq.
  - intros w [->|?]%elem_of_cons; [|auto]. exists (S du).
    eapply lookup_weaken; [|done]. by rewrite lookup_insert_eq.
Qed.

Lemma sql_path_loop_spec fuel k wfuel D st :
  S (size (edges db)) ≤ wfuel → S (size (edges db)) < fuel + k →
  sql_path_inv (sp_queue st) k D st →
  ∃ r, sql_path_loop fuel wfuel db s t st = Some r ∧
    match r with
    | Some p => shortest_path (edge_rel db) s t p
    | None => ¬ rtc (edge_rel db) s t
    end.
Proof.
  intros Hw. revert k D st; induction fuel as [|fuel IH]; intros k D st Hf HI.
  { pose proof (si_size _ _ _ _ HI). pose proof (si_count _ _ _ _ HI). lia. }
  simpl. destruct (sp_queue st) as [|u queue] eqn:Hq.
  { exists None. split; [done|].
    eapply bfs_path_exhausted; [apply (si_bfs _ _ _ _ HI)|apply (si_target _ _ _ _ HI)]. }
  set (ts := target_id <$> _).
  assert (∀ v, v ∈ ts ↔ edge_rel db u v) as Hts.
  { intros v. subst ts. rewrite list_elem_of_fmap. setoid_rewrite select_order_perm.
    setoid_rewrite list_elem_of_filter. setoid_rewrite elem_of_rows. unfold edge_rel. naive_solver. }
  assert (sql_path_inv (u :: queue) (S k) D (mkSqlPath (sp_pred st) queue)) as HI'.
  { destruct HI as [? ? ? ? Hc Hd]. split; simpl; [done..| |].
    - rewrite Hq in Hc. simpl in Hc. lia.
    - intros x d ?%Hd. lia. }
  pose proof (sql_visits_spec wfuel u k ts D (mkSqlPath (sp_pred st) queue) Hw ltac:(naive_solver) HI'
    ltac:(apply (si_dist _ _ _ _ HI))) as HV.
  destruct (sql_visits _ _ _ _ _ _) as [st'|r].
  - destruct HV as (D' & HI2 & _ & HD'). apply (IH (S k) D'); [lia|].
    destruct HI2 as [Hb ? ? ? ? ?]. split; [|done..].
    eapply bfs_path_finish; [done|]. intros y ?%Hts. auto.
  - destruct HV as (p & -> & Hp). simpl. exists (Some p). done.
Qed.

Lemma sql_path_init : sql_path_inv [s] 0 {[s := 0]} (mkSqlPath {[s := s]} [s]).
Proof.
  split; simpl.
  - apply bfs_path_init.
  - intros x. by rewrite !lookup_singleton_is_Some.
  - by rewrite lookup_singleton_ne.
  - rewrite dom_singleton. unfold reach_bound. set_solver.
  - by rewrite map_size_singleton.
  - intros x d [_ <-]%lookup_singleton_Some. done.
Qed.
End path.

Lemma sql_query_path_spec `{SqliteLaws} db a b :
  ∃ r, sql_query_path db a b = Some r ∧
    match r with
    | Some p => shortest_path (edge_rel db) a b p
    | None => ¬ rtc (edge_rel db) a b
    end.
Proof.
  unfold sql_query_path. case_decide as Hab.
  - subst. exists (Some [b]). split; [done|]. exists []. split_and!; [done..|]. intros; simpl; lia.
  - eapply sql_path_loop_spec; [done|..|by apply sql_path_init]; lia.
Qed.

(** ** Shared facts *)
Section facts.
Context `{SqliteLaws}.

Lemma stored_ids db i : db_ok db → i ∈ node_id <$> stored_nodes db ↔ is_Some (nodes db !! i).
Proof.
  intros Hok. rewrite stored_nodes_perm, rows_ids, list_elem_of_fmap by done. split.
  - intros ([j n] & -> & ?%elem_of_map_to_list). simpl. eauto.
  - intros [n Hn]. exists (i, n). by rewrite elem_of_map_to_list.
Qed.

Lemma length_stored_nodes db : length (stored_nodes db) = size (nodes db).
Proof. rewrite stored_nodes_perm. unfold rows. by rewrite length_fmap, length_map_to_list. Qed.

Lemma edge_rel_ends db a b :
  db_ok db → rtc (edge_rel db) a b → a ≠ b → is_Some (nodes db !! a) ∧ is_Some (nodes db !! b).
Proof.
  intros Hok Hab Hne. split.
  - inversion Hab as [|? ? ? (i & e & Hi & <- & _)]; subst; [done|].
    by apply (eo_fk _ _ (do_edges _ Hok) _ _ Hi).
  - apply rtc_inv_r in Hab as [?|(y & _ & (i & e & Hi & _ & <-))]; [done|].
    by apply (eo_fk _ _ (do_edges _ Hok) _ _ Hi).
Qed.

Lemma bsteps_store_rel db k a b :
  db_ok db → bsteps (store_edge (stored_nodes db) (stored_edges db)) k a b ↔ bsteps (edge_rel db) k a b.
Proof.
  intros Hok. split; (induction 1; econstructor; [by apply store_edge_rel|done]).
Qed.

(** Answers to the same question over the same relation. *)
Lemma path_answers_agree db a b r r' :
  db_ok db → is_Some (nodes db !! a) →
  match r with
  | Some p => shortest_path (store_edge (stored_nodes db) (stored_edges db)) a b p
  | None => a ∉ node_id <$> stored_nodes db ∨ b ∉ node_id <$> stored_nodes db ∨
      ¬ rtc (store_edge (stored_nodes db) (stored_edges db)) a b
  end →
  match r' with Some p => shortest_path (edge_rel db) a b p | None => ¬ rtc (edge_rel db) a b end →
  length <$> r = length <$> r'.
Proof.
  intros Hok Ha Hr Hr'. destruct r as [p|], r' as [p'|]; simpl; [| | |done].
  - destruct (shortest_path_bsteps _ _ _ _ Hr) as (l & -> & Hb).
    destruct (shortest_path_bsteps _ _ _ _ Hr') as (l' & -> & Hb').
    destruct Hr as (? & ? & _ & _ & Hmin), Hr' as (? & ? & _ & _ & Hmin'). simplify_eq.
    apply bsteps_store_rel, Hmin' in Hb; [|done]. apply bsteps_store_rel, Hmin in Hb'; [|done].
    simpl. f_equal. lia.
  - destruct Hr'. destruct (shortest_path_bsteps _ _ _ _ Hr) as (l & _ & Hb%bsteps_store_rel); [|done].
    apply rtc_bsteps; eauto.
  - destruct (shortest_path_bsteps _ _ _ _ Hr') as (l' & _ & Hb'). rewrite !stored_ids in Hr by done.
    assert (rtc (edge_rel db) a b) as Hab by (apply rtc_bsteps; eauto).
    destruct Hr as [?|[Hb|Hno]]; [done| |].
    + destruct (decide (a = b)) as [->|Hne]; [done|]. by destruct (edge_rel_ends db a b Hok Hab Hne).
    + destruct Hno. apply rtc_bsteps. exists (length l'). by apply bsteps_store_rel.
Qed.
End facts.

(** ** The contracts of the store *)

(** C23: a valid SQLite database meets the [Storage] interface: [all_nodes] is
    the node table in strictly ascending id order, [all_edges] the edge table,
    the streaming methods fold over exactly these, [get_node], [get_edges],
    [get_callers] and [get_node_by_symbol] answer from the same rows.  With
    foreign keys enforced, the edges the graph keeps are all stored edges. *)
Theorem sqlite_refines_storage `{SqliteLaws} db (Hok : db_ok db) :
  ∃ ns es, StorageView db ns es ∧ ns ≡ₚ rows (nodes db) ∧ es ≡ₚ rows (edges db) ∧
    ∀ a b, store_edge ns es a b ↔ ∃ i e, edges db !! i = Some e ∧ source_id e = a ∧ target_id e = b.
Proof.
  exists (stored_nodes db), (stored_edges db). split_and!.
  - by apply sqlite_view_lemma.
  - apply stored_nodes_perm.
  - apply stored_edges_perm.
  - intros a b. by apply store_edge_rel.
Qed.

(** C6: the backend's path search over the edge table always returns, and it
    agrees with the graph's: for a stored start both find nothing, or both find
    a shortest path and the two have the same length.  For an id that is not
    stored they differ in one case: asked for a path from it to itself, the
    backend returns the one-node path, the graph none. *)
Theorem sql_and_csr_paths_agree {B} `{BitmapLaws B} `{SqliteLaws} db a b
    (Hok : db_ok db) (Hsmall : (N.of_nat (size (nodes db)) ≤ u32_MAX)%N) :
  ∃ g r r', load db = Some (Ok g) ∧ query_path (B := B) g a b = Some r ∧
    sql_query_path db a b = Some r' ∧
    match r' with Some p => shortest_path (edge_rel db) a b p | None => ¬ rtc (edge_rel db) a b end ∧
    (if decide (is_Some (nodes db !! a)) then length <$> r = length <$> r'
     else r = None ∧ r' = if decide (a = b) then Some [a] else None).
Proof.
  destruct (load_rep db _ _ (sqlite_view_lemma db Hok)) as (g & Hl & Hg).
  { by rewrite length_stored_nodes. }
  destruct (query_path_rep (B := B) g _ _ a b Hg) as (r & Hr & Hspec).
  destruct (sql_query_path_spec db a b) as (r' & Hr' & Hspec').
  exists g, r, r'. split_and!; [done..|]. case_decide as Ha; [by eapply path_answers_agree|]. split.
  - destruct r as [p|]; [|done]. unfold query_path in Hr.
    rewrite (graph_index_None Hg) in Hr by (by rewrite stored_ids). done.
  - case_decide as Hab.
    + subst b. unfold sql_query_path in Hr'. rewrite decide_True in Hr' by done. by simplify_eq.
    + destruct r' as [p'|]; [|done]. destruct (shortest_path_bsteps _ _ _ _ Hspec') as (l & _ & Hb).
      destruct (edge_rel_ends db a b Hok); [apply rtc_bsteps; eauto|done..].
Qed.

Lemma sqlite_refines_storage_witness :
  ∃ ns es, StorageView ex_db ns es ∧ store_edge ns es 1 2.
Proof.
  destruct (sqlite_refines_storage ex_db ex_db_ok) as (ns & es & Hv & _ & _ & He).
  exists ns, es. split; [exact Hv|]. apply He. exists 1%N. eexists. split; [vm_compute; reflexivity|done].
Defined.

Lemma sql_and_csr_paths_agree_witness :
  ∃ g r, load ex_db = Some (Ok g) ∧ query_path (B := gset N) g 1 2 = Some r ∧
    sql_query_path ex_db 1 2 = Some (Some [1; 2]%N) ∧ length <$> r = Some 2.
Proof.
  destruct (sql_and_csr_paths_agree (B := gset N) ex_db 1 2 ex_db_ok ltac:(done))
    as (g & r & r' & Hg & Hr & Hr' & _ & Hlen).
  exists g, r. split_and!; [exact Hg|exact Hr|vm_compute; reflexivity|].
  vm_compute in Hr'. simplify_eq. exact Hlen.
Defined.
