(* ===== verification/SqlReindex.v ===== *)
(** * Rewriting a file's rows

    What the store's statements achieve in the order the indexer uses them:
    edges purged before nodes, node identity across upserts, the sweep of stale
    nodes; and the life of a note. *)

From S2P Require Import Prelude Str Bitmap Model Csr Paths CsrGraph SqlStore SqlProofs SqlGraph.

Section reindex.
Context `{SqliteLaws}.

Lemma elem_of_file_nodes db repo path i :
  db_ok db → i ∈ file_nodes db repo path ↔
  ∃ n, nodes db !! i = Some n ∧ node_repo_id n = repo ∧ node_path n = path.
Proof.
  intros Hok. unfold file_nodes. rewrite list_elem_of_fmap. setoid_rewrite list_elem_of_filter.
  setoid_rewrite elem_of_rows. split.
  - intros (n & -> & [??] & j & Hj). rewrite (no_id _ (do_nodes _ Hok) _ _ Hj). eauto.
  - intros (n & Hn & ? & ?). exists n. rewrite (no_id _ (do_nodes _ Hok) _ _ Hn). eauto.
Qed.

Lemma purge_file_edges_lookup db repo path i e :
  edges (purge_file_edges db repo path).1 !! i = Some e ↔
  edges db !! i = Some e ∧ source_id e ∉ file_nodes db repo path ∧ target_id e ∉ file_nodes db repo path.
Proof. unfold purge_file_edges. cbn. rewrite map_lookup_filter_Some. cbn. tauto. Qed.

Lemma touches_ext db db' id :
  edges db' = edges db → doc_links db' = doc_links db → touches db' id ↔ touches db id.
Proof. unfold touches. by intros -> ->. Qed.

(** Deleting nodes that nothing references, one statement per node; foreign keys play
    no part. *)
Lemma delete_free db x : ¬ touches db x →
  ∃ db' k, delete_nodes db [x] = (db', Ok k) ∧ nodes db' = delete x (nodes db) ∧ edges db' = edges db ∧ doc_links db' = doc_links db.
Proof.
  intros Hfree. unfold delete_nodes. assert (existsb (referenced db) [x] = false) as ->.
  { cbn. rewrite orb_false_r. apply not_true_iff_false. by rewrite referenced_true. }
  rewrite andb_false_r. eexists _, _. split; [done|]. by destruct foreign_keys.
Qed.
Lemma delete_loop gone : ∀ db, (∀ id, id ∈ gone → ¬ touches db id) →
  ∃ db' l, try_loop (λ db i, delete_nodes db [i]) gone db = (db', Ok l) ∧ (foreign_keys = true → db_ok db → db_ok db') ∧
    edges db' = edges db ∧ ∀ i, nodes db' !! i = if decide (i ∈ gone) then None else nodes db !! i.
Proof.
  induction gone as [|x gone IH]; intros db Hfree; cbn [try_loop].
  { exists db, []. split_and!; [done..|]. intros i. by rewrite decide_False by set_solver. }
  destruct (delete_free db x) as (db1 & k & Hd & Hn & He & Hdl); [apply Hfree; by left|]. rewrite Hd.
  destruct (IH db1) as (db' & l & Hl & Hok' & He' & Hn').
  { intros id Hid. rewrite touches_ext by done. apply Hfree. by right. }
  rewrite Hl. exists db', (k :: l). split_and!; [done| |by rewrite He'|].
  - intros Hfk Hok. apply Hok'; [done|]. pose proof (delete_nodes_ok_1 db [x] Hfk Hok) as Hok1. by rewrite Hd in Hok1.
  - intros i. rewrite Hn', Hn. destruct (decide (x = i)) as [->|Hne].
    + rewrite lookup_delete_eq, (decide_True (P := i ∈ i :: gone)) by set_solver. by case_decide.
    + rewrite lookup_delete_ne by done. repeat case_decide; set_solver.
Qed.

Lemma purge_file_edges_links db repo path :
  doc_links (purge_file_edges db repo path).1 = doc_links db.
Proof. done. Qed.

(** Once a file's edges are purged, only doc links can reference its nodes. *)
Lemma touches_purged db repo path id :
  id ∈ file_nodes db repo path →
  touches (purge_file_edges db repo path).1 id ↔ ∃ i l, doc_links db !! i = Some l ∧ dl_target l = id.
Proof.
  intros Hid. unfold touches. rewrite purge_file_edges_links. setoid_rewrite purge_file_edges_lookup.
  split; [|auto]. intros [(i & e & (_ & ? & ?) & [<-|<-])|?]; done.
Qed.

(** ** Upserts *)

(** When an upsert fails: another row holds the natural key, and the row chosen
    for the update is not that one. *)
Lemma upsert_one_node_cases db n :
  db_ok db →
  match upsert_one_node db n with
  | (db', Ok id) => db_ok db' ∧ nodes db' = <[id := with_id n id]> (nodes db) ∧ edges db' = edges db ∧
      match existing (candidates db n) n with
      | Some m => nodes db !! id = Some m
      | None => nodes db !! id = None
      end
  | (db', Err e) => db' = db ∧ e = unique_failed ∧
      ∃ j m, nodes db !! j = Some m ∧ same_key m n = true ∧
        existing (candidates db n) n ≠ Some m
  end.
Proof.
  intros Hok. pose proof (upsert_one_node_ok db n Hok) as Hu. unfold upsert_one_node in *.
  destruct (existing _ n) as [m|] eqn:He.
  - apply existing_elem in He as [Hc _]. apply elem_of_candidates in Hc as ([i Hi] & Hr & Hp & Hs & Hk).
    pose proof (no_id _ (do_nodes _ Hok) _ _ Hi) as Hid.
    unfold update_node in *. rewrite Hid, Hi in *.
    destruct (key_holder _ _ _) as [h|] eqn:Hh; [|naive_solver].
    apply key_holder_Some in Hh as ([j Hj] & Hkey & Hne). split_and!; [done..|].
    exists j, h. split_and!; [done| |congruence].
    rewrite same_key_true in Hkey |- *. simpl in Hkey. intuition congruence.
  - unfold insert_node in *. destruct (key_holder db n None) as [h|] eqn:Hh.
    + apply key_holder_Some in Hh as ([j Hj] & Hkey & _). split_and!; [done..|]. exists j, h. done.
    + destruct Hu as (? & ? & ?). split_and!; [done..|]. apply not_elem_of_dom, fresh_rowid_new.
Qed.

Lemma existing_None rs n :
  existing rs n = None ↔ ∀ m, m ∈ rs → node_signature m ≠ node_signature n ∧ node_line_start m ≠ node_line_start n.
Proof.
  unfold existing. destruct (list_find (λ m, node_signature m = _) rs) as [[k x]|] eqn:Hf.
  - split; [done|]. intros Hno. apply list_find_Some in Hf as (Hl%list_elem_of_lookup_2 & Hx & _).
    by destruct (Hno _ Hl).
  - rewrite fmap_None, list_find_None. apply list_find_None in Hf. rewrite !Forall_forall in *. naive_solver.
Qed.

(** The table after a batch of upserts with the returned ids. *)
Definition upserted (t : gmap N Node) (ns : list Node) (ids : list NodeId) : gmap N Node :=
  foldl (λ t p, <[p.2 := with_id p.1 p.2]> t) t (zip ns ids).

Lemma upsert_one_node_links db n : doc_links (upsert_one_node db n).1 = doc_links db.
Proof. unfold upsert_one_node, update_node, insert_node. repeat case_match; simplify_eq; done. Qed.

Lemma upsert_nodes_result db ns db' ids :
  db_ok db → upsert_nodes db ns = (db', Ok ids) →
  db_ok db' ∧ nodes db' = upserted (nodes db) ns ids ∧ edges db' = edges db ∧
    doc_links db' = doc_links db ∧ length ids = length ns.
Proof.
  unfold upsert_nodes. revert db ids; induction ns as [|n ns IH]; intros db ids Hok; cbn [try_loop].
  { intros; simplify_eq. done. }
  pose proof (upsert_one_node_ok db n Hok) as Hu. pose proof (upsert_one_node_links db n) as Hdl1.
  destruct (upsert_one_node db n) as [db1 [id|e]]; [|done]. destruct Hu as (Hok1 & Hn1 & He1).
  destruct (try_loop upsert_one_node ns db1) as [db2 [l|e]] eqn:Hl; [|done]. intros; simplify_eq.
  destruct (IH db1 l Hok1 Hl) as (? & Hn & He & Hdl & Hlen). simpl in Hdl1.
  split_and!; [done| |congruence|congruence|simpl; lia].
  rewrite Hn, Hn1. done.
Qed.

Lemma upserted_in t ns ids i : length ids = length ns → i ∈ ids → is_Some (upserted t ns ids !! i).
Proof.
  unfold upserted. revert t ids; induction ns as [|n ns IH]; intros t [|id ids] Hl Hi; try done; [by apply not_elem_of_nil in Hi|].
  cbn. destruct (decide (i ∈ ids)) as [Hin|Hout]; [apply IH; [by injection Hl|done]|]. apply elem_of_cons in Hi as [->|Hi]; [|done].
  fold (upserted (<[id := with_id n id]> t) ns ids). assert (∀ t', upserted t' ns ids !! id = t' !! id) as ->; [|rewrite lookup_insert_eq; eauto].
  clear -Hout. revert ids Hout; induction ns as [|m ns IH]; intros [|j ids] Hout t'; try done. unfold upserted in *. cbn.
  rewrite IH by set_solver. by rewrite lookup_insert_ne by set_solver.
Qed.
Lemma upserted_not_in t ns ids i : i ∉ ids → upserted t ns ids !! i = t !! i.
Proof.
  unfold upserted. revert t ids; induction ns as [|n ns IH]; intros t [|id ids] Hi; [done..|].
  cbn. rewrite IH by set_solver. by rewrite lookup_insert_ne by set_solver.
Qed.
End reindex.

(** The documented purge order works and is needed.  Purging the nodes of a
    file fails, changing nothing, exactly when an edge or a doc link references
    one of them; once its edges are purged (in both directions, nothing else
    changes) only a doc link can, and without one both steps succeed, remove
    exactly the file's nodes and exactly the edges touching them, and leave a
    valid database. *)
Theorem purge_edges_then_nodes `{SqliteLaws} db repo path
    (Hfk : foreign_keys = true) (Hok : db_ok db) :
  let gone := file_nodes db repo path in
  let db1 := (purge_file_edges db repo path).1 in
  (purge_file_nodes db repo path = (db, Err fk_failed) ↔ ∃ id, id ∈ gone ∧ touches db id) ∧
  ((∃ i l, doc_links db !! i = Some l ∧ dl_target l ∈ gone) →
     purge_file_nodes db1 repo path = (db1, Err fk_failed)) ∧
  ((∀ i l, doc_links db !! i = Some l → dl_target l ∉ gone) →
     ∃ db2, purge_file_nodes db1 repo path = (db2, Ok (N.of_nat (length gone))) ∧ db_ok db2 ∧
       (∀ i, nodes db2 !! i = if decide (i ∈ gone) then None else nodes db !! i) ∧
       (∀ i e, edges db2 !! i = Some e ↔
          edges db !! i = Some e ∧ source_id e ∉ gone ∧ target_id e ∉ gone)).
Proof.
  intros gone db1. pose proof (purge_file_edges_ok db repo path Hok) as Hok1.
  pose proof (touches_purged db repo path) as Ht. fold db1 in Hok1, Ht. fold gone in Ht.
  unfold purge_file_nodes. change (file_nodes db1 repo path) with gone. fold gone.
  pose proof (delete_nodes_ok db1 gone Hfk Hok1) as Hd1. split_and!.
  - pose proof (delete_nodes_ok db gone Hfk Hok) as Hd.
    destruct (delete_nodes db gone) as [db' [k|e]]; naive_solver.
  - intros (i & l & Hi & Hl). destruct (delete_nodes db1 gone) as [db' [k|e]]; [|naive_solver].
    destruct Hd1 as (_ & _ & _ & _ & _ & Hno). destruct (Hno _ Hl). apply Ht; eauto.
  - intros Hfree. destruct (delete_nodes db1 gone) as [db' [k|e]].
    + destruct Hd1 as (Hok2 & -> & Hed & _ & Hn & _). exists db'. split_and!; [done..| |].
      * intros i. rewrite Hn, lookup_delete_list. done.
      * intros i e. rewrite Hed. apply purge_file_edges_lookup.
    + destruct Hd1 as (_ & _ & id & Hid & (i & l & Hi & <-)%Ht); [|done]. by destruct (Hfree _ _ Hi).
Qed.

(** C4: Re-indexing one file is exact.  Take a valid database: purge the edges of the
    file, upsert its parsed nodes, sweep the nodes of the file whose ids were not
    returned.  If the upserts succeed (and no doc link points at a node to be swept),
    the sweep does; the file's rows are then exactly the upserted ones, every other
    row is untouched, and the edges left are exactly those that touched no node of the
    file in either direction.  So every edge joins stored nodes and keys stay unique,
    whether or not the engine enforces foreign keys. *)
Theorem reindex_file_exact `{SqliteLaws} db repo path ns db2 ids
    (Hok : db_ok db)
    (Hups : upsert_nodes (purge_file_edges db repo path).1 ns = (db2, Ok ids))
    (Hlinks : ∀ i l, doc_links db !! i = Some l → dl_target l ∈ file_nodes db repo path → dl_target l ∈ ids) :
  ∃ db3 k, purge_file_nodes_except db2 repo path ids = (db3, Ok k) ∧
    (∀ i, nodes db3 !! i =
       if decide (i ∈ ids) then upserted (nodes db) ns ids !! i
       else if decide (i ∈ file_nodes db repo path) then None else nodes db !! i) ∧
    (∀ i e, edges db3 !! i = Some e ↔ edges db !! i = Some e ∧
       source_id e ∉ file_nodes db repo path ∧ target_id e ∉ file_nodes db repo path) ∧
    nodes_ok (nodes db3) ∧ edges_ok (nodes db3) (edges db3) ∧ (foreign_keys = true → db_ok db3).
Proof.
  apply upsert_nodes_result in Hups as (Hok2 & Hn2 & He2 & Hdl2 & Hlen); [|by apply purge_file_edges_ok].
  change (nodes (purge_file_edges db repo path).1) with (nodes db) in Hn2.
  unfold purge_file_nodes_except. set (stale := filter _ _).
  assert (∀ i, i ∈ stale ↔ i ∉ ids ∧ i ∈ file_nodes db repo path) as Hstale.
  { intros i. unfold stale. rewrite list_elem_of_filter, select_order_perm.
    rewrite !elem_of_file_nodes, Hn2 by done. split; intros [Hi Hf]; split; try done;
      by rewrite upserted_not_in in *. }
  destruct (delete_loop stale db2) as (db3 & l & Hl & Hok3 & He3 & Hn3).
  { intros id [Hni Hid]%Hstale. rewrite (touches_ext _ _ _ He2 Hdl2), touches_purged by done.
    intros (i & dl & Hi & <-). eauto. }
  assert (∀ i, nodes db3 !! i = if decide (i ∈ ids) then upserted (nodes db) ns ids !! i
       else if decide (i ∈ file_nodes db repo path) then None else nodes db !! i) as Hn.
  { intros i. rewrite Hn3, Hn2. destruct (decide (i ∈ ids)).
    + rewrite decide_False by (rewrite Hstale; tauto). done.
    + rewrite upserted_not_in by done. repeat case_decide; set_solver. }
  assert (∀ i e, edges db3 !! i = Some e ↔ edges db !! i = Some e ∧
       source_id e ∉ file_nodes db repo path ∧ target_id e ∉ file_nodes db repo path) as He by (intros i e; by rewrite He3, He2, purge_file_edges_lookup).
  rewrite Hl. do 2 eexists. split_and!; [done..| | |by intros Hfk; apply Hok3].
  - assert (∀ i n, nodes db3 !! i = Some n → nodes db2 !! i = Some n) as Hsub by (intros i n; rewrite Hn3; by case_decide).
    destruct (do_nodes _ Hok2) as [Hid Hkey]. split; [eauto|]. intros i j n m Hi%Hsub Hj%Hsub. by apply Hkey.
  - destruct (do_edges _ Hok) as [Hid Hkey Hfk]. split.
    + intros i e (Hi & _)%He. by apply Hid.
    + intros i j e f (Hi & _)%He (Hj & _)%He. by apply Hkey.
    + intros i e (Hi & Hs & Ht)%He. destruct (Hfk i e Hi) as [Hs' Ht']. rewrite !Hn.
      split; (case_decide; [by apply upserted_in|by rewrite decide_False]).
Qed.

(** An upsert keeps a node's identity.  If a row of the same declaration
    (repository, path, symbol, kind) has the node's signature, the returned id
    is that of such a row; a new id is given out exactly when no row of the
    declaration shares the signature or the line; the row under the returned id
    then holds the node, no other row and no edge changes.  A failure changes
    nothing and means that a row not chosen for the update holds the natural
    key. *)
Theorem upsert_node_identity `{SqliteLaws} db n (Hok : db_ok db) :
  match upsert_node db n with
  | (db', Ok id) =>
      nodes db' = <[id := with_id n id]> (nodes db) ∧ edges db' = edges db ∧
      ((∃ m, m ∈ candidates db n ∧ node_signature m = node_signature n) →
       ∃ m, nodes db !! id = Some m ∧ m ∈ candidates db n ∧ node_signature m = node_signature n) ∧
      (nodes db !! id = None ↔ ∀ m, m ∈ candidates db n →
         node_signature m ≠ node_signature n ∧ node_line_start m ≠ node_line_start n)
  | (db', Err e) => db' = db ∧ e = unique_failed ∧
      ∃ j m, nodes db !! j = Some m ∧ same_key m n = true ∧ existing (candidates db n) n ≠ Some m
  end.
Proof.
  unfold upsert_node, upsert_nodes. cbn [try_loop]. pose proof (upsert_one_node_cases db n Hok) as Hu.
  destruct (upsert_one_node db n) as [db' [id|e]]; [|done].
  destruct Hu as (_ & Hn & He & Hex). split_and!; [done..| |].
  - intros (m & Hm & Hsig). unfold existing in Hex.
    destruct (list_find (λ m, node_signature m = _) _) as [[k x]|] eqn:Hf.
    + apply list_find_Some in Hf as (Hl%list_elem_of_lookup_2 & Hx & _). exists x. done.
    + apply list_find_None in Hf. rewrite Forall_forall in Hf. by destruct (Hf m Hm).
  - rewrite <-existing_None. destruct (existing _ n); [|done]. split; congruence.
Qed.

(** Two declarations with one name, kind and signature, as two [impl] blocks of
    one type give. *)
Definition ex_method (line : N) : Node :=
  mkNode 0 "local" "a.rs" "A::fmt" "method" line (line + 2) "fn fmt(&self) -> Result".

(** Re-indexing an unchanged file can fail.  A full rebuild stores two
    methods of one name and signature as two rows; the upsert of the very same
    batch chooses the first row by signature for both, and its second update
    violates the natural key. *)
Theorem reindex_duplicate_signature_fails :
  let db := (insert_fresh_nodes empty_db [ex_method 1; ex_method 5]).1 in
  size (nodes db) = 2 ∧ (upsert_nodes db [ex_method 1; ex_method 5]).2 = Err unique_failed.
Proof. vm_compute. done. Qed.

(** ** Notes *)
Section notes.
Context `{SqliteLaws}.

Lemma elem_of_recall db now n :
  (∃ l, recall_notes db now = Ok l ∧ n ∈ l) ↔
  ∃ i r, notes db !! i = Some r ∧ recalled now r = true ∧ n = note_from_row (i, r).
Proof.
  unfold recall_notes. split.
  - intros (l & [= <-] & ([i r] & -> & Hin)%list_elem_of_fmap).
    rewrite elem_of_sort_by, select_order_perm, list_elem_of_filter, elem_of_map_to_list in Hin. naive_solver.
  - intros (i & r & Hi & Hr & ->). eexists. split; [done|]. apply list_elem_of_fmap_2.
    by rewrite elem_of_sort_by, select_order_perm, list_elem_of_filter, elem_of_map_to_list.
Qed.

Lemma recalled_not_expired now now' r :
  (now ≤ now')%Z → recalled now' r = true → expired now r = false.
Proof.
  unfold recalled, expired. intros Hle.
  destruct (bool_decide_reflect (nr_tier r = "ephemeral")) as [->|]; [|done].
  cbn. destruct (nr_expires_at r) as [x|]; [|done]. intros Ht%Z.ltb_lt. apply Z.leb_gt. lia.
Qed.
End notes.

(** Pinning, recalling and pruning agree.  A pinned note is stored with the
    given contents; it is recalled at a time exactly when it is crystallized or
    expires later; and pruning expired notes at any earlier or equal time
    changes nothing that is recalled. *)
Theorem notes_recall_lifecycle `{SqliteLaws} db n db' id now now'
    (Hpin : pin_note db n = (db', Ok id)) (Hle : (now ≤ now')%Z) :
  let n' := mkNote id (note_target n) (note_moniker n) (note_kind n) (note_tier n) (note_author n)
              (note_content n) (note_hash n) (note_stale n) (note_expires_at n) (note_created_at n) in
  ((∃ l, recall_notes db' now' = Ok l ∧ n' ∈ l) ↔
     note_tier n = Crystallized ∨ ∃ t, note_expires_at n = Some t ∧ (now' < t)%Z) ∧
  ∀ m, (∃ l, recall_notes (delete_expired_notes db' now).1 now' = Ok l ∧ m ∈ l) ↔
       (∃ l, recall_notes db' now' = Ok l ∧ m ∈ l).
Proof.
  unfold pin_note in Hpin. destruct (negb _); [done|]. simplify_eq. intros n'. split.
  - rewrite elem_of_recall. cbn [notes with_notes].
    assert (∀ t, tier_parse (tier_as_str t) = t) as Hround by (by intros []).
    split.
    + intros (i & r & [[<- <-]|[Hne Hi]]%lookup_insert_Some & Hr & Hn'); [|unfold note_from_row, n' in Hn'; simplify_eq/=; congruence].
      unfold recalled in Hr. cbn in Hr. apply orb_true_iff in Hr as [Hr|Hr].
      * apply bool_decide_eq_true in Hr. left. by destruct (note_tier n).
      * right. destruct (note_expires_at n) as [t|]; [|done]. exists t. by apply Z.ltb_lt in Hr.
    + intros Hor. eexists _, _. split_and!; [apply lookup_insert_eq| |].
      * unfold recalled. cbn. destruct Hor as [->|(t & -> & Ht)]; [done|].
        apply orb_true_iff. right. by apply Z.ltb_lt.
      * unfold note_from_row, n'. cbn. by rewrite Hround.
  - intros m. rewrite !elem_of_recall. unfold delete_expired_notes. cbn [notes with_notes fst].
    setoid_rewrite map_lookup_filter_Some. cbn. split; [naive_solver|].
    intros (i & r & Hi & Hr & ->). exists i, r. eauto using recalled_not_expired.
Qed.

(** A tier the code does not know reads as crystallized, yet such a row is not
    recalled: the query compares the stored text. *)
Lemma unknown_tier_not_recalled :
  let row := mkNoteRow None "m" "note" "pinned" "a" "text" None false None 0 in
  let db := with_notes empty_db {[1%N := row]} in
  note_tier (note_from_row (1%N, row)) = Crystallized ∧ recall_notes db 0 = Ok [].
Proof. vm_compute. done. Qed.

(** A doc link blocks re-indexing.  The indexer never purges [doc_links], so
    once a link targets a node, deleting that node (here: the file no longer
    declares it) fails on the foreign key, whatever was purged before. *)
Theorem doc_link_blocks_reindex :
  let db := (upsert_doc_link ex_db 7 "intro" 1 "DOCUMENTS" None).1 in
  let db1 := (purge_file_edges db "local" "a.rs").1 in
  (purge_file_nodes_except db1 "local" "a.rs" []).2 = Err fk_failed ∧
  (purge_file_nodes_except (purge_file_edges ex_db "local" "a.rs").1 "local" "a.rs" []).2 = Ok 1%N.
Proof. vm_compute. done. Qed.

(** ** Concrete databases *)

Lemma purge_edges_then_nodes_witness :
  ∃ db2, purge_file_nodes (purge_file_edges ex_db "local" "a.rs").1 "local" "a.rs" = (db2, Ok 1%N) ∧
    db_ok db2 ∧ (purge_file_nodes ex_db "local" "a.rs").2 = Err fk_failed.
Proof.
  destruct (purge_edges_then_nodes ex_db "local" "a.rs" (eq_refl : @foreign_keys sqlite_default = true) ex_db_ok) as (_ & _ & Hc).
  destruct Hc as (db2 & Hp & Hok & _); [vm_compute; discriminate|].
  exists db2. split_and!; [exact Hp|exact Hok|vm_compute; reflexivity].
Defined.

Lemma reindex_file_exact_witness :
  let db1 := (purge_file_edges ex_db "local" "a.rs").1 in
  let h := mkNode 0 "local" "a.rs" "h" "fn" 9 9 "fn h()" in
  ∃ db3, purge_file_nodes_except (upsert_nodes db1 [h]).1 "local" "a.rs" [3%N] = (db3, Ok 1%N) ∧
    nodes db3 !! 1%N = None ∧ nodes db3 !! 3%N = Some (with_id h 3).
Proof.
  intros db1 h.
  destruct (reindex_file_exact ex_db "local" "a.rs" [h] (upsert_nodes db1 [h]).1 [3%N] ex_db_ok)
    as (db3 & k & Hp & Hn & _); [vm_compute; reflexivity|discriminate|].
  exists db3. split_and!.
  - vm_compute in Hp. simplify_eq. vm_compute. reflexivity.
  - rewrite Hn. vm_compute. reflexivity.
  - rewrite Hn. vm_compute. reflexivity.
Defined.

Lemma upsert_node_identity_witness :
  let n := mkNode 0 "local" "a.rs" "f" "fn" 7 8 "fn s()" in
  ∃ db', upsert_node ex_db n = (db', Ok 1%N) ∧ edges db' = edges ex_db.
Proof.
  intros n. pose proof (upsert_node_identity ex_db n ex_db_ok) as Hu.
  assert ((upsert_node ex_db n).2 = Ok 1%N) as Hid by (vm_compute; reflexivity).
  destruct (upsert_node ex_db n) as [db' r]. simpl in Hid. subst r. exists db'. split; [reflexivity|].
  apply Hu.
Defined.

Lemma notes_recall_lifecycle_witness :
  let n := mkNote 0 (Some 1%N) "m" "note" Ephemeral "a" "text" None false (Some 10%Z) 0 in
  ∃ l, recall_notes (pin_note ex_db n).1 9 = Ok l ∧
    mkNote 1 (Some 1%N) "m" "note" Ephemeral "a" "text" None false (Some 10%Z) 0 ∈ l.
Proof.
  intros n.
  destruct (notes_recall_lifecycle ex_db n (pin_note ex_db n).1 1%N 5 9) as [Hr _];
    [vm_compute; reflexivity|lia|].
  apply Hr. right. exists 10%Z. split; [reflexivity|lia].
Defined.
