(* ===== verification/Schema.v ===== *)
(** * Schema migrations (weave-graph-core: schema.rs; weave-graph-store-sqlite:
      schema.rs, and the index handling of backend.rs)

    The migration history as data, the catalog (tables with their columns, and
    indices) each statement changes, the migration driver, and the temporary
    removal of the non-unique indices during a bulk rebuild. *)

From S2P Require Import Prelude Str Model.

(** ** Statements and the catalog *)

Inductive ddl :=
| CreateTable (table : string) (columns : list string)
| CreateIndex (unique : bool) (name table : string) (columns : list string)
| AddColumn (table column : string)
| DropIndex (if_exists : bool) (name : string).

Record index_def := mkIndex { ix_unique : bool; ix_table : string; ix_columns : list string }.

#[global] Instance index_def_eq_dec : EqDecision index_def.
Proof. solve_decision. Defined.

(** [sqlite_master]. *)
Record catalog := mkCatalog {
  tables : gmap string (list string);
  indices : gmap string index_def;
}.

#[global] Instance catalog_eq_dec : EqDecision catalog.
Proof. solve_decision. Defined.

Definition sql_error : StorageError := Backend "SQL logic error".

Definition exec_ddl (c : catalog) (d : ddl) : result catalog StorageError :=
  match d with
  | CreateTable t cols =>
      if decide (is_Some (tables c !! t)) then Err sql_error
      else Ok (mkCatalog (<[t := cols]> (tables c)) (indices c))
  | CreateIndex u n t cols =>
      match tables c !! t with
      | Some tc =>
          if decide (is_Some (indices c !! n)) then Err sql_error
          else if decide (Forall (.∈ tc) cols)
          then Ok (mkCatalog (tables c) (<[n := mkIndex u t cols]> (indices c)))
          else Err sql_error
      | None => Err sql_error
      end
  | AddColumn t col =>
      match tables c !! t with
      | Some tc =>
          if decide (col ∈ tc) then Err sql_error
          else Ok (mkCatalog (<[t := tc ++ [col]]> (tables c)) (indices c))
      | None => Err sql_error
      end
  | DropIndex ie n =>
      if decide (is_Some (indices c !! n)) then Ok (mkCatalog (tables c) (delete n (indices c)))
      else if ie then Ok c else Err sql_error
  end.

(** [execute_batch] inside a transaction. *)
Fixpoint exec_batch (c : catalog) (l : list ddl) : result catalog StorageError :=
  match l with
  | [] => Ok c
  | d :: l => let? c := exec_ddl c d in exec_batch c l
  end.

(** ** The history *)

(** src/crates/weave-graph-core/src/schema.rs:23-68 [V1_CREATE_TABLES] *)
Definition V1_CREATE_TABLES : list ddl := [
  CreateTable "nodes" ["id"; "repo_id"; "path"; "symbol"; "kind"; "line_start"; "line_end"; "signature"];
  CreateIndex true "idx_nodes_natural_key" "nodes" ["repo_id"; "path"; "symbol"; "line_start"];
  CreateTable "edges" ["id"; "source_id"; "target_id"; "kind"; "weight"];
  CreateIndex true "idx_edges_natural_key" "edges" ["source_id"; "target_id"; "kind"];
  CreateTable "doc_links" ["id"; "doc_id"; "section"; "target_node_id"; "kind"];
  CreateTable "contracts" ["id"; "service_a"; "service_b"; "protocol"; "schema_ref"; "contract_hash";
    "source_commit_sha"; "published_at"];
  CreateTable "schema_version" ["version"; "applied_at"]
].

(** src/crates/weave-graph-core/src/schema.rs:74-78 [V2_TRAVERSAL_INDICES] *)
Definition V2_TRAVERSAL_INDICES : list ddl := [
  CreateIndex false "idx_edges_source" "edges" ["source_id"];
  CreateIndex false "idx_edges_target" "edges" ["target_id"];
  CreateIndex false "idx_nodes_repo_path" "nodes" ["repo_id"; "path"]
].

(** src/crates/weave-graph-core/src/schema.rs:87-91 [V3_DOC_LINK_PROVENANCE] *)
Definition V3_DOC_LINK_PROVENANCE : list ddl := [
  AddColumn "doc_links" "provenance_commit";
  AddColumn "doc_links" "provenance_hash";
  AddColumn "doc_links" "provenance_signature"
].

(** src/crates/weave-graph-core/src/schema.rs:99-115 [V4_NOTES_TABLE] *)
Definition V4_NOTES_TABLE : list ddl := [
  CreateTable "notes" ["id"; "target_node_id"; "moniker"; "kind"; "tier"; "author"; "content";
    "content_hash"; "stale"; "expires_at"; "created_at"];
  CreateIndex false "idx_notes_moniker" "notes" ["moniker"]
].

(** src/crates/weave-graph-core/src/schema.rs:121-136 [V5_TRACE_SPANS_TABLE] *)
Definition V5_TRACE_SPANS_TABLE : list ddl := [
  CreateTable "trace_spans" ["id"; "trace_id"; "span_id"; "parent_span_id"; "service"; "name"; "symbol";
    "path"; "start_us"; "duration_us"; "status_code"];
  CreateIndex true "idx_trace_spans_natural_key" "trace_spans" ["trace_id"; "span_id"]
].

(** src/crates/weave-graph-core/src/schema.rs:144-146 [V6_CONTRACT_ENTRIES] *)
Definition V6_CONTRACT_ENTRIES : list ddl := [AddColumn "contracts" "entries_blob"].

(** src/crates/weave-graph-core/src/schema.rs:147-155 [V7_RESOLVER_INPUTS] *)
Definition V7_RESOLVER_INPUTS : list ddl := [
  CreateTable "unresolved_refs" ["repo_id"; "path"; "short_name"];
  CreateIndex false "idx_unresolved_refs_name" "unresolved_refs" ["short_name"];
  CreateIndex false "idx_unresolved_refs_path" "unresolved_refs" ["repo_id"; "path"]
].

(** src/crates/weave-graph-core/src/schema.rs:161-164 [V8_NODE_SEMANTIC_KEY] *)
Definition V8_NODE_SEMANTIC_KEY : list ddl := [
  AddColumn "nodes" "semantic_key";
  CreateIndex false "idx_nodes_semantic_key" "nodes" ["repo_id"; "path"; "symbol"; "kind"; "signature"]
].

(** src/crates/weave-graph-core/src/schema.rs:168-170 [V9_DROP_UNUSED_SEMANTIC_KEY_INDEX] *)
Definition V9_DROP_UNUSED_SEMANTIC_KEY_INDEX : list ddl := [DropIndex true "idx_nodes_semantic_key"].

(** src/crates/weave-graph-core/src/schema.rs:177-180 [V10_EDGE_PROVENANCE] *)
Definition V10_EDGE_PROVENANCE : list ddl :=
  [AddColumn "edges" "extractor"; AddColumn "edges" "resolution_kind"].

(** src/crates/weave-graph-core/src/schema.rs:185-187 [V11_NODE_SYMBOL_INDEX] *)
Definition V11_NODE_SYMBOL_INDEX : list ddl := [CreateIndex false "idx_nodes_symbol" "nodes" ["symbol"]].

(** src/crates/weave-graph-core/src/schema.rs:193-205 [V12_PR_REVIEW_HISTORY] *)
Definition V12_PR_REVIEW_HISTORY : list ddl := [
  CreateTable "pr_review_runs" ["id"; "base"; "head"; "risk"; "findings_json"; "waived_ids_json"; "reason";
    "created_at"];
  CreateIndex false "idx_pr_review_runs_created_at" "pr_review_runs" ["created_at"]
].

(** src/crates/weave-graph-core/src/schema.rs:10-10 [LATEST_SCHEMA_VERSION] *)
Definition LATEST_SCHEMA_VERSION : N := 12.

(** src/crates/weave-graph-core/src/schema.rs:209-222 [MIGRATIONS] *)
Definition MIGRATIONS : list (N * list ddl) := [
  (1%N, V1_CREATE_TABLES); (2%N, V2_TRAVERSAL_INDICES); (3%N, V3_DOC_LINK_PROVENANCE);
  (4%N, V4_NOTES_TABLE); (5%N, V5_TRACE_SPANS_TABLE); (6%N, V6_CONTRACT_ENTRIES);
  (7%N, V7_RESOLVER_INPUTS); (8%N, V8_NODE_SEMANTIC_KEY); (9%N, V9_DROP_UNUSED_SEMANTIC_KEY_INDEX);
  (10%N, V10_EDGE_PROVENANCE); (11%N, V11_NODE_SYMBOL_INDEX); (12%N, V12_PR_REVIEW_HISTORY)
].

(** src/crates/weave-graph-core/src/schema.rs:229-240 [migrations_after_from] *)
Definition migrations_after_from {A} (migrations : list (N * A)) (current : N) : list (N * A) :=
  sort_by (λ a b : N * A, (a.1 <=? b.1)%N) (filter (λ m : N * A, (current < m.1)%N) migrations).

(** src/crates/weave-graph-core/src/schema.rs:225-227 [migrations_after] *)
Definition migrations_after (current : N) : list (N * list ddl) := migrations_after_from MIGRATIONS current.

(** ** The driver *)

(** The connection: the catalog and the rows of [schema_version]. *)
Record conn := mkConn { cat : catalog; version_rows : list N }.

Definition empty_conn : conn := mkConn (mkCatalog ∅ ∅) [].

(** src/crates/weave-graph-store-sqlite/src/schema.rs:10-26 [current_version]
    [version as u32].  Reading a database that was opened does not fail here. *)
Definition current_version (c : conn) : N :=
  if decide (is_Some (tables (cat c) !! "schema_version"))
  then (foldr N.max 0 (version_rows c) `mod` 4294967296)%N else 0%N.

Definition max_version : N := foldr N.max 0%N (fst <$> MIGRATIONS).

(** src/crates/weave-graph-store-sqlite/src/schema.rs:62-72 [ensure_not_newer_than_supported] *)
Definition ensure_not_newer_than_supported (c : conn) : result () StorageError :=
  if (max_version <? current_version c)%N then Err (SchemaTooNew (current_version c) max_version) else Ok ().

(** src/crates/weave-graph-store-sqlite/src/schema.rs:46-54 [migrate]
    One transaction: the statements and the version row, or nothing.  [tx_ok]
    tells whether the engine lets it through (a full disk, a lock). *)
Definition apply_migration (tx_ok : N → bool) (c : conn) (m : N * list ddl) : conn * result () StorageError :=
  match exec_batch (cat c) m.2 with
  | Ok k =>
      if tx_ok m.1 then
        if decide (m.1 ∈ version_rows c) then (c, Err (Backend "UNIQUE constraint failed"))
        else (mkConn k (version_rows c ++ [m.1]), Ok ())
      else (c, Err (Backend "disk I/O error"))
  | Err e => (c, Err e)
  end.

(** src/crates/weave-graph-store-sqlite/src/schema.rs:41-55 [migrate] *)
Fixpoint apply_migrations (tx_ok : N → bool) (c : conn) (l : list (N * list ddl)) : conn * result () StorageError :=
  match l with
  | [] => (c, Ok ())
  | m :: l =>
      match apply_migration tx_ok c m with
      | (c, Ok _) => apply_migrations tx_ok c l
      | (c, Err e) => (c, Err e)
      end
  end.

(** src/crates/weave-graph-store-sqlite/src/schema.rs:32-57 [migrate] *)
Definition migrate (tx_ok : N → bool) (c : conn) : conn * result () StorageError :=
  let current := current_version c in
  if (max_version <? current)%N then (c, Err (SchemaTooNew current max_version)) else
  apply_migrations tx_ok c (migrations_after current).

(** ** Indices during a bulk rebuild *)

(** src/crates/weave-graph-store-sqlite/src/backend.rs:233-239 [SqliteStorage::drop_non_unique_indexes]
    The non-unique indices of one table. *)
Definition droppable (t : string) (p : string * index_def) : Prop :=
  ix_table p.2 = t ∧ ix_unique p.2 = false.

#[global] Instance droppable_dec t p : Decision (droppable t p).
Proof. unfold droppable. apply _. Defined.

(** src/crates/weave-graph-store-sqlite/src/backend.rs:240-253 [SqliteStorage::drop_non_unique_indexes]
    One table: its indices are dropped and their definitions saved. *)
Definition drop_table_indexes (st : catalog * list ddl) (t : string) : catalog * list ddl :=
  let (c, definitions) := st in
  let rows := filter (droppable t) (map_to_list (indices c)) in
  (mkCatalog (tables c) (foldl (λ m p, delete p.1 m) (indices c) rows),
   definitions ++ ((λ p : string * index_def, CreateIndex false p.1 (ix_table p.2) (ix_columns p.2)) <$> rows)).

(** src/crates/weave-graph-store-sqlite/src/backend.rs:231-255 [SqliteStorage::drop_non_unique_indexes] *)
Definition drop_non_unique_indexes (c : catalog) (ts : list string) : catalog * list ddl :=
  foldl drop_table_indexes (c, []) ts.

(** src/crates/weave-graph-store-sqlite/src/backend.rs:259-264 [SqliteStorage::recreate_indexes] *)
Definition recreate_indexes (c : catalog) (sql : list ddl) : result catalog StorageError := exec_batch c sql.

(** ** Pending migrations *)

Lemma elem_of_migrations_after_from {A} (l : list (N * A)) k m :
  m ∈ migrations_after_from l k ↔ m ∈ l ∧ (k < m.1)%N.
Proof. unfold migrations_after_from. rewrite elem_of_sort_by, list_elem_of_filter. tauto. Qed.

(** ** The driver on the history *)

(** The connection after the first [k] migrations. *)
Definition conn_at (k : nat) : conn := (apply_migrations (λ _, true) empty_conn (take k MIGRATIONS)).1.

Lemma apply_migrations_app tx_ok c l1 l2 :
  apply_migrations tx_ok c (l1 ++ l2) =
  match apply_migrations tx_ok c l1 with
  | (c', Ok _) => apply_migrations tx_ok c' l2
  | (c', Err e) => (c', Err e)
  end.
Proof.
  revert c; induction l1 as [|m l1 IH]; intros c; cbn; [done|].
  destruct (apply_migration tx_ok c m) as [c' [[]|e]]; [apply IH|done].
Qed.

(** The whole history applies to an empty database. *)
Lemma history_applies : (apply_migrations (λ _, true) empty_conn MIGRATIONS).2 = Ok ().
Proof. vm_compute. reflexivity. Qed.

Lemma conn_at_ok k : (apply_migrations (λ _, true) empty_conn (take k MIGRATIONS)) = (conn_at k, Ok ()).
Proof.
  unfold conn_at. pose proof history_applies as Hall. rewrite <-(take_drop k MIGRATIONS) in Hall.
  rewrite apply_migrations_app in Hall.
  destruct (apply_migrations _ _ (take k MIGRATIONS)) as [c [[]|e]]; [done|discriminate Hall].
Qed.

Lemma conn_at_step_ok k m :
  MIGRATIONS !! k = Some m → apply_migration (λ _, true) (conn_at k) m = (conn_at (S k), Ok ()).
Proof.
  intros Hm. pose proof (conn_at_ok (S k)) as Hs.
  rewrite (take_S_r _ _ _ Hm), apply_migrations_app, conn_at_ok in Hs. cbn [apply_migrations] in Hs.
  destruct (apply_migration _ _ m) as [c [[]|e]]; congruence.
Qed.

Lemma conn_at_step tx_ok k m :
  MIGRATIONS !! k = Some m →
  apply_migration tx_ok (conn_at k) m =
    if tx_ok m.1 then (conn_at (S k), Ok ()) else (conn_at k, Err (Backend "disk I/O error")).
Proof.
  intros Hm%conn_at_step_ok. unfold apply_migration in *.
  destruct (exec_batch _ _) as [c|e]; [|discriminate Hm]. by destruct (tx_ok m.1).
Qed.

Lemma MIGRATIONS_version k m : MIGRATIONS !! k = Some m → m.1 = N.of_nat (S k).
Proof.
  intros Hm. do 12 (destruct k as [|k]; [apply (inj Some) in Hm; by subst m|]). discriminate Hm.
Qed.

Lemma apply_migrations_rows tx_ok l : ∀ c c', apply_migrations tx_ok c l = (c', Ok ()) →
  version_rows c' = version_rows c ++ l.*1.
Proof.
  induction l as [|m l IH]; intros c c'; cbn; [intros; simplify_eq; by rewrite app_nil_r|].
  unfold apply_migration. destruct (exec_batch _ _) as [k|e]; [|done].
  destruct (tx_ok m.1); [|done]. case_decide; [done|]. intros ->%IH. cbn. by rewrite <-app_assoc.
Qed.

Lemma conn_at_rows k : version_rows (conn_at k) = (take k MIGRATIONS).*1.
Proof. by rewrite (apply_migrations_rows _ _ _ _ (conn_at_ok k)). Qed.

(** Once the first migration has run, the version table exists. *)
Lemma exec_ddl_tables c d c' t : exec_ddl c d = Ok c' → is_Some (tables c !! t) → is_Some (tables c' !! t).
Proof.
  destruct d; cbn; intros Hx Ht; repeat case_match; simplify_eq; cbn; try done;
    apply lookup_insert_is_Some'; auto.
Qed.

Lemma exec_batch_tables c l c' t : exec_batch c l = Ok c' → is_Some (tables c !! t) → is_Some (tables c' !! t).
Proof.
  revert c; induction l as [|d l IH]; intros c; cbn; [intros; by simplify_eq|].
  destruct (exec_ddl c d) as [c1|e] eqn:Hd; [|done]. cbn. eauto using exec_ddl_tables.
Qed.

Lemma conn_at_version_table k :
  0 < k ≤ 12 → is_Some (tables (cat (conn_at k)) !! "schema_version").
Proof.
  induction k as [|k IH]; [lia|]. intros Hk.
  destruct (lookup_lt_is_Some_2 MIGRATIONS k) as [m Hm]; [simpl; lia|].
  pose proof (conn_at_step_ok k m Hm) as Hs. unfold apply_migration in Hs.
  destruct (exec_batch _ _) as [c|e] eqn:Hb; [|done]. cbn in Hs. case_decide; [done|].
  simplify_eq. rewrite <-H0. cbn. destruct k as [|k].
  - apply (inj Some) in Hm. subst m. vm_compute in Hb. simplify_eq. eauto.
  - eapply exec_batch_tables; [done|]. apply IH. lia.
Qed.

Lemma conn_at_version k : k ≤ 12 → current_version (conn_at k) = N.of_nat k.
Proof.
  intros Hk. unfold current_version. rewrite conn_at_rows. destruct k as [|k]; [by vm_compute|].
  rewrite decide_True by (apply conn_at_version_table; lia).
  do 12 (destruct k as [|k]; [by vm_compute|]). lia.
Qed.

Lemma conn_at_spec k :
  k ≤ 12 → migrations_after (current_version (conn_at k)) = drop k MIGRATIONS ∧
    (max_version <? current_version (conn_at k))%N = false.
Proof.
  intros Hk. rewrite conn_at_version by done.
  do 13 (destruct k as [|k]; [vm_compute; done|]). lia.
Qed.

Lemma apply_migrations_run tx_ok n : ∀ k, n + k = 12 →
  ∃ j, k ≤ j ≤ 12 ∧ (apply_migrations tx_ok (conn_at k) (drop k MIGRATIONS)).1 = conn_at j ∧
    match (apply_migrations tx_ok (conn_at k) (drop k MIGRATIONS)).2 with
    | Ok _ => j = 12
    | Err _ => j < 12 ∧ tx_ok (N.of_nat (S j)) = false
    end ∧ ∀ v, k < v ≤ j → tx_ok (N.of_nat v) = true.
Proof.
  induction n as [|n IH]; intros k Hk.
  { simpl in Hk. subst. exists 12. split_and!; [lia..|done|done|lia]. }
  destruct (lookup_lt_is_Some_2 MIGRATIONS k) as [m Hm]; [simpl; lia|].
  rewrite (drop_S _ _ _ Hm). cbn [apply_migrations].
  rewrite (conn_at_step tx_ok k m Hm), (MIGRATIONS_version k m Hm).
  destruct (tx_ok (N.of_nat (S k))) eqn:Htx.
  - destruct (IH (S k)) as (j & Hj & Hc & Hr & Hall); [lia|]. exists j. split_and!; [lia..|done|done|].
    intros v Hv'. destruct (decide (v = S k)) as [->|]; [done|]. apply Hall. lia.
  - exists k. split_and!; [lia..|done|simpl; split; [lia|done]|lia].
Qed.

(** C40: migrations are resumable.  From the state after any prefix of the
    history, whatever transactions the engine lets through, [migrate] ends in
    the state after a longer prefix: the latest version exactly when it returns
    Ok, and otherwise the last version before the first failing transaction, so
    a version is recorded only with all of its statements and a later run picks
    up from there.  A database from a newer binary is refused, untouched. *)
Theorem migrate_resumable tx_ok k c
    (Hk : k ≤ N.to_nat LATEST_SCHEMA_VERSION) (Hnew : (LATEST_SCHEMA_VERSION < current_version c)%N) :
  (∃ j, k ≤ j ≤ N.to_nat LATEST_SCHEMA_VERSION ∧ (migrate tx_ok (conn_at k)).1 = conn_at j ∧
     current_version (conn_at j) = N.of_nat j ∧
     match (migrate tx_ok (conn_at k)).2 with
     | Ok _ => j = N.to_nat LATEST_SCHEMA_VERSION
     | Err _ => j < N.to_nat LATEST_SCHEMA_VERSION ∧ tx_ok (N.of_nat (S j)) = false
     end ∧ ∀ v, k < v ≤ j → tx_ok (N.of_nat v) = true) ∧
  migrate tx_ok c = (c, Err (SchemaTooNew (current_version c) LATEST_SCHEMA_VERSION)).
Proof.
  change (N.to_nat LATEST_SCHEMA_VERSION) with 12 in *. split.
  - destruct (conn_at_spec k Hk) as [Hpend Hmax]. unfold migrate. rewrite Hmax, Hpend.
    destruct (apply_migrations_run tx_ok (12 - k) k) as (j & Hj & Hc & Hr & Hall); [lia|].
    exists j. split_and!; [lia..|done| |done|done]. apply conn_at_version. lia.
  - unfold migrate. change max_version with LATEST_SCHEMA_VERSION.
    apply N.ltb_lt in Hnew. by rewrite Hnew.
Qed.

(** A database at version 3 whose fifth migration fails, and one at version 13. *)
Lemma migrate_resumable_witness :
  let newer := mkConn (cat (conn_at 12)) [13%N] in
  (∃ j, 3 ≤ j ≤ 12 ∧ (migrate (λ v, negb (v =? 5)%N) (conn_at 3)).1 = conn_at j) ∧
  migrate (λ _, true) newer = (newer, Err (SchemaTooNew 13 12)).
Proof.
  intros newer. assert ((12 < current_version newer)%N) as Hn by (vm_compute; reflexivity). split.
  - destruct (migrate_resumable (λ v, negb (v =? 5)%N) 3 newer) as [(j & Hj & Hc & _) _];
      [vm_compute; lia|exact Hn|]. exists j. split; [exact Hj|exact Hc].
  - destruct (migrate_resumable (λ _, true) 3 newer) as [_ Hr]; [vm_compute; lia|exact Hn|].
    rewrite Hr. vm_compute. reflexivity.
Defined.

(** Pending migrations run in ascending order, each pending version exactly
    once, independently of the order of declaration. *)
Lemma migrations_after_from_order {A} (l l' : list (N * A)) k :
  NoDup l.*1 → l ≡ₚ l' →
  migrations_after_from l k = migrations_after_from l' k ∧
  StronglySorted N.lt (migrations_after_from l k).*1 ∧
  migrations_after_from l k ≡ₚ filter (λ m : N * A, (k < m.1)%N) l.
Proof.
  intros Hnd Hp.
  assert (∀ l : list (N * A), NoDup l.*1 → StronglySorted N.lt (migrations_after_from l k).*1) as Hs.
  { intros l0 Hnd0. unfold migrations_after_from. set (fl := filter _ l0).
    assert (NoDup fl.*1) as Hfl.
    { eapply sublist_NoDup; [exact Hnd0|]. apply fmap_sublist, sublist_filter. }
    apply (sorted_key_lt fst); [|by rewrite sort_by_perm].
    apply sort_by_sorted_key; intros; rewrite !N.leb_le in *; lia. }
  assert (NoDup l'.*1) as Hnd' by by rewrite <-Hp.
  split_and!; [|by apply Hs|apply sort_by_perm].
  assert (migrations_after_from l k ≡ₚ migrations_after_from l' k) as Hperm.
  { unfold migrations_after_from. by rewrite !sort_by_perm, Hp. }
  assert (∀ x y : list (N * A), x ≡ₚ y → StronglySorted N.lt x.*1 → StronglySorted N.lt y.*1 → x = y) as Huniq.
  { induction x as [|a x IH]; intros [|b y] Hxy Hx Hy; [done|by apply Permutation_nil in Hxy|
      by symmetry in Hxy; apply Permutation_nil in Hxy|].
    rewrite fmap_cons in Hx, Hy. apply StronglySorted_inv in Hx as [Hx HFa], Hy as [Hy HFb].
    rewrite Forall_forall in HFa, HFb.
    assert (a = b) as ->.
    { assert (a ∈ b :: y) as [->|Ha]%elem_of_cons by (rewrite <-Hxy; set_solver); [done|].
      assert (b ∈ a :: x) as [->|Hb]%elem_of_cons by (rewrite Hxy; set_solver); [done|].
      apply (list_elem_of_fmap_2 fst) in Ha, Hb. specialize (HFa _ Hb). specialize (HFb _ Ha). lia. }
    f_equal. apply IH; [|done..]. by eapply Permutation_cons_inv. }
  apply Huniq; [done|by apply Hs..].
Qed.

(** ** Dropping and recreating indices *)

(** Every index is over columns of a stored table. *)
Definition catalog_ok (c : catalog) : Prop :=
  ∀ n ix, indices c !! n = Some ix → ∃ cols, tables c !! ix_table ix = Some cols ∧ Forall (.∈ cols) (ix_columns ix).

Lemma exec_ddl_ok c d c' : catalog_ok c → exec_ddl c d = Ok c' → catalog_ok c'.
Proof.
  intros Hok Hx n ix. destruct d as [t cols|u nm t cols|t col|ie nm]; cbn in Hx.
  - case_decide as Ht; [done|]. simplify_eq/=. intros Hn. destruct (Hok _ _ Hn) as (tc & Htc & Hc).
    exists tc. split; [|done]. rewrite lookup_insert_ne; [done|]. intros ->. rewrite Htc in Ht. eauto.
  - destruct (tables c !! t) as [tc|] eqn:Ht; [|done]. case_decide; [done|]. case_decide; [|done].
    simplify_eq/=. intros [[<- <-]|[_ Hn]]%lookup_insert_Some; cbn; [eauto|by eapply Hok].
  - destruct (tables c !! t) as [tc|] eqn:Ht; [|done]. case_decide; [done|]. simplify_eq/=.
    intros Hn. destruct (Hok _ _ Hn) as (tc' & Ht' & Hc). destruct (decide (t = ix_table ix)) as [->|Hne].
    + rewrite lookup_insert_eq. eexists. split; [done|]. simplify_eq. eapply Forall_impl; [done|]. set_solver.
    + rewrite lookup_insert_ne by done. eauto.
  - case_decide; [|destruct ie; [|done]]; simplify_eq/=; [|by eapply Hok].
    intros [_ Hn]%lookup_delete_Some. by eapply Hok.
Qed.

Lemma lookup_foldl_delete {A} (l : list (string * A)) (m : gmap string A) n :
  foldl (λ m p, delete p.1 m) m l !! n = if decide (n ∈ l.*1) then None else m !! n.
Proof.
  revert m; induction l as [|[k x] l IH]; intros m; cbn; [done|]. rewrite IH.
  destruct (decide (k = n)) as [->|Hne].
  - rewrite lookup_delete_eq, (decide_True (P := n ∈ n :: _)) by set_solver. by case_decide.
  - rewrite lookup_delete_ne by done. repeat case_decide; set_solver.
Qed.

Lemma lookup_foldl_insert {A} (l : list (string * A)) (m : gmap string A) n :
  NoDup l.*1 →
  foldl (λ m p, <[p.1 := p.2]> m) m l !! n =
    match (list_to_map l : gmap string A) !! n with Some x => Some x | None => m !! n end.
Proof.
  revert m; induction l as [|[k x] l IH]; intros m Hnd; cbn; [by rewrite lookup_empty|].
  apply NoDup_cons in Hnd as [Hk Hnd]. rewrite IH by done. destruct (decide (k = n)) as [->|Hne].
  - rewrite !lookup_insert_eq. by rewrite not_elem_of_list_to_map_1.
  - by rewrite !lookup_insert_ne.
Qed.

(** Recreating absent indices, in any order. *)
Lemma recreate_run (rows : list (string * index_def)) c :
  (∀ n ix, (n, ix) ∈ rows → ix_unique ix = false ∧ indices c !! n = None ∧
     ∃ cols, tables c !! ix_table ix = Some cols ∧ Forall (.∈ cols) (ix_columns ix)) →
  NoDup rows.*1 →
  exec_batch c ((λ p : string * index_def, CreateIndex false p.1 (ix_table p.2) (ix_columns p.2)) <$> rows) =
    Ok (mkCatalog (tables c) (foldl (λ m p, <[p.1 := p.2]> m) (indices c) rows)).
Proof.
  revert c; induction rows as [|[n ix] rows IH]; intros c Hall Hnd; cbn; [by destruct c|].
  destruct (Hall n ix) as (Hu & Hn & cols & Ht & Hc); [set_solver|].
  rewrite Ht, decide_False, decide_True by (rewrite ?Hn; done || by intros [? ?]).
  cbn. apply NoDup_cons in Hnd as [Hnot Hnd]. rewrite IH; [|cbn|done].
  - cbn. destruct ix as [u t cs]; cbn in *; by subst.
  - intros n' ix' Hin. destruct (Hall n' ix') as (? & Hn' & ?); [set_solver|]. split_and!; [done| |done].
    rewrite lookup_insert_ne; [done|]. intros <-. apply Hnot. by apply (list_elem_of_fmap_2 fst) in Hin.
Qed.

Definition create_sql (p : string * index_def) : ddl := CreateIndex false p.1 (ix_table p.2) (ix_columns p.2).

(** What the loop over tables has dropped so far. *)
Record dropped (c0 : catalog) (ts : list string) (st : catalog * list ddl) (rows : list (string * index_def)) : Prop := {
  dr_sql : st.2 = create_sql <$> rows;
  dr_nodup : NoDup rows.*1;
  dr_rows n ix : (n, ix) ∈ rows ↔ indices c0 !! n = Some ix ∧ ix_table ix ∈ ts ∧ ix_unique ix = false;
  dr_tables : tables st.1 = tables c0;
  dr_left n : indices st.1 !! n = if decide (n ∈ rows.*1) then None else indices c0 !! n;
}.

Lemma drop_table_dropped c0 ts st rows t :
  dropped c0 ts st rows → ∃ rows', dropped c0 (ts ++ [t]) (drop_table_indexes st t) rows'.
Proof.
  destruct st as [c defs]. intros [Hsql Hnd Hr Ht Hl]. cbn in *.
  set (new := filter (droppable t) (map_to_list (indices c))).
  assert (∀ n ix, (n, ix) ∈ new ↔ (n, ix) ∉ rows ∧ indices c0 !! n = Some ix ∧ ix_table ix = t ∧ ix_unique ix = false) as Hnew.
  { intros n ix. unfold new. rewrite list_elem_of_filter, elem_of_map_to_list, Hl. unfold droppable. cbn.
    destruct (decide (n ∈ rows.*1)) as [([n' ix'] & -> & Hin)%list_elem_of_fmap|Hni].
    - split; [naive_solver|]. intros (Hno & Hix & _). destruct Hno. cbn in *.
      pose proof Hin as (Hix' & _)%Hr. by simplify_eq.
    - assert ((n, ix) ∉ rows) by (intros Hin; apply Hni; by apply (list_elem_of_fmap_2 fst) in Hin). naive_solver. }
  assert (NoDup new.*1) as Hnn.
  { eapply sublist_NoDup; [apply (NoDup_fst_map_to_list (indices c))|]. apply fmap_sublist, sublist_filter. }
  exists (rows ++ new). split; cbn.
  - by rewrite Hsql, fmap_app.
  - rewrite fmap_app. apply NoDup_app. split_and!; [done| |done].
    intros n ([n1 i1] & -> & H1)%list_elem_of_fmap ([n2 i2] & Heq & H2)%list_elem_of_fmap. cbn in *. subst.
    apply Hnew in H2 as (Hno & Hi2 & _). pose proof H1 as (Hi1 & _)%Hr. naive_solver.
  - intros n ix. rewrite elem_of_app, Hnew, Hr, elem_of_app, list_elem_of_singleton.
    destruct (decide (ix_table ix ∈ ts)); naive_solver.
  - done.
  - intros n. rewrite lookup_foldl_delete, Hl, fmap_app. fold new. clear. repeat case_decide; set_solver.
Qed.

Lemma drop_non_unique_dropped c ts : ∃ rows, dropped c ts (drop_non_unique_indexes c ts) rows.
Proof.
  unfold drop_non_unique_indexes. induction ts as [|t ts [rows IH]] using rev_ind.
  - exists []. split; cbn; try done; [constructor|]. set_solver.
  - rewrite foldl_app. cbn. by eapply drop_table_dropped.
Qed.

(** The index handling of a bulk rebuild loses nothing.  Dropping the
    non-unique indices of some tables keeps every unique index (the conflict
    targets of the upserts) and every index of other tables, drops all the
    others, and recreating them from the saved statements succeeds and restores
    the very same catalog. *)
Theorem drop_recreate_indexes c ts (Hok : catalog_ok c) :
  let st := drop_non_unique_indexes c ts in
  recreate_indexes st.1 st.2 = Ok c ∧ tables st.1 = tables c ∧
  ∀ n, indices st.1 !! n = (ix ← indices c !! n;
         if decide (ix_table ix ∈ ts ∧ ix_unique ix = false) then None else Some ix).
Proof.
  intros st. destruct (drop_non_unique_dropped c ts) as [rows [Hsql Hnd Hr Ht Hl]]. fold st in Hsql, Ht, Hl.
  assert (∀ n, n ∈ rows.*1 ↔ ∃ ix, indices c !! n = Some ix ∧ ix_table ix ∈ ts ∧ ix_unique ix = false) as Hin.
  { intros n. rewrite list_elem_of_fmap. setoid_rewrite <-Hr. split.
    - intros ([n' ix] & -> & ?). eauto.
    - intros [ix ?]. by exists (n, ix). }
  split_and!; [|done|].
  - unfold recreate_indexes. rewrite Hsql. unfold create_sql. rewrite recreate_run; [|rewrite Ht|done].
    + f_equal. destruct c as [tb ixs]. cbn in *. f_equal; [done|]. apply map_eq. intros n.
      rewrite lookup_foldl_insert, Hl by done.
      destruct ((list_to_map rows : gmap string index_def) !! n) as [x|] eqn:Hx.
      * apply elem_of_list_to_map in Hx; [|done]. by apply Hr in Hx as [-> _].
      * apply not_elem_of_list_to_map in Hx. by rewrite decide_False.
    + intros n ix (Hix & Hts & Hu)%Hr. split_and!; [done| |by eapply Hok].
      rewrite Hl, decide_True; [done|]. apply Hin. eauto.
  - intros n. rewrite Hl. destruct (indices c !! n) as [ix|] eqn:Hix; cbn.
    + specialize (Hin n). rewrite Hix in Hin. clear -Hin. repeat case_decide; naive_solver.
    + by case_decide.
Qed.

Lemma drop_recreate_indexes_witness :
  let c := mkCatalog {["nodes" := ["id"; "path"]]}
             {["u" := mkIndex true "nodes" ["id"]; "p" := mkIndex false "nodes" ["path"]]} in
  let st := drop_non_unique_indexes c ["nodes"; "edges"] in
  st.2 = [CreateIndex false "p" "nodes" ["path"]] ∧ recreate_indexes st.1 st.2 = Ok c.
Proof.
  intros c st. split; [vm_compute; reflexivity|]. apply drop_recreate_indexes. intros n ix Hn.
  exists ["id"; "path"]. unfold c in *. cbn [tables indices] in *.
  apply lookup_insert_Some in Hn as [[<- <-]|[_ Hn]]; [|apply lookup_singleton_Some in Hn as [<- <-]];
    (split; [vm_compute; reflexivity|repeat constructor; set_solver]).
Defined.
