(* ===== verification/Language.v ===== *)
(** * Language dispatch (weave-graph-parse: language.rs)

    The languages of a default build (feature lang-extended) and the choice of
    one by file name.  A grammar itself is a third-party tree-sitter parser. *)

From S2P Require Import Prelude Str.

(** src/crates/weave-graph-parse/src/language.rs:6-100 [Language] *)
Inductive Language :=
| LangRust | LangPython | LangJavaScript | LangTypeScript | LangTsx | LangGo | LangJava | LangC
| LangCpp | LangCSharp | LangKotlin | LangSwift | LangScala | LangZig | LangRuby | LangPhp
| LangBash | LangPowerShell | LangLua | LangYaml | LangToml | LangJson | LangProperties
| LangElixir | LangHaskell | LangDart | LangSql | LangHtml | LangCss | LangR | LangArkTs
| LangObjC | LangMetal | LangCuda | LangSvelte | LangVue | LangAstro | LangLiquid | LangPascal
| LangLuau | LangCfml | LangCobol | LangVisualBasic | LangErlang | LangSolidity | LangTerraform | LangNix.

#[global] Instance Language_eq_dec : EqDecision Language.
Proof. solve_decision. Defined.

(** [Path::file_name] on a slash-separated path: the last component that is
    neither empty nor [.]; [None] when it is [..] or there is none. *)
Definition file_name (path : string) : option string :=
  match last (filter (λ c, c ≠ "" ∧ c ≠ ".") (split_char "/"%char path)) with
  | Some ".." => None
  | o => o
  end.

(** [Path::extension]: after the last dot of the file name, unless that dot is
    its first character. *)
Definition extension (path : string) : option string :=
  f ← file_name path;
  match rsplit_once f "." with
  | Some (stem, ext) => if decide (stem = "") then None else Some ext
  | None => None
  end.

(** src/crates/weave-graph-parse/src/language.rs:111-198 [Language::from_path] *)
Definition languages_by_extension : list (list string * Language) := [
  (["rs"], LangRust);
  (["py"], LangPython);
  (["js"; "jsx"; "mjs"; "cjs"], LangJavaScript);
  (["ts"], LangTypeScript);
  (["tsx"], LangTsx);
  (["go"], LangGo);
  (["java"], LangJava);
  (["c"; "h"], LangC);
  (["cpp"; "cc"; "cxx"; "hpp"; "hh"; "hxx"], LangCpp);
  (["cs"], LangCSharp);
  (["kt"; "kts"], LangKotlin);
  (["swift"], LangSwift);
  (["scala"; "sc"], LangScala);
  (["zig"], LangZig);
  (["rb"], LangRuby);
  (["php"], LangPhp);
  (["sh"; "bash"], LangBash);
  (["ps1"; "psm1"], LangPowerShell);
  (["lua"], LangLua);
  (["yaml"; "yml"], LangYaml);
  (["toml"], LangToml);
  (["json"; "jsonc"], LangJson);
  (["properties"], LangProperties);
  (["ex"; "exs"], LangElixir);
  (["hs"], LangHaskell);
  (["dart"], LangDart);
  (["sql"], LangSql);
  (["html"; "htm"], LangHtml);
  (["css"], LangCss);
  (["r"; "R"], LangR);
  (["ets"], LangArkTs);
  (["m"; "mm"], LangObjC);
  (["metal"], LangMetal);
  (["cu"; "cuh"], LangCuda);
  (["svelte"], LangSvelte);
  (["vue"], LangVue);
  (["astro"], LangAstro);
  (["liquid"], LangLiquid);
  (["pas"; "pp"], LangPascal);
  (["luau"], LangLuau);
  (["cfm"; "cfc"], LangCfml);
  (["cbl"; "cob"], LangCobol);
  (["vb"], LangVisualBasic);
  (["erl"; "hrl"], LangErlang);
  (["sol"], LangSolidity);
  (["tf"; "tofu"], LangTerraform);
  (["nix"], LangNix)
].

(** src/crates/weave-graph-parse/src/language.rs:103-199 [Language::from_path] *)
Definition from_path (path : string) : option Language :=
  if match file_name path with Some f => starts_with f ".env" | None => false end
  then Some LangProperties else
  ext ← extension path;
  snd <$> (snd <$> list_find (λ p : list string * Language, ext ∈ p.1) languages_by_extension).

(** The [Debug] name of a variant. *)
Definition debug_name (l : Language) : string :=
  match l with
  | LangRust => "Rust" | LangPython => "Python" | LangJavaScript => "JavaScript"
  | LangTypeScript => "TypeScript" | LangTsx => "Tsx" | LangGo => "Go" | LangJava => "Java"
  | LangC => "C" | LangCpp => "Cpp" | LangCSharp => "CSharp" | LangKotlin => "Kotlin"
  | LangSwift => "Swift" | LangScala => "Scala" | LangZig => "Zig" | LangRuby => "Ruby"
  | LangPhp => "Php" | LangBash => "Bash" | LangPowerShell => "PowerShell" | LangLua => "Lua"
  | LangYaml => "Yaml" | LangToml => "Toml" | LangJson => "Json" | LangProperties => "Properties"
  | LangElixir => "Elixir" | LangHaskell => "Haskell" | LangDart => "Dart" | LangSql => "Sql"
  | LangHtml => "Html" | LangCss => "Css" | LangR => "R" | LangArkTs => "ArkTs" | LangObjC => "ObjC"
  | LangMetal => "Metal" | LangCuda => "Cuda" | LangSvelte => "Svelte" | LangVue => "Vue"
  | LangAstro => "Astro" | LangLiquid => "Liquid" | LangPascal => "Pascal" | LangLuau => "Luau"
  | LangCfml => "Cfml" | LangCobol => "Cobol" | LangVisualBasic => "VisualBasic"
  | LangErlang => "Erlang" | LangSolidity => "Solidity" | LangTerraform => "Terraform" | LangNix => "Nix"
  end.
