(* ===== verification/Interner.v ===== *)
(** * The string interner (weave-graph-parse: resolve.rs, [StringInterner])

    Strings in one arena with end offsets, found through an open-addressed,
    linearly probed table of [u32] ids.  The hash of a string is the standard
    library's randomly seeded [RandomState]: any function of the string. *)

From S2P Require Import Prelude Str.

Section interner.
Context (hash_one : string → N).

(** src/crates/weave-graph-parse/src/resolve.rs:76-76 [EMPTY_SLOT] *)
Definition EMPTY_SLOT : N := u32_MAX.

(** src/crates/weave-graph-parse/src/resolve.rs:95-104 [StringInterner] *)
Record StringInterner := mkInterner {
  arena : string;
  ends : list N;
  buckets : list N;
}.

(** src/crates/weave-graph-parse/src/resolve.rs:94-94 [StringInterner] *)
Definition interner_default : StringInterner := mkInterner "" [] [].

(** src/crates/weave-graph-parse/src/resolve.rs:123-129 [StringInterner::span] *)
Definition span (it : StringInterner) (id : N) : option (nat * nat) :=
  e ← ends it !! as_usize id;
  if decide (id = 0%N) then Some (0, as_usize e)
  else s ← ends it !! as_usize (id - 1); Some (as_usize s, as_usize e).

(** src/crates/weave-graph-parse/src/resolve.rs:131-133 [StringInterner::get]
    A byte range that is out of order or out of range panics. *)
Definition get (it : StringInterner) (id : N) : option string :=
  p ← span it id;
  if decide (p.1 ≤ p.2 ∧ p.2 ≤ String.length (arena it))
  then Some (String.substring p.1 (p.2 - p.1) (arena it)) else None.

(** src/crates/weave-graph-parse/src/resolve.rs:135-137 [StringInterner::hash_of] *)
Definition hash_of (it : StringInterner) (s : string) : N := hash_one s.

Definition next_power_of_two (n : nat) : nat := 2 ^ Nat.log2_up n.

(** [(slot + 1) & mask]. *)
Definition next_slot (mask slot : nat) : nat := N.to_nat (N.land (N.of_nat (slot + 1)) (N.of_nat mask)).
Definition first_slot (mask : nat) (hash : N) : nat := N.to_nat (N.land hash (N.of_nat mask)).

(** src/crates/weave-graph-parse/src/resolve.rs:152-154 [StringInterner::reserve_buckets]
    [while buckets[slot] != EMPTY_SLOT]; also lines 189-191 of [intern]. *)
Fixpoint free_slot (fuel : nat) (bs : list N) (mask slot : nat) : option nat :=
  match fuel with
  | O => None
  | S fuel =>
      b ← bs !! slot;
      if decide (b = EMPTY_SLOT) then Some slot else free_slot fuel bs mask (next_slot mask slot)
  end.

(** src/crates/weave-graph-parse/src/resolve.rs:149-156 [StringInterner::reserve_buckets]
    One round of the rehash loop, and lines 187-192 of [intern]. *)
Definition place (bs : list N) (hash : N) (id : N) : option (list N) :=
  let mask := length bs - 1 in
  slot ← free_slot (S (length bs)) bs mask (first_slot mask hash);
  vec_set bs slot id.

(** src/crates/weave-graph-parse/src/resolve.rs:141-158 [StringInterner::reserve_buckets] *)
Definition reserve_buckets (it : StringInterner) (additional : nat) : option StringInterner :=
  let needed := (length (ends it) + additional) * 10 / 7 + 1 in
  if decide (needed ≤ length (buckets it)) then Some it else
  let new_len := next_power_of_two needed `max` 16 in
  bs ← foldlM (λ bs id, s ← get it id; place bs (hash_of it s) id)
         (N.of_nat <$> seq 0 (length (ends it))) (replicate new_len EMPTY_SLOT);
  Some (mkInterner (arena it) (ends it) bs).

(** src/crates/weave-graph-parse/src/resolve.rs:112-121 [StringInterner::with_capacity]
    A capacity whose buckets cannot be allocated, or whose size overflows, is left
    out: it is a count of rows. *)
Definition with_capacity (capacity : nat) : option StringInterner :=
  reserve_buckets interner_default (capacity `max` 1).

(** src/crates/weave-graph-parse/src/resolve.rs:166-175 [StringInterner::find]
    The probe loop; [None] is a panic or a loop that does not end. *)
Fixpoint find_loop (fuel : nat) (it : StringInterner) (mask slot : nat) (s : string) : option (option N) :=
  match fuel with
  | O => None
  | S fuel =>
      id ← buckets it !! slot;
      if decide (id = EMPTY_SLOT) then Some None else
      x ← get it id;
      if decide (x = s) then Some (Some id) else find_loop fuel it mask (next_slot mask slot) s
  end.

(** src/crates/weave-graph-parse/src/resolve.rs:160-176 [StringInterner::find]
    A table with a free slot is left within one round. *)
Definition find (it : StringInterner) (hash : N) (s : string) : option (option N) :=
  if decide (buckets it = []) then Some None else
  let mask := length (buckets it) - 1 in
  find_loop (S (length (buckets it))) it mask (first_slot mask hash) s.

(** src/crates/weave-graph-parse/src/resolve.rs:178-194 [StringInterner::intern] *)
Definition intern (it : StringInterner) (s : string) : option (StringInterner * N) :=
  let hash := hash_of it s in
  r ← find it hash s;
  match r with
  | Some id => Some (it, id)
  | None =>
      it ← reserve_buckets it 1;
      let id := as_u32 (length (ends it)) in
      let arena' := arena it +:+ s in
      let ends' := ends it ++ [as_u32 (String.length arena')] in
      bs ← place (buckets it) hash id;
      Some (mkInterner arena' ends' bs, id)
  end.

(** src/crates/weave-graph-parse/src/resolve.rs:196-198 [StringInterner::get_id] *)
Definition get_id (it : StringInterner) (s : string) : option (option N) := find it (hash_of it s) s.

(** src/crates/weave-graph-parse/src/resolve.rs:200-202 [StringInterner::resolve] *)
Definition resolve (it : StringInterner) (id : N) : option string := get it id.

(** ** The probe sequence *)

Definition slot_at (len : nat) (h : N) (j : nat) : nat := N.to_nat ((h + N.of_nat j) `mod` N.of_nat len).

Definition pow2 (len : nat) : Prop := ∃ k, len = 2 ^ k.

Lemma pow2_land len (x : N) :
  pow2 len → N.to_nat (N.land x (N.of_nat (len - 1))) = N.to_nat (x `mod` N.of_nat len)%N.
Proof.
  intros [k ->]. f_equal.
  assert (N.of_nat (2 ^ k) = 2 ^ N.of_nat k)%N as Hp.
  { by rewrite Nat2N.inj_pow. }
  assert (N.of_nat (2 ^ k - 1) = N.ones (N.of_nat k)) as ->.
  { rewrite N.ones_equiv, <-Hp. assert (2 ^ k ≠ 0) by (by apply Nat.pow_nonzero). lia. }
  rewrite Hp. apply N.land_ones.
Qed.

Lemma first_slot_at len h : pow2 len → first_slot (len - 1) h = slot_at len h 0.
Proof. intros Hp. unfold first_slot, slot_at. rewrite pow2_land by done. by rewrite N.add_0_r. Qed.

Lemma next_slot_at len h j : pow2 len → next_slot (len - 1) (slot_at len h j) = slot_at len h (S j).
Proof.
  intros Hp. unfold next_slot, slot_at. rewrite pow2_land by done. f_equal.
  assert (N.of_nat len ≠ 0)%N as Hlen.
  { destruct Hp as [k ->]. assert (2 ^ k ≠ 0) by (by apply Nat.pow_nonzero). lia. }
  rewrite Nat2N.inj_add, N2Nat.id, Nat2N.inj_succ.
  rewrite N.Div0.add_mod_idemp_l. f_equal. lia.
Qed.

Lemma slot_at_lt len h j : 0 < len → slot_at len h j < len.
Proof. intros. unfold slot_at. pose proof (N.mod_lt (h + N.of_nat j) (N.of_nat len)). lia. Qed.

(** One round of the probe sequence visits every slot. *)
Lemma slot_at_surj len h slot : slot < len → ∃ j, j < len ∧ slot_at len h j = slot.
Proof.
  intros Hs. unfold slot_at. set (L := N.of_nat len). assert (L ≠ 0)%N by lia.
  set (r := (h `mod` L)%N). assert (r < L)%N by (apply N.mod_lt; lia).
  exists (N.to_nat ((N.of_nat slot + (L - r)) `mod` L)).
  pose proof (N.mod_lt (N.of_nat slot + (L - r)) L). split; [lia|].
  rewrite N2Nat.id, N.Div0.add_mod_idemp_r.
  assert ((h + (N.of_nat slot + (L - r))) `mod` L = N.of_nat slot)%N as ->; [|lia].
  rewrite <-N.Div0.add_mod_idemp_l. fold r.
  replace (r + (N.of_nat slot + (L - r)))%N with (N.of_nat slot + 1 * L)%N by lia.
  rewrite N.Div0.mod_add. apply N.mod_small. lia.
Qed.

(** ** The table *)

Definition used (b : N) : Prop := b ≠ EMPTY_SLOT.
#[local] Instance used_dec b : Decision (used b).
Proof. unfold used. apply _. Defined.

(** [hs] lists the hashes of the ids in the table. *)
Record table_ok (hs : list N) (bs : list N) : Prop := {
  to_pow : pow2 (length bs);
  to_load : length hs < length bs;
  to_count : length (filter used bs) = length hs;
  to_ids slot b : bs !! slot = Some b → used b → as_usize b < length hs;
  to_path i h : hs !! i = Some h →
    ∃ j, bs !! slot_at (length bs) h j = Some (N.of_nat i) ∧ j < length bs ∧
      ∀ j', j' < j → ∃ b, bs !! slot_at (length bs) h j' = Some b ∧ used b;
}.

Lemma filter_used_insert bs slot x :
  bs !! slot = Some EMPTY_SLOT → used x →
  length (filter used (<[slot := x]> bs)) = S (length (filter used bs)).
Proof.
  intros Hs Hx. rewrite insert_take_drop by (by eapply lookup_lt_Some).
  rewrite <-(take_drop_middle bs slot EMPTY_SLOT Hs) at 3.
  rewrite !filter_app, !length_app, !filter_cons, decide_True, decide_False by (done || by intros []).
  simpl. lia.
Qed.

Lemma free_exists (bs : list N) : length (filter used bs) < length bs → ∃ slot, bs !! slot = Some EMPTY_SLOT.
Proof.
  induction bs as [|b bs IH]; [simpl; lia|]. rewrite filter_cons. destruct (decide (used b)) as [Hb|Hb].
  - simpl. intros ?. destruct IH as [slot ?]; [lia|]. by exists (S slot).
  - exists 0. simpl. f_equal. destruct (decide (b = EMPTY_SLOT)); [done|]. by destruct Hb.
Qed.

(** The first free slot of the probe sequence. *)
Lemma free_slot_spec bs h j0 fuel j1 :
  pow2 (length bs) → bs !! slot_at (length bs) h j1 = Some EMPTY_SLOT → j0 ≤ j1 → j1 - j0 < fuel →
  ∃ j, j0 ≤ j ≤ j1 ∧ free_slot fuel bs (length bs - 1) (slot_at (length bs) h j0) = Some (slot_at (length bs) h j) ∧
    bs !! slot_at (length bs) h j = Some EMPTY_SLOT ∧
    ∀ j', j0 ≤ j' < j → ∃ b, bs !! slot_at (length bs) h j' = Some b ∧ used b.
Proof.
  intros Hp Hfree. revert j0; induction fuel as [|fuel IH]; intros j0 Hle Hf; [lia|]. cbn [free_slot].
  assert (0 < length bs) as Hpos by (apply lookup_lt_Some in Hfree; lia).
  destruct (lookup_lt_is_Some_2 bs (slot_at (length bs) h j0)) as [b Hb]; [by apply slot_at_lt|].
  rewrite Hb. cbn [mbind option_bind]. case_decide as He.
  - subst b. exists j0. split_and!; [lia..|done|done|lia].
  - assert (j0 ≠ j1) by congruence. rewrite next_slot_at by done.
    destruct (IH (S j0)) as (j & Hj & Hr & Hej & Hbefore); [lia..|]. exists j. split_and!; [lia..|done|done|].
    intros j' Hj'. destruct (decide (j' = j0)) as [->|]; [eauto|]. apply Hbefore. lia.
Qed.

Lemma place_ok hs bs h :
  table_ok hs bs → S (length hs) < length bs → (N.of_nat (length hs) < u32_MAX)%N →
  ∃ bs', place bs h (N.of_nat (length hs)) = Some bs' ∧ table_ok (hs ++ [h]) bs' ∧ length bs' = length bs.
Proof.
  intros [Hp Hl Hc Hi Hpath] Hroom Hsmall.
  destruct (free_exists bs) as [s0 Hs0]; [lia|].
  destruct (slot_at_surj (length bs) h s0) as (j1 & Hj1 & <-); [by eapply lookup_lt_Some|].
  destruct (free_slot_spec bs h 0 (S (length bs)) j1 Hp Hs0) as (j & Hj & Hr & He & Hbefore); [lia..|].
  unfold place. rewrite first_slot_at, Hr by done. cbn [mbind option_bind].
  rewrite vec_set_lt by (by eapply lookup_lt_Some). eexists. split_and!; [done| |apply length_insert].
  set (slot := slot_at (length bs) h j) in *.
  assert (used (N.of_nat (length hs))) as Hused by (unfold used, EMPTY_SLOT; lia).
  assert (∀ x b, bs !! x = Some b → used b → <[slot := N.of_nat (length hs)]> bs !! x = Some b) as Hkeep.
  { intros x b Hx Hb. rewrite list_lookup_insert_ne; [done|]. intros ->. unfold used in Hb. congruence. }
  split; rewrite ?length_insert, ?length_app; simpl.
  - done.
  - lia.
  - rewrite filter_used_insert by done. lia.
  - intros x b. rewrite list_lookup_insert_Some. unfold as_usize.
    intros [(-> & <- & _)|[_ Hx]] Hb; [rewrite Nat2N.id; lia|]. specialize (Hi _ _ Hx Hb). unfold as_usize in Hi. lia.
  - intros i h'. rewrite lookup_app_Some, list_lookup_singleton_Some. intros [Hih|(Hge & Hi0 & ->)].
    + destruct (Hpath _ _ Hih) as (ji & Hat & Hlt & Hpre). exists ji. apply lookup_lt_Some in Hih.
      split_and!; [|done|].
      * apply Hkeep; [done|]. unfold used, EMPTY_SLOT. lia.
      * intros j' Hj'. destruct (Hpre _ Hj') as (b & ? & ?). exists b. auto.
    + assert (i = length hs) as -> by lia. exists j. split_and!; [|lia|].
      * apply list_lookup_insert_eq. by eapply lookup_lt_Some.
      * intros j' Hj'. destruct (Hbefore j') as (b & ? & ?); [lia|]. exists b. auto.
Qed.

(** ** The arena *)

Fixpoint str_concat (l : list string) : string :=
  match l with [] => "" | x :: l => x +:+ str_concat l end.

Lemma str_concat_app l k : str_concat (l ++ k) = str_concat l +:+ str_concat k.
Proof. induction l as [|x l IH]; simpl; [done|]. by rewrite IH, append_assoc. Qed.

Lemma substring_0_all s : String.substring 0 (String.length s) s = s.
Proof. induction s as [|c s IH]; simpl; [done|]. by rewrite IH. Qed.

Lemma substring_middle a b c :
  String.substring (String.length a) (String.length b) (a +:+ b +:+ c) = b.
Proof.
  induction a as [|x a IH]; [|apply IH].
  induction b as [|x b IH]; [by destruct c|]. cbn. f_equal. apply IH.
Qed.

(** [strs] lists the interned strings in id order. *)
Record arena_ok (strs : list string) (ar : string) (es : list N) : Prop := {
  ao_arena : ar = str_concat strs;
  ao_len : length es = length strs;
  ao_ends i : i < length strs → es !! i = Some (N.of_nat (String.length (str_concat (take (S i) strs))));
}.

Lemma get_spec strs ar es bs i s :
  arena_ok strs ar es → strs !! i = Some s → get (mkInterner ar es bs) (N.of_nat i) = Some s.
Proof.
  intros [Ha Hl He] Hi. pose proof (lookup_lt_Some _ _ _ Hi) as Hlt.
  assert (span (mkInterner ar es bs) (N.of_nat i) =
          Some (String.length (str_concat (take i strs)), String.length (str_concat (take (S i) strs)))) as Hspan.
  { unfold span, as_usize. cbn [ends]. rewrite Nat2N.id, (He i) by lia. cbn [mbind option_bind]. rewrite !Nat2N.id.
    destruct i as [|i]; [by rewrite decide_True by done|]. rewrite decide_False by lia.
    replace (N.to_nat (N.of_nat (S i) - 1)) with i by lia. rewrite He by lia. cbn [mbind option_bind]. by rewrite Nat2N.id. }
  assert (str_concat strs = str_concat (take i strs) +:+ s +:+ str_concat (drop (S i) strs)) as Hc.
  { pose proof (take_drop_middle strs i s Hi) as Hm. by rewrite <-Hm, str_concat_app at 1. }
  assert (str_concat (take (S i) strs) = str_concat (take i strs) +:+ s) as Ht.
  { rewrite (take_S_r _ _ _ Hi), str_concat_app. cbn. by rewrite append_nil_r. }
  unfold get. rewrite Hspan, Ht. cbn [mbind option_bind fst snd arena]. subst ar. rewrite Hc.
  rewrite decide_True by (rewrite !length_append; lia). f_equal. rewrite length_append.
  replace (_ + _ - _) with (String.length s) by lia. apply substring_middle.
Qed.

Lemma arena_ok_snoc strs ar es s :
  arena_ok strs ar es →
  arena_ok (strs ++ [s]) (ar +:+ s) (es ++ [N.of_nat (String.length (ar +:+ s))]).
Proof.
  intros [Ha Hl He]. split.
  - by rewrite str_concat_app, Ha; cbn; rewrite append_nil_r.
  - rewrite !length_app. simpl. lia.
  - intros i. rewrite length_app. simpl. intros Hi. destruct (decide (i = length strs)) as [->|Hne].
    + rewrite lookup_app_r, Hl, Nat.sub_diag by lia. cbn -[take].
      rewrite take_ge by (rewrite length_app; simpl; lia). rewrite str_concat_app, Ha. cbn. by rewrite append_nil_r.
    + rewrite lookup_app_l by lia. rewrite He by lia. by rewrite take_app_le by lia.
Qed.

(** ** The representation *)

Record interner_rep (it : StringInterner) (strs : list string) : Prop := {
  ir_arena : arena_ok strs (arena it) (ends it);
  ir_nodup : NoDup strs;
  ir_small : (N.of_nat (length strs) ≤ u32_MAX)%N;
  ir_table : table_ok (hash_one <$> strs) (buckets it) ∨ strs = [] ∧ buckets it = [];
}.

Lemma rep_get it strs i s : interner_rep it strs → strs !! i = Some s → get it (N.of_nat i) = Some s.
Proof. intros Hr Hi. destruct it as [ar es bs]. eapply get_spec; [apply Hr|done]. Qed.

Lemma find_loop_spec it strs s j0 fuel j1 :
  interner_rep it strs → table_ok (hash_one <$> strs) (buckets it) →
  buckets it !! slot_at (length (buckets it)) (hash_one s) j1 = Some EMPTY_SLOT → j0 ≤ j1 → j1 - j0 < fuel →
  (∀ i j, strs !! i = Some s → j < j0 → buckets it !! slot_at (length (buckets it)) (hash_one s) j ≠ Some (N.of_nat i)) →
  ∃ r, find_loop fuel it (length (buckets it) - 1) (slot_at (length (buckets it)) (hash_one s) j0) s = Some r ∧
    match r with
    | Some id => strs !! as_usize id = Some s
    | None => s ∉ strs
    end.
Proof.
  intros Hrep [Hp Hl Hc Hi Hpath] Hfree. set (bs := buckets it) in *. set (L := length bs) in *.
  revert j0; induction fuel as [|fuel IH]; intros j0 Hle Hf Hseen; [lia|]. cbn [find_loop]. fold bs.
  assert (0 < L) as Hpos by (apply lookup_lt_Some in Hfree; lia).
  destruct (lookup_lt_is_Some_2 bs (slot_at L (hash_one s) j0)) as [b Hb]; [by apply slot_at_lt|].
  rewrite Hb. cbn [mbind option_bind]. case_decide as He.
  - exists None. split; [done|]. intros (i & Hs)%list_elem_of_lookup.
    destruct (Hpath i (hash_one s)) as (j & Hj & _ & Hbefore).
    { rewrite list_lookup_fmap, Hs. done. }
    destruct (decide (j < j0)) as [Hlt|Hge]; [by eapply Hseen|].
    destruct (decide (j = j0)) as [->|Hne].
    + rewrite Hb in Hj. subst b. apply (inj Some) in Hj. pose proof (ir_small _ _ Hrep).
      apply lookup_lt_Some in Hs. unfold EMPTY_SLOT in Hj. lia.
    + destruct (Hbefore j0) as (b' & Hb' & Hu); [lia|]. rewrite Hb in Hb'. by simplify_eq.
  - assert (as_usize b < length strs) as Hlt.
    { erewrite <-length_fmap. by eapply Hi. }
    destruct (lookup_lt_is_Some_2 strs (as_usize b) Hlt) as [x Hx].
    pose proof (rep_get it strs _ x Hrep Hx) as Hget. unfold as_usize in Hget. rewrite N2Nat.id in Hget.
    rewrite Hget. cbn [mbind option_bind]. case_decide as Hxs.
    + subst x. exists (Some b). done.
    + assert (j0 ≠ j1) by congruence. unfold L. rewrite next_slot_at by done. apply IH; [lia..|].
      intros i j Hs Hj. destruct (decide (j = j0)) as [->|]; [|apply Hseen; [done|lia]].
      rewrite Hb. intros [= ->]. unfold as_usize in Hx. rewrite Nat2N.id in Hx. congruence.
Qed.

Lemma find_spec it strs s :
  interner_rep it strs →
  ∃ r, find it (hash_one s) s = Some r ∧
    match r with Some id => strs !! as_usize id = Some s | None => s ∉ strs end.
Proof.
  intros Hrep. unfold find. case_decide as He.
  - exists None. split; [done|]. destruct (ir_table _ _ Hrep) as [Ht|[-> _]]; [|set_solver].
    pose proof (to_load _ _ Ht) as Hl. rewrite He in Hl. simpl in Hl. lia.
  - destruct (ir_table _ _ Hrep) as [Ht|[_ ?]]; [|done].
    destruct (free_exists (buckets it)) as [s0 Hs0].
    { rewrite (to_count _ _ Ht). apply (to_load _ _ Ht). }
    destruct (slot_at_surj (length (buckets it)) (hash_one s) s0) as (j1 & Hj1 & <-); [by eapply lookup_lt_Some|].
    rewrite first_slot_at by apply Ht. eapply find_loop_spec; [done..|lia|lia|lia].
Qed.

(** ** Growth *)

Lemma next_power_of_two_ge n : 1 < n → n ≤ next_power_of_two n.
Proof. intros Hn. unfold next_power_of_two. apply Nat.log2_up_spec. lia. Qed.

Lemma new_len_pow2 n : pow2 (next_power_of_two n `max` 16).
Proof.
  unfold next_power_of_two. destruct (Nat.max_spec (2 ^ Nat.log2_up n) 16) as [[_ ->]|[_ ->]].
  - by exists 4.
  - by eexists.
Qed.

Lemma empty_table_ok n : pow2 n → table_ok [] (replicate n EMPTY_SLOT).
Proof.
  intros Hp. assert (0 < n) as Hn.
  { destruct Hp as [k ->]. assert (2 ^ k ≠ 0) by (by apply Nat.pow_nonzero). lia. }
  split; rewrite ?length_replicate; try done.
  - clear. induction n as [|n IH]; [done|]. simpl. rewrite filter_cons, decide_False by (by intros []). done.
  - intros slot b [-> _]%lookup_replicate []. done.
Qed.

Lemma rehash_ok it strs n k :
  interner_rep it strs → pow2 n → S (length strs) < n → k ≤ length strs →
  ∃ bs, foldlM (λ bs id, s ← get it id; place bs (hash_of it s) id) (N.of_nat <$> seq 0 k)
          (replicate n EMPTY_SLOT) = Some bs ∧
    table_ok (hash_one <$> take k strs) bs ∧ length bs = n.
Proof.
  intros Hrep Hp Hn. induction k as [|k IH]; intros Hk.
  { eexists. split_and!; [done|by apply empty_table_ok|apply length_replicate]. }
  destruct IH as (bs & Hf & Ht & Hlen); [lia|].
  rewrite seq_S, fmap_app, foldlM_app, Hf. cbn [mbind option_bind fmap list_fmap foldlM Nat.add].
  destruct (lookup_lt_is_Some_2 strs k) as [s Hs]; [lia|].
  rewrite (rep_get it strs k s Hrep Hs). cbn [mbind option_bind].
  pose proof (ir_small _ _ Hrep) as Hsmall.
  assert (length (hash_one <$> take k strs) = k) as Hlk by (rewrite length_fmap, length_take; lia).
  destruct (place_ok _ bs (hash_one s) Ht) as (bs' & Hp' & Ht' & Hl'); [lia|lia|].
  rewrite Hlk in Hp'. unfold hash_of. rewrite Hp'. cbn [mbind option_bind].
  exists bs'. split_and!; [done| |lia]. by rewrite (take_S_r _ _ _ Hs), fmap_app.
Qed.

Lemma reserve_buckets_spec it strs add :
  interner_rep it strs → 1 ≤ add →
  ∃ it', reserve_buckets it add = Some it' ∧ interner_rep it' strs ∧
    arena it' = arena it ∧ ends it' = ends it ∧
    table_ok (hash_one <$> strs) (buckets it') ∧ length strs + add < length (buckets it').
Proof.
  intros Hrep Hadd. unfold reserve_buckets. rewrite (ao_len _ _ _ (ir_arena _ _ Hrep)).
  set (needed := (length strs + add) * 10 / 7 + 1).
  assert (length strs + add < needed) as Hneed.
  { unfold needed. pose proof (Nat.div_le_lower_bound ((length strs + add) * 10) 7 (length strs + add)). lia. }
  case_decide as Hfits.
  - exists it. destruct (ir_table _ _ Hrep) as [Ht|[_ He]]; [|rewrite He in Hfits; simpl in Hfits; lia].
    split_and!; [done..|lia].
  - pose proof (next_power_of_two_ge needed ltac:(lia)).
    destruct (rehash_ok it strs (next_power_of_two needed `max` 16) (length strs)) as (bs & -> & Ht & Hl);
      [done|apply new_len_pow2|lia|lia|].
    rewrite take_ge in Ht by done. cbn [mbind option_bind]. eexists. split_and!; [done| |done..|cbn; lia].
    destruct Hrep. split; [done..|]. by left.
Qed.

Lemma default_rep : interner_rep interner_default [].
Proof. split; [split; [done..|simpl; lia]|constructor|done|by right]. Qed.

Lemma intern_spec it strs s :
  interner_rep it strs →
  (N.of_nat (length strs) < u32_MAX)%N → (N.of_nat (String.length (arena it +:+ s)) ≤ u32_MAX)%N →
  ∃ it' id strs', intern it s = Some (it', id) ∧ interner_rep it' strs' ∧
    strs' = (if decide (s ∈ strs) then strs else strs ++ [s]) ∧ strs' !! as_usize id = Some s ∧
    (s ∈ strs → it' = it).
Proof.
  intros Hrep Hsmall Hbytes. unfold intern. change (hash_of it s) with (hash_one s).
  destruct (find_spec it strs s Hrep) as (r & -> & Hr). cbn [mbind option_bind].
  destruct r as [id|].
  { exists it, id, strs. apply list_elem_of_lookup_2 in Hr as Hin. by rewrite decide_True. }
  destruct (reserve_buckets_spec it strs 1 Hrep) as (it1 & -> & Hrep1 & Ha & He & Ht & Hroom); [lia|].
  cbn [mbind option_bind]. rewrite He, (ao_len _ _ _ (ir_arena _ _ Hrep)).
  assert (∀ n, (N.of_nat n ≤ u32_MAX)%N → as_u32 n = N.of_nat n) as Hcast.
  { intros n Hn. unfold as_u32. apply N.mod_small. unfold u32_MAX in Hn. lia. }
  rewrite (Hcast (length strs)) by lia.
  destruct (place_ok (hash_one <$> strs) (buckets it1) (hash_one s) Ht) as (bs & Hp & Hbs & _);
    [rewrite length_fmap; lia..|].
  rewrite length_fmap in Hp. rewrite Hp. cbn [mbind option_bind]. rewrite Ha, Hcast by done.
  eexists _, _, (strs ++ [s]). rewrite decide_False by done. split_and!; [done| |done| |done].
  - split; cbn.
    + rewrite <-Ha. rewrite <-Ha in *. apply arena_ok_snoc. rewrite Ha. apply (ir_arena _ _ Hrep).
    + apply NoDup_app. split_and!; [apply Hrep|set_solver|apply NoDup_singleton].
    + rewrite length_app. simpl. lia.
    + left. by rewrite fmap_app.
  - unfold as_usize. rewrite Nat2N.id, lookup_app_r, Nat.sub_diag by lia. done.
Qed.

Lemma with_capacity_rep n : ∃ it, with_capacity n = Some it ∧ interner_rep it [].
Proof.
  destruct (reserve_buckets_spec interner_default [] (n `max` 1) default_rep) as (it & Hit & Hrep & _); [lia|].
  eauto.
Qed.

Lemma resolve_rep it strs id s : interner_rep it strs → strs !! as_usize id = Some s → resolve it id = Some s.
Proof.
  intros Hrep Hs. unfold resolve. rewrite <-(N2Nat.id id). by apply (rep_get it strs).
Qed.

Lemma get_id_rep it strs s :
  interner_rep it strs →
  ∃ r, get_id it s = Some r ∧ match r with Some id => strs !! as_usize id = Some s | None => s ∉ strs end.
Proof. apply find_spec. Qed.

Lemma get_id_known it strs id s :
  interner_rep it strs → strs !! as_usize id = Some s → get_id it s = Some (Some id).
Proof.
  intros Hrep Hs. destruct (get_id_rep it strs s Hrep) as (r & -> & Hr). do 2 f_equal.
  destruct r as [id'|].
  - f_equal. apply N2Nat.inj. by eapply NoDup_lookup; [apply Hrep|..].
  - apply list_elem_of_lookup_2 in Hs. done.
Qed.

(** Interning a list of strings in order, with the ids given out. *)
Fixpoint intern_all (it : StringInterner) (l : list string) : option (StringInterner * list N) :=
  match l with
  | [] => Some (it, [])
  | s :: l => p ← intern it s; q ← intern_all p.1 l; Some (q.1, p.2 :: q.2)
  end.

Definition total_bytes (l : list string) : nat := String.length (str_concat l).

Lemma intern_all_spec l : ∀ it strs,
  interner_rep it strs →
  (N.of_nat (length strs + length l) ≤ u32_MAX)%N →
  (N.of_nat (total_bytes strs + total_bytes l) ≤ u32_MAX)%N →
  ∃ it' ids strs', intern_all it l = Some (it', ids) ∧ interner_rep it' strs' ∧ strs `prefix_of` strs' ∧
    (∀ s, s ∈ strs' ↔ s ∈ strs ∨ s ∈ l) ∧
    Forall2 (λ s id, strs' !! as_usize id = Some s) l ids.
Proof.
  induction l as [|s l IH]; intros it strs Hrep Hn Hb; cbn [intern_all].
  { exists it, [], strs. split_and!; [done..|set_solver|constructor]. }
  unfold total_bytes in *. cbn [str_concat] in Hb. rewrite length_append in Hb. simpl in Hn.
  destruct (intern_spec it strs s Hrep) as (it1 & id & strs1 & -> & Hrep1 & Hs1 & Hid & _).
  { lia. }
  { rewrite (ao_arena _ _ _ (ir_arena _ _ Hrep)), length_append. lia. }
  cbn [mbind option_bind fst snd].
  assert (strs `prefix_of` strs1) as Hpre by (subst; case_decide; [done|by apply prefix_app_r]).
  destruct (IH it1 strs1 Hrep1) as (it' & ids & strs' & -> & Hrep' & Hpre' & Hmem & HF).
  { subst. case_decide; rewrite ?length_app; simpl; lia. }
  { subst. case_decide; rewrite ?str_concat_app, ?length_append; cbn; rewrite ?append_nil_r; lia. }
  cbn [mbind option_bind fst snd]. exists it', (id :: ids), strs'. split_and!; [done|done|by etrans| |].
  - intros x. rewrite Hmem, Hs1. case_decide; set_solver.
  - constructor; [|done]. by eapply prefix_lookup_Some.
Qed.

End interner.

(** C8: the interner is a bijection between the interned strings and their ids.
    For every hash function, from an empty or a pre-sized table, interning any
    list of strings (under 4 GiB and below [u32::MAX] of them) never panics and
    every probe loop ends; each id resolves back to its string and each string
    looks up to its id (so equal strings share an id and different ones do not),
    and a string that was not interned is not found. *)
Theorem interner_correct hash_one capacity l
    (Hn : (N.of_nat (length l) ≤ u32_MAX)%N) (Hb : (N.of_nat (total_bytes l) ≤ u32_MAX)%N) :
  ∃ start it ids,
    (match capacity with Some n => with_capacity hash_one n | None => Some interner_default end) = Some start ∧
    intern_all hash_one start l = Some (it, ids) ∧
    Forall2 (λ s id, resolve it id = Some s ∧ get_id hash_one it s = Some (Some id)) l ids ∧
    ∀ s, s ∉ l → get_id hash_one it s = Some None.
Proof.
  assert (∃ start, (match capacity with Some n => with_capacity hash_one n | None => Some interner_default end) =
            Some start ∧ interner_rep hash_one start []) as (start & -> & Hrep).
  { destruct capacity as [n|]; [apply with_capacity_rep|]. eexists. split; [done|apply default_rep]. }
  destruct (intern_all_spec hash_one l start [] Hrep) as (it & ids & strs & Hi & Hrep' & _ & Hmem & HF); [done..|].
  exists start, it, ids. split_and!; [done..| |].
  - eapply Forall2_impl; [exact HF|]. intros s id Hs. split; [by eapply resolve_rep|by eapply get_id_known].
  - intros s Hs. destruct (get_id_rep hash_one it strs s Hrep') as (r & -> & Hr). destruct r as [id|]; [|done].
    apply list_elem_of_lookup_2 in Hr. set_solver.
Qed.

Lemma interner_correct_witness :
  ∃ start it ids, with_capacity (λ _, 7%N) 20 = Some start ∧
    intern_all (λ _, 7%N) start ["a"; "bc"; "a"; ""] = Some (it, ids) ∧ ids = [0; 1; 0; 2]%N.
Proof.
  destruct (interner_correct (λ _, 7%N) (Some 20) ["a"; "bc"; "a"; ""] ltac:(done) ltac:(done))
    as (start & it & ids & Hs & Hi & _).
  exists start, it, ids. split_and!; [exact Hs|exact Hi|].
  vm_compute in Hs. simplify_eq. vm_compute in Hi. by simplify_eq.
Defined.
