(* ===== verification/ProjectIndex.v ===== *)
(** * Reference resolution (weave-graph-parse: resolve.rs, model.rs, moniker.rs)

    The project-wide symbol table over the interner, the resolution of one
    file's calls and structural references to edges, and the cross-repository
    fallback; proved against a resolution over the plain list of symbols. *)

From S2P Require Import Prelude Str Model Language Interner.

(** ** Parsed files *)

(** src/crates/weave-graph-parse/src/model.rs:18-30 [SymbolKind] *)
Inductive SymbolKind := Function | Method | Struct | ClassKind | Interface | Impl | Route.

(** src/crates/weave-graph-parse/src/model.rs:32-46 [SymbolKind::as_str] *)
Definition symbol_kind_str (k : SymbolKind) : string :=
  match k with
  | Function => "function" | Method => "method" | Struct => "struct" | ClassKind => "class"
  | Interface => "interface" | Impl => "impl" | Route => "route"
  end.

(** src/crates/weave-graph-parse/src/model.rs:6-15 [WiringCard] *)
Record WiringCard := mkCard {
  card_moniker : string;
  card_symbol : string;
  card_kind : SymbolKind;
  card_line_start : N;
  card_line_end : N;
  card_signature : string;
}.

(** src/crates/weave-graph-parse/src/model.rs:53-57 [RawCall] *)
Record RawCall := mkCall { caller_moniker : string; callee_name : string; is_member_call : bool }.

(** src/crates/weave-graph-parse/src/model.rs:70-77 [StructuralEdgeKind] *)
Inductive StructuralEdgeKind := Imports | Inherits | Implements | Handles.

(** src/crates/weave-graph-parse/src/model.rs:79-89 [StructuralEdgeKind::as_str] *)
Definition structural_kind_str (k : StructuralEdgeKind) : string :=
  match k with
  | Imports => "IMPORTS" | Inherits => "INHERITS" | Implements => "IMPLEMENTS" | Handles => "ROUTES_TO"
  end.

(** src/crates/weave-graph-parse/src/model.rs:63-67 [RawStructuralEdge] *)
Record RawStructuralEdge := mkStructural {
  source_moniker : string;
  target_name : string;
  structural_kind : StructuralEdgeKind;
}.

(** src/crates/weave-graph-parse/src/model.rs:93-97 [ParsedFile] *)
Record ParsedFile := mkParsed {
  symbols : list WiringCard;
  calls : list RawCall;
  structural_edges : list RawStructuralEdge;
}.

(** src/crates/weave-graph-parse/src/moniker.rs:6-8 [build] *)
Definition moniker_build (path symbol : string) : string := path +:+ "#" +:+ symbol.

(** ** Results *)

(** src/crates/weave-graph-parse/src/resolve.rs:13-24 [ResolutionKind] *)
Inductive ResolutionKind := SameFileExact | UniqueGlobalExact | AmbiguousHeuristic.

(** src/crates/weave-graph-parse/src/resolve.rs:26-34 [ResolutionKind::as_str] *)
Definition resolution_str (k : ResolutionKind) : string :=
  match k with
  | SameFileExact => "SAME_FILE_EXACT"
  | UniqueGlobalExact => "UNIQUE_GLOBAL_EXACT"
  | AmbiguousHeuristic => AMBIGUOUS_HEURISTIC
  end.

(** src/crates/weave-graph-parse/src/resolve.rs:40-46 [ResolvedEdge] *)
Record ResolvedEdge := mkResolved {
  re_source : string;
  re_target : string;
  re_kind : string;
  re_resolution : ResolutionKind;
  re_extractor : option string;
}.

(** src/crates/weave-graph-parse/src/resolve.rs:50-56 [ResolvedEdgeIds] *)
Record ResolvedEdgeIds := mkResolvedIds {
  rei_source : N;
  rei_target : N;
  rei_kind : string;
  rei_resolution : ResolutionKind;
  rei_extractor : option string;
}.

(** src/crates/weave-graph-parse/src/resolve.rs:58-60 [file_of] *)
Definition file_of (moniker : string) : string :=
  match split_once moniker "#" with Some (f, _) => f | None => moniker end.

(** src/crates/weave-graph-parse/src/resolve.rs:67-70 [extractor_of] *)
Definition extractor_of (moniker : string) : option string :=
  (λ l, to_ascii_lowercase (debug_name l)) <$> from_path (file_of moniker).

(** [symbol.rsplit("::").next()]. *)
Definition short_name_of (symbol : string) : string :=
  match rsplit_once symbol "::" with Some (_, n) => n | None => symbol end.

(** ** The index *)

Section index.
Context (hash_one : string → N).

(** src/crates/weave-graph-parse/src/resolve.rs:208-211 [ProjectIndex] *)
Record ProjectIndex := mkIndex {
  interner : StringInterner;
  by_short_name : gmap N (list N);
}.

(** src/crates/weave-graph-parse/src/resolve.rs:214-216 [ProjectIndex::new] *)
Definition new : ProjectIndex := mkIndex interner_default ∅.

(** src/crates/weave-graph-parse/src/resolve.rs:221-226 [ProjectIndex::with_capacity] *)
Definition index_with_capacity (symbol_count : nat) : option ProjectIndex :=
  it ← with_capacity hash_one (symbol_count * 2); Some (mkIndex it ∅).

(** src/crates/weave-graph-parse/src/resolve.rs:235-243 [ProjectIndex::add_symbol] *)
Definition add_symbol (ix : ProjectIndex) (moniker short_name : string) : option (ProjectIndex * N) :=
  p ← intern hash_one (interner ix) short_name;
  q ← intern hash_one p.1 moniker;
  Some (mkIndex q.1 (<[p.2 := default [] (by_short_name ix !! p.2) ++ [q.2]]> (by_short_name ix)), q.2).

(** src/crates/weave-graph-parse/src/resolve.rs:228-233 [ProjectIndex::add_file] *)
Definition add_file (ix : ProjectIndex) (file : ParsedFile) : option ProjectIndex :=
  foldlM (λ ix s, fst <$> add_symbol ix (card_moniker s) (short_name_of (card_symbol s))) (symbols file) ix.

(** src/crates/weave-graph-parse/src/resolve.rs:245-247 [ProjectIndex::get_moniker_id] *)
Definition get_moniker_id (ix : ProjectIndex) (moniker : string) : option (option N) :=
  get_id hash_one (interner ix) moniker.

(** src/crates/weave-graph-parse/src/resolve.rs:249-254 [ProjectIndex::candidates] *)
Definition candidates (ix : ProjectIndex) (short_name : string) : option (list N) :=
  r ← get_id hash_one (interner ix) short_name;
  Some (default [] (id ← r; by_short_name ix !! id)).

(** src/crates/weave-graph-parse/src/resolve.rs:268-272 [ProjectIndex::resolve_one] *)
Definition same_file_ids (ix : ProjectIndex) (caller_file : string) (cs : list N) : option (list N) :=
  l ← mapM (λ id, m ← resolve (interner ix) id; Some (id, m)) cs;
  Some (fst <$> filter (λ p : N * string, file_of p.2 = caller_file) l).

(** src/crates/weave-graph-parse/src/resolve.rs:288-297 [ProjectIndex::resolve_one] *)
Definition resolve_dynamic (ix : ProjectIndex) (cs : list N) : option (list (string * string * ResolutionKind)) :=
  mapM (λ id, m ← resolve (interner ix) id; Some (m, "CALLS_DYNAMIC", AmbiguousHeuristic)) cs.

(** src/crates/weave-graph-parse/src/resolve.rs:256-298 [ProjectIndex::resolve_one] *)
Definition resolve_one (ix : ProjectIndex) (from_moniker short_name : string) (force_dynamic : bool) :
    option (list (string * string * ResolutionKind)) :=
  cs ← candidates ix short_name;
  match cs with
  | [] => Some []
  | _ =>
      if force_dynamic then resolve_dynamic ix cs else
      same_file ← same_file_ids ix (file_of from_moniker) cs;
      match same_file, cs with
      | [id], _ => m ← resolve (interner ix) id; Some [(m, "CALLS_EXACT", SameFileExact)]
      | _, [id] => m ← resolve (interner ix) id; Some [(m, "CALLS_EXACT", UniqueGlobalExact)]
      | _, _ => resolve_dynamic ix cs
      end
  end.

(** src/crates/weave-graph-parse/src/resolve.rs:328-340 [ProjectIndex::resolve_ids]
    The edges of one resolved call: an unknown source or target is skipped. *)
Definition call_edges (ix : ProjectIndex) (source_id : option N) (ext : option string)
    (resolved : list (string * string * ResolutionKind)) : option (list ResolvedEdgeIds) :=
  l ← mapM (λ '(target, kind, rk),
        match source_id with
        | None => Some None
        | Some sid =>
            t ← get_id hash_one (interner ix) target;
            Some (tid ← t; Some (mkResolvedIds sid tid kind rk ext))
        end) resolved;
  Some (omap id l).

(** src/crates/weave-graph-parse/src/resolve.rs:320-341 [ProjectIndex::resolve_ids] *)
Definition resolve_call (ix : ProjectIndex) (st : list ResolvedEdgeIds * list string) (c : RawCall) :
    option (list ResolvedEdgeIds * list string) :=
  resolved ← resolve_one ix (caller_moniker c) (callee_name c) (is_member_call c);
  let unresolved := if decide (resolved = []) then st.2 ++ [callee_name c] else st.2 in
  source_id ← get_id hash_one (interner ix) (caller_moniker c);
  es ← call_edges ix source_id (extractor_of (caller_moniker c)) resolved;
  Some (st.1 ++ es, unresolved).

(** src/crates/weave-graph-parse/src/resolve.rs:343-370 [ProjectIndex::resolve_ids] *)
Definition resolve_structural (ix : ProjectIndex) (st : list ResolvedEdgeIds * list string)
    (e : RawStructuralEdge) : option (list ResolvedEdgeIds * list string) :=
  cs ← candidates ix (target_name e);
  let unresolved := if decide (cs = []) then st.2 ++ [target_name e] else st.2 in
  let rk := if decide (length cs = 1) then UniqueGlobalExact else AmbiguousHeuristic in
  let ext := extractor_of (source_moniker e) in
  src ← get_id hash_one (interner ix) (source_moniker e);
  Some (st.1 ++ match src with
                | Some sid => (λ cid, mkResolvedIds sid cid (structural_kind_str (structural_kind e)) rk ext) <$> cs
                | None => []
                end, unresolved).

(** src/crates/weave-graph-parse/src/resolve.rs:316-376 [ProjectIndex::resolve_ids] *)
Definition resolve_ids (ix : ProjectIndex) (file : ParsedFile) : option (list ResolvedEdgeIds * list string) :=
  st ← foldlM (resolve_call ix) (calls file) ([], []);
  st ← foldlM (resolve_structural ix) (structural_edges file) st;
  Some (st.1, dedup (sort_by String.leb st.2)).

(** src/crates/weave-graph-parse/src/resolve.rs:300-313 [ProjectIndex::resolve] *)
Definition index_resolve (ix : ProjectIndex) (file : ParsedFile) : option (list ResolvedEdge * list string) :=
  r ← resolve_ids ix file;
  es ← mapM (λ e, s ← resolve (interner ix) (rei_source e); t ← resolve (interner ix) (rei_target e);
                  Some (mkResolved s t (rei_kind e) (rei_resolution e) (rei_extractor e))) r.1;
  Some (es, r.2).

(** ** Resolution over the plain list of symbols *)

(** A symbol as added: moniker and short name. *)
Abbreviation symbol := (string * string)%type (only parsing).

Definition cands (syms : list symbol) (short : string) : list string :=
  fst <$> filter (λ p : symbol, p.2 = short) syms.

Definition known (syms : list symbol) (s : string) : Prop := s ∈ syms.*1 ∨ s ∈ syms.*2.
#[global] Instance known_dec syms s : Decision (known syms s).
Proof. unfold known. apply _. Defined.

Definition spec_one (syms : list symbol) (from short : string) (dynamic : bool) :
    list (string * string * ResolutionKind) :=
  let cs := cands syms short in
  let ambiguous := (λ m, (m, "CALLS_DYNAMIC", AmbiguousHeuristic)) <$> cs in
  if dynamic then ambiguous else
  match filter (λ m, file_of m = file_of from) cs, cs with
  | [m], _ => [(m, "CALLS_EXACT", SameFileExact)]
  | _, [m] => [(m, "CALLS_EXACT", UniqueGlobalExact)]
  | _, _ => ambiguous
  end.

Definition spec_call (syms : list symbol) (c : RawCall) : list ResolvedEdge :=
  if decide (known syms (caller_moniker c)) then
    (λ p : string * string * ResolutionKind,
       mkResolved (caller_moniker c) p.1.1 p.1.2 p.2 (extractor_of (caller_moniker c))) <$>
    spec_one syms (caller_moniker c) (callee_name c) (is_member_call c)
  else [].

Definition spec_structural (syms : list symbol) (e : RawStructuralEdge) : list ResolvedEdge :=
  let cs := cands syms (target_name e) in
  if decide (known syms (source_moniker e)) then
    (λ m, mkResolved (source_moniker e) m (structural_kind_str (structural_kind e))
            (if decide (length cs = 1) then UniqueGlobalExact else AmbiguousHeuristic)
            (extractor_of (source_moniker e))) <$> cs
  else [].

Definition spec_unresolved (syms : list symbol) (file : ParsedFile) : list string :=
  filter (λ n, cands syms n = []) ((callee_name <$> calls file) ++ (target_name <$> structural_edges file)).

Definition spec_edges (syms : list symbol) (file : ParsedFile) : list ResolvedEdge :=
  (calls file ≫= spec_call syms) ++ (structural_edges file ≫= spec_structural syms).

(** ** The representation *)

Record index_rep (ix : ProjectIndex) (syms : list symbol) (strs : list string) : Prop := {
  xr_interner : interner_rep hash_one (interner ix) strs;
  xr_known s : s ∈ strs ↔ known syms s;
  xr_names id short : strs !! as_usize id = Some short →
    Forall2 (λ c m, strs !! as_usize c = Some m) (default [] (by_short_name ix !! id)) (cands syms short);
  xr_dom id l : by_short_name ix !! id = Some l → as_usize id < length strs;
  xr_len : length strs ≤ 2 * length syms;
  xr_bytes : total_bytes strs ≤ total_bytes syms.*1 + total_bytes syms.*2;
}.

Lemma cands_unknown syms short : ¬ known syms short → cands syms short = [].
Proof.
  intros Hno. unfold cands. destruct (filter _ syms) as [|p l] eqn:Hf; [done|].
  assert (p ∈ filter (λ p : symbol, p.2 = short) syms) as Hp by (rewrite Hf; set_solver).
  apply list_elem_of_filter in Hp as [<- Hp]. destruct Hno. right. by apply list_elem_of_fmap_2.
Qed.

Lemma candidates_rep ix syms strs short :
  index_rep ix syms strs →
  ∃ cs, candidates ix short = Some cs ∧ Forall2 (λ c m, strs !! as_usize c = Some m) cs (cands syms short).
Proof.
  intros Hrep. unfold candidates. destruct (get_id_rep _ _ _ short (xr_interner _ _ _ Hrep)) as (r & -> & Hr).
  cbn [mbind option_bind]. eexists. split; [done|]. destruct r as [id|]; cbn.
  - by apply (xr_names _ _ _ Hrep).
  - rewrite cands_unknown; [constructor|]. by rewrite <-(xr_known _ _ _ Hrep).
Qed.

Lemma mapM_resolve {A} ix syms strs cs ms (f : N → string → A) :
  index_rep ix syms strs → Forall2 (λ c m, strs !! as_usize c = Some m) cs ms →
  mapM (λ id, m ← resolve (interner ix) id; Some (f id m)) cs = Some (zip_with f cs ms).
Proof.
  intros Hrep. induction 1 as [|c m cs ms Hc _ IH]; [done|]. cbn [mapM].
  rewrite (resolve_rep _ _ _ _ _ (xr_interner _ _ _ Hrep) Hc). cbn [mbind option_bind]. by rewrite IH.
Qed.

Lemma zip_with_const_l {A B C} (f : B → C) (l : list A) (k : list B) :
  length l = length k → zip_with (λ _ y, f y) l k = f <$> k.
Proof. revert k; induction l as [|x l IH]; intros [|y k] Hl; simplify_eq/=; [done|]. by rewrite IH. Qed.

(** ** Building the index *)

Lemma total_bytes_app l k : total_bytes (l ++ k) = total_bytes l + total_bytes k.
Proof. unfold total_bytes. by rewrite str_concat_app, length_append. Qed.

Lemma total_bytes_one s : total_bytes [s] = String.length s.
Proof. unfold total_bytes. cbn. by rewrite append_nil_r. Qed.

Lemma cands_app syms syms' short : cands (syms ++ syms') short = cands syms short ++ cands syms' short.
Proof. unfold cands. by rewrite filter_app, fmap_app. Qed.

Lemma cands_one m short x : cands [(m, short)] x = if decide (short = x) then [m] else [].
Proof. unfold cands. rewrite filter_cons, filter_nil. cbn. by case_decide. Qed.

Lemma known_snoc syms m short s : known (syms ++ [(m, short)]) s ↔ known syms s ∨ s = m ∨ s = short.
Proof. unfold known. rewrite !fmap_app. cbn. set_solver. Qed.

(** Interning one more string, as the index uses it. *)
Lemma intern_step it strs s :
  interner_rep hash_one it strs →
  (N.of_nat (length strs) < u32_MAX)%N → (N.of_nat (total_bytes strs + String.length s) ≤ u32_MAX)%N →
  ∃ it' id strs', intern hash_one it s = Some (it', id) ∧ interner_rep hash_one it' strs' ∧
    strs `prefix_of` strs' ∧ (∀ x, x ∈ strs' ↔ x ∈ strs ∨ x = s) ∧ strs' !! as_usize id = Some s ∧
    length strs' ≤ S (length strs) ∧ total_bytes strs' ≤ total_bytes strs + String.length s.
Proof.
  intros Hrep Hn Hb. destruct (intern_spec hash_one it strs s Hrep Hn) as (it' & id & strs' & Hi & Hr & -> & Hid & _).
  { rewrite (ao_arena _ _ _ (ir_arena _ _ _ Hrep)), length_append. exact Hb. }
  eexists _, _, _. split; [done|]. split; [done|]. case_decide.
  - split_and!; [done|set_solver|done|lia..].
  - split_and!; [by apply prefix_app_r|set_solver|done|rewrite length_app; simpl; lia|].
    rewrite total_bytes_app, total_bytes_one. lia.
Qed.

Lemma add_symbol_rep ix syms strs m short :
  index_rep ix syms strs →
  (N.of_nat (2 * S (length syms)) ≤ u32_MAX)%N →
  (N.of_nat (total_bytes (syms.*1 ++ [m]) + total_bytes (syms.*2 ++ [short])) ≤ u32_MAX)%N →
  ∃ ix' id strs', add_symbol ix m short = Some (ix', id) ∧ index_rep ix' (syms ++ [(m, short)]) strs' ∧
    strs' !! as_usize id = Some m ∧ strs `prefix_of` strs'.
Proof.
  intros Hrep Hn Hb. rewrite !total_bytes_app, !total_bytes_one in Hb.
  pose proof (xr_len _ _ _ Hrep) as Hlen. pose proof (xr_bytes _ _ _ Hrep) as Hbytes.
  unfold add_symbol.
  destruct (intern_step _ _ short (xr_interner _ _ _ Hrep)) as (it1 & sid & s1 & -> & Hr1 & Hp1 & Hm1 & Hs1 & Hl1 & Hb1);
    [lia..|]. cbn [mbind option_bind fst snd].
  destruct (intern_step it1 s1 m Hr1) as (it2 & mid & s2 & -> & Hr2 & Hp2 & Hm2 & Hs2 & Hl2 & Hb2); [lia..|].
  assert (strs `prefix_of` s2) as Hpre by by etrans.
  cbn [mbind option_bind fst snd]. eexists _, mid, s2. split_and!; [done| |done|done].
  assert (s2 !! as_usize sid = Some short) as Hsid by exact (prefix_lookup_Some _ _ _ _ Hs1 Hp2).
  assert (∀ id x, strs !! as_usize id = Some x →
    Forall2 (λ c y, s2 !! as_usize c = Some y) (default [] (by_short_name ix !! id)) (cands syms x)) as Hold.
  { intros id x Hx. eapply Forall2_impl; [by eapply (xr_names _ _ _ Hrep)|].
    intros c y Hc. exact (prefix_lookup_Some _ _ _ _ Hc Hpre). }
  assert (∀ id x, s2 !! as_usize id = Some x →
    Forall2 (λ c y, s2 !! as_usize c = Some y) (default [] (by_short_name ix !! id)) (cands syms x)) as Hall.
  { intros id x Hx. destruct (strs !! as_usize id) as [y|] eqn:Hy.
    - pose proof (prefix_lookup_Some _ _ _ _ Hy Hpre) as Hy'. rewrite Hx in Hy'. simplify_eq. auto.
    - destruct (by_short_name ix !! id) as [l|] eqn:Hl.
      { apply (xr_dom _ _ _ Hrep) in Hl. apply lookup_ge_None in Hy. lia. }
      rewrite cands_unknown; [constructor|]. rewrite <-(xr_known _ _ _ Hrep).
      intros (i & Hi)%list_elem_of_lookup. pose proof (prefix_lookup_Some _ _ _ _ Hi Hpre) as Hi'.
      pose proof (NoDup_lookup _ _ _ _ (ir_nodup _ _ _ Hr2) Hi' Hx) as ->. congruence. }
  split; cbn -[cands].
  - done.
  - intros x. rewrite known_snoc, <-(xr_known _ _ _ Hrep), Hm2, Hm1. tauto.
  - intros id x Hx. rewrite cands_app. destruct (decide (id = sid)) as [->|Hne].
    + rewrite Hsid in Hx. simplify_eq. rewrite lookup_insert_eq. cbn -[cands].
      apply Forall2_app; [by apply Hall|]. rewrite cands_one, decide_True by done. by repeat constructor.
    + rewrite lookup_insert_ne by done.
      assert (x ≠ short) as Hxs.
      { intros ->. apply Hne, N2Nat.inj. by eapply NoDup_lookup; [apply Hr2|..]. }
      rewrite cands_one, decide_False, app_nil_r by congruence. by apply Hall.
  - intros id l. rewrite lookup_insert_Some. intros [[<- _]|[_ Hl]]; [by eapply lookup_lt_Some|].
    apply (xr_dom _ _ _ Hrep) in Hl. apply prefix_length in Hpre. lia.
  - rewrite length_app. simpl. lia.
  - rewrite !fmap_app, !total_bytes_app. cbn [fmap list_fmap fst snd]. rewrite !total_bytes_one. lia.
Qed.

Lemma new_rep : index_rep new [] [].
Proof.
  split; cbn; try done; [apply default_rep|..].
  - intros s. unfold known. set_solver.
Qed.

Lemma index_with_capacity_rep n : ∃ ix, index_with_capacity n = Some ix ∧ index_rep ix [] [].
Proof.
  unfold index_with_capacity. destruct (with_capacity_rep hash_one (n * 2)) as (it & -> & Hit).
  cbn [mbind option_bind]. eexists. split; [done|]. split; cbn; try done.
  intros s. unfold known. set_solver.
Qed.

(** ** Resolving against the index *)

Lemma spec_one_nil syms from short dynamic : spec_one syms from short dynamic = [] ↔ cands syms short = [].
Proof.
  unfold spec_one. destruct dynamic; [by destruct (cands syms short)|].
  destruct (cands syms short) as [|m [|m' ms]] eqn:Hc; [done| |].
  - repeat case_match; done.
  - repeat case_match; done.
Qed.

Lemma spec_one_targets syms from short dynamic p : p ∈ spec_one syms from short dynamic → p.1.1 ∈ cands syms short.
Proof.
  unfold spec_one. intros Hp.
  assert (∀ q, q ∈ (λ m, (m, "CALLS_DYNAMIC", AmbiguousHeuristic)) <$> cands syms short → q.1.1 ∈ cands syms short) as Hdyn.
  { intros q (m & -> & Hm)%list_elem_of_fmap. done. }
  destruct dynamic; [auto|].
  assert (∀ m, m ∈ filter (λ m, file_of m = file_of from) (cands syms short) → m ∈ cands syms short) as Hsub.
  { intros m [_ ?]%list_elem_of_filter. done. }
  destruct (filter (λ m, file_of m = file_of from) (cands syms short)) as [|m1 [|m2 l]];
    [|apply list_elem_of_singleton in Hp as ->; apply Hsub; constructor|];
    destruct (cands syms short) as [|n1 [|n2 k]]; try (by auto); apply list_elem_of_singleton in Hp as ->; constructor.
Qed.

Section resolving.
Context (ix : ProjectIndex) (syms : list symbol) (strs : list string).
Context (Hrep : index_rep ix syms strs).

Abbreviation named := (λ (c : N) (m : string), strs !! as_usize c = Some m) (only parsing).

Lemma Forall2_filter_zip (P : string → Prop) `{!∀ m, Decision (P m)} cs ms :
  Forall2 named cs ms → Forall2 named (filter (λ p : N * string, P p.2) (zip cs ms)).*1 (filter P ms).
Proof.
  induction 1 as [|c m cs ms Hc _ IH]; [constructor|]. cbn [zip zip_with]. rewrite !filter_cons. cbn.
  case_decide; [by constructor|done].
Qed.

Lemma resolve_dynamic_rep cs ms :
  Forall2 named cs ms →
  resolve_dynamic ix cs = Some ((λ m, (m, "CALLS_DYNAMIC", AmbiguousHeuristic)) <$> ms).
Proof.
  intros HF. unfold resolve_dynamic.
  rewrite (mapM_resolve ix syms strs cs ms (λ _ m, (m, "CALLS_DYNAMIC", AmbiguousHeuristic)) Hrep HF).
  by rewrite zip_with_const_l by (by eapply Forall2_length).
Qed.

Lemma choose_rep fc fm cs ms :
  Forall2 named fc fm → Forall2 named cs ms →
  match fc, cs with
  | [id], _ => m ← resolve (interner ix) id; Some [(m, "CALLS_EXACT", SameFileExact)]
  | _, [id] => m ← resolve (interner ix) id; Some [(m, "CALLS_EXACT", UniqueGlobalExact)]
  | _, _ => resolve_dynamic ix cs
  end = Some match fm, ms with
  | [m], _ => [(m, "CALLS_EXACT", SameFileExact)]
  | _, [m] => [(m, "CALLS_EXACT", UniqueGlobalExact)]
  | _, _ => (λ m, (m, "CALLS_DYNAMIC", AmbiguousHeuristic)) <$> ms
  end.
Proof.
  intros HS HF. pose proof (resolve_dynamic_rep _ _ HF) as Hdyn.
  assert (∀ c m, named c m → resolve (interner ix) c = Some m) as Hres.
  { intros c m. apply (resolve_rep hash_one), Hrep. }
  destruct HS as [|c1 m1 ? ? Hc1 [|]]; [|by rewrite (Hres _ _ Hc1)|];
    destruct HF as [|c0 m0 ? ? Hc0 [|]]; try exact Hdyn; by rewrite (Hres _ _ Hc0).
Qed.

Lemma resolve_one_rep from short dynamic :
  resolve_one ix from short dynamic = Some (spec_one syms from short dynamic).
Proof.
  unfold resolve_one, spec_one. destruct (candidates_rep ix syms strs short Hrep) as (cs & -> & HF).
  cbn [mbind option_bind]. set (ms := cands syms short) in *.
  destruct cs as [|c0 cs].
  { apply Forall2_nil_inv_l in HF as ->. by destruct dynamic. }
  destruct dynamic; [by apply resolve_dynamic_rep|].
  unfold same_file_ids. rewrite (mapM_resolve ix syms strs _ ms pair Hrep HF). cbn [mbind option_bind].
  apply (choose_rep _ _ (c0 :: cs) ms); [|done].
  exact (Forall2_filter_zip (λ m, file_of m = file_of from) (c0 :: cs) ms HF).
Qed.

Lemma cands_known short m : m ∈ cands syms short → m ∈ strs.
Proof.
  intros (p & -> & [_ Hp]%list_elem_of_filter)%list_elem_of_fmap. apply (xr_known _ _ _ Hrep).
  left. by apply list_elem_of_fmap_2.
Qed.

Definition edge_named (e : ResolvedEdgeIds) (r : ResolvedEdge) : Prop :=
  named (rei_source e) (re_source r) ∧ named (rei_target e) (re_target r) ∧ rei_kind e = re_kind r ∧
  rei_resolution e = re_resolution r ∧ rei_extractor e = re_extractor r.

Lemma get_id_mem s : s ∈ strs → ∃ id, get_id hash_one (interner ix) s = Some (Some id) ∧ named id s.
Proof.
  intros Hs. destruct (get_id_rep _ _ _ s (xr_interner _ _ _ Hrep)) as ([id|] & Hg & Hr); [eauto|done].
Qed.

Lemma call_edges_rep sid src ext resolved :
  named sid src → (∀ p, p ∈ resolved → p.1.1 ∈ strs) →
  ∃ es, call_edges ix (Some sid) ext resolved = Some es ∧
    Forall2 edge_named es
      ((λ p : string * string * ResolutionKind, mkResolved src p.1.1 p.1.2 p.2 ext) <$> resolved).
Proof.
  intros Hsid. unfold call_edges. induction resolved as [|[[t k] rk] l IH]; intros Hall; cbn [mapM].
  { exists []. split; [done|constructor]. }
  destruct (get_id_mem t) as (tid & Htid & Hnamed); [apply (Hall (t, k, rk)); set_solver|].
  rewrite Htid. cbn [mbind option_bind]. destruct IH as (es & Hes & HF); [set_solver|].
  destruct (mapM _ l) as [os|]; [|done]. cbn [mbind option_bind] in *. simplify_eq.
  eexists. split; [done|]. cbn. constructor; [|done]. by unfold edge_named.
Qed.

Lemma call_edges_none ext resolved : call_edges ix None ext resolved = Some [].
Proof.
  unfold call_edges. assert (∀ l : list (string * string * ResolutionKind), ∃ os, 
    mapM (λ '(target, kind, rk), match None : option N with
        | None => Some None
        | Some sid => t ← get_id hash_one (interner ix) target; Some (tid ← t; Some (mkResolvedIds sid tid kind rk ext))
        end) l = Some os ∧ omap id os = []) as Hl.
  { induction l as [|[[t k] rk] l (os & Hos & Ho)]; [by exists []|]. cbn [mapM]. cbn [mbind option_bind].
    rewrite Hos. cbn. eexists. split; [done|]. done. }
  destruct (Hl resolved) as (os & Hos & Ho). rewrite Hos. cbn [mbind option_bind]. by rewrite Ho.
Qed.

Lemma resolve_call_rep st c :
  ∃ es, resolve_call ix st c =
      Some (st.1 ++ es, st.2 ++ filter (λ n, cands syms n = []) [callee_name c]) ∧
    Forall2 edge_named es (spec_call syms c).
Proof.
  unfold resolve_call. rewrite resolve_one_rep. cbn [mbind option_bind].
  assert ((if decide (spec_one syms (caller_moniker c) (callee_name c) (is_member_call c) = [])
           then st.2 ++ [callee_name c] else st.2) =
          st.2 ++ filter (λ n, cands syms n = []) [callee_name c]) as ->.
  { rewrite filter_cons, filter_nil. pose proof (spec_one_nil syms (caller_moniker c) (callee_name c) (is_member_call c)).
    repeat case_decide; rewrite ?app_nil_r; tauto. }
  destruct (get_id_rep _ _ _ (caller_moniker c) (xr_interner _ _ _ Hrep)) as (r & -> & Hr).
  cbn [mbind option_bind]. unfold spec_call. destruct r as [sid|].
  - apply list_elem_of_lookup_2 in Hr as Hin. rewrite decide_True by by apply (xr_known _ _ _ Hrep).
    destruct (call_edges_rep sid (caller_moniker c) (extractor_of (caller_moniker c))
      (spec_one syms (caller_moniker c) (callee_name c) (is_member_call c)) Hr) as (es & -> & HF).
    { intros p Hp%spec_one_targets. by eapply cands_known. }
    exists es. done.
  - rewrite call_edges_none. exists []. rewrite decide_False by by rewrite <-(xr_known _ _ _ Hrep).
    split; [done|constructor].
Qed.

Lemma resolve_structural_rep st e :
  ∃ es, resolve_structural ix st e =
      Some (st.1 ++ es, st.2 ++ filter (λ n, cands syms n = []) [target_name e]) ∧
    Forall2 edge_named es (spec_structural syms e).
Proof.
  unfold resolve_structural, spec_structural.
  destruct (candidates_rep ix syms strs (target_name e) Hrep) as (cs & -> & HF). cbn [mbind option_bind].
  pose proof (Forall2_length _ _ _ HF) as Hlen.
  assert ((if decide (cs = []) then st.2 ++ [target_name e] else st.2) =
          st.2 ++ filter (λ n, cands syms n = []) [target_name e]) as ->.
  { rewrite filter_cons, filter_nil. destruct cs, (cands syms (target_name e)); simplify_eq/=;
      repeat case_decide; rewrite ?app_nil_r; done. }
  destruct (get_id_rep _ _ _ (source_moniker e) (xr_interner _ _ _ Hrep)) as (r & -> & Hr).
  cbn [mbind option_bind]. eexists. split; [done|]. destruct r as [sid|].
  - apply list_elem_of_lookup_2 in Hr as Hin. rewrite (decide_True (P := known _ _)) by by apply (xr_known _ _ _ Hrep).
    rewrite Hlen. apply Forall2_fmap. eapply Forall2_impl; [exact HF|]. intros c m Hc. by unfold edge_named.
  - rewrite (decide_False (P := known _ _)) by by rewrite <-(xr_known _ _ _ Hrep). constructor.
Qed.

Lemma resolve_calls_rep cs st :
  ∃ es, foldlM (resolve_call ix) cs st =
      Some (st.1 ++ es, st.2 ++ filter (λ n, cands syms n = []) (callee_name <$> cs)) ∧
    Forall2 edge_named es (cs ≫= spec_call syms).
Proof.
  revert st; induction cs as [|c cs IH]; intros st; cbn [foldlM].
  { exists []. rewrite !app_nil_r. destruct st. split; [done|constructor]. }
  destruct (resolve_call_rep st c) as (es & -> & HF). cbn [mbind option_bind].
  destruct (IH (st.1 ++ es, st.2 ++ filter (λ n, cands syms n = []) [callee_name c])) as (es' & -> & HF').
  exists (es ++ es'). cbn [fst snd fmap list_fmap]. split.
  - by rewrite <-!app_assoc, <-filter_app.
  - cbn [mbind list_bind]. by apply Forall2_app.
Qed.

Lemma resolve_structurals_rep l st :
  ∃ es, foldlM (resolve_structural ix) l st =
      Some (st.1 ++ es, st.2 ++ filter (λ n, cands syms n = []) (target_name <$> l)) ∧
    Forall2 edge_named es (l ≫= spec_structural syms).
Proof.
  revert st; induction l as [|e l IH]; intros st; cbn [foldlM].
  { exists []. rewrite !app_nil_r. destruct st. split; [done|constructor]. }
  destruct (resolve_structural_rep st e) as (es & -> & HF). cbn [mbind option_bind].
  destruct (IH (st.1 ++ es, st.2 ++ filter (λ n, cands syms n = []) [target_name e])) as (es' & -> & HF').
  exists (es ++ es'). cbn [fst snd fmap list_fmap]. split.
  - by rewrite <-!app_assoc, <-filter_app.
  - cbn [mbind list_bind]. by apply Forall2_app.
Qed.

Lemma resolve_ids_rep file :
  ∃ es, resolve_ids ix file = Some (es, dedup (sort_by String.leb (spec_unresolved syms file))) ∧
    Forall2 edge_named es (spec_edges syms file).
Proof.
  unfold resolve_ids.
  destruct (resolve_calls_rep (calls file) ([], [])) as (es1 & -> & HF1). cbn [mbind option_bind fst snd app].
  destruct (resolve_structurals_rep (structural_edges file)
    (es1, filter (λ n, cands syms n = []) (callee_name <$> calls file))) as (es2 & -> & HF2).
  cbn [mbind option_bind fst snd]. rewrite <-filter_app. fold (spec_unresolved syms file).
  exists (es1 ++ es2). split; [done|]. by apply Forall2_app.
Qed.

(** The index resolves a file exactly as the plain list of symbols does. *)
Lemma index_resolve_rep file :
  index_resolve ix file = Some (spec_edges syms file, dedup (sort_by String.leb (spec_unresolved syms file))).
Proof.
  unfold index_resolve. destruct (resolve_ids_rep file) as (es & -> & HF). cbn [mbind option_bind fst snd].
  assert (∀ es rs, Forall2 edge_named es rs →
    mapM (λ e, s ← resolve (interner ix) (rei_source e); t ← resolve (interner ix) (rei_target e);
                  Some (mkResolved s t (rei_kind e) (rei_resolution e) (rei_extractor e))) es = Some rs) as Hmap.
  { induction 1 as [|e r es' rs (Hs & Ht & Hk & Hr & Hx) _ IH]; [done|]. cbn [mapM].
    rewrite (resolve_rep hash_one _ _ _ _ (xr_interner _ _ _ Hrep) Hs),
      (resolve_rep hash_one _ _ _ _ (xr_interner _ _ _ Hrep) Ht). cbn [mbind option_bind]. rewrite IH.
    cbn [mbind option_bind]. destruct r; cbn in *. by subst. }
  by rewrite (Hmap _ _ HF).
Qed.
End resolving.

(** ** Files *)

Definition file_symbols (f : ParsedFile) : list symbol :=
  (λ c, (card_moniker c, short_name_of (card_symbol c))) <$> symbols f.

Definition fits (syms : list symbol) : Prop :=
  (N.of_nat (2 * length syms) ≤ u32_MAX)%N ∧ (N.of_nat (total_bytes syms.*1 + total_bytes syms.*2) ≤ u32_MAX)%N.

Lemma fits_prefix syms syms' : fits (syms ++ syms') → fits syms.
Proof.
  intros [Hn Hb]. rewrite length_app in Hn. rewrite !fmap_app, !total_bytes_app in Hb. split; lia.
Qed.

Lemma add_file_rep file : ∀ ix syms strs,
  index_rep ix syms strs → fits (syms ++ file_symbols file) →
  ∃ ix' strs', add_file ix file = Some ix' ∧ index_rep ix' (syms ++ file_symbols file) strs'.
Proof.
  unfold add_file, file_symbols. induction (symbols file) as [|c cs IH]; intros ix syms strs Hrep Hfit.
  { cbn. rewrite app_nil_r. eauto. }
  cbn [foldlM fmap list_fmap] in *.
  rewrite (cons_middle _ syms) in Hfit. rewrite app_assoc in Hfit.
  pose proof (fits_prefix _ _ Hfit) as [Hn Hb].
  destruct (add_symbol_rep ix syms strs (card_moniker c) (short_name_of (card_symbol c)) Hrep)
    as (ix1 & id & s1 & Hadd & Hrep1 & _).
  { rewrite length_app in Hn. simpl in Hn. lia. }
  { by rewrite !fmap_app in Hb. }
  rewrite Hadd. cbn [fmap option_fmap option_map mbind option_bind fst].
  destruct (IH ix1 _ s1 Hrep1 Hfit) as (ix' & strs' & Hf & Hrep').
  exists ix', strs'. rewrite Hf. split; [done|]. by rewrite <-app_assoc in Hrep'.
Qed.

Lemma add_files_rep files : ∀ ix syms strs,
  index_rep ix syms strs → fits (syms ++ (files ≫= file_symbols)) →
  ∃ ix' strs', foldlM add_file files ix = Some ix' ∧ index_rep ix' (syms ++ (files ≫= file_symbols)) strs'.
Proof.
  induction files as [|f files IH]; intros ix syms strs Hrep Hfit; cbn [foldlM mbind list_bind] in *.
  { rewrite app_nil_r. eauto. }
  rewrite app_assoc in Hfit |- *.
  destruct (add_file_rep f ix syms strs Hrep) as (ix1 & s1 & -> & Hrep1); [by eapply fits_prefix|].
  cbn [mbind option_bind]. by eapply IH.
Qed.

End index.

(** The references of a file: who mentions which name. *)
Definition refers (file : ParsedFile) (src name : string) : Prop :=
  (∃ c, c ∈ calls file ∧ caller_moniker c = src ∧ callee_name c = name) ∨
  (∃ s, s ∈ structural_edges file ∧ source_moniker s = src ∧ target_name s = name).

(** An exact resolution is the only choice there was. *)
Definition justified (syms : list (string * string)) (name : string) (e : ResolvedEdge) : Prop :=
  re_target e ∈ cands syms name ∧
  match re_resolution e with
  | SameFileExact => filter (λ m, file_of m = file_of (re_source e)) (cands syms name) = [re_target e]
  | UniqueGlobalExact => cands syms name = [re_target e]
  | AmbiguousHeuristic => True
  end.

Lemma spec_call_sound syms c e :
  e ∈ spec_call syms c → re_source e = caller_moniker c ∧ justified syms (callee_name c) e.
Proof.
  unfold spec_call. case_decide; [|set_solver].
  intros (p & -> & Hp)%list_elem_of_fmap. split; [done|]. split; [exact (spec_one_targets _ _ _ _ _ Hp)|].
  cbn. unfold spec_one in Hp.
  assert (∀ l : list string, p ∈ (λ m, (m, "CALLS_DYNAMIC", AmbiguousHeuristic)) <$> l → p.2 = AmbiguousHeuristic) as Hdyn.
  { intros l (m & -> & _)%list_elem_of_fmap. done. }
  destruct (is_member_call c); [by rewrite (Hdyn _ Hp)|].
  destruct (filter (λ m, file_of m = file_of (caller_moniker c)) (cands syms (callee_name c))) as [|m1 [|m2 l]] eqn:Hf;
    [|by apply list_elem_of_singleton in Hp as ->|];
    destruct (cands syms (callee_name c)) as [|n1 [|n2 k]] eqn:Hc;
    try (by rewrite (Hdyn _ Hp)); apply list_elem_of_singleton in Hp as ->; done.
Qed.

Lemma spec_structural_sound syms s e :
  e ∈ spec_structural syms s → re_source e = source_moniker s ∧ justified syms (target_name s) e.
Proof.
  unfold spec_structural. case_decide; [|set_solver].
  intros (m & -> & Hm)%list_elem_of_fmap. split; [done|]. split; [done|]. cbn. case_decide as Hl; [|done].
  destruct (cands syms (target_name s)) as [|n [|]]; simplify_eq/=. by apply list_elem_of_singleton in Hm as ->.
Qed.

(** C7: reference resolution is faithful to the parsed symbols.  Building the
    index from any files whose names fit the interner, and resolving any file
    against it, never panics; the edges are exactly those of the plain symbol
    list (the interning is invisible); every edge goes from a reference of the
    file to a declared symbol of that name, and one marked exact is the only
    candidate (in the caller's file, or in the project); the unresolved names
    are, sorted and without duplicates, exactly the referenced names that no
    file declares. *)
Theorem project_resolution_sound hash_one files file
    (Hfit : fits (files ≫= file_symbols)) :
  let syms := files ≫= file_symbols in
  ∃ ix es un, foldlM (add_file hash_one) files new = Some ix ∧
    index_resolve hash_one ix file = Some (es, un) ∧ es = spec_edges syms file ∧
    (∀ e, e ∈ es → ∃ name, refers file (re_source e) name ∧ justified syms name e) ∧
    (∀ n, n ∈ un ↔ (∃ src, refers file src n) ∧ cands syms n = []) ∧
    StronglySorted (λ a b, String.leb a b = true ∧ a ≠ b) un.
Proof.
  intros syms. destruct (add_files_rep hash_one files new [] [] (new_rep hash_one)) as (ix & strs & Hix & Hrep); [done|].
  cbn [app] in Hrep. eexists ix, _, _. split_and!; [done|exact (index_resolve_rep hash_one ix _ strs Hrep file)|done|..].
  - intros e [(c & He & Hc)%list_elem_of_bind|(s & He & Hs)%list_elem_of_bind]%elem_of_app.
    + apply spec_call_sound in He as [Hsrc Hj]. exists (callee_name c). split; [|done]. left. eauto.
    + apply spec_structural_sound in He as [Hsrc Hj]. exists (target_name s). split; [|done]. right. eauto.
  - intros n. rewrite elem_of_dedup, elem_of_sort_by. unfold spec_unresolved.
    rewrite list_elem_of_filter, elem_of_app, !list_elem_of_fmap. unfold refers. naive_solver.
  - apply dedup_sorted; [apply _|apply sort_by_sorted, _].
Qed.

Lemma project_resolution_sound_witness :
  let card m sy := mkCard m sy Function 1 2 "" in
  let files := [mkParsed [card "a.rs#A::run" "A::run"; card "a.rs#main" "main"] [] [];
                mkParsed [card "b.py#run" "run"] [] []] in
  let file := mkParsed [] [mkCall "a.rs#main" "run" false; mkCall "b.py#run" "gone" false;
                           mkCall "b.py#run" "main" true] [] in
  ∃ ix es un, foldlM (add_file (λ s, N.of_nat (String.length s))) files new = Some ix ∧
    index_resolve (λ s, N.of_nat (String.length s)) ix file = Some (es, un) ∧
    es = [mkResolved "a.rs#main" "a.rs#A::run" "CALLS_EXACT" SameFileExact (Some "rust");
          mkResolved "b.py#run" "a.rs#main" "CALLS_DYNAMIC" AmbiguousHeuristic (Some "python")] ∧
    un = ["gone"].
Proof.
  intros card files file.
  destruct (project_resolution_sound (λ s, N.of_nat (String.length s)) files file) as (ix & es & un & Hix & Hr & He & _);
    [split; vm_compute; discriminate|].
  exists ix, es, un. split_and!; [exact Hix|exact Hr|rewrite He; vm_compute; reflexivity|].
  vm_compute in Hix. simplify_eq. vm_compute in Hr. by simplify_eq.
Defined.

(** ** Across repositories

    Each index carries its own hasher. *)

(** src/crates/weave-graph-parse/src/resolve.rs:390-411 [ProjectIndex::resolve_cross_repo] *)
Definition cross_call (hash_one fhash : string → N) (ix fallback : ProjectIndex) (c : RawCall) : option (list ResolvedEdge) :=
  cs ← candidates hash_one ix (callee_name c);
  match cs with
  | _ :: _ => Some []
  | [] =>
      r ← resolve_one fhash fallback (caller_moniker c) (callee_name c) (is_member_call c);
      Some (map (λ p, mkResolved (caller_moniker c) p.1.1 p.1.2 AmbiguousHeuristic
                        (extractor_of (caller_moniker c))) r)
  end.

(** src/crates/weave-graph-parse/src/resolve.rs:413-427 [ProjectIndex::resolve_cross_repo] *)
Definition cross_structural (hash_one fhash : string → N) (ix fallback : ProjectIndex) (e : RawStructuralEdge) : option (list ResolvedEdge) :=
  cs ← candidates hash_one ix (target_name e);
  match cs with
  | _ :: _ => Some []
  | [] =>
      fcs ← candidates fhash fallback (target_name e);
      mapM (λ cid, t ← resolve (interner fallback) cid;
                   Some (mkResolved (source_moniker e) t (structural_kind_str (structural_kind e))
                           AmbiguousHeuristic (extractor_of (source_moniker e)))) fcs
  end.

(** src/crates/weave-graph-parse/src/resolve.rs:383-430 [ProjectIndex::resolve_cross_repo] *)
Definition resolve_cross_repo (hash_one fhash : string → N) (ix : ProjectIndex) (file : ParsedFile) (fallback : ProjectIndex) :
    option (list ResolvedEdge) :=
  a ← mapM (cross_call hash_one fhash ix fallback) (calls file);
  b ← mapM (cross_structural hash_one fhash ix fallback) (structural_edges file);
  Some (mjoin a ++ mjoin b).

Lemma mapM_total {A B} (f : A → option B) (g : A → B) l :
  (∀ x, f x = Some (g x)) → mapM f l = Some (g <$> l).
Proof. intros Hf. induction l as [|x l IH]; [done|]. cbn [mapM]. rewrite Hf. cbn [mbind option_bind]. by rewrite IH. Qed.

Definition spec_cross_call (syms fsyms : list (string * string)) (c : RawCall) : list ResolvedEdge :=
  match cands syms (callee_name c) with
  | _ :: _ => []
  | [] => map (λ p, mkResolved (caller_moniker c) p.1.1 p.1.2 AmbiguousHeuristic (extractor_of (caller_moniker c)))
            (spec_one fsyms (caller_moniker c) (callee_name c) (is_member_call c))
  end.

Definition spec_cross_structural (syms fsyms : list (string * string)) (s : RawStructuralEdge) : list ResolvedEdge :=
  match cands syms (target_name s) with
  | _ :: _ => []
  | [] => (λ t, mkResolved (source_moniker s) t (structural_kind_str (structural_kind s)) AmbiguousHeuristic
                  (extractor_of (source_moniker s))) <$> cands fsyms (target_name s)
  end.

Section cross.
Context (hash_one fhash : string → N) (ix fallback : ProjectIndex).
Context (syms fsyms : list (string * string)) (strs fstrs : list string).
Context (Hrep : index_rep hash_one ix syms strs) (Hfrep : index_rep fhash fallback fsyms fstrs).

Lemma cross_call_rep c : cross_call hash_one fhash ix fallback c = Some (spec_cross_call syms fsyms c).
Proof.
  unfold cross_call, spec_cross_call.
  destruct (candidates_rep hash_one ix syms strs (callee_name c) Hrep) as (cs & -> & HF).
  cbn [mbind option_bind]. destruct HF; [|done].
  by rewrite (resolve_one_rep fhash fallback fsyms fstrs Hfrep).
Qed.

Lemma cross_structural_rep s : cross_structural hash_one fhash ix fallback s = Some (spec_cross_structural syms fsyms s).
Proof.
  unfold cross_structural, spec_cross_structural.
  destruct (candidates_rep hash_one ix syms strs (target_name s) Hrep) as (cs & -> & HF).
  cbn [mbind option_bind]. destruct HF; [|done].
  destruct (candidates_rep fhash fallback fsyms fstrs (target_name s) Hfrep) as (fcs & -> & HF').
  cbn [mbind option_bind].
  rewrite (mapM_resolve fhash fallback fsyms fstrs _ _ (λ _ t, mkResolved (source_moniker s) t
    (structural_kind_str (structural_kind s)) AmbiguousHeuristic (extractor_of (source_moniker s))) Hfrep HF').
  by rewrite zip_with_const_l by (by eapply Forall2_length).
Qed.

Lemma resolve_cross_repo_rep file :
  resolve_cross_repo hash_one fhash ix file fallback =
    Some ((calls file ≫= spec_cross_call syms fsyms) ++ (structural_edges file ≫= spec_cross_structural syms fsyms)).
Proof.
  unfold resolve_cross_repo.
  rewrite (mapM_total _ _ _ cross_call_rep), (mapM_total _ _ _ cross_structural_rep). cbn [mbind option_bind].
  assert (∀ {A B} (f : A → list B) l, mjoin (f <$> l) = l ≫= f) as Hjoin.
  { intros A B f l. rewrite list_join_bind. induction l as [|x l IH]; [done|]. cbn. by rewrite IH. }
  by rewrite !Hjoin.
Qed.
End cross.

(** Cross-repository edges: only for names the repository itself does not
    declare, to symbols of the other one, and never marked exact. *)
Theorem cross_repo_sound hash_one fhash files ffiles file
    (Hfit : fits (files ≫= file_symbols)) (Hffit : fits (ffiles ≫= file_symbols)) :
  ∃ ix fx es, foldlM (add_file hash_one) files new = Some ix ∧ foldlM (add_file fhash) ffiles new = Some fx ∧
    resolve_cross_repo hash_one fhash ix file fx = Some es ∧
    ∀ e, e ∈ es → re_resolution e = AmbiguousHeuristic ∧
      ∃ name, refers file (re_source e) name ∧ cands (files ≫= file_symbols) name = [] ∧
        re_target e ∈ cands (ffiles ≫= file_symbols) name.
Proof.
  destruct (add_files_rep hash_one files new [] [] (new_rep hash_one)) as (ix & strs & Hix & Hrep); [done|].
  destruct (add_files_rep fhash ffiles new [] [] (new_rep fhash)) as (fx & fstrs & Hfx & Hfrep); [done|].
  exists ix, fx. eexists. split_and!; [done..|by eapply (resolve_cross_repo_rep hash_one fhash)|].
  intros e [(c & He & Hc)%list_elem_of_bind|(s & He & Hs)%list_elem_of_bind]%elem_of_app.
  - unfold spec_cross_call in He. cbn [app] in He.
    destruct (cands (files ≫= file_symbols) (callee_name c)) eqn:Hcs; [|set_solver].
    apply (list_elem_of_fmap _ _ _) in He as (p & -> & Hp). split; [done|]. exists (callee_name c). cbn.
    split_and!; [left; eauto|done|exact (spec_one_targets _ _ _ _ _ Hp)].
  - unfold spec_cross_structural in He. cbn [app] in He.
    destruct (cands (files ≫= file_symbols) (target_name s)) eqn:Hcs; [|set_solver].
    apply list_elem_of_fmap in He as (t & -> & Ht). split; [done|]. exists (target_name s).
    split_and!; [right; eauto|done..].
Qed.
