(* ===== verification/Webhooks.v ===== *)
(** * Webhook dispatch (weave-graph-hub: webhooks.rs)

    Parsing of a registered URL, the address classes a target must not resolve
    to, and the dispatch as the sequence of its network actions.  Name
    resolution and the connection belong to the operating system: the resolver's
    answer is chosen anew at every call. *)

From S2P Require Import Prelude Str.

(** ** URLs *)

(** src/crates/weave-graph-hub/src/webhooks.rs:42-46 [WebhookUrl] *)
Record WebhookUrl := mkUrl { url_host : string; url_port : N; url_path : string }.

(** src/crates/weave-graph-hub/src/webhooks.rs:48-75 [parse_webhook_url] *)
Definition parse_webhook_url (url : string) : result WebhookUrl string :=
  match strip_prefix "http://" url with
  | None => Err ("unsupported webhook URL scheme (http:// only): " +:+ url)
  | Some rest =>
      let '(authority, path) :=
        match split_once rest "/" with Some (a, p) => (a, "/" +:+ p) | None => (rest, "/") end in
      if is_empty authority then Err ("invalid webhook URL: " +:+ url) else
      if str_contains authority "@" then Err ("webhook URL must not carry userinfo: " +:+ url) else
      match rsplit_once authority ":" with
      | Some (h, p) =>
          match parse_uint 65535 p with
          | Some port => Ok (mkUrl h port path)
          | None => Err ("invalid port in webhook URL: " +:+ url)
          end
      | None => Ok (mkUrl authority 80 path)
      end
  end.

(** ** Addresses *)

(** An address as the number its octets spell. *)
Inductive IpAddr := V4 (a : N) | V6 (a : N).

Definition ip_valid (ip : IpAddr) : Prop :=
  match ip with V4 a => (a < 2 ^ 32)%N | V6 a => (a < 2 ^ 128)%N end.

Definition octet (a : N) (i : N) : N := (a / 2 ^ (8 * (3 - i))) `mod` 256.
Definition segment (a : N) (i : N) : N := (a / 2 ^ (16 * (7 - i))) `mod` 65536.

(** The classes of [std::net::Ipv4Addr]. *)
Definition v4_is_loopback (a : N) : bool := (octet a 0 =? 127)%N.
Definition v4_is_private (a : N) : bool :=
  (octet a 0 =? 10)%N ||
  ((octet a 0 =? 172)%N && (16 <=? octet a 1)%N && (octet a 1 <=? 31)%N) ||
  ((octet a 0 =? 192)%N && (octet a 1 =? 168)%N).
Definition v4_is_link_local (a : N) : bool := (octet a 0 =? 169)%N && (octet a 1 =? 254)%N.
Definition v4_is_unspecified (a : N) : bool := (a =? 0)%N.
Definition v4_is_broadcast (a : N) : bool := (a =? 4294967295)%N.
Definition v4_is_documentation (a : N) : bool :=
  ((octet a 0 =? 192)%N && (octet a 1 =? 0)%N && (octet a 2 =? 2)%N) ||
  ((octet a 0 =? 198)%N && (octet a 1 =? 51)%N && (octet a 2 =? 100)%N) ||
  ((octet a 0 =? 203)%N && (octet a 1 =? 0)%N && (octet a 2 =? 113)%N).

(** The classes of [std::net::Ipv6Addr]. *)
Definition v6_is_loopback (a : N) : bool := (a =? 1)%N.
Definition v6_is_unspecified (a : N) : bool := (a =? 0)%N.
Definition v6_is_unique_local (a : N) : bool := (N.land (segment a 0) 65024 =? 64512)%N.
Definition v6_is_unicast_link_local (a : N) : bool := (N.land (segment a 0) 65472 =? 65152)%N.
Definition v6_to_ipv4_mapped (a : N) : option N :=
  if (a / 2 ^ 32 =? 65535)%N then Some (a `mod` 2 ^ 32)%N else None.

(** src/crates/weave-graph-hub/src/webhooks.rs:83-90 [is_blocked_addr] *)
Definition is_blocked_v4 (a : N) : bool :=
  v4_is_loopback a || v4_is_private a || v4_is_link_local a || v4_is_unspecified a ||
  v4_is_broadcast a || v4_is_documentation a.

(** src/crates/weave-graph-hub/src/webhooks.rs:81-101 [is_blocked_addr] *)
Definition is_blocked_addr (ip : IpAddr) : bool :=
  match ip with
  | V4 a => is_blocked_v4 a
  | V6 a =>
      v6_is_loopback a || v6_is_unspecified a || v6_is_unique_local a || v6_is_unicast_link_local a ||
      match v6_to_ipv4_mapped a with Some v4 => is_blocked_v4 v4 | None => false end
  end.

(** ** Dispatch *)

Record SocketAddr := mkSock { sock_ip : IpAddr; sock_port : N }.

(** What the process does on the network. *)
Inductive action :=
| Lookup (host : string) (port : N)
| Connect (addr : SocketAddr)
| Send (request : string).

Section dispatch.
(** The resolver's [n]-th answer for a host, and the outcomes of connecting, setting
    the timeouts and writing. *)
Context (lookup : nat → string → N → result (list SocketAddr) string).
Context (connect : SocketAddr → result () string) (set_timeouts : SocketAddr → result () string).
Context (write_all : SocketAddr → string → result () string).
Context (ip_display : IpAddr → string) (debug_str : string → string).

(** src/crates/weave-graph-hub/src/webhooks.rs:110-127 [resolve_public_addr] *)
Definition resolve_public_addr (n : nat) (host : string) (port : N) : list action * result SocketAddr string :=
  ([Lookup host port],
   match lookup n host port with
   | Err e => Err ("failed to resolve webhook host " +:+ debug_str host +:+ ": " +:+ e)
   | Ok [] => Err ("webhook host " +:+ debug_str host +:+ " did not resolve to any address")
   | Ok (a :: addrs) =>
       match list_find (λ x, is_blocked_addr (sock_ip x) = true) (a :: addrs) with
       | Some (_, blocked) =>
           Err ("webhook host " +:+ debug_str host +:+ " resolves to a non-public address (" +:+
                ip_display (sock_ip blocked) +:+ ") — refusing")
       | None => Ok a
       end
   end).

(** src/crates/weave-graph-hub/src/webhooks.rs:135-139 [validate_registerable] *)
Definition validate_registerable (n : nat) (url : string) : list action * result () string :=
  match parse_webhook_url url with
  | Err e => ([], Err e)
  | Ok target =>
      match resolve_public_addr n (url_host target) (url_port target) with
      | (acts, Ok _) => (acts, Ok ())
      | (acts, Err e) => (acts, Err e)
      end
  end.

Definition crlf : string := String "013"%char (String "010"%char "").
Definition quote : string := String "034"%char "".

(** src/crates/weave-graph-hub/src/webhooks.rs:166-166 [deliver] *)
Definition webhook_body (repo_id commit_sha : string) : string :=
  "{" +:+ quote +:+ "repo_id" +:+ quote +:+ ":" +:+ quote +:+ repo_id +:+ quote +:+ "," +:+
  quote +:+ "commit_sha" +:+ quote +:+ ":" +:+ quote +:+ commit_sha +:+ quote +:+ "}".

(** src/crates/weave-graph-hub/src/webhooks.rs:175-178 [deliver] *)
Definition webhook_request (host path body : string) : string :=
  "POST " +:+ path +:+ " HTTP/1.1" +:+ crlf +:+ "Host: " +:+ host +:+ crlf +:+ "Connection: close" +:+ crlf +:+
  "Content-Type: application/json" +:+ crlf +:+ "Content-Length: " +:+ dec (N.of_nat (String.length body)) +:+
  crlf +:+ crlf +:+ body.

(** src/crates/weave-graph-hub/src/webhooks.rs:159-192 [deliver]
    The response is read and ignored. *)
Definition deliver (addr : SocketAddr) (host path repo_id commit_sha : string) : list action * result () string :=
  let request := webhook_request host path (webhook_body repo_id commit_sha) in
  match connect addr with
  | Err e => ([Connect addr], Err ("connect: " +:+ e))
  | Ok _ =>
      match set_timeouts addr with
      | Err e => ([Connect addr], Err e)
      | Ok _ =>
          match write_all addr request with
          | Err e => ([Connect addr; Send request], Err ("write: " +:+ e))
          | Ok _ => ([Connect addr; Send request], Ok ())
          end
      end
  end.

(** src/crates/weave-graph-hub/src/webhooks.rs:145-150 [notify] *)
Definition notify (n : nat) (url repo_id commit_sha : string) : list action * result () string :=
  match parse_webhook_url url with
  | Err e => ([], Err e)
  | Ok target =>
      match resolve_public_addr n (url_host target) (url_port target) with
      | (acts, Err e) => (acts, Err e)
      | (acts, Ok addr) =>
          match deliver addr (url_host target) (url_path target) repo_id commit_sha with
          | (acts', Ok _) => (acts ++ acts', Ok ())
          | (acts', Err e) => (acts ++ acts', Err (url +:+ ": " +:+ e))
          end
      end
  end.
End dispatch.

(** ** Address blocks *)

(** An address block: the first address and the length of its prefix. *)
Definition in_block (width : N) (a : N) (b : N * N) : Prop :=
  (a / 2 ^ (width - b.2) = b.1 / 2 ^ (width - b.2))%N.

Definition v4 (a b c d : N) : N := (((a * 256 + b) * 256 + c) * 256 + d)%N.

(** 127/8, 10/8, 172.16/12, 192.168/16, 169.254/16, 0.0.0.0, 255.255.255.255,
    192.0.2/24, 198.51.100/24, 203.0.113/24. *)
Definition blocks_v4 : list (N * N) :=
  [(v4 127 0 0 0, 8); (v4 10 0 0 0, 8); (v4 172 16 0 0, 12); (v4 192 168 0 0, 16); (v4 169 254 0 0, 16);
   (v4 0 0 0 0, 32); (v4 255 255 255 255, 32); (v4 192 0 2 0, 24); (v4 198 51 100 0, 24); (v4 203 0 113 0, 24)]%N.

(** ::1, ::, fc00::/7, fe80::/10, and the mapped IPv4 blocks. *)
Definition blocks_v6 : list (N * N) :=
  [(1, 128); (0, 128); (64512 * 2 ^ 112, 7); (65152 * 2 ^ 112, 10)]%N ++
  ((λ b, (65535 * 2 ^ 32 + b.1, 96 + b.2)%N) <$> blocks_v4).

Definition non_public (ip : IpAddr) : Prop :=
  match ip with
  | V4 a => Exists (in_block 32 a) blocks_v4
  | V6 a => Exists (in_block 128 a) blocks_v6
  end.

(** The prefix of an address in terms of its upper octets. *)
Lemma octets a :
  (a < 4294967296)%N →
  ∃ o0 o1 o2 o3, (o0 < 256 ∧ o1 < 256 ∧ o2 < 256 ∧ o3 < 256)%N ∧ a = v4 o0 o1 o2 o3 ∧
    octet a 0 = o0 ∧ octet a 1 = o1 ∧ octet a 2 = o2 ∧
    (a / 2 ^ 24 = o0 ∧ a / 2 ^ 20 = o0 * 16 + o1 / 16 ∧ a / 2 ^ 16 = o0 * 256 + o1 ∧
     a / 2 ^ 8 = (o0 * 256 + o1) * 256 + o2)%N.
Proof.
  intros Ha. set (q8 := (a / 256)%N). set (q16 := (q8 / 256)%N).
  exists (q16 / 256)%N, (q16 `mod` 256)%N, (q8 `mod` 256)%N, (a `mod` 256)%N.
  assert (a / 65536 = q16)%N as H16 by (unfold q16, q8; by rewrite N.Div0.div_div).
  assert (a / 16777216 = q16 / 256)%N as H24 by (unfold q16, q8; by rewrite !N.Div0.div_div).
  assert (a / 1048576 = q16 / 16)%N as H20 by (unfold q16, q8; by rewrite !N.Div0.div_div).
  unfold octet, v4. change (2 ^ (8 * (3 - 0)))%N with 16777216%N. change (2 ^ (8 * (3 - 1)))%N with 65536%N.
  change (2 ^ (8 * (3 - 2)))%N with 256%N. change (2 ^ 24)%N with 16777216%N. change (2 ^ 20)%N with 1048576%N.
  change (2 ^ 16)%N with 65536%N. change (2 ^ 8)%N with 256%N. rewrite H24, H20, H16. fold q8.
  pose proof (N.div_mod a 256 ltac:(done)) as E1. pose proof (N.div_mod q8 256 ltac:(done)) as E2.
  pose proof (N.div_mod q16 256 ltac:(done)) as E3. fold q8 in E1. fold q16 in E2.
  pose proof (N.mod_lt a 256 ltac:(done)). pose proof (N.mod_lt q8 256 ltac:(done)).
  pose proof (N.mod_lt q16 256 ltac:(done)).
  clearbody q16. clearbody q8. clear H16 H24 H20. set (x := (q16 / 256)%N) in *.
  set (y := (q16 `mod` 256)%N) in *. set (z := (q8 `mod` 256)%N) in *. set (w := (a `mod` 256)%N) in *.
  assert (q16 / 16 = x * 16 + y / 16)%N as H20.
  { rewrite E3. replace (256 * x)%N with (x * 16 * 16)%N by lia. rewrite N.add_comm, N.div_add by done. lia. }
  clearbody x y z w. assert (x < 256)%N by lia. rewrite (N.mod_small x) by done.
  split_and!; (done || lia).
Qed.

Lemma is_blocked_v4_spec a : (a < 2 ^ 32)%N → is_blocked_v4 a = true ↔ Exists (in_block 32 a) blocks_v4.
Proof.
  intros Ha. destruct (octets a Ha) as (o0 & o1 & o2 & o3 & (? & ? & ? & ?) & Hv & H0 & H1 & H2 & H24 & H20 & H16 & H8).
  unfold is_blocked_v4, v4_is_loopback, v4_is_private, v4_is_link_local, v4_is_unspecified,
    v4_is_broadcast, v4_is_documentation. rewrite H0, H1, H2.
  rewrite !orb_true_iff, !andb_true_iff, !N.eqb_eq, !N.leb_le.
  unfold blocks_v4. rewrite !Exists_cons, Exists_nil. unfold in_block. cbn [fst snd].
  change (32 - 8)%N with 24%N. change (32 - 12)%N with 20%N. change (32 - 16)%N with 16%N.
  change (32 - 24)%N with 8%N. change (32 - 32)%N with 0%N. rewrite H24, H20, H16, H8, N.pow_0_r, !N.div_1_r.
  repeat match goal with |- context [(v4 ?x ?y ?z ?t / 2 ^ ?k)%N] =>
    let v := eval compute in (v4 x y z t / 2 ^ k)%N in change (v4 x y z t / 2 ^ k)%N with v end.
  change (v4 0 0 0 0) with 0%N. change (v4 255 255 255 255) with 4294967295%N.
  clear Ha Hv H0 H1 H2 H24 H20 H16 H8.
  assert (o1 / 16 < 16)%N as Hq16 by (apply N.Div0.div_lt_upper_bound; lia).
  assert (16 <= o1 ∧ o1 <= 31 ↔ o1 / 16 = 1)%N as H16b.
  { split.
    - intros [? ?]. symmetry. apply (N.div_unique _ _ _ (o1 - 16)); lia.
    - intros Hq. pose proof (N.div_mod o1 16 ltac:(done)) as E. pose proof (N.mod_lt o1 16 ltac:(done)).
      rewrite Hq in E. set (m := (o1 `mod` 16)%N) in *. clearbody m. lia. }
  assert (o0 * 16 + o1 / 16 = 2753 ↔ o0 = 172 ∧ o1 / 16 = 1)%N as ->.
  { revert Hq16. clear. generalize (o1 / 16)%N. intros; split; intros; lia. }
  assert (o0 * 256 + o1 = 49320 ↔ o0 = 192 ∧ o1 = 168)%N as -> by (clear Hq16 H16b; split; intros; lia).
  assert (o0 * 256 + o1 = 43518 ↔ o0 = 169 ∧ o1 = 254)%N as -> by (clear Hq16 H16b; split; intros; lia).
  assert ((o0 * 256 + o1) * 256 + o2 = 12582914 ↔ o0 = 192 ∧ o1 = 0 ∧ o2 = 2)%N as -> by (clear Hq16 H16b; split; intros; lia).
  assert ((o0 * 256 + o1) * 256 + o2 = 12989284 ↔ o0 = 198 ∧ o1 = 51 ∧ o2 = 100)%N as -> by (clear Hq16 H16b; split; intros; lia).
  assert ((o0 * 256 + o1) * 256 + o2 = 13303921 ↔ o0 = 203 ∧ o1 = 0 ∧ o2 = 113)%N as -> by (clear Hq16 H16b; split; intros; lia).
  clear -H16b. tauto.
Qed.

(** A mask of consecutive bits, as a quotient. *)
Lemma land_shifted (n m k : N) :
  N.land n (N.shiftl (N.ones m) k) = (((n / 2 ^ k) `mod` 2 ^ m) * 2 ^ k)%N.
Proof.
  rewrite <-N.shiftr_div_pow2, <-N.land_ones, <-N.shiftl_mul_pow2. apply N.bits_inj. intros i.
  rewrite N.land_spec. destruct (N.lt_ge_cases i k) as [Hi|Hi].
  - by rewrite !N.shiftl_spec_low, andb_false_r.
  - rewrite !N.shiftl_spec_high', N.land_spec, N.shiftr_spec' by done.
    by replace (i - k + k)%N with i by lia.
Qed.

Lemma segment_masks (n : N) :
  (n < 65536)%N →
  (N.land n 65024 = 64512 ↔ n / 512 = 126)%N ∧ (N.land n 65472 = 65152 ↔ n / 64 = 1018)%N.
Proof.
  intros Hn. change 65024%N with (N.shiftl (N.ones 7) 9). change 65472%N with (N.shiftl (N.ones 10) 6).
  rewrite !land_shifted. change (2 ^ 9)%N with 512%N. change (2 ^ 6)%N with 64%N.
  rewrite !N.mod_small by (apply N.Div0.div_lt_upper_bound; done).
  generalize (n / 512)%N (n / 64)%N. intros x y. lia.
Qed.

Lemma mapped_block a b (k : N) :
  (k ≤ 32)%N → (b < 2 ^ 32)%N →
  (a / 2 ^ k = (65535 * 2 ^ 32 + b) / 2 ^ k ↔
   a / 2 ^ 32 = 65535 ∧ (a `mod` 2 ^ 32) / 2 ^ k = b / 2 ^ k)%N.
Proof.
  intros Hk Hb.
  assert (∀ q r, (r < 2 ^ 32 → (2 ^ 32 * q + r) / 2 ^ k = 2 ^ (32 - k) * q + r / 2 ^ k ∧ r / 2 ^ k < 2 ^ (32 - k)))%N as Hdiv.
  { intros q r Hr. assert (2 ^ 32 = 2 ^ k * 2 ^ (32 - k))%N as E by (rewrite <-N.pow_add_r; f_equal; lia).
    assert (2 ^ k ≠ 0)%N by by apply N.pow_nonzero. split.
    - rewrite E, N.add_comm, <-N.mul_assoc, (N.mul_comm (2 ^ k)), N.div_add by done. lia.
    - apply N.Div0.div_lt_upper_bound. lia. }
  pose proof (N.div_mod a (2 ^ 32) ltac:(done)) as Ea. pose proof (N.mod_lt a (2 ^ 32) ltac:(done)) as Hr.
  destruct (Hdiv (a / 2 ^ 32)%N (a `mod` 2 ^ 32)%N Hr) as [E1 L1]. rewrite <-Ea in E1.
  destruct (Hdiv 65535%N b Hb) as [E2 L2]. rewrite (N.mul_comm (2 ^ 32)) in E2. rewrite E1, E2.
  assert (2 ^ (32 - k) ≠ 0)%N by by apply N.pow_nonzero. clear -L1 L2 H. split.
  - intros E. apply N.div_mod_unique in E; [naive_solver|done..].
  - by intros [-> ->].
Qed.

Lemma is_blocked_v6_spec a : (a < 2 ^ 128)%N → is_blocked_addr (V6 a) = true ↔ non_public (V6 a).
Proof.
  intros Ha. cbn [is_blocked_addr non_public]. unfold blocks_v6. rewrite Exists_app, Exists_fmap.
  assert (segment a 0 = a / 2 ^ 112)%N as Hseg.
  { unfold segment. change (16 * (7 - 0))%N with 112%N. apply N.mod_small. apply N.Div0.div_lt_upper_bound. done. }
  assert (a / 2 ^ 112 < 65536)%N as Hlt by (apply N.Div0.div_lt_upper_bound; done).
  destruct (segment_masks _ Hlt) as [M1 M2].
  unfold v6_is_loopback, v6_is_unspecified, v6_is_unique_local, v6_is_unicast_link_local.
  rewrite Hseg, !orb_true_iff, !N.eqb_eq, M1, M2, !N.Div0.div_div.
  change (2 ^ 112 * 512)%N with (2 ^ 121)%N. change (2 ^ 112 * 64)%N with (2 ^ 118)%N.
  rewrite !Exists_cons, Exists_nil. unfold in_block at 1 2 3 4. cbn [fst snd].
  change (128 - 128)%N with 0%N. change (128 - 7)%N with 121%N. change (128 - 10)%N with 118%N.
  rewrite N.pow_0_r, !N.div_1_r.
  change (64512 * 2 ^ 112 / 2 ^ 121)%N with 126%N. change (65152 * 2 ^ 112 / 2 ^ 118)%N with 1018%N.
  assert (match v6_to_ipv4_mapped a with Some v => is_blocked_v4 v | None => false end = true ↔
    Exists (in_block 128 a ∘ λ b, (65535 * 2 ^ 32 + b.1, 96 + b.2)%N) blocks_v4) as ->; [|tauto].
  assert (∀ b, b ∈ blocks_v4 → (b.2 ≤ 32 ∧ b.1 < 2 ^ 32)%N) as Hb.
  { intros b Hin. unfold blocks_v4 in Hin. repeat (apply elem_of_cons in Hin as [->|Hin]; [done|]). set_solver. }
  trans (a / 2 ^ 32 = 65535 ∧ Exists (in_block 32 (a `mod` 2 ^ 32)) blocks_v4)%N.
  - unfold v6_to_ipv4_mapped. destruct (N.eqb_spec (a / 2 ^ 32) 65535) as [->|]; [|naive_solver].
    rewrite is_blocked_v4_spec by (apply N.mod_lt; done). tauto.
  - rewrite !Exists_exists. split.
    + intros [Hq (b & Hin & Hbl)]. exists b. split; [done|]. destruct (Hb _ Hin). unfold in_block in *. cbn.
      replace (128 - (96 + b.2))%N with (32 - b.2)%N by lia. apply mapped_block; [lia|done|done].
    + intros (b & Hin & Hbl). destruct (Hb _ Hin). unfold in_block in *. cbn in Hbl.
      replace (128 - (96 + b.2))%N with (32 - b.2)%N in Hbl by lia. apply mapped_block in Hbl; [|lia|done].
      naive_solver.
Qed.

Lemma is_blocked_addr_spec ip : ip_valid ip → is_blocked_addr ip = true ↔ non_public ip.
Proof. destruct ip as [a|a]; [apply is_blocked_v4_spec|apply is_blocked_v6_spec]. Qed.

(** ** The guard *)

(** The documentation block of IPv6, 2001:db8::/32, which the code does not block
    ([v6_documentation_allowed]). *)
Definition documentation_v6 (ip : IpAddr) : Prop :=
  match ip with V4 _ => False | V6 a => in_block 128 a (0x20010db8 * 2 ^ 96, 32)%N end.

(** C9: A dispatch reaches public addresses only, and does reach them.  Whatever the
    resolver answers at that moment and whatever URL is stored, the process looks the
    name up at most once, connects only to the first address of that one answer, and
    only when every address of the answer lies outside all of the blocked blocks
    (loopback, private, link-local, unspecified, broadcast, documentation of IPv4,
    unique-local, and IPv4 ones mapped into IPv6), and sends the one request only
    after connecting there.  One address of a blocked block in the answer is enough
    for it to stop with an error after the lookup.  When all are public, and outside
    the documentation block of IPv6, the request is sent if the connection is made,
    and the dispatch succeeds exactly when it is written. *)
Theorem webhook_guard lookup connect set_timeouts write_all ip_display debug_str n url repo_id sha
    (Hvalid : ∀ n h p l, lookup n h p = Ok l → Forall (λ x, ip_valid (sock_ip x)) l) :
  let '(acts, outcome) := notify lookup connect set_timeouts write_all ip_display debug_str n url repo_id sha in
  match parse_webhook_url url with
  | Err _ => acts = [] ∧ outcome ≠ Ok ()
  | Ok target =>
      let ask := Lookup (url_host target) (url_port target) in
      let request := webhook_request (url_host target) (url_path target) (webhook_body repo_id sha) in
      (acts = [ask] ∧ outcome ≠ Ok () ∨
       ∃ addr answers, lookup n (url_host target) (url_port target) = Ok (addr :: answers) ∧
         Forall (λ x, ¬ non_public (sock_ip x)) (addr :: answers) ∧
         (acts = [ask; Connect addr] ∧ outcome ≠ Ok () ∨ acts = [ask; Connect addr; Send request] ∧ connect addr = Ok ())) ∧
      (∀ answers, lookup n (url_host target) (url_port target) = Ok answers → Exists (λ x, non_public (sock_ip x)) answers →
         acts = [ask] ∧ outcome ≠ Ok ()) ∧
      (∀ addr answers, lookup n (url_host target) (url_port target) = Ok (addr :: answers) →
         Forall (λ x, ¬ non_public (sock_ip x) ∧ ¬ documentation_v6 (sock_ip x)) (addr :: answers) →
         connect addr = Ok () → set_timeouts addr = Ok () →
         acts = [ask; Connect addr; Send request] ∧ (outcome = Ok () ↔ write_all addr request = Ok ()))
  end.
Proof.
  unfold notify. destruct (parse_webhook_url url) as [target|e]; [|done]. unfold resolve_public_addr.
  destruct (lookup n (url_host target) (url_port target)) as [l|e] eqn:Hl; [|split_and!; [by left|done..]].
  specialize (Hvalid _ _ _ _ Hl). destruct l as [|a l].
  { split_and!; [by left| |done]. intros ? [= <-] Hx. by apply Exists_nil in Hx. }
  destruct (list_find (λ x, is_blocked_addr (sock_ip x) = true) (a :: l)) as [[i b]|] eqn:Hf.
  - apply list_find_Some in Hf as (Hb%list_elem_of_lookup_2 & Hbl & _). rewrite Forall_forall in Hvalid.
    apply is_blocked_addr_spec in Hbl; [|by apply Hvalid]. split_and!; [by left|done|].
    intros ? ? [= <- <-] Hall. rewrite Forall_forall in Hall. by destruct (Hall b Hb).
  - apply list_find_None in Hf. assert (Forall (λ x, ¬ non_public (sock_ip x)) (a :: l)) as Hpub.
    { rewrite !Forall_forall in *. intros x Hx Hbad. apply (Hf x Hx). apply is_blocked_addr_spec; auto. }
    unfold deliver. assert (∀ answers, Ok (a :: l) = Ok answers :> result (list SocketAddr) string → Exists (λ x, non_public (sock_ip x)) answers → False) as Hno.
    { intros ? [= <-] Hx. apply Exists_exists in Hx as (x & Hx & Hbad). rewrite Forall_forall in Hpub. by apply (Hpub x). }
    destruct (connect a) as [[]|e] eqn:Hc; [|split_and!; [right; exists a, l; split_and!; [done..|by left]|by intros ? ? ?%Hno|]; intros ? ? [= <- <-] _; congruence].
    destruct (set_timeouts a) as [[]|e] eqn:Ht; [|split_and!; [right; exists a, l; split_and!; [done..|by left]|by intros ? ? ?%Hno|]; intros ? ? [= <- <-] _ _; congruence].
    destruct (write_all a _) as [[]|e] eqn:Hw; (split_and!; [right; exists a, l; split_and!; [done..|by right]|by intros ? ? ?%Hno|]); intros ? ? [= <- <-] _ _ _; (split; [done|]); by rewrite Hw.
Qed.

(** A host that answers with a public and with a private address. *)
Lemma webhook_guard_witness :
  let addrs h := if decide (h = "ok.example") then [mkSock (V4 (v4 93 184 216 34)) 80]
                 else [mkSock (V4 (v4 93 184 216 34)) 80; mkSock (V6 (65535 * 2 ^ 32 + v4 169 254 169 254)) 80] in
  let run := notify (λ _ h _, Ok (addrs h)) (λ _, Ok ()) (λ _, Ok ()) (λ _ _, Ok ()) (λ _, "") (λ s, s) 0 in
  (run "http://ok.example/hook" "r" "s").2 = Ok () ∧ (run "http://bad.example/hook" "r" "s").1 = [Lookup "bad.example" 80].
Proof.
  intros addrs run.
  assert (∀ (n : nat) h (p : N) l, Ok (addrs h) = Ok l :> result _ string → Forall (λ x, ip_valid (sock_ip x)) l) as Hv.
  { intros n h p l [= <-]. unfold addrs. case_decide; repeat constructor. }
  pose proof (webhook_guard (λ _ h _, Ok (addrs h)) (λ _, Ok ()) (λ _, Ok ()) (λ _ _, Ok ()) (λ _, "") (λ s, s) 0 "http://bad.example/hook" "r" "s" Hv) as Hbad.
  split; [vm_compute; reflexivity|]. fold (run "http://bad.example/hook" "r" "s") in Hbad.
  assert (parse_webhook_url "http://bad.example/hook" = Ok (mkUrl "bad.example" 80 "/hook")) as Hp by (vm_compute; reflexivity). rewrite Hp in Hbad.
  destruct (run "http://bad.example/hook" "r" "s") as [acts outcome]. destruct Hbad as (_ & Hstop & _).
  destruct (Hstop _ eq_refl) as [Hacts _]; [|exact Hacts].
  apply Exists_cons_tl, Exists_cons_hd. apply (is_blocked_addr_spec (V6 (65535 * 2 ^ 32 + v4 169 254 169 254))); vm_compute; reflexivity.
Defined.

(** The IPv6 documentation block is not among the blocked classes. *)
Lemma v6_documentation_allowed : is_blocked_addr (V6 (0x20010db8 * 2 ^ 96 + 1)) = false.
Proof. vm_compute. reflexivity. Qed.

(** A URL is split into an authority without slash or userinfo, an optional
    port, and a path; nothing of it is lost. *)
Lemma parse_webhook_url_shape url t :
  parse_webhook_url url = Ok t →
  ∃ authority path, (url = "http://" +:+ authority +:+ path ∨ url = "http://" +:+ authority ∧ path = "/") ∧
    url_path t = path ∧ str_contains authority "@" = false ∧ authority ≠ "" ∧
    (authority = url_host t ∧ url_port t = 80%N ∨
     ∃ p, authority = url_host t +:+ ":" +:+ p ∧ parse_uint 65535 p = Some (url_port t)).
Proof.
  unfold parse_webhook_url. destruct (strip_prefix "http://" url) as [rest|] eqn:Hs; [|done].
  apply strip_prefix_Some in Hs as ->.
  assert (∃ authority path, (match split_once rest "/" with Some (a, p) => (a, "/" +:+ p) | None => (rest, "/") end) =
    (authority, path) ∧ (rest = authority +:+ path ∨ rest = authority ∧ path = "/")) as (au & path & -> & Hr).
  { destruct (split_once rest "/") as [[a p]|] eqn:Hp; [|eauto 6].
    apply split_once_sound in Hp as ->. eauto. }
  destruct (is_empty au) eqn:Hem; [done|]. assert (au ≠ "") as Hau by by intros ->.
  destruct (str_contains au "@") eqn:Hat; [done|].
  destruct (rsplit_once au ":") as [[h p]|] eqn:Hc.
  - destruct (parse_uint 65535 p) as [port|] eqn:Hp; [|done]. intros; simplify_eq/=.
    apply rsplit_once_sound in Hc. exists au, path. split_and!; [|done|done|done|right; eauto].
    destruct Hr as [->|[-> ->]]; auto.
  - intros; simplify_eq/=. exists au, path. split_and!; [|done|done|done|by left].
    destruct Hr as [->|[-> ->]]; auto.
Qed.
