(* ===== verification/Contract.v ===== *)
(** * Boundary contracts (weave-graph-parse: contract.rs; weave-graph-cli:
      contracts.rs, waiver.rs)

    The exported declarations of a repository, their canonical hash, the
    snapshot recorded with it, the symbol-level diff, and the decision of
    [weave check-contracts].  SHA-256 is a parameter, a function from byte
    strings to byte strings. *)

From S2P Require Import Prelude Str Model SqlStore Language Interner ProjectIndex.

(** ** Exported declarations *)

(** src/crates/weave-graph-parse/src/contract.rs:25-27 [canonical_line] *)
Definition canonical_line (symbol kind signature : string) : string :=
  kind +:+ " " +:+ symbol +:+ " :: " +:+ trim signature.

(** [s.rsplit(p).next()]: the text after the last separator. *)
Fixpoint after_last (p : ascii → bool) (s : string) : string :=
  match s with
  | EmptyString => ""
  | String a r => if str_any p r then after_last p r else if p a then r else s
  end.

(** src/crates/weave-graph-parse/src/contract.rs:32-34 [short_name] *)
Definition short_name (qualified : string) : string :=
  after_last (λ a, bool_decide (a = ":"%char) || bool_decide (a = "."%char)) qualified.

(** src/crates/weave-graph-parse/src/contract.rs:39-78 [visibility_rule] *)
Definition visibility_rule (l : Language) : string → string → bool :=
  match l with
  | LangRust => λ sig _, starts_with sig "pub" && negb (starts_with sig "pub(")
  | LangPython => λ _ name, negb (starts_with name "_")
  | LangGo => λ _ name, match name with String c _ => is_upper c | EmptyString => false end
  | LangTypeScript | LangTsx | LangJavaScript => λ sig _, str_contains sig "export"
  | LangJava => λ sig _, str_contains (to_ascii_lowercase sig) "public"
  | LangC | LangCpp => λ sig _, negb (starts_with sig "static")
  | LangDart => λ _ name, negb (starts_with name "_")
  | LangArkTs => λ sig _, str_contains sig "export"
  | LangKotlin | LangCSharp | LangScala | LangSwift | LangPhp | LangVisualBasic =>
      λ sig _, str_contains (to_ascii_lowercase sig) "public"
  | LangSolidity => λ sig _, str_contains sig "public" || str_contains sig "external"
  | LangElixir => λ sig _, negb (str_contains sig "defp")
  | LangZig => λ sig _, starts_with sig "pub"
  | LangObjC | LangMetal | LangCuda => λ sig _, negb (starts_with sig "static")
  | _ => λ _ _, true
  end.

(** src/crates/weave-graph-parse/src/contract.rs:83-83 [ExportedEntry]
    Kind, signature, line. *)
Definition ExportedEntry : Type := string * string * N.

(** [collect] into a map: a later pair replaces an earlier one. *)
Definition collect {V} (l : list (string * V)) : gmap string V := foldl (λ m p, <[p.1 := p.2]> m) ∅ l.

(** src/crates/weave-graph-parse/src/contract.rs:89-106 [exported_entries_map] *)
Definition exported_entries_map (l : Language) (file : ParsedFile) : gmap string ExportedEntry :=
  collect ((λ s, (card_symbol s, (symbol_kind_str (card_kind s), trim (card_signature s), card_line_start s))) <$>
    filter (λ s, visibility_rule l (trim (card_signature s)) (short_name (card_symbol s)) = true) (symbols file)).

(** src/crates/weave-graph-parse/src/contract.rs:110-117 [exported_entries] *)
Definition exported_entries (l : Language) (file : ParsedFile) : list string :=
  sort_by String.leb ((λ p : string * ExportedEntry, canonical_line p.1 p.2.1.1 p.2.1.2) <$>
    map_to_list (exported_entries_map l file)).

(** ** Diffs *)

(** src/crates/weave-graph-parse/src/contract.rs:124-129 [ContractDiff] *)
Record ContractDiff (V : Type) := mkDiff {
  added : list (string * V);
  removed : list (string * V);
  changed : list (string * V * V);
}.
Arguments mkDiff {V}.
Arguments added {V}.
Arguments removed {V}.
Arguments changed {V}.

(** src/crates/weave-graph-parse/src/contract.rs:132-134 [ContractDiff::is_empty] *)
Definition diff_is_empty {V} (d : ContractDiff V) : bool :=
  match added d, removed d, changed d with [], [], [] => true | _, _, _ => false end.

Definition empty_diff {V} : ContractDiff V := mkDiff [] [] [].

(** src/crates/weave-graph-parse/src/contract.rs:144-173 [diff_contracts] *)
Definition diff_contracts {V K} `{EqDecision K} (expected actual : gmap string V) (contract_key : V → K) :
    ContractDiff V :=
  let added := omap (λ p : string * V, match expected !! p.1 with None => Some p | Some _ => None end)
                 (map_to_list actual) in
  let changed := omap (λ p : string * V,
                   match expected !! p.1 with
                   | Some old => if decide (contract_key old ≠ contract_key p.2) then Some (p.1, old, p.2) else None
                   | None => None
                   end) (map_to_list actual) in
  let removed := filter (λ p : string * V, actual !! p.1 = None) (map_to_list expected) in
  mkDiff (sort_by (λ a b : string * V, String.leb a.1 b.1) added)
    (sort_by (λ a b : string * V, String.leb a.1 b.1) removed)
    (sort_by (λ a b : string * V * V, String.leb a.1.1 b.1.1) changed).

(** ** Hashing *)

Definition hex_digit (n : N) : ascii := if (n <? 10)%N then ascii_of_N (48 + n) else ascii_of_N (87 + n).

(** [format!("{byte:02x}")] for each byte. *)
Fixpoint to_hex (s : string) : string :=
  match s with
  | EmptyString => ""
  | String a r => String (hex_digit (byte a / 16)) (String (hex_digit (byte a `mod` 16)) (to_hex r))
  end.

Definition newline : string := String "010"%char "".

Section hash.
Context `{Sqlite} (sha256 : string → string).

(** src/crates/weave-graph-parse/src/contract.rs:178-182 [hash_entries]
    The bytes fed to the hasher. *)
Definition hash_input (entries : list string) : string :=
  foldr (λ l acc, l +:+ newline +:+ acc) "" entries.

(** src/crates/weave-graph-parse/src/contract.rs:177-189 [hash_entries] *)
Definition hash_entries (entries : list string) : string := to_hex (sha256 (hash_input entries)).

(** src/crates/weave-graph-cli/src/contracts.rs:29-29 [ContractEntry]
    Kind, signature, path, line. *)
Definition ContractEntry : Type := string * string * string * N.

(** src/crates/weave-graph-cli/src/contracts.rs:30-30 [ContractMap] *)
Definition ContractMap : Type := gmap string ContractEntry.

(** src/crates/weave-graph-cli/src/contracts.rs:32-35 [enrich] *)
Definition enrich (path : string) (e : ExportedEntry) : ContractEntry := (e.1.1, e.1.2, path, e.2).

(** src/crates/weave-graph-cli/src/contracts.rs:41-59 [repo_contract_map]
    Over the parsed files, by relative path. *)
Definition repo_contract_map (files : list (string * ParsedFile)) : ContractMap :=
  foldl (λ m p,
    match from_path p.1 with
    | None => m
    | Some l => foldl (λ m x, <[x.1 := enrich p.1 x.2]> m) m (map_to_list (exported_entries_map l p.2))
    end) ∅ files.

(** src/crates/weave-graph-cli/src/contracts.rs:65-71 [contract_hash_of] *)
Definition contract_lines (map : ContractMap) : list string :=
  sort_by String.leb ((λ p : string * ContractEntry, canonical_line p.1 p.2.1.1.1 p.2.1.1.2) <$> map_to_list map).

(** src/crates/weave-graph-cli/src/contracts.rs:64-73 [contract_hash_of] *)
Definition contract_hash_of (map : ContractMap) : string := hash_entries (contract_lines map).

(** ** The recorded snapshot *)

Definition unit_separator : ascii := "031"%char.
Definition us : string := String unit_separator "".

(** src/crates/weave-graph-cli/src/contracts.rs:91-93 [serialize_entries] *)
Definition entry_line (p : string * ContractEntry) : string :=
  let '(symbol, (kind, signature, path, line)) := p in
  symbol +:+ us +:+ kind +:+ us +:+ signature +:+ us +:+ path +:+ us +:+ dec line.

(** src/crates/weave-graph-cli/src/contracts.rs:88-97 [serialize_entries] *)
Definition serialize_entries (map : ContractMap) : string :=
  join newline (sort_by String.leb (entry_line <$> map_to_list map)).

(** src/crates/weave-graph-cli/src/contracts.rs:104-112 [deserialize_entries] *)
Definition parse_entry (l : string) : option (string * ContractEntry) :=
  '(symbol, r) ← split_once l us;
  '(kind, r) ← split_once r us;
  '(signature, r) ← split_once r us;
  '(path, n) ← split_once r us;
  line ← parse_uint 4294967295 n;
  Some (symbol, (kind, signature, path, line)).

(** src/crates/weave-graph-cli/src/contracts.rs:102-114 [deserialize_entries] *)
Definition deserialize_entries (blob : string) : ContractMap := collect (omap parse_entry (lines blob)).

(** ** Scope *)

(** src/crates/weave-graph-cli/src/contracts.rs:207-235 [partition_by_scope] *)
Definition partition_by_scope (diff : ContractDiff ContractEntry) (imported : gset string) :
    ContractDiff ContractEntry * ContractDiff ContractEntry :=
  (mkDiff (filter (λ p : string * ContractEntry, p.1 ∈ imported) (added diff))
     (filter (λ p : string * ContractEntry, p.1 ∈ imported) (removed diff))
     (filter (λ p : string * ContractEntry * ContractEntry, p.1.1 ∈ imported) (changed diff)),
   mkDiff (filter (λ p : string * ContractEntry, p.1 ∉ imported) (added diff))
     (filter (λ p : string * ContractEntry, p.1 ∉ imported) (removed diff))
     (filter (λ p : string * ContractEntry * ContractEntry, p.1.1 ∉ imported) (changed diff))).

(** ** Waivers (weave-graph-cli: waiver.rs) *)

(** src/crates/weave-graph-cli/src/waiver.rs:25-46 [authorize]
    [user_roles] are the roles of the configured users; [can_waive] is the
    guard's answer for a subject. *)
Definition authorize (user_roles : list (list string)) (can_waive : string → bool) (as_subject : option string) :
    result () string :=
  match as_subject with
  | None =>
      if existsb (λ roles, bool_decide ("allow-drift" ∈ roles)) user_roles
      then Err "anonymous waivers are not permitted when this repository's RBAC config grants the 'allow-drift' role to specific identities. Use --as <subject> to authenticate." else Ok ()
  | Some subject =>
      if can_waive subject then Ok ()
      else Err ("identity '" +:+ subject +:+ "' is not authorized to waive this gate — needs the 'allow-drift' role in [rbac.users] (or the SCIM-managed directory)")
  end.

(** src/crates/weave-graph-cli/src/waiver.rs:56-65 [require_reason] *)
Definition require_reason (reason : option string) : result string string :=
  match trim <$> reason with
  | Some r => if is_empty r then Err "--reason is required when waiving a gate via a CLI flag (audit trail, impl.md M3.10)" else Ok r
  | None => Err "--reason is required when waiving a gate via a CLI flag (audit trail, impl.md M3.10)"
  end.

(** src/crates/weave-graph-cli/src/waiver.rs:82-84 [is_truthy] *)
Definition is_truthy (value : option string) : bool :=
  match value with Some v => bool_decide (v = "1") || bool_decide (v = "true") | None => false end.

(** src/crates/weave-graph-cli/src/waiver.rs:92-102 [parse_repo_set] *)
Definition parse_repo_set (value : option string) : gset string :=
  match value with
  | Some v => list_to_set (filter (λ s, s ≠ "") (trim <$> split_char ","%char v))
  | None => ∅
  end.

(** src/crates/weave-graph-cli/src/contracts.rs:271-280 [CheckContractsWaiver] *)
Record CheckContractsWaiver := mkWaiver {
  allow_drift : bool;
  allow_drift_for : option string;
  warn_only : bool;
  reason : option string;
  as_subject : option string;
  skip_env : option string;
  staleness_override_env : option string;
  allow_drift_repos_env : option string;
}.

(** ** The check *)

(** A linked repository: its label, its parsed files, and the symbols the
    checking repository imports from it ([None]: no federated graph). *)
Record provider := mkProvider {
  provider_label : string;
  provider_files : list (string * ParsedFile);
  imported_symbols : option (gset string);
}.

Inductive outcome := MissingExpectation | UpToDate | OutOfScope | WaivedDrift | Diverged.

#[global] Instance outcome_eq_dec : EqDecision outcome.
Proof. solve_decision. Defined.

(** Key of the diff: kind and signature. *)
Definition entry_key (e : ContractEntry) : string * string := (e.1.1.1, e.1.1.2).

(** src/crates/weave-graph-cli/src/contracts.rs:348-436 [cmd_check_contracts]
    One linked repository. *)
Definition check_provider (scoped : bool) (w : CheckContractsWaiver) (allow_drift_repos : gset string)
    (expectations : list (string * string * string * string)) (p : provider) : outcome :=
  match list_find (λ e : string * string * string * string, e.1.1.1 = provider_label p) expectations with
  | None => MissingExpectation
  | Some (_, (_, expected_hash, _, expected_blob)) =>
      let actual_map := repo_contract_map (provider_files p) in
      if decide (contract_hash_of actual_map = expected_hash) then UpToDate else
      let diff := diff_contracts (deserialize_entries expected_blob) actual_map entry_key in
      let '(blocking, _) :=
        if scoped then
          match imported_symbols p with
          | Some imported => partition_by_scope diff imported
          | None => (diff, empty_diff)
          end
        else (diff, empty_diff) in
      if scoped && diff_is_empty blocking then OutOfScope else
      if allow_drift w || bool_decide (allow_drift_for w = Some (provider_label p)) ||
         bool_decide (provider_label p ∈ allow_drift_repos)
      then WaivedDrift else Diverged
  end.

(** src/crates/weave-graph-cli/src/contracts.rs:332-335 [cmd_check_contracts] *)
Definition effective_policy (w : CheckContractsWaiver) (configured : string) : string :=
  match staleness_override_env w with
  | Some p => if bool_decide (p = "warn") || bool_decide (p = "ignore") then p else configured
  | None => configured
  end.

(** src/crates/weave-graph-cli/src/contracts.rs:289-447 [cmd_check_contracts]
    [auth] is {!authorize} for this repository; the report is the list of
    outcomes, without its printed form. *)
Definition cmd_check_contracts (auth : option string → result () string) (linked : list provider)
    (configured_policy : string) (expectations : list (string * string * string * string))
    (scoped : bool) (w : CheckContractsWaiver) : result (list outcome) string :=
  if is_truthy (skip_env w) then
    let? _ := auth (as_subject w) in Ok []
  else
    let using_drift_flags := allow_drift w || bool_decide (is_Some (allow_drift_for w)) in
    let? _ := (if using_drift_flags then auth (as_subject w) else Ok ()) in
    let? _ := (if using_drift_flags then require_reason (reason w) else Ok "") in
    let allow_drift_repos := parse_repo_set (allow_drift_repos_env w) in
    let? _ := (if decide (allow_drift_repos = ∅) then Ok () else auth (as_subject w)) in
    match linked with
    | [] => Err "No linked repos in .weave/config.toml"
    | _ =>
        let outcomes := check_provider scoped w allow_drift_repos expectations <$> linked in
        if bool_decide (Diverged ∈ outcomes) && bool_decide (effective_policy w configured_policy = "strict") &&
           negb (warn_only w)
        then Err "Contract divergence detected under staleness_policy = strict"
        else Ok outcomes
    end.

(** ** Recorded expectations *)

(** src/crates/weave-graph-cli/src/contracts.rs:149-167 [record_one_side]
    On the consumer's database; the caller supplies the commit or [git] does. *)
Definition record_one_side (consumer_label provider_label : string) (provider_map : ContractMap)
    (provider_sha current_sha : option string) (db : Db) : Db * result () StorageError :=
  let sha := match provider_sha with
             | Some s => s
             | None => match current_sha with Some s => s | None => "uncommitted" end
             end in
  upsert_contract db consumer_label provider_label (contract_hash_of provider_map) sha
    (serialize_entries provider_map).

(** ** Submodules *)

(** src/crates/weave-graph-cli/src/git.rs:190-193 [Submodule] *)
Record Submodule := mkSubmodule { sub_name : string; sub_path : string }.

(** src/crates/weave-graph-cli/src/git.rs:198-207 [SubmoduleState] *)
Inductive SubmoduleState := Clean | Bumped | Uninitialized | Dirty.

(** src/crates/weave-graph-cli/src/git.rs:243-256 [submodule_state]
    [status_char] is the first character of [git submodule status], if it
    printed one; [clean] is whether the inner tree is. *)
Definition submodule_state (status_char : option ascii) (clean : bool) : SubmoduleState :=
  match status_char with
  | Some "-"%char => Uninitialized
  | Some "U"%char | Some "+"%char => Bumped
  | _ => if clean then Clean else Dirty
  end.

(** src/crates/weave-graph-cli/src/contracts.rs:453-455 [submodule_provider_label] *)
Definition submodule_provider_label (s : Submodule) : string := "submodule:" +:+ sub_path s.

(** src/crates/weave-graph-cli/src/contracts.rs:488-503 [SubmoduleDrift] *)
Inductive SubmoduleDrift :=
  | NoBaseline (current_map : ContractMap)
  | Unchanged
  | Drifted (in_scope out_of_scope : ContractDiff ContractEntry) (current_map : ContractMap).

(** src/crates/weave-graph-cli/src/contracts.rs:505-536 [submodule_drift]
    [imported] is {!submodule_imported_symbols} of the parent's graph. *)
Definition submodule_drift (consumer_label : string) (s : Submodule) (current_map : ContractMap)
    (imported : gset string) (db : Db) : result SubmoduleDrift StorageError :=
  let? expectations := contract_expectations db consumer_label in
  match list_find (λ e : string * string * string * string, e.1.1.1 = submodule_provider_label s) expectations with
  | None => Ok (NoBaseline current_map)
  | Some (_, (_, expected_hash, _, expected_blob)) =>
      if decide (contract_hash_of current_map = expected_hash) then Ok Unchanged else
      let diff := diff_contracts (deserialize_entries expected_blob) current_map entry_key in
      let '(in_scope, out_of_scope) := partition_by_scope diff imported in
      Ok (Drifted in_scope out_of_scope current_map)
  end.

(** src/crates/weave-graph-cli/src/contracts.rs:541-558 [record_submodule_expectation] *)
Definition record_submodule_expectation (consumer_label : string) (s : Submodule) (map : ContractMap)
    (current_sha : option string) (db : Db) : Db * result () StorageError :=
  upsert_contract db consumer_label (submodule_provider_label s) (contract_hash_of map)
    (match current_sha with Some x => x | None => "uncommitted" end) (serialize_entries map).

(** What one run sees of a submodule. *)
Record submodule_view := mkView {
  view_sub : Submodule;
  view_state : SubmoduleState;
  view_map : ContractMap;
  view_imported : gset string;
  view_sha : option string;
}.

Definition recorded (blocks : bool) (r : Db * result () StorageError) : Db * result bool StorageError :=
  (r.1, result_map (λ _, blocks) r.2).

(** src/crates/weave-graph-cli/src/contracts.rs:588-633 [cmd_check_contracts_submodules]
    One submodule: the database afterwards and whether it blocks. *)
Definition check_submodule (consumer_label : string) (db : Db) (v : submodule_view) : Db * result bool StorageError :=
  match view_state v with
  | Dirty | Uninitialized => (db, Ok true)
  | Clean | Bumped =>
      match submodule_drift consumer_label (view_sub v) (view_map v) (view_imported v) db with
      | Err e => (db, Err e)
      | Ok (NoBaseline current_map) =>
          recorded false (record_submodule_expectation consumer_label (view_sub v) current_map (view_sha v) db)
      | Ok Unchanged => (db, Ok false)
      | Ok (Drifted in_scope _ current_map) =>
          recorded (negb (diff_is_empty in_scope))
            (record_submodule_expectation consumer_label (view_sub v) current_map (view_sha v) db)
      end
  end.

Inductive submodule_error := Blocking (names : list string) | Failed (e : StorageError).

(** src/crates/weave-graph-cli/src/contracts.rs:579-645 [cmd_check_contracts_submodules] *)
Definition cmd_check_contracts_submodules (consumer_label : string) (views : list submodule_view) (db : Db) :
    Db * result () submodule_error :=
  match try_loop (check_submodule consumer_label) views db with
  | (db, Err e) => (db, Err (Failed e))
  | (db, Ok blocks) =>
      match omap (λ p : bool * submodule_view, if p.1 then Some (sub_name (view_sub p.2)) else None)
              (zip blocks views) with
      | [] => (db, Ok ())
      | names => (db, Err (Blocking names))
      end
  end.
End hash.

(** ** The scope of a check *)

(** src/crates/weave-graph-cli/src/contracts.rs:182-203 [imported_symbols]
    Over the nodes and edges of the federated graph. *)
Definition imported_symbols_of (provider_label : string) (nodes : list Node) (edges : list Edge) : gset string :=
  foldl (λ imported e,
    if decide (edge_kind e ≠ "CROSS_REPO") then imported else
    match last (filter (λ n, node_id n = target_id e) nodes) with
    | Some target => if decide (node_repo_id target = provider_label) then {[node_symbol target]} ∪ imported else imported
    | None => imported
    end) ∅ edges.

(** src/crates/weave-graph-cli/src/contracts.rs:462-482 [submodule_imported_symbols] *)
Definition submodule_imported_symbols (s : Submodule) (nodes : list Node) (edges : list Edge) : gset string :=
  let prefix := trim_end_by (λ a, bool_decide (a = "/"%char)) (sub_path s) +:+ "/" in
  foldl (λ imported e,
    match last (filter (λ n, node_id n = source_id e) nodes), last (filter (λ n, node_id n = target_id e) nodes) with
    | Some source, Some target =>
        if negb (starts_with (node_path source) prefix) && starts_with (node_path target) prefix
        then {[node_symbol target]} ∪ imported else imported
    | _, _ => imported
    end) ∅ edges.
