(* ===== verification/ContractProofs.v ===== *)
(** * Correctness of the contract checks

    The recorded snapshot reads back, the hash and the symbol-level diff agree,
    and the gate fails exactly on the divergences it should. *)

From S2P Require Import Prelude Str Model SqlStore Language Interner ProjectIndex Contract.

(** ** Maps collected from lists *)

Lemma collect_list_to_map {V} (l : list (string * V)) : collect l = list_to_map (reverse l).
Proof.
  unfold collect. induction l as [|[k v] l IH] using rev_ind; [done|].
  by rewrite foldl_app, reverse_app, IH.
Qed.

Lemma collect_map_to_list {V} (l : list (string * V)) m : l ≡ₚ map_to_list m → collect l = m.
Proof.
  intros Hl. rewrite collect_list_to_map, <- (list_to_map_to_list m). symmetry.
  apply list_to_map_proper; [apply NoDup_fst_map_to_list|]. rewrite reverse_Permutation. by symmetry.
Qed.

Lemma collect_lookup {V} (l : list (string * V)) k v : collect l !! k = Some v → (k, v) ∈ l.
Proof. rewrite collect_list_to_map. intros H. apply elem_of_list_to_map_2 in H. by rewrite elem_of_reverse in H. Qed.

(** Lists that decode to the bindings of a map carry the map. *)
Lemma omap_decode {A B} (enc : A → B) (dec : B → option A) (l : list A) :
  (∀ x, x ∈ l → dec (enc x) = Some x) → omap dec (enc <$> l) = l.
Proof.
  induction l as [|x l IH]; intros H; [done|]. cbn. rewrite H by left. f_equal. apply IH. intros y Hy.
  apply H. by right.
Qed.

Lemma list_nil_elem {A} (l : list A) : (∀ x, x ∉ l) → l = [].
Proof. destruct l as [|x l]; [done|]. intros H. destruct (H x). left. Qed.

(** ** Diffs *)

Section diff.
Context {V K : Type} `{EqDecision K} (contract_key : V → K).
Implicit Types expected actual : gmap string V.

Definition by_symbol {X} (sym : X → string) (a b : X) : bool := String.leb (sym a) (sym b).

Lemma sort_by_symbol {X} (sym : X → string) l :
  StronglySorted (λ a b, by_symbol sym a b = true) (sort_by (by_symbol sym) l).
Proof.
  apply sort_by_sorted_key; unfold by_symbol; intros *; [apply ordb_total|apply ordb_trans].
Qed.

Lemma elem_of_added expected actual s e :
  (s, e) ∈ added (diff_contracts expected actual contract_key) ↔ expected !! s = None ∧ actual !! s = Some e.
Proof.
  cbn. rewrite elem_of_sort_by, list_elem_of_omap. setoid_rewrite elem_of_map_to_list'. split.
  - intros ([s' e'] & Ha & H). cbn in *. destruct (expected !! s') eqn:He; by simplify_eq.
  - intros [He Ha]. exists (s, e). cbn. by rewrite He.
Qed.

Lemma elem_of_removed expected actual s e :
  (s, e) ∈ removed (diff_contracts expected actual contract_key) ↔ expected !! s = Some e ∧ actual !! s = None.
Proof. cbn. rewrite elem_of_sort_by, list_elem_of_filter, elem_of_map_to_list. naive_solver. Qed.

Lemma elem_of_changed expected actual s e e' :
  (s, e, e') ∈ changed (diff_contracts expected actual contract_key) ↔
  expected !! s = Some e ∧ actual !! s = Some e' ∧ contract_key e ≠ contract_key e'.
Proof.
  cbn. rewrite elem_of_sort_by, list_elem_of_omap. setoid_rewrite elem_of_map_to_list'. split.
  - intros ([s' x] & Ha & H). cbn in *. destruct (expected !! s') eqn:He; [|done].
    case_decide; [|done]. by simplify_eq.
  - intros (He & Ha & Hk). exists (s, e'). cbn. rewrite He. by rewrite decide_True.
Qed.

Lemma diff_is_empty_nil (d : ContractDiff V) : diff_is_empty d = true ↔ added d = [] ∧ removed d = [] ∧ changed d = [].
Proof. unfold diff_is_empty. destruct (added d), (removed d), (changed d); naive_solver. Qed.

(** The diff is empty exactly when the two snapshots agree on every symbol's key. *)
Lemma diff_is_empty_iff expected actual :
  diff_is_empty (diff_contracts expected actual contract_key) = true ↔
  contract_key <$> expected = contract_key <$> actual.
Proof.
  rewrite diff_is_empty_nil, map_eq_iff. setoid_rewrite lookup_fmap. split.
  - intros (Ha & Hr & Hc) s.
    destruct (expected !! s) as [e|] eqn:He, (actual !! s) as [a|] eqn:Hac; cbn; [|exfalso..|done].
    + destruct (decide (contract_key e = contract_key a)) as [->|Hne]; [done|].
      pose proof (proj2 (elem_of_changed expected actual s e a) (conj He (conj Hac Hne))) as H.
      rewrite Hc in H. by apply elem_of_nil in H.
    + pose proof (proj2 (elem_of_removed expected actual s e) (conj He Hac)) as H.
      rewrite Hr in H. by apply elem_of_nil in H.
    + pose proof (proj2 (elem_of_added expected actual s a) (conj He Hac)) as H.
      rewrite Ha in H. by apply elem_of_nil in H.
  - intros Heq. repeat split; apply list_nil_elem.
    + intros [s e] [He Ha]%elem_of_added. specialize (Heq s). by rewrite He, Ha in Heq.
    + intros [s e] [He Ha]%elem_of_removed. specialize (Heq s). by rewrite He, Ha in Heq.
    + intros [[s e] a] (He & Ha & Hne)%elem_of_changed. specialize (Heq s). rewrite He, Ha in Heq.
      cbn in Heq. congruence.
Qed.
End diff.

(** ** Well-formed snapshots *)

Definition clean (s : string) : Prop := no_char "010"%char s ∧ no_char unit_separator s.
Definition no_space (s : string) : Prop := no_char " "%char s.

(** What the serialised form needs of a binding. *)
Definition entry_wf (p : string * ContractEntry) : Prop :=
  let '(symbol, (kind, signature, path, line)) := p in
  clean symbol ∧ clean kind ∧ clean signature ∧ clean path ∧ (line ≤ 4294967295)%N.

(** What the canonical line needs of a symbol, a kind and a signature. *)
Definition line_wf (p : string * (string * string)) : Prop :=
  let '(symbol, (kind, signature)) := p in
  no_space symbol ∧ no_space kind ∧ trim signature = signature ∧
  no_char "010"%char symbol ∧ no_char "010"%char kind ∧ no_char "010"%char signature.

Definition map_wf (m : ContractMap) : Prop := map_Forall (λ s e, entry_wf (s, e) ∧ line_wf (s, entry_key e)) m.

(** ** The snapshot reads back *)

Lemma parse_entry_line p : entry_wf p → parse_entry (entry_line p) = Some p.
Proof.
  destruct p as [symbol [[[kind signature] path] line]]. cbn -[dec]. intros ((_ & Hs) & (_ & Hk) & (_ & Hg) & (_ & Hp) & Hl).
  unfold parse_entry, us. repeat (rewrite split_once_no_char by done; cbn [mbind option_bind]).
  by rewrite parse_uint_dec.
Qed.

Lemma entry_line_no_newline p : entry_wf p → no_char "010"%char (entry_line p).
Proof.
  destruct p as [symbol [[[kind signature] path] line]]. cbn -[dec]. intros ((? & _) & (? & _) & (? & _) & (? & _) & _).
  pose proof (digits_no_char "010"%char (dec line) eq_refl (dec_all_digits line)).
  by repeat (rewrite no_char_append || rewrite no_char_cons).
Qed.

Lemma entry_line_tail p : ∃ a n, entry_line p = a +:+ dec n.
Proof.
  destruct p as [symbol [[[kind signature] path] line]].
  exists (symbol +:+ us +:+ kind +:+ us +:+ signature +:+ us +:+ path +:+ us), line. unfold entry_line. by rewrite !append_assoc.
Qed.

Lemma entry_line_no_cr p : strip_suffix (String "013"%char "") (entry_line p) = None.
Proof.
  destruct (strip_suffix _ _) as [r|] eqn:H; [|done]. apply strip_suffix_Some in H.
  destruct (entry_line_tail p) as (a & n & Ha). rewrite Ha in H.
  apply append_last in H as [s' Hs]; [|apply dec_nonempty].
  pose proof (dec_all_digits n) as Hd. rewrite Hs, str_all_append in Hd. by rewrite andb_false_r in Hd.
Qed.

Lemma entry_line_nonempty p : entry_line p ≠ "".
Proof.
  destruct (entry_line_tail p) as (a & n & ->). intros H. pose proof (dec_nonempty n).
  by destruct a, (dec n).
Qed.

Lemma lines_join l :
  Forall (no_char "010"%char) l → Forall (λ s, s ≠ "" ∧ strip_suffix (String "013"%char "") s = None) l →
  lines (join newline l) = l.
Proof.
  intros Hn Hl. unfold lines, newline. destruct l as [|x l']; [done|]. remember (x :: l') as l eqn:Hxl.
  rewrite split_char_join by (done || by subst).
  clear -Hl. induction Hl as [|y k [Hne Hy] _ IH]; [done|]. cbn [unterminate]. rewrite Hy, IH. by destruct k, y.
Qed.

(** The blob of a snapshot decodes to the snapshot. *)
Lemma deserialize_serialize m : map_Forall (λ s e, entry_wf (s, e)) m → deserialize_entries (serialize_entries m) = m.
Proof.
  intros Hwf. unfold deserialize_entries, serialize_entries.
  assert (∀ p, p ∈ map_to_list m → entry_wf p) as Hall.
  { intros [s e] H%elem_of_map_to_list. by apply Hwf. }
  rewrite lines_join.
  - apply collect_map_to_list. rewrite sort_by_perm. rewrite omap_decode; [done|].
    intros p Hp. by apply parse_entry_line, Hall.
  - apply Forall_forall. intros s Hs. rewrite elem_of_sort_by in Hs. apply list_elem_of_fmap in Hs as (p & -> & Hp).
    by apply entry_line_no_newline, Hall.
  - apply Forall_forall. intros s Hs. rewrite elem_of_sort_by in Hs. apply list_elem_of_fmap in Hs as (p & -> & Hp).
    split; [apply entry_line_nonempty|apply entry_line_no_cr].
Qed.

(** ** The hash determines the contract *)

Lemma hex_digit_inj n m : (n < 16)%N → (m < 16)%N → hex_digit n = hex_digit m → n = m.
Proof.
  unfold hex_digit. intros Hn Hm H. apply (f_equal N_of_ascii) in H.
  destruct (N.ltb_spec n 10), (N.ltb_spec m 10); rewrite !N_ascii_embedding in H by lia; lia.
Qed.

Lemma to_hex_inj s t : to_hex s = to_hex t → s = t.
Proof.
  revert t; induction s as [|a s IH]; intros [|b t] H; try done. cbn [to_hex] in H.
  injection H as H1 H2 H3. pose proof (byte_lt a). pose proof (byte_lt b).
  apply hex_digit_inj in H1; [|apply N.Div0.div_lt_upper_bound; lia..].
  apply hex_digit_inj in H2; [|apply N.mod_lt; lia..].
  f_equal; [|by apply IH]. apply byte_inj.
  rewrite (N.div_mod (byte a) 16), (N.div_mod (byte b) 16) by lia. by rewrite H1, H2.
Qed.

Lemma hash_input_inj l k :
  Forall (no_char "010"%char) l → Forall (no_char "010"%char) k → hash_input l = hash_input k → l = k.
Proof.
  intros Hl. revert k. induction Hl as [|x l Hx _ IH]; intros [|y k] Hk H; [done|..].
  - by destruct y.
  - by destruct x.
  - apply Forall_cons in Hk as [Hy Hk]. cbn [hash_input foldr] in H.
    apply split_at_char in H as [-> H]; [|done..]. f_equal. by apply IH.
Qed.

(** Reading a canonical line back. *)
Definition decode_line (l : string) : option (string * (string * string)) :=
  '(kind, r) ← split_once l " ";
  '(symbol, r) ← split_once r " ";
  signature ← strip_prefix ":: " r;
  Some (symbol, (kind, signature)).

Definition key_line (p : string * (string * string)) : string := canonical_line p.1 p.2.1 p.2.2.

Lemma decode_key_line p : line_wf p → decode_line (key_line p) = Some p.
Proof.
  destruct p as [symbol [kind signature]]. intros (Hs & Hk & Ht & _).
  unfold key_line, canonical_line, decode_line. cbn [fst snd]. rewrite Ht.
  change (" " +:+ symbol +:+ " :: " +:+ signature) with (String " " (symbol +:+ String " " (":: " +:+ signature))).
  do 2 (rewrite split_once_no_char by done; cbn [mbind option_bind]).
  by rewrite (proj2 (strip_prefix_Some ":: " _ signature) eq_refl).
Qed.

Lemma key_line_no_newline p : line_wf p → no_char "010"%char (key_line p).
Proof.
  destruct p as [symbol [kind signature]]. intros (_ & _ & Ht & ? & ? & ?).
  unfold key_line, canonical_line. cbn [fst snd]. rewrite Ht. by rewrite !no_char_append.
Qed.

Lemma map_to_list_fmap_perm {A B} (f : A → B) (m : gmap string A) :
  map_to_list (f <$> m) ≡ₚ prod_map id f <$> map_to_list m.
Proof. by rewrite map_to_list_fmap. Qed.

Lemma contract_lines_key m : contract_lines m = sort_by String.leb (key_line <$> map_to_list (entry_key <$> m)).
Proof.
  apply sort_by_unique; [apply _|apply sort_by_sorted, _|]. rewrite sort_by_perm, map_to_list_fmap_perm.
  by rewrite <- list_fmap_compose.
Qed.

Lemma contract_lines_decode m :
  map_Forall (λ s k, line_wf (s, k)) (entry_key <$> m) →
  collect (omap decode_line (contract_lines m)) = entry_key <$> m.
Proof.
  intros Hwf. apply collect_map_to_list. rewrite contract_lines_key, sort_by_perm.
  rewrite omap_decode; [done|]. intros [s k] H%elem_of_map_to_list. by apply decode_key_line, Hwf.
Qed.

Lemma contract_lines_no_newline m :
  map_Forall (λ s k, line_wf (s, k)) (entry_key <$> m) → Forall (no_char "010"%char) (contract_lines m).
Proof.
  intros Hwf. apply Forall_forall. intros l Hl. rewrite contract_lines_key, elem_of_sort_by in Hl.
  apply list_elem_of_fmap in Hl as ([s k] & -> & H%elem_of_map_to_list). by apply key_line_no_newline, Hwf.
Qed.

Lemma map_wf_lines m : map_wf m → map_Forall (λ s k, line_wf (s, k)) (entry_key <$> m).
Proof. intros H s k Hk. apply lookup_fmap_Some in Hk as (e & <- & He). by apply H. Qed.

Lemma map_wf_entries m : map_wf m → map_Forall (λ s e, entry_wf (s, e)) m.
Proof. intros H s e He. by apply H. Qed.

Section hash.
Context (sha256 : string → string).

(** Two different texts with one digest. *)
Definition collision (x y : string) : Prop := x ≠ y ∧ sha256 x = sha256 y.

Lemma contract_hash_of_iff m1 m2 :
  map_wf m1 → map_wf m2 →
  ¬ collision (hash_input (contract_lines m1)) (hash_input (contract_lines m2)) →
  contract_hash_of sha256 m1 = contract_hash_of sha256 m2 ↔ entry_key <$> m1 = entry_key <$> m2.
Proof.
  intros H1%map_wf_lines H2%map_wf_lines Hc. unfold contract_hash_of, hash_entries. split.
  - intros Heq%to_hex_inj.
    destruct (decide (hash_input (contract_lines m1) = hash_input (contract_lines m2))) as [Hi|Hne]; [|by destruct Hc].
    apply hash_input_inj in Hi; [|by apply contract_lines_no_newline..].
    by rewrite <- (contract_lines_decode m1 H1), <- (contract_lines_decode m2 H2), Hi.
  - intros Hk. by rewrite !contract_lines_key, Hk.
Qed.
End hash.

(** ** Snapshots of parsed files are well-formed *)

Lemma trim_clean s : clean s → clean (trim s).
Proof. intros [? ?]. by split; apply trim_end_by_no_char, trim_start_by_no_char. Qed.

(** What the extractor gives: declarations and paths on one line, symbols in
    one word. *)
Definition card_wf (c : WiringCard) : Prop :=
  clean (card_symbol c) ∧ no_space (card_symbol c) ∧ clean (card_signature c) ∧ (card_line_start c ≤ 4294967295)%N.

Definition files_wf (files : list (string * ParsedFile)) : Prop :=
  Forall (λ f, clean f.1 ∧ Forall card_wf (symbols f.2)) files.

Lemma symbol_kind_clean k : clean (symbol_kind_str k) ∧ no_space (symbol_kind_str k).
Proof. by destruct k. Qed.

Lemma exported_entry_wf l file s e path :
  Forall card_wf (symbols file) → clean path → exported_entries_map l file !! s = Some e →
  entry_wf (s, enrich path e) ∧ line_wf (s, entry_key (enrich path e)).
Proof.
  intros Hf Hp He. apply collect_lookup, list_elem_of_fmap in He as (c & [= -> ->] & Hc).
  apply list_elem_of_filter in Hc as [_ Hc]. rewrite Forall_forall in Hf.
  destruct (Hf c Hc) as (? & ? & Hsig%trim_clean & ?). destruct (symbol_kind_clean (card_kind c)).
  unfold entry_wf, line_wf, entry_key, enrich, clean in *. cbn [fst snd]. rewrite trim_idem.
  destruct_and!. by repeat split.
Qed.

Lemma repo_contract_map_wf files : files_wf files → map_wf (repo_contract_map files).
Proof.
  unfold repo_contract_map. intros Hf. assert (map_wf ∅) as H by (by intros s e ?).
  revert H. generalize (∅ : ContractMap). induction Hf as [|[path file] files [Hp Hc] _ IH]; intros m Hm; [done|].
  cbn. apply IH. destruct (from_path path) as [l|]; [|done].
  assert (∀ x, x ∈ map_to_list (exported_entries_map l file) → exported_entries_map l file !! x.1 = Some x.2) as Hall.
  { intros [s e] Hx. by apply elem_of_map_to_list in Hx. }
  revert m Hm Hall. generalize (map_to_list (exported_entries_map l file)).
  intros es. induction es as [|[s e] es IHes]; intros m Hm Hall; [done|]. cbn. apply IHes.
  - apply map_Forall_insert_2; [|done]. apply (exported_entry_wf l file); [done..|].
    apply (Hall (s, e)). left.
  - intros x Hx. apply Hall. by right.
Qed.

(** ** What is exported *)

(** The declarations of a file the language shows to others, in order. *)
Definition exports_of (f : string * ParsedFile) : list (string * (string * string)) :=
  match from_path f.1 with
  | None => []
  | Some l => (λ c, (card_symbol c, (symbol_kind_str (card_kind c), trim (card_signature c)))) <$>
      filter (λ c, visibility_rule l (trim (card_signature c)) (short_name (card_symbol c)) = true) (symbols f.2)
  end.
(** The kind and signature a symbol is exported with: those of its last declaration. *)
Definition exported_decl (files : list (string * ParsedFile)) (s : string) : option (string * string) :=
  snd <$> last (filter (λ d, d.1 = s) (files ≫= exports_of)).

Lemma foldl_insert_last {V W} (g : V → W) (l : list (string * V)) s : ∀ m : gmap string W,
  foldl (λ m x, <[x.1 := g x.2]> m) m l !! s =
  match last (filter (λ x, x.1 = s) l) with Some x => Some (g x.2) | None => m !! s end.
Proof.
  induction l as [|x l IH]; intros m; cbn [foldl]; [done|]. rewrite IH, filter_cons. case_decide as Hx.
  - rewrite last_cons. destruct (last _); [done|]. by rewrite Hx, lookup_insert_eq.
  - destruct (last _); [done|]. by rewrite lookup_insert_ne.
Qed.
Lemma last_map_to_list {V} (m : gmap string V) s : last (filter (λ x, x.1 = s) (map_to_list m)) = (s,.) <$> m !! s.
Proof.
  destruct (last _) as [[k v]|] eqn:Hl.
  - apply last_Some_elem_of, list_elem_of_filter in Hl as [Hk Hv%elem_of_map_to_list]. cbn in Hk. subst k. by rewrite Hv.
  - apply last_None in Hl. destruct (m !! s) as [v|] eqn:Hv; [|done]. exfalso. apply elem_of_map_to_list in Hv.
    apply (not_elem_of_nil (s, v)). rewrite <-Hl. by apply list_elem_of_filter.
Qed.
Lemma last_filter_fmap {A B} (g : A → B) (P : B → Prop) `{∀ b, Decision (P b)} l :
  last (filter P (g <$> l)) = g <$> last (filter (λ a, P (g a)) l).
Proof.
  induction l as [|a l IH]; [reflexivity|]. rewrite fmap_cons, !filter_cons. case_decide; [|exact IH].
  rewrite !last_cons, IH. match goal with |- context [g <$> ?o] => by destruct o end.
Qed.

Lemma file_entries_decl l path file s :
  entry_key ∘ enrich path <$> exported_entries_map l file !! s =
  snd <$> last (filter (λ d, d.1 = s) ((λ c, (card_symbol c, (symbol_kind_str (card_kind c), trim (card_signature c)))) <$>
      filter (λ c, visibility_rule l (trim (card_signature c)) (short_name (card_symbol c)) = true) (symbols file))).
Proof.
  unfold exported_entries_map. change (collect ?l) with (foldl (λ (m : gmap string ExportedEntry) x, <[x.1 := id x.2]> m) ∅ l).
  rewrite foldl_insert_last, !last_filter_fmap, lookup_empty. cbn [fst]. by destruct (last _).
Qed.
Lemma repo_map_decl files s : entry_key <$> repo_contract_map files !! s = exported_decl files s.
Proof.
  unfold repo_contract_map, exported_decl.
  enough (∀ m : ContractMap, entry_key <$> foldl (λ m p, match from_path p.1 with
      | None => m
      | Some l => foldl (λ m x, <[x.1 := enrich p.1 x.2]> m) m (map_to_list (exported_entries_map l p.2)) end) m files !! s =
    match last (filter (λ d, d.1 = s) (files ≫= exports_of)) with Some d => Some d.2 | None => entry_key <$> m !! s end) as Hall.
  { rewrite Hall. by destruct (last _). }
  induction files as [|[path file] files IH]; intros m; [done|]. cbn [foldl mbind list_bind fst snd]. rewrite IH, filter_app, last_app.
  destruct (last (filter _ (files ≫= exports_of))); [done|]. unfold exports_of. cbn [fst snd].
  destruct (from_path path) as [l|]; [|done]. rewrite (foldl_insert_last (enrich path)), last_map_to_list.
  pose proof (file_entries_decl l path file s) as Hd. revert Hd.
  generalize (last (filter (λ d : string * (string * string), d.1 = s) (((λ c, (card_symbol c, (symbol_kind_str (card_kind c), trim (card_signature c))))) <$>
      filter (λ c, visibility_rule l (trim (card_signature c)) (short_name (card_symbol c)) = true) (symbols file)))) as o.
  intros o Hd. destruct (exported_entries_map l file !! s), o; cbn in *; unfold compose in Hd; solve [congruence | reflexivity].
Qed.

(** ** The table of expectations *)

Lemma list_find_only {A} (P : A → Prop) `{∀ x, Decision (P x)} (l : list A) x :
  x ∈ l → P x → (∀ y, y ∈ l → P y → y = x) → ∃ i, list_find P l = Some (i, x).
Proof.
  intros Hx HP Honly. destruct (list_find P l) as [[i y]|] eqn:Hf.
  - apply list_find_Some in Hf as (Hl & HPy & _). exists i. by rewrite (Honly y (list_elem_of_lookup_2 _ _ _ Hl) HPy).
  - apply list_find_None in Hf. rewrite Forall_forall in Hf. by destruct (Hf x).
Qed.

(** What a consumer reads back after an upsert: the new row, whatever the order
    of the rows. *)
Lemma expectations_upsert `{SqliteLaws} db a b h s bl :
  ∃ exps i, contract_expectations (upsert_contract db a b h s bl).1 a = Ok exps ∧
    list_find (λ e : string * string * string * string, e.1.1.1 = b) exps = Some (i, (b, h, s, bl)).
Proof.
  unfold contract_expectations, upsert_contract. cbn. eexists.
  match goal with |- context [select_order ?l] => set (rs := l) end.
  destruct (list_find_only (λ e : string * string * string * string, e.1.1.1 = b) (select_order rs) (b, h, s, bl)) as [i Hi].
  - rewrite select_order_perm. unfold rs. rewrite list_elem_of_omap. eexists. split; [apply elem_of_app; right; left|].
    cbn. by rewrite decide_True.
  - done.
  - intros e He Hb. rewrite select_order_perm in He. unfold rs in He. apply list_elem_of_omap in He as (c & Hc & Hce).
    destruct (contract_hash c) as [h'|] eqn:Hh; cbn in Hce; [|done]. case_decide as Ha; [|done]. injection Hce as <-. cbn in Hb.
    apply elem_of_app in Hc as [Hc|Hc].
    + apply list_elem_of_filter in Hc as [Hc _]. by destruct Hc.
    + apply list_elem_of_singleton in Hc as ->. cbn in *. by simplify_eq.
  - by exists i.
Qed.

(** ** Scope *)

Lemma filter_nil_iff {A} (P : A → Prop) `{∀ x, Decision (P x)} (l : list A) : filter P l = [] ↔ ∀ x, x ∈ l → ¬ P x.
Proof.
  split.
  - intros Hn x Hx HP. assert (x ∈ filter P l) as Hf by by apply list_elem_of_filter. rewrite Hn in Hf.
    by apply elem_of_nil in Hf.
  - intros Hall. apply list_nil_elem. intros x [HP Hx]%list_elem_of_filter. by apply (Hall x).
Qed.

(** The blocking part is empty exactly when the imported symbols are untouched. *)
Lemma partition_blocking_empty (m0 m1 : ContractMap) (imported : gset string) :
  diff_is_empty (partition_by_scope (diff_contracts m0 m1 entry_key) imported).1 = true ↔
  ∀ s, s ∈ imported → entry_key <$> m0 !! s = entry_key <$> m1 !! s.
Proof.
  unfold ContractMap in *. rewrite diff_is_empty_nil. cbn [partition_by_scope fst added removed changed]. rewrite !filter_nil_iff. split.
  - intros (Ha & Hr & Hc) s Hs.
    destruct (m0 !! s) as [e|] eqn:He, (m1 !! s) as [a|] eqn:Hac; cbn; [|exfalso..|done].
    + destruct (decide (entry_key e = entry_key a)) as [->|Hne]; [done|].
      by destruct (Hc (s, e, a)); [by apply elem_of_changed|].
    + by destruct (Hr (s, e)); [by apply elem_of_removed|].
    + by destruct (Ha (s, a)); [by apply (elem_of_added entry_key)|].
  - intros Heq. split_and!.
    + intros [s e] Hd Hs. apply (elem_of_added entry_key) in Hd as [He Ha]. specialize (Heq s Hs).
      by rewrite He, Ha in Heq.
    + intros [s e] Hd Hs. apply elem_of_removed in Hd as [He Ha]. specialize (Heq s Hs). by rewrite He, Ha in Heq.
    + intros [[s e] a] Hd Hs. apply elem_of_changed in Hd as (He & Ha & Hne). specialize (Heq s Hs).
      rewrite He, Ha in Heq. cbn in Heq. congruence.
Qed.

(** ** Checking what was linked *)

(** The drift a scoped check lets through: no imported symbol differs. *)
Definition out_of_scope (p : provider) (m0 m1 : ContractMap) : bool :=
  match imported_symbols p with
  | Some imported => bool_decide (∀ s, s ∈ imported → entry_key <$> m0 !! s = entry_key <$> m1 !! s)
  | None => false
  end.

Definition waived (w : CheckContractsWaiver) (repos : gset string) (label : string) : bool :=
  allow_drift w || bool_decide (allow_drift_for w = Some label) || bool_decide (label ∈ repos).

Section check.
Context {engine : Sqlite} {laws : SqliteLaws} (sha256 : string → string).

(** The outcome over the two contract maps. *)
Lemma check_after_link consumer p db w repos scoped m0 sha cur :
  map_wf m0 → map_wf (repo_contract_map (provider_files p)) →
  ¬ collision sha256 (hash_input (contract_lines (repo_contract_map (provider_files p)))) (hash_input (contract_lines m0)) →
  let m1 := repo_contract_map (provider_files p) in
  ∃ exps, contract_expectations (record_one_side sha256 consumer (provider_label p) m0 sha cur db).1 consumer = Ok exps ∧
  check_provider sha256 scoped w repos exps p =
  if decide (entry_key <$> m1 = entry_key <$> m0) then UpToDate
  else if scoped && out_of_scope p m0 m1 then OutOfScope
  else if waived w repos (provider_label p) then WaivedDrift else Diverged.
Proof.
  intros Hwf0 Hwf1 Hc m1. unfold check_provider, record_one_side.
  match goal with |- context [upsert_contract db ?a ?b ?h ?s ?bl] =>
    destruct (expectations_upsert db a b h s bl) as (exps & i & Hexps & Hfind) end.
  exists exps. split; [exact Hexps|]. rewrite Hfind. fold m1. pose proof (contract_hash_of_iff sha256 m1 m0 Hwf1 Hwf0 Hc) as Hhash.
  case_decide as Hh; case_decide as Hk; [done|by apply Hhash in Hh|by destruct Hh; apply Hhash|].
  rewrite deserialize_serialize by by apply map_wf_entries.
  assert (diff_is_empty (diff_contracts m0 m1 entry_key) = false) as Hd.
  { apply not_true_iff_false. rewrite diff_is_empty_iff. intros Heq. by destruct Hk. }
  unfold out_of_scope. destruct scoped; cbn [andb]; [|reflexivity].
  destruct (imported_symbols p) as [imported|]; [|by rewrite Hd].
  pose proof (partition_blocking_empty m0 m1 imported) as Hp.
  destruct (partition_by_scope _ _) as [blocking rest]. cbn [fst] in Hp.
  assert (bool_decide (∀ s, s ∈ imported → entry_key <$> m0 !! s = entry_key <$> m1 !! s) = diff_is_empty blocking) as ->.
  { apply eq_true_iff_eq. by rewrite bool_decide_eq_true, Hp. }
  by destruct (diff_is_empty blocking).
Qed.


Lemma check_provider_waived scoped w repos expectations p :
  check_provider sha256 scoped w repos expectations p = WaivedDrift → waived w repos (provider_label p) = true.
Proof.
  unfold check_provider. fold (waived w repos (provider_label p)).
  destruct (waived w repos (provider_label p)); [done|]. intros Hw. by repeat case_match.
Qed.

Lemma waived_cases w repos label :
  waived w repos label = true →
  allow_drift w || bool_decide (is_Some (allow_drift_for w)) = true ∨ repos ≠ ∅.
Proof.
  unfold waived. rewrite !orb_true_iff, !bool_decide_eq_true. intros [[H|H]|H]; [by left; left| |].
  - left. right. by rewrite H.
  - right. intros ->. by apply elem_of_empty in H.
Qed.

Lemma require_reason_Ok o r : require_reason o = Ok r → ∃ x, o = Some x ∧ trim x ≠ "".
Proof.
  unfold require_reason. destruct o as [x|]; cbn -[trim]; [|done].
  destruct (trim x) eqn:Hx; cbn; [done|]. intros _. exists x. by rewrite Hx.
Qed.

(** The end of the check, once the waivers are accepted. *)
Lemma gate_tail (linked : list provider) outcomes policy w (A : list outcome → Prop) (B P : Prop) (Q : string → Prop) :
  (WaivedDrift ∈ outcomes → B) →
  match
    match linked with
    | [] => Err "No linked repos in .weave/config.toml"
    | _ =>
        if bool_decide (Diverged ∈ outcomes) && bool_decide (effective_policy w policy = "strict") && negb (warn_only w)
        then Err "Contract divergence detected under staleness_policy = strict"
        else Ok outcomes
    end
  with
  | Ok outs =>
      A outs ∨ (linked ≠ [] ∧ outs = outcomes ∧
       (effective_policy w policy = "strict" → warn_only w = false → Diverged ∉ outcomes) ∧
       (WaivedDrift ∈ outcomes → B))
  | Err e =>
      P ∨ Q e ∨ linked = [] ∨ (effective_policy w policy = "strict" ∧ warn_only w = false ∧ Diverged ∈ outcomes)
  end.
Proof.
  intros HB. destruct linked as [|p0 ps]; [by right; right; left|].
  destruct (_ && _ && _) eqn:Hg.
  - rewrite !andb_true_iff, !bool_decide_eq_true, negb_true_iff in Hg. do 3 right. tauto.
  - right. split_and!; [done..| |done]. intros Hs Hw Hd.
    rewrite Hw, !bool_decide_true in Hg by done. done.
Qed.

(** The gate of {!cmd_check_contracts}.  A run that passes either was
    skipped by an authorized subject, or checked every linked repository, there
    was at least one, and under the strict policy without [--warn-only] none
    diverged; and whenever it passes with the drift of some repository waived,
    the waiver was authorized, with a reason if it came from a flag.  The run
    fails for divergence only under the strict policy, with a repository that
    diverged unwaived. *)
Theorem check_contracts_gate auth linked policy expectations scoped w :
  let repos := parse_repo_set (allow_drift_repos_env w) in
  let outcomes := check_provider sha256 scoped w repos expectations <$> linked in
  match cmd_check_contracts sha256 auth linked policy expectations scoped w with
  | Ok outs =>
      (is_truthy (skip_env w) = true ∧ auth (as_subject w) = Ok () ∧ outs = []) ∨
      (linked ≠ [] ∧ outs = outcomes ∧
       (effective_policy w policy = "strict" → warn_only w = false → Diverged ∉ outcomes) ∧
       (WaivedDrift ∈ outcomes → auth (as_subject w) = Ok () ∧
          (repos = ∅ → ∃ r, reason w = Some r ∧ trim r ≠ "")))
  | Err e =>
      auth (as_subject w) ≠ Ok () ∨ require_reason (reason w) = Err e ∨ linked = [] ∨
      (effective_policy w policy = "strict" ∧ warn_only w = false ∧ Diverged ∈ outcomes)
  end.
Proof.
  intros repos outcomes. unfold cmd_check_contracts.
  destruct (is_truthy (skip_env w)); [by destruct (auth (as_subject w)) as [[]|e]; cbn; left|].
  fold repos outcomes. destruct (allow_drift w || bool_decide (is_Some (allow_drift_for w))) eqn:Hf.
  - destruct (auth (as_subject w)) as [[]|e] eqn:Ha; cbn [result_bind]; [|by left].
    destruct (require_reason (reason w)) as [r|e] eqn:Hr; cbn [result_bind]; [|by right; left].
    replace (if decide (repos = ∅) then Ok () else Ok ()) with (Ok () : result () string) by by case_decide.
    cbn [result_bind]. apply (gate_tail _ _ _ _ (λ outs, _)). intros _. split; [done|]. intros _. by apply require_reason_Ok in Hr.
  - cbn [result_bind]. case_decide as Hr; cbn [result_bind].
    + apply gate_tail. intros (p & Hp & _)%list_elem_of_fmap. symmetry in Hp.
      apply check_provider_waived, waived_cases in Hp as [?|?]; [congruence|done].
    + destruct (auth (as_subject w)) as [[]|e] eqn:Ha; cbn [result_bind]; [|by left].
      by apply gate_tail.
Qed.
Lemma not_all_imported (m0 m1 : ContractMap) (imported : gset string) :
  ¬ (∀ s, s ∈ imported → entry_key <$> m0 !! s = entry_key <$> m1 !! s) →
  ∃ s, s ∈ imported ∧ entry_key <$> m0 !! s ≠ entry_key <$> m1 !! s.
Proof.
  intros Hall. destruct (decide (set_Exists (λ s, entry_key <$> m0 !! s ≠ entry_key <$> m1 !! s) imported)) as [He|Hno].
  - exact He.
  - destruct Hall. intros s Hs. apply dec_stable. intros Hne. destruct Hno. by exists s.
Qed.

Lemma submodule_drift_recorded consumer sm cur imported m sha db :
  map_wf m →
  submodule_drift sha256 consumer sm cur imported (record_submodule_expectation sha256 consumer sm m sha db).1 =
  Ok (if decide (contract_hash_of sha256 cur = contract_hash_of sha256 m) then Unchanged
      else let p := partition_by_scope (diff_contracts m cur entry_key) imported in Drifted p.1 p.2 cur).
Proof.
  intros Hwf. unfold submodule_drift, record_submodule_expectation.
  match goal with |- context [upsert_contract db ?a ?b ?h ?s ?bl] =>
    destruct (expectations_upsert db a b h s bl) as (exps & i & -> & Hfind) end.
  cbn [result_bind]. rewrite Hfind. rewrite deserialize_serialize by by apply map_wf_entries. by case_decide.
Qed.

(** A clean or bumped submodule whose recorded baseline is the snapshot
    [m0] blocks {!cmd_check_contracts_submodules} exactly when a symbol the
    parent repository calls changed its kind or signature, appeared or
    disappeared since, unless SHA-256 collides on the two texts; the check then
    makes the current snapshot the baseline, so that checking the same
    submodule again neither blocks nor writes. *)
Theorem submodule_check_rolls consumer v m0 sha db :
  map_wf m0 → map_wf (view_map v) → view_state v = Clean ∨ view_state v = Bumped →
  ¬ collision sha256 (hash_input (contract_lines (view_map v))) (hash_input (contract_lines m0)) →
  let db0 := (record_submodule_expectation sha256 consumer (view_sub v) m0 sha db).1 in
  ∃ blocks db1, check_submodule sha256 consumer db0 v = (db1, Ok blocks) ∧
  (blocks = true ↔ ∃ s, s ∈ view_imported v ∧ entry_key <$> m0 !! s ≠ entry_key <$> view_map v !! s) ∧
  check_submodule sha256 consumer db1 v = (db1, Ok false).
Proof.
  intros Hwf0 Hwf1 Hst Hc db0.
  assert (∀ m sha db, map_wf m → contract_hash_of sha256 (view_map v) = contract_hash_of sha256 m →
    let db' := (record_submodule_expectation sha256 consumer (view_sub v) m sha db).1 in
    check_submodule sha256 consumer db' v = (db', Ok false)) as Hsame.
  { intros m sh db' Hwf Hm. unfold check_submodule. rewrite submodule_drift_recorded, decide_True by done.
    by destruct Hst as [-> | ->]. }
  pose proof (contract_hash_of_iff sha256 _ _ Hwf1 Hwf0 Hc) as Hhash.
  destruct (decide (contract_hash_of sha256 (view_map v) = contract_hash_of sha256 m0)) as [Hh|Hh].
  - exists false, db0. split; [by apply Hsame|]. split; [|by apply Hsame]. split; [done|]. intros (s & _ & Hne).
    destruct Hne. apply Hhash in Hh. unfold ContractMap in *. by rewrite <- !lookup_fmap, Hh.
  - exists (negb (diff_is_empty (partition_by_scope (diff_contracts m0 (view_map v) entry_key) (view_imported v)).1)),
      (record_submodule_expectation sha256 consumer (view_sub v) (view_map v) (view_sha v) db0).1.
    split; [|split; [|by apply Hsame]].
    + pose proof (submodule_drift_recorded consumer (view_sub v) (view_map v) (view_imported v) m0 sha db Hwf0) as Hd.
      fold db0 in Hd. rewrite decide_False in Hd by done. unfold check_submodule. rewrite Hd.
      by destruct Hst as [-> | ->].
    + rewrite negb_true_iff, <- not_true_iff_false, partition_blocking_empty. split; [apply not_all_imported|].
      intros (s & Hs & Hne) Hall. by apply Hne, Hall.
Qed.
End check.

(** A dirty inner tree is not seen when the commit also moved. *)
Lemma bumped_hides_dirty c : c = "+"%char ∨ c = "U"%char → submodule_state (Some c) false = submodule_state (Some c) true.
Proof. by intros [-> | ->]. Qed.

(** ** Witnesses *)

Definition pub_card (name sig : string) (line : N) : WiringCard :=
  mkCard ("id " +:+ name) name Function line (line + 2) sig.
Definition linked_files : list (string * ParsedFile) :=
  [("src/a.rs", mkParsed [pub_card "keep" "pub fn keep()" 3; pub_card "grow" "pub fn grow()" 9; pub_card "hid" "fn hid()" 20] [] [])].
Definition checked_files : list (string * ParsedFile) :=
  [("src/b.rs", mkParsed [pub_card "grow" "pub fn grow(n: u32)" 1; pub_card "keep" "pub fn keep()" 40] [] [])].
Definition no_waiver : CheckContractsWaiver := mkWaiver false None false None None None None None.

Lemma id_no_collision x y : ¬ collision (λ s, s) x y.
Proof. by intros [Hne Heq]. Qed.

Lemma sample_files_wf : files_wf linked_files ∧ files_wf checked_files.
Proof. split; repeat first [done | apply Forall_nil_2 | apply Forall_cons_2 | split]. Qed.


Lemma submodule_check_rolls_witness :
  let lib := mkSubmodule "lib" "vendor/lib" in
  let v := mkView lib Clean (repo_contract_map checked_files) {["grow"]} None in
  ∃ db1, check_submodule (λ s, s) "app"
    (record_submodule_expectation (λ s, s) "app" lib (repo_contract_map linked_files) None empty_db).1 v = (db1, Ok true) ∧
  check_submodule (λ s, s) "app" db1 v = (db1, Ok false).
Proof.
  intros lib v.
  destruct (submodule_check_rolls (λ s, s) "app" v (repo_contract_map linked_files) None empty_db
    (repo_contract_map_wf _ (proj1 sample_files_wf)) (repo_contract_map_wf _ (proj2 sample_files_wf))
    (or_introl eq_refl) (id_no_collision _ _)) as (b & db1 & Hc & [_ Hb] & Hs).
  assert (b = true) as Hbt; [|rewrite Hbt in Hc; exists db1; split; [exact Hc|exact Hs]].
  apply Hb. exists "grow". split; [set_solver|by vm_compute].
Defined.
