(* ===== verification/Federation.v ===== *)
(** * Strongly connected components (weave-graph-core: federation.rs)

    Composite keys and the iterative Tarjan search that isolates circular
    dependencies across repositories.  The search is proved to terminate within
    a bound on its rounds and to return exactly the strongly connected
    components of what the given nodes reach. *)

From S2P Require Import Prelude Str.

(** src/crates/weave-graph-core/src/federation.rs:12-14 [composite_key] *)
Definition composite_key (repo_id path symbol : string) : string :=
  repo_id +:+ "::" +:+ path +:+ "::" +:+ symbol.

(** src/crates/weave-graph-core/src/federation.rs:42-49 [TarjanState]
    The stack is kept with its top first. *)
Record TarjanState := mkTarjan {
  index_counter : N;
  index : gmap N N;
  lowlink : gmap N N;
  on_stack : gmap N bool;
  stack : list N;
  scc_result : list (list N);
}.

Definition with_lowlink (st : TarjanState) (l : gmap N N) : TarjanState :=
  mkTarjan (index_counter st) (index st) l (on_stack st) (stack st) (scc_result st).

(** [self.index.get(&w).copied().unwrap_or(u32::MAX)], and for [lowlink]. *)
Definition idx (st : TarjanState) (w : N) : N := default u32_MAX (index st !! w).
Definition low (st : TarjanState) (w : N) : N := default u32_MAX (lowlink st !! w).

(** src/crates/weave-graph-core/src/federation.rs:21-24 [tarjan_scc] *)
Definition adjacency_of (edges : list (N * N)) : gmap N (list N) :=
  foldl (λ m e, <[e.1 := default [] (m !! e.1) ++ [e.2]]> m) ∅ edges.

(** src/crates/weave-graph-core/src/federation.rs:56-63 [TarjanState::strong_connect]
    [None]: the counter overflows. *)
Definition open_node (v : N) (st : TarjanState) : option TarjanState :=
  let v_index := index_counter st in
  if decide (v_index = u32_MAX) then None else
  Some (mkTarjan (v_index + 1) (<[v := v_index]> (index st)) (<[v := v_index]> (lowlink st))
    (<[v := true]> (on_stack st)) (v :: stack st) (scc_result st)).

(** src/crates/weave-graph-core/src/federation.rs:68-79 [TarjanState::strong_connect]
    The neighbors from position [i] on; the position and id of the first
    unvisited one, if any. *)
Fixpoint scan (v : N) (i : nat) (neighbors : list N) (st : TarjanState) : TarjanState * option (nat * N) :=
  match neighbors with
  | [] => (st, None)
  | w :: neighbors =>
      match index st !! w with
      | None => (st, Some (i, w))
      | Some _ =>
          if default false (on_stack st !! w)
          then scan v (S i) neighbors (with_lowlink st (<[v := N.min (low st v) (idx st w)]> (lowlink st)))
          else scan v (S i) neighbors st
      end
  end.

(** src/crates/weave-graph-core/src/federation.rs:95-101 [TarjanState::strong_connect]
    [while let Some(w) = self.stack.pop()]: the component, the rest of the
    stack, the marks. *)
Fixpoint pop_until (v : N) (stk : list N) (marks : gmap N bool) : list N * list N * gmap N bool :=
  match stk with
  | [] => ([], [], marks)
  | w :: stk =>
      let marks := <[w := false]> marks in
      if decide (w = v) then ([w], stk, marks)
      else let '(component, rest, marks) := pop_until v stk marks in (w :: component, rest, marks)
  end.

(** src/crates/weave-graph-core/src/federation.rs:85-104 [TarjanState::strong_connect]
    After the last neighbor; [parent] is the frame below. *)
Definition finish (v : N) (parent : option N) (st : TarjanState) : TarjanState :=
  let st := match parent with
            | Some p => with_lowlink st (<[p := N.min (low st p) (low st v)]> (lowlink st))
            | None => st
            end in
  if decide (low st v = idx st v) then
    let '(component, rest, marks) := pop_until v (stack st) (on_stack st) in
    mkTarjan (index_counter st) (index st) (lowlink st) marks rest (scc_result st ++ [component])
  else st.

(** src/crates/weave-graph-core/src/federation.rs:55-104 [TarjanState::strong_connect]
    One round of the loop, on the frame popped from the work stack. *)
Definition tarjan_round (adjacency : gmap N (list N)) (v : N) (neighbor_idx : nat) (work : list (N * nat))
    (st : TarjanState) : option (TarjanState * list (N * nat)) :=
  st ← (if decide (neighbor_idx = 0) then open_node v st else Some st);
  let neighbors := default [] (adjacency !! v) in
  match scan v neighbor_idx (drop neighbor_idx neighbors) st with
  | (st, Some (i, w)) => Some (st, (w, 0) :: (v, S i) :: work)
  | (st, None) => Some (finish v (fst <$> head work) st, work)
  end.

(** src/crates/weave-graph-core/src/federation.rs:52-106 [TarjanState::strong_connect]
    [None] is an overflow or an exhausted fuel. *)
Fixpoint strong_connect (fuel : nat) (adjacency : gmap N (list N)) (work : list (N * nat)) (st : TarjanState) :
    option TarjanState :=
  match work with
  | [] => Some st
  | (v, neighbor_idx) :: work =>
      match fuel with
      | O => None
      | S fuel =>
          '(st, work) ← tarjan_round adjacency v neighbor_idx work st;
          strong_connect fuel adjacency work st
      end
  end.

Definition tarjan_init : TarjanState := mkTarjan 0 ∅ ∅ ∅ [] [].

(** What the search can visit. *)
Definition scc_universe (node_ids : list N) (edges : list (N * N)) : gset N :=
  list_to_set node_ids ∪ list_to_set edges.*2.

(** src/crates/weave-graph-core/src/federation.rs:20-40 [tarjan_scc]
    A node is opened once and closed once, so two rounds for each node that
    can be visited are enough. *)
Definition tarjan_scc (node_ids : list N) (edges : list (N * N)) : option (list (list N)) :=
  let adjacency := adjacency_of edges in
  let fuel := S (2 * size (scc_universe node_ids edges)) in
  st ← foldlM (λ st id,
         match index st !! id with
         | Some _ => Some st
         | None => strong_connect fuel adjacency [(id, 0)] st
         end) node_ids tarjan_init;
  Some (scc_result st).

Example tarjan_two_cycles :
  tarjan_scc [1; 2; 3; 4; 5]%N [(1, 2); (2, 3); (3, 1); (3, 4); (4, 5); (5, 4)]%N = Some [[5; 4]; [3; 2; 1]]%N.
Proof. reflexivity. Qed.

(** ** The graph *)

Lemma adjacency_spec edges u w : w ∈ default [] (adjacency_of edges !! u) ↔ (u, w) ∈ edges.
Proof.
  unfold adjacency_of. induction edges as [|[a b] edges IH] using rev_ind; [set_solver|].
  rewrite foldl_app, elem_of_app, <- IH. cbn. destruct (decide (a = u)) as [->|Hne].
  - rewrite lookup_insert_eq. cbn. rewrite elem_of_app, !list_elem_of_singleton. naive_solver.
  - rewrite lookup_insert_ne by done. rewrite list_elem_of_singleton. naive_solver.
Qed.

Section tarjan.
Context (adjacency : gmap N (list N)) (roots : list N) (U : gset N).

Definition nbrs (v : N) : list N := default [] (adjacency !! v).
Definition scc_edge (u w : N) : Prop := w ∈ nbrs u.

Context (Hroots : ∀ r, r ∈ roots → r ∈ U) (HU : ∀ u w, scc_edge u w → w ∈ U).
Context (Hsize : (N.of_nat (size U) ≤ u32_MAX)%N).

Notation reach := (rtc scc_edge).

(** A non-empty set of mutually reachable nodes with everything mutually
    reachable with them. *)
Definition is_scc (c : list N) : Prop :=
  c ≠ [] ∧ ∀ x y, x ∈ c → y ∈ c ↔ reach x y ∧ reach y x.

Definition later (st : TarjanState) (x y : N) : Prop := (idx st y < idx st x)%N.
Definition done (st : TarjanState) : list N := concat (scc_result st).

(** The edges of [x] that the frame [(v, i)] or an earlier one has followed; a
    frame with a child above it is still working on the edge before [i]. *)
Definition followed (active : bool) (v : N) (i : nat) (x y : N) : Prop :=
  if decide (x = v) then y ∈ take (if active then i else pred i) (nbrs v) else scc_edge x y.

(** Between a frame and the one above (at index [b]), the followed edges lead to
    finished components or not below the frame's low link. *)
Fixpoint frames_ok (st : TarjanState) (active : bool) (b : N) (g : list (N * nat)) : Prop :=
  match g with
  | [] => True
  | (v, i) :: g =>
      (∀ x y, x ∈ stack st → (idx st v ≤ idx st x < b)%N → followed active v i x y →
         y ∈ done st ∨ (y ∈ stack st ∧ (low st v ≤ idx st y)%N)) ∧
      frames_ok st false (idx st v) g
  end.

(** The frame at the head of [g] is following its edge to [c]. *)
Definition follows_to (g : list (N * nat)) (c : N) : Prop :=
  match g with
  | [] => True
  | (p, i) :: _ => ∃ j, i = S j ∧ nbrs p !! j = Some c
  end.

Fixpoint linked (g : list (N * nat)) : Prop :=
  match g with
  | [] => True
  | (c, _) :: g => follows_to g c ∧ linked g
  end.

(** The state between rounds: [g] are the open frames, innermost first;
    [active] when the innermost one has no child. *)
Record tarjan_ok (active : bool) (st : TarjanState) (g : list (N * nat)) : Prop := {
  tk_count : N.of_nat (size (dom (index st))) = index_counter st;
  tk_lt : ∀ v k, index st !! v = Some k → (k < index_counter st)%N;
  tk_inj : ∀ v w k, index st !! v = Some k → index st !! w = Some k → v = w;
  tk_dom : ∀ v, is_Some (index st !! v) ↔ v ∈ stack st ∨ v ∈ done st;
  tk_marks : ∀ w, default false (on_stack st !! w) = true ↔ w ∈ stack st;
  tk_sorted : StronglySorted (later st) (stack st);
  tk_disjoint : NoDup (stack st ++ done st);
  tk_closed : ∀ x y, x ∈ done st → scc_edge x y → y ∈ done st;
  tk_scc : Forall is_scc (scc_result st);
  tk_roots : ∀ x, is_Some (index st !! x) → ∃ r, r ∈ roots ∧ reach r x;
  tk_grey : ∀ v, v ∈ g.*1 → v ∈ stack st;
  tk_grey_sorted : StronglySorted (later st) g.*1;
  tk_linked : linked g;
  tk_down : ∀ v x, v ∈ g.*1 → x ∈ stack st → (idx st v ≤ idx st x)%N → reach v x;
  tk_up : ∀ x, x ∈ stack st → ∃ v, v ∈ g.*1 ∧ (idx st v ≤ idx st x)%N ∧ reach x v;
  tk_low : ∀ v, v ∈ g.*1 → (low st v ≤ idx st v)%N ∧
    ∃ w, w ∈ stack st ∧ idx st w = low st v ∧ reach v w;
  tk_frames : frames_ok st active (index_counter st) g;
}.

Lemma tk_in_U active st g x : tarjan_ok active st g → is_Some (index st !! x) → x ∈ U.
Proof.
  intros Hok Hx. destruct (tk_roots _ _ _ Hok x Hx) as (r & Hr & Hreach).
  apply rtc_inv_r in Hreach as [->|(z & _ & Hz)]; eauto.
Qed.

Lemma tk_idx active st g x : tarjan_ok active st g → x ∈ stack st → index st !! x = Some (idx st x).
Proof.
  intros Hok Hx. destruct (proj2 (tk_dom _ _ _ Hok x) (or_introl Hx)) as [k Hk].
  unfold idx. by rewrite Hk.
Qed.

Lemma tk_idx_lt active st g x : tarjan_ok active st g → x ∈ stack st → (idx st x < index_counter st)%N.
Proof. intros Hok Hx. eapply tk_lt, tk_idx; eauto. Qed.

Lemma tk_idx_inj active st g x y :
  tarjan_ok active st g → x ∈ stack st → y ∈ stack st → idx st x = idx st y → x = y.
Proof.
  intros Hok Hx Hy Heq. eapply tk_inj; [done|by eapply tk_idx|]. rewrite Heq. by eapply tk_idx.
Qed.

Lemma init_ok : tarjan_ok true tarjan_init [].
Proof.
  split; cbn; try done; try set_solver.
  - intros v. rewrite lookup_empty. split; [by intros []|set_solver].
  - constructor.
  - constructor.
  - intros x [k Hk]. by rewrite lookup_empty in Hk.
  - constructor.
Qed.

Lemma ok_nil a b st : tarjan_ok a st [] → tarjan_ok b st [].
Proof. by intros []; split. Qed.

(** The frames below the innermost one survive a change that keeps their
    indices, does not raise their low links and only moves nodes from the stack
    to the finished components. *)
Lemma frames_ok_mono st st' active b g :
  StronglySorted (later st) g.*1 → (∀ v, v ∈ g.*1 → (idx st v ≤ b)%N) →
  (∀ v, v ∈ g.*1 → idx st' v = idx st v ∧ (low st' v ≤ low st v)%N) →
  (∀ x, x ∈ stack st' → (idx st' x < b)%N → x ∈ stack st ∧ idx st' x = idx st x) →
  (∀ y, y ∈ done st → y ∈ done st') →
  (∀ y, y ∈ stack st → y ∈ done st' ∨ (y ∈ stack st' ∧ idx st' y = idx st y)) →
  frames_ok st active b g → frames_ok st' active b g.
Proof.
  revert active b. induction g as [|[v i] g IH]; intros active b Hs Hb Hv Hx Hd Hy; cbn; [done|].
  intros [Hhead Htail]. apply StronglySorted_inv in Hs as [Hs Hall].
  destruct (Hv v) as [Hiv Hlv]; [left|]. rewrite Hiv. split.
  - intros x y Hxs Hxb Hf. destruct (Hx x Hxs) as [Hx' Hix]; [lia|]. rewrite Hix in Hxb.
    destruct (Hhead x y Hx' Hxb Hf) as [|[Hys Hly]]; [auto|].
    destruct (Hy y Hys) as [|[? ->]]; [auto|]. right. split; [done|lia].
  - apply IH; [done|..|done|done|done].
    + intros u Hu. rewrite Forall_forall in Hall. specialize (Hall u Hu). unfold later in Hall. cbn in Hall. lia.
    + intros u Hu. apply Hv. by right.
    + intros x Hxs Hxb. apply Hx; [done|]. specialize (Hb v ltac:(left)). lia.
Qed.

Lemma low_insert st v l x : low (with_lowlink st (<[v := l]> (lowlink st))) x = if decide (x = v) then l else low st x.
Proof.
  unfold low. cbn. case_decide; subst; [by rewrite lookup_insert_eq|by rewrite lookup_insert_ne by done].
Qed.

Lemma sorted_later_ext st st' l :
  (∀ x, x ∈ l → idx st' x = idx st x) → StronglySorted (later st) l → StronglySorted (later st') l.
Proof.
  intros Hi. induction 1 as [|x l Hs IH Hall]; [constructor|]. apply SSorted_cons.
  - apply IH. intros y Hy. apply Hi. by right.
  - rewrite Forall_forall in *. intros y Hy. unfold later. rewrite !Hi by (by left || by right). by apply Hall.
Qed.

Lemma grey_below st c (i : nat) (g : list (N * nat)) u : StronglySorted (later st) ((c, i) :: g).*1 → u ∈ g.*1 → (idx st u < idx st c)%N.
Proof. cbn. intros [_ Hall]%StronglySorted_inv Hu. rewrite Forall_forall in Hall. by apply Hall. Qed.

Lemma grey_tail st c (i : nat) (g : list (N * nat)) : StronglySorted (later st) ((c, i) :: g).*1 → StronglySorted (later st) g.*1.
Proof. cbn. by intros [? _]%StronglySorted_inv. Qed.

(** ** Opening a node that the innermost frame just found, or a root *)

Section opening.
Context (st : TarjanState) (g : list (N * nat)) (w : N).
Context (Hok : tarjan_ok false st g) (Hw : index st !! w = None) (Hlink : follows_to g w).
Context (Hroot : g = [] → w ∈ roots) (HwU : w ∈ U).

Definition opened : TarjanState :=
  mkTarjan (index_counter st + 1) (<[w := index_counter st]> (index st)) (<[w := index_counter st]> (lowlink st))
    (<[w := true]> (on_stack st)) (w :: stack st) (scc_result st).

Lemma open_node_opened : open_node w st = Some opened.
Proof.
  unfold open_node. rewrite decide_False; [done|]. intros Hc.
  assert (dom (index st) ⊂ U) as Hsub.
  { split; [|intros H; apply H, elem_of_dom in HwU as [k Hk]; congruence].
    intros x Hx%elem_of_dom. by eapply tk_in_U. }
  apply subset_size in Hsub. pose proof (tk_count _ _ _ Hok). lia.
Qed.

Lemma opened_fresh : w ∉ stack st ∧ w ∉ done st.
Proof. split; intros H; destruct (proj2 (tk_dom _ _ _ Hok w)) as [k Hk]; (by auto || congruence). Qed.

Lemma opened_new : idx opened w = index_counter st ∧ low opened w = index_counter st.
Proof. unfold idx, low. cbn. by rewrite !lookup_insert_eq. Qed.

Lemma opened_old x : x ∈ stack st →
  x ≠ w ∧ idx opened x = idx st x ∧ low opened x = low st x ∧ (idx st x < index_counter st)%N.
Proof.
  intros Hx. destruct opened_fresh as [Hws _]. assert (x ≠ w) as Hne by (by intros ->).
  unfold idx at 1, low at 1. cbn. rewrite !lookup_insert_ne by done.
  split_and!; [done..|by eapply tk_idx_lt].
Qed.

Lemma opened_grey v : v ∈ g.*1 → v ∈ stack st.
Proof. apply Hok. Qed.

Lemma opened_reach v : v ∈ g.*1 → reach v w.
Proof.
  destruct g as [|[p i] g'] eqn:Hg; [set_solver|]. destruct Hlink as (j & -> & Hj). intros Hv.
  apply rtc_r with p; [|by eapply list_elem_of_lookup_2].
  apply (tk_down _ _ _ Hok); [done|apply (tk_grey _ _ _ Hok); left|].
  apply elem_of_cons in Hv as [->|Hv]; [done|].
  apply N.lt_le_incl. by apply (grey_below st p (S j) g' v (tk_grey_sorted _ _ _ Hok)).
Qed.

Lemma opened_index v : is_Some (index opened !! v) ↔ v ∈ stack opened ∨ v ∈ done opened.
Proof.
  cbn. rewrite elem_of_cons. change (done opened) with (done st). destruct (decide (v = w)) as [->|Hne].
  - rewrite lookup_insert_eq. naive_solver.
  - rewrite lookup_insert_ne by done. rewrite (tk_dom _ _ _ Hok). naive_solver.
Qed.

Lemma opened_roots x : is_Some (index opened !! x) → ∃ r, r ∈ roots ∧ reach r x.
Proof.
  cbn. destruct (decide (x = w)) as [->|Hne]; [|rewrite lookup_insert_ne by done; apply Hok]. intros _.
  assert (g = [] ∨ ∃ p, p ∈ g.*1) as [Hn|[p Hp]]; [|exists w; auto using rtc_refl|].
  { clear -g. destruct g as [|[p i] g']; [by left|right; exists p; left]. }
  destruct (tk_roots _ _ _ Hok p) as (r & Hr & Hrp); [by eapply mk_is_Some, tk_idx, opened_grey|].
  exists r. split; [done|]. by transitivity p; [|apply opened_reach].
Qed.

Lemma opened_sorted l : (∀ x, x ∈ l → x ∈ stack st) → StronglySorted (later st) l → StronglySorted (later opened) (w :: l).
Proof.
  intros Hl Hs. apply SSorted_cons.
  - eapply sorted_later_ext; [|exact Hs]. intros x Hx. by apply opened_old, Hl.
  - apply Forall_forall. intros x Hx. destruct (opened_old x (Hl x Hx)) as (_ & Hi & _ & ?).
    unfold later. rewrite (proj1 opened_new). lia.
Qed.

Lemma opened_frames : frames_ok opened true (index_counter opened) ((w, 0) :: g).
Proof.
  split.
  - intros x y [->|Hx]%elem_of_cons Hb Hf.
    + unfold followed in Hf. rewrite decide_True in Hf by done. by apply elem_of_nil in Hf.
    + destruct (opened_old x Hx) as (_ & Hi & _ & ?). rewrite (proj1 opened_new) in Hb. lia.
  - rewrite (proj1 opened_new). apply (frames_ok_mono st); [apply Hok|..|apply Hok].
    + intros v Hv. by apply N.lt_le_incl, opened_old, opened_grey.
    + intros v Hv. destruct (opened_old v (opened_grey v Hv)) as (_ & ? & -> & _). by split.
    + intros x [->|Hx]%elem_of_cons Hlt; [rewrite (proj1 opened_new) in Hlt; lia|]. by split; [|apply opened_old].
    + done.
    + intros y Hy. right. split; [by right|]. by apply opened_old.
Qed.

Lemma scc_open_ok : tarjan_ok true opened ((w, 0) :: g) ∧ dom (index opened) = {[w]} ∪ dom (index st).
Proof.
  destruct opened_fresh as [Hws Hwd]. destruct opened_new as [Hiw Hlw]. split; [|cbn; set_solver].
  split; cbn [fmap list_fmap fst].
  - cbn. rewrite dom_insert, size_union by (apply disjoint_singleton_l, not_elem_of_dom; done).
    rewrite size_singleton. pose proof (tk_count _ _ _ Hok). lia.
  - cbn. intros v k [[-> <-]|[Hne Hk]]%lookup_insert_Some; [lia|]. pose proof (tk_lt _ _ _ Hok v k Hk). lia.
  - cbn. intros v u k [[-> <-]|[Hne Hk]]%lookup_insert_Some [[-> Hk']|[Hne' Hk']]%lookup_insert_Some; [done|..].
    + apply (tk_lt _ _ _ Hok) in Hk'. lia.
    + subst. apply (tk_lt _ _ _ Hok) in Hk. lia.
    + by eapply tk_inj.
  - apply opened_index.
  - cbn. intros v. rewrite elem_of_cons. destruct (decide (v = w)) as [->|Hne].
    + rewrite lookup_insert_eq. naive_solver.
    + rewrite lookup_insert_ne by done. rewrite (tk_marks _ _ _ Hok). naive_solver.
  - by apply opened_sorted; [|apply Hok].
  - cbn. apply NoDup_cons. split; [|apply Hok]. rewrite elem_of_app. tauto.
  - apply Hok.
  - apply Hok.
  - apply opened_roots.
  - intros v [->|Hv]%elem_of_cons; [left|right; by apply opened_grey].
  - apply opened_sorted; [apply opened_grey|apply Hok].
  - by split; [|apply Hok].
  - intros v x [->|Hv]%elem_of_cons [->|Hx]%elem_of_cons Hle; [done| |by apply opened_reach|].
    + destruct (opened_old x Hx) as (_ & Hi & _ & ?). cbn in Hle. lia.
    + apply (tk_down _ _ _ Hok); [done..|]. destruct (opened_old x Hx) as (_ & <- & _).
      by destruct (opened_old v (opened_grey v Hv)) as (_ & <- & _).
  - intros x [->|Hx]%elem_of_cons; [exists w; split_and!; [left|done|done]|].
    destruct (tk_up _ _ _ Hok x Hx) as (v & Hv & Hle & Hr). exists v. split_and!; [by right| |done].
    destruct (opened_old x Hx) as (_ & -> & _). by destruct (opened_old v (opened_grey v Hv)) as (_ & -> & _).
  - intros v [->|Hv]%elem_of_cons.
    + cbn. rewrite Hlw, Hiw. split; [done|]. exists w. split_and!; [left|done|done].
    + destruct (opened_old v (opened_grey v Hv)) as (_ & -> & -> & _).
      destruct (tk_low _ _ _ Hok v Hv) as (Hle & u & Hu & Hiu & Hr). split; [done|].
      exists u. split_and!; [by right| |done]. by destruct (opened_old u Hu) as (_ & -> & _).
  - apply opened_frames.
Qed.
End opening.

(** ** Following the edges of the innermost frame *)

(** What [scan] changes is the low link of [v]. *)
Lemma scan_shape v i ns st : ∃ l, (scan v i ns st).1 = with_lowlink st l ∧ ∀ x, x ≠ v → l !! x = lowlink st !! x.
Proof.
  revert i st. induction ns as [|w ns IH]; intros i st; cbn; [by exists (lowlink st); destruct st|].
  destruct (index st !! w); [|by exists (lowlink st); destruct st].
  destruct (default false (on_stack st !! w)); [|apply IH].
  match goal with |- context [scan v (S i) ns ?s] => destruct (IH (S i) s) as (l & -> & Hl) end.
  exists l. split; [done|]. intros x Hx. rewrite Hl by done. cbn. by rewrite lookup_insert_ne.
Qed.

Lemma followed_S v i w x y :
  nbrs v !! i = Some w → followed true v (S i) x y → followed true v i x y ∨ (x = v ∧ y = w).
Proof.
  intros Hi. unfold followed. case_decide as Hd; [subst x|by left].
  rewrite (take_S_r _ _ _ Hi), elem_of_app, list_elem_of_singleton. naive_solver.
Qed.

(** An edge back to the stack lowers the link. *)
Lemma ok_lower st v i g w :
  tarjan_ok true st ((v, i) :: g) → nbrs v !! i = Some w → w ∈ stack st →
  tarjan_ok true (with_lowlink st (<[v := N.min (low st v) (idx st w)]> (lowlink st))) ((v, S i) :: g).
Proof.
  intros Hok Hi Hw. pose proof (list_elem_of_lookup_2 _ _ _ Hi : scc_edge v w) as Hvw.
  match goal with |- tarjan_ok _ ?s _ => set (st' := s) end.
  assert (∀ x, low st' x = if decide (x = v) then N.min (low st v) (idx st w) else low st x) as Hlow
    by apply low_insert.
  destruct Hok. split; try done.
  - intros u Hu. change (idx st' u) with (idx st u). rewrite Hlow.
    change (((v, S i) :: g).*1) with (((v, i) :: g).*1) in Hu.
    destruct (tk_low0 u Hu) as (Hle & x & Hx & Hxi & Hr). case_decide as Hd; [subst u|by eauto].
    split; [lia|]. destruct (N.min_spec (low st v) (idx st w)) as [[? ->]|[? ->]]; [by eauto|].
    exists w. split_and!; [done..|by apply rtc_once].
  - destruct tk_frames0 as [Hhead Htail]. split.
    + intros x y Hx Hb Hf. change (idx st' y) with (idx st y). rewrite Hlow, decide_True by done.
      destruct (followed_S _ _ _ _ _ Hi Hf) as [Hf'|[-> ->]]; [|right; split; [done|lia]].
      destruct (Hhead x y Hx Hb Hf') as [|[? ?]]; [by left|right; split; [done|lia]].
    + change (idx st' v) with (idx st v). apply (frames_ok_mono st); try done.
      * by eapply grey_tail.
      * intros u Hu. by eapply N.lt_le_incl, grey_below.
      * intros u Hu. split; [done|]. rewrite Hlow. case_decide; [|done]. subst.
        eapply grey_below in Hu; [|done]. lia.
      * intros y Hy. by right.
Qed.

(** An edge to a finished component changes nothing. *)
Lemma ok_skip st v i g w :
  tarjan_ok true st ((v, i) :: g) → nbrs v !! i = Some w → w ∈ done st → tarjan_ok true st ((v, S i) :: g).
Proof.
  intros Hok Hi Hw. destruct Hok. split; try done. destruct tk_frames0 as [Hhead Htail]. split; [|done].
  intros x y Hx Hb Hf. destruct (followed_S _ _ _ _ _ Hi Hf) as [Hf'|[-> ->]]; [by apply Hhead with x|by left].
Qed.

Lemma ok_pending st v i g : tarjan_ok true st ((v, i) :: g) → tarjan_ok false st ((v, S i) :: g).
Proof. by intros []; split. Qed.

Lemma scan_ok v g i ns st :
  tarjan_ok true st ((v, i) :: g) → ns = drop i (nbrs v) →
  match scan v i ns st with
  | (st', Some (j, w)) =>
      tarjan_ok false st' ((v, S j) :: g) ∧ nbrs v !! j = Some w ∧ index st' !! w = None ∧ index st' = index st
  | (st', None) => ∃ j, length (nbrs v) ≤ j ∧ tarjan_ok true st' ((v, j) :: g) ∧ index st' = index st
  end.
Proof.
  revert i st. induction ns as [|w ns IH]; intros i st Hok Hns; cbn.
  { exists i. split_and!; [|done..]. pose proof (f_equal length Hns) as Hl. rewrite length_drop in Hl. cbn in Hl. lia. }
  assert (nbrs v !! i = Some w) as Hi.
  { pose proof (lookup_drop (nbrs v) i 0) as Hd. rewrite <- Hns, Nat.add_0_r in Hd. done. }
  assert (ns = drop (S i) (nbrs v)) as Hns'.
  { rewrite (drop_S _ _ _ Hi) in Hns. by simplify_eq. }
  destruct (index st !! w) eqn:Hw; [|by split; [apply ok_pending|]].
  destruct (default false (on_stack st !! w)) eqn:Hm.
  - specialize (IH (S i) _ (ok_lower _ _ _ _ _ Hok Hi (proj1 (tk_marks _ _ _ Hok w) Hm)) Hns').
    by destruct (scan v (S i) ns _) as [st' [[j u]|]].
  - apply IH; [|done]. eapply ok_skip; [done..|].
    destruct (proj1 (tk_dom _ _ _ Hok w)) as [Hs|]; [by eauto| |done].
    apply (tk_marks _ _ _ Hok) in Hs. congruence.
Qed.

(** ** Closing the innermost frame *)

Lemma sorted_split st a v b :
  StronglySorted (later st) (a ++ v :: b) →
  (∀ x, x ∈ a → (idx st v < idx st x)%N) ∧ (∀ x, x ∈ b → (idx st x < idx st v)%N) ∧ StronglySorted (later st) b.
Proof.
  intros Hs. apply StronglySorted_app in Hs as (Hab & _ & Hvb). apply StronglySorted_inv in Hvb as [Hb Hall].
  rewrite Forall_forall in Hall. split_and!; [|by apply Hall|done]. intros x Hx. apply Hab; [done|left].
Qed.

Lemma pop_until_spec v a b marks :
  v ∉ a → ∃ marks', pop_until v (a ++ v :: b) marks = (a ++ [v], b, marks') ∧
    ∀ w, default false (marks' !! w) = true ↔ w ∉ a ++ [v] ∧ default false (marks !! w) = true.
Proof.
  assert (∀ (m : gmap N bool) x w, default false (<[x := false]> m !! w) = true ↔ w ≠ x ∧ default false (m !! w) = true) as Hm.
  { intros m x w. destruct (decide (w = x)) as [->|]; [rewrite lookup_insert_eq|rewrite lookup_insert_ne by done]; naive_solver. }
  revert marks. induction a as [|x a IH]; intros marks Hv; cbn.
  - rewrite decide_True by done. eexists. split; [done|]. intros w. rewrite Hm, list_elem_of_singleton. done.
  - apply not_elem_of_cons in Hv as [Hvx Hv]. rewrite decide_False by done.
    destruct (IH (<[x := false]> marks) Hv) as (m & -> & Hspec). exists m. split; [done|].
    intros w. rewrite Hspec, Hm, not_elem_of_cons. tauto.
Qed.

(** All edges of a node at or above [v] are followed once those of [v] are. *)
Lemma followed_all v j x y : length (nbrs v) ≤ j → scc_edge x y → followed true v j x y.
Proof. intros Hj Hxy. unfold followed. case_decide as Hd; [subst x|done]. by rewrite take_ge. Qed.

Lemma closing_edges st v j g x y :
  tarjan_ok true st ((v, j) :: g) → length (nbrs v) ≤ j → x ∈ stack st → (idx st v ≤ idx st x)%N →
  scc_edge x y → y ∈ done st ∨ (y ∈ stack st ∧ (low st v ≤ idx st y)%N).
Proof.
  intros Hok Hj Hx Hle Hxy. destruct (tk_frames _ _ _ Hok) as [Hhead _].
  apply (Hhead x y); [done| |by apply followed_all]. pose proof (tk_idx_lt _ _ _ _ Hok Hx). lia.
Qed.

(** A frame whose child [v] has closed has followed the edge to it. *)
Lemma followed_child p i v x y g :
  follows_to ((p, i) :: g) v → followed true p i x y → followed false p i x y ∨ (x = p ∧ y = v).
Proof. intros (j & -> & Hj) Hf. by apply followed_S with (w := v) in Hf. Qed.

(** [v] reaches below itself: it stays on the stack, and its frame merges into
    the one below. *)
Lemma ok_merge st v j p i g :
  tarjan_ok true st ((v, j) :: (p, i) :: g) → length (nbrs v) ≤ j → (low st v < idx st v)%N →
  tarjan_ok true (with_lowlink st (<[p := N.min (low st p) (low st v)]> (lowlink st))) ((p, i) :: g).
Proof.
  intros Hok Hj Hlt. match goal with |- tarjan_ok _ ?s _ => set (st' := s) end.
  assert (∀ x, low st' x = if decide (x = p) then N.min (low st p) (low st v) else low st x) as Hlow
    by apply low_insert.
  pose proof (λ x y, closing_edges st v j _ x y Hok Hj) as Hclose.
  assert (∀ x, x ∈ stack st → ∃ u, u ∈ ((p, i) :: g).*1 ∧ (idx st u ≤ idx st x)%N ∧ reach x u) as Hup.
  { assert (∀ u, u ∈ ((v, j) :: (p, i) :: g).*1 → (idx st u < idx st v)%N → u ∈ ((p, i) :: g).*1) as Hbelow.
    { intros u [->|Hu]%elem_of_cons ?; [cbn in *; lia|done]. }
    intros x Hx. destruct (tk_up _ _ _ Hok x Hx) as (u & Hu & Hle & Hr).
    destruct (decide (idx st u < idx st v)%N); [by eauto|].
    destruct (tk_low _ _ _ Hok v ltac:(left)) as (_ & w & Hw & Hwl & Hvw).
    destruct (tk_up _ _ _ Hok w Hw) as (u' & Hu' & Hle' & Hr').
    exists u'. split_and!; [apply Hbelow; [done|lia]|lia|].
    apply elem_of_cons in Hu as [->|Hu]; [by do 2 (etrans; [done|])|].
    pose proof (grey_below st v j ((p, i) :: g) u (tk_grey_sorted _ _ _ Hok) Hu). lia. }
  destruct Hok. split; try done.
  - intros u Hu. apply tk_grey0. by right.
  - by eapply grey_tail.
  - by destruct tk_linked0.
  - intros u x Hu. apply tk_down0. by right.
  - intros u Hu. change (idx st' u) with (idx st u). rewrite Hlow.
    destruct (tk_low0 u ltac:(by right)) as (Hle & x & Hx & Hxi & Hr). case_decide as Hd; [subst u|by eauto].
    split; [lia|]. destruct (N.min_spec (low st p) (low st v)) as [[? ->]|[? ->]]; [by eauto|].
    destruct (tk_low0 v ltac:(left)) as (_ & w & Hw & Hwi & Hvw). exists w. split_and!; [done..|].
    etrans; [|exact Hvw]. apply tk_down0; [right; left|apply tk_grey0; left|].
    apply N.lt_le_incl. eapply grey_below; [done|left].
  - destruct tk_frames0 as [_ Hframes]. destruct tk_linked0 as [Hl _]. destruct Hframes as [Hhead Htail]. split.
    + intros x y Hx [Hpx _] Hf. change (idx st' y) with (idx st y). rewrite Hlow, decide_True by done.
      destruct (decide (idx st v ≤ idx st x)%N) as [Hvx|Hvx].
      * assert (scc_edge x y) as Hxy.
        { unfold followed in Hf. case_decide; [subst|done]. by apply elem_of_take in Hf as (? & ?%list_elem_of_lookup_2 & _). }
        destruct (Hclose x y Hx Hvx Hxy) as [|[? ?]]; [by left|right; split; [done|lia]].
      * destruct (followed_child _ _ _ _ _ _ Hl Hf) as [Hf'|[-> ->]].
        -- destruct (Hhead x y Hx ltac:(change (idx st p ≤ idx st x < idx st v)%N; split; [exact Hpx|lia]) Hf')
             as [|[? ?]]; [by left|right; split; [done|lia]].
        -- right. split; [apply tk_grey0; left|lia].
    + change (idx st' p) with (idx st p). apply grey_tail in tk_grey_sorted0.
      apply (frames_ok_mono st); try done.
      * by eapply grey_tail.
      * intros u Hu. by eapply N.lt_le_incl, grey_below.
      * intros u Hu. split; [done|]. rewrite Hlow. case_decide; [subst|done]. lia.
      * intros y Hy. by right.
Qed.

(** A path from the top of the stack stays there or ends in finished
    components. *)
Lemma reach_stays (S D : N → Prop) x y :
  (∀ a b, S a → scc_edge a b → S b ∨ D b) → (∀ a b, D a → scc_edge a b → D b) →
  S x → reach x y → S y ∨ D y.
Proof.
  intros HS HD Hx Hr. assert (S x ∨ D x) as H by by left. clear Hx.
  induction Hr as [|a b c Hab _ IH]; [done|]. apply IH. destruct H; eauto.
Qed.

(** When [v] reaches nothing below itself, the stack from [v] up is a strongly
    connected component. *)
Lemma top_is_scc st v j g a b :
  tarjan_ok true st ((v, j) :: g) → length (nbrs v) ≤ j → low st v = idx st v → stack st = a ++ v :: b →
  is_scc (a ++ [v]) ∧ ∀ x y, x ∈ a ++ [v] → scc_edge x y → y ∈ a ++ [v] ∨ y ∈ done st.
Proof.
  intros Hok Hj Hlv Hst.
  destruct (sorted_split st a v b) as (Ha & Hb & _); [rewrite <- Hst; apply Hok|].
  assert (∀ x, x ∈ stack st → x ∈ a ++ [v] ↔ (idx st v ≤ idx st x)%N) as Htop.
  { intros x. rewrite Hst, !elem_of_app, list_elem_of_singleton, elem_of_cons. intros [Hx|[->|Hx]].
    - specialize (Ha x Hx). split; [lia|by left].
    - split; [done|by right].
    - specialize (Hb x Hx). split; [|lia]. intros [Hx'| ->]; [specialize (Ha x Hx')|]; lia. }
  assert (∀ x, x ∈ a ++ [v] → x ∈ stack st) as Hin.
  { intros x. rewrite Hst. set_solver. }
  assert (∀ x y, x ∈ a ++ [v] → scc_edge x y → y ∈ a ++ [v] ∨ y ∈ done st) as Hcl.
  { intros x y Hx Hxy. destruct (closing_edges st v j g x y Hok Hj (Hin x Hx)) as [|[Hy Hly]]; [|done|auto|].
    - by apply Htop; [apply Hin|].
    - left. apply Htop; [done|lia]. }
  assert (∀ z, z ∈ stack st → z ∉ done st) as Hdis.
  { intros z Hz Hd. pose proof (tk_disjoint _ _ _ Hok) as Hn. apply NoDup_app in Hn as (_ & Hn & _). by apply (Hn z). }
  assert (∀ x y, x ∈ a ++ [v] → reach x y → y ∈ a ++ [v] ∨ y ∈ done st) as Hstay.
  { intros x y. apply (reach_stays (.∈ a ++ [v]) (.∈ done st)); [done|apply Hok]. }
  assert (v ∈ a ++ [v]) as Hv by (apply elem_of_app; right; left).
  assert (∀ x, x ∈ a ++ [v] → reach v x ∧ reach x v) as Hmut.
  { intros x Hx. split.
    - apply (tk_down _ _ _ Hok); [left|by apply Hin|by apply Htop; [apply Hin|]].
    - destruct (tk_up _ _ _ Hok x (Hin x Hx)) as (u & Hu & Hle & Hr).
      pose proof (tk_grey _ _ _ Hok u Hu) as Hus.
      destruct (Hstay x u Hx Hr) as [Hua|Hud]; [|by destruct (Hdis u)].
      cbn in Hu. apply elem_of_cons in Hu as [->|Hu]; [done|].
      pose proof (grey_below st v j g u (tk_grey_sorted _ _ _ Hok) Hu). apply Htop in Hua; [lia|done]. }
  split; [|done]. split; [by destruct a|]. intros x y Hx. split.
  - intros Hy. split; [etrans; [by apply Hmut|by apply Hmut]|etrans; [by apply Hmut|by apply Hmut]].
  - intros [Hxy Hyx]. destruct (Hstay x y Hx Hxy) as [|Hy]; [done|]. exfalso.
    apply (Hdis x); [by apply Hin|]. revert Hy. clear -Hyx Hok. induction Hyx as [|y z x Hyz _ IH]; [done|].
    intros Hy. apply IH. by eapply tk_closed.
Qed.

(** The component is popped and recorded. *)
Lemma ok_component st v j g a b marks l :
  tarjan_ok true st ((v, j) :: g) → length (nbrs v) ≤ j → low st v = idx st v → stack st = a ++ v :: b →
  (∀ w, default false (marks !! w) = true ↔ w ∉ a ++ [v] ∧ default false (on_stack st !! w) = true) →
  (∀ x, default u32_MAX (l !! x) = low st x) →
  tarjan_ok true (mkTarjan (index_counter st) (index st) l marks b (scc_result st ++ [a ++ [v]])) g.
Proof.
  intros Hok Hj Hlv Hst Hmarks Hl. destruct (top_is_scc st v j g a b Hok Hj Hlv Hst) as [Hscc Hcl].
  destruct (sorted_split st a v b) as (Ha & Hb & Hbs); [rewrite <- Hst; apply Hok|].
  match goal with |- tarjan_ok _ ?s _ => set (st' := s) end.
  assert (∀ x, low st' x = low st x) as Hlow by done.
  assert (∀ x, x ∈ done st' ↔ x ∈ done st ∨ x ∈ a ++ [v]) as Hdone.
  { intros x. unfold done. cbn. rewrite concat_app, elem_of_app. cbn. by rewrite app_nil_r. }
  assert (∀ x, x ∈ stack st ↔ x ∈ a ++ [v] ∨ x ∈ b) as Hstk.
  { intros x. rewrite Hst. set_solver. }
  assert (∀ x, x ∈ stack st → (idx st x < idx st v)%N → x ∈ b) as Hbelow.
  { intros x [Hx|Hx]%Hstk Hlt; [|done]. apply elem_of_app in Hx as [Hx| ->%list_elem_of_singleton]; [|lia].
    specialize (Ha x Hx). lia. }
  assert (∀ u, u ∈ g.*1 → (idx st u < idx st v)%N) as Hg.
  { intros u Hu. eapply grey_below; [apply Hok|done]. }
  destruct Hok. split; try done.
  - intros x. etrans; [apply tk_dom0|]. rewrite Hstk, Hdone. cbn. tauto.
  - intros w. cbn. rewrite Hmarks, tk_marks0, Hstk. split; [tauto|]. intros Hw. split; [|by right].
    intros Hwa. apply elem_of_app in Hwa as [Hwa| ->%list_elem_of_singleton]; specialize (Hb _ Hw); [|lia].
    specialize (Ha _ Hwa). lia.
  - assert (stack st' ++ done st' ≡ₚ stack st ++ done st) as ->; [|done].
    rewrite Hst. unfold done. cbn. rewrite concat_app. cbn. rewrite app_nil_r.
    rewrite (Permutation_app_comm (concat _)), (assoc (++)), (Permutation_app_comm b). by rewrite <- (assoc (++) a).
  - intros x y [Hx|Hx]%Hdone Hxy; apply Hdone; [by left; eapply tk_closed0|]. destruct (Hcl x y Hx Hxy); auto.
  - cbn. apply Forall_app. auto.
  - intros u Hu. apply Hbelow; [apply tk_grey0; by right|by apply Hg].
  - by eapply grey_tail.
  - by destruct tk_linked0.
  - intros u x Hu Hx. apply tk_down0; [by right|]. apply Hstk. by right.
  - intros x Hx. destruct (tk_up0 x) as (u & Hu & Hle & Hr); [apply Hstk; by right|].
    apply elem_of_cons in Hu as [->|Hu]; [|by eauto]. cbn in *. specialize (Hb x Hx). lia.
  - intros u Hu. change (idx st' u) with (idx st u). rewrite Hlow.
    destruct (tk_low0 u ltac:(by right)) as (Hle & w & Hw & Hwi & Hr). split; [done|].
    exists w. split_and!; [|done..]. apply Hbelow; [done|]. specialize (Hg u Hu). lia.
  - destruct tk_frames0 as [_ Hframes]. destruct tk_linked0 as [Hlink _]. destruct g as [|[p i] g]; [done|].
    destruct Hframes as [Hhead Htail]. split.
    + intros x y Hx [Hpx _] Hf. change (idx st' y) with (idx st y). rewrite Hlow, Hdone.
      assert (followed false p i x y → y ∈ done st ∨ y ∈ a ++ [v] ∨ (y ∈ b ∧ (low st p ≤ idx st y)%N)) as Hold.
      { intros Hf'. destruct (Hhead x y) as [|[Hy%Hstk ?]]; [apply Hstk; by right| |done|tauto..].
        split; [exact Hpx|by apply Hb]. }
      destruct (followed_child _ _ _ _ _ _ Hlink Hf) as [Hf'|[_ ->]]; [destruct (Hold Hf'); tauto|].
      left. right. apply elem_of_app. right. left.
    + change (idx st' p) with (idx st p). apply grey_tail in tk_grey_sorted0.
      apply (frames_ok_mono st); try done.
      * by eapply grey_tail.
      * intros u Hu. by eapply N.lt_le_incl, grey_below.
      * intros u Hu. by rewrite Hlow.
      * intros x Hx _. split; [|done]. apply Hstk. by right.
      * intros y Hy. apply Hdone. by left.
      * intros y [Hy|Hy]%Hstk; [left; apply Hdone; by right|by right].
Qed.

Lemma finish_ok st v j g :
  tarjan_ok true st ((v, j) :: g) → length (nbrs v) ≤ j →
  tarjan_ok true (finish v (fst <$> head g) st) g ∧ index (finish v (fst <$> head g) st) = index st.
Proof.
  intros Hok Hj. destruct (tk_low _ _ _ Hok v ltac:(left)) as (Hle & w & Hw & Hwi & Hvw).
  pose proof (tk_grey _ _ _ Hok v ltac:(left)) as Hvs.
  assert (∀ l, (∀ x, default u32_MAX (l !! x) = low st x) → low st v = idx st v →
    let st' := (let '(c, r, m) := pop_until v (stack st) (on_stack st) in
      mkTarjan (index_counter st) (index st) l m r (scc_result st ++ [c])) in
    tarjan_ok true st' g ∧ index st' = index st) as Hpop.
  { intros l Hl Heq. apply list_elem_of_split in Hvs as (a & b & Hst).
    destruct (pop_until_spec v a b (on_stack st)) as (m & Hp & Hm).
    { pose proof (tk_sorted _ _ _ Hok) as Hs. rewrite Hst in Hs. apply sorted_split in Hs as (Ha & _).
      intros Hv. specialize (Ha v Hv). lia. }
    rewrite Hst, Hp. cbn. split; [|done]. by eapply ok_component. }
  destruct g as [|[p i] g]; cbn [head fmap option_fmap option_map fst]; unfold finish.
  - case_decide as Hd; [by apply (Hpop (lowlink st))|].
    destruct (tk_up _ _ _ Hok w Hw) as (u & Hu & Hlu & _). apply list_elem_of_singleton in Hu as ->. cbn in Hlu. lia.
  - pose proof (grey_below st v j ((p, i) :: g) p (tk_grey_sorted _ _ _ Hok) ltac:(left)) as Hpv.
    assert (low (with_lowlink st (<[p := N.min (low st p) (low st v)]> (lowlink st))) v = low st v) as Hlv.
    { rewrite low_insert. case_decide; [subst; lia|done]. }
    cbv zeta. rewrite Hlv. change (idx (with_lowlink ?a ?b) ?c) with (idx st c). case_decide as Hd; [|split; [eapply ok_merge; [done..|lia]|done]].
    apply (Hpop (<[p := N.min (low st p) (low st v)]> (lowlink st))); [|done].
    intros x. pose proof (low_insert st p (N.min (low st p) (low st v)) x) as Hx. unfold low at 1 in Hx. cbn in Hx.
    rewrite Hx. case_decide; [subst x|done].
    destruct (tk_low _ _ _ Hok p ltac:(right; left)) as [? _]. lia.
Qed.

(** ** The work loop *)

Definition unvisited (st : TarjanState) : nat := size (U ∖ dom (index st)).

(** Between rounds: either every frame is open, or a fresh node is on top.  [m]
    bounds the rounds left. *)
Inductive loop_ok (st : TarjanState) : list (N * nat) → nat → Prop :=
| loop_open g :
    tarjan_ok true st g → (∀ p i g', g = (p, i) :: g' → i ≠ 0) →
    loop_ok st g (2 * unvisited st + length g)
| loop_fresh w g :
    tarjan_ok false st g → index st !! w = None → follows_to g w → (g = [] → w ∈ roots) → w ∈ U →
    loop_ok st ((w, 0) :: g) (2 * unvisited st - 1 + length g).

Lemma unvisited_pos st w : w ∈ U → index st !! w = None → 0 < unvisited st.
Proof.
  intros Hw Hn. apply not_elem_of_dom in Hn. unfold unvisited. apply Nat.neq_0_lt_0, size_non_empty_iff. set_solver.
Qed.

Lemma unvisited_open st st' w :
  w ∈ U → index st !! w = None → dom (index st') = {[w]} ∪ dom (index st) → unvisited st = S (unvisited st').
Proof.
  intros Hw Hn Hdom. apply not_elem_of_dom in Hn. unfold unvisited. rewrite Hdom.
  assert (U ∖ dom (index st) = {[w]} ∪ (U ∖ ({[w]} ∪ dom (index st)))) as ->.
  { apply set_eq. intros x. destruct (decide (x = w)); set_solver. }
  rewrite size_union, size_singleton by set_solver. done.
Qed.

(** What a round does after opening its node. *)
Lemma expand_ok st v i g :
  tarjan_ok true st ((v, i) :: g) →
  ∃ st' work', loop_ok st' work' (2 * unvisited st + length g) ∧ index st' = index st ∧
    match scan v i (drop i (nbrs v)) st with
    | (st, Some (i, w)) => Some (st, (w, 0) :: (v, S i) :: g)
    | (st, None) => Some (finish v (fst <$> head g) st, g)
    end = Some (st', work').
Proof.
  intros Hok. pose proof (scan_ok v g i _ st Hok eq_refl) as Hscan.
  destruct (scan v i _ st) as [st1 [[j w]|]].
  - destruct Hscan as (Hok1 & Hj & Hw & Hidx). exists st1, ((w, 0) :: (v, S j) :: g). split_and!; [|done..].
    assert (w ∈ U) as HwU by (eapply HU, list_elem_of_lookup_2, Hj).
    pose proof (unvisited_pos st1 w HwU Hw).
    replace (2 * unvisited st + length g) with (2 * unvisited st1 - 1 + length ((v, S j) :: g)).
    + apply loop_fresh; [done|done|by exists j|done|done].
    + unfold unvisited in *. rewrite Hidx in *. cbn. lia.
  - destruct Hscan as (j & Hj & Hok1 & Hidx). destruct (finish_ok st1 v j g Hok1 Hj) as [Hf Hfi].
    eexists _, g. split_and!; [|by rewrite Hfi|done].
    replace (unvisited st) with (unvisited (finish v (fst <$> head g) st1)) by (unfold unvisited; by rewrite Hfi, Hidx).
    apply loop_open; [done|]. intros p k g' ->. destruct (tk_linked _ _ _ Hok1) as [(n & -> & _) _]. done.
Qed.

Lemma round_ok st v i work m :
  loop_ok st ((v, i) :: work) m →
  ∃ st' work' m', tarjan_round adjacency v i work st = Some (st', work') ∧ loop_ok st' work' m' ∧ m = S m' ∧
    dom (index st) ⊆ dom (index st') ∧ (i = 0 → v ∈ dom (index st')).
Proof.
  intros Hl. unfold tarjan_round. inversion Hl as [g Hok Hi Hg Hm|w g Hok Hw Hlink Hroot HwU Hg Hm]; subst.
  - rewrite decide_False by by eapply Hi. cbn [mbind option_bind].
    destruct (expand_ok st v i work Hok) as (st' & work' & Hl' & Hidx & Heq).
    exists st', work', (2 * unvisited st + length work). split_and!; [exact Heq|done|cbn; lia|by rewrite Hidx|].
    intros ->. by destruct (Hi v 0 work).
  - rewrite decide_True by done. rewrite (open_node_opened st work v Hok Hw HwU).
    destruct (scc_open_ok st work v) as [Hok1 Hdom]; [done..|].
    cbn [mbind option_bind]. set (st1 := opened st v) in *.
    destruct (expand_ok st1 v 0 work Hok1) as (st' & work' & Hl' & Hidx & Heq).
    exists st', work', (2 * unvisited st1 + length work). split_and!; [exact Heq|done| |rewrite Hidx, Hdom; set_solver..].
    rewrite (unvisited_open st st1 v) by done. lia.
Qed.

Lemma strong_connect_ok fuel st work m :
  loop_ok st work m → m ≤ fuel →
  ∃ st', strong_connect fuel adjacency work st = Some st' ∧ tarjan_ok true st' [] ∧
    dom (index st) ⊆ dom (index st') ∧ ∀ v g, work = (v, 0) :: g → v ∈ dom (index st').
Proof.
  revert st work m. induction fuel as [|fuel IH]; intros st [|[v i] work] m Hl Hm.
  - exists st. inversion Hl; subst. split_and!; [done|done|done|naive_solver].
  - destruct (round_ok _ _ _ _ _ Hl) as (? & ? & ? & ? & ? & ? & ?). lia.
  - exists st. inversion Hl; subst. split_and!; [done|done|done|naive_solver].
  - destruct (round_ok _ _ _ _ _ Hl) as (st1 & work1 & m1 & Hr & Hl1 & -> & Hd1 & Ho).
    destruct (IH st1 work1 m1 Hl1 ltac:(lia)) as (st' & Hs & Hok & Hd & _).
    exists st'. cbn. rewrite Hr. cbn. split_and!; [done|done|set_solver|].
    intros v' g [= -> -> ->]. by apply Hd, Ho.
Qed.
End tarjan.

(** ** The result *)

Definition edge_in (edges : list (N * N)) (u w : N) : Prop := (u, w) ∈ edges.

Lemma scc_edge_adjacency edges u w : scc_edge (adjacency_of edges) u w ↔ edge_in edges u w.
Proof. apply adjacency_spec. Qed.

Lemma rtc_adjacency edges u w : rtc (scc_edge (adjacency_of edges)) u w ↔ rtc (edge_in edges) u w.
Proof. split; (eapply rtc_congruence with (f := λ x, x); intros a b); apply scc_edge_adjacency. Qed.

Lemma tarjan_scc_ok node_ids edges :
  (N.of_nat (size (scc_universe node_ids edges)) ≤ u32_MAX)%N →
  ∃ st, tarjan_scc node_ids edges = Some (scc_result st) ∧
    tarjan_ok (adjacency_of edges) node_ids true st [] ∧ ∀ r, r ∈ node_ids → r ∈ dom (index st).
Proof.
  intros Hsize. set (adj := adjacency_of edges). set (U := scc_universe node_ids edges).
  assert (∀ r, r ∈ node_ids → r ∈ U) as Hroots.
  { intros r Hr. unfold U, scc_universe. by apply elem_of_union_l, elem_of_list_to_set. }
  assert (∀ u w, scc_edge adj u w → w ∈ U) as HU.
  { intros u w Huw%scc_edge_adjacency. unfold U, scc_universe. apply elem_of_union_r, elem_of_list_to_set, list_elem_of_fmap. by exists (u, w). }
  unfold tarjan_scc. fold adj U.
  match goal with |- context [foldlM ?f node_ids tarjan_init] => destruct (foldlM_inv (λ pre st,
    tarjan_ok adj node_ids true st [] ∧ ∀ r, r ∈ pre → r ∈ dom (index st)) f node_ids tarjan_init)
    as (st & -> & Hok & Hall) end.
  - split; [by apply (init_ok adj node_ids U)|set_solver].
  - intros pre x post st Hsplit [Hok Hpre]. destruct (index st !! x) eqn:Hx.
    + exists st. split; [done|]. split; [done|].
      intros r [Hr| ->%list_elem_of_singleton]%elem_of_app; [by apply Hpre|]. apply elem_of_dom. by rewrite Hx.
    + assert (x ∈ node_ids) as Hxn by (rewrite Hsplit; set_solver).
      destruct (strong_connect_ok adj node_ids U Hroots HU Hsize (S (2 * size U)) st [(x, 0)]
        (2 * unvisited U st - 1 + length ([] : list (N * nat)))) as (st' & Hs & Hok' & Hd & Hv).
      * apply loop_fresh; [by eapply ok_nil|done|done|done|by apply Hroots].
      * assert (unvisited U st ≤ size U) by (apply subseteq_size; set_solver). cbn. lia.
      * exists st'. split; [exact Hs|]. split; [done|].
        intros r [Hr| ->%list_elem_of_singleton]%elem_of_app; [by apply Hd, Hpre|]. by eapply Hv.
  - exists st. by split.
Qed.

Lemma tarjan_scc_spec node_ids edges
    (Hsize : (N.of_nat (size (scc_universe node_ids edges)) ≤ u32_MAX)%N) :
  ∃ comps, tarjan_scc node_ids edges = Some comps ∧ [] ∉ comps ∧ NoDup (concat comps) ∧
    (∀ x, x ∈ concat comps ↔ ∃ r, r ∈ node_ids ∧ rtc (edge_in edges) r x) ∧
    (∀ c x y, c ∈ comps → x ∈ c → y ∈ c ↔ rtc (edge_in edges) x y ∧ rtc (edge_in edges) y x).
Proof.
  destruct (tarjan_scc_ok node_ids edges Hsize) as (st & Heq & Hok & Hall).
  exists (scc_result st). split; [done|]. pose proof (tk_scc _ _ _ _ _ Hok) as Hscc. rewrite Forall_forall in Hscc.
  assert (stack st = []) as Hstk.
  { destruct (stack st) as [|x l] eqn:Hs; [done|]. destruct (tk_up _ _ _ _ _ Hok x) as (v & Hv & _); [rewrite Hs; left|].
    by apply elem_of_nil in Hv. }
  split_and!.
  - intros H. by destruct (Hscc [] H).
  - pose proof (tk_disjoint _ _ _ _ _ Hok) as Hd. by rewrite Hstk in Hd.
  - intros x. split.
    + intros Hx. destruct (tk_roots _ _ _ _ _ Hok x) as (r & Hr & Hrx); [apply (tk_dom _ _ _ _ _ Hok); by right|].
      exists r. by rewrite <- rtc_adjacency.
    + intros (r & Hr & Hrx). apply rtc_adjacency in Hrx.
      assert (r ∈ concat (scc_result st)) as Hrd.
      { destruct (proj1 (tk_dom _ _ _ _ _ Hok r)) as [Hs|]; [by apply elem_of_dom, Hall| |done].
        rewrite Hstk in Hs. by apply elem_of_nil in Hs. }
      revert Hrd. clear Hr. induction Hrx as [|a b c Hab _ IH]; [done|]. intros Ha. apply IH.
      by apply (tk_closed _ _ _ _ _ Hok a).
  - intros c x y Hc Hx. destruct (Hscc c Hc) as [_ Hm]. rewrite (Hm x y Hx). by rewrite !rtc_adjacency.
Qed.

(** C15: on edges that do not leave the given nodes, as both callers pass them,
    [tarjan_scc] terminates (its work loop takes at most two rounds for each node,
    and the counter does not overflow while the nodes fit 32 bits) and partitions
    exactly the given nodes into the strongly connected components of the edges:
    every group is non-empty, no node is in two groups or twice in one, each given
    node is in one, no other node is in any, and two nodes share a group exactly when
    each reaches the other.  (A target outside the given nodes would be visited and
    grouped too, against the documentation: [scc_visits_outside].) *)
Theorem tarjan_scc_correct node_ids edges
    (Hclosed : ∀ u v, (u, v) ∈ edges → u ∈ node_ids → v ∈ node_ids)
    (Hsize : (N.of_nat (size (scc_universe node_ids edges)) ≤ u32_MAX)%N) :
  ∃ comps, tarjan_scc node_ids edges = Some comps ∧ [] ∉ comps ∧ NoDup (concat comps) ∧
    (∀ x, x ∈ concat comps ↔ x ∈ node_ids) ∧
    (∀ c x y, c ∈ comps → x ∈ c → y ∈ c ↔ rtc (edge_in edges) x y ∧ rtc (edge_in edges) y x).
Proof.
  destruct (tarjan_scc_spec node_ids edges Hsize) as (comps & Heq & Hne & Hnd & Hall & Hscc). exists comps. split_and!; try done.
  intros x. rewrite Hall. split; [|intros Hx; by exists x].
  intros (r & Hr & Hrx). induction Hrx as [|a b c Hab _ IH]; [done|]. apply IH. by eapply Hclosed.
Qed.

Lemma tarjan_scc_correct_witness :
  ∃ comps, tarjan_scc [1; 3; 2; 4]%N [(1, 2); (2, 1); (2, 4)]%N = Some comps ∧
    (∃ c, c ∈ comps ∧ 1%N ∈ c ∧ 2%N ∈ c ∧ 4%N ∉ c).
Proof.
  destruct (tarjan_scc_correct [1; 3; 2; 4]%N [(1, 2); (2, 1); (2, 4)]%N) as (comps & Heq & _); [|by vm_compute|].
  - intros u v Huv _. set_solver.
  - exists comps. split; [done|]. vm_compute in Heq. simplify_eq. exists [2; 1]%N. split_and!; set_solver.
Defined.

(** What the documentation restricts to the given nodes is not: a target outside
    them is reported as well. *)
Example scc_visits_outside : tarjan_scc [1]%N [(1, 2)]%N = Some [[2]; [1]]%N.
Proof. reflexivity. Qed.
