(* ===== verification/Pipeline.v ===== *)
(** * The parse pipeline (weave-graph-cli: index.rs, [parse_files_bounded])

    A producer thread parses chunk after chunk and sends them through a channel
    that holds one; the calling thread folds what it receives into the
    database.  The two threads are a step relation; the results hold for every
    interleaving. *)

From S2P Require Import Prelude.

(** [slice::chunks]. *)
Fixpoint chunks_fuel {A} (fuel n : nat) (l : list A) : list (list A) :=
  match fuel, l with
  | S fuel, _ :: _ => take n l :: chunks_fuel fuel n (drop n l)
  | _, _ => []
  end.
Definition chunks {A} (n : nat) (l : list A) : list (list A) := chunks_fuel (length l) n l.

Lemma concat_chunks {A} n (l : list A) : 0 < n → concat (chunks n l) = l.
Proof.
  intros Hn. unfold chunks. assert (∀ fuel (l : list A), length l ≤ fuel → concat (chunks_fuel fuel n l) = l) as Hc; [|by apply Hc].
  induction fuel as [|fuel IH]; intros [|x k] Hl; simpl in Hl; try done; [lia|].
  cbn [chunks_fuel concat]. rewrite IH; [apply take_drop|]. rewrite length_drop. simpl. lia.
Qed.

Section pipeline.
Context {F T E St : Type}.
Context (rel : F → string) (parse : F → option T) (fold : St → string → T → St * option E).

(** src/crates/weave-graph-cli/src/index.rs:183-210 [parse_chunk_mapped]
    [parse] reads, parses and maps one file; [None] is a file that is skipped. *)
Definition parse_chunk_mapped (chunk : list F) : list (string * option T) :=
  (λ f, (rel f, parse f)) <$> chunk.

(** src/crates/weave-graph-cli/src/index.rs:257-264 [parse_files_bounded]
    After a failure the rest of the chunk is skipped. *)
Definition consume_item (st : St * option E) (item : string * option T) : St * option E :=
  match item.2, st.2 with
  | Some mapped, None => fold st.1 item.1 mapped
  | _, _ => st
  end.

Definition consume (st : St * option E) (chunk : list (string * option T)) : St * option E :=
  foldl consume_item st chunk.

(** The two threads: chunks not yet parsed, whether the sender is dropped, what
    the channel holds, the folded state and the failure, and whether the
    receiving loop has ended. *)
Record pipe := mkPipe {
  todo : list (list F);
  closed : bool;
  channel : list (list (string * option T));
  folded : St * option E;
  stopped : bool;
}.

(** src/crates/weave-graph-cli/src/index.rs:237-273 [parse_files_bounded]
    [sync_channel(1)]: a send waits while the channel holds a chunk.  The
    receiver is borrowed by the loop and lives until the threads are joined, so
    a send never fails. *)
Inductive pipe_step : relation pipe :=
| pipe_send c cs m st : pipe_step (mkPipe (c :: cs) false [] st m) (mkPipe cs false [parse_chunk_mapped c] st m)
| pipe_hang_up ch m st : pipe_step (mkPipe [] false ch st m) (mkPipe [] true ch st m)
| pipe_recv cs cl m ch st :
    pipe_step (mkPipe cs cl (m :: ch) st false)
      (mkPipe cs cl ch (consume st m) (bool_decide (is_Some (consume st m).2)))
| pipe_drained cs st : pipe_step (mkPipe cs true [] st false) (mkPipe cs true [] st true).

(** The scope ends when both threads have. *)
Definition pipe_final (p : pipe) : Prop := closed p = true ∧ stopped p = true.

Definition pipe_start (n : nat) (files : list F) (st : St) : pipe :=
  mkPipe (chunks (Nat.max n 1) files) false [] (st, None) false.

(** The chunks the receiving loop folds, in order, up to a failing one; and
    those left over. *)
Fixpoint fold_chunks (cs : list (list F)) (st : St * option E) : (St * option E) * list (list F) :=
  match cs with
  | [] => (st, [])
  | c :: cs =>
      let st := consume st (parse_chunk_mapped c) in
      match st.2 with
      | Some _ => (st, cs)
      | None => fold_chunks cs st
      end
  end.

(** src/crates/weave-graph-cli/src/index.rs:227-274 [parse_files_bounded]
    What the call returns; [None] when it never does: the failure leaves the
    sender blocked once two more chunks follow. *)
Definition parse_files_bounded (n : nat) (files : list F) (st : St) : option (St * option E) :=
  let '(st, rest) := fold_chunks (chunks (Nat.max n 1) files) (st, None) in
  match rest with
  | _ :: _ :: _ => None
  | _ => Some st
  end.

(** The plain loop: [for f in files { if let Some(t) = parse(f) { fold(f, t)?; } }]. *)
Fixpoint for_each_parsed (files : list F) (st : St) : St * option E :=
  match files with
  | [] => (st, None)
  | f :: files =>
      match parse f with
      | None => for_each_parsed files st
      | Some t => match fold st (rel f) t with
                  | (st, None) => for_each_parsed files st
                  | (st, Some e) => (st, Some e)
                  end
      end
  end.

(** ** One chunk after another *)

Lemma consume_failed st e items : consume (st, Some e) items = (st, Some e).
Proof. induction items as [|[r [t|]] items IH]; [done|exact IH..]. Qed.

Lemma consume_parsed files st : consume (st, None) (parse_chunk_mapped files) = for_each_parsed files st.
Proof.
  revert st. induction files as [|f files IH]; intros st; [done|].
  change (consume (consume_item (st, None) (rel f, parse f)) (parse_chunk_mapped files) = for_each_parsed (f :: files) st).
  cbn [for_each_parsed]. unfold consume_item. cbn [fst snd]. destruct (parse f) as [t|]; [|apply IH].
  destruct (fold st (rel f) t) as [st' [e|]]; [apply consume_failed|apply IH].
Qed.

Lemma for_each_parsed_app a b st :
  for_each_parsed (a ++ b) st =
  match for_each_parsed a st with (st, None) => for_each_parsed b st | r => r end.
Proof.
  revert st. induction a as [|f a IH]; intros st; [done|]. cbn [app for_each_parsed].
  destruct (parse f) as [t|]; [|apply IH]. destruct (fold st (rel f) t) as [st' [e|]]; [done|apply IH].
Qed.

Lemma fold_chunks_seq cs st : (fold_chunks cs (st, None)).1 = for_each_parsed (concat cs) st.
Proof.
  revert st. induction cs as [|c cs IH]; intros st; [done|]. cbn [fold_chunks concat].
  rewrite consume_parsed, for_each_parsed_app. destruct (for_each_parsed c st) as [st' [e|]]; [done|apply IH].
Qed.

Lemma fold_chunks_ok cs st : (fold_chunks cs st).1.2 = None → (fold_chunks cs st).2 = [].
Proof.
  revert st. induction cs as [|c cs IH]; intros st; [done|]. cbn [fold_chunks].
  destruct (consume st _) as [st' [e|]]; [done|apply IH].
Qed.

(** ** Every interleaving *)

Section run.
Context (n : nat) (files : list F) (st0 : St).

Let expected := fold_chunks (chunks (Nat.max n 1) files) (st0, None).

(** The chunks still to be folded are those in the channel, then those to parse. *)
Record pipe_ok (p : pipe) (rest : list (list F)) : Prop := {
  pk_rest : channel p ++ (parse_chunk_mapped <$> todo p) = parse_chunk_mapped <$> rest;
  pk_room : length (channel p) ≤ 1;
  pk_closed : closed p = true → todo p = [];
  pk_running : stopped p = false → (folded p).2 = None ∧ fold_chunks rest (folded p) = expected;
  pk_stopped : stopped p = true → expected = (folded p, rest);
}.

Lemma pk_length p rest : pipe_ok p rest → length rest = length (channel p) + length (todo p).
Proof.
  intros Hok. pose proof (f_equal length (pk_rest _ _ Hok)) as Hl. by rewrite length_app, !length_fmap in Hl.
Qed.

Lemma start_ok : pipe_ok (pipe_start n files st0) (chunks (Nat.max n 1) files).
Proof. split; cbn; [done|lia|done|done|done]. Qed.

Lemma pipe_step_ok p p' rest : pipe_ok p rest → pipe_step p p' → ∃ rest', pipe_ok p' rest'.
Proof.
  intros Hok Hstep. destruct Hstep as [c cs m st|ch m st|cs cl m ch st|cs st]; destruct Hok as [Hr Hc Hcl Hrun Hst]; cbn in *.
  - exists rest. split; cbn; [exact Hr|lia|done|exact Hrun|exact Hst].
  - by exists rest; split.
  - destruct rest as [|c rest]; [done|]. cbn in Hr. injection Hr as -> Hr.
    destruct (Hrun eq_refl) as [Hf Hexp]. exists rest. cbn in Hexp.
    destruct (consume st (parse_chunk_mapped c)) as [st' [e|]] eqn:Hcon; split; cbn; try done; try lia; by rewrite Hcon in *.
  - destruct (Hrun eq_refl) as [Hf Hexp]. pose proof (Hcl eq_refl) as Hcs. rewrite Hcs in Hr.
    destruct rest; [|done]. exists []. split; cbn; [by rewrite Hcs|lia|done|done|by intros _].
Qed.

Lemma run_ok k p : nsteps pipe_step k (pipe_start n files st0) p → ∃ rest, pipe_ok p rest.
Proof.
  intros Hrun. apply rtc_nsteps_2 in Hrun. remember (pipe_start n files st0) as q eqn:Hq.
  assert (∃ rest, pipe_ok q rest) as Hex by (subst; eauto using start_ok). clear Hq.
  induction Hrun as [|p1 p2 p3 Hs _ IH]; [done|]. destruct Hex as [rest Hok]. by eapply IH, pipe_step_ok.
Qed.

(** Each step brings both threads closer to their end. *)
Definition pipe_measure (p : pipe) : nat :=
  2 * length (todo p) + length (channel p) + (if closed p then 0 else 1) + (if stopped p then 0 else 1).

Lemma step_measure p p' : pipe_step p p' → pipe_measure p' < pipe_measure p.
Proof. destruct 1; unfold pipe_measure; cbn; repeat case_match; lia. Qed.

Lemma run_measure k p q : nsteps pipe_step k p q → k + pipe_measure q ≤ pipe_measure p.
Proof. induction 1 as [|k p p1 q Hs _ IH]; [lia|]. apply step_measure in Hs. lia. Qed.

(** Some thread can move, or both have ended, or the receiving loop has and the
    sender waits for it. *)
Lemma progress_cases p rest :
  pipe_ok p rest →
  (∃ p', pipe_step p p') ∨ (pipe_final p ∧ length rest ≤ 1) ∨
  (stopped p = true ∧ closed p = false ∧ 2 ≤ length rest ∧ ∀ p', ¬ pipe_step p p').
Proof.
  intros Hok. pose proof (pk_length _ _ Hok) as Hlen. destruct Hok as [Hr Hc Hcl Hrun Hst].
  destruct p as [cs cl ch st m]. unfold pipe_final. cbn in *. destruct m.
  - destruct cl; [right; left; split; [done|]; rewrite (Hcl eq_refl) in Hlen; cbn in Hlen; lia|].
    destruct cs as [|c cs]; [left; eexists; apply pipe_hang_up|].
    destruct ch as [|m ch]; [left; eexists; apply pipe_send|].
    do 2 right. cbn in Hlen. split_and!; [done|done|lia|]. intros p' Hs. inversion Hs.
  - left. destruct ch as [|m ch]; [|eexists; apply pipe_recv]. destruct cl; [eexists; apply pipe_drained|].
    destruct cs as [|c cs]; [eexists; apply pipe_hang_up|eexists; apply pipe_send].
Qed.

Lemma fold_chunks_files : (fold_chunks (chunks (Nat.max n 1) files) (st0, None)).1 = for_each_parsed files st0.
Proof. rewrite fold_chunks_seq. by rewrite concat_chunks by lia. Qed.

Lemma bounded_ok : (for_each_parsed files st0).2 = None → parse_files_bounded n files st0 = Some (for_each_parsed files st0).
Proof.
  intros Hnone. unfold parse_files_bounded. pose proof fold_chunks_files as Hs. pose proof (fold_chunks_ok (chunks (Nat.max n 1) files) (st0, None)) as Hr.
  rewrite Hs in Hr. specialize (Hr Hnone). destruct (fold_chunks _ _) as [st rest]. cbn in *. by subst.
Qed.

Lemma bounded_sound r : parse_files_bounded n files st0 = Some r → r = for_each_parsed files st0.
Proof.
  unfold parse_files_bounded. rewrite <-fold_chunks_files. destruct (fold_chunks _ _) as [st [|c [|c' rest]]]; naive_solver.
Qed.
End run.
End pipeline.

(** C16: the two-thread parse pipeline makes progress under every schedule: a run
    takes at most two steps per chunk and two to end, and a state in which no
    thread can move is the end of both, with the database as the plain loop
    over the files leaves it, as long as the fold does not fail. *)
Theorem pipeline_completes {F T E St} (rel : F → string) (parse : F → option T) (fold : St → string → T → St * option E)
    n files st k p
    (Hok : (for_each_parsed rel parse fold files st).2 = None)
    (Hrun : nsteps (pipe_step rel parse fold) k (pipe_start n files st) p) :
  k ≤ 2 * length (chunks (Nat.max n 1) files) + 2 ∧
  ((∃ p', pipe_step rel parse fold p p') ∨
   (pipe_final p ∧ folded p = for_each_parsed rel parse fold files st)).
Proof.
  split; [apply run_measure in Hrun; cbn in Hrun; lia|].
  destruct (run_ok rel parse fold n files st k p Hrun) as [rest Hp].
  pose proof (fold_chunks_files rel parse fold n files st) as Hs.
  pose proof (fold_chunks_ok rel parse fold (chunks (Nat.max n 1) files) (st, None)) as Hr. rewrite Hs in Hr. specialize (Hr Hok).
  destruct (progress_cases _ _ _ _ _ _ _ _ Hp) as [|[[Hf _]|(Hm & _ & Hlen & _)]]; [by left|right; split; [done|]|exfalso].
  - rewrite <- Hs, (pk_stopped _ _ _ _ _ _ _ _ Hp (proj2 Hf)). done.
  - rewrite (pk_stopped _ _ _ _ _ _ _ _ Hp Hm) in Hr. cbn in Hr. subst. cbn in Hlen. lia.
Qed.

(** When the fold fails, no schedule can finish if two chunks follow the
    failing one: the receiving loop ends but its receiver lives on, and the
    sender waits for room in the channel for ever.  With fewer chunks left the
    call returns the failure.  Either way nothing is folded after it. *)
Theorem pipeline_failure {F T E St} (rel : F → string) (parse : F → option T) (fold : St → string → T → St * option E)
    n files st k p
    (Hrun : nsteps (pipe_step rel parse fold) k (pipe_start n files st) p) (Hstuck : ∀ p', ¬ pipe_step rel parse fold p p') :
  folded p = for_each_parsed rel parse fold files st ∧
  match parse_files_bounded rel parse fold n files st with
  | Some r => pipe_final p ∧ folded p = r
  | None => ¬ pipe_final p
  end.
Proof.
  destruct (run_ok rel parse fold n files st k p Hrun) as [rest Hp].
  pose proof (fold_chunks_files rel parse fold n files st) as Hs. unfold parse_files_bounded.
  destruct (progress_cases _ _ _ _ _ _ _ _ Hp) as [[p' Hp']|[[Hf Hlen]|(Hm & Hc & Hlen & _)]]; [by destruct (Hstuck p')|..].
  - rewrite (pk_stopped _ _ _ _ _ _ _ _ Hp (proj2 Hf)) in Hs |- *. split; [done|].
    by destruct rest as [|? [|? ?]]; cbn in Hlen; [..|lia].
  - rewrite (pk_stopped _ _ _ _ _ _ _ _ Hp Hm) in Hs |- *. split; [done|].
    destruct rest as [|? [|? ?]]; cbn in Hlen; [lia..|]. unfold pipe_final. by rewrite Hc; intros [].
Qed.

Definition keep_fold (l : list nat) (r : string) (t : nat) : list nat * option string := (l ++ [t], None).
Definition fail_fold (l : list nat) (r : string) (t : nat) : list nat * option string := (l, Some "disk full").
Definition odd_only (f : nat) : option nat := if Nat.odd f then Some f else None.

Lemma pipeline_completes_witness :
  ∃ p, nsteps (pipe_step (λ _ : nat, "f") odd_only keep_fold) 6 (pipe_start 2 [1; 2; 3] []) p ∧
    pipe_final p ∧ folded p = ([1; 3], None).
Proof.
  assert (nsteps (pipe_step (λ _ : nat, "f") odd_only keep_fold) 6 (pipe_start 2 [1; 2; 3] [])
    (mkPipe [] true [] ([1; 3], None) true)) as Hrun.
  { eapply nsteps_l; [apply pipe_send|]. eapply nsteps_l; [apply pipe_recv|].
    eapply nsteps_l; [apply pipe_send|]. eapply nsteps_l; [apply pipe_recv|].
    eapply nsteps_l; [apply pipe_hang_up|]. eapply nsteps_l; [apply pipe_drained|]. apply nsteps_O. }
  exists (mkPipe [] true [] ([1; 3], None) true). split; [exact Hrun|].
  destruct (pipeline_completes (λ _ : nat, "f") odd_only keep_fold 2 [1; 2; 3] [] 6 _ eq_refl Hrun)
    as [_ [[p' Hp']|[Hf Heq]]]; [inversion Hp'|by split].
Defined.

Lemma pipeline_failure_witness :
  ∃ p, nsteps (pipe_step (λ _ : nat, "f") odd_only fail_fold) 3 (pipe_start 1 [1; 3; 5] []) p ∧
    (∀ p', ¬ pipe_step (λ _ : nat, "f") odd_only fail_fold p p') ∧ ¬ pipe_final p.
Proof.
  set (p := mkPipe [[5]] false [[("f", Some 3)]] ([] : list nat, Some "disk full") true).
  assert (nsteps (pipe_step (λ _ : nat, "f") odd_only fail_fold) 3 (pipe_start 1 [1; 3; 5] []) p) as Hrun.
  { eapply nsteps_l; [apply pipe_send|]. eapply nsteps_l; [apply pipe_recv|].
    eapply nsteps_l; [apply pipe_send|]. apply nsteps_O. }
  assert (∀ p', ¬ pipe_step (λ _ : nat, "f") odd_only fail_fold p p') as Hstuck by (intros p' Hp'; inversion Hp').
  exists p. split_and!; [done|done|].
  exact (proj2 (pipeline_failure (λ _ : nat, "f") odd_only fail_fold 1 [1; 3; 5] [] 3 p Hrun Hstuck)).
Defined.
