(* ===== verification/Reindex.v ===== *)
(** * Indexing a repository (weave-graph-cli: index.rs, main.rs;
      weave-graph-core: indexer.rs)

    The full rebuild and the incremental update, composed from the parse
    pipeline, the store's statements and the resolver.  A repository is the list
    of its files, each with its path relative to the root and what the extractor
    makes of it ([None]: unreadable, of no known language, or with a parse
    error).  [None] of an option is a call that does not return: a panic of the
    interner, or the blocked pipeline. *)

From S2P Require Import Prelude Str Model SqlStore Language Interner ProjectIndex Pipeline.

Abbreviation repo_files := (list (string * option ParsedFile)) (only parsing).

(** [1.0_f64], as its bit pattern. *)
Definition one_f64 : N := 4607182418800017408.

Definition err_of {A E} (r : result A E) : option E := match r with Ok _ => None | Err e => Some e end.

Section reindex.
Context {engine : Sqlite} (hash_one : string → N) (parse_chunk : nat).

(** ** Nodes *)

(** src/crates/weave-graph-cli/src/index.rs:316-331 [upsert_all_nodes]
    The same closure as in {!full_reindex}. *)
Definition file_nodes_of (rel : string) (parsed : ParsedFile) : list Node :=
  (λ c, mkNode 0 "local" rel (card_symbol c) (symbol_kind_str (card_kind c)) (card_line_start c)
          (card_line_end c) (card_signature c)) <$> symbols parsed.

(** src/crates/weave-graph-cli/src/index.rs:649-659 [full_reindex]
    With the count of written rows. *)
Definition insert_file_nodes (st : Db * nat) (rel : string) (ns : list Node) : (Db * nat) * option StorageError :=
  match insert_fresh_nodes st.1 ns with
  | (db, Ok ids) => ((db, st.2 + length ids), None)
  | (db, Err e) => ((db, st.2), Some e)
  end.

(** src/crates/weave-graph-cli/src/index.rs:332-343 [upsert_all_nodes]
    The ids are collected with the file they belong to. *)
Definition upsert_file_nodes (st : Db * list (string * NodeId)) (rel : string) (ns : list Node) :
    (Db * list (string * NodeId)) * option StorageError :=
  match upsert_nodes st.1 ns with
  | (db, Ok ids) => ((db, st.2 ++ (pair rel <$> ids)), None)
  | (db, Err e) => ((db, st.2), Some e)
  end.

Definition parsed_nodes (f : string * option ParsedFile) : option (list Node) := file_nodes_of f.1 <$> f.2.

(** ** The resolver *)

Definition node_moniker (n : Node) : string := moniker_build (node_path n) (node_symbol n).

(** src/crates/weave-graph-cli/src/index.rs:92-102 [build_project_index_from_storage] *)
Definition index_node (acc : option (ProjectIndex * gmap N NodeId)) (n : Node) : option (ProjectIndex * gmap N NodeId) :=
  '(ix, ids) ← acc;
  '(ix, moniker_id) ← add_symbol hash_one ix (node_moniker n) (short_name_of (node_symbol n));
  Some (ix, <[moniker_id := node_id n]> ids).

(** src/crates/weave-graph-cli/src/index.rs:86-104 [build_project_index_from_storage] *)
Definition build_project_index_from_storage (db : Db) : option (result (ProjectIndex * gmap N NodeId) StorageError) :=
  match sql_node_count db with
  | Err e => Some (Err e)
  | Ok symbol_count =>
      ix ← index_with_capacity hash_one symbol_count;
      match sql_for_each_node db index_node (Some (ix, ∅)) with
      | Err e => Some (Err e)
      | Ok acc => r ← acc; Some (Ok r)
      end
  end.

(** ** Edges *)

(** src/crates/weave-graph-cli/src/index.rs:365-379 [upsert_all_edges] *)
Definition stored_edge (ids : gmap N NodeId) (e : ResolvedEdgeIds) : option Edge :=
  src_id ← ids !! rei_source e;
  tgt_id ← ids !! rei_target e;
  Some (mkEdge 0 src_id tgt_id (rei_kind e) one_f64 (rei_extractor e) (Some (resolution_str (rei_resolution e)))).

(** src/crates/weave-graph-cli/src/index.rs:362-381 [upsert_all_edges] *)
Definition resolve_file (ix : ProjectIndex) (ids : gmap N NodeId) (parsed : ParsedFile) : option (list Edge * list string) :=
  (λ r : list ResolvedEdgeIds * list string, (omap (stored_edge ids) r.1, r.2)) <$> resolve_ids hash_one ix parsed.

(** src/crates/weave-graph-cli/src/index.rs:382-395 [upsert_all_edges]
    The rotation of the write transaction of the staging database does not show in it. *)
Definition upsert_file_edges (db : Db) (rel : string) (p : list Edge * list string) : Db * option StorageError :=
  match upsert_edges db p.1 with
  | (db, Err e) => (db, Some e)
  | (db, Ok _) =>
      match purge_file_unresolved_refs db "local" rel with
      | (db, Err e) => (db, Some e)
      | (db, Ok _) => let '(db, r) := upsert_unresolved_refs db "local" rel p.2 in (db, err_of r)
      end
  end.

(** src/crates/weave-graph-cli/src/index.rs:348-398 [upsert_all_edges]
    The files are resolved on the pool, before their chunk is written. *)
Definition upsert_all_edges (ix : ProjectIndex) (ids : gmap N NodeId) (files : repo_files) (db : Db) :
    option (Db * option StorageError) :=
  resolved ← mapM (λ f : string * option ParsedFile,
    match f.2 with
    | None => Some (f.1, None)
    | Some parsed => r ← resolve_file ix ids parsed; Some (f.1, Some r)
    end) files;
  parse_files_bounded fst snd upsert_file_edges parse_chunk resolved db.

(** ** The full rebuild *)

(** src/crates/weave-graph-cli/src/index.rs:16-20 [IndexStats] *)
Record IndexStats := mkStats { stat_files : nat; stat_symbols : nat; stat_edges : nat }.

(** src/crates/weave-graph-cli/src/index.rs:626-673 [full_reindex]
    The contents of the staging database: its nodes, then its edges. *)
Definition rebuild_db (files : repo_files) : option (result (Db * nat) StorageError) :=
  '((db, total_symbols), e) ←
    parse_files_bounded fst parsed_nodes insert_file_nodes parse_chunk files (empty_db, 0);
  match e with
  | Some e => Some (Err e)
  | None =>
      r ← build_project_index_from_storage db;
      match r with
      | Err e => Some (Err e)
      | Ok (ix, ids) =>
          '(db, e) ← upsert_all_edges ix ids files db;
          match e with
          | Some e => Some (Err e)
          | None => Some (Ok (db, total_symbols))
          end
      end
  end.

(** The index directory: the live database and whether a staging file is there. *)
Record weave_dir := mkDir { active_db : option Db; rebuild_exists : bool }.

Inductive index_error := Storing (e : StorageError) | PromotionFailed.

(** src/crates/weave-graph-cli/src/index.rs:39-57 [promote_rebuild]
    [renamed] is whether the flush and the rename succeed. *)
Definition promote_rebuild (renamed : bool) (db : Db) (dir : weave_dir) : weave_dir * result () index_error :=
  if renamed then (mkDir (Some db) false, Ok ()) else (dir, Err PromotionFailed).

(** src/crates/weave-graph-cli/src/index.rs:714-723 [full_reindex]
    The end of both updates (892-902 of the other). *)
Definition finish_reindex (renamed : bool) (db : Db) (dir : weave_dir) (stats : IndexStats) :
    weave_dir * result IndexStats index_error :=
  let '(dir, r) := promote_rebuild renamed db dir in (dir, result_map (λ _, stats) r).

(** src/crates/weave-graph-cli/src/index.rs:600-677 [full_reindex]
    A leftover staging file is removed first, and {!finish_reindex} ends the run.
    The steps of the optional features between them (678-713) are not part of it:
    they add notes, spans, vectors and texts to the same database and are the
    operations of Docs, NoteCmds, Traces, Vector and Fts. *)
Definition full_reindex (renamed : bool) (files : repo_files) (dir : weave_dir) :
    option (weave_dir * result IndexStats index_error) :=
  let dir := mkDir (active_db dir) true in
  r ← rebuild_db files;
  match r with
  | Err e => Some (dir, Err (Storing e))
  | Ok (db, total_symbols) =>
      Some (finish_reindex renamed db dir (mkStats (length files) total_symbols (size (edges db))))
  end.

(** ** The incremental update *)

(** src/crates/weave-graph-store-sqlite/src/backend.rs:183-209 [SqliteStorage::short_symbol_names_for_paths] *)
Definition short_symbol_names_for_paths (db : Db) (repo_id : string) (paths : list string) : gset string :=
  list_to_set (short_name_of <$> (paths ≫= λ p, node_symbol <$>
    filter (λ n, node_repo_id n = repo_id ∧ node_path n = p) (rows (nodes db)))).

(** src/crates/weave-graph-store-sqlite/src/backend.rs:156-181 [SqliteStorage::source_paths_for_target_paths] *)
Definition source_paths_for_target_paths (db : Db) (repo_id : string) (paths : list string) : gset string :=
  list_to_set (paths ≫= λ p, omap (λ e,
    source ← nodes db !! source_id e;
    target ← nodes db !! target_id e;
    if decide (node_repo_id target = repo_id ∧ node_path target = p) then Some (node_path source) else None)
    (rows (edges db))).

Definition selected (paths : list string) (files : repo_files) : repo_files := filter (λ f, f.1 ∈ paths) files.

Definition unresolved_paths (db : Db) (name : string) : list string :=
  match get_files_with_unresolved_refs db "local" name with Ok paths => paths | Err _ => [] end.

(** src/crates/weave-graph-cli/src/index.rs:764-815 [incremental_reindex]
    The files whose edges are resolved again. *)
Definition affected_files (db : Db) (files : repo_files) (changed : list string) : list string :=
  let new_names : list string := selected changed files ≫= λ f,
    match f.2 with Some parsed => (λ c, short_name_of (card_symbol c)) <$> symbols parsed | None => [] end in
  let short_names := short_symbol_names_for_paths db "local" changed ∪ list_to_set new_names in
  dedup (sort_by String.leb (changed ++ elements (source_paths_for_target_paths db "local" changed) ++
    (elements short_names ≫= unresolved_paths db))).

(** src/crates/weave-graph-cli/src/index.rs:820-825 [incremental_reindex]
    Without the vectors, which Vector purges. *)
Definition purge_changed (db : Db) (rel : string) : Db * result () StorageError :=
  match purge_file_edges db "local" rel with
  | (db, Err e) => (db, Err e)
  | (db, Ok _) => let '(db, r) := purge_file_unresolved_refs db "local" rel in (db, result_map (λ _, ()) r)
  end.

(** src/crates/weave-graph-cli/src/index.rs:835-842 [incremental_reindex] *)
Definition sweep_changed (changed_nodes : list (string * NodeId)) (db : Db) (rel : string) : Db * result () StorageError :=
  let retained := snd <$> filter (λ p : string * NodeId, p.1 = rel) changed_nodes in
  let '(db, r) := purge_file_nodes_except db "local" rel retained in (db, result_map (λ _, ()) r).

(** src/crates/weave-graph-cli/src/index.rs:817-865 [incremental_reindex]
    The contents of the staging database, from a copy of the live one.  The
    calls that keep vectors and texts in step (822-823, 843-846) are those of Vector
    and Fts and do not write the tables of the graph. *)
Definition update_db (files : repo_files) (changed : list string) (db : Db) : option (result Db StorageError) :=
  let affected := affected_files db files changed in
  match try_loop purge_changed changed db with
  | (_, Err e) => Some (Err e)
  | (db, Ok _) =>
      '((db, changed_nodes), e) ←
        parse_files_bounded fst parsed_nodes upsert_file_nodes parse_chunk (selected changed files) (db, []);
      match e with
      | Some e => Some (Err e)
      | None =>
          match try_loop (sweep_changed changed_nodes) changed db with
          | (_, Err e) => Some (Err e)
          | (db, Ok _) =>
              r ← build_project_index_from_storage db;
              match r with
              | Err e => Some (Err e)
              | Ok (ix, ids) =>
                  '(db, e) ← upsert_all_edges ix ids (selected affected files) db;
                  match e with Some e => Some (Err e) | None => Some (Ok db) end
              end
          end
      end
  end.

(** src/crates/weave-graph-cli/src/index.rs:732-760 [incremental_reindex]
    Called when there is a live database; {!update_db} and {!finish_reindex} follow.
    The steps for Markdown and notes between them (866-891) are those of Docs and
    NoteCmds. *)
Definition incremental_reindex (renamed : bool) (files : repo_files) (changed : list string) (active : Db) :
    option (weave_dir * result IndexStats index_error) :=
  let dir := mkDir (Some active) false in
  match changed with
  | [] => Some (dir, Ok (mkStats (length files) (size (nodes active)) (size (edges active))))
  | _ =>
      let dir := mkDir (Some active) true in
      r ← update_db files changed active;
      match r with
      | Err e => Some (dir, Err (Storing e))
      | Ok db => Some (finish_reindex renamed db dir (mkStats (length files) (size (nodes db)) (size (edges db))))
      end
  end.

(** ** The choice *)

(** src/crates/weave-graph-cli/src/index.rs:61-68 [indexed_file_count] *)
Definition indexed_file_count (db : Db) : nat := size (list_to_set (node_path <$> rows (nodes db)) : gset string).

(** src/crates/weave-graph-core/src/indexer.rs:22-27 [should_bail_out]
    [ratio_of] multiplies by the ratio, a double, and truncates. *)
Definition should_bail_out (bailout_floor : nat) (ratio_of : nat → nat) (changed total_indexed : nat) : bool :=
  Nat.max bailout_floor (ratio_of total_indexed) <? changed.

(** src/crates/weave-graph-cli/src/main.rs:1314-1321 [is_indexable]
    Of the build without Markdown notes. *)
Definition is_indexable (path : string) : bool :=
  match file_name path with
  | Some name => negb (starts_with name ".") && bool_decide (is_Some (from_path path))
  | None => bool_decide (is_Some (from_path path))
  end.

(** src/crates/weave-graph-cli/src/main.rs:1393-1427 [reindex]
    [version_ok]: the stored extractor version is current; [changed]: the diff
    since the last indexed commit, if there is one; the default floor is 100. *)
Definition reindex (renamed incremental version_ok : bool) (ratio_of : nat → nat) (changed : option (list string))
    (files : repo_files) (dir : weave_dir) : option (weave_dir * result IndexStats index_error) :=
  let incremental := incremental && version_ok in
  match active_db dir, changed with
  | Some active, Some changed =>
      let changed := filter is_indexable changed in
      if incremental && negb (should_bail_out 100 ratio_of (length changed) (indexed_file_count active))
      then incremental_reindex renamed files changed active
      else full_reindex renamed files dir
  | _, _ => full_reindex renamed files dir
  end.
End reindex.
