(* ===== verification/ReindexProofs.v ===== *)
(** * The full rebuild is exact

    What a rebuild leaves in the database: one row per symbol and per resolved
    reference of the files, and the references that resolve to nothing; and what
    the incremental update keeps and misses. *)

From S2P Require Import Prelude Str Model Csr Paths CsrGraph SqlStore SqlProofs SqlGraph SqlReindex Language Interner ProjectIndex Pipeline Reindex.

(** ** Tables written by insert-or-replace *)

(** The last write of each key survives. *)
Definition live {A} (same : A → A → bool) (l : list A) (x : A) : Prop :=
  ∃ l1 l2, l = l1 ++ x :: l2 ∧ ∀ y, y ∈ l2 → same y x = false.

Lemma live_snoc {A} (same : A → A → bool) l x y : live same (l ++ [x]) y ↔ y = x ∨ (live same l y ∧ same x y = false).
Proof.
  split.
  - intros (l1 & l2 & Hl & Hno). destruct l2 as [|z l2 _] using rev_ind.
    + apply app_inj_tail in Hl as [_ ->]. by left.
    + rewrite app_comm_cons, app_assoc in Hl. apply app_inj_tail in Hl as [-> ->]. right. split; [|apply Hno; set_solver].
      exists l1, l2. split; [done|]. set_solver.
  - intros [->|[(l1 & l2 & -> & Hno) Hd]]; [exists l, []; split; [done|set_solver]|].
    exists l1, (l2 ++ [x]). split; [by rewrite <-app_assoc|]. set_solver.
Qed.

Lemma live_elem {A} (same : A → A → bool) l x : live same l x → x ∈ l.
Proof. intros (l1 & l2 & -> & _). set_solver. Qed.


Section table.
Context {A : Type} (same : A → A → bool) (setid : A → N → A).
Context (setid_twice : ∀ x i j, setid (setid x i) j = setid x j).
Context (same_sym : ∀ x y, same x y = same y x).
Context (same_setid : ∀ x i y, same (setid x i) y = same x y).

(** [t] holds exactly the surviving writes of [l]. *)
Definition table_of (t : gmap N A) (l : list A) : Prop :=
  ∀ x, (∃ i, t !! i = Some (setid x i)) ↔ live same l (setid x 0).

Lemma table_of_empty : table_of ∅ [].
Proof.
  intros x. split; [intros (i & Hi); by rewrite lookup_empty in Hi|]. intros (l1 & l2 & Hl & _). by destruct l1.
Qed.

Lemma table_of_insert t l x id :
  table_of t l → setid x 0 = x →
  (∀ y, t !! id = Some y → same y x = true) → (∀ j y, t !! j = Some y → same y x = true → j = id) →
  table_of (<[id := setid x id]> t) (l ++ [x]).
Proof.
  intros Ht Hx Hrow Huniq y. rewrite live_snoc. split.
  - intros (i & [[<- Heq]|[Hne Hi]]%lookup_insert_Some).
    + left. by rewrite <-(setid_twice y id), <-Heq, setid_twice.
    + right. split; [by apply Ht; exists i|]. destruct (same x (setid y 0)) eqn:Hs; [|done]. destruct Hne. symmetry.
      apply (Huniq i (setid y i) Hi). by rewrite same_setid, <-(same_setid y 0), same_sym.
  - intros [Heq|[Hl Hs]].
    + exists id. rewrite lookup_insert_eq. f_equal. by rewrite <-Heq, setid_twice.
    + apply Ht in Hl as [i Hi]. exists i. destruct (decide (i = id)) as [->|]; [|by rewrite lookup_insert_ne].
      apply Hrow in Hi. rewrite same_setid, <-(same_setid y 0), same_sym in Hi. congruence.
Qed.
End table.

Lemma same_key_sym a b : same_key a b = same_key b a.
Proof. apply eq_true_iff_eq. rewrite !same_key_true. naive_solver. Qed.
Lemma with_id_twice n i j : with_id (with_id n i) j = with_id n j.
Proof. done. Qed.
Lemma same_key_with_id a i b : same_key (with_id a i) b = same_key a b.
Proof. done. Qed.

Definition same_edge (a b : Edge) : bool :=
  bool_decide (source_id a = source_id b ∧ target_id a = target_id b ∧ edge_kind a = edge_kind b).
Definition with_edge_id (e : Edge) (i : N) : Edge :=
  mkEdge i (source_id e) (target_id e) (edge_kind e) (weight e) (extractor e) (resolution_kind e).

Lemma same_edge_true a b :
  same_edge a b = true ↔ source_id a = source_id b ∧ target_id a = target_id b ∧ edge_kind a = edge_kind b.
Proof. apply bool_decide_eq_true. Qed.
Lemma same_edge_sym a b : same_edge a b = same_edge b a.
Proof. apply eq_true_iff_eq. rewrite !same_edge_true. naive_solver. Qed.
Lemma with_edge_id_twice e i j : with_edge_id (with_edge_id e i) j = with_edge_id e j.
Proof. done. Qed.
Lemma same_edge_with_id a i b : same_edge (with_edge_id a i) b = same_edge a b.
Proof. done. Qed.

Abbreviation node_table := (table_of same_key with_id).
Abbreviation edge_table := (table_of same_edge with_edge_id).

Definition erased (n : Node) : Node := with_id n 0.

(** The rows of the other files; a file that does not parse keeps its own. *)
Definition parsed_paths (files : repo_files) : list string := omap (λ f : string * option ParsedFile, const f.1 <$> f.2) files.
Definition other_unresolved (paths : list string) (l : list unresolved_row) : list unresolved_row :=
  filter (λ r, ¬ (ur_repo_id r = "local" ∧ ur_path r ∈ paths)) l.

Lemma other_unresolved_nil l : other_unresolved [] l = l.
Proof. unfold other_unresolved. induction l as [|r l IH]; [done|]. rewrite filter_cons_True, IH; set_solver. Qed.

Lemma parsed_paths_elem files p : p ∈ parsed_paths files → p ∈ files.*1.
Proof.
  intros ([q [parsed|]] & Hin & ?)%list_elem_of_omap; simplify_eq/=. by apply (list_elem_of_fmap_2 fst _ (p, Some parsed)).
Qed.

Lemma other_unresolved_cons path paths l new :
  (∀ r, r ∈ new → ur_path r ∉ paths) →
  other_unresolved paths (filter (λ r, ¬ (ur_repo_id r = "local" ∧ ur_path r = path)) l ++ new) =
  other_unresolved (path :: paths) l ++ new.
Proof.
  intros Hnew. unfold other_unresolved. rewrite filter_app, list_filter_filter. f_equal.
  - apply list_filter_iff. set_solver.
  - induction new as [|r new IH]; [done|]. rewrite filter_cons_True, IH; set_solver.
Qed.

Section rebuild.
Context {engine : Sqlite} {laws : SqliteLaws}.

(** ** Nodes *)

Lemma rows_insert_submseteq {B} (f : B → B) (t : gmap N B) i x l :
  f <$> rows t ⊆+ l → f <$> rows (<[i := x]> t) ⊆+ l ++ [f x].
Proof.
  intros Hsub. rewrite <-insert_delete_eq. unfold rows at 1.
  rewrite map_to_list_insert by apply lookup_delete_eq. cbn [fmap list_fmap snd].
  rewrite Permutation_app_comm. cbn [app]. apply submseteq_skip. etrans; [|exact Hsub].
  apply fmap_submseteq, fmap_submseteq, map_to_list_submseteq, delete_subseteq.
Qed.

Record built (ns : list Node) (db : Db) : Prop := {
  bt_ok : db_ok db;
  bt_rest : db = with_nodes empty_db (nodes db);
  bt_table : node_table (nodes db) ns;
  bt_sub : erased <$> rows (nodes db) ⊆+ ns;
}.

Lemma built_nil : built [] empty_db.
Proof. split; [apply empty_db_ok|done|apply table_of_empty|done]. Qed.

Lemma insert_or_replace_row db n :
  db_ok db → ∃ id, insert_or_replace_node db n = (with_nodes db (<[id := with_id n id]> (nodes db)), Ok id) ∧
    (∀ m, nodes db !! id = Some m → same_key m n = true) ∧
    (∀ j m, nodes db !! j = Some m → same_key m n = true → j = id).
Proof.
  intros Hok. unfold insert_or_replace_node. destruct (key_holder db n None) as [m|] eqn:Hk.
  - apply key_holder_Some in Hk as ([i Hi] & Hs & _). rewrite (no_id _ (do_nodes _ Hok) _ _ Hi). exists i. split_and!.
    + apply same_key_true in Hs as (-> & -> & -> & ->). done.
    + intros m' Hm'. by simplify_eq.
    + intros j m' Hj Hs'. apply (no_key _ (do_nodes _ Hok) _ _ _ _ Hj Hi). rewrite same_key_true in Hs, Hs' |- *. naive_solver congruence.
  - unfold insert_node. rewrite Hk. eexists. split; [done|]. split.
    + intros m Hm. destruct (fresh_rowid_new (dom (nodes db))). by apply elem_of_dom.
    + intros j m Hj Hs. by apply (proj1 (key_holder_None _ _ _) Hk _ _ Hj) in Hs.
Qed.

Lemma built_step ns db n :
  built ns db → erased n = n → ∃ db' id, insert_or_replace_node db n = (db', Ok id) ∧ built (ns ++ [n]) db'.
Proof.
  intros [Hok Hrest Ht Hsub] Hn. destruct (insert_or_replace_row db n Hok) as (id & He & Hrow & Huniq).
  pose proof (insert_or_replace_ok db n Hok) as Hok'. rewrite He in Hok' |- *. do 2 eexists. split; [done|]. split.
  - apply Hok'.
  - by rewrite Hrest.
  - by apply table_of_insert; eauto using same_key_sym, same_key_with_id.
  - cbn. rewrite <-Hn at 2. change (erased n) with (erased (with_id n id)). by apply rows_insert_submseteq.
Qed.

Lemma insert_fresh_built ms : ∀ ns db, built ns db → (∀ n, n ∈ ms → erased n = n) →
  ∃ db' ids, insert_fresh_nodes db ms = (db', Ok ids) ∧ length ids = length ms ∧ built (ns ++ ms) db'.
Proof.
  unfold insert_fresh_nodes. induction ms as [|n ms IH]; intros ns db Hb Hms; cbn [try_loop].
  { exists db, []. by rewrite app_nil_r. }
  destruct (built_step ns db n Hb) as (db1 & id & -> & Hb1); [apply Hms; set_solver|].
  destruct (IH _ _ Hb1) as (db2 & ids & -> & Hlen & Hb2); [set_solver|].
  exists db2, (id :: ids). rewrite <-app_assoc in Hb2. cbn. auto.
Qed.

(** Every symbol of the repository, in file order. *)
Definition repo_nodes (files : repo_files) : list Node := files ≫= λ f, default [] (parsed_nodes f).

Lemma file_nodes_erased rel parsed n : n ∈ file_nodes_of rel parsed → erased n = n.
Proof. intros (c & -> & _)%list_elem_of_fmap. done. Qed.

Lemma insert_files_built files : ∀ ns db k, built ns db →
  ∃ db', for_each_parsed fst parsed_nodes insert_file_nodes files (db, k) =
      ((db', k + length (repo_nodes files)), None) ∧ built (ns ++ repo_nodes files) db'.
Proof.
  induction files as [|[rel [parsed|]] files IH]; intros ns db k Hb; cbn [for_each_parsed parsed_nodes fmap option_fmap option_map snd fst].
  - exists db. cbn. by rewrite Nat.add_0_r, app_nil_r.
  - unfold insert_file_nodes at 1. cbn [fst snd].
    destruct (insert_fresh_built (file_nodes_of rel parsed) ns db Hb (file_nodes_erased rel parsed)) as (db1 & ids & -> & Hlen & Hb1).
    destruct (IH _ _ (k + length ids) Hb1) as (db2 & -> & Hb2). exists db2. cbn [repo_nodes mbind list_bind] in *.
    unfold repo_nodes. cbn [mbind list_bind parsed_nodes fmap option_fmap option_map default snd fst]. split.
    + rewrite length_app, Hlen, Nat.add_assoc. done.
    + by rewrite app_assoc.
  - destruct (IH ns db k Hb) as (db2 & -> & Hb2). by exists db2.
Qed.

(** ** The resolver *)

Definition node_syms (ns : list Node) : list (string * string) :=
  (λ n, (node_moniker n, short_name_of (node_symbol n))) <$> ns.

(** The id the resolver answers for a moniker: the last row that has it. *)
Definition node_of (ns : list Node) (m : string) : option NodeId :=
  last (node_id <$> filter (λ n, node_moniker n = m) ns).

Lemma node_of_snoc ns n m : node_of (ns ++ [n]) m = if decide (node_moniker n = m) then Some (node_id n) else node_of ns m.
Proof.
  unfold node_of. rewrite filter_app, fmap_app, filter_cons, filter_nil. case_decide; cbn; [apply last_snoc|by rewrite app_nil_r].
Qed.

Lemma node_of_Some ns m i : node_of ns m = Some i → ∃ n, n ∈ ns ∧ node_id n = i ∧ node_moniker n = m.
Proof.
  unfold node_of. intros Hl%last_Some_elem_of. apply list_elem_of_fmap in Hl as (n & -> & [? ?]%list_elem_of_filter). eauto.
Qed.

Lemma total_bytes_cons x l : total_bytes (x :: l) = String.length x + total_bytes l.
Proof. rewrite <-(total_bytes_one x). apply (total_bytes_app [x] l). Qed.

Lemma fits_submseteq syms syms' : syms ⊆+ syms' → fits syms' → fits syms.
Proof.
  intros (k & Hp)%submseteq_Permutation [Hn Hb].
  assert (∀ l l' : list string, l ≡ₚ l' → total_bytes l = total_bytes l') as Hperm.
  { induction 1 as [| x l l' _ IH | x y l | l l1 l2 _ IH1 _ IH2]; [done| | |congruence].
    - rewrite !total_bytes_cons. lia.
    - rewrite !total_bytes_cons. lia. }
  rewrite (Permutation_length Hp), length_app in Hn.
  rewrite (Hperm _ _ (fmap_Permutation fst _ _ Hp)), (Hperm _ _ (fmap_Permutation snd _ _ Hp)), !fmap_app, !total_bytes_app in Hb.
  split; lia.
Qed.

Section resolver.
Context (hash_one : string → N).

Record ids_rep (ns : list Node) (strs : list string) (ids : gmap N NodeId) : Prop := {
  ids_of id m : strs !! as_usize id = Some m → ids !! id = node_of ns m;
  ids_dom id i : ids !! id = Some i → is_Some (strs !! as_usize id);
}.

Lemma ids_rep_step ns strs ids n id strs' :
  ids_rep ns strs ids → NoDup strs' → strs `prefix_of` strs' → (∀ m, m ∈ ns → node_moniker m ∈ strs) →
  strs' !! as_usize id = Some (node_moniker n) → ids_rep (ns ++ [n]) strs' (<[id := node_id n]> ids).
Proof.
  intros [Hof Hdom] Hnd Hpre Hns Hid. split.
  - intros j m Hj. rewrite node_of_snoc. case_decide as Hm.
    + subst m. assert (j = id) as ->; [|by rewrite lookup_insert_eq].
      pose proof (NoDup_lookup _ _ _ _ Hnd Hj Hid). unfold as_usize in *. lia.
    + rewrite lookup_insert_ne by congruence. destruct (strs !! as_usize j) as [m'|] eqn:Hs.
      * apply Hof. rewrite (prefix_lookup_Some _ _ _ _ Hs Hpre) in Hj. congruence.
      * destruct (ids !! j) as [i|] eqn:Hi; [by apply Hdom in Hi as [? ?]; congruence|].
        destruct (node_of ns m) as [i|] eqn:Hno; [|done]. apply node_of_Some in Hno as (x & Hx & _ & <-).
        apply Hns, list_elem_of_lookup_1 in Hx as [k Hk].
        pose proof (NoDup_lookup _ _ _ _ Hnd Hj (prefix_lookup_Some _ _ _ _ Hk Hpre)). congruence.
  - intros j i [[<- _]|[_ Hi]]%lookup_insert_Some; [eauto|]. apply Hdom in Hi as [x Hx].
    exists x. by apply (prefix_lookup_Some _ _ _ _ Hx).
Qed.

Lemma index_nodes_rep ms : ∀ ns ix strs ids,
  index_rep hash_one ix (node_syms ns) strs → ids_rep ns strs ids → fits (node_syms (ns ++ ms)) →
  ∃ ix' strs' ids', foldl (index_node hash_one) (Some (ix, ids)) ms = Some (ix', ids') ∧
    index_rep hash_one ix' (node_syms (ns ++ ms)) strs' ∧ ids_rep (ns ++ ms) strs' ids'.
Proof.
  induction ms as [|n ms IH]; intros ns ix strs ids Hix Hids Hfit.
  { exists ix, strs, ids. by rewrite app_nil_r. }
  rewrite (app_assoc ns [n] ms : ns ++ n :: ms = (ns ++ [n]) ++ ms) in Hfit |- *. cbn [foldl].
  assert (fits (node_syms (ns ++ [n]))) as [Hn Hb].
  { unfold node_syms in *. rewrite fmap_app in Hfit. by eapply fits_prefix. }
  unfold node_syms in Hn, Hb. rewrite fmap_app in Hn, Hb. fold (node_syms ns) in Hn, Hb. rewrite length_app in Hn.
  rewrite !fmap_app in Hb. cbn [fmap list_fmap length fst snd] in Hn, Hb.
  destruct (add_symbol_rep hash_one ix (node_syms ns) strs (node_moniker n) (short_name_of (node_symbol n)) Hix)
    as (ix' & id & strs' & Hadd & Hix' & Hid & Hpre); [lia|exact Hb|].
  unfold index_node at 2. cbn [mbind option_bind]. rewrite Hadd. cbn [mbind option_bind].
  apply (IH (ns ++ [n]) ix' strs').
  - unfold node_syms. by rewrite fmap_app.
  - apply (ids_rep_step _ strs); [done|apply (xr_interner _ _ _ _ Hix')|done| |done].
    intros m Hm. apply (xr_known _ _ _ _ Hix). left. unfold node_syms. rewrite <-list_fmap_compose.
    by apply (list_elem_of_fmap_2 (λ n, node_moniker n)).
  - done.
Qed.

Lemma build_index_rep db :
  fits (node_syms (stored_nodes db)) →
  ∃ ix strs ids, build_project_index_from_storage hash_one db = Some (Ok (ix, ids)) ∧
    index_rep hash_one ix (node_syms (stored_nodes db)) strs ∧ ids_rep (stored_nodes db) strs ids.
Proof.
  intros Hfit. unfold build_project_index_from_storage, sql_node_count.
  destruct (index_with_capacity_rep hash_one (size (nodes db))) as (ix0 & -> & Hix0). cbn [mbind option_bind].
  destruct (index_nodes_rep (stored_nodes db) [] ix0 [] ∅) as (ix & strs & ids & Hf & Hix & Hids); [done| |done|].
  { split; intros; [done|]. by rewrite lookup_empty in *. }
  exists ix, strs, ids. split; [|done]. unfold sql_for_each_node, sql_all_nodes. cbn [result_bind].
  change ((foldl (index_node hash_one) (Some (ix0, ∅)) (stored_nodes db) ≫= λ r, Some (Ok (E := StorageError) r)) = Some (Ok (ix, ids))). by rewrite Hf.
Qed.

(** ** Edges *)

(** The row a resolved reference becomes; [None] when an end is no stored symbol. *)
Definition edge_row (ns : list Node) (r : ResolvedEdge) : option Edge :=
  s ← node_of ns (re_source r);
  t ← node_of ns (re_target r);
  Some (mkEdge 0 s t (re_kind r) one_f64 (re_extractor r) (Some (resolution_str (re_resolution r)))).

Definition file_edges (ns : list Node) (parsed : ParsedFile) : list Edge :=
  omap (edge_row ns) (spec_edges (node_syms ns) parsed).
Definition file_unresolved (ns : list Node) (parsed : ParsedFile) : list string :=
  dedup (sort_by String.leb (spec_unresolved (node_syms ns) parsed)).

Lemma resolve_file_rep ix ns strs ids parsed :
  index_rep hash_one ix (node_syms ns) strs → ids_rep ns strs ids →
  resolve_file hash_one ix ids parsed = Some (file_edges ns parsed, file_unresolved ns parsed).
Proof.
  intros Hix Hids. unfold resolve_file. destruct (resolve_ids_rep hash_one ix _ strs Hix parsed) as (es & -> & HF).
  cbn [fmap option_fmap option_map fst snd]. do 2 f_equal. unfold file_edges.
  induction HF as [|e r es rs (Hs & Ht & Hk & Hr & Hx) _ IH]; [done|].
  assert (stored_edge ids e = edge_row ns r) as Heq.
  { unfold stored_edge, edge_row. rewrite (ids_of _ _ _ Hids _ _ Hs), (ids_of _ _ _ Hids _ _ Ht). by rewrite Hk, Hr, Hx. }
  cbn. rewrite Heq. by destruct (edge_row ns r); rewrite IH.
Qed.
End resolver.

Lemma node_of_stored db m i : db_ok db → node_of (stored_nodes db) m = Some i → is_Some (nodes db !! i).
Proof.
  intros Hok (n & Hn & <- & _)%node_of_Some. apply elem_of_stored_nodes in Hn as [j Hj].
  rewrite (no_id _ (do_nodes _ Hok) _ _ Hj). eauto.
Qed.

Lemma file_edges_ends db parsed e :
  db_ok db → e ∈ file_edges (stored_nodes db) parsed →
  with_edge_id e 0 = e ∧ is_Some (nodes db !! source_id e) ∧ is_Some (nodes db !! target_id e).
Proof.
  intros Hok (r & _ & Hr)%list_elem_of_omap. unfold edge_row in Hr.
  destruct (node_of _ (re_source r)) as [s'|] eqn:Hs; [|done]. destruct (node_of _ (re_target r)) as [t|] eqn:Ht; [|done].
  simplify_eq/=. split_and!; [done|by eapply node_of_stored..].
Qed.

Section linking.
Context (Hfk : foreign_keys = true).

Record linked (db0 : Db) (es : list Edge) (db : Db) : Prop := {
  lk_ok : db_ok db;
  lk_nodes : nodes db = nodes db0;
  lk_table : edge_table (edges db) es;
}.

Lemma upsert_edge_row db e :
  db_ok db → is_Some (nodes db !! source_id e) → is_Some (nodes db !! target_id e) →
  ∃ id, upsert_edge db e = (with_edges db (<[id := with_edge_id e id]> (edges db)), Ok id) ∧
    (∀ f, edges db !! id = Some f → same_edge f e = true) ∧
    (∀ j f, edges db !! j = Some f → same_edge f e = true → j = id).
Proof.
  intros Hok Hs Ht. unfold upsert_edge. destruct (edge_holder db e) as [[i f]|] eqn:Hh.
  - apply edge_holder_Some in Hh as (Hi & H1 & H2 & H3). exists i. split_and!.
    + by rewrite H1, H2, H3.
    + intros g Hg. simplify_eq. by apply same_edge_true.
    + intros j g Hj (G1 & G2 & G3)%same_edge_true. eapply (eo_key _ _ (do_edges _ Hok)); [exact Hj|exact Hi|congruence..].
  - rewrite !bool_decide_true by done. rewrite andb_false_r. eexists. split; [done|]. split.
    + intros g Hg. destruct (fresh_rowid_new (dom (edges db))). by apply elem_of_dom.
    + intros j g Hj Hg%same_edge_true. by destruct (edge_holder_None _ _ Hh _ _ Hj).
Qed.

Lemma upsert_edges_linked db0 ms : ∀ es db, linked db0 es db →
  (∀ e, e ∈ ms → with_edge_id e 0 = e ∧ is_Some (nodes db0 !! source_id e) ∧ is_Some (nodes db0 !! target_id e)) →
  ∃ t, upsert_edges db ms = (with_edges db t, Ok ()) ∧ linked db0 (es ++ ms) (with_edges db t).
Proof.
  unfold upsert_edges. induction ms as [|e ms IH]; intros es db Hl Hms; cbn [try_loop].
  { exists (edges db). rewrite app_nil_r. by destruct db. }
  destruct (Hms e) as (He & Hs & Ht); [set_solver|]. destruct Hl as [Hok Hn Htab]. rewrite <-Hn in Hs, Ht.
  destruct (upsert_edge_row db e Hok Hs Ht) as (id & Hu & Hrow & Huniq).
  pose proof (upsert_edge_ok db e Hfk Hok) as Hok'. rewrite Hu in Hok' |- *.
  destruct (IH (es ++ [e]) (with_edges db (<[id := with_edge_id e id]> (edges db)))) as (t & Hw & Hl).
  { split; [apply Hok'|done|]. by apply table_of_insert; eauto using same_edge_sym, same_edge_with_id. }
  { set_solver. }
  exists t. rewrite <-app_assoc in Hl. destruct (try_loop upsert_edge ms _) as [db' [bs|]]; simplify_eq/=. by split.
Qed.

Lemma linked_unresolved db0 es db l : linked db0 es db → linked db0 es (with_unresolved db l).
Proof. intros [[Hn He Hno Hs Hl] Hns Ht]. by split; [split|..]. Qed.

(** What one file of the repository contributes. *)
Definition repo_edges (ns : list Node) (files : repo_files) : list Edge :=
  files ≫= λ f, from_option (file_edges ns) [] f.2.
Definition repo_unresolved (ns : list Node) (files : repo_files) : list unresolved_row :=
  files ≫= λ f, mkUnresolved "local" f.1 <$> from_option (file_unresolved ns) [] f.2.

Definition resolved_file (ns : list Node) (f : string * option ParsedFile) : string * option (list Edge * list string) :=
  (f.1, (λ parsed, (file_edges ns parsed, file_unresolved ns parsed)) <$> f.2).

Lemma link_files db0 (Hok0 : db_ok db0) files : ∀ es db, linked db0 es db → NoDup files.*1 →
  ∃ t, for_each_parsed fst snd upsert_file_edges (resolved_file (stored_nodes db0) <$> files) db =
      (with_unresolved (with_edges db t)
         (other_unresolved (parsed_paths files) (unresolved_refs db) ++ repo_unresolved (stored_nodes db0) files), None) ∧
    linked db0 (es ++ repo_edges (stored_nodes db0) files) (with_edges db t).
Proof.
  set (ns := stored_nodes db0). induction files as [|[rel o] files IH]; intros es db Hl Hnd.
  { exists (edges db). cbn. rewrite other_unresolved_nil, !app_nil_r. by destruct db. }
  cbn [fmap list_fmap fst] in Hnd. apply NoDup_cons in Hnd as [Hrel Hnd].
  cbn [fmap list_fmap resolved_file for_each_parsed fst snd option_fmap option_map].
  destruct o as [parsed|]; [|apply (IH es db Hl Hnd)].
  destruct (upsert_edges_linked db0 (file_edges ns parsed) es db Hl) as (t1 & Hu & Hl1).
  { intros e He. by apply (file_edges_ends db0 parsed). }
  cbn [fmap option_fmap option_map]. unfold upsert_file_edges at 1. cbn [fst snd]. rewrite Hu.
  unfold purge_file_unresolved_refs, upsert_unresolved_refs. cbn [err_of].
  set (kept := filter _ (unresolved_refs (with_edges db t1))). cbn [unresolved_refs with_unresolved with_edges].
  set (un := mkUnresolved "local" rel <$> file_unresolved ns parsed).
  destruct (IH (es ++ file_edges ns parsed) (with_unresolved (with_edges db t1) (kept ++ un)))
    as (t & Hf & Hl2); [by apply linked_unresolved|done|].
  exists t. split.
  - etrans; [exact Hf|]. cbn [unresolved_refs with_unresolved with_edges]. unfold kept. rewrite other_unresolved_cons.
    + rewrite <-app_assoc. done.
    + intros r (x & -> & _)%list_elem_of_fmap Hin%parsed_paths_elem. done.
  - rewrite <-app_assoc in Hl2. apply (linked_unresolved _ _ _ (unresolved_refs db)) in Hl2. exact Hl2.
Qed.
End linking.
End rebuild.

Lemma node_syms_erased ns : node_syms (erased <$> ns) = node_syms ns.
Proof. unfold node_syms. by rewrite <-list_fmap_compose. Qed.

Lemma built_fits {engine : Sqlite} {laws : SqliteLaws} ns db :
  built ns db → fits (node_syms ns) → fits (node_syms (stored_nodes db)).
Proof.
  intros Hb. apply fits_submseteq. rewrite <-(node_syms_erased (stored_nodes db)).
  apply fmap_submseteq. rewrite stored_nodes_perm. apply Hb.
Qed.

Lemma upsert_all_edges_linked {engine : Sqlite} {laws : SqliteLaws} hash_one chunk ix strs ids files es db
    (Hfk : foreign_keys = true) (Hok : db_ok db) :
  edge_table (edges db) es → NoDup files.*1 →
  index_rep hash_one ix (node_syms (stored_nodes db)) strs → ids_rep (stored_nodes db) strs ids →
  ∃ t, upsert_all_edges hash_one chunk ix ids files db =
      Some (with_unresolved (with_edges db t)
        (other_unresolved (parsed_paths files) (unresolved_refs db) ++ repo_unresolved (stored_nodes db) files), None) ∧
    linked db (es ++ repo_edges (stored_nodes db) files) (with_edges db t).
Proof.
  intros He Hnd Hix Hids. unfold upsert_all_edges.
  rewrite (mapM_total _ (resolved_file (stored_nodes db))); [|].
  2:{ intros [rel [parsed|]]; [|done]. cbn [fst snd]. by rewrite (resolve_file_rep _ _ _ _ _ _ Hix Hids). }
  cbn [mbind option_bind].
  destruct (link_files Hfk db Hok files es db) as (t & Hf & Hl); [by split|done|].
  exists t. rewrite bounded_ok by (by rewrite Hf). by rewrite Hf.
Qed.

Lemma rebuild_db_exact {engine : Sqlite} {laws : SqliteLaws} hash_one chunk files
    (Hfk : foreign_keys = true) (Hpaths : NoDup files.*1) (Hfit : fits (node_syms (repo_nodes files))) :
  ∃ db, rebuild_db hash_one chunk files = Some (Ok (db, length (repo_nodes files))) ∧
    db_ok db ∧ node_table (nodes db) (repo_nodes files) ∧
    edge_table (edges db) (repo_edges (stored_nodes db) files) ∧
    unresolved_refs db = repo_unresolved (stored_nodes db) files.
Proof.
  destruct (insert_files_built files [] empty_db 0 built_nil) as (db1 & Hn & Hb).
  destruct (build_index_rep hash_one db1) as (ix & strs & ids & Hix & Hrep & Hids); [by eapply built_fits|].
  pose proof (bt_rest _ _ Hb) as Hrest.
  destruct (upsert_all_edges_linked hash_one chunk ix strs ids files [] db1 Hfk (bt_ok _ _ Hb)) as (t & He & Hl);
    [rewrite Hrest; apply table_of_empty|done..|].
  assert (unresolved_refs db1 = []) as Hun by (by rewrite Hrest). rewrite Hun in He. cbn [other_unresolved app] in He.
  exists (with_unresolved (with_edges db1 t) (repo_unresolved (stored_nodes db1) files)).
  unfold rebuild_db. rewrite bounded_ok by (by rewrite Hn). rewrite Hn. cbn [mbind option_bind].
  rewrite Hix. cbn [mbind option_bind]. rewrite He.
  apply (linked_unresolved _ _ _ (repo_unresolved (stored_nodes db1) files)) in Hl as [Hok _ Ht].
  split_and!; [done|exact Hok|exact (bt_table _ _ Hb)|exact Ht|done].
Qed.

(** C12: a full rebuild indexes the repository exactly.  When every file path
    occurs once and the symbol names fit the interner, it returns; the promoted
    database is consistent and holds one row for each symbol (natural key, last
    write wins), one for each reference that resolves by the specification over
    the stored symbols, and the list of the references that resolve to nothing.
    When the promotion fails the live database is the old one. *)
Theorem full_reindex_exact {engine : Sqlite} {laws : SqliteLaws} hash_one chunk files dir
    (Hfk : foreign_keys = true) (Hpaths : NoDup files.*1) (Hfit : fits (node_syms (repo_nodes files))) :
  ∃ db, full_reindex hash_one chunk true files dir =
      Some (mkDir (Some db) false, Ok (mkStats (length files) (length (repo_nodes files)) (size (edges db)))) ∧
    full_reindex hash_one chunk false files dir = Some (mkDir (active_db dir) true, Err PromotionFailed) ∧
    db_ok db ∧ node_table (nodes db) (repo_nodes files) ∧
    edge_table (edges db) (repo_edges (stored_nodes db) files) ∧
    unresolved_refs db = repo_unresolved (stored_nodes db) files.
Proof.
  destruct (rebuild_db_exact hash_one chunk files Hfk Hpaths Hfit) as (db & Hr & Hdb).
  exists db. unfold full_reindex. rewrite Hr. split_and!; [done|done|apply Hdb..].
Qed.
