(* ===== verification/Incremental.v ===== *)
(** * What the incremental update keeps and rewrites

    The phases of [incremental_reindex]: purge, upsert, sweep, resolve.  The
    result is characterised exactly against the database before it; two concrete
    runs show where it differs from a rebuild. *)

From S2P Require Import Prelude Str Model Csr Paths CsrGraph SqlStore SqlProofs SqlGraph SqlReindex Language Interner ProjectIndex Pipeline Reindex ReindexProofs.

(** A valid table is the result of writing its own rows. *)
Lemma table_of_rows {A} (same : A → A → bool) (setid : A → N → A) (t : gmap N A)
    (setid_twice : ∀ x i j, setid (setid x i) j = setid x j)
    (same_setid : ∀ x i y, same (setid x i) y = same x y) (same_sym : ∀ x y, same x y = same y x) :
  (∀ i x, t !! i = Some x → setid x i = x) →
  (∀ i j x y, t !! i = Some x → t !! j = Some y → same x y = true → i = j) →
  table_of same setid t ((λ x, setid x 0%N) <$> rows t).
Proof.
  intros Hid Huniq x. unfold rows. rewrite <-list_fmap_compose. split.
  - intros [i Hi]. pose proof (proj2 (elem_of_map_to_list _ _ _) Hi) as (l1 & l2 & Hl)%list_elem_of_split.
    pose proof (NoDup_fst_map_to_list t) as Hnd. rewrite Hl, fmap_app in Hnd. cbn in Hnd.
    rewrite Hl, fmap_app. exists ((λ p : N * A, setid p.2 0%N) <$> l1), ((λ p : N * A, setid p.2 0%N) <$> l2). split.
    { unfold compose. cbn. by rewrite setid_twice. }
    intros y ([j y'] & -> & Hy)%list_elem_of_fmap. cbn. destruct (same _ _) eqn:Hs; [|done].
    assert (t !! j = Some y') as Hj by (apply elem_of_map_to_list; rewrite Hl; set_solver).
    assert (i = j) as ->.
    { apply (Huniq _ _ _ _ Hi Hj). by rewrite same_setid, <-(same_setid x 0%N), same_sym, <-(same_setid y' 0%N). }
    apply NoDup_app in Hnd as (_ & _ & [Hno _]%NoDup_cons). destruct Hno. by apply (list_elem_of_fmap_2 fst) in Hy.
  - intros Hl%live_elem. apply list_elem_of_fmap in Hl as ([j y] & Heq & Hj%elem_of_map_to_list). cbn in *.
    exists j. rewrite Hj. f_equal. by rewrite <-(setid_twice x 0%N), Heq, setid_twice, (Hid _ _ Hj).
Qed.

Section incremental.
Context {engine : Sqlite} {laws : SqliteLaws}.

(** ** Purging *)

(** A node of one of the changed files. *)
Definition in_changed (changed : list string) (n : Node) : Prop := node_repo_id n = "local" ∧ node_path n ∈ changed.
#[global] Instance in_changed_dec changed n : Decision (in_changed changed n).
Proof. unfold in_changed. apply _. Defined.

Definition id_changed (db : Db) (changed : list string) (i : NodeId) : Prop :=
  ∃ n, nodes db !! i = Some n ∧ in_changed changed n.
#[global] Instance id_changed_dec db changed i : Decision (id_changed db changed i).
Proof.
  unfold id_changed. destruct (nodes db !! i) as [n|]; [|right; naive_solver].
  destruct (decide (in_changed changed n)); [left; eauto|right; naive_solver].
Defined.

Definition kept_edges (db : Db) (changed : list string) : gmap N Edge :=
  filter (λ p : N * Edge, ¬ id_changed db changed (source_id p.2) ∧ ¬ id_changed db changed (target_id p.2)) (edges db).

Lemma file_nodes_changed db rel i : db_ok db → i ∈ file_nodes db "local" rel ↔ id_changed db [rel] i.
Proof. intros Hok. rewrite elem_of_file_nodes by done. unfold id_changed, in_changed. set_solver. Qed.

Lemma id_changed_cons db rel changed i : id_changed db (rel :: changed) i ↔ id_changed db [rel] i ∨ id_changed db changed i.
Proof. unfold id_changed, in_changed. set_solver. Qed.

Lemma purge_changed_loop changed : ∀ db, db_ok db →
  ∃ l, try_loop purge_changed changed db =
    (with_unresolved (with_edges db (kept_edges db changed)) (other_unresolved changed (unresolved_refs db)), Ok l) ∧
    db_ok (with_edges db (kept_edges db changed)).
Proof.
  induction changed as [|rel changed IH]; intros db Hok; cbn [try_loop].
  { exists []. rewrite other_unresolved_nil.
    assert (kept_edges db [] = edges db) as ->; [|by destruct db].
    apply map_filter_id. intros i e _. unfold id_changed, in_changed. set_solver. }
  unfold purge_changed at 1. pose proof (purge_file_edges_ok db "local" rel Hok) as Hok1.
  unfold purge_file_edges in *. cbn [fst] in Hok1. set (kept := filter _ (edges db)) in *.
  unfold purge_file_unresolved_refs. cbn [result_map].
  destruct (IH (with_unresolved (with_edges db kept)
    (filter (λ r, ¬ (ur_repo_id r = "local" ∧ ur_path r = rel)) (unresolved_refs db)))) as (l & Hl & Hok2).
  { destruct Hok1. by split. }
  eexists. change (unresolved_refs (with_edges db kept)) with (unresolved_refs db). rewrite Hl.
  assert (kept_edges (with_unresolved (with_edges db kept)
    (filter (λ r, ¬ (ur_repo_id r = "local" ∧ ur_path r = rel)) (unresolved_refs db))) changed = kept_edges db (rel :: changed)) as Hk.
  { apply map_eq. intros i. apply option_eq. intros e. unfold kept_edges, kept. cbn [edges with_unresolved with_edges].
    rewrite !map_lookup_filter_Some. cbn [snd]. rewrite !file_nodes_changed, !(id_changed_cons _ rel changed) by done.
    unfold id_changed. cbn [nodes with_unresolved with_edges]. tauto. }
  rewrite Hk in *. split.
  - cbn [unresolved_refs with_unresolved with_edges].
    pose proof (other_unresolved_cons rel changed (unresolved_refs db) []) as Ho. rewrite !app_nil_r in Ho. rewrite Ho by set_solver. done.
  - destruct Hok2. by split.
Qed.

(** ** Upserting *)

Definition same_symbol (m n : Node) : Prop :=
  node_repo_id m = node_repo_id n ∧ node_path m = node_path n ∧ node_symbol m = node_symbol n ∧ node_kind m = node_kind n.

Record upserting (db0 : Db) (ns : list Node) (cn : list (string * NodeId)) (db : Db) : Prop := {
  up_ok : db_ok db;
  up_rest : db = with_nodes db0 (nodes db);
  up_new rel i : (rel, i) ∈ cn → ∃ n, nodes db !! i = Some n ∧ node_repo_id n = "local" ∧ node_path n = rel ∧ erased n ∈ ns;
  up_old i : i ∉ cn.*2 → nodes db !! i = nodes db0 !! i;
  up_place i n : nodes db0 !! i = Some n → ∃ n', nodes db !! i = Some n' ∧ node_repo_id n' = node_repo_id n ∧ node_path n' = node_path n;
  up_all n : n ∈ ns → ∃ i m, (node_path n, i) ∈ cn ∧ nodes db !! i = Some m ∧ same_symbol m n;
}.

Lemma upsert_one_node_rest db n : (upsert_one_node db n).1 = with_nodes db (nodes (upsert_one_node db n).1).
Proof. unfold upsert_one_node, update_node, insert_node. destruct db. repeat case_match; simplify_eq; done. Qed.

Lemma upsert_one_place db n db' id :
  db_ok db → upsert_one_node db n = (db', Ok id) →
  db_ok db' ∧ db' = with_nodes db (<[id := with_id n id]> (nodes db)) ∧
  ∀ m, nodes db !! id = Some m → same_symbol m n.
Proof.
  intros Hok Hu. pose proof (upsert_one_node_cases db n Hok) as Hc. pose proof (upsert_one_node_rest db n) as Hr.
  rewrite Hu in Hc, Hr. destruct Hc as (Hok' & Hn & _ & Hex). cbn in Hr. rewrite Hn in Hr. split_and!; [done..|].
  intros m Hm. destruct (existing (SqlStore.candidates db n) n) as [m'|] eqn:He; [|congruence].
  rewrite Hm in Hex. simplify_eq. apply existing_elem in He as [Hc _]. apply elem_of_candidates in Hc. naive_solver.
Qed.

Lemma upserting_step db0 ns cn db n db' id :
  upserting db0 ns cn db → erased n = n → node_repo_id n = "local" → upsert_one_node db n = (db', Ok id) →
  upserting db0 (ns ++ [n]) (cn ++ [(node_path n, id)]) db'.
Proof.
  intros [Hok Hrest Hnew Hold Hplace Hall] Hn Hl Hu. destruct (upsert_one_place db n db' id Hok Hu) as (Hok' & -> & Hrow).
  split; cbn [nodes with_nodes]; [done| | | | |].
  - rewrite Hrest. done.
  - intros rel i [Hin| [= -> ->]%list_elem_of_singleton]%elem_of_app.
    + destruct (Hnew _ _ Hin) as (m & Hm & Hr & Hp & He). destruct (decide (i = id)) as [->|Hne].
      * exists (with_id n id). rewrite lookup_insert_eq. destruct (Hrow _ Hm) as (? & ? & _). cbn. split_and!; [done|done|congruence|].
        change (erased n ∈ ns ++ [n]). rewrite Hn. set_solver.
      * exists m. rewrite lookup_insert_ne by done. set_solver.
    + exists (with_id n id). rewrite lookup_insert_eq. split_and!; [done..|].
      change (erased n ∈ ns ++ [n]). rewrite Hn. set_solver.
  - intros i Hi. rewrite fmap_app in Hi. cbn in Hi. rewrite lookup_insert_ne by set_solver. apply Hold. set_solver.
  - intros i m Hm. destruct (Hplace _ _ Hm) as (m' & Hm' & Hr & Hp). destruct (decide (i = id)) as [->|Hne].
    + exists (with_id n id). rewrite lookup_insert_eq. destruct (Hrow _ Hm') as (? & ? & _). cbn. split_and!; [done|congruence..].
    + exists m'. by rewrite lookup_insert_ne.
  - intros x [Hx| ->%list_elem_of_singleton]%elem_of_app.
    + destruct (Hall _ Hx) as (i & m & Hin & Hm & Hs). destruct (decide (i = id)) as [->|Hne].
      * exists id, (with_id n id). rewrite lookup_insert_eq. split_and!; [set_solver|done|].
        specialize (Hrow _ Hm). unfold same_symbol in *. cbn. intuition congruence.
      * exists i, m. rewrite lookup_insert_ne by done. set_solver.
    + exists id, (with_id n id). rewrite lookup_insert_eq. split_and!; [apply elem_of_app; right; constructor|done|done].
Qed.

Lemma upsert_nodes_upserting db0 rel ms : ∀ ns cn db db' ids, upserting db0 ns cn db →
  (∀ n, n ∈ ms → erased n = n ∧ node_repo_id n = "local" ∧ node_path n = rel) →
  upsert_nodes db ms = (db', Ok ids) → upserting db0 (ns ++ ms) (cn ++ (pair rel <$> ids)) db'.
Proof.
  unfold upsert_nodes. induction ms as [|n ms IH]; intros ns cn db db' ids Hup Hms; cbn [try_loop].
  { intros [= <- <-]. by rewrite !app_nil_r. }
  destruct (upsert_one_node db n) as [db1 [id|]] eqn:Hu; [|done].
  destruct (try_loop upsert_one_node ms db1) as [db2 [l|]] eqn:Hl; [|done]. intros [= <- <-].
  destruct (Hms n) as (Hn & Hr & Hp); [set_solver|].
  pose proof (upserting_step _ _ _ _ _ _ _ Hup Hn Hr Hu) as Hup1.
  rewrite Hp in Hup1. eapply IH in Hl; [|exact Hup1|set_solver]. by rewrite <-!app_assoc in Hl.
Qed.

Lemma file_nodes_place rel parsed n : n ∈ file_nodes_of rel parsed → erased n = n ∧ node_repo_id n = "local" ∧ node_path n = rel.
Proof. intros (c & -> & _)%list_elem_of_fmap. done. Qed.

Lemma upsert_files_upserting db0 files : ∀ ns cn db db' cn', upserting db0 ns cn db →
  for_each_parsed fst parsed_nodes upsert_file_nodes files (db, cn) = ((db', cn'), None) →
  upserting db0 (ns ++ repo_nodes files) cn' db' ∧ ∀ rel i, (rel, i) ∈ cn' → (rel, i) ∈ cn ∨ rel ∈ files.*1.
Proof.
  induction files as [|[rel o] files IH]; intros ns cn db db' cn' Hup; cbn [for_each_parsed].
  { intros [= <- <-]. cbn. rewrite app_nil_r. auto. }
  unfold parsed_nodes at 1. cbn [fst snd]. destruct o as [parsed|]; cbn [fmap option_fmap option_map].
  - unfold upsert_file_nodes at 1. cbn [fst snd].
    destruct (upsert_nodes db (file_nodes_of rel parsed)) as [db1 [ids|e]] eqn:Hu; [|done]. intros Hf.
    pose proof (upsert_nodes_upserting _ rel _ _ _ _ _ _ Hup (file_nodes_place rel parsed) Hu) as Hup1.
    destruct (IH _ _ _ _ _ Hup1 Hf) as [Hup2 Hin]. split.
    + rewrite <-app_assoc in Hup2. exact Hup2.
    + intros r i Hr. apply Hin in Hr as [[?|(x & [= -> ->] & _)%list_elem_of_fmap]%elem_of_app|?]; set_solver.
  - intros Hf. destruct (IH _ _ _ _ _ Hup Hf) as [Hup2 Hin]. split; [exact Hup2|]. set_solver.
Qed.

(** ** Sweeping *)

Section sweep.
Context (Hfk : foreign_keys = true).

Lemma delete_loop_result gone : ∀ db db' l, db_ok db →
  try_loop (λ db i, delete_nodes db [i]) gone db = (db', Ok l) →
  db_ok db' ∧ edges db' = edges db ∧ unresolved_refs db' = unresolved_refs db ∧
  ∀ i, nodes db' !! i = if decide (i ∈ gone) then None else nodes db !! i.
Proof.
  induction gone as [|x gone IH]; intros db db' l Hok; cbn [try_loop].
  { intros [= <- <-]. split_and!; [done..|]. intros i. by rewrite decide_False by set_solver. }
  pose proof (delete_nodes_ok db [x] Hfk Hok) as Hd.
  assert (unresolved_refs (delete_nodes db [x]).1 = unresolved_refs db) as Hu1.
  { unfold delete_nodes. repeat case_match; done. }
  destruct (delete_nodes db [x]) as [db1 [k|e]]; [|done]. destruct Hd as (Hok1 & _ & He1 & _ & Hn1 & _). cbn in Hu1.
  destruct (try_loop _ gone db1) as [db2 [bs|e]] eqn:Hl; [|done]. intros [= <- <-].
  destruct (IH _ _ _ Hok1 Hl) as (Hok2 & He2 & Hu2 & Hn2). split_and!; [done|congruence..|].
  intros i. rewrite Hn2, Hn1, lookup_delete_list. repeat case_decide; set_solver.
Qed.

Lemma sweep_changed_result cn rel db db' r : db_ok db → sweep_changed cn db rel = (db', Ok r) →
  db_ok db' ∧ edges db' = edges db ∧ unresolved_refs db' = unresolved_refs db ∧
  ∀ i n, nodes db' !! i = Some n ↔ nodes db !! i = Some n ∧ (in_changed [rel] n → (rel, i) ∈ cn).
Proof.
  intros Hok. unfold sweep_changed, purge_file_nodes_except. set (retained := _ <$> filter _ cn).
  set (stale := filter _ (select_order (file_nodes db "local" rel))).
  destruct (try_loop _ stale db) as [db1 [l|e]] eqn:Hl; [|done]. intros [= <- <-].
  destruct (delete_loop_result _ _ _ _ Hok Hl) as (Hok1 & He & Hu & Hn). split_and!; [done..|].
  assert (∀ i, i ∈ stale ↔ id_changed db [rel] i ∧ (rel, i) ∉ cn) as Hst.
  { intros i. unfold stale. rewrite list_elem_of_filter, select_order_perm, file_nodes_changed by done.
    enough (i ∈ retained ↔ (rel, i) ∈ cn) by naive_solver.
    unfold retained. rewrite list_elem_of_fmap. setoid_rewrite list_elem_of_filter. split.
    - intros ([p j] & -> & Hp & Hj). cbn in *. by subst.
    - intros Hi. by exists (rel, i). }
  intros i n. rewrite Hn. case_decide as Hs; rewrite Hst in Hs.
  - destruct Hs as ((m & Hm & Hc) & Hno). split; [done|]. intros [Hi Hk]. simplify_eq. by destruct Hno; apply Hk.
  - split; [|naive_solver]. intros Hi. split; [done|]. intros Hc.
    destruct (decide ((rel, i) ∈ cn)) as [|Hno]; [done|]. destruct Hs. split; [by exists n|done].
Qed.

Lemma sweep_loop_result cn changed : ∀ db db' l, db_ok db → try_loop (sweep_changed cn) changed db = (db', Ok l) →
  db_ok db' ∧ edges db' = edges db ∧ unresolved_refs db' = unresolved_refs db ∧
  ∀ i n, nodes db' !! i = Some n ↔ nodes db !! i = Some n ∧ (in_changed changed n → (node_path n, i) ∈ cn).
Proof.
  induction changed as [|rel changed IH]; intros db db' l Hok; cbn [try_loop].
  { intros [= <- <-]. split_and!; [done..|]. intros i n. split; [|naive_solver]. intros Hi. split; [done|]. intros [_ Hp]. by apply not_elem_of_nil in Hp. }
  destruct (sweep_changed cn db rel) as [db1 [r|e]] eqn:Hs; [|done].
  destruct (try_loop _ changed db1) as [db2 [bs|e]] eqn:Hl; [|done]. intros [= <- <-].
  destruct (sweep_changed_result _ _ _ _ _ Hok Hs) as (Hok1 & He1 & Hu1 & Hn1).
  destruct (IH _ _ _ Hok1 Hl) as (Hok2 & He2 & Hu2 & Hn2). split_and!; [done|congruence..|].
  intros i n. rewrite Hn2, Hn1. unfold in_changed. split.
  - intros [[Hi H1] H2]. split; [done|]. intros [Hr Hp]. clear Hn1 Hn2 IH.
    apply elem_of_cons in Hp as [Hp|Hp]; [|by apply H2]. rewrite Hp. apply H1. split; [done|]. rewrite Hp. constructor.
  - intros [Hi H1]. clear Hn1 Hn2 IH. split; [split; [done|]|].
    + intros [Hr Hp%list_elem_of_singleton]. subst rel. apply H1. split; [done|constructor].
    + intros [Hr Hp]. apply H1. split; [done|by constructor].
Qed.
End sweep.
End incremental.

Definition erased_edge (e : Edge) : Edge := with_edge_id e 0.

Lemma kept_edges_table {engine : Sqlite} db changed :
  db_ok (with_edges db (kept_edges db changed)) →
  edge_table (kept_edges db changed) (erased_edge <$> rows (kept_edges db changed)).
Proof.
  intros Hok. apply table_of_rows; eauto using same_edge_sym, same_edge_with_id.
  - intros i e Hi. pose proof (eo_id _ _ (do_edges _ Hok) _ _ Hi) as <-. by destruct e.
  - intros i j e f Hi Hj (? & ? & ?)%same_edge_true. by apply (eo_key _ _ (do_edges _ Hok) _ _ _ _ Hi Hj).
Qed.

Lemma selected_elem paths files f : f ∈ selected paths files ↔ f.1 ∈ paths ∧ f ∈ files.
Proof. unfold selected. by rewrite list_elem_of_filter. Qed.

Lemma selected_nodup paths files : NoDup files.*1 → NoDup (selected paths files).*1.
Proof.
  unfold selected. induction files as [|f files IH]; [done|]. intros [Hf Hnd]%NoDup_cons. rewrite filter_cons.
  case_decide; [|by apply IH]. apply NoDup_cons. split; [|by apply IH].
  intros (g & Heq & [_ Hg]%list_elem_of_filter)%list_elem_of_fmap. apply Hf. rewrite Heq. by apply list_elem_of_fmap_2.
Qed.

(** Resolving edges does not touch the nodes. *)
Lemma upsert_edges_nodes {engine : Sqlite} es db : nodes (upsert_edges db es).1 = nodes db.
Proof.
  unfold upsert_edges.
  assert (nodes (try_loop upsert_edge es db).1 = nodes db) as Hl.
  { apply (try_loop_inv (λ d, nodes d = nodes db)); [|done]. intros d e <-. unfold upsert_edge. repeat case_match; done. }
  destruct (try_loop upsert_edge es db) as [d [?|?]]; exact Hl.
Qed.

Lemma upsert_file_edges_nodes {engine : Sqlite} db rel p : nodes (upsert_file_edges db rel p).1 = nodes db.
Proof.
  unfold upsert_file_edges. pose proof (upsert_edges_nodes p.1 db) as Hn.
  destruct (upsert_edges db p.1) as [d [?|?]]; exact Hn.
Qed.

Lemma upsert_all_edges_nodes {engine : Sqlite} hash_one chunk ix ids files db db' e :
  upsert_all_edges hash_one chunk ix ids files db = Some (db', e) → nodes db' = nodes db.
Proof.
  unfold upsert_all_edges. destruct (mapM _ files) as [l|]; [|done]. cbn [mbind option_bind].
  intros Hb%bounded_sound. assert (∀ d, nodes (for_each_parsed fst snd upsert_file_edges l d).1 = nodes d) as Hl.
  { clear. induction l as [|[rel [p|]] l IH]; intros d; cbn [for_each_parsed fst snd]; [done| |apply IH].
    pose proof (upsert_file_edges_nodes d rel p) as Hn. destruct (upsert_file_edges d rel p) as [d' [e|]]; cbn in *; [done|].
    by rewrite IH. }
  specialize (Hl db). by rewrite <-Hb in Hl.
Qed.

Lemma upserting_unchanged {engine : Sqlite} db0 ns cn db changed i n :
  upserting db0 ns cn db → (∀ rel i, (rel, i) ∈ cn → rel ∈ changed) → ¬ in_changed changed n →
  nodes db !! i = Some n ↔ nodes db0 !! i = Some n.
Proof.
  intros Hup Hcn Hno. destruct (decide (i ∈ cn.*2)) as [Hi|Hi]; [|by rewrite (up_old _ _ _ _ Hup)].
  apply list_elem_of_fmap in Hi as ([rel j] & -> & Hin). cbn [snd].
  destruct (up_new _ _ _ _ Hup _ _ Hin) as (m & Hm & Hr & Hp & _). pose proof (Hcn _ _ Hin) as Hrel. rewrite <-Hp in Hrel.
  split; intros Hn; exfalso; apply Hno.
  - simplify_eq. by split.
  - destruct (up_place _ _ _ _ Hup _ _ Hn) as (m' & Hm' & Hr' & Hp'). simplify_eq. split; congruence.
Qed.

(** C13: what an incremental update that succeeds leaves.  The database stays
    consistent.  Rows of unchanged files are untouched, with their ids; the
    changed files hold exactly symbols they declare now, and each of those has a
    row.  The edges are the old ones between unchanged files, and over them the
    references of the affected files, resolved against the new symbols; the
    unresolved references of the affected files are replaced. *)
Theorem incremental_exact {engine : Sqlite} {laws : SqliteLaws} hash_one chunk files changed db db'
    (Hfk : foreign_keys = true) (Hok : db_ok db) (Hpaths : NoDup files.*1)
    (Hrun : update_db hash_one chunk files changed db = Some (Ok db'))
    (Hfit : fits (node_syms (stored_nodes db'))) :
  let affected := selected (affected_files db files changed) files in
  db_ok db' ∧
  (∀ i n, ¬ in_changed changed n → nodes db' !! i = Some n ↔ nodes db !! i = Some n) ∧
  (∀ i n, nodes db' !! i = Some n → in_changed changed n → erased n ∈ repo_nodes (selected changed files)) ∧
  (∀ n, n ∈ repo_nodes (selected changed files) → ∃ i m, nodes db' !! i = Some m ∧ same_symbol m n) ∧
  edge_table (edges db')
    ((erased_edge <$> rows (kept_edges db changed)) ++ repo_edges (stored_nodes db') affected) ∧
  unresolved_refs db' =
    other_unresolved (parsed_paths affected) (other_unresolved changed (unresolved_refs db)) ++
    repo_unresolved (stored_nodes db') affected.
Proof.
  intros affected. unfold update_db in Hrun. fold affected in Hrun.
  destruct (purge_changed_loop changed db Hok) as (l & Hp & Hok1). rewrite Hp in Hrun.
  set (db1 := with_unresolved _ _) in Hrun. assert (db_ok db1) as Hok1' by (destruct Hok1; by split).
  destruct (parse_files_bounded fst parsed_nodes upsert_file_nodes chunk (selected changed files) (db1, [])) as [[[db2 cn] e]|] eqn:Hu; [|done].
  apply bounded_sound in Hu. cbn [mbind option_bind] in Hrun. destruct e as [e|]; [done|].
  destruct (upsert_files_upserting db1 (selected changed files) [] [] db1 db2 cn) as [Hup Hcn]; [|done|].
  { split; [done|by destruct db1|set_solver|done|eauto|set_solver]. }
  assert (∀ rel i, (rel, i) ∈ cn → rel ∈ changed) as Hch.
  { intros rel i [Hin|(f & -> & [? _]%selected_elem)%list_elem_of_fmap]%Hcn; [by apply not_elem_of_nil in Hin|done]. }
  destruct (try_loop (sweep_changed cn) changed db2) as [db3 [l3|e]] eqn:Hs; [|done].
  destruct (sweep_loop_result Hfk cn changed db2 db3 l3 (up_ok _ _ _ _ Hup) Hs) as (Hok3 & He3 & Hu3 & Hn3).
  destruct (build_project_index_from_storage hash_one db3) as [[[ix ids]|e]|] eqn:Hb; [|done..]. cbn [mbind option_bind] in Hrun.
  destruct (upsert_all_edges hash_one chunk ix ids affected db3) as [[db4 [e|]]|] eqn:He; [done| |done]. cbn in Hrun.
  simplify_eq. assert (stored_nodes db' = stored_nodes db3) as Hst.
  { unfold stored_nodes. by rewrite (upsert_all_edges_nodes _ _ _ _ _ _ _ _ He). }
  rewrite Hst in *. destruct (build_index_rep hash_one db3 Hfit) as (ix' & strs & ids' & Hb' & Hix & Hids).
  rewrite Hb in Hb'. simplify_eq. rewrite (up_rest _ _ _ _ Hup) in He3, Hu3. cbn in He3, Hu3.
  destruct (upsert_all_edges_linked hash_one chunk ix' strs ids' affected (erased_edge <$> rows (kept_edges db changed)) db3
    Hfk Hok3) as (t & He' & Hl); [rewrite He3; by apply kept_edges_table|by apply selected_nodup|done..|].
  rewrite He in He'. simplify_eq. rewrite Hu3.
  apply (linked_unresolved _ _ _ (other_unresolved (parsed_paths affected) (unresolved_refs db3) ++
    repo_unresolved (stored_nodes db3) affected)) in Hl as [Hok4 _ Ht].
  rewrite Hu3 in Hok4, Ht. split_and!; [exact Hok4| | | |exact Ht|done]; cbn [nodes with_unresolved with_edges].
  - intros i n Hno. rewrite Hn3, (upserting_unchanged db1 _ cn db2 changed i n Hup Hch Hno).
    cbn [nodes db1 with_unresolved with_edges]. split; [by intros [? _]|]. intros Hi. split; [done|]. by intros ?%Hno.
  - intros i n Hi Hc. apply Hn3 in Hi as [Hi Hin]. destruct (up_new _ _ _ _ Hup _ _ (Hin Hc)) as (m & Hm & _ & _ & He2). by simplify_eq.
  - intros n Hn. destruct (up_all _ _ _ _ Hup _ Hn) as (i & m & Hin & Hm & Hsame). exists i, m. split; [|done].
    apply Hn3. split; [done|]. intros _. destruct Hsame as (_ & -> & _). done.
Qed.

(** ** Concrete repositories *)

Definition len_hash (s : string) : N := N.of_nat (String.length s).
Definition fn_card (path sym : string) := mkCard (moniker_build path sym) sym Function 1 2 "".
Definition caller_file : string * option ParsedFile :=
  ("a.rs", Some (mkParsed [fn_card "a.rs" "main"] [mkCall "a.rs#main" "foo" false] [])).
Definition defines (path sym : string) : string * option ParsedFile := (path, Some (mkParsed [fn_card path sym] [] [])).

Definition rebuilt (files : repo_files) : option Db :=
  match rebuild_db len_hash 2 files with Some (Ok (db, _)) => Some db | _ => None end.
Definition updated (before after : repo_files) (changed : list string) : option Db :=
  db ← rebuilt before;
  match update_db len_hash 2 after changed db with Some (Ok db) => Some db | _ => None end.
(** Edges with the paths of their ends. *)
Definition edge_view (db : Db) : list (option string * option string * string) :=
  (λ e, (node_path <$> nodes db !! source_id e, node_path <$> nodes db !! target_id e, edge_kind e)) <$> rows (edges db).

(** A second [foo] appears in [c.rs].  A rebuild makes the call ambiguous; the
    update does not resolve [a.rs] again (its reference was not unresolved, and
    points to no changed file) and keeps the exact edge. *)
Example incremental_misses_new_candidate :
  let before := [caller_file; defines "b.rs" "foo"] in
  let after := before ++ [defines "c.rs" "foo"] in
  edge_view <$> updated before after ["c.rs"] = Some [(Some "a.rs", Some "b.rs", "CALLS_EXACT")] ∧
  edge_view <$> rebuilt after =
    Some [(Some "a.rs", Some "c.rs", "CALLS_DYNAMIC"); (Some "a.rs", Some "b.rs", "CALLS_DYNAMIC")].
Proof. split; vm_compute; reflexivity. Qed.

(** One of two [foo]s disappears.  The update resolves [a.rs] again and adds the
    exact edge, but the edge of the old, ambiguous resolution stays next to it:
    the edges of an affected, unchanged file are not purged. *)
Example incremental_keeps_stale_edge :
  let before := [caller_file; defines "b.rs" "foo"; defines "c.rs" "foo"] in
  let after := [caller_file; defines "b.rs" "foo"; defines "c.rs" "bar"] in
  edge_view <$> updated before after ["c.rs"] =
    Some [(Some "a.rs", Some "b.rs", "CALLS_EXACT"); (Some "a.rs", Some "b.rs", "CALLS_DYNAMIC")] ∧
  edge_view <$> rebuilt after = Some [(Some "a.rs", Some "b.rs", "CALLS_EXACT")].
Proof. split; vm_compute; reflexivity. Qed.

Lemma fits_small syms : length syms ≤ 1000 → total_bytes syms.*1 + total_bytes syms.*2 ≤ 1000 → fits syms.
Proof. intros Hl Hb. unfold fits, u32_MAX. split; lia. Qed.

Lemma full_reindex_exact_witness :
  let files := [caller_file; defines "b.rs" "foo"] in
  ∃ db, full_reindex len_hash 1 true files (mkDir None false) =
      Some (mkDir (Some db) false, Ok (mkStats 2 2 (size (edges db)))) ∧
    db_ok db ∧ edge_view db = [(Some "a.rs", Some "b.rs", "CALLS_EXACT")].
Proof.
  intros files.
  destruct (full_reindex_exact len_hash 1 files (mkDir None false) (eq_refl : @foreign_keys sqlite_default = true))
    as (db & Hf & _ & Hok & _).
  - apply (bool_decide_unpack _). vm_compute. exact I.
  - apply fits_small; apply Nat.leb_le; vm_compute; reflexivity.
  - exists db. split; [exact Hf|]. split; [exact Hok|].
    vm_compute in Hf. injection Hf as <-. vm_compute. reflexivity.
Defined.

Lemma incremental_exact_witness :
  let before := [caller_file; defines "b.rs" "foo"] in
  let after := [caller_file; defines "b.rs" "baz"; defines "c.rs" "foo"] in
  ∃ db db', rebuilt before = Some db ∧ update_db len_hash 2 after ["b.rs"; "c.rs"] db = Some (Ok db') ∧ db_ok db' ∧
    edge_view db' = [(Some "a.rs", Some "c.rs", "CALLS_EXACT")].
Proof.
  intros before after.
  destruct (rebuild_db_exact len_hash 2 before (eq_refl : @foreign_keys sqlite_default = true)) as (db & Hf & Hok & _); [apply (bool_decide_unpack _); vm_compute; exact I|
      apply fits_small; apply Nat.leb_le; vm_compute; reflexivity|].
  vm_compute in Hf. injection Hf as Hdb.
  destruct (update_db len_hash 2 after ["b.rs"; "c.rs"] db) as [[db'|]|] eqn:Hu;
    [|rewrite <-Hdb in Hu; vm_compute in Hu; discriminate..].
  assert (fits (node_syms (stored_nodes db'))) as Hfit.
  { rewrite <-Hdb in Hu. vm_compute in Hu. injection Hu as <-. apply fits_small; apply Nat.leb_le; vm_compute; reflexivity. }
  destruct (incremental_exact len_hash 2 after ["b.rs"; "c.rs"] db db' (eq_refl : @foreign_keys sqlite_default = true) Hok)
    as (Hok' & _); [apply (bool_decide_unpack _); vm_compute; exact I|exact Hu|exact Hfit|].
  exists db, db'. split; [rewrite <-Hdb; vm_compute; reflexivity|]. split; [exact Hu|]. split; [exact Hok'|].
  rewrite <-Hdb in Hu. vm_compute in Hu. injection Hu as <-. vm_compute. reflexivity.
Defined.
