(* ===== verification/Json.v ===== *)
(** * JSON values (serde_json)

    The values the servers read and write, and their accessors; reading and
    printing text is a parameter of the files that do it. *)

From S2P Require Import Prelude Str.

Inductive JsonNumber := PosInt (n : N) | NegInt (n : N) | Float (bits : N).

Inductive Value :=
| JNull
| JBool (b : bool)
| JNumber (n : JsonNumber)
| JString (s : string)
| JArray (l : list Value)
| JObject (fields : list (string * Value)).

Definition assoc (fields : list (string * Value)) (key : string) : option Value :=
  snd <$> (snd <$> list_find (λ f : string * Value, f.1 = key) fields).

(** [Value::get], [as_str], [as_u64], [as_bool], [as_array]. *)
Definition json_get (v : Value) (key : string) : option Value :=
  match v with JObject fields => assoc fields key | _ => None end.
Definition as_str (v : Value) : option string := match v with JString s => Some s | _ => None end.
Definition as_u64 (v : Value) : option N := match v with JNumber (PosInt n) => Some n | _ => None end.
Definition as_bool (v : Value) : option bool := match v with JBool b => Some b | _ => None end.
Definition as_array (v : Value) : option (list Value) := match v with JArray l => Some l | _ => None end.

Definition get_str (v : Value) (key : string) : option string := json_get v key ≫= as_str.
Definition get_usize (v : Value) (key : string) : option nat := N.to_nat <$> (json_get v key ≫= as_u64).
Definition get_bool (v : Value) (key : string) : option bool := json_get v key ≫= as_bool.

(** A text between double quotes. *)
Definition quoted (s : string) : string := String "034"%char (s +:+ String "034"%char "").
