(* ===== verification/Config.v ===== *)
(** * The configuration file (config.rs)

    Reading and writing of .weave/config.toml: dotted keys, the linked
    repositories, the users and role mappings of role-based access.  The TOML
    reader and printer are third-party, parameters with their documented round
    trip; a configuration file that cannot be read is [None]. *)

From S2P Require Import Prelude Str.

(** ** TOML values

    A table is a sorted map, here the list of its entries in key order. *)

Inductive Toml :=
| TString (s : string)
| TInteger (z : Z)
| TFloat (bits : N)
| TBoolean (b : bool)
| TDatetime (s : string)
| TArray (l : list Toml)
| TTable (entries : list (string * Toml)).

Definition Table : Type := list (string * Toml).

Definition key_lt (a b : string) : bool := String.leb a b && negb (bool_decide (a = b)).

Fixpoint tbl_get (t : Table) (key : string) : option Toml :=
  match t with
  | [] => None
  | (k, v) :: t => if decide (k = key) then Some v else tbl_get t key
  end.

Fixpoint tbl_insert (t : Table) (key : string) (value : Toml) : Table :=
  match t with
  | [] => [(key, value)]
  | (k, v) :: t' =>
      if decide (k = key) then (key, value) :: t'
      else if key_lt key k then (key, value) :: t
      else (k, v) :: tbl_insert t' key value
  end.

Fixpoint keys_sorted (t : Table) : bool :=
  match t with
  | [] => true
  | (k, _) :: t => forallb (λ p : string * Toml, key_lt k p.1) t && keys_sorted t
  end.

(** Every table in the value has its keys in order. *)
Fixpoint toml_wf (v : Toml) : bool :=
  match v with
  | TArray l => forallb toml_wf l
  | TTable t => keys_sorted t && forallb (λ p : string * Toml, toml_wf p.2) t
  | _ => true
  end.
Definition table_wf (t : Table) : bool := toml_wf (TTable t).

(** [Value::get], [as_str], [as_array], [as_table]. *)
Definition toml_get (v : Toml) (key : string) : option Toml :=
  match v with TTable t => tbl_get t key | _ => None end.
Definition toml_str (v : Toml) : option string := match v with TString s => Some s | _ => None end.
Definition toml_array (v : Toml) : option (list Toml) := match v with TArray l => Some l | _ => None end.
Definition toml_table (v : Toml) : option Table := match v with TTable t => Some t | _ => None end.
Definition strings_of (l : list Toml) : list string := omap toml_str l.

(** The toml crate: reading a document, printing a table, reading a single
    value, displaying a value. *)
Class TomlFormat := {
  toml_parse : string → option Table;
  toml_print : Table → option string;
  toml_value : string → option Toml;
  toml_display : Toml → string;
}.

(** What is read is a well-formed table, and what is printed reads back. *)
Class TomlLaws `{TomlFormat} : Prop := {
  toml_parse_wf s t : toml_parse s = Some t → table_wf t = true;
  toml_round_trip t : table_wf t = true → ∃ s, toml_print t = Some s ∧ toml_parse s = Some t;
  toml_value_wf s v : toml_value s = Some v → toml_wf v = true;
  toml_parse_empty : toml_parse "" = Some [];
}.

(** ** Dotted keys *)

(** src/crates/weave-graph-cli/src/config.rs:300-308 [get_dotted]
    The key split at its dots. *)
Fixpoint get_path (t : Table) (parts : list string) : option Toml :=
  match parts with
  | [] => None
  | [head] => tbl_get t head
  | head :: rest => value ← tbl_get t head; nested ← toml_table value; get_path nested rest
  end.

(** src/crates/weave-graph-cli/src/config.rs:315-340 [set_dotted] *)
Fixpoint set_path (t : Table) (parts : list string) (value : Toml) : Table :=
  match parts with
  | [] => t
  | [head] => tbl_insert t head value
  | head :: rest =>
      let nested := default [] (tbl_get t head ≫= toml_table) in
      tbl_insert t head (TTable (set_path nested rest value))
  end.

Definition key_path (key : string) : list string := split_char "." key.
Definition get_dotted (t : Table) (key : string) : option Toml := get_path t (key_path key).
Definition set_dotted (t : Table) (key : string) (value : Toml) : Table := set_path t (key_path key) value.

(** src/crates/weave-graph-cli/src/config.rs:111-118 [UserConfig] *)
Record UserConfig := mkUser { user_roles : list string; user_token : option string; user_path_scope : list string }.

Section config.
Context `{TomlFormat}.

(** The table of a configuration file: [None] when it cannot be read or is not
    TOML. *)
Definition config_table (content : option string) : option Table := content ≫= toml_parse.

(** src/crates/weave-graph-cli/src/config.rs:6-14 [read_storage_home] *)
Definition read_storage_home (content : option string) : option string :=
  t ← config_table content; storage ← tbl_get t "storage"; home ← toml_get storage "home"; toml_str home.

(** src/crates/weave-graph-cli/src/config.rs:310-313 [parse_value] *)
Definition parse_value (raw : string) : Toml := default (TString raw) (toml_value raw).

(** src/crates/weave-graph-cli/src/config.rs:22-33 [set_key]
    The text that is written back. *)
Definition set_key (content : option string) (key value : string) : option string :=
  let table := default [] (toml_parse (default "" content)) in
  toml_print (set_dotted table key (parse_value value)).

Definition toml_text (v : Toml) : string := match v with TString s => s | other => toml_display other end.

(** src/crates/weave-graph-cli/src/config.rs:36-43 [get_key] *)
Definition get_key (content : option string) (key : string) : option string :=
  t ← config_table content; toml_text <$> get_dotted t key.

(** src/crates/weave-graph-cli/src/config.rs:50-67 [read_linked_repos] *)
Definition read_linked_repos (content : option string) : list string :=
  default [] (t ← config_table content; v ← get_dotted t "federation.linked_repos"; strings_of <$> toml_array v).

(** src/crates/weave-graph-cli/src/config.rs:72-107 [add_linked_repo]
    The text that is written back: [Ok None] when the repository is linked
    already and the file is left alone. *)
Definition add_linked_repo (content : option string) (repo : string) : result (option string) () :=
  let table := default [] (toml_parse (default "" content)) in
  let fed := default [] (tbl_get table "federation" ≫= toml_table) in
  let linked := default [] (tbl_get fed "linked_repos" ≫= toml_array) in
  if existsb (λ v, bool_decide (toml_str v = Some repo)) linked then Ok None else
  let fed := tbl_insert fed "linked_repos" (TArray (linked ++ [TString repo])) in
  match toml_print (tbl_insert table "federation" (TTable fed)) with
  | Some rendered => Ok (Some rendered)
  | None => Err ()
  end.

(** src/crates/weave-graph-cli/src/config.rs:140-174 [read_rbac_users]
    One entry: an array of roles, or a table. *)
Definition user_entry (value : Toml) : option UserConfig :=
  match value with
  | TArray arr => Some (mkUser (strings_of arr) None [])
  | TTable tbl =>
      roles ← tbl_get tbl "roles" ≫= toml_array;
      Some (mkUser (strings_of roles) (tbl_get tbl "token" ≫= toml_str)
              (strings_of (default [] (tbl_get tbl "path_scope" ≫= toml_array))))
  | _ => None
  end.

(** A table read entry by entry into a map; entries that do not read are left
    out. *)
Definition read_table {A} (f : Toml → option A) (t : Table) : gmap string A :=
  list_to_map (omap (λ p : string * Toml, pair p.1 <$> f p.2) t).

Definition rbac_table (content : option string) (section : string) : Table :=
  default [] (t ← config_table content; rbac ← tbl_get t "rbac"; v ← toml_get rbac section; toml_table v).

(** src/crates/weave-graph-cli/src/config.rs:125-176 [read_rbac_users] *)
Definition read_rbac_users (content : option string) : gmap string UserConfig :=
  read_table user_entry (rbac_table content "users").
(** src/crates/weave-graph-cli/src/config.rs:179-199 [read_rbac_group_mappings] *)
Definition read_rbac_group_mappings (content : option string) : gmap string string :=
  read_table toml_str (rbac_table content "group_mappings").
(** src/crates/weave-graph-cli/src/config.rs:203-233 [read_github_roles] *)
Definition read_github_roles (content : option string) : gmap string (list string) :=
  read_table (λ v, strings_of <$> toml_array v) (rbac_table content "github_roles").
(** src/crates/weave-graph-cli/src/config.rs:236-255 [read_github_org_roles] *)
Definition read_github_org_roles (content : option string) : gmap string string :=
  read_table toml_str (rbac_table content "github_org_roles").
(** src/crates/weave-graph-cli/src/config.rs:258-278 [read_github_team_roles] *)
Definition read_github_team_roles (content : option string) : gmap string string :=
  read_table toml_str (rbac_table content "github_team_roles").
(** src/crates/weave-graph-cli/src/config.rs:281-298 [read_vector_exclude] *)
Definition read_vector_exclude (content : option string) : list string :=
  default [] (t ← config_table content; v ← get_dotted t "vector.exclude"; strings_of <$> toml_array v).
End config.

(** ** Tables as maps *)

Lemma tbl_get_insert t k v k' : tbl_get (tbl_insert t k v) k' = if decide (k = k') then Some v else tbl_get t k'.
Proof.
  induction t as [|[a w] t IH]; cbn; [repeat case_decide; congruence|].
  repeat (case_decide || case_match); cbn; repeat case_decide; congruence.
Qed.

Lemma key_lt_spec a b : key_lt a b = true ↔ String.leb a b = true ∧ a ≠ b.
Proof. unfold key_lt. rewrite andb_true_iff, negb_true_iff, bool_decide_eq_false. done. Qed.

Lemma key_lt_trans a b c : key_lt a b = true → key_lt b c = true → key_lt a c = true.
Proof.
  rewrite !key_lt_spec. intros [Hab Hne] [Hbc Hne']. split; [by eapply ordb_trans|].
  intros ->. apply Hne. by apply (ordb_antisym (leb := String.leb)).
Qed.

Lemma key_lt_total a b : a ≠ b → key_lt b a = false → key_lt a b = true.
Proof.
  intros Hne Hba. apply key_lt_spec. split; [|done]. destruct (ordb_total (leb := String.leb) a b) as [|Hba']; [done|].
  enough (key_lt b a = true) by congruence. by apply key_lt_spec.
Qed.

Lemma insert_all_lt t k k' v : key_lt k' k = true → forallb (λ p : string * Toml, key_lt k' p.1) t = true →
  forallb (λ p : string * Toml, key_lt k' p.1) (tbl_insert t k v) = true.
Proof.
  intros Hk. induction t as [|[a w] t IH]; cbn; [by rewrite Hk|]. intros [Ha Ht]%andb_true_iff.
  repeat (case_decide || case_match); cbn; rewrite ?Hk, ?Ha, ?Ht; cbn; auto.
Qed.

Lemma insert_sorted t k v : keys_sorted t = true → keys_sorted (tbl_insert t k v) = true.
Proof.
  induction t as [|[a w] t IH]; cbn; [done|]. intros [Ha Ht]%andb_true_iff.
  case_decide as Hak; [subst a; cbn; by rewrite Ha, Ht|]. case_match eqn:Hlt; cbn.
  - rewrite Hlt, Ha, Ht. cbn. rewrite !andb_true_r. apply forallb_forall. intros [b x] Hin%list_elem_of_In.
    rewrite forallb_forall in Ha. apply (key_lt_trans k a b Hlt). apply (Ha (b, x)). by apply list_elem_of_In.
  - rewrite (insert_all_lt t k a v), (IH Ht); [done|by apply key_lt_total|done].
Qed.

Lemma insert_wf t k v : table_wf t = true → toml_wf v = true → table_wf (tbl_insert t k v) = true.
Proof.
  unfold table_wf. cbn. intros [Hs Hf]%andb_true_iff Hv. rewrite (insert_sorted t k v Hs). cbn. clear Hs.
  induction t as [|[a w] t IH]; cbn in *; [by rewrite Hv|]. apply andb_true_iff in Hf as [Hw Hf].
  repeat (case_decide || case_match); cbn; rewrite ?Hv, ?Hw, ?Hf; cbn; auto.
Qed.

Lemma get_wf t k v : table_wf t = true → tbl_get t k = Some v → toml_wf v = true.
Proof.
  unfold table_wf. cbn. intros [_ Hf]%andb_true_iff. induction t as [|[a w] t IH]; cbn in *; [done|].
  apply andb_true_iff in Hf as [Hw Hf]. case_decide; [by intros [= <-]|by apply IH].
Qed.

Lemma get_above t k : forallb (λ p : string * Toml, key_lt k p.1) t = true → tbl_get t k = None.
Proof.
  induction t as [|[a w] t IH]; cbn; [done|]. intros [[_ Hne]%key_lt_spec Ht]%andb_true_iff. rewrite decide_False by done. auto.
Qed.

Lemma read_table_lookup {A} (f : Toml → option A) t k : keys_sorted t = true → read_table f t !! k = tbl_get t k ≫= f.
Proof.
  unfold read_table. induction t as [|[a w] t IH]; cbn; [by rewrite lookup_empty|]. intros [Ha Ht]%andb_true_iff.
  specialize (IH Ht). destruct (f w) as [x|] eqn:Hf; cbn.
  - case_decide as Hk; [subst a; cbn; by rewrite lookup_insert_eq, Hf|]. by rewrite lookup_insert_ne.
  - case_decide as Hk; [subst a|done]. cbn. rewrite Hf, IH, (get_above t k Ha). done.
Qed.

(** ** Paths *)

(** Neither key lies inside the other. *)
Definition independent (p q : list string) : Prop := ¬ p `prefix_of` q ∧ ¬ q `prefix_of` p.
#[export] Instance independent_dec p q : Decision (independent p q).
Proof. apply _. Defined.

Lemma get_path_empty parts : get_path [] parts = None.
Proof. by destruct parts as [|? [|? ?]]. Qed.

Lemma get_set_path parts v t : parts ≠ [] → get_path (set_path t parts v) parts = Some v.
Proof.
  revert t. induction parts as [|h [|h' rest] IH]; intros t Hne; [done|..].
  - cbn. by rewrite tbl_get_insert, decide_True.
  - change (get_path ?t (h :: h' :: rest)) with (value ← tbl_get t h; nested ← toml_table value; get_path nested (h' :: rest)).
    change (set_path t (h :: h' :: rest) v) with
      (tbl_insert t h (TTable (set_path (default [] (tbl_get t h ≫= toml_table)) (h' :: rest) v))).
    rewrite tbl_get_insert, decide_True by done. cbn [mbind option_bind toml_table]. by apply IH.
Qed.

Lemma get_set_other parts v t q : parts ≠ [] → independent parts q → get_path (set_path t parts v) q = get_path t q.
Proof.
  revert t q. induction parts as [|h rest IH]; intros t q Hne [Hpq Hqp]; [done|].
  destruct q as [|h' q]; [destruct Hqp; apply prefix_nil|].
  assert (∀ t' : Table, tbl_get t' h' = tbl_get t h' → get_path t' (h' :: q) = get_path t (h' :: q)) as Hget.
  { intros t' Ht. destruct q; cbn; by rewrite Ht. }
  destruct (decide (h = h')) as [<-|Hh].
  2:{ apply Hget. destruct rest; cbn; by rewrite tbl_get_insert, decide_False. }
  destruct rest as [|h2 rest]; [destruct Hpq; apply prefix_cons, prefix_nil|].
  destruct q as [|h3 q]; [destruct Hqp; apply prefix_cons, prefix_nil|].
  change (get_path ?t (h :: h3 :: q)) with (value ← tbl_get t h; nested ← toml_table value; get_path nested (h3 :: q)).
  change (set_path t (h :: h2 :: rest) v) with
    (tbl_insert t h (TTable (set_path (default [] (tbl_get t h ≫= toml_table)) (h2 :: rest) v))).
  rewrite tbl_get_insert, decide_True by done. cbn [mbind option_bind toml_table].
  rewrite IH; [|done|split; intros ?; [apply Hpq|apply Hqp]; by apply prefix_cons].
  destruct (tbl_get t h) as [w|]; cbn [mbind option_bind default]; [|apply get_path_empty].
  destruct (toml_table w); cbn; [done|by destruct q].
Qed.

Lemma set_path_wf parts v t : table_wf t = true → toml_wf v = true → table_wf (set_path t parts v) = true.
Proof.
  revert t. induction parts as [|h rest IH]; intros t Ht Hv; [done|].
  destruct rest as [|h' rest]; [by apply insert_wf|].
  change (set_path t (h :: h' :: rest) v) with
    (tbl_insert t h (TTable (set_path (default [] (tbl_get t h ≫= toml_table)) (h' :: rest) v))).
  apply insert_wf; [done|]. apply IH; [|done].
  destruct (tbl_get t h) as [w|] eqn:Hw; [|done]. apply get_wf in Hw; [|done]. by destruct w.
Qed.

Lemma get_path_wf parts t v : table_wf t = true → get_path t parts = Some v → toml_wf v = true.
Proof.
  revert t. induction parts as [|h [|h' rest] IH]; intros t Ht; [done|by apply get_wf|].
  change (get_path t (h :: h' :: rest)) with (value ← tbl_get t h; nested ← toml_table value; get_path nested (h' :: rest)).
  destruct (tbl_get t h) as [w|] eqn:Hw; [|done]. apply get_wf in Hw; [|done]. cbn [mbind option_bind].
  destruct w as [| | | | | |nested]; try done. by apply IH.
Qed.

Lemma array_wf t parts : table_wf t = true → forallb toml_wf (default [] (get_path t parts ≫= toml_array)) = true.
Proof.
  intros Ht. destruct (get_path t parts) as [v|] eqn:Hv; [|reflexivity]. apply get_path_wf in Hv; [|done]. by destruct v.
Qed.

Lemma key_path_ne key : key_path key ≠ [].
Proof. unfold key_path. destruct key as [|a key]; cbn; [done|]. by repeat case_match. Qed.

(** ** Writing and reading back *)

Section laws.
Context `{TomlLaws}.

Lemma parse_value_wf raw : toml_wf (parse_value raw) = true.
Proof. unfold parse_value. destruct (toml_value raw) eqn:Hv; [by eapply toml_value_wf|done]. Qed.

Lemma read_back content t : toml_parse (default "" content) = Some t → ∀ key, get_key content key = toml_text <$> get_dotted t key.
Proof.
  destruct content as [c|]; cbn; intros Ht key; unfold get_key, config_table; cbn; [by rewrite Ht|].
  rewrite toml_parse_empty in Ht. injection Ht as <-. unfold get_dotted. by rewrite get_path_empty.
Qed.

Lemma write_back t parts v : table_wf t = true → toml_wf v = true →
  ∃ s, toml_print (set_path t parts v) = Some s ∧ toml_parse s = Some (set_path t parts v).
Proof. intros. by apply toml_round_trip, set_path_wf. Qed.

Lemma linked_back content t : toml_parse (default "" content) = Some t →
  read_linked_repos content = strings_of (default [] (get_path t ["federation"; "linked_repos"] ≫= toml_array)).
Proof.
  unfold read_linked_repos, get_dotted. change (key_path "federation.linked_repos") with ["federation"; "linked_repos"].
  unfold config_table. destruct content as [c|]; cbn [mbind option_bind from_option].
  - unfold id. intros Hread. rewrite Hread. cbn [mbind option_bind]. destruct (get_path t _) as [v|]; [|reflexivity].
    cbn [mbind option_bind]. by destruct (toml_array v).
  - rewrite toml_parse_empty. intros [= <-]. by rewrite get_path_empty.
Qed.

(** A setting that is written is read back, and nothing else changes.  When
    the file reads as TOML (or is missing), [set_key] succeeds, the key then has
    the given value, and every key that is neither an ancestor nor a descendant
    of it keeps its value; [add_linked_repo] appends the repository exactly when
    it is not listed yet and keeps the other keys too. *)
Theorem config_set_get content key value repo t (Hread : toml_parse (default "" content) = Some t) :
  (∃ s, set_key content key value = Some s ∧ get_key (Some s) key = Some (toml_text (parse_value value)) ∧
     ∀ key', independent (key_path key) (key_path key') → get_key (Some s) key' = get_key content key') ∧
  match add_linked_repo content repo with
  | Ok None => repo ∈ read_linked_repos content
  | Ok (Some s) =>
      repo ∉ read_linked_repos content ∧ read_linked_repos (Some s) = read_linked_repos content ++ [repo] ∧
      ∀ key', independent ["federation"; "linked_repos"] (key_path key') → get_key (Some s) key' = get_key content key'
  | Err _ => False
  end.
Proof.
  assert (table_wf t = true) as Hwf by by eapply toml_parse_wf. split.
  - unfold set_key. rewrite Hread. change (default [] (Some t)) with t. unfold set_dotted.
    destruct (write_back t (key_path key) (parse_value value) Hwf (parse_value_wf value)) as (s & -> & Hs).
    exists s. split; [done|]. split.
    + rewrite (read_back (Some s) _ Hs). unfold get_dotted. by rewrite get_set_path by apply key_path_ne.
    + intros key' Hi. rewrite (read_back (Some s) _ Hs), (read_back content t Hread). unfold get_dotted.
      by rewrite get_set_other by (done || apply key_path_ne).
  - set (linked := default [] (get_path t ["federation"; "linked_repos"] ≫= toml_array)).
    pose proof (linked_back content t Hread) as Hold. fold linked in Hold.
    unfold add_linked_repo. rewrite Hread. change (default [] (Some t)) with t.
    assert (default [] (tbl_get (default [] (tbl_get t "federation" ≫= toml_table)) "linked_repos" ≫= toml_array) = linked) as ->.
    { unfold linked. cbn [get_path]. destruct (tbl_get t "federation") as [f|]; cbn [mbind option_bind]; [|reflexivity].
      by destruct (toml_table f). }
    destruct (existsb _ linked) eqn:He.
    { apply existsb_exists in He as (v & Hv%list_elem_of_In & Hs%bool_decide_eq_true). rewrite Hold.
      apply list_elem_of_omap. eauto. }
    destruct (write_back t ["federation"; "linked_repos"] (TArray (linked ++ [TString repo])) Hwf) as (s & Hp & Hs).
    { cbn [toml_wf]. rewrite forallb_app. cbn [forallb]. unfold linked. by rewrite (array_wf t _ Hwf). }
    change (tbl_insert t "federation" _) with (set_path t ["federation"; "linked_repos"] (TArray (linked ++ [TString repo]))).
    rewrite Hp. split_and!.
    + rewrite Hold. intros (v & Hv & Hr)%list_elem_of_omap.
      assert (existsb (λ v, bool_decide (toml_str v = Some repo)) linked = true) as Ht; [|congruence].
      apply existsb_exists. exists v. split; [by apply list_elem_of_In|by apply bool_decide_eq_true].
    + rewrite Hold, (linked_back (Some s) _ Hs), get_set_path by done. cbn [mbind option_bind toml_array from_option].
      unfold id, strings_of. by rewrite omap_app.
    + intros key' Hi. rewrite (read_back (Some s) _ Hs), (read_back content t Hread). unfold get_dotted.
      by rewrite (get_set_other ["federation"; "linked_repos"]) by done.
Qed.

(** A file that is not TOML is replaced by the one setting: every other key is
    lost. *)
Theorem set_key_replaces_malformed content key value key'
    (Hbad : toml_parse (default "" content) = None) (Hi : independent (key_path key) (key_path key')) :
  ∃ s, set_key content key value = Some s ∧ get_key (Some s) key' = None.
Proof.
  unfold set_key. rewrite Hbad. change (default [] None) with ([] : Table). unfold set_dotted.
  destruct (write_back [] (key_path key) (parse_value value) eq_refl (parse_value_wf value)) as (s & -> & Hs).
  exists s. split; [done|]. rewrite (read_back (Some s) _ Hs). unfold get_dotted.
  by rewrite get_set_other, get_path_empty by (done || apply key_path_ne).
Qed.
End laws.

(** ** A format

    A value as the bits of its code: the laws can be met. *)

Fixpoint toml_tree (v : Toml) : gen_tree (string + (Z + (N + bool))) :=
  match v with
  | TString s => GenNode 0 [GenLeaf (inl s)]
  | TInteger z => GenNode 1 [GenLeaf (inr (inl z))]
  | TFloat n => GenNode 2 [GenLeaf (inr (inr (inl n)))]
  | TBoolean b => GenNode 3 [GenLeaf (inr (inr (inr b)))]
  | TDatetime s => GenNode 4 [GenLeaf (inl s)]
  | TArray l => GenNode 5 (map toml_tree l)
  | TTable t => GenNode 6 (map (λ p : string * Toml, GenNode 0 [GenLeaf (inl p.1); toml_tree p.2]) t)
  end.

Fixpoint tree_toml (g : gen_tree (string + (Z + (N + bool)))) : Toml :=
  match g with
  | GenNode 0 [GenLeaf (inl s)] => TString s
  | GenNode 1 [GenLeaf (inr (inl z))] => TInteger z
  | GenNode 2 [GenLeaf (inr (inr (inl n)))] => TFloat n
  | GenNode 3 [GenLeaf (inr (inr (inr b)))] => TBoolean b
  | GenNode 4 [GenLeaf (inl s)] => TDatetime s
  | GenNode 5 l => TArray (map tree_toml l)
  | GenNode 6 l =>
      TTable (map (λ g, match g with GenNode 0 [GenLeaf (inl k); g'] => (k, tree_toml g') | _ => ("", TBoolean false) end) l)
  | _ => TBoolean false
  end.

Lemma tree_toml_tree : ∀ v, tree_toml (toml_tree v) = v.
Proof.
  fix IH 1. intros [s|z|n|b|s|l|t]; try reflexivity; cbn; f_equal.
  - induction l as [|x l IHl]; [reflexivity|]. cbn. f_equal; [apply IH|exact IHl].
  - induction t as [|[k x] t IHt]; [reflexivity|]. cbn. f_equal; [f_equal; apply IH|exact IHt].
Qed.

Fixpoint pos_bits (p : positive) : string :=
  match p with xH => "" | xO p => String "0" (pos_bits p) | xI p => String "1" (pos_bits p) end.
Fixpoint bits_pos (s : string) : positive :=
  match s with EmptyString => xH | String a s => if decide (a = "0"%char) then xO (bits_pos s) else xI (bits_pos s) end.
Lemma bits_pos_bits p : bits_pos (pos_bits p) = p.
Proof. induction p as [p IH|p IH|]; cbn [pos_bits bits_pos]; [by rewrite decide_False, IH|by rewrite decide_True, IH|done]. Qed.

#[export] Instance coded_toml : TomlFormat := {|
  toml_parse s :=
    if decide (s = "") then Some [] else
    g ← decode (bits_pos s);
    match tree_toml g with TTable t => if table_wf t then Some t else None | _ => None end;
  toml_print t := Some (pos_bits (encode (toml_tree (TTable t))));
  toml_value s := if decide (s = "true") then Some (TBoolean true) else None;
  toml_display v := match v with TBoolean true => "true" | _ => "?" end;
|}.

#[export] Instance coded_toml_laws : TomlLaws.
Proof.
  split.
  - intros s t. cbn [toml_parse coded_toml]. case_decide; [by intros [= <-]|]. destruct (decode _) as [g|]; [|done]. cbn [mbind option_bind].
    destruct (tree_toml g) as [| | | | | |u]; try done. destruct (table_wf u) eqn:Hu; [|done]. by intros [= <-].
  - intros t Ht. eexists. split; [reflexivity|]. cbn [toml_parse coded_toml]. rewrite bits_pos_bits, decode_encode.
    rewrite decide_False.
    + cbn [mbind option_bind]. by rewrite tree_toml_tree, Ht.
    + intros He. apply (f_equal bits_pos) in He. rewrite bits_pos_bits in He. cbn in He.
      apply (f_equal (decode (A := gen_tree (string + (Z + (N + bool)))))) in He. rewrite decode_encode in He. by vm_compute in He.
  - intros s v. cbn. case_decide; [|done]. by intros [= <-].
  - done.
Qed.

Definition sample_config : Table :=
  [("federation", TTable [("linked_repos", TArray [TString "../b"])]); ("mode", TString "single")].

Lemma config_set_get_witness :
  ∃ s, set_key (toml_print sample_config) "storage.home" "true" = Some s ∧ get_key (Some s) "storage.home" = Some "true" ∧
    get_key (Some s) "mode" = get_key (toml_print sample_config) "mode" ∧ read_linked_repos (Some s) = ["../b"].
Proof.
  destruct (config_set_get (toml_print sample_config) "storage.home" "true" "../c" sample_config) as [(s & Hs & Hg & Hother) _].
  - vm_compute. reflexivity.
  - exists s. split_and!; [done|exact Hg| |].
    + apply Hother. apply (bool_decide_unpack _). vm_compute. exact I.
    + vm_compute in Hs. injection Hs as <-. vm_compute. reflexivity.
Defined.

Lemma set_key_replaces_malformed_witness :
  ∃ s, set_key (Some "0") "mode" "single" = Some s ∧ get_key (Some s) "rbac.users" = None.
Proof.
  apply set_key_replaces_malformed; [vm_compute; reflexivity|apply (bool_decide_unpack _); vm_compute; exact I].
Defined.
