(* ===== verification/Http.v ===== *)
(** * HTTP messages of the hub (weave-graph-hub: server.rs, client.rs)

    Reading a request from a socket that delivers it in arbitrary packets,
    writing one, and the same for responses.  A string is its bytes.  A socket is
    the list of packets still to arrive; reads succeed, and an empty read is the
    end of the stream. *)

From S2P Require Import Prelude Str Spool.

(** ** Text *)

Fixpoint str_take (n : nat) (s : string) : string :=
  match n, s with S n, String a s => String a (str_take n s) | _, _ => "" end.
Fixpoint str_drop (n : nat) (s : string) : string :=
  match n, s with S n, String _ s => str_drop n s | _, _ => s end.

(** [str::split_whitespace]. *)
Fixpoint split_by (p : ascii → bool) (s : string) : list string :=
  match s with
  | EmptyString => [""]
  | String a s =>
      if p a then "" :: split_by p s
      else match split_by p s with
           | [] => [String a ""]
           | x :: l => String a x :: l
           end
  end.
Definition split_whitespace (s : string) : list string := filter (λ w, w ≠ "") (split_by is_space s).

(** [str::eq_ignore_ascii_case]. *)
Definition eq_ignore_ascii_case (a b : string) : bool := bool_decide (to_ascii_lowercase a = to_ascii_lowercase b).

(** [String::from_utf8_lossy]: each maximal invalid part becomes U+FFFD. *)
Definition in_range (lo hi : N) (a : ascii) : bool := (lo <=? byte a)%N && (byte a <=? hi)%N.
Definition continuation : ascii → bool := in_range 128 191.
Definition second_of_3 (a : ascii) : ascii → bool :=
  if decide (byte a = 224%N) then in_range 160 191 else if decide (byte a = 237%N) then in_range 128 159 else continuation.
Definition second_of_4 (a : ascii) : ascii → bool :=
  if decide (byte a = 240%N) then in_range 144 191 else if decide (byte a = 244%N) then in_range 128 143 else continuation.
Definition replacement (s : string) : string := String "239"%char (String "191"%char (String "189"%char s)).

Fixpoint from_utf8_lossy (s : string) : string :=
  match s with
  | EmptyString => ""
  | String a s1 =>
      if (byte a <? 128)%N then String a (from_utf8_lossy s1)
      else if in_range 194 223 a then
        match s1 with
        | String b s2 => if continuation b then String a (String b (from_utf8_lossy s2)) else replacement (from_utf8_lossy s1)
        | EmptyString => replacement ""
        end
      else if in_range 224 239 a then
        match s1 with
        | String b s2 =>
            if second_of_3 a b then
              match s2 with
              | String c s3 =>
                  if continuation c then String a (String b (String c (from_utf8_lossy s3)))
                  else replacement (from_utf8_lossy s2)
              | EmptyString => replacement ""
              end
            else replacement (from_utf8_lossy s1)
        | EmptyString => replacement ""
        end
      else if in_range 240 244 a then
        match s1 with
        | String b s2 =>
            if second_of_4 a b then
              match s2 with
              | String c s3 =>
                  if continuation c then
                    match s3 with
                    | String d s4 =>
                        if continuation d then String a (String b (String c (String d (from_utf8_lossy s4))))
                        else replacement (from_utf8_lossy s3)
                    | EmptyString => replacement ""
                    end
                  else replacement (from_utf8_lossy s2)
              | EmptyString => replacement ""
              end
            else replacement (from_utf8_lossy s1)
        | EmptyString => replacement ""
        end
      else replacement (from_utf8_lossy s1)
  end.

(** [str::from_utf8]: a text with an invalid part is not its lossy reading. *)
Definition from_utf8 (s : string) : option string := if decide (from_utf8_lossy s = s) then Some s else None.

Definition crlf : string := String "013"%char (String "010"%char "").
Definition crlf2 : string := crlf +:+ crlf.

(** ** Sockets *)

Definition sock_read (k : nat) (s : list string) : string * list string :=
  match s with
  | [] => ("", [])
  | p :: s => if String.length p <=? k then (p, s) else (str_take k p, str_drop k p :: s)
  end.

Definition sock_len (s : list string) : nat := list_sum (String.length <$> s).

Inductive http_error := HttpInvalidData | HttpUnexpectedEof.

(** ** Requests *)

(** src/crates/weave-graph-hub/src/server.rs:52-52 [MAX_HUB_HEADER_BYTES] *)
Definition MAX_HUB_HEADER_BYTES : nat := N.to_nat 16384.
(** src/crates/weave-graph-hub/src/server.rs:53-53 [MAX_HUB_CHUNK_BYTES] *)
Definition MAX_HUB_CHUNK_BYTES : N := 5242880.
Definition READ_CHUNK : nat := N.to_nat 8192.

(** src/crates/weave-graph-hub/src/server.rs:151-157 [Request] *)
Record Request := mkRequest {
  req_method : string;
  req_path : string;
  req_headers : list (string * string);
  req_content_length : N;
  req_body : string;
}.

(** src/crates/weave-graph-hub/src/server.rs:160-177 [read_request_head]
    The head with its blank line, and what was read past it.  Every read that
    does not end the loop brings at least one byte. *)
Fixpoint head_loop (fuel : nat) (buf : string) (s : list string) :
    result (option (string * string * list string)) http_error :=
  match fuel with
  | 0 => Ok None
  | S fuel =>
      let '(chunk, s) := sock_read READ_CHUNK s in
      if is_empty chunk then Ok None else
      if MAX_HUB_HEADER_BYTES <? String.length buf + String.length chunk then Err HttpInvalidData else
      let buf := buf +:+ chunk in
      match split_once buf crlf2 with
      | Some (head, rest) => Ok (Some (head +:+ crlf2, rest, s))
      | None => head_loop fuel buf s
      end
  end.

(** src/crates/weave-graph-hub/src/server.rs:185-198 [read_request_head]
    The last Content-Length counts. *)
Fixpoint parse_headers (ls : list string) (headers : list (string * string)) (content_length : N) :
    result (list (string * string) * N) http_error :=
  match ls with
  | [] => Ok (headers, content_length)
  | line :: ls =>
      match split_once line ":" with
      | None => parse_headers ls headers content_length
      | Some (name, value) =>
          let name := trim name in
          let value := trim value in
          if eq_ignore_ascii_case name "content-length" then
            match parse_uint u64_MAX value with
            | Some n => parse_headers ls (headers ++ [(name, value)]) n
            | None => Err HttpInvalidData
            end
          else parse_headers ls (headers ++ [(name, value)]) content_length
      end
  end.

(** src/crates/weave-graph-hub/src/server.rs:178-206 [read_request_head] *)
Definition parse_head (head rest : string) : result Request http_error :=
  let ls := lines (from_utf8_lossy head) in
  let parts := split_whitespace (default "" (ls !! 0)) in
  let? p := parse_headers (drop 1 ls) [] 0 in
  Ok (mkRequest (default "" (parts !! 0)) (default "" (parts !! 1)) p.1 p.2 rest).

(** src/crates/weave-graph-hub/src/server.rs:159-207 [read_request_head] *)
Definition read_request_head (s : list string) : result (option (Request * list string)) http_error :=
  let? o := head_loop (S (sock_len s)) "" s in
  match o with
  | None => Ok None
  | Some (head, rest, s) => let? req := parse_head head rest in Ok (Some (req, s))
  end.

(** src/crates/weave-graph-hub/src/server.rs:214-228 [read_request_body] *)
Fixpoint body_loop (fuel : nat) (body : string) (content_length : N) (s : list string) : result string http_error :=
  if (content_length <=? N.of_nat (String.length body))%N then Ok body else
  match fuel with
  | 0 => Err HttpUnexpectedEof
  | S fuel =>
      let remaining := N.to_nat (content_length - N.of_nat (String.length body)) in
      let '(chunk, s) := sock_read (Nat.min remaining READ_CHUNK) s in
      if is_empty chunk then Err HttpUnexpectedEof else body_loop fuel (body +:+ chunk) content_length s
  end.

(** src/crates/weave-graph-hub/src/server.rs:209-229 [read_request_body] *)
Definition read_request_body (req : Request) (s : list string) : result Request http_error :=
  let with_body b := mkRequest (req_method req) (req_path req) (req_headers req) (req_content_length req) b in
  if (req_content_length req <? N.of_nat (String.length (req_body req)))%N
  then Ok (with_body (str_take (N.to_nat (req_content_length req)) (req_body req)))
  else result_map with_body (body_loop (sock_len s) (req_body req) (req_content_length req) s).

(** src/crates/weave-graph-hub/src/server.rs:231-236 [header] *)
Definition header (req : Request) (name : string) : option string :=
  snd <$> (snd <$> list_find (λ h : string * string, eq_ignore_ascii_case h.1 name = true) (req_headers req)).

(** ** Responses *)

Record Response := mkResponse {
  status : N;
  reason : string;
  extra_headers : list (string * string);
  res_body : string;
}.

Definition header_line (h : string * string) : string := h.1 +:+ ": " +:+ h.2 +:+ crlf.
Definition header_lines (hs : list (string * string)) : string := foldr (λ h acc, header_line h +:+ acc) "" hs.

(** src/crates/weave-graph-hub/src/server.rs:464-479 [write_response] *)
Definition write_response (r : Response) : string :=
  "HTTP/1.1 " +:+ dec (status r) +:+ " " +:+ reason r +:+ crlf +:+ "Connection: close" +:+ crlf +:+
  header_lines (extra_headers r) +:+
  "Content-Length: " +:+ dec (N.of_nat (String.length (res_body r))) +:+ crlf2 +:+ res_body r.

(** ** The client's side *)

(** src/crates/weave-graph-hub/src/client.rs:58-64 [ParsedUrl] *)
Record ParsedUrl := mkUrl { url_host : string; url_port : N; url_prefix : string }.

(** src/crates/weave-graph-hub/src/client.rs:16-29 [HubError]
    A malformed response keeps the message. *)
Inductive HubError := UnsupportedScheme (u : string) | InvalidUrl (u : string) | HubIo | MalformedResponse (m : string).

(** src/crates/weave-graph-hub/src/client.rs:66-94 [parse_url] *)
Definition parse_url (base : string) : result ParsedUrl HubError :=
  match strip_prefix "http://" base with
  | None => if starts_with base "https://" then Err (UnsupportedScheme base) else Err (InvalidUrl base)
  | Some rest =>
      let '(authority, prefix) :=
        match split_once rest "/" with Some (a, p) => (a, "/" +:+ p) | None => (rest, "") end in
      if is_empty authority then Err (InvalidUrl base) else
      match rsplit_once authority ":" with
      | Some (h, p) =>
          match parse_uint 65535 p with
          | Some port => Ok (mkUrl h port prefix)
          | None => Err (InvalidUrl base)
          end
      | None => Ok (mkUrl authority 80 prefix)
      end
  end.

(** src/crates/weave-graph-hub/src/client.rs:97-101 [HubClient] *)
Record HubClient := mkClient { client_url : ParsedUrl; client_repo : string; client_token : option string }.

(** src/crates/weave-graph-hub/src/client.rs:360-374 [HubClient::request] *)
Definition request_headers (c : HubClient) (method : string) (headers : list (string * string)) (payload : string) :
    list (string * string) :=
  [("Host", url_host (client_url c)); ("Connection", "close")] ++ headers ++
  match client_token c with Some token => [("Authorization", "Bearer " +:+ token)] | None => [] end ++
  (if decide (method = "PUT") then [("Content-Length", dec (N.of_nat (String.length payload)))] else []).

Definition request_head (c : HubClient) (method path : string) (headers : list (string * string)) (payload : string) : string :=
  method +:+ " " +:+ path +:+ " HTTP/1.1" +:+ crlf +:+ header_lines (request_headers c method headers payload) +:+ crlf.

(** src/crates/weave-graph-hub/src/client.rs:349-379 [HubClient::request]
    The bytes sent. *)
Definition write_request (c : HubClient) (method path : string) (headers : list (string * string)) (payload : string) : string :=
  request_head c method path headers payload +:+ (if decide (method = "PUT") then payload else "").

(** src/crates/weave-graph-hub/src/client.rs:389-403 [parse_response] *)
Definition parse_response (raw : string) : result (N * string * string) HubError :=
  match split_once raw crlf2 with
  | None => Err (MalformedResponse "no header/body separator")
  | Some (head, body) =>
      match from_utf8 head with
      | None => Err (MalformedResponse "non-utf8 headers")
      | Some head =>
          match (line ← lines head !! 0; code ← split_whitespace line !! 1; parse_uint 65535 code) with
          | Some status => Ok (status, head, body)
          | None => Err (MalformedResponse "no status line")
          end
      end
  end.
