(* ===== verification/HttpProofs.v ===== *)
(** * What the client writes is what the server reads

    For every request with printable headers, and for every way the network cuts
    it into packets; and the same for responses. *)

From S2P Require Import Prelude Str Spool Http.

(** ** Strings *)

Lemma str_take_drop n s : str_take n s +:+ str_drop n s = s.
Proof. revert s; induction n as [|n IH]; intros [|a s]; [done..|]. cbn. by rewrite IH. Qed.

Lemma length_str_take n s : String.length (str_take n s) = Nat.min n (String.length s).
Proof. revert s; induction n as [|n IH]; intros [|a s]; [done..|]. cbn. by rewrite IH. Qed.

Lemma length_str_drop n s : String.length (str_drop n s) = String.length s - n.
Proof. revert s; induction n as [|n IH]; intros [|a s]; [done..|]. apply IH. Qed.

Lemma str_take_all n s : String.length s ≤ n → str_take n s = s.
Proof. revert s; induction n as [|n IH]; intros [|a s] Hl; cbn in *; [done|lia|done|]. by rewrite IH by lia. Qed.

Lemma is_empty_true s : is_empty s = true ↔ s = "".
Proof. by destruct s. Qed.

Lemma strip_prefix_app p s r t : strip_prefix p s = Some r → strip_prefix p (s +:+ t) = Some (r +:+ t).
Proof. intros ->%strip_prefix_Some. apply strip_prefix_Some. by rewrite append_assoc. Qed.

Lemma strip_prefix_short p s t r :
  strip_prefix p s = None → strip_prefix p (s +:+ t) = Some r → String.length s < String.length p.
Proof.
  revert s; induction p as [|a p IH]; intros [|b s] Hn Hs; cbn in *; [done..|lia|]. case_decide; [|done].
  specialize (IH s Hn Hs). lia.
Qed.

(** Whether the first occurrence of a pattern is already there. *)
Lemma split_once_prefix pat s t a b : split_once (s +:+ t) pat = Some (a, b) →
  match split_once s pat with
  | Some (a', b') => a' = a ∧ b = b' +:+ t
  | None => String.length s < String.length a + String.length pat
  end.
Proof.
  revert a b; induction s as [|x s IH]; intros a b Hs.
  - destruct (strip_prefix pat "") as [r|] eqn:Hp; cbn [split_once]; rewrite Hp.
    + apply (strip_prefix_app _ _ _ t) in Hp. cbn in Hp. destruct t; cbn [String.append split_once] in Hs; rewrite Hp in Hs; by simplify_eq.
    + apply split_once_sound in Hs. cbn in *. destruct pat; [done|]. cbn. lia.
  - change (String x s +:+ t) with (String x (s +:+ t)) in Hs. cbn [split_once] in *.
    destruct (strip_prefix pat (String x s)) as [r|] eqn:Hp.
    + apply (strip_prefix_app _ _ _ t) in Hp. change (String x s +:+ t) with (String x (s +:+ t)) in Hp. rewrite Hp in Hs. by simplify_eq.
    + destruct (strip_prefix pat (String x (s +:+ t))) as [r|] eqn:Hp'.
      * simplify_eq. pose proof (strip_prefix_short pat (String x s) t b Hp Hp') as Hl. cbn in Hl.
        destruct (split_once s pat) as [[l' r']|] eqn:He; cbn; [|lia].
        exfalso. apply split_once_sound in He as ->. rewrite !length_append in Hl. lia.
      * apply fmap_Some in Hs as ([l r] & Hs & ?). simplify_eq. specialize (IH _ _ Hs).
        destruct (split_once s pat) as [[l' r']|]; cbn; [destruct IH; by subst|lia].
Qed.

(** ** Printable text *)

Definition printable (s : string) : bool := str_all (in_range 32 126) s.
(** A header value that survives trimming. *)
Definition tidy (s : string) : Prop := printable s = true ∧ trim s = s.
(** A word of the request line. *)
Definition word (s : string) : Prop := s ≠ "" ∧ str_all (in_range 33 126) s = true.

Lemma printable_append a b : printable (a +:+ b) = printable a && printable b.
Proof. apply str_all_append. Qed.

Lemma str_all_impl (p q : ascii → bool) s : (∀ a, p a = true → q a = true) → str_all p s = true → str_all q s = true.
Proof. rewrite !str_all_forall. intros Himp HF. eapply Forall_impl; [exact HF|exact Himp]. Qed.

Lemma in_range_true lo hi a : in_range lo hi a = true ↔ (lo ≤ byte a ≤ hi)%N.
Proof. unfold in_range. rewrite andb_true_iff, !N.leb_le. done. Qed.

Lemma word_printable s : word s → printable s = true.
Proof. intros [_ Hs]. eapply str_all_impl; [|exact Hs]. intros a. rewrite !in_range_true. lia. Qed.

Lemma printable_no_char c s : in_range 32 126 c = false → printable s = true → no_char c s.
Proof.
  intros Hc Hs. eapply str_all_impl; [|exact Hs]. intros a Ha. cbn. apply negb_true_iff, bool_decide_eq_false.
  intros ->. congruence.
Qed.

Lemma lossy_ascii s : str_all (λ a, (byte a <? 128)%N) s = true → from_utf8_lossy s = s.
Proof.
  induction s as [|a s IH]; intros Hs; [done|]. cbn [str_all] in Hs. apply andb_true_iff in Hs as [Ha Hs].
  cbn [from_utf8_lossy]. rewrite Ha. by rewrite IH.
Qed.

Lemma printable_ascii s : printable s = true → str_all (λ a, (byte a <? 128)%N) s = true.
Proof. apply str_all_impl. intros a Ha%in_range_true. apply N.ltb_lt. lia. Qed.

Lemma split_by_none p s : str_all (λ a, negb (p a)) s = true → split_by p s = [s].
Proof.
  induction s as [|a s IH]; intros Hs; [done|]. cbn [str_all] in Hs. apply andb_true_iff in Hs as [Ha%negb_true_iff Hs].
  cbn [split_by]. by rewrite Ha, IH.
Qed.

Lemma split_by_cons p c x r : p c = true → str_all (λ a, negb (p a)) x = true → split_by p (x +:+ String c r) = x :: split_by p r.
Proof.
  intros Hc. induction x as [|a x IH]; intros Hx.
  - cbn. by rewrite Hc.
  - cbn [str_all] in Hx. apply andb_true_iff in Hx as [Ha%negb_true_iff Hx].
    change (String a x +:+ String c r) with (String a (x +:+ String c r)). cbn [split_by]. by rewrite Ha, (IH Hx).
Qed.

Lemma word_no_space s : word s → str_all (λ a, negb (is_space a)) s = true.
Proof.
  intros [_ Hs]. eapply str_all_impl; [|exact Hs]. intros a Ha%in_range_true. apply negb_true_iff. unfold is_space.
  apply orb_false_iff. split; [apply andb_false_iff; right; apply N.leb_gt; lia|apply N.eqb_neq; lia].
Qed.

Lemma request_line_words m p : word m → word p → split_whitespace (m +:+ " " +:+ p +:+ " HTTP/1.1") = [m; p; "HTTP/1.1"].
Proof.
  intros Hm Hp. unfold split_whitespace. cbn [String.append].
  rewrite (split_by_cons is_space " "%char m), (split_by_cons is_space " "%char p) by (done || by apply word_no_space).
  destruct Hm as [Hm _], Hp as [Hp _]. rewrite !filter_cons_True by done. done.
Qed.

(** ** Lines *)

Definition term_lines (ls : list string) : string := foldr (λ l acc, l +:+ crlf +:+ acc) "" ls.

(** A line that can be sent: not empty, no line break. *)
Definition wire_line (l : string) : Prop := l ≠ "" ∧ printable l = true.

Lemma wire_no_lf l : wire_line l → no_char "010"%char (l +:+ String "013"%char "").
Proof. intros [_ Hl]. apply no_char_append. split; [by apply printable_no_char|done]. Qed.

Lemma split_char_line l r : wire_line l → split_char "010"%char (l +:+ crlf +:+ r) = (l +:+ String "013"%char "") :: split_char "010"%char r.
Proof.
  intros Hl. replace (l +:+ crlf +:+ r) with ((l +:+ String "013"%char "") +:+ String "010"%char r) by (by rewrite append_assoc).
  apply split_char_cons. by apply wire_no_lf.
Qed.

Lemma strip_cr l : strip_suffix (String "013"%char "") (l +:+ String "013"%char "") = Some l.
Proof. by apply strip_suffix_Some. Qed.

Lemma unterminate_cons x ps : ps ≠ [] → unterminate (x :: ps) = default x (strip_suffix (String "013"%char "") x) :: unterminate ps.
Proof. by destruct ps. Qed.

Lemma lines_cons l r : wire_line l → lines (l +:+ crlf +:+ r) = l :: lines r.
Proof.
  intros Hl. unfold lines. rewrite split_char_line by done. rewrite unterminate_cons by apply split_char_nonempty. by rewrite strip_cr.
Qed.

Lemma lines_term ls r : Forall wire_line ls → lines (term_lines ls +:+ r) = ls ++ lines r.
Proof.
  induction 1 as [|l ls Hl _ IH]; [done|]. cbn [term_lines foldr]. fold (term_lines ls). rewrite !append_assoc, lines_cons by done. by rewrite IH.
Qed.

Lemma lines_join_crlf ls : ls ≠ [] → Forall wire_line ls → lines (join crlf ls) = ls.
Proof.
  intros Hne HF. induction HF as [|l [|k ls] Hl HF IH]; [done| |].
  - destruct Hl as [Hne' Hp]. unfold lines. cbn [join]. rewrite split_char_one by (by apply printable_no_char). by destruct l.
  - change (join crlf (l :: k :: ls)) with (l +:+ crlf +:+ join crlf (k :: ls)). rewrite lines_cons by done. by rewrite IH.
Qed.

Lemma join_term ls : ls ≠ [] → join crlf ls +:+ crlf = term_lines ls.
Proof.
  induction ls as [|l [|k ls] IH]; intros Hne; [done| |].
  - cbn [join term_lines foldr]. by rewrite append_nil_r.
  - change (join crlf (l :: k :: ls)) with (l +:+ crlf +:+ join crlf (k :: ls)).
    cbn [term_lines foldr]. change (foldr _ "" (k :: ls)) with (term_lines (k :: ls)). rewrite !append_assoc, IH by done. done.
Qed.

(** The blank line is the first one. *)
Lemma split_once_skip pat x a r l t :
  strip_prefix pat (String x a) = None → split_once a pat = Some (l, r) → t = String x l → split_once (String x a) pat = Some (t, r).
Proof. intros Hp Hs ->. cbn [split_once]. by rewrite Hp, Hs. Qed.

Lemma split_once_line l s a b : printable l = true → split_once s crlf2 = Some (a, b) → split_once (l +:+ s) crlf2 = Some (l +:+ a, b).
Proof.
  intros Hl Hs. induction l as [|x l IH]; [done|]. cbn [printable str_all] in Hl. apply andb_true_iff in Hl as [Hx Hl].
  eapply split_once_skip; [|by apply IH|done]. change (crlf2) with (String "013"%char (String "010"%char crlf)). cbn [strip_prefix]. rewrite decide_False; [done|]. intros <-. by vm_compute in Hx.
Qed.

Lemma split_blank_line ls rest :
  ls ≠ [] → Forall wire_line ls → split_once (term_lines ls +:+ crlf +:+ rest) crlf2 = Some (join crlf ls, rest).
Proof.
  intros Hne HF. induction HF as [|l [|k ls] Hl HF IH]; [done| |].
  - cbn [term_lines foldr join]. rewrite !append_assoc. rewrite <-(append_nil_r l) at 2.
    apply split_once_line; [apply Hl|]. done.
  - change (join crlf (l :: k :: ls)) with (l +:+ crlf +:+ join crlf (k :: ls)).
    change (term_lines (l :: k :: ls)) with (l +:+ crlf +:+ term_lines (k :: ls)). rewrite !append_assoc.
    apply split_once_line; [apply Hl|]. specialize (IH ltac:(done)).
    assert (∃ x k', k = String x k' ∧ x ≠ "013"%char) as (x & k' & Hk & Hx).
    { apply Forall_cons in HF as [[Hk Hp] _]. destruct k as [|x k']; [done|]. exists x, k'. split; [done|].
      intros ->. by vm_compute in Hp. }
    eapply split_once_skip; [..|done].
    + change (term_lines (k :: ls)) with (k +:+ crlf +:+ term_lines ls). rewrite Hk. apply strip_prefix_None. intros r Heq. by injection Heq as ->.
    + eapply split_once_skip; [..|done]; [done|]. done.
Qed.

(** ** Headers *)

Definition header_text (h : string * string) : string := h.1 +:+ ": " +:+ h.2.

Record wire_header (h : string * string) : Prop := {
  wh_name : word h.1;
  wh_colon : no_char ":"%char h.1;
  wh_value : tidy h.2;
}.

Lemma header_lines_term hs : header_lines hs = term_lines (header_text <$> hs).
Proof.
  induction hs as [|h hs IH]; [done|]. cbn [header_lines foldr fmap list_fmap term_lines]. fold (header_lines hs).
  rewrite IH. unfold header_line, header_text. by rewrite !append_assoc.
Qed.

Lemma header_text_wire h : wire_header h → wire_line (header_text h).
Proof.
  intros [Hn _ [Hv _]]. split.
  - destruct Hn as [Hn _]. unfold header_text. by destruct h.1.
  - unfold header_text. rewrite !printable_append, (word_printable _ Hn), Hv. done.
Qed.

Lemma headers_wire hs : Forall wire_header hs → Forall wire_line (header_text <$> hs).
Proof. intros HF. rewrite Forall_fmap. eapply Forall_impl; [exact HF|]. apply header_text_wire. Qed.

Lemma trim_word s : word s → trim s = s.
Proof.
  intros Hw. pose proof (word_no_space s Hw) as Hs. unfold trim.
  assert (trim_start_by is_space s = s) as ->; [|by apply trim_end_all].
  destruct s as [|a s]; [done|]. cbn [str_all] in Hs. apply andb_true_iff in Hs as [Ha%negb_true_iff _]. cbn [trim_start_by]. by rewrite Ha.
Qed.

Lemma split_header h : wire_header h → split_once (header_text h) ":" = Some (h.1, " " +:+ h.2).
Proof. intros [_ Hc _]. unfold header_text. apply (split_once_no_char ":"%char h.1 (" " +:+ h.2)). done. Qed.

Lemma parse_headers_app hs : ∀ ls acc cl, Forall wire_header hs →
  Forall (λ h : string * string, eq_ignore_ascii_case h.1 "content-length" = false) hs →
  parse_headers ((header_text <$> hs) ++ ls) acc cl = parse_headers ls (acc ++ hs) cl.
Proof.
  induction hs as [|[n v] hs IH]; intros ls acc cl Hw Hcl; cbn [fmap list_fmap app]; [by rewrite app_nil_r|].
  apply Forall_cons in Hw as [Hh Hw], Hcl as [Hc Hcl]. cbn [parse_headers]. rewrite split_header by done. cbn [fst snd].
  rewrite (trim_word n) by apply Hh. cbn [fst] in Hc. rewrite Hc.
  assert (trim v = v) as Hv by (by destruct (wh_value _ Hh)). change (trim (" " +:+ v)) with (trim v). rewrite Hv.
  rewrite IH by done. by rewrite <-app_assoc.
Qed.

(** ** Sockets *)

Definition sock_ok (s : list string) : Prop := Forall (λ p, p ≠ "") s.

Lemma sock_len_concat s : sock_len s = String.length (String.concat "" s).
Proof.
  unfold sock_len. induction s as [|p [|q s] IH]; [done|cbn; lia|].
  change (String.concat "" (p :: q :: s)) with (p +:+ String.concat "" (q :: s)). rewrite length_append, <-IH. done.
Qed.

Lemma concat_cons p s : String.concat "" (p :: s) = p +:+ String.concat "" s.
Proof. destruct s; [|done]. cbn. by rewrite append_nil_r. Qed.

Lemma sock_read_spec k s chunk s' : 0 < k → sock_ok s → sock_read k s = (chunk, s') →
  chunk +:+ String.concat "" s' = String.concat "" s ∧ sock_ok s' ∧ String.length chunk ≤ k ∧ (chunk = "" → s = []).
Proof.
  intros Hk Hs. unfold sock_read. destruct s as [|p s].
  { intros [= <- <-]. split_and!; [done|constructor|cbn; lia|done]. }
  apply Forall_cons in Hs as [Hp Hs].
  destruct (Nat.leb_spec (String.length p) k) as [Hl|Hl]; intros [= <- <-].
  - rewrite concat_cons. done.
  - rewrite !concat_cons, <-append_assoc, str_take_drop. split_and!; [done| | |].
    + apply Forall_cons. split; [|done]. intros Hd. pose proof (length_str_drop k p) as Hn. rewrite Hd in Hn. cbn in Hn. lia.
    + rewrite length_str_take. lia.
    + intros Ht. pose proof (length_str_take k p) as Hn. rewrite Ht in Hn. cbn in Hn. lia.
Qed.

Lemma head_loop_reads h rest : ∀ fuel buf s,
  sock_ok s → buf +:+ String.concat "" s = h +:+ crlf2 +:+ rest → split_once (h +:+ crlf2 +:+ rest) crlf2 = Some (h, rest) →
  String.length h + 4 ≤ READ_CHUNK → String.length buf < String.length h + 4 → sock_len s < fuel →
  ∃ rest' s', head_loop fuel buf s = Ok (Some (h +:+ crlf2, rest', s')) ∧ rest' +:+ String.concat "" s' = rest ∧ sock_ok s'.
Proof.
  assert (READ_CHUNK + READ_CHUNK = MAX_HUB_HEADER_BYTES) as Hmax.
  { unfold READ_CHUNK, MAX_HUB_HEADER_BYTES. lia. }
  induction fuel as [|fuel IH]; intros buf s Hs Hall Hsp Hh Hbuf Hfuel; [lia|]. cbn [head_loop].
  destruct (sock_read READ_CHUNK s) as [chunk s1] eqn:Hr.
  destruct (sock_read_spec READ_CHUNK s chunk s1) as (Hcat & Hs1 & Hlen & Hend); [unfold READ_CHUNK; lia|done|done|].
  destruct (is_empty chunk) eqn:He.
  { apply is_empty_true, Hend in He as ->. apply (f_equal String.length) in Hall. rewrite !length_append in Hall. cbn in Hall. lia. }
  destruct (Nat.ltb_spec MAX_HUB_HEADER_BYTES (String.length buf + String.length chunk)); [lia|].
  assert ((buf +:+ chunk) +:+ String.concat "" s1 = h +:+ crlf2 +:+ rest) as Hall1 by (by rewrite append_assoc, Hcat).
  rewrite <-Hall1 in Hsp. pose proof (split_once_prefix _ _ _ _ _ Hsp) as Hpre.
  destruct (split_once (buf +:+ chunk) crlf2) as [[a b]|].
  - destruct Hpre as [-> ->]. eauto.
  - change (String.length crlf2) with 4 in Hpre. rewrite Hall1 in Hsp. apply IH; [done..|].
    rewrite sock_len_concat in *. rewrite <-Hcat, length_append in Hfuel.
    assert (String.length chunk ≠ 0); [by destruct chunk|lia].
Qed.

Lemma body_loop_reads payload : ∀ fuel body s, sock_ok s → body +:+ String.concat "" s = payload → sock_len s ≤ fuel →
  body_loop fuel body (N.of_nat (String.length payload)) s = Ok payload.
Proof.
  induction fuel as [|fuel IH]; intros body s Hs Hall Hfuel; cbn [body_loop].
  - rewrite sock_len_concat in Hfuel. destruct (String.concat "" s); [|cbn in Hfuel; lia]. rewrite append_nil_r in Hall. subst.
    by rewrite N.leb_refl.
  - destruct (N.leb_spec (N.of_nat (String.length payload)) (N.of_nat (String.length body))) as [Hle|Hlt].
    { subst payload. rewrite length_append in Hle. destruct (String.concat "" s); [by rewrite append_nil_r|cbn in Hle; lia]. }
    destruct (sock_read _ s) as [chunk s1] eqn:Hr.
    apply sock_read_spec in Hr as (Hcat & Hs1 & Hlen & Hend); [|unfold READ_CHUNK; lia|done].
    destruct (is_empty chunk) eqn:He.
    { apply is_empty_true, Hend in He as ->. cbn in Hall. rewrite append_nil_r in Hall. subst. lia. }
    apply IH; [done|by rewrite append_assoc, Hcat|]. rewrite sock_len_concat in *. rewrite <-Hcat, length_append in Hfuel.
    assert (String.length chunk ≠ 0); [by destruct chunk|lia].
Qed.

(** ** A request *)

Lemma word_dec n : word (dec n).
Proof.
  split; [apply dec_nonempty|]. eapply str_all_impl; [|apply dec_all_digits]. intros a Ha.
  unfold is_digit in Ha. apply andb_true_iff in Ha as [H1%N.leb_le H2%N.leb_le]. apply in_range_true. lia.
Qed.

Lemma tidy_word s : word s → tidy s.
Proof. intros Hw. split; [by apply word_printable|by apply trim_word]. Qed.

Lemma tidy_dec n : tidy (dec n).
Proof. apply tidy_word, word_dec. Qed.

Lemma trim_end_append p a b : trim_end_by p b ≠ "" → trim_end_by p (a +:+ b) = a +:+ trim_end_by p b.
Proof.
  intros Hb. induction a as [|x a IH]; [done|]. cbn [String.append trim_end_by]. rewrite IH. by destruct (a +:+ trim_end_by p b) eqn:He; [destruct a|].
Qed.

Lemma tidy_bearer token : tidy token → token ≠ "" → tidy ("Bearer " +:+ token).
Proof.
  intros [Hp Ht] Hne. split; [rewrite printable_append, Hp; done|].
  change (trim ("Bearer " +:+ token)) with (trim_end_by is_space ("Bearer " +:+ token)).
  assert (trim_end_by is_space token = token) as He.
  { unfold trim in Ht. rewrite <-Ht. apply trim_end_by_idem. }
  rewrite trim_end_append; by rewrite He.
Qed.

(** What a request carries besides the client's own headers. *)
Record wire_request (c : HubClient) (method path : string) (headers : list (string * string)) (payload : string) : Prop := {
  wr_method : word method;
  wr_path : word path;
  wr_host : tidy (url_host (client_url c));
  wr_token token : client_token c = Some token → tidy token ∧ token ≠ "";
  wr_headers : Forall wire_header headers;
  wr_length : Forall (λ h : string * string, eq_ignore_ascii_case h.1 "content-length" = false) headers;
  wr_head : String.length (request_head c method path headers payload) ≤ READ_CHUNK;
  wr_payload : (N.of_nat (String.length payload) ≤ u64_MAX)%N;
}.

(** The headers before Content-Length. *)
Definition own_headers (c : HubClient) (headers : list (string * string)) : list (string * string) :=
  [("Host", url_host (client_url c)); ("Connection", "close")] ++ headers ++
  match client_token c with Some token => [("Authorization", "Bearer " +:+ token)] | None => [] end.

Definition sent_body (method payload : string) : string := if decide (method = "PUT") then payload else "".

Section request.
Context (c : HubClient) (method path : string) (headers : list (string * string)) (payload : string).
Context (Hw : wire_request c method path headers payload).

Abbreviation all_headers := (request_headers c method headers payload).

Lemma request_headers_own : all_headers =
  own_headers c headers ++ (if decide (method = "PUT") then [("Content-Length", dec (N.of_nat (String.length payload)))] else []).
Proof. unfold request_headers, own_headers. by rewrite <-!app_assoc. Qed.

Lemma own_headers_wire : Forall wire_header (own_headers c headers) ∧
  Forall (λ h : string * string, eq_ignore_ascii_case h.1 "content-length" = false) (own_headers c headers).
Proof.
  destruct Hw as [_ _ Hhost Htok Hh Hl _ _]. unfold own_headers. rewrite !Forall_app. split_and!; try done.
  - repeat constructor; cbn; try done; apply Hhost.
  - destruct (client_token c) as [token|]; [|done]. destruct (Htok token) as [Ht Hne]; [done|].
    repeat constructor; try done; by apply (tidy_bearer token).
  - repeat constructor.
  - destruct (client_token c); repeat constructor.
Qed.

Lemma all_headers_wire : Forall wire_header all_headers.
Proof.
  rewrite request_headers_own. apply Forall_app. split; [apply own_headers_wire|]. case_decide; [|done].
  repeat constructor; try done; apply tidy_dec.
Qed.

Definition request_line : string := method +:+ " " +:+ path +:+ " HTTP/1.1".
Definition request_lines : list string := request_line :: (header_text <$> all_headers).

Lemma request_lines_wire : Forall wire_line request_lines.
Proof.
  apply Forall_cons. split; [|apply headers_wire, all_headers_wire]. destruct Hw as [Hm Hp _ _ _ _ _ _]. split.
  - destruct Hm as [Hm _]. unfold request_line. by destruct method.
  - unfold request_line. rewrite !printable_append, (word_printable _ Hm), (word_printable _ Hp). done.
Qed.

Lemma request_head_lines : request_head c method path headers payload = term_lines request_lines +:+ crlf.
Proof.
  unfold request_head, request_lines, request_line. rewrite header_lines_term. cbn [term_lines foldr].
  fold (term_lines (header_text <$> all_headers)). by rewrite !append_assoc.
Qed.

Lemma term_lines_ascii ls r : Forall wire_line ls → str_all (λ a, (byte a <? 128)%N) r = true →
  str_all (λ a, (byte a <? 128)%N) (term_lines ls +:+ r) = true.
Proof.
  intros HF Hr. induction HF as [|l ls [_ Hl] _ IH]; [done|]. cbn [term_lines foldr]. fold (term_lines ls).
  rewrite str_all_append in IH. by rewrite !append_assoc, !str_all_append, (printable_ascii _ Hl), IH.
Qed.

Lemma parse_head_sent rest :
  parse_head (request_head c method path headers payload) rest =
  Ok (mkRequest method path all_headers (N.of_nat (String.length (sent_body method payload))) rest).
Proof.
  unfold parse_head. rewrite request_head_lines, lossy_ascii by (by apply term_lines_ascii; [apply request_lines_wire|]).
  rewrite lines_term by apply request_lines_wire. change (lines crlf) with [""]. unfold request_lines.
  change ((request_line :: (header_text <$> all_headers)) ++ [""]) with (request_line :: ((header_text <$> all_headers) ++ [""])).
  change ((request_line :: ((header_text <$> all_headers) ++ [""])) !! 0) with (Some request_line).
  change (drop 1 (request_line :: ((header_text <$> all_headers) ++ [""]))) with ((header_text <$> all_headers) ++ [""]).
  cbn [default from_option id]. unfold request_line. rewrite request_line_words by apply Hw.
  assert (parse_headers ((header_text <$> all_headers) ++ [""]) [] 0 =
    Ok (all_headers, N.of_nat (String.length (sent_body method payload)))) as ->; [|done].
  destruct own_headers_wire as [Hwire Hno]. rewrite request_headers_own, fmap_app, <-app_assoc, parse_headers_app by done.
  unfold sent_body. case_decide; [|cbn; by rewrite app_nil_r].
  cbn [fmap list_fmap app parse_headers].
  rewrite split_header by (repeat constructor; try done; apply tidy_dec). cbn [fst snd].
  change (trim (" " +:+ dec (N.of_nat (String.length payload)))) with (trim (dec (N.of_nat (String.length payload)))).
  rewrite (proj2 (tidy_dec _)). change (trim "Content-Length") with "Content-Length".
  change (eq_ignore_ascii_case "Content-Length" "content-length") with true. cbv iota.
  rewrite parse_uint_dec by apply Hw. done.
Qed.

Lemma request_received packets :
  sock_ok packets → String.concat "" packets = write_request c method path headers payload →
  ∃ rest s, read_request_head packets = Ok (Some (mkRequest method path all_headers (N.of_nat (String.length (sent_body method payload))) rest, s)) ∧
    read_request_body (mkRequest method path all_headers (N.of_nat (String.length (sent_body method payload))) rest) s =
      Ok (mkRequest method path all_headers (N.of_nat (String.length (sent_body method payload))) (sent_body method payload)).
Proof.
  intros Hs Hcat. set (body := sent_body method payload). set (h := join crlf request_lines).
  assert (request_head c method path headers payload = h +:+ crlf2) as Hh.
  { rewrite request_head_lines, <-join_term by done. unfold crlf2. by rewrite <-append_assoc. }
  assert (String.concat "" packets = h +:+ crlf2 +:+ body) as Hall.
  { rewrite Hcat. unfold write_request. fold (sent_body method payload). by rewrite Hh, append_assoc. }
  assert (split_once (h +:+ crlf2 +:+ body) crlf2 = Some (h, body)) as Hsp.
  { rewrite <-append_assoc, <-Hh, request_head_lines, append_assoc. apply split_blank_line; [done|apply request_lines_wire]. }
  pose proof (wr_head _ _ _ _ _ Hw) as Hlen. rewrite Hh, length_append in Hlen. change (String.length crlf2) with 4 in Hlen.
  destruct (head_loop_reads h body (S (sock_len packets)) "" packets) as (rest & s & Hloop & Hrest & Hs'); [done|done|done|done|cbn; lia|lia|].
  exists rest, s. unfold read_request_head. rewrite Hloop. cbn [result_bind]. rewrite <-Hh, parse_head_sent. split; [done|].
  unfold read_request_body. cbn [req_content_length req_body].
  destruct (N.ltb_spec (N.of_nat (String.length body)) (N.of_nat (String.length rest))) as [Hlt|_].
  { rewrite <-Hrest, length_append in Hlt. lia. }
  by rewrite (body_loop_reads body).
Qed.
End request.

(** ** A response *)

Definition response_lines (r : Response) : list string :=
  ("HTTP/1.1 " +:+ dec (status r) +:+ " " +:+ reason r) :: "Connection: close" ::
  ((header_text <$> extra_headers r) ++ ["Content-Length: " +:+ dec (N.of_nat (String.length (res_body r)))]).

Record wire_response (r : Response) : Prop := {
  ws_status : (status r ≤ 65535)%N;
  ws_reason : printable (reason r) = true;
  ws_headers : Forall wire_header (extra_headers r);
}.

Lemma response_lines_wire r : wire_response r → Forall wire_line (response_lines r).
Proof.
  intros [_ Hr Hh]. apply Forall_cons. split; [|apply Forall_cons; split; [by split|apply Forall_app; split]].
  - split; [done|]. by rewrite !printable_append, Hr, (proj1 (tidy_dec _)).
  - by apply headers_wire.
  - apply Forall_singleton. split; [done|]. by rewrite printable_append, (proj1 (tidy_dec _)).
Qed.

Lemma term_lines_app a b : term_lines (a ++ b) = term_lines a +:+ term_lines b.
Proof. induction a as [|x a IH]; [done|]. cbn [app term_lines foldr]. fold (term_lines (a ++ b)) (term_lines a). by rewrite IH, !append_assoc. Qed.

Lemma write_response_lines r : write_response r = term_lines (response_lines r) +:+ crlf +:+ res_body r.
Proof.
  unfold write_response, response_lines. rewrite header_lines_term. cbn [term_lines foldr].
  fold (term_lines ((header_text <$> extra_headers r) ++ ["Content-Length: " +:+ dec (N.of_nat (String.length (res_body r)))])).
  rewrite term_lines_app. cbn [term_lines foldr]. fold (term_lines (header_text <$> extra_headers r)).
  unfold crlf2. by rewrite !append_assoc.
Qed.

Lemma join_ascii ls : Forall wire_line ls → str_all (λ a, (byte a <? 128)%N) (join crlf ls) = true.
Proof.
  intros HF. destruct (decide (ls = [])) as [->|Hne]; [done|].
  pose proof (term_lines_ascii ls "" HF eq_refl) as Ht. rewrite append_nil_r, <-join_term, str_all_append in Ht by done.
  by apply andb_true_iff in Ht as [? _].
Qed.

Lemma status_line_words n reason : split_whitespace ("HTTP/1.1 " +:+ dec n +:+ " " +:+ reason) !! 1 = Some (dec n).
Proof.
  unfold split_whitespace. pose proof (word_dec n) as Hwd.
  change ("HTTP/1.1 " +:+ dec n +:+ " " +:+ reason) with ("HTTP/1.1" +:+ String " " (dec n +:+ String " " reason)).
  rewrite (split_by_cons is_space " "%char "HTTP/1.1"), (split_by_cons is_space " "%char (dec n)) by (done || by apply word_no_space).
  rewrite !filter_cons_True by (done || apply dec_nonempty). done.
Qed.

Lemma response_received r : wire_response r →
  parse_response (write_response r) = Ok (status r, join crlf (response_lines r), res_body r) ∧
  lines (join crlf (response_lines r)) = response_lines r.
Proof.
  intros Hr. pose proof (response_lines_wire r Hr) as Hl. assert (lines (join crlf (response_lines r)) = response_lines r) as Hlines by (by apply lines_join_crlf).
  split; [|done]. unfold parse_response. rewrite write_response_lines, split_blank_line by done.
  unfold from_utf8. rewrite decide_True by (by apply lossy_ascii, join_ascii). rewrite Hlines.
  change (response_lines r !! 0) with (Some ("HTTP/1.1 " +:+ dec (status r) +:+ " " +:+ reason r)). cbn [mbind option_bind].
  rewrite status_line_words. cbn [mbind option_bind]. by rewrite parse_uint_dec by apply Hr.
Qed.
