(* ===== verification/Hub.v ===== *)
(** * The hub over HTTP (weave-graph-hub: server.rs, client.rs)

    The registry behind its HTTP front end, and the client that pushes to and
    pulls from it.  The build is the one with signatures and webhooks, without the
    canvas and compression features; arithmetic wraps, as in the release profile.
    [None] of an option is a panic of the registry. *)

From S2P Require Import Prelude Str Spool Registry Auth Http.

(** ** Routes *)

(** src/crates/weave-graph-hub/src/server.rs:243-254 [parse_snapshot_path] *)
Definition parse_snapshot_path (path : string) : option (string * string) :=
  '(_, rest) ← split_once path "/snapshots/";
  '(repo_id, filename) ← split_once rest "/";
  let sha := default filename (strip_suffix ".tar.zst" filename) in
  if is_safe_path_component repo_id && is_safe_path_component sha then Some (repo_id, sha) else None.

(** src/crates/weave-graph-hub/src/server.rs:261-269 [parse_repo_scoped_path] *)
Definition parse_repo_scoped_path (path suffix : string) : option string :=
  '(_, rest) ← split_once path "/repos/";
  '(repo_id, tail) ← split_once rest "/";
  if bool_decide (trim_end_by (λ a, bool_decide (a = "/"%char)) tail = suffix) && is_safe_path_component repo_id
  then Some repo_id else None.

(** src/crates/weave-graph-hub/src/server.rs:641-646 [handle_connection] *)
Definition parse_content_range (v : string) : option (N * N * N) :=
  v ← strip_prefix "bytes " v;
  '(range, total) ← split_once v "/";
  '(start, end_) ← split_once range "-";
  start ← parse_uint u64_MAX start;
  end_ ← parse_uint u64_MAX end_;
  total ← parse_uint u64_MAX total;
  Some (start, end_, total).

(** src/crates/weave-graph-hub/src/server.rs:640-652 [handle_connection] *)
Definition upload_range (req : Request) : N * N * N :=
  let len := N.of_nat (String.length (req_body req)) in
  default (0%N, (len - 1)%N, len) (header req "Content-Range" ≫= parse_content_range).

(** src/crates/weave-graph-hub/src/server.rs:654-662 [handle_connection] *)
Definition valid_range (start end_ total body_len : N) : bool :=
  if (total =? 0)%N then (start =? 0)%N && (end_ =? 0)%N && (body_len =? 0)%N
  else (start <=? end_)%N && ((end_ - start + 1) `mod` u64_modulus =? body_len)%N &&
       (start + body_len <? u64_modulus)%N && (start + body_len <=? total)%N.

Definition plain (status : N) (reason body : string) : Response := mkResponse status reason [] body.

Definition conflict_response : Response := plain 409 "Conflict" "base sha does not match current head".
Definition rate_limited_response (secs : N) : Response :=
  mkResponse 429 "Too Many Requests" [("Retry-After", dec secs)] "rate limited".

Section hub.
Context `{ReadDir}.

(** How an I/O error prints, which depends on the platform. *)
Context (error_text : IoError → string).

Definition failed_response (e : IoError) : Response := plain 500 "Internal Server Error" (error_text e).

(** src/crates/weave-graph-hub/src/server.rs:731-763 [handle_connection] *)
Definition complete_response (res : result PushDecision IoError) : Response :=
  match res with
  | Ok Accepted => plain 202 "Accepted" ""
  | Ok Conflict => conflict_response
  | Ok (RateLimited secs) => rate_limited_response secs
  | Ok SignatureInvalid => plain 400 "Bad Request" "snapshot signature missing or did not verify"
  | Err e => failed_response e
  end.

(** src/crates/weave-graph-hub/src/server.rs:636-638 [handle_connection] *)
Definition retention_of (req : Request) : N :=
  default 20%N (header req "X-Weave-Retention" ≫= parse_uint u64_MAX).

(** src/crates/weave-graph-hub/src/server.rs:711-766 [handle_connection]
    From the chunk on. *)
Definition put_chunk (now : N) (r : Registry) (repo_id sha : string) (req : Request) (start total : N) :
    option (Registry * Response) :=
  match spool_chunk now r repo_id sha start (req_body req) with
  | (r, Err e) => Some (abandon_upload r repo_id sha, failed_response e)
  | (r, Ok _) =>
      if (total <=? start + N.of_nat (String.length (req_body req)))%N then
        '(r, res) ← push_complete now r repo_id sha (header req "X-Weave-Base-Sha") (retention_of req)
                      (header req "X-Weave-Signature");
        Some (r, complete_response res)
      else Some (r, plain 202 "Accepted" "chunk spooled")
  end.

(** src/crates/weave-graph-hub/src/server.rs:633-767 [handle_connection]
    The PUT arm; no response when [begin_upload] fails. *)
Definition handle_put (now : N) (r : Registry) (repo_id sha : string) (req : Request) :
    option (Registry * option Response) :=
  let '(start, end_, total) := upload_range req in
  let body_len := N.of_nat (String.length (req_body req)) in
  if negb (valid_range start end_ total body_len) || (max_snapshot_bytes (config r) <? total)%N
  then Some (r, Some (plain 400 "Bad Request" "invalid or oversized Content-Range")) else
  if (start =? 0)%N then
    match begin_upload now r repo_id sha (header req "X-Weave-Base-Sha") with
    | (r, Ok Accepted) => '(r, resp) ← put_chunk now r repo_id sha req start total; Some (r, Some resp)
    | (r, Ok Conflict) => Some (r, Some conflict_response)
    | (r, Ok (RateLimited secs)) => Some (r, Some (rate_limited_response secs))
    | (r, Ok SignatureInvalid) => Some (r, Some (plain 403 "Forbidden" "snapshot signature is invalid"))
    | (r, Err _) => Some (r, None)
    end
  else '(r, resp) ← put_chunk now r repo_id sha req start total; Some (r, Some resp).

(** src/crates/weave-graph-hub/src/server.rs:450-462 [handle_set_webhook] *)
Definition handle_set_webhook (now : N) (registerable : string → bool) (r : Registry) (repo_id body : string) :
    Registry * Response :=
  match set_webhook now registerable r repo_id (trim (from_utf8_lossy body)) with
  | (r, Ok _) => (r, plain 200 "OK" "")
  | (r, Err e) => (r, failed_response e)
  end.

(** src/crates/weave-graph-hub/src/server.rs:589-777 [handle_connection]
    The routes, once the body is read. *)
Definition handle_request (now : N) (registerable : string → bool) (r : Registry) (req : Request) :
    option (Registry * option Response) :=
  match (if decide (req_method req = "PUT") then parse_repo_scoped_path (req_path req) "webhook" else None) with
  | Some repo_id =>
      let '(r, resp) := handle_set_webhook now registerable r repo_id (req_body req) in Some (r, Some resp)
  | None =>
      match parse_snapshot_path (req_path req) with
      | None => Some (r, Some (plain 404 "Not Found" "unknown path"))
      | Some (repo_id, sha) =>
          if decide (req_method req = "HEAD") then
            let offset := get_spool_offset r repo_id sha in
            Some (r, Some (if (0 <? offset)%N then mkResponse 200 "OK" [("Upload-Offset", dec offset)] ""
                           else plain 404 "Not Found" ""))
          else if decide (req_method req = "GET") then
            Some (r, Some (match pull r repo_id sha with
                           | Found bytes sig =>
                               mkResponse 200 "OK" (match sig with Some s => [("X-Weave-Signature", s)] | None => [] end) bytes
                           | NotFound => plain 404 "Not Found" "no such snapshot"
                           end))
          else if decide (req_method req = "PUT") then handle_put now r repo_id sha req
          else Some (r, Some (plain 405 "Method Not Allowed" "unsupported method"))
      end
  end.

(** src/crates/weave-graph-hub/src/server.rs:513-547 [handle_connection]
    One connection of a build without the views; no response when the request cannot
    be read.  [HubViews.serve_connection] has them, and what a panic leaves. *)
Definition handle_connection (now : N) (registerable : string → bool) (auth_token : option string) (r : Registry)
    (stream : list string) : option (Registry * option Response) :=
  match read_request_head stream with
  | Err _ | Ok None => Some (r, None)
  | Ok (Some (req, stream)) =>
      if match auth_token with Some token => negb (bearer_token_matches (header req "Authorization") token) | None => false end
      then Some (r, Some (plain 401 "Unauthorized" "missing or invalid bearer token")) else
      if (MAX_HUB_CHUNK_BYTES <? req_content_length req)%N
      then Some (r, Some (plain 413 "Payload Too Large" "request body exceeds the hub chunk limit")) else
      match read_request_body req stream with
      | Err _ => Some (r, None)
      | Ok req => handle_request now registerable r req
      end
  end.
End hub.

(** ** The client *)

(** src/crates/weave-graph-hub/src/client.rs:44-49 [PushOutcome] *)
Inductive PushOutcome := PushPublished | PushAccepted | PushConflict | PushRateLimited (retry_after_secs : option N).

(** src/crates/weave-graph-hub/src/client.rs:52-55 [PullOutcome] *)
Inductive PullOutcome := PullFound (bytes : string) (sig : option string) | PullNotFound.

(** src/crates/weave-graph-hub/src/client.rs:132-136 [HubClient::pull]
    The value of the first line with the given lower-case name and colon; only up
    to a second colon. *)
Definition response_header (name headers : string) : option string :=
  line ← snd <$> list_find (λ l, starts_with (to_ascii_lowercase l) name = true) (lines headers);
  v ← split_char ":"%char line !! 1;
  Some (trim v).

(** src/crates/weave-graph-hub/src/client.rs:302-323 [HubClient::base_headers] *)
Definition base_headers (c : HubClient) (retention : N) (base signature : option string) : list (string * string) :=
  [("Content-Type", "application/octet-stream"); ("X-Weave-Repo-Id", client_repo c);
   ("X-Weave-Retention", dec retention)] ++
  match base with Some b => [("X-Weave-Base-Sha", b)] | None => [] end ++
  match signature with Some s => [("X-Weave-Signature", s)] | None => [] end.

Definition unexpected_status (status : N) : HubError :=
  MalformedResponse ("unexpected status " +:+ dec status +:+ " on push").

(** src/crates/weave-graph-hub/src/client.rs:325-344 [HubClient::map_status] *)
Definition map_status (status : N) (headers : string) : result PushOutcome HubError :=
  if bool_decide (status ∈ [200; 201; 204]%N) then Ok PushPublished else
  if decide (status = 202%N) then Ok PushAccepted else
  if decide (status = 409%N) then Ok PushConflict else
  if decide (status = 429%N) then
    Ok (PushRateLimited (response_header "retry-after:" headers ≫= parse_uint u64_MAX))
  else Err (unexpected_status status).

(** src/crates/weave-graph-hub/src/client.rs:124-127 [HubClient::pull] *)
Definition snapshot_path (c : HubClient) (sha : string) : string :=
  url_prefix (client_url c) +:+ "/snapshots/" +:+ client_repo c +:+ "/" +:+ sha +:+ ".tar.zst".

Section client.
(** A request over a fresh connection, and what it does to the rest of the world. *)
Context {W : Type}.
Context (request : W → string → string → list (string * string) → string → W * result (N * string * string) HubError).
Context (c : HubClient).

(** src/crates/weave-graph-hub/src/client.rs:123-142 [HubClient::pull] *)
Definition client_pull (w : W) (commit_sha : string) : W * result PullOutcome HubError :=
  match request w "GET" (snapshot_path c commit_sha) [] "" with
  | (w, Err e) => (w, Err e)
  | (w, Ok (status, headers, body)) =>
      (w, if decide (status = 200%N) then Ok (PullFound body (response_header "x-weave-signature:" headers))
          else if decide (status = 404%N) then Ok PullNotFound
          else Err (MalformedResponse ("unexpected status " +:+ dec status +:+ " on pull")))
  end.

(** src/crates/weave-graph-hub/src/client.rs:231-238 [HubClient::push_chunks] *)
Definition remote_offset (r : result (N * string * string) HubError) : option N :=
  match r with
  | Ok (status, headers, _) =>
      if decide (status = 200%N) then response_header "upload-offset:" headers ≫= parse_uint u64_MAX else None
  | Err _ => None
  end.

(** src/crates/weave-graph-hub/src/client.rs:240-240 [HubClient::push_chunks] *)
Definition chunk_size : N := 5242880.

Definition chunk_headers (base : list (string * string)) (offset end_ total : N) : list (string * string) :=
  base ++ [("Content-Range", "bytes " +:+ dec offset +:+ "-" +:+ dec (end_ - 1) +:+ "/" +:+ dec total)].

(** src/crates/weave-graph-hub/src/client.rs:243-299 [HubClient::push_chunks]
    The upload loop, with a bound on its rounds: a server that keeps failing
    after successes can keep it going for ever. *)
Fixpoint push_loop (fuel : nat) (path : string) (headers : list (string * string)) (payload : string) (total : N)
    (w : W) (offset : N) (attempts : nat) : option (W * result PushOutcome HubError) :=
  if (total <=? offset)%N then Some (w, Ok PushAccepted) else
  match fuel with
  | 0 => None
  | S fuel =>
      let end_ := ((offset + chunk_size) `min` total)%N in
      let chunk := str_take (N.to_nat (end_ - offset)) (str_drop (N.to_nat offset) payload) in
      match request w "PUT" path (chunk_headers headers offset end_ total) chunk with
      | (w, Ok (status, hdrs, _)) =>
          if bool_decide (status ∈ [200; 201; 204]%N) then Some (w, Ok PushPublished)
          else if decide (status = 202%N) then push_loop fuel path headers payload total w end_ 0
          else if decide (status = 409%N) then Some (w, Ok PushConflict)
          else if decide (status = 429%N) then Some (w, map_status status hdrs)
          else Some (w, Err (unexpected_status status))
      | (w, Err e) =>
          let attempts := S attempts in
          if 3 <? attempts then Some (w, Err e) else
          let '(w, r) := request w "HEAD" path [] "" in
          push_loop fuel path headers payload total w (default offset (remote_offset r)) attempts
      end
  end.

(** src/crates/weave-graph-hub/src/client.rs:149-300 [HubClient::push]
    With [push_chunks]; the payload is in memory, so every slice of it exists. *)
Definition client_push (fuel : nat) (w : W) (target_sha : string) (base : option string) (retention : N)
    (signature : option string) (payload : string) : option (W * result PushOutcome HubError) :=
  let path := snapshot_path c target_sha in
  let headers := base_headers c retention base signature in
  let total := N.of_nat (String.length payload) in
  if (total =? 0)%N then
    match request w "PUT" path (headers ++ [("Content-Range", "bytes 0-0/0")]) "" with
    | (w, Err e) => Some (w, Err e)
    | (w, Ok (status, hdrs, _)) => Some (w, map_status status hdrs)
    end
  else
    let '(w, r) := request w "HEAD" path [] "" in
    push_loop fuel path headers payload total w (default 0%N (remote_offset r)) 0.
End client.
