(* ===== verification/HubProofs.v ===== *)
(** * Pushing and serving, end to end

    Every request the server handles is a run of registry operations; the client's
    chunked push over the wire, cut into packets at will, completes as the
    registry's own push. *)

From S2P Require Import Prelude Str Spool Registry RegistryProofs RegistryPull Auth Http HttpProofs Hub.

(** ** The server only runs registry operations *)

Section serving.
Context `{ReadDir} (error_text : IoError → string) (registerable : string → bool).

Lemma put_chunk_steps now r repo sha req start total r' resp :
  put_chunk error_text now r repo sha req start total = Some (r', resp) → rtc step r r'.
Proof.
  unfold put_chunk. pose proof (step_chunk r now repo sha start (req_body req)) as Hs.
  destruct (spool_chunk now r repo sha start (req_body req)) as [r1 [len|e]]; cbn [fst] in Hs.
  - case_match; [|intros; simplify_eq; by apply rtc_once].
    intros ([r2 res] & Hp & ?)%bind_Some. simplify_eq. eapply rtc_l; [exact Hs|]. eapply rtc_once, step_complete, Hp.
  - intros; simplify_eq. eapply rtc_l; [exact Hs|]. apply rtc_once, step_abandon.
Qed.

Lemma handle_put_steps now r repo sha req r' resp :
  handle_put error_text now r repo sha req = Some (r', resp) → rtc step r r'.
Proof.
  unfold handle_put. destruct (upload_range req) as [[start end_] total]. case_match; [intros; by simplify_eq|].
  case_match.
  - pose proof (step_begin r now repo sha (header req "X-Weave-Base-Sha")) as Hs.
    destruct (begin_upload now r repo sha _) as [r1 [[]|e]]; cbn [fst] in Hs; intros Hp; try (simplify_eq; by apply rtc_once).
    apply bind_Some in Hp as ([r2 res] & Hp & ?). simplify_eq. eapply rtc_l; [exact Hs|]. by eapply put_chunk_steps.
  - intros ([r2 res] & Hp & ?)%bind_Some. simplify_eq. by eapply put_chunk_steps.
Qed.

Lemma handle_request_steps now r req r' resp :
  handle_request error_text now registerable r req = Some (r', resp) → rtc step r r'.
Proof.
  unfold handle_request. case_match.
  - unfold handle_set_webhook. pose proof (step_webhook r now registerable s (trim (from_utf8_lossy (req_body req)))) as Hs.
    destruct (set_webhook _ _ _ _ _) as [r1 [[]|e]]; cbn [fst] in Hs; intros; simplify_eq; by apply rtc_once.
  - destruct (parse_snapshot_path _) as [[repo sha]|]; [|intros; by simplify_eq].
    repeat case_match; intros; simplify_eq; try done; by eapply handle_put_steps.
Qed.
End serving.

(** ** The wire *)

(** Header texts without the name. *)
Definition lower_name (name : string) (h : string * string) : Prop := eq_ignore_ascii_case h.1 name = false.

Lemma header_app m p a b n body name : Forall (lower_name name) a →
  header (mkRequest m p (a ++ b) n body) name = header (mkRequest m p b n body) name.
Proof.
  intros Ha. unfold header. cbn [req_headers]. induction Ha as [|h a Hh _ IH]; [done|]. cbn [app list_find].
  unfold lower_name in Hh. rewrite decide_False by congruence. rewrite <-IH. by destruct (list_find _ (a ++ b)) as [[]|].
Qed.

Section wire.
Context `{ReadDir} (error_text : IoError → string) (registerable : string → bool) (auth_token : option string).
Context (clock : nat → N) (packets : string → list string) (c : HubClient).

(** One exchange: the client's bytes reach the server in packets, at the time of
    the clock, and the answer comes back. *)
Definition hub_request (w : nat * Registry) (method path : string) (headers : list (string * string)) (payload : string) :
    (nat * Registry) * result (N * string * string) HubError :=
  match handle_connection error_text (clock w.1) registerable auth_token w.2 (packets (write_request c method path headers payload)) with
  | Some (r, Some resp) => ((S w.1, r), parse_response (write_response resp))
  | Some (r, None) => ((S w.1, r), parse_response "")
  | None => ((S w.1, w.2), Err HubIo)
  end.

Context (Hpk : ∀ s, sock_ok (packets s) ∧ String.concat "" (packets s) = s).
Context (Hauth : ∀ token, auth_token = Some token → client_token c = Some token).

Definition received (method path : string) (headers : list (string * string)) (payload : string) : Request :=
  mkRequest method path (request_headers c method headers payload) (N.of_nat (String.length (sent_body method payload)))
    (sent_body method payload).

Lemma authorised method path headers payload n body : Forall (lower_name "Authorization") headers →
  match auth_token with
  | Some token => negb (bearer_token_matches
      (header (mkRequest method path (request_headers c method headers payload) n body) "Authorization") token)
  | None => false
  end = false.
Proof.
  intros Hh. destruct auth_token as [token|]; [|done]. apply negb_false_iff, bearer_match.
  unfold request_headers. rewrite app_assoc, header_app, (Hauth token eq_refl); [done|].
  apply Forall_app. split; [repeat constructor|done].
Qed.

Lemma hub_request_eq w method path headers payload r resp :
  wire_request c method path headers payload → Forall (lower_name "Authorization") headers →
  (N.of_nat (String.length (sent_body method payload)) ≤ MAX_HUB_CHUNK_BYTES)%N →
  handle_request error_text (clock w.1) registerable w.2 (received method path headers payload) = Some (r, Some resp) →
  wire_response resp →
  hub_request w method path headers payload =
    ((S w.1, r), Ok (status resp, join crlf (response_lines resp), res_body resp)) ∧
  lines (join crlf (response_lines resp)) = response_lines resp.
Proof.
  intros Hw Hh Hlen Hreq Hresp. unfold hub_request, handle_connection.
  destruct (Hpk (write_request c method path headers payload)) as [Hs Hcat].
  destruct (request_received c method path headers payload Hw _ Hs Hcat) as (rest & s & -> & Hbody).
  rewrite authorised by done. cbn [req_content_length].
  destruct (N.ltb_spec MAX_HUB_CHUNK_BYTES (N.of_nat (String.length (sent_body method payload)))) as [|_]; [lia|].
  rewrite Hbody. fold (received method path headers payload). rewrite Hreq.
  destruct (response_received resp Hresp) as [-> Hl]. done.
Qed.
End wire.

(** ** Paths *)

Lemma safe_word s : is_safe_path_component s = true → word s ∧ no_char "/"%char s ∧ String.length s ≤ 128.
Proof.
  unfold is_safe_path_component. rewrite !andb_true_iff. intros [[[[He Hl%Nat.leb_le] _] _] Hall]. split_and!; [split| |done].
  - by destruct s.
  - eapply str_all_impl; [|exact Hall]. intros a Ha. destruct a as [[] [] [] [] [] [] [] []]; vm_compute in Ha |- *; done.
  - eapply str_all_impl; [|exact Hall]. intros a Ha. destruct a as [[] [] [] [] [] [] [] []]; vm_compute in Ha |- *; done.
Qed.

Lemma split_once_leftmost pat s : ∀ a b l r, s = a +:+ pat +:+ b → split_once s pat = Some (l, r) → String.length l ≤ String.length a.
Proof.
  induction s as [|x s IH]; intros a b l r Hs Hl.
  - apply split_once_sound in Hl. by destruct l; [cbn; lia|].
  - cbn [split_once] in Hl. destruct (strip_prefix pat (String x s)) as [t|] eqn:Hp; [simplify_eq; cbn; lia|].
    apply fmap_Some in Hl as ([l' r'] & Hl & ?). simplify_eq.
    destruct a as [|y a]; [by apply (strip_prefix_Some pat (String x s) b) in Hs; congruence|].
    injection Hs as -> Hs. cbn. specialize (IH _ _ _ _ Hs Hl). lia.
Qed.

Lemma split_once_first pat a b :
  str_contains (a +:+ str_take (String.length pat - 1) pat) pat = false → pat ≠ "" → split_once (a +:+ pat +:+ b) pat = Some (a, b).
Proof.
  intros Hno Hne. destruct (split_once_complete (a +:+ pat +:+ b) pat a b eq_refl) as (l & r & Hs).
  pose proof (split_once_sound _ _ _ _ Hs) as Heq. pose proof (split_once_leftmost _ _ _ _ _ _ eq_refl Hs) as Hle.
  assert (a +:+ pat +:+ b = (a +:+ str_take (String.length pat - 1) pat) +:+ (str_drop (String.length pat - 1) pat +:+ b)) as Hsplit.
  { rewrite append_assoc. f_equal. rewrite <-append_assoc. by rewrite str_take_drop. }
  pose proof Hs as Hs'. rewrite Hsplit in Hs'. apply split_once_prefix in Hs'.
  unfold str_contains in Hno. apply bool_decide_eq_false in Hno.
  destruct (split_once (a +:+ str_take _ pat) pat) as [[]|]; [by destruct Hno|].
  rewrite length_append, length_str_take in Hs'.
  assert (String.length pat ≠ 0) by (by destruct pat).
  apply append_inv_len in Heq as [<- Hr]; [|lia]. apply append_inv_head in Hr as <-. done.
Qed.

Lemma parse_snapshot_sent c sha :
  str_contains (url_prefix (client_url c) +:+ "/snapshots") "/snapshots/" = false →
  is_safe_path_component (client_repo c) = true → is_safe_path_component sha = true →
  parse_snapshot_path (snapshot_path c sha) = Some (client_repo c, sha).
Proof.
  intros Hp Hr Hs. unfold parse_snapshot_path, snapshot_path.
  rewrite (split_once_first "/snapshots/") by done. cbn [mbind option_bind].
  change (client_repo c +:+ "/" +:+ sha +:+ ".tar.zst") with (client_repo c +:+ String "/"%char (sha +:+ ".tar.zst")).
  rewrite (split_once_no_char "/"%char (client_repo c)) by (by apply safe_word). cbn [mbind option_bind].
  replace (strip_suffix ".tar.zst" (sha +:+ ".tar.zst")) with (Some sha) by (symmetry; by apply strip_suffix_Some).
  cbn [default from_option id]. by rewrite Hr, Hs.
Qed.

(** A snapshot path is not a webhook path. *)
Lemma not_webhook l : parse_repo_scoped_path (l +:+ ".tar.zst") "webhook" = None.
Proof.
  unfold parse_repo_scoped_path. destruct (split_once (l +:+ ".tar.zst") "/repos/") as [[a rest]|] eqn:H1; [|done].
  cbn [mbind option_bind]. destruct (split_once rest "/") as [[repo tail]|] eqn:H2; [|done]. cbn [mbind option_bind].
  apply split_once_sound in H1, H2. subst rest.
  destruct (bool_decide_reflect (trim_end_by (λ a, bool_decide (a = "/"%char)) tail = "webhook")) as [Ht|]; [|done]. exfalso.
  assert (∃ t, tail = t +:+ String "t"%char "") as [t ->].
  { assert (l +:+ ".tar.zst" = (l +:+ ".tar.zs") +:+ String "t"%char "") as Hl by (by rewrite append_assoc).
    rewrite Hl, <-!append_assoc in H1. symmetry in H1.
    destruct (decide (tail = "")) as [->|Hne]; [|by apply append_last in H1 as [t Ht']; eauto].
    exfalso. rewrite append_nil_r in H1. apply (append_last _ "/") in H1 as [u Hu]; [|done].
    by destruct u as [|? [|]]. }
  rewrite trim_end_append in Ht by done. cbn in Ht.
  change "webhook" with ("webhoo" +:+ String "k"%char "") in Ht. apply append_last in Ht as [u Hu]; [|done]. by destruct u as [|? [|]].
Qed.

(** ** What the client sends is well formed *)

Lemma length_dec_digits fuel n acc : String.length (dec_digits fuel n acc) ≤ fuel + String.length acc.
Proof.
  revert n acc; induction fuel as [|fuel IH]; intros n acc; cbn [dec_digits]; [lia|].
  case_match; [cbn; lia|]. etrans; [apply IH|]. cbn. lia.
Qed.

Lemma length_dec n : (n ≤ u64_MAX)%N → String.length (dec n) ≤ 64.
Proof.
  intros Hn. unfold dec. etrans; [apply length_dec_digits|]. cbn [String.length].
  assert (N.log2 n ≤ 63)%N; [|lia]. etrans; [apply (N.log2_le_mono _ u64_MAX Hn)|]. by vm_compute.
Qed.

Definition opt_length (o : option string) : nat := match o with Some s => String.length s | None => 0 end.

Record sendable (c : HubClient) (sha : string) (base : option string) (ret : N) (sig : option string) : Prop := {
  sd_repo : is_safe_path_component (client_repo c) = true;
  sd_sha : is_safe_path_component sha = true;
  sd_prefix : str_all (in_range 33 126) (url_prefix (client_url c)) = true;
  sd_route : str_contains (url_prefix (client_url c) +:+ "/snapshots") "/snapshots/" = false;
  sd_host : tidy (url_host (client_url c));
  sd_token token : client_token c = Some token → tidy token ∧ token ≠ "";
  sd_base b : base = Some b → tidy b;
  sd_sig s : sig = Some s → tidy s;
  sd_ret : (ret ≤ u64_MAX)%N;
  sd_size : (N.of_nat (String.length (url_host (client_url c)) + String.length (url_prefix (client_url c)) +
    opt_length (client_token c) + opt_length base + opt_length sig) ≤ 7000)%N;
}.

Section sending.
Context (c : HubClient) (sha : string) (base : option string) (ret : N) (sig : option string).
Context (Hs : sendable c sha base ret sig).

Lemma snapshot_path_word : word (snapshot_path c sha).
Proof.
  destruct (safe_word _ (sd_repo _ _ _ _ _ Hs)) as [[_ Hr] _]. destruct (safe_word _ (sd_sha _ _ _ _ _ Hs)) as [[_ Hsha] _].
  unfold snapshot_path. split.
  - by destruct (url_prefix _).
  - rewrite !str_all_append, (sd_prefix _ _ _ _ _ Hs), Hr, Hsha. done.
Qed.

Lemma snapshot_path_length : String.length (snapshot_path c sha) ≤ String.length (url_prefix (client_url c)) + 276.
Proof.
  destruct (safe_word _ (sd_repo _ _ _ _ _ Hs)) as (_ & _ & Hr). destruct (safe_word _ (sd_sha _ _ _ _ _ Hs)) as (_ & _ & Hsha).
  unfold snapshot_path. rewrite !length_append. cbn [String.length]. lia.
Qed.

Definition range_text (a b t : N) : string := "bytes " +:+ dec a +:+ "-" +:+ dec b +:+ "/" +:+ dec t.

Lemma range_text_tidy a b t : tidy (range_text a b t).
Proof.
  unfold range_text. split.
  - by rewrite !printable_append, !(proj1 (tidy_dec _)).
  - unfold trim. change (trim_start_by is_space ("bytes " +:+ ?x)) with ("bytes " +:+ x).
    assert (trim_end_by is_space (dec t) = dec t) as Hd by (apply trim_end_all, word_no_space, word_dec).
    rewrite <-!append_assoc. rewrite trim_end_append; rewrite Hd; [done|apply dec_nonempty].
Qed.

Definition put_headers (a b t : N) : list (string * string) := base_headers c ret base sig ++ [("Content-Range", range_text a b t)].

Lemma put_headers_wire a b t : Forall wire_header (put_headers a b t) ∧
  Forall (lower_name "content-length") (put_headers a b t) ∧ Forall (lower_name "Authorization") (put_headers a b t).
Proof.
  assert (∀ n v, word n → no_char ":"%char n → tidy v → wire_header (n, v)) as Hwh by (intros; by split).
  pose proof (tidy_word _ (proj1 (safe_word _ (sd_repo _ _ _ _ _ Hs)))) as Hrepo.
  pose proof (sd_base _ _ _ _ _ Hs) as Hb. pose proof (sd_sig _ _ _ _ _ Hs) as Hg.
  unfold put_headers, base_headers. rewrite !Forall_app. split_and!;
    try (destruct base; repeat constructor); try (destruct sig; repeat constructor);
    repeat (apply Forall_cons; split); try apply Forall_nil; try done;
    try (apply Hwh; [done|done|]); auto using tidy_dec, range_text_tidy; done.
Qed.

Lemma put_wire a b t chunk :
  (a ≤ u64_MAX)%N → (b ≤ u64_MAX)%N → (t ≤ u64_MAX)%N → (N.of_nat (String.length chunk) ≤ u64_MAX)%N →
  wire_request c "PUT" (snapshot_path c sha) (put_headers a b t) chunk.
Proof.
  intros Ha Hb Ht Hc. destruct (put_headers_wire a b t) as (H1 & H2 & _). split; try done; try apply Hs.
  - apply snapshot_path_word.
  - pose proof snapshot_path_length as Hp. pose proof (sd_size _ _ _ _ _ Hs) as Hsz.
    destruct (safe_word _ (sd_repo _ _ _ _ _ Hs)) as (_ & _ & Hr).
    pose proof (length_dec _ Ha). pose proof (length_dec _ Hb). pose proof (length_dec _ Ht). pose proof (length_dec _ Hc).
    pose proof (length_dec _ (sd_ret _ _ _ _ _ Hs)).
    unfold request_head, request_headers, put_headers, base_headers, range_text, READ_CHUNK, crlf.
    rewrite decide_True by done. destruct base, sig, (client_token c); cbn [app header_lines foldr opt_length decide] in *;
      unfold header_line, crlf; cbn [fst snd]; rewrite !length_append; cbn [String.length]; lia.
Qed.

Lemma head_wire : wire_request c "HEAD" (snapshot_path c sha) [] "".
Proof.
  split; try done; try apply Hs.
  - apply snapshot_path_word.
  - pose proof snapshot_path_length as Hp. pose proof (sd_size _ _ _ _ _ Hs) as Hsz.
    unfold request_head, request_headers, READ_CHUNK, crlf.
    rewrite decide_False by done. destruct (client_token c); cbn [app header_lines foldr opt_length decide] in *;
      unfold header_line, crlf; cbn [fst snd]; rewrite !length_append; cbn [String.length]; lia.
Qed.
End sending.

(** ** One chunk *)

Lemma begin_upload_config `{ReadDir} now r repo sha base : config (begin_upload now r repo sha base).1 = config r.
Proof.
  unfold begin_upload, expire_uploads, take_rate, repo_state. repeat case_match; simplify_eq; done.
Qed.

Lemma decode_hex_printable s : printable s = true → is_Some (decode_hex s).
Proof.
  intros Hp. unfold decode_hex. case_match; [|eauto].
  assert (∀ s, printable s = true → boundary_at s = true) as Hb.
  { intros [|a u] Hu; [done|]. cbn [printable str_all] in Hu. apply andb_true_iff in Hu as [Ha%in_range_true _].
    cbn. apply negb_true_iff. unfold is_continuation. apply andb_false_iff. left. apply N.leb_gt. lia. }
  assert (∀ n s, String.length s ≤ n → printable s = true → is_Some (decode_pairs s)) as Hd; [|by eapply Hd].
  clear s Hp H. induction n as [|n IH]; intros s Hl Hs; [destruct s; [by eexists|cbn in Hl; lia]|].
  destruct s as [|a [|b s]]; [by eexists..|]. cbn [decode_pairs]. rewrite (Hb _ Hs).
  assert (printable s = true) as Hs'.
  { cbn [printable str_all] in Hs. rewrite !andb_true_iff in Hs. apply Hs. }
  rewrite (Hb _ Hs'). cbn [andb]. destruct (hex_pair a b); [|by eexists].
  destruct (IH s) as [x ->]; [cbn in Hl; lia|done|]. by eexists.
Qed.

Lemma push_complete_total `{ReadDir} now r repo sha base ret sig :
  (∀ s, sig = Some s → printable s = true) → is_Some (push_complete now r repo sha base ret sig).
Proof.
  intros Hsig. unfold push_complete. destruct (take_upload_reservation r repo sha) as [r1 reserved].
  assert (is_Some (finish_upload now r1 repo sha base ret sig reserved)) as [[r2 res] ->]; [|cbn; case_decide; eauto].
  unfold finish_upload. case_match; [eauto|].
  assert (is_Some (check_signature r1 repo sha sig)) as [v ->].
  { unfold check_signature. destruct (provenance_verifier r1); [|eauto]. destruct (_ !! _); [|eauto].
    destruct sig as [s|]; [|eauto]. destruct (decode_hex_printable s) as [x ->]; [by apply Hsig|]. cbn. eauto. }
  cbn [mbind option_bind]. destruct v as [[]|]; [|by eexists..]. destruct (repo_state now r1 repo) as [r2 st].
  destruct reserved; [by eexists|]. destruct (take_rate _ _ _) as [w []]; by eexists.
Qed.

(** What the client makes of the server's last answer. *)
Definition client_outcome (res : result PushDecision IoError) : result PushOutcome HubError :=
  match res with
  | Ok Accepted => Ok PushAccepted
  | Ok Conflict => Ok PushConflict
  | Ok (RateLimited secs) => Ok (PushRateLimited (if (secs <=? u64_MAX)%N then Some secs else None))
  | Ok SignatureInvalid => Err (unexpected_status 400)
  | Err _ => Err (unexpected_status 500)
  end.

Section chunk.
Context `{ReadDir} (error_text : IoError → string) (registerable : string → bool).
Context (c : HubClient) (sha : string) (base : option string) (ret : N) (sig : option string).
Context (Hs : sendable c sha base ret sig).

Abbreviation path := (snapshot_path c sha).
Abbreviation repo := (client_repo c).
Abbreviation put_received := (λ a b t, received c "PUT" path (put_headers c base ret sig a b t)).

Lemma put_received_body a b t chunk : req_body (put_received a b t chunk) = chunk.
Proof. done. Qed.

Lemma parse_range_text a b t : (a ≤ u64_MAX)%N → (b ≤ u64_MAX)%N → (t ≤ u64_MAX)%N →
  parse_content_range (range_text a b t) = Some (a, b, t).
Proof.
  intros Ha Hb Ht. unfold parse_content_range, range_text.
  change (strip_prefix "bytes " ("bytes " +:+ ?x)) with (Some x). cbn [mbind option_bind].
  replace (dec a +:+ "-" +:+ dec b +:+ "/" +:+ dec t) with ((dec a +:+ "-" +:+ dec b) +:+ String "/"%char (dec t))
    by (by rewrite !append_assoc).
  rewrite (split_once_no_char "/"%char). 2:{ rewrite !no_char_append. split_and!; [|done|]; apply digits_no_char; auto using dec_all_digits. }
  cbn [mbind option_bind]. change (dec a +:+ "-" +:+ dec b) with (dec a +:+ String "-"%char (dec b)).
  rewrite (split_once_no_char "-"%char) by (by apply digits_no_char; auto using dec_all_digits).
  cbn [mbind option_bind]. by rewrite !parse_uint_dec.
Qed.

Lemma upload_range_received a b t chunk : (a ≤ u64_MAX)%N → (b ≤ u64_MAX)%N → (t ≤ u64_MAX)%N →
  upload_range (put_received a b t chunk) = (a, b, t).
Proof.
  intros Ha Hb Ht. unfold upload_range.
  assert (header (put_received a b t chunk) "Content-Range" = Some (range_text a b t)) as ->.
  { unfold received, request_headers, put_headers, base_headers. destruct base, sig; reflexivity. }
  cbn [mbind option_bind]. by rewrite parse_range_text.
Qed.

Lemma push_headers_received a b t chunk :
  header (put_received a b t chunk) "X-Weave-Base-Sha" = base ∧ header (put_received a b t chunk) "X-Weave-Signature" = sig ∧
  retention_of (put_received a b t chunk) = ret.
Proof.
  split_and!.
  - unfold received, request_headers, put_headers, base_headers. destruct base, sig, (client_token c); reflexivity.
  - unfold received, request_headers, put_headers, base_headers. destruct base, sig, (client_token c); reflexivity.
  - unfold retention_of. assert (header (put_received a b t chunk) "X-Weave-Retention" = Some (dec ret)) as ->.
    { unfold received, request_headers, put_headers, base_headers. destruct base, sig; reflexivity. }
    cbn [mbind option_bind]. by rewrite parse_uint_dec by apply Hs.
Qed.

Definition chunk_spooled (now : N) (r : Registry) (data : string) : Registry :=
  with_spool r repo (<[upload_path sha := mkFile data now]> (spool_of r repo)).

(** The registry the chunk is spooled in. *)
Definition chunk_base (now : N) (r r1 : Registry) (p : string) : Prop :=
  (p = "" ∧ begin_upload now r repo sha base = (r1, Ok Accepted)) ∨
  (p ≠ "" ∧ r1 = r ∧ content <$> spool_of r repo !! upload_path sha = Some p).

(** A PUT with the range the client writes passes the checks. *)
Lemma put_validated now r o chunk t :
  chunk ≠ "" → (o + N.of_nat (String.length chunk) ≤ t)%N → (t ≤ max_snapshot_bytes (config r))%N →
  (max_snapshot_bytes (config r) < u64_modulus)%N →
  let req := put_received o (o + N.of_nat (String.length chunk) - 1)%N t chunk in
  handle_request error_text now registerable r req =
  if (o =? 0)%N then
    match begin_upload now r repo sha base with
    | (r, Ok Accepted) => '(r, resp) ← put_chunk error_text now r repo sha req o t; Some (r, Some resp)
    | (r, Ok Conflict) => Some (r, Some conflict_response)
    | (r, Ok (RateLimited secs)) => Some (r, Some (rate_limited_response secs))
    | (r, Ok SignatureInvalid) => Some (r, Some (plain 403 "Forbidden" "snapshot signature is invalid"))
    | (r, Err _) => Some (r, None)
    end
  else '(r, resp) ← put_chunk error_text now r repo sha req o t; Some (r, Some resp).
Proof.
  intros Hne Hle Hmax Hu. set (n := N.of_nat (String.length chunk)). intros req.
  assert (0 < n)%N as Hn by (unfold n; destruct chunk; [done|cbn; lia]).
  assert (u64_MAX = u64_modulus - 1)%N as Hmx by done.
  unfold handle_request. cbn [req_method req_path received req]. rewrite decide_True by done.
  assert (parse_repo_scoped_path path "webhook" = None) as ->.
  { unfold snapshot_path. rewrite <-!append_assoc. apply not_webhook. }
  rewrite (parse_snapshot_sent c sha) by apply Hs. rewrite !decide_False by done.
  unfold handle_put. fold (put_received o (o + n - 1)%N t chunk). fold req. unfold req at 1.
  rewrite upload_range_received by lia. change (req_body req) with chunk. fold n.
  assert (valid_range o (o + n - 1) t n = true) as ->.
  { unfold valid_range. destruct (N.eqb_spec t 0) as [->|_]; [lia|].
    rewrite !andb_true_iff, !N.leb_le, N.ltb_lt, N.eqb_eq. split_and!; [lia| |lia|lia].
    replace (o + n - 1 - o + 1)%N with n by lia. apply N.mod_small. lia. }
  destruct (N.ltb_spec (max_snapshot_bytes (config r)) t) as [|_]; [lia|]. cbn [negb orb].
  destruct (push_headers_received o (o + n - 1)%N t chunk) as (Hhb & _). fold req in Hhb. by rewrite Hhb.
Qed.

Lemma put_chunk_received now r1 p chunk t b :
  (p = "" ∨ content <$> spool_of r1 repo !! upload_path sha = Some p) →
  (N.of_nat (String.length (p +:+ chunk)) ≤ max_snapshot_bytes (config r1))%N → (max_snapshot_bytes (config r1) < u64_modulus)%N →
  let o := N.of_nat (String.length p) in
  let r2 := chunk_spooled now r1 (p +:+ chunk) in
  put_chunk error_text now r1 repo sha (put_received o b t chunk) o t =
  if (t <=? N.of_nat (String.length (p +:+ chunk)))%N then
    '(r', res) ← push_complete now r2 repo sha base ret sig; Some (r', complete_response error_text res)
  else Some (r2, plain 202 "Accepted" "chunk spooled").
Proof.
  intros Hp Hmax Hu o r2. unfold put_chunk. destruct (push_headers_received o b t chunk) as (Hhb & Hhs & Hhr).
  rewrite put_received_body, Hhb, Hhs, Hhr. unfold o.
  rewrite (spool_chunk_next now r1 repo sha p chunk) by (done || apply Hs).
  by rewrite length_append, Nat2N.inj_add.
Qed.

Lemma put_request now r r1 p chunk t :
  chunk_base now r r1 p → chunk ≠ "" →
  (N.of_nat (String.length (p +:+ chunk)) ≤ t)%N → (t ≤ max_snapshot_bytes (config r))%N →
  (max_snapshot_bytes (config r) < u64_modulus)%N →
  let o := N.of_nat (String.length p) in
  handle_request error_text now registerable r (put_received o (o + N.of_nat (String.length chunk) - 1)%N t chunk) =
  let r2 := chunk_spooled now r1 (p +:+ chunk) in
  if (t <=? N.of_nat (String.length (p +:+ chunk)))%N then
    '(r', res) ← push_complete now r2 repo sha base ret sig; Some (r', Some (complete_response error_text res))
  else Some (r2, Some (plain 202 "Accepted" "chunk spooled")).
Proof.
  intros Hbase Hne Hle Hmax Hu o.
  assert (config r1 = config r) as Hcfg.
  { destruct Hbase as [[_ Hb]|(_ & -> & _)]; [|done]. pose proof (begin_upload_config now r repo sha base) as Hc. by rewrite Hb in Hc. }
  pose proof Hle as Hle'. rewrite length_append, Nat2N.inj_add in Hle'. fold o in Hle'.
  pose proof (put_validated now r o chunk t Hne Hle' Hmax Hu) as Hv. cbv zeta beta in Hv |- *. rewrite Hv.
  pose proof (put_chunk_received now r1 p chunk t (o + N.of_nat (String.length chunk) - 1)%N) as Hput.
  rewrite Hcfg in Hput. specialize (λ H, Hput H ltac:(lia) Hu). cbv zeta in Hput. fold o in Hput.
  destruct Hbase as [[-> Hb]|(Hp & -> & Hc)].
  - change (o =? 0)%N with true. cbv iota. rewrite Hb, Hput by auto. destruct (_ <=? _)%N; [|done].
    by destruct (push_complete _ _ _ _ _ _ _) as [[]|].
  - destruct (N.eqb_spec o 0) as [Ho|_]; [unfold o in Ho; destruct p; cbn in Ho; [done|lia]|]. rewrite Hput by auto. destruct (_ <=? _)%N; [|done].
    by destruct (push_complete _ _ _ _ _ _ _) as [[]|].
Qed.
End chunk.

(** ** The whole upload *)

Lemma complete_response_wire `{ReadDir} error_text res : wire_response (complete_response error_text res).
Proof.
  destruct res as [[]|]; (split; [by vm_compute|done|]); try constructor; [|constructor].
  split; [done..|]. apply tidy_dec.
Qed.

Lemma retry_after_sent secs :
  response_header "retry-after:" (join crlf (response_lines (rate_limited_response secs))) = Some (dec secs).
Proof.
  unfold response_header. rewrite lines_join_crlf; [|done|].
  2:{ apply response_lines_wire. split; [by vm_compute|done|]. apply Forall_singleton. split; [done..|]. apply tidy_dec. }
  assert (list_find (λ l, starts_with (to_ascii_lowercase l) "retry-after:" = true) (response_lines (rate_limited_response secs)) =
    Some (2, "Retry-After: " +:+ dec secs)) as -> by reflexivity.
  cbn [fmap option_fmap option_map mbind option_bind snd].
  change ("Retry-After: " +:+ dec secs) with ("Retry-After" +:+ String ":"%char (" " +:+ dec secs)).
  rewrite split_char_cons, split_char_one by (done || by apply no_char_append; split; [|apply digits_no_char; auto using dec_all_digits]).
  change (Some (trim (dec secs)) = Some (dec secs)). f_equal. apply tidy_dec.
Qed.

Lemma str_take_add a b s : str_take (a + b) s = str_take a s +:+ str_take b (str_drop a s).
Proof. revert s; induction a as [|a IH]; intros [|x s]; [done..| |]; cbn; [by destruct b|]. by rewrite IH. Qed.

Lemma str_app_take p rest n : String.length p = n → str_take n (p +:+ rest) = p ∧ str_drop n (p +:+ rest) = rest.
Proof. intros <-. induction p as [|a p IH]; [by destruct rest|]. cbn. destruct IH as [IH1 IH2]. by rewrite IH1, IH2. Qed.

Lemma not_published s : (s =? 200)%N || (s =? 201)%N || (s =? 204)%N = false → bool_decide (s ∈ [200; 201; 204]%N) = false.
Proof.
  rewrite !orb_false_iff, !N.eqb_neq. intros [[? ?] ?]. apply bool_decide_eq_false. rewrite !elem_of_cons, elem_of_nil. tauto.
Qed.

Section upload.
Context `{ReadDir} (error_text : IoError → string) (registerable : string → bool) (auth_token : option string).
Context (clock : nat → N) (packets : string → list string).
Context (c : HubClient) (sha : string) (base : option string) (ret : N) (sig : option string) (payload : string).
Context (Hpk : ∀ s, sock_ok (packets s) ∧ String.concat "" (packets s) = s).
Context (Hauth : ∀ token, auth_token = Some token → client_token c = Some token).
Context (Hs : sendable c sha base ret sig).

Abbreviation net := (hub_request error_text registerable auth_token clock packets c).
Abbreviation path := (snapshot_path c sha).
Abbreviation repo := (client_repo c).
Abbreviation total := (N.of_nat (String.length payload)).
Abbreviation headers := (base_headers c ret base sig).

(** What the client sees of a PUT the server answered. *)
Lemma put_exchange k r o e chunk r' resp :
  (o ≤ u64_MAX)%N → (e ≤ u64_MAX)%N → (total ≤ u64_MAX)%N → (N.of_nat (String.length chunk) ≤ chunk_size)%N →
  handle_request error_text (clock k) registerable r (received c "PUT" path (put_headers c base ret sig o (e - 1) total) chunk) =
    Some (r', Some resp) → wire_response resp →
  net (k, r) "PUT" path (chunk_headers headers o e total) chunk =
    ((S k, r'), Ok (status resp, join crlf (response_lines resp), res_body resp)).
Proof.
  intros Ho He Ht Hc Hreq Hresp.
  change (chunk_headers headers o e total) with (put_headers c base ret sig o (e - 1) total).
  destruct (hub_request_eq error_text registerable auth_token clock packets c Hpk Hauth (k, r) "PUT" path
    (put_headers c base ret sig o (e - 1) total) chunk r' resp) as [-> _]; [|by apply (put_headers_wire c sha)| |done..].
  - apply (put_wire c sha base ret sig Hs); [done|lia|done|unfold chunk_size, u64_MAX in *; lia].
  - exact Hc.
Qed.

(** A round, from the bytes [p] already there. *)
Lemma push_round fuel k r r1 p rest :
  payload = p +:+ rest → rest ≠ "" → chunk_base c sha base (clock k) r r1 p →
  (total ≤ max_snapshot_bytes (config r))%N → (max_snapshot_bytes (config r) < u64_modulus)%N →
  let n := Nat.min (N.to_nat chunk_size) (String.length rest) in
  let r2 := chunk_spooled c sha (clock k) r1 (p +:+ str_take n rest) in
  (n = String.length rest ∧ ∃ r' res, push_complete (clock k) r2 repo sha base ret sig = Some (r', res) ∧
     push_loop net (S fuel) path headers payload total (k, r) (N.of_nat (String.length p)) 0 = Some ((S k, r'), client_outcome res)) ∨
  (n < String.length rest ∧
     push_loop net (S fuel) path headers payload total (k, r) (N.of_nat (String.length p)) 0 =
     push_loop net fuel path headers payload total (S k, r2) (N.of_nat (String.length (p +:+ str_take n rest))) 0).
Proof.
  intros Hpay Hrest Hbase Hmax Hu n r2. set (o := N.of_nat (String.length p)). set (chunk := str_take n rest).
  assert (String.length payload = String.length p + String.length rest) as Hlen by (by rewrite Hpay, length_append).
  assert (String.length rest ≠ 0) as Hrl by (by destruct rest).
  assert (0 < N.to_nat chunk_size) as Hcs by (unfold chunk_size; lia).
  assert (String.length chunk = n) as Hcl by (unfold chunk; rewrite length_str_take; lia).
  assert (chunk ≠ "") as Hne by (intros Hc; rewrite Hc in Hcl; cbn in Hcl; lia).
  set (e := ((o + chunk_size) `min` total)%N).
  assert (e = o + N.of_nat n)%N as He by (unfold e, n, o; lia).
  assert (str_take (N.to_nat (e - o)) (str_drop (N.to_nat o) payload) = chunk) as Hslice.
  { rewrite Hpay. unfold o. rewrite Nat2N.id. destruct (str_app_take p rest (String.length p) eq_refl) as [_ ->].
    unfold chunk. f_equal. unfold o in He. lia. }
  pose proof (put_request error_text registerable c sha base ret sig Hs (clock k) r r1 p chunk total Hbase Hne) as Hreq.
  rewrite length_append, Hcl in Hreq. specialize (Hreq ltac:(lia) Hmax Hu). cbv zeta in Hreq. fold o in Hreq.
  replace (o + N.of_nat n - 1)%N with (e - 1)%N in Hreq by lia.
  change (chunk_spooled c sha (clock k) r1 (p +:+ chunk)) with r2 in Hreq.
  assert (u64_MAX = u64_modulus - 1)%N as Hmx by done.
  cbn [push_loop]. destruct (N.leb_spec total o) as [|_]; [unfold o in *; lia|]. fold e. rewrite Hslice.
  destruct (N.leb_spec total (N.of_nat (String.length p + n))) as [Hlast|Hmore].
  - left. split; [lia|]. destruct (push_complete_total (clock k) r2 repo sha base ret sig) as [[r' res] Hp].
    { intros s ->. by apply (sd_sig _ _ _ _ _ Hs). }
    rewrite Hp in Hreq. cbn [mbind option_bind] in Hreq. exists r', res. split; [done|].
    rewrite (put_exchange k r o e chunk r' _ ltac:(lia) ltac:(lia) ltac:(lia) ltac:(unfold n in Hcl; lia) Hreq (complete_response_wire error_text res)).
    destruct res as [[]|]; cbn [complete_response status plain conflict_response rate_limited_response failed_response];
      rewrite not_published by done; [|reflexivity| |reflexivity..].
    + rewrite decide_True by done. destruct fuel; cbn [push_loop]; (destruct (N.leb_spec total e); [done|lia]).
    + rewrite !decide_False, decide_True by done.
      unfold map_status. rewrite not_published by done. rewrite !decide_False, decide_True by done.
      change (mkResponse 429 "Too Many Requests" [("Retry-After", dec retry_after_secs)] "rate limited") with (rate_limited_response retry_after_secs).
      rewrite retry_after_sent. cbn [mbind option_bind client_outcome]. by rewrite parse_uint_dec_opt.
  - right. split; [lia|].
    rewrite (put_exchange k r o e chunk r2 _ ltac:(lia) ltac:(lia) ltac:(lia) ltac:(unfold n in Hcl; lia) Hreq); [|split; [by vm_compute|done|constructor]].
    cbn [status plain]. rewrite not_published by done. rewrite decide_True by done.
    f_equal. rewrite He, length_append, Hcl. unfold o. lia.
Qed.

Lemma str_take_nonempty n s : 0 < n → s ≠ "" → str_take n s ≠ "".
Proof. by destruct n, s; [lia|lia| |]. Qed.

Lemma push_rounds fuel : ∀ k r p rest,
  payload = p +:+ rest → p ≠ "" → rest ≠ "" → content <$> spool_of r repo !! upload_path sha = Some p →
  (total ≤ max_snapshot_bytes (config r))%N → (max_snapshot_bytes (config r) < u64_modulus)%N → String.length rest ≤ fuel →
  ∃ k' r2 r' res,
    push_loop net fuel path headers payload total (k, r) (N.of_nat (String.length p)) 0 = Some ((S k', r'), client_outcome res) ∧
    content <$> spool_of r2 repo !! upload_path sha = Some payload ∧ repos r2 = repos r ∧
    push_complete (clock k') r2 repo sha base ret sig = Some (r', res).
Proof.
  induction fuel as [|fuel IH]; intros k r p rest Hpay Hp Hrest Hc Hmax Hu Hfuel; [by destruct rest; cbn in Hfuel; [|lia]|].
  assert (∀ data, content <$> spool_of (chunk_spooled c sha (clock k) r data) repo !! upload_path sha = Some data) as Hspool.
  { intros data. unfold chunk_spooled. rewrite spool_of_with_spool, decide_True by done. by rewrite lookup_insert_eq. }
  destruct (push_round fuel k r r p rest Hpay Hrest) as [(Hn & r' & res & Hpc & Hl)|[Hn Hl]]; [by right|done|done|..].
  - exists k, (chunk_spooled c sha (clock k) r (p +:+ str_take (Nat.min (N.to_nat chunk_size) (String.length rest)) rest)), r', res.
    split_and!; [exact Hl| |done|exact Hpc]. rewrite Hspool, str_take_all by lia. by rewrite <-Hpay.
  - rewrite Hl. set (n := Nat.min _ _) in *.
    assert (0 < n) as Hn0 by (unfold n, chunk_size; destruct rest; [done|cbn [String.length]; lia]).
    destruct (IH (S k) (chunk_spooled c sha (clock k) r (p +:+ str_take n rest)) (p +:+ str_take n rest) (str_drop n rest))
      as (k' & r2 & r' & res & Hl' & H1 & H2 & H3).
    + by rewrite append_assoc, str_take_drop.
    + by destruct p.
    + intros He. pose proof (length_str_drop n rest) as Hd. rewrite He in Hd. cbn in Hd. lia.
    + apply Hspool.
    + done.
    + done.
    + rewrite length_str_drop. lia.
    + exists k', r2, r', res. done.
Qed.

Lemma head_exchange k r : get_spool_offset r repo sha = 0%N →
  ∃ res, net (k, r) "HEAD" path [] "" = ((S k, r), res) ∧ remote_offset res = None.
Proof.
  intros Hoff. destruct (hub_request_eq error_text registerable auth_token clock packets c Hpk Hauth (k, r) "HEAD" path [] "" r
    (plain 404 "Not Found" "")) as [-> _]; [by eapply head_wire|done|by vm_compute| |split; [by vm_compute|done|constructor]|eauto].
  unfold handle_request. cbn [req_method req_path received snd]. rewrite decide_False by done.
  rewrite (parse_snapshot_sent c sha) by apply Hs. rewrite decide_True by done. by rewrite Hoff.
Qed.

(** The first PUT, when the registry refuses the upload. *)
Lemma push_refused fuel k r r1 d : payload ≠ "" →
  (total ≤ max_snapshot_bytes (config r))%N → (max_snapshot_bytes (config r) < u64_modulus)%N →
  begin_upload (clock k) r repo sha base = (r1, Ok d) → d = Conflict ∨ (∃ secs, d = RateLimited secs) →
  push_loop net (S fuel) path headers payload total (k, r) 0 0 = Some ((S k, r1), client_outcome (Ok d)).
Proof.
  intros Hne Hmax Hu Hb Hd. set (e := ((0 + chunk_size) `min` total)%N).
  assert (e ≤ total ∧ e ≤ chunk_size)%N as [He1 He2] by (unfold e; lia).
  assert (total ≠ 0)%N as Ht by (destruct payload; [done|cbn; lia]).
  set (chunk := str_take (N.to_nat (e - 0)) (str_drop (N.to_nat 0) payload)).
  assert (N.of_nat (String.length chunk) = e)%N as Hcl.
  { unfold chunk. change (str_drop (N.to_nat 0) payload) with payload. rewrite length_str_take. lia. }
  assert (chunk ≠ "") as Hc by (intros Hc; rewrite Hc in Hcl; cbn in Hcl; unfold e, chunk_size in Hcl; lia).
  pose proof (put_validated error_text registerable c sha base ret sig Hs (clock k) r 0 chunk total Hc ltac:(lia) Hmax Hu) as Hv.
  cbv zeta beta in Hv. rewrite Hcl, Hb in Hv. change (0 =? 0)%N with true in Hv. cbv iota in Hv.
  assert (u64_MAX = u64_modulus - 1)%N as Hmx by done.
  cbn [push_loop]. destruct (N.leb_spec total 0) as [|_]; [lia|]. fold e. fold chunk.
  replace (0 + e - 1)%N with (e - 1)%N in Hv by lia. destruct Hd as [->|[secs ->]].
  - rewrite (put_exchange k r 0 e chunk r1 _ ltac:(lia) ltac:(lia) ltac:(lia) ltac:(lia) Hv (complete_response_wire error_text (Ok Conflict))).
    cbn [status plain conflict_response]. by rewrite not_published.
  - rewrite (put_exchange k r 0 e chunk r1 _ ltac:(lia) ltac:(lia) ltac:(lia) ltac:(lia) Hv (complete_response_wire error_text (Ok (RateLimited secs)))).
    cbn [status rate_limited_response]. rewrite not_published, !decide_False, decide_True by done.
    unfold map_status. rewrite not_published, !decide_False, decide_True by done.
    change (mkResponse 429 "Too Many Requests" [("Retry-After", dec secs)] "rate limited") with (rate_limited_response secs).
    rewrite retry_after_sent. cbn [mbind option_bind client_outcome]. by rewrite parse_uint_dec_opt.
Qed.
End upload.

(** C11: a push over HTTP is the registry's push.  For a client whose texts can be
    sent and whose token is the server's, against a registry without a partial
    upload of the same commit, and however the network cuts the bytes into
    packets: the client's loop ends, in at most one round per byte.  If the
    registry refuses the upload the client reports the refusal; otherwise the
    chunks are reassembled to exactly the payload, the completion is run on them
    once, and the client reports its decision. *)
Theorem hub_push_delivers `{ReadDir} error_text registerable auth_token clock packets c sha base ret sig payload k r
    (Hpk : ∀ s, sock_ok (packets s) ∧ String.concat "" (packets s) = s)
    (Hauth : ∀ token, auth_token = Some token → client_token c = Some token)
    (Hs : sendable c sha base ret sig) (Hne : payload ≠ "")
    (Hmax : (N.of_nat (String.length payload) ≤ max_snapshot_bytes (config r))%N)
    (Hu : (max_snapshot_bytes (config r) < u64_modulus)%N)
    (Hoff : get_spool_offset r (client_repo c) sha = 0%N) :
  let push := client_push (hub_request error_text registerable auth_token clock packets c) c (String.length payload)
                (k, r) sha base ret sig payload in
  match begin_upload (clock (S k)) r (client_repo c) sha base with
  | (r1, Ok Accepted) =>
      ∃ k' r2 r' res, push = Some ((S k', r'), client_outcome res) ∧
        content <$> spool_of r2 (client_repo c) !! upload_path sha = Some payload ∧ repos r2 = repos r1 ∧
        push_complete (clock k') r2 (client_repo c) sha base ret sig = Some (r', res)
  | (r1, Ok Conflict) => push = Some ((S (S k), r1), Ok PushConflict)
  | (r1, Ok (RateLimited secs)) => push = Some ((S (S k), r1), client_outcome (Ok (RateLimited secs)))
  | _ => True
  end.
Proof.
  intros push. unfold push, client_push.
  destruct (head_exchange error_text registerable auth_token clock packets c sha base ret sig Hpk Hauth Hs k r Hoff) as (hr & -> & Hro).
  rewrite Hro. cbn [default from_option]. assert (N.of_nat (String.length payload) ≠ 0)%N as Ht by (destruct payload; [done|cbn; lia]).
  destruct (N.eqb_spec (N.of_nat (String.length payload)) 0) as [|_]; [done|].
  assert (∃ fuel, String.length payload = S fuel) as [fuel Hf] by (destruct payload; [done|by eexists]).
  set (tot := N.of_nat (String.length payload)). rewrite Hf.
  destruct (begin_upload (clock (S k)) r (client_repo c) sha base) as [r1 [[]|]] eqn:Hb; [| | |done..].
  - destruct (push_round error_text registerable auth_token clock packets c sha base ret sig payload Hpk Hauth Hs fuel (S k) r r1 "" payload)
      as [(Hn & r' & res & Hpc & Hl)|[Hn Hl]]; [done|done|by left|done|done|..].
    + exists (S k). do 3 eexists. split_and!; [exact Hl| | |exact Hpc].
      * unfold chunk_spooled. rewrite spool_of_with_spool, decide_True by done. rewrite lookup_insert_eq. cbn.
        by rewrite str_take_all by lia.
      * done.
    + set (n := Nat.min _ _) in *.
      assert (0 < n) as Hn0 by (unfold n, chunk_size; lia).
      pose proof (begin_upload_config (clock (S k)) r (client_repo c) sha base) as Hcfg. rewrite Hb in Hcfg. cbn in Hcfg.
      destruct (push_rounds error_text registerable auth_token clock packets c sha base ret sig payload Hpk Hauth Hs fuel (S (S k))
        (chunk_spooled c sha (clock (S k)) r1 ("" +:+ str_take n payload)) ("" +:+ str_take n payload) (str_drop n payload))
        as (k' & r2 & r' & res & Hl' & H1 & H2 & H3).
      * cbn [String.append]. by rewrite str_take_drop.
      * by apply str_take_nonempty.
      * intros He. pose proof (length_str_drop n payload) as Hd. rewrite He in Hd. cbn in Hd. lia.
      * unfold chunk_spooled. rewrite spool_of_with_spool, decide_True by done. by rewrite lookup_insert_eq.
      * cbn. by rewrite Hcfg.
      * cbn. by rewrite Hcfg.
      * rewrite length_str_drop. lia.
      * exists k', r2, r', res. split_and!; [etrans; [exact Hl|exact Hl']|done..].
  - by rewrite (push_refused error_text registerable auth_token clock packets c sha base ret sig payload Hpk Hauth Hs fuel (S k) r r1 Conflict); auto.
  - rewrite (push_refused error_text registerable auth_token clock packets c sha base ret sig payload Hpk Hauth Hs fuel (S k) r r1
      (RateLimited retry_after_secs)); eauto.
Qed.

(** Packets of one byte. *)
Definition bytewise (s : string) : list string := (λ a, String a "") <$> String.list_ascii_of_string s.

Lemma bytewise_ok s : sock_ok (bytewise s) ∧ String.concat "" (bytewise s) = s.
Proof.
  unfold bytewise. induction s as [|a s [IH1 IH2]]; [by split; [constructor|]|]. cbn [String.list_ascii_of_string fmap list_fmap]. split.
  - by constructor.
  - by rewrite concat_cons, IH2.
Qed.

Definition ex_client : HubClient := mkClient (mkUrl "hub" 80 "/weave") "repo" (Some "tok").
Definition ex_registry : Registry := mkRegistry (mkRegConfig 4 10 1000) None ∅ ∅ ∅.

Lemma ex_sendable : sendable ex_client "c0ffee" None 20 (Some "00ff").
Proof.
  split; [reflexivity|reflexivity|reflexivity|reflexivity|..].
  - split; reflexivity.
  - intros t [= <-]. split; [split; reflexivity|discriminate].
  - discriminate.
  - intros s [= <-]. split; reflexivity.
  - vm_compute. discriminate.
  - vm_compute. discriminate.
Qed.

Lemma ex_push_outcome :
  snd <$> client_push (hub_request (λ _, "") (λ _, true) (Some "tok") N.of_nat bytewise ex_client) ex_client 7 (0, ex_registry)
    "c0ffee" None 20 (Some "00ff") "payload" = Some (Ok PushAccepted).
Proof. vm_compute. reflexivity. Qed.

Lemma hub_push_delivers_witness :
  ∃ k' r' res,
    client_push (hub_request (λ _, "") (λ _, true) (Some "tok") N.of_nat bytewise ex_client) ex_client 7 (0, ex_registry)
      "c0ffee" None 20 (Some "00ff") "payload" = Some ((S k', r'), client_outcome res) ∧ res = Ok Accepted.
Proof.
  pose proof (hub_push_delivers (λ _, "") (λ _, true) (Some "tok") N.of_nat bytewise ex_client "c0ffee" None 20 (Some "00ff") "payload" 0 ex_registry
    bytewise_ok) as Hp.
  specialize (Hp ltac:(by intros token [= <-]) ex_sendable ltac:(discriminate) ltac:(vm_compute; discriminate) ltac:(vm_compute; reflexivity) eq_refl).
  destruct (begin_upload (N.of_nat 1) ex_registry "repo" "c0ffee" None) as [r1 d] eqn:Hb.
  change (client_repo ex_client) with "repo" in Hp. cbv zeta in Hp. rewrite Hb in Hp.
  assert (d = Ok Accepted) as -> by (vm_compute in Hb; congruence).
  destruct Hp as (k' & r2 & r' & res & Hpush & Hc & Hr & Hpc). exists k', r', res. split; [exact Hpush|].
  pose proof ex_push_outcome as He. change (String.length "payload") with 7 in Hpush. rewrite Hpush in He.
  clear - He. destruct res as [[]|]; [reflexivity|discriminate..].
Defined.

(** A stale partial upload makes the client report a push that never happened.
    The registry holds twelve bytes of an interrupted upload of the same commit;
    the client, with a payload of seven, asks for the offset, finds nothing left
    to send, and answers Accepted: nothing was sent or queued. *)
Theorem stale_upload_reported_accepted :
  let r := (spool_chunk 0 ex_registry "repo" "c0ffee" 0 "twelve bytes").1 in
  client_push (hub_request (λ _, "") (λ _, true) (Some "tok") N.of_nat bytewise ex_client) ex_client 7 (0, r)
    "c0ffee" None 20 None "payload" = Some ((1, r), Ok PushAccepted) ∧
  leftover_jobs (spool_of r "repo") = [].
Proof. split; vm_compute; reflexivity. Qed.

(** The wrapped length of a full 64-bit range passes the range check with an
    empty body. *)
Theorem wrapped_range_accepted : valid_range 0 u64_MAX 1 0 = true.
Proof. reflexivity. Qed.
