(* ===== verification/Modules.v ===== *)
(** * Communities and modules of the file graph (cluster.rs, modules.rs)

    Files are folded into modules by one level of Louvain clustering over the
    number of references between them.  [f64] is IEEE binary64 in its
    specification form; the order in which a hash map is iterated is a
    parameter. *)

From Stdlib Require Import Floats.SpecFloat.
From S2P Require Import Prelude Str Bitmap Model Csr Paths CsrGraph.

(** ** Floating point and hash maps *)

Definition f64 : Type := spec_float.
Definition f64_add : f64 → f64 → f64 := SFadd 53 1024.
Definition f64_sub : f64 → f64 → f64 := SFsub 53 1024.
Definition f64_mul : f64 → f64 → f64 := SFmul 53 1024.
Definition f64_div : f64 → f64 → f64 := SFdiv 53 1024.
Definition f64_lt : f64 → f64 → bool := SFltb.
Definition f64_le : f64 → f64 → bool := SFleb.
Definition f64_zero : f64 := S754_zero false.
Definition f64_one : f64 := S754_finite false 4503599627370496 (-52).
Definition f64_two : f64 := S754_finite false 4503599627370496 (-51).
Definition f64_sum (l : list f64) : f64 := foldl f64_add f64_zero l.

(** [x as usize]: towards zero, NaN and negative numbers to zero. *)
Definition f64_as_usize (x : f64) : N :=
  match x with
  | S754_finite false m e => (Z.to_N (Z.shiftl (Z.pos m) e) `min` (u64_modulus - 1))%N
  | S754_infinity false => (u64_modulus - 1)%N
  | _ => 0%N
  end.

(** The order in which a [HashMap] of given contents is iterated. *)
Class HashOrder := hm_iter : ∀ {K A : Type} `{Countable K}, gmap K A → list (K * A).
Class HashOrderLaws `{HashOrder} : Prop :=
  hm_iter_perm : ∀ {K A : Type} `{Countable K} (m : gmap K A), hm_iter m ≡ₚ map_to_list m.

#[global] Instance hash_order_default : HashOrder := λ K A _ _ m, map_to_list m.
#[global] Instance hash_order_default_laws : HashOrderLaws.
Proof. by intros K A ? ? m. Qed.

Lemma hm_iter_elem `{HashOrderLaws} {K A} `{Countable K} (m : gmap K A) k v : (k, v) ∈ hm_iter m ↔ m !! k = Some v.
Proof. by rewrite (hm_iter_perm m), elem_of_map_to_list. Qed.

Lemma hm_iter_keys `{HashOrderLaws} {K A} `{Countable K} (m : gmap K A) k : k ∈ (hm_iter m).*1 ↔ k ∈ dom m.
Proof.
  rewrite list_elem_of_fmap, elem_of_dom. split.
  - intros ([k' v] & -> & Hv%hm_iter_elem). by exists v.
  - intros [v Hv]. exists (k, v). split; [done|]. by apply hm_iter_elem.
Qed.

(** [*map.entry(k).or_insert(0.0) += w]. *)
Definition add_weight {K} `{Countable K} (m : gmap K f64) (k : K) (w : f64) : gmap K f64 :=
  <[k := f64_add (default f64_zero (m !! k)) w]> m.

(** [map.entry(k).or_default().push(x)]. *)
Definition push_to {K A} `{Countable K} (m : gmap K (list A)) (k : K) (x : A) : gmap K (list A) :=
  <[k := default [] (m !! k) ++ [x]]> m.

Section cluster.
Context `{HashOrder}.

(** ** Communities (cluster.rs) *)

(** src/crates/weave-graph-core/src/cluster.rs:67-74 [undirected_adjacency] *)
Definition merge_edge (merged : gmap (NodeId * NodeId) f64) (e : NodeId * NodeId * f64) : gmap (NodeId * NodeId) f64 :=
  let '(a, b, w) := e in
  if bool_decide (a = b) || f64_le w f64_zero then merged
  else add_weight merged (if (a <=? b)%N then (a, b) else (b, a)) w.

(** src/crates/weave-graph-core/src/cluster.rs:66-82 [undirected_adjacency] *)
Definition undirected_adjacency (edges : list (NodeId * NodeId * f64)) : gmap NodeId (list (NodeId * f64)) :=
  foldl (λ adj '((a, b), w), push_to (push_to adj a (b, w)) b (a, w)) ∅ (hm_iter (foldl merge_edge ∅ edges)).

(** src/crates/weave-graph-core/src/cluster.rs:97-106 [move_to_best_community]
    The weight of a node's references into each neighbouring community. *)
Definition weight_to_community (adjacency : gmap NodeId (list (NodeId * f64))) (community : gmap NodeId NodeId)
    (node : NodeId) : gmap NodeId f64 :=
  foldl (λ ws '(neighbor, w),
      if decide (neighbor = node) then ws
      else add_weight ws (default neighbor (community !! neighbor)) w) ∅
    (default [] (adjacency !! node)).

(** src/crates/weave-graph-core/src/cluster.rs:110-114 [move_to_best_community] *)
Definition gain_of (ws : gmap NodeId f64) (community_degree : gmap NodeId f64) (node_degree two_m : f64)
    (candidate : NodeId) : f64 :=
  f64_sub (default f64_zero (ws !! candidate))
    (f64_div (f64_mul (default f64_zero (community_degree !! candidate)) node_degree) two_m).

(** src/crates/weave-graph-core/src/cluster.rs:116-127 [move_to_best_community] *)
Definition better (gain : NodeId → f64) (current : NodeId) (best : NodeId * f64) (candidate : NodeId) : NodeId * f64 :=
  if decide (candidate = current) then best
  else if f64_lt best.2 (gain candidate) then (candidate, gain candidate) else best.

(** src/crates/weave-graph-core/src/cluster.rs:86-136 [move_to_best_community]
    The state is [(community, community_degree)]; the flag tells whether the
    node changed its community. *)
Definition move_to_best_community (node : NodeId) (adjacency : gmap NodeId (list (NodeId * f64)))
    (degree : gmap NodeId f64) (two_m : f64) (st : gmap NodeId NodeId * gmap NodeId f64) :
    (gmap NodeId NodeId * gmap NodeId f64) * bool :=
  let '(community, community_degree) := st in
  let node_degree := default f64_zero (degree !! node) in
  let current := default node (community !! node) in
  let ws := weight_to_community adjacency community node in
  let community_degree := <[current := f64_sub (default f64_zero (community_degree !! current)) node_degree]> community_degree in
  let gain := gain_of ws community_degree node_degree two_m in
  let best := (foldl (better gain current) (current, gain current) (hm_iter ws).*1).1 in
  let community_degree := add_weight community_degree best node_degree in
  if decide (best = current) then ((community, community_degree), false)
  else ((<[node := best]> community, community_degree), true).

(** src/crates/weave-graph-core/src/cluster.rs:48-60 [louvain_communities]
    One round of the loop over the nodes. *)
Definition louvain_round (nodes : list NodeId) (adjacency : gmap NodeId (list (NodeId * f64))) (degree : gmap NodeId f64)
    (two_m : f64) (st : gmap NodeId NodeId * gmap NodeId f64) : (gmap NodeId NodeId * gmap NodeId f64) * bool :=
  foldl (λ '(st, improved) node,
      let '(st, moved) := move_to_best_community node adjacency degree two_m st in (st, improved || moved))
    (st, false) nodes.

(** src/crates/weave-graph-core/src/cluster.rs:46-61 [louvain_communities]
    The loop, with a bound on its rounds. *)
Fixpoint louvain_loop (fuel : nat) (nodes : list NodeId) (adjacency : gmap NodeId (list (NodeId * f64)))
    (degree : gmap NodeId f64) (two_m : f64) (st : gmap NodeId NodeId * gmap NodeId f64) : option (gmap NodeId NodeId) :=
  match fuel with
  | 0 => None
  | S fuel =>
      match louvain_round nodes adjacency degree two_m st with
      | (st, true) => louvain_loop fuel nodes adjacency degree two_m st
      | (st, false) => Some st.1
      end
  end.

(** src/crates/weave-graph-core/src/cluster.rs:145-153 [renumber]
    The state is [(seen, next_id, result)]. *)
Definition renumber_step (community : gmap NodeId NodeId) (st : gmap NodeId N * N * gmap NodeId N) (node : NodeId) :
    gmap NodeId N * N * gmap NodeId N :=
  let '(seen, next_id, result) := st in
  let raw := default node (community !! node) in
  match seen !! raw with
  | Some id => (seen, next_id, <[node := id]> result)
  | None => (<[raw := next_id]> seen, ((next_id + 1) `mod` 4294967296)%N, <[node := next_id]> result)
  end.

(** src/crates/weave-graph-core/src/cluster.rs:141-155 [renumber] *)
Definition renumber (nodes : list NodeId) (community : gmap NodeId NodeId) : gmap NodeId N :=
  (foldl (renumber_step community) (∅, 0%N, ∅) nodes).2.

(** src/crates/weave-graph-core/src/cluster.rs:17-64 [louvain_communities] *)
Definition louvain_communities (fuel : nat) (nodes : list NodeId) (edges : list (NodeId * NodeId * f64)) :
    option (gmap NodeId N) :=
  match nodes with
  | [] => Some ∅
  | _ =>
      let adjacency := undirected_adjacency edges in
      let total_weight := f64_div (f64_sum (snd <$> concat (hm_iter adjacency).*2)) f64_two in
      let alone : gmap NodeId NodeId := list_to_map ((λ n, (n, n)) <$> nodes) in
      if f64_le total_weight f64_zero then Some (renumber nodes alone) else
      let degree : gmap NodeId f64 :=
        list_to_map ((λ n, (n, match adjacency !! n with Some ns => f64_sum ns.*2 | None => f64_zero end)) <$> nodes) in
      community ← louvain_loop fuel nodes adjacency degree (f64_mul f64_two total_weight) (alone, degree);
      Some (renumber nodes community)
  end.

(** ** Modules (modules.rs) *)

(** src/crates/weave-graph-core/src/modules.rs:14-18 [Module] *)
Record FileModule := mkModule { mod_id : N; mod_label : string; mod_files : list string }.

(** src/crates/weave-graph-core/src/modules.rs:28-43 [aggregate_file_edges] *)
Definition file_edge_step (file_of : gmap NodeId string) (weights : gmap (string * string) f64) (edge : Edge) :
    gmap (string * string) f64 :=
  match file_of !! source_id edge, file_of !! target_id edge with
  | Some a, Some b =>
      if decide (a = b) then weights
      else add_weight weights (if String.leb a b then (a, b) else (b, a)) f64_one
  | _, _ => weights
  end.

(** src/crates/weave-graph-core/src/modules.rs:24-45 [aggregate_file_edges] *)
Definition aggregate_file_edges (edges : list Edge) (file_of : gmap NodeId string) : gmap (string * string) f64 :=
  foldl (file_edge_step file_of) ∅ edges.

(** src/crates/weave-graph-core/src/modules.rs:91-97 [module_label]
    [max_by_key] keeps the last of several greatest. *)
Definition dir_counts (files : list string) : gmap string nat :=
  foldl (λ counts f,
      let dir := match rsplit_once f "/" with Some (d, _) => d | None => "" end in
      if is_empty dir then counts else <[dir := S (default 0 (counts !! dir))]> counts) ∅ files.

Definition max_by_count (best : option (string * nat)) (x : string * nat) : option (string * nat) :=
  match best with
  | Some b => if b.2 <=? x.2 then Some x else best
  | None => Some x
  end.

(** src/crates/weave-graph-core/src/modules.rs:90-103 [module_label] *)
Definition module_label (files : list string) : string :=
  match foldl max_by_count None (hm_iter (dir_counts files)) with Some (dir, _) => dir | None => "(root)" end.

(** src/crates/weave-graph-core/src/modules.rs:52-54 [build_modules] *)
Definition distinct_files (nodes : list Node) : list string := dedup (sort_by String.leb (node_path <$> nodes)).

(** src/crates/weave-graph-core/src/modules.rs:83-83 [build_modules] *)
Definition module_leb (a b : FileModule) : bool :=
  if decide (length (mod_files a) = length (mod_files b)) then (mod_id a <=? mod_id b)%N
  else length (mod_files b) <=? length (mod_files a).

(** src/crates/weave-graph-core/src/modules.rs:69-84 [build_modules]
    Grouping the files by the community of their index. *)
Definition group_modules (files : list string) (communities : gmap NodeId N) : list FileModule :=
  let by_module := foldl (λ m '(i, file), push_to m (default 0%N (communities !! as_u32 i)) file) ∅ (enumerate files) in
  sort_by module_leb
    ((λ '(id, fs), let fs := sort_by String.leb fs in mkModule id (module_label fs) fs) <$> hm_iter by_module).

(** src/crates/weave-graph-core/src/modules.rs:51-85 [build_modules] *)
Definition build_modules (fuel : nat) (nodes : list Node) (file_edges : gmap (string * string) f64) : option (list FileModule) :=
  let files := distinct_files nodes in
  let file_id : gmap string N := list_to_map ((λ '(i, f), (f, as_u32 i)) <$> enumerate files) in
  let id_edges := omap (λ '((a, b), w), ia ← file_id !! a; ib ← file_id !! b; Some (ia, ib, w)) (hm_iter file_edges) in
  let ids := N.of_nat <$> seq 0 (N.to_nat (as_u32 (length files))) in
  communities ← louvain_communities fuel ids id_edges;
  Some (group_modules files communities).
End cluster.

(** ** Grouping *)

Lemma push_to_lookup {K A} `{Countable K} (m : gmap K (list A)) k x j :
  default [] (push_to m k x !! j) = default [] (m !! j) ++ (if decide (j = k) then [x] else []).
Proof.
  unfold push_to. case_decide; subst; [by rewrite lookup_insert_eq|].
  by rewrite lookup_insert_ne, app_nil_r.
Qed.

Lemma push_all_lookup {K A B} `{Countable K} (key : A → K) (val : A → B) l (m : gmap K (list B)) j :
  default [] (foldl (λ m x, push_to m (key x) (val x)) m l !! j) =
    default [] (m !! j) ++ (val <$> filter (λ x, key x = j) l).
Proof.
  revert m. induction l as [|x l IH]; intros m; cbn [foldl]; [by rewrite app_nil_r|].
  rewrite IH, push_to_lookup, <-app_assoc. f_equal. rewrite filter_cons.
  destruct (decide (j = key x)) as [->|]; case_decide; done.
Qed.

Lemma push_all_nonempty {K A B} `{Countable K} (key : A → K) (val : A → B) l (m : gmap K (list B)) :
  map_Forall (λ _ v, v ≠ []) m → map_Forall (λ _ v, v ≠ []) (foldl (λ m x, push_to m (key x) (val x)) m l).
Proof.
  revert m. induction l as [|x l IH]; intros m Hm; [done|]. cbn [foldl]. apply IH.
  apply map_Forall_insert_2; [|done]. by destruct (default [] _).
Qed.

Section grouping.
Context `{HashOrderLaws}.

(** The community of the file at index [i]. *)
Definition file_community (communities : gmap NodeId N) (i : nat) : N := default 0%N (communities !! as_u32 i).

Definition by_module (files : list string) (communities : gmap NodeId N) : gmap N (list string) :=
  foldl (λ m x, push_to m (file_community communities x.1) x.2) ∅ (enumerate files).

Lemma by_module_eq files communities :
  foldl (λ m '(i, file), push_to m (default 0%N (communities !! as_u32 i)) file) ∅ (enumerate files) =
  by_module files communities.
Proof.
  unfold by_module. generalize (∅ : gmap N (list string)). induction (enumerate files) as [|[i f] l IH]; intros m; [done|].
  cbn [foldl]. apply IH.
Qed.

Lemma by_module_members files communities c fs :
  by_module files communities !! c = Some fs ↔
    fs ≠ [] ∧ fs = (snd <$> filter (λ x, file_community communities x.1 = c) (enumerate files)).
Proof.
  pose proof (push_all_lookup (λ x : nat * string, file_community communities x.1) snd (enumerate files) ∅ c) as Hl.
  rewrite lookup_empty in Hl. cbn [default from_option app] in Hl.
  pose proof (push_all_nonempty (λ x : nat * string, file_community communities x.1) snd (enumerate files) ∅ (map_Forall_empty _)) as Hn.
  fold (by_module files communities) in Hl, Hn. split.
  - intros Hc. split; [by eapply Hn|]. by rewrite Hc in Hl.
  - intros [Hne ->]. destruct (by_module files communities !! c) as [fs|]; cbn in Hl; [by subst|by destruct Hne].
Qed.

Lemma group_modules_elem files communities m :
  m ∈ group_modules files communities ↔
  ∃ fs, by_module files communities !! mod_id m = Some fs ∧ mod_files m = sort_by String.leb fs ∧
    mod_label m = module_label (mod_files m).
Proof.
  unfold group_modules. rewrite by_module_eq, elem_of_sort_by, list_elem_of_fmap. split.
  - intros ([c fs] & -> & Hc%hm_iter_elem). cbn. eauto.
  - destruct m as [c lab gs]. cbn. intros (fs & Hc & -> & ->). exists (c, fs). split; [done|].
    by apply hm_iter_elem.
Qed.

Lemma concat_fmap_map {K A B} `{Countable K} (f : K * list A → list B) (m : gmap K (list A)) :
  concat (f <$> hm_iter m) ≡ₚ concat (f <$> map_to_list m).
Proof. by rewrite (hm_iter_perm m). Qed.

Lemma by_module_concat_from (communities : gmap NodeId N) l (m : gmap N (list string)) :
  concat (map_to_list (foldl (λ m x, push_to m (file_community communities x.1) x.2) m l)).*2 ≡ₚ concat (map_to_list m).*2 ++ l.*2.
Proof.
  revert m. induction l as [|[i f] l IH]; intros m; cbn [foldl fmap list_fmap]; [by rewrite app_nil_r|].
  rewrite IH. cbn [fst snd]. unfold push_to. set (c := file_community communities i).
  change (f :: l.*2) with ([f] ++ l.*2). rewrite (assoc_L app). f_equiv.
  destruct (m !! c) as [v|] eqn:Hc; cbn [default from_option].
  - rewrite <-(insert_delete_id m c v) at 2 by done. rewrite <-insert_delete_eq.
    rewrite !map_to_list_insert by apply lookup_delete_eq. cbn. rewrite <-!app_assoc. f_equiv. apply Permutation_app_comm.
  - rewrite map_to_list_insert by done. cbn. by rewrite Permutation_app_comm.
Qed.

Lemma group_modules_partition files communities :
  concat (mod_files <$> group_modules files communities) ≡ₚ files ∧
  NoDup (mod_id <$> group_modules files communities).
Proof.
  unfold group_modules. rewrite by_module_eq. split.
  - rewrite sort_by_perm, <-list_fmap_compose, concat_fmap_map.
    pose proof (by_module_concat_from communities (enumerate files) ∅) as Hp. fold (by_module files communities) in Hp.
    rewrite map_to_list_empty in Hp. cbn [concat fmap list_fmap app] in Hp. rewrite enumerate_snd in Hp.
    etrans; [|exact Hp]. clear Hp. induction (map_to_list _) as [|[c fs] l IH]; [done|]. cbn. by rewrite IH, sort_by_perm.
  - rewrite sort_by_perm, <-list_fmap_compose.
    rewrite (hm_iter_perm (by_module files communities)).
    erewrite (list_fmap_ext _ fst); [apply NoDup_fst_map_to_list|]. by intros ? [].
Qed.
End grouping.

(** ** Communities stay inside connected parts *)

Section connected.
Context `{HashOrderLaws}.

(** Neighbours in an adjacency. *)
Definition adjacent (adjacency : gmap NodeId (list (NodeId * f64))) (a b : NodeId) : Prop :=
  b ∈ (default [] (adjacency !! a)).*1.

(** Every node can walk to the node its community is named after. *)
Definition walks_home (adjacency : gmap NodeId (list (NodeId * f64))) (community : gmap NodeId NodeId) : Prop :=
  map_Forall (λ x c, rtc (adjacent adjacency) x c) community.

Lemma weight_keys adjacency community node c :
  c ∈ dom (weight_to_community adjacency community node) →
  ∃ b, adjacent adjacency node b ∧ c = default b (community !! b).
Proof.
  unfold weight_to_community, adjacent. set (l := default [] (adjacency !! node)).
  cut (∀ l' (ws : gmap NodeId f64), l' ⊆ l →
    (∀ c, c ∈ dom ws → ∃ b, b ∈ l.*1 ∧ c = default b (community !! b)) →
    c ∈ dom (foldl (λ ws '(neighbor, w), if decide (neighbor = node) then ws
      else add_weight ws (default neighbor (community !! neighbor)) w) ws l') →
    ∃ b, b ∈ l.*1 ∧ c = default b (community !! b)).
  { intros Hc. apply Hc; [done|]. intros c'. by rewrite dom_empty_L, elem_of_empty. }
  induction l' as [|[b w] l' IH]; intros ws Hsub Hws; cbn [foldl]; [by apply Hws|].
  apply IH; [by intros ? ?; apply Hsub; right|]. intros c'. case_decide; [by apply Hws|].
  unfold add_weight. rewrite dom_insert_L, elem_of_union, elem_of_singleton. intros [->|?]; [|by apply Hws].
  exists b. split; [|done]. apply list_elem_of_fmap. exists (b, w). split; [done|]. apply Hsub. by left.
Qed.

Lemma better_elem gain current l best :
  (foldl (better gain current) best l).1 = best.1 ∨ (foldl (better gain current) best l).1 ∈ l.
Proof.
  revert best. induction l as [|c l IH]; intros best; [by left|]. cbn [foldl].
  destruct (IH (better gain current best c)) as [->|?]; [|by right; right].
  unfold better. case_decide; [by left|]. destruct (f64_lt _ _); [by right; left|by left].
Qed.

Lemma move_walks_home adjacency degree two_m node st :
  walks_home adjacency st.1 → walks_home adjacency (move_to_best_community node adjacency degree two_m st).1.1.
Proof.
  destruct st as [community cd]. cbn [fst]. intros Hw. unfold move_to_best_community.
  set (ws := weight_to_community adjacency community node). set (cur := default node (community !! node)).
  set (gain := gain_of ws _ _ _). destruct (better_elem gain cur (hm_iter ws).*1 (cur, gain cur)) as [->|Hin].
  { cbn [fst]. by rewrite decide_True. }
  case_decide; [done|]. cbn [fst]. apply map_Forall_insert_2; [|done].
  apply hm_iter_keys, weight_keys in Hin as (b & Hb & ->). eapply rtc_l; [exact Hb|].
  destruct (community !! b) as [c|] eqn:Hc; [by eapply Hw|apply rtc_refl].
Qed.

Lemma round_walks_home nodes adjacency degree two_m st :
  walks_home adjacency st.1 → walks_home adjacency (louvain_round nodes adjacency degree two_m st).1.1.
Proof.
  unfold louvain_round. generalize false. revert st. induction nodes as [|n nodes IH]; intros st imp Hw; [done|].
  cbn [foldl]. pose proof (move_walks_home adjacency degree two_m n st Hw) as Hm.
  destruct (move_to_best_community n adjacency degree two_m st) as [st' moved]. by apply IH.
Qed.

Lemma loop_walks_home fuel nodes adjacency degree two_m st community :
  louvain_loop fuel nodes adjacency degree two_m st = Some community →
  walks_home adjacency st.1 → walks_home adjacency community.
Proof.
  revert st. induction fuel as [|fuel IH]; intros st; cbn; [done|]. intros Hl Hw.
  pose proof (round_walks_home nodes adjacency degree two_m st Hw) as Hr.
  destruct (louvain_round nodes adjacency degree two_m st) as [st' []]; [by eapply IH|]. by simplify_eq.
Qed.
End connected.

(** ** From communities back to files *)

Section adjacency.
Context `{HashOrderLaws}.

Lemma merge_keys (edges : list (NodeId * NodeId * f64)) (merged : gmap (NodeId * NodeId) f64) a b :
  (a, b) ∈ dom (foldl merge_edge merged edges) →
  (a, b) ∈ dom merged ∨ ∃ w, (a, b, w) ∈ edges ∨ (b, a, w) ∈ edges.
Proof.
  revert merged. induction edges as [|[[x y] w] edges IH]; intros merged; [by left|]. cbn [foldl].
  intros [Hin|(v & Hv)]%IH; [|by right; exists v; destruct Hv; [left|right]; right].
  unfold merge_edge in Hin. destruct (bool_decide (x = y) || f64_le w f64_zero); [by left|].
  unfold add_weight in Hin. rewrite dom_insert_L, elem_of_union, elem_of_singleton in Hin.
  destruct Hin as [He|?]; [|by left]. right. exists w. destruct (x <=? y)%N; simplify_eq; [left|right]; left.
Qed.

Lemma adjacent_push adj a x b y :
  adjacent (push_to adj a x) b y ↔ adjacent adj b y ∨ (b = a ∧ y = x.1).
Proof.
  unfold adjacent. rewrite push_to_lookup, fmap_app, elem_of_app. f_equiv.
  destruct (decide (b = a)); cbn; [rewrite list_elem_of_singleton; naive_solver|].
  rewrite elem_of_nil. naive_solver.
Qed.

Lemma adjacent_fold l adj a b :
  adjacent (foldl (λ adj '((a, b), w), push_to (push_to adj a (b, w)) b (a, w)) adj l) a b ↔
  adjacent adj a b ∨ (a, b) ∈ l.*1 ∨ (b, a) ∈ l.*1.
Proof.
  revert adj. induction l as [|[[x y] w] l IH]; intros adj; cbn [foldl fmap list_fmap fst].
  - rewrite !elem_of_nil. naive_solver.
  - rewrite IH, !adjacent_push, !elem_of_cons. cbn. naive_solver.
Qed.

Lemma adjacent_merged (edges : list (NodeId * NodeId * f64)) a b :
  adjacent (undirected_adjacency edges) a b ↔
  (a, b) ∈ dom (foldl merge_edge ∅ edges) ∨ (b, a) ∈ dom (foldl merge_edge ∅ edges).
Proof.
  unfold undirected_adjacency. rewrite adjacent_fold, !hm_iter_keys. unfold adjacent at 1.
  rewrite lookup_empty. cbn. rewrite elem_of_nil. naive_solver.
Qed.

Lemma adjacent_edges (edges : list (NodeId * NodeId * f64)) a b :
  adjacent (undirected_adjacency edges) a b → ∃ w, (a, b, w) ∈ edges ∨ (b, a, w) ∈ edges.
Proof.
  rewrite adjacent_merged. intros [Hin|Hin]; apply merge_keys in Hin as [Hin|(w & Hw)];
    try (by rewrite dom_empty_L, elem_of_empty in Hin); exists w; naive_solver.
Qed.

Lemma rtc_adjacent_sym (edges : list (NodeId * NodeId * f64)) a b :
  rtc (adjacent (undirected_adjacency edges)) a b → rtc (adjacent (undirected_adjacency edges)) b a.
Proof.
  induction 1 as [|a b c Hab _ IH]; [done|]. eapply rtc_r; [exact IH|]. rewrite adjacent_merged in *. tauto.
Qed.
End adjacency.

(** The community a node is in before renumbering. *)
Definition raw_community (community : gmap NodeId NodeId) (x : NodeId) : NodeId := default x (community !! x).

Record renumber_ok (community : gmap NodeId NodeId) (pre : list NodeId) (st : gmap NodeId N * N * gmap NodeId N) : Prop := {
  rn_inj r r' i : st.1.1 !! r = Some i → st.1.1 !! r' = Some i → r = r';
  rn_lt r i : st.1.1 !! r = Some i → (i < st.1.2)%N;
  rn_next : (st.1.2 ≤ N.of_nat (length pre))%N;
  rn_result x i : st.2 !! x = Some i → st.1.1 !! raw_community community x = Some i;
  rn_all x : x ∈ pre → is_Some (st.2 !! x);
}.

Lemma renumber_step_ok community pre st x :
  renumber_ok community pre st → (N.of_nat (length pre) < u32_MAX)%N →
  renumber_ok community (pre ++ [x]) (renumber_step community st x).
Proof.
  destruct st as [[seen next] res]. intros [Hinj Hlt Hnext Hres Hall] Hlen. cbn in *. unfold renumber_step.
  fold (raw_community community x). destruct (seen !! raw_community community x) as [i|] eqn:Hs; split; cbn.
  - done.
  - done.
  - rewrite length_app. cbn. lia.
  - intros y j [[-> ->]|[_ Hy]]%lookup_insert_Some; [done|auto].
  - intros y [Hy| ->%list_elem_of_singleton]%elem_of_app; rewrite lookup_insert_is_Some'; auto.
  - intros r r' j [[<- <-]|[Hr Hj]]%lookup_insert_Some [[<- Hj']|[Hr' Hj']]%lookup_insert_Some; try done.
    + apply Hlt in Hj'. lia.
    + subst. apply Hlt in Hj. lia.
    + by eapply Hinj.
  - intros r j. unfold u32_MAX in Hlen. rewrite N.mod_small by lia.
    intros [[<- <-]|[_ Hj%Hlt]]%lookup_insert_Some; lia.
  - rewrite length_app. unfold u32_MAX in Hlen. rewrite N.mod_small by lia. cbn. lia.
  - intros y j [[-> ->]|[_ Hy%Hres]]%lookup_insert_Some; [by rewrite lookup_insert_eq|].
    rewrite lookup_insert_ne; [done|]. intros He. rewrite He in Hs. congruence.
  - intros y [Hy| ->%list_elem_of_singleton]%elem_of_app; rewrite lookup_insert_is_Some'; auto.
Qed.

Lemma renumber_spec community nodes :
  (N.of_nat (length nodes) ≤ u32_MAX)%N →
  (∀ x, x ∈ nodes → is_Some (renumber nodes community !! x)) ∧
  ∀ x y i, renumber nodes community !! x = Some i → renumber nodes community !! y = Some i →
    raw_community community x = raw_community community y.
Proof.
  intros Hn. assert (renumber_ok community nodes (foldl (renumber_step community) (∅, 0%N, ∅) nodes)) as Hok.
  { induction nodes as [|x l IH] using rev_ind.
    - split; cbn; [intros r r' i|intros r i|lia|intros x i|by intros x ?%elem_of_nil]; by rewrite lookup_empty.
    - rewrite foldl_snoc. rewrite length_app in Hn. cbn in Hn. apply renumber_step_ok; [apply IH|]; lia. }
  unfold renumber. split; [apply Hok|]. intros x y i Hx%(rn_result _ _ _ Hok) Hy%(rn_result _ _ _ Hok).
  by eapply (rn_inj _ _ _ Hok).
Qed.

(** ** Modules *)

Section modules.
Context `{HashOrderLaws}.

(** Two files with a reference between them. *)
Definition linked (file_edges : gmap (string * string) f64) (f g : string) : Prop :=
  is_Some (file_edges !! (f, g)) ∨ is_Some (file_edges !! (g, f)).

Definition file_ids (files : list string) : gmap string N := list_to_map ((λ '(i, f), (f, as_u32 i)) <$> enumerate files).

Definition index_edges (files : list string) (file_edges : gmap (string * string) f64) : list (NodeId * NodeId * f64) :=
  omap (λ '((a, b), w), ia ← file_ids files !! a; ib ← file_ids files !! b; Some (ia, ib, w)) (hm_iter file_edges).

Lemma file_ids_lookup files f i :
  (N.of_nat (length files) ≤ u32_MAX)%N → file_ids files !! f = Some i → files !! as_usize i = Some f ∧ as_usize i < length files.
Proof.
  intros Hn Hf. apply elem_of_list_to_map_2, list_elem_of_fmap in Hf as ([j g] & Hj & Hin).
  unfold enumerate in Hin. apply elem_of_lookup_imap in Hin as (j' & g' & Hg & Hl). simplify_eq.
  assert (as_usize (as_u32 j') = j') as ->.
  { apply lookup_lt_Some in Hl. unfold as_usize, as_u32, u32_MAX in *. rewrite N.mod_small by lia. lia. }
  split; [done|]. by eapply lookup_lt_Some.
Qed.

Lemma index_edges_linked files fe a b w :
  (N.of_nat (length files) ≤ u32_MAX)%N → (a, b, w) ∈ index_edges files fe →
  ∃ f g, files !! as_usize a = Some f ∧ files !! as_usize b = Some g ∧ linked fe f g.
Proof.
  intros Hn. unfold index_edges. rewrite list_elem_of_omap. intros ([[f g] v] & Hin%hm_iter_elem & Hab).
  cbn in Hab. destruct (file_ids files !! f) as [i|] eqn:Hf; [|done]. destruct (file_ids files !! g) as [j|] eqn:Hg; [|done].
  cbn in Hab. simplify_eq. apply file_ids_lookup in Hf as [? _]; [|done]. apply file_ids_lookup in Hg as [? _]; [|done].
  exists f, g. split_and!; [done..|]. left. by exists w.
Qed.

Lemma rtc_linked files fe i j f g :
  (N.of_nat (length files) ≤ u32_MAX)%N →
  rtc (adjacent (undirected_adjacency (index_edges files fe))) i j →
  files !! as_usize i = Some f → files !! as_usize j = Some g → rtc (linked fe) f g.
Proof.
  intros Hn Hij. revert f. induction Hij as [|i k j Hik _ IH]; intros f Hf Hg; [simplify_eq; apply rtc_refl|].
  assert (∃ h, files !! as_usize k = Some h ∧ linked fe f h) as (h & Hh & Hl).
  { apply adjacent_edges in Hik as (w & [Hw|Hw]); apply index_edges_linked in Hw as (x & y & Hx & Hy & Hxy); try done;
      simplify_eq; eexists; (split; [done|]); unfold linked in *; tauto. }
  eapply rtc_l; [exact Hl|]. by apply IH.
Qed.

(** However long the clustering has run, two nodes of one community are
    connected. *)
Lemma louvain_connected fuel nodes edges communities x y i :
  (N.of_nat (length nodes) ≤ u32_MAX)%N →
  louvain_communities fuel nodes edges = Some communities →
  communities !! x = Some i → communities !! y = Some i → rtc (adjacent (undirected_adjacency edges)) x y.
Proof.
  intros Hn Hc Hx Hy. unfold louvain_communities in Hc. destruct nodes as [|n0 nodes0]; [by simplify_eq|].
  set (nodes := n0 :: nodes0) in *. set (alone := list_to_map _) in Hc.
  assert (walks_home (undirected_adjacency edges) alone) as Ha.
  { intros z c Hz%elem_of_list_to_map_2. apply list_elem_of_fmap in Hz as (z' & [= -> ->] & _). apply rtc_refl. }
  assert (∃ community, communities = renumber nodes community ∧ walks_home (undirected_adjacency edges) community)
    as (community & -> & Hw).
  { destruct (f64_le _ _); [simplify_eq; eauto|].
    apply bind_Some in Hc as (community & Hl & [= <-]). exists community. split; [done|]. by eapply loop_walks_home. }
  assert (∀ z, rtc (adjacent (undirected_adjacency edges)) z (raw_community community z)) as Hraw.
  { intros z. unfold raw_community. destruct (community !! z) eqn:Hz; [by eapply Hw|apply rtc_refl]. }
  destruct (renumber_spec community nodes Hn) as [_ Hinj]. etrans; [apply Hraw|].
  rewrite (Hinj x y i Hx Hy). by apply rtc_adjacent_sym.
Qed.

Lemma louvain_all fuel nodes edges communities x :
  (N.of_nat (length nodes) ≤ u32_MAX)%N →
  louvain_communities fuel nodes edges = Some communities → x ∈ nodes → is_Some (communities !! x).
Proof.
  intros Hn Hc Hx. unfold louvain_communities in Hc. destruct nodes as [|n0 nodes0]; [by apply elem_of_nil in Hx|].
  destruct (f64_le _ _); [simplify_eq; by apply renumber_spec|].
  apply bind_Some in Hc as (community & _ & [= <-]). by apply renumber_spec.
Qed.

Lemma hm_iter_empty {K A} `{Countable K} : hm_iter (∅ : gmap K A) = [].
Proof. apply Permutation_nil_r. by rewrite hm_iter_perm, map_to_list_empty. Qed.

Lemma louvain_no_edges fuel nodes : is_Some (louvain_communities fuel nodes []).
Proof.
  unfold louvain_communities, undirected_adjacency. destruct nodes; [by eexists|]. cbn [foldl]. rewrite hm_iter_empty. cbn [foldl].
  rewrite hm_iter_empty. by eexists.
Qed.

Lemma NoDup_distinct_files nodes : NoDup (distinct_files nodes).
Proof. eapply strict_sorted_NoDup, dedup_sorted, sort_by_sorted; apply _. Qed.

Lemma elem_of_distinct_files f nodes : f ∈ distinct_files nodes ↔ ∃ n, n ∈ nodes ∧ node_path n = f.
Proof. unfold distinct_files. rewrite elem_of_dedup, elem_of_sort_by, list_elem_of_fmap. naive_solver. Qed.

Lemma length_distinct_files nodes : length (distinct_files nodes) ≤ length nodes.
Proof.
  rewrite <-(length_fmap node_path nodes). apply submseteq_length, NoDup_submseteq; [apply NoDup_distinct_files|].
  intros x (n & Hn & <-)%elem_of_distinct_files. by apply list_elem_of_fmap_2.
Qed.

Lemma file_community_elem files communities c f :
  f ∈ (snd <$> filter (λ x : nat * string, file_community communities x.1 = c) (enumerate files)) ↔
  ∃ i, files !! i = Some f ∧ file_community communities i = c.
Proof.
  rewrite list_elem_of_fmap. split.
  - intros ([i g] & -> & [Hc Hin]%list_elem_of_filter). apply elem_of_lookup_imap in Hin as (j & h & Hj & Hl). simplify_eq. eauto.
  - intros (i & Hl & Hc). exists (i, f). split; [done|]. apply list_elem_of_filter. split; [done|].
    apply elem_of_lookup_imap. eauto.
Qed.

Lemma module_files_elem files communities m f :
  m ∈ group_modules files communities →
  f ∈ mod_files m ↔ ∃ i, files !! i = Some f ∧ file_community communities i = mod_id m.
Proof.
  intros (fs & [_ ->]%by_module_members & -> & _)%group_modules_elem. by rewrite elem_of_sort_by, file_community_elem.
Qed.

Lemma build_modules_files fuel nodes fe ms : build_modules fuel nodes fe = Some ms →
  concat (mod_files <$> ms) ≡ₚ distinct_files nodes.
Proof.
  unfold build_modules. destruct (louvain_communities _ _ _) as [communities|]; cbn [mbind option_bind]; [|done].
  intros [= <-]. apply group_modules_partition.
Qed.

(** Module folding partitions the indexed files.  For every iteration order
    of the hash maps, every indexed file is in exactly one module, no module is
    empty, module ids are distinct, and two files of one module are connected by
    references between files; so a file without cross-file references is a
    module of its own.  When there are no cross-file references the clustering
    returns at once. *)
Theorem modules_partition_connected fuel nodes fe (Hsmall : (N.of_nat (length nodes) ≤ u32_MAX)%N) :
  match build_modules fuel nodes fe with
  | Some ms =>
      concat (mod_files <$> ms) ≡ₚ distinct_files nodes ∧ NoDup (mod_id <$> ms) ∧
      ∀ m, m ∈ ms → mod_files m ≠ [] ∧ ∀ f g, f ∈ mod_files m → g ∈ mod_files m → rtc (linked fe) f g
  | None => fe ≠ ∅
  end.
Proof.
  unfold build_modules. set (files := distinct_files nodes). fold (file_ids files). fold (index_edges files fe).
  assert (N.of_nat (length files) ≤ u32_MAX)%N as Hf by (pose proof (length_distinct_files nodes); unfold files; lia).
  rewrite as_u32_small, Nat2N.id by done. set (ids := N.of_nat <$> seq 0 (length files)).
  assert (N.of_nat (length ids) ≤ u32_MAX)%N as Hids by (unfold ids; by rewrite length_fmap, length_seq).
  destruct (louvain_communities fuel ids (index_edges files fe)) as [communities|] eqn:Hc; cbn [mbind option_bind].
  2:{ intros ->. unfold index_edges in Hc. rewrite hm_iter_empty in Hc. destruct (louvain_no_edges fuel ids). cbn in Hc. congruence. }
  destruct (group_modules_partition files communities) as [Hp Hnd]. split_and!; [done..|]. intros m Hm. split.
  { apply group_modules_elem in Hm as (fs & [Hne _]%by_module_members & -> & _). intros He.
    apply Hne, length_zero_iff_nil. by rewrite <-(length_sort_by String.leb fs), He. }
  intros f g (i & Hi & Hci)%(module_files_elem _ _ _ _ Hm) (j & Hj & Hcj)%(module_files_elem _ _ _ _ Hm).
  assert (∀ k h, files !! k = Some h → communities !! as_u32 k = Some (file_community communities k) ∧ as_usize (as_u32 k) = k) as Hk.
  { intros k h Hk%lookup_lt_Some. split; [|apply as_usize_as_u32; lia]. unfold file_community.
    destruct (louvain_all fuel ids _ communities (as_u32 k) Hids Hc) as [c ->]; [|done].
    rewrite as_u32_small by lia. apply list_elem_of_fmap. exists k. split; [done|]. apply elem_of_seq. lia. }
  destruct (Hk _ _ Hi) as [Hi' Hiu], (Hk _ _ Hj) as [Hj' Hju]. rewrite Hci in Hi'. rewrite Hcj in Hj'.
  eapply (rtc_linked files fe (as_u32 i) (as_u32 j)); [done| |by rewrite Hiu|by rewrite Hju].
  by eapply louvain_connected.
Qed.
End modules.

(** ** Examples *)

(** Another order the hash map may choose. *)
Definition hash_order_reversed : HashOrder := λ K A _ _ m, reverse (map_to_list m).

Lemma hash_order_reversed_laws : @HashOrderLaws hash_order_reversed.
Proof. intros K A ? ? m. apply reverse_Permutation. Qed.

Definition square : list (NodeId * NodeId * f64) :=
  [(0, 1, f64_one); (0, 2, f64_one); (1, 3, f64_one); (2, 3, f64_one)]%N.

(** Renumbering is documented to keep the output deterministic across runs; on
    a square the communities depend on the iteration order of a hash map. *)
Theorem communities_depend_on_hash_order :
  let cs (h : HashOrder) := map_to_list <$> @louvain_communities h 9 [0; 1; 2; 3]%N square in
  cs hash_order_default ≠ cs hash_order_reversed ∧ is_Some (cs hash_order_default) ∧ is_Some (cs hash_order_reversed).
Proof. split_and!; vm_compute; [discriminate|by eexists..]. Qed.

Definition ex_file_node (i : N) (path : string) : Node := mkNode i "r" path "f" "fn" 1 2 "".
Definition ex_files : list Node :=
  [ex_file_node 1 "a/x.rs"; ex_file_node 2 "a/y.rs"; ex_file_node 3 "b/z.rs"; ex_file_node 4 "a/x.rs"; ex_file_node 5 "c/w.rs"].
Definition ex_links : gmap (string * string) f64 :=
  aggregate_file_edges [mkEdge 1 1 2 "CALLS" 0 None None; mkEdge 2 4 2 "CALLS" 0 None None; mkEdge 3 5 3 "CALLS" 0 None None;
    mkEdge 4 1 4 "CALLS" 0 None None]
    (list_to_map ((λ n, (node_id n, node_path n)) <$> ex_files)).

Lemma ex_modules : build_modules 9 ex_files ex_links =
  Some [mkModule 0 "a" ["a/x.rs"; "a/y.rs"]; mkModule 1 "b" ["b/z.rs"; "c/w.rs"]].
Proof. vm_compute. reflexivity. Qed.

Lemma modules_partition_connected_witness :
  ∃ ms, build_modules 9 ex_files ex_links = Some ms ∧ concat (mod_files <$> ms) ≡ₚ distinct_files ex_files ∧
    rtc (linked ex_links) "b/z.rs" "c/w.rs".
Proof.
  pose proof (modules_partition_connected 9 ex_files ex_links ltac:(vm_compute; discriminate)) as Hm.
  rewrite ex_modules in Hm. destruct Hm as (Hp & _ & Hc). eexists. split_and!; [apply ex_modules|exact Hp|].
  destruct (Hc (mkModule 1 "b" ["b/z.rs"; "c/w.rs"])) as [_ Hl]; [by right; left|].
  apply Hl; [by left|by right; left].
Defined.
