(* ===== verification/Tools.v ===== *)
(** * The query tools of the MCP server

    impact_radius.rs, trace_calls.rs, file_api.rs, repo_map.rs and explore.rs of
    weave-graph-mcp, with the token budget of tools.rs: what an agent reads of
    the graph.  A tool takes any [Storage], a loaded graph and an optional mask;
    [None] is a panic or an unfinished clustering. *)

From S2P Require Import Prelude Str Bitmap Model Csr CsrGraph Resolve Modules.

(** ** Token budgets (tools.rs) *)

(** The bytes of the whitespace character a string starts with, as
    [char::is_whitespace] has it; 0 for any other character. *)
Definition ws_len (s : string) : nat :=
  match s with
  | EmptyString => 0
  | String a s' =>
      if is_space a then 1 else
      match s' with
      | EmptyString => 0
      | String b s'' =>
          if ((byte a =? 194)%N && ((byte b =? 133)%N || (byte b =? 160)%N))%bool then 2 else
          match s'' with
          | EmptyString => 0
          | String c _ =>
              if (((byte a =? 225)%N && (byte b =? 154)%N && (byte c =? 128)%N) ||
                  ((byte a =? 226)%N && (byte b =? 128)%N &&
                   (((128 <=? byte c)%N && (byte c <=? 138)%N) || (byte c =? 168)%N || (byte c =? 169)%N || (byte c =? 175)%N)) ||
                  ((byte a =? 226)%N && (byte b =? 129)%N && (byte c =? 159)%N) ||
                  ((byte a =? 227)%N && (byte b =? 128)%N && (byte c =? 128)%N))%bool then 3 else 0
          end
      end
  end.

(** The words from here on; [skip] bytes of a whitespace character are left. *)
Fixpoint count_words (skip : nat) (in_word : bool) (s : string) : nat :=
  match s with
  | EmptyString => 0
  | String _ s' =>
      match skip with
      | S skip => count_words skip in_word s'
      | 0 =>
          match ws_len s with
          | 0 => (if in_word then 0 else 1) + count_words 0 true s'
          | S skip => count_words skip false s'
          end
      end
  end.

(** src/crates/weave-graph-mcp/src/tools.rs:123-125 [estimate_tokens] *)
Definition estimate_tokens (text : string) : nat := count_words 0 false text.

(** src/crates/weave-graph-mcp/src/tools.rs:128-133 [under_budget] *)
Definition under_budget (text : string) (max_tokens : option nat) : bool :=
  match max_tokens with Some max => estimate_tokens text <=? max | None => true end.

(** src/crates/weave-graph-core/src/error.rs:1-13 [StorageError] *)
Definition storage_error_text (e : StorageError) : string :=
  match e with
  | Backend msg => "storage backend error: " +:+ msg
  | SchemaTooNew found max =>
      "database schema version " +:+ dec found +:+ " is newer than this binary supports (max " +:+ dec max +:+ "); upgrade weave"
  end.

Definition newline : string := String "010"%char "".
Definition decn (n : nat) : string := dec (N.of_nat n).

(** Where a symbol is, as the tools print it. *)
Definition node_line (n : Node) : string :=
  node_symbol n +:+ " (" +:+ node_path n +:+ ":" +:+ dec (node_line_start n) +:+ ")".

(** [*map.entry(k).or_insert(0) += d]. *)
Definition add_count (m : gmap string nat) (k : string) (d : nat) : gmap string nat := <[k := default 0 (m !! k) + d]> m.

(** [nodes.iter().map(|n| (n.id, n.path.clone())).collect()]. *)
Definition file_of (nodes : list Node) : gmap NodeId string :=
  foldl (λ m n, <[node_id n := node_path n]> m) ∅ nodes.

(** ** weave_impact_radius *)

(** src/crates/weave-graph-mcp/src/tools.rs:179-182 [ImpactRadiusResult] *)
Record ImpactRadiusResult := mkImpact { symbol_count : nat; impact_text : string }.

Section impact.
Context `{HashOrder} (rounds : nat).
Context (symbol : string) (max_tokens : option nat).

(** src/crates/weave-graph-mcp/src/impact_radius.rs:143-158 [render] *)
Definition impact_full (impacted : list Node) : string :=
  let count := length impacted in
  join newline
    (["impact_radius: " +:+ symbol +:+ " (" +:+ decn count +:+ " symbols affected)"] ++
     ((λ n, "  " +:+ node_line n) <$> take 20 impacted) ++
     (if 20 <? count then ["  ... and " +:+ decn (count - 20) +:+ " more"] else [])).

(** src/crates/weave-graph-mcp/src/impact_radius.rs:172-188 [render] *)
Definition impact_files (impacted : list Node) : string :=
  let by_file := foldl (λ m n, add_count m (node_path n) 1) ∅ impacted in
  join newline
    (["impact_radius: " +:+ symbol +:+ " (" +:+ decn (length impacted) +:+ " symbols affected — shed to file summary)"] ++
     ((λ p : string * nat, "  " +:+ p.1 +:+ ": " +:+ decn p.2 +:+ " symbols") <$>
        sort_by (λ a b, String.leb a.1 b.1) (map_to_list by_file))).

(** src/crates/weave-graph-mcp/src/impact_radius.rs:199-232 [render] *)
Definition impact_modules (impacted nodes : list Node) (edges : list Edge) : option string :=
  modules ← build_modules rounds nodes (aggregate_file_edges edges (file_of nodes));
  let lines := omap (λ m,
    match filter (λ f, f ∈ node_path <$> impacted) (mod_files m) with
    | [] => None
    | hit => Some ("  " +:+ mod_label m +:+ " [" +:+ decn (length hit) +:+ " files impacted]: " +:+ join ", " hit)
    end) modules in
  Some (join newline
    (["impact_radius: " +:+ symbol +:+ " (" +:+ decn (length impacted) +:+ " symbols affected — shed to module summary)"] ++
     lines)).

(** src/crates/weave-graph-mcp/src/impact_radius.rs:135-233 [render]
    The whole graph is only asked for in the last tier. *)
Definition impact_render (impacted : list Node) (fetch_all : unit → list Node * list Edge) : option ImpactRadiusResult :=
  let full := impact_full impacted in
  if under_budget full max_tokens then Some (mkImpact (length impacted) full) else
  let files := impact_files impacted in
  if under_budget files max_tokens then Some (mkImpact (length impacted) files) else
  let '(nodes, edges) := fetch_all () in
  text ← impact_modules impacted nodes edges;
  Some (mkImpact (length impacted) text).

Context {S : Type} `{Storage S} {B : Type} `{Bitmap B}.

Definition unwrap_or_default {A} (r : result (list A) StorageError) : list A :=
  match r with Ok l => l | Err _ => [] end.

(** [storage.get_node(id).ok().flatten()]. *)
Definition get_node_ok (storage : S) (i : NodeId) : option Node :=
  match get_node storage i with Ok o => o | Err _ => None end.

(** src/crates/weave-graph-mcp/src/impact_radius.rs:34-71 [weave_impact_radius_masked] *)
Definition impact_radius_masked (storage : S) (csr : CsrGraph) (mask : Node → Node) : option ImpactRadiusResult :=
  match all_nodes storage with
  | Err e => Some (mkImpact 0 ("error: " +:+ storage_error_text e))
  | Ok nodes =>
      let nodes := mask <$> nodes in
      r ← resolve_symbol nodes symbol;
      match r with
      | Err suggestions => Some (mkImpact 0 (format_not_found symbol suggestions))
      | Ok root_id =>
          reached ← reachable_within (B := B) csr root_id u32_MAX;
          let impacted := filter (λ n, node_id n ≠ root_id) (omap (λ idx, nodes !! as_usize idx) (bm_iter reached)) in
          impact_render impacted (λ _, (nodes, unwrap_or_default (all_edges storage)))
      end
  end.

(** src/crates/weave-graph-mcp/src/impact_radius.rs:113-127 [weave_impact_radius_unmasked] *)
Definition impact_from (storage : S) (csr : CsrGraph) (root_id : NodeId) : option ImpactRadiusResult :=
  reached ← reachable_within (B := B) csr root_id u32_MAX;
  let ids := filter (λ i, i ≠ root_id) (omap (id_of_index csr) (bm_iter reached)) in
  impact_render (omap (get_node_ok storage) ids)
    (λ _, (unwrap_or_default (all_nodes storage), unwrap_or_default (all_edges storage))).

(** src/crates/weave-graph-mcp/src/impact_radius.rs:78-128 [weave_impact_radius_unmasked] *)
Definition impact_radius_unmasked (storage : S) (csr : CsrGraph) : option ImpactRadiusResult :=
  match get_node_by_symbol storage symbol with
  | Ok (Some node) => impact_from storage csr (node_id node)
  | _ =>
      match all_nodes storage with
      | Err e => Some (mkImpact 0 ("error: " +:+ storage_error_text e))
      | Ok nodes =>
          r ← resolve_symbol nodes symbol;
          match r with
          | Err suggestions => Some (mkImpact 0 (format_not_found symbol suggestions))
          | Ok root_id => impact_from storage csr root_id
          end
      end
  end.

(** src/crates/weave-graph-mcp/src/impact_radius.rs:22-32 [weave_impact_radius] *)
Definition weave_impact_radius (storage : S) (csr : CsrGraph) (mask : option (Node → Node)) : option ImpactRadiusResult :=
  match mask with
  | Some m => impact_radius_masked storage csr m
  | None => impact_radius_unmasked storage csr
  end.
End impact.

(** ** weave_trace_calls *)

(** src/crates/weave-graph-mcp/src/tools.rs:41-53 [TraceCallsArgs] *)
Record TraceCallsArgs := mkTraceArgs {
  trace_symbol : string;
  trace_depth : N;
  trace_max_tokens : option nat;
  precise_only : bool;
}.

(** src/crates/weave-graph-mcp/src/trace_calls.rs:104-111 [render_result]
    One chain: its size, its first lines, and what is hidden. *)
Definition chain_lines (per_chain : N) (label : string) (chain : list string) : list string :=
  let len := N.of_nat (length chain) in
  let shown := if (len <=? per_chain)%N then chain else take (N.to_nat per_chain) chain in
  let hidden := (len - per_chain)%N in
  ["  " +:+ label +:+ " (" +:+ dec len +:+ "):"] ++ ((λ s, "    → " +:+ s) <$> shown) ++
  (if (0 <? hidden)%N then ["    … and " +:+ dec hidden +:+ " more"] else []).

(** src/crates/weave-graph-mcp/src/trace_calls.rs:102-113 [render_result] *)
Definition trace_render (symbol : string) (outgoing incoming : list string) (per_chain : N) : string :=
  join newline (["trace_calls: " +:+ symbol] ++ chain_lines per_chain "outgoing" outgoing ++
                chain_lines per_chain "incoming" incoming).

(** src/crates/weave-graph-mcp/src/trace_calls.rs:122-131 [render_result] *)
Fixpoint trace_shrink (render : N → string) (max : nat) (per_chain : nat) : string :=
  match per_chain with
  | 0 => render 0%N
  | S k =>
      let text := render (N.of_nat k) in
      if estimate_tokens text <=? max then text else trace_shrink render max k
  end.

(** src/crates/weave-graph-mcp/src/trace_calls.rs:97-132 [render_result] *)
Definition render_result (args : TraceCallsArgs) (outgoing incoming : list string) : string :=
  let render := trace_render (trace_symbol args) outgoing incoming in
  let full := render (u64_modulus - 1)%N in
  if under_budget full (trace_max_tokens args) then full
  else trace_shrink render (default 0 (trace_max_tokens args)) (length outgoing `max` length incoming).

Section trace.
Context {S : Type} `{Storage S} {B : Type} `{Bitmap B}.

(** src/crates/weave-graph-mcp/src/trace_calls.rs:137-150 [outgoing_chain] *)
Definition outgoing_chain (csr : CsrGraph) (lookup : NodeId → option Node) (from : NodeId) (depth : N) :
    option (list string) :=
  reached ← reachable_within (B := B) csr from depth;
  Some (node_line <$> omap lookup (filter (λ i, i ≠ from) (omap (id_of_index csr) (bm_iter reached)))).

(** src/crates/weave-graph-mcp/src/trace_calls.rs:163-165 [incoming_chain]
    A caller found, with the edge it was found by. *)
Record incoming := mkIncoming {
  in_visited : gset NodeId;
  in_queue : list (NodeId * N);
  in_found : list (Node * Edge);
}.

(** src/crates/weave-graph-mcp/src/trace_calls.rs:175-190 [incoming_chain] *)
Definition incoming_visit (lookup : NodeId → option Node) (hop : N) (st : incoming) (edge : Edge) : incoming :=
  if decide (source_id edge ∈ in_visited st) then st else
  let visited := {[source_id edge]} ∪ in_visited st in
  match lookup (source_id edge) with
  | None => mkIncoming visited (in_queue st) (in_found st)
  | Some node => mkIncoming visited (in_queue st ++ [(source_id edge, (hop + 1)%N)]) (in_found st ++ [(node, edge)])
  end.

(** src/crates/weave-graph-mcp/src/trace_calls.rs:167-202 [incoming_chain]
    Each round takes one caller from the queue; [None] when the bound on the
    rounds is reached. *)
Fixpoint incoming_loop (fuel : nat) (storage : S) (lookup : NodeId → option Node) (depth : N) (st : incoming) :
    option (list (Node * Edge)) :=
  match in_queue st with
  | [] => Some (in_found st)
  | (current, hop) :: queue =>
      match fuel with
      | 0 => None
      | Datatypes.S fuel =>
          let st := mkIncoming (in_visited st) queue (in_found st) in
          if (depth <=? hop)%N then incoming_loop fuel storage lookup depth st else
          match get_callers storage current with
          | Err _ => incoming_loop fuel storage lookup depth st
          | Ok callers => incoming_loop fuel storage lookup depth (foldl (incoming_visit lookup hop) st callers)
          end
      end
  end.

(** src/crates/weave-graph-mcp/src/trace_calls.rs:186-199 [incoming_chain] *)
Definition incoming_line (only : bool) (ne : Node * Edge) : option string :=
  match edge_confidence (edge_kind ne.2) (resolution_kind ne.2) with
  | Heuristic => if only then None else Some (node_line ne.1 +:+ " [heuristic]")
  | Exact => Some (node_line ne.1)
  end.

(** src/crates/weave-graph-mcp/src/trace_calls.rs:154-204 [incoming_chain]
    Every node is queued at most once, for some edge from it. *)
Definition incoming_chain (storage : S) (lookup : NodeId → option Node) (root : NodeId) (depth : N) (only : bool) :
    option (list string) :=
  (λ found : list (Node * Edge), omap (incoming_line only) found : list string) <$>
    incoming_loop (Datatypes.S (length (unwrap_or_default (all_edges storage)))) storage lookup depth
      (mkIncoming {[root]} [(root, 0%N)] []).

(** src/crates/weave-graph-mcp/src/trace_calls.rs:56-58 [weave_trace_calls_masked] *)
Definition trace_from (storage : S) (csr : CsrGraph) (args : TraceCallsArgs) (lookup : NodeId → option Node)
    (root_id : NodeId) : option string :=
  outgoing ← outgoing_chain csr lookup root_id (trace_depth args);
  incoming ← incoming_chain storage lookup root_id (trace_depth args) (precise_only args);
  Some (render_result args outgoing incoming).

(** [nodes.iter().find(|n| n.id == id).cloned()]. *)
Definition find_node (nodes : list Node) (i : NodeId) : option Node := snd <$> list_find (λ n, node_id n = i) nodes.

(** src/crates/weave-graph-mcp/src/trace_calls.rs:30-59 [weave_trace_calls_masked] *)
Definition trace_calls_masked (storage : S) (csr : CsrGraph) (args : TraceCallsArgs) (mask : Node → Node) : option string :=
  match all_nodes storage with
  | Err e => Some ("error: " +:+ storage_error_text e)
  | Ok nodes =>
      let nodes := mask <$> nodes in
      r ← resolve_symbol nodes (trace_symbol args);
      match r with
      | Err suggestions => Some (format_not_found (trace_symbol args) suggestions)
      | Ok root_id => trace_from storage csr args (find_node nodes) root_id
      end
  end.

(** src/crates/weave-graph-mcp/src/trace_calls.rs:61-95 [weave_trace_calls_unmasked] *)
Definition trace_calls_unmasked (storage : S) (csr : CsrGraph) (args : TraceCallsArgs) : option string :=
  match get_node_by_symbol storage (trace_symbol args) with
  | Ok (Some node) => trace_from storage csr args (get_node_ok storage) (node_id node)
  | _ =>
      match all_nodes storage with
      | Err e => Some ("error: " +:+ storage_error_text e)
      | Ok nodes =>
          r ← resolve_symbol nodes (trace_symbol args);
          match r with
          | Err suggestions => Some (format_not_found (trace_symbol args) suggestions)
          | Ok root_id => trace_from storage csr args (get_node_ok storage) root_id
          end
      end
  end.

(** src/crates/weave-graph-mcp/src/trace_calls.rs:18-28 [weave_trace_calls] *)
Definition weave_trace_calls (storage : S) (csr : CsrGraph) (args : TraceCallsArgs) (mask : option (Node → Node)) :
    option string :=
  match mask with
  | Some m => trace_calls_masked storage csr args m
  | None => trace_calls_unmasked storage csr args
  end.
End trace.

(** ** weave_file_api *)

(** src/crates/weave-graph-mcp/src/tools.rs:137-143 [SymbolEntry] *)
Record SymbolEntry := mkEntry {
  entry_kind : string;
  entry_symbol : string;
  entry_span : string;
  entry_signature : string;
}.

(** src/crates/weave-graph-mcp/src/tools.rs:146-153 [SymbolEntry::from_node] *)
Definition entry_of_node (n : Node) : SymbolEntry :=
  mkEntry (node_kind n) (node_symbol n) ("L" +:+ dec (node_line_start n) +:+ "-" +:+ dec (node_line_end n)) (node_signature n).

(** src/crates/weave-graph-mcp/src/tools.rs:158-161 [WiringCard] *)
Record WiringCard := mkCard { card_path : string; card_symbols : list SymbolEntry }.

Definition opt_mask (mask : option (Node → Node)) : Node → Node := default (λ n, n) mask.

(** src/crates/weave-graph-mcp/src/file_api.rs:16-47 [weave_file_api] *)
Definition weave_file_api {S} `{Storage S} (storage : S) (paths : list string) (mask : option (Node → Node)) : list WiringCard :=
  match all_nodes storage with
  | Err _ => []
  | Ok all_nodes =>
      (λ path, mkCard path (sort_by (λ a b, String.leb (entry_span a) (entry_span b))
         ((λ n, entry_of_node (opt_mask mask n)) <$> filter (λ n, node_path n = path) all_nodes))) <$> paths
  end.

(** src/crates/weave-graph-mcp/src/file_api.rs:55-64 [render_cards] *)
Definition cards_full (cards : list WiringCard) : string :=
  String.concat "" ((λ c, card_path c +:+ ":" +:+ newline +:+
    String.concat "" ((λ s, "  " +:+ entry_symbol s +:+ " [" +:+ entry_kind s +:+ "] " +:+ entry_span s +:+ newline) <$> card_symbols c)) <$> cards).

(** src/crates/weave-graph-mcp/src/file_api.rs:65-73 [render_cards] *)
Definition cards_names (cards : list WiringCard) : string :=
  String.concat "" ((λ c, card_path c +:+ ": " +:+ join ", " (entry_symbol <$> card_symbols c) +:+ newline) <$> cards).

(** src/crates/weave-graph-mcp/src/file_api.rs:74-79 [render_cards] *)
Definition cards_counts (cards : list WiringCard) : string :=
  String.concat "" ((λ c, card_path c +:+ ": " +:+ decn (length (card_symbols c)) +:+ " symbols" +:+ newline) <$> cards).

(** src/crates/weave-graph-mcp/src/file_api.rs:54-91 [render_cards] *)
Definition render_cards (cards : list WiringCard) (max_tokens : option nat) : string :=
  match max_tokens with
  | None => cards_full cards
  | Some max =>
      if estimate_tokens (cards_full cards) <=? max then cards_full cards
      else if estimate_tokens (cards_names cards) <=? max then cards_names cards
      else cards_counts cards
  end.

(** ** weave_repo_map *)

(** src/crates/weave-graph-mcp/src/tools.rs:5-19 [RepoMapArgs] *)
Record RepoMapArgs := mkRepoArgs {
  max_files : nat;
  by_modules : option bool;
  repo_max_tokens : option nat;
}.

Section repo_map.
Context `{HashOrder} (rounds : nat).

(** src/crates/weave-graph-mcp/src/repo_map.rs:42-49 [weave_repo_map]
    Outbound edges and symbols of each file. *)
Definition file_totals (csr : CsrGraph) (nodes : list Node) : option (gmap string nat * gmap string nat) :=
  foldlM (λ st n,
    out ← outbound csr (node_id n);
    Some (add_count st.1 (node_path n) (length out), add_count st.2 (node_path n) 1)) nodes (∅, ∅).

(** src/crates/weave-graph-mcp/src/repo_map.rs:51-56 [weave_repo_map] *)
Definition ranked_files (degree symbols : gmap string nat) : list (string * nat * nat) :=
  sort_by (λ a b, if decide (a.1.2 = b.1.2) then String.leb a.1.1 b.1.1 else b.1.2 <=? a.1.2)
    ((λ '(path, deg), (path, deg, default 0 (symbols !! path))) <$> hm_iter degree).

Definition file_map_line (f : string * nat * nat) : string :=
  "  " +:+ f.1.1 +:+ "  [" +:+ decn f.2 +:+ " symbols, " +:+ decn f.1.2 +:+ " edges]".

Definition file_map_text (files total : nat) (lines : list string) : string :=
  "repo map (" +:+ decn files +:+ " files, " +:+ decn total +:+ " total):" +:+ newline +:+ join newline lines.

(** src/crates/weave-graph-mcp/src/repo_map.rs:71-91 [weave_repo_map]
    Lines are kept while the whole answer fits. *)
Fixpoint fit_lines (limit max total : nat) (kept lines : list string) : list string :=
  match lines with
  | [] => kept
  | line :: lines =>
      if limit <=? length kept then kept else
      let candidate := kept ++ [line] in
      if max <? estimate_tokens (file_map_text (length candidate) total candidate) then kept
      else fit_lines limit max total candidate lines
  end.

(** src/crates/weave-graph-mcp/src/repo_map.rs:114-170 [module_map]
    The weight between a module and the other files is a sum of counts. *)
Definition module_map {S} `{Storage S} (storage : S) (nodes : list Node) : option string :=
  match all_edges storage with
  | Err e => Some ("error: " +:+ storage_error_text e)
  | Ok edges =>
      let file_edges := aggregate_file_edges edges (file_of nodes) in
      modules ← build_modules rounds nodes file_edges;
      let file_symbols := foldl (λ m n, add_count m (node_path n) 1) ∅ nodes in
      let line m :=
        let members := mod_files m in
        let cross := f64_sum (snd <$> filter (λ e : string * string * f64,
          bool_decide (e.1.1 ∈ members) ≠ bool_decide (e.1.2 ∈ members)) (hm_iter file_edges)) in
        let symbols := list_sum ((λ f, default 0 (file_symbols !! f)) <$> members) in
        "  " +:+ mod_label m +:+ "  [" +:+ decn (length members) +:+ " files, " +:+ decn symbols +:+ " symbols, " +:+
        dec (f64_as_usize cross) +:+ " cross-edges]: " +:+ join ", " members in
      Some (join newline
        (("repo map (" +:+ decn (length modules) +:+ " modules, " +:+ decn (size file_symbols) +:+ " files, " +:+
          decn (list_sum (map_to_list file_symbols).*2) +:+ " symbols):") :: (line <$> modules)))
  end.

(** src/crates/weave-graph-mcp/src/repo_map.rs:19-109 [weave_repo_map] *)
Definition weave_repo_map {S} `{Storage S} (storage : S) (csr : CsrGraph) (args : RepoMapArgs)
    (mask : option (Node → Node)) : option string :=
  match all_nodes storage with
  | Err e => Some ("error: " +:+ storage_error_text e)
  | Ok nodes =>
      let nodes := opt_mask mask <$> nodes in
      if default false (by_modules args) then module_map storage nodes else
      '(degree, symbols) ← file_totals csr nodes;
      let files := ranked_files degree symbols in
      match repo_max_tokens args with
      | Some max =>
          let kept := fit_lines (max_files args) max (size symbols) [] (file_map_line <$> files) in
          Some (file_map_text (length kept) (size symbols) kept)
      | None =>
          Some (join newline
            (("repo map (" +:+ decn (length files `min` max_files args) +:+ " files, " +:+ decn (size symbols) +:+ " total):") ::
             (file_map_line <$> take (max_files args) files)))
      end
  end.
End repo_map.

(** ** weave_explore *)

(** src/crates/weave-graph-mcp/src/explore.rs:17-21 [Section] *)
Record ExploreSection := mkSection { heading : string; sec_text : string; droppable : bool }.

(** src/crates/weave-graph-mcp/src/explore.rs:23-29 [render] *)
Definition explore_render (sections : list ExploreSection) : string :=
  join (newline +:+ newline) ((λ s, "--- " +:+ heading s +:+ " ---" +:+ newline +:+ sec_text s) <$> sections).

(** src/crates/weave-graph-mcp/src/explore.rs:38-55 [source_excerpt]
    [read] is [read_to_string] below the repository root. *)
Definition source_excerpt (read : option (string → option string)) (node : Node) : option string :=
  root ← read;
  if (node_line_start node =? 0)%N || (node_line_end node <? node_line_start node)%N then None else
  content ← root (node_path node);
  let start := N.to_nat (node_line_start node) - 1 in
  let end_ := (node_line_end node `min` N.of_nat (length (lines content)))%N in
  if (end_ <=? N.of_nat start)%N then None else
  Some (join newline (take (N.to_nat end_ - start) (drop start (lines content)))).

(** src/crates/weave-graph-mcp/src/explore.rs:88-96 [with_resident_line] *)
Definition with_resident_line (text : string) (max_tokens : option nat) : string :=
  text +:+ newline +:+ newline +:+ "[explore] resident_tokens: " +:+ decn (estimate_tokens text) +:+
  match max_tokens with Some budget => " (budget: " +:+ decn budget +:+ ")" | None => "" end.

(** src/crates/weave-graph-mcp/src/explore.rs:74-78 [finish]
    The last droppable section is replaced by a note. *)
Definition omit (s : ExploreSection) : ExploreSection :=
  mkSection (heading s) "(omitted: over max_tokens budget)" false.
Fixpoint omit_last (sections : list ExploreSection) : option (list ExploreSection) :=
  match sections with
  | [] => None
  | s :: rest =>
      match omit_last rest with
      | Some rest => Some (s :: rest)
      | None => if droppable s then Some (omit s :: rest) else None
      end
  end.

(** src/crates/weave-graph-mcp/src/explore.rs:61-86 [finish]
    Each round but the last omits a section. *)
Fixpoint finish_loop (fuel : nat) (sections : list ExploreSection) (max_tokens : option nat) : option string :=
  let text := explore_render sections in
  match max_tokens with
  | None => Some (with_resident_line text None)
  | Some budget =>
      if estimate_tokens text <=? budget then Some (with_resident_line text (Some budget)) else
      match omit_last sections with
      | None => Some (with_resident_line text (Some budget))
      | Some sections =>
          match fuel with 0 => None | S fuel => finish_loop fuel sections max_tokens end
      end
  end.

(** src/crates/weave-graph-mcp/src/explore.rs:61-86 [finish] *)
Definition finish (sections : list ExploreSection) (max_tokens : option nat) : option string :=
  finish_loop (length sections) sections max_tokens.

Section explore.
Context `{HashOrder} (rounds : nat) {S : Type} `{Storage S} {B : Type} `{Bitmap B}.

(** src/crates/weave-graph-mcp/src/explore.rs:108-220 [weave_explore] *)
Definition weave_explore (storage : S) (csr : CsrGraph) (read : option (string → option string)) (symbol : option string)
    (max_tokens : option nat) (mask : option (Node → Node)) : option string :=
  match symbol with
  | None =>
      repo_map ← weave_repo_map rounds storage csr (mkRepoArgs 50 (Some true) None) mask;
      finish [mkSection "repo overview (module orientation)" repo_map false] max_tokens
  | Some symbol =>
      match all_nodes storage with
      | Err e => Some ("error: " +:+ storage_error_text e)
      | Ok nodes =>
          let masked := opt_mask mask <$> nodes in
          r ← resolve_symbol masked symbol;
          match r with
          | Err suggestions => Some (format_not_found symbol suggestions)
          | Ok target_id =>
              match find_node masked target_id with
              | None => Some ("symbol not found: " +:+ symbol)
              | Some target =>
                  let cards := weave_file_api storage [node_path target] mask in
                  trace ← weave_trace_calls (B := B) storage csr (mkTraceArgs symbol 2 None false) mask;
                  impact ← weave_impact_radius rounds symbol None (B := B) storage csr mask;
                  let excerpt := default "(unavailable — no repo root, redacted path, or file not found)"
                                   (source_excerpt read target) in
                  finish
                    [mkSection ("file API (" +:+ node_path target +:+ ")") (render_cards cards None) false;
                     mkSection "impact radius" (impact_text impact) true;
                     mkSection "call trace (depth 2)" trace true;
                     mkSection ("source excerpt (" +:+ node_path target +:+ ":L" +:+ dec (node_line_start target) +:+ "-" +:+
                                dec (node_line_end target) +:+ ")") excerpt true] max_tokens
              end
          end
      end
  end.
End explore.
