(* ===== verification/ToolsProofs.v ===== *)
(** * What the query tools answer

    The callers a trace lists, the agreement of the fast path without a mask
    with the general one, and that a masked answer depends only on what the
    mask shows. *)

From S2P Require Import Prelude Str Bitmap Model Csr Paths CsrGraph Resolve Modules Tools.

Lemma StronglySorted_snoc {A} (R : relation A) l x :
  StronglySorted R l → Forall (λ y, R y x) l → StronglySorted R (l ++ [x]).
Proof.
  induction 1 as [|y l Hs IH HF]; intros Hx; cbn; [by repeat constructor|]. apply Forall_cons in Hx as [Hy Hx].
  constructor; [by apply IH|]. apply Forall_app; split; [done|by constructor].
Qed.

Lemma StronglySorted_impl {A} (R R' : relation A) l :
  (∀ x y, x ∈ l → y ∈ l → R x y → R' x y) → StronglySorted R l → StronglySorted R' l.
Proof.
  intros HR. induction 1 as [|x l Hs IH HF]; constructor.
  - apply IH. intros y z Hy Hz. by apply HR; right.
  - rewrite Forall_forall in HF |- *. intros y Hy. apply HR; [by left|by right|auto].
Qed.

(** ** Incoming callers *)

Section incoming.
Context {S : Type} `{Storage S} (s : S) (ns : list Node) (es : list Edge) (Hview : StorageView s ns es).
Context (lookup : NodeId → option Node) (Hlookup : ∀ i, is_Some (lookup i) ↔ i ∈ node_id <$> ns).
Context (root : NodeId) (depth : N).

(** From a node to its callers. *)
Definition calls_into : relation NodeId := flip (store_edge ns es).

Definition found_id (ne : Node * Edge) : NodeId := source_id ne.2.

(** [D] holds the hop at which each stored node was seen, [P] the nodes taken
    from the queue, [lv] the hop being expanded, and [C] the calls seen so far. *)
Record incoming_ok (C : relation NodeId) (lv : N) (P : gset NodeId) (D : gmap NodeId N) (st : incoming) : Prop := {
  ic_root : D !! root = Some 0%N;
  ic_path a h : D !! a = Some h → bsteps calls_into (N.to_nat h) root a ∧ (h ≤ depth)%N ∧ a ∈ node_id <$> ns;
  ic_visited a : a ∈ in_visited st → a ∈ dom D ∨ a ∉ node_id <$> ns;
  ic_known a : a ∈ dom D → a ∈ in_visited st;
  ic_queue a h : (a, h) ∈ in_queue st → D !! a = Some h ∧ a ∉ P;
  ic_queue_nodup : NoDup (in_queue st).*1;
  ic_done a h : D !! a = Some h → a ∈ P ∨ (a, h) ∈ in_queue st;
  ic_processed a : a ∈ P → a ∈ dom D;
  ic_callers a h x : D !! a = Some h → a ∈ P → (h < depth)%N → C a x → ∃ h', D !! x = Some h' ∧ (h' ≤ h + 1)%N;
  ic_sorted : StronglySorted N.le (in_queue st).*2;
  ic_level_done a h : a ∈ P → D !! a = Some h → (h ≤ lv)%N;
  ic_level_queue a h : (a, h) ∈ in_queue st → (lv ≤ h ≤ lv + 1)%N;
  ic_found : Forall (λ ne, ne.2 ∈ es ∧ lookup (found_id ne) = Some ne.1) (in_found st);
  ic_found_dom a : a ∈ found_id <$> in_found st ↔ a ≠ root ∧ a ∈ dom D;
  ic_found_nodup : NoDup (found_id <$> in_found st);
  ic_found_sorted : StronglySorted (λ x y, ∀ h k, D !! found_id x = Some h → D !! found_id y = Some k → (h ≤ k)%N) (in_found st);
}.

Lemma ic_level C lv P D st a h : incoming_ok C lv P D st → D !! a = Some h → (h ≤ lv + 1)%N.
Proof.
  intros Hok Ha. destruct (ic_done _ _ _ _ _ Hok a h Ha) as [HP|HQ].
  - pose proof (ic_level_done _ _ _ _ _ Hok a h HP Ha). lia.
  - pose proof (ic_level_queue _ _ _ _ _ Hok a h HQ). lia.
Qed.

(** A caller seen for the first time. *)
Lemma incoming_discover C lv P D st cur x n e :
  incoming_ok C lv P D st → D !! cur = Some lv → cur ∈ P → (lv < depth)%N → calls_into cur x →
  x ∉ in_visited st → lookup x = Some n → e ∈ es → source_id e = x →
  incoming_ok C lv P (<[x := (lv + 1)%N]> D)
    (mkIncoming ({[x]} ∪ in_visited st) (in_queue st ++ [(x, (lv + 1)%N)]) (in_found st ++ [(n, e)])).
Proof.
  intros Hok Hcur HcP Hlv Hcall Hnew Hn He Hsrc.
  assert (x ∉ dom D) as HxD by (intros Hx; by apply Hnew, (ic_known _ _ _ _ _ Hok)).
  assert (∀ a h, D !! a = Some h → x ≠ a) as Hne by (intros a h Ha ->; apply HxD; by eapply elem_of_dom_2).
  assert (x ∉ P) as HxP by (intros Hx; by apply HxD, (ic_processed _ _ _ _ _ Hok)).
  split; cbn.
  - rewrite lookup_insert_ne; [apply Hok|]. eapply Hne, Hok.
  - intros a h [[<- <-]|[_ Ha]]%lookup_insert_Some; [|by apply Hok]. split_and!; [|lia|by apply Hlookup].
    rewrite N2Nat.inj_add, Nat.add_1_r. eapply bsteps_r; [|exact Hcall]. by apply (ic_path _ _ _ _ _ Hok).
  - intros a [->%elem_of_singleton|Ha]%elem_of_union; rewrite dom_insert_L; [by left; apply elem_of_union_l, elem_of_singleton|].
    destruct (ic_visited _ _ _ _ _ Hok a Ha); [left; by apply elem_of_union_r|by right].
  - intros a. rewrite dom_insert_L, !elem_of_union. intros [?|?]; [by left|right; by apply Hok].
  - intros a h [Ha|[= -> ->]%list_elem_of_singleton]%elem_of_app; [|by rewrite lookup_insert_eq].
    apply Hok in Ha as [Ha ?]. rewrite lookup_insert_ne; [done|]. by eapply Hne.
  - rewrite fmap_app. apply NoDup_app. split_and!; [apply Hok| |apply NoDup_singleton].
    intros a ([a' h] & -> & Ha)%list_elem_of_fmap Hx%list_elem_of_singleton. apply Hok in Ha as [Ha _].
    by eapply Hne.
  - intros a h [[<- <-]|[_ Ha]]%lookup_insert_Some; [right; apply elem_of_app; right; by left|].
    destruct (ic_done _ _ _ _ _ Hok a h Ha); [by left|right; apply elem_of_app; by left].
  - intros a Ha. rewrite dom_insert_L. apply elem_of_union_r. by apply Hok.
  - intros a h y [[<- <-]|[_ Ha]]%lookup_insert_Some HaP Hh Hay; [done|].
    destruct (ic_callers _ _ _ _ _ Hok a h y Ha HaP Hh Hay) as (h' & Hy & ?). exists h'. split; [|done].
    rewrite lookup_insert_ne; [done|]. by eapply Hne.
  - rewrite fmap_app. apply StronglySorted_snoc; [apply Hok|]. apply Forall_forall.
    intros h ([a h'] & -> & Ha)%list_elem_of_fmap. apply (ic_level_queue _ _ _ _ _ Hok) in Ha. cbn. lia.
  - intros a h HaP [[<- <-]|[_ Ha]]%lookup_insert_Some; [done|]. by eapply Hok.
  - intros a h [Ha|[= -> ->]%list_elem_of_singleton]%elem_of_app; [by eapply Hok|lia].
  - apply Forall_app. split; [apply Hok|]. constructor; [|constructor]. unfold found_id. cbn. by rewrite Hsrc.
  - intros a. rewrite fmap_app, elem_of_app, (ic_found_dom _ _ _ _ _ Hok). cbn. rewrite list_elem_of_singleton.
    unfold found_id. cbn. rewrite Hsrc, dom_insert_L, elem_of_union, elem_of_singleton.
    assert (x ≠ root) by (eapply Hne, Hok). naive_solver.
  - rewrite fmap_app. apply NoDup_app. split_and!; [apply Hok| |apply NoDup_singleton].
    intros a Ha ->%list_elem_of_singleton. apply (ic_found_dom _ _ _ _ _ Hok) in Ha as [_ Ha].
    unfold found_id in Ha. cbn in Ha. by rewrite Hsrc in Ha.
  - assert (∀ ne, ne ∈ in_found st → found_id ne ∈ dom D) as Hf.
    { intros ne Hne'. apply (ic_found_dom _ _ _ _ _ Hok). apply list_elem_of_fmap. by exists ne. }
    apply StronglySorted_snoc.
    + eapply StronglySorted_impl; [|apply Hok]. cbn. intros y z Hy%Hf Hz%Hf HR h k Hh Hk.
      apply elem_of_dom in Hy as [? Hy], Hz as [? Hz].
      rewrite lookup_insert_ne in Hh by (by eapply Hne). rewrite lookup_insert_ne in Hk by (by eapply Hne). eauto.
    + apply Forall_forall. intros y Hy%Hf h k Hh Hk. apply elem_of_dom in Hy as [h' Hy].
      rewrite lookup_insert_ne in Hh by (by eapply Hne). unfold found_id in Hk. cbn in Hk. rewrite Hsrc, lookup_insert_eq in Hk.
      simplify_eq. by eapply ic_level.
Qed.

Lemma ic_weaken C C' lv P D st :
  incoming_ok C lv P D st →
  (∀ a h x, D !! a = Some h → a ∈ P → (h < depth)%N → C' a x → ¬ C a x → ∃ h', D !! x = Some h' ∧ (h' ≤ h + 1)%N) →
  (∀ a x, C' a x → C a x ∨ ¬ C a x) → incoming_ok C' lv P D st.
Proof.
  intros [] HC Hdec. split; try done. intros a h x Ha HaP Hh Hax. destruct (Hdec a x Hax); eauto.
Qed.

Lemma incoming_unknown C lv P D st x :
  incoming_ok C lv P D st → x ∉ node_id <$> ns → incoming_ok C lv P D (mkIncoming ({[x]} ∪ in_visited st) (in_queue st) (in_found st)).
Proof.
  intros Hok Hx. destruct Hok. split; try done; cbn.
  - intros a [->%elem_of_singleton|Ha]%elem_of_union; [by right|auto].
  - intros a Ha. apply elem_of_union_r. auto.
Qed.

(** The calls seen once the edge [e] into [cur] is taken. *)
Definition seen_call (C : relation NodeId) (cur : NodeId) (l : list Edge) : relation NodeId :=
  λ a x, C a x ∨ (a = cur ∧ x ∈ source_id <$> l ∧ calls_into a x).

Lemma incoming_visit_ok C lv P D st cur e :
  incoming_ok C lv P D st → (∀ a x, C a x ∨ ¬ C a x) → D !! cur = Some lv → cur ∈ P → (lv < depth)%N →
  e ∈ es → target_id e = cur → cur ∈ node_id <$> ns →
  ∃ D', D ⊆ D' ∧ incoming_ok (seen_call C cur [e]) lv P D' (incoming_visit lookup lv st e).
Proof.
  intros Hok Hdec Hcur HcP Hlv He Ht Hin. unfold incoming_visit.
  assert (∀ D' st', D ⊆ D' → (source_id e ∈ node_id <$> ns → is_Some (D' !! source_id e)) →
    incoming_ok C lv P D' st' → incoming_ok (seen_call C cur [e]) lv P D' st') as Hseen.
  { intros D' st' Hsub Hsome Hok'. eapply ic_weaken; [exact Hok'| |by auto].
    intros a h x Ha HaP Hh [?|(-> & ->%list_elem_of_singleton & (Hx & _))] Hn; [done|].
    destruct (Hsome Hx) as [h' Hh']. exists h'. split; [done|].
    pose proof (ic_level _ _ _ _ _ _ _ Hok' Hh'). rewrite (lookup_weaken _ _ _ _ Hcur Hsub) in Ha. simplify_eq. lia. }
  destruct (decide (source_id e ∈ in_visited st)) as [Hv|Hv].
  { exists D. split; [done|]. apply Hseen; [done| |done]. intros Hx.
    destruct (ic_visited _ _ _ _ _ Hok _ Hv) as [?|?]; [by apply elem_of_dom|done]. }
  destruct (lookup (source_id e)) as [n|] eqn:Hn.
  - assert (source_id e ∈ node_id <$> ns) as Hx by (apply Hlookup; eauto).
    assert (source_id e ∉ dom D) as HxD by (intros ?; by apply Hv, (ic_known _ _ _ _ _ Hok)).
    exists (<[source_id e := (lv + 1)%N]> D). split; [by apply insert_subseteq, not_elem_of_dom|].
    apply Hseen; [by apply insert_subseteq, not_elem_of_dom|intros _; rewrite lookup_insert_eq; eauto|].
    eapply incoming_discover; try done. split_and!; [done..|]. by exists e.
  - exists D. split; [done|]. assert (source_id e ∉ node_id <$> ns) as Hx by (rewrite <-Hlookup, Hn; by intros [? ?]).
    apply Hseen; [done|done|]. by apply incoming_unknown.
Qed.

Lemma seen_call_dec C cur l : (∀ a x, C a x ∨ ¬ C a x) → ∀ a x, seen_call C cur l a x ∨ ¬ seen_call C cur l a x.
Proof.
  intros Hdec a x. unfold seen_call, calls_into, flip, store_edge.
  destruct (Hdec a x); [tauto|]. destruct (decide (a = cur)); [|tauto]. destruct (decide (x ∈ source_id <$> l)); [|tauto].
  destruct (decide (x ∈ node_id <$> ns)); [|tauto]. destruct (decide (a ∈ node_id <$> ns)); [|tauto].
  destruct (decide (Exists (λ e, source_id e = x ∧ target_id e = a) es)) as [He|He]; rewrite Exists_exists in He; tauto.
Qed.

Lemma incoming_visits_ok l C lv P D st cur :
  incoming_ok C lv P D st → (∀ a x, C a x ∨ ¬ C a x) → D !! cur = Some lv → cur ∈ P → (lv < depth)%N →
  Forall (λ e, e ∈ es ∧ target_id e = cur) l → cur ∈ node_id <$> ns →
  ∃ D', incoming_ok (seen_call C cur l) lv P D' (foldl (incoming_visit lookup lv) st l).
Proof.
  revert C D st. induction l as [|e l IH]; intros C D st Hok Hdec Hcur HcP Hlv HF Hin; cbn [foldl].
  { exists D. eapply ic_weaken; [exact Hok| |by auto]. intros a h x _ _ _ [?|(_ & []%elem_of_nil & _)]; done. }
  apply Forall_cons in HF as [[He Ht] HF].
  destruct (incoming_visit_ok C lv P D st cur e) as (D1 & Hsub & Hok1); [done..|].
  destruct (IH (seen_call C cur [e]) D1 (incoming_visit lookup lv st e)) as (D2 & Hok2); try done.
  { by apply seen_call_dec. } { by eapply lookup_weaken. }
  exists D2. eapply ic_weaken; [exact Hok2| |].
  - intros a h x _ _ _ Hs Hn. destruct Hn. destruct Hs as [?|(-> & Hx & ?)]; [by left; left|].
    cbn in Hx. apply elem_of_cons in Hx as [->|Hx]; [|by right]. left. right. split_and!; [done|by left|done].
  - intros a x _. apply seen_call_dec. by apply seen_call_dec.
Qed.

Lemma calls_into_dec a x : calls_into a x ∨ ¬ calls_into a x.
Proof.
  destruct (seen_call_dec (λ _ _, False) a [mkEdge 0 x 0 "" 0 None None] ltac:(tauto) a x) as [[[]|(_ & _ & ?)]|Hn]; [by left|].
  right. intros Hc. apply Hn. right. split_and!; [done|by left|done].
Qed.

(** Taking a node from the queue. *)
Lemma incoming_pop lv P D visited found cur h q :
  incoming_ok calls_into lv P D (mkIncoming visited ((cur, h) :: q) found) →
  incoming_ok (λ a x, a ≠ cur ∧ calls_into a x) h ({[cur]} ∪ P) D (mkIncoming visited q found).
Proof.
  intros []. cbn in *. destruct (ic_queue0 cur h) as [Hcur HcP]; [by left|].
  assert (lv ≤ h ≤ lv + 1)%N as Hlv by (apply (ic_level_queue0 cur h); by left).
  apply NoDup_cons in ic_queue_nodup0 as [Hnq Hq]. apply StronglySorted_inv in ic_sorted0 as [Hs HF].
  split; cbn; try done.
  - intros a k Ha. destruct (ic_queue0 a k) as [? ?]; [by right|]. split; [done|].
    intros [->%elem_of_singleton|?]%elem_of_union; [|done]. apply Hnq. apply list_elem_of_fmap. by exists (cur, k).
  - intros a k Ha. destruct (ic_done0 a k Ha) as [?|Hq']; [left; by apply elem_of_union_r|].
    apply elem_of_cons in Hq' as [[= -> ->]|?]; [left; by apply elem_of_union_l, elem_of_singleton|by right].
  - intros a [->%elem_of_singleton|?]%elem_of_union; [by eapply elem_of_dom_2|auto].
  - intros a k x Ha [->%elem_of_singleton|HaP]%elem_of_union Hk [Hne Hc]; [done|eauto].
  - intros a k [->%elem_of_singleton|HaP]%elem_of_union Ha; [by simplify_eq|]. specialize (ic_level_done0 a k HaP Ha). lia.
  - intros a k Ha. assert (lv ≤ k ≤ lv + 1)%N by (apply (ic_level_queue0 a k); by right).
    rewrite Forall_forall in HF. assert (h ≤ k)%N; [|lia]. apply HF, list_elem_of_fmap. by exists (a, k).
Qed.

Lemma dom_bound C lv P D st : incoming_ok C lv P D st → size (dom D) ≤ Datatypes.S (length es).
Proof.
  intros Hok. transitivity (size (list_to_set (root :: (source_id <$> es)) : gset NodeId)).
  - apply subseteq_size. intros a Ha. apply elem_of_list_to_set. destruct (decide (a = root)) as [->|]; [by left|]. right.
    assert (a ∈ found_id <$> in_found st) as Hf by (by apply (ic_found_dom _ _ _ _ _ Hok)).
    apply list_elem_of_fmap in Hf as (ne & -> & Hne). pose proof (ic_found _ _ _ _ _ Hok) as HF. rewrite Forall_forall in HF.
    destruct (HF _ Hne) as [? _]. apply list_elem_of_fmap. by exists ne.2.
  - etrans; [apply size_list_to_set_le|]. cbn. by rewrite length_fmap.
Qed.

Lemma incoming_loop_ok fuel lv P D st :
  incoming_ok calls_into lv P D st → fuel + size P = Datatypes.S (length es) →
  ∃ lv' P' D' st', incoming_loop fuel s lookup depth st = Some (in_found st') ∧ in_queue st' = [] ∧
    incoming_ok calls_into lv' P' D' st'.
Proof.
  revert lv P D st. induction fuel as [|fuel IH]; intros lv P D [visited [|[cur h] q] found] Hok Hf;
    try (by exists lv, P, D, (mkIncoming visited [] found)).
  - exfalso. destruct (ic_queue _ _ _ _ _ Hok cur h) as [Hcur HcP]; [by left|].
    pose proof (dom_bound _ _ _ _ _ Hok) as Hb. assert (size ({[cur]} ∪ P) ≤ size (dom D)) as Hs.
    { apply subseteq_size. intros a [->%elem_of_singleton|?]%elem_of_union; [by eapply elem_of_dom_2|by apply Hok]. }
    rewrite size_union, size_singleton in Hs; [lia|]. intros a ->%elem_of_singleton. done.
  - destruct (ic_queue _ _ _ _ _ Hok cur h) as [Hcur HcP]; [by left|].
    pose proof (incoming_pop _ _ _ _ _ _ _ _ Hok) as Hpop.
    assert (fuel + size ({[cur]} ∪ P) = Datatypes.S (length es)) as Hfuel.
    { rewrite size_union, size_singleton; [lia|]. intros a ->%elem_of_singleton. done. }
    cbn [incoming_loop in_queue in_visited in_found]. destruct (N.leb_spec depth h) as [Hle|Hlt].
    + eapply IH; [|exact Hfuel]. eapply ic_weaken; [exact Hpop| |].
      * intros a k x Ha HaP Hk Hc Hn. destruct (decide (a = cur)) as [->|]; [|tauto]. simplify_eq. lia.
      * intros a x Hc. destruct (decide (a = cur)); tauto.
    + destruct (view_get_callers _ _ _ Hview cur) as (l & -> & Hl).
      assert (∀ a x, (a ≠ cur ∧ calls_into a x) ∨ ¬ (a ≠ cur ∧ calls_into a x)) as Hdec.
      { intros a x. destruct (decide (a = cur)); [tauto|]. destruct (calls_into_dec a x); tauto. }
      destruct (incoming_visits_ok l _ _ _ _ _ cur Hpop Hdec Hcur) as (D' & Hok'); [by apply elem_of_union_l, elem_of_singleton|done| | |].
      { rewrite Hl. apply Forall_forall. intros e [Ht He]%list_elem_of_filter. done. }
      { by apply (ic_path _ _ _ _ _ Hok) in Hcur as (_ & _ & ?). }
      eapply IH; [|exact Hfuel]. eapply ic_weaken; [exact Hok'| |intros a x _; by apply seen_call_dec].
      intros a k x _ _ _ Hc Hn. destruct Hn. destruct (decide (a = cur)) as [->|]; [right|by left].
      split_and!; [done| |done]. destruct Hc as (_ & _ & e & He & <- & Ht). apply list_elem_of_fmap. exists e. split; [done|].
      rewrite Hl. by apply list_elem_of_filter.
Qed.

Lemma incoming_complete lv P D st : incoming_ok calls_into lv P D st → in_queue st = [] →
  ∀ k b h a, bsteps calls_into k b a → D !! b = Some h → (h + N.of_nat k ≤ depth)%N →
  ∃ h', D !! a = Some h' ∧ (h' ≤ h + N.of_nat k)%N.
Proof.
  intros Hok Hq k b h a Hs. revert h. induction Hs as [k b|k b c a Hbc _ IH]; intros h Hb Hk; [exists h; split; [done|lia]|].
  destruct (ic_callers _ _ _ _ _ Hok b h c Hb) as (h1 & Hc & Hle); [|lia|done|].
  { destruct (ic_done _ _ _ _ _ Hok b h Hb) as [?|Hin]; [done|]. rewrite Hq in Hin. by apply elem_of_nil in Hin. }
  destruct (IH h1 Hc) as (h' & Ha & ?); [lia|]. exists h'. split; [done|lia].
Qed.

Lemma incoming_start : root ∈ node_id <$> ns →
  incoming_ok calls_into 0 ∅ {[root := 0%N]} (mkIncoming {[root]} [(root, 0%N)] []).
Proof.
  intros Hroot. split; cbn.
  - by rewrite lookup_singleton_eq.
  - intros a h [<- <-]%lookup_singleton_Some. split_and!; [apply bsteps_refl|lia|done].
  - intros a ->%elem_of_singleton. left. by rewrite dom_singleton_L, elem_of_singleton.
  - intros a. by rewrite dom_singleton_L.
  - intros a h [= -> ->]%list_elem_of_singleton. by rewrite lookup_singleton_eq.
  - apply NoDup_singleton.
  - intros a h [<- <-]%lookup_singleton_Some. right. by left.
  - by intros a ?%elem_of_empty.
  - by intros a h x _ ?%elem_of_empty.
  - repeat constructor.
  - by intros a h ?%elem_of_empty.
  - intros a h [= -> ->]%list_elem_of_singleton. lia.
  - done.
  - intros a. rewrite dom_singleton_L, elem_of_singleton, elem_of_nil. tauto.
  - constructor.
  - constructor.
Qed.

Lemma incoming_spec : root ∈ node_id <$> ns →
  ∃ found, incoming_loop (Datatypes.S (length es)) s lookup depth (mkIncoming {[root]} [(root, 0%N)] []) = Some found ∧
    NoDup (found_id <$> found) ∧
    (∀ a, a ∈ found_id <$> found ↔ a ≠ root ∧ bsteps calls_into (N.to_nat depth) root a) ∧
    Forall (λ ne, ne.2 ∈ es ∧ lookup (found_id ne) = Some ne.1) found ∧
    StronglySorted (λ x y, ∀ k, bsteps calls_into k root (found_id y) → bsteps calls_into k root (found_id x)) found.
Proof.
  intros Hroot. destruct (incoming_loop_ok (Datatypes.S (length es)) 0 ∅ _ _ (incoming_start Hroot)) as (lv & P & D & st & Hl & Hq & Hok).
  { rewrite size_empty. lia. }
  exists (in_found st). pose proof (incoming_complete _ _ _ _ Hok Hq) as Hc. split_and!; [done|apply Hok| |apply Hok|].
  - intros a. rewrite (ic_found_dom _ _ _ _ _ Hok), elem_of_dom. f_equiv. split.
    + intros [h Hh]. apply (ic_path _ _ _ _ _ Hok) in Hh as (? & ? & _). eapply bsteps_weaken; [|done]. lia.
    + intros Hb. edestruct (Hc _ _ 0%N _ Hb) as (h & ? & _); [apply Hok|lia|eauto].
  - eapply StronglySorted_impl; [|apply Hok]. cbn. intros x y Hx Hy Hxy k Hk.
    assert (∀ z, z ∈ in_found st → is_Some (D !! found_id z)) as Hd.
    { intros z Hz. apply elem_of_dom, (ic_found_dom _ _ _ _ _ Hok), list_elem_of_fmap. by exists z. }
    destruct (Hd x Hx) as [h Hh], (Hd y Hy) as [h' Hh']. specialize (Hxy _ _ Hh Hh').
    apply (ic_path _ _ _ _ _ Hok) in Hh as (Hb & Hle & _). eapply bsteps_weaken; [|exact Hb].
    destruct (decide (N.of_nat k ≤ depth)%N); [|lia].
    edestruct (Hc _ _ 0%N _ Hk) as (h2 & Hh2 & ?); [apply Hok|lia|]. simplify_eq. lia.
Qed.
End incoming.

(** The incoming side of a call trace is exact.  For a stored root, the
    search ends and lists every stored caller within the given number of hops,
    each once and the root not, with an edge it calls by, the closest first;
    so what a token budget cuts off is the farthest. *)
Theorem trace_incoming_exact {S} `{Storage S} (s : S) ns es lookup root depth only
    (Hview : StorageView s ns es) (Hlookup : ∀ i, is_Some (lookup i) ↔ i ∈ node_id <$> ns)
    (Hroot : root ∈ node_id <$> ns) :
  ∃ found, incoming_chain s lookup root depth only = Some (omap (incoming_line only) found) ∧
    NoDup (found_id <$> found) ∧
    (∀ a, a ∈ found_id <$> found ↔ a ≠ root ∧ bsteps (store_edge ns es) (N.to_nat depth) a root) ∧
    Forall (λ ne, ne.2 ∈ es ∧ lookup (found_id ne) = Some ne.1) found ∧
    StronglySorted (λ x y, ∀ k, bsteps (store_edge ns es) k (found_id y) root → bsteps (store_edge ns es) k (found_id x) root) found.
Proof.
  destruct (incoming_spec s ns es Hview lookup Hlookup root depth Hroot) as (found & Hl & Hnd & Hall & HF & Hs).
  exists found. unfold incoming_chain. rewrite (view_edges _ _ _ Hview). cbn [unwrap_or_default]. rewrite Hl.
  split_and!; [done..| |done|].
  - intros a. by rewrite (bsteps_flip (store_edge ns es)).
  - eapply StronglySorted_impl; [|exact Hs]. cbn. intros x y _ _ Hxy k.
    rewrite !(bsteps_flip (store_edge ns es)). apply Hxy.
Qed.

(** ** The fast path without a mask *)

Section agree.
Context `{HashOrder} {B : Type} `{BitmapLaws B} {S : Type} `{Storage S}.
Context (s : S) (ns : list Node) (es : list Edge) (Hview : StorageView s ns es).
Context (g : CsrGraph) (Hg : graph_rep g (node_id <$> ns) (store_edge ns es)).

Lemma get_node_find i : get_node_ok s i = find_node ns i.
Proof. unfold get_node_ok, find_node. rewrite (view_get_node _ _ _ Hview). by destruct (list_find _ ns) as [[? ?]|]. Qed.

Lemma find_node_lookup k n : ns !! k = Some n → find_node ns (node_id n) = Some n.
Proof.
  intros Hk. pose proof (view_ids _ _ _ Hview) as Hs. unfold find_node.
  assert (list_find (λ m, node_id m = node_id n) ns = Some (k, n)) as ->; [|done].
  apply list_find_Some. split_and!; [done|done|]. intros j m Hj Hlt He.
  assert (j = k); [|lia].
  eapply (StronglySorted_lookup_inj _ j k (node_id n) Hs); rewrite list_lookup_fmap; [by rewrite Hj; cbn; rewrite He|by rewrite Hk].
Qed.

(** Reading the reached indices in the node list, or node by node. *)
Lemma impacted_agree root (l : list N) :
  omap (get_node_ok s) (filter (λ i, i ≠ root) (omap (id_of_index g) l)) =
  filter (λ n, node_id n ≠ root) (omap (λ idx, ns !! as_usize idx) l).
Proof.
  induction l as [|x l IH]; [done|]. cbn [omap list_omap]. unfold id_of_index at 1. rewrite (gr_ids _ _ _ Hg), list_lookup_fmap.
  destruct (ns !! as_usize x) as [n|] eqn:Hx; cbn [fmap option_fmap option_map]; [|exact IH].
  rewrite !filter_cons. case_decide; [|exact IH]. cbn [omap list_omap].
  rewrite get_node_find, (find_node_lookup _ _ Hx). f_equal. exact IH.
Qed.

Lemma resolve_exact sym n :
  list_find (λ n, node_symbol n = sym) ns = Some n → resolve_symbol ns sym = Some (Ok (node_id n.2)).
Proof. intros Hf. unfold resolve_symbol, exact_match. by rewrite Hf. Qed.

(** Whatever is done with the root, the fast lookup and the resolution over all
    nodes lead to the same one. *)
Lemma root_agree {A} sym (k : NodeId → option A) (nf : list string → A) (er : StorageError → A) :
  get_node_by_symbol s sym = Ok (snd <$> list_find (λ n, node_symbol n = sym) ns) →
  match get_node_by_symbol s sym with
  | Ok (Some node) => k (node_id node)
  | _ =>
      match all_nodes s with
      | Err e => Some (er e)
      | Ok nodes =>
          r ← resolve_symbol nodes sym;
          match r with Err suggestions => Some (nf suggestions) | Ok root_id => k root_id end
      end
  end =
  (r ← resolve_symbol ns sym; match r with Err suggestions => Some (nf suggestions) | Ok root_id => k root_id end).
Proof.
  intros ->. destruct (list_find _ ns) as [n|] eqn:Hf; cbn [fmap option_fmap option_map].
  - by rewrite (resolve_exact _ _ Hf).
  - by rewrite (view_nodes _ _ _ Hview).
Qed.

Lemma impact_agree rounds sym max_tokens :
  get_node_by_symbol s sym = Ok (snd <$> list_find (λ n, node_symbol n = sym) ns) →
  impact_radius_unmasked rounds sym max_tokens (B := B) s g = impact_radius_masked rounds sym max_tokens (B := B) s g (λ n, n).
Proof.
  intros Hfirst. unfold impact_radius_unmasked, impact_radius_masked.
  rewrite (root_agree sym (impact_from rounds sym max_tokens s g) (λ suggestions, mkImpact 0 (format_not_found sym suggestions))
    (λ e, mkImpact 0 ("error: " +:+ storage_error_text e)) Hfirst).
  rewrite (view_nodes _ _ _ Hview), list_fmap_id. destruct (resolve_symbol ns sym) as [[root|]|]; [|done..].
  cbn [mbind option_bind]. unfold impact_from. destruct (reachable_within g root u32_MAX) as [reached|]; [|done]. cbn [mbind option_bind].
  by rewrite impacted_agree, (view_nodes _ _ _ Hview).
Qed.

Lemma outgoing_chain_ext lookup lookup' from depth :
  (∀ i, lookup i = lookup' i) → outgoing_chain (B := B) g lookup from depth = outgoing_chain (B := B) g lookup' from depth.
Proof.
  intros He. unfold outgoing_chain. destruct (reachable_within g from depth); [|done]. cbn [mbind option_bind].
  assert (∀ l : list NodeId, omap lookup l = omap lookup' l) as ->; [|done].
  intros l. induction l as [|x l IH]; [done|]. cbn [omap list_omap]. by rewrite He, IH.
Qed.

Lemma incoming_loop_ext lookup lookup' depth fuel st :
  (∀ i, lookup i = lookup' i) → incoming_loop fuel s lookup depth st = incoming_loop fuel s lookup' depth st.
Proof.
  intros He. revert st. induction fuel as [|fuel IH]; intros [v [|[c h] q] f]; cbn; [done..|].
  destruct (depth <=? h)%N; [apply IH|]. destruct (get_callers s c) as [l|]; [|apply IH].
  rewrite IH. f_equal. generalize (mkIncoming v q f) as st. clear IH.
  induction l as [|e l IH]; intros st; [done|]. cbn [foldl]. unfold incoming_visit at 2 4. by rewrite He, IH.
Qed.

Lemma trace_from_ext args lookup lookup' root :
  (∀ i, lookup i = lookup' i) → trace_from (B := B) s g args lookup root = trace_from (B := B) s g args lookup' root.
Proof.
  intros He. unfold trace_from, incoming_chain. by rewrite (outgoing_chain_ext _ _ _ _ He), (incoming_loop_ext _ _ _ _ _ He).
Qed.

Lemma trace_agree args :
  get_node_by_symbol s (trace_symbol args) = Ok (snd <$> list_find (λ n, node_symbol n = trace_symbol args) ns) →
  trace_calls_unmasked (B := B) s g args = trace_calls_masked (B := B) s g args (λ n, n).
Proof.
  intros Hfirst. unfold trace_calls_unmasked, trace_calls_masked.
  rewrite (root_agree _ _ (format_not_found (trace_symbol args)) (λ e, "error: " +:+ storage_error_text e) Hfirst).
  rewrite (view_nodes _ _ _ Hview), list_fmap_id. destruct (resolve_symbol ns _) as [[root|]|]; [|done..].
  cbn [mbind option_bind]. apply trace_from_ext, get_node_find.
Qed.
End agree.

(** ** Reaching without a bound *)

Section simple_paths.
Context {A : Type} `{EqDecision A} (R : relation A).

Lemma chain_suffix p1 : ∀ z p x p2, chain R z p → z :: p = p1 ++ x :: p2 → chain R x p2 ∧ last (z :: p) = last (x :: p2).
Proof.
  induction p1 as [|a p1 IH]; intros z p x p2 Hc He; cbn in He; injection He as He He'; [by subst|].
  destruct p as [|b p]; [by destruct p1|]. destruct Hc as [_ Hc]. destruct (IH b p x p2 Hc He') as [? <-]. done.
Qed.

Lemma rtc_simple x y : rtc R x y → ∃ p, chain R x p ∧ last (x :: p) = Some y ∧ NoDup (x :: p).
Proof.
  induction 1 as [x|x z y Hxz _ (p & Hc & Hl & Hnd)].
  { exists []. split_and!; [done..|apply NoDup_singleton]. }
  destruct (decide (x ∈ z :: p)) as [Hin|Hin].
  - apply list_elem_of_split in Hin as (p1 & p2 & He). destruct (chain_suffix p1 z p x p2 Hc He) as [Hc' Hl'].
    exists p2. split_and!; [done|by rewrite <-Hl'|]. rewrite He in Hnd. by apply NoDup_app in Hnd as (_ & _ & ?).
  - exists (z :: p). split_and!; [done|done|by constructor].
Qed.

Lemma chain_mem (P : A → Prop) x p : (∀ a b, R a b → P b) → chain R x p → Forall P p.
Proof. intros HR. revert x. induction p as [|y p IH]; intros x; [constructor|]. intros [Hxy Hc]. constructor; eauto. Qed.

Lemma rtc_bounded (l : list A) n x y :
  (∀ a b, R a b → b ∈ l) → length l ≤ n → rtc R x y → bsteps R n x y.
Proof.
  intros HR Hn (p & Hc & Hl & Hnd)%rtc_simple. pose proof (chain_bsteps R x p Hc) as Hb.
  assert (default x (last p) = y) as He by (destruct p as [|z p]; [by cbn in *; simplify_eq|]; change (last (z :: p) = Some y) in Hl; by rewrite Hl).
  rewrite He in Hb. eapply bsteps_weaken; [|exact Hb]. etrans; [|exact Hn]. apply submseteq_length, NoDup_submseteq.
  - by apply NoDup_cons in Hnd as [_ ?].
  - intros z Hz. pose proof (chain_mem (.∈ l) x p HR Hc) as HF. rewrite Forall_forall in HF. auto.
Qed.
End simple_paths.

Lemma impacted_exact {B} `{BitmapLaws B} {S} `{Storage S} (s : S) ns es g root :
  StorageView s ns es → graph_rep g (node_id <$> ns) (store_edge ns es) → (N.of_nat (length ns) ≤ u32_MAX)%N →
  ∃ reached : B, reachable_within g root u32_MAX = Some reached ∧
    let impacted := filter (λ n, node_id n ≠ root) (omap (λ idx, ns !! as_usize idx) (bm_iter reached)) in
    NoDup impacted ∧
    ∀ n, n ∈ impacted ↔ n ∈ ns ∧ node_id n ≠ root ∧ rtc (store_edge ns es) root (node_id n).
Proof.
  intros Hview Hg Hsmall. destruct (reachable_within_rep (B := B) Hg root u32_MAX) as (b & Hb & Hspec).
  exists b. split; [done|]. intros impacted. split.
  - apply NoDup_filter. pose proof (view_ids _ _ _ Hview) as Hs.
    pose proof (omap_index_sorted (node_id <$> ns) (bm_iter b) Hs (bm_iter_sorted b)) as Hi.
    apply (NoDup_fmap_1 node_id).
    assert (node_id <$> omap (λ idx, ns !! as_usize idx) (bm_iter b) = omap (λ i, (node_id <$> ns) !! as_usize i) (bm_iter b)) as ->.
    { clear. induction (bm_iter b) as [|x l IH]; [done|]. cbn [omap list_omap]. rewrite list_lookup_fmap.
      destruct (ns !! as_usize x); [|exact IH]. cbn. by rewrite <-IH. }
    eapply (strict_sorted_NoDup N.leb), StronglySorted_impl; [|exact Hi].
    intros x y _ _ Hxy. split; [apply N.leb_le|]; lia.
  - intros n. unfold impacted. rewrite list_elem_of_filter, list_elem_of_omap.
    setoid_rewrite bm_iter_spec. setoid_rewrite Hspec. split.
    + intros (Hne & x & (y & Hy & _ & Hr) & Hx). rewrite list_lookup_fmap, Hx in Hy. cbn in Hy. simplify_eq.
      split_and!; [by eapply list_elem_of_lookup_2|done|by eapply rtc_bsteps_2].
    + intros ((i & Hi)%list_elem_of_lookup & Hne & Hr). split; [done|]. exists (N.of_nat i). unfold as_usize. rewrite Nat2N.id.
      split; [|done]. exists (node_id n). rewrite list_lookup_fmap, Hi. split_and!; [done| |].
      * apply rtc_inv in Hr as [He|(z & (? & _) & _)]; [by destruct Hne|done].
      * apply (rtc_bounded _ (node_id <$> ns)); [by intros a c (_ & ? & _)|rewrite length_fmap; lia|done].
Qed.

(** [weave_impact_radius] reports exactly the blast radius.  For a symbol
    that resolves to [root], the answer is rendered from the stored nodes other
    than [root] that are reachable from it, each once; and the fast path without
    a mask answers what the general path answers with the identity mask, for the
    trace of calls too, provided the store's symbol lookup returns the first
    match. *)
Theorem impact_radius_exact `{HashOrder} {B} `{BitmapLaws B} {S} `{Storage S} (s : S) ns es rounds sym root max_tokens args
    (Hview : StorageView s ns es) (Hsmall : (N.of_nat (length ns) ≤ u32_MAX)%N)
    (Hfirst : ∀ sym, get_node_by_symbol s sym = Ok (snd <$> list_find (λ n, node_symbol n = sym) ns))
    (Hres : resolve_symbol ns sym = Some (Ok root)) :
  ∃ g impacted, load s = Some (Ok g) ∧
    impact_radius_unmasked rounds sym max_tokens (B := B) s g = impact_render rounds sym max_tokens impacted (λ _, (ns, es)) ∧
    NoDup impacted ∧
    (∀ n, n ∈ impacted ↔ n ∈ ns ∧ node_id n ≠ root ∧ rtc (store_edge ns es) root (node_id n)) ∧
    impact_radius_masked rounds sym max_tokens (B := B) s g (λ n, n) = impact_radius_unmasked rounds sym max_tokens (B := B) s g ∧
    trace_calls_masked (B := B) s g args (λ n, n) = trace_calls_unmasked (B := B) s g args.
Proof.
  destruct (load_rep s ns es Hview Hsmall) as (g & Hl & Hg).
  destruct (impacted_exact (B := B) s ns es g root Hview Hg Hsmall) as (b & Hb & Hnd & Hall).
  exists g. eexists. split_and!; [done| |exact Hnd|exact Hall| |].
  - rewrite (impact_agree s ns es Hview g Hg) by apply Hfirst. unfold impact_radius_masked.
    rewrite (view_nodes _ _ _ Hview), list_fmap_id, Hres. cbn [mbind option_bind]. rewrite Hb. cbn [mbind option_bind].
    by rewrite (view_edges _ _ _ Hview).
  - symmetry. by apply (impact_agree s ns es Hview g Hg).
  - symmetry. by apply (trace_agree s ns es Hview g).
Qed.

(** ** A masked answer depends only on what the mask shows *)

Section hidden.
Context `{HashOrder} {B : Type} `{Bitmap B} {S : Type} `{Storage S}.
Context (mask : Node → Node) (Hid : ∀ n, node_id (mask n) = node_id n).
Context (s s' : S) (ns ns' : list Node) (es : list Edge).
Context (Hview : StorageView s ns es) (Hview' : StorageView s' ns' es).
Context (Hmask : mask <$> ns = mask <$> ns') (Hcallers : ∀ i, get_callers s i = get_callers s' i).

Lemma load_masked : load s = load s'.
Proof.
  unfold load. rewrite !(view_for_each_node _ _ _ Hview), !(view_for_each_node _ _ _ Hview'), !foldl_snoc_map. cbn [app].
  assert (node_id <$> ns = node_id <$> ns') as ->.
  { erewrite <-(list_fmap_ext (node_id ∘ mask) node_id ns), <-(list_fmap_ext (node_id ∘ mask) node_id ns') by (intros; apply Hid).
    by rewrite !list_fmap_compose, Hmask. }
  by rewrite (view_for_each_edge _ _ _ Hview), (view_for_each_edge _ _ _ Hview').
Qed.

Lemma impact_masked_eq rounds sym max_tokens g :
  impact_radius_masked rounds sym max_tokens (B := B) s g mask = impact_radius_masked rounds sym max_tokens (B := B) s' g mask.
Proof.
  unfold impact_radius_masked.
  by rewrite (view_nodes _ _ _ Hview), (view_nodes _ _ _ Hview'), (view_edges _ _ _ Hview), (view_edges _ _ _ Hview'), Hmask.
Qed.

Lemma incoming_masked_eq fuel lookup depth st :
  incoming_loop fuel s lookup depth st = incoming_loop fuel s' lookup depth st.
Proof.
  revert st. induction fuel as [|fuel IH]; intros [v [|[c h] q] f]; cbn; [done..|].
  rewrite Hcallers. destruct (depth <=? h)%N; [apply IH|]. destruct (get_callers s' c); apply IH.
Qed.

Lemma trace_masked_eq g args : trace_calls_masked (B := B) s g args mask = trace_calls_masked (B := B) s' g args mask.
Proof.
  unfold trace_calls_masked, trace_from, incoming_chain.
  rewrite (view_nodes _ _ _ Hview), (view_nodes _ _ _ Hview'), (view_edges _ _ _ Hview), (view_edges _ _ _ Hview'), Hmask.
  destruct (resolve_symbol _ _) as [[root|]|]; [|done..]. cbn [mbind option_bind]. by rewrite incoming_masked_eq.
Qed.

Lemma repo_map_masked_eq rounds g args :
  weave_repo_map rounds s g args (Some mask) = weave_repo_map rounds s' g args (Some mask).
Proof.
  unfold weave_repo_map, module_map. change (opt_mask (Some mask)) with mask.
  by rewrite (view_nodes _ _ _ Hview), (view_nodes _ _ _ Hview'), (view_edges _ _ _ Hview), (view_edges _ _ _ Hview'), Hmask.
Qed.
End hidden.

(** ** Examples *)

Definition tool_node (i : N) (symbol : string) : Node := mkNode i "local" "p.rs" symbol "fn" i i "".
Definition tool_edge (i a b : N) (kind : string) : Edge := mkEdge i a b kind 0 None None.

(** [d -> a -> b -> root] and [c -> root], listed far callers first. *)
Definition tool_store : mem_store :=
  ([tool_node 1 "a"; tool_node 2 "b"; tool_node 3 "c"; tool_node 4 "root"; tool_node 5 "d"],
   [tool_edge 1 5 1 "CALLS_EXACT"; tool_edge 2 1 2 "CALLS_EXACT"; tool_edge 3 2 4 "CALLS_EXACT"; tool_edge 4 3 4 "CALLS_DYNAMIC"]%N).

Lemma tool_store_view : StorageView tool_store tool_store.1 tool_store.2.
Proof. apply mem_store_view. repeat constructor; cbn; lia. Qed.

Lemma tool_store_nodes i : is_Some (find_node tool_store.1 i) ↔ i ∈ node_id <$> tool_store.1.
Proof.
  unfold find_node. rewrite fmap_is_Some. split.
  - intros [[k n] (Hn & <- & _)%list_find_Some]. apply list_elem_of_fmap. exists n. split; [done|]. by eapply list_elem_of_lookup_2.
  - intros (n & -> & Hn)%list_elem_of_fmap. by eapply list_find_elem_of.
Qed.

Lemma trace_incoming_exact_witness :
  ∃ found, incoming_chain tool_store (find_node tool_store.1) 4 2 false = Some (omap (incoming_line false) found) ∧
    ∀ a, a ∈ found_id <$> found ↔ a ≠ 4%N ∧ bsteps (store_edge tool_store.1 tool_store.2) 2 a 4%N.
Proof.
  destruct (trace_incoming_exact tool_store tool_store.1 tool_store.2 (find_node tool_store.1) 4 2 false tool_store_view
    tool_store_nodes ltac:(by do 3 right; left)) as (found & Hc & _ & Hall & _). by exists found.
Defined.

Example trace_two_hops : incoming_chain tool_store (find_node tool_store.1) 4 2 false =
  Some ["b (p.rs:2)"; "c (p.rs:3) [heuristic]"; "a (p.rs:1)"].
Proof. reflexivity. Qed.

Lemma impact_radius_exact_witness :
  ∃ g impacted, load tool_store = Some (Ok g) ∧
    impact_radius_unmasked 9 "d" None (B := gset N) tool_store g = impact_render 9 "d" None impacted (λ _, (tool_store.1, tool_store.2)) ∧
    ∀ n, n ∈ impacted ↔ n ∈ tool_store.1 ∧ node_id n ≠ 5%N ∧ rtc (store_edge tool_store.1 tool_store.2) 5%N (node_id n).
Proof.
  destruct (impact_radius_exact (B := gset N) tool_store tool_store.1 tool_store.2 9 "d" 5 None (mkTraceArgs "d" 2 None false)
    tool_store_view ltac:(vm_compute; discriminate)) as (g & impacted & Hl & He & _ & Hall & _).
  - intros sym. unfold get_node_by_symbol. cbn [mem_storage]. by destruct (list_find (λ n, node_symbol n = sym) tool_store.1) as [[? ?]|].
  - vm_compute. reflexivity.
  - by exists g, impacted.
Defined.

(** A tool over the graph loaded from a store. *)
Definition on_graph {A} (s : mem_store) (f : CsrGraph → option A) : option A :=
  match load s with Some (Ok g) => f g | _ => None end.

(** A caller with an exact edge is dropped by [precise_only] when a heuristic
    edge from it is listed first. *)
Theorem precise_caller_dropped :
  let s : mem_store := ([tool_node 1 "f"; tool_node 2 "g"],
    [tool_edge 1 2 1 "CALLS_DYNAMIC"; tool_edge 2 2 1 "CALLS_EXACT"]%N) in
  incoming_chain s (find_node s.1) 1 1 true = Some [].
Proof. reflexivity. Qed.

(** Under a budget the outgoing chain keeps the smallest ids, not the closest
    hops: the direct callee [d] is cut and [a], two hops away, is shown. *)
Theorem outgoing_truncated_by_id :
  let s : mem_store := ([tool_node 1 "a"; tool_node 2 "b"; tool_node 3 "c"; tool_node 4 "d"; tool_node 5 "root"],
    [tool_edge 1 5 4 "CALLS"; tool_edge 2 4 1 "CALLS"; tool_edge 3 4 2 "CALLS"; tool_edge 4 4 3 "CALLS"]%N) in
  (on_graph s (λ g, weave_trace_calls (B := gset N) s g (mkTraceArgs "root" 2 (Some 13) false) None)) =
  Some (join newline ["trace_calls: root"; "  outgoing (4):"; "    → a (p.rs:1)"; "    … and 3 more"; "  incoming (0):"]).
Proof. vm_compute. reflexivity. Qed.

(** [max_files] still limits a repo map that has a token budget. *)
Theorem repo_map_budget_keeps_max_files :
  let node i path := mkNode i "local" path "f" "fn" 1 1 "" in
  let s : mem_store := ([node 1%N "a.rs"; node 2%N "b.rs"], []) in
  (on_graph s (λ g, weave_repo_map 1 s g (mkRepoArgs 1 None (Some 1000)) None)) =
  Some (join newline ["repo map (1 files, 2 total):"; "  a.rs  [1 symbols, 0 edges]"]).
Proof. vm_compute. reflexivity. Qed.
