(* ===== verification/Mcp.v ===== *)
(** * The MCP server (handler.rs, protocol.rs, notes.rs, verify.rs, freshness.rs, transport.rs)

    The handler over its database and graph, with live reload, role-based
    masking and token authentication, and the HTTP daemon in front of it; built
    with the features [rbac] and [notes].  serde_json is a parameter: how text
    becomes a value or a request, and how a value prints. *)

From S2P Require Import Prelude Str Bitmap Model Csr CsrGraph Resolve Auth SqlStore Language Interner ProjectIndex Http Json Modules Tools.

(** src/crates/weave-graph-mcp/src/protocol.rs:5-12 [JsonRpcRequest] *)
Record JsonRpcRequest := mkRpc {
  rpc_id : option Value;
  rpc_method : string;
  rpc_params : option Value;
}.

(** src/crates/weave-graph-mcp/src/protocol.rs:15-23 [JsonRpcResponse] *)
Record JsonRpcResponse := mkRpcResponse {
  resp_id : option Value;
  resp_result : option Value;
  resp_error : option (Z * string);
}.

(** src/crates/weave-graph-mcp/src/protocol.rs:27-34 [JsonRpcResponse::success] *)
Definition rpc_success (id : option Value) (v : Value) : JsonRpcResponse := mkRpcResponse id (Some v) None.
(** src/crates/weave-graph-mcp/src/protocol.rs:37-48 [JsonRpcResponse::error] *)
Definition rpc_error (id : option Value) (code : Z) (message : string) : JsonRpcResponse :=
  mkRpcResponse id None (Some (code, message)).

(** src/crates/weave-graph-mcp/src/protocol.rs:89-93 [CallToolResult] *)
Record CallToolResult := mkToolResult { content : list string; is_error : option bool }.
(** src/crates/weave-graph-mcp/src/protocol.rs:97-102 [CallToolResult::ok] *)
Definition tool_ok (text : string) : CallToolResult := mkToolResult [text] None.
(** src/crates/weave-graph-mcp/src/protocol.rs:105-110 [CallToolResult::err] *)
Definition tool_err (text : string) : CallToolResult := mkToolResult [text] (Some true).

(** src/crates/weave-graph-mcp/src/handler.rs:67-73 [as_tool_result] *)
Definition as_tool_result (text : string) : CallToolResult :=
  if starts_with text "symbol not found:" || starts_with text "error:" then tool_err text else tool_ok text.

(** src/crates/weave-graph-mcp/src/protocol.rs:70-93 [CallToolResult]
    As it serializes: [isError] is left out unless set. *)
Definition tool_value (r : CallToolResult) : Value :=
  JObject ([("content", JArray ((λ t, JObject [("type", JString "text"); ("text", JString t)]) <$> content r))] ++
           match is_error r with Some b => [("isError", JBool b)] | None => [] end).

(** ** The tools that are listed *)

Definition json_property (kind description : string) : Value :=
  JObject [("type", JString kind); ("description", JString description)].

(** src/crates/weave-graph-mcp/src/protocol.rs:62-67 [ToolDefinition] *)
Definition tool_definition (name description : string) (properties : list (string * Value)) (required : list string) : Value :=
  JObject [("name", JString name); ("description", JString description);
    ("inputSchema", JObject ([("type", JString "object"); ("properties", JObject properties)] ++
      match required with [] => [] | _ => [("required", JArray (JString <$> required))] end))].

(** src/crates/weave-graph-mcp/src/handler.rs:350-506 [handle_tools_list] *)
Definition handle_tools_list : Value :=
  JObject [("tools", JArray
    [tool_definition "weave_repo_map" "Progressive architectural orientation of active modules (~200 tokens)."
       [("max_files", json_property "integer" "Max number of files to surface");
        ("module", json_property "boolean" "Module-level orientation: one line per Louvain module (label, file count, symbol count, cross-edges, member files)");
        ("max_tokens", json_property "integer" "Token-estimate ceiling: sheds lines to fit (replaces max_files truncation)")] [];
     tool_definition "weave_file_api" "Returns micro wiring cards for requested files (~60 tokens/file)."
       [("paths", JObject [("type", JString "array"); ("items", JObject [("type", JString "string")]);
           ("description", JString "File paths to generate wiring cards for")]);
        ("max_tokens", json_property "integer" "Token-estimate ceiling: sheds tiers (full cards → symbol names → counts) on overflow")] ["paths"];
     tool_definition "weave_trace_calls" "Traverses incoming/outgoing call chains up to N hops."
       [("symbol", json_property "string" "Symbol name to trace");
        ("depth", json_property "integer" "Traversal depth in hops");
        ("max_tokens", json_property "integer" "Token-estimate ceiling: truncates chains with explicit 'and N more' markers");
        ("precise_only", json_property "boolean" "Drop heuristically-resolved callers from the incoming chain (P10.5); the outgoing chain has no per-edge confidence to filter on")] ["symbol"];
     tool_definition "weave_impact_radius" "Computes topological blast radius for proposed changes."
       [("symbol", json_property "string" "Root symbol being changed");
        ("max_tokens", json_property "integer" "Token-estimate ceiling: sheds to a file-level, then module-level summary on overflow")] ["symbol"];
     tool_definition "weave_pin_note" "Pins a note onto a symbol so a later session's agent sees it (feature: notes)."
       [("symbol", json_property "string" "Symbol name to pin the note onto");
        ("text", json_property "string" "The note text");
        ("tier", json_property "string" (quoted "ephemeral" +:+ " (24h TTL, default) or " +:+ quoted "crystallized" +:+ " (kept)"));
        ("kind", json_property "string" ("Note category, e.g. " +:+ quoted "arch_decision"))] ["symbol"; "text"];
     tool_definition "weave_recall_notes" "Recalls live pinned notes (expired ephemerals filtered at read time; orphaned notes reported)." [] [];
     tool_definition "weave_check_freshness" "Reconciles the indexed graph against the live working tree (behind HEAD, uncommitted edits, or fresh) before you trust other tools' answers." [] [];
     tool_definition "weave_explore" "Composes the repo map, file API, call trace, impact radius, and an exact source excerpt behind one token budget (P10.2) — one additional orientation tool, not a replacement for the four narrow ones."
       [("symbol", json_property "string" "Symbol to orient around; omit for a module-level repo overview");
        ("max_tokens", json_property "integer" "Token-estimate ceiling: sheds the source excerpt, then the call trace, then the impact radius before reporting the actual resident size")] [];
     tool_definition "weave_verify" "Checks one file for phantom symbols (calls/references with no matching indexed symbol) before you present an edit — the fast, storage-only slice of `weave verify`."
       [("file", json_property "string" "Indexed file path to verify");
        ("range", JObject [("type", JString "array"); ("items", JObject [("type", JString "integer")]);
           ("description", JString "Optional [start, end] line range, display-only")])] ["file"]])].

(** ** Notes, verification, freshness *)

(** src/crates/weave-graph-core/src/notes.rs:74-83 [span_lines] *)
Definition span_lines (source : string) (line_start line_end : N) : string :=
  let start := N.to_nat line_start - 1 in
  let end_ := (line_end `min` N.of_nat (length (lines source)))%N in
  join newline (take (N.to_nat end_ - start) (drop start (lines source))).

(** src/crates/weave-graph-core/src/notes.rs:62-62 [EPHEMERAL_TTL_SECS] *)
Definition EPHEMERAL_TTL_SECS : Z := 86400.

(** src/crates/weave-graph-mcp/src/freshness.rs:8-20 [Freshness] *)
Inductive Freshness :=
| Fresh
| Behind (indexed_sha : option string) (head_sha : string)
| Dirty
| UnknownFreshness.

(** src/crates/weave-graph-mcp/src/freshness.rs:39-69 [check_freshness]
    [head] and [status] are the outputs of the two git commands, trimmed;
    [indexed] the contents of [last_indexed_sha]. *)
Definition check_freshness (head : option string) (indexed : option string) (status : option string) : Freshness :=
  match head with
  | None => UnknownFreshness
  | Some head_sha =>
      let indexed_sha := trim <$> indexed in
      if decide (indexed_sha = Some head_sha)
      then match status with Some st => if is_empty st then Fresh else Dirty | None => Fresh end
      else Behind indexed_sha head_sha
  end.

(** src/crates/weave-graph-mcp/src/handler.rs:628-647 [call_check_freshness] *)
Definition freshness_text (f : Freshness) : string :=
  match f with
  | Fresh => "✅ Fresh: indexed commit matches HEAD, working tree clean."
  | Dirty => "⚠️ Dirty: indexed commit matches HEAD, but the working tree has uncommitted changes not reflected in the graph — run `weave index`."
  | Behind indexed head =>
      "⚠️ Behind: indexed " +:+ default "nothing yet" indexed +:+ " but HEAD is " +:+ head +:+ " — run `weave index`."
  | UnknownFreshness => "ℹ️ Freshness unknown: this directory isn't a Git repository (or `git` isn't on PATH)."
  end.

(** What the outside answers while one message is handled. *)
Record Outside := mkOutside {
  out_now : N;
  out_secs : Z;
  (* the database file: its modification time when it is looked at, what
     opening it gives, and its modification time afterwards *)
  out_stat : option (option N);
  out_open : result Db StorageError;
  out_stat_after : option (option N);
  (* files below the working directory and below the repository root *)
  out_cwd_file : string → option string;
  out_repo_file : string → option string;
  (* the markers of watch mode, and git *)
  out_pending : option (N * list string);
  out_in_flight : list string;
  out_freshness : Freshness;
}.

(** src/crates/weave-graph-mcp/src/handler.rs:79-99 [McpHandler] *)
Record McpHandler := mkHandler {
  h_storage : Db;
  h_csr : CsrGraph;
  h_weave_dir : bool;
  h_file_backed : bool;
  h_last_mtime : option N;
  h_last_checked : option N;
  h_recheck_interval : N;
  h_guard : option RbacGuard;
  h_token_auth : option (string → option RbacGuard);
  h_require_auth : bool;
}.

Definition with_storage (h : McpHandler) (db : Db) : McpHandler :=
  mkHandler db (h_csr h) (h_weave_dir h) (h_file_backed h) (h_last_mtime h) (h_last_checked h) (h_recheck_interval h)
    (h_guard h) (h_token_auth h) (h_require_auth h).
Definition with_checked (h : McpHandler) (now : N) : McpHandler :=
  mkHandler (h_storage h) (h_csr h) (h_weave_dir h) (h_file_backed h) (h_last_mtime h) (Some now) (h_recheck_interval h)
    (h_guard h) (h_token_auth h) (h_require_auth h).
Definition with_reloaded (h : McpHandler) (db : Db) (g : CsrGraph) (mtime : option N) : McpHandler :=
  mkHandler db g (h_weave_dir h) (h_file_backed h) mtime (h_last_checked h) (h_recheck_interval h)
    (h_guard h) (h_token_auth h) (h_require_auth h).

Section mcp.
Context `{Sqlite} {B : Type} `{Bitmap B} `{HashOrder} (rounds : nat).
Context (blake3_hex : string → string).

(** src/crates/weave-graph-core/src/notes.rs:68-71 [hash_span] *)
Definition hash_span (source : string) (line_start line_end : N) : string := blake3_hex (span_lines source line_start line_end).

(** src/crates/weave-graph-mcp/src/notes.rs:30-65 [weave_pin_note] *)
Definition weave_pin_note (o : Outside) (db : Db) (symbol text : string) (tier kind : option string) : Db * string :=
  match sql_all_nodes db with
  | Err e => (db, "error: " +:+ storage_error_text e)
  | Ok nodes =>
      match list_find (λ n, node_symbol n = symbol) nodes with
      | None => (db, "symbol not found: " +:+ symbol)
      | Some (_, node) =>
          let content_hash := (λ source, hash_span source (node_line_start node) (node_line_end node)) <$> out_cwd_file o (node_path node) in
          let t := if decide (tier = Some "crystallized") then Crystallized else Ephemeral in
          let note := mkNote 0 (Some (node_id node)) (moniker_build (node_path node) (node_symbol node)) (default "note" kind) t
                        "agent" text content_hash false
                        match t with Ephemeral => Some (out_secs o + EPHEMERAL_TTL_SECS)%Z | Crystallized => None end (out_secs o) in
          match pin_note db note with
          | (db, Ok id) => (db, "Pinned note #" +:+ dec id +:+ " to " +:+ symbol +:+ " (" +:+ tier_as_str t +:+ ")")
          | (db, Err e) => (db, "error: " +:+ storage_error_text e)
          end
      end
  end.

(** src/crates/weave-graph-mcp/src/notes.rs:74-89 [weave_recall_notes] *)
Definition note_text (n : Note) : string :=
  let tags := [tier_as_str (note_tier n)] ++ (if note_stale n then ["stale"] else []) ++
              (if decide (note_target n = None) then ["orphaned"] else []) in
  "#" +:+ dec (note_id n) +:+ " [" +:+ join ", " tags +:+ "] " +:+ note_moniker n +:+ ": " +:+ note_content n.

(** src/crates/weave-graph-mcp/src/notes.rs:69-94 [weave_recall_notes] *)
Definition weave_recall_notes (o : Outside) (db : Db) : string :=
  match recall_notes db (out_secs o) with
  | Err e => "error: " +:+ storage_error_text e
  | Ok [] => "No notes."
  | Ok notes => join newline (note_text <$> notes)
  end.

(** src/crates/weave-graph-mcp/src/verify.rs:23-51 [weave_verify] *)
Definition weave_verify (db : Db) (file : string) (range : option (N * N)) : result string StorageError :=
  let? unresolved := get_unresolved_refs_for_path db "local" file in
  let target := match range with Some (a, b) => file +:+ ":" +:+ dec a +:+ "-" +:+ dec b | None => file end in
  match unresolved with
  | [] => Ok ("✅ pass: " +:+ target +:+ " — no phantom symbols found")
  | _ => Ok ("❌ fail: " +:+ target +:+ " — " +:+ decn (length unresolved) +:+ " unresolved reference(s):" +:+
             String.concat "" ((λ name, newline +:+ "  phantom_symbols: unresolved reference to `" +:+ name +:+ "`") <$> unresolved))
  end.

(** ** The handler *)

(** src/crates/weave-graph-mcp/src/handler.rs:104-122 [McpHandler::new] *)
Definition mcp_new (storage : Db) : option (result McpHandler StorageError) :=
  r ← load storage;
  Some (match r with
        | Err e => Err e
        | Ok csr => Ok (mkHandler storage csr false false None None 500 None None false)
        end).
(** src/crates/weave-graph-mcp/src/handler.rs:136-163 [McpHandler::open_with_mode]
    Either mode of opening is what the outside answers; the time of modification is
    read once the graph is loaded. *)
Definition mcp_open_with_mode (o : Outside) : option (result McpHandler StorageError) :=
  match out_open o with
  | Err e => Some (Err e)
  | Ok storage =>
      r ← load storage;
      Some (match r with
            | Err e => Err e
            | Ok csr => Ok (mkHandler storage csr false true (out_stat_after o ≫= λ m, m) None 500 None None false)
            end)
  end.
(** src/crates/weave-graph-mcp/src/handler.rs:171-174 [McpHandler::with_identity] *)
Definition with_identity (h : McpHandler) (guard : RbacGuard) : McpHandler :=
  mkHandler (h_storage h) (h_csr h) (h_weave_dir h) (h_file_backed h) (h_last_mtime h) (h_last_checked h) (h_recheck_interval h)
    (Some guard) (h_token_auth h) (h_require_auth h).
(** src/crates/weave-graph-mcp/src/handler.rs:177-180 [McpHandler::with_token_auth] *)
Definition with_token_auth (h : McpHandler) (provider : string → option RbacGuard) : McpHandler :=
  mkHandler (h_storage h) (h_csr h) (h_weave_dir h) (h_file_backed h) (h_last_mtime h) (h_last_checked h) (h_recheck_interval h)
    (h_guard h) (Some provider) (h_require_auth h).
(** src/crates/weave-graph-mcp/src/handler.rs:183-186 [McpHandler::with_require_auth] *)
Definition with_require_auth (h : McpHandler) (require_auth : bool) : McpHandler :=
  mkHandler (h_storage h) (h_csr h) (h_weave_dir h) (h_file_backed h) (h_last_mtime h) (h_last_checked h) (h_recheck_interval h)
    (h_guard h) (h_token_auth h) require_auth.
(** src/crates/weave-graph-mcp/src/handler.rs:193-196 [McpHandler::with_weave_dir] *)
Definition with_weave_dir (h : McpHandler) : McpHandler :=
  mkHandler (h_storage h) (h_csr h) true (h_file_backed h) (h_last_mtime h) (h_last_checked h) (h_recheck_interval h)
    (h_guard h) (h_token_auth h) (h_require_auth h).
(** src/crates/weave-graph-mcp/src/handler.rs:201-204 [McpHandler::with_recheck_interval] *)
Definition with_recheck_interval (h : McpHandler) (interval : N) : McpHandler :=
  mkHandler (h_storage h) (h_csr h) (h_weave_dir h) (h_file_backed h) (h_last_mtime h) (h_last_checked h) interval
    (h_guard h) (h_token_auth h) (h_require_auth h).

(** src/crates/weave-graph-mcp/src/handler.rs:212-251 [maybe_reload] *)
Definition maybe_reload (o : Outside) (h : McpHandler) : option McpHandler :=
  if negb (h_file_backed h) then Some h else
  if match h_last_checked h with Some last => (out_now o - last <? h_recheck_interval h)%N | None => false end then Some h else
  let h := with_checked h (out_now o) in
  match out_stat o with
  | None => Some h
  | Some mtime =>
      if decide (mtime = h_last_mtime h) then Some h else
      match out_open o with
      | Err _ => Some h
      | Ok db =>
          r ← load db;
          match r with
          | Err _ => Some h
          | Ok g => Some (with_reloaded h db g (out_stat_after o ≫= λ m, m))
          end
      end
  end.

Definition guard_mask (guard : option RbacGuard) : option (Node → Node) := mask_node <$> guard.

(** src/crates/weave-graph-mcp/src/handler.rs:672-705 [call_repo_map] *)
Definition call_repo_map (h : McpHandler) (args : Value) (guard : option RbacGuard) : option CallToolResult :=
  as_tool_result <$> weave_repo_map rounds (h_storage h) (h_csr h)
    (mkRepoArgs (default 50 (get_usize args "max_files")) (get_bool args "module") (get_usize args "max_tokens")) (guard_mask guard).

(** src/crates/weave-graph-mcp/src/handler.rs:712-738 [call_explore] *)
Definition call_explore (o : Outside) (h : McpHandler) (args : Value) (guard : option RbacGuard) : option CallToolResult :=
  as_tool_result <$> weave_explore (B := B) rounds (h_storage h) (h_csr h)
    (if h_weave_dir h then Some (out_repo_file o) else None) (get_str args "symbol") (get_usize args "max_tokens") (guard_mask guard).

(** src/crates/weave-graph-mcp/src/handler.rs:786-815 [call_file_api] *)
Definition call_file_api (h : McpHandler) (args : Value) (guard : option RbacGuard) : CallToolResult :=
  let paths := omap as_str (default [] (json_get args "paths" ≫= as_array)) in
  tool_ok (render_cards (weave_file_api (h_storage h) paths (guard_mask guard)) (get_usize args "max_tokens")).

(** src/crates/weave-graph-mcp/src/handler.rs:817-858 [call_trace_calls]
    The depth is cut to 32 bits. *)
Definition call_trace_calls (h : McpHandler) (args : Value) (guard : option RbacGuard) : option CallToolResult :=
  match get_str args "symbol" with
  | None => Some (tool_err "Missing 'symbol' parameter")
  | Some symbol =>
      let depth := match json_get args "depth" ≫= as_u64 with Some d => (d `mod` 4294967296)%N | None => 2%N end in
      as_tool_result <$> weave_trace_calls (B := B) (h_storage h) (h_csr h)
        (mkTraceArgs symbol depth (get_usize args "max_tokens") (default false (get_bool args "precise_only"))) (guard_mask guard)
  end.

(** src/crates/weave-graph-mcp/src/handler.rs:860-887 [call_impact_radius] *)
Definition call_impact_radius (h : McpHandler) (args : Value) (guard : option RbacGuard) : option CallToolResult :=
  match get_str args "symbol" with
  | None => Some (tool_err "Missing 'symbol' parameter")
  | Some symbol =>
      (λ r, as_tool_result (impact_text r)) <$>
        weave_impact_radius rounds symbol (get_usize args "max_tokens") (B := B) (h_storage h) (h_csr h) (guard_mask guard)
  end.

(** src/crates/weave-graph-mcp/src/handler.rs:890-912 [call_pin_note] *)
Definition call_pin_note (o : Outside) (h : McpHandler) (args : Value) : McpHandler * CallToolResult :=
  match get_str args "symbol", get_str args "text" with
  | None, _ => (h, tool_err "Missing 'symbol' parameter")
  | Some _, None => (h, tool_err "Missing 'text' parameter")
  | Some symbol, Some text =>
      let '(db, res) := weave_pin_note o (h_storage h) symbol text (get_str args "tier") (get_str args "kind") in
      (with_storage h db, if starts_with res "error:" then tool_err res else tool_ok res)
  end.

(** src/crates/weave-graph-mcp/src/handler.rs:657-670 [call_verify] *)
Definition call_verify (h : McpHandler) (args : Value) : CallToolResult :=
  match get_str args "file" with
  | None => tool_err "Missing 'file' parameter"
  | Some file =>
      let range :=
        a ← json_get args "range" ≫= as_array;
        x ← a !! 0 ≫= as_u64; y ← a !! 1 ≫= as_u64;
        Some ((x `mod` 4294967296)%N, (y `mod` 4294967296)%N) in
      match weave_verify (h_storage h) file range with
      | Ok text => tool_ok text
      | Err e => tool_err ("error: " +:+ storage_error_text e)
      end
  end.

(** src/crates/weave-graph-mcp/src/handler.rs:622-649 [call_check_freshness] *)
Definition call_check_freshness (o : Outside) (h : McpHandler) : CallToolResult :=
  if h_weave_dir h then tool_ok (freshness_text (out_freshness o))
  else tool_ok "Freshness unknown: no `.weave` directory configured for this session.".

(** src/crates/weave-graph-mcp/src/handler.rs:595-614 [append_watch_staleness] *)
Definition append_watch_staleness (o : Outside) (h : McpHandler) (r : CallToolResult) : CallToolResult :=
  if negb (h_weave_dir h) then r else
  let pending :=
    match out_pending o with
    | Some (blast_radius, files) =>
        ["⚠️ " +:+ dec blast_radius +:+ " symbols' worth of blast radius pending — run `weave index` to refresh (" +:+
         decn (length files) +:+ " file(s): " +:+ join ", " files +:+ ")"]
    | None => []
    end in
  let in_flight :=
    match out_in_flight o with
    | [] => []
    | files => ["ℹ️ " +:+ decn (length files) +:+ " file(s) just changed, not yet reindexed (still inside the debounce window): " +:+ join ", " files]
    end in
  mkToolResult (content r ++ pending ++ in_flight) (is_error r).

(** src/crates/weave-graph-mcp/src/handler.rs:559-578 [handle_tools_call]
    The choice of the tool, of a build with the notes: 565-566 and 571-574 are
    compiled with the features fts, vector and policy-lint only, and their
    tools are those of Search, called with the same guard. *)
Definition call_tool (o : Outside) (h : McpHandler) (name : string) (args : Value) (guard : option RbacGuard) :
    option (McpHandler * CallToolResult) :=
  if decide (name = "weave_repo_map") then pair h <$> call_repo_map h args guard
  else if decide (name = "weave_file_api") then Some (h, call_file_api h args guard)
  else if decide (name = "weave_trace_calls") then pair h <$> call_trace_calls h args guard
  else if decide (name = "weave_impact_radius") then pair h <$> call_impact_radius h args guard
  else if decide (name = "weave_explore") then pair h <$> call_explore o h args guard
  else if decide (name = "weave_pin_note") then Some (call_pin_note o h args)
  else if decide (name = "weave_recall_notes") then Some (h, tool_ok (weave_recall_notes o (h_storage h)))
  else if decide (name = "weave_check_freshness") then Some (h, call_check_freshness o h)
  else if decide (name = "weave_verify") then Some (h, call_verify h args)
  else Some (h, tool_err ("Unknown tool: " +:+ name)).

(** src/crates/weave-graph-mcp/src/handler.rs:532-536 [handle_tools_call]
    The token of a call, which is taken out of its arguments. *)
Definition take_token (args : Value) : Value * option string :=
  match args with
  | JObject fields =>
      (JObject (filter (λ f : string * Value, f.1 ≠ "_meta") fields), assoc fields "_meta" ≫= λ meta, get_str meta "token")
  | _ => (args, None)
  end.

(** src/crates/weave-graph-mcp/src/handler.rs:538-557 [handle_tools_call]
    The guard of a call; [None] when the caller is not authorised. *)
Definition call_guard (h : McpHandler) (token : option string) : option (option RbacGuard) :=
  let resolved :=
    match token, h_guard h, h_token_auth h with
    | Some t, None, Some provider => provider t
    | _, _, _ => None
    end in
  match h_require_auth h, h_guard h, resolved with
  | true, None, None => None
  | _, _, _ => Some (match resolved with Some g => Some g | None => h_guard h end)
  end.

(** src/crates/weave-graph-mcp/src/handler.rs:508-587 [handle_tools_call] *)
Definition handle_tools_call (o : Outside) (h : McpHandler) (id : option Value) (params : option Value) :
    option (McpHandler * JsonRpcResponse) :=
  match params with
  | None => Some (h, rpc_error id (-32602) "Missing params for tools/call")
  | Some params =>
      match get_str params "name" with
      | None => Some (h, rpc_error id (-32602) "Missing tool name in tools/call")
      | Some name =>
          let '(args, token) := take_token (default (JObject []) (json_get params "arguments")) in
          match call_guard h token with
          | None => Some (h, rpc_error id (-32000) "Unauthorized: valid _meta.token required (SEC-07)")
          | Some guard =>
              '(h, r) ← call_tool o h name args guard;
              Some (h, rpc_success id (tool_value (append_watch_staleness o h r)))
          end
      end
  end.

(** src/crates/weave-graph-mcp/src/handler.rs:337-348 [handle_initialize] *)
Definition handle_initialize : Value :=
  JObject [("protocolVersion", JString "2024-11-05"); ("capabilities", JObject [("tools", JObject [])]);
           ("serverInfo", JObject [("name", JString "weave"); ("version", JString "0.1.0")])].

Context (parse_request : string → result JsonRpcRequest string) (parse_value : string → option Value)
  (print_value : Value → option string).

(** src/crates/weave-graph-mcp/src/handler.rs:254-285 [handle_message] *)
Definition handle_message (o : Outside) (h : McpHandler) (raw : string) : option (McpHandler * option JsonRpcResponse) :=
  h ← maybe_reload o h;
  match parse_request raw with
  | Err e => Some (h, Some (rpc_error None (-32700) ("Parse error: " +:+ e)))
  | Ok req =>
      if decide (rpc_method req = "initialize") then Some (h, Some (rpc_success (rpc_id req) handle_initialize))
      else if decide (rpc_method req = "notifications/initialized") then Some (h, None)
      else if decide (rpc_method req = "ping") then Some (h, Some (rpc_success (rpc_id req) (JObject [])))
      else if decide (rpc_method req = "tools/list") then Some (h, Some (rpc_success (rpc_id req) handle_tools_list))
      else if decide (rpc_method req = "tools/call") then
        '(h, r) ← handle_tools_call o h (rpc_id req) (rpc_params req); Some (h, Some r)
      else
        Some (h, match rpc_id req with
                 | Some _ => Some (rpc_error (rpc_id req) (-32601) ("Method not found: " +:+ rpc_method req))
                 | None => None
                 end)
  end.

(** [Map::insert]: the value of a key, replaced in place or added. *)
Fixpoint set_field (fields : list (string * Value)) (key : string) (v : Value) : list (string * Value) :=
  match fields with
  | [] => [(key, v)]
  | f :: fields => if decide (f.1 = key) then (key, v) :: fields else f :: set_field fields key v
  end.

(** src/crates/weave-graph-mcp/src/handler.rs:299-312 [handle_message_with_token]
    A tool call with the transport's token in its arguments; [None] when the
    message is passed on as it is. *)
Definition with_token (request : Value) (token : string) : option Value :=
  match request with
  | JObject fields =>
      if decide (get_str request "method" = Some "tools/call") then
        match assoc fields "params" with
        | Some (JObject params) =>
            match default (JObject []) (assoc params "arguments") with
            | JObject arguments =>
                let arguments := set_field arguments "_meta" (JObject [("token", JString token)]) in
                Some (JObject (set_field fields "params" (JObject (set_field params "arguments" (JObject arguments)))))
            | _ => None
            end
        | _ => None
        end
      else None
  | _ => None
  end.

(** src/crates/weave-graph-mcp/src/handler.rs:288-313 [handle_message_with_token] *)
Definition handle_message_with_token (o : Outside) (h : McpHandler) (raw : string) (token : option string) :
    option (McpHandler * option JsonRpcResponse) :=
  match token with
  | None => handle_message o h raw
  | Some token =>
      match parse_value raw ≫= λ request, with_token request token with
      | None => handle_message o h raw
      | Some request =>
          match print_value request with
          | Some text => handle_message o h text
          | None => Some (h, None)
          end
      end
  end.

(** src/crates/weave-graph-mcp/src/handler.rs:316-335 [accepts_request_token] *)
Definition accepts_request_token (h : McpHandler) (token : option string) : bool :=
  if negb (h_require_auth h) || bool_decide (is_Some (h_guard h)) then true
  else match token, h_token_auth h with Some t, Some provider => bool_decide (is_Some (provider t)) | _, _ => false end.

(** ** The HTTP daemon (transport.rs) *)

(** The bytes of a connection, as its reader returns them in the end. *)
Inductive McpError := McpInvalidData (text : string) | McpUnexpectedEof | McpSerialize | McpSecurity.

Definition MAX_HTTP_HEADER_BYTES : N := 16384.
Definition MAX_HTTP_REQUEST_BODY_BYTES : N := 1048576.

(** [read_until(newline)]: up to and with the first newline. *)
Fixpoint read_until_newline (s : string) : string * string :=
  match s with
  | EmptyString => ("", "")
  | String a s => if decide (a = "010"%char) then (String a "", s) else let '(l, r) := read_until_newline s in (String a l, r)
  end.

(** src/crates/weave-graph-mcp/src/transport.rs:208-224 [read_limited_line]
    A line longer than the limit is an error, as is one without its newline; so
    reading no more than one byte past the limit is enough. *)
Definition read_limited_line (s : string) : result (option (string * string)) McpError :=
  let '(line, rest) := read_until_newline s in
  if is_empty line then Ok None
  else if (MAX_HTTP_HEADER_BYTES <? N.of_nat (String.length line))%N || negb (ends_with line newline)
  then Err (McpInvalidData "HTTP line too large")
  else if decide (from_utf8_lossy line = line) then Ok (Some (line, rest)) else Err (McpInvalidData "non-UTF-8 HTTP headers").

(** src/crates/weave-graph-mcp/src/transport.rs:120-123 [HttpTransport::handle_client] *)
Record HttpHead := mkHead { content_length : option N; authorization : option string }.

(** src/crates/weave-graph-mcp/src/transport.rs:134-145 [HttpTransport::handle_client] *)
Definition head_line (head : HttpHead) (line : string) : result HttpHead McpError :=
  match split_once line ":" with
  | None => Ok head
  | Some (name, value) =>
      if eq_ignore_ascii_case name "content-length" then
        match parse_uint (u64_modulus - 1) (trim value) with
        | Some n => Ok (mkHead (Some n) (authorization head))
        | None => Err (McpInvalidData "invalid Content-Length")
        end
      else if eq_ignore_ascii_case name "authorization" then Ok (mkHead (content_length head) (Some (trim value)))
      else Ok head
  end.

(** src/crates/weave-graph-mcp/src/transport.rs:124-146 [HttpTransport::handle_client]
    Every line takes at least one byte of the input. *)
Fixpoint head_lines (fuel : nat) (s : string) (header_bytes : N) (head : HttpHead) : result (HttpHead * string) McpError :=
  match fuel with
  | 0 => Ok (head, s)
  | S fuel =>
      let? o := read_limited_line s in
      match o with
      | None => Ok (head, s)
      | Some (line, rest) =>
          let header_bytes := (header_bytes + N.of_nat (String.length line))%N in
          if (MAX_HTTP_HEADER_BYTES <? header_bytes)%N then Err (McpInvalidData "HTTP headers too large") else
          if decide (line = String "013"%char newline ∨ line = newline) then Ok (head, rest) else
          let? head := head_line head line in
          head_lines fuel rest header_bytes head
      end
  end.

(** src/crates/weave-graph-mcp/src/transport.rs:226-261 [write_http_response]
    Without the [http-compression] feature. *)
Definition write_http_response (status : N) (reason body : string) : string :=
  let crlf := String "013"%char newline in
  "HTTP/1.1 " +:+ dec status +:+ " " +:+ reason +:+ crlf +:+ "Content-Type: application/json" +:+ crlf +:+
  "Vary: Accept-Encoding" +:+ crlf +:+ "Content-Length: " +:+ decn (String.length body) +:+ crlf +:+
  "Connection: close" +:+ crlf +:+ crlf +:+ body.

Context (print_response : JsonRpcResponse → option string).

Definition bearer_of (head : HttpHead) : option string := authorization head ≫= strip_prefix "Bearer ".

(** src/crates/weave-graph-mcp/src/transport.rs:110-199 [HttpTransport::handle_client]
    What is written back, when anything is. *)
Definition handle_client (o : Outside) (h : McpHandler) (input : string) : option (McpHandler * result (option string) McpError) :=
  match read_limited_line input with
  | Err e => Some (h, Err e)
  | Ok None => Some (h, Ok None)
  | Ok (Some (request_line, rest)) =>
      match head_lines (S (String.length rest)) rest (N.of_nat (String.length request_line)) (mkHead None None) with
      | Err e => Some (h, Err e)
      | Ok (head, body) =>
          let token := bearer_of head in
          if negb (accepts_request_token h token)
          then Some (h, Ok (Some (write_http_response 401 "Unauthorized" ("{" +:+ quoted "error" +:+ ":" +:+ quoted "unauthorized" +:+ "}")))) else
          let len := default 0%N (content_length head) in
          if (MAX_HTTP_REQUEST_BODY_BYTES <? len)%N
          then Some (h, Ok (Some (write_http_response 413 "Payload Too Large"
                 ("{" +:+ quoted "error" +:+ ":" +:+ quoted "request body exceeds limit" +:+ "}")))) else
          if starts_with request_line "POST " && (0 <? len)%N then
            if (N.of_nat (String.length body) <? len)%N then Some (h, Err McpUnexpectedEof) else
            '(h, r) ← handle_message_with_token o h (from_utf8_lossy (str_take (N.to_nat len) body)) token;
            match r with
            | Some res =>
                match print_response res with
                | Some text => Some (h, Ok (Some (write_http_response 200 "OK" text)))
                | None => Some (h, Err McpSerialize)
                end
            | None => Some (h, Ok (Some (write_http_response 200 "OK" ("{" +:+ quoted "status" +:+ ":" +:+ quoted "ok" +:+ "}"))))
            end
          else Some (h, Ok (Some (write_http_response 200 "OK" ("{" +:+ quoted "status" +:+ ":" +:+ quoted "ok" +:+ "}"))))
      end
  end.
End mcp.
