(* ===== verification/McpProofs.v ===== *)
(** * What the MCP server guarantees

    The graph it answers from is that of its database; a caller without a valid
    token learns nothing of either; and under a guard the graph tools answer
    from what the guard shows, whatever the hidden symbols are. *)

From S2P Require Import Prelude Str Bitmap Model Csr Paths CsrGraph Resolve Auth SqlStore SqlProofs SqlGraph Language Interner ProjectIndex Http Modules Tools ToolsProofs Json Mcp.

Section proofs.
Context `{SqliteLaws} {B : Type} `{BitmapLaws B} `{HashOrder} (rounds : nat) (blake3_hex : string → string).

(** ** The graph is the database's *)

Definition coherent (h : McpHandler) : Prop := load (h_storage h) = Some (Ok (h_csr h)).

Lemma reload_coherent o h h' : coherent h → maybe_reload o h = Some h' → coherent h'.
Proof.
  unfold coherent, maybe_reload. intros Hc. destruct (negb _); [by intros [= <-]|].
  destruct (match h_last_checked h with Some _ => _ | None => _ end); [by intros [= <-]|].
  destruct (out_stat o) as [mtime|]; [|by intros [= <-]]. case_decide; [by intros [= <-]|].
  destruct (out_open o) as [db|]; [|by intros [= <-]].
  destruct (load db) as [[g|]|] eqn:Hl; cbn; [|by intros [= <-]|done]. by intros [= <-].
Qed.

Lemma pin_note_load o db symbol text tier kind : load (weave_pin_note blake3_hex o db symbol text tier kind).1 = load db.
Proof.
  unfold weave_pin_note. destruct (sql_all_nodes db) as [ns|]; [|done]. destruct (list_find _ ns) as [[? n]|]; [|done].
  cbv zeta. set (note := mkNote _ _ _ _ _ _ _ _ _ _ _). unfold pin_note. by destruct (negb _).
Qed.

Lemma call_tool_coherent o h name args guard h' r :
  coherent h → call_tool (B := B) rounds blake3_hex o h name args guard = Some (h', r) → coherent h'.
Proof.
  intros Hc. unfold call_tool.
  repeat (case_decide; [try (by intros [= <- _]); try (by intros (? & _ & [= <- _])%fmap_Some)|]); [|by intros [= <- _]].
  unfold call_pin_note. destruct (get_str args "symbol"), (get_str args "text"); try (by intros [= <- _]).
  destruct (weave_pin_note _ _ _ _ _ _ _) as [db res] eqn:Hp. intros [= <- _]. unfold coherent. cbn.
  pose proof (pin_note_load o (h_storage h) s s0 (get_str args "tier") (get_str args "kind")) as Hl. rewrite Hp in Hl. cbn in Hl.
  by rewrite Hl.
Qed.

Lemma tools_call_coherent o h id params h' r :
  coherent h → handle_tools_call (B := B) rounds blake3_hex o h id params = Some (h', r) → coherent h'.
Proof.
  intros Hc. unfold handle_tools_call. destruct params as [params|]; [|by intros [= <- _]].
  destruct (get_str params "name") as [name|]; [|by intros [= <- _]]. destruct (take_token _) as [args token].
  destruct (call_guard h token) as [guard|]; [|by intros [= <- _]].
  intros ([h1 r1] & Hcall & [= <- _])%bind_Some. by eapply call_tool_coherent.
Qed.

Context (parse_request : string → result JsonRpcRequest string) (parse_value : string → option Value)
  (print_value : Value → option string) (print_response : JsonRpcResponse → option string).

Abbreviation message := (handle_message (B := B) rounds blake3_hex parse_request).
Abbreviation message_with_token := (handle_message_with_token (B := B) rounds blake3_hex parse_request parse_value print_value).
Abbreviation client := (handle_client (B := B) rounds blake3_hex parse_request parse_value print_value print_response).

Lemma message_coherent o h raw h' r : coherent h → message o h raw = Some (h', r) → coherent h'.
Proof.
  intros Hc. unfold handle_message. intros (h1 & Hr & Hm)%bind_Some. pose proof (reload_coherent o h h1 Hc Hr) as Hc1.
  revert Hm. destruct (parse_request raw) as [req|]; [|by intros [= <- _]].
  repeat (case_decide; [try (by intros [= <- _])|]); [|by intros [= <- _]].
  intros ([h2 r2] & Ht & [= <- _])%bind_Some. by eapply tools_call_coherent.
Qed.

Lemma client_coherent o h input h' r : coherent h → client o h input = Some (h', r) → coherent h'.
Proof.
  intros Hc. unfold handle_client. destruct (read_limited_line input) as [[[line rest]|]|]; [|by intros [= <- _]..].
  destruct (head_lines _ _ _ _) as [[head body]|]; [|by intros [= <- _]]. destruct (negb _); [by intros [= <- _]|].
  destruct (_ <? _)%N; [by intros [= <- _]|]. destruct (_ && _); [|by intros [= <- _]].
  destruct (_ <? _)%N; [by intros [= <- _]|]. intros ([h1 r1] & Hm & Hr)%bind_Some.
  assert (coherent h1) as Hc1.
  { revert Hm. unfold handle_message_with_token. destruct (bearer_of head) as [t|]; [|by apply message_coherent].
    destruct (parse_value _ ≫= _) as [v|]; [|by apply message_coherent].
    destruct (print_value v); [by apply message_coherent|by intros [= <- _]]. }
  revert Hr. destruct r1 as [res|]; [destruct (print_response res)|]; by intros [= <- _].
Qed.

(** One connection to the daemon, or one line on its standard input. *)
Inductive served : relation McpHandler :=
| served_http o h input h' r : client o h input = Some (h', r) → served h h'
| served_stdio o h raw h' r : message o h raw = Some (h', r) → served h h'.

Lemma served_coherent h h' : rtc served h h' → coherent h → coherent h'.
Proof.
  induction 1 as [|h1 h2 h3 Hs _ IH]; [done|]. intros Hc. apply IH.
  destruct Hs; [by eapply client_coherent|by eapply message_coherent].
Qed.

(** ** Without a token *)

(** Two handlers that differ in their data only. *)
Record same_config (h h' : McpHandler) : Prop := {
  sc_weave_dir : h_weave_dir h = h_weave_dir h';
  sc_file : h_file_backed h = h_file_backed h';
  sc_mtime : h_last_mtime h = h_last_mtime h';
  sc_checked : h_last_checked h = h_last_checked h';
  sc_interval : h_recheck_interval h = h_recheck_interval h';
  sc_guard : h_guard h = h_guard h';
  sc_token : h_token_auth h = h_token_auth h';
  sc_require : h_require_auth h = h_require_auth h';
}.

(** A token the handler does not know. *)
Definition rejected (h : McpHandler) (token : option string) : Prop :=
  ∀ t provider, token = Some t → h_token_auth h = Some provider → provider t = None.

(** The token a message carries. *)
Definition message_token (raw : string) : option string :=
  match parse_request raw with
  | Ok req =>
      if decide (rpc_method req = "tools/call")
      then rpc_params req ≫= λ params, (take_token (default (JObject []) (json_get params "arguments"))).2
      else None
  | Err _ => None
  end.

Lemma call_guard_rejected h token :
  h_require_auth h = true → h_guard h = None → rejected h token → call_guard h token = None.
Proof.
  intros Hr Hg Hrej. unfold call_guard. rewrite Hr, Hg. destruct token as [t|]; [|done].
  destruct (h_token_auth h) as [provider|] eqn:Ht; [|done]. by rewrite (Hrej t provider).
Qed.

Lemma reload_config o h h1 : maybe_reload o h = Some h1 →
  h_guard h1 = h_guard h ∧ h_token_auth h1 = h_token_auth h ∧ h_require_auth h1 = h_require_auth h.
Proof.
  unfold maybe_reload. destruct (negb _); [by intros [= <-]|].
  destruct (match h_last_checked h with Some _ => _ | None => _ end); [by intros [= <-]|].
  destruct (out_stat o) as [mtime|]; [|by intros [= <-]]. case_decide; [by intros [= <-]|].
  destruct (out_open o) as [db|]; [|by intros [= <-]].
  destruct (load db) as [[g|]|]; cbn; by intros [= <-].
Qed.

(** The answer to a message without a valid token, which is the same for every
    database. *)
Definition blank_answer (raw : string) : option JsonRpcResponse :=
  match parse_request raw with
  | Err e => Some (rpc_error None (-32700) ("Parse error: " +:+ e))
  | Ok req =>
      if decide (rpc_method req = "initialize") then Some (rpc_success (rpc_id req) handle_initialize)
      else if decide (rpc_method req = "notifications/initialized") then None
      else if decide (rpc_method req = "ping") then Some (rpc_success (rpc_id req) (JObject []))
      else if decide (rpc_method req = "tools/list") then Some (rpc_success (rpc_id req) handle_tools_list)
      else if decide (rpc_method req = "tools/call") then
        Some (match rpc_params req with
              | None => rpc_error (rpc_id req) (-32602) "Missing params for tools/call"
              | Some params =>
                  match get_str params "name" with
                  | None => rpc_error (rpc_id req) (-32602) "Missing tool name in tools/call"
                  | Some _ => rpc_error (rpc_id req) (-32000) "Unauthorized: valid _meta.token required (SEC-07)"
                  end
              end)
      else match rpc_id req with
           | Some _ => Some (rpc_error (rpc_id req) (-32601) ("Method not found: " +:+ rpc_method req))
           | None => None
           end
  end.

Lemma message_rejected o h raw :
  h_require_auth h = true → h_guard h = None → rejected h (message_token raw) →
  message o h raw = (λ h1, (h1, blank_answer raw)) <$> maybe_reload o h.
Proof.
  intros Hr Hg Hrej. unfold handle_message, blank_answer, message_token in *.
  destruct (maybe_reload o h) as [h1|] eqn:Hm; [|done]. cbn [mbind option_bind fmap option_fmap option_map].
  apply reload_config in Hm as (Hg1 & Ht1 & Hr1). destruct (parse_request raw) as [req|]; [|done].
  destruct (decide (rpc_method req = "tools/call")) as [He|Hn]; [|by repeat case_decide].
  rewrite He. rewrite !(decide_False (P := "tools/call" = _)) by done. unfold handle_tools_call. destruct (rpc_params req) as [params|]; [|done]. cbn in Hrej.
  destruct (get_str params "name"); [|done]. destruct (take_token _) as [args token].
  rewrite call_guard_rejected; [done|by rewrite Hr1|by rewrite Hg1|]. intros t provider Ht. rewrite Ht1. by apply Hrej.
Qed.

Lemma reload_same_config o h h' :
  same_config h h' → (maybe_reload o h = None ↔ maybe_reload o h' = None).
Proof.
  intros []. unfold maybe_reload. rewrite sc_file0, sc_checked0, sc_interval0. destruct (negb _); [done|].
  destruct (match h_last_checked h' with Some _ => _ | None => _ end); [done|].
  destruct (out_stat o) as [mtime|]; [|done]. cbn [with_checked h_last_mtime]. rewrite sc_mtime0. case_decide; [done|].
  destruct (out_open o) as [db|]; [|done]. by destruct (load db) as [[g|]|].
Qed.

(** The bearer token of a connection. *)
Definition connection_token (input : string) : option string :=
  match read_limited_line input with
  | Ok (Some (line, rest)) =>
      match head_lines (S (String.length rest)) rest (N.of_nat (String.length line)) (mkHead None None) with
      | Ok (head, _) => bearer_of head
      | Err _ => None
      end
  | _ => None
  end.

Lemma accepts_rejected h token :
  h_require_auth h = true → h_guard h = None → rejected h token → accepts_request_token h token = false.
Proof.
  intros Hr Hg Hrej. unfold accepts_request_token. rewrite Hr, Hg. cbn. destruct token as [t|]; [|done].
  destruct (h_token_auth h) as [provider|] eqn:Ht; [|done]. by rewrite (Hrej t provider).
Qed.

Lemma client_rejected o h h' input :
  h_require_auth h = true → h_guard h = None → same_config h h' → rejected h (connection_token input) →
  ∃ r, client o h input = Some (h, r) ∧ client o h' input = Some (h', r).
Proof.
  intros Hr Hg Hs Hrej. unfold handle_client, connection_token in *.
  destruct (read_limited_line input) as [[[line rest]|]|]; [|by eexists..].
  destruct (head_lines _ _ _ _) as [[head body]|]; [|by eexists].
  assert (∀ k, same_config h k → accepts_request_token k (bearer_of head) = false) as Ha.
  { intros k []. apply accepts_rejected; [by rewrite <-sc_require0|by rewrite <-sc_guard0|].
    intros t provider Ht. rewrite <-sc_token0. by apply Hrej. }
  rewrite (Ha h'), (Ha h) by done. by eexists.
Qed.
End proofs.

(** C18: with authentication required, a caller without a valid token learns
    nothing of the indexed code and changes nothing.  Two servers that differ
    only in their databases and graphs give the same answer to any message that
    carries no known token, and to any connection without a known bearer token;
    no tool runs, so the server is left as the reload left it. *)
Theorem unauthorised_learns_nothing `{SqliteLaws} {B} `{BitmapLaws B} `{HashOrder} rounds blake3_hex
    parse_request parse_value print_value print_response o h h' raw input
    (Hauth : h_require_auth h = true) (Hguard : h_guard h = None) (Hsame : same_config h h')
    (Hmessage : rejected h (message_token parse_request raw)) (Hbearer : rejected h (connection_token input)) :
  let message := handle_message (B := B) rounds blake3_hex parse_request in
  let client := handle_client (B := B) rounds blake3_hex parse_request parse_value print_value print_response in
  snd <$> message o h raw = snd <$> message o h' raw ∧
  fst <$> message o h raw = maybe_reload o h ∧
  ∃ r, client o h input = Some (h, r) ∧ client o h' input = Some (h', r).
Proof.
  intros message client. pose proof (message_rejected (B := B) rounds blake3_hex parse_request o h raw Hauth Hguard Hmessage) as Hm.
  assert (handle_message (B := B) rounds blake3_hex parse_request o h' raw =
    (λ h1, (h1, blank_answer parse_request raw)) <$> maybe_reload o h') as Hm'.
  { destruct Hsame. apply message_rejected; [by rewrite <-sc_require0|by rewrite <-sc_guard0|].
    intros t provider Ht. rewrite <-sc_token0. by apply Hmessage. }
  pose proof (client_rejected (B := B) rounds blake3_hex parse_request parse_value print_value print_response
    o h h' input Hauth Hguard Hsame Hbearer) as Hc.
  split; [|split; [|exact Hc]].
  - unfold message. rewrite Hm, Hm'. pose proof (reload_same_config o h h' Hsame) as Hr.
    destruct (maybe_reload o h) as [h1|], (maybe_reload o h') as [h1'|]; cbn; [done|naive_solver|naive_solver|done].
  - unfold message. rewrite Hm. by destruct (maybe_reload o h).
Qed.

(** ** Under a guard *)

Section hidden.
Context `{SqliteLaws} {B : Type} `{BitmapLaws B} `{HashOrder} (rounds : nat) (blake3_hex : string → string).

(** Two databases that look the same through a guard: the same edges, the same
    node ids, and at each id either the same node or two that it hides. *)
Definition looks_alike (g : RbacGuard) (db db' : Db) : Prop :=
  edges db = edges db' ∧ ∀ i, mask_node g <$> nodes db !! i = mask_node g <$> nodes db' !! i.

Lemma stored_by_ids db : db_ok db → stored_nodes db = omap (λ i, nodes db !! i) (node_id <$> stored_nodes db).
Proof.
  intros Hok. assert (Forall (λ n, nodes db !! node_id n = Some n) (stored_nodes db)) as HF.
  { apply Forall_forall. intros n [i Hi]%elem_of_stored_nodes. by rewrite (no_id _ (do_nodes _ Hok) _ _ Hi). }
  induction HF as [|n l Hn _ IH]; [done|]. cbn. rewrite Hn. by f_equal.
Qed.

Lemma fmap_omap_list {A C D} (f : C → D) (k : A → option C) (l : list A) : f <$> omap k l = omap (λ x, f <$> k x) l.
Proof. induction l as [|x l IH]; [done|]. cbn. destruct (k x); cbn; by rewrite IH. Qed.

Lemma sorted_lt_eq (l k : list N) : StronglySorted N.lt l → StronglySorted N.lt k → (∀ x, x ∈ l ↔ x ∈ k) → l = k.
Proof.
  intros Hl. revert k. induction Hl as [|x l Hl IH HF]; intros k Hk He.
  { destruct k as [|y k]; [done|]. exfalso. apply (not_elem_of_nil y), He. by left. }
  destruct Hk as [|y k Hk HG]; [exfalso; apply (not_elem_of_nil x), He; by left|].
  rewrite Forall_forall in HF, HG. assert (x = y) as <-.
  { assert (x ∈ y :: k) as [->|Hx]%elem_of_cons by (apply He; by left); [done|].
    assert (y ∈ x :: l) as [->|Hy]%elem_of_cons by (apply He; by left); [done|].
    specialize (HF _ Hy). specialize (HG _ Hx). lia. }
  f_equal. apply IH; [done|]. intros z. specialize (He z). rewrite !elem_of_cons in He. split; intros Hz.
  - destruct (proj1 He) as [->|?]; [by right| |done]. specialize (HF _ Hz). lia.
  - destruct (proj2 He) as [->|?]; [by right| |done]. specialize (HG _ Hz). lia.
Qed.

Lemma looks_alike_nodes g db db' : db_ok db → db_ok db' → looks_alike g db db' →
  mask_node g <$> stored_nodes db = mask_node g <$> stored_nodes db'.
Proof.
  intros Hok Hok' [_ Hn]. rewrite (stored_by_ids db Hok), (stored_by_ids db' Hok'), !fmap_omap_list.
  assert (node_id <$> stored_nodes db = node_id <$> stored_nodes db') as ->.
  { apply sorted_lt_eq; [by apply stored_ids_sorted..|]. intros i. rewrite !stored_ids by done.
    specialize (Hn i). destruct (nodes db !! i), (nodes db' !! i); cbn in Hn; try done; by split; intros [? ?]. }
  induction (node_id <$> stored_nodes db') as [|i l IH]; [done|]. cbn. rewrite Hn. destruct (mask_node g <$> _); by rewrite IH.
Qed.

Lemma mask_node_id g n : node_id (mask_node g n) = node_id n.
Proof. unfold mask_node. by destruct (visible g n). Qed.

Lemma looks_alike_edges g db db' : looks_alike g db db' → stored_edges db = stored_edges db'.
Proof. intros [He _]. unfold stored_edges. by rewrite He. Qed.

Lemma looks_alike_callers g db db' i : looks_alike g db db' → get_callers db i = get_callers db' i.
Proof. intros [He _]. cbn. unfold sql_get_callers. by rewrite He. Qed.

(** The tools that answer from masked nodes alone. *)
Definition masked_tools : list string := ["weave_repo_map"; "weave_trace_calls"; "weave_impact_radius"].

Lemma call_tool_masked o h h' g name args :
  db_ok (h_storage h) → db_ok (h_storage h') → looks_alike g (h_storage h) (h_storage h') → h_csr h = h_csr h' →
  name ∈ masked_tools →
  snd <$> call_tool (B := B) rounds blake3_hex o h name args (Some g) =
  snd <$> call_tool (B := B) rounds blake3_hex o h' name args (Some g).
Proof.
  intros Hok Hok' Hl Hcsr Hname.
  pose proof (sqlite_view_lemma _ Hok) as Hv. pose proof (sqlite_view_lemma _ Hok') as Hv'.
  rewrite <-(looks_alike_edges _ _ _ Hl) in Hv'. pose proof (looks_alike_nodes g _ _ Hok Hok' Hl) as Hmask.
  assert (∀ A (k : McpHandler) (x : option A), snd <$> (pair k <$> x) = x) as Hsnd by (by intros A k []).
  apply elem_of_cons in Hname as [->|[->|[->|[]%elem_of_nil]%elem_of_cons]%elem_of_cons].
  - change (snd <$> (pair h <$> call_repo_map rounds h args (Some g)) = snd <$> (pair h' <$> call_repo_map rounds h' args (Some g))).
    rewrite !Hsnd. unfold call_repo_map. rewrite <-Hcsr. f_equal.
    apply (repo_map_masked_eq (mask_node g) _ _ _ _ _ Hv Hv' Hmask).
  - change (snd <$> (pair h <$> call_trace_calls (B := B) h args (Some g)) = snd <$> (pair h' <$> call_trace_calls (B := B) h' args (Some g))).
    rewrite !Hsnd. unfold call_trace_calls. rewrite <-Hcsr. destruct (get_str args "symbol"); [|done]. f_equal.
    apply (trace_masked_eq (mask_node g) _ _ _ _ _ Hv Hv' Hmask). intros i. by eapply looks_alike_callers.
  - change (snd <$> (pair h <$> call_impact_radius (B := B) rounds h args (Some g)) =
      snd <$> (pair h' <$> call_impact_radius (B := B) rounds h' args (Some g))).
    rewrite !Hsnd. unfold call_impact_radius. rewrite <-Hcsr. destruct (get_str args "symbol"); [|done]. f_equal.
    apply (impact_masked_eq (mask_node g) _ _ _ _ _ Hv Hv' Hmask).
Qed.

Lemma call_tool_weave_dir o h name args guard h' r :
  call_tool (B := B) rounds blake3_hex o h name args guard = Some (h', r) → h_weave_dir h' = h_weave_dir h.
Proof.
  unfold call_tool.
  repeat (case_decide; [try (by intros [= <- _]); try (by intros (? & _ & [= <- _])%fmap_Some)|]); [|by intros [= <- _]].
  unfold call_pin_note. destruct (get_str args "symbol"), (get_str args "text"); try (by intros [= <- _]).
  destruct (weave_pin_note _ _ _ _ _ _ _). by intros [= <- _].
Qed.

(** Under a guard the graph itself does not depend on what is hidden. *)
Lemma looks_alike_load g db db' : db_ok db → db_ok db' → looks_alike g db db' → load db = load db'.
Proof.
  intros Hok Hok' Hl. pose proof (sqlite_view_lemma _ Hok') as Hv'. rewrite <-(looks_alike_edges _ _ _ Hl) in Hv'.
  exact (load_masked (mask_node g) (mask_node_id g) _ _ _ _ _ (sqlite_view_lemma _ Hok) Hv' (looks_alike_nodes g _ _ Hok Hok' Hl)).
Qed.
End hidden.

(** C19: under a guard, the graph tools answer from what the guard shows.  Two
    servers with the same configuration and coherent graphs, whose databases
    have the same edges and ids and differ only in the nodes the guard hides,
    give the same response to any repo-map, trace or impact call that runs under
    that guard: names, paths and lines of hidden symbols have no influence, not
    even through resolution. *)
Theorem masked_answers_hide `{SqliteLaws} {B} `{BitmapLaws B} `{HashOrder} rounds blake3_hex o h h' id params name args token g
    (Hok : db_ok (h_storage h)) (Hok' : db_ok (h_storage h')) (Hc : coherent h) (Hc' : coherent h')
    (Hsame : same_config h h') (Hlook : looks_alike g (h_storage h) (h_storage h'))
    (Hname : get_str params "name" = Some name) (Htool : name ∈ masked_tools)
    (Hargs : take_token (default (JObject []) (json_get params "arguments")) = (args, token))
    (Hguard : call_guard h token = Some (Some g)) :
  snd <$> handle_tools_call (B := B) rounds blake3_hex o h id (Some params) =
  snd <$> handle_tools_call (B := B) rounds blake3_hex o h' id (Some params).
Proof.
  assert (h_csr h = h_csr h') as Hcsr.
  { pose proof (looks_alike_load g _ _ Hok Hok' Hlook) as He. unfold coherent in *. congruence. }
  pose proof (call_tool_masked (B := B) rounds blake3_hex o h h' g name args Hok Hok' Hlook Hcsr Htool) as Ht.
  assert (call_guard h' token = Some (Some g)) as Hguard'.
  { destruct Hsame. unfold call_guard in *. by rewrite <-sc_guard0, <-sc_token0, <-sc_require0. }
  unfold handle_tools_call. rewrite Hname, Hargs, Hguard, Hguard'.
  assert (∀ k k' r, h_weave_dir k = h_weave_dir k' → append_watch_staleness o k r = append_watch_staleness o k' r) as Ha.
  { intros k k' r Hw. unfold append_watch_staleness. by rewrite Hw. }
  destruct (call_tool rounds blake3_hex o h name args (Some g)) as [[k r]|] eqn:Hk,
    (call_tool rounds blake3_hex o h' name args (Some g)) as [[k' r']|] eqn:Hk'; cbn in Ht |- *; try done. simplify_eq.
  rewrite (Ha k k'); [done|]. rewrite (call_tool_weave_dir _ _ _ _ _ _ _ _ _ Hk), (call_tool_weave_dir _ _ _ _ _ _ _ _ _ Hk').
  apply Hsame.
Qed.

(** A server as its constructors and builders make it, over the database [db]. *)
Inductive built `{Sqlite} `{HashOrder} : Db → McpHandler → Prop :=
| built_new db h : mcp_new db = Some (Ok h) → built db h
| built_open o db h : out_open o = Ok db → mcp_open_with_mode o = Some (Ok h) → built db h
| built_identity db h guard : built db h → built db (with_identity h guard)
| built_token_auth db h provider : built db h → built db (with_token_auth h provider)
| built_require_auth db h require_auth : built db h → built db (with_require_auth h require_auth)
| built_weave_dir db h : built db h → built db (with_weave_dir h)
| built_recheck db h interval : built db h → built db (with_recheck_interval h interval).

Lemma built_coherent `{Sqlite} `{HashOrder} db h : built db h → h_storage h = db ∧ coherent h.
Proof.
  unfold coherent. induction 1 as [db h Hn|o db h Ho Hn| | | | |]; try done.
  - unfold mcp_new in Hn. destruct (load db) as [[g|e]|] eqn:Hl; simplify_eq/=. by split.
  - unfold mcp_open_with_mode in Hn. rewrite Ho in Hn. destruct (load db) as [[g|e]|] eqn:Hl; simplify_eq/=. by split.
Qed.
(** A valid database always makes a server. *)
Lemma mcp_new_total `{SqliteLaws} `{HashOrder} db : db_ok db → (N.of_nat (length (stored_nodes db)) ≤ u32_MAX)%N → ∃ h, mcp_new db = Some (Ok h).
Proof.
  intros Hok Hsmall. destruct (load_rep db _ _ (sqlite_view_lemma db Hok) Hsmall) as (g & Hl & _). unfold mcp_new. rewrite Hl. by eexists.
Qed.

(** C20: the graph a server answers from is the graph of the database it reads.  A
    valid database that fits 32 bits makes a server; one that a constructor made, with
    whatever builders, reads the database it was given, with that database's graph; and
    this graph stays that of the database it reads over any sequence of connections and
    messages, whatever they contain: reloading replaces both or neither, and a pinned
    note changes no node and no edge. *)
Theorem mcp_coherent `{SqliteLaws} {B} `{BitmapLaws B} `{HashOrder} rounds blake3_hex
    parse_request parse_value print_value print_response db :
  (db_ok db → (N.of_nat (length (stored_nodes db)) ≤ u32_MAX)%N → ∃ h, built db h) ∧
  ∀ h h', built db h → rtc (served (B := B) rounds blake3_hex parse_request parse_value print_value print_response) h h' →
    h_storage h = db ∧ load (h_storage h) = Some (Ok (h_csr h)) ∧
    load (h_storage h') = Some (Ok (h_csr h')) ∧ ∀ o h'', maybe_reload o h' = Some h'' → load (h_storage h'') = Some (Ok (h_csr h'')).
Proof.
  split.
  - intros Hok Hsmall. destruct (mcp_new_total db Hok Hsmall) as [h Hh]. exists h. by apply built_new.
  - intros h h' [Hdb Hstart]%built_coherent Hserved. pose proof (served_coherent _ _ _ _ _ _ _ _ Hserved Hstart) as Hc.
    split_and!; [done..|]. intros o h''. by apply reload_coherent.
Qed.

(** ** Examples *)

(** A call from [ui/a.rs] to a symbol elsewhere. *)
Definition ui_db (path symbol : string) : Db :=
  let n p s := mkNode 0 "local" p s "fn" 1 2 "fn s()" in
  (upsert_edge (upsert_nodes empty_db [n "ui/a.rs" "f"; n path symbol]).1 (mkEdge 0 1 2 "CALLS" 0 None None)).1.

Lemma ui_db_ok path symbol : db_ok (ui_db path symbol).
Proof.
  eapply sql_run_ok; [done| |apply empty_db_ok]. eapply rtc_l; [apply step_upsert_nodes|]. apply rtc_once, step_upsert_edge.
Qed.

Definition graph_of (db : Db) : CsrGraph := match load db with Some (Ok g) => g | _ => csr_graph_empty end.

(** An identity that sees [ui] only. *)
Definition ui_guard : RbacGuard := mkGuard (mkIdentity "bob" ["internal"] ["ui"]) (λ _, false).
Definition ui_handler (db : Db) : McpHandler :=
  mkHandler db (graph_of db) false false None None 500 None (Some (λ t, if decide (t = "bob-token") then Some ui_guard else None)) true.
Definition idle : Outside := mkOutside 0 0 None (Err (Backend "")) None (λ _, None) (λ _, None) None [] UnknownFreshness.

Definition impact_call (symbol token : string) : Value :=
  JObject [("name", JString "weave_impact_radius");
           ("arguments", JObject [("symbol", JString symbol); ("_meta", JObject [("token", JString token)])])].

Lemma masked_answers_hide_witness :
  snd <$> handle_tools_call (B := gset N) 9 (λ s, s) idle (ui_handler (ui_db "core/x.rs" "alpha")) None (Some (impact_call "f" "bob-token")) =
  snd <$> handle_tools_call (B := gset N) 9 (λ s, s) idle (ui_handler (ui_db "core/y.rs" "beta")) None (Some (impact_call "f" "bob-token")).
Proof.
  apply (masked_answers_hide 9 (λ s, s) idle _ _ None _ "weave_impact_radius" (JObject [("symbol", JString "f")]) (Some "bob-token") ui_guard).
  - apply ui_db_ok.
  - apply ui_db_ok.
  - vm_compute. reflexivity.
  - vm_compute. reflexivity.
  - split; reflexivity.
  - split; [vm_compute; reflexivity|]. intros i. by rewrite <-!lookup_fmap.
  - reflexivity.
  - by do 2 right; left.
  - vm_compute. reflexivity.
  - vm_compute. reflexivity.
Defined.

Lemma unauthorised_learns_nothing_witness :
  let parse (raw : string) : result JsonRpcRequest string := Ok (mkRpc (Some JNull) "tools/call" (Some (impact_call "f" raw))) in
  let input := "POST / HTTP/1.1" +:+ newline +:+ "Authorization: Bearer eve-token" +:+ newline +:+ newline in
  ∃ r, handle_client (B := gset N) 9 (λ s, s) parse (λ _, None) (λ _, None) (λ _, None) idle (ui_handler (ui_db "core/x.rs" "alpha")) input =
    Some (ui_handler (ui_db "core/x.rs" "alpha"), r).
Proof.
  intros parse input.
  destruct (unauthorised_learns_nothing (B := gset N) 9 (λ s, s) parse (λ _, None) (λ _, None) (λ _, None) idle
    (ui_handler (ui_db "core/x.rs" "alpha")) (ui_handler (ui_db "core/y.rs" "beta")) "eve-token" input) as (_ & _ & r & Hr & _).
  - reflexivity.
  - reflexivity.
  - split; reflexivity.
  - intros t provider [= <-] [= <-]. reflexivity.
  - intros t provider Ht [= <-]. vm_compute in Ht. injection Ht as <-. reflexivity.
  - by exists r.
Defined.

Lemma mcp_coherent_witness :
  let parse (raw : string) : result JsonRpcRequest string := Ok (mkRpc (Some JNull) "ping" None) in
  ∃ h h', built (ui_db "core/x.rs" "alpha") h ∧ h_token_auth h' = h_token_auth h ∧
    rtc (served (B := gset N) 9 (λ s, s) parse (λ _, None) (λ _, None) (λ _, None)) h h' ∧
    load (h_storage h') = Some (Ok (h_csr h')).
Proof.
  intros parse.
  destruct (mcp_coherent (B := gset N) 9 (λ s, s) parse (λ _, None) (λ _, None) (λ _, None) (ui_db "core/x.rs" "alpha")) as [_ Hall].
  set (h0 := mkHandler (ui_db "core/x.rs" "alpha") (graph_of (ui_db "core/x.rs" "alpha")) false false None None 500 None None false).
  assert (built (ui_db "core/x.rs" "alpha") h0) as Hb by (apply built_new; vm_compute; reflexivity).
  assert (served (B := gset N) 9 (λ s, s) parse (λ _, None) (λ _, None) (λ _, None) h0 h0) as Hs
    by (eapply (served_stdio _ _ _ _ _ _ idle _ "{}"); reflexivity).
  exists h0, h0. split; [exact Hb|]. split; [reflexivity|]. split; [by apply rtc_once|].
  apply (Hall h0 h0 Hb). by apply rtc_once.
Defined.

(** The notes are not masked: a caller who sees [ui] only reads the path and the
    name of the symbol a note is pinned to. *)
Theorem recall_notes_unmasked :
  let h := ui_handler (weave_pin_note (λ s, s) idle (ui_db "core/x.rs" "alpha") "alpha" "slow" None None).1 in
  visible ui_guard (mkNode 2 "local" "core/x.rs" "alpha" "fn" 1 2 "fn s()") = false ∧
  snd <$> call_tool (B := gset N) 9 (λ s, s) idle h "weave_recall_notes" (JObject []) (Some ui_guard) =
    Some (tool_ok "#1 [ephemeral] core/x.rs#alpha: slow").
Proof. split; vm_compute; reflexivity. Qed.

(** Neither are the references of a file the caller cannot see. *)
Theorem verify_unmasked :
  let db := (upsert_unresolved_refs (ui_db "core/x.rs" "alpha") "local" "core/x.rs" ["hidden_helper"]).1 in
  snd <$> call_tool (B := gset N) 9 (λ s, s) idle (ui_handler db) "weave_verify" (JObject [("file", JString "core/x.rs")]) (Some ui_guard) =
    Some (tool_ok ("❌ fail: core/x.rs — 1 unresolved reference(s):" +:+ newline +:+
      "  phantom_symbols: unresolved reference to `hidden_helper`")).
Proof. vm_compute. reflexivity. Qed.

(** The modification time is read again after the database is opened.  A file
    replaced in between is served from its old contents, and no later check
    reloads it: the time on record is that of the new file. *)
Theorem reload_race_misses_update :
  let old := ui_db "core/x.rs" "alpha" in
  let new := ui_db "core/y.rs" "beta" in
  let h := mkHandler (ui_db "core/w.rs" "gamma") (graph_of (ui_db "core/w.rs" "gamma")) false true (Some 1%N) None 500 None None false in
  let race := mkOutside 1000 0 (Some (Some 2%N)) (Ok old) (Some (Some 3%N)) (λ _, None) (λ _, None) None [] UnknownFreshness in
  let later := mkOutside 9000 0 (Some (Some 3%N)) (Ok new) (Some (Some 3%N)) (λ _, None) (λ _, None) None [] UnknownFreshness in
  h_storage <$> (maybe_reload race h ≫= maybe_reload later) = Some old ∧ nodes old ≠ nodes new.
Proof. split; [vm_compute; reflexivity|]. intros He. vm_compute in He. discriminate. Qed.
