(* ===== verification/Blast.v ===== *)
(** * The blast radius of a change (blast.rs)

    The symbols a set of changed files can affect, within a number of hops and
    in the chosen direction, folded by module, and the exported symbols among
    the edited ones; and the report in Markdown.  git's list of changed files
    is an argument. *)

From S2P Require Import Prelude Str Bitmap Model Csr Paths CsrGraph Resolve Language Interner ProjectIndex SqlStore Contract Modules Tools.

(** A symbol with where it is: name, path, line. *)
Definition site : Type := string * string * N.
Definition site_leb : site → site → bool := pair_leb (pair_leb String.leb String.leb) N.leb.
Definition node_site (n : Node) : site := (node_symbol n, node_path n, node_line_start n).

(** src/crates/weave-graph-cli/src/blast.rs:23-44 [BlastReport] *)
Record BlastReport := mkBlast {
  blast_base : string;
  blast_head : string;
  changed_files : list string;
  impacted : list site;
  folded : bool;
  blast_modules : list (string * nat * nat * list string);
  exported_touched : list site;
}.

(** src/crates/weave-graph-cli/src/blast.rs:112-117 [parse_depth] *)
Definition parse_depth (arg : string) : N :=
  if decide (arg = "all" ∨ arg = "max") then u32_MAX else default 2%N (parse_uint u32_MAX arg).

Section blast.
Context {B : Type} `{Bitmap B} `{HashOrder} (rounds : nat) {S : Type} `{Storage S}.

(** src/crates/weave-graph-cli/src/blast.rs:169-181 [compute_against]
    What one touched symbol adds; an unknown direction is an error. *)
Definition blast_step (csr : CsrGraph) (direction : string) (max_hops : N) (acc : B) (node : Node) :
    option (result B string) :=
  if decide (direction = "callers") then
    b ← callers_within csr (node_id node) max_hops; Some (Ok (bm_union acc b))
  else if decide (direction = "callees") then
    b ← reachable_within csr (node_id node) max_hops; Some (Ok (bm_union acc b))
  else if decide (direction = "both") then
    b ← callers_within csr (node_id node) max_hops;
    c ← reachable_within csr (node_id node) max_hops;
    Some (Ok (bm_union acc (bm_union b c)))
  else Some (Err ("unknown direction `" +:+ direction +:+ "` (expected callers, callees, or both)")).

(** src/crates/weave-graph-cli/src/blast.rs:167-182 [compute_against] *)
Fixpoint blast_union (csr : CsrGraph) (direction : string) (max_hops : N) (touched : list Node) (acc : B) :
    option (result B string) :=
  match touched with
  | [] => Some (Ok acc)
  | node :: touched =>
      r ← blast_step csr direction max_hops acc node;
      match r with
      | Ok acc => blast_union csr direction max_hops touched acc
      | Err e => Some (Err e)
      end
  end.

(** src/crates/weave-graph-cli/src/blast.rs:183-189 [compute_against] *)
Definition sorted_sites (ns : list Node) : list site := dedup (sort_by site_leb (node_site <$> ns)).

(** src/crates/weave-graph-cli/src/blast.rs:197-204 [compute_against] *)
Definition is_exported (n : Node) : bool :=
  match from_path (node_path n) with
  | Some language => visibility_rule language (trim (node_signature n)) (short_name (node_symbol n))
  | None => false
  end.

(** src/crates/weave-graph-cli/src/blast.rs:216-242 [compute_against]
    The modules with an impacted file: how many of its files and symbols. *)
Definition fold_modules (modules : list FileModule) (impacted_list : list site) : list (string * nat * nat * list string) :=
  let per_path := foldl (λ m (x : site), add_count m x.1.2 1) ∅ impacted_list in
  omap (λ m,
    match filter (λ f, f ∈ ((λ x : site, x.1.2) <$> impacted_list)) (mod_files m) with
    | [] => None
    | hit => Some (mod_label m, length hit, list_sum ((λ f, default 0 (per_path !! f)) <$> hit), hit)
    end) modules.

(** src/crates/weave-graph-cli/src/blast.rs:136-253 [compute_against] *)
Definition compute_against (storage : S) (base head : string) (changed_files : list string) (depth direction : string) :
    option (result BlastReport string) :=
  match all_nodes storage with
  | Err e => Some (Err (storage_error_text e))
  | Ok nodes =>
      match all_edges storage with
      | Err e => Some (Err (storage_error_text e))
      | Ok edges =>
          r ← load storage;
          match r with
          | Err e => Some (Err (storage_error_text e))
          | Ok csr =>
              let touched := filter (λ n, node_path n ∈ changed_files) nodes in
              r ← blast_union csr direction (parse_depth depth) touched bm_new;
              match r with
              | Err e => Some (Err e)
              | Ok reached =>
                  let impacted_list := sorted_sites (omap (λ idx, nodes !! as_usize idx) (bm_iter reached)) in
                  let exported := sorted_sites (filter (λ n, is_exported n = true) touched) in
                  modules ← build_modules rounds nodes (aggregate_file_edges edges (Tools.file_of nodes));
                  Some (Ok (mkBlast base head changed_files impacted_list false (fold_modules modules impacted_list) exported))
              end
          end
      end
  end.
End blast.

(** src/crates/weave-graph-cli/src/blast.rs:21-21 [SYMBOL_BUDGET] *)
Definition SYMBOL_BUDGET : nat := 200.

(** src/crates/weave-graph-cli/src/blast.rs:273-289 [render_markdown] *)
Definition impacted_lines (l : list site) : list string :=
  let by_file : gmap string (list site) := foldl (λ m (x : site), push_to m x.1.2 x) ∅ l in
  [newline +:+ "### Impacted symbols"] ++
  ((λ p : string * list site, "- `" +:+ p.1 +:+ "`: " +:+
      join ", " ((λ x : site, "`" +:+ x.1.1 +:+ "` (L" +:+ dec x.2 +:+ ")") <$> p.2)) <$>
     sort_by (λ a b, String.leb a.1 b.1) (map_to_list by_file)).

(** src/crates/weave-graph-cli/src/blast.rs:290-304 [render_markdown] *)
Definition module_lines (r : BlastReport) : list string :=
  [newline +:+ "### Impacted modules (folded: " +:+ decn (length (impacted r)) +:+ " symbols > " +:+ decn SYMBOL_BUDGET +:+ " budget)"] ++
  ((λ '(label, files, symbols, members),
      "- **" +:+ label +:+ "** [" +:+ decn files +:+ " files, " +:+ decn symbols +:+ " impacted symbols]: " +:+ join ", " members) <$>
     blast_modules r).

(** src/crates/weave-graph-cli/src/blast.rs:306-326 [render_markdown] *)
Definition exported_lines (l : list site) : list string :=
  match l with
  | [] => [newline +:+ "_No exported/public symbols touched by this diff — linked consumers' recorded contract expectations can't have gone stale from this change._"]
  | _ =>
      [newline +:+ "### ⚠️ Exported contract surface touched (" +:+ decn (length l) +:+ ")";
       "Directly edited, not just impacted — a linked consumer's next `weave check-contracts` may report drift because of this:"] ++
      ((λ x : site, "- `" +:+ x.1.1 +:+ "` (`" +:+ x.1.2 +:+ "`:L" +:+ dec x.2 +:+ ")") <$> l)
  end.

(** src/crates/weave-graph-cli/src/blast.rs:255-334 [render_markdown] *)
Definition render_markdown (r : BlastReport) : string :=
  let head :=
    ["## Weave blast radius: `" +:+ blast_base r +:+ "`...`" +:+ blast_head r +:+ "`";
     decn (length (changed_files r)) +:+ " file(s) changed: " +:+ join ", " (changed_files r)] in
  match changed_files r with
  | [] => join newline (head ++ ["_No file changes on the PR side of this range._"])
  | _ =>
      join newline
        (head ++ [decn (length (impacted r)) +:+ " symbols impacted."] ++
         (if length (impacted r) <=? SYMBOL_BUDGET then impacted_lines (impacted r) else module_lines r) ++
         exported_lines (exported_touched r) ++
         [""; "_File-level precision: every symbol in a changed file counts as touched (v1 limit). Generated by `weave blast`; no GitHub networking._"])
  end.

(** ** What the report contains *)

(** [b] is within [k] hops of [a] in the direction asked for. *)
Definition within (direction : string) (E : N → N → Prop) (k : nat) (a b : N) : Prop :=
  (direction ∈ ["callers"; "both"] ∧ bsteps E k b a) ∨ (direction ∈ ["callees"; "both"] ∧ bsteps E k a b).

Lemma bsteps_flip_iff {A} (R : A → A → Prop) k x y : bsteps (flip R) k x y ↔ bsteps R k y x.
Proof.
  assert (∀ R : A → A → Prop, ∀ k x y, bsteps R k x y → bsteps (flip R) k y x) as Hf.
  { clear. intros R k x y. induction 1 as [n x|n x y z Hxy _ IH]; [constructor|]. by eapply bsteps_r. }
  split; [|apply Hf]. intros H%Hf. exact H.
Qed.

Lemma sorted_sites_spec ns :
  StronglySorted (λ x y, site_leb x y = true ∧ x ≠ y) (sorted_sites ns) ∧ ∀ x, x ∈ sorted_sites ns ↔ ∃ n, n ∈ ns ∧ x = node_site n.
Proof.
  unfold sorted_sites. split; [apply dedup_sorted, sort_by_sorted; apply _|].
  intros x. rewrite elem_of_dedup, elem_of_sort_by, list_elem_of_fmap. naive_solver.
Qed.

Section union.
Context {B : Type} `{BitmapLaws B} (g : CsrGraph) (ids : list N) (E : N → N → Prop) (Hg : graph_rep g ids E).
Context (direction : string) (k : N).

Lemma blast_step_rep acc n : direction ∈ ["callers"; "callees"; "both"] → node_id n ∈ ids →
  ∃ b : B, blast_step g direction k acc n = Some (Ok b) ∧
    ∀ x, bm_contains b x = true ↔ bm_contains acc x = true ∨
      ∃ y, ids !! as_usize x = Some y ∧ within direction E (N.to_nat k) (node_id n) y.
Proof.
  intros Hdir Hn. destruct (callers_within_rep (B := B) Hg (node_id n) k) as (b & Hb & Hbs).
  destruct (reachable_within_rep (B := B) Hg (node_id n) k) as (c & Hc & Hcs).
  setoid_rewrite bsteps_flip_iff in Hbs. unfold blast_step, within.
  rewrite !elem_of_cons, elem_of_nil in Hdir. repeat setoid_rewrite elem_of_cons. setoid_rewrite elem_of_nil.
  destruct Hdir as [->|[->|[->|[]]]]; cbn [decide]; rewrite ?Hb, ?Hc; cbn [mbind option_bind].
  all: eexists; split; [reflexivity|]; intros x; rewrite ?bm_contains_union_true, ?Hbs, ?Hcs; clear -Hn; naive_solver eauto.
Qed.

Lemma blast_union_rep touched : direction ∈ ["callers"; "callees"; "both"] → (∀ n, n ∈ touched → node_id n ∈ ids) →
  ∀ acc : B, ∃ b : B, blast_union g direction k touched acc = Some (Ok b) ∧
    ∀ x, bm_contains b x = true ↔ bm_contains acc x = true ∨
      ∃ n y, n ∈ touched ∧ ids !! as_usize x = Some y ∧ within direction E (N.to_nat k) (node_id n) y.
Proof.
  intros Hdir. induction touched as [|n touched IH]; intros Hin acc; cbn [blast_union].
  { exists acc. split; [done|]. intros x. split; [by left|]. intros [?|(? & ? & []%not_elem_of_nil & _)]. done. }
  destruct (blast_step_rep acc n Hdir) as (b & -> & Hb); [apply Hin; by left|]. cbn [mbind option_bind].
  destruct (IH ltac:(intros m ?; apply Hin; by right) b) as (c & -> & Hc). exists c. split; [done|].
  intros x. rewrite Hc, Hb. setoid_rewrite elem_of_cons. clear. split.
  - intros [[?|(y & ? & ?)]|(m & y & ? & ? & ?)]; [by left|right; by exists n, y; auto|right; exists m, y; auto].
  - intros [?|(m & y & [->|?] & ? & ?)]; [auto|left; right; by exists y|right; by exists m, y].
Qed.
End union.

(** ** The folded modules account for every impacted symbol *)

Definition at_path (f : string) (l : list site) : nat := length (filter (λ x : site, x.1.2 = f) l).

Lemma per_path_count l : ∀ (m : gmap string nat) f,
  default 0 (foldl (λ m (x : site), add_count m x.1.2 1) m l !! f) = default 0 (m !! f) + at_path f l.
Proof.
  unfold at_path. induction l as [|x l IH]; intros m f; cbn [foldl]; [cbn; lia|].
  rewrite IH, filter_cons. unfold add_count. case_decide as Hf.
  - rewrite Hf, lookup_insert_eq. cbn. lia.
  - by rewrite lookup_insert_ne.
Qed.

Lemma list_sum_cons x l : list_sum (x :: l) = x + list_sum l.
Proof. reflexivity. Qed.

Lemma sum_at_path fs l : NoDup fs → (∀ x : site, x ∈ l → x.1.2 ∈ fs) → list_sum ((λ f, at_path f l) <$> fs) = length l.
Proof.
  intros Hnd. induction l as [|x l IH]; intros Hin.
  { clear. induction fs; [done|]. by cbn. }
  cbn [length]. rewrite <-IH by (intros; apply Hin; by right). pose proof (Hin x ltac:(by left)) as Hx. clear IH Hin.
  unfold at_path. induction Hnd as [|f fs Hf Hnd IHf]; [by apply not_elem_of_nil in Hx|].
  rewrite !fmap_cons, !list_sum_cons, filter_cons. case_decide as Hfx; cbn [length].
  - assert ((λ f, length (filter (λ y : site, y.1.2 = f) (x :: l))) <$> fs = (λ f, length (filter (λ y : site, y.1.2 = f) l)) <$> fs) as ->.
    { apply list_fmap_ext. intros i f' Hf'%list_elem_of_lookup_2. rewrite filter_cons_False; [done|]. by intros <-; subst f. }
    lia.
  - apply elem_of_cons in Hx as [?|Hx]; [congruence|]. specialize (IHf Hx). lia.
Qed.

Lemma fold_modules_sum modules l : NoDup (concat (mod_files <$> modules)) →
  (∀ x : site, x ∈ l → x.1.2 ∈ concat (mod_files <$> modules)) →
  list_sum ((λ m : string * nat * nat * list string, m.1.2) <$> fold_modules modules l) = length l.
Proof.
  intros Hnd Hin. rewrite <-(sum_at_path _ l Hnd Hin). clear Hnd Hin.
  unfold fold_modules. set (counts := foldl _ ∅ l).
  assert (∀ f, default 0 (counts !! f) = at_path f l) as Hc by (intros f; unfold counts; by rewrite per_path_count, lookup_empty).
  assert (∀ fs, list_sum ((λ f, default 0 (counts !! f)) <$> filter (λ f, f ∈ ((λ x : site, x.1.2) <$> l)) fs) =
                list_sum ((λ f, at_path f l) <$> fs)) as Hs.
  { intros fs. induction fs as [|f fs IH]; [done|]. rewrite filter_cons. case_decide as Hf; [by rewrite !fmap_cons, !list_sum_cons, Hc, IH|rewrite fmap_cons, list_sum_cons, IH].
    replace (at_path f l) with 0; [done|]. unfold at_path. symmetry. apply length_zero_iff_nil.
    apply elem_of_nil_inv. intros x [Hx Hl]%list_elem_of_filter. apply Hf, list_elem_of_fmap. by exists x. }
  induction modules as [|m modules IH]; [done|]. cbn [omap list_omap fmap list_fmap concat].
  rewrite fmap_app, list_sum_app, <-Hs. destruct (filter _ (mod_files m)) as [|h hit]; [exact IH|].
  rewrite fmap_cons, list_sum_cons. f_equal. exact IH.
Qed.

(** ** The report *)

Section exact.
Context `{HashOrderLaws} {B : Type} `{BitmapLaws B} {S : Type} `{Storage S}.

(** The blast report is exact.  For a valid direction, the impacted list is
    strictly sorted and holds exactly the sites of the symbols within
    [parse_depth depth] hops, in that direction, of a symbol in a changed file;
    the exported list is strictly sorted and holds exactly the exported symbols
    of the changed files; and the per-module counts the folded report shows add
    up to the number of impacted symbols, none lost or counted twice. *)
Theorem blast_exact (s : S) ns es rounds ms base head files depth direction
    (Hview : StorageView s ns es) (Hsmall : (N.of_nat (length ns) ≤ u32_MAX)%N)
    (Hdir : direction ∈ ["callers"; "callees"; "both"])
    (Hms : build_modules rounds ns (aggregate_file_edges es (Tools.file_of ns)) = Some ms) :
  ∃ r, compute_against (B := B) rounds s base head files depth direction = Some (Ok r) ∧
    StronglySorted (λ x y, site_leb x y = true ∧ x ≠ y) (impacted r) ∧
    (∀ x, x ∈ impacted r ↔ ∃ m n, m ∈ ns ∧ node_path m ∈ files ∧ n ∈ ns ∧ x = node_site n ∧
       within direction (store_edge ns es) (N.to_nat (parse_depth depth)) (node_id m) (node_id n)) ∧
    StronglySorted (λ x y, site_leb x y = true ∧ x ≠ y) (exported_touched r) ∧
    (∀ x, x ∈ exported_touched r ↔ ∃ n, n ∈ ns ∧ node_path n ∈ files ∧ is_exported n = true ∧ x = node_site n) ∧
    list_sum ((λ m : string * nat * nat * list string, m.1.2) <$> blast_modules r) = length (impacted r).
Proof.
  destruct (load_rep s ns es Hview Hsmall) as (g & Hl & Hg). unfold compute_against.
  rewrite (view_nodes _ _ _ Hview), (view_edges _ _ _ Hview), Hl. cbn [mbind option_bind].
  set (touched := filter _ ns).
  destruct (blast_union_rep (B := B) g _ _ Hg direction (parse_depth depth) touched Hdir) with (acc := bm_new (B := B)) as (b & -> & Hb).
  { intros n [_ Hn]%list_elem_of_filter. by apply list_elem_of_fmap_2. }
  cbn [mbind option_bind]. rewrite Hms. cbn [mbind option_bind]. eexists. split; [reflexivity|]. cbn [impacted exported_touched blast_modules].
  destruct (sorted_sites_spec (omap (λ idx, ns !! as_usize idx) (bm_iter b))) as [Hs Hi].
  destruct (sorted_sites_spec (filter (λ n, is_exported n = true) touched)) as [Hs' He].
  assert (∀ n, n ∈ omap (λ idx, ns !! as_usize idx) (bm_iter b) ↔ n ∈ ns ∧ ∃ m, m ∈ touched ∧
    within direction (store_edge ns es) (N.to_nat (parse_depth depth)) (node_id m) (node_id n)) as Hn.
  { intros n. rewrite list_elem_of_omap. setoid_rewrite bm_iter_spec. setoid_rewrite Hb. setoid_rewrite bm_contains_new. split.
    - intros (x & [?|(m & y & Hm & Hy & Hw)] & Hx); [done|]. rewrite list_lookup_fmap, Hx in Hy. cbn in Hy. simplify_eq.
      split; [by eapply list_elem_of_lookup_2|eauto].
    - intros ((i & Hi')%list_elem_of_lookup & m & Hm & Hw). exists (N.of_nat i). unfold as_usize. rewrite Nat2N.id. split; [|done].
      right. exists m, (node_id n). by rewrite list_lookup_fmap, Hi'. }
  unfold touched in *. setoid_rewrite list_elem_of_filter in Hn. setoid_rewrite list_elem_of_filter in He. setoid_rewrite list_elem_of_filter in He.
  split_and!; [done| |done| |].
  - intros x. rewrite Hi. setoid_rewrite Hn. split.
    + intros (n & (Hin & m & [Hf Hm] & Hw) & ->). by exists m, n.
    + intros (m & n & ? & ? & ? & -> & ?). exists n. split; [split; [done|by exists m]|done].
  - intros x. rewrite He. split; [intros (n & (? & ? & ?) & ->)|intros (n & ? & ? & ? & ->)]; by exists n.
  - pose proof (build_modules_files _ _ _ _ Hms) as Hp. apply fold_modules_sum; [rewrite Hp; apply NoDup_distinct_files|].
    intros x (n & [Hin _]%Hn & ->)%Hi. rewrite Hp, elem_of_distinct_files. by exists n.
Qed.

(** An unknown direction is an error once some symbol is touched. *)
Lemma blast_bad_direction (s : S) ns es rounds base head files depth direction :
  StorageView s ns es → (N.of_nat (length ns) ≤ u32_MAX)%N → direction ∉ ["callers"; "callees"; "both"] →
  (∃ n, n ∈ ns ∧ node_path n ∈ files) →
  compute_against (B := B) rounds s base head files depth direction =
  Some (Err ("unknown direction `" +:+ direction +:+ "` (expected callers, callees, or both)")).
Proof.
  intros Hview Hsmall Hdir (n & Hn & Hf). destruct (load_rep s ns es Hview Hsmall) as (g & Hl & Hg). unfold compute_against.
  rewrite (view_nodes _ _ _ Hview), (view_edges _ _ _ Hview), Hl. cbn [mbind option_bind].
  destruct (filter _ ns) as [|m touched] eqn:Ht.
  { exfalso. apply (not_elem_of_nil n). rewrite <-Ht. by apply list_elem_of_filter. }
  cbn [blast_union]. unfold blast_step. rewrite !not_elem_of_cons in Hdir. destruct Hdir as (? & ? & ? & _).
  by rewrite !decide_False.
Qed.
End exact.

(** ** Examples *)

Definition blast_node (i : N) (path symbol signature : string) : Node := mkNode i "local" path symbol "fn" i i signature.
Definition blast_store : mem_store :=
  ([blast_node 1 "src/a.rs" "main" "fn main()"; blast_node 2 "src/b.rs" "go" "pub fn go()"; blast_node 3 "src/c.rs" "leaf" "fn leaf()"],
   [mkEdge 1 1 2 "CALLS_EXACT" 0 None None; mkEdge 2 2 3 "CALLS_EXACT" 0 None None]%N).

Lemma blast_exact_witness :
  ∃ r, compute_against (B := gset N) 9 blast_store "main" "HEAD" ["src/b.rs"] "1" "callers" = Some (Ok r) ∧
    impacted r = [("go", "src/b.rs", 2%N); ("main", "src/a.rs", 1%N)] ∧ exported_touched r = [("go", "src/b.rs", 2%N)] ∧
    list_sum ((λ m : string * nat * nat * list string, m.1.2) <$> blast_modules r) = 2.
Proof.
  destruct (blast_exact (B := gset N) blast_store blast_store.1 blast_store.2 9
    (default [] (build_modules 9 blast_store.1 (aggregate_file_edges blast_store.2 (Tools.file_of blast_store.1))))
    "main" "HEAD" ["src/b.rs"] "1" "callers") as (r & Hr & _ & _ & _ & _ & Hsum).
  - apply mem_store_view. repeat constructor; cbn; lia.
  - vm_compute. discriminate.
  - by left.
  - vm_compute. reflexivity.
  - exists r. split; [done|]. vm_compute in Hr. injection Hr as <-. done.
Defined.
