(* ===== verification/Scim.v ===== *)
(** * Identities of the command line and the SCIM directory (rbac.rs)

    Where the identity of a masked command comes from: the configuration, the
    directory an identity provider maintains over SCIM, a GitHub token; and the
    SCIM server over its directory file.  JSON and TOML text is read and printed
    by parameters, the answers of GitHub are parameters too. *)

From S2P Require Import Prelude Str Model Auth Language Interner ProjectIndex SqlStore Contract Json Config Spool Http Modules.

(** ** GitHub identities *)

Section github.
(** The three JSON documents the API answers, as they deserialize. *)
Context (json_user : string → option (string * N)) (json_orgs : string → option (list string))
        (json_teams : string → option (list (string * string))).

(** src/crates/weave-graph-cli/src/rbac.rs:55-63 [github_org_markers] *)
Definition github_org_markers (body : string) : list string :=
  match json_orgs body with Some orgs => (λ login, "github-org:" +:+ login) <$> orgs | None => [] end.
(** src/crates/weave-graph-cli/src/rbac.rs:66-75 [github_team_markers] *)
Definition github_team_markers (body : string) : list string :=
  match json_teams body with Some teams => (λ '(org, slug), "github-team:" +:+ org +:+ "/" +:+ slug) <$> teams | None => [] end.
(** src/crates/weave-graph-cli/src/rbac.rs:78-85 [github_identity_from_json] *)
Definition github_identity_from_json (body : string) : option Identity :=
  '(login, id) ← json_user body; Some (mkIdentity ("github:" +:+ login +:+ ":" +:+ dec id) ["github"] []).

(** src/crates/weave-graph-cli/src/rbac.rs:95-134 [github_identity_from_endpoint]
    [request url attempt] is the body the API answers, or [None]. *)
Definition github_identity_from_endpoint (request : string → nat → option string) (endpoint token : string) : option Identity :=
  if is_empty (trim token) then None else
  let get url := match request url 0 with Some b => Some b | None => request url 1 end in
  body ← get endpoint;
  identity ← github_identity_from_json body;
  let base := default endpoint (strip_suffix "/user" endpoint) in
  let orgs := default [] (github_org_markers <$> get (base +:+ "/user/orgs")) in
  let teams := default [] (github_team_markers <$> get (base +:+ "/user/teams")) in
  Some (mkIdentity (subject identity) (roles identity ++ orgs ++ teams) (path_scope identity)).
End github.

(** A role is added unless it is there. *)
Definition add_role (rs : list string) (role : string) : list string := if decide (role ∈ rs) then rs else rs ++ [role].
Definition add_mapped (m : gmap string string) (rs : list string) (key : option string) : list string :=
  match key ≫= (m !!.) with Some role => add_role rs role | None => rs end.

Section identity.
Context `{TomlFormat}.

(** src/crates/weave-graph-cli/src/rbac.rs:194-221 [guard_for]
    The roles the configuration gives a GitHub identity. *)
Definition github_overlay (config : option string) (i : Identity) : Identity :=
  let login := default "" (v ← strip_prefix "github:" (subject i); split_char ":" v !! 0) in
  let rs := foldl add_role (roles i) (default [] (read_github_roles config !! login)) in
  let rs := foldl (λ rs marker,
      let rs := add_mapped (read_github_org_roles config) rs (strip_prefix "github-org:" marker) in
      add_mapped (read_github_team_roles config) rs (strip_prefix "github-team:" marker)) rs rs in
  mkIdentity (subject i) rs (path_scope i).

(** src/crates/weave-graph-cli/src/rbac.rs:141-149 [is_public] *)
Definition node_is_public (n : Node) : bool :=
  match from_path (node_path n) with
  | Some language => visibility_rule language (trim (node_signature n)) (short_name (node_symbol n))
  | None => false
  end.

(** ** The directory file *)

(** src/crates/weave-graph-cli/src/rbac.rs:254-279 [parse_directory] *)
Definition directory_entry (value : Toml) : option UserConfig :=
  match value with
  | TArray arr => Some (mkUser (strings_of arr) None [])
  | TTable tbl =>
      roles ← tbl_get tbl "roles" ≫= toml_array;
      Some (mkUser (strings_of roles) (tbl_get tbl "token" ≫= toml_str) [])
  | _ => None
  end.

(** src/crates/weave-graph-cli/src/rbac.rs:245-281 [parse_directory] *)
Definition parse_directory (content : string) : gmap string UserConfig :=
  match toml_parse content with
  | None => ∅
  | Some table =>
      match tbl_get table "users" ≫= toml_table with
      | None => ∅
      | Some users => read_table directory_entry users
      end
  end.

(** src/crates/weave-graph-cli/src/rbac.rs:237-243 [load_directory] *)
Definition load_directory (file : option string) : gmap string UserConfig :=
  match file with Some content => parse_directory content | None => ∅ end.

(** src/crates/weave-graph-cli/src/rbac.rs:287-308 [save_directory] *)
Definition user_value (u : UserConfig) : Toml :=
  match user_token u with
  | Some t => TTable (tbl_insert (tbl_insert [] "roles" (TArray (TString <$> user_roles u))) "token" (TString t))
  | None => TArray (TString <$> user_roles u)
  end.

(** src/crates/weave-graph-cli/src/rbac.rs:285-311 [save_directory] *)
Definition user_table (users : gmap string UserConfig) : Table :=
  foldl (λ t (p : string * UserConfig), tbl_insert t p.1 (user_value p.2)) [] (map_to_list users).

(** How [fs::write] fares, with [create_dir_all] before it: it succeeds; it fails with
    the file as it was; or it fails once the file is open, and so empty, with some
    bytes of the text in it. *)
Inductive write_outcome := Written | Untouched (error : string) | Truncated (written : nat) (error : string).
(** src/crates/weave-graph-cli/src/rbac.rs:283-318 [save_directory]
    The file afterwards; [print_error] is the text of a failing printer. *)
Definition save_directory (print_error : string) (w : write_outcome) (file : option string) (users : gmap string UserConfig) :
    option string * result () string :=
  match toml_print (tbl_insert [] "users" (TTable (user_table users))) with
  | None => (file, Err print_error)
  | Some rendered =>
      match w with
      | Written => (Some rendered, Ok ())
      | Untouched e => (file, Err e)
      | Truncated n e => (Some (str_take n rendered), Err e)
      end
  end.

(** ** The identity of a command *)

(** src/crates/weave-graph-cli/src/rbac.rs:163-176 [guard_for]
    The roles mapped to the groups a directory entry is in. *)
Definition add_group_roles (mappings : gmap string string) (u : UserConfig) : UserConfig :=
  let groups := omap (strip_prefix "group:") (user_roles u) in
  mkUser (foldl (λ rs g, add_mapped mappings rs (Some g)) (user_roles u) groups) (user_token u) (user_path_scope u).

(** src/crates/weave-graph-cli/src/rbac.rs:158-228 [guard_for]
    [github] is the identity GitHub answers for the token of the environment.
    Every entry of the directory is inserted over the configured users. *)
Definition guard_for (config file : option string) (github : option Identity) (as_subject : option string) : RbacGuard :=
  let directory := add_group_roles (read_rbac_group_mappings config) <$> load_directory file in
  let users := directory ∪ read_rbac_users config in
  let role_users := (λ u, (user_roles u, user_path_scope u)) <$> users in
  let identity :=
    match github with
    | Some i => github_overlay config i
    | None => resolve_identity (with_path_scopes role_users) as_subject
    end in
  mkGuard identity node_is_public.

(** ** The SCIM directory *)

(** src/crates/weave-graph-cli/src/rbac.rs:325-328 [ScimDirectory]
    The snapshot of the last synchronisation, and the contents of the file. *)
Record ScimDirectory := mkDirectory { scim_snapshot : gmap string UserConfig; scim_file : option string }.

(** src/crates/weave-graph-cli/src/rbac.rs:331-334 [ScimDirectory::load] *)
Definition scim_load (file : option string) : ScimDirectory := mkDirectory (load_directory file) file.
(** src/crates/weave-graph-cli/src/rbac.rs:338-341 [ScimDirectory::sync] *)
Definition scim_sync (d : ScimDirectory) : ScimDirectory * nat :=
  let snapshot := load_directory (scim_file d) in (mkDirectory snapshot (scim_file d), size snapshot).

(** src/crates/weave-graph-cli/src/rbac.rs:393-396 [DirectoryMutation] *)
Inductive DirectoryMutation := Provision (subject : string) (roles : list string) | Deprovision (subject : string).

(** src/crates/weave-graph-cli/src/rbac.rs:398-398 [ScimResponse] *)
Definition ScimResponse : Type := N * string.

Definition field (key value : string) : string := quoted key +:+ ":" +:+ value.
Definition braces (s : string) : string := "{" +:+ s +:+ "}".
Definition error_body (message : string) : string := braces (field "error" (quoted message)).

Context (print_error : string).

(** src/crates/weave-graph-cli/src/rbac.rs:345-375 [ScimDirectory::apply] *)
Definition scim_apply (w : write_outcome) (d : ScimDirectory) (m : DirectoryMutation) :
    ScimDirectory * result ScimResponse string :=
  match m with
  | Provision subject roles =>
      if is_empty subject then (d, Err "userName must not be empty") else
      match save_directory print_error w (scim_file d) (<[subject := mkUser roles None []]> (load_directory (scim_file d))) with
      | (file, Err e) => (mkDirectory (scim_snapshot d) file, Err e)
      | (file, Ok _) => (mkDirectory (scim_snapshot d) file, Ok (201%N, braces (field "id" (quoted subject))))
      end
  | Deprovision subject =>
      let users := load_directory (scim_file d) in
      match users !! subject with
      | None => (d, Ok (404%N, error_body ("unknown user " +:+ subject)))
      | Some _ =>
          match save_directory print_error w (scim_file d) (delete subject users) with
          | (file, Err e) => (mkDirectory (scim_snapshot d) file, Err e)
          | (file, Ok _) => (mkDirectory (scim_snapshot d) file, Ok (204%N, ""))
          end
      end
  end.

(** src/crates/weave-graph-cli/src/rbac.rs:379-390 [ScimDirectory::resolve] *)
Definition scim_resolve (d : ScimDirectory) (credential : option string) : Identity :=
  match credential ≫= λ subject, pair subject <$> scim_snapshot d !! subject with
  | Some (subject, u) => mkIdentity subject (user_roles u) (user_path_scope u)
  | None => anonymous
  end.

(** ** The SCIM server *)

Context (from_json : string → result Value string).

(** A role or group: a string, or an object with a [value]. *)
Definition string_or_value (v : Value) : option string :=
  match as_str v with Some s => Some s | None => json_get v "value" ≫= as_str end.

Definition json_strings (l : list Value) : list string := omap string_or_value l.
Definition json_list (json : Value) (key : string) : option (list Value) := v ← json_get json key; as_array v.

(** src/crates/weave-graph-cli/src/rbac.rs:544-580 [provision_request] *)
Definition provision_request (body : string) : result DirectoryMutation string :=
  match from_json body with
  | Err e => Err ("invalid SCIM JSON body: " +:+ e)
  | Ok json =>
      match get_str json "userName" with
      | None => Err "SCIM provision requires a string `userName`"
      | Some subject =>
          let roles := match json_list json "roles" with Some a => json_strings a | None => ["reader"] end in
          let groups := match json_list json "groups" with Some a => json_strings a | None => [] end in
          Ok (Provision subject (roles ++ ((λ s, "group:" +:+ s) <$> groups)))
      end
  end.

Context `{HashOrder}.

(** src/crates/weave-graph-cli/src/rbac.rs:444-502 [ScimServer::handle_request] *)
Definition handle_request (w : write_outcome) (d : ScimDirectory) (method path body : string) :
    ScimDirectory * ScimResponse :=
  let path := default path (strip_prefix "/Users" path) in
  let answer (status : N) (r : ScimDirectory * result ScimResponse string) : ScimDirectory * ScimResponse :=
    (r.1, match r.2 with Ok resp => resp | Err e => (status, error_body e) end) in
  if decide (method = "POST" ∧ path = "/sync") then
    let '(d, count) := scim_sync d in (d, (200%N, braces (field "users" (dec (N.of_nat count)))))
  else if decide (method = "POST" ∧ (path = "" ∨ path = "/")) then
    match provision_request body with
    | Ok m => answer 400%N (scim_apply w d m)
    | Err e => (d, (400%N, error_body e))
    end
  else if decide (method = "DELETE" ∧ path ≠ "") then
    answer 500%N (scim_apply w d (Deprovision (trim_start_by (λ a, bool_decide (a = "/"%char)) path)))
  else if decide (method = "GET" ∧ (path = "" ∨ path = "/")) then
    let list := (λ p : string * UserConfig, quoted p.1) <$> hm_iter (scim_snapshot d) in
    (d, (200%N, braces (field "totalResults" (dec (N.of_nat (length list))) +:+ "," +:+
                        field "Resources" ("[" +:+ join "," list +:+ "]"))))
  else if decide (method = "GET") then
    let subject := trim_start_by (λ a, bool_decide (a = "/"%char)) path in
    match scim_snapshot d !! subject with
    | Some u => (d, (200%N, braces (field "id" (quoted subject) +:+ "," +:+
                                    field "roles" ("[" +:+ join "," (quoted <$> user_roles u) +:+ "]"))))
    | None => (d, (404%N, error_body ("unknown user " +:+ subject)))
    end
  else (d, (405%N, error_body "unsupported")).

(** *** Requests on the wire *)

Fixpoint split_pat (fuel : nat) (pat s : string) : list string :=
  match fuel with
  | 0 => [s]
  | S fuel => match split_once s pat with Some (a, b) => a :: split_pat fuel pat b | None => [s] end
  end.
Definition crlf_lines (s : string) : list string := split_pat (String.length s) crlf s.

(** src/crates/weave-graph-cli/src/rbac.rs:589-590 [read_request] *)
Definition MAX_HEADERS : nat := N.to_nat 65536.
Definition MAX_BODY : N := 1048576.

(** src/crates/weave-graph-cli/src/rbac.rs:656-662 [header_value] *)
Definition header_value (text wanted : string) : option string :=
  head (omap (λ line,
    '(name, value) ← split_once line ":"; if eq_ignore_ascii_case (trim name) wanted then Some (trim value) else None)
    (drop 1 (crlf_lines text))).

(** src/crates/weave-graph-cli/src/rbac.rs:594-612 [read_request]
    The head and what was read past its blank line. *)
Fixpoint scim_head (fuel : nat) (raw : string) (s : list string) : result (string * string * list string) http_error :=
  match fuel with
  | 0 => Err HttpUnexpectedEof
  | S fuel =>
      let '(chunk, s) := sock_read READ_CHUNK s in
      if is_empty chunk then Err HttpUnexpectedEof else
      let raw := raw +:+ chunk in
      match split_once raw crlf2 with
      | Some (head, rest) => Ok (head, rest, s)
      | None => if MAX_HEADERS <? String.length raw then Err HttpInvalidData else scim_head fuel raw s
      end
  end.

(** src/crates/weave-graph-cli/src/rbac.rs:627-636 [read_request] *)
Fixpoint scim_body (fuel : nat) (body : string) (content_length : nat) (s : list string) : result string http_error :=
  if content_length <=? String.length body then Ok (str_take content_length body) else
  match fuel with
  | 0 => Err HttpUnexpectedEof
  | S fuel =>
      let '(chunk, s) := sock_read READ_CHUNK s in
      if is_empty chunk then Err HttpUnexpectedEof else scim_body fuel (body +:+ chunk) content_length s
  end.

(** src/crates/weave-graph-cli/src/rbac.rs:588-654 [read_request] *)
Definition read_request (s : list string) : result (string * string * string * list (string * string)) http_error :=
  let? r := scim_head (S (sock_len s)) "" s in
  let '(head, rest, s) := r in
  let head := from_utf8_lossy head in
  let content_length := default 0%N (header_value head "content-length" ≫= parse_uint u64_MAX) in
  if (MAX_BODY <? content_length)%N then Err HttpInvalidData else
  let? body := scim_body (S (sock_len s)) rest (N.to_nat content_length) s in
  match from_utf8 body with
  | None => Err HttpInvalidData
  | Some body =>
      let ls := crlf_lines head in
      let parts := split_char " " (default "" (ls !! 0)) in
      Ok (default "" (parts !! 0), default "" (parts !! 1), body,
          omap (λ l, '(name, value) ← split_once l ":"; Some (trim name, trim value)) (drop 1 ls))
  end.

(** src/crates/weave-graph-cli/src/rbac.rs:686-694 [write_response] *)
Definition scim_reason (status : N) : string :=
  if (status =? 200)%N then "OK" else if (status =? 201)%N then "Created" else if (status =? 204)%N then "No Content" else
  if (status =? 400)%N then "Bad Request" else if (status =? 404)%N then "Not Found" else
  if (status =? 405)%N then "Method Not Allowed" else "Internal Server Error".
(** src/crates/weave-graph-cli/src/rbac.rs:685-704 [write_response] *)
Definition scim_response_text (r : ScimResponse) : string :=
  "HTTP/1.0 " +:+ dec r.1 +:+ " " +:+ scim_reason r.1 +:+ crlf +:+ "Content-Type: application/scim+json" +:+ crlf +:+
  "Content-Length: " +:+ dec (N.of_nat (String.length r.2)) +:+ crlf2 +:+ r.2.

(** src/crates/weave-graph-cli/src/rbac.rs:513-539 [ScimServer::serve]
    One connection: the directory after it and the response, [None] when the
    request does not read. *)
Definition serve_one (auth_token : option string) (w : write_outcome) (d : ScimDirectory) (stream : list string) :
    ScimDirectory * option ScimResponse :=
  match read_request stream with
  | Err _ => (d, None)
  | Ok (method, path, body, headers) =>
      let authorization := snd <$> (snd <$> list_find (λ h : string * string, eq_ignore_ascii_case h.1 "authorization" = true) headers) in
      if match auth_token with Some token => negb (bearer_token_matches authorization token) | None => false end
      then (d, Some (401%N, error_body "missing or invalid bearer token"))
      else let '(d, r) := handle_request w d method path body in (d, Some r)
  end.

(** src/crates/weave-graph-cli/src/rbac.rs:507-541 [ScimServer::serve]
    The connections in order, each with how its write would fare. *)
Fixpoint serve (auth_token : option string) (d : ScimDirectory) (streams : list (write_outcome * list string)) :
    ScimDirectory * list (option ScimResponse) :=
  match streams with
  | [] => (d, [])
  | (w, stream) :: streams =>
      let '(d, r) := serve_one auth_token w d stream in
      let '(d, rs) := serve auth_token d streams in
      (d, r :: rs)
  end.
End identity.

(** ** The directory file reads back *)

Section saved.
Context `{TomlLaws}.

Lemma strings_of_fmap rs : strings_of (TString <$> rs) = rs.
Proof. unfold strings_of. induction rs as [|r rs IH]; [done|]. cbn. by f_equal. Qed.

Lemma strings_wf rs : forallb toml_wf (TString <$> rs) = true.
Proof. by induction rs. Qed.

Lemma user_value_wf u : toml_wf (user_value u) = true.
Proof.
  unfold user_value. destruct (user_token u); [|apply strings_wf].
  repeat apply insert_wf; try done. apply strings_wf.
Qed.

Lemma directory_user_value u : directory_entry (user_value u) = Some (mkUser (user_roles u) (user_token u) []).
Proof.
  unfold user_value. destruct (user_token u) as [tok|]; cbn [directory_entry]; [|by rewrite strings_of_fmap].
  rewrite !tbl_get_insert. repeat case_decide; try congruence. cbn [mbind option_bind toml_array toml_str]. by rewrite strings_of_fmap.
Qed.

Lemma user_table_get l : NoDup l.*1 → ∀ t k,
  tbl_get (foldl (λ t (p : string * UserConfig), tbl_insert t p.1 (user_value p.2)) t l) k =
  match (list_to_map l : gmap string UserConfig) !! k with Some u => Some (user_value u) | None => tbl_get t k end.
Proof.
  induction l as [|[a u] l IH]; intros Hnd t k; [done|]. cbn [foldl]. rewrite list_to_map_cons.
  apply NoDup_cons in Hnd as [Ha Hnd]. rewrite (IH Hnd), tbl_get_insert. cbn [fst snd]. destruct (decide (a = k)) as [<-|Hk].
  - rewrite lookup_insert_eq. apply not_elem_of_list_to_map_1 in Ha. cbn [fst] in Ha. by rewrite Ha.
  - by rewrite lookup_insert_ne.
Qed.

Lemma user_table_wf l t : table_wf t = true →
  table_wf (foldl (λ t (p : string * UserConfig), tbl_insert t p.1 (user_value p.2)) t l) = true.
Proof.
  revert t. induction l as [|[a u] l IH]; intros t Ht; [done|]. apply IH, insert_wf; [done|apply user_value_wf].
Qed.

(** Entries of a directory have no path scope. *)
Definition unscoped (users : gmap string UserConfig) : Prop := map_Forall (λ _ u, user_path_scope u = []) users.

Lemma load_unscoped file : unscoped (load_directory file).
Proof.
  destruct file as [c|]; [|apply map_Forall_empty]. cbn. unfold parse_directory.
  destruct (toml_parse c) as [t|] eqn:Hc; [|apply map_Forall_empty].
  destruct (tbl_get t "users") as [v|] eqn:Hv; [|apply map_Forall_empty]. cbn. apply toml_parse_wf in Hc.
  apply get_wf in Hv; [|done]. destruct v as [| | | | | |users]; try apply map_Forall_empty. cbn.
  apply andb_true_iff in Hv as [Hs _]. intros k u Hk. rewrite read_table_lookup in Hk by done.
  destruct (tbl_get users k) as [w|]; [|done]. cbn in Hk. destruct w as [| | | | |arr|tbl]; simplify_eq/=; [done|].
  by destruct (tbl_get tbl "roles" ≫= toml_array); simplify_eq/=.
Qed.

Lemma save_load print_error users : unscoped users →
  ∃ content, (∀ w file, save_directory print_error w file users =
      match w with Written => (Some content, Ok ()) | Untouched e => (file, Err e) | Truncated n e => (Some (str_take n content), Err e) end) ∧
    load_directory (Some content) = users.
Proof.
  intros Hu. unfold save_directory.
  assert (table_wf (user_table users) = true) as Hwf by by apply user_table_wf.
  destruct (toml_round_trip (tbl_insert [] "users" (TTable (user_table users)))) as (s & -> & Hs); [by apply insert_wf|].
  exists s. split; [by intros [] ?|]. cbn. unfold parse_directory. rewrite Hs, tbl_get_insert, decide_True by done. cbn [mbind option_bind toml_table].
  apply map_eq. intros k. unfold table_wf in Hwf. cbn in Hwf. apply andb_true_iff in Hwf as [Hsorted _].
  rewrite read_table_lookup by done. unfold user_table. rewrite user_table_get by apply NoDup_fst_map_to_list.
  rewrite list_to_map_to_list. destruct (users !! k) as [u|] eqn:Hk; [|done]. cbn. rewrite directory_user_value.
  specialize (Hu k u Hk). by destruct u; simplify_eq/=.
Qed.
End saved.

(** ** The server refines a directory

    The directory a provider sees: the live entries and those the last
    synchronisation showed. *)

Definition dir_state : Type := gmap string UserConfig * gmap string UserConfig.

(** A path of the server, with or without the prefix of the collection. *)
Inductive endpoint (path : string) : string → Prop :=
| endpoint_users p : path = "/Users" +:+ p → endpoint path p
| endpoint_bare : starts_with path "/Users" = false → endpoint path path.
Definition the_users (path : string) : Prop := endpoint path "" ∨ endpoint path "/".
(** The user a path names, behind any slashes. *)
Inductive behind_slashes : string → string → Prop :=
| behind_none s : starts_with s "/" = false → behind_slashes s s
| behind_slash p s : behind_slashes p s → behind_slashes ("/" +:+ p) s.
Definition one_user (path subject : string) : Prop := ∃ p, endpoint path p ∧ p ≠ "" ∧ behind_slashes p subject.

(** The names a list of strings or of objects with a [value] gives, in order; what is
    neither is left out. *)
Inductive names : list Value → list string → Prop :=
| names_nil : names [] []
| names_string s l ss : names l ss → names (JString s :: l) (s :: ss)
| names_value v s l ss : as_str v = None → json_get v "value" = Some (JString s) → names l ss → names (v :: l) (s :: ss)
| names_other v l ss : as_str v = None → (∀ s, json_get v "value" ≠ Some (JString s)) → names l ss → names (v :: l) ss.
(** The list at a key of the document, if it is one. *)
Inductive listed (json : Value) (key : string) : option (list string) → Prop :=
| listed_some l ss : json_get json key = Some (JArray l) → names l ss → listed json key (Some ss)
| listed_none : (∀ l, json_get json key ≠ Some (JArray l)) → listed json key None.
(** A body that provisions [subject]: it is a reader unless roles are given, and has a
    role for every group. *)
Definition provisions (from_json : string → result Value string) (body subject : string) (roles : list string) : Prop :=
  ∃ json given groups, from_json body = Ok json ∧ json_get json "userName" = Some (JString subject) ∧
    listed json "roles" given ∧ listed json "groups" groups ∧
    roles = default ["reader"] given ++ ((λ g, "group:" +:+ g) <$> default [] groups).

Section spec.
Context `{HashOrder} (from_json : string → result Value string) (w : write_outcome) (method path body : string).
Definition well_formed : Prop := ∃ subject roles, provisions from_json body subject roles ∧ subject ≠ "".
(** After a failed write the file is as it was, or the write had begun. *)
Definition write_failed (live live' : gmap string UserConfig) : Prop :=
  match w with Written => False | Untouched _ => live' = live | Truncated _ _ => True end.

(** One request with its answer. *)
Inductive dir_step : dir_state → ScimResponse → dir_state → Prop :=
| step_provision live seen subject roles :
    method = "POST" → the_users path → provisions from_json body subject roles → subject ≠ "" → w = Written →
    dir_step (live, seen) (201%N, braces (field "id" (quoted subject))) (<[subject := mkUser roles None []]> live, seen)
| step_provision_failed live seen live' message :
    method = "POST" → the_users path → well_formed → write_failed live live' → dir_step (live, seen) (400%N, message) (live', seen)
| step_bad_request st message : method = "POST" → the_users path → ¬ well_formed → dir_step st (400%N, message) st
| step_deprovision live seen subject :
    method = "DELETE" → one_user path subject → is_Some (live !! subject) → w = Written → dir_step (live, seen) (204%N, "") (delete subject live, seen)
| step_deprovision_failed live seen subject live' message :
    method = "DELETE" → one_user path subject → is_Some (live !! subject) → write_failed live live' → dir_step (live, seen) (500%N, message) (live', seen)
| step_unknown live seen subject message :
    method = "DELETE" → one_user path subject → live !! subject = None → dir_step (live, seen) (404%N, message) (live, seen)
| step_sync live seen :
    method = "POST" → path = "/sync" → dir_step (live, seen) (200%N, braces (field "users" (dec (N.of_nat (size live))))) (live, live)
| step_list live seen subjects :
    method = "GET" → the_users path → subjects ≡ₚ (map_to_list seen).*1 →
    dir_step (live, seen) (200%N, braces (field "totalResults" (dec (N.of_nat (size seen))) +:+ "," +:+ field "Resources" ("[" +:+ join "," (quoted <$> subjects) +:+ "]"))) (live, seen)
| step_show live seen subject u :
    method = "GET" → one_user path subject → seen !! subject = Some u →
    dir_step (live, seen) (200%N, braces (field "id" (quoted subject) +:+ "," +:+ field "roles" ("[" +:+ join "," (quoted <$> user_roles u) +:+ "]"))) (live, seen)
| step_show_unknown live seen subject message :
    method = "GET" → one_user path subject → seen !! subject = None → dir_step (live, seen) (404%N, message) (live, seen)
| step_unsupported st message :
    ¬ (method = "POST" ∧ (the_users path ∨ endpoint path "/sync")) → ¬ (method = "DELETE" ∧ ∃ s, one_user path s) → method ≠ "GET" → dir_step st (405%N, message) st
(** Not described: the synchronisation below the standard endpoint
    ([scim_users_sync_refreshes]). *)
| step_outside st r st' : method = "POST" → path = "/Users/sync" → dir_step st r st'.
End spec.

(** The first header of the name has the token. *)
Definition carries (headers : list (string * string)) (token : string) : Prop :=
  ∃ before h after, headers = before ++ h :: after ∧ Forall (λ x : string * string, eq_ignore_ascii_case x.1 "authorization" = false) before ∧
    eq_ignore_ascii_case h.1 "authorization" = true ∧ h.2 = "Bearer " +:+ token.

(** One connection. *)
Inductive connection_step `{HashOrder} (from_json : string → result Value string) (token : option string) (w : write_outcome) (stream : list string) :
    dir_state → option ScimResponse → dir_state → Prop :=
| connection_dropped st e : read_request stream = Err e → connection_step from_json token w stream st None st
| connection_refused st method path body headers t message :
    read_request stream = Ok (method, path, body, headers) → token = Some t → ¬ carries headers t → connection_step from_json token w stream st (Some (401%N, message)) st
| connection_served st method path body headers r st' :
    read_request stream = Ok (method, path, body, headers) → (∀ t, token = Some t → carries headers t) →
    dir_step from_json w method path body st r st' → connection_step from_json token w stream st (Some r) st'.
(** Connections in order. *)
Inductive connections `{HashOrder} (from_json : string → result Value string) (token : option string) :
    dir_state → list (write_outcome * list string) → list (option ScimResponse) → dir_state → Prop :=
| connections_none st : connections from_json token st [] [] st
| connections_next st w stream r st1 streams rs st2 :
    connection_step from_json token w stream st r st1 → connections from_json token st1 streams rs st2 →
    connections from_json token st ((w, stream) :: streams) (r :: rs) st2.

Definition abs `{TomlFormat} (d : ScimDirectory) : dir_state := (load_directory (scim_file d), scim_snapshot d).

(** *** Paths and bodies *)

Lemma endpoint_iff path p : endpoint path p ↔ default path (strip_prefix "/Users" path) = p.
Proof.
  unfold starts_with. split.
  - intros [q ->|Hno].
    + by rewrite (proj2 (strip_prefix_Some _ _ _) eq_refl).
    + unfold starts_with in Hno. apply bool_decide_eq_false in Hno. destruct (strip_prefix _ _) eqn:Hp; [|done]. destruct Hno. eauto.
  - destruct (strip_prefix "/Users" path) as [q|] eqn:Hp; cbn.
    + intros ->. apply endpoint_users. by apply strip_prefix_Some in Hp.
    + intros <-. apply endpoint_bare. unfold starts_with. rewrite Hp. by apply bool_decide_eq_false_2; intros [].
Qed.
Lemma behind_slashes_trim p : behind_slashes p (trim_start_by (λ a, bool_decide (a = "/"%char)) p).
Proof.
  induction p as [|a p IH]; [by apply behind_none|]. cbn [trim_start_by]. case_bool_decide as Ha.
  - subst a. by apply (behind_slash p).
  - apply behind_none. unfold starts_with. cbn [strip_prefix]. rewrite decide_False by done. done.
Qed.
Lemma behind_slashes_det p s s' : behind_slashes p s → behind_slashes p s' → s = s'.
Proof.
  intros Hs. revert s'. induction Hs as [s Hs|p s Hs IH]; intros s' H'; inversion H' as [x Hx|q x Hq]; subst; try done.
  by apply IH.
Qed.
Lemma names_omap l : names l (omap string_or_value l).
Proof.
  induction l as [|v l IH]; [constructor|]. cbn [omap list_omap]. unfold string_or_value at 1. destruct (as_str v) as [s|] eqn:Hv.
  - destruct v; simplify_eq/=. by constructor.
  - destruct (json_get v "value") as [x|] eqn:Hx; cbn [mbind option_bind].
    + destruct (as_str x) as [s|] eqn:Hs; [destruct x; simplify_eq/=; by apply names_value|]. apply names_other; [done| |done]. rewrite Hx. intros s [= ->]. done.
    + apply names_other; [done| |done]. by rewrite Hx.
Qed.
Lemma listed_list json key : listed json key (json_strings <$> json_list json key).
Proof.
  unfold json_list. destruct (json_get json key) as [v|] eqn:Hv; cbn [mbind option_bind]; [|apply listed_none; by rewrite Hv].
  destruct (as_array v) as [l|] eqn:Hl.
  - destruct v; simplify_eq/=. eapply listed_some; [done|apply names_omap].
  - apply listed_none. rewrite Hv. intros l [= ->]. done.
Qed.
Lemma names_det l ss ss' : names l ss → names l ss' → ss = ss'.
Proof. intros Hn. revert ss'. induction Hn; intros ss' H'; inversion H'; subst; simplify_eq/=; try f_equal; auto; congruence || (exfalso; naive_solver). Qed.
Lemma listed_det json key o o' : listed json key o → listed json key o' → o = o'.
Proof. intros [l ss Hl Hs|Hno] [l' ss' Hl' Hs'|Hno']; try naive_solver. rewrite Hl in Hl'. injection Hl' as <-. f_equal. by eapply names_det. Qed.

Lemma provision_request_spec from_json body : match provision_request from_json body with
  | Ok (Provision subject roles) => provisions from_json body subject roles ∧ ∀ s r, provisions from_json body s r → s = subject
  | Ok (Deprovision _) => False
  | Err _ => ∀ s r, ¬ provisions from_json body s r
  end.
Proof.
  unfold provision_request, get_str. destruct (from_json body) as [json|e] eqn:Hj; [|by intros s r (json & ? & ? & Hj' & _); rewrite Hj in Hj'].
  destruct (json_get json "userName" ≫= as_str) as [subject|] eqn:Hu.
  - apply bind_Some in Hu as (v & Hv & Hs). destruct v; simplify_eq/=. split.
    + exists json, (json_strings <$> json_list json "roles"), (json_strings <$> json_list json "groups").
      split_and!; [done..|apply listed_list|apply listed_list|]. by destruct (json_list json "roles"), (json_list json "groups").
    + intros s r (json' & ? & ? & Hj' & Hu' & _). rewrite Hj in Hj'. injection Hj' as <-. congruence.
  - intros s r (json' & ? & ? & Hj' & Hu' & _). rewrite Hj in Hj'. injection Hj' as <-. rewrite Hu' in Hu. done.
Qed.
Lemma header_carries headers tok :
  bearer_token_matches (snd <$> (snd <$> list_find (λ h : string * string, eq_ignore_ascii_case h.1 "authorization" = true) headers)) tok = true ↔ carries headers tok.
Proof.
  rewrite bearer_match. unfold carries. destruct (list_find _ headers) as [[i h]|] eqn:Hf; cbn [fmap option_fmap option_map].
  - apply list_find_Some in Hf as (Hi & Hname & Hmin). cbn [snd]. split.
    + intros [= Hh]. exists (take i headers), h, (drop (S i) headers). split_and!; [by rewrite take_drop_middle| |done..].
      apply Forall_forall. intros x (j & Hj)%list_elem_of_lookup. apply lookup_take_Some in Hj as [Hj Hji]. apply not_true_iff_false. by apply (Hmin j).
    + intros (before & h' & after & -> & Hbefore & Hname' & Hval). f_equal. rewrite <- Hval. f_equal. destruct (lt_eq_lt_dec i (length before)) as [[Hlt|Heq]|Hgt].
      * rewrite lookup_app_l in Hi by done. rewrite Forall_forall in Hbefore. rewrite (Hbefore h) in Hname by (by eapply list_elem_of_lookup_2). done.
      * subst i. rewrite list_lookup_middle in Hi by done. congruence.
      * exfalso. apply (Hmin (length before) h'); [by apply list_lookup_middle|done|done].
  - split; [done|]. intros (before & h & after & -> & _ & Hname & _). apply list_find_None in Hf. rewrite Forall_app, Forall_cons in Hf. by destruct Hf as (_ & Hn & _).
Qed.

Section refine.
Context `{TomlLaws} `{HashOrderLaws} (print_error : string) (from_json : string → result Value string).
Notation apply := (scim_apply print_error).
Notation handle := (handle_request print_error from_json).

Lemma unscoped_insert users subject roles : unscoped users → unscoped (<[subject := mkUser roles None []]> users).
Proof. intros. by apply map_Forall_insert_2. Qed.
Lemma unscoped_delete users subject : unscoped users → unscoped (delete subject users).
Proof. apply map_Forall_delete. Qed.

(** A write of a directory: what is read back, and whether it failed. *)
Lemma save_step w file users : unscoped users →
  match save_directory print_error w file users with
  | (file', Ok _) => w = Written ∧ load_directory file' = users
  | (file', Err _) => write_failed w (load_directory file) (load_directory file')
  end.
Proof. intros Hu. destruct (save_load print_error users Hu) as (c & -> & Hc). by destruct w. Qed.

Lemma provision_step w d method path body subject roles : method = "POST" → the_users path → provisions from_json body subject roles →
  (∀ s r, provisions from_json body s r → s = subject) →
  let '(d', r) := apply w d (Provision subject roles) in
  dir_step from_json w method path body (abs d) (match r with Ok resp => resp | Err e => (400%N, error_body e) end) (abs d').
Proof.
  intros Hm Hp Hpr Hone. cbn [scim_apply]. destruct (decide (subject = "")) as [->|Hne].
  - cbn [is_empty]. apply step_bad_request; [done..|]. intros (s & r & Hs & Hne). apply Hne. by eapply Hone.
  - assert (is_empty subject = false) as -> by by destruct subject. pose proof (load_unscoped (scim_file d)) as Hu.
    pose proof (save_step w (scim_file d) _ (unscoped_insert _ subject roles Hu)) as Hsave.
    destruct (save_directory _ _ _ _) as [file [[]|e]]; unfold abs; cbn [scim_file scim_snapshot].
    + destruct Hsave as [Hw ->]. by apply step_provision.
    + apply step_provision_failed; [done..|by exists subject, roles|done].
Qed.
Lemma deprovision_step w d method path body subject : method = "DELETE" → one_user path subject →
  let '(d', r) := apply w d (Deprovision subject) in
  dir_step from_json w method path body (abs d) (match r with Ok resp => resp | Err e => (500%N, error_body e) end) (abs d').
Proof.
  intros Hm Hp. cbn [scim_apply]. destruct (load_directory (scim_file d) !! subject) as [u|] eqn:Hl; [|by eapply step_unknown].
  pose proof (load_unscoped (scim_file d)) as Hu. pose proof (save_step w (scim_file d) _ (unscoped_delete _ subject Hu)) as Hsave.
  destruct (save_directory _ _ _ _) as [file [[]|e]]; unfold abs; cbn [scim_file scim_snapshot].
  - destruct Hsave as [Hw ->]. by apply step_deprovision.
  - by eapply step_deprovision_failed.
Qed.

Lemma handle_step w d method path body : let '(d', r) := handle w d method path body in dir_step from_json w method path body (abs d) r (abs d').
Proof.
  unfold handle_request. set (p := default path _). assert (∀ q, endpoint path q ↔ p = q) as Hp by apply endpoint_iff.
  assert (the_users path ↔ p = "" ∨ p = "/") as Hall by (unfold the_users; by rewrite !Hp).
  assert (p ≠ "" → one_user path (trim_start_by (λ a, bool_decide (a = "/"%char)) p)) as Hone.
  { intros Hne. exists p. split_and!; [by apply Hp|done|apply behind_slashes_trim]. }
  case_decide as C1; [|case_decide as C2; [|case_decide as C3; [|case_decide as C4; [|case_decide as C5]]]].
  - destruct C1 as [Hm Hs]. apply Hp in Hs. inversion Hs as [q Hq|Hq]; subst; [by apply step_outside|]. cbn. by apply step_sync.
  - destruct C2 as [Hm Hs%Hall]. pose proof (provision_request_spec from_json body) as Hspec. destruct (provision_request from_json body) as [[subject roles|]|e]; [|done|].
    + destruct Hspec as [Hpr Huniq]. pose proof (provision_step w d method path body subject roles Hm Hs Hpr Huniq) as Hstep. by destruct (apply w d _).
    + apply step_bad_request; [done..|]. intros (s & r & Hs' & _). by apply Hspec in Hs'.
  - destruct C3 as [Hm Hne]. pose proof (deprovision_step w d method path body _ Hm (Hone Hne)) as Hstep. by destruct (apply w d _).
  - destruct C4 as [Hm Hs%Hall]. assert (length ((λ p : string * UserConfig, quoted p.1) <$> hm_iter (scim_snapshot d)) = size (scim_snapshot d)) as ->.
    { rewrite length_fmap, (Permutation_length (hm_iter_perm (scim_snapshot d))). apply length_map_to_list. }
    pose proof (step_list from_json w method path body (load_directory (scim_file d)) (scim_snapshot d) (hm_iter (scim_snapshot d)).*1 Hm Hs) as Hstep.
    rewrite <- list_fmap_compose in Hstep. apply Hstep. apply fmap_Permutation, hm_iter_perm.
  - assert (p ≠ "") as Hne by (intros Hq; apply C4; split; [done|by left]). specialize (Hone Hne). set (subject := trim_start_by _ p) in *.
    destruct (scim_snapshot d !! subject) as [u|] eqn:Hs; [by apply step_show|by eapply step_show_unknown].
  - apply step_unsupported; [|intros [Hm (s & q & Hq%Hp & Hne & _)]; subst q; by apply C3|done]. intros [Hm [Hs%Hall|Hs%Hp]]; [by apply C2|by apply C1].
Qed.

Lemma serve_one_step token w d stream : let '(d', r) := serve_one print_error from_json token w d stream in
  connection_step from_json token w stream (abs d) r (abs d').
Proof.
  unfold serve_one. destruct (read_request stream) as [[[[method path] body] headers]|e] eqn:Hr; [|by eapply connection_dropped].
  pose proof (header_carries headers) as Hc. set (auth := snd <$> _) in *. destruct token as [t|].
  - specialize (Hc t). destruct (bearer_token_matches auth t); cbn [negb].
    + pose proof (handle_step w d method path body) as Hs. destruct (handle w d method path body) as [d' r]. eapply connection_served; [done| |done].
      intros t' [= <-]. by apply Hc.
    + eapply connection_refused; [done..|]. by intros ?%Hc.
  - pose proof (handle_step w d method path body) as Hs. destruct (handle w d method path body) as [d' r]. by eapply connection_served.
Qed.

(** C25: The SCIM server refines a directory with a snapshot.  Over every sequence of
    connections, well-formed or not, with any of the writes failing before or after the
    file is opened, the entries read back from the file and the snapshot change exactly
    as the requests say and the answers report.  Provisioning, answered 201, replaces the
    entry of the user the body names with the roles and groups the body lists (a reader
    if it lists none), and no other; deprovisioning, answered 204, removes the user the
    path names and no other, and is answered 404 when there is none; only [POST /sync]
    changes the snapshot, which then equals the live entries; the two GET requests show
    the snapshot; anything else is refused and changes nothing.  With a token, a request
    without it is answered 401 and changes nothing.  A failed write is answered 400 or
    500; if it failed with the file open, nothing is said of the entries left
    ([failed_write_loses_directory]), nor of a synchronisation asked for below the
    standard endpoint.  The file can be read whenever it is there. *)
Theorem scim_refines_directory token d streams :
  let '(d', rs) := serve print_error from_json token d streams in connections from_json token (abs d) streams rs (abs d').
Proof.
  revert d. induction streams as [|[w stream] streams IH]; intros d; cbn [serve]; [constructor|].
  pose proof (serve_one_step token w d stream) as Hs. destruct (serve_one print_error from_json token w d stream) as [d1 r].
  specialize (IH d1). destruct (serve _ _ token d1 streams) as [d2 rs]. by eapply connections_next.
Qed.

(** What a subject without a GitHub identity resolves to: the directory first,
    then the configuration. *)
Lemma guard_identity config file s :
  identity (guard_for config file None (Some s)) =
  match load_directory file !! s, read_rbac_users config !! s with
  | Some u, _ => let u := add_group_roles (read_rbac_group_mappings config) u in mkIdentity s (user_roles u) (user_path_scope u)
  | None, Some u => mkIdentity s (user_roles u) (user_path_scope u)
  | None, None => anonymous
  end.
Proof.
  unfold guard_for, resolve_identity. cbn. rewrite lookup_fmap, lookup_union, lookup_fmap.
  destruct (load_directory file !! s), (read_rbac_users config !! s); done.
Qed.

Lemma slash_free s : starts_with s "/" = false → trim_start_by (λ a, bool_decide (a = "/"%char)) s = s.
Proof.
  destruct s as [|a s]; [done|]. cbn [trim_start_by]. intros Hs. case_bool_decide as Ha; [|done]. subst a. by vm_compute in Hs.
Qed.

(** Deprovisioning revokes access.  When the write succeeds, DELETE of an
    entry is answered 204 and removes it and nothing else; a command run as that
    subject, unless the configuration names it too, then sees exactly the public
    symbols, and so does every reader of the snapshot from the next
    synchronisation on. *)
Theorem scim_deprovision_revokes config d s body
    (Hs : starts_with s "/" = false) (Hin : is_Some (load_directory (scim_file d) !! s)) :
  let '(d', r) := handle Written d "DELETE" ("/Users/" +:+ s) body in
  r = (204%N, "") ∧ load_directory (scim_file d') = delete s (load_directory (scim_file d)) ∧
  (read_rbac_users config !! s = None → ∀ n, visible (guard_for config (scim_file d') None (Some s)) n = node_is_public n) ∧
  scim_resolve d' (Some s) = scim_resolve d (Some s) ∧ scim_resolve (scim_sync d').1 (Some s) = anonymous.
Proof.
  unfold handle_request. change (strip_prefix "/Users" ("/Users/" +:+ s)) with (Some (String "/" s)).
  change (default ("/Users/" +:+ s) (Some (String "/" s))) with (String "/" s).
  rewrite !decide_False by naive_solver. rewrite decide_True by done.
  assert (trim_start_by (λ a, bool_decide (a = "/"%char)) (String "/" s) = s) as ->.
  { cbn [trim_start_by]. rewrite bool_decide_eq_true_2 by done. by apply slash_free. }
  cbn [scim_apply]. destruct Hin as [u Hu]. rewrite Hu.
  destruct (save_load print_error (delete s (load_directory (scim_file d)))) as (c & -> & Hc); [apply unscoped_delete, load_unscoped|].
  cbn [fst snd scim_file]. split_and!; [done|exact Hc| |done|].
  - intros Hcfg n. unfold visible. rewrite guard_identity, Hc, lookup_delete_eq, Hcfg. done.
  - unfold scim_resolve, scim_sync. cbn [scim_file scim_snapshot fst mbind option_bind]. by rewrite Hc, lookup_delete_eq.
Qed.
(** A write that fails once the file is open costs every entry: the empty file reads as
    an empty directory, and the next request that is answered with success writes
    only its own. *)
Theorem failed_write_loses_directory d s roles s2 roles2 e : s ≠ "" → s2 ≠ "" →
  let d1 := (apply (Truncated 0 e) d (Provision s roles)).1 in
  load_directory (scim_file d1) = ∅ ∧ load_directory (scim_file (apply Written d1 (Provision s2 roles2)).1) = {[s2 := mkUser roles2 None []]}.
Proof.
  intros Hs Hs2. cbn zeta. set (d1 := (apply (Truncated 0 e) d (Provision s roles)).1). assert (load_directory (scim_file d1) = ∅) as He.
  { unfold d1. cbn [scim_apply]. assert (is_empty s = false) as -> by by destruct s.
    destruct (save_load print_error (<[s := mkUser roles None []]> (load_directory (scim_file d)))) as (c & -> & _); [apply unscoped_insert, load_unscoped|].
    cbn. unfold parse_directory. by rewrite toml_parse_empty. }
  split; [done|]. cbn [scim_apply]. assert (is_empty s2 = false) as -> by by destruct s2. rewrite He.
  destruct (save_load print_error (<[s2 := mkUser roles2 None []]> ∅)) as (c & -> & Hc); [apply unscoped_insert, map_Forall_empty|]. exact Hc.
Qed.
End refine.

(** ** Examples *)

Definition no_json (_ : string) : result Value string := Ok (JObject [("userName", JString "alice"); ("roles", JArray [JString "internal"])]).
Definition scim_config : option string :=
  toml_print [("rbac", TTable [("users", TTable [("alice", TTable [("path_scope", TArray [TString "src/ui"]);
                                                                    ("roles", TArray [TString "internal"])])])])].
Definition scim_start : ScimDirectory := scim_load None.
Definition with_alice : ScimDirectory := (handle_request "" no_json Written scim_start "POST" "/Users" "").1.
Definition core_node : Node := mkNode 1 "local" "src/core/a.rs" "secret" "fn" 1 2 "fn secret()".

Lemma scim_deprovision_revokes_witness :
  let '(d', r) := handle_request "" no_json Written with_alice "DELETE" "/Users/alice" "" in
  r = (204%N, "") ∧ (∀ n, visible (guard_for None (scim_file d') None (Some "alice")) n = node_is_public n).
Proof.
  pose proof (scim_deprovision_revokes "" no_json None with_alice "alice" "" eq_refl) as Hr.
  destruct (handle_request "" no_json Written with_alice "DELETE" "/Users/alice" "") as [d' r] eqn:Hd.
  change ("/Users/" +:+ "alice") with "/Users/alice" in Hr. rewrite Hd in Hr.
  destruct Hr as (Hr & _ & Hv & _); [vm_compute; eexists; reflexivity|]. split; [done|]. apply Hv. reflexivity.
Defined.

(** A user whose internal role the configuration limits to a path becomes
    unlimited when the identity provider provisions the same role: the entry of
    the directory replaces the configured one and has no path scope. *)
Theorem scim_entry_drops_path_scope :
  visible (guard_for scim_config (scim_file scim_start) None (Some "alice")) core_node = false ∧
  visible (guard_for scim_config (scim_file with_alice) None (Some "alice")) core_node = true.
Proof. split; vm_compute; reflexivity. Qed.

(** A refresh of the snapshot is reachable below the standard endpoint. *)
Theorem scim_users_sync_refreshes :
  (handle_request "" no_json Written with_alice "POST" "/Users/sync" "").1 = (scim_sync with_alice).1 ∧
  scim_snapshot with_alice ≠ scim_snapshot (scim_sync with_alice).1.
Proof. split; [vm_compute; reflexivity|]. vm_compute. discriminate. Qed.

(** A refused request is answered with the text of a server error. *)
Theorem scim_401_reason : scim_reason 401 = "Internal Server Error".
Proof. reflexivity. Qed.

Definition post_alice : list string :=
  ["POST /Users HTTP/1.1" +:+ crlf +:+ "Authorization: Bear"; "er t" +:+ crlf +:+ "Content-Length: 2" +:+ crlf2 +:+ "{"; "}"].

Lemma scim_refines_directory_witness :
  ∃ d', serve "" no_json (Some "t") scim_start [(Written, ["GET /Users"]); (Written, post_alice)] =
    (d', [None; Some (201%N, braces (field "id" (quoted "alice")))]) ∧
  connections no_json (Some "t") (abs scim_start) [(Written, ["GET /Users"]); (Written, post_alice)] [None; Some (201%N, braces (field "id" (quoted "alice")))] (abs d').
Proof.
  pose proof (scim_refines_directory "" no_json (Some "t") scim_start [(Written, ["GET /Users"]); (Written, post_alice)]) as Hr.
  destruct (serve "" no_json (Some "t") scim_start _) as [d' rs] eqn:Hs. exists d'.
  assert (rs = [None; Some (201%N, braces (field "id" (quoted "alice")))]) as ->; [|done].
  apply (f_equal snd) in Hs. vm_compute in Hs. rewrite <-Hs. vm_compute. reflexivity.
Defined.
