(* ===== verification/Verify.v ===== *)
(** * Pre-flight verification (verify.rs, git.rs)

    [weave verify]: phantom symbols, submodule encapsulation, stale submodule
    references and guarded symbols, over the indexed graph, with the verdict
    pass, fail or incomplete.  The YAML of .weave/contracts.yml is read by a
    parameter; what git says of a submodule, and the contract its files declare
    now, are arguments. *)

From S2P Require Import Prelude Str Model Language Interner ProjectIndex SqlStore Contract Json Modules Tools.

(** src/crates/weave-graph-cli/src/git.rs:221-231 [discover_submodules]
    One line of .gitmodules. *)
Definition gitmodules_line (st : option string * list Submodule) (line : string) : option string * list Submodule :=
  let '(current, subs) := st in
  let trimmed := trim line in
  match strip_prefix ("[submodule " +:+ String "034"%char "") trimmed with
  | Some rest => (strip_suffix (String "034"%char "]") rest, subs)
  | None =>
      match split_once trimmed "=", current with
      | Some (key, value), Some name =>
          if decide (trim key = "path") then (current, subs ++ [mkSubmodule name (trim value)]) else st
      | _, _ => st
      end
  end.

(** src/crates/weave-graph-cli/src/git.rs:213-234 [discover_submodules] *)
Definition discover_submodules (content : option string) : list Submodule :=
  match content with Some c => (foldl gitmodules_line (None, []) (lines c)).2 | None => [] end.

(** ** The configuration *)

(** src/crates/weave-graph-cli/src/verify.rs:37-41 [RequiredGuardSpec] *)
Record RequiredGuardSpec := mkGuardSpec { guard_symbol : string; allowed_callers : list string }.

(** src/crates/weave-graph-cli/src/verify.rs:50-57 [VerifyConfig] *)
Record VerifyConfig := mkVerifyConfig {
  enforce_submodule_visibility : bool;
  reject_dirty_working_tree : bool;
  qualify_changed_commits : bool;
  reject_unresolved_phantom_symbols : bool;
  phantom_symbol_exempt_globs : list string;
  required_guards : list RequiredGuardSpec;
}.
(** src/crates/weave-graph-cli/src/verify.rs:60-69 [VerifyConfig::default] *)
Definition verify_default : VerifyConfig := mkVerifyConfig true true true true [] [].

(** src/crates/weave-graph-cli/src/verify.rs:132-184 [ContractsFile]
    The file as it deserializes: an absent field is [None]. *)
Record ContractsFile := mkContractsFile {
  cf_enforce_visibility : option bool;
  cf_reject_dirty : option bool;
  cf_qualify_changed : option bool;
  cf_reject_unresolved : option bool;
  cf_exempt_globs : option (list string);
  cf_required_guards : option (list RequiredGuardSpec);
}.

(** src/crates/weave-graph-cli/src/verify.rs:195-218 [load_config] *)
Definition load_config (from_yaml : string → result ContractsFile string) (content : option string) (path : string) :
    result VerifyConfig string :=
  match content with
  | None => Ok verify_default
  | Some raw =>
      match from_yaml raw with
      | Err e => Err (path +:+ ": invalid YAML: " +:+ e)
      | Ok f =>
          Ok (mkVerifyConfig (default true (cf_enforce_visibility f)) (default true (cf_reject_dirty f))
                (default true (cf_qualify_changed f)) (default true (cf_reject_unresolved f))
                (default [] (cf_exempt_globs f)) (default [] (cf_required_guards f)))
      end
  end.

(** src/crates/weave-graph-cli/src/verify.rs:76-81 [glob_matches] *)
Definition exempt_glob (pattern path : string) : bool :=
  match strip_suffix "/**" pattern with
  | Some prefix => bool_decide (path = prefix) || starts_with path (prefix +:+ "/")
  | None => bool_decide (pattern = path)
  end.

(** ** Findings *)

(** src/crates/weave-graph-cli/src/verify.rs:221-225 [VerifyStatus] *)
Inductive VerifyStatus := VerifyPass | VerifyFail | VerifyIncomplete.
#[export] Instance VerifyStatus_eq_dec : EqDecision VerifyStatus.
Proof. solve_decision. Defined.
(** src/crates/weave-graph-cli/src/verify.rs:228-234 [VerifyStatus::exit_code] *)
Definition exit_code (s : VerifyStatus) : Z := match s with VerifyPass => 0 | VerifyFail => 1 | VerifyIncomplete => 2 end.
(** src/crates/weave-graph-cli/src/verify.rs:236-242 [VerifyStatus::as_str] *)
Definition verify_status_str (s : VerifyStatus) : string :=
  match s with VerifyPass => "pass" | VerifyFail => "fail" | VerifyIncomplete => "incomplete" end.

(** src/crates/weave-graph-cli/src/verify.rs:246-250 [Finding] *)
Record VerifyFinding := mkVFinding { vf_check : string; vf_file : string; vf_message : string }.

(** src/crates/weave-graph-cli/src/verify.rs:253-258 [SubmoduleSummary] *)
Record SubmoduleSummary := mkSummary { sum_total : nat; sum_unchanged : nat; sum_changed : nat; sum_dirty : nat }.

(** src/crates/weave-graph-cli/src/verify.rs:260-269 [VerifyReport] *)
Record VerifyReport := mkVerifyReport {
  vr_status : VerifyStatus;
  vr_target_file : option string;
  vr_target_range : option (N * N);
  vr_submodules : SubmoduleSummary;
  vr_findings : list VerifyFinding;
  vr_detected_languages : list string;
  vr_completed_checks : list string;
  vr_skipped_checks : list (string * string);
}.

Definition json_nat (n : nat) : Value := JNumber (PosInt (N.of_nat n)).
Definition json_opt {A} (f : A → Value) (o : option A) : Value := match o with Some x => f x | None => JNull end.

(** src/crates/weave-graph-cli/src/verify.rs:273-301 [VerifyReport::to_json] *)
Definition verify_to_json (r : VerifyReport) : Value :=
  JObject [("schema_version", json_nat 1); ("status", JString (verify_status_str (vr_status r)));
    ("target", JObject [("file", json_opt JString (vr_target_file r));
                        ("range", json_opt (λ '(a, b), JArray [JNumber (PosInt a); JNumber (PosInt b)]) (vr_target_range r))]);
    ("submodules", JObject [("total", json_nat (sum_total (vr_submodules r))); ("unchanged", json_nat (sum_unchanged (vr_submodules r)));
                            ("changed", json_nat (sum_changed (vr_submodules r))); ("dirty", json_nat (sum_dirty (vr_submodules r)))]);
    ("findings", JArray ((λ f, JObject [("check", JString (vf_check f)); ("file", JString (vf_file f)); ("message", JString (vf_message f))])
                           <$> vr_findings r));
    ("coverage", JObject [("detected_languages", JArray (JString <$> vr_detected_languages r));
                          ("completed_checks", JArray (JString <$> vr_completed_checks r));
                          ("skipped_checks", JArray ((λ '(name, reason), JObject [("check", JString name); ("reason", JString reason)])
                                                       <$> vr_skipped_checks r))])].

(** src/crates/weave-graph-cli/src/verify.rs:303-334 [VerifyReport::print_text] *)
Definition verify_text (r : VerifyReport) : string :=
  let icon := match vr_status r with VerifyPass => "✅" | VerifyFail => "❌" | VerifyIncomplete => "⚠️" end in
  let s := vr_submodules r in
  String.concat "" ((λ l, l +:+ newline) <$>
    ([icon +:+ " " +:+ verify_status_str (vr_status r)] ++
     match vr_target_file r, vr_target_range r with
     | Some file, Some (a, b) => ["  target: " +:+ file +:+ ":" +:+ dec a +:+ "-" +:+ dec b]
     | Some file, None => ["  target: " +:+ file]
     | None, _ => []
     end ++
     ((λ f, "  [" +:+ vf_check f +:+ "] " +:+ vf_file f +:+ ": " +:+ vf_message f) <$> vr_findings r) ++
     (if 0 <? sum_total s then
        ["  submodules: " +:+ decn (sum_total s) +:+ " total, " +:+ decn (sum_unchanged s) +:+ " unchanged, " +:+
         decn (sum_changed s) +:+ " changed, " +:+ decn (sum_dirty s) +:+ " dirty"] else []) ++
     ((λ '(name, reason), "  skipped [" +:+ name +:+ "]: " +:+ reason) <$> vr_skipped_checks r))).

(** src/crates/weave-graph-cli/src/verify.rs:337-350 [language_name] *)
Definition language_name (path : string) : option string :=
  l ← from_path path;
  Some match l with
       | LangRust => "rust" | LangPython => "python" | LangGo => "go" | LangTypeScript | LangTsx => "typescript"
       | LangJavaScript => "javascript" | LangJava => "java" | LangC => "c" | LangCpp => "cpp" | _ => "other"
       end.

(** ** The checks *)

Definition node_moniker (n : Node) : string := moniker_build (node_path n) (node_symbol n).

(** src/crates/weave-graph-cli/src/verify.rs:103-118 [required_guard_violations]
    One edge, for a guard and the node it protects. *)
Definition guard_edge (nodes : list Node) (guard : RequiredGuardSpec) (protected : Node) (e : Edge) : option VerifyFinding :=
  if decide (target_id e = node_id protected) then
    caller ← snd <$> list_find (λ n, node_id n = source_id e) nodes;
    if decide (node_moniker caller ∈ allowed_callers guard) then None
    else Some (mkVFinding "required_guards" (node_path caller)
                 (node_moniker caller +:+ " calls guarded symbol " +:+ guard_symbol guard +:+ " but isn't in its allowed_callers list"))
  else None.

(** src/crates/weave-graph-cli/src/verify.rs:92-122 [required_guard_violations] *)
Definition required_guard_violations (nodes : list Node) (edges : list Edge) (guards : list RequiredGuardSpec) : list VerifyFinding :=
  guards ≫= λ guard,
    match list_find (λ n, node_moniker n = guard_symbol guard) nodes with
    | None => []
    | Some (_, protected) => omap (guard_edge nodes guard protected) edges
    end.

(** [nodes.iter().map(|n| (n.id, n)).collect()]: the last entry wins. *)
Definition node_by_id (nodes : list Node) (i : N) : option Node := last (filter (λ n, node_id n = i) nodes).

Definition sub_prefix (s : Submodule) : string := trim_end_by (λ a, bool_decide (a = "/"%char)) (sub_path s) +:+ "/".

(** src/crates/weave-graph-cli/src/verify.rs:393-421 [submodule_encapsulation_violations]
    One edge, for one submodule. *)
Definition boundary_edge (nodes : list Node) (target_paths : option (list string)) (s : Submodule) (e : Edge) : option VerifyFinding :=
  source ← node_by_id nodes (source_id e);
  target ← node_by_id nodes (target_id e);
  if match target_paths with Some paths => negb (bool_decide (node_path source ∈ paths)) | None => false end then None else
  if starts_with (node_path source) (sub_prefix s) || negb (starts_with (node_path target) (sub_prefix s)) then None else
  language ← from_path (node_path target);
  if visibility_rule language (trim (node_signature target)) (short_name (node_symbol target)) then None else
  Some (mkVFinding "submodule_boundaries" (node_path source)
          ("`" +:+ node_symbol source +:+ "` calls `" +:+ node_symbol target +:+ "` in submodule `" +:+ sub_path s +:+ "`, which is not exported")).

(** src/crates/weave-graph-cli/src/verify.rs:383-425 [submodule_encapsulation_violations] *)
Definition submodule_encapsulation_violations (nodes : list Node) (edges : list Edge) (submodules : list Submodule)
    (target_paths : option (list string)) : list VerifyFinding :=
  submodules ≫= λ s, omap (boundary_edge nodes target_paths s) edges.

Section verify.
Context `{Sqlite} (sha256 : string → string) (from_yaml : string → result ContractsFile string).

(** src/crates/weave-graph-cli/src/verify.rs:364-375 [phantom_symbols] *)
Definition phantom_of (path name : string) : VerifyFinding :=
  mkVFinding "phantom_symbols" path
    ("unresolved reference to `" +:+ name +:+ "` — no matching symbol in the indexed graph, submodules, or declared dependencies").

(** src/crates/weave-graph-cli/src/verify.rs:359-377 [phantom_symbols] *)
Fixpoint phantom_symbols (db : Db) (target_paths : list string) : result (list VerifyFinding) StorageError :=
  match target_paths with
  | [] => Ok []
  | path :: rest =>
      let? names := get_unresolved_refs_for_path db "local" path in
      let? more := phantom_symbols db rest in
      Ok ((phantom_of path <$> names) ++ more)
  end.

(** What a run sees of the repository: its root and label, what git
    says of each submodule, and the contract its files declare now. *)
Record verify_env := mkVerifyEnv {
  env_root : string;
  env_label : string;
  env_gitmodules : option string;
  env_state : Submodule → SubmoduleState;
  env_map : Submodule → ContractMap;
}.

(** src/crates/weave-graph-cli/src/verify.rs:432-464 [stale_submodule_references] *)
Definition stale_submodule_references (env : verify_env) (db : Db) (nodes : list Node) (edges : list Edge) (s : Submodule) :
    result (list VerifyFinding) StorageError :=
  let? drift := submodule_drift sha256 (env_label env) s (env_map env s) (submodule_imported_symbols s nodes edges) db in
  match drift with
  | Drifted in_scope _ _ =>
      Ok (((λ p : string * ContractEntry, mkVFinding "stale_submodule_references" (sub_path s)
              ("`" +:+ p.1 +:+ "` was removed from submodule `" +:+ sub_path s +:+ "` but is still called from the parent repo"))
             <$> removed in_scope) ++
          ((λ p : string * ContractEntry * ContractEntry, mkVFinding "stale_submodule_references" (sub_path s)
              ("`" +:+ p.1.1 +:+ "`'s signature changed in submodule `" +:+ sub_path s +:+ "` (was `" +:+ p.1.2.1.1.2 +:+
               "`) but the parent repo's call site wasn't verified against the new one"))
             <$> changed in_scope))
  | _ => Ok []
  end.

(** src/crates/weave-graph-cli/src/verify.rs:569-598 [cmd_verify]
    The loop over the submodules: the summary, the findings, and whether proof
    could not be established. *)
Fixpoint verify_submodules (config : VerifyConfig) (env : verify_env) (db : Db) (nodes : list Node) (edges : list Edge)
    (subs : list Submodule) (acc : SubmoduleSummary * list VerifyFinding * bool) :
    result (SubmoduleSummary * list VerifyFinding * bool) StorageError :=
  match subs with
  | [] => Ok acc
  | s :: subs =>
      let '(sum, findings, incomplete) := acc in
      let stale := if qualify_changed_commits config then stale_submodule_references env db nodes edges s else Ok [] in
      match env_state env s with
      | Dirty =>
          verify_submodules config env db nodes edges subs
            (mkSummary (sum_total sum) (sum_unchanged sum) (sum_changed sum) (S (sum_dirty sum)), findings,
             incomplete || reject_dirty_working_tree config)
      | Uninitialized => verify_submodules config env db nodes edges subs (sum, findings, true)
      | Clean =>
          let? more := stale in
          verify_submodules config env db nodes edges subs
            (mkSummary (sum_total sum) (S (sum_unchanged sum)) (sum_changed sum) (sum_dirty sum), findings ++ more, incomplete)
      | Bumped =>
          let? more := stale in
          verify_submodules config env db nodes edges subs
            (mkSummary (sum_total sum) (sum_unchanged sum) (S (sum_changed sum)) (sum_dirty sum), findings ++ more, incomplete)
      end
  end.

Definition CONTRACTS_FILE : string := ".weave/contracts.yml".

(** src/crates/weave-graph-cli/src/verify.rs:506-529 [cmd_verify]
    Findings, completed and skipped checks of the phantom-symbol scan. *)
Definition phantom_check (config : VerifyConfig) (db : Db) (target_paths : list string) (submodules_only : bool) :
    result (list VerifyFinding * list string * list (string * string)) StorageError :=
  if submodules_only then
    Ok ([], [], [("phantom_symbols", "--submodules restricts verification to submodule checks")])
  else if negb (reject_unresolved_phantom_symbols config) then
    Ok ([], [], [("phantom_symbols", "disabled: .weave/contracts.yml ai.phantom_symbols.reject_unresolved = false")])
  else
    let? findings := phantom_symbols db
      (filter (λ p, existsb (λ glob, exempt_glob glob p) (phantom_symbol_exempt_globs config) = false) target_paths) in
    Ok (findings, ["phantom_symbols"], []).

(** src/crates/weave-graph-cli/src/verify.rs:532-552 [cmd_verify] *)
Definition boundary_check (config : VerifyConfig) (nodes : list Node) (edges : list Edge) (subs : list Submodule)
    (scope : option (list string)) : list VerifyFinding * list string * list (string * string) :=
  match subs with
  | [] => ([], [], [("submodule_boundaries", "no Git submodules registered"); ("stale_submodule_references", "no Git submodules registered")])
  | _ =>
      if enforce_submodule_visibility config then
        (submodule_encapsulation_violations nodes edges subs scope, ["submodule_boundaries"; "stale_submodule_references"], [])
      else ([], ["stale_submodule_references"],
            [("submodule_boundaries", "disabled: .weave/contracts.yml submodules.enforce_visibility = false")])
  end.

(** src/crates/weave-graph-cli/src/verify.rs:554-567 [cmd_verify] *)
Definition guard_check (config : VerifyConfig) (nodes : list Node) (edges : list Edge) :
    list VerifyFinding * list string * list (string * string) :=
  match required_guards config with
  | [] => ([], [], [("required_guards", "no guards declared: .weave/contracts.yml has no required_guards entries (or policy-lint isn't compiled in, this file's only YAML dependency)")])
  | guards => (required_guard_violations nodes edges guards, ["required_guards"], [])
  end.

(** src/crates/weave-graph-cli/src/verify.rs:475-618 [cmd_verify] *)
Definition cmd_verify (contracts_yml : option string) (env : verify_env) (db : Db) (file : option string) (range : option (N * N))
    (submodules_only : bool) : result VerifyReport string :=
  let? config := load_config from_yaml contracts_yml (env_root env +:+ "/" +:+ CONTRACTS_FILE) in
  let store {A} (r : result A StorageError) : result A string := match r with Ok x => Ok x | Err e => Err (storage_error_text e) end in
  let? nodes := store (all_nodes db) in
  let? edges := store (all_edges db) in
  let target_paths := match file with Some f => [f] | None => dedup (sort_by String.leb (node_path <$> nodes)) end in
  let languages := dedup (sort_by String.leb (omap language_name target_paths)) in
  let? p := store (phantom_check config db target_paths submodules_only) in
  let '(phantoms, completed, skipped) := p in
  let subs := discover_submodules (env_gitmodules env) in
  let '(boundaries, completed', skipped') := boundary_check config nodes edges subs ((λ _, target_paths) <$> file) in
  let '(guards, completed'', skipped'') := guard_check config nodes edges in
  let? r := store (verify_submodules config env db nodes edges subs
                     (mkSummary (length subs) 0 0 0, phantoms ++ boundaries ++ guards, false)) in
  let '(summary, findings, incomplete) := r in
  let status := match findings with [] => if incomplete then VerifyIncomplete else VerifyPass | _ => VerifyFail end in
  Ok (mkVerifyReport status file range summary findings languages
        (completed ++ completed' ++ completed'') (skipped ++ skipped' ++ skipped'')).
End verify.

(** ** The verdict *)

Lemma node_by_id_Some ns i n : NoDup (node_id <$> ns) → node_by_id ns i = Some n ↔ n ∈ ns ∧ node_id n = i.
Proof.
  unfold node_by_id. intros Hnd. rewrite last_Some. split.
  - intros [l Hl]. assert (n ∈ filter (λ n, node_id n = i) ns) as [? ?]%list_elem_of_filter; [|done].
    rewrite Hl. apply elem_of_app. right. by left.
  - intros [Hn <-]. destruct (filter (λ m, node_id m = node_id n) ns) as [|m l _] eqn:Hf using rev_ind.
    { exfalso. apply (not_elem_of_nil n). rewrite <-Hf. by apply list_elem_of_filter. }
    exists l. assert (m = n) as ->; [|done].
    assert (m ∈ filter (λ m, node_id m = node_id n) ns) as [Hid Hm]%list_elem_of_filter by (rewrite Hf; apply elem_of_app; right; by left).
    apply list_elem_of_lookup in Hm as [a Ha], Hn as [b Hb].
    assert (a = b) as ->; [|congruence]. apply (NoDup_lookup (node_id <$> ns) a b (node_id n)); [done|..]; rewrite list_lookup_fmap.
    + rewrite Ha. cbn. by rewrite Hid.
    + by rewrite Hb.
Qed.

Lemma find_by_id_Some ns i n : NoDup (node_id <$> ns) → snd <$> list_find (λ n, node_id n = i) ns = Some n ↔ n ∈ ns ∧ node_id n = i.
Proof.
  intros Hnd. rewrite fmap_Some. split.
  - intros ([k m] & (Hk & Hi & _)%list_find_Some & ->). split; [by eapply list_elem_of_lookup_2|done].
  - intros [[k Hk]%list_elem_of_lookup <-]. exists (k, n). split; [|done]. apply list_find_Some. split_and!; [done..|].
    intros j m Hj Hlt Hid. assert (j = k); [|lia].
    apply (NoDup_lookup (node_id <$> ns) j k (node_id n)); [done|by rewrite list_lookup_fmap, Hj; cbn; rewrite Hid|by rewrite list_lookup_fmap, Hk].
Qed.

(** An edge into a submodule, from a file in scope outside it, to a symbol the
    submodule does not export. *)
Definition escapes (ns : list Node) (scope : option (list string)) (s : Submodule) (e : Edge) : Prop :=
  ∃ src tgt l, src ∈ ns ∧ node_id src = source_id e ∧ tgt ∈ ns ∧ node_id tgt = target_id e ∧
    (∀ paths, scope = Some paths → node_path src ∈ paths) ∧
    starts_with (node_path src) (sub_prefix s) = false ∧ starts_with (node_path tgt) (sub_prefix s) = true ∧
    from_path (node_path tgt) = Some l ∧ visibility_rule l (trim (node_signature tgt)) (short_name (node_symbol tgt)) = false.

(** A direct caller that the guard of the first symbol of that name does not
    list. *)
Definition unguarded (ns : list Node) (g : RequiredGuardSpec) (e : Edge) : Prop :=
  ∃ i p c, list_find (λ n, node_moniker n = guard_symbol g) ns = Some (i, p) ∧ target_id e = node_id p ∧
    c ∈ ns ∧ node_id c = source_id e ∧ node_moniker c ∉ allowed_callers g.

Lemma boundary_edge_iff ns scope s e : NoDup (node_id <$> ns) → is_Some (boundary_edge ns scope s e) ↔ escapes ns scope s e.
Proof.
  intros Hnd. unfold boundary_edge, escapes. split.
  - destruct (node_by_id ns (source_id e)) as [src|] eqn:Hs; [|by intros [? ?]].
    destruct (node_by_id ns (target_id e)) as [tgt|] eqn:Ht; [|by intros [? ?]].
    apply node_by_id_Some in Hs as [Hs <-], Ht as [Ht <-]; [|done..]. cbn [mbind option_bind].
    destruct (match scope with Some _ => _ | None => _ end) eqn:Hscope; [by intros [? ?]|].
    destruct (starts_with (node_path src) _) eqn:Hsrc; [by intros [? ?]|]. cbn [orb].
    destruct (starts_with (node_path tgt) _) eqn:Htgt; [|by intros [? ?]]. cbn [negb].
    destruct (from_path (node_path tgt)) as [l|] eqn:Hl; [|by intros [? ?]]. cbn [mbind option_bind].
    destruct (visibility_rule l _ _) eqn:Hv; [by intros [? ?]|]. intros _. exists src, tgt, l. split_and!; try done.
    intros paths ->. by rewrite negb_false_iff, bool_decide_eq_true in Hscope.
  - intros (src & tgt & l & Hs & Hsi & Ht & Hti & Hscope & Hsrc & Htgt & Hl & Hv).
    rewrite (proj2 (node_by_id_Some ns (source_id e) src Hnd)), (proj2 (node_by_id_Some ns (target_id e) tgt Hnd)) by done.
    cbn [mbind option_bind]. rewrite Hsrc, Htgt, Hl. cbn [orb negb mbind option_bind]. rewrite Hv.
    destruct scope as [paths|]; [|by eexists]. rewrite bool_decide_eq_true_2 by by apply Hscope. by eexists.
Qed.

Lemma guard_edge_iff ns g e i p : NoDup (node_id <$> ns) → list_find (λ n, node_moniker n = guard_symbol g) ns = Some (i, p) →
  is_Some (guard_edge ns g p e) ↔ unguarded ns g e.
Proof.
  intros Hnd Hp. unfold guard_edge, unguarded. split.
  - case_decide as Ht; [|by intros [? ?]]. destruct (snd <$> list_find _ ns) as [c|] eqn:Hc; [|by intros [? ?]].
    apply find_by_id_Some in Hc as [Hc Hi]; [|done]. cbn [mbind option_bind]. case_decide; [by intros [? ?]|]. intros _. by exists i, p, c.
  - intros (i' & p' & c & Hp' & Ht & Hc & Hi & Hn). rewrite Hp in Hp'. simplify_eq. rewrite decide_True by done.
    rewrite (proj2 (find_by_id_Some ns (source_id e) c Hnd)) by done. cbn [mbind option_bind]. rewrite decide_False by done. by eexists.
Qed.

Lemma omap_nonempty {A B} (f : A → option B) (l : list A) : omap f l ≠ [] ↔ ∃ x, x ∈ l ∧ is_Some (f x).
Proof.
  split.
  - intros Hne. destruct (omap f l) as [|y k] eqn:Ho; [done|].
    assert (y ∈ omap f l) as (x & Hx & Hf)%list_elem_of_omap by (rewrite Ho; by left). exists x. by rewrite Hf.
  - intros (x & Hx & y & Hf) Ho. apply (not_elem_of_nil y). rewrite <-Ho. apply list_elem_of_omap. eauto.
Qed.

Lemma bind_nonempty {A B} (f : A → list B) (l : list A) : l ≫= f ≠ [] ↔ ∃ x, x ∈ l ∧ f x ≠ [].
Proof.
  induction l as [|a l IH]; [split; [done|by intros (? & ?%not_elem_of_nil & _)]|]. cbn.
  setoid_rewrite elem_of_cons. split.
  - intros Hne. destruct (f a) eqn:Hf; [apply IH in Hne as (x & ? & ?); eauto|]. exists a. rewrite Hf. auto.
  - intros (x & [->|Hx] & Hne) [? ?]%app_nil; [done|]. apply IH; eauto.
Qed.

Section verdict.
Context `{SqliteLaws} (sha256 : string → string) (from_yaml : string → result ContractsFile string).

(** A reference of the file that nothing indexed answers. *)
Definition phantom_in (db : Db) (path : string) : Prop :=
  ∃ r, r ∈ unresolved_refs db ∧ ur_repo_id r = "local" ∧ ur_path r = path.

(** The submodule removed or changed a symbol the parent calls, against the
    recorded contract. *)
Definition stale (env : verify_env) (db : Db) (ns : list Node) (es : list Edge) (s : Submodule) : Prop :=
  ∃ in_scope out m, submodule_drift sha256 (env_label env) s (env_map env s) (submodule_imported_symbols s ns es) db =
    Ok (Drifted in_scope out m) ∧ (removed in_scope ≠ [] ∨ changed in_scope ≠ []).

Lemma phantom_symbols_spec db paths : ∃ fs, phantom_symbols db paths = Ok fs ∧ (fs ≠ [] ↔ ∃ p, p ∈ paths ∧ phantom_in db p).
Proof.
  induction paths as [|p paths (fs & IH & Hfs)]; [exists []; split; [done|split; [done|by intros (? & ?%not_elem_of_nil & _)]]|].
  cbn [phantom_symbols]. unfold get_unresolved_refs_for_path. cbn [result_bind]. rewrite IH. cbn [result_bind].
  set (rows := filter _ (unresolved_refs db)). eexists. split; [reflexivity|].
  assert (phantom_of p <$> select_order (ur_short_name <$> rows) ≠ [] ↔ phantom_in db p) as Hp.
  { assert (phantom_of p <$> select_order (ur_short_name <$> rows) ≡ₚ phantom_of p <$> (ur_short_name <$> rows)) as Hperm
      by by rewrite select_order_perm.
    split.
    - intros Hne. destruct rows as [|r rows'] eqn:Hr.
      { destruct Hne. apply Permutation_nil_r. by rewrite Hperm. }
      assert (r ∈ rows) as [[? ?] ?]%list_elem_of_filter by (rewrite Hr; by left). by exists r.
    - intros (r & Hr & ? & ?) Hnil. rewrite Hnil in Hperm. apply Permutation_nil_l in Hperm.
      assert (r ∈ rows) as Hin by by apply list_elem_of_filter. destruct rows; [by apply not_elem_of_nil in Hin|done]. }
  setoid_rewrite elem_of_cons. split.
  - intros Hne. destruct (phantom_of p <$> _) eqn:Hnil; [apply Hfs in Hne as (q & ? & ?); eauto|]. exists p. split; [by left|]. by apply Hp.
  - intros (q & [->|Hq] & Hph) [Hn1 Hn2]%app_nil; [by apply Hp in Hph|]. apply Hfs; eauto.
Qed.

Lemma stale_spec env db ns es s : ∃ fs, stale_submodule_references sha256 env db ns es s = Ok fs ∧ (fs ≠ [] ↔ stale env db ns es s).
Proof.
  unfold stale_submodule_references, stale.
  assert (∃ d, submodule_drift sha256 (env_label env) s (env_map env s) (submodule_imported_symbols s ns es) db = Ok d) as (d & ->).
  { unfold submodule_drift, contract_expectations. cbn [result_bind]. repeat case_match; eauto. }
  cbn [result_bind]. destruct d as [m| |in_scope out m].
  1,2: exists []; split; [done|split; [done|by intros (? & ? & ? & ? & _)]].
  eexists. split; [reflexivity|]. split.
  - intros Hne. exists in_scope, out, m. split; [done|]. destruct (removed in_scope); [right|by left]. by destruct (changed in_scope).
  - intros (i & o & m' & [= <- <- <-] & Hne) [Hr%fmap_nil_inv Hc%fmap_nil_inv]%app_nil. by destruct Hne.
Qed.

Lemma verify_submodules_spec config env db ns es subs : ∀ sum findings incomplete,
  ∃ sum' more inc, verify_submodules sha256 config env db ns es subs (sum, findings, incomplete) = Ok (sum', findings ++ more, incomplete || inc) ∧
    (more ≠ [] ↔ ∃ s, s ∈ subs ∧ qualify_changed_commits config = true ∧ (env_state env s = Clean ∨ env_state env s = Bumped) ∧ stale env db ns es s) ∧
    (inc = true ↔ ∃ s, s ∈ subs ∧ (env_state env s = Uninitialized ∨ env_state env s = Dirty ∧ reject_dirty_working_tree config = true)).
Proof.
  induction subs as [|s subs IH]; intros sum findings incomplete; cbn [verify_submodules].
  { exists sum, [], false. rewrite app_nil_r, orb_false_r. split; [done|]. split; (split; [done|by intros (? & ?%not_elem_of_nil & _)]). }
  setoid_rewrite elem_of_cons.
  destruct (stale_spec env db ns es s) as (fs & Hfs & Hst). rewrite Hfs.
  assert (∀ m sum', env_state env s = Clean ∨ env_state env s = Bumped →
    m = (if qualify_changed_commits config then fs else []) →
    ∃ sum'' more inc, verify_submodules sha256 config env db ns es subs (sum', findings ++ m, incomplete) = Ok (sum'', findings ++ more, incomplete || inc) ∧
    (more ≠ [] ↔ ∃ s', (s' = s ∨ s' ∈ subs) ∧ qualify_changed_commits config = true ∧ (env_state env s' = Clean ∨ env_state env s' = Bumped) ∧ stale env db ns es s') ∧
    (inc = true ↔ ∃ s', (s' = s ∨ s' ∈ subs) ∧ (env_state env s' = Uninitialized ∨ env_state env s' = Dirty ∧ reject_dirty_working_tree config = true))) as Hrun.
  { intros m sum' Hstate ->. destruct (IH sum' (findings ++ if qualify_changed_commits config then fs else []) incomplete) as (sum'' & more & inc & Hv & Hmore & Hinc).
    rewrite Hv, <-app_assoc. do 3 eexists. split; [reflexivity|]. split.
    - destruct (qualify_changed_commits config) eqn:Hq; cbn [app].
      + split.
        * intros Hne. destruct fs as [|f fs]; [apply Hmore in Hne as (s' & ? & ? & ? & ?); eauto 6|].
          exists s. split_and!; [by left|done|done|]. by apply Hst.
        * intros (s' & [->|Hin] & _ & Hs' & Hstale) [Hf Hm]%app_nil; [by apply Hst in Hstale|]. apply Hmore; eauto 6.
      + rewrite Hmore. split; [by intros (? & _ & ? & _)|by intros (? & _ & ? & _)].
    - rewrite Hinc. split; [intros (s' & ? & ?); eauto|].
      intros (s' & [->|Hin] & Hs'); [|eauto]. exfalso. destruct Hstate as [Hstate|Hstate]; rewrite Hstate in Hs'; naive_solver. }
  destruct (env_state env s) eqn:Hstate; cbn [result_bind].
  - destruct (qualify_changed_commits config); cbn [result_bind]; (apply Hrun; [by left|done]).
  - destruct (qualify_changed_commits config); cbn [result_bind]; (apply Hrun; [by right|done]).
  - destruct (IH sum findings true) as (sum'' & more & inc & Hv & Hmore & Hinc). exists sum'', more, true. rewrite Hv.
    split; [by rewrite orb_true_r|]. split.
    + rewrite Hmore. split; [intros (s' & ? & ?); eauto|]. intros (s' & [->|Hin] & ? & Hs' & ?); [|eauto 6]. rewrite Hstate in Hs'. naive_solver.
    + split; [|done]. intros _. exists s. auto.
  - destruct (IH (mkSummary (sum_total sum) (sum_unchanged sum) (sum_changed sum) (S (sum_dirty sum))) findings
               (incomplete || reject_dirty_working_tree config)) as (sum'' & more & inc & Hv & Hmore & Hinc).
    exists sum'', more, (reject_dirty_working_tree config || inc). rewrite Hv, orb_assoc. split; [done|]. split.
    + rewrite Hmore. split; [intros (s' & ? & ?); eauto|]. intros (s' & [->|Hin] & ? & Hs' & ?); [|eauto 6]. rewrite Hstate in Hs'. naive_solver.
    + rewrite orb_true_iff, Hinc. split.
      * intros [Hr|(s' & ? & ?)]; [|eauto]. exists s. auto.
      * intros (s' & [->|Hin] & Hs'); [|eauto]. left. rewrite Hstate in Hs'. naive_solver.
Qed.

Lemma boundary_check_spec config ns es subs scope : NoDup (node_id <$> ns) →
  (boundary_check config ns es subs scope).1.1 ≠ [] ↔
  enforce_submodule_visibility config = true ∧ ∃ s e, s ∈ subs ∧ e ∈ es ∧ escapes ns scope s e.
Proof.
  intros Hnd. unfold boundary_check. destruct subs as [|s0 subs']; [split; [done|by intros (_ & ? & ? & ?%not_elem_of_nil & _)]|].
  destruct (enforce_submodule_visibility config); [|by split; [done|intros [? _]]]. cbn [fst].
  unfold submodule_encapsulation_violations. rewrite bind_nonempty. setoid_rewrite omap_nonempty.
  setoid_rewrite (boundary_edge_iff ns scope _ _ Hnd). split.
  - intros (s & ? & e & ? & ?). split; [done|]. by exists s, e.
  - intros (_ & s & e & ? & ? & ?). exists s. split; [done|]. by exists e.
Qed.

Lemma guard_check_spec config ns es : NoDup (node_id <$> ns) →
  (guard_check config ns es).1.1 ≠ [] ↔ ∃ g e, g ∈ required_guards config ∧ e ∈ es ∧ unguarded ns g e.
Proof.
  intros Hnd. unfold guard_check. destruct (required_guards config) as [|g0 gs] eqn:Hgs;
    [split; [done|by intros (? & ? & ?%not_elem_of_nil & _)]|]. rewrite <-Hgs. cbn [fst].
  unfold required_guard_violations. rewrite bind_nonempty. split.
  - intros (g & Hg & Hne). destruct (list_find _ ns) as [[i p]|] eqn:Hp; [|done].
    apply omap_nonempty in Hne as (e & He & Hu%(guard_edge_iff ns g e i p Hnd Hp)). by exists g, e.
  - intros (g & e & Hg & He & Hu). exists g. split; [done|]. pose proof Hu as (i & p & _ & Hp & _). rewrite Hp.
    apply omap_nonempty. exists e. split; [done|]. by apply (guard_edge_iff ns g e i p Hnd Hp).
Qed.

(** The verdict of [weave verify] is exact.  Once the configuration and the
    graph are read, a report is produced; it says fail exactly when an unresolved
    reference is recorded for a file in scope that is not exempt, an edge in
    scope reaches an unexported symbol of a submodule, a caller of a guarded
    symbol is not listed, or a submodule whose commit is qualified removed or
    changed a symbol the parent uses; it says pass exactly when none of these
    holds and no submodule is uninitialised or, unless that is allowed, dirty. *)
Theorem verify_verdict_exact yml env (db : Db) file range subs_only config ns es
    (Hconfig : load_config from_yaml yml (env_root env +:+ "/" +:+ CONTRACTS_FILE) = Ok config)
    (Hns : all_nodes db = Ok ns) (Hes : all_edges db = Ok es) (Hids : NoDup (node_id <$> ns)) :
  let targets := match file with Some f => [f] | None => dedup (sort_by String.leb (node_path <$> ns)) end in
  let subs := discover_submodules (env_gitmodules env) in
  let violated :=
    (subs_only = false ∧ reject_unresolved_phantom_symbols config = true ∧
       ∃ p, p ∈ targets ∧ existsb (λ g, exempt_glob g p) (phantom_symbol_exempt_globs config) = false ∧ phantom_in db p) ∨
    (enforce_submodule_visibility config = true ∧ ∃ s e, s ∈ subs ∧ e ∈ es ∧ escapes ns ((λ _, targets) <$> file) s e) ∨
    (∃ g e, g ∈ required_guards config ∧ e ∈ es ∧ unguarded ns g e) ∨
    (∃ s, s ∈ subs ∧ qualify_changed_commits config = true ∧ (env_state env s = Clean ∨ env_state env s = Bumped) ∧ stale env db ns es s) in
  let unproved := ∃ s, s ∈ subs ∧ (env_state env s = Uninitialized ∨ env_state env s = Dirty ∧ reject_dirty_working_tree config = true) in
  ∃ r, cmd_verify sha256 from_yaml yml env db file range subs_only = Ok r ∧
    (vr_status r = VerifyFail ↔ violated) ∧ (vr_status r = VerifyPass ↔ ¬ violated ∧ ¬ unproved).
Proof.
  intros targets subs violated unproved. unfold cmd_verify. rewrite Hconfig. cbn [result_bind]. rewrite Hns, Hes. cbn [result_bind].
  fold targets. fold subs.
  assert (∃ fs completed skipped, phantom_check config db targets subs_only = Ok (fs, completed, skipped) ∧
    (fs ≠ [] ↔ subs_only = false ∧ reject_unresolved_phantom_symbols config = true ∧
       ∃ p, p ∈ targets ∧ existsb (λ g, exempt_glob g p) (phantom_symbol_exempt_globs config) = false ∧ phantom_in db p)) as (fs & completed & skipped & -> & Hfs).
  { unfold phantom_check. destruct subs_only; [do 3 eexists; split; [done|]; naive_solver|].
    destruct (reject_unresolved_phantom_symbols config); [|do 3 eexists; split; [done|]; naive_solver]. cbn [negb].
    destruct (phantom_symbols_spec db (filter (λ p, existsb (λ g, exempt_glob g p) (phantom_symbol_exempt_globs config) = false) targets)) as (fs & -> & Hfs).
    do 3 eexists. split; [reflexivity|]. rewrite Hfs. setoid_rewrite list_elem_of_filter. naive_solver. }
  cbn [result_bind].
  pose proof (boundary_check_spec config ns es subs ((λ _, targets) <$> file) Hids) as Hb.
  destruct (boundary_check config ns es subs _) as [[bs completed'] skipped']. cbn [fst] in Hb.
  pose proof (guard_check_spec config ns es Hids) as Hg. destruct (guard_check config ns es) as [[gs completed''] skipped'']. cbn [fst] in Hg.
  destruct (verify_submodules_spec config env db ns es subs (mkSummary (length subs) 0 0 0) (fs ++ bs ++ gs) false)
    as (sum & more & inc & -> & Hmore & Hinc). cbn [result_bind orb].
  eexists. split; [reflexivity|]. cbn [vr_status].
  assert ((fs ++ bs ++ gs) ++ more ≠ [] ↔ violated) as Hall.
  { unfold violated. rewrite <-Hfs, <-Hb, <-Hg, <-Hmore. clear. destruct fs, bs, gs, more; cbn; naive_solver. }
  fold unproved in Hinc. clear -Hall Hinc. clearbody violated unproved.
  destruct ((fs ++ bs ++ gs) ++ more); destruct inc; naive_solver.
Qed.
End verdict.

(** ** Examples *)

(** A program that calls a private symbol of its submodule [sub]. *)
Definition verify_db : Db :=
  let n p s := mkNode 0 "local" p s "fn" 1 2 ("fn " +:+ s +:+ "()") in
  (upsert_edge (upsert_nodes empty_db [n "app/main.rs" "main"; n "sub/lib.rs" "secret"]).1 (mkEdge 0 1 2 "CALLS" 0 None None)).1.
Definition verify_modules : string :=
  "[submodule " +:+ quoted "sub" +:+ "]" +:+ newline +:+ "  path = sub" +:+ newline.
Definition verify_repo (state : SubmoduleState) : verify_env := mkVerifyEnv "." "app" (Some verify_modules) (λ _, state) (λ _, ∅).
Definition yaml_of (f : ContractsFile) (_ : string) : result ContractsFile string := Ok f.
Definition empty_yaml : ContractsFile := mkContractsFile None None None None None None.

Lemma verify_verdict_exact_witness :
  ∃ r, cmd_verify (λ s, s) (yaml_of empty_yaml) None (verify_repo Clean) verify_db None None false = Ok r ∧ vr_status r = VerifyFail.
Proof.
  destruct (verify_verdict_exact (λ s, s) (yaml_of empty_yaml) None (verify_repo Clean) verify_db None None false verify_default
    (default [] (result_ok (all_nodes verify_db))) (default [] (result_ok (all_edges verify_db)))) as (r & Hr & Hfail & _).
  - reflexivity.
  - vm_compute. reflexivity.
  - vm_compute. reflexivity.
  - apply (bool_decide_unpack _). vm_compute. exact I.
  - exists r. split; [done|]. apply Hfail. right. left. split; [reflexivity|].
    exists (mkSubmodule "sub" "sub"), (mkEdge 1 1 2 "CALLS" 0 None None). split_and!; [by left|vm_compute; by left|].
    exists (mkNode 1 "local" "app/main.rs" "main" "fn" 1 2 "fn main()"), (mkNode 2 "local" "sub/lib.rs" "secret" "fn" 1 2 "fn secret()"), LangRust.
    split_and!; try reflexivity; [vm_compute; by left|vm_compute; by right; left|done].
Defined.

(** The stale-reference check is listed as completed although the configuration
    turns it off and no submodule was compared. *)
Theorem stale_check_reported_complete :
  ∃ r, cmd_verify (λ s, s) (yaml_of (mkContractsFile (Some false) None (Some false) None None None)) (Some "") (verify_repo Clean) verify_db
    None None false = Ok r ∧ vr_status r = VerifyPass ∧ vr_completed_checks r = ["phantom_symbols"; "stale_submodule_references"].
Proof. eexists. split; [vm_compute; reflexivity|]. by split. Qed.

(** Of two symbols of one name in a file only the first is guarded: a caller of
    the second that is not listed passes. *)
Definition overload_nodes : list Node :=
  [mkNode 1 "local" "a.ts" "pay" "function" 1 2 "pay(a)"; mkNode 2 "local" "a.ts" "pay" "function" 3 4 "pay(a, b)";
   mkNode 3 "local" "b.ts" "rogue" "function" 1 2 "rogue()"].
Theorem guard_overload_unchecked :
  let g := mkGuardSpec "a.ts#pay" ["c.ts#checkout"] in
  required_guard_violations overload_nodes [mkEdge 1 3 2 "CALLS_EXACT" 0 None None] [g] = [] ∧
  length (required_guard_violations overload_nodes [mkEdge 1 3 1 "CALLS_EXACT" 0 None None] [g]) = 1.
Proof. split; reflexivity. Qed.
