(* ===== verification/PolicyGate.v ===== *)
(** * The policy commands (policy.rs, provenance.rs, waiver.rs)

    [weave policy lint] and [weave policy drift]: the rules of
    .weave/policy.yaml, the view of the graph a caller may lint, the gate with
    its waivers and their log, the federated lint over linked repositories.
    YAML is read by a parameter.  What is printed is a list of lines; features
    rbac, federation and vector, without slm. *)

From S2P Require Import Prelude Str Model Auth Policy Language Interner ProjectIndex SqlStore Contract Json Config Spool Http Modules Tools Scim.

(** ** Time stamps *)

(** src/crates/weave-graph-cli/src/provenance.rs:78-90 [civil_from_days]
    Days since 1970-01-01 as year, month, day.  Division truncates. *)
Definition civil_from_days (z : Z) : Z * Z * Z :=
  let z := (z + 719468)%Z in
  let era := Z.quot (if (0 <=? z)%Z then z else z - 146096)%Z 146097 in
  let doe := (z - era * 146097)%Z in
  let yoe := ((doe - doe / 1460 + doe / 36524 - doe / 146096) / 365)%Z in
  let y := (yoe + era * 400)%Z in
  let doy := (doe - (365 * yoe + yoe / 4 - yoe / 100))%Z in
  let mp := ((5 * doy + 2) / 153)%Z in
  let d := (doy - (153 * mp + 2) / 5 + 1)%Z in
  let m := (if (mp <? 10)%Z then mp + 3 else mp - 9)%Z in
  ((if (m <=? 2)%Z then y + 1 else y)%Z, m, d).

(** A number with at least [width] digits, as [{:0width}] prints it. *)
Definition zero_padded (width : nat) (n : Z) : string :=
  let s := dec (Z.to_N n) in String.concat "" (replicate (width - String.length s) "0") +:+ s.

(** src/crates/weave-graph-cli/src/provenance.rs:59-73 [format_utc]
    [secs] is the time since the epoch, 0 for an earlier one. *)
Definition format_utc (secs : Z) : string :=
  let '(year, month, day) := civil_from_days (secs / 86400) in
  let t := (secs mod 86400)%Z in
  zero_padded 4 year +:+ "-" +:+ zero_padded 2 month +:+ "-" +:+ zero_padded 2 day +:+ "T" +:+
  zero_padded 2 (t / 3600) +:+ ":" +:+ zero_padded 2 (t mod 3600 / 60) +:+ ":" +:+ zero_padded 2 (t mod 60) +:+ "Z".

(** ** The rules *)

(** src/crates/weave-graph-cli/src/policy.rs:43-52 [BoundaryYaml] *)
Record BoundaryYaml := mkBoundaryYaml {
  by_from : string; by_to : string; by_allowed_roles : option (list string); by_owner_role : option string }.
(** src/crates/weave-graph-cli/src/policy.rs:37-40 [RuleEntry] *)
Record RuleEntry := mkRuleEntry { re_disallow : option BoundaryYaml; re_require : option BoundaryYaml }.
(** src/crates/weave-graph-cli/src/policy.rs:29-34 [SemanticCouplingYaml] *)
Record SemanticCouplingYaml := mkCouplingYaml { cy_within : string; cy_threshold : N; cy_exempt_globs : option (list string) }.
(** src/crates/weave-graph-cli/src/policy.rs:17-25 [PolicyFile] *)
Record PolicyFile := mkPolicyFile { pf_rules : option (list RuleEntry); pf_semantic_coupling : option (list SemanticCouplingYaml) }.

(** src/crates/weave-graph-cli/src/policy.rs:54-61 [to_boundary] *)
Definition to_boundary (b : BoundaryYaml) : Boundary :=
  mkBoundary (by_from b) (by_to b) (default [] (by_allowed_roles b)) (by_owner_role b).

(** src/crates/weave-graph-cli/src/policy.rs:101-106 [validate_boundary] *)
Definition validate_boundary (b : Boundary) : result () string :=
  if is_empty (from b) || is_empty (to b) then Err "boundary endpoints must be non-empty path prefixes" else Ok ().

(** src/crates/weave-graph-cli/src/policy.rs:77-96 [load_rules] *)
Definition load_rule (entry : RuleEntry) : result BoundaryRule string :=
  match to_boundary <$> re_disallow entry, to_boundary <$> re_require entry with
  | Some _, Some _ => Err "a rule cannot be both `disallow` and `require`"
  | Some b, None => let? _ := validate_boundary b in Ok (Disallow b)
  | None, Some b => let? _ := validate_boundary b in Ok (Require_ b)
  | None, None => Err "each rule needs exactly one of `disallow` or `require`"
  end.

Fixpoint try_map {A B E} (f : A → result B E) (l : list A) : result (list B) E :=
  match l with
  | [] => Ok []
  | x :: l => let? y := f x in let? ys := try_map f l in Ok (y :: ys)
  end.

Definition POLICY_FILE : string := ".weave/policy.yaml".

Section policy.
Context (from_yaml : string → result PolicyFile string).

(** src/crates/weave-graph-cli/src/policy.rs:67-99 [load_rules] *)
Definition load_rules (path : string) (content : option string) : result (list BoundaryRule) string :=
  match content with
  | None => Err ("policy file not found: " +:+ path +:+ " — create it to declare boundaries")
  | Some c =>
      match from_yaml c with
      | Err e => Err ("invalid policy YAML: " +:+ e)
      | Ok parsed => try_map load_rule (default [] (pf_rules parsed))
      end
  end.

(** src/crates/weave-graph-cli/src/policy.rs:123-135 [load_semantic_coupling_rules]
    The threshold lies between 0.0 and 1.0, and is a number. *)
Definition load_coupling (entry : SemanticCouplingYaml) : result SemanticCouplingRule string :=
  if is_empty (cy_within entry) then Err "semantic_coupling rule needs a non-empty `within` prefix" else
  if f32_is_nan (cy_threshold entry) || f32_lt (cy_threshold entry) 0 || f32_lt 1065353216 (cy_threshold entry)
  then Err "semantic_coupling `threshold` must be between 0.0 and 1.0" else
  Ok (mkCoupling (cy_within entry) (cy_threshold entry) (default [] (cy_exempt_globs entry))).

(** src/crates/weave-graph-cli/src/policy.rs:114-137 [load_semantic_coupling_rules] *)
Definition load_semantic_coupling_rules (content : option string) : result (list SemanticCouplingRule) string :=
  match content with
  | None => Ok []
  | Some c =>
      match from_yaml c with
      | Err e => Err ("invalid policy YAML: " +:+ e)
      | Ok parsed => try_map load_coupling (default [] (pf_semantic_coupling parsed))
      end
  end.

(** src/crates/weave-graph-cli/src/policy.rs:141-143 [rule_id] *)
Definition rule_id (v : Violation) : string := v_kind v +:+ ":" +:+ v_from v +:+ "->" +:+ v_to v.

(** ** The view that is linted *)

(** src/crates/weave-graph-cli/src/policy.rs:511-516 [GraphView] *)
Record GraphView := mkGraphView {
  gv_nodes : list Node; gv_edges : list Edge; gv_hidden_nodes : nat; gv_skipped_edges : nat }.

(** src/crates/weave-graph-cli/src/policy.rs:531-567 [filter_view] *)
Definition filter_view (nodes : list Node) (edges : list Edge) (check : option (Node → bool)) : GraphView :=
  let kept := match check with Some f => filter (λ n, f n = true) nodes | None => nodes end in
  let ids : gset N := list_to_set (node_id <$> kept) in
  let both e := bool_decide (source_id e ∈ ids) && bool_decide (target_id e ∈ ids) in
  let es := filter (λ e, both e = true) edges in
  mkGraphView kept es (length nodes - length kept) (length edges - length es).

(** ** The gate *)

(** src/crates/weave-graph-cli/src/policy.rs:251-256 [LintGate] *)
Record LintGate := mkLintGate {
  lg_as_subject : option string; lg_fail_on_masked : bool; lg_waive : list string; lg_reason : option string }.

(** src/crates/weave-graph-cli/src/waiver.rs:71-74 [emit_banner]
    The block on standard output; the same reason goes to standard error. *)
Definition emit_banner (command reason : string) : list string :=
  ["> **⚠️ Waiver Notice**: `" +:+ command +:+ "` was bypassed."; "> Reason: " +:+ reason].

(** src/crates/weave-graph-cli/src/policy.rs:148-163 [append_waiver_log]
    The line appended to .weave/policy-waivers.log. *)
Definition waiver_line (now : Z) (as_subject : option string) (id reason : string) : string :=
  format_utc now +:+ ", " +:+ default "anonymous" as_subject +:+ ", " +:+ id +:+ ", " +:+ reason.

(** Lines printed, lines appended to the log, and the verdict. *)
Record gate_outcome := mkOutcome { go_printed : list string; go_logged : list string; go_verdict : result () string }.

(** src/crates/weave-graph-cli/src/policy.rs:201-218 [report_and_gate] *)
Definition waived_lines (v : Violation) : list string :=
  ("⚠ [" +:+ v_kind v +:+ "] " +:+ v_from v +:+ " -> " +:+ v_to v +:+ " — WAIVED") :: ((λ e, "    " +:+ e) <$> v_examples v).
Definition blocking_lines (v : Violation) : list string :=
  ("✗ [" +:+ v_kind v +:+ "] " +:+ v_from v +:+ " -> " +:+ v_to v +:+
     match v_owner_role v with Some owner => " (owner: " +:+ owner +:+ ")" | None => "" end) :: ((λ e, "    " +:+ e) <$> v_examples v).

(** src/crates/weave-graph-cli/src/policy.rs:220-228 [report_and_gate]
    The lines appended, up to the first that fails; [log_error] is the error of
    appending a line, if any. *)
Fixpoint append_lines (log_error : string → option string) (lines : list string) : list string * result () string :=
  match lines with
  | [] => ([], Ok ())
  | line :: lines =>
      match log_error line with
      | Some e => ([], Err e)
      | None => let '(logged, r) := append_lines log_error lines in (line :: logged, r)
      end
  end.
(** src/crates/weave-graph-cli/src/policy.rs:169-244 [report_and_gate]
    [auth] is whether the caller may waive. *)
Definition report_and_gate (auth : option string → result () string) (now : Z) (log_error : string → option string) (gate : LintGate)
    (rule_count : nat) (violations : list Violation) (hidden_nodes skipped_edges : nat) : gate_outcome :=
  let waive_reason :=
    match lg_waive gate with
    | [] => Ok None
    | _ => let? _ := auth (lg_as_subject gate) in let? r := require_reason (lg_reason gate) in Ok (Some r)
    end in
  match waive_reason with
  | Err e => mkOutcome [] [] (Err e)
  | Ok waive_reason =>
      let waived := filter (λ v, rule_id v ∈ lg_waive gate) violations in
      let blocking := filter (λ v, rule_id v ∉ lg_waive gate) violations in
      let incomplete := (0 <? hidden_nodes) || (0 <? skipped_edges) in
      let printed :=
        ["Policy: " +:+ decn rule_count +:+ " rule(s) from " +:+ POLICY_FILE] ++
        (if incomplete then ["  " +:+ decn skipped_edges +:+ " edge(s) and " +:+ decn hidden_nodes +:+ " symbol(s) skipped (rbac-masked)"] else []) ++
        (match blocking, waived with [], [] => if incomplete then [] else ["✓ no boundary violations"] | _, _ => [] end) ++
        (waived ≫= waived_lines) ++ (blocking ≫= blocking_lines) ++
        (match waive_reason with Some reason => emit_banner "weave policy lint" reason | None => [] end) in
      let log_lines := match waive_reason with Some reason => (λ v, waiver_line now (lg_as_subject gate) (rule_id v) reason) <$> waived | None => [] end in
      match append_lines log_error log_lines with
      | (logged, Err e) => mkOutcome printed logged (Err e)
      | (logged, Ok _) =>
          let verdict :=
            match blocking with
            | _ :: _ => Err (decn (length blocking) +:+ " policy violation(s) — blocking (CI gate)")
            | [] =>
                if incomplete && (lg_fail_on_masked gate || bool_decide (is_Some (lg_as_subject gate)))
                then Err "Policy view incomplete: nodes or edges were skipped by RBAC, so this run cannot certify repository-wide boundaries."
                else Ok ()
            end in
          mkOutcome printed logged verdict
      end
  end.

(** ** The commands *)

Context `{TomlFormat}.

(** Where identities come from: the configuration, the SCIM directory, the
    answer of GitHub. *)
Record identity_source := mkIdentitySource { id_config : option string; id_directory : option string; id_github : option Identity }.

Definition guard_as (src : identity_source) (s : string) : RbacGuard := guard_for (id_config src) (id_directory src) (id_github src) (Some s).

(** src/crates/weave-graph-cli/src/waiver.rs:25-46 [authorize] *)
Definition authorize_with (src : identity_source) : option string → result () string :=
  authorize (user_roles <$> (map_to_list (read_rbac_users (id_config src))).*2) (λ s, can_waive (identity (guard_as src s))).

(** src/crates/weave-graph-cli/src/policy.rs:341-359 [cmd_policy_lint] *)
Definition lint_guard (src : identity_source) (as_subject : option string) : option (Node → bool) * list string :=
  let guard := guard_as src <$> as_subject in
  (visible <$> guard, match guard with Some g => roles (identity g) | None => [] end).

(** src/crates/weave-graph-cli/src/policy.rs:268-315 [cmd_policy_lint_federated]
    The graph of every linked repository, read one after the other; a
    violation of one kind between two prefixes is kept once. *)
Fixpoint lint_peers (rules : list BoundaryRule) (check : option (Node → bool)) (current_roles : list string)
    (peers : list (result (list Node * list Edge) string)) (seen : list (string * string * string)) (acc : list Violation) (hidden skipped : nat) :
    result (list Violation * nat * nat) string :=
  match peers with
  | [] => Ok (acc, hidden, skipped)
  | peer :: peers =>
      let? graph := peer in
      let view := filter_view graph.1 graph.2 check in
      let '(seen, acc) :=
        foldl (λ st v,
          let key := (v_kind v, v_from v, v_to v) in
          if decide (key ∈ st.1) then st else (key :: st.1, st.2 ++ [v]))
          (seen, acc) (lint_scoped (gv_nodes view) (gv_edges view) rules current_roles) in
      lint_peers rules check current_roles peers seen acc (hidden + gv_hidden_nodes view) (skipped + gv_skipped_edges view)
  end.

(** src/crates/weave-graph-cli/src/policy.rs:331-398 [cmd_policy_lint]
    [local] is the graph of this repository, [linked] those of the linked
    ones. *)
Definition cmd_policy_lint (src : identity_source) (now : Z) (log_error : string → option string) (policy_path : string) (policy : option string)
    (gate : LintGate) (federated : bool) (local : result (list Node * list Edge) string)
    (linked : list (result (list Node * list Edge) string)) : gate_outcome :=
  let fail e := mkOutcome [] [] (Err e) in
  match load_rules policy_path policy with
  | Err e => fail e
  | Ok rules =>
      let '(check, current_roles) := lint_guard src (lg_as_subject gate) in
      let finish violations hidden skipped :=
        report_and_gate (authorize_with src) now log_error gate (length rules) violations hidden skipped in
      if federated then
        match linked with
        | [] => fail "No linked repos in .weave/config.toml ([federation] linked_repos). Run `weave link <repo-a> <repo-b>` first."
        | _ =>
            match lint_peers rules check current_roles linked [] [] 0 0 with
            | Err e => fail e
            | Ok (violations, hidden, skipped) => finish violations hidden skipped
            end
        end
      else
        match local with
        | Err e => fail e
        | Ok (nodes, edges) =>
            let view := filter_view nodes edges check in
            finish (lint_scoped (gv_nodes view) (gv_edges view) rules current_roles) (gv_hidden_nodes view) (gv_skipped_edges view)
        end
  end.

(** src/crates/weave-graph-cli/src/policy.rs:487-505 [semantic_coupling_report]
    [similar] is the vector search of the store. *)
Definition semantic_coupling_report (policy : option string) (similar : list N → N → nat → result (list (N * N * N)) string)
    (nodes : list Node) (edges : list Edge) : result (list SemanticCouplingFinding) string :=
  let? rules := load_semantic_coupling_rules policy in
  let? found := try_map (λ rule, let? pairs := similar (node_id <$> nodes) (threshold rule) 8 in
                                 Ok (semantic_coupling_findings nodes edges pairs rule)) rules in
  Ok (concat found).

(** src/crates/weave-graph-cli/src/policy.rs:403-479 [cmd_policy_drift]
    The lines of the report; [two_digits] prints a similarity with two digits. *)
Definition cmd_policy_drift (src : identity_source) (policy : option string) (as_subject : option string)
    (similar : list N → N → nat → result (list (N * N * N)) string) (two_digits : N → string)
    (graph : result (list Node * list Edge) string) : option (result (list string) string) :=
  match graph with
  | Err e => Some (Err e)
  | Ok (all_nodes, all_edges) =>
      let '(check, _) := lint_guard src as_subject in
      let view := filter_view all_nodes all_edges check in
      cycles ← find_cycles (gv_nodes view) (gv_edges view);
      let orphans := orphan_files (gv_nodes view) (gv_edges view) in
      let truly_orphaned := match check with Some _ => orphan_files all_nodes all_edges | None => orphans end in
      Some (
        let? findings := semantic_coupling_report policy similar (gv_nodes view) (gv_edges view) in
        Ok (["Drift report:"] ++
          (match cycles with
           | [] => ["  no dependency cycles"]
           | _ => ("  " +:+ decn (length cycles) +:+ " dependency cycle(s):") :: ((λ c, "    " +:+ join " -> " c) <$> cycles)
           end) ++
          (match orphans with
           | [] => ["  no orphaned files (every file has an inbound dependency)"]
           | _ => ("  " +:+ decn (length orphans) +:+ " orphaned file(s) (no inbound cross-file dependency):") ::
                  ((λ f, "    " +:+ f +:+ if decide (f ∈ truly_orphaned) then "" else " (has hidden inbound edges)") <$> orphans)
           end) ++
          (match findings with
           | [] => ["  no undeclared semantic coupling above the configured threshold(s)"]
           | _ => ("  " +:+ decn (length findings) +:+ " undeclared semantic coupling pair(s) (advisory, POL-02):") ::
                  ((λ f, "    " +:+ file_a f +:+ " <-> " +:+ file_b f +:+ " (similarity " +:+ two_digits (similarity f) +:+ ")") <$> findings)
           end)))
  end.
End policy.

(** ** Dates *)

Definition is_leap (y : Z) : bool := ((y mod 4 =? 0) && (negb (y mod 100 =? 0) || (y mod 400 =? 0)))%Z.
Definition month_len (leap : bool) (m : Z) : Z :=
  if (m =? 2)%Z then (if leap then 29 else 28)%Z
  else if ((m =? 4) || (m =? 6) || (m =? 9) || (m =? 11))%Z then 30%Z else 31%Z.
Definition month_days (y m : Z) : Z := month_len (is_leap y) m.

(** The day after a date of the Gregorian calendar. *)
Definition next_day (d : Z * Z * Z) : Z * Z * Z :=
  let '(y, m, d) := d in
  if (d <? month_days y m)%Z then (y, m, d + 1)%Z else if (m <? 12)%Z then (y, m + 1, 1)%Z else (y + 1, 1, 1)%Z.

(** *** Years from March

    The algorithm counts years from the first of March: year [y] of that count
    begins [year_start y] days after 0000-03-01 and ends with the February of
    [y + 1]. *)

Definition year_start (y : Z) : Z := (365 * y + y / 4 - y / 100 + y / 400)%Z.
Definition month_day (doy : Z) : Z * Z :=
  let mp := ((5 * doy + 2) / 153)%Z in
  ((if mp <? 10 then mp + 3 else mp - 9)%Z, (doy - (153 * mp + 2) / 5 + 1)%Z).
Definition date_of (y doy : Z) : Z * Z * Z :=
  let '(m, d) := month_day doy in ((if m <=? 2 then y + 1 else y)%Z, m, d).

Lemma year_of_era doe : (0 ≤ doe < 146097)%Z →
  let yoe := ((doe - doe / 1460 + doe / 36524 - doe / 146096) / 365)%Z in
  (0 ≤ yoe ≤ 399 ∧ 0 ≤ doe - (365 * yoe + yoe / 4 - yoe / 100) ∧ doe < year_start (yoe + 1))%Z.
Proof. intros Hd yoe. unfold yoe, year_start. split; [|split]; Z.to_euclidean_division_equations; lia. Qed.

(** The algorithm finds the year and the day of it. *)
Lemma civil_date z : ∃ y doy, (z + 719468 = year_start y + doy)%Z ∧ (0 ≤ doy)%Z ∧ (year_start y + doy < year_start (y + 1))%Z ∧
  civil_from_days z = date_of y doy.
Proof.
  unfold civil_from_days.
  assert (Z.quot (if (0 <=? z + 719468)%Z then (z + 719468) else z + 719468 - 146096)%Z 146097 = (z + 719468) / 146097)%Z as ->.
  { destruct (Z.leb_spec 0 (z + 719468)); Z.to_euclidean_division_equations; lia. }
  set (k := ((z + 719468) / 146097)%Z). set (doe := (z + 719468 - k * 146097)%Z).
  assert (0 ≤ doe < 146097)%Z as Hdoe by (unfold doe, k; Z.to_euclidean_division_equations; lia).
  pose proof (year_of_era doe Hdoe) as Hy. set (yoe := ((doe - doe / 1460 + doe / 36524 - doe / 146096) / 365)%Z) in *.
  exists (yoe + k * 400)%Z, (doe - (365 * yoe + yoe / 4 - yoe / 100))%Z. destruct Hy as (Hr & H0 & H1).
  assert (∀ y, year_start (y + k * 400) = year_start y + k * 146097)%Z as Hk.
  { intros y. unfold year_start. Z.to_euclidean_division_equations; lia. }
  assert (year_start yoe = 365 * yoe + yoe / 4 - yoe / 100)%Z as Hs by (unfold year_start; rewrite (Z.div_small yoe 400); lia).
  split_and!; [rewrite Hk, Hs; unfold doe; lia|done| |reflexivity].
  replace (yoe + k * 400 + 1)%Z with (yoe + 1 + k * 400)%Z by ring. rewrite !Hk, Hs. lia.
Qed.

(** A day of a year of this count, one after the other; the table has 366
    entries. *)
Definition check_below (p : Z → bool) (n : N) : Z * bool := N.iter n (λ st : Z * bool, (st.1 + 1, st.2 && p st.1)%Z) (0%Z, true).
Lemma check_below_spec p n : (check_below p n).1 = Z.of_N n ∧ ((check_below p n).2 = true → ∀ i, (0 ≤ i < Z.of_N n)%Z → p i = true).
Proof.
  induction n as [|n [IH1 IH2]] using N.peano_ind; [split; [done|intros _ i ?; lia]|].
  unfold check_below in *. rewrite N.iter_succ. cbn [fst snd]. split; [rewrite IH1; lia|].
  intros [Hall Hlast]%andb_true_iff i Hi. rewrite IH1 in Hlast.
  destruct (Z.eq_dec i (Z.of_N n)) as [->|]; [done|]. apply IH2; [done|lia].
Qed.

Definition next_month_day (leap : bool) (p : Z * Z) : Z * Z :=
  if (p.2 <? month_len leap p.1)%Z then (p.1, p.2 + 1)%Z else if (p.1 <? 12)%Z then (p.1 + 1, 1)%Z else (1, 1)%Z.
(** The next entry of the table, and March after the last; a year ends after
    December only. *)
Definition table_ok (doy : Z) : bool :=
  forallb (λ leap : bool,
    let last := if leap then 365%Z else 364%Z in
    let p := month_day doy in let q := next_month_day leap p in
    (last <? doy)%Z || (if (doy =? last)%Z then bool_decide (p.1 = 2%Z ∧ q = (3, 1)%Z)
      else bool_decide (q = month_day (doy + 1)) && bool_decide (p.1 ≤ 2 ↔ q.1 ≤ 2 ∧ p.1 ≠ 12)%Z)) [true; false].
Lemma table_checked : (check_below table_ok 366).2 = true.
Proof. vm_compute. reflexivity. Qed.

Lemma year_length y : (year_start (y + 1) - year_start y = if is_leap (y + 1) then 366 else 365)%Z.
Proof.
  unfold year_start, is_leap.
  destruct (Z.eqb_spec ((y + 1) mod 4) 0), (Z.eqb_spec ((y + 1) mod 100) 0), (Z.eqb_spec ((y + 1) mod 400) 0); cbn;
    Z.to_euclidean_division_equations; lia.
Qed.

Lemma next_date y doy : (0 ≤ doy)%Z → (year_start y + doy < year_start (y + 1))%Z →
  next_day (date_of y doy) = if (year_start y + doy + 1 <? year_start (y + 1))%Z then date_of y (doy + 1) else date_of (y + 1) 0.
Proof.
  intros H0 H1. pose proof (year_length y) as Hl. pose proof (proj2 (check_below_spec table_ok 366) table_checked doy) as Hd.
  specialize (Hd ltac:(destruct (is_leap (y + 1)); lia)). unfold table_ok in Hd. rewrite forallb_forall in Hd.
  specialize (Hd (is_leap (y + 1)) ltac:(destruct (is_leap (y + 1)); cbn; auto)). cbv zeta in Hd.
  apply orb_true_iff in Hd as [Hd|Hd]; [destruct (is_leap (y + 1)); apply Z.ltb_lt in Hd; lia|].
  unfold date_of at 1. destruct (month_day doy) as [m d]. cbn [fst snd] in Hd.
  assert (month_days (if (m <=? 2)%Z then y + 1 else y)%Z m = month_len (is_leap (y + 1)) m) as Hm.
  { unfold month_days, month_len. destruct (Z.eqb_spec m 2) as [->|]; done. }
  unfold next_day. rewrite Hm. clear Hm. unfold next_month_day in Hd. cbn [fst snd] in Hd.
  destruct (Z.ltb_spec (year_start y + doy + 1) (year_start (y + 1))) as [Hlt|Hge].
  - replace (doy =? _)%Z with false in Hd by (symmetry; apply Z.eqb_neq; destruct (is_leap (y + 1)); lia).
    apply andb_true_iff in Hd as [Hq%bool_decide_eq_true Hb%bool_decide_eq_true].
    unfold date_of. rewrite <-Hq. destruct (d <? _)%Z; cbn [fst snd] in *; [done|].
    destruct (Z.ltb_spec m 12); cbn [fst snd] in *; destruct (Z.leb_spec m 2), (Z.leb_spec (m + 1) 2); try done; try lia; f_equal; f_equal; lia.
  - replace (doy =? _)%Z with true in Hd by (symmetry; apply Z.eqb_eq; destruct (is_leap (y + 1)); lia).
    apply bool_decide_eq_true in Hd as [-> Hq]. change (date_of (y + 1) 0) with ((y + 1)%Z, 3%Z, 1%Z).
    destruct (d <? _)%Z; cbn in *; [congruence|]. done.
Qed.

(** The calendar of a time stamp.  Day 0 is 1970-01-01, and the date of every
    following day is the next day of the proleptic Gregorian calendar, so
    [civil_from_days] is right for every day number. *)
Theorem civil_from_days_correct :
  civil_from_days 0 = (1970, 1, 1)%Z ∧ ∀ z, civil_from_days (z + 1) = next_day (civil_from_days z).
Proof.
  split; [reflexivity|]. intros z. destruct (civil_date z) as (y & doy & Hz & H0 & H1 & ->).
  destruct (civil_date (z + 1)) as (y' & doy' & Hz' & H0' & H1' & ->). rewrite next_date by done.
  assert (∀ a b, a < b → year_start (a + 1) ≤ year_start b)%Z as Hmono
    by (intros a b ?; unfold year_start; Z.to_euclidean_division_equations; lia).
  pose proof (year_length y). pose proof (year_length (y + 1)).
  destruct (Z.ltb_spec (year_start y + doy + 1) (year_start (y + 1))).
  - assert (y' = y) as ->; [|f_equal; lia].
    destruct (Z.lt_trichotomy y' y) as [Hlt|[?|Hlt]]; [specialize (Hmono _ _ Hlt); lia|done|specialize (Hmono _ _ Hlt); lia].
  - assert (y' = y + 1)%Z as ->; [|f_equal; lia].
    destruct (Z.lt_trichotomy y' (y + 1)) as [Hlt|[?|Hlt]]; [specialize (Hmono _ _ Hlt); lia|done|].
    specialize (Hmono _ _ Hlt). destruct (is_leap (y + 1 + 1)); lia.
Qed.

Example format_utc_sample : format_utc 1709210096 = "2024-02-29T12:34:56Z".
Proof. reflexivity. Qed.

(** ** The gate *)

Lemma filter_length_all {A} (P : A → Prop) `{∀ x, Decision (P x)} (l : list A) : length l - length (filter P l) = 0 ↔ ∀ x, x ∈ l → P x.
Proof.
  induction l as [|x l IH]; [split; [by intros _ ? ?%not_elem_of_nil|done]|].
  pose proof (length_filter P l) as Hle. rewrite filter_cons. setoid_rewrite elem_of_cons. case_decide as Hx; cbn [length].
  - replace (S (length l) - S (length (filter P l))) with (length l - length (filter P l)) by lia. rewrite IH. naive_solver.
  - split; [lia|]. intros Hall. by destruct Hx; apply Hall; left.
Qed.

Lemma filter_all {A} (P : A → Prop) `{∀ x, Decision (P x)} (l : list A) : (∀ x, x ∈ l → P x) → filter P l = l.
Proof.
  induction l as [|x l IH]; intros Hall; [done|]. rewrite filter_cons_True by (apply Hall; by left). f_equal. apply IH. intros y Hy. apply Hall. by right.
Qed.

(** What the masked view certifies: every symbol is visible and every edge has
    both its ends in the view. *)
Lemma view_complete ns es check :
  let view := filter_view ns es check in
  (0 <? gv_hidden_nodes view) || (0 <? gv_skipped_edges view) = false ↔
  (∀ f n, check = Some f → n ∈ ns → f n = true) ∧
  (∀ e, e ∈ es → source_id e ∈ node_id <$> ns ∧ target_id e ∈ node_id <$> ns).
Proof.
  intros view. rewrite orb_false_iff, !Nat.ltb_ge, !Nat.le_0_r. unfold view, filter_view. cbn [gv_hidden_nodes gv_skipped_edges].
  set (kept := match check with Some f => _ | None => ns end).
  assert (length ns - length kept = 0 ↔ ∀ f n, check = Some f → n ∈ ns → f n = true) as Hn.
  { unfold kept. destruct check as [f|]; [rewrite filter_length_all|rewrite Nat.sub_diag]; naive_solver. }
  rewrite Hn, filter_length_all. split; intros [Hall He]; (split; [done|]).
  - assert (kept = ns) as Hk.
    { unfold kept. destruct check as [f|]; [|done]. apply filter_all. intros n Hin. by apply (Hall f n). }
    intros e Hin. specialize (He e Hin). rewrite Hk in He. apply andb_true_iff in He as [Hs%bool_decide_eq_true Ht%bool_decide_eq_true].
    by rewrite elem_of_list_to_set in Hs, Ht.
  - assert (kept = ns) as Hk.
    { unfold kept. destruct check as [f|]; [|done]. apply filter_all. intros n Hin. by apply (Hall f n). }
    intros e Hin. rewrite Hk. destruct (He e Hin). apply andb_true_iff. rewrite !bool_decide_eq_true, !elem_of_list_to_set. done.
Qed.

Lemma require_reason_ok reason r : require_reason reason = Ok r ↔ ∃ t, reason = Some t ∧ trim t = r ∧ r ≠ "".
Proof.
  unfold require_reason. destruct reason as [t|]; cbn; [|naive_solver].
  destruct (trim t) as [|a u] eqn:Ht; cbn; split.
  - done.
  - by intros (t' & [= <-] & <- & ?).
  - intros [= <-]. by exists t.
  - intros (t' & [= <-] & Hr & _). by rewrite <-Hr, Ht.
Qed.

(** May the caller waive what it asks to waive? *)
Definition may_waive (auth : option string → result () string) (gate : LintGate) : Prop :=
  lg_waive gate = [] ∨ (auth (lg_as_subject gate) = Ok () ∧ ∃ t, lg_reason gate = Some t ∧ trim t ≠ "").

Lemma append_lines_all log_error ls : match append_lines log_error ls with
  | (logged, Ok _) => logged = ls ∧ ∀ l, l ∈ ls → log_error l = None
  | (logged, Err _) => ∃ l, l ∈ ls ∧ log_error l ≠ None
  end.
Proof.
  induction ls as [|l ls IH]; cbn [append_lines]; [split; [done|by intros l ?%not_elem_of_nil]|]. destruct (log_error l) as [e|] eqn:Hl; [exists l; split; [left|by rewrite Hl]|].
  destruct (append_lines log_error ls) as [logged [[]|e]].
  - destruct IH as [-> IH]. split; [done|]. intros l' [->|Hin]%elem_of_cons; auto.
  - destruct IH as (l' & Hin & He). exists l'. split; [by right|done].
Qed.

Lemma gate_verdict auth now log_error gate n violations hidden skipped :
  let out := report_and_gate auth now log_error gate n violations hidden skipped in
  let line v t := waiver_line now (lg_as_subject gate) (rule_id v) (trim t) in
  (go_verdict out = Ok () ↔ may_waive auth gate ∧ (∀ v, v ∈ violations → rule_id v ∈ lg_waive gate) ∧
     ((0 <? hidden) || (0 <? skipped) = false ∨ lg_fail_on_masked gate = false ∧ lg_as_subject gate = None) ∧
     ∀ v t, v ∈ violations → lg_reason gate = Some t → log_error (line v t) = None) ∧
  (go_verdict out = Ok () → ∀ v, v ∈ violations → ∃ t, lg_reason gate = Some t ∧ line v t ∈ go_logged out).
Proof.
  unfold report_and_gate, may_waive. cbv zeta.
  set (waive_reason := match lg_waive gate with [] => _ | _ => _ end).
  assert (match waive_reason with
          | Ok o => (lg_waive gate = [] ∧ o = None) ∨
                    (lg_waive gate ≠ [] ∧ auth (lg_as_subject gate) = Ok () ∧ ∃ t, lg_reason gate = Some t ∧ trim t ≠ "" ∧ o = Some (trim t))
          | Err _ => lg_waive gate ≠ [] ∧ (auth (lg_as_subject gate) ≠ Ok () ∨ ¬ ∃ t, lg_reason gate = Some t ∧ trim t ≠ "")
          end) as Hw.
  { unfold waive_reason. destruct (lg_waive gate); [by left|]. destruct (auth (lg_as_subject gate)) as [[]|e]; cbn [result_bind]; [|by split; [|left]].
    destruct (require_reason (lg_reason gate)) as [r|e] eqn:Hr; cbn [result_bind].
    - apply require_reason_ok in Hr as (t & ? & <- & ?). right. split_and!; [done..|]. by exists t.
    - split; [done|]. right. intros (t & Ht & Hne). assert (require_reason (lg_reason gate) = Ok (trim t)); [|congruence].
      apply require_reason_ok. by exists t. }
  destruct waive_reason as [o|e]; cbn [go_verdict go_logged].
  2:{ destruct Hw as [Hne Hw]. split; [|done]. split; [done|]. intros [[?|[? ?]] _]; [done|]. by destruct Hw. }
  set (waived := filter (λ v, rule_id v ∈ lg_waive gate) violations).
  set (blocking := filter (λ v, rule_id v ∉ lg_waive gate) violations).
  set (log_lines := match o with Some _ => _ | None => [] end).
  assert (∀ l, l ∈ log_lines ↔ ∃ v t, v ∈ waived ∧ lg_reason gate = Some t ∧ l = waiver_line now (lg_as_subject gate) (rule_id v) (trim t)) as Hll.
  { intros l. destruct Hw as [[Hw Ho]|(_ & _ & t & Ht & _ & Ho)]; unfold log_lines; rewrite Ho.
    - split; [by intros ?%not_elem_of_nil|]. intros (v & t & Hv & _). unfold waived in Hv. rewrite Hw in Hv. apply list_elem_of_filter in Hv as [Hv _]. by apply not_elem_of_nil in Hv.
    - rewrite list_elem_of_fmap. split; [intros (v & -> & Hv); by exists v, t|]. intros (v & t' & Hv & Ht' & ->). exists v. split; [congruence|done]. }
  assert (blocking = [] ↔ ∀ v, v ∈ violations → rule_id v ∈ lg_waive gate) as Hb.
  { unfold blocking. split.
    - intros Hnil v Hv. destruct (decide (rule_id v ∈ lg_waive gate)); [done|]. exfalso. apply (not_elem_of_nil v).
      rewrite <-Hnil. by apply list_elem_of_filter.
    - intros Hall. apply elem_of_nil_inv. intros v [Hn Hv]%list_elem_of_filter. by apply Hn, Hall. }
  assert ((∀ v, v ∈ violations → rule_id v ∈ lg_waive gate) → ∀ v, v ∈ waived ↔ v ∈ violations) as Hwaived.
  { intros Hall v. unfold waived. rewrite list_elem_of_filter. split; [by intros []|]. auto. }
  pose proof (append_lines_all log_error log_lines) as Happ. destruct (append_lines log_error log_lines) as [logged [[]|e]]; cbn [go_verdict go_logged].
  2:{ split; [|done]. split; [done|]. intros (_ & Hall & _ & Hlog). destruct Happ as (l & (v & t & Hv & Ht & ->)%Hll & Hl). destruct Hl. apply Hlog; [by apply Hwaived|done]. }
  destruct Happ as [-> Hnone].
  assert (match blocking with
          | [] => if ((0 <? hidden) || (0 <? skipped)) && (lg_fail_on_masked gate || bool_decide (is_Some (lg_as_subject gate)))
                  then Err "Policy view incomplete: nodes or edges were skipped by RBAC, so this run cannot certify repository-wide boundaries."
                  else Ok ()
          | _ :: _ => Err (decn (length blocking) +:+ " policy violation(s) — blocking (CI gate)")
          end = Ok () ↔ (∀ v, v ∈ violations → rule_id v ∈ lg_waive gate) ∧
     ((0 <? hidden) || (0 <? skipped) = false ∨ lg_fail_on_masked gate = false ∧ lg_as_subject gate = None)) as Hv.
  { rewrite <-Hb. destruct blocking; [|naive_solver]. destruct ((0 <? hidden) || (0 <? skipped)); cbn [andb]; [|naive_solver].
    destruct (lg_fail_on_masked gate); cbn [orb]; [naive_solver|]. destruct (lg_as_subject gate); [|naive_solver].
    rewrite bool_decide_eq_true_2 by by eexists. naive_solver. }
  split.
  - rewrite Hv. split; [|by intros (_ & ? & ? & _)]. intros [Hall Hc]. split_and!; [|done..|].
    + destruct Hw as [[Hw _]|(_ & Ha & t & Ht & Hne & _)]; [by left|]. right. split; [done|]. by exists t.
    + intros v t Hin Ht. apply Hnone, Hll. exists v, t. by rewrite Hwaived.
  - intros [Hall _]%Hv v Hin. pose proof (Hall v Hin) as Hid. destruct Hw as [[Hw _]|(_ & _ & t & Ht & _ & Ho)].
    { rewrite Hw in Hid. by apply not_elem_of_nil in Hid. }
    exists t. split; [done|]. apply Hll. exists v, t. by rewrite Hwaived.
Qed.

(** A violation of the view, by rule: the crossing that is forbidden, or the
    missing one that is required; rules the caller's roles exempt are skipped. *)
Definition violates (view : GraphView) (current_roles : list string) (rule : BoundaryRule) : Prop :=
  (∀ r, r ∈ allowed_roles (boundary rule) → r ∉ current_roles) ∧
  match rule with
  | Disallow b => ∃ e, e ∈ gv_edges view ∧ crossing (gv_nodes view) b e
  | Require_ b => ¬ ∃ e, e ∈ gv_edges view ∧ crossing (gv_nodes view) b e
  end.
Definition rule_name (rule : BoundaryRule) : string :=
  match rule with Disallow _ => "disallow" | Require_ _ => "require" end +:+ ":" +:+ from (boundary rule) +:+ "->" +:+ to (boundary rule).

Lemma lint_ids view current_roles rules id :
  (∃ v, v ∈ lint_scoped (gv_nodes view) (gv_edges view) rules current_roles ∧ rule_id v = id) ↔
  ∃ rule, rule ∈ rules ∧ violates view current_roles rule ∧ rule_name rule = id.
Proof.
  unfold lint_scoped. setoid_rewrite elem_of_sort_by. setoid_rewrite list_elem_of_omap. split.
  - intros (v & (rule & Hin & Hv) & <-). exists rule. split; [done|].
    apply lint_rule_Some in Hv as (Hf & Ht & _ & _ & Hro & Hm). unfold violates, rule_name, rule_id. rewrite Hf, Ht.
    destruct rule; destruct Hm as [-> ?]; done.
  - intros (rule & Hin & [Hro Hm] & <-). destruct (lint_rule_fires _ _ _ rule Hro Hm) as [v Hv]. exists v. split; [eauto|].
    apply lint_rule_Some in Hv as (Hf & Ht & _ & _ & _ & Hk). unfold rule_name, rule_id. rewrite Hf, Ht.
    destruct rule; destruct Hk as [-> _]; done.
Qed.

(** *** Several graphs *)

Definition graph : Type := list Node * list Edge.
Definition view_of (check : option (Node → bool)) (g : graph) : GraphView := filter_view g.1 g.2 check.
Definition v_key (v : Violation) : string * string * string := (v_kind v, v_from v, v_to v).
Lemma merge_violations l : ∀ seen acc, (∀ key, key ∈ seen ↔ ∃ v, v ∈ acc ∧ v_key v = key) →
  let st := foldl (λ (st : list (string * string * string) * list Violation) v,
    let key := (v_kind v, v_from v, v_to v) in if decide (key ∈ st.1) then st else (key :: st.1, st.2 ++ [v])) (seen, acc) l in
  (∀ key, key ∈ st.1 ↔ ∃ v, v ∈ st.2 ∧ v_key v = key) ∧ ∀ key, (∃ v, v ∈ st.2 ∧ v_key v = key) ↔ (∃ v, v ∈ acc ∧ v_key v = key) ∨ ∃ v, v ∈ l ∧ v_key v = key.
Proof.
  induction l as [|v l IH]; intros seen acc Hseen; cbn [foldl].
  { split; [done|]. intros key. split; [by left|]. intros [?|(v & ?%not_elem_of_nil & _)]; done. }
  cbn [fst snd]. fold (v_key v). setoid_rewrite elem_of_cons. case_decide as Hv.
  - destruct (IH seen acc Hseen) as [H1 H2]. split; [exact H1|]. intros key. rewrite H2. apply Hseen in Hv as (x & Hx & Hxk). split.
    + intros [?|(w & Hw & Hk)]; [by left|right; exists w; auto].
    + intros [?|(w & [->|Hw] & Hk)]; [by left|left; exists x; split; [done|congruence]|right; by exists w].
  - destruct (IH (v_key v :: seen) (acc ++ [v])) as [H1 H2].
    { intros key. rewrite elem_of_cons, Hseen. setoid_rewrite elem_of_app. setoid_rewrite list_elem_of_singleton. split.
      - intros [->|(w & Hw & Hk)]; [exists v; auto|exists w; auto].
      - intros (w & [Hw| ->] & Hk); [right; by exists w|by left]. }
    split; [exact H1|]. intros key. rewrite H2. setoid_rewrite elem_of_app. setoid_rewrite list_elem_of_singleton. split.
    + intros [(w & [Hw| ->] & Hk)|(w & Hw & Hk)]; [left; by exists w|right; exists v; auto|right; exists w; auto].
    + intros [(w & Hw & Hk)|(w & [->|Hw] & Hk)]; [left; exists w; auto|left; exists v; auto|right; by exists w].
Qed.
Lemma rule_id_key v w : v_key v = v_key w → rule_id v = rule_id w.
Proof. unfold v_key, rule_id. intros [= -> -> ->]. done. Qed.
Definition view_whole (check : option (Node → bool)) (g : graph) : Prop :=
  gv_hidden_nodes (view_of check g) = 0 ∧ gv_skipped_edges (view_of check g) = 0.
Lemma lint_peers_spec rules check roles peers : ∀ seen acc h k, (∀ key, key ∈ seen ↔ ∃ v, v ∈ acc ∧ v_key v = key) →
  match lint_peers rules check roles peers seen acc h k with
  | Ok (acc', h', k') => (∀ p, p ∈ peers → ∃ g, p = Ok g) ∧
      (∀ id, (∃ v, v ∈ acc' ∧ rule_id v = id) ↔ (∃ v, v ∈ acc ∧ rule_id v = id) ∨
         ∃ g v, Ok g ∈ peers ∧ v ∈ lint_scoped (gv_nodes (view_of check g)) (gv_edges (view_of check g)) rules roles ∧ rule_id v = id) ∧
      (h' = 0 ∧ k' = 0 ↔ h = 0 ∧ k = 0 ∧ ∀ g, Ok g ∈ peers → view_whole check g)
  | Err e => Err e ∈ peers
  end.
Proof.
  induction peers as [|[g|e] peers IH]; intros seen acc h k Hseen; cbn [lint_peers result_bind].
  - split_and!; [by intros p ?%not_elem_of_nil| |].
    + intros id. split; [by left|]. intros [?|(g & v & ?%not_elem_of_nil & _)]; done.
    + split; [intros []; split_and!; [done..|by intros g ?%not_elem_of_nil]|by intros (? & ? & _)].
  - fold (view_of check g). destruct (merge_violations (lint_scoped (gv_nodes (view_of check g)) (gv_edges (view_of check g)) rules roles) seen acc Hseen) as [Hseen' Hkeys].
    destruct (foldl _ (seen, acc) _) as [seen' acc']. cbn [fst snd] in *. specialize (IH seen' acc' (h + gv_hidden_nodes (view_of check g)) (k + gv_skipped_edges (view_of check g)) Hseen').
    destruct (lint_peers _ _ _ _ _ _ _ _) as [[[acc2 h2] k2]|e]; [|by right]. destruct IH as (Hread & Hids & Hwhole). split_and!.
    + intros p [->|Hp]%elem_of_cons; [by exists g|by apply Hread].
    + intros id. rewrite Hids. assert ((∃ v, v ∈ acc' ∧ rule_id v = id) ↔ (∃ v, v ∈ acc ∧ rule_id v = id) ∨ ∃ v, v ∈ lint_scoped (gv_nodes (view_of check g)) (gv_edges (view_of check g)) rules roles ∧ rule_id v = id) as ->.
      { split.
        - intros (v & Hv & <-). destruct (proj1 (Hkeys (v_key v))) as [(w & Hw & Hk)|(w & Hw & Hk)]; [by exists v|left|right]; exists w; (split; [done|by apply rule_id_key]).
        - intros [(v & Hv & <-)|(v & Hv & <-)]; (destruct (proj2 (Hkeys (v_key v))) as (w & Hw & Hk); [by eauto|]); exists w; (split; [done|by apply rule_id_key]). }
      setoid_rewrite elem_of_cons. split.
      * intros [[?|(v & ? & ?)]|(g' & v & ? & ? & ?)]; [by left|right; exists g, v; auto|right; exists g', v; auto].
      * intros [?|(g' & v & [[= ->]|?] & ? & ?)]; [auto|left; right; by exists v|right; exists g', v; auto].
    + rewrite Hwhole. setoid_rewrite elem_of_cons. unfold view_whole. split.
      * intros (Hh & Hk & Hrest). split_and!; [lia|lia|]. intros g' [[= ->]|Hg]; [lia|by apply Hrest].
      * intros (-> & -> & Hrest). destruct (Hrest g) as [-> ->]; [by left|]. split_and!; [done..|]. intros g' Hg. apply Hrest. by right.
  - left.
Qed.

Section command.
Context (from_yaml : string → result PolicyFile string) `{TomlFormat}.

(** A graph all of whose symbols the caller sees, and whose edges all join symbols of
    it. *)
Definition seen_whole (check : option (Node → bool)) (g : graph) : Prop :=
  (∀ f n, check = Some f → n ∈ g.1 → f n = true) ∧ ∀ e, e ∈ g.2 → source_id e ∈ node_id <$> g.1 ∧ target_id e ∈ node_id <$> g.1.
Lemma view_whole_seen check g : view_whole check g ↔ seen_whole check g.
Proof.
  unfold view_whole, seen_whole. rewrite <- view_complete. unfold view_of. rewrite orb_false_iff, !Nat.ltb_ge. lia.
Qed.

(** The gate over what was found in some graphs. *)
Lemma gate_over_graphs src now log_error gate rules check current_roles (graphs : list (result graph string)) violations h k :
  graphs ≠ [] → (∀ r, r ∈ graphs → ∃ g, r = Ok g) →
  (∀ id, (∃ v, v ∈ violations ∧ rule_id v = id) ↔ ∃ g v, Ok g ∈ graphs ∧ v ∈ lint_scoped (gv_nodes (view_of check g)) (gv_edges (view_of check g)) rules current_roles ∧ rule_id v = id) →
  (h = 0 ∧ k = 0 ↔ ∀ g, Ok g ∈ graphs → view_whole check g) →
  let out := report_and_gate (authorize_with src) now log_error gate (length rules) violations h k in
  let violated rule := ∃ g, Ok g ∈ graphs ∧ violates (view_of check g) current_roles rule in
  let line rule t := waiver_line now (lg_as_subject gate) (rule_name rule) (trim t) in
  (go_verdict out = Ok () ↔
     graphs ≠ [] ∧ (∀ r, r ∈ graphs → ∃ g, r = Ok g) ∧
     may_waive (authorize_with src) gate ∧
     (∀ rule, rule ∈ rules → violated rule → rule_name rule ∈ lg_waive gate) ∧
     ((∀ g, Ok g ∈ graphs → seen_whole check g) ∨ lg_fail_on_masked gate = false ∧ lg_as_subject gate = None) ∧
     ∀ rule t, rule ∈ rules → violated rule → lg_reason gate = Some t → log_error (line rule t) = None) ∧
  (go_verdict out = Ok () → ∀ rule, rule ∈ rules → violated rule → ∃ t, lg_reason gate = Some t ∧ line rule t ∈ go_logged out).
Proof.
  intros Hne Hread Hids Hwhole out violated line. pose proof (gate_verdict (authorize_with src) now log_error gate (length rules) violations h k) as [Hv Hlog].
  assert (∀ id, (∃ v, v ∈ violations ∧ rule_id v = id) ↔ ∃ rule, rule ∈ rules ∧ violated rule ∧ rule_name rule = id) as Hviol.
  { intros id. rewrite Hids. split.
    - intros (g & v & Hg & Hin & Hid). destruct (proj1 (lint_ids (view_of check g) current_roles rules id)) as (rule & Hr & Hvr & Hn); [by exists v|]. exists rule. split_and!; [done| |done]. by exists g.
    - intros (rule & Hr & (g & Hg & Hvr) & Hn). destruct (proj2 (lint_ids (view_of check g) current_roles rules id)) as (v & Hin & Hid); [by exists rule|]. by exists g, v. }
  assert ((0 <? h) || (0 <? k) = false ↔ ∀ g, Ok g ∈ graphs → seen_whole check g) as Hseen.
  { setoid_rewrite <- view_whole_seen. rewrite <- Hwhole, orb_false_iff, !Nat.ltb_ge. lia. }
  rewrite Hseen in Hv. clear Hseen Hids Hwhole. split.
  - unfold out. rewrite Hv. split.
    + intros (Hm & Hall & Hs & Hl). split_and!; [done..| |done|].
      * intros rule Hr Hvr. destruct (proj2 (Hviol (rule_name rule))) as (v & Hin & <-); [by exists rule|]. by apply Hall.
      * intros rule t Hr Hvr Ht. destruct (proj2 (Hviol (rule_name rule))) as (v & Hin & Hid); [by exists rule|]. unfold line. rewrite <- Hid. by apply Hl.
    + intros (_ & _ & Hm & Hall & Hs & Hl). split_and!; [done| |done|].
      * intros v Hin. destruct (proj1 (Hviol (rule_id v))) as (rule & Hr & Hvr & <-); [by exists v|]. by apply Hall.
      * intros v t Hin Ht. destruct (proj1 (Hviol (rule_id v))) as (rule & Hr & Hvr & <-); [by exists v|]. by apply Hl.
  - intros Hok rule Hr Hvr. destruct (proj2 (Hviol (rule_name rule))) as (v & Hin & Hid); [by exists rule|]. unfold line. rewrite <- Hid. by apply Hlog.
Qed.

(** C26: The exit code of [weave policy lint] is exact, for this repository and over
    the linked ones.  Once the rules are read, it succeeds exactly when there is a graph
    to lint and every one can be read; the waivers asked for are permitted (none, or an
    authorised caller with a reason); every rule that the visible part of some graph
    violates is waived by its name; every graph was seen whole, unless an anonymous
    run did not ask for that; and no line for the log fails to be appended.  After a
    success every violated rule has a line with the reason in the log.  Whether a line
    can be appended is a function of the line. *)
Theorem policy_gate_exact src now log_error path policy gate federated local linked rules
    (Hrules : load_rules from_yaml path policy = Ok rules) :
  let out := cmd_policy_lint from_yaml src now log_error path policy gate federated local linked in
  let graphs := if federated then linked else [local] in
  let '(check, current_roles) := lint_guard src (lg_as_subject gate) in
  let violated rule := ∃ g, Ok g ∈ graphs ∧ violates (view_of check g) current_roles rule in
  let line rule t := waiver_line now (lg_as_subject gate) (rule_name rule) (trim t) in
  (go_verdict out = Ok () ↔
     graphs ≠ [] ∧ (∀ r, r ∈ graphs → ∃ g, r = Ok g) ∧
     may_waive (authorize_with src) gate ∧
     (∀ rule, rule ∈ rules → violated rule → rule_name rule ∈ lg_waive gate) ∧
     ((∀ g, Ok g ∈ graphs → seen_whole check g) ∨ lg_fail_on_masked gate = false ∧ lg_as_subject gate = None) ∧
     ∀ rule t, rule ∈ rules → violated rule → lg_reason gate = Some t → log_error (line rule t) = None) ∧
  (go_verdict out = Ok () → ∀ rule, rule ∈ rules → violated rule → ∃ t, lg_reason gate = Some t ∧ line rule t ∈ go_logged out).
Proof.
  unfold cmd_policy_lint. rewrite Hrules. destruct (lint_guard src (lg_as_subject gate)) as [check current_roles]. cbv zeta.
  destruct federated.
  - destruct linked as [|p linked]; [split; [|done]; split; [done|by intros []]|].
    pose proof (lint_peers_spec rules check current_roles (p :: linked) [] [] 0 0) as Hspec.
    destruct (lint_peers _ _ _ _ _ _ _ _) as [[[violations h] k]|e].
    + destruct Hspec as (Hread & Hids & Hwhole); [by intros key; split; [intros ?%not_elem_of_nil|intros (v & ?%not_elem_of_nil & _)]|].
      apply gate_over_graphs; [done..| |].
      * intros id. rewrite Hids. split; [intros [(v & ?%not_elem_of_nil & _)|?]|by right]; done.
      * rewrite Hwhole. tauto.
    + split; [|done]. split; [done|]. intros (_ & Hread & _). destruct (Hread (Err e)) as [g [=]]. apply Hspec.
      by intros key; split; [intros ?%not_elem_of_nil|intros (v & ?%not_elem_of_nil & _)].
  - destruct local as [[ns es]|e].
    + apply (gate_over_graphs src now log_error gate rules check current_roles [Ok (ns, es)]); [done|intros r ->%list_elem_of_singleton; eauto| |].
      * intros id. setoid_rewrite list_elem_of_singleton. split; [intros (v & ? & ?); by exists (ns, es), v|]. intros (g & v & [= ->] & ? & ?). by exists v.
      * setoid_rewrite list_elem_of_singleton. unfold view_whole, view_of. split; [by intros ? g [= ->]|]. intros Hall. by apply (Hall (ns, es)).
    + split; [|done]. split; [done|]. intros (_ & Hread & _). destruct (Hread (Err e)) as [g [=]]. by left.
Qed.
End command.

(** ** Examples *)

Definition gate_policy : PolicyFile := mkPolicyFile (Some [mkRuleEntry (Some (mkBoundaryYaml "ui" "db" None None)) None]) None.
Definition gate_graph : list Node * list Edge :=
  ([mkNode 1 "local" "ui/a.rs" "f" "fn" 1 2 "pub fn f()"; mkNode 2 "local" "db/b.rs" "g" "fn" 1 2 "pub fn g()"],
   [mkEdge 1 1 2 "CALLS" 0 None None]).

Lemma policy_gate_exact_witness :
  let lint := cmd_policy_lint (λ _, Ok gate_policy) (mkIdentitySource None None None) 0 (λ _, None) ".weave/policy.yaml" (Some "")
    (mkLintGate None false ["disallow:ui->db"] (Some "legacy")) true (Err "not read") [Ok ([], []); Ok gate_graph] in
  go_verdict lint = Ok () ∧ "1970-01-01T00:00:00Z, anonymous, disallow:ui->db, legacy" ∈ go_logged lint.
Proof.
  intros lint.
  destruct (policy_gate_exact (λ _, Ok gate_policy) (mkIdentitySource None None None) 0 (λ _, None) ".weave/policy.yaml" (Some "")
    (mkLintGate None false ["disallow:ui->db"] (Some "legacy")) true (Err "not read") [Ok ([], []); Ok gate_graph] [Disallow (mkBoundary "ui" "db" [] None)] eq_refl)
    as [_ Hlog].
  assert (go_verdict lint = Ok ()) as Hv by (vm_compute; reflexivity).
  split; [exact Hv|]. destruct (Hlog Hv (Disallow (mkBoundary "ui" "db" [] None))) as (t & [= <-] & Hin); [by left| |].
  - exists gate_graph. split; [by right; left|]. split; [by intros r ?%not_elem_of_nil|]. exists (mkEdge 1 1 2 "CALLS" 0 None None). split; [vm_compute; by left|].
    exists "ui/a.rs", "db/b.rs". split_and!; [reflexivity|reflexivity|right; right; by exists "a.rs"|right; right; by exists "b.rs"].
  - exact Hin.
Defined.

(** A line that cannot be appended fails the run, though the violation is waived. *)
Example log_failure_fails_the_gate :
  go_verdict (cmd_policy_lint (λ _, Ok gate_policy) (mkIdentitySource None None None) 0 (λ _, Some "disk full") ".weave/policy.yaml" (Some "")
    (mkLintGate None false ["disallow:ui->db"] (Some "legacy")) false (Ok gate_graph) []) = Err "disk full".
Proof. vm_compute. reflexivity. Qed.
