(* ===== verification/Review.v ===== *)
(** * Pull-request review (pr_review.rs, blast.rs)

    The command around the blast radius and [weave pr-review]: the risk of a
    change, the findings of the contract, phantom-symbol and policy checks, the
    gate with its waivers, the reports and the history of runs.  git, the
    contracts of the linked repositories and the JSON printer are parameters. *)

From S2P Require Import Prelude Str Bitmap Model Csr Paths CsrGraph Resolve Auth Policy Language Interner ProjectIndex SqlStore Contract Json Config Spool Http Modules Tools Scim Blast Verify PolicyGate ContractProofs.

(** Sequencing of a computation that may panic or fail. *)
Definition run_bind {A B E} (x : option (result A E)) (k : A → option (result B E)) : option (result B E) :=
  match x with Some (Ok a) => k a | Some (Err e) => Some (Err e) | None => None end.
Notation "'let!' x := a 'in' b" := (run_bind a (λ x, b)) (at level 200, x binder, right associativity).

(** ** Risk and severity *)

(** src/crates/weave-graph-cli/src/pr_review.rs:20-25 [RiskLevel] *)
Inductive RiskLevel := RiskLow | RiskMedium | RiskHigh | RiskCritical.
(** src/crates/weave-graph-cli/src/pr_review.rs:28-35 [RiskLevel::as_str] *)
Definition risk_str (r : RiskLevel) : string :=
  match r with RiskLow => "Low" | RiskMedium => "Medium" | RiskHigh => "High" | RiskCritical => "Critical" end.

(** src/crates/weave-graph-cli/src/pr_review.rs:54-56 [HIGH_FANOUT] *)
Definition HIGH_FANOUT : nat := 50.
Definition MEDIUM_FANOUT : nat := 10.
Definition HIGH_EXPORTED : nat := 3.

(** src/crates/weave-graph-cli/src/pr_review.rs:42-52 [classify_risk] *)
Definition classify_risk (impacted exported : nat) : RiskLevel :=
  if (0 <? exported) && (HIGH_FANOUT <=? impacted) then RiskCritical
  else if (HIGH_FANOUT <=? impacted) || (HIGH_EXPORTED <=? exported) then RiskHigh
  else if (MEDIUM_FANOUT <=? impacted) || (0 <? exported) then RiskMedium else RiskLow.

(** src/crates/weave-graph-cli/src/pr_review.rs:63-67 [Severity] *)
Inductive Severity := Blocker | Warning | Info.
#[export] Instance Severity_eq_dec : EqDecision Severity.
Proof. solve_decision. Defined.
Definition severity_rank (s : Severity) : nat := match s with Blocker => 0 | Warning => 1 | Info => 2 end.
(** src/crates/weave-graph-cli/src/pr_review.rs:70-76 [Severity::as_str] *)
Definition severity_str (s : Severity) : string := match s with Blocker => "blocker" | Warning => "warning" | Info => "info" end.
(** src/crates/weave-graph-cli/src/pr_review.rs:78-84 [Severity::annotation_level] *)
Definition annotation_level (s : Severity) : string := match s with Blocker => "failure" | Warning => "warning" | Info => "notice" end.
(** src/crates/weave-graph-cli/src/pr_review.rs:88-98 [Severity::parse_fail_on] *)
Definition parse_fail_on (value : string) : result (option Severity) string :=
  if decide (value = "blocker") then Ok (Some Blocker) else if decide (value = "warning") then Ok (Some Warning)
  else if decide (value = "info") then Ok (Some Info) else if decide (value = "never") then Ok None
  else Err ("unknown --fail-on value `" +:+ value +:+ "` (expected blocker, warning, info, or never)").

(** src/crates/weave-graph-cli/src/pr_review.rs:106-110 [Finding] *)
Record ReviewFinding := mkReviewFinding { rf_id : string; rf_severity : Severity; rf_message : string }.

(** ** Findings *)

(** src/crates/weave-graph-cli/src/pr_review.rs:114-126 [oversized_blast_finding] *)
Definition oversized_blast_finding (report : BlastReport) : list ReviewFinding :=
  if length (impacted report) <? HIGH_FANOUT then [] else
  [mkReviewFinding "oversized-blast-radius" Warning
     ("blast radius is unusually large (" +:+ decn (length (impacted report)) +:+ " symbols) — consider splitting this PR")].

Section findings.
Context `{Sqlite} (sha256 : string → string).

(** src/crates/weave-graph-cli/src/pr_review.rs:155-185 [contract_findings]
    One linked repository: its label and the contract its files declare. *)
Definition contract_finding (expectations : list (string * string * string * string)) (label : string) (actual : ContractMap) :
    option ReviewFinding :=
  '(_, (_, expected_hash, _, expected_blob)) ← list_find (λ e : string * string * string * string, e.1.1.1 = label) expectations;
  if decide (contract_hash_of sha256 actual = expected_hash) then None else
  let diff := diff_contracts (deserialize_entries expected_blob) actual entry_key in
  if length (added diff) + length (removed diff) + length (changed diff) =? 0 then None else
  Some (mkReviewFinding ("contract:" +:+ label) Blocker
          ("public contract diverged from '" +:+ label +:+ "': " +:+ decn (length (added diff)) +:+ " added, " +:+
           decn (length (removed diff)) +:+ " removed, " +:+ decn (length (changed diff)) +:+ " changed")).

(** src/crates/weave-graph-cli/src/pr_review.rs:136-188 [contract_findings]
    The contract of a linked repository is read only when one is expected. *)
Definition contract_findings (db : Db) (consumer_label : string) (linked : list (string * result ContractMap string)) :
    result (list ReviewFinding) string :=
  match linked with
  | [] => Ok []
  | _ =>
      let? expectations := match contract_expectations db consumer_label with Ok x => Ok x | Err e => Err (storage_error_text e) end in
      let? found := try_map (λ p : string * result ContractMap string,
        match list_find (λ e : string * string * string * string, e.1.1.1 = p.1) expectations with
        | None => Ok []
        | Some _ => let? actual := p.2 in Ok (match contract_finding expectations p.1 actual with Some f => [f] | None => [] end)
        end) linked in
      Ok (concat found)
  end.

(** src/crates/weave-graph-cli/src/pr_review.rs:196-217 [policy_findings] *)
Definition policy_findings (from_yaml : string → result PolicyFile string) (policy_path : string) (policy : option string) (db : Db) :
    result (list ReviewFinding) string :=
  match policy with
  | None => Ok []
  | Some _ =>
      let? rules := load_rules from_yaml policy_path policy in
      let? nodes := match all_nodes db with Ok x => Ok x | Err e => Err (storage_error_text e) end in
      let? edges := match all_edges db with Ok x => Ok x | Err e => Err (storage_error_text e) end in
      Ok ((λ v, mkReviewFinding ("policy:" +:+ rule_id v) Blocker
                  ("policy violation: " +:+ v_from v +:+ " -> " +:+ v_to v +:+ " (" +:+ v_kind v +:+ ")"))
            <$> lint_scoped nodes edges rules [])
  end.

(** src/crates/weave-graph-cli/src/pr_review.rs:223-235 [verify_findings] *)
Definition verify_findings (db : Db) (changed_files : list string) : result (list ReviewFinding) string :=
  match phantom_symbols db changed_files with
  | Err e => Err (storage_error_text e)
  | Ok fs => Ok ((λ f, mkReviewFinding ("phantom:" +:+ vf_file f +:+ ":" +:+ vf_message f) Warning (vf_file f +:+ ": " +:+ vf_message f)) <$> fs)
  end.
End findings.

(** ** Rendering *)

Definition plural (n : nat) : string := if n =? 1 then "" else "s".
Definition newline2 : string := newline +:+ newline.

(** src/crates/weave-graph-cli/src/pr_review.rs:264-279 [risk_header] *)
Definition risk_header (risk : RiskLevel) (r : BlastReport) : string :=
  "**Blast radius: " +:+ risk_str risk +:+ "** (" +:+ decn (length (impacted r)) +:+ " symbol" +:+ plural (length (impacted r)) +:+ ", " +:+
  decn (length (blast_modules r)) +:+ " module" +:+ plural (length (blast_modules r)) +:+ ", " +:+
  decn (length (exported_touched r)) +:+ " exported symbol" +:+ plural (length (exported_touched r)) +:+ " touched)" +:+ newline2.

(** src/crates/weave-graph-cli/src/pr_review.rs:281-302 [findings_markdown] *)
Definition findings_markdown (fs : list ReviewFinding) (waived : list string) : string :=
  match fs with
  | [] => ""
  | _ =>
      "### Findings" +:+ newline2 +:+
      String.concat "" ((λ f, "- **[" +:+ severity_str (rf_severity f) +:+ "]** " +:+ rf_message f +:+
        (if decide (rf_id f ∈ waived) then " _(waived)_" else "") +:+ " (`" +:+ rf_id f +:+ "`)" +:+ newline) <$> fs) +:+ newline
  end.

(** src/crates/weave-graph-cli/src/pr_review.rs:307-327 [stack_markdown] *)
Definition stack_markdown (stack_ref : option string) (base : string) (cumulative : option BlastReport) : string :=
  match stack_ref, cumulative with
  | Some stack_ref, Some cum =>
      "### Stack context" +:+ newline2 +:+ "Scored against stack parent `" +:+ stack_ref +:+ "`. Cumulative to merge target `" +:+ base +:+ "`: " +:+
      decn (length (impacted cum)) +:+ " symbol" +:+ plural (length (impacted cum)) +:+ ", " +:+
      decn (length (exported_touched cum)) +:+ " exported symbol" +:+ plural (length (exported_touched cum)) +:+ " touched." +:+ newline2
  | _, _ => ""
  end.

(** src/crates/weave-graph-cli/src/pr_review.rs:333-339 [html_escape] *)
Definition html_escape (s : string) : string :=
  replace_char "'" "&#39;" (replace_char "034" "&quot;" (replace_char ">" "&gt;" (replace_char "<" "&lt;" (replace_char "&" "&amp;" s)))).

(** src/crates/weave-graph-cli/src/pr_review.rs:341-348 [risk_color] *)
Definition risk_color (r : RiskLevel) : string :=
  match r with RiskLow => "#2ea043" | RiskMedium => "#d29922" | RiskHigh => "#db6d28" | RiskCritical => "#da3633" end.

(** src/crates/weave-graph-cli/src/pr_review.rs:355-375 [render_html] *)
Definition render_html (risk : RiskLevel) (body_markdown : string) : string :=
  "<!doctype html>" +:+ newline +:+ "<html lang=" +:+ quoted "en" +:+ "><head><meta charset=" +:+ quoted "utf-8" +:+ ">" +:+ newline +:+
  "<title>Weave PR Review</title>" +:+ newline +:+ "<style>" +:+ newline +:+
  "body{font-family:-apple-system,BlinkMacSystemFont," +:+ quoted "Segoe UI" +:+
  ",sans-serif;max-width:860px;margin:2rem auto;padding:0 1rem;color:#1b1f23;background:#fff}" +:+ newline +:+
  ".risk-badge{display:inline-block;padding:.25rem .9rem;border-radius:999px;color:#fff;font-weight:600;background:" +:+ risk_color risk +:+ "}" +:+ newline +:+
  "pre{white-space:pre-wrap;background:#f6f8fa;padding:1rem;border-radius:6px;overflow-x:auto;line-height:1.5}" +:+ newline +:+
  "</style></head><body>" +:+ newline +:+ "<h1>Weave PR Review</h1>" +:+ newline +:+
  "<p class=" +:+ quoted "risk-badge" +:+ ">" +:+ risk_str risk +:+ "</p>" +:+ newline +:+
  "<pre>" +:+ html_escape body_markdown +:+ "</pre>" +:+ newline +:+ "</body></html>" +:+ newline.

(** src/crates/weave-graph-cli/src/pr_review.rs:388-397 [stale_base_markdown] *)
Definition stale_base_markdown (behind : option nat) (base : string) : string :=
  match behind with
  | Some n => "> ⚠️ **Base `" +:+ base +:+ "` is " +:+ decn n +:+ " commit" +:+ plural n +:+ " behind `origin/" +:+ base +:+
              "`** — refresh before trusting this score." +:+ newline2
  | None => ""
  end.

Definition lane : Type := string * BlastReport * RiskLevel.

(** src/crates/weave-graph-cli/src/pr_review.rs:463-484 [lanes_markdown] *)
Definition lanes_markdown (lanes : list lane) : string :=
  match lanes with
  | [] => ""
  | _ =>
      "### Lanes" +:+ newline2 +:+
      String.concat "" ((λ '(name, r, risk), "- **`" +:+ name +:+ "`** — " +:+ risk_str risk +:+ ": " +:+
        decn (length (impacted r)) +:+ " symbol" +:+ plural (length (impacted r)) +:+ ", " +:+
        decn (length (exported_touched r)) +:+ " exported symbol" +:+ plural (length (exported_touched r)) +:+ " touched" +:+ newline) <$> lanes) +:+ newline
  end.

(** src/crates/weave-graph-cli/src/pr_review.rs:490-510 [render_report_markdown] *)
Definition render_report_markdown (stale_behind : option nat) (risk : RiskLevel) (base : string) (report : BlastReport)
    (stack_base : option string) (cumulative : option BlastReport) (lanes : list lane) (fs : list ReviewFinding) (waive : list string) : string :=
  "## Weave PR Review" +:+ newline2 +:+ stale_base_markdown stale_behind base +:+ risk_header risk report +:+
  stack_markdown stack_base base cumulative +:+ lanes_markdown lanes +:+ findings_markdown fs waive +:+ render_markdown report.

Definition site_json (x : site) : Value :=
  JObject [("symbol", JString x.1.1); ("path", JString x.1.2); ("line_start", JNumber (PosInt x.2))].

(** src/crates/weave-graph-cli/src/blast.rs:339-358 [report_to_json] *)
Definition report_fields (r : BlastReport) : list (string * Value) :=
  [("base", JString (blast_base r)); ("head", JString (blast_head r)); ("changed_files", JArray (JString <$> changed_files r));
   ("impacted_symbols", JArray (site_json <$> impacted r)); ("impacted_count", json_nat (length (impacted r)));
   ("folded_by_module", JBool (SYMBOL_BUDGET <? length (impacted r)));
   ("modules", JArray ((λ '(label, files, symbols, members), JObject [("label", JString label); ("files", json_nat files);
      ("impacted_symbols", json_nat symbols); ("members", JArray (JString <$> members))]) <$> blast_modules r));
   ("exported_touched", JArray (site_json <$> exported_touched r))].
Definition report_to_json (r : BlastReport) : Value := JObject (report_fields r).

(** src/crates/weave-graph-cli/src/pr_review.rs:600-665 [cmd_pr_review] *)
Definition review_json (risk : RiskLevel) (report : BlastReport) (fs : list ReviewFinding) (waive : list string) (stale_behind : option nat)
    (stack_base : option string) (cumulative : option BlastReport) (lanes : list lane) : Value :=
  JObject (report_fields report ++
    [("risk", JString (risk_str risk));
     ("findings", JArray ((λ f, JObject [("id", JString (rf_id f)); ("severity", JString (severity_str (rf_severity f)));
        ("annotation_level", JString (annotation_level (rf_severity f))); ("message", JString (rf_message f));
        ("waived", JBool (bool_decide (rf_id f ∈ waive)))]) <$> fs))] ++
    match stale_behind with Some n => [("stale_base", JBool true); ("stale_base_commits_behind", json_nat n)] | None => [] end ++
    match stack_base with Some r => [("stack_base", JString r)] | None => [] end ++
    match cumulative with Some c => [("cumulative", report_to_json c)] | None => [] end ++
    match lanes with
    | [] => []
    | _ => [("lanes", JArray ((λ '(name, r, lane_risk), JObject (report_fields r ++ [("lane", JString name); ("risk", JString (risk_str lane_risk))])) <$> lanes))]
    end).

(** ** The history of runs *)

(** src/crates/weave-graph-store-sqlite/src/backend.rs:34-42 [PrReviewRunRecord] *)
Record PrReviewRunRecord := mkRun {
  run_base : string; run_head : string; run_risk : string; run_findings_json : string; run_waived_json : string;
  run_reason : option string; run_created_at : Z }.

(** src/crates/weave-graph-store-sqlite/src/backend.rs:687-705 [SqliteStorage::record_pr_review_run]
    The rows in the order of their ids. *)
Definition record_pr_review_run (runs : list PrReviewRunRecord) (r : PrReviewRunRecord) : list PrReviewRunRecord := runs ++ [r].

(** src/crates/weave-graph-store-sqlite/src/backend.rs:709-735 [SqliteStorage::list_pr_review_runs]
    Newest first, the later row first among equals. *)
Definition list_pr_review_runs (runs : list PrReviewRunRecord) (limit : nat) : list PrReviewRunRecord :=
  take limit (snd <$> sort_by (λ a b : nat * PrReviewRunRecord,
    pair_leb Z.leb Nat.leb (run_created_at b.2, b.1) (run_created_at a.2, a.1)) (enumerate runs)).

(** src/crates/weave-graph-cli/src/pr_review.rs:402-425 [cmd_pr_review_history]
    [finding_count] is the length of the stored JSON array, 0 when it does not
    read as one. *)
Definition history_lines (finding_count : string → nat) (runs : list PrReviewRunRecord) (limit : nat) : list string :=
  match list_pr_review_runs runs limit with
  | [] => ["No past `weave pr-review` runs recorded."]
  | l => (λ r, "[" +:+ dec (Z.to_N (run_created_at r)) +:+ "] " +:+ run_base r +:+ " -> " +:+ run_head r +:+ "  risk=" +:+ run_risk r +:+
               "  findings=" +:+ decn (finding_count (run_findings_json r)) +:+
               match run_reason r with Some x => " (" +:+ x +:+ ")" | None => "" end) <$> l
  end.

(** ** The commands *)

(** What git answers: the files changed between two refs, the current branch,
    the closest ancestor branch, how far a ref is behind its remote. *)
Record git_view := mkGit {
  git_between : string → string → result (list string) string;
  git_branch : option string;
  git_closest : string → option string;
  git_behind : string → option nat;
}.

Section commands.
Context `{Sqlite} {B : Type} `{Bitmap B} `{HashOrder} (rounds : nat) `{TomlFormat}.
Context (sha256 : string → string) (from_yaml : string → result PolicyFile string) (print_json : Value → string).

(** src/crates/weave-graph-cli/src/blast.rs:136-148 [compute_against] *)
Definition blast_between (git : git_view) (db : Db) (base head depth direction : string) : option (result BlastReport string) :=
  match git_between git base head with
  | Err e => Some (Err e)
  | Ok files => compute_against (B := B) rounds db base head files depth direction
  end.

(** src/crates/weave-graph-cli/src/blast.rs:51-56 [BlastWaiver] *)
Record BlastWaiver := mkBlastWaiver { bw_skip : bool; bw_reason : option string; bw_as_subject : option string; bw_skip_env : option string }.

(** src/crates/weave-graph-cli/src/blast.rs:58-107 [cmd_blast]
    The text that is printed or written. *)
Definition cmd_blast (git : git_view) (src : identity_source) (db : Db) (base format depth direction : string) (w : BlastWaiver) :
    option (result string string) :=
  if bw_skip w || is_truthy (bw_skip_env w) then
    Some (
      let? _ := authorize_with src (bw_as_subject w) in
      let? reason := (if bw_skip w then require_reason (bw_reason w) else Ok "WEAVE_SKIP_BLAST is set") in
      Ok (if decide (format = "json") then print_json (JObject [("skipped", JBool true); ("reason", JString reason)])
          else join newline (emit_banner "weave blast" reason) +:+ newline +:+ newline +:+ "_Blast radius computation skipped._" +:+ newline))
  else
    let! report := blast_between git db base "HEAD" depth direction in
    Some (if decide (format = "json") then Ok (print_json (report_to_json report))
          else if decide (format = "md" ∨ format = "markdown") then Ok (render_markdown report)
          else Err ("unknown format `" +:+ format +:+ "` (expected md or json)")).

(** src/crates/weave-graph-cli/src/pr_review.rs:241-262 [resolve_stack_base] *)
Definition resolve_stack_base (git : git_view) (stack_base : option string) : result (option string) string :=
  match stack_base with
  | None => Ok None
  | Some explicit =>
      if decide (explicit = "auto") then
        match git_branch git with
        | None => Err "--stack-base auto: could not determine the current branch (detached HEAD?) — pass --stack-base <ref> explicitly"
        | Some current =>
            match git_closest git current with
            | None => Err ("--stack-base auto: no local branch found that's a strict ancestor of HEAD other than `" +:+ current +:+
                           "` — pass --stack-base <ref> explicitly")
            | Some detected => Ok (Some detected)
            end
        end
      else Ok (Some explicit)
  end.

(** src/crates/weave-graph-cli/src/pr_review.rs:381-386 [stale_base_commits_behind] *)
Definition stale_base_commits_behind (git : git_view) (check_remote : bool) (base : string) : option nat :=
  if check_remote then n ← git_behind git base; if 0 <? n then Some n else None else None.

(** src/crates/weave-graph-cli/src/pr_review.rs:431-461 [record_history_best_effort] *)
Definition review_run (base head : string) (risk : RiskLevel) (fs : list ReviewFinding) (waive : list string) (reason : option string) (now : Z) :
    PrReviewRunRecord :=
  mkRun base head (risk_str risk)
    (print_json (JArray ((λ f, JObject [("id", JString (rf_id f)); ("severity", JString (severity_str (rf_severity f)));
       ("message", JString (rf_message f)); ("waived", JBool (bool_decide (rf_id f ∈ waive)))]) <$> fs)))
    (print_json (JArray (JString <$> waive))) reason now.

(** The flags of the command. *)
Record review_args := mkReviewArgs {
  ra_base : option string; ra_format : string; ra_depth : string; ra_direction : string; ra_fail_on : string;
  ra_waive : list string; ra_reason : option string; ra_as_subject : option string; ra_stack_base : option string;
  ra_lanes : list string; ra_check_remote : bool; ra_history : option nat }.

(** The repository the command sees. *)
Record review_env := mkReviewEnv {
  re_git : git_view; re_identity : identity_source; re_db : Db; re_label : string;
  re_linked : list (string * result ContractMap string); re_policy_path : string; re_policy : option string;
  re_runs : list PrReviewRunRecord; re_read_only : bool; re_now : Z; re_finding_count : string → nat }.

(** src/crates/weave-graph-cli/src/pr_review.rs:568-576 [cmd_pr_review] *)
Definition review_findings (env : review_env) (report : BlastReport) : result (list ReviewFinding) string :=
  let? contracts := contract_findings sha256 (re_db env) (re_label env) (re_linked env) in
  let? phantoms := verify_findings (re_db env) (changed_files report) in
  let? policies := policy_findings from_yaml (re_policy_path env) (re_policy env) (re_db env) in
  Ok (oversized_blast_finding report ++ contracts ++ phantoms ++ policies).

(** src/crates/weave-graph-cli/src/pr_review.rs:580-589 [cmd_pr_review]
    A waiver needs a reason, a waived blocker an authorised caller. *)
Definition review_waiver (env : review_env) (args : review_args) (fs : list ReviewFinding) : result (list string) string :=
  match ra_waive args with
  | [] => Ok []
  | waive =>
      let? reason := require_reason (ra_reason args) in
      let? _ := (if existsb (λ f, bool_decide (rf_id f ∈ waive) && bool_decide (rf_severity f = Blocker)) fs
                 then authorize_with (re_identity env) (ra_as_subject args) else Ok ()) in
      Ok (emit_banner "weave pr-review" reason)
  end.

(** src/crates/weave-graph-cli/src/pr_review.rs:591-595 [cmd_pr_review] *)
Definition unwaived_at (args : review_args) (threshold : Severity) (f : ReviewFinding) : bool :=
  negb (bool_decide (rf_id f ∈ ra_waive args)) && (severity_rank (rf_severity f) <=? severity_rank threshold).

Fixpoint run_map {A C E} (f : A → option (result C E)) (l : list A) : option (result (list C) E) :=
  match l with
  | [] => Some (Ok [])
  | x :: l => let! y := f x in let! ys := run_map f l in Some (Ok (y :: ys))
  end.

(** What a run leaves: the lines and the text, the history, the exit. *)
Record review_outcome := mkReview { ro_lines : list string; ro_text : string; ro_runs : list PrReviewRunRecord; ro_exit : result () string }.

(** src/crates/weave-graph-cli/src/pr_review.rs:513-716 [cmd_pr_review]
    An error before the report is the [Err] of the result; the gate is
    [ro_exit].  Writing the report to a file is left out. *)
Definition cmd_pr_review (env : review_env) (args : review_args) : option (result review_outcome string) :=
  match ra_history args with
  | Some limit => Some (Ok (mkReview (history_lines (re_finding_count env) (re_runs env) limit) "" (re_runs env) (Ok ())))
  | None =>
      let! base := Some (match ra_base args with Some b => Ok b | None => Err "--base is required unless --history is passed" end) in
      let! fail_on := Some (parse_fail_on (ra_fail_on args)) in
      let! stack := Some (resolve_stack_base (re_git env) (ra_stack_base args)) in
      let compute base head := blast_between (re_git env) (re_db env) base head (ra_depth args) (ra_direction args) in
      let! report := compute (default base stack) "HEAD" in
      let risk := classify_risk (length (impacted report)) (length (exported_touched report)) in
      let! cumulative :=
        match stack with
        | Some r => if decide (r = base) then Some (Ok None) else let! c := compute base "HEAD" in Some (Ok (Some c))
        | None => Some (Ok None)
        end in
      let! lanes := run_map (λ lane_ref, let! r := compute base lane_ref in
                       Some (Ok (lane_ref, r, classify_risk (length (impacted r)) (length (exported_touched r))))) (ra_lanes args) in
      let! fs := Some (review_findings env report) in
      let behind := stale_base_commits_behind (re_git env) (ra_check_remote args) base in
      let! lines := Some (review_waiver env args fs) in
      let markdown := render_report_markdown behind risk base report stack cumulative lanes fs (ra_waive args) in
      let! text := Some (
        if decide (ra_format args = "json") then Ok (print_json (review_json risk report fs (ra_waive args) behind stack cumulative lanes))
        else if decide (ra_format args = "md" ∨ ra_format args = "markdown") then Ok markdown
        else if decide (ra_format args = "html") then Ok (render_html risk markdown)
        else Err ("unknown format `" +:+ ra_format args +:+ "` (expected md, json, or html)")) in
      let runs := if re_read_only env then re_runs env
                  else record_pr_review_run (re_runs env) (review_run base (blast_head report) risk fs (ra_waive args) (ra_reason args) (re_now env)) in
      let failing := match fail_on with Some threshold => filter (λ f, unwaived_at args threshold f = true) fs | None => [] end in
      Some (Ok (mkReview lines text runs
        match failing with
        | [] => Ok ()
        | _ => Err ("weave pr-review: " +:+ decn (length failing) +:+ " unwaived finding(s) at or above --fail-on " +:+ ra_fail_on args)
        end))
  end.
End commands.


(** ** The gate *)

Lemma run_map_ok {A C E} (f : A → option (result C E)) l : (∀ x, x ∈ l → ∃ y, f x = Some (Ok y)) → ∃ ys, run_map f l = Some (Ok ys).
Proof.
  induction l as [|x l IH]; intros Hf; [by exists []|]. destruct (Hf x) as [y Hy]; [by left|].
  destruct IH as [ys Hys]; [by intros; apply Hf; right|]. exists (y :: ys). cbn. by rewrite Hy; cbn; rewrite Hys.
Qed.

Lemma try_map_elem {A C E} (f : A → result C E) l ys y : try_map f l = Ok ys → y ∈ ys ↔ ∃ x, x ∈ l ∧ f x = Ok y.
Proof.
  revert ys. induction l as [|x l IH]; intros ys; cbn.
  - intros [= <-]. split; [by intros ?%not_elem_of_nil|by intros (? & ?%not_elem_of_nil & _)].
  - destruct (f x) as [c|e] eqn:Hx; cbn; [|done]. destruct (try_map f l) as [cs|e]; cbn; [|done]. intros [= <-].
    rewrite elem_of_cons, (IH cs eq_refl). setoid_rewrite elem_of_cons. split.
    + intros [->|(x' & ? & ?)]; eauto.
    + intros (x' & [->|?] & Hx'); [left; congruence|eauto].
Qed.

Lemma exists_require_reason reason : (∃ r, require_reason reason = Ok r) ↔ ∃ t, reason = Some t ∧ trim t ≠ "".
Proof. setoid_rewrite require_reason_ok. naive_solver. Qed.

Section gate.
Context `{Sqlite} {B : Type} `{Bitmap B} `{HashOrder} (rounds : nat) `{TomlFormat}.
Context (sha256 : string → string) (from_yaml : string → result PolicyFile string) (print_json : Value → string).

(** The public contract of a linked repository is not the one recorded for it:
    another hash, and another kind or signature for some symbol. *)
Definition contract_diverged (db : Db) (consumer label : string) (actual : ContractMap) : Prop :=
  ∃ expectations i hash sha blob, contract_expectations db consumer = Ok expectations ∧
    list_find (λ e : string * string * string * string, e.1.1.1 = label) expectations = Some (i, (label, hash, sha, blob)) ∧
    contract_hash_of sha256 actual ≠ hash ∧ entry_key <$> deserialize_entries blob ≠ entry_key <$> actual.

(** A rule of the policy file is broken by the indexed graph. *)
Definition policy_broken (env : review_env) (rule : BoundaryRule) : Prop :=
  ∃ rules ns es, re_policy env ≠ None ∧ load_rules from_yaml (re_policy_path env) (re_policy env) = Ok rules ∧
    all_nodes (re_db env) = Ok ns ∧ all_edges (re_db env) = Ok es ∧ rule ∈ rules ∧ violates (mkGraphView ns es 0 0) [] rule.

Lemma contract_finding_spec expectations label actual f :
  contract_finding sha256 expectations label actual = Some f →
  rf_severity f = Blocker ∧ rf_id f = "contract:" +:+ label.
Proof.
  unfold contract_finding. destruct (list_find _ _) as [[i [[[a b] c] d]]|]; cbn; [|done]. case_decide; [done|].
  destruct (_ =? 0); [done|]. by intros [= <-].
Qed.

Lemma contract_finding_iff db consumer expectations label actual : contract_expectations db consumer = Ok expectations →
  is_Some (contract_finding sha256 expectations label actual) ↔ contract_diverged db consumer label actual.
Proof.
  intros Hex. unfold contract_finding, contract_diverged. rewrite Hex.
  destruct (list_find _ expectations) as [[i [[[a hash] sha] blob]]|] eqn:Hf; cbn [mbind option_bind];
    [|split; [by intros [? ?]|by intros (? & ? & ? & ? & ? & [= <-] & ? & _); congruence]].
  assert (a = label) as -> by (by apply list_find_Some in Hf as (_ & ? & _)).
  set (d := diff_contracts (deserialize_entries blob) actual entry_key).
  assert (length (added d) + length (removed d) + length (changed d) = 0 ↔
          entry_key <$> deserialize_entries blob = entry_key <$> actual) as Hd.
  { rewrite <-(diff_is_empty_iff entry_key), diff_is_empty_nil. fold d. rewrite <-!length_zero_iff_nil. lia. }
  case_decide as Hh; [split; [by intros [? ?]|by intros (? & ? & ? & ? & ? & [= <-] & Hf' & ? & _); simplify_eq]|].
  destruct (Nat.eqb_spec (length (added d) + length (removed d) + length (changed d)) 0) as [Hz|Hz]; split.
  - by intros [? ?].
  - intros (? & ? & ? & ? & ? & [= <-] & Hf' & _ & Hne). simplify_eq. by apply Hd in Hz.
  - intros _. exists expectations, i, hash, sha, blob. split_and!; [done..|]. by rewrite <-Hd.
  - by eexists.
Qed.

Lemma contract_findings_spec db consumer linked fs : contract_findings sha256 db consumer linked = Ok fs →
  (∀ f, f ∈ fs → rf_severity f = Blocker) ∧
  (∀ id, id ∈ rf_id <$> fs ↔ ∃ label actual, (label, Ok actual) ∈ linked ∧ contract_diverged db consumer label actual ∧ id = "contract:" +:+ label).
Proof.
  unfold contract_findings. destruct linked as [|p0 linked']; [|set (linked := p0 :: linked')].
  { intros [= <-]. split; [by intros f ?%not_elem_of_nil|]. intros id. cbn.
    split; [by intros ?%not_elem_of_nil|by intros (? & ? & ?%not_elem_of_nil & _)]. }
  destruct (contract_expectations db consumer) as [expectations|] eqn:Hex; [|done]. cbn [result_bind].
  destruct (try_map _ linked) as [found|] eqn:Hfound; cbn [result_bind]; [|done]. intros [= <-].
  pose proof (λ y, try_map_elem _ _ _ y Hfound) as Helem. clear Hfound.
  assert (∀ f, f ∈ concat found ↔ ∃ label actual, (label, Ok actual) ∈ linked ∧ contract_finding sha256 expectations label actual = Some f) as Hf.
  { intros f. rewrite list_elem_of_In, in_concat. setoid_rewrite <-list_elem_of_In. split.
    - intros (l & ([label r] & Hin & Hl)%Helem & Hfl). cbn in Hl.
      destruct (list_find _ expectations); [|injection Hl as <-; by apply not_elem_of_nil in Hfl].
      destruct r as [actual|e]; [|done]. cbn in Hl. exists label, actual. split; [done|].
      destruct (contract_finding _ _ _ _); injection Hl as <-; [|by apply not_elem_of_nil in Hfl].
      by apply list_elem_of_singleton in Hfl as ->.
    - intros (label & actual & Hin & Hc). exists [f]. split; [|by left]. apply Helem. exists (label, Ok actual). split; [done|]. cbn.
      destruct (list_find _ expectations) eqn:Hl; [by rewrite Hc|]. unfold contract_finding in Hc. by rewrite Hl in Hc. }
  split.
  - intros f (label & actual & _ & Hc)%Hf. by apply contract_finding_spec in Hc as [? _].
  - intros id. rewrite list_elem_of_fmap. split.
    + intros (f & -> & (label & actual & Hin & Hc)%Hf). exists label, actual. split_and!; [done| |by apply contract_finding_spec in Hc as [_ ?]].
      apply (contract_finding_iff _ _ _ _ _ Hex). by exists f.
    + intros (label & actual & Hin & [f Hc]%(contract_finding_iff _ _ _ _ _ Hex) & ->). exists f.
      split; [by apply contract_finding_spec in Hc as [_ ?]|]. apply Hf. eauto.
Qed.

Lemma policy_findings_spec env fs : policy_findings from_yaml (re_policy_path env) (re_policy env) (re_db env) = Ok fs →
  (∀ f, f ∈ fs → rf_severity f = Blocker) ∧
  (∀ id, id ∈ rf_id <$> fs ↔ ∃ rule, policy_broken env rule ∧ id = "policy:" +:+ rule_name rule).
Proof.
  unfold policy_findings, policy_broken. destruct (re_policy env) as [text|].
  2:{ intros [= <-]. split; [by intros f ?%not_elem_of_nil|]. intros id. cbn.
      split; [by intros ?%not_elem_of_nil|by intros (? & (? & ? & ? & ? & _) & _)]. }
  destruct (load_rules _ _ _) as [rules|]; cbn [result_bind]; [|done].
  destruct (all_nodes (re_db env)) as [ns|]; cbn [result_bind]; [|done].
  destruct (all_edges (re_db env)) as [es|]; cbn [result_bind]; [|done]. intros [= <-].
  pose proof (lint_ids (mkGraphView ns es 0 0) [] rules) as Hids. cbn [gv_nodes gv_edges] in Hids. split.
  - by intros f (v & -> & _)%list_elem_of_fmap.
  - intros id. rewrite <-list_fmap_compose, list_elem_of_fmap. cbn. split.
    + intros (v & -> & Hv). destruct (proj1 (Hids (rule_id v))) as (rule & ? & ? & <-); [by exists v|].
      exists rule. split; [|done]. by exists rules, ns, es.
    + intros (rule & (? & ? & ? & _ & [= <-] & [= <-] & [= <-] & Hin & Hviol) & ->).
      destruct (proj2 (Hids (rule_name rule))) as (v & ? & <-); [by exists rule|]. by exists v.
Qed.

Lemma review_findings_blockers env report fs : review_findings sha256 from_yaml env report = Ok fs →
  ∀ id, (∃ f, f ∈ fs ∧ rf_severity f = Blocker ∧ rf_id f = id) ↔
    (∃ label actual, (label, Ok actual) ∈ re_linked env ∧ contract_diverged (re_db env) (re_label env) label actual ∧ id = "contract:" +:+ label) ∨
    (∃ rule, policy_broken env rule ∧ id = "policy:" +:+ rule_name rule).
Proof.
  unfold review_findings. destruct (contract_findings _ _ _ _) as [cs|] eqn:Hc; [|done]. cbn [result_bind].
  destruct (verify_findings _ _) as [vs|] eqn:Hv; [|done]. cbn [result_bind].
  destruct (policy_findings _ _ _ _) as [ps|] eqn:Hp; [|done]. cbn [result_bind]. intros [= <-] id.
  apply contract_findings_spec in Hc as [Hcb Hc]. apply policy_findings_spec in Hp as [Hpb Hp]. rewrite <-Hc, <-Hp, !list_elem_of_fmap.
  setoid_rewrite elem_of_app. setoid_rewrite elem_of_app. setoid_rewrite elem_of_app.
  assert (∀ f, f ∈ oversized_blast_finding report → rf_severity f = Warning) as Ho.
  { unfold oversized_blast_finding. intros f. destruct (_ <? _); [by intros ?%not_elem_of_nil|by intros ->%list_elem_of_singleton]. }
  assert (∀ f, f ∈ vs → rf_severity f = Warning) as Hw.
  { unfold verify_findings in Hv. destruct (phantom_symbols _ _); [|done]. injection Hv as <-. by intros f (v & -> & _)%list_elem_of_fmap. }
  split.
  - intros (f & [Hf|[Hf|[Hf|Hf]]] & Hb & <-); [by rewrite Ho in Hb|left; eauto|by rewrite Hw in Hb|right; eauto].
  - intros [(f & -> & Hf)|(f & -> & Hf)]; exists f; split_and!; auto.
Qed.

(** The waivers a run asks for are permitted: none, or a reason that is not
    blank and, for a blocker, an authorised caller. *)
Definition may_review (env : review_env) (args : review_args) (fs : list ReviewFinding) : Prop :=
  ra_waive args = [] ∨
  (∃ t, ra_reason args = Some t ∧ trim t ≠ "") ∧
  ((∃ f, f ∈ fs ∧ rf_id f ∈ ra_waive args ∧ rf_severity f = Blocker) → authorize_with (re_identity env) (ra_as_subject args) = Ok ()).

Lemma review_waiver_ok env args fs : (∃ lines, review_waiver env args fs = Ok lines) ↔ may_review env args fs.
Proof.
  unfold review_waiver, may_review. destruct (ra_waive args) as [|w ws]; [split; [by left|by exists []]|].
  set (waive := w :: ws). rewrite <-(exists_require_reason (ra_reason args)).
  destruct (require_reason (ra_reason args)) as [reason|e]; cbn [result_bind];
    [|split; [by intros [? ?]|by intros [?|[[? ?] _]]]].
  destruct (existsb _ fs) eqn:Hb.
  - apply existsb_exists in Hb as (f & Hin%list_elem_of_In & [Hw%bool_decide_eq_true Hs%bool_decide_eq_true]%andb_prop).
    destruct (authorize_with _ _) as [[]|e] eqn:Ha; cbn [result_bind]; split.
    + intros _. right. split; [by eexists|done].
    + intros _. by eexists.
    + by intros [? ?].
    + intros [?|[_ Hauth]]; [done|]. discriminate Hauth. by exists f.
  - cbn [result_bind]. split; [|by eexists]. intros _. right. split; [by eexists|]. intros (f & Hin & Hw & Hs). exfalso.
    apply not_true_iff_false in Hb. apply Hb, existsb_exists. exists f. rewrite <-list_elem_of_In. split; [done|].
    by rewrite !bool_decide_eq_true_2.
Qed.

Lemma failing_nil args fail_on fs :
  match fail_on with Some threshold => filter (λ f, unwaived_at args threshold f = true) fs | None => [] end = [] ↔
  ∀ f threshold, f ∈ fs → fail_on = Some threshold → severity_rank (rf_severity f) ≤ severity_rank threshold → rf_id f ∈ ra_waive args.
Proof.
  destruct fail_on as [t|]; [|split; [by intros _ ? ? ? ?|done]]. split.
  - intros Hnil f t' Hf [= <-] Hr. destruct (decide (rf_id f ∈ ra_waive args)); [done|]. exfalso. apply (not_elem_of_nil f).
    rewrite <-Hnil, list_elem_of_filter. split; [|done]. unfold unwaived_at. rewrite bool_decide_eq_false_2 by done. by apply Nat.leb_le.
  - intros Hall. apply list_nil_elem. intros f [Hu Hf]%list_elem_of_filter. unfold unwaived_at in Hu.
    apply andb_prop in Hu as [Hn%negb_true_iff%bool_decide_eq_false Hr%Nat.leb_le]. by eapply Hn, Hall.
Qed.

(** The review gate.  When the refs diff and the checks run, a pull-request
    review is refused exactly when a waiver it asks for is not permitted (no
    reason, or a waived blocker without an authorised caller) and otherwise
    reports; it then exits successfully exactly when every finding at or above
    the threshold is waived by its id; the blockers are exactly the diverged
    contracts of the linked repositories and the broken policy rules; and the
    run is appended to the history unless the index is read-only. *)
Theorem pr_review_gate_exact env args base fail_on stack report fs
    (Hhistory : ra_history args = None) (Hbase : ra_base args = Some base)
    (Hfail : parse_fail_on (ra_fail_on args) = Ok fail_on)
    (Hstack : resolve_stack_base (re_git env) (ra_stack_base args) = Ok stack)
    (Hformat : ra_format args ∈ ["json"; "md"; "markdown"; "html"])
    (Hreport : blast_between (B := B) rounds (re_git env) (re_db env) (default base stack) "HEAD" (ra_depth args) (ra_direction args) = Some (Ok report))
    (Hheads : ∀ head, head ∈ "HEAD" :: ra_lanes args →
      ∃ r, blast_between (B := B) rounds (re_git env) (re_db env) base head (ra_depth args) (ra_direction args) = Some (Ok r))
    (Hfs : review_findings sha256 from_yaml env report = Ok fs) :
  let run := cmd_pr_review (B := B) rounds sha256 from_yaml print_json env args in
  (¬ may_review env args fs → ∃ e, run = Some (Err e)) ∧
  (may_review env args fs → ∃ out, run = Some (Ok out) ∧
     (ro_exit out = Ok () ↔
        ∀ f threshold, f ∈ fs → fail_on = Some threshold → severity_rank (rf_severity f) ≤ severity_rank threshold → rf_id f ∈ ra_waive args) ∧
     ro_runs out = re_runs env ++ (if re_read_only env then [] else
       [review_run print_json base (blast_head report) (classify_risk (length (impacted report)) (length (exported_touched report)))
          fs (ra_waive args) (ra_reason args) (re_now env)])) ∧
  (∀ id, (∃ f, f ∈ fs ∧ rf_severity f = Blocker ∧ rf_id f = id) ↔
    (∃ label actual, (label, Ok actual) ∈ re_linked env ∧ contract_diverged (re_db env) (re_label env) label actual ∧ id = "contract:" +:+ label) ∨
    (∃ rule, policy_broken env rule ∧ id = "policy:" +:+ rule_name rule)).
Proof.
  intros run. rewrite <-(review_waiver_ok env args fs). split_and!; [| |by eapply review_findings_blockers].
  all: unfold run, cmd_pr_review; rewrite Hhistory, Hbase; cbn [run_bind]; rewrite Hfail; cbn [run_bind]; rewrite Hstack; cbn [run_bind]; cbv zeta;
    rewrite Hreport; cbn [run_bind].
  all: destruct (Hheads "HEAD") as [c Hc]; [by left|].
  all: assert (∃ cum, match stack with
      | Some r => if decide (r = base) then Some (Ok None) else
          let! c := blast_between (B := B) rounds (re_git env) (re_db env) base "HEAD" (ra_depth args) (ra_direction args) in Some (Ok (Some c))
      | None => Some (Ok None) end = Some (Ok (E := string) cum)) as [cum ->];
    [destruct stack; [case_decide; [by eexists|rewrite Hc; by eexists]|by eexists]|]; cbn [run_bind].
  all: match goal with |- context [run_bind (run_map ?f _) _] => destruct (run_map_ok f (ra_lanes args)) as [lanes ->] end;
    [intros head Hin; destruct (Hheads head) as [r ->]; [by right|by eexists]|]; cbn [run_bind].
  all: rewrite Hfs; cbn [run_bind].
  - destruct (review_waiver env args fs) as [lines|e]; [intros []; by exists lines|by exists e].
  - intros [lines ->]. cbn [run_bind].
    match goal with |- context [match ?t with Ok _ => _ | Err e => Some (Err e) end] => assert (∃ text, t = Ok text) as [text ->] end.
    { rewrite !elem_of_cons, elem_of_nil in Hformat. repeat case_decide; try by eexists. exfalso. tauto. }
    eexists. split; [reflexivity|]. cbn [ro_exit ro_runs]. rewrite <-failing_nil. split.
    + by destruct (match fail_on with Some _ => _ | None => _ end).
    + destruct (re_read_only env); [by rewrite app_nil_r|done].
Qed.
End gate.

(** ** Examples *)

Definition review_example (waive : list string) (reason : option string) : review_args :=
  mkReviewArgs (Some "main") "md" "1" "callers" "blocker" waive reason None None ["feature"] false None.
Definition review_repo : review_env :=
  mkReviewEnv (mkGit (λ _ _, Ok ["ui/a.rs"]) None (λ _, None) (λ _, None)) (mkIdentitySource None None None)
    (mkDb (list_to_map ((λ n, (node_id n, n)) <$> gate_graph.1)) (list_to_map ((λ e, (edge_id e, e)) <$> gate_graph.2)) ∅ ∅ ∅ [] [])
    "app" [] ".weave/policy.yaml" (Some "") [] false 0 (λ _, 0).

Definition review_report : BlastReport :=
  match blast_between (B := gset N) 9 (re_git review_repo) (re_db review_repo) "main" "HEAD" "1" "callers" with
  | Some (Ok r) => r
  | _ => mkBlast "" "" [] [] false [] []
  end.
Definition review_found : list ReviewFinding := [mkReviewFinding "policy:disallow:ui->db" Blocker "policy violation: ui -> db (disallow)"].

Lemma pr_review_gate_exact_witness :
  (∃ out, cmd_pr_review (B := gset N) 9 (λ s, s) (λ _, Ok gate_policy) (λ _, "") review_repo (review_example [] None) = Some (Ok out) ∧
     ro_exit out ≠ Ok () ∧ length (ro_runs out) = 1) ∧
  (∃ out, cmd_pr_review (B := gset N) 9 (λ s, s) (λ _, Ok gate_policy) (λ _, "") review_repo
       (review_example ["policy:disallow:ui->db"] (Some "legacy")) = Some (Ok out) ∧ ro_exit out = Ok ()) ∧
  (∃ e, cmd_pr_review (B := gset N) 9 (λ s, s) (λ _, Ok gate_policy) (λ _, "") review_repo
       (review_example ["policy:disallow:ui->db"] None) = Some (Err e)).
Proof.
  pose (thm waive reason := pr_review_gate_exact (B := gset N) 9 (λ s, s) (λ _, Ok gate_policy) (λ _, "") review_repo (review_example waive reason)
    "main" (Some Blocker) None review_report review_found eq_refl eq_refl eq_refl eq_refl).
  assert (∀ waive reason head, head ∈ "HEAD" :: ra_lanes (review_example waive reason) → ∃ r,
    blast_between (B := gset N) 9 (re_git review_repo) (re_db review_repo) "main" head "1" "callers" = Some (Ok r)) as Hheads.
  { intros waive reason head [->|[->|[]%not_elem_of_nil]%elem_of_cons]%elem_of_cons; vm_compute; by eexists. }
  assert (∀ waive reason, ra_format (review_example waive reason) ∈ ["json"; "md"; "markdown"; "html"]) as Hformat by (intros; by right; left).
  split_and!.
  - destruct (thm [] None (Hformat _ _) ltac:(vm_compute; reflexivity) (Hheads _ _) ltac:(vm_compute; reflexivity)) as (_ & Hout & _).
    destruct Hout as (out & Hrun & Hexit & Hruns); [by left|]. exists out. split_and!; [done| |by rewrite Hruns].
    intros Hok. apply (not_elem_of_nil "policy:disallow:ui->db").
    exact (proj1 Hexit Hok _ Blocker (list_elem_of_here _ _) eq_refl (le_n _)).
  - destruct (thm ["policy:disallow:ui->db"] (Some "legacy") (Hformat _ _) ltac:(vm_compute; reflexivity) (Hheads _ _) ltac:(vm_compute; reflexivity))
      as (_ & Hout & _).
    destruct Hout as (out & Hrun & Hexit & _); [right; split; [by exists "legacy"|done]|]. exists out. split; [done|]. apply Hexit.
    intros f t ->%list_elem_of_singleton _ _. by left.
  - destruct (thm ["policy:disallow:ui->db"] None (Hformat _ _) ltac:(vm_compute; reflexivity) (Hheads _ _) ltac:(vm_compute; reflexivity)) as (Herr & _).
    apply Herr. by intros [?|[(? & ? & _) _]].
Defined.
