(* ===== verification/Fts.v ===== *)
(** * Full-text search (fts.rs, synonym.rs, the search loops of backend.rs)

    The query language, the FTS5 table kept beside [nodes], and the two paged
    searches.  The FTS5 module itself (which rows an expression matches, and
    their BM25 order) and the Unicode tables are parameters. *)

From S2P Require Import Prelude Str Bitmap Model Csr Paths CsrGraph SqlStore SqlProofs SqlReindex Spool Http Json Tools.

(** ** Characters *)

(** The characters of a text, each as its UTF-8 bytes. *)
Fixpoint chars (s : string) : list string :=
  match s with
  | EmptyString => []
  | String a s =>
      match chars s with
      | String b c :: rest => if continuation b then String a (String b c) :: rest else String a "" :: String b c :: rest
      | rest => String a "" :: rest
      end
  end.

(** Unicode's letter case and alphanumeric classes beyond ASCII. *)
Class CharTables := { uni_upper : string → bool; uni_lower : string → bool; uni_alnum : string → bool }.

Definition char_class (ascii_class : ascii → bool) (table : string → bool) (c : string) : bool :=
  match c with
  | String a EmptyString => if (byte a <? 128)%N then ascii_class a else table c
  | _ => table c
  end.

Section chars.
Context `{CharTables}.
Definition is_uppercase : string → bool := char_class is_upper uni_upper.
Definition is_lowercase : string → bool := char_class is_lower uni_lower.
Definition is_alphanumeric : string → bool := char_class is_alnum uni_alnum.
Definition is_ascii_digit : string → bool := char_class is_digit (λ _, false).

(** src/crates/weave-graph-core/src/synonym.rs:63-81 [split_identifier]
    One character, between its neighbours. *)
Definition split_step (prev next : option string) (out c : string) : string :=
  if decide (c = "_" ∨ c = "-") then out +:+ " " else
  let starts_word :=
    match prev with
    | Some p => (is_uppercase c && (is_lowercase p || is_ascii_digit p)) ||
                (is_uppercase c && is_uppercase p && match next with Some n => is_lowercase n | None => false end)
    | None => false
    end in
  (if starts_word && negb (is_empty out) && negb (ends_with out " ") then out +:+ " " else out) +:+ c.

(** src/crates/weave-graph-core/src/synonym.rs:59-84 [split_identifier] *)
Fixpoint split_chars (prev : option string) (out : string) (l : list string) : string :=
  match l with
  | [] => out
  | c :: l => split_chars (Some c) (split_step prev (l !! 0) out c) l
  end.
Definition split_identifier (name : string) : string := split_chars None "" (chars name).
End chars.

(** ** Queries *)

(** src/crates/weave-graph-core/src/synonym.rs:9-29 [SYNONYM_GROUPS] *)
Definition SYNONYM_GROUPS : list (list string) :=
  [["auth"; "authentication"; "login"; "jwt"; "token"; "credential"];
   ["ttl"; "expiry"; "expiration"; "timeout"; "lifetime"; "deadline"];
   ["calc"; "calculate"; "compute"; "eval"; "score"];
   ["db"; "database"; "store"; "repository"; "sql"; "storage"];
   ["msg"; "message"; "payload"; "event"; "packet"]].

Definition quote : ascii := "034".

(** src/crates/weave-graph-core/src/synonym.rs:38-49 [expand_query] *)
Definition expand_word (word : string) : string :=
  let lower := to_ascii_lowercase word in
  match list_find (λ g, lower ∈ g) SYNONYM_GROUPS with
  | Some (_, group) => "(" +:+ join " OR " (quoted <$> group) +:+ ")"
  | None => quoted (replace_char quote (String quote (String quote "")) lower)
  end.

(** src/crates/weave-graph-core/src/synonym.rs:34-53 [expand_query] *)
Definition expand_query (query : string) : string := join " AND " (expand_word <$> split_whitespace query).

(** ** The table *)

(** src/crates/weave-graph-store-sqlite/src/fts.rs:25-28 [SYMBOL_FTS_DDL]
    A row of [symbol_fts]; the rowid is its key. *)
Record FtsRow := mkFtsRow { fts_symbol_name : string; fts_signature : string; fts_body : string; fts_doc_comment : string }.
Definition SYMBOL_FTS_DDL : string :=
  "CREATE VIRTUAL TABLE symbol_fts USING fts5(" +:+ newline +:+ "    symbol_name, signature, body, doc_comment," +:+ newline +:+
  "    tokenize = 'porter unicode61'" +:+ newline +:+ ")".

(** The store with its full-text table: [None] before the table exists, else
    the statement that created it and its rows. *)
Record Index := mkIndex { ix_db : Db; ix_table : option (string * gmap N FtsRow) }.
Definition fts_rows (ix : Index) : gmap N FtsRow := default ∅ (snd <$> ix_table ix).
Definition with_rows (ix : Index) (t : gmap N FtsRow) : Index := mkIndex (ix_db ix) ((λ p : string * gmap N FtsRow, (p.1, t)) <$> ix_table ix).
Definition with_db (ix : Index) (db : Db) : Index := mkIndex db (ix_table ix).

Section fts.
Context `{Sqlite} `{CharTables}.

(** src/crates/weave-graph-store-sqlite/src/fts.rs:69-84 [insert_row]
    The row; its rowid is free whenever the callers insert. *)
Definition fts_row (symbol signature body doc_comment : string) : FtsRow := mkFtsRow (split_identifier symbol) signature body doc_comment.

(** src/crates/weave-graph-store-sqlite/src/fts.rs:86-97 [replace_row] *)
Definition replace_row (ix : Index) (id : N) (symbol signature : string) : Index :=
  with_rows ix (<[id := fts_row symbol signature "" ""]> (delete id (fts_rows ix))).

(** src/crates/weave-graph-store-sqlite/src/fts.rs:105-117 [upsert_text]
    An [UPDATE]: nothing happens without the row. *)
Definition upsert_text (ix : Index) (id : N) (body doc_comment : string) : Index :=
  match fts_rows ix !! id with
  | Some r => with_rows ix (<[id := mkFtsRow (fts_symbol_name r) (fts_signature r) body doc_comment]> (fts_rows ix))
  | None => ix
  end.

(** src/crates/weave-graph-store-sqlite/src/fts.rs:119-125 [delete_row] *)
Definition delete_row (ix : Index) (id : N) : Index := with_rows ix (delete id (fts_rows ix)).

(** src/crates/weave-graph-store-sqlite/src/fts.rs:127-139 [purge_path] *)
Definition purge_path (ix : Index) (repo_id path : string) : Index :=
  with_rows ix (filter (λ p : N * FtsRow, p.1 ∉ file_nodes (ix_db ix) repo_id path) (fts_rows ix)).

(** src/crates/weave-graph-store-sqlite/src/fts.rs:141-147 [purge_missing_nodes] *)
Definition purge_missing_nodes (ix : Index) : Index :=
  with_rows ix (filter (λ p : N * FtsRow, is_Some (nodes (ix_db ix) !! p.1)) (fts_rows ix)).

(** src/crates/weave-graph-store-sqlite/src/fts.rs:152-174 [rebuild]
    One row per node; [optimize] does not change what the table holds. *)
Definition rebuild_fts (ix : Index) : Index :=
  with_rows ix ((λ n, fts_row (node_symbol n) (node_signature n) "" "") <$> nodes (ix_db ix)).

(** src/crates/weave-graph-store-sqlite/src/fts.rs:51-67 [ensure_fts_table] *)
Definition ensure_fts_table (ix : Index) : Index :=
  match ix_table ix with
  | Some (sql, _) => if decide (sql = SYMBOL_FTS_DDL) then ix else rebuild_fts (mkIndex (ix_db ix) (Some (SYMBOL_FTS_DDL, ∅)))
  | None => mkIndex (ix_db ix) (Some (SYMBOL_FTS_DDL, ∅))
  end.

(** ** The node operations with their full-text rows *)

(** src/crates/weave-graph-store-sqlite/src/backend.rs:386-388 [SqliteStorage::upsert_nodes] *)
Definition replace_rows (ix : Index) (ns : list Node) (ids : list NodeId) : Index :=
  foldl (λ ix p, replace_row ix p.2 (node_symbol p.1) (node_signature p.1)) ix (zip ns ids).

(** src/crates/weave-graph-store-sqlite/src/backend.rs:310-390 [SqliteStorage::upsert_nodes] *)
Definition ix_upsert_nodes (ix : Index) (ns : list Node) : Index * result (list NodeId) StorageError :=
  match upsert_nodes (ix_db ix) ns with
  | (db, Ok ids) => (replace_rows (with_db ix db) ns ids, Ok ids)
  | (db, Err e) => (with_db ix db, Err e)
  end.

(** src/crates/weave-graph-store-sqlite/src/backend.rs:268-307 [SqliteStorage::insert_fresh_nodes] *)
Definition ix_insert_fresh_nodes (ix : Index) (ns : list Node) : Index * result (list NodeId) StorageError :=
  match insert_fresh_nodes (ix_db ix) ns with
  | (db, Ok ids) => (replace_rows (with_db ix db) ns ids, Ok ids)
  | (db, Err e) => (with_db ix db, Err e)
  end.

(** src/crates/weave-graph-store-sqlite/src/backend.rs:1126-1137 [SqliteStorage::purge_file_nodes]
    The full-text rows go first, while the nodes still say which they are. *)
Definition ix_purge_file_nodes (ix : Index) (repo_id path : string) : Index * result N StorageError :=
  let ix := purge_path ix repo_id path in
  let '(db, r) := purge_file_nodes (ix_db ix) repo_id path in (with_db ix db, r).

(** src/crates/weave-graph-store-sqlite/src/backend.rs:420-453 [SqliteStorage::purge_file_nodes_except] *)
Definition ix_purge_file_nodes_except (ix : Index) (repo_id path : string) (retained : list NodeId) : Index * result N StorageError :=
  let stale := filter (λ i, i ∉ retained) (select_order (file_nodes (ix_db ix) repo_id path)) in
  match purge_file_nodes_except (ix_db ix) repo_id path retained with
  | (db, Ok k) => (foldl delete_row (with_db ix db) stale, Ok k)
  | (db, Err e) => (with_db ix db, Err e)
  end.

(** src/crates/weave-graph-store-sqlite/src/backend.rs:142-154 [SqliteStorage::purge_orphaned_nodes_by_kind] *)
Definition ix_purge_orphaned (ix : Index) (kind : string) : Index * result N StorageError :=
  match purge_orphaned_nodes_by_kind (ix_db ix) kind with
  | (db, Ok k) => (purge_missing_nodes (with_db ix db), Ok k)
  | (db, Err e) => (with_db ix db, Err e)
  end.
End fts.

(** ** Searching *)

(** The FTS5 module: which expressions it accepts, which rows an expression
    matches, and the BM25 order of the matches. *)
Class Fts5 := {
  fts_valid : string → bool;
  fts_matches : string → FtsRow → bool;
  bm25_order : string → gmap N FtsRow → list N → list N;
}.
Class Fts5Laws `{Fts5} : Prop := { bm25_perm expr t l : bm25_order expr t l ≡ₚ l }.

Definition u64_mul_sat (a b : N) : N := N.min (a * b) u64_MAX.
(** [LIMIT] with a [usize] cast to [i64]: a negative limit is no limit. *)
Definition sql_limit {A} (k : N) (l : list A) : list A := if (k <? 9223372036854775808)%N then take (N.to_nat k) l else l.

(** The pattern of [LIKE .. ESCAPE '\']: one character, any characters, or a
    character that matches itself whatever its ASCII case. *)
Inductive like_item := AnyChar | AnyString | Literal (a : ascii).
Fixpoint like_items (escape : option ascii) (pattern : string) : list like_item :=
  match pattern with
  | EmptyString => []
  | String a rest =>
      if decide (escape = Some a) then match rest with String b rest => Literal b :: like_items escape rest | EmptyString => [Literal a] end
      else (if decide (a = "%"%char) then AnyString else if decide (a = "_"%char) then AnyChar else Literal a) :: like_items escape rest
  end.
Fixpoint like_match (items : list like_item) (s : string) : bool :=
  match items with
  | [] => is_empty s
  | Literal a :: items => match s with String b s => bool_decide (lower_byte a = lower_byte b) && like_match items s | EmptyString => false end
  | AnyChar :: items =>
      match s with
      | String b s => like_match items (if (byte b <? 128)%N then s else trim_start_by continuation s)
      | EmptyString => false
      end
  | AnyString :: items =>
      (fix any (s : string) : bool := like_match items s || match s with String _ s => any s | EmptyString => false end) s
  end.
Definition like (escape : option ascii) (pattern s : string) : bool := like_match (like_items escape pattern) s.

Section search.
Context `{Sqlite} `{Fts5}.

(** src/crates/weave-graph-store-sqlite/src/fts.rs:176-205 [search_nodes]
    The nodes the matching rows join with, best first. *)
Definition ranked (ix : Index) (match_expr : string) : result (list Node) StorageError :=
  if fts_valid match_expr then
    Ok (omap (λ i, nodes (ix_db ix) !! i)
      (bm25_order match_expr (fts_rows ix) (filter (λ i, from_option (fts_matches match_expr) false (fts_rows ix !! i) = true) (select_order (map_to_list (fts_rows ix)).*1))))
  else Err (Backend "fts5: syntax error").
Definition search_nodes (ix : Index) (match_expr : string) (limit : N) : result (list Node) StorageError :=
  let? ns := ranked ix match_expr in Ok (sql_limit limit ns).

Definition by_path_line (a b : Node) : bool := pair_leb String.leb N.leb (node_path a, node_line_start a) (node_path b, node_line_start b).

(** src/crates/weave-graph-store-sqlite/src/fts.rs:211-239 [search_nodes_exhaustive] *)
Definition search_nodes_exhaustive (ix : Index) (match_expr : string) : result (list Node) StorageError :=
  let? ns := ranked ix match_expr in Ok (sort_by by_path_line ns).

Definition candidate_limit (limit factor : N) : N := N.max (u64_mul_sat limit factor) limit.
Definition retain (visible : option (Node → bool)) (ns : list Node) : list Node :=
  match visible with Some f => filter (λ n, f n = true) ns | None => ns end.

(** src/crates/weave-graph-store-sqlite/src/backend.rs:603-619 [SqliteStorage::search_symbol_nodes]
    The loop of both searches over what [fetch] returns for a limit: the window
    is widened fourfold until the page is full, the matches are exhausted or the
    factor has reached 256. *)
Fixpoint adaptive (fuel : nat) (fetch : N → result (list Node) StorageError) (limit : N) (visible : option (Node → bool)) (factor : N) :
    option (result (list Node) StorageError) :=
  match fuel with
  | 0 => None
  | S fuel =>
      match fetch (candidate_limit limit factor) with
      | Err e => Some (Err e)
      | Ok raw =>
          let ns := retain visible raw in
          if (limit <=? N.of_nat (length ns))%N || (N.of_nat (length raw) <? candidate_limit limit factor)%N || (256 <=? factor)%N
          then Some (Ok (take (N.to_nat limit) ns))
          else adaptive fuel fetch limit visible (u64_mul_sat factor 4)
      end
  end.

(** src/crates/weave-graph-store-sqlite/src/backend.rs:591-628 [SqliteStorage::search_symbol_nodes] *)
Definition search_symbol_nodes (ix : Index) (match_expr : string) (limit : N) (visible : option (Node → bool)) :
    option (result (list Node) StorageError) := adaptive 4 (search_nodes ix match_expr) limit visible 4.

(** src/crates/weave-graph-store-sqlite/src/backend.rs:1339-1347 [SqliteStorage::search_symbols] *)
Definition search_symbols (ix : Index) (match_expr : string) (limit : N) (visible : option (Node → bool)) :
    option (result (list NodeId) StorageError) :=
  (λ r : result (list Node) StorageError, let? ns := r in Ok (node_id <$> ns)) <$> search_symbol_nodes ix match_expr limit visible.

(** src/crates/weave-graph-store-sqlite/src/backend.rs:1352-1354 [SqliteStorage::find_all_symbols] *)
Definition find_all_symbols (ix : Index) (pattern : string) : result (list Node) StorageError := search_nodes_exhaustive ix pattern.

(** src/crates/weave-graph-store-sqlite/src/backend.rs:643-647 [SqliteStorage::search_nodes_literal] *)
Definition literal_pattern (query_lower : string) : string :=
  "%" +:+ replace_char "_" "\_" (replace_char "%" "\%" (replace_char "\" "\\" query_lower)) +:+ "%".

(** src/crates/weave-graph-store-sqlite/src/backend.rs:651-666 [SqliteStorage::search_nodes_literal]
    The statement; SQLite's [lower] maps ASCII letters. *)
Definition literal_rows (db : Db) (query_lower : string) : list Node :=
  let hit s := like (Some "\"%char) (literal_pattern query_lower) (to_ascii_lowercase s) in
  sort_by (λ a b, (node_id a <=? node_id b)%N)
    (filter (λ n, hit (node_symbol n) || hit (node_signature n) || hit (node_path n) = true) (rows (nodes db))).

(** src/crates/weave-graph-store-sqlite/src/backend.rs:637-680 [SqliteStorage::search_nodes_literal] *)
Definition search_nodes_literal (db : Db) (query_lower : string) (limit : N) (visible : option (Node → bool)) :
    option (result (list Node) StorageError) :=
  adaptive 4 (λ k, Ok (sql_limit k (literal_rows db query_lower))) limit visible 4.
End search.

(** ** The page *)

Lemma retain_app visible l k : retain visible (l ++ k) = retain visible l ++ retain visible k.
Proof. destruct visible; [apply filter_app|done]. Qed.

Lemma elem_of_retain visible l n : n ∈ retain visible l ↔ n ∈ l ∧ ∀ f, visible = Some f → f n = true.
Proof. destruct visible as [f|]; cbn; [rewrite list_elem_of_filter; naive_solver|naive_solver]. Qed.

Lemma sql_limit_prefix {A} (j k : N) (l : list A) : (j ≤ k)%N → ∃ rest, sql_limit k l = sql_limit j l ++ rest.
Proof.
  intros Hjk. unfold sql_limit. destruct (N.ltb_spec k 9223372036854775808), (N.ltb_spec j 9223372036854775808); try lia.
  - exists (take (N.to_nat k - N.to_nat j) (drop (N.to_nat j) l)). rewrite take_take_drop. f_equal. lia.
  - exists (drop (N.to_nat j) l). by rewrite take_drop.
  - exists []. by rewrite app_nil_r.
Qed.

Lemma sql_limit_short {A} (j k : N) (l : list A) :
  (j ≤ k)%N → (N.of_nat (length (sql_limit j l)) < j)%N → sql_limit k l = sql_limit j l.
Proof.
  intros Hjk. unfold sql_limit. destruct (N.ltb_spec k 9223372036854775808), (N.ltb_spec j 9223372036854775808); try lia; try done.
  all: rewrite length_take; intros Hlen; rewrite (take_ge l (N.to_nat j)) by lia.
  - by rewrite take_ge by lia.
  - done.
Qed.

Lemma candidate_limit_mono limit f g : (f ≤ g)%N → (candidate_limit limit f ≤ candidate_limit limit g)%N.
Proof. unfold candidate_limit, u64_mul_sat. intros. assert (limit * f ≤ limit * g)%N by nia. lia. Qed.

(** The loop ends, and its page is that of the widest window. *)
Lemma adaptive_page fetch all limit visible fuel factor :
  (∀ k, fetch k = Ok (sql_limit k all)) → (factor * 4 ^ N.of_nat fuel = 256)%N →
  adaptive (S fuel) fetch limit visible factor =
  Some (Ok (take (N.to_nat limit) (retain visible (sql_limit (candidate_limit limit 256) all)))).
Proof.
  intros Hfetch. revert factor. induction fuel as [|fuel IH]; intros factor Hfactor.
  - assert (factor = 256%N) as -> by lia. cbn [adaptive]. rewrite Hfetch. by rewrite orb_true_r.
  - rewrite Nat2N.inj_succ, N.pow_succ_r' in Hfactor. assert (1 ≤ 4 ^ N.of_nat fuel)%N as Hp by (apply N.neq_0_le_1, N.pow_nonzero; lia).
    assert (factor ≤ 256)%N as Hle by nia. remember (S fuel) as k. cbn [adaptive]. rewrite Hfetch. cbv zeta.
    destruct (sql_limit_prefix _ _ all (candidate_limit_mono limit factor 256 Hle)) as [rest Hrest].
    set (c := candidate_limit limit factor) in *. set (raw := sql_limit c all) in *.
    destruct ((limit <=? N.of_nat (length (retain visible raw)))%N || (N.of_nat (length raw) <? c)%N || (256 <=? factor)%N) eqn:Hstop.
    + do 2 f_equal. rewrite !orb_true_iff, N.leb_le, N.ltb_lt, N.leb_le in Hstop. destruct Hstop as [[Hfull|Hshort]|Hmax].
      * rewrite Hrest, retain_app, take_app_le by lia. done.
      * do 2 f_equal. symmetry. by apply sql_limit_short; [apply candidate_limit_mono|].
      * by assert (factor = 256%N) as -> by lia.
    + assert (u64_mul_sat factor 4 = factor * 4)%N as -> by (unfold u64_mul_sat, u64_MAX; lia). subst k. apply IH. nia.
Qed.

(** ** Literal matching *)

Lemma like_any items s : like_match (AnyString :: items) s = true ↔ ∃ x y, s = x +:+ y ∧ like_match items y = true.
Proof.
  induction s as [|a s IH].
  - cbn [like_match]. rewrite orb_false_r. split; [intros ?; by exists "", ""|]. intros (x & y & Heq & Hy). by destruct x, y.
  - change (like_match (AnyString :: items) (String a s)) with (like_match items (String a s) || like_match (AnyString :: items) s).
    rewrite orb_true_iff, IH. split.
    + intros [?|(x & y & -> & ?)]; [by exists "", (String a s)|by exists (String a x), y].
    + intros ([|b x] & y & Heq & Hy); cbn in Heq; [left; by subst|]. injection Heq as <- ->. right. by exists x, y.
Qed.

Lemma like_literals q items s :
  like_match ((Literal <$> String.list_ascii_of_string q) ++ items) s = true ↔
  ∃ y z, s = y +:+ z ∧ to_ascii_lowercase y = to_ascii_lowercase q ∧ like_match items z = true.
Proof.
  revert s. induction q as [|a q IH]; intros s; cbn [String.list_ascii_of_string fmap list_fmap app like_match].
  - split; [intros ?; by exists "", s|]. intros (y & z & -> & Hy & ?). by destruct y.
  - destruct s as [|b s].
    + split; [done|]. intros ([|c y] & z & Heq & Hy & _); [done|]. by cbn in Heq.
    + rewrite andb_true_iff, bool_decide_eq_true, IH. split.
      * intros (Hab & y & z & -> & Hy & ?). exists (String b y), z. split_and!; [done| |done]. cbn. unfold to_ascii_lowercase in Hy. by rewrite Hy, Hab.
      * intros ([|c y] & z & Heq & Hy & ?); [done|]. cbn in Heq, Hy. injection Heq as <- ->. injection Hy as Hc Hy. split; [done|]. by exists y, z.
Qed.

Lemma lower_byte_idem a : lower_byte (lower_byte a) = lower_byte a.
Proof. by destruct a as [[] [] [] [] [] [] [] []]. Qed.
Lemma lowercase_idem s : to_ascii_lowercase (to_ascii_lowercase s) = to_ascii_lowercase s.
Proof. induction s as [|a s IH]; [done|]. unfold to_ascii_lowercase in *. cbn. by rewrite lower_byte_idem, IH. Qed.
Lemma lowercase_append a b : to_ascii_lowercase (a +:+ b) = to_ascii_lowercase a +:+ to_ascii_lowercase b.
Proof. induction a as [|x a IH]; [done|]. unfold to_ascii_lowercase in *. cbn. by rewrite IH. Qed.
Lemma lowercase_parts s x y : to_ascii_lowercase s = x +:+ y → to_ascii_lowercase x = x ∧ to_ascii_lowercase y = y.
Proof.
  intros Heq. assert (to_ascii_lowercase x +:+ to_ascii_lowercase y = x +:+ y) as E by (by rewrite <-lowercase_append, <-Heq, lowercase_idem).
  apply append_inv_len in E; [done|]. clear. induction x as [|a x IH]; [done|]. unfold to_ascii_lowercase in *. cbn. by rewrite IH.
Qed.

Lemma replace_char_append c t a b : replace_char c t (a +:+ b) = replace_char c t a +:+ replace_char c t b.
Proof. induction a as [|x a IH]; [done|]. cbn. by rewrite IH, append_assoc. Qed.

Lemma literal_items q rest :
  like_items (Some "\"%char) (replace_char "_" "\_" (replace_char "%" "\%" (replace_char "\" "\\" q)) +:+ rest) =
  (Literal <$> String.list_ascii_of_string q) ++ like_items (Some "\"%char) rest.
Proof.
  induction q as [|a q IH]; [done|]. cbn [replace_char String.list_ascii_of_string fmap list_fmap app]. rewrite <-IH.
  destruct (decide (a = "\"%char)) as [->|Hb]; [by cbn|].
  destruct (decide (a = "%"%char)) as [->|Hp]; [by cbn|].
  destruct (decide (a = "_"%char)) as [->|Hu]; [by cbn|].
  cbn [String.append replace_char]. rewrite decide_False by done. cbn [String.append replace_char]. rewrite decide_False by done. cbn [String.append like_items].
  rewrite decide_False by congruence. by rewrite !decide_False.
Qed.

(** The escaped pattern finds exactly the texts that contain the query. *)
Lemma literal_like_exact q s : to_ascii_lowercase q = q →
  like (Some "\"%char) (literal_pattern q) (to_ascii_lowercase s) = str_contains (to_ascii_lowercase s) q.
Proof.
  intros Hq. apply eq_true_iff_eq. unfold like, literal_pattern.
  change ("%" +:+ ?x) with (String "%" x). cbn [String.append like_items]. rewrite decide_False by done. rewrite decide_True by done.
  rewrite literal_items. cbn [like_items]. rewrite decide_False, decide_True by done.
  rewrite like_any, str_contains_true. setoid_rewrite like_literals. setoid_rewrite like_any. cbn [like_match]. split.
  - intros (x & w & Hs & y & z & -> & Hy & _). exists x, z. rewrite Hs. do 2 f_equal.
    apply lowercase_parts in Hs as [_ Hyz]. destruct (lowercase_parts (y +:+ z) y z Hyz) as [Hy' _]. congruence.
  - intros (x & z & Hs). exists x, (q +:+ z). split; [done|]. exists q, z. split_and!; [done..|]. exists z, "". split; [by rewrite append_nil_r|done].
Qed.

(** ** The table mirrors the nodes *)

Definition row_key (r : FtsRow) : string * string := (fts_symbol_name r, fts_signature r).

Section mirror.
Context `{SqliteLaws} `{CharTables} (Hfk : foreign_keys = true).

Definition node_key (n : Node) : string * string := (split_identifier (node_symbol n), node_signature n).

(** Every node has its row, with its name split into words and its signature,
    and there are no other rows. *)
Definition mirrored (t : gmap N Node) (ix : Index) : Prop :=
  is_Some (ix_table ix) ∧ ∀ id, row_key <$> fts_rows ix !! id = node_key <$> t !! id.

Lemma fts_rows_with ix t : is_Some (ix_table ix) → fts_rows (with_rows ix t) = t ∧ is_Some (ix_table (with_rows ix t)).
Proof. intros [[sql t'] Ht]. unfold fts_rows, with_rows. rewrite Ht. cbn. eauto. Qed.

Lemma mirrored_with t ix rows' : is_Some (ix_table ix) → (∀ id, row_key <$> rows' !! id = node_key <$> t !! id) → mirrored t (with_rows ix rows').
Proof. intros Hs Hk. destruct (fts_rows_with ix rows' Hs) as [Hr ?]. split; [done|]. by rewrite Hr. Qed.

Lemma replace_row_mirrored t ix n id : mirrored t ix → mirrored (<[id := with_id n id]> t) (replace_row ix id (node_symbol n) (node_signature n)).
Proof.
  intros [Hs Hk]. apply mirrored_with; [done|]. intros j. destruct (decide (id = j)) as [->|Hne].
  - by rewrite !lookup_insert_eq.
  - by rewrite !lookup_insert_ne, lookup_delete_ne by done.
Qed.

Lemma replace_rows_mirrored t ix ns ids : mirrored t ix → mirrored (upserted t ns ids) (replace_rows ix ns ids).
Proof.
  unfold upserted, replace_rows. generalize (zip ns ids) as l. intros l. revert t ix.
  induction l as [|[n id] l IH]; intros t ix Hm; [done|]. cbn. apply IH. by apply replace_row_mirrored.
Qed.

Lemma replace_rows_db ix ns ids : ix_db (replace_rows ix ns ids) = ix_db ix.
Proof.
  unfold replace_rows. generalize (zip ns ids) as l. intros l. revert ix. induction l as [|p l IH]; intros ix; [done|]. cbn. by rewrite IH.
Qed.

Lemma insert_fresh_result db ns db' ids :
  db_ok db → insert_fresh_nodes db ns = (db', Ok ids) → db_ok db' ∧ nodes db' = upserted (nodes db) ns ids.
Proof.
  unfold insert_fresh_nodes. revert db ids; induction ns as [|n ns IH]; intros db ids Hok; cbn [try_loop].
  { intros; simplify_eq. done. }
  pose proof (insert_or_replace_ok db n Hok) as Hu. destruct (insert_or_replace_node db n) as [db1 [id|e]]; [|done].
  destruct Hu as (Hok1 & Hn1 & _). destruct (try_loop insert_or_replace_node ns db1) as [db2 [l|e]] eqn:Hl; [|done]. intros; simplify_eq.
  destruct (IH db1 l Hok1 Hl) as (? & Hn). split; [done|]. by rewrite Hn, Hn1.
Qed.

Lemma fts_delete_result db gone db' l : db_ok db → try_loop (λ db i, delete_nodes db [i]) gone db = (db', Ok l) →
  db_ok db' ∧ ∀ i, nodes db' !! i = if decide (i ∈ gone) then None else nodes db !! i.
Proof.
  revert db l; induction gone as [|x gone IH]; intros db l Hok; cbn [try_loop].
  { intros; simplify_eq. split; [done|]. intros i. by rewrite decide_False by apply not_elem_of_nil. }
  pose proof (delete_nodes_ok db [x] Hfk Hok) as Hd. destruct (delete_nodes db [x]) as [db1 [k|err]]; [|done].
  destruct Hd as (Hok1 & _ & _ & _ & Hn & _). destruct (try_loop _ gone db1) as [db2 [l2|e]] eqn:Hl; [|done]. intros; simplify_eq.
  destruct (IH db1 l2 Hok1 Hl) as (? & Hn'). split; [done|]. intros i. rewrite Hn', Hn, lookup_delete_list.
  destruct (decide (i = x)) as [->|Hne].
  - rewrite (decide_True (P := x ∈ [x])), (decide_True (P := x ∈ x :: gone)) by (by left). by case_decide.
  - rewrite (decide_False (P := i ∈ [x])) by (by rewrite list_elem_of_singleton).
    destruct (decide (i ∈ gone)); [by rewrite decide_True by (by right)|by rewrite decide_False by (by rewrite elem_of_cons; naive_solver)].
Qed.

Lemma delete_rows_mirrored t t' ix gone : mirrored t ix → (∀ i, t' !! i = if decide (i ∈ gone) then None else t !! i) →
  mirrored t' (foldl delete_row ix gone).
Proof.
  revert t ix. induction gone as [|x gone IH]; intros t ix [Hs Hk] Ht'; cbn [foldl].
  - split; [done|]. intros id. rewrite Ht', decide_False by apply not_elem_of_nil. apply Hk.
  - apply (IH (delete x t)).
    + apply mirrored_with; [done|]. intros id. destruct (decide (x = id)) as [->|Hne]; [by rewrite !lookup_delete_eq|].
      by rewrite !lookup_delete_ne by done.
    + intros i. rewrite Ht'. destruct (decide (i = x)) as [->|Hne].
      * rewrite decide_True by (by left). rewrite lookup_delete_eq. by case_decide.
      * rewrite lookup_delete_ne by done. repeat case_decide; set_solver.
Qed.

Lemma delete_rows_db ix gone : ix_db (foldl delete_row ix gone) = ix_db ix.
Proof. revert ix. induction gone as [|x gone IH]; intros ix; [done|]. cbn. by rewrite IH. Qed.
End mirror.

(** ** Every sequence of operations *)

Section run.
Context `{SqliteLaws} `{CharTables}.

(** The operations of an open store; one that fails is rolled back by the
    transaction around it. *)
Inductive fts_step (ix : Index) : Index → Prop :=
| fts_upsert ns ix' ids : ix_upsert_nodes ix ns = (ix', Ok ids) → fts_step ix ix'
| fts_fresh ns ix' ids : ix_insert_fresh_nodes ix ns = (ix', Ok ids) → fts_step ix ix'
| fts_purge repo path ix' k : ix_purge_file_nodes ix repo path = (ix', Ok k) → fts_step ix ix'
| fts_purge_except repo path retained ix' k : ix_purge_file_nodes_except ix repo path retained = (ix', Ok k) → fts_step ix ix'
| fts_orphans kind ix' k : ix_purge_orphaned ix kind = (ix', Ok k) → fts_step ix ix'
| fts_text id body doc_comment : fts_step ix (upsert_text ix id body doc_comment)
| fts_rebuild : fts_step ix (rebuild_fts ix)
| fts_reopen : fts_step ix (ensure_fts_table ix)
| fts_elsewhere db' : sql_step (ix_db ix) db' → nodes db' = nodes (ix_db ix) → fts_step ix (with_db ix db').

Definition fresh_index : Index := ensure_fts_table (mkIndex empty_db None).

Definition index_ok (ix : Index) : Prop := db_ok (ix_db ix) ∧ mirrored (nodes (ix_db ix)) ix.

Lemma rebuild_mirrored ix : is_Some (ix_table ix) → mirrored (nodes (ix_db ix)) (rebuild_fts ix).
Proof. intros Hs. apply mirrored_with; [done|]. intros id. rewrite lookup_fmap. by destruct (nodes (ix_db ix) !! id). Qed.

Lemma filter_rows_mirrored t t' (Q : N * FtsRow → Prop) `{∀ p, Decision (Q p)} (P : N → Prop) ix :
  (∀ p, Q p ↔ P p.1) → (∀ i, Decision (P i)) → mirrored t ix →
  (∀ i, P i → t' !! i = t !! i) → (∀ i, ¬ P i → t' !! i = None) → mirrored t' (with_rows ix (filter Q (fts_rows ix))).
Proof.
  intros HQ Hdec [Hs Hk] Hin Hout. apply mirrored_with; [done|]. intros id. rewrite map_lookup_filter. destruct (decide (P id)) as [Hp|Hp].
  - rewrite Hin, <-Hk by done. destruct (fts_rows ix !! id); [|done]. cbn. by rewrite option_guard_True by (by apply HQ).
  - rewrite Hout by done. destruct (fts_rows ix !! id); [|done]. cbn. rewrite option_guard_False; [done|]. by intros ?%HQ.
Qed.

Lemma fts_step_ok ix ix' : foreign_keys = true → index_ok ix → fts_step ix ix' → index_ok ix'.
Proof.
  intros Hfk [Hok Hm] Hstep. destruct Hstep as [ns ix' ids Hr|ns ix' ids Hr|repo path ix' k Hr|repo path ret ix' k Hr|kind ix' k Hr|id b d| | |db' Hs Hn].
  - unfold ix_upsert_nodes in Hr. destruct (upsert_nodes _ ns) as [db [l|]] eqn:Hu; simplify_eq.
    destruct (upsert_nodes_result _ _ _ _ Hok Hu) as (? & Hn & _). split; rewrite replace_rows_db; [done|]. cbn [ix_db with_db]. rewrite Hn.
    by apply replace_rows_mirrored.
  - unfold ix_insert_fresh_nodes in Hr. destruct (insert_fresh_nodes _ ns) as [db [l|]] eqn:Hu; simplify_eq.
    destruct (insert_fresh_result _ _ _ _ Hok Hu) as (? & Hn). split; rewrite replace_rows_db; [done|]. cbn [ix_db with_db]. rewrite Hn.
    by apply replace_rows_mirrored.
  - unfold ix_purge_file_nodes, purge_file_nodes in Hr. cbn [ix_db purge_path with_rows] in Hr.
    pose proof (delete_nodes_ok _ (file_nodes (ix_db ix) repo path) Hfk Hok) as Hd.
    destruct (delete_nodes _ _) as [db r]; simplify_eq. destruct Hd as (? & _ & _ & _ & Hn & _). split; [done|]. cbn [ix_db with_db]. rewrite Hn.
    change (mirrored (foldr delete (nodes (ix_db ix)) (file_nodes (ix_db ix) repo path)) (purge_path ix repo path)).
    apply (filter_rows_mirrored (nodes (ix_db ix)) _ _ (λ i, i ∉ file_nodes (ix_db ix) repo path)); [done|apply _|done|..]; intros i Hi; rewrite lookup_delete_list.
    + by rewrite decide_False.
    + rewrite decide_True; [done|]. by apply dec_stable.
  - unfold ix_purge_file_nodes_except, purge_file_nodes_except in Hr. set (stale := filter _ _) in Hr.
    destruct (try_loop _ stale _) as [db [l|]] eqn:Hl; simplify_eq. destruct (fts_delete_result Hfk _ _ _ _ Hok Hl) as (? & Hn).
    split; rewrite delete_rows_db; [done|]. cbn [ix_db with_db]. by eapply delete_rows_mirrored.
  - unfold ix_purge_orphaned, purge_orphaned_nodes_by_kind in Hr. set (gone := node_id <$> _) in Hr.
    pose proof (delete_nodes_ok _ gone Hfk Hok) as Hd. destruct (delete_nodes _ gone) as [db [j|]]; simplify_eq.
    destruct Hd as (? & _ & _ & _ & Hn & _). split; [done|]. cbn [ix_db purge_missing_nodes with_rows].
    apply (filter_rows_mirrored (nodes (ix_db ix)) (nodes db) _ (λ i, is_Some (nodes db !! i)) (with_db ix db)); [done|apply _|exact Hm| |].
    + intros i Hi. rewrite Hn, lookup_delete_list in Hi |- *. case_decide; [by destruct Hi|done].
    + intros i Hi. by apply eq_None_not_Some.
  - unfold upsert_text. destruct (fts_rows ix !! id) as [r|] eqn:Hr; [|done]. split; [done|]. destruct Hm as [Hs Hk]. apply mirrored_with; [done|].
    intros j. destruct (decide (id = j)) as [->|Hne]; [|by rewrite lookup_insert_ne by done].
    rewrite lookup_insert_eq. cbn [ix_db with_rows]. by rewrite <-Hk, Hr.
  - split; [done|]. change (mirrored (nodes (ix_db ix)) (rebuild_fts ix)). apply rebuild_mirrored, Hm.
  - unfold ensure_fts_table. destruct Hm as [[[sql t] Ht] Hk]. rewrite Ht. case_decide; [split; [done|]; split; [by rewrite Ht|done]|].
    split; [done|]. change (mirrored (nodes (ix_db ix)) (rebuild_fts (mkIndex (ix_db ix) (Some (SYMBOL_FTS_DDL, ∅))))).
    by apply (rebuild_mirrored (mkIndex (ix_db ix) (Some (SYMBOL_FTS_DDL, ∅)))).
  - split; [by eapply sql_step_ok|]. cbn [ix_db with_db]. by rewrite Hn.
Qed.
End run.

(** The full-text table mirrors the nodes.  Whatever sequence of node
    writes, purges, text updates, rebuilds and reopens is run on a store from its
    creation: the table has a row for exactly the nodes there are, with each
    node's current signature and its current name split into words. *)
Theorem fts_mirrors_nodes `{SqliteLaws} `{CharTables} ix
    (Hfk : foreign_keys = true) (Hrun : rtc fts_step fresh_index ix) :
  dom (fts_rows ix) = dom (nodes (ix_db ix)) ∧
  ∀ id r, fts_rows ix !! id = Some r → ∃ n, nodes (ix_db ix) !! id = Some n ∧
    fts_symbol_name r = split_identifier (node_symbol n) ∧ fts_signature r = node_signature n.
Proof.
  assert (index_ok ix) as [_ [_ Hk]].
  { assert (index_ok fresh_index) as Hok by (split; [apply empty_db_ok|split; [by eexists|done]]).
    revert Hok Hrun. generalize fresh_index as ix0. intros ix0 Hok Hrun. induction Hrun; eauto using fts_step_ok. }
  split.
  - apply set_eq. intros id. rewrite !elem_of_dom. specialize (Hk id).
    destruct (fts_rows ix !! id), (nodes (ix_db ix) !! id); cbn in Hk; try done; by split; intros [? ?].
  - intros id r Hr. specialize (Hk id). rewrite Hr in Hk. destruct (nodes (ix_db ix) !! id) as [n|]; [|done]. injection Hk as ? ?. by exists n.
Qed.

(** ** The query language *)

(** A reader of the expressions [expand_query] writes, by the rules of FTS5: a
    string ends at a quote that is not doubled; strings are joined by [OR] in
    parentheses; terms are joined by [AND]. *)
Fixpoint read_string (s : string) : option (string * string) :=
  match s with
  | EmptyString => None
  | String a s =>
      if decide (a = quote) then
        match s with
        | String b rest => if decide (b = quote) then (λ p : string * string, (String quote p.1, p.2)) <$> read_string rest else Some ("", s)
        | EmptyString => Some ("", "")
        end
      else (λ p : string * string, (String a p.1, p.2)) <$> read_string s
  end.
Definition read_quoted (s : string) : option (string * string) :=
  match s with String a s => if decide (a = quote) then read_string s else None | EmptyString => None end.
Fixpoint read_group (fuel : nat) (s : string) : option (list string * string) :=
  match fuel with
  | 0 => None
  | S fuel =>
      '(w, s) ← read_quoted s;
      match strip_prefix ")" s with
      | Some rest => Some ([w], rest)
      | None => s ← strip_prefix " OR " s; '(ws, rest) ← read_group fuel s; Some (w :: ws, rest)
      end
  end.
Definition read_term (s : string) : option (list string * string) :=
  match strip_prefix "(" s with
  | Some s => read_group (String.length s) s
  | None => '(w, rest) ← read_quoted s; Some ([w], rest)
  end.
Fixpoint read_terms (fuel : nat) (s : string) : option (list (list string)) :=
  match fuel with
  | 0 => None
  | S fuel =>
      '(t, s) ← read_term s;
      if is_empty s then Some [t] else s ← strip_prefix " AND " s; ts ← read_terms fuel s; Some (t :: ts)
  end.

(** What a word of the query stands for. *)
Definition alternatives (word : string) : list string :=
  let lower := to_ascii_lowercase word in
  match list_find (λ g, lower ∈ g) SYNONYM_GROUPS with Some (_, group) => group | None => [lower] end.

Lemma read_string_ok w rest : starts_with rest (String quote "") = false →
  read_string (replace_char quote (String quote (String quote "")) w +:+ String quote rest) = Some (w, rest).
Proof.
  intros Hrest. induction w as [|a w IH]; cbn [replace_char String.append].
  - cbn [read_string]. rewrite decide_True by done. destruct rest as [|b rest]; [done|]. rewrite decide_False; [done|].
    intros ->. unfold starts_with in Hrest. cbn in Hrest. done.
  - destruct (decide (a = quote)) as [->|Ha]; cbn [String.append read_string].
    + rewrite decide_True by done. rewrite decide_True by done. by rewrite IH.
    + rewrite decide_False by done. by rewrite IH.
Qed.

Lemma read_quoted_ok w rest : starts_with rest (String quote "") = false →
  read_quoted (quoted (replace_char quote (String quote (String quote "")) w) +:+ rest) = Some (w, rest).
Proof.
  intros Hrest. unfold quoted. cbn [String.append read_quoted]. rewrite decide_True by done. rewrite append_assoc. cbn [String.append].
  by apply read_string_ok.
Qed.

Lemma read_term_ok word rest : starts_with rest (String quote "") = false →
  read_term (expand_word word +:+ rest) = Some (alternatives word, rest).
Proof.
  intros Hrest. unfold expand_word, alternatives. destruct (list_find _ SYNONYM_GROUPS) as [[i g]|] eqn:Hg.
  - apply list_find_Some in Hg as (Hi & _). do 5 (destruct i as [|i]; [injection Hi as <-; reflexivity|]). done.
  - unfold read_term. change (strip_prefix "(" (quoted ?w +:+ rest)) with (@None string). by rewrite read_quoted_ok.
Qed.

Lemma read_terms_ok words fuel : words ≠ [] → length words ≤ fuel →
  read_terms fuel (join " AND " (expand_word <$> words)) = Some (alternatives <$> words).
Proof.
  revert fuel. induction words as [|w words IH]; intros fuel Hne Hfuel; [done|]. destruct fuel as [|fuel]; [cbn in Hfuel; lia|].
  destruct words as [|w' words].
  - cbn [fmap list_fmap join read_terms]. rewrite <-(append_nil_r (expand_word w)), read_term_ok by done. done.
  - change (join " AND " (expand_word <$> w :: w' :: words)) with (expand_word w +:+ (" AND " +:+ join " AND " (expand_word <$> w' :: words))).
    cbn [read_terms]. rewrite read_term_ok by done. cbn [mbind option_bind is_empty String.append].
    change (strip_prefix " AND " (" AND " +:+ ?x)) with (Some x). cbn [mbind option_bind].
    change (strip_prefix _ _) with (Some (join " AND " (expand_word <$> w' :: words))). cbn [mbind option_bind].
    by rewrite IH by (done || cbn in *; lia).
Qed.

(** ** The pages *)

Lemma length_filter_split {A} (f : A → bool) l :
  length (filter (λ x, f x = true) l) + length (filter (λ x, f x = false) l) = length l.
Proof. induction l as [|x l IH]; [done|]. rewrite !filter_cons. destruct (f x); repeat case_decide; try done; cbn; lia. Qed.

Lemma page_complete {A} (f : A → bool) (limit : N) (all : list A) :
  length (filter (λ x, f x = false) all) ≤ N.to_nat (255 * limit) →
  take (N.to_nat limit) (filter (λ x, f x = true) (take (N.to_nat (256 * limit)) all)) =
  take (N.to_nat limit) (filter (λ x, f x = true) all).
Proof.
  intros Hhidden. destruct (decide (length all ≤ N.to_nat (256 * limit))) as [Hle|Hgt]; [by rewrite (take_ge all)|].
  set (w := N.to_nat (256 * limit)) in *. rewrite <-(take_drop w all) at 2. rewrite filter_app, take_app_le; [done|].
  pose proof (length_filter_split f (take w all)) as Hsplit. rewrite length_take in Hsplit.
  assert (length (filter (λ x, f x = false) (take w all)) ≤ length (filter (λ x, f x = false) all)) as Hmono.
  { rewrite <-(take_drop w all) at 2. rewrite filter_app, length_app. lia. }
  unfold w in *. lia.
Qed.

Lemma wide_window {A} (limit : N) (l : list A) : (limit ≤ 100)%N → sql_limit (candidate_limit limit 256) l = take (N.to_nat (256 * limit)) l.
Proof.
  intros Hl. unfold sql_limit, candidate_limit, u64_mul_sat, u64_MAX.
  assert (N.max (N.min (limit * 256) 18446744073709551615) limit = 256 * limit)%N as -> by lia.
  destruct (N.ltb_spec (256 * limit) 9223372036854775808); [done|lia].
Qed.

Lemma elem_of_literal_rows `{Sqlite} db query n : n ∈ literal_rows db (to_ascii_lowercase query) ↔ ∃ i, nodes db !! i = Some n ∧
  ∃ s, s ∈ [node_symbol n; node_signature n; node_path n] ∧ str_contains (to_ascii_lowercase s) (to_ascii_lowercase query) = true.
Proof.
  unfold literal_rows. rewrite elem_of_sort_by, list_elem_of_filter, elem_of_rows, !orb_true_iff, !literal_like_exact by apply lowercase_idem.
  split.
  - intros ([[Hs|Hs]|Hs] & i & Hi); exists i; (split; [done|]); eexists; (split; [|exact Hs]); set_solver.
  - intros (i & Hi & s & Hs & Hc). split; [|by exists i]. rewrite !elem_of_cons, elem_of_nil in Hs. destruct Hs as [->|[->|[->|[]]]]; auto.
Qed.

Lemma fts_ranked_spec `{SqliteLaws} `{Fts5Laws} ix expr : fts_valid expr = true → ∃ all, ranked ix expr = Ok all ∧
  ∀ n, n ∈ all ↔ ∃ i r, fts_rows ix !! i = Some r ∧ fts_matches expr r = true ∧ nodes (ix_db ix) !! i = Some n.
Proof.
  intros Hv. unfold ranked. rewrite Hv. eexists. split; [reflexivity|]. intros n. rewrite list_elem_of_omap. setoid_rewrite bm25_perm.
  setoid_rewrite list_elem_of_filter. setoid_rewrite select_order_perm. setoid_rewrite list_elem_of_fmap. split.
  - intros (i & (Hm & [j r] & -> & Hr%elem_of_map_to_list) & Hn). cbn in *. rewrite Hr in Hm. by exists j, r.
  - intros (i & r & Hr & Hm & Hn). exists i. split; [|done]. rewrite Hr. split; [done|]. exists (i, r). split; [done|]. by apply elem_of_map_to_list.
Qed.

(** A search page is exact and hides what is hidden.  A search answers, and
    its page is the first [limit] of the visible matches in rank order among the
    best [256 * limit]; so every hit is a node of the store whose row matches the
    query, and visible to the caller; and when at most [255 * limit] matches are
    hidden, nothing hidden displaces a visible match.  The query cannot be read
    as operators: the expression reads back as the words in lower case, each with
    its synonyms.  The literal search is the same over the nodes one of whose
    texts contains the query, whatever wildcards it holds. *)
Theorem search_page_exact `{SqliteLaws} `{Fts5Laws} ix query limit f
    (Hvalid : fts_valid (expand_query query) = true) (Hlimit : (limit ≤ 100)%N) (Hwords : split_whitespace query ≠ []) :
  let expr := expand_query query in
  let page all := take (N.to_nat limit) (filter (λ n, f n = true) (take (N.to_nat (256 * limit)) all)) in
  read_terms (length (split_whitespace query)) expr = Some (alternatives <$> split_whitespace query) ∧
  (∃ all, search_symbol_nodes ix expr limit (Some f) = Some (Ok (page all)) ∧
     (∀ n, n ∈ all ↔ ∃ i r, fts_rows ix !! i = Some r ∧ fts_matches expr r = true ∧ nodes (ix_db ix) !! i = Some n) ∧
     (length (filter (λ n, f n = false) all) ≤ N.to_nat (255 * limit) →
      page all = take (N.to_nat limit) (filter (λ n, f n = true) all))) ∧
  (∃ all, search_nodes_literal (ix_db ix) (to_ascii_lowercase query) limit (Some f) = Some (Ok (page all)) ∧
     ∀ n, n ∈ all ↔ ∃ i, nodes (ix_db ix) !! i = Some n ∧
       ∃ s, s ∈ [node_symbol n; node_signature n; node_path n] ∧ str_contains (to_ascii_lowercase s) (to_ascii_lowercase query) = true).
Proof.
  intros expr page. split; [by apply read_terms_ok|]. split.
  - destruct (fts_ranked_spec ix expr Hvalid) as (all & Hall & Helem). exists all. split_and!; [|done|apply page_complete].
    unfold search_symbol_nodes. rewrite (adaptive_page _ all); [|intros k; unfold search_nodes; by rewrite Hall|done].
    by rewrite wide_window.
  - exists (literal_rows (ix_db ix) (to_ascii_lowercase query)). split.
    + unfold search_nodes_literal. rewrite (adaptive_page _ (literal_rows (ix_db ix) (to_ascii_lowercase query))) by done. by rewrite wide_window.
    + apply elem_of_literal_rows.
Qed.

(** ** Examples *)

(** Texts beyond ASCII have no case; every expression is accepted and matches
    every row, in rowid order. *)
#[local] Instance ascii_tables : CharTables := {| uni_upper := λ _, false; uni_lower := λ _, false; uni_alnum := λ _, true |}.
#[local] Instance match_all : Fts5 := {| fts_valid := λ _, true; fts_matches := λ _ _, true; bm25_order := λ _ _ l, l |}.
#[local] Instance match_all_laws : Fts5Laws.
Proof. by split. Qed.

Definition fts_node (path symbol : string) (line : N) : Node := mkNode 0 "local" path symbol "fn" line line ("fn " +:+ symbol +:+ "()").
Definition indexed_pair : Index := (ix_upsert_nodes fresh_index [fts_node "src/a.rs" "parseJsonValue" 1; fts_node "src/b.rs" "HTTPServer" 3]).1.

Lemma fts_mirrors_nodes_witness :
  let ix := (ix_purge_file_nodes indexed_pair "local" "src/a.rs").1 in
  dom (fts_rows ix) = dom (nodes (ix_db ix)) ∧
  fts_symbol_name <$> fts_rows ix !! 2%N = Some "HTTP Server" ∧ fts_rows ix !! 1%N = None ∧
  fts_symbol_name <$> fts_rows indexed_pair !! 1%N = Some "parse Json Value".
Proof.
  intros ix. destruct (fts_mirrors_nodes ix) as [Hdom _]; [reflexivity| |].
  - apply (rtc_l _ _ indexed_pair); [|].
    + apply (fts_upsert _ [fts_node "src/a.rs" "parseJsonValue" 1; fts_node "src/b.rs" "HTTPServer" 3] _ [1; 2]%N). vm_compute. reflexivity.
    + apply rtc_once. apply (fts_purge _ "local" "src/a.rs" _ 1%N). vm_compute. reflexivity.
  - split; [exact Hdom|]. split_and!; vm_compute; reflexivity.
Defined.

Lemma search_page_exact_witness :
  let f n := negb (bool_decide (node_path n = "src/a.rs")) in
  (∃ all, search_symbol_nodes indexed_pair (expand_query "Jwt x") 1 (Some f) =
     Some (Ok (take 1 (filter (λ n, f n = true) (take 256 all)))) ∧ length all = 2) ∧
  read_terms 2 (expand_query "Jwt x") = Some [["auth"; "authentication"; "login"; "jwt"; "token"; "credential"]; ["x"]] ∧
  search_nodes_literal (ix_db indexed_pair) "e_j" 1 (Some f) = Some (Ok []) ∧
  match search_nodes_literal (ix_db indexed_pair) "server" 1 (Some f) with Some (Ok l) => node_symbol <$> l | _ => [] end = ["HTTPServer"].
Proof.
  intros f. destruct (search_page_exact indexed_pair "Jwt x" 1 f) as (Hread & (all & Hpage & Hall & _) & _); [reflexivity|lia|done|].
  split_and!; [|exact Hread|vm_compute; reflexivity|vm_compute; reflexivity].
  exists (default [] match ranked indexed_pair (expand_query "Jwt x") with Ok l => Some l | Err _ => None end).
  split; [|vm_compute; reflexivity]. vm_compute. reflexivity.
Defined.

(** A store whose table was never created is opened with an empty table, however
    many nodes it has: no search finds them. *)
Theorem fts_created_empty :
  let ix := ensure_fts_table (mkIndex (ix_db indexed_pair) None) in
  size (nodes (ix_db ix)) = 2 ∧ search_symbol_nodes ix (expand_query "server") 10 None = Some (Ok []) ∧
  length <$> match search_symbol_nodes indexed_pair (expand_query "server") 10 None with Some (Ok l) => Some l | _ => None end = Some 2.
Proof. vm_compute. by split_and!. Qed.

(** The window is bounded: behind 256 hidden matches the one visible match is
    not found. *)
Definition crowd : Index :=
  let ns := (λ i, mkNode (N.of_nat i) "local" (if i <=? 256 then "hidden.rs" else "open.rs") "f" "fn" (N.of_nat i) (N.of_nat i) "fn f()") <$> seq 1 257 in
  mkIndex (mkDb (list_to_map ((λ n, (node_id n, n)) <$> ns)) ∅ ∅ ∅ ∅ [] [])
    (Some (SYMBOL_FTS_DDL, list_to_map ((λ n, (node_id n, fts_row "f" "fn f()" "" "")) <$> ns))).
#[local] Instance match_by_id : Fts5 := {| fts_valid := λ _, true; fts_matches := λ _ _, true; bm25_order := λ _ _ l, sort_by N.leb l |}.
Theorem search_window_underfills :
  let f n := bool_decide (node_path n = "open.rs") in
  search_symbol_nodes crowd (expand_query "f") 1 (Some f) = Some (Ok []) ∧
  (length ∘ filter (λ n, f n = true)) <$> match ranked crowd (expand_query "f") with Ok l => Some l | Err _ => None end = Some 1.
Proof. vm_compute. by split. Qed.
