(* ===== verification/Vector.v ===== *)
(** * Semantic search (embedding.rs, vector.rs, ranking.rs, the chunk streams of index.rs)

    Embeddings, the quantised vectors kept beside the nodes, the two-stage
    search over them, the fusion of rankings, and the text each node is embedded
    and indexed under.  [f32] and [f64] are IEEE numbers of [SpecFloat]; the
    sqlite-vec extension (quantisation, nearest neighbours) and an embedding
    model are parameters. *)

From Stdlib Require Import Floats.SpecFloat.
From S2P Require Import Prelude Str Bitmap Model Csr Paths CsrGraph SqlStore SqlProofs SqlReindex Spool Http Json Modules Tools Fts.

(** ** Numbers *)

(** [total_cmp] as an order of integers: by sign, exponent and mantissa, with
    -0 below +0 and the infinities and NaN outside.  [SpecFloat] has one NaN,
    taken as positive. *)
Definition float_key (prec emax : Z) (x : spec_float) : Z :=
  (match x with
   | S754_zero s => if s then -1 else 0
   | S754_infinity s => let k := 2 * emax * 2 ^ prec in if s then - k - 1 else k
   | S754_nan => 2 * emax * 2 ^ prec + 1
   | S754_finite s m e => let k := (e - (3 - emax - prec) + 1) * 2 ^ prec + Z.pos m in if s then - k - 1 else k
   end)%Z.

Definition f32 : Type := spec_float.
Definition f32_add : f32 → f32 → f32 := SFadd 24 128.
Definition f32_mul : f32 → f32 → f32 := SFmul 24 128.
Definition f32_div : f32 → f32 → f32 := SFdiv 24 128.
Definition f32_sqrt : f32 → f32 := SFsqrt 24 128.
Definition f32_of_Z (z : Z) : f32 := binary_normalize 24 128 z 0 false.
(** [Iterator::sum] starts from -0. *)
Definition f32_sum (l : list f32) : f32 := foldl f32_add (S754_zero true) l.
Definition f32_key : f32 → Z := float_key 24 128.
Definition f64_key : f64 → Z := float_key 53 1024.
Definition f64_of_N (n : N) : f64 := binary_normalize 53 1024 (Z.of_N n) 0 false.

(** ** Embeddings *)

(** src/crates/weave-graph-core/src/embedding.rs:17-32 [EmbeddingProvider] *)
Record EmbeddingProvider := mkProvider {
  embed : string → result (list f32) string;
  embed_query : string → result (list f32) string;
  dimensions : nat;
  model_id : string }.

(** src/crates/weave-graph-core/src/embedding.rs:29-31 [EmbeddingProvider::fingerprint] *)
Definition fingerprint (e : EmbeddingProvider) : string := model_id e +:+ ":" +:+ decn (dimensions e) +:+ "d".

(** src/crates/weave-graph-core/src/embedding.rs:59-66 [fnv1a] *)
Definition FNV_OFFSET : N := 14695981039346656037.
Definition FNV_PRIME : N := 1099511628211.
Definition fnv1a (bytes : string) : N :=
  foldl (λ hash a, (N.lxor hash (byte a) * FNV_PRIME) `mod` 18446744073709551616)%N FNV_OFFSET (String.list_ascii_of_string bytes).

Section mock.
Context `{CharTables}.

(** [str::split] on the characters that are not alphanumeric. *)
Fixpoint split_words (l : list string) : list string :=
  match l with
  | [] => [""]
  | c :: l =>
      if is_alphanumeric c then match split_words l with [] => [c] | w :: ws => (c +:+ w) :: ws end
      else "" :: split_words l
  end.

(** src/crates/weave-graph-core/src/embedding.rs:70-77 [MockEmbeddingProvider::embed] *)
Definition bucket_of (dims : nat) (word : string) : nat := N.to_nat (fnv1a (to_ascii_lowercase word) `mod` N.of_nat dims).
Definition count_words (dims : nat) (words : list string) : list f32 :=
  foldl (λ v w, alter (λ x, f32_add x (f32_of_Z 1)) (bucket_of dims w) v) (replicate dims (S754_zero false)) words.

(** src/crates/weave-graph-core/src/embedding.rs:69-85 [MockEmbeddingProvider::embed]
    For a width that is not 0. *)
Definition mock_embed (dims : nat) (text : string) : list f32 :=
  let vector := count_words dims (filter (λ w, w ≠ "") (split_words (chars text))) in
  let norm := f32_sqrt (f32_sum ((λ x, f32_mul x x) <$> vector)) in
  if SFltb (S754_zero false) norm then (λ x, f32_div x norm) <$> vector else vector.

(** src/crates/weave-graph-core/src/embedding.rs:44-46 [MockEmbeddingProvider::new] *)
Definition mock_provider : EmbeddingProvider :=
  mkProvider (λ t, Ok (mock_embed 384 t)) (λ t, Ok (mock_embed 384 t)) 384 "mock-fnv-v1".
End mock.

(** ** The table *)

(** src/crates/weave-graph-store-sqlite/src/vector.rs:15-15 [DIMENSIONS] *)
Definition DIMENSIONS : nat := 384.

(** The sqlite-vec extension: the two quantisations of a vector, and the rowids
    of a table by their distance from a binary vector. *)
Class SqliteVec := {
  quantize_binary : list f32 → list bool;
  quantize_int8 : list f32 → list Z;
  knn : gmap N (list bool) → list bool → list N;
}.
Class SqliteVecLaws `{SqliteVec} : Prop := { knn_perm t q : knn t q ≡ₚ (map_to_list t).*1 }.

(** src/crates/weave-graph-store-sqlite/src/vector.rs:56-68 [ensure_vector_table] *)
Record VecRow := mkVecRow { binary_vec : list bool; int8_vec : list Z }.
Record Vectors := mkVectors { vec_chunks : gmap N VecRow; vec_model : option string }.
Definition with_chunks (v : Vectors) (t : gmap N VecRow) : Vectors := mkVectors t (vec_model v).

Section vectors.
Context `{Sqlite} `{SqliteVec}.

(** src/crates/weave-graph-store-sqlite/src/vector.rs:77-86 [validate_dimensions] *)
Definition validate_dimensions (e : EmbeddingProvider) : result () StorageError :=
  if decide (dimensions e = DIMENSIONS) then Ok ()
  else Err (Backend ("vector dimensions " +:+ decn (dimensions e) +:+ " do not match index dimensions " +:+ decn DIMENSIONS)).

(** src/crates/weave-graph-store-sqlite/src/vector.rs:98-120 [validate_model_id] *)
Definition validate_model_id (v : Vectors) (e : EmbeddingProvider) : result () StorageError :=
  match vec_model v with
  | Some m => if decide (m = fingerprint e) then Ok ()
              else Err (Backend ("vector index was built with " +:+ m +:+ "; rebuild it with " +:+ fingerprint e))
  | None => Err (Backend "vector index has no model identity; run a full reindex")
  end.

(** src/crates/weave-graph-store-sqlite/src/vector.rs:70-75 [embedding_bytes]
    With the [INSERT]: the column has a fixed width and the rowid is unique. *)
Definition insert_chunk (e : EmbeddingProvider) (v : Vectors) (id : N) (text : string) : Vectors * result () StorageError :=
  match embed e text with
  | Err err => (v, Err (Backend err))
  | Ok x =>
      if negb (length x =? DIMENSIONS) then (v, Err (Backend "dimension mismatch"))
      else match vec_chunks v !! id with
           | Some _ => (v, Err unique_failed)
           | None => (with_chunks v (<[id := mkVecRow (quantize_binary x) (quantize_int8 x)]> (vec_chunks v)), Ok ())
           end
  end.

(** The loop of a producer: every statement is its own, so what was written
    before an error stays. *)
Fixpoint each_chunk (f : Vectors → N → string → Vectors * result () StorageError) (chunks : list (N * string)) (v : Vectors) :
    Vectors * result () StorageError :=
  match chunks with
  | [] => (v, Ok ())
  | (id, text) :: chunks => match f v id text with (v, Ok _) => each_chunk f chunks v | (v, Err err) => (v, Err err) end
  end.

(** src/crates/weave-graph-store-sqlite/src/vector.rs:126-146 [rebuild] *)
Definition rebuild_vectors (e : EmbeddingProvider) (chunks : list (N * string)) (v : Vectors) : Vectors * result () StorageError :=
  match validate_dimensions e with
  | Err err => (v, Err err)
  | Ok _ =>
      match each_chunk (insert_chunk e) chunks (with_chunks v ∅) with
      | (v, Ok _) => (mkVectors (vec_chunks v) (Some (fingerprint e)), Ok ())
      | (v, Err err) => (v, Err err)
      end
  end.

(** src/crates/weave-graph-store-sqlite/src/vector.rs:148-171 [rebuild_streaming]
    The same over what the producer feeds it. *)
Definition rebuild_streaming : EmbeddingProvider → list (N * string) → Vectors → Vectors * result () StorageError := rebuild_vectors.

(** src/crates/weave-graph-store-sqlite/src/vector.rs:191-196 [upsert_streaming]
    The old vector is deleted before the new one is computed. *)
Definition upsert_chunk (e : EmbeddingProvider) (v : Vectors) (id : N) (text : string) : Vectors * result () StorageError :=
  insert_chunk e (with_chunks v (delete id (vec_chunks v))) id text.

(** src/crates/weave-graph-store-sqlite/src/vector.rs:173-198 [upsert_streaming] *)
Definition upsert_streaming (e : EmbeddingProvider) (chunks : list (N * string)) (v : Vectors) : Vectors * result () StorageError :=
  match (let? _ := validate_dimensions e in validate_model_id v e) with
  | Err err => (v, Err err)
  | Ok _ => each_chunk (upsert_chunk e) chunks v
  end.

(** src/crates/weave-graph-store-sqlite/src/vector.rs:206-213 [purge_excluded_paths]
    The nodes one prefix selects; SQLite's [LIKE] has no escape here. *)
Definition purged_by (db : Db) (prefix : string) (id : N) : bool :=
  match nodes db !! id with
  | Some n => bool_decide (node_path n = prefix) || is_empty prefix || like None (prefix +:+ "/%") (node_path n)
  | None => false
  end.

(** src/crates/weave-graph-store-sqlite/src/vector.rs:200-217 [purge_excluded_paths] *)
Definition purge_excluded_paths (db : Db) (excluded : list string) (v : Vectors) : Vectors * N :=
  foldl (λ '(v, deleted) prefix,
    let kept := filter (λ p : N * VecRow, purged_by db prefix p.1 = false) (vec_chunks v) in
    (with_chunks v kept, (deleted + N.of_nat (size (vec_chunks v) - size kept))%N)) (v, 0%N) excluded.

(** src/crates/weave-graph-store-sqlite/src/vector.rs:287-292 [search] *)
Definition query_score (int8 : list Z) (query : list f32) : f32 := f32_sum (zip_with (λ b q, f32_mul (f32_of_Z b) q) int8 query).

Definition score_desc (a b : N * f32) : bool := (f32_key b.2 <=? f32_key a.2)%Z.

(** src/crates/weave-graph-store-sqlite/src/vector.rs:262-272 [search]
    The rowids the first stage returns; the callers keep the limit far below 2^63. *)
Definition stage1 (v : Vectors) (q : list bool) (limit : N) : list N :=
  sql_limit limit (knn (binary_vec <$> vec_chunks v) q).

(** src/crates/weave-graph-store-sqlite/src/vector.rs:277-295 [search]
    The stored vectors of the candidates with their scores. *)
Definition rerank (v : Vectors) (candidates : list N) (query : list f32) : list (N * f32) :=
  omap (λ i, (λ r, (i, query_score (int8_vec r) query)) <$> vec_chunks v !! i) (select_order candidates).

(** src/crates/weave-graph-store-sqlite/src/vector.rs:234-302 [search] *)
Definition vector_search (v : Vectors) (e : EmbeddingProvider) (query_text : string) (limit oversample : N) (visible : option (N → bool)) :
    result (list N) StorageError :=
  let? _ := validate_dimensions e in
  if bool_decide (vec_chunks v = ∅) then Ok [] else
  let? _ := validate_model_id v e in
  let? query := match embed_query e query_text with Ok q => Ok q | Err err => Err (Backend err) end in
  let candidates := stage1 v (quantize_binary query) (N.max (u64_mul_sat limit oversample) limit) in
  match candidates with
  | [] => Ok []
  | _ =>
      let scored := rerank v candidates query in
      let scored := match visible with Some f => filter (λ p, f p.1 = true) scored | None => scored end in
      Ok (fst <$> take (N.to_nat limit) (sort_by score_desc scored))
  end.

(** src/crates/weave-graph-store-sqlite/src/backend.rs:1362-1380 [SqliteStorage::search_vector] *)
Definition search_vector (db : Db) (v : Vectors) (e : EmbeddingProvider) (query_text : string) (limit oversample : N)
    (visible : option (Node → bool)) : result (list N) StorageError :=
  vector_search v e query_text limit oversample
    ((λ f id, match nodes db !! id with Some n => f n | None => false end) <$> visible).

(** src/crates/weave-graph-store-sqlite/src/vector.rs:311-311 [INT8_UNIT_SCALE] *)
Definition INT8_UNIT_SCALE : f32 := f32_of_Z 16129.

(** src/crates/weave-graph-store-sqlite/src/vector.rs:394-399 [find_similar_pairs] *)
Definition similarity_of (a b : list Z) : f32 :=
  f32_div (f32_sum (zip_with (λ x y, f32_mul (f32_of_Z x) (f32_of_Z y)) a b)) INT8_UNIT_SCALE.

(** src/crates/weave-graph-store-sqlite/src/vector.rs:394-409 [find_similar_pairs]
    One candidate of one node. *)
Definition pair_step (threshold : f32) (id : N) (own : list Z) (st : gset (N * N) * list (N * N * f32)) (cand : N * list Z) :
    gset (N * N) * list (N * N * f32) :=
  let sim := similarity_of own cand.2 in
  if SFleb threshold sim then
    let key := if (id <? cand.1)%N then (id, cand.1) else (cand.1, id) in
    if decide (key ∈ st.1) then st else ({[ key ]} ∪ st.1, st.2 ++ [(key.1, key.2, sim)])
  else st.

(** src/crates/weave-graph-store-sqlite/src/vector.rs:364-410 [find_similar_pairs]
    One node: its own vector, its neighbours but itself, their vectors. *)
Definition pairs_of (v : Vectors) (threshold : f32) (limit : N) (st : gset (N * N) * list (N * N * f32)) (id : N) :
    gset (N * N) * list (N * N * f32) :=
  match vec_chunks v !! id with
  | None => st
  | Some own =>
      let candidates := filter (λ c, c ≠ id) (stage1 v (binary_vec own) limit) in
      foldl (pair_step threshold id (int8_vec own)) st
        (omap (λ i, (λ r, (i, int8_vec r)) <$> vec_chunks v !! i) (select_order candidates))
  end.

(** src/crates/weave-graph-store-sqlite/src/vector.rs:320-413 [find_similar_pairs] *)
Definition find_similar_pairs (v : Vectors) (scope_ids : list N) (threshold : f32) (oversample : N) : list (N * N * f32) :=
  match scope_ids with
  | [] => []
  | _ => if bool_decide (vec_chunks v = ∅) then []
         else (foldl (pairs_of v threshold (N.max oversample 1 + 1)%N) (∅, []) scope_ids).2
  end.
End vectors.

(** ** Fusion of rankings *)

Definition RRF_K : f64 := f64_of_N 60.

(** src/crates/weave-graph-core/src/ranking.rs:14-19 [reciprocal_rank_fusion]
    One list: the first occurrence of an id counts. *)
Definition fuse_list (scores : gmap N f64) (list : list N) : gmap N f64 :=
  (foldl (λ '(seen, scores) p,
    if decide (p.2 ∈ seen) then (seen, scores)
    else ({[ p.2 ]} ∪ seen,
          <[p.2 := f64_add (default f64_zero (scores !! p.2)) (f64_div f64_one (f64_add (f64_add RRF_K (f64_of_N (N.of_nat p.1))) f64_one))]> scores))
    (∅ : gset N, scores) (enumerate list)).2.

Definition fused_leb (a b : N * f64) : bool := pair_leb Z.leb N.leb (- f64_key a.2, a.1)%Z (- f64_key b.2, b.1)%Z.

(** src/crates/weave-graph-core/src/ranking.rs:11-29 [reciprocal_rank_fusion] *)
Definition reciprocal_rank_fusion `{HashOrder} (lists : list (list N)) (limit : N) : list N :=
  fst <$> take (N.to_nat limit) (sort_by fused_leb (hm_iter (foldl fuse_list ∅ lists))).

(** ** What a node is embedded and indexed under *)

(** src/crates/weave-graph-cli/src/index.rs:563-571 [source_line_starts] *)
Fixpoint newline_ends (i : nat) (s : string) : list nat :=
  match s with
  | EmptyString => []
  | String a s => if decide (a = "010"%char) then S i :: newline_ends (S i) s else newline_ends (S i) s
  end.
Definition source_line_starts (source : string) : list nat := 0 :: newline_ends 0 source.

(** src/crates/weave-graph-cli/src/index.rs:574-585 [source_span] *)
Definition source_span (source : string) (line_starts : list nat) (line_start line_end : N) : option string :=
  start ← line_starts !! N.to_nat (line_start - 1);
  let end_ := default (String.length source) (line_starts !! N.to_nat line_end) in
  if start <? end_ then Some (str_take (end_ - start) (str_drop start source)) else None.

(** src/crates/weave-graph-cli/src/index.rs:588-594 [path_is_excluded] *)
Definition path_is_excluded (path prefix : string) : bool :=
  is_empty prefix || bool_decide (path = prefix) ||
  match strip_prefix prefix path with Some suffix => starts_with suffix "/" | None => false end.
Definition is_excluded (excluded : list string) (n : Node) : bool := existsb (path_is_excluded (node_path n)) excluded.

(** src/crates/weave-graph-cli/src/index.rs:476-480 [nth_line] *)
Definition nth_line (source : string) (line_starts : list nat) (idx : nat) : option string :=
  start ← line_starts !! idx;
  let end_ := default (String.length source) (line_starts !! S idx) in
  Some (trim_end_by (λ a, bool_decide (a = "010"%char ∨ a = "013"%char)) (str_take (end_ - start) (str_drop start source))).

(** src/crates/weave-graph-cli/src/index.rs:470-470 [COMMENT_MARKERS] *)
Definition COMMENT_MARKERS : list string := ["///"; "//!"; "//"; "#"; "/*"; "*"; "--"].

(** src/crates/weave-graph-cli/src/index.rs:490-502 [doc_comment_above]
    From the line above upwards; the nearest line comes last. *)
Fixpoint comments_above (source : string) (line_starts : list nat) (idx : nat) (collected : list string) : list string :=
  match idx with
  | 0 => collected
  | S idx =>
      match trim <$> nth_line source line_starts idx with
      | None => collected
      | Some line =>
          if is_empty line || negb (existsb (starts_with line) COMMENT_MARKERS) then collected
          else comments_above source line_starts idx (line :: collected)
      end
  end.
(** src/crates/weave-graph-cli/src/index.rs:487-503 [doc_comment_above] *)
Definition doc_comment_above (source : string) (line_starts : list nat) (line_start : N) : string :=
  join " " (comments_above source line_starts (N.to_nat (line_start - 1)) []).

(** src/crates/weave-graph-store-sqlite/src/backend.rs:780-796 [SqliteStorage::for_each_node_by_path] *)
Definition nodes_by_path (db : Db) : list Node :=
  sort_by (λ a b, pair_leb String.leb (pair_leb N.leb N.leb) (node_path a, (node_line_start a, node_id a)) (node_path b, (node_line_start b, node_id b)))
    (rows (nodes db)).

(** src/crates/weave-graph-store-sqlite/src/backend.rs:799-818 [SqliteStorage::for_each_node_in_paths] *)
Definition nodes_in_paths (db : Db) (paths : list string) : list Node :=
  concat ((λ path, sort_by (λ a b, pair_leb N.leb N.leb (node_line_start a, node_id a) (node_line_start b, node_id b))
    (filter (λ n, node_path n = path) (rows (nodes db)))) <$> paths).

(** The text of a node: its lines, or its name when the file has none of them. *)
Definition node_text (read_file : string → option string) (n : Node) : string :=
  let source := default "" (read_file (node_path n)) in
  default (node_symbol n) (source_span source (source_line_starts source) (node_line_start n) (node_line_end n)).

(** src/crates/weave-graph-cli/src/index.rs:407-434 [stream_vector_chunks] *)
Definition vector_chunks (read_file : string → option string) (excluded : list string) (ns : list Node) : list (N * string) :=
  (λ n, (node_id n, node_text read_file n)) <$> filter (λ n, is_excluded excluded n = false) ns.

Section streams.
Context `{CharTables} `{Sqlite} `{SqliteVec}.

(** src/crates/weave-graph-cli/src/index.rs:437-446 [rebuild_vector_index] *)
Definition rebuild_vector_index (read_file : string → option string) (excluded : list string) (db : Db) (v : Vectors) :
    Vectors * result () StorageError :=
  rebuild_streaming mock_provider (vector_chunks read_file excluded (nodes_by_path db)) v.

(** src/crates/weave-graph-cli/src/index.rs:449-462 [update_vector_index] *)
Definition update_vector_index (read_file : string → option string) (excluded paths : list string) (db : Db) (v : Vectors) :
    Vectors * result () StorageError :=
  upsert_streaming mock_provider (vector_chunks read_file excluded (nodes_in_paths db paths)) v.

(** src/crates/weave-graph-cli/src/index.rs:510-538 [stream_fts_text] *)
Definition stream_fts_text (read_file : string → option string) (excluded : list string) (ns : list Node) (ix : Index) : Index :=
  foldl (λ ix n,
    let source := default "" (read_file (node_path n)) in
    upsert_text ix (node_id n) (node_text read_file n) (doc_comment_above source (source_line_starts source) (node_line_start n)))
    ix (filter (λ n, is_excluded excluded n = false) ns).

(** src/crates/weave-graph-cli/src/index.rs:541-547 [rebuild_fts_text] *)
Definition rebuild_fts_text (read_file : string → option string) (excluded : list string) (ix : Index) : Index :=
  stream_fts_text read_file excluded (nodes_by_path (ix_db ix)) ix.

(** src/crates/weave-graph-cli/src/index.rs:550-560 [update_fts_text] *)
Definition update_fts_text (read_file : string → option string) (excluded paths : list string) (ix : Index) : Index :=
  stream_fts_text read_file excluded (nodes_in_paths (ix_db ix) paths) ix.
End streams.

(** ** Fusion: deterministic, without duplicates, best first *)

#[export] Instance OrdB_Z : OrdB Z.leb.
Proof. split; intros *; rewrite ?Z.leb_le; lia. Qed.

Lemma fuse_list_dom scores l : ∀ id, is_Some (fuse_list scores l !! id) ↔ is_Some (scores !! id) ∨ id ∈ l.
Proof.
  unfold fuse_list. enough (∀ (seen : gset N) (scores : gmap N f64) (ps : list (nat * N)) id, (∀ x, x ∈ seen → is_Some (scores !! x)) →
    is_Some ((foldl (λ '(seen, scores) p,
      if decide (p.2 ∈ seen) then (seen, scores)
      else ({[ p.2 ]} ∪ seen,
            <[p.2 := f64_add (default f64_zero (scores !! p.2)) (f64_div f64_one (f64_add (f64_add RRF_K (f64_of_N (N.of_nat p.1))) f64_one))]> scores))
      (seen : gset N, scores) ps).2 !! id) ↔ is_Some (scores !! id) ∨ id ∈ ps.*2) as Hgen.
  { intros id. rewrite Hgen by (intros x Hx; by apply not_elem_of_empty in Hx). by rewrite enumerate_snd. }
  clear. intros seen scores ps. revert seen scores. induction ps as [|[r i] ps IH]; intros seen scores id Hseen; cbn [foldl].
  { cbn. rewrite elem_of_nil. tauto. }
  cbn [fst snd]. case_decide as Hi.
  - rewrite IH by done. cbn. rewrite elem_of_cons. split; [tauto|]. intros [?|[->|?]]; auto.
  - rewrite IH.
    + cbn. rewrite elem_of_cons, lookup_insert_is_Some'. naive_solver.
    + intros x [->%elem_of_singleton|Hx]%elem_of_union; apply lookup_insert_is_Some'; auto.
Qed.

Lemma fused_dom lists : ∀ scores id, is_Some (foldl fuse_list scores lists !! id) ↔ is_Some (scores !! id) ∨ ∃ l, l ∈ lists ∧ id ∈ l.
Proof.
  induction lists as [|l lists IH]; intros scores id; cbn [foldl].
  - split; [by left|]. intros [?|(? & ?%not_elem_of_nil & _)]; done.
  - rewrite IH, fuse_list_dom. setoid_rewrite elem_of_cons. naive_solver.
Qed.

Lemma NoDup_take {A} n (l : list A) : NoDup l → NoDup (take n l).
Proof. intros Hl. rewrite <-(take_drop n l) in Hl. by apply NoDup_app in Hl as [? _]. Qed.

Lemma StronglySorted_fmap_key {A K} (R : K → K → Prop) (f : A → K) l :
  StronglySorted (λ x y, R (f x) (f y)) l → StronglySorted R (f <$> l).
Proof. induction 1 as [|x l Hl IH Hx]; [constructor|]. cbn. constructor; [done|]. apply Forall_fmap. exact Hx. Qed.

Definition fused_key (p : N * f64) : Z * N := (- f64_key p.2, p.1)%Z.

Lemma fused_sort_keys l : fused_key <$> sort_by fused_leb l = sort_by (pair_leb Z.leb N.leb) (fused_key <$> l).
Proof.
  symmetry. apply sort_by_unique; [apply _| |by rewrite sort_by_perm].
  apply (StronglySorted_fmap_key (λ x y, pair_leb Z.leb N.leb x y = true)). apply sort_by_sorted_key.
  - intros x y. apply (ordb_total (leb := pair_leb Z.leb N.leb)).
  - intros x y z. apply (ordb_trans (leb := pair_leb Z.leb N.leb)).
Qed.

Lemma fusion_exact `{HashOrderLaws} lists limit :
  reciprocal_rank_fusion lists limit =
    snd <$> take (N.to_nat limit) (sort_by (pair_leb Z.leb N.leb) (fused_key <$> map_to_list (foldl fuse_list ∅ lists))) ∧
  NoDup (reciprocal_rank_fusion lists limit) ∧
  length (reciprocal_rank_fusion lists limit) ≤ N.to_nat limit ∧
  ∀ id, id ∈ reciprocal_rank_fusion lists limit → ∃ l, l ∈ lists ∧ id ∈ l.
Proof.
  set (m := foldl fuse_list ∅ lists). assert (reciprocal_rank_fusion lists limit =
    snd <$> take (N.to_nat limit) (sort_by (pair_leb Z.leb N.leb) (fused_key <$> map_to_list m))) as Heq.
  { unfold reciprocal_rank_fusion. fold m. trans (snd <$> (fused_key <$> take (N.to_nat limit) (sort_by fused_leb (hm_iter m)))).
    { rewrite <-list_fmap_compose. by apply list_fmap_ext. }
    rewrite fmap_take, fused_sort_keys. do 2 f_equal. apply sort_by_unique; [apply _|apply sort_by_sorted, _|].
    by rewrite sort_by_perm, (hm_iter_perm m). }
  split_and!; [done| | |].
  - unfold reciprocal_rank_fusion. fold m. rewrite fmap_take. apply NoDup_take.
    assert ((sort_by fused_leb (hm_iter m)).*1 ≡ₚ (map_to_list m).*1) as -> by (by rewrite sort_by_perm, (hm_iter_perm m)).
    apply NoDup_fst_map_to_list.
  - rewrite Heq, length_fmap, length_take. lia.
  - intros id. unfold reciprocal_rank_fusion. fold m. rewrite list_elem_of_fmap. intros ([i x] & -> & (? & Hin%list_elem_of_lookup_2 & _)%elem_of_take).
    rewrite elem_of_sort_by, hm_iter_elem in Hin. destruct (proj1 (fused_dom lists ∅ i)) as [[? ?]|?]; [by exists x|done|done].
Qed.

(** ** The vectors of the nodes *)

Lemma length_count_words `{CharTables} dims words : length (count_words dims words) = dims.
Proof.
  unfold count_words. rewrite <-(length_replicate dims (S754_zero false)) at 2. generalize (replicate dims (S754_zero false)) as v.
  induction words as [|w words IH]; intros v; [done|]. cbn [foldl]. by rewrite IH, length_alter.
Qed.

Lemma length_mock_embed `{CharTables} dims text : length (mock_embed dims text) = dims.
Proof. unfold mock_embed. case_match; rewrite ?length_fmap; apply length_count_words. Qed.

Section exact.
Context `{SqliteLaws} `{SqliteVecLaws} `{CharTables}.

Definition quantized (x : list f32) : VecRow := mkVecRow (quantize_binary x) (quantize_int8 x).

(** The model answers every text with a vector of the table's width. *)
Definition well_sized (e : EmbeddingProvider) : Prop := dimensions e = DIMENSIONS ∧ ∀ t, ∃ x, embed e t = Ok x ∧ length x = DIMENSIONS.

Lemma mock_well_sized : well_sized mock_provider.
Proof. split; [done|]. intros t. exists (mock_embed 384 t). split; [done|]. apply length_mock_embed. Qed.

Lemma each_insert e chunks v : well_sized e → NoDup chunks.*1 → (∀ id, id ∈ chunks.*1 → vec_chunks v !! id = None) →
  ∃ v', each_chunk (insert_chunk e) chunks v = (v', Ok ()) ∧ vec_model v' = vec_model v ∧
    ∀ id r, vec_chunks v' !! id = Some r ↔ vec_chunks v !! id = Some r ∨ ∃ t x, (id, t) ∈ chunks ∧ embed e t = Ok x ∧ r = quantized x.
Proof.
  intros Hsize. revert v. induction chunks as [|[i t] chunks IH]; intros v Hnd Hfree; cbn [each_chunk].
  { exists v. split_and!; [done..|]. intros id r. split; [by left|]. intros [?|(? & ? & ?%not_elem_of_nil & _)]; done. }
  apply NoDup_cons in Hnd as [Hi Hnd]. destruct (proj2 Hsize t) as (x & Hx & Hlen). unfold insert_chunk at 1. rewrite Hx, Hlen, Nat.eqb_refl. cbn [negb].
  rewrite Hfree by (by left). destruct (IH (with_chunks v (<[i := quantized x]> (vec_chunks v))) Hnd) as (v' & Hrun & Hm & Hv').
  { intros id Hid. cbn [vec_chunks with_chunks]. rewrite lookup_insert_ne by (by intros ->). apply Hfree. by right. }
  change (mkVecRow (quantize_binary x) (quantize_int8 x)) with (quantized x). rewrite Hrun.
  exists v'. split_and!; [done..|]. intros id r. rewrite Hv'. cbn [vec_chunks with_chunks]. rewrite lookup_insert_Some. setoid_rewrite elem_of_cons. split.
  - intros [[[<- <-]|[? ?]]|(t' & x' & ? & ? & ?)]; [right; exists t, x; auto|by left|right; exists t', x'; auto].
  - intros [Hv|(t' & x' & [[= -> ->]|Hin] & Hx' & ->)].
    + left. right. split; [|done]. intros ->. by rewrite Hfree in Hv by (by left).
    + left. left. rewrite Hx in Hx'. by injection Hx' as ->.
    + right. by exists t', x'.
Qed.

Lemma elem_of_nodes_by_path db n : n ∈ nodes_by_path db ↔ ∃ i, nodes db !! i = Some n.
Proof. unfold nodes_by_path. by rewrite elem_of_sort_by, elem_of_rows. Qed.

Lemma chunk_ids read_file excluded db : db_ok db → NoDup (vector_chunks read_file excluded (nodes_by_path db)).*1.
Proof.
  intros Hok. unfold vector_chunks. rewrite <-list_fmap_compose.
  change (fst ∘ (λ n, (node_id n, node_text read_file n))) with node_id.
  assert (NoDup (node_id <$> nodes_by_path db)) as Hnd.
  { unfold nodes_by_path. rewrite sort_by_perm. unfold rows. rewrite <-list_fmap_compose.
    rewrite (list_fmap_ext _ fst); [apply NoDup_fst_map_to_list|]. intros k [i n] Hin%list_elem_of_lookup_2%elem_of_map_to_list. by apply (do_nodes _ Hok). }
  revert Hnd. generalize (nodes_by_path db) as l. induction l as [|n l IH]; [done|]. rewrite fmap_cons, NoDup_cons. intros [Hn Hnd].
  rewrite filter_cons. case_decide; [|by apply IH]. rewrite fmap_cons. apply NoDup_cons. split; [|by apply IH].
  intros (m & Heq & [_ Hm]%list_elem_of_filter)%list_elem_of_fmap. apply Hn, list_elem_of_fmap. by exists m.
Qed.

(** *** The purge *)

Lemma like_self p items s : like_match items s = true → like_match (like_items None p ++ items) (p +:+ s) = true.
Proof.
  intros Hs. induction p as [|a p IH]; [done|]. cbn [like_items]. rewrite decide_False by done.
  destruct (decide (a = "%"%char)) as [->|].
  - cbn [app]. apply like_any. exists "%", (p +:+ s). done.
  - destruct (decide (a = "_"%char)) as [->|]; cbn [app like_match String.append]; [exact IH|]. by rewrite bool_decide_eq_true_2.
Qed.

Lemma like_items_append p q : like_items None (p +:+ q) = like_items None p ++ like_items None q.
Proof. induction p as [|a p IH]; [done|]. cbn [String.append like_items]. rewrite decide_False by done. cbn [app]. by rewrite IH. Qed.

Lemma excluded_purged db prefix id n : nodes db !! id = Some n → path_is_excluded (node_path n) prefix = true → purged_by db prefix id = true.
Proof.
  intros Hn. unfold path_is_excluded, purged_by. rewrite Hn, !orb_true_iff. intros [[He|Hp]|Hs]; [auto|auto|]. right.
  destruct (strip_prefix prefix (node_path n)) as [suffix|] eqn:Hsp; [|done]. apply strip_prefix_Some in Hsp as ->.
  unfold starts_with in Hs. apply bool_decide_eq_true in Hs as [rest Hr]. apply strip_prefix_Some in Hr as ->.
  unfold like. rewrite like_items_append. apply like_self.
  change (like_items None "/%") with [Literal "/"%char; AnyString]. change (like_match (AnyString :: []) rest = true). apply like_any.
  exists rest, "". by rewrite append_nil_r.
Qed.

Lemma purge_lookup db excluded v id r :
  vec_chunks (purge_excluded_paths db excluded v).1 !! id = Some r ↔
  vec_chunks v !! id = Some r ∧ ∀ p, p ∈ excluded → purged_by db p id = false.
Proof.
  unfold purge_excluded_paths. generalize 0%N as k. revert v. induction excluded as [|p excluded IH]; intros v k; cbn [foldl].
  - split; [|by intros [? _]]. intros ?. split; [done|]. by intros p ?%not_elem_of_nil.
  - rewrite IH. cbn [vec_chunks with_chunks]. rewrite map_lookup_filter_Some. setoid_rewrite elem_of_cons. naive_solver.
Qed.

Lemma purge_model db excluded v : vec_model (purge_excluded_paths db excluded v).1 = vec_model v.
Proof.
  unfold purge_excluded_paths. generalize 0%N as k. revert v. induction excluded as [|p excluded IH]; intros v k; [done|]. cbn [foldl]. by rewrite IH.
Qed.
End exact.

(** *** The search *)

Section searching.
Context `{SqliteLaws} `{SqliteVecLaws}.

Lemma elem_of_stage1 v q limit id : id ∈ stage1 v q limit → is_Some (vec_chunks v !! id).
Proof.
  unfold stage1, sql_limit. intros Hin. assert (id ∈ knn (binary_vec <$> vec_chunks v) q) as Hk.
  { destruct (limit <? _)%N; [|done]. by apply elem_of_take in Hin as (? & ?%list_elem_of_lookup_2 & _). }
  rewrite knn_perm in Hk. apply list_elem_of_fmap in Hk as ([i r] & -> & Hr%elem_of_map_to_list). cbn. rewrite lookup_fmap in Hr.
  destruct (vec_chunks v !! i); [by eexists|done].
Qed.

Lemma stage1_all v q limit id : (N.of_nat (size (vec_chunks v)) ≤ limit)%N → id ∈ stage1 v q limit ↔ is_Some (vec_chunks v !! id).
Proof.
  intros Hsize. split; [apply elem_of_stage1|]. intros [r Hr]. unfold stage1, sql_limit.
  assert (id ∈ knn (binary_vec <$> vec_chunks v) q) as Hk.
  { rewrite knn_perm. apply list_elem_of_fmap. exists (id, binary_vec r). split; [done|]. apply elem_of_map_to_list. by rewrite lookup_fmap, Hr. }
  destruct (limit <? _)%N; [|done]. rewrite take_ge; [done|]. rewrite knn_perm, length_fmap, length_map_to_list, map_size_fmap. lia.
Qed.

Lemma NoDup_stage1 v q limit : NoDup (stage1 v q limit).
Proof.
  assert (NoDup (knn (binary_vec <$> vec_chunks v) q)) by (rewrite knn_perm; apply NoDup_fst_map_to_list).
  unfold stage1, sql_limit. destruct (limit <? _)%N; [by apply NoDup_take|done].
Qed.

Lemma rerank_spec v candidates query id s :
  (id, s) ∈ rerank v candidates query ↔ id ∈ candidates ∧ ∃ r, vec_chunks v !! id = Some r ∧ s = query_score (int8_vec r) query.
Proof.
  unfold rerank. rewrite list_elem_of_omap. setoid_rewrite select_order_perm. split.
  - intros (i & Hi & (r & Hr & [= -> ->])%fmap_Some). eauto.
  - intros (Hi & r & Hr & ->). exists id. split; [done|]. by rewrite Hr.
Qed.

Lemma rerank_ids v candidates query : (∀ i, i ∈ candidates → is_Some (vec_chunks v !! i)) → (rerank v candidates query).*1 = select_order candidates.
Proof.
  intros Hall. unfold rerank. assert (∀ i, i ∈ select_order candidates → is_Some (vec_chunks v !! i)) as Hall'.
  { intros i. rewrite select_order_perm. apply Hall. }
  clear Hall. induction (select_order candidates) as [|i l IH]; [done|]. destruct (Hall' i) as [r Hr]; [by left|]. cbn. rewrite Hr. cbn.
  f_equal. apply IH. intros j Hj. apply Hall'. by right.
Qed.

Lemma rebuild_exact `{CharTables} read_file excluded db v : db_ok db →
  ∃ v1, rebuild_vector_index read_file excluded db v = (v1, Ok ()) ∧ vec_model v1 = Some (fingerprint mock_provider) ∧
    ∀ id row, vec_chunks v1 !! id = Some row ↔
      ∃ n, nodes db !! id = Some n ∧ is_excluded excluded n = false ∧ row = quantized (mock_embed 384 (node_text read_file n)).
Proof.
  intros Hok. unfold rebuild_vector_index, rebuild_streaming, rebuild_vectors.
  assert (validate_dimensions mock_provider = Ok ()) as -> by done.
  destruct (each_insert mock_provider (vector_chunks read_file excluded (nodes_by_path db)) (with_chunks v ∅)) as (v1 & -> & _ & Hv1);
    [apply mock_well_sized|by apply chunk_ids|done|].
  eexists. split_and!; [reflexivity|done|]. intros id row. cbn [vec_chunks]. rewrite Hv1. cbn [vec_chunks with_chunks]. rewrite lookup_empty.
  unfold vector_chunks. setoid_rewrite list_elem_of_fmap. setoid_rewrite list_elem_of_filter. setoid_rewrite elem_of_nodes_by_path. split.
  - intros [?|(t & x & (n & [= -> ->] & Hex & i & Hi) & [= <-] & ->)]; [done|]. exists n.
    by rewrite (no_id _ (do_nodes _ Hok) _ _ Hi).
  - intros (n & Hn & Hex & ->). right. exists (node_text read_file n), (mock_embed 384 (node_text read_file n)). split_and!; [|done..].
    exists n. rewrite (no_id _ (do_nodes _ Hok) _ _ Hn). split_and!; [done..|]. by exists id.
Qed.

Lemma search_exact v e text query limit oversample f : well_sized e → vec_model v = Some (fingerprint e) → embed_query e text = Ok query →
  let candidates := stage1 v (quantize_binary query) (N.max (u64_mul_sat limit oversample) limit) in
  ∃ ids scored, vector_search v e text limit oversample (Some f) = Ok ids ∧
    ids = fst <$> take (N.to_nat limit) scored ∧ NoDup ids ∧ StronglySorted (λ a b, score_desc a b = true) scored ∧
    ∀ id s, (id, s) ∈ scored ↔ id ∈ candidates ∧ f id = true ∧ ∃ row, vec_chunks v !! id = Some row ∧ s = query_score (int8_vec row) query.
Proof.
  intros [Hdim _] Hm Hq candidates. set (scored := sort_by score_desc (filter (λ p : N * f32, f p.1 = true) (rerank v candidates query))).
  exists (fst <$> take (N.to_nat limit) scored), scored. split_and!; [|done| | |].
  - unfold vector_search, validate_dimensions. rewrite decide_True by done. cbn [result_bind]. case_bool_decide as He.
    + assert (candidates = []) as Hc.
      { apply elem_of_nil_inv. intros id Hid%elem_of_stage1. rewrite He, lookup_empty in Hid. by destruct Hid. }
      unfold scored. rewrite Hc. unfold rerank. assert (select_order (@nil N) = []) as -> by apply Permutation_nil_r, select_order_perm.
      cbn. by rewrite take_nil.
    + unfold validate_model_id. rewrite Hm, decide_True by done. cbn [result_bind]. rewrite Hq. cbn [result_bind]. fold candidates.
      destruct candidates as [|c cs] eqn:Hc; [|done]. unfold scored, rerank. assert (select_order (@nil N) = []) as -> by apply Permutation_nil_r, select_order_perm.
      cbn. by rewrite take_nil.
  - rewrite fmap_take. apply NoDup_take. unfold scored. rewrite sort_by_perm.
    assert (NoDup (rerank v candidates query).*1) as Hnd.
    { rewrite rerank_ids by (by intros i; apply elem_of_stage1). rewrite select_order_perm. apply NoDup_stage1. }
    revert Hnd. clear. induction (rerank v candidates query) as [|[i s] l IH]; [done|]. rewrite fmap_cons, NoDup_cons. intros [Hi Hnd].
    rewrite filter_cons. case_decide; [|by apply IH]. rewrite fmap_cons. apply NoDup_cons. split; [|by apply IH].
    intros (m & Heq & [_ Hm]%list_elem_of_filter)%list_elem_of_fmap. apply Hi, list_elem_of_fmap. by exists m.
  - apply sort_by_sorted_key; unfold score_desc; intros *; rewrite ?Z.leb_le; lia.
  - intros id s. unfold scored. rewrite elem_of_sort_by, list_elem_of_filter, rerank_spec. cbn. tauto.
Qed.
End searching.

(** The vector index.  A rebuild gives exactly the nodes outside the
    excluded paths a vector, each the quantised embedding of the node's own
    source lines; purging leaves no vector of a node at or below an excluded
    path; and a search over an index with the model's identity returns, without
    repetition and best score first, at most [limit] of the candidates of the
    first stage that the caller may see, none that scores higher being left out;
    when the table is no larger than [limit * oversample] the candidates are all
    its rows. *)
Theorem vector_index_exact `{SqliteLaws} `{SqliteVecLaws} `{CharTables} db v read_file excluded query limit oversample f
    (Hok : db_ok db) :
  let v1 := (rebuild_vector_index read_file excluded db v).1 in
  (rebuild_vector_index read_file excluded db v).2 = Ok () ∧
  (∀ id row, vec_chunks v1 !! id = Some row ↔
     ∃ n, nodes db !! id = Some n ∧ is_excluded excluded n = false ∧ row = quantized (mock_embed 384 (node_text read_file n))) ∧
  (∀ id row n, vec_chunks (purge_excluded_paths db excluded v).1 !! id = Some row → nodes db !! id = Some n → is_excluded excluded n = false) ∧
  ∃ ids scored, search_vector db v1 mock_provider query limit oversample (Some f) = Ok ids ∧
    ids = fst <$> take (N.to_nat limit) scored ∧ NoDup ids ∧ StronglySorted (λ a b, score_desc a b = true) scored ∧
    (∀ id s, (id, s) ∈ scored ↔
       id ∈ stage1 v1 (quantize_binary (mock_embed 384 query)) (N.max (u64_mul_sat limit oversample) limit) ∧
       (∃ n, nodes db !! id = Some n ∧ f n = true) ∧
       ∃ row, vec_chunks v1 !! id = Some row ∧ s = query_score (int8_vec row) (mock_embed 384 query)) ∧
    ((N.of_nat (size (vec_chunks v1)) ≤ N.max (u64_mul_sat limit oversample) limit)%N →
     ∀ id, id ∈ stage1 v1 (quantize_binary (mock_embed 384 query)) (N.max (u64_mul_sat limit oversample) limit) ↔ is_Some (vec_chunks v1 !! id)).
Proof.
  destruct (rebuild_exact read_file excluded db v Hok) as (v1 & Hrun & Hm & Hv1). rewrite Hrun. cbn [fst snd]. split_and!; [done|exact Hv1| |].
  - intros id row n [_ Hp]%purge_lookup Hn. apply not_true_iff_false. unfold is_excluded. rewrite existsb_exists.
    intros (p & Hin%list_elem_of_In & Hex). specialize (Hp p Hin). by rewrite (excluded_purged db p id n Hn Hex) in Hp.
  - destruct (search_exact v1 mock_provider query (mock_embed 384 query) limit oversample
      (λ id, match nodes db !! id with Some n => f n | None => false end) mock_well_sized Hm eq_refl) as (ids & scored & Hs & Hids & Hnd & Hsort & Hin).
    exists ids, scored. split_and!; [done..| |by intros; apply stage1_all]. intros id s. rewrite Hin.
    destruct (nodes db !! id) as [n|]; [|naive_solver]. split; [intros (? & ? & ?); eauto|]. intros (? & (? & [= <-] & ?) & ?). done.
Qed.

(** ** Examples *)

(** Bits for the positive entries, bytes of 127 for them, and the rows in rowid
    order. *)
#[local] Instance sign_vec : SqliteVec := {|
  quantize_binary := λ x, SFltb (S754_zero false) <$> x;
  quantize_int8 := λ x, (λ e, if SFltb (S754_zero false) e then 127%Z else 0%Z) <$> x;
  knn := λ t _, (map_to_list t).*1;
|}.
#[local] Instance sign_vec_laws : SqliteVecLaws.
Proof. by split. Qed.
#[local] Instance ascii_words : CharTables := {| uni_upper := λ _, false; uni_lower := λ _, false; uni_alnum := λ _, true |}.

Definition two_files : Db :=
  mkDb (list_to_map [(1%N, mkNode 1 "local" "src/a.rs" "parse" "fn" 1 2 "fn parse()"); (2%N, mkNode 2 "local" "my_lib/b.rs" "secret" "fn" 1 1 "fn secret()")])
    ∅ ∅ ∅ ∅ [] [].
Definition two_sources (path : string) : option string :=
  if decide (path = "src/a.rs") then Some ("fn parse() {" +:+ newline +:+ "}" +:+ newline) else None.
Lemma two_files_ok : db_ok two_files.
Proof.
  split; [split|split|..]; try done.
  - intros i n. cbn. rewrite !lookup_insert_Some. naive_solver.
  - intros i j n m. cbn. rewrite !lookup_insert_Some, lookup_empty. intros [[<- <-]|(_ & [[<- <-]|(_ & ?)])] [[<- <-]|(_ & [[<- <-]|(_ & ?)])]; done.
Qed.

Lemma vector_index_exact_witness :
  let v1 := (rebuild_vector_index two_sources ["my_lib"] two_files (mkVectors ∅ None)).1 in
  (∀ id row, vec_chunks v1 !! id = Some row ↔ ∃ n, nodes two_files !! id = Some n ∧ is_excluded ["my_lib"] n = false ∧
     row = quantized (mock_embed 384 (node_text two_sources n))) ∧
  map_to_list (binary_vec <$> vec_chunks v1) = [(1%N, quantize_binary (mock_embed 384 "FN parse"))] ∧
  search_vector two_files v1 mock_provider "parse" 3 4 (Some (λ _, true)) = Ok [1%N].
Proof.
  intros v1. destruct (vector_index_exact two_files (mkVectors ∅ None) two_sources ["my_lib"] "parse" 3 4 (λ _, true) two_files_ok) as (_ & Hrows & _).
  split; [exact Hrows|]. split; vm_compute; reflexivity.
Defined.

(** The first stage is cut before hidden rows are left out: with every candidate
    hidden, a search finds nothing although a visible row is stored. *)
Theorem vector_candidates_starve :
  let v := mkVectors (list_to_map [(1%N, quantized []); (2%N, quantized [])]) (Some (fingerprint mock_provider)) in
  let f n := bool_decide (node_path n = "src/a.rs") in
  search_vector two_files v mock_provider "x" 1 1 (Some f) = Ok [] ∧
  search_vector two_files v mock_provider "x" 1 2 (Some f) = Ok [1%N].
Proof. split; vm_compute; reflexivity. Qed.

(** An update deletes a node's vector before it asks for the new one: when the
    model fails, the old vector is gone. *)
Theorem failed_update_drops_vector :
  let e := mkProvider (λ _, Err "offline") (λ _, Err "offline") 384 "remote" in
  let v := mkVectors {[ 1%N := quantized [] ]} (Some "remote:384d") in
  upsert_streaming e [(1%N, "fn parse")] v = (mkVectors ∅ (Some "remote:384d"), Err (Backend "offline")).
Proof. vm_compute. reflexivity. Qed.

(** The purge reads the excluded path as a [LIKE] pattern: excluding [my_lib]
    also drops the vectors of [my-lib], which is not excluded. *)
Theorem purge_reads_wildcards :
  let n := mkNode 1 "local" "my-lib/a.rs" "f" "fn" 1 1 "fn f()" in
  let db := mkDb {[ 1%N := n ]} ∅ ∅ ∅ ∅ [] [] in
  is_excluded ["my_lib"] n = false ∧ vec_chunks (purge_excluded_paths db ["my_lib"] (mkVectors {[ 1%N := quantized [] ]} None)).1 = ∅.
Proof. split; vm_compute; reflexivity. Qed.

Example fusion_prefers_shared : reciprocal_rank_fusion [[3; 1; 2]; [2; 3; 4]]%N 4 = [3; 2; 1; 4]%N.
Proof. vm_compute. reflexivity. Qed.
Example fusion_ties_by_id : reciprocal_rank_fusion [[2; 2]; [1]]%N 3 = [1; 2]%N.
Proof. vm_compute. reflexivity. Qed.
