(* ===== verification/Search.v ===== *)
(** * Search (search.rs, and the search and policy tools of the MCP server)

    The lexical and the semantic search commands, and the MCP tools
    [weave_search_semantic], [weave_find_all] and [weave_policy_lint], over the
    full-text table and the vectors. *)

From S2P Require Import Prelude Str Bitmap Model Csr Paths CsrGraph Auth Policy SqlStore SqlProofs Spool Http Json Config Modules Tools Mcp PolicyGate Fts Vector.

(** src/crates/weave-graph-core/src/storage.rs:6-6 [MAX_SEARCH_LIMIT] *)
Definition MAX_SEARCH_LIMIT : N := 100.
(** src/crates/weave-graph-mcp/src/search_semantic.rs:11-11 [OVERSAMPLE] *)
Definition OVERSAMPLE : N := 4.

(** src/crates/weave-graph-mcp/src/search_semantic.rs:18-21 [SemanticHit] *)
Record SemanticHit := mkHit { hit_node : Node; hit_direct : bool }.

(** src/crates/weave-graph-mcp/src/tools.rs:95-110 [FindAllArgs] *)
Record FindAllArgs := mkFindAll {
  fa_pattern : string; fa_path : option string; fa_language : option string; fa_kind : option string; fa_limit : nat; fa_max_tokens : option nat }.
(** src/crates/weave-graph-mcp/src/tools.rs:114-117 [FindAllResult] *)
Record FindAllResult := mkFindAllResult { fa_text : string; total_matches : nat }.

Section search.
Context `{CharTables} `{Sqlite} `{Fts5} `{SqliteVec} `{HashOrder}.

(** src/crates/weave-graph-cli/src/search.rs:18-20 [bounded_limit] *)
Definition bounded_limit (limit : N) : N := N.min limit MAX_SEARCH_LIMIT.

(** src/crates/weave-graph-cli/src/search.rs:24-32 [run] *)
Definition search_run (ix : Index) (query : string) (limit : N) (visible : option (Node → bool)) : option (result (list Node) StorageError) :=
  search_symbol_nodes ix (expand_query query) (bounded_limit limit) visible.

(** src/crates/weave-graph-cli/src/search.rs:46-59 [run_with_fallback] *)
Definition run_with_fallback (ix : Index) (query : string) (limit : N) (visible : option (Node → bool)) :
    option (result (list Node * bool) StorageError) :=
  match search_run ix query limit visible with
  | None => None
  | Some (Err e) => Some (Err e)
  | Some (Ok (n :: hits)) => Some (Ok (n :: hits, false))
  | Some (Ok []) =>
      (λ r : result (list Node) StorageError, let? ns := r in Ok (ns, true)) <$>
        search_nodes_literal (ix_db ix) (to_ascii_lowercase query) (bounded_limit limit) visible
  end.

Definition guard_visible (guard : option RbacGuard) : option (Node → bool) := visible <$> guard.

(** src/crates/weave-graph-cli/src/search.rs:61-93 [cmd_search]
    The lines printed; [guard] is that of [--as]. *)
Definition cmd_search (ix : Index) (query : string) (limit : N) (guard : option RbacGuard) : option (result (list string) StorageError) :=
  (λ r : result (list Node * bool) StorageError,
     let? p := r in
     Ok match p with
        | ([], _) => ["No visible matches for " +:+ quoted query +:+ "."]
        | (ns, is_fallback) =>
            (if is_fallback then ["No FTS match — showing literal substring hits:"] else []) ++
            ((λ n, node_symbol n +:+ " (" +:+ node_path n +:+ ":" +:+ dec (node_line_start n) +:+ ")") <$> ns)
        end) <$> run_with_fallback ix query limit (guard_visible guard).

(** The nodes of the fused ids that are still there and visible. *)
Definition fused_nodes (db : Db) (ids : list N) (visible : option (Node → bool)) : list Node :=
  retain visible (omap (λ i, nodes db !! i) ids).

(** Both rankings of a query, fused; [lexical] limits the second as the first. *)
Definition fused_search (ix : Index) (v : Vectors) (query : string) (limit candidates : N) (visible : option (Node → bool)) :
    option (result (list Node) StorageError) :=
  match search_vector (ix_db ix) v mock_provider query candidates OVERSAMPLE visible with
  | Err e => Some (Err e)
  | Ok vector_ids =>
      (λ r : result (list NodeId) StorageError, let? lexical_ids := r in
         Ok (fused_nodes (ix_db ix) (reciprocal_rank_fusion [vector_ids; lexical_ids] limit) visible)) <$>
        search_symbols ix (expand_query query) candidates visible
  end.

(** src/crates/weave-graph-cli/src/search.rs:102-127 [run_semantic]
    [run] bounds its limit again, which changes nothing. *)
Definition run_semantic (ix : Index) (v : Vectors) (query : string) (limit : N) (visible : option (Node → bool)) :
    option (result (list Node) StorageError) :=
  fused_search ix v query (bounded_limit limit) (bounded_limit (u64_mul_sat limit OVERSAMPLE)) visible.

(** src/crates/weave-graph-cli/src/search.rs:130-159 [cmd_search_semantic] *)
Definition cmd_search_semantic (ix : Index) (v : Vectors) (query : string) (limit : N) (guard : option RbacGuard) :
    option (result (list string) StorageError) :=
  (λ r : result (list Node) StorageError, let? ns := r in
     Ok match ns with
        | [] => ["No visible semantic matches for " +:+ quoted query +:+ "."]
        | _ => (λ n, node_symbol n +:+ " (" +:+ node_path n +:+ ":" +:+ dec (node_line_start n) +:+ ") [semantic]") <$> ns
        end) <$> run_semantic ix v query limit (guard_visible guard).

(** src/crates/weave-graph-mcp/src/search_semantic.rs:23-27 [is_direct_match] *)
Definition is_direct_match (query : string) (n : Node) : bool :=
  str_contains (to_ascii_lowercase (node_symbol n)) (to_ascii_lowercase query) ||
  str_contains (to_ascii_lowercase (node_path n)) (to_ascii_lowercase query).

(** src/crates/weave-graph-mcp/src/search_semantic.rs:29-56 [weave_search_semantic] *)
Definition weave_search_semantic (ix : Index) (v : Vectors) (query : string) (limit : N) (visible : option (Node → bool)) :
    option (result (list SemanticHit) string) :=
  let limit := bounded_limit limit in
  (λ r : result (list Node) StorageError,
     match r with
     | Ok ns => Ok ((λ n, mkHit n (is_direct_match query n)) <$> ns)
     | Err e => Err (storage_error_text e)
     end) <$> fused_search ix v query limit (N.max (u64_mul_sat limit OVERSAMPLE) limit) visible.

(** src/crates/weave-graph-mcp/src/find_all.rs:11-24 [language_for_path]
    The text after the last dot, or all of it. *)
Definition language_for_path (path : string) : option string :=
  let ext := match rsplit_once path "." with Some (_, e) => e | None => path end in
  if decide (ext = "rs") then Some "rust" else if decide (ext = "py") then Some "python"
  else if bool_decide (ext ∈ ["js"; "jsx"; "mjs"; "cjs"]) then Some "javascript"
  else if bool_decide (ext ∈ ["ts"; "tsx"]) then Some "typescript"
  else if decide (ext = "go") then Some "go" else if decide (ext = "java") then Some "java"
  else if bool_decide (ext ∈ ["c"; "h"]) then Some "c"
  else if bool_decide (ext ∈ ["cpp"; "cc"; "cxx"; "hpp"; "hh"; "hxx"]) then Some "cpp" else None.

(** src/crates/weave-graph-mcp/src/find_all.rs:91-115 [render] *)
Definition find_all_text (shown : list Node) (total : nat) : string :=
  match shown with
  | [] => if total =? 0 then "no matches" else decn total +:+ " match(es) found, none fit the requested budget"
  | _ =>
      join newline (((λ n, node_path n +:+ ":" +:+ dec (node_line_start n) +:+ "-" +:+ dec (node_line_end n) +:+ " " +:+ node_symbol n +:+
                           " (" +:+ node_kind n +:+ ")") <$> shown) ++
        (if 0 <? total - length shown then ["... and " +:+ decn (total - length shown) +:+ " more (raise `limit`/`max_tokens` to see them)"] else []))
  end.

(** src/crates/weave-graph-mcp/src/find_all.rs:76-88 [weave_find_all]
    Fewer and fewer hits until the text fits. *)
Fixpoint find_all_shrink (filtered : list Node) (max_tokens : option nat) (shown : nat) : string :=
  let text := find_all_text (take shown filtered) (length filtered) in
  match shown with
  | 0 => text
  | S fewer => if under_budget text max_tokens then text else find_all_shrink filtered max_tokens fewer
  end.

(** src/crates/weave-graph-mcp/src/find_all.rs:62-71 [weave_find_all] *)
Definition find_all_keeps (args : FindAllArgs) (n : Node) : bool :=
  match fa_path args with Some p => starts_with (node_path n) p | None => true end &&
  match fa_kind args with Some k => bool_decide (node_kind n = k) | None => true end &&
  match fa_language args with
  | Some lang => match language_for_path (node_path n) with Some l => bool_decide (to_ascii_lowercase l = to_ascii_lowercase lang) | None => false end
  | None => true
  end.

(** src/crates/weave-graph-mcp/src/find_all.rs:42-89 [weave_find_all] *)
Definition weave_find_all (ix : Index) (args : FindAllArgs) (mask : option (Node → Node)) : FindAllResult :=
  match find_all_symbols ix (expand_query (fa_pattern args)) with
  | Err e => mkFindAllResult ("error: " +:+ storage_error_text e) 0
  | Ok all =>
      let masked := match mask with Some m => m <$> all | None => all end in
      let filtered := filter (λ n, find_all_keeps args n = true) masked in
      mkFindAllResult (find_all_shrink filtered (fa_max_tokens args) (min (length filtered) (max (fa_limit args) 1))) (length filtered)
  end.

(** src/crates/weave-graph-mcp/src/handler.rs:744-784 [call_find_all] *)
Definition call_find_all (ix : Index) (args : Value) (guard : option RbacGuard) : CallToolResult :=
  match get_str args "pattern" with
  | None => tool_err "Missing 'pattern' parameter"
  | Some pattern =>
      tool_ok (fa_text (weave_find_all ix
        (mkFindAll pattern (get_str args "path") (get_str args "language") (get_str args "kind") (default 50 (get_usize args "limit"))
           (get_usize args "max_tokens")) (guard_mask guard)))
  end.

(** src/crates/weave-graph-mcp/src/handler.rs:915-958 [call_search_semantic] *)
Definition call_search_semantic (ix : Index) (v : Vectors) (args : Value) (guard : option RbacGuard) : option CallToolResult :=
  match get_str args "query" with
  | None => Some (tool_err "Missing 'query' parameter")
  | Some query =>
      (λ r : result (list SemanticHit) string,
         match r with
         | Err e => tool_err ("error: " +:+ e)
         | Ok [] => tool_ok ("No visible semantic matches for " +:+ quoted query +:+ ".")
         | Ok hits => tool_ok (join newline ((λ h, node_symbol (hit_node h) +:+ " (" +:+ node_path (hit_node h) +:+ ":" +:+
             dec (node_line_start (hit_node h)) +:+ ") [" +:+ (if hit_direct h then "direct" else "metadata") +:+ "]") <$> hits))
         end) <$> weave_search_semantic ix v query (N.of_nat (default 5 (get_usize args "limit"))) (guard_visible guard)
  end.
End search.

(** ** The policy tool *)

(** src/crates/weave-graph-mcp/src/policy_lint.rs:93-111 [render] *)
Definition policy_text (violations : list Violation) : string :=
  match violations with
  | [] => "✓ no boundary violations"
  | _ =>
      "✗ " +:+ decn (length violations) +:+ " policy violation(s)" +:+ newline +:+
      String.concat "" ((λ v, "[" +:+ v_kind v +:+ "] " +:+ v_from v +:+ " -> " +:+ v_to v +:+
        match v_owner_role v with Some owner => " (owner: " +:+ owner +:+ ")" | None => "" end +:+ newline +:+
        String.concat "" ((λ e, "    " +:+ e +:+ newline) <$> v_examples v)) <$> violations)
  end.

Section policy.
(** [serde_yaml] at the type of the policy file: its rules. *)
Context (from_yaml : string → result (list RuleEntry) string).

(** src/crates/weave-graph-mcp/src/policy_lint.rs:59-91 [load_rules] *)
Definition mcp_load_rules (path : string) (content : option string) : result (list BoundaryRule) string :=
  match content with
  | None => Err ("policy file not found: " +:+ path +:+ " — create it to declare boundaries")
  | Some c =>
      match from_yaml c with
      | Err e => Err ("invalid policy YAML: " +:+ e)
      | Ok rules => try_map load_rule rules
      end
  end.

(** src/crates/weave-graph-mcp/src/policy_lint.rs:118-127 [weave_policy_lint] *)
Definition weave_policy_lint (path : string) (policy : option string) (nodes : list Node) (edges : list Edge) (current_roles : list string) :
    result string string :=
  let? rules := mcp_load_rules path policy in Ok (policy_text (lint_scoped nodes edges rules current_roles)).

(** src/crates/weave-graph-mcp/src/handler.rs:961-1004 [call_policy_lint]
    A caller with a guard is linted over what it sees, with its roles. *)
Definition call_policy_lint `{Sqlite} (db : Db) (path : string) (policy : option string) (guard : option RbacGuard) : CallToolResult :=
  match all_nodes db, all_edges db with
  | Ok ns, Ok es =>
      let ns' := match guard with Some g => filter (λ n, visible g n = true) ns | None => ns end in
      let ids := node_id <$> ns' in
      let es' := match guard with Some g => filter (λ e, source_id e ∈ ids ∧ target_id e ∈ ids) es | None => es end in
      match weave_policy_lint path policy ns' es' (default [] (roles ∘ identity <$> guard)) with
      | Ok text => tool_ok text
      | Err e => tool_err ("error: " +:+ e)
      end
  | Err e, _ => tool_err ("error: " +:+ storage_error_text e)
  | _, Err e => tool_err ("error: " +:+ storage_error_text e)
  end.
End policy.

(** ** What a search may show *)

Section safe.
Context `{CharTables} `{SqliteLaws} `{Fts5Laws} `{SqliteVecLaws} `{HashOrderLaws}.

Lemma adaptive_sound fetch limit vis fuel factor ns : adaptive fuel fetch limit vis factor = Some (Ok ns) →
  (∃ k raw, fetch k = Ok raw ∧ ∀ n, n ∈ ns → n ∈ raw) ∧ length ns ≤ N.to_nat limit ∧ ∀ f n, vis = Some f → n ∈ ns → f n = true.
Proof.
  revert factor. induction fuel as [|fuel IH]; intros factor; cbn [adaptive]; [done|].
  destruct (fetch (candidate_limit limit factor)) as [raw|e] eqn:Hf; [|done]. case_match; [|by apply IH]. intros [= <-].
  assert (∀ n, n ∈ take (N.to_nat limit) (retain vis raw) → n ∈ raw ∧ ∀ f, vis = Some f → f n = true) as Hin.
  { intros n (? & Hn%list_elem_of_lookup_2 & _)%elem_of_take. by apply elem_of_retain. }
  split_and!; [by exists (candidate_limit limit factor), raw; split; [|intros n [? _]%Hin]|rewrite length_take; lia|].
  intros f n -> [_ Hv]%Hin. by apply Hv.
Qed.

Lemma elem_of_sql_limit {A} k (l : list A) x : x ∈ sql_limit k l → x ∈ l.
Proof. unfold sql_limit. destruct (k <? _)%N; [|done]. by intros (? & ?%list_elem_of_lookup_2 & _)%elem_of_take. Qed.

Lemma ranked_in_db ix expr ns n : ranked ix expr = Ok ns → n ∈ ns → ∃ i, nodes (ix_db ix) !! i = Some n.
Proof.
  intros Hr Hn. destruct (fts_valid expr) eqn:Hv; [|unfold ranked in Hr; by rewrite Hv in Hr].
  destruct (fts_ranked_spec ix expr Hv) as (all & Hall & Helem). rewrite Hr in Hall. injection Hall as <-. apply Helem in Hn as (i & _ & _ & _ & ?). eauto.
Qed.

Lemma search_answers ix expr limit vis : search_symbol_nodes ix expr limit vis ≠ None.
Proof.
  unfold search_symbol_nodes. destruct (ranked ix expr) as [all|e] eqn:Hr.
  - by rewrite (adaptive_page _ all) by (done || (intros k; unfold search_nodes; by rewrite Hr)).
  - cbn [adaptive]. unfold search_nodes. by rewrite Hr.
Qed.

Lemma literal_answers db q limit vis : ∃ ns, search_nodes_literal db q limit vis = Some (Ok ns).
Proof. eexists. unfold search_nodes_literal. by rewrite (adaptive_page _ (literal_rows db q)) by done. Qed.

Lemma fused_answers ix v query limit candidates vis : fused_search ix v query limit candidates vis ≠ None.
Proof.
  unfold fused_search, search_symbols. destruct (search_vector _ _ _ _ _ _ _); [|done].
  pose proof (search_answers ix (expand_query query) candidates vis). by destruct (search_symbol_nodes _ _ _ _).
Qed.

Lemma fts_hits ix expr limit vis ns : search_symbol_nodes ix expr limit vis = Some (Ok ns) →
  length ns ≤ N.to_nat limit ∧ ∀ n, n ∈ ns → (∃ i, nodes (ix_db ix) !! i = Some n) ∧ ∀ f, vis = Some f → f n = true.
Proof.
  intros ((k & raw & Hf & Hin) & Hlen & Hv)%adaptive_sound. split; [done|]. intros n Hn. split; [|by intros f ->; apply Hv].
  unfold search_nodes in Hf. destruct (ranked ix expr) as [all|] eqn:Hr; [|done]. injection Hf as <-.
  eapply ranked_in_db; [done|]. by eapply elem_of_sql_limit, Hin.
Qed.

Lemma literal_hits db q limit vis ns : search_nodes_literal db q limit vis = Some (Ok ns) →
  length ns ≤ N.to_nat limit ∧ ∀ n, n ∈ ns → (∃ i, nodes db !! i = Some n) ∧ ∀ f, vis = Some f → f n = true.
Proof.
  intros ((k & raw & Hf & Hin) & Hlen & Hv)%adaptive_sound. split; [done|]. intros n Hn. split; [|by intros f ->; apply Hv].
  injection Hf as <-. apply Hin, elem_of_sql_limit in Hn. unfold literal_rows in Hn.
  apply elem_of_sort_by, list_elem_of_filter in Hn as [_ Hn]. by apply elem_of_rows.
Qed.

Lemma fused_nodes_spec db ids vis n : n ∈ fused_nodes db ids vis ↔ (∃ i, i ∈ ids ∧ nodes db !! i = Some n) ∧ ∀ f, vis = Some f → f n = true.
Proof. unfold fused_nodes. rewrite elem_of_retain, list_elem_of_omap. done. Qed.

Lemma length_fused_nodes db ids vis : length (fused_nodes db ids vis) ≤ length ids.
Proof.
  unfold fused_nodes. assert (length (omap (λ i, nodes db !! i) ids) ≤ length ids) as Hlen.
  { induction ids as [|i ids IH]; [done|]. cbn. destruct (nodes db !! i); cbn; lia. }
  destruct vis as [f|]; cbn [retain]; [|done]. etrans; [apply length_filter|done].
Qed.

Lemma fused_search_hits ix v query limit candidates vis ns : fused_search ix v query limit candidates vis = Some (Ok ns) →
  length ns ≤ N.to_nat limit ∧ ∀ n, n ∈ ns → (∃ i, nodes (ix_db ix) !! i = Some n) ∧ ∀ f, vis = Some f → f n = true.
Proof.
  unfold fused_search. destruct (search_vector _ _ _ _ _ _ _) as [vs|e]; [|done]. destruct (search_symbols _ _ _ _) as [[ls|e]|]; [|done..].
  cbn. intros [= <-]. destruct (fusion_exact [vs; ls] limit) as (_ & _ & Hlen & _).
  split; [by etrans; [apply length_fused_nodes|]|]. intros n [(i & _ & Hi) Hv]%fused_nodes_spec. split; [by exists i|done].
Qed.
End safe.

(** C29: Nothing hidden is found.  Whatever the query, the limit and the store:
    every search answers (an expression that FTS5 rejects is an error), and every hit of the lexical search, its literal fallback, the semantic search
    and the MCP search tool is a node of the store that the caller may see, and
    there are at most [limit] of them, never more than a hundred. *)
Theorem search_shows_visible `{CharTables} `{SqliteLaws} `{Fts5Laws} `{SqliteVecLaws} `{HashOrderLaws} ix v query limit f :
  let shown ns := length ns ≤ N.to_nat (N.min limit 100) ∧ ∀ n, n ∈ ns → (∃ i, nodes (ix_db ix) !! i = Some n) ∧ f n = true in
  (run_with_fallback ix query limit (Some f) ≠ None ∧ run_semantic ix v query limit (Some f) ≠ None ∧
   weave_search_semantic ix v query limit (Some f) ≠ None) ∧
  (∀ ns fallback, run_with_fallback ix query limit (Some f) = Some (Ok (ns, fallback)) → shown ns) ∧
  (∀ ns, run_semantic ix v query limit (Some f) = Some (Ok ns) → shown ns) ∧
  (∀ hits, weave_search_semantic ix v query limit (Some f) = Some (Ok hits) → shown (hit_node <$> hits)).
Proof.
  intros shown. split_and!.
  - unfold run_with_fallback, search_run. pose proof (search_answers ix (expand_query query) (bounded_limit limit) (Some f)).
    destruct (search_symbol_nodes _ _ _ _) as [[[|n hits]|e]|]; try done.
    by destruct (literal_answers (ix_db ix) (to_ascii_lowercase query) (bounded_limit limit) (Some f)) as [ns ->].
  - apply fused_answers.
  - unfold weave_search_semantic. pose proof (fused_answers ix v query (bounded_limit limit)
      (N.max (u64_mul_sat (bounded_limit limit) OVERSAMPLE) (bounded_limit limit)) (Some f)). by destruct (fused_search _ _ _ _ _ _).
  - intros ns fb. unfold run_with_fallback. destruct (search_run ix query limit (Some f)) as [[[|n hits]|e]|] eqn:Hr; [|intros [= <- _]|done..].
    + destruct (search_nodes_literal _ _ _ _) as [[l|e]|] eqn:Hl; [|done..]. cbn. intros [= <- _].
      apply literal_hits in Hl as [? Hl]. split; [done|]. intros n [? Hv]%Hl. eauto.
    + apply fts_hits in Hr as [? Hl]. split; [done|]. intros m [? Hv]%Hl. eauto.
  - intros ns [? Hl]%fused_search_hits. split; [done|]. intros n [? Hv]%Hl. eauto.
  - intros hits. unfold weave_search_semantic. destruct (fused_search _ _ _ _ _ _) as [[ns|e]|] eqn:Hs; [|done..]. cbn. intros [= <-].
    apply fused_search_hits in Hs as [? Hl]. rewrite <-list_fmap_compose, list_fmap_id. split; [done|]. intros n [? Hv]%Hl. eauto.
Qed.

(** ** Exhaustive search *)

Lemma shrink_spec filtered max_tokens shown :
  ∃ k, k ≤ shown ∧ find_all_shrink filtered max_tokens shown = find_all_text (take k filtered) (length filtered) ∧
    (k = 0 ∨ under_budget (find_all_text (take k filtered) (length filtered)) max_tokens = true) ∧
    ∀ j, k < j → j ≤ shown → under_budget (find_all_text (take j filtered) (length filtered)) max_tokens = false.
Proof.
  induction shown as [|shown (k & Hk & Heq & Hfit & Hmax)]; cbn [find_all_shrink]; [exists 0; split_and!; [lia|done|by left|intros; lia]|].
  destruct (under_budget (find_all_text (take (S shown) filtered) (length filtered)) max_tokens) eqn:Hb.
  - exists (S shown). split_and!; [lia|done|by right|intros; lia].
  - exists k. split_and!; [lia|done|done|]. intros j Hj Hle. destruct (decide (j = S shown)) as [->|]; [done|]. apply Hmax; lia.
Qed.

(** The exhaustive search is exhaustive.  For a query FTS5 accepts the count
    is that of all matching symbols that pass the path, kind and language
    filters, in order of path and line; the text shows the longest prefix of
    them within the limit that fits the token budget, and says how many are left
    out. *)
Theorem find_all_exact `{CharTables} `{SqliteLaws} `{Fts5Laws} ix args
    (Hvalid : fts_valid (expand_query (fa_pattern args)) = true) :
  let res := weave_find_all ix args None in
  ∃ found k, total_matches res = length found ∧ StronglySorted (λ a b, by_path_line a b = true) found ∧
    (∀ n, n ∈ found ↔ find_all_keeps args n = true ∧ ∃ i r, fts_rows ix !! i = Some r ∧
       fts_matches (expand_query (fa_pattern args)) r = true ∧ nodes (ix_db ix) !! i = Some n) ∧
    k ≤ max (fa_limit args) 1 ∧ fa_text res = find_all_text (take k found) (length found) ∧
    (k = 0 ∨ under_budget (fa_text res) (fa_max_tokens args) = true) ∧
    ∀ j, k < j → j ≤ min (length found) (max (fa_limit args) 1) →
      under_budget (find_all_text (take j found) (length found)) (fa_max_tokens args) = false.
Proof.
  intros res. unfold res, weave_find_all, find_all_symbols, search_nodes_exhaustive.
  destruct (fts_ranked_spec ix _ Hvalid) as (all & -> & Hall). cbn [result_bind fa_text total_matches].
  set (found := filter _ _). destruct (shrink_spec found (fa_max_tokens args) (min (length found) (max (fa_limit args) 1))) as (k & Hk & -> & Hfit & Hmax).
  exists found, k. split_and!; [done| | |lia|done|done|done].
  - apply StronglySorted_filter, sort_by_sorted_key; intros *; unfold by_path_line.
    + apply (ordb_total (leb := pair_leb String.leb N.leb)).
    + apply (ordb_trans (leb := pair_leb String.leb N.leb)).
  - intros n. unfold found. by rewrite list_elem_of_filter, elem_of_sort_by, Hall.
Qed.

(** ** Examples *)

#[local] Existing Instance match_all.
#[local] Existing Instance match_all_laws.
#[local] Existing Instance ascii_tables.
#[local] Existing Instance sign_vec.
#[local] Existing Instance sign_vec_laws.

Lemma search_shows_visible_witness :
  let f n := bool_decide (node_path n = "src/b.rs") in
  let v := (rebuild_vector_index (λ _, None) [] (ix_db indexed_pair) (mkVectors ∅ None)).1 in
  ∃ ns, run_semantic indexed_pair v "server" 5 (Some f) = Some (Ok ns) ∧ (node_symbol <$> ns) = ["HTTPServer"] ∧ ∀ n, n ∈ ns → f n = true.
Proof.
  intros f v. destruct (search_shows_visible indexed_pair v "server" 5 f) as (_ & _ & Hsem & _).
  assert (∃ ns, run_semantic indexed_pair v "server" 5 (Some f) = Some (Ok ns) ∧ (node_symbol <$> ns) = ["HTTPServer"]) as (ns & Hns & Hsym).
  { eexists. split; vm_compute; reflexivity. }
  exists ns. split_and!; [exact Hns|exact Hsym|]. intros n Hn. exact (proj2 (proj2 (Hsem ns Hns) n Hn)).
Defined.

Lemma find_all_exact_witness :
  let args := mkFindAll "server" None (Some "Rust") (Some "fn") 1 None in
  ∃ found k, length found = 2 ∧ k ≤ 1 ∧ fa_text (weave_find_all indexed_pair args None) = find_all_text (take k found) 2 ∧
  fa_text (weave_find_all indexed_pair args None) =
    "src/a.rs:1-1 parseJsonValue (fn)" +:+ newline +:+ "... and 1 more (raise `limit`/`max_tokens` to see them)".
Proof.
  intros args. destruct (find_all_exact indexed_pair args (eq_refl : @fts_valid match_all _ = true)) as (found & k & Htotal & _ & _ & Hk & Htext & _).
  assert (length found = 2) as Hlen by (rewrite <-Htotal; vm_compute; reflexivity). rewrite Hlen in Htext.
  exists found, k. split_and!; [exact Hlen|exact Hk|exact Htext|vm_compute; reflexivity].
Defined.

(** Hidden bodies can be probed: over two stores that differ only in the body of
    a symbol the caller may not see, the exhaustive search answers differently,
    with the hidden marker where the body matches and without it elsewhere. *)
#[local] Instance match_body : Fts5 := {| fts_valid := λ _, true; fts_matches := λ e r, str_contains e (fts_body r) && negb (is_empty (fts_body r)); bm25_order := λ _ _ l, l |}.
Definition probed (body : string) : Index := upsert_text indexed_pair 1 body "".
Theorem find_all_reveals_hidden :
  let g := mkGuard (mkIdentity "guest" [] []) (λ _, false) in
  let args := JObject [("pattern", JString "sesame")] in
  (∀ n, visible g n = false) ∧
  mask_node g <$> rows (nodes (ix_db (probed "sesame"))) = mask_node g <$> rows (nodes (ix_db (probed "other"))) ∧
  call_find_all (probed "other") args (Some g) = tool_ok "no matches" ∧
  call_find_all (probed "sesame") args (Some g) ≠ tool_ok "no matches".
Proof. split_and!; [done|done|vm_compute; reflexivity|vm_compute; discriminate]. Qed.
