(* ===== verification/Provenance.v ===== *)
(** * Provenance of snapshots and doc links (provenance.rs of the hub and of the core)

    The message a snapshot signature covers, the HMAC and Ed25519 verifiers and
    their selection, the signature [weave sync push] computes from a key file,
    and the reference providers.  SHA-256 and Ed25519 are parameters. *)

From S2P Require Import Prelude Str Model Auth Spool Json Registry RegistryProofs RegistryPull.

(** ** Bytes *)

Fixpoint be_bytes (k : nat) (n : N) : string :=
  match k with 0 => "" | S k => be_bytes k (n / 256) +:+ String (ascii_of_N (n `mod` 256)) "" end.
Fixpoint le_bytes (k : nat) (n : N) : string :=
  match k with 0 => "" | S k => String (ascii_of_N (n `mod` 256)) (le_bytes k (n / 256)) end.
Fixpoint str_zip (f : N → N → N) (a b : string) : string :=
  match a, b with
  | String x a, String y b => String (ascii_of_N (f (byte x) (byte y))) (str_zip f a b)
  | _, _ => ""
  end.
Fixpoint str_repeat (n : nat) (c : ascii) : string := match n with 0 => "" | S n => String c (str_repeat n c) end.

(** ** The signed message *)

Definition signed_field (field : string) : string := be_bytes 8 (N.of_nat (String.length field)) +:+ field.

(** src/crates/weave-graph-hub/src/provenance.rs:82-90 [snapshot_message] *)
Definition snapshot_message (repo_id commit_sha payload : string) : string :=
  "weave-graph:snapshot:v1" +:+ signed_field repo_id +:+ signed_field commit_sha +:+ signed_field payload.

(** src/crates/weave-graph-hub/src/provenance.rs:12-23 [ProvenanceError] *)
Inductive ProvenanceError :=
| Tampered (repo_id commit_sha : string)
| WeakKey
| InvalidEd25519KeyLength (n : nat)
| InvalidEd25519SignatureLength (n : nat)
| UnknownProvider (s : string).

(** src/crates/weave-graph-hub/src/provenance.rs:29-39 [SnapshotProvenanceVerifier] *)
Record SnapshotVerifier := mkVerifier {
  sign_snapshot : string → string → string → list N;
  verify_snapshot : string → string → string → list N → result () ProvenanceError;
}.

(** src/crates/weave-graph-hub/src/provenance.rs:205-208 [ProvenanceProviderKind] *)
Inductive ProviderKind := Hmac | Ed25519.
(** src/crates/weave-graph-hub/src/provenance.rs:213-219 [from_str] *)
Definition parse_provider (s : string) : result ProviderKind ProvenanceError :=
  if decide (s = "hmac") then Ok Hmac else if decide (s = "ed25519") then Ok Ed25519 else Err (UnknownProvider s).

(** SHA-256, and Ed25519 under the key pair of a seed. *)
Class Primitives := {
  sha256 : string → string;
  ed_sign : string → string → string;
  ed_verify : string → string → string → bool;
}.
Class PrimitivesLaws `{Primitives} : Prop := {
  sha256_length m : String.length (sha256 m) = 32;
  ed_sign_length k m : String.length (ed_sign k m) = 64;
  ed_verify_sign k m : ed_verify k m (ed_sign k m) = true;
}.

Section verifiers.
Context `{Primitives}.

(** src/crates/weave-graph-hub/src/provenance.rs:93-100 [hmac_sha256]
    The key, hashed when it is longer than a block, padded with zeros. *)
Definition normalized_key (key : string) : string :=
  let k := if 64 <? String.length key then sha256 key else key in k +:+ str_repeat (64 - String.length k) "000".

(** src/crates/weave-graph-hub/src/provenance.rs:101-117 [hmac_sha256]
    What the inner and the outer digest are taken of. *)
Definition inner_text (key message : string) : string := str_zip N.lxor (str_repeat 64 "6") (normalized_key key) +:+ message.
Definition outer_text (key message : string) : string :=
  str_zip N.lxor (str_repeat 64 "\") (normalized_key key) +:+ sha256 (inner_text key message).
(** src/crates/weave-graph-hub/src/provenance.rs:92-119 [hmac_sha256] *)
Definition hmac_sha256 (key message : string) : string := sha256 (outer_text key message).

(** src/crates/weave-graph-hub/src/provenance.rs:121-143 [HmacSnapshotProvenanceVerifier] *)
Definition hmac_verifier (key : string) : SnapshotVerifier :=
  let sign repo_id commit_sha payload := as_bytes (hmac_sha256 key (snapshot_message repo_id commit_sha payload)) in
  mkVerifier sign (λ repo_id commit_sha payload signature,
    if constant_time_eq (sign repo_id commit_sha payload) signature then Ok () else Err (Tampered repo_id commit_sha)).

(** A signature's bytes as a string. *)
Definition of_bytes (l : list N) : string := String.string_of_list_ascii (ascii_of_N <$> l).

(** src/crates/weave-graph-hub/src/provenance.rs:171-198 [Ed25519SnapshotProvenanceVerifier] *)
Definition ed25519_verifier (seed : string) : SnapshotVerifier :=
  mkVerifier (λ repo_id commit_sha payload, as_bytes (ed_sign seed (snapshot_message repo_id commit_sha payload)))
    (λ repo_id commit_sha payload signature,
      if negb (length signature =? 64) then Err (InvalidEd25519SignatureLength (length signature))
      else if ed_verify seed (snapshot_message repo_id commit_sha payload) (of_bytes signature) then Ok ()
      else Err (Tampered repo_id commit_sha)).

(** src/crates/weave-graph-hub/src/provenance.rs:225-235 [build_verifier]
    With the checks of the two constructors. *)
Definition build_verifier (kind : ProviderKind) (key : string) : result SnapshotVerifier ProvenanceError :=
  match kind with
  | Hmac => if String.length key <? 32 then Err WeakKey else Ok (hmac_verifier key)
  | Ed25519 => if negb (String.length key =? 32) then Err (InvalidEd25519KeyLength (String.length key)) else Ok (ed25519_verifier key)
  end.

(** What the registry keeps of a verifier. *)
Definition registry_verifier (v : SnapshotVerifier) : verifier_fn :=
  λ repo_id commit_sha payload signature, match verify_snapshot v repo_id commit_sha payload signature with Ok _ => true | Err _ => false end.

Definition provenance_error_text (e : ProvenanceError) : string :=
  match e with
  | Tampered r c => "snapshot signature does not match for " +:+ r +:+ "@" +:+ c
  | WeakKey => "snapshot HMAC secret must contain at least 32 bytes"
  | InvalidEd25519KeyLength n => "ed25519 key must be exactly 32 bytes, got " +:+ dec (N.of_nat n)
  | InvalidEd25519SignatureLength n => "ed25519 signature must be exactly 64 bytes, got " +:+ dec (N.of_nat n)
  | UnknownProvider s => "unknown provenance provider " +:+ quoted s +:+ " — expected " +:+ quoted "hmac" +:+ " or " +:+ quoted "ed25519"
  end.

(** src/crates/weave-graph-cli/src/sync.rs:201-231 [push_signature]
    [key_file] is the flag with what reading the file gives, [snapshot] the
    bytes of the snapshot file. *)
Definition push_signature (label commit_sha : string) (snapshot : result string string) (supplied : option string)
    (key_file : option (result string string)) (provider : string) : result (option string) string :=
  match supplied, key_file with
  | Some _, Some _ => Err "use either --signature or --provenance-key-file, not both"
  | _, None => Ok supplied
  | None, Some key =>
      let lift {A} (r : result A ProvenanceError) : result A string := match r with Ok a => Ok a | Err e => Err (provenance_error_text e) end in
      let? kind := lift (parse_provider provider) in
      let? key := key in
      let? v := lift (build_verifier kind key) in
      let? payload := snapshot in
      Ok (Some (encode_hex (sign_snapshot v label commit_sha payload)))
  end.
End verifiers.

(** ** The reference providers *)

(** src/crates/weave-graph-core/src/provenance.rs:70-77 [fnv1a] *)
Definition fnv_step (hash : N) (a : ascii) : N := ((N.lxor hash (byte a) * 1099511628211) `mod` 18446744073709551616)%N.
Definition fnv1a_seed (bytes : string) (seed : N) : N :=
  foldl fnv_step (N.lxor seed 14695981039346656037) (String.list_ascii_of_string bytes).

Fixpoint hex_fixed (k : nat) (n : N) : string :=
  match k with 0 => "" | S k => hex_fixed k (n / 16) +:+ String (hex_char (n `mod` 16)) "" end.

(** src/crates/weave-graph-core/src/provenance.rs:16-21 [Provenance] *)
Record Provenance := mkProvenance { pv_doc_id : N; pv_commit_hash : string; pv_merkle_root : string; pv_signature : string }.

(** src/crates/weave-graph-core/src/provenance.rs:81-86 [merkle_root] *)
Definition merkle_root (doc_id : N) (commit_hash : string) : string :=
  hex_fixed 16 (fnv1a_seed (dec doc_id +:+ String "000" commit_hash) 0).
(** src/crates/weave-graph-core/src/provenance.rs:88-90 [sign] *)
Definition fnv_sign (root : string) (key : N) : string := hex_fixed 16 (fnv1a_seed root key).

(** src/crates/weave-graph-core/src/provenance.rs:93-101 [MockProvenanceProvider::attach] *)
Definition attach (key doc_id : N) (commit_hash : string) : Provenance :=
  let root := merkle_root doc_id commit_hash in mkProvenance doc_id commit_hash root (fnv_sign root key).

(** src/crates/weave-graph-core/src/provenance.rs:24-30 [VerifyResult] *)
Inductive VerifyResult := Verified | RecordTampered (reason : string).

(** src/crates/weave-graph-core/src/provenance.rs:103-117 [MockProvenanceProvider::verify] *)
Definition verify_record (key : N) (p : Provenance) : VerifyResult :=
  if negb (bool_decide (pv_merkle_root p = merkle_root (pv_doc_id p) (pv_commit_hash p)))
  then RecordTampered "merkle_root does not match (doc_id, commit_hash)"
  else if negb (bool_decide (pv_signature p = fnv_sign (pv_merkle_root p) key))
  then RecordTampered "signature does not verify under this provider"
  else Verified.

(** src/crates/weave-graph-hub/src/provenance.rs:248-256 [merkle_root] *)
Definition snapshot_root (repo_id commit_sha payload : string) : N :=
  fnv1a_seed payload (fnv1a_seed (repo_id +:+ String "000" (commit_sha +:+ String "000" "")) 0).

(** src/crates/weave-graph-hub/src/provenance.rs:258-281 [MockSnapshotProvenanceVerifier] *)
Definition mock_verifier (key : N) : SnapshotVerifier :=
  let sign repo_id commit_sha payload := as_bytes (le_bytes 8 (fnv1a_seed (le_bytes 8 (snapshot_root repo_id commit_sha payload)) key)) in
  mkVerifier sign (λ repo_id commit_sha payload signature,
    if bool_decide (sign repo_id commit_sha payload = signature) then Ok () else Err (Tampered repo_id commit_sha)).

(** ** The message is unambiguous *)

Lemma length_be_bytes k n : String.length (be_bytes k n) = k.
Proof. revert n. induction k as [|k IH]; intros n; cbn; [done|]. rewrite length_append, IH. cbn. lia. Qed.

Lemma ascii_of_N_inj a b : (a < 256)%N → (b < 256)%N → ascii_of_N a = ascii_of_N b → a = b.
Proof. intros Ha Hb Heq. rewrite <-(N_ascii_embedding a), <-(N_ascii_embedding b) by done. by rewrite Heq. Qed.

Lemma be_bytes_inj k n m : (n < 256 ^ N.of_nat k)%N → (m < 256 ^ N.of_nat k)%N → be_bytes k n = be_bytes k m → n = m.
Proof.
  revert n m. induction k as [|k IH]; intros n m Hn Hm; cbn [be_bytes]; [cbn in *; lia|].
  rewrite Nat2N.inj_succ, N.pow_succ_r' in Hn, Hm. intros Heq.
  apply append_inv_len in Heq as [Hdiv Hmod]; [|by rewrite !length_be_bytes]. injection Hmod as Hmod.
  apply ascii_of_N_inj in Hmod; [|apply N.mod_lt; lia..]. apply IH in Hdiv; [|apply N.Div0.div_lt_upper_bound; lia..].
  rewrite (N.div_mod n 256), (N.div_mod m 256) by lia. by rewrite Hdiv, Hmod.
Qed.

Definition fits_u64 (s : string) : Prop := (N.of_nat (String.length s) < 18446744073709551616)%N.

Lemma signed_field_inj a b x y : fits_u64 a → fits_u64 b → signed_field a +:+ x = signed_field b +:+ y → a = b ∧ x = y.
Proof.
  intros Ha Hb. unfold signed_field. rewrite !append_assoc. intros Heq. apply append_inv_len in Heq as [Hlen Hrest]; [|by rewrite !length_be_bytes].
  apply be_bytes_inj in Hlen; [|exact Ha|exact Hb]. apply append_inv_len in Hrest as [-> ->]; [done|]. by apply Nat2N.inj.
Qed.

Lemma snapshot_message_inj r s p r' s' p' : fits_u64 r → fits_u64 s → fits_u64 p → fits_u64 r' → fits_u64 s' → fits_u64 p' →
  snapshot_message r s p = snapshot_message r' s' p' → r = r' ∧ s = s' ∧ p = p'.
Proof.
  intros ? ? ? ? ? ? Heq%append_inv_head. apply signed_field_inj in Heq as [-> Heq]; [|done..]. apply signed_field_inj in Heq as [-> Heq]; [|done..].
  rewrite <-(append_nil_r (signed_field p)), <-(append_nil_r (signed_field p')) in Heq. by apply signed_field_inj in Heq as [-> _].
Qed.

Section sound.
Context `{PrimitivesLaws}.

Definition collide (x y : string) : Prop := x ≠ y ∧ sha256 x = sha256 y.
(** The digests of one of the two HMACs' own texts collide. *)
Definition hmac_collision (key m m' : string) : Prop :=
  collide (inner_text key m) (inner_text key m') ∨ collide (outer_text key m) (outer_text key m').

Lemma hmac_inj key m m' : hmac_sha256 key m = hmac_sha256 key m' → m = m' ∨ hmac_collision key m m'.
Proof.
  intros Heq. destruct (decide (sha256 (inner_text key m) = sha256 (inner_text key m'))) as [Hi|Hi].
  - destruct (decide (m = m')) as [|Hne]; [by left|]. right. left. split; [|done]. by intros ?%append_inv_head.
  - right. right. split; [|done]. by intros ?%append_inv_head.
Qed.

Lemma as_bytes_lt s : Forall (λ b, (b < 256)%N) (as_bytes s).
Proof. unfold as_bytes. apply Forall_fmap, Forall_forall. intros a _. apply N_ascii_bounded. Qed.

Lemma length_as_bytes s : length (as_bytes s) = String.length s.
Proof. unfold as_bytes. rewrite length_fmap. induction s as [|a s IH]; [done|]. cbn. by rewrite IH. Qed.

Lemma of_as_bytes s : of_bytes (as_bytes s) = s.
Proof.
  unfold of_bytes, as_bytes. rewrite <-list_fmap_compose. rewrite (list_fmap_ext _ id); [|intros i a _; apply ascii_N_embedding].
  rewrite list_fmap_id. apply String.string_of_list_ascii_of_string.
Qed.

Lemma verifier_accepts kind key v repo sha payload : build_verifier kind key = Ok v →
  Forall (λ b, (b < 256)%N) (sign_snapshot v repo sha payload) ∧ registry_verifier v repo sha payload (sign_snapshot v repo sha payload) = true.
Proof.
  destruct kind; cbn [build_verifier]; destruct (_ : bool); try done; intros [= <-]; cbn; (split; [apply as_bytes_lt|]); unfold registry_verifier; cbn.
  - rewrite (proj2 (constant_time_eq_true _ _)); done.
  - by rewrite length_as_bytes, ed_sign_length, of_as_bytes, ed_verify_sign.
Qed.

Lemma hmac_accepts key r s p sig :
  registry_verifier (hmac_verifier key) r s p sig = true ↔ as_bytes (hmac_sha256 key (snapshot_message r s p)) = sig.
Proof.
  rewrite <-constant_time_eq_true. unfold registry_verifier, hmac_verifier. cbn [verify_snapshot].
  by destruct (constant_time_eq _ sig).
Qed.

Lemma hmac_binds key v r s p r' s' p' sig : build_verifier Hmac key = Ok v →
  fits_u64 r → fits_u64 s → fits_u64 p → fits_u64 r' → fits_u64 s' → fits_u64 p' →
  registry_verifier v r s p sig = true → registry_verifier v r' s' p' sig = true →
  (r = r' ∧ s = s' ∧ p = p') ∨ hmac_collision key (snapshot_message r s p) (snapshot_message r' s' p').
Proof.
  cbn [build_verifier]. destruct (_ <? 32); [done|]. intros [= <-] ? ? ? ? ? ? Hs%hmac_accepts Hs'%hmac_accepts. rewrite <-Hs' in Hs.
  apply as_bytes_inj, hmac_inj in Hs as [Hs|]; [|by right]. left. by apply snapshot_message_inj.
Qed.
End sound.

(** C30: A snapshot signature verifies where it should and only there.  What
    [weave sync push] signs with a key file, a registry that holds the same key
    under the same provider decodes and accepts for that repository, commit and
    payload; and a signature that an HMAC registry accepts for two snapshots is
    for one and the same repository, commit and payload, unless SHA-256 collides
    on the very texts the two HMACs digest. *)
Theorem snapshot_signature_sound `{PrimitivesLaws} kind key v repo sha payload
    (Hkey : build_verifier kind key = Ok v) :
  (∃ s bytes, push_signature repo sha (Ok payload) None (Some (Ok key)) (match kind with Hmac => "hmac" | Ed25519 => "ed25519" end) = Ok (Some s) ∧
     decode_hex s = Some (Some bytes) ∧ registry_verifier v repo sha payload bytes = true) ∧
  ∀ repo' sha' payload' sig, kind = Hmac →
    Forall fits_u64 [repo; sha; payload; repo'; sha'; payload'] →
    registry_verifier v repo sha payload sig = true → registry_verifier v repo' sha' payload' sig = true →
    (repo = repo' ∧ sha = sha' ∧ payload = payload') ∨
    hmac_collision key (snapshot_message repo sha payload) (snapshot_message repo' sha' payload').
Proof.
  split.
  - destruct (verifier_accepts kind key v repo sha payload Hkey) as [Hb Hv]. exists (encode_hex (sign_snapshot v repo sha payload)), (sign_snapshot v repo sha payload).
    split_and!; [|by apply decode_encode|done]. unfold push_signature. destruct kind; cbn [parse_provider result_bind]; unfold parse_provider.
    + cbn [result_bind]. rewrite decide_True by done. cbn [result_bind]. by rewrite Hkey.
    + rewrite decide_False, decide_True by done. cbn [result_bind]. by rewrite Hkey.
  - intros repo' sha' payload' sig -> Hfit ? ?. rewrite !Forall_cons in Hfit. destruct Hfit as (? & ? & ? & ? & ? & ? & _).
    by eapply hmac_binds.
Qed.

(** ** The reference provider's keys *)

Lemma fnv_step_inj a h h' : (h < 2 ^ 64)%N → (h' < 2 ^ 64)%N → fnv_step h a = fnv_step h' a → h = h'.
Proof.
  intros Hh Hh' Heq. unfold fnv_step in Heq. change 18446744073709551616%N with (2 ^ 64)%N in Heq.
  assert (∀ x, (x < 2 ^ 64)%N → (N.lxor x (byte a) < 2 ^ 64)%N) as Hx.
  { intros x Hlt. destruct (decide (N.lxor x (byte a) = 0%N)) as [->|Hne]; [lia|]. apply N.log2_lt_pow2; [lia|].
    eapply N.le_lt_trans; [apply N.log2_lxor|]. assert (byte a < 2 ^ 8)%N by apply N_ascii_bounded.
    apply N.max_lub_lt; [destruct (decide (x = 0%N)) as [->|]; [cbn; lia|apply N.log2_lt_pow2; lia]|].
    destruct (decide (byte a = 0%N)) as [->|]; [cbn; lia|]. assert (N.log2 (byte a) < 8)%N by (apply N.log2_lt_pow2; lia). lia. }
  assert (N.lxor h (byte a) = N.lxor h' (byte a)) as Hxor.
  { assert (∀ x, ((x * 1099511628211) `mod` 2 ^ 64 * 14886173955864302971) `mod` 2 ^ 64 = x `mod` 2 ^ 64)%N as Hinv.
    { intros x. rewrite N.Div0.mul_mod_idemp_l, <-N.mul_assoc, <-(N.Div0.mul_mod_idemp_r x).
      change ((1099511628211 * 14886173955864302971) `mod` 2 ^ 64)%N with 1%N. by rewrite N.mul_1_r. }
    rewrite <-(N.mod_small (N.lxor h (byte a)) (2 ^ 64)), <-(N.mod_small (N.lxor h' (byte a)) (2 ^ 64)) by auto.
    rewrite <-(Hinv (N.lxor h (byte a))), <-(Hinv (N.lxor h' (byte a))). by rewrite Heq. }
  rewrite <-(N.lxor_0_r h), <-(N.lxor_nilpotent (byte a)), <-N.lxor_assoc, Hxor, N.lxor_assoc, N.lxor_nilpotent, N.lxor_0_r. done.
Qed.

Lemma fnv_step_lt h a : (fnv_step h a < 2 ^ 64)%N.
Proof. unfold fnv_step. by apply N.mod_lt. Qed.

Lemma fnv1a_seed_inj bytes k k' : (k < 2 ^ 64)%N → (k' < 2 ^ 64)%N → fnv1a_seed bytes k = fnv1a_seed bytes k' → k = k'.
Proof.
  intros Hk Hk'. unfold fnv1a_seed. set (off := 14695981039346656037%N).
  assert (∀ l h h', (h < 2 ^ 64)%N → (h' < 2 ^ 64)%N → foldl fnv_step h l = foldl fnv_step h' l → h = h') as Hfold.
  { induction l as [|a l IH]; intros h h' Hh Hh'; cbn [foldl]; [done|]. intros Heq%IH; [|apply fnv_step_lt..]. by apply fnv_step_inj in Heq. }
  assert (∀ x, (x < 2 ^ 64)%N → (N.lxor x off < 2 ^ 64)%N) as Hx.
  { intros x Hlt. destruct (decide (N.lxor x off = 0%N)) as [->|Hne]; [lia|]. apply N.log2_lt_pow2; [lia|].
    eapply N.le_lt_trans; [apply N.log2_lxor|]. apply N.max_lub_lt; [|by vm_compute].
    destruct (decide (x = 0%N)) as [->|]; [cbn; lia|apply N.log2_lt_pow2; lia]. }
  intros Heq%Hfold; [|by apply Hx..].
  rewrite <-(N.lxor_0_r k), <-(N.lxor_nilpotent off), <-N.lxor_assoc, Heq, N.lxor_assoc, N.lxor_nilpotent, N.lxor_0_r. done.
Qed.

Lemma hex_char_inj a b : (a < 16)%N → (b < 16)%N → hex_char a = hex_char b → a = b.
Proof. intros Ha Hb Heq. destruct (hex_char_spec a Ha) as (E1 & _), (hex_char_spec b Hb) as (E2 & _). rewrite Heq, E2 in E1. by injection E1. Qed.

Lemma hex_fixed_inj k n m : (n < 16 ^ N.of_nat k)%N → (m < 16 ^ N.of_nat k)%N → hex_fixed k n = hex_fixed k m → n = m.
Proof.
  assert (∀ k n, String.length (hex_fixed k n) = k) as Hlen.
  { clear. induction k as [|k IH]; intros n; cbn; [done|]. rewrite length_append, IH. cbn. lia. }
  revert n m. induction k as [|k IH]; intros n m Hn Hm; cbn [hex_fixed]; [cbn in *; lia|].
  rewrite Nat2N.inj_succ, N.pow_succ_r' in Hn, Hm. intros Heq.
  apply append_inv_len in Heq as [Hdiv Hmod]; [|by rewrite !Hlen]. injection Hmod as Hmod.
  apply hex_char_inj in Hmod; [|apply N.mod_lt; lia..]. apply IH in Hdiv; [|apply N.Div0.div_lt_upper_bound; lia..].
  rewrite (N.div_mod n 16), (N.div_mod m 16) by lia. by rewrite Hdiv, Hmod.
Qed.

Lemma fnv1a_seed_lt bytes k : (k < 2 ^ 64)%N → (fnv1a_seed bytes k < 2 ^ 64)%N.
Proof.
  intros Hk. unfold fnv1a_seed. assert (∀ l h, (h < 2 ^ 64)%N → (foldl fnv_step h l < 2 ^ 64)%N) as Hfold.
  { induction l as [|a l IH]; intros h Hh; cbn [foldl]; [done|]. apply IH, fnv_step_lt. }
  apply Hfold. destruct (decide (N.lxor k 14695981039346656037 = 0%N)) as [->|Hne]; [lia|]. apply N.log2_lt_pow2; [lia|].
  eapply N.le_lt_trans; [apply N.log2_lxor|]. apply N.max_lub_lt; [|by vm_compute].
  destruct (decide (k = 0%N)) as [->|]; [cbn; lia|apply N.log2_lt_pow2; lia].
Qed.

(** A record verifies under the provider that made it and under no other key. *)
Theorem mock_provenance_exact key key' doc_id commit_hash (Hk : (key < 2 ^ 64)%N) (Hk' : (key' < 2 ^ 64)%N) :
  verify_record key' (attach key doc_id commit_hash) = Verified ↔ key = key'.
Proof.
  unfold verify_record, attach. cbn [pv_merkle_root pv_doc_id pv_commit_hash pv_signature]. rewrite bool_decide_eq_true_2 by done. cbn [negb].
  case_bool_decide as Hs; cbn [negb]; split; try done.
  - intros _. apply hex_fixed_inj in Hs; [by apply fnv1a_seed_inj in Hs|by apply fnv1a_seed_lt..].
  - by intros ->.
Qed.

(** ** Examples *)

#[local] Instance toy_primitives : Primitives := {|
  sha256 m := str_repeat 32 (ascii_of_N (N.of_nat (String.length m) `mod` 256));
  ed_sign k m := str_repeat 64 (ascii_of_N (N.of_nat (String.length (k +:+ m)) `mod` 256));
  ed_verify k m s := bool_decide (s = str_repeat 64 (ascii_of_N (N.of_nat (String.length (k +:+ m)) `mod` 256)));
|}.
#[local] Instance toy_primitives_laws : PrimitivesLaws.
Proof. split; [done|done|]. intros k m. cbn. by rewrite bool_decide_eq_true_2. Qed.

Lemma snapshot_signature_sound_witness :
  let key := str_repeat 32 "k" in
  ∃ s bytes, push_signature "app" "abc" (Ok "graph") None (Some (Ok key)) "hmac" = Ok (Some s) ∧ decode_hex s = Some (Some bytes) ∧
    registry_verifier (hmac_verifier key) "app" "abc" "graph" bytes = true ∧
    (registry_verifier (hmac_verifier key) "app" "abc" "grape" bytes = true →
       hmac_collision key (snapshot_message "app" "abc" "graph") (snapshot_message "app" "abc" "grape")).
Proof.
  intros key. destruct (snapshot_signature_sound Hmac key (hmac_verifier key) "app" "abc" "graph" eq_refl) as ((s & bytes & Hs & Hd & Hv) & Hbind).
  exists s, bytes. split_and!; [exact Hs|exact Hd|exact Hv|]. intros Hv'.
  destruct (Hbind "app" "abc" "grape" bytes eq_refl) as [(_ & _ & Heq)|Hc]; [|exact Hv|exact Hv'|discriminate Heq|exact Hc].
  repeat constructor; vm_compute; reflexivity.
Defined.

Lemma mock_provenance_exact_witness : verify_record 8 (attach 7 3 "abc") ≠ Verified ∧ verify_record 7 (attach 7 3 "abc") = Verified.
Proof.
  split.
  - intros Heq. assert (7 = 8)%N as Hbad by (apply (mock_provenance_exact 7 8 3 "abc"); [vm_compute; reflexivity..|exact Heq]). discriminate Hbad.
  - apply (mock_provenance_exact 7 7 3 "abc"); vm_compute; reflexivity.
Defined.
