(* ===== verification/Sync.v ===== *)
(** * Publishing and hydrating snapshots (sync.rs)

    [weave sync push] and [weave sync pull] over the hub client: the snapshot
    file and what is purged from it, the bounded retries, the rule that only the
    default branch publishes, and the staged replacement of the index.  git, the
    hub's answers and the SQLite file format are parameters. *)

From S2P Require Import Prelude Str Bitmap Model Csr Paths CsrGraph SqlStore SqlProofs Spool Json Config Http Hub Fts Vector Registry Provenance.

(** ** The database files *)

(** A database: the graph with its full-text table, and the vectors. *)
Record Store := mkStore { st_index : Index; st_vectors : Vectors }.

(** The SQLite file format: the file of a database, and what opening reads. *)
Class DbFile := { file_bytes : Store → string; file_open : string → option Store }.
Class DbFileLaws `{DbFile} : Prop := { open_bytes s : file_open (file_bytes s) = Some s; bytes_nonempty s : file_bytes s ≠ "" }.

(** The files of the data directory. *)
Notation Files := (gmap string string).
Definition DB : string := "graph.db".
Definition REBUILD : string := "graph.db.rebuild".
Definition PUSH_TMP : string := "graph.db.push-tmp".
Definition PUSH_SANITIZED : string := "graph.db.push-sanitized".

Section files.
Context `{CharTables} `{Sqlite} `{DbFile}.

(** Opening ensures the full-text table. *)
Definition ensured (s : Store) : Store := mkStore (ensure_fts_table (st_index s)) (st_vectors s).
Definition fresh_store : Store := ensured (mkStore (mkIndex empty_db None) (mkVectors ∅ None)).

(** src/crates/weave-graph-store-sqlite/src/backend.rs:49-63 [SqliteStorage::open]
    A file that is not there is created; the tables are ensured.  The schema is
    the current one (the migrations are in Migrate.v). *)
Definition open_store (fs : Files) (path : string) : Files * result Store string :=
  match fs !! path with
  | None => (<[path := file_bytes fresh_store]> fs, Ok fresh_store)
  | Some c =>
      match file_open c with
      | None => (fs, Err "file is not a database")
      | Some s => (<[path := file_bytes (ensured s)]> fs, Ok (ensured s))
      end
  end.

(** src/crates/weave-graph-store-sqlite/src/backend.rs:132-137 [SqliteStorage::export_read_only_snapshot]
    [VACUUM INTO] refuses a file that has contents. *)
Definition export_snapshot (fs : Files) (s : Store) (dest : string) : Files * result () string :=
  match fs !! dest with
  | Some (String _ _) => (fs, Err "output file already exists")
  | _ => (<[dest := file_bytes s]> fs, Ok ())
  end.

(** src/crates/weave-graph-cli/src/sync.rs:80-84 [remove_snapshot] *)
Definition remove_snapshot (fs : Files) (path : string) : Files := delete (path +:+ "-shm") (delete (path +:+ "-wal") (delete path fs)).

(** src/crates/weave-graph-cli/src/sync.rs:101-114 [snapshot_for_push]
    The copy without the vectors of the excluded paths. *)
Definition sanitize (fs : Files) (excluded : list string) : Files * result string string :=
  let fs := remove_snapshot fs PUSH_SANITIZED in
  match open_store fs PUSH_TMP with
  | (fs, Err e) => (fs, Err e)
  | (fs, Ok s) =>
      let s := mkStore (st_index s) (purge_excluded_paths (ix_db (st_index s)) excluded (st_vectors s)).1 in
      let fs := <[PUSH_TMP := file_bytes s]> fs in
      match export_snapshot fs s PUSH_SANITIZED with
      | (fs, Err e) => (fs, Err e)
      | (fs, Ok _) => (remove_snapshot fs PUSH_TMP, Ok PUSH_SANITIZED)
      end
  end.

(** src/crates/weave-graph-cli/src/sync.rs:86-120 [snapshot_for_push] *)
Definition snapshot_for_push (fs : Files) (excluded : list string) : Files * result string string :=
  let fs := remove_snapshot fs PUSH_TMP in
  match open_store fs DB with
  | (fs, Err e) => (fs, Err e)
  | (fs, Ok s) =>
      match export_snapshot fs s PUSH_TMP with
      | (fs, Err e) => (fs, Err e)
      | (fs, Ok _) => match excluded with [] => (fs, Ok PUSH_TMP) | _ => sanitize fs excluded end
      end
  end.
End files.

(** ** Retries *)

(** src/crates/weave-graph-cli/src/sync.rs:348-348 [MAX_PUSH_ATTEMPTS] *)
Definition MAX_PUSH_ATTEMPTS : nat := 5.
(** src/crates/weave-graph-cli/src/sync.rs:352-352 [MAX_CONFLICT_RETRIES] *)
Definition MAX_CONFLICT_RETRIES : nat := 3.

Definition hub_error_text (e : HubError) : string :=
  match e with
  | UnsupportedScheme u => "hub url must be http:// (TLS termination is delegated to a reverse proxy — deploy `weave-registry` behind nginx/Envoy and point this client at the proxy's http:// listener): " +:+ u
  | InvalidUrl u => "invalid hub url: " +:+ u
  | HubIo => "hub I/O error"
  | MalformedResponse m => "hub returned a malformed response: " +:+ m
  end.

Section push.
Context {W : Type}.
(** One publish of the snapshot with a base commit; [None] when the client does
    not come to an end. *)
Context (push : W → option string → option (W * result PushOutcome HubError)).

(** src/crates/weave-graph-cli/src/sync.rs:372-392 [push_with_backoff]
    [rounds] are left, [attempt] are spent; the waits in seconds, jitter aside. *)
Fixpoint backoff_loop (rounds attempt : nat) (w : W) (base : option string) : option (W * list N * result PushOutcome string) :=
  match rounds with
  | 0 => Some (w, [], Err "push retry loop ended without a result")
  | S rounds =>
      match push w base with
      | None => None
      | Some (w, Err e) => Some (w, [], Err (hub_error_text e))
      | Some (w, Ok (PushRateLimited after)) =>
          if rounds =? 0 then Some (w, [], Ok (PushRateLimited after)) else
          (λ '(w, waits, r), (w, u64_mul_sat (default 1%N after) (2 ^ N.of_nat attempt) :: waits, r)) <$> backoff_loop rounds (S attempt) w base
      | Some (w, Ok o) => Some (w, [], Ok o)
      end
  end.

(** src/crates/weave-graph-cli/src/sync.rs:364-393 [push_with_backoff] *)
Definition push_with_backoff (w : W) (base : option string) : option (W * list N * result PushOutcome string) :=
  backoff_loop MAX_PUSH_ATTEMPTS 0 w base.

(** src/crates/weave-graph-cli/src/sync.rs:293-311 [cmd_sync_push]
    Republishing without a base while the hub answers with a conflict. *)
Fixpoint republish (rounds : nat) (w : W) (outcome : PushOutcome) : option (W * result PushOutcome string) :=
  match rounds with
  | 0 => Some (w, Ok outcome)
  | S rounds =>
      match push_with_backoff w None with
      | None => None
      | Some (w, _, Err e) => Some (w, Err e)
      | Some (w, _, Ok PushConflict) => republish rounds w PushConflict
      | Some (w, _, Ok o) => Some (w, Ok o)
      end
  end.

(** src/crates/weave-graph-cli/src/sync.rs:275-338 [cmd_sync_push]
    The line of a success, or the error. *)
Definition publish (w : W) (target : string) (base : option string) : option (W * result string string) :=
  match push_with_backoff w base with
  | None => None
  | Some (w, _, Err e) => Some (w, Err e)
  | Some (w, _, Ok (PushPublished | PushAccepted)) => Some (w, Ok ("Published snapshot for " +:+ target +:+ "."))
  | Some (w, _, Ok PushConflict) =>
      match republish MAX_CONFLICT_RETRIES w PushConflict with
      | None => None
      | Some (w, Err e) => Some (w, Err e)
      | Some (w, Ok (PushPublished | PushAccepted)) => Some (w, Ok ("Hub head had moved; republished full snapshot for " +:+ target +:+ "."))
      | Some (w, Ok PushConflict) => Some (w, Err ("Hub still refuses the snapshot after " +:+ dec (N.of_nat MAX_CONFLICT_RETRIES) +:+ " republish attempts"))
      | Some (w, Ok (PushRateLimited _)) => Some (w, Err "Hub rate-limited the publish during conflict republish")
      end
  | Some (w, _, Ok (PushRateLimited after)) =>
      Some (w, Err ("Hub rate-limited the publish; still limited after " +:+ dec (N.of_nat MAX_PUSH_ATTEMPTS) +:+ " attempts with exponential backoff (last wait: " +:+
        match after with Some s => dec s +:+ "s" | None => "an unspecified interval" end +:+ ")"))
  end.
End push.

(** ** The commands *)

(** What the commands see of the repository. *)
Record sync_env := mkSyncEnv {
  sy_config : option string;
  sy_label : string;
  sy_branch : option string;
  sy_head : option string;
  sy_merge_base : result string string;
  sy_last_indexed : option string;
}.

(** The flags of a push: a signature, a key file with its contents, the provider. *)
Record push_args := mkPushArgs { pa_signature : option string; pa_key_file : option (result string string); pa_provider : string }.

Section commands.
Context `{CharTables} `{Sqlite} `{DbFile} `{TomlFormat} `{Primitives}.
Context {W : Type} (request : HubClient → W → string → string → list (string * string) → string → W * result (N * string * string) HubError).

(** src/crates/weave-graph-cli/src/sync.rs:22-30 [hub_url] *)
Definition hub_url (config : option string) : result string string :=
  match get_key config "hub.url" with
  | Some u => if is_empty u then Err "No hub configured: set [hub] url in .weave/config.toml. Leaving it unset is a fully supported permanent state — sync is opt-in." else Ok u
  | None => Err "No hub configured: set [hub] url in .weave/config.toml. Leaving it unset is a fully supported permanent state — sync is opt-in."
  end.
(** src/crates/weave-graph-cli/src/sync.rs:35-37 [hub_token] *)
Definition hub_token (config : option string) : option string :=
  match get_key config "hub.token" with Some t => if is_empty t then None else Some t | None => None end.
(** src/crates/weave-graph-cli/src/sync.rs:39-45 [hub_client] *)
Definition hub_client (env : sync_env) : result HubClient string :=
  let? url := hub_url (sy_config env) in
  match parse_url url with
  | Err e => Err (hub_error_text e)
  | Ok u => Ok (mkClient u (sy_label env) (hub_token (sy_config env)))
  end.
(** src/crates/weave-graph-cli/src/sync.rs:55-62 [retention] *)
Definition retention (config : option string) : N := default 20%N (get_key config "hub.snapshot_retention" ≫= parse_uint u64_MAX).

(** src/crates/weave-graph-cli/src/sync.rs:242-257 [cmd_sync_push] *)
Definition may_publish (branch : option string) : result () string :=
  match branch with
  | Some b =>
      if bool_decide (b = "main" ∨ b = "master") then Ok ()
      else Err ("Refusing to publish from branch '" +:+ b +:+ "' — the hub accepts publishes only on the default branch (merge-only publish).")
  | None => Err "Not on a git branch (detached HEAD or not a repo) — refusing to publish."
  end.

(** src/crates/weave-graph-cli/src/sync.rs:242-261 [cmd_sync_push] *)
Definition push_start (env : sync_env) : result (HubClient * string) string :=
  let? _ := may_publish (sy_branch env) in
  let? client := hub_client env in
  match sy_head env with
  | Some target => Ok (client, target)
  | None => Err "Cannot determine HEAD commit — refusing to publish without a commit sha"
  end.

(** src/crates/weave-graph-cli/src/sync.rs:236-339 [cmd_sync_push]
    [fuel] bounds the upload loop of one publish.  The snapshot file is removed
    however the command ends once it is written. *)
Definition cmd_sync_push (fuel : nat) (env : sync_env) (args : push_args) (w : W) (fs : Files) : option (W * Files * result string string) :=
  match push_start env with
  | Err e => Some (w, fs, Err e)
  | Ok (client, target) =>
      match snapshot_for_push fs (read_vector_exclude (sy_config env)) with
      | (fs, Err e) => Some (w, fs, Err e)
      | (fs, Ok snapshot) =>
          let payload := default "" (fs !! snapshot) in
          match push_signature (sy_label env) target (Ok payload) (pa_signature args) (pa_key_file args) (pa_provider args) with
          | Err e => Some (w, remove_snapshot fs snapshot, Err e)
          | Ok signature =>
              (λ p : W * result string string, (p.1, remove_snapshot fs snapshot, p.2)) <$>
              publish (λ w base, client_push (request client) client fuel w target base (retention (sy_config env)) signature payload)
                w target (trim <$> sy_last_indexed env)
          end
      end
  end.

(** src/crates/weave-graph-cli/src/sync.rs:190-199 [report_signature] *)
Definition report_signature (signature : option string) : string :=
  match signature with
  | Some sig => "Snapshot signature on record: " +:+ sig +:+ " (not verified — `weave` ships no provenance verifier; wire one via `weave_graph_hub::SnapshotProvenanceVerifier` if your deployment needs to check it)."
  | None => "Snapshot has no recorded signature."
  end.

(** src/crates/weave-graph-cli/src/sync.rs:165-177 [cmd_sync_pull]
    The bytes are staged, opened when they are a database, and renamed over the
    index. *)
Definition hydrate (fs : Files) (bytes : string) : Files :=
  let fs := (open_store (<[REBUILD := bytes]> fs) REBUILD).1 in
  <[DB := default "" (fs !! REBUILD)]> (delete REBUILD fs).

(** src/crates/weave-graph-cli/src/sync.rs:126-185 [cmd_sync_pull]
    The lines printed. *)
Definition cmd_sync_pull (env : sync_env) (commit : option string) (fallback_latest : bool) (w : W) (fs : Files) :
    W * Files * result (list string) string :=
  match (let? client := hub_client env in let? sha := match commit with Some c => Ok c | None => sy_merge_base env end in Ok (client, sha)) with
  | Err e => (w, fs, Err e)
  | Ok (client, sha) =>
      let done bytes lines :=
        (hydrate fs bytes, Ok (lines ++ ["Hydrated snapshot for " +:+ sha +:+ " into graph.db (" +:+ dec (N.of_nat (String.length bytes)) +:+ " bytes). Run `weave index --incremental` to fast-forward to HEAD."])) in
      match client_pull (request client) client w sha with
      | (w, Err e) => (w, fs, Err (hub_error_text e))
      | (w, Ok (PullFound bytes signature)) => let '(fs, r) := done bytes [report_signature signature] in (w, fs, r)
      | (w, Ok PullNotFound) =>
          if fallback_latest then
            match client_pull (request client) client w "latest" with
            | (w, Err e) => (w, fs, Err (hub_error_text e))
            | (w, Ok (PullFound bytes signature)) =>
                let '(fs, r) := done bytes ["No snapshot for " +:+ sha +:+ "; hydrated latest instead."; report_signature signature] in (w, fs, r)
            | (w, Ok PullNotFound) => (w, fs, Ok ["No snapshot for " +:+ sha +:+ " and no latest snapshot on the hub."])
            end
          else (w, fs, Ok ["No snapshot for " +:+ sha +:+ " on the hub (use --fallback-latest to hydrate latest)."])
      end
  end.
End commands.

(** * Properties *)

Section sends.
Context {W : Type} (push : W → option string → option (W * result PushOutcome HubError)).

(** The publishes a run makes, each with its base and the hub's answer. *)
Inductive sends : W → list (option string * result PushOutcome HubError) → W → Prop :=
| sends_nil w : sends w [] w
| sends_cons w base w1 o outs w2 : push w base = Some (w1, o) → sends w1 outs w2 → sends w ((base, o) :: outs) w2.
Hint Constructors sends : core.

Lemma sends_app w1 a w2 b w3 : sends w1 a w2 → sends w2 b w3 → sends w1 (a ++ b) w3.
Proof. induction 1; cbn; eauto. Qed.

(** The hub took the snapshot. *)
Definition took (o : result PushOutcome HubError) : Prop := o = Ok PushPublished ∨ o = Ok PushAccepted.
#[local] Instance took_dec o : Decision (took o).
Proof. unfold took. destruct o as [[]|]; first [by left; auto | by right; intros []]. Defined.

Definition limited (base : option string) (after : option N) : option string * result PushOutcome HubError := (base, Ok (PushRateLimited after)).

(** One round of back-off: a run of rate-limited answers, waited out with doubled
    waits, and the answer that ends it. *)
Definition ends_with (rounds attempt : nat) (base : option string) (afters : list (option N)) (o : result PushOutcome HubError) (waits : list N)
    (r : result PushOutcome string) : Prop :=
  S (length afters) ≤ rounds ∧
  r = match o with Ok x => Ok x | Err e => Err (hub_error_text e) end ∧
  waits = imap (λ i after, u64_mul_sat (default 1%N after) (2 ^ N.of_nat (attempt + i))) afters ∧
  (∀ after, o = Ok (PushRateLimited after) → S (length afters) = rounds).

Lemma ends_now rounds attempt base o : (∀ after, o = Ok (PushRateLimited after) → rounds = 0) →
  ends_with (S rounds) attempt base [] o [] match o with Ok x => Ok x | Err e => Err (hub_error_text e) end.
Proof. intros Hr. split_and!; [cbn; lia|done|done|]. intros after Ho. by rewrite (Hr after Ho). Qed.

Lemma ends_later rounds attempt base after afters o waits r : ends_with rounds (S attempt) base afters o waits r →
  ends_with (S rounds) attempt base (after :: afters) o (u64_mul_sat (default 1%N after) (2 ^ N.of_nat attempt) :: waits) r.
Proof.
  intros (Hl & -> & -> & Hlim). split_and!; [cbn; lia|done| |intros a Ho; cbn; by rewrite (Hlim a Ho)].
  rewrite imap_cons, Nat.add_0_r. f_equal. apply imap_ext. intros i x _. cbn. by rewrite Nat.add_succ_r.
Qed.

Lemma backoff_sends rounds : ∀ attempt w base w' waits r, 0 < rounds → backoff_loop push rounds attempt w base = Some (w', waits, r) →
  ∃ afters o, sends w ((limited base <$> afters) ++ [(base, o)]) w' ∧ ends_with rounds attempt base afters o waits r.
Proof.
  induction rounds as [|rounds IH]; intros attempt w base w' waits r; [lia|]. intros _. cbn [backoff_loop].
  destruct (push w base) as [[w1 o]|] eqn:Hp; [|done].
  assert (sends w ([] ++ [(base, o)]) w1) as Hs by (cbn; eauto).
  assert ((∀ after, o = Ok (PushRateLimited after) → rounds = 0) →
    Some (w1, [], match o with Ok x => Ok x | Err e => Err (hub_error_text e) end) = Some (w', waits, r) →
    ∃ afters o, sends w ((limited base <$> afters) ++ [(base, o)]) w' ∧ ends_with (S rounds) attempt base afters o waits r) as Hend.
  { intros Hr [= <- <- <-]. exists [], o. auto using ends_now. }
  destruct o as [[| | |after]|e]; [by apply Hend..| |by apply Hend].
  destruct (Nat.eqb_spec rounds 0) as [->|Hne]; [by apply Hend|].
  destruct (backoff_loop push rounds (S attempt) w1 base) as [[[w2 ws] r2]|] eqn:Hb; [|done]. intros [= <- <- <-].
  destruct (IH _ _ _ _ _ _ ltac:(lia) Hb) as (afters & o' & Hss & He).
  exists (after :: afters), o'. split; [by eapply sends_cons|by apply ends_later].
Qed.

Lemma backoff_total rounds : ∀ attempt w base, (∀ w base, is_Some (push w base)) → is_Some (backoff_loop push rounds attempt w base).
Proof.
  induction rounds as [|rounds IH]; intros attempt w base Ht; [by eexists|]. cbn [backoff_loop].
  destruct (Ht w base) as [[w1 o] ->]. destruct o as [[| | |after]|e]; [by eexists..| |by eexists].
  destruct (rounds =? 0); [by eexists|]. destruct (IH (S attempt) w1 base Ht) as [x ->]. by eexists.
Qed.

Lemma push_with_backoff_sends w base w' waits r : push_with_backoff push w base = Some (w', waits, r) →
  ∃ afters o, sends w ((limited base <$> afters) ++ [(base, o)]) w' ∧ ends_with MAX_PUSH_ATTEMPTS 0 base afters o waits r.
Proof. apply backoff_sends. unfold MAX_PUSH_ATTEMPTS. lia. Qed.

(** A run of publishes of a phase: its bases, its length and its last answer. *)
Definition phase (base : option string) (bound : nat) (outs : list (option string * result PushOutcome HubError)) (o : result PushOutcome HubError) : Prop :=
  length outs ≤ bound ∧ Forall (λ p, p.1 = base) outs ∧ snd <$> last outs = Some o.

Lemma phase_ends base rounds attempt afters o waits r : ends_with rounds attempt base afters o waits r →
  phase base rounds ((limited base <$> afters) ++ [(base, o)]) o.
Proof.
  intros (Hl & _). split_and!; [rewrite length_app, length_fmap; cbn; lia| |by rewrite last_snoc].
  apply Forall_app; split; [|by constructor]. apply Forall_fmap, Forall_true. by intros.
Qed.

Lemma republish_sends rounds : ∀ w outcome w' r, republish push rounds w outcome = Some (w', r) →
  (rounds = 0 ∧ w' = w ∧ r = Ok outcome) ∨
  ∃ outs o, sends w outs w' ∧ phase None (rounds * MAX_PUSH_ATTEMPTS) outs o ∧ r = match o with Ok x => Ok x | Err e => Err (hub_error_text e) end.
Proof.
  induction rounds as [|rounds IH]; intros w outcome w' r; cbn [republish]; [intros [= <- <-]; auto|]. intros Heq. right. revert Heq.
  destruct (push_with_backoff push w None) as [[[w1 ws] r1]|] eqn:Hb; [|done].
  destruct (push_with_backoff_sends _ _ _ _ _ Hb) as (afters & o & Hs & He). pose proof (phase_ends _ _ _ _ _ _ _ He) as (Hl & Hn & Ho).
  destruct He as (_ & -> & _).
  assert (phase None (S rounds * MAX_PUSH_ATTEMPTS) ((limited None <$> afters) ++ [(None, o)]) o) as Hph by (split_and!; [lia|done|done]).
  destruct o as [[| | |after]|e]; [intros [= <- <-]; by eauto..| |intros [= <- <-]; by eauto|intros [= <- <-]; by eauto].
  intros [(-> & -> & ->)|(outs & o & Hs' & (Hl' & Hn' & Ho') & ->)]%IH; [by eauto|].
  eexists _, o. split_and!; [by eapply sends_app| |done]. split_and!.
  - rewrite length_app. lia.
  - by apply Forall_app.
  - rewrite last_app. by destruct (last outs).
Qed.

Lemma republish_total rounds : ∀ w outcome, (∀ w base, is_Some (push w base)) → is_Some (republish push rounds w outcome).
Proof.
  induction rounds as [|rounds IH]; intros w outcome Ht; [by eexists|]. cbn [republish].
  destruct (backoff_total MAX_PUSH_ATTEMPTS 0 w None Ht) as [[[w1 ws] r] Hb]. unfold push_with_backoff. rewrite Hb.
  destruct r as [[]|]; try by eexists. by apply IH.
Qed.

(** The publishes of a run: at most [MAX_PUSH_ATTEMPTS] of the recorded base and,
    after a conflict, at most three times as many without one; the run succeeds when
    the hub took the last of them. *)
Lemma publish_sends w target base w' r : publish push w target base = Some (w', r) →
  ∃ outs o again, sends w (outs ++ again) w' ∧ phase base MAX_PUSH_ATTEMPTS outs o ∧
    (again = [] ∨ o = Ok PushConflict) ∧ length again ≤ MAX_CONFLICT_RETRIES * MAX_PUSH_ATTEMPTS ∧ Forall (λ p, p.1 = None) again ∧
    (is_ok r = true ↔ ∃ p, last (outs ++ again) = Some p ∧ took p.2).
Proof.
  unfold publish. destruct (push_with_backoff push w base) as [[[w1 ws] r1]|] eqn:Hb; [|done].
  destruct (push_with_backoff_sends _ _ _ _ _ Hb) as (afters & o & Hs & He). pose proof (phase_ends _ _ _ _ _ _ _ He) as Hph.
  destruct He as (_ & -> & _).
  assert (∀ r0 : result string string, Some (w1, r0) = Some (w', r) → (is_ok r0 = true ↔ took o) →
    ∃ outs o again, sends w (outs ++ again) w' ∧ phase base MAX_PUSH_ATTEMPTS outs o ∧
    (again = [] ∨ o = Ok PushConflict) ∧ length again ≤ MAX_CONFLICT_RETRIES * MAX_PUSH_ATTEMPTS ∧ Forall (λ p, p.1 = None) again ∧
    (is_ok r = true ↔ ∃ p, last (outs ++ again) = Some p ∧ took p.2)) as Hend.
  { intros r0 [= <- <-] Ho. exists ((limited base <$> afters) ++ [(base, o)]), o, []. rewrite app_nil_r. split_and!; [done|done|by left|cbn; lia|done|].
    rewrite Ho, last_snoc. split; [intros; by eexists|]. by intros (p & [= <-] & ?). }
  unfold took in Hend. destruct o as [[| | |after]|e];
    [intros Heq; apply (Hend _ Heq); cbn; naive_solver..| |intros Heq; apply (Hend _ Heq); cbn; naive_solver|intros Heq; apply (Hend _ Heq); cbn; naive_solver].
  clear Hend. destruct (republish push MAX_CONFLICT_RETRIES w1 PushConflict) as [[w2 r2]|] eqn:Hr; [|done].
  apply republish_sends in Hr as [(? & _)|(outs & o & Hs' & (Hl & Hn & Ho) & ->)]; [done|]. intros Heq.
  exists ((limited base <$> afters) ++ [(base, Ok PushConflict)]), (Ok PushConflict), outs.
  assert (w2 = w' ∧ (is_ok r = true ↔ took o)) as [<- Hok].
  { unfold took. destruct o as [[]|]; injection Heq as <- <-; split; try done; cbn; naive_solver. }
  split_and!; [by eapply sends_app|done|by right|done|done|]. rewrite Hok, last_app.
  destruct (last outs) as [[b x]|]; [|done]. injection Ho as ->. split; [intros; by eexists|]. by intros (p & [= <-] & ?).
Qed.

Lemma publish_total w target base : (∀ w base, is_Some (push w base)) → is_Some (publish push w target base).
Proof.
  intros Ht. unfold publish. destruct (backoff_total MAX_PUSH_ATTEMPTS 0 w base Ht) as [[[w1 ws] r] Hb]. unfold push_with_backoff at 1. rewrite Hb.
  destruct r as [[]|]; try by eexists. destruct (republish_total MAX_CONFLICT_RETRIES w1 PushConflict Ht) as [[w2 r2] ->].
  destruct r2 as [[]|]; by eexists.
Qed.
End sends.

(** ** The files *)

(** Membership of a known name in a list of known names. *)
Ltac by_names := apply (bool_decide_unpack _); by vm_compute.

Section file_lemmas.
Context `{CharTables} `{Sqlite} `{DbFileLaws}.

Lemma ensured_idem s : ensured (ensured s) = ensured s.
Proof.
  destruct s as [[db [[sql t]|]] v]; unfold ensured, ensure_fts_table; cbn [ix_table ix_db st_index st_vectors]; f_equal.
  destruct (decide (sql = SYMBOL_FTS_DDL)) eqn:Hd; cbn [ix_table]; [by rewrite Hd|].
  unfold rebuild_fts, with_rows. cbn [ix_table fmap option_fmap option_map fst]. by rewrite decide_True.
Qed.

(** What opening a file gives; a missing file is a fresh database. *)
Definition opened (c : option string) : option Store :=
  match c with None => Some fresh_store | Some c => ensured <$> file_open c end.

Lemma open_store_eq fs path : open_store fs path =
  match opened (fs !! path) with Some s => (<[path := file_bytes s]> fs, Ok s) | None => (fs, Err "file is not a database") end.
Proof. unfold open_store, opened. destruct (fs !! path) as [c|]; [|done]. by destruct (file_open c). Qed.

Lemma opened_bytes s : opened (Some (file_bytes s)) = Some (ensured s).
Proof. unfold opened. by rewrite open_bytes. Qed.

Lemma opened_ensured c s : opened c = Some s → ensured s = s.
Proof.
  destruct c as [c|]; cbn; [|intros [= <-]; apply ensured_idem]. destruct (file_open c); [|done]. intros [= <-]. apply ensured_idem.
Qed.

(** What a push publishes of a database. *)
Definition published (excluded : list string) (s : Store) : Store :=
  mkStore (st_index s) (purge_excluded_paths (ix_db (st_index s)) excluded (st_vectors s)).1.

(** The files a push may leave and remove. *)
Definition beside (path : string) : list string := [path; path +:+ "-wal"; path +:+ "-shm"].
Definition scratch : list string := beside PUSH_TMP ++ beside PUSH_SANITIZED.

Lemma remove_snapshot_lookup fs p q : remove_snapshot fs p !! q = if decide (q ∈ beside p) then None else fs !! q.
Proof.
  unfold remove_snapshot, beside. case_decide as Hq.
  - set_unfold in Hq. rewrite !lookup_delete_None. naive_solver.
  - set_unfold in Hq. rewrite !lookup_delete_ne by naive_solver. done.
Qed.

(** The files a push with these exclusions writes for itself. *)
Definition push_files (excluded : list string) : list string := beside PUSH_TMP ++ match excluded with [] => [] | _ => beside PUSH_SANITIZED end.

Lemma push_files_DB excluded : DB ∉ push_files excluded.
Proof. destruct excluded; by_names. Qed.

Lemma export_fresh fs s dest : fs !! dest = None → export_snapshot fs s dest = (<[dest := file_bytes s]> fs, Ok ()).
Proof. intros Hd. unfold export_snapshot. by rewrite Hd. Qed.

Lemma sanitize_spec fs excluded s : fs !! PUSH_TMP = Some (file_bytes s) → ensured s = s →
  ∃ fs', sanitize fs excluded = (fs', Ok PUSH_SANITIZED) ∧ fs' !! PUSH_SANITIZED = Some (file_bytes (published excluded s)) ∧
    ∀ q, remove_snapshot fs' PUSH_SANITIZED !! q = if decide (q ∈ scratch) then None else fs !! q.
Proof.
  intros Hf He. unfold sanitize. rewrite open_store_eq, remove_snapshot_lookup, decide_False, Hf, opened_bytes, He by by_names.
  fold (published excluded s).
  rewrite export_fresh by (rewrite !lookup_insert_ne by done; by rewrite remove_snapshot_lookup, decide_True by by_names).
  eexists. split; [done|]. split.
  - by rewrite remove_snapshot_lookup, decide_False, lookup_insert_eq by by_names.
  - intros q. rewrite !remove_snapshot_lookup.
    assert (q ∈ scratch ↔ q ∈ beside PUSH_TMP ∨ q ∈ beside PUSH_SANITIZED) as Hsc by apply elem_of_app.
    destruct (decide (q ∈ beside PUSH_SANITIZED)) as [Hs|Hs]; [by rewrite (decide_True (P := q ∈ scratch)) by tauto|].
    destruct (decide (q ∈ beside PUSH_TMP)) as [Ht|Ht]; [by rewrite (decide_True (P := q ∈ scratch)) by tauto|].
    rewrite (decide_False (P := q ∈ scratch)) by tauto.
    assert (q ≠ PUSH_TMP ∧ q ≠ PUSH_SANITIZED) as [? ?] by (split; intros ->; [apply Ht|apply Hs]; by left).
    rewrite !lookup_insert_ne by done. by rewrite remove_snapshot_lookup, decide_False.
Qed.

Lemma snapshot_spec fs excluded s : opened (fs !! DB) = Some s →
  ∃ fs' p, snapshot_for_push fs excluded = (fs', Ok p) ∧ fs' !! p = Some (file_bytes (published excluded s)) ∧
    ∀ q, remove_snapshot fs' p !! q = if decide (q ∈ push_files excluded) then None else if decide (q = DB) then Some (file_bytes s) else fs !! q.
Proof.
  intros Ho. unfold snapshot_for_push. rewrite open_store_eq, remove_snapshot_lookup, decide_False, Ho by by_names.
  rewrite export_fresh by (rewrite lookup_insert_ne by done; by rewrite remove_snapshot_lookup, decide_True by by_names).
  assert (∀ q, q ∉ beside PUSH_TMP → (<[PUSH_TMP := file_bytes s]> (<[DB := file_bytes s]> (remove_snapshot fs PUSH_TMP))) !! q =
    if decide (q = DB) then Some (file_bytes s) else fs !! q) as Hq.
  { intros q Hq. rewrite lookup_insert_ne by (intros <-; apply Hq; by left). case_decide as Hd; [subst; by rewrite lookup_insert_eq|].
    by rewrite lookup_insert_ne, remove_snapshot_lookup, decide_False by done. }
  destruct excluded as [|x excluded].
  - eexists _, _. split; [done|]. split; [by rewrite lookup_insert_eq; destruct s|]. intros q. unfold push_files. rewrite app_nil_r, remove_snapshot_lookup.
    case_decide; [done|by apply Hq].
  - destruct (sanitize_spec (<[PUSH_TMP := file_bytes s]> (<[DB := file_bytes s]> (remove_snapshot fs PUSH_TMP))) (x :: excluded) s)
      as (fs' & -> & Hp & Hl); [by rewrite lookup_insert_eq|by eapply opened_ensured|].
    eexists _, _. split; [done|]. split; [done|]. intros q. rewrite Hl. change (push_files (x :: excluded)) with scratch.
    case_decide as Hd; [done|]. apply Hq. intros Hin. apply Hd, elem_of_app. by left.
Qed.

Lemma snapshot_refused fs excluded : opened (fs !! DB) = None → snapshot_for_push fs excluded = (remove_snapshot fs PUSH_TMP, Err "file is not a database").
Proof.
  intros Ho. unfold snapshot_for_push. by rewrite open_store_eq, remove_snapshot_lookup, decide_False, Ho by by_names.
Qed.
End file_lemmas.

(** ** The commands *)

Section command_props.
Context `{CharTables} `{Sqlite} `{DbFileLaws} `{TomlFormat} `{Primitives}.
Context {W : Type} (request : HubClient → W → string → string → list (string * string) → string → W * result (N * string * string) HubError).

Lemma push_DB excluded (fs fs' : Files) p s : opened (fs !! DB) = Some s →
  (∀ q, remove_snapshot fs' p !! q = if decide (q ∈ push_files excluded) then None else if decide (q = DB) then Some (file_bytes s) else fs !! q) →
  opened (remove_snapshot fs' p !! DB) = opened (fs !! DB).
Proof.
  intros Ho Hl. rewrite Hl, decide_False, decide_True by auto using push_files_DB. rewrite opened_bytes, Ho. f_equal. by eapply opened_ensured.
Qed.

(** The snapshot of a run of [cmd_sync_push] that reached the hub, and the answers
    it got there. *)
Definition pushed (fuel : nat) (env : sync_env) (args : push_args) (fs : Files) (w w' : W) (fs' : Files) (r : result string string) : Prop :=
  let excluded := read_vector_exclude (sy_config env) in
  ∃ client target s sig outs o again, hub_client env = Ok client ∧ sy_head env = Some target ∧ opened (fs !! DB) = Some s ∧
    push_signature (sy_label env) target (Ok (file_bytes (published excluded s))) (pa_signature args) (pa_key_file args) (pa_provider args) = Ok sig ∧
    sends (λ w base, client_push (request client) client fuel w target base (retention (sy_config env)) sig (file_bytes (published excluded s))) w (outs ++ again) w' ∧
    phase (trim <$> sy_last_indexed env) MAX_PUSH_ATTEMPTS outs o ∧ (again = [] ∨ o = Ok PushConflict) ∧
    length again ≤ MAX_CONFLICT_RETRIES * MAX_PUSH_ATTEMPTS ∧ Forall (λ p, p.1 = None) again ∧
    (is_ok r = true ↔ ∃ p, last (outs ++ again) = Some p ∧ took p.2) ∧
    (∀ q, q ∈ push_files excluded → fs' !! q = None).

Lemma published_excludes excluded s id row n :
  vec_chunks (st_vectors (published excluded s)) !! id = Some row → nodes (ix_db (st_index s)) !! id = Some n → is_excluded excluded n = false.
Proof.
  intros [_ Hp]%purge_lookup Hn. apply not_true_iff_false. unfold is_excluded. rewrite existsb_exists.
  intros (p & Hin%list_elem_of_In & Hex). specialize (Hp p Hin). by rewrite (excluded_purged _ p id n Hn Hex) in Hp.
Qed.

Lemma push_start_ok env client target : push_start env = Ok (client, target) →
  may_publish (sy_branch env) = Ok () ∧ hub_client env = Ok client ∧ sy_head env = Some target.
Proof.
  unfold push_start. destruct (may_publish _) as [[]|]; [|done]. cbn [result_bind]. destruct (hub_client env); [|done]. cbn [result_bind].
  destruct (sy_head env); [|done]. by intros [= <- <-].
Qed.

Lemma push_files_scratch excluded q : q ∉ scratch → q ∉ push_files excluded.
Proof. unfold scratch, push_files. rewrite !not_elem_of_app. destruct excluded; [|done]. intros [? _]. split; [done|apply not_elem_of_nil]. Qed.

(** A run past its guards, on an index that opens. *)
Lemma push_run fuel env args (w w' : W) (fs fs' : Files) r client target s : hub_client env = Ok client → sy_head env = Some target → opened (fs !! DB) = Some s →
  match snapshot_for_push fs (read_vector_exclude (sy_config env)) with
  | (fs, Err e) => Some (w, fs, Err e)
  | (fs, Ok snapshot) =>
      match push_signature (sy_label env) target (Ok (default "" (fs !! snapshot))) (pa_signature args) (pa_key_file args) (pa_provider args) with
      | Err e => Some (w, remove_snapshot fs snapshot, Err e)
      | Ok signature =>
          (λ p : W * result string string, (p.1, remove_snapshot fs snapshot, p.2)) <$>
          publish (λ w base, client_push (request client) client fuel w target base (retention (sy_config env)) signature (default "" (fs !! snapshot)))
            w target (trim <$> sy_last_indexed env)
      end
  end = Some (w', fs', r) →
  (∀ q, q ∉ scratch → q ≠ DB → fs' !! q = fs !! q) ∧ opened (fs' !! DB) = Some s ∧ ((w' = w ∧ is_ok r = false) ∨ pushed fuel env args fs w w' fs' r).
Proof.
  intros Hc Hh Ho. destruct (snapshot_spec fs (read_vector_exclude (sy_config env)) s Ho) as (fs1 & p & -> & Hp & Hl). rewrite Hp. cbn [default from_option id].
  assert (∀ q, q ∉ scratch → q ≠ DB → remove_snapshot fs1 p !! q = fs !! q) as Hsame
    by (intros q Hq Hd; by rewrite Hl, !decide_False by auto using push_files_scratch).
  assert (opened (remove_snapshot fs1 p !! DB) = Some s) as HDB by (rewrite <- Ho; by eapply push_DB).
  destruct (push_signature _ _ _ _ _ _) as [sig|e] eqn:Hsig; [|intros [= <- <- <-]; auto].
  intros ([w2 r2] & Hpub & Heq)%fmap_Some. cbn in Heq; simplify_eq. split_and!; [done|done|right].
  apply publish_sends in Hpub as (outs & o & again & Hs & Hph & Hc' & Hlen & Hn & Hok).
  exists client, target, s, sig, outs, o, again. split_and!; try done. intros q Hq. by rewrite Hl, decide_True.
Qed.

(** C31: [weave sync push] publishes from the default branch only, a bounded number
    of times, and what it publishes is the opened index without the vectors of the
    excluded paths.  From any other branch (or none) nothing is sent and no file
    changes.  A run leaves the index as opening it gives, and every file outside
    its own temporary names untouched.  Either it ends in an error before the hub
    is contacted, or every request carries the same payload, a database file that
    opens to the index with no vector of an excluded path; at most five publishes
    name the recorded base, at most fifteen more follow after a conflict and name
    none; it succeeds exactly when the hub took the last one; and its temporary
    files are gone.  It ends whenever each publish does. *)
Theorem sync_push_exact fuel env args w fs :
  (may_publish (sy_branch env) ≠ Ok () → ∃ e, cmd_sync_push request fuel env args w fs = Some (w, fs, Err e)) ∧
  (∀ w' fs' r, cmd_sync_push request fuel env args w fs = Some (w', fs', r) →
    (∀ q, q ∉ scratch → q ≠ DB → fs' !! q = fs !! q) ∧ opened (fs' !! DB) = opened (fs !! DB) ∧
    ((w' = w ∧ is_ok r = false) ∨ pushed fuel env args fs w w' fs' r)) ∧
  (∀ excluded s, file_open (file_bytes (published excluded s)) = Some (published excluded s) ∧ st_index (published excluded s) = st_index s ∧
    ∀ id row n, vec_chunks (st_vectors (published excluded s)) !! id = Some row → nodes (ix_db (st_index s)) !! id = Some n → is_excluded excluded n = false) ∧
  ((∀ client w target base ret sig payload, is_Some (client_push (request client) client fuel w target base ret sig payload)) →
    is_Some (cmd_sync_push request fuel env args w fs)).
Proof.
  split_and!; [| |intros; split_and!; eauto using open_bytes, published_excludes|]; unfold cmd_sync_push.
  - intros Hb. destruct (push_start env) as [[client target]|e] eqn:Hst; [|by eexists]. by apply push_start_ok in Hst as [? _].
  - intros w' fs' r. destruct (push_start env) as [[client target]|e] eqn:Hst; [|intros [= <- <- <-]; auto].
    apply push_start_ok in Hst as (_ & Hc & Hh). destruct (opened (fs !! DB)) as [s|] eqn:Ho.
    + by apply push_run.
    + rewrite snapshot_refused by done. intros [= <- <- <-].
      split_and!; [intros q Hq _|by rewrite remove_snapshot_lookup, decide_False by by_names|auto].
      rewrite remove_snapshot_lookup, decide_False; [done|]. intros Hin. apply Hq, elem_of_app. by left.
  - intros Ht. destruct (push_start env) as [[client target]|e]; [|by eexists].
    destruct (snapshot_for_push _ _) as [fs1 [p|e]]; [|by eexists]. destruct (push_signature _ _ _ _ _ _) as [sig|]; [|by eexists].
    apply fmap_is_Some, publish_total. intros. apply Ht.
Qed.

Lemma hydrate_eq (fs : Files) bytes :
  hydrate fs bytes = <[DB := match opened (Some bytes) with Some s => file_bytes s | None => bytes end]> (delete REBUILD fs).
Proof.
  unfold hydrate. rewrite open_store_eq, lookup_insert_eq. destruct (opened (Some bytes)) as [s|]; cbn [fst].
  - by rewrite lookup_insert_eq, insert_insert_eq, delete_insert_eq.
  - by rewrite lookup_insert_eq, delete_insert_eq.
Qed.

(** The snapshot a pull finds: of the first of the names the hub has one for. *)
Fixpoint first_found (client : HubClient) (w : W) (names : list string) : option string :=
  match names with
  | [] => None
  | name :: names =>
      match client_pull (request client) client w name with
      | (_, Ok (PullFound bytes _)) => Some bytes
      | (w, Ok PullNotFound) => first_found client w names
      | (_, Err _) => None
      end
  end.
Definition pull_names (env : sync_env) (commit : option string) (fallback_latest : bool) : list string :=
  match (match commit with Some c => Ok c | None => sy_merge_base env end) with
  | Ok sha => sha :: (if fallback_latest then ["latest"] else [])
  | Err _ => []
  end.
Definition pulled (env : sync_env) (commit : option string) (fallback_latest : bool) (w : W) : option string :=
  match hub_client env with Ok client => first_found client w (pull_names env commit fallback_latest) | Err _ => None end.

(** [weave sync pull] replaces the index by the snapshot of the requested
    commit (or of the merge base), by the hub's latest one when there is none and
    the fallback is asked for, and touches nothing otherwise.  With a snapshot
    found, the command succeeds, the staging file is gone, every other file is as
    it was, and a snapshot that [weave sync push] published opens to exactly the
    database it was made of; bytes that are no database become the index as they
    are. *)
Theorem sync_pull_exact env commit fallback_latest w (fs : Files) w' (fs' : Files) r
    (Hrun : cmd_sync_pull request env commit fallback_latest w fs = (w', fs', r)) :
  match pulled env commit fallback_latest w with
  | None => fs' = fs
  | Some bytes =>
      is_ok r = true ∧ fs' !! REBUILD = None ∧ (∀ q, q ≠ DB → q ≠ REBUILD → fs' !! q = fs !! q) ∧
      (∀ excluded s c, opened c = Some s → bytes = file_bytes (published excluded s) →
         opened (fs' !! DB) = Some (published excluded s) ∧ file_open (default "" (fs' !! DB)) = Some (published excluded s)) ∧
      (file_open bytes = None → fs' !! DB = Some bytes)
  end.
Proof.
  assert (∀ bytes, fs' = hydrate fs bytes → is_ok r = true →
    is_ok r = true ∧ fs' !! REBUILD = None ∧ (∀ q, q ≠ DB → q ≠ REBUILD → fs' !! q = fs !! q) ∧
      (∀ excluded s c, opened c = Some s → bytes = file_bytes (published excluded s) →
         opened (fs' !! DB) = Some (published excluded s) ∧ file_open (default "" (fs' !! DB)) = Some (published excluded s)) ∧
      (file_open bytes = None → fs' !! DB = Some bytes)) as Hfound.
  { intros bytes -> Hr. rewrite hydrate_eq. split_and!; [done|by rewrite lookup_insert_ne, lookup_delete_eq by done| | |].
    - intros q Hd Hq. by rewrite lookup_insert_ne, lookup_delete_ne by done.
    - intros excluded s c Ho ->. rewrite lookup_insert_eq. apply opened_ensured in Ho as He.
      assert (ensured (published excluded s) = published excluded s) as Hp by (unfold ensured, published; cbn; f_equal; by apply (f_equal st_index) in He).
      rewrite opened_bytes, Hp, opened_bytes, Hp. cbn [default from_option id]. by rewrite open_bytes.
    - intros Ho. rewrite lookup_insert_eq. unfold opened. by rewrite Ho. }
  revert Hrun. unfold cmd_sync_pull, pulled, pull_names. destruct (hub_client env) as [client|e]; cbn [result_bind]; [|by intros [= _ <- _]].
  destruct (match commit with Some c => Ok c | None => sy_merge_base env end) as [sha|e]; cbn [result_bind first_found]; [|by intros [= _ <- _]].
  destruct (client_pull (request client) client w sha) as [w1 [[bytes sig|]|e]]; [intros [= _ <- <-]; by apply Hfound| |by intros [= _ <- _]].
  destruct fallback_latest; cbn [first_found]; [|by intros [= _ <- _]].
  destruct (client_pull (request client) client w1 "latest") as [w2 [[bytes sig|]|e]]; [intros [= _ <- <-]; by apply Hfound|by intros [= _ <- _]..].
Qed.
End command_props.

(** ** Examples *)

(** A file format: the encoding of the database's tables as a number, in binary. *)
Module Coded.
#[local] Instance Node_countable : Countable Node.
Proof.
  refine (inj_countable' (λ n, (node_id n, node_repo_id n, node_path n, node_symbol n, node_kind n, node_line_start n, node_line_end n, node_signature n))
    (λ '(a, b, c, d, e, f, g, h), mkNode a b c d e f g h) _). by intros [].
Defined.
#[local] Instance Edge_countable : Countable Edge.
Proof.
  refine (inj_countable' (λ e, (edge_id e, source_id e, target_id e, edge_kind e, weight e, extractor e, resolution_kind e))
    (λ '(a, b, c, d, e, f, g), mkEdge a b c d e f g) _). by intros [].
Defined.
#[local] Instance note_row_eq : EqDecision note_row.
Proof. solve_decision. Defined.
#[local] Instance note_row_countable : Countable note_row.
Proof.
  refine (inj_countable' (λ n, (nr_target n, nr_moniker n, nr_kind n, nr_tier n, nr_author n, nr_content n, nr_hash n, nr_stale n, nr_expires_at n, nr_created_at n))
    (λ '(a, b, c, d, e, f, g, h, i, j), mkNoteRow a b c d e f g h i j) _). by intros [].
Defined.
#[local] Instance span_eq : EqDecision TraceSpan.
Proof. solve_decision. Defined.
#[local] Instance span_countable : Countable TraceSpan.
Proof.
  refine (inj_countable' (λ s, (trace_id s, span_id s, parent_span_id s, service s, span_name s, span_symbol s, span_path s, start_us s, duration_us s, status_code s))
    (λ '(a, b, c, d, e, f, g, h, i, j), mkSpan a b c d e f g h i j) _). by intros [].
Defined.
#[local] Instance doc_link_eq : EqDecision doc_link.
Proof. solve_decision. Defined.
#[local] Instance doc_link_countable : Countable doc_link.
Proof.
  refine (inj_countable' (λ d, (dl_doc_id d, dl_section d, dl_target d, dl_kind d, dl_commit d, dl_hash d, dl_signature d))
    (λ '(a, b, c, d, e, f, g), mkDocLink a b c d e f g) _). by intros [].
Defined.
#[local] Instance contract_countable : Countable contract_row.
Proof.
  refine (inj_countable' (λ c, (service_a c, service_b c, contract_hash c, source_commit_sha c, entries_blob c)) (λ '(a, b, c, d, e), mkContract a b c d e) _). by intros [].
Defined.
#[local] Instance unresolved_countable : Countable unresolved_row.
Proof. refine (inj_countable' (λ u, (ur_repo_id u, ur_path u, ur_short_name u)) (λ '(a, b, c), mkUnresolved a b c) _). by intros []. Defined.
#[local] Instance Db_eq : EqDecision Db.
Proof. solve_decision. Defined.
#[local] Instance Db_countable : Countable Db.
Proof.
  refine (inj_countable' (λ d, (nodes d, edges d, notes d, trace_spans d, doc_links d, contracts d, unresolved_refs d)) (λ '(a, b, c, d, e, f, g), mkDb a b c d e f g) _).
  by intros [].
Defined.
#[local] Instance fts_row_eq : EqDecision FtsRow.
Proof. solve_decision. Defined.
#[local] Instance fts_row_countable : Countable FtsRow.
Proof. refine (inj_countable' (λ r, (fts_symbol_name r, fts_signature r, fts_body r, fts_doc_comment r)) (λ '(a, b, c, d), mkFtsRow a b c d) _). by intros []. Defined.
#[local] Instance vec_row_eq : EqDecision VecRow.
Proof. solve_decision. Defined.
#[local] Instance vec_row_countable : Countable VecRow.
Proof. refine (inj_countable' (λ r, (binary_vec r, int8_vec r)) (λ '(a, b), mkVecRow a b) _). by intros []. Defined.
#[local] Instance store_eq : EqDecision Store.
Proof. assert (EqDecision Index) by solve_decision. assert (EqDecision Vectors) by solve_decision. solve_decision. Defined.
#[local] Instance store_countable : Countable Store.
Proof.
  refine (inj_countable' (λ s, (ix_db (st_index s), ix_table (st_index s), vec_chunks (st_vectors s), vec_model (st_vectors s)))
    (λ '(a, b, c, d), mkStore (mkIndex a b) (mkVectors c d)) _). by intros [[] []].
Defined.

#[export] Instance coded_file : DbFile := {|
  file_bytes s := String "#" (pos_bits (encode s));
  file_open c := match c with String "#" s => decode (bits_pos s) | _ => None end;
|}.
#[export] Instance coded_file_laws : DbFileLaws.
Proof. split; [|done]. intros s. cbn [file_open file_bytes coded_file]. by rewrite bits_pos_bits, decode_encode. Qed.
End Coded.

Import Coded.
#[local] Instance plain_tables : CharTables := {| uni_upper := λ _, false; uni_lower := λ _, false; uni_alnum := λ _, true |}.
#[local] Instance no_primitives : Primitives := {| sha256 _ := ""; ed_sign _ _ := ""; ed_verify _ _ _ := false |}.

(** A hub that counts the requests and answers each with a status and a body. *)
Definition fixed_hub (status : N) (body : string) (_ : HubClient) (w : nat) (_ _ : string) (_ : list (string * string)) (_ : string) :
    nat * result (N * string * string) HubError := (S w, Ok (status, "", body)).

Definition hub_config : string := default "" (toml_print [("hub", TTable [("url", TString "http://hub:7070")])]).
Definition on_branch (branch : string) : sync_env := mkSyncEnv (Some hub_config) "app" (Some branch) (Some "c0ffee") (Ok "c0ffee") (Some "c0ffee").
Definition unsigned : push_args := mkPushArgs None None "hmac".

Lemma sync_push_exact_witness :
  (∃ e, cmd_sync_push (fixed_hub 200 "") 3 (on_branch "feature") unsigned 0 ∅ = Some (0, ∅, Err e)) ∧
  match cmd_sync_push (fixed_hub 409 "") 3 (on_branch "main") unsigned 0 ∅ with
  | Some (w, fs, r) => w = 8 ∧ is_ok r = false ∧ opened (fs !! DB) = opened None ∧ pushed (fixed_hub 409 "") 3 (on_branch "main") unsigned ∅ 0 w fs r
  | None => False
  end.
Proof.
  split.
  - apply (sync_push_exact (fixed_hub 200 "") 3 (on_branch "feature") unsigned 0 ∅). vm_compute. discriminate.
  - destruct (sync_push_exact (fixed_hub 409 "") 3 (on_branch "main") unsigned 0 ∅) as (_ & Hrun & _).
    destruct (cmd_sync_push (fixed_hub 409 "") 3 (on_branch "main") unsigned 0 ∅) as [[[w fs] r]|] eqn:He; [|vm_compute in He; discriminate He].
    assert (w = 8 ∧ is_ok r = false) as [Hw Hr].
    { apply (f_equal (fmap (λ p : nat * _ * _, (p.1.1, is_ok p.2)))) in He. vm_compute in He. injection He as Hw Hr. split; [exact (eq_sym Hw)|exact (eq_sym Hr)]. }
    destruct (Hrun w fs r eq_refl) as (_ & HDB & [[H0 _]|Hp]); [rewrite Hw in H0; discriminate H0|]. auto.
Defined.

Lemma sync_pull_exact_witness :
  let s := published ["private"] fresh_store in
  match cmd_sync_pull (fixed_hub 200 (file_bytes s)) (on_branch "feature") None false 0 {[ DB := "old"; "config.toml" := "kept" ]} with
  | (w, fs, r) => w = 1 ∧ is_ok r = true ∧ opened (fs !! DB) = Some s ∧ fs !! "config.toml" = Some "kept" ∧ fs !! REBUILD = None
  end.
Proof.
  intros s. destruct (cmd_sync_pull (fixed_hub 200 (file_bytes s)) (on_branch "feature") None false 0 {[ DB := "old"; "config.toml" := "kept" ]}) as [[w fs] r] eqn:He.
  pose proof (sync_pull_exact (fixed_hub 200 (file_bytes s)) (on_branch "feature") None false 0 _ w fs r He) as Hp.
  assert (pulled (fixed_hub 200 (file_bytes s)) (on_branch "feature") None false 0 = Some (file_bytes s)) as Hb by (vm_compute; reflexivity).
  rewrite Hb in Hp. destruct Hp as (Hr & Hreb & Hq & Hpub & _).
  split; [apply (f_equal (λ p : nat * _ * _, p.1.1)) in He; vm_compute in He; exact (eq_sym He)|].
  split; [exact Hr|]. split; [exact (proj1 (Hpub ["private"] fresh_store None eq_refl eq_refl))|]. split; [|exact Hreb].
  rewrite Hq; [vm_compute; reflexivity|discriminate..].
Defined.

(** Without an index, a push publishes an empty one: opening creates it. *)
Theorem push_without_index_publishes_empty :
  ∃ fs p, snapshot_for_push ∅ [] = (fs, Ok p) ∧ opened (fs !! p) = Some fresh_store ∧ nodes (ix_db (st_index fresh_store)) = ∅ ∧
    (λ x : nat * _ * _, x.2) <$> cmd_sync_push (fixed_hub 200 "") 3 (on_branch "main") unsigned 0 ∅ = Some (Ok "Published snapshot for c0ffee.").
Proof.
  destruct (snapshot_spec ∅ [] fresh_store) as (fs & p & Heq & Hp & _); [by rewrite lookup_empty|]. exists fs, p. split; [exact Heq|].
  split; [rewrite Hp, opened_bytes; f_equal; apply ensured_idem|]. by split; vm_compute.
Qed.

(** The purge of a push reaches the vectors only: the full-text row of an excluded
    path, body included, is in the published database. *)
Theorem pushed_text_of_excluded_path :
  let n := mkNode 1 "local" "private/a.rs" "secret" "fn" 1 2 "fn secret()" in
  let row := mkFtsRow "secret" "fn secret()" "the body" "" in
  let s := mkStore (mkIndex (with_nodes empty_db {[ 1%N := n ]}) (Some (SYMBOL_FTS_DDL, {[ 1%N := row ]}))) (mkVectors {[ 1%N := mkVecRow [] [] ]} None) in
  ∃ fs p s', snapshot_for_push {[ DB := file_bytes s ]} ["private"] = (fs, Ok p) ∧ opened (fs !! p) = Some s' ∧
    vec_chunks (st_vectors s') = ∅ ∧ fts_rows (st_index s') !! 1%N = Some row ∧ nodes (ix_db (st_index s')) !! 1%N = Some n.
Proof.
  intros n row s. assert (ensured s = s) as He by (unfold ensured, s; cbn; by rewrite decide_True).
  destruct (snapshot_spec {[ DB := file_bytes s ]} ["private"] s) as (fs & p & Heq & Hp & _); [by rewrite lookup_singleton_eq, opened_bytes, He|].
  exists fs, p, (published ["private"] s). split; [exact Heq|]. split; [rewrite Hp, opened_bytes; f_equal; unfold ensured, published; cbn; by rewrite decide_True|].
  split_and!; by vm_compute.
Qed.

(** A pull that falls back to the latest snapshot reports the commit that has
    none as the one hydrated. *)
Theorem fallback_reports_requested_commit :
  let hub (c : HubClient) (w : nat) (_ path : string) (_ : list (string * string)) (_ : string) : nat * result (N * string * string) HubError :=
    (S w, Ok (if starts_with (snapshot_path c "latest") path then 200%N else 404%N, "", "latest")) in
  (cmd_sync_pull hub (on_branch "feature") None true 0 ∅).2 =
    Ok ["No snapshot for c0ffee; hydrated latest instead."; "Snapshot has no recorded signature.";
        "Hydrated snapshot for c0ffee into graph.db (6 bytes). Run `weave index --incremental` to fast-forward to HEAD."].
Proof. by vm_compute. Qed.
