(* ===== verification/Cst.v ===== *)
(** * Syntax trees and the extractors' helpers (weave-graph-parse: extract/util.rs)

    The trees tree-sitter builds, with the accessors the extractors call; the
    helpers they share; and the two traversals every extractor is made of.  The
    grammars are third-party: a tree is an argument, and [tree_ok] is what
    tree-sitter documents of the positions in it. *)

From S2P Require Import Prelude Str Language Interner ProjectIndex Http.

(** ** Trees *)

(** A node: its kind, whether it is named in the grammar, its byte range and rows,
    and its children, each with its field name. *)
Inductive Cst := mkCst (kind : string) (named : bool) (start_byte end_byte start_row end_row : N) (children : list (option string * Cst)).

Definition kind (c : Cst) : string := let '(mkCst k _ _ _ _ _ _) := c in k.
Definition is_named (c : Cst) : bool := let '(mkCst _ n _ _ _ _ _) := c in n.
Definition start_byte (c : Cst) : N := let '(mkCst _ _ a _ _ _ _) := c in a.
Definition end_byte (c : Cst) : N := let '(mkCst _ _ _ b _ _ _) := c in b.
Definition start_row (c : Cst) : N := let '(mkCst _ _ _ _ a _ _) := c in a.
Definition end_row (c : Cst) : N := let '(mkCst _ _ _ _ _ b _) := c in b.
Definition labelled (c : Cst) : list (option string * Cst) := let '(mkCst _ _ _ _ _ _ cs) := c in cs.
Definition children (c : Cst) : list Cst := (labelled c).*2.

(** Induction with the hypothesis for every child. *)
Lemma cst_ind' (P : Cst → Prop) : (∀ c, (∀ d, d ∈ children c → P d) → P c) → ∀ c, P c.
Proof.
  intros Hs. fix IH 1. intros c. apply Hs. apply Forall_forall. destruct c as [k n a b ra rb cs]. unfold children. cbn [labelled].
  induction cs as [|[l d] cs IHcs]; cbn; [constructor|]. constructor; [apply IH|exact IHcs].
Qed.

(** The first child of a field, given to [f]. *)
Definition on_field {A} (f : Cst → A) (name : string) : list (option string * Cst) → option A :=
  fix go cs := match cs with [] => None | (l, c) :: cs => if decide (l = Some name) then Some (f c) else go cs end.
(** The first child of a kind, given to [f]. *)
Definition on_kind {A} (f : Cst → A) (k : string) : list (option string * Cst) → option A :=
  fix go cs := match cs with [] => None | (_, c) :: cs => if decide (kind c = k) then Some (f c) else go cs end.
(** The first child [f] gives something for. *)
Definition first_some {A} (f : Cst → option A) : list (option string * Cst) → option A :=
  fix go cs := match cs with [] => None | (_, c) :: cs => match f c with Some a => Some a | None => go cs end end.
(** [for child in node.children(..)]. *)
Definition for_each {S} (f : Cst → S → S) : list (option string * Cst) → S → S :=
  fix go cs st := match cs with [] => st | (_, c) :: cs => go cs (f c st) end.

(** [Node::child_by_field_name], [children_by_field_name], [named_children],
    [named_child]. *)
Definition field (name : string) (c : Cst) : option Cst := on_field id name (labelled c).
Definition fields (name : string) (c : Cst) : list Cst := (filter (λ p : option string * Cst, p.1 = Some name) (labelled c)).*2.
Definition named_children (c : Cst) : list Cst := filter (λ d, is_named d = true) (children c).
Definition named_child (i : nat) (c : Cst) : option Cst := named_children c !! i.

(** ** util.rs *)

(** [&source[a..b]] for a range within the source. *)
Definition slice_bytes (source : string) (a b : N) : string := str_take (N.to_nat b - N.to_nat a) (str_drop (N.to_nat a) source).

(** A [usize] cast to [u32], and one more. *)
Definition line_of (row : N) : N := ((row `mod` 4294967296 + 1) `mod` 4294967296)%N.
(** src/crates/weave-graph-parse/src/extract/util.rs:3-8 [line_range] *)
Definition line_range (c : Cst) : N * N := (line_of (start_row c), line_of (end_row c)).
(** src/crates/weave-graph-parse/src/extract/util.rs:10-12 [text] *)
Definition text (source : string) (c : Cst) : string := slice_bytes source (start_byte c) (end_byte c).

(** The collapse of white space to one line. *)
Definition one_line (s : string) : string := join " " (split_whitespace s).
(** src/crates/weave-graph-parse/src/extract/util.rs:26-33 [signature_spanning] *)
Definition signature_spanning (source : string) (outer inner : Cst) : string :=
  let header_end := default (end_byte inner) (start_byte <$> field "body" inner) in
  one_line (slice_bytes source (start_byte outer) header_end).
(** src/crates/weave-graph-parse/src/extract/util.rs:17-19 [signature] *)
Definition signature (source : string) (c : Cst) : string := signature_spanning source c c.
(** src/crates/weave-graph-parse/src/extract/util.rs:52-55 [child_by_kind] *)
Definition child_by_kind (k : string) (c : Cst) : option Cst := on_kind id k (labelled c).
(** src/crates/weave-graph-parse/src/extract/util.rs:39-48 [signature_by_body_kind] *)
Definition signature_by_body_kind (source : string) (body_kind : string) (c : Cst) : string :=
  let header_end := default (end_byte c) (start_byte <$> child_by_kind body_kind c) in
  one_line (slice_bytes source (start_byte c) header_end).
(** src/crates/weave-graph-parse/src/extract/util.rs:57-63 [qualify] *)
Definition qualify (scope : list string) (name : string) : string :=
  match scope with [] => name | _ => join "::" scope +:+ "::" +:+ name end.

(** ** What an extractor writes *)

(** [ParsedFile::default()] and the three [push]es. *)
Definition no_file : ParsedFile := mkParsed [] [] [].
Definition add_card (c : WiringCard) (f : ParsedFile) : ParsedFile := mkParsed (symbols f ++ [c]) (calls f) (structural_edges f).
Definition add_call (c : RawCall) (f : ParsedFile) : ParsedFile := mkParsed (symbols f) (calls f ++ [c]) (structural_edges f).
Definition add_edge (e : RawStructuralEdge) (f : ParsedFile) : ParsedFile := mkParsed (symbols f) (calls f) (structural_edges f ++ [e]).
Definition add_edges (es : list RawStructuralEdge) (f : ParsedFile) : ParsedFile := foldl (λ f e, add_edge e f) f es.
(** [format!(..#<module>)]. *)
Definition module_moniker (path : string) : string := path +:+ "#<module>".

(** A route of the framework pilots: its card and its edge. *)
Definition Route_ : Type := WiringCard * RawStructuralEdge.
Definition add_route (r : option Route_) (f : ParsedFile) : ParsedFile :=
  match r with Some (c, e) => add_edge e (add_card c f) | None => f end.

(** The node, then its children: the recursion of the [collect_calls] functions. *)
Fixpoint preorder_fold {S} (visit : Cst → S → S) (c : Cst) (st : S) : S :=
  match c with mkCst _ _ _ _ _ _ cs => for_each (preorder_fold visit) cs (visit c st) end.
Fixpoint preorder (c : Cst) : list Cst :=
  match c with mkCst _ _ _ _ _ _ cs => c :: for_each (λ d l, l ++ preorder d) cs [] end.
