(* ===== verification/Extract.v ===== *)
(** * The extractors of the core languages (weave-graph-parse: extract/)

    Rust, Python, JavaScript and TypeScript, Go, Java, C and C++: from the syntax
    tree of a file to its symbols, calls and structural references.  Both builds
    are covered: [framework_routes] is the Cargo feature of the route pilots.  The
    recursion follows the tree; what is passed down is the scope, what is passed
    along the file under construction. *)

From S2P Require Import Prelude Str Language Interner ProjectIndex Http Cst.

Definition upper_byte (a : ascii) : ascii := if is_lower a then ascii_of_N (byte a - 32) else a.
(** [str::to_ascii_uppercase]. *)
Definition to_ascii_uppercase (s : string) : string := str_map upper_byte s.
(** [str::trim_matches] with a set of characters. *)
Definition trim_matches (p : ascii → bool) (s : string) : string := trim_end_by p (trim_start_by p s).
Definition one_of (l : list ascii) (a : ascii) : bool := bool_decide (a ∈ l).
Definition dquote : ascii := "034"%char.
Definition quoted_text (s : string) : string := String dquote (s +:+ String dquote "").

Section extract.
Context (framework_routes : bool) (source path : string).

(** src/crates/weave-graph-parse/src/extract/rust.rs:233-254 [push_symbol]
    The card of a declaration; the same in every extractor. *)
Definition card_of (sig_start : Cst) (sig : string) (scope : list string) (name : string) (k : SymbolKind) : WiringCard :=
  let qualified := qualify scope name in
  let '(line_start, line_end) := line_range sig_start in
  mkCard (moniker_build path qualified) qualified k line_start line_end sig.
Definition push_symbol (c : Cst) (scope : list string) (name : string) (k : SymbolKind) (f : ParsedFile) : ParsedFile :=
  add_card (card_of c (signature source c) scope name k) f.
(** The moniker [push_symbol] returns. *)
Definition moniker_of (scope : list string) (name : string) : string := moniker_build path (qualify scope name).
(** A function: its card, then the calls of its body. *)
Definition push_function (collect : string → Cst → ParsedFile → ParsedFile) (c : Cst) (scope : list string) (name : string) (k : SymbolKind)
    (body : option Cst) (f : ParsedFile) : ParsedFile :=
  let f := push_symbol c scope name k f in
  match body with Some body => collect (moniker_of scope name) body f | None => f end.
Definition function_kind (scope : list string) : SymbolKind := match scope with [] => Function | _ => Method end.

(** The card and the edge of a route. *)
Definition route_of (file_path : string) (c : Cst) (method route_path sig handler : string) : Route_ :=
  let symbol := "route:" +:+ method +:+ " " +:+ route_path in
  let m := moniker_build file_path symbol in
  let '(line_start, line_end) := line_range c in
  (mkCard m symbol Route line_start line_end sig, mkStructural m handler Handles).

(** The callee of a call: a plain name, or the member of a receiver. *)
Definition call_named (caller : string) (name : option string) (member : bool) (f : ParsedFile) : ParsedFile :=
  match name with Some name => add_call (mkCall caller name member) f | None => f end.

(** ** Rust *)

Definition HTTP_VERBS : list string := ["get"; "post"; "put"; "delete"; "patch"].

(** src/crates/weave-graph-parse/src/extract/rust.rs:139-148 [axum_route::static_string_value] *)
Definition axum_string_value (c : Cst) : string :=
  foldl (λ acc d, if decide (kind d = "string_content") then acc +:+ text source d else acc) "" (children c).

(** src/crates/weave-graph-parse/src/extract/rust.rs:103-132 [axum_route::receiver_is_router_chain] *)
Fixpoint router_chain (hops : nat) (c : Cst) : bool :=
  match hops with
  | 0 => false
  | S hops =>
      if decide (kind c = "call_expression") then
        match field "function" c with
        | None => false
        | Some f =>
            if decide (kind f = "scoped_identifier") then
              match field "name" f with Some n => bool_decide (text source n = "new") | None => false end &&
              match field "path" f with Some p => ends_with (text source p) "Router" | None => false end
            else if decide (kind f = "field_expression") then
              match field "value" f with Some value => router_chain hops value | None => false end
            else false
        end
      else false
  end.
Definition receiver_is_router_chain (c : Cst) : bool := router_chain 32 c.

(** src/crates/weave-graph-parse/src/extract/rust.rs:37-94 [axum_route::detect] *)
Definition axum_detect (file_path : string) (call : Cst) : option Route_ :=
  f ← field "function" call;
  if negb (bool_decide (kind f = "field_expression")) then None else
  method_name ← field "field" f;
  if negb (bool_decide (text source method_name = "route")) then None else
  receiver ← field "value" f;
  if negb (receiver_is_router_chain receiver) then None else
  args ← field "arguments" call;
  first ← named_children args !! 0;
  if negb (bool_decide (kind first = "string_literal")) then None else
  let route_path := axum_string_value first in
  verb_call ← named_children args !! 1;
  if negb (bool_decide (kind verb_call = "call_expression")) then None else
  verb_function ← field "function" verb_call;
  if negb (bool_decide (kind verb_function = "identifier")) then None else
  let verb := text source verb_function in
  if negb (bool_decide (verb ∈ HTTP_VERBS)) then None else
  verb_args ← field "arguments" verb_call;
  handler ← named_children verb_args !! 0;
  if negb (bool_decide (kind handler = "identifier")) then None else
  let handler_name := text source handler in
  Some (route_of file_path call (to_ascii_uppercase verb) route_path
          (".route(" +:+ quoted_text route_path +:+ ", " +:+ verb +:+ "(" +:+ handler_name +:+ "))") handler_name).

(** src/crates/weave-graph-parse/src/extract/rust.rs:342-350 [callee_leaf] *)
Fixpoint callee_leaf (c : Cst) : string :=
  match c with mkCst k _ _ _ _ _ cs =>
    if decide (k = "scoped_identifier") then default (text source c) (on_field callee_leaf "name" cs) else text source c
  end.

(** src/crates/weave-graph-parse/src/extract/rust.rs:259-282 [use_leaves] *)
Fixpoint use_leaves (c : Cst) : list string :=
  match c with mkCst k _ _ _ _ _ cs =>
    if decide (k = "identifier" ∨ k = "type_identifier") then [text source c]
    else if decide (k = "scoped_identifier") then default [] (on_field use_leaves "name" cs)
    else if decide (k = "scoped_use_list") then default [] (on_field use_leaves "list" cs)
    else if decide (k = "use_list") then for_each (λ d l, if is_named d then l ++ use_leaves d else l) cs []
    else if decide (k = "use_as_clause") then default [] (on_field use_leaves "path" cs)
    else []
  end.

(** src/crates/weave-graph-parse/src/extract/rust.rs:285-335 [collect_calls]
    What one node adds. *)
Definition rust_call (caller : string) (c : Cst) (f : ParsedFile) : ParsedFile :=
  if decide (kind c = "call_expression") then
    let f := match field "function" c with
             | None => f
             | Some fn =>
                 if decide (kind fn = "field_expression") then call_named caller (text source <$> field "field" fn) true f
                 else if decide (kind fn = "identifier" ∨ kind fn = "scoped_identifier") then call_named caller (Some (callee_leaf fn)) false f
                 else f
             end in
    if framework_routes then
      match split_once caller "#" with Some (file_path, _) => add_route (axum_detect file_path c) f | None => f end
    else f
  else if decide (kind c = "macro_invocation") then
    match field "macro" c with
    | None => f
    | Some macro_node =>
        if decide (text source macro_node = "env" ∨ text source macro_node = "option_env") then
          match child_by_kind "token_tree" c with
          | None => f
          | Some token_tree =>
              let var_name := trim_matches (one_of ["("; ")"; dquote; " "; "010"]%char) (text source token_tree) in
              if is_empty var_name then f else add_edge (mkStructural caller var_name Imports) f
          end
        else f
    end
  else f.
(** src/crates/weave-graph-parse/src/extract/rust.rs:284-340 [collect_calls] *)
Definition rust_collect_calls (caller : string) : Cst → ParsedFile → ParsedFile := preorder_fold (rust_call caller).

(** src/crates/weave-graph-parse/src/extract/rust.rs:157-231 [walk] *)
Fixpoint rust_walk (c : Cst) (scope : list string) (f : ParsedFile) {struct c} : ParsedFile :=
  match c with mkCst _ _ _ _ _ _ cs =>
    for_each (λ child f,
      match child with mkCst k _ _ _ _ _ parts =>
        let into_body scope f := default f (on_field (λ body, rust_walk body scope f) "body" parts) in
        if decide (k = "mod_item") then
          match field "name" child with Some name => into_body (scope ++ [text source name]) f | None => f end
        else if decide (k = "struct_item") then
          match field "name" child with Some name => push_symbol child scope (text source name) Struct f | None => f end
        else if decide (k = "impl_item") then
          match field "type" child with
          | None => f
          | Some type_node =>
              let type_name := text source type_node in
              let f := match field "trait" child with
                       | Some trait_node => add_edge (mkStructural (moniker_of scope type_name) (text source trait_node) Implements) f
                       | None => f
                       end in
              into_body (scope ++ [type_name]) f
          end
        else if decide (k = "function_item") then
          match field "name" child with
          | None => f
          | Some name => push_function rust_collect_calls child scope (text source name) (function_kind scope) (field "body" child) f
          end
        else if decide (k = "use_declaration") then
          match field "argument" child with
          | Some argument => add_edges ((λ leaf, mkStructural (module_moniker path) leaf Imports) <$> use_leaves argument) f
          | None => f
          end
        else rust_walk child scope f
      end) cs f
  end.
(** src/crates/weave-graph-parse/src/extract/rust.rs:151-155 [extract] *)
Definition rust_extract (root : Cst) : ParsedFile := rust_walk root [] no_file.

(** ** Python *)

Definition FLASK_CONSTRUCTORS : list string := ["Flask"; "Blueprint"].

(** src/crates/weave-graph-parse/src/extract/python.rs:53-76 [flask_route::collect_instance_names]
    What one node adds to the names. *)
Definition flask_instance (c : Cst) (names : gset string) : gset string :=
  let ctor_of :=
    if decide (kind c = "assignment") then
      left_ ← field "left" c;
      if negb (bool_decide (kind left_ = "identifier")) then None else
      right_ ← field "right" c;
      if negb (bool_decide (kind right_ = "call")) then None else
      f ← field "function" right_;
      ctor ← (if decide (kind f = "identifier") then Some (text source f)
              else if decide (kind f = "attribute") then text source <$> field "attribute" f else None);
      if bool_decide (ctor ∈ FLASK_CONSTRUCTORS) then Some (text source left_) else None
    else None in
  match ctor_of with Some name => {[ name ]} ∪ names | None => names end.
(** src/crates/weave-graph-parse/src/extract/python.rs:47-51 [flask_route::instance_names] *)
Definition flask_instance_names (root : Cst) : gset string := if framework_routes then preorder_fold flask_instance root ∅ else ∅.

(** src/crates/weave-graph-parse/src/extract/python.rs:83-94 [flask_route::static_string_value] *)
Definition flask_string_value (c : Cst) : option string :=
  foldl (λ acc d, acc ← acc;
    if decide (kind d = "string_content") then Some (acc +:+ text source d)
    else if decide (kind d = "interpolation") then None else Some acc) (Some "") (children c).

(** src/crates/weave-graph-parse/src/extract/python.rs:155-188 [flask_route::build_route] *)
Definition flask_build_route (call decorator : Cst) (handler_name method : string) : option Route_ :=
  args ← field "arguments" call;
  first_arg ← named_children args !! 0;
  if negb (bool_decide (kind first_arg = "string")) then None else
  route_path ← flask_string_value first_arg;
  Some (route_of path decorator method route_path ("@" +:+ to_ascii_lowercase method +:+ "(" +:+ quoted_text route_path +:+ ")") handler_name).

(** src/crates/weave-graph-parse/src/extract/python.rs:126-153 [flask_route::route_from_decorator] *)
Definition route_from_decorator (flask_names : gset string) (handler_name : string) (decorator : Cst) : option Route_ :=
  call ← named_child 0 decorator;
  if negb (bool_decide (kind call = "call")) then None else
  f ← field "function" call;
  if negb (bool_decide (kind f = "attribute")) then None else
  receiver ← field "object" f;
  if negb (bool_decide (kind receiver = "identifier")) || negb (bool_decide (text source receiver ∈ flask_names)) then None else
  attribute ← field "attribute" f;
  let method_ident := text source attribute in
  if decide (method_ident = "route") then flask_build_route call decorator handler_name "ANY"
  else if decide (method_ident ∈ HTTP_VERBS) then flask_build_route call decorator handler_name (to_ascii_uppercase method_ident)
  else None.

(** src/crates/weave-graph-parse/src/extract/python.rs:100-124 [flask_route::detect] *)
Definition flask_detect (flask_names : gset string) (decorated : Cst) : option Route_ :=
  handler ← field "definition" decorated;
  if negb (bool_decide (kind handler = "function_definition")) then None else
  name ← field "name" handler;
  head (omap (route_from_decorator flask_names (text source name)) (filter (λ d, kind d = "decorator") (children decorated))).

(** src/crates/weave-graph-parse/src/extract/python.rs:300-306 [superclasses] *)
Definition superclasses (c : Cst) : list Cst := match field "superclasses" c with Some args => named_children args | None => [] end.

(** src/crates/weave-graph-parse/src/extract/python.rs:331-345 [dotted_leaf] *)
Fixpoint dotted_leaf (c : Cst) : option string :=
  match c with mkCst k _ _ _ _ _ cs =>
    if decide (k = "dotted_name") then text source <$> last (named_children c)
    else if decide (k = "aliased_import") then mjoin (on_field dotted_leaf "name" cs)
    else if decide (k = "identifier") then Some (text source c)
    else None
  end.

(** A call whose function is a name or a member of a receiver: the shape shared by
    the call collectors of several languages. *)
Definition simple_call (call_kind function_field member_kind member_field caller : string) (c : Cst) (f : ParsedFile) : ParsedFile :=
  if decide (kind c = call_kind) then
    match field function_field c with
    | None => f
    | Some fn =>
        if decide (kind fn = member_kind) then call_named caller (text source <$> field member_field fn) true f
        else if decide (kind fn = "identifier") then call_named caller (Some (text source fn)) false f
        else f
    end
  else f.

(** src/crates/weave-graph-parse/src/extract/python.rs:347-373 [collect_calls] *)
Definition python_collect_calls (caller : string) : Cst → ParsedFile → ParsedFile :=
  preorder_fold (simple_call "call" "function" "attribute" "attribute" caller).

(** src/crates/weave-graph-parse/src/extract/python.rs:258-281 [walk]
    The two import statements. *)
Definition python_imports (c : Cst) (f : ParsedFile) : ParsedFile :=
  add_edges ((λ leaf, mkStructural (module_moniker path) leaf Imports) <$> omap dotted_leaf (fields "name" c)) f.

(** src/crates/weave-graph-parse/src/extract/python.rs:212-298 [walk] *)
Fixpoint python_walk (flask_names : gset string) (c : Cst) (scope : list string) (f : ParsedFile) {struct c} : ParsedFile :=
  match c with mkCst _ _ _ _ _ _ cs =>
    for_each (λ child f,
      match child with mkCst k _ _ _ _ _ parts =>
        if decide (k = "class_definition") then
          match field "name" child with
          | None => f
          | Some name =>
              let name := text source name in
              let f := push_symbol child scope name ClassKind f in
              let f := add_edges ((λ base, mkStructural (moniker_of scope name) (text source base) Inherits) <$> superclasses child) f in
              default f (on_field (λ body, python_walk flask_names body (scope ++ [name]) f) "body" parts)
          end
        else if decide (k = "function_definition") then
          match field "name" child with
          | None => f
          | Some name => push_function python_collect_calls child scope (text source name) (function_kind scope) (field "body" child) f
          end
        else if decide (k = "import_statement" ∨ k = "import_from_statement") then python_imports child f
        else if decide (k = "decorated_definition") then
          let f := if framework_routes then add_route (flask_detect flask_names child) f else f in
          python_walk flask_names child scope f
        else python_walk flask_names child scope f
      end) cs f
  end.
(** src/crates/weave-graph-parse/src/extract/python.rs:191-196 [extract] *)
Definition python_extract (root : Cst) : ParsedFile := python_walk (flask_instance_names root) root [] no_file.

(** ** JavaScript and TypeScript *)

(** src/crates/weave-graph-parse/src/extract/ecma.rs:176-179 [unquote] *)
Definition unquote (s : string) : string := trim_matches (one_of [dquote; "'"; "`"]%char) s.

(** src/crates/weave-graph-parse/src/extract/ecma.rs:193-214 [heritage]
    One part of the clause. *)
Definition heritage_part (part : Cst) : list (string * StructuralEdgeKind) :=
  if decide (kind part = "extends_clause") then
    match field "value" part with Some value => [(text source value, Inherits)] | None => [] end
  else if decide (kind part = "implements_clause") then (λ t, (text source t, Implements)) <$> named_children part
  else if decide (kind part = "identifier" ∨ kind part = "member_expression") then [(text source part, Inherits)]
  else [].
(** src/crates/weave-graph-parse/src/extract/ecma.rs:184-217 [heritage] *)
Definition heritage (c : Cst) : list (string * StructuralEdgeKind) :=
  match child_by_kind "class_heritage" c with Some h => children h ≫= heritage_part | None => [] end.

(** src/crates/weave-graph-parse/src/extract/ecma.rs:227-249 [push_symbol] *)
Definition ecma_push_symbol (sig_start decl : Cst) (scope : list string) (name : string) (k : SymbolKind) (f : ParsedFile) : ParsedFile :=
  add_card (card_of sig_start (signature_spanning source sig_start decl) scope name k) f.

(** src/crates/weave-graph-parse/src/extract/ecma.rs:252-302 [collect_calls]
    What one node adds. *)
Definition ecma_call (caller : string) (c : Cst) (f : ParsedFile) : ParsedFile :=
  if decide (kind c = "call_expression") then simple_call "call_expression" "function" "member_expression" "property" caller c f
  else if decide (kind c = "member_expression") then
    match field "object" c, field "property" c with
    | Some obj, Some prop =>
        if decide (text source obj = "process.env") then
          let var_name := text source prop in
          if is_empty var_name then f else add_edge (mkStructural caller var_name Imports) f
        else f
    | _, _ => f
    end
  else if decide (kind c = "subscript_expression") then
    match field "object" c, field "index" c with
    | Some obj, Some idx =>
        if decide (text source obj = "process.env") then
          let var_name := unquote (text source idx) in
          if is_empty var_name then f else add_edge (mkStructural caller var_name Imports) f
        else f
    | _, _ => f
    end
  else f.
(** src/crates/weave-graph-parse/src/extract/ecma.rs:251-307 [collect_calls] *)
Definition ecma_collect_calls (caller : string) : Cst → ParsedFile → ParsedFile := preorder_fold (ecma_call caller).

(** src/crates/weave-graph-parse/src/extract/ecma.rs:19-174 [walk]
    With [handle_declaration], which it calls and which calls it. *)
Fixpoint ecma_walk (is_typescript : bool) (c : Cst) (scope : list string) (f : ParsedFile) {struct c} : ParsedFile :=
  match c with mkCst _ _ _ _ _ _ cs =>
    for_each (λ child f,
      match child with mkCst k _ _ _ _ _ parts =>
        if decide (k = "export_statement") then
          default f (on_field (λ decl, ecma_declaration is_typescript decl child scope f) "declaration" parts)
        else if decide (k = "class_declaration" ∨ k = "interface_declaration" ∨ k = "function_declaration" ∨ k = "method_definition") then
          ecma_declaration is_typescript child child scope f
        else if decide (k = "method_signature" ∧ is_typescript = true) then
          match field "name" child with Some name => ecma_push_symbol child child scope (text source name) Method f | None => f end
        else if decide (k = "import_statement") then
          match field "source" child with
          | Some s => add_edge (mkStructural (module_moniker path) (unquote (text source s)) Imports) f
          | None => f
          end
        else ecma_walk is_typescript child scope f
      end) cs f
  end
with ecma_declaration (is_typescript : bool) (decl sig_start : Cst) (scope : list string) (f : ParsedFile) {struct decl} : ParsedFile :=
  match decl with mkCst k _ _ _ _ _ parts =>
    let into_body scope f := default f (on_field (λ body, ecma_walk is_typescript body scope f) "body" parts) in
    if decide (k = "class_declaration") then
      match field "name" decl with
      | None => f
      | Some name =>
          let name := text source name in
          let f := ecma_push_symbol sig_start decl scope name ClassKind f in
          let f := add_edges ((λ p : string * StructuralEdgeKind, mkStructural (moniker_of scope name) p.1 p.2) <$> heritage decl) f in
          into_body (scope ++ [name]) f
      end
    else if decide (k = "interface_declaration" ∧ is_typescript = true) then
      match field "name" decl with
      | None => f
      | Some name => into_body (scope ++ [text source name]) (ecma_push_symbol sig_start decl scope (text source name) Interface f)
      end
    else if decide (k = "function_declaration" ∨ k = "method_definition") then
      match field "name" decl with
      | None => f
      | Some name =>
          let kind_ := if decide (k = "method_definition") then Method else Function in
          let f := ecma_push_symbol sig_start decl scope (text source name) kind_ f in
          match field "body" decl with
          | Some body => ecma_collect_calls (moniker_of scope (text source name)) body f
          | None => f
          end
      end
    else f
  end.
(** src/crates/weave-graph-parse/src/extract/ecma.rs:13-17 [extract] *)
Definition ecma_extract (is_typescript : bool) (root : Cst) : ParsedFile := ecma_walk is_typescript root [] no_file.

(** ** Go *)

Definition GIN_METHODS : list string := ["GET"; "POST"; "PUT"; "DELETE"; "PATCH"].
Definition GIN_CONSTRUCTORS : list string := ["Default"; "New"].

(** src/crates/weave-graph-parse/src/extract/go.rs:43-64 [gin_route::collect_instance_names]
    What one node adds to the names. *)
Definition gin_instance (c : Cst) (names : gset string) : gset string :=
  let name :=
    if decide (kind c = "short_var_declaration") then
      left_ ← field "left" c;
      ident ← named_child 0 left_;
      if negb (bool_decide (kind ident = "identifier")) then None else
      right_ ← field "right" c;
      call ← named_child 0 right_;
      if negb (bool_decide (kind call = "call_expression")) then None else
      f ← field "function" call;
      if negb (bool_decide (kind f = "selector_expression")) then None else
      operand ← field "operand" f;
      if negb (bool_decide (text source operand = "gin")) then None else
      member ← field "field" f;
      if bool_decide (text source member ∈ GIN_CONSTRUCTORS) then Some (text source ident) else None
    else None in
  match name with Some name => {[ name ]} ∪ names | None => names end.
(** src/crates/weave-graph-parse/src/extract/go.rs:37-41 [gin_route::instance_names] *)
Definition gin_instance_names (root : Cst) : gset string := if framework_routes then preorder_fold gin_instance root ∅ else ∅.

(** src/crates/weave-graph-parse/src/extract/go.rs:68-118 [gin_route::detect] *)
Definition gin_detect (gin_names : gset string) (file_path : string) (call : Cst) : option Route_ :=
  f ← field "function" call;
  if negb (bool_decide (kind f = "selector_expression")) then None else
  operand ← field "operand" f;
  if negb (bool_decide (kind operand = "identifier")) || negb (bool_decide (text source operand ∈ gin_names)) then None else
  method_node ← field "field" f;
  let method := text source method_node in
  if negb (bool_decide (method ∈ GIN_METHODS)) then None else
  args ← field "arguments" call;
  first ← named_children args !! 0;
  if negb (bool_decide (kind first = "interpreted_string_literal")) then None else
  route_path ← text source <$> child_by_kind "interpreted_string_literal_content" first;
  handler ← named_children args !! 1;
  if negb (bool_decide (kind handler = "identifier")) then None else
  let handler_name := text source handler in
  Some (route_of file_path call method route_path ("." +:+ method +:+ "(" +:+ quoted_text route_path +:+ ", " +:+ handler_name +:+ ")") handler_name).

(** src/crates/weave-graph-parse/src/extract/go.rs:236-242 [unwrap_pointer] *)
Definition unwrap_pointer (c : Cst) : Cst := if decide (kind c = "pointer_type") then default c (named_child 0 c) else c.

(** src/crates/weave-graph-parse/src/extract/go.rs:278-308 [collect_calls]
    What one node adds. *)
Definition go_call (gin_names : gset string) (caller : string) (c : Cst) (f : ParsedFile) : ParsedFile :=
  let f' := simple_call "call_expression" "function" "selector_expression" "field" caller c f in
  if framework_routes && bool_decide (kind c = "call_expression") && bool_decide (is_Some (field "function" c)) then
    match split_once caller "#" with Some (file_path, _) => add_route (gin_detect gin_names file_path c) f' | None => f' end
  else f'.
(** src/crates/weave-graph-parse/src/extract/go.rs:271-314 [collect_calls] *)
Definition go_collect_calls (gin_names : gset string) (caller : string) : Cst → ParsedFile → ParsedFile := preorder_fold (go_call gin_names caller).

(** src/crates/weave-graph-parse/src/extract/go.rs:155-169 [walk]
    One specification of a type declaration. *)
Definition go_type_spec (decl : Cst) (scope : list string) (spec : Cst) (f : ParsedFile) : ParsedFile :=
  match field "name" spec, field "type" spec with
  | Some name, Some ty =>
      if decide (kind ty = "struct_type") then push_symbol decl scope (text source name) Struct f
      else if decide (kind ty = "interface_type") then push_symbol decl scope (text source name) Interface f
      else f
  | _, _ => f
  end.
(** src/crates/weave-graph-parse/src/extract/go.rs:178-182 [walk] *)
Definition receiver_type (receiver : Cst) : string :=
  default "" (p ← child_by_kind "parameter_declaration" receiver; t ← field "type" p; Some (text source (unwrap_pointer t))).
(** src/crates/weave-graph-parse/src/extract/go.rs:216-229 [walk] *)
Definition go_import (spec : Cst) (f : ParsedFile) : ParsedFile :=
  match field "path" spec with
  | None => f
  | Some path_node =>
      let target := match child_by_kind "interpreted_string_literal_content" path_node with
                    | Some n => text source n
                    | None => trim_matches (one_of [dquote]) (text source path_node)
                    end in
      add_edge (mkStructural (module_moniker path) target Imports) f
  end.

(** src/crates/weave-graph-parse/src/extract/go.rs:143-234 [walk] *)
Fixpoint go_walk (gin_names : gset string) (c : Cst) (scope : list string) (f : ParsedFile) {struct c} : ParsedFile :=
  match c with mkCst _ _ _ _ _ _ cs =>
    for_each (λ child f,
      if decide (kind child = "type_declaration") then
        foldl (λ f spec, go_type_spec child scope spec f) f (filter (λ d, kind d = "type_spec") (children child))
      else if decide (kind child = "method_declaration") then
        match field "name" child, field "receiver" child with
        | Some name, Some receiver =>
            push_function (go_collect_calls gin_names) child (scope ++ [receiver_type receiver]) (text source name) Method (field "body" child) f
        | _, _ => f
        end
      else if decide (kind child = "function_declaration") then
        match field "name" child with
        | None => f
        | Some name => push_function (go_collect_calls gin_names) child scope (text source name) Function (field "body" child) f
        end
      else if decide (kind child = "import_declaration") then
        foldl (λ f spec, go_import spec f) f (filter (λ d, kind d = "import_spec") (children child))
      else go_walk gin_names child scope f) cs f
  end.
(** src/crates/weave-graph-parse/src/extract/go.rs:126-131 [extract] *)
Definition go_extract (root : Cst) : ParsedFile := go_walk (gin_instance_names root) root [] no_file.

(** ** Java *)

Definition CONTROLLER_ANNOTATIONS : list string := ["RestController"; "Controller"].
Definition MAPPING_ANNOTATIONS : list (string * string) :=
  [("GetMapping", "GET"); ("PostMapping", "POST"); ("PutMapping", "PUT"); ("DeleteMapping", "DELETE"); ("PatchMapping", "PATCH")].

(** src/crates/weave-graph-parse/src/extract/java.rs:42-46 [spring_route::find_modifiers] *)
Definition find_modifiers (c : Cst) : option Cst := snd <$> list_find (λ d, kind d = "modifiers") (named_children c).

(** src/crates/weave-graph-parse/src/extract/java.rs:51-61 [spring_route::class_is_controller] *)
Definition class_is_controller (c : Cst) : bool :=
  match find_modifiers c with
  | None => false
  | Some modifiers =>
      existsb (λ n, bool_decide (kind n = "marker_annotation") &&
                    match field "name" n with Some name => bool_decide (text source name ∈ CONTROLLER_ANNOTATIONS) | None => false end)
        (named_children modifiers)
  end.

(** src/crates/weave-graph-parse/src/extract/java.rs:188-194 [spring_route::string_literal_value] *)
Definition java_string_value (c : Cst) : option string :=
  text source <$> (snd <$> list_find (λ d, kind d = "string_fragment") (named_children c)).

(** src/crates/weave-graph-parse/src/extract/java.rs:133-160 [spring_route::request_mapping_method]
    One argument: a verb ends the loop. *)
Definition mapping_method (pair : Cst) : option string :=
  if decide (kind pair = "element_value_pair") then
    key ← field "key" pair;
    if negb (bool_decide (text source key = "method")) then None else
    value ← field "value" pair;
    if negb (bool_decide (kind value = "field_access")) then None else
    verb ← field "field" value;
    Some (if bool_decide (text source verb ∈ GIN_METHODS) then text source verb else "ANY")
  else None.
(** src/crates/weave-graph-parse/src/extract/java.rs:131-161 [spring_route::request_mapping_method] *)
Definition request_mapping_method (args : option Cst) : string :=
  match args with None => "ANY" | Some args => default "ANY" (head (omap mapping_method (named_children args))) end.

(** src/crates/weave-graph-parse/src/extract/java.rs:168-186 [spring_route::annotation_path_value]
    A pair without a key ends the search. *)
Fixpoint path_value (args : list Cst) : option string :=
  match args with
  | [] => None
  | c :: args =>
      if decide (kind c = "string_literal") then java_string_value c
      else if decide (kind c = "element_value_pair") then
        key ← field "key" c;
        if decide (text source key = "value" ∨ text source key = "path") then
          value ← field "value" c;
          if decide (kind value = "string_literal") then java_string_value value else path_value args
        else path_value args
      else path_value args
  end.

(** src/crates/weave-graph-parse/src/extract/java.rs:89-126 [spring_route::route_from_annotation] *)
Definition route_from_annotation (method_name : string) (annotation : Cst) : option Route_ :=
  name_node ← field "name" annotation;
  let annotation_name := text source name_node in
  let args := field "arguments" annotation in
  http_method ← match snd <$> (snd <$> list_find (λ p : string * string, p.1 = annotation_name) MAPPING_ANNOTATIONS) with
                | Some http => Some http
                | None => if decide (annotation_name = "RequestMapping") then Some (request_mapping_method args) else None
                end;
  args ← args;
  route_path ← path_value (named_children args);
  Some (route_of path annotation http_method route_path ("@" +:+ annotation_name +:+ "(" +:+ quoted_text route_path +:+ ")") method_name).

(** src/crates/weave-graph-parse/src/extract/java.rs:66-87 [spring_route::detect] *)
Definition spring_detect (is_controller : bool) (method_name : string) (method : Cst) : option Route_ :=
  if negb is_controller then None else
  modifiers ← find_modifiers method;
  head (omap (route_from_annotation method_name) (filter (λ n, kind n = "annotation") (named_children modifiers))).

(** src/crates/weave-graph-parse/src/extract/java.rs:318-326 [import_leaf] *)
Fixpoint leaf_of (c : Cst) : option string :=
  match c with mkCst k _ _ _ _ _ cs =>
    if decide (k = "scoped_identifier") then mjoin (on_field leaf_of "name" cs)
    else if decide (k = "identifier" ∨ k = "asterisk") then Some (text source c)
    else None
  end.
(** src/crates/weave-graph-parse/src/extract/java.rs:317-332 [import_leaf] *)
Definition import_leaf (c : Cst) : option string := head (omap leaf_of (named_children c)).

(** src/crates/weave-graph-parse/src/extract/java.rs:357-367 [collect_calls]
    What one node adds. *)
Definition java_call (caller : string) (c : Cst) (f : ParsedFile) : ParsedFile :=
  if decide (kind c = "method_invocation") then
    match field "name" c with
    | Some name => add_call (mkCall caller (text source name) (bool_decide (is_Some (field "object" c)))) f
    | None => f
    end
  else f.
(** src/crates/weave-graph-parse/src/extract/java.rs:357-372 [collect_calls] *)
Definition java_collect_calls (caller : string) : Cst → ParsedFile → ParsedFile := preorder_fold (java_call caller).

(** src/crates/weave-graph-parse/src/extract/java.rs:245-266 [walk]
    The superclass and the interfaces of a class. *)
Definition java_heritage (c : Cst) : list (string * StructuralEdgeKind) :=
  match (superclass ← field "superclass" c; named_child 0 superclass) with Some t => [(text source t, Inherits)] | None => [] end ++
  match (interfaces ← field "interfaces" c; named_child 0 interfaces) with
  | Some type_list => (λ t, (text source t, Implements)) <$> named_children type_list
  | None => []
  end.

(** src/crates/weave-graph-parse/src/extract/java.rs:207-315 [walk] *)
Fixpoint java_walk (c : Cst) (scope : list string) (in_controller_class : bool) (f : ParsedFile) {struct c} : ParsedFile :=
  match c with mkCst _ _ _ _ _ _ cs =>
    for_each (λ child f,
      match child with mkCst k _ _ _ _ _ parts =>
        let into_body scope controller f := default f (on_field (λ body, java_walk body scope controller f) "body" parts) in
        if decide (k = "interface_declaration") then
          match field "name" child with
          | None => f
          | Some name => into_body (scope ++ [text source name]) false (push_symbol child scope (text source name) Interface f)
          end
        else if decide (k = "class_declaration") then
          match field "name" child with
          | None => f
          | Some name =>
              let name := text source name in
              let f := push_symbol child scope name ClassKind f in
              let f := add_edges ((λ p : string * StructuralEdgeKind, mkStructural (moniker_of scope name) p.1 p.2) <$> java_heritage child) f in
              into_body (scope ++ [name]) (framework_routes && class_is_controller child) f
          end
        else if decide (k = "method_declaration") then
          match field "name" child with
          | None => f
          | Some name =>
              let method_name := text source name in
              let f := push_symbol child scope method_name Method f in
              let f := if framework_routes then add_route (spring_detect in_controller_class method_name child) f else f in
              match field "body" child with
              | Some body => java_collect_calls (moniker_of scope method_name) body f
              | None => f
              end
          end
        else if decide (k = "import_declaration") then
          match import_leaf child with Some leaf => add_edge (mkStructural (module_moniker path) leaf Imports) f | None => f end
        else java_walk child scope in_controller_class f
      end) cs f
  end.
(** src/crates/weave-graph-parse/src/extract/java.rs:197-201 [extract] *)
Definition java_extract (root : Cst) : ParsedFile := java_walk root [] false no_file.

(** ** C and C++ *)

(** src/crates/weave-graph-parse/src/extract/cpp.rs:97-105 [innermost_function_declarator]
    In C without references. *)
Fixpoint innermost_function_declarator (cpp : bool) (c : Cst) : option Cst :=
  match c with mkCst k _ _ _ _ _ cs =>
    if decide (k = "function_declarator") then Some c
    else if decide (k = "pointer_declarator" ∨ k = "parenthesized_declarator" ∨ cpp = true ∧ k = "reference_declarator") then
      mjoin (on_field (innermost_function_declarator cpp) "declarator" cs)
    else None
  end.
(** src/crates/weave-graph-parse/src/extract/c.rs:31-34 [walk] *)
Definition declared_name (cpp : bool) (c : Cst) : option Cst :=
  declarator ← field "declarator" c;
  func_decl ← innermost_function_declarator cpp declarator;
  field "declarator" func_decl.

(** src/crates/weave-graph-parse/src/extract/c.rs:49-55 [walk] *)
Definition include_target (raw : string) : string := trim_end_by (one_of [">"; dquote]%char) (trim_start_by (one_of ["<"; dquote]%char) raw).
Definition c_include (c : Cst) (f : ParsedFile) : ParsedFile :=
  match field "path" c with
  | Some p => add_edge (mkStructural (module_moniker path) (include_target (text source p)) Imports) f
  | None => f
  end.

(** src/crates/weave-graph-parse/src/extract/c.rs:99-125 [collect_calls] *)
Definition c_collect_calls (caller : string) : Cst → ParsedFile → ParsedFile :=
  preorder_fold (simple_call "call_expression" "function" "field_expression" "field" caller).

(** src/crates/weave-graph-parse/src/extract/c.rs:15-66 [walk]
    [push_symbol] without a scope. *)
Fixpoint c_walk (c : Cst) (f : ParsedFile) {struct c} : ParsedFile :=
  match c with mkCst _ _ _ _ _ _ cs =>
    for_each (λ child f,
      if decide (kind child = "struct_specifier") then
        match field "name" child with Some name => push_symbol child [] (text source name) Struct f | None => f end
      else if decide (kind child = "function_definition") then
        match declared_name false child with
        | None => f
        | Some name => push_function c_collect_calls child [] (text source name) Function (field "body" child) f
        end
      else if decide (kind child = "preproc_include") then c_include child f
      else c_walk child f) cs f
  end.
(** src/crates/weave-graph-parse/src/extract/c.rs:9-13 [extract] *)
Definition c_extract (root : Cst) : ParsedFile := c_walk root no_file.

(** src/crates/weave-graph-parse/src/extract/cpp.rs:31-43 [walk] *)
Definition cpp_bases (c : Cst) : list Cst :=
  match child_by_kind "base_class_clause" c with Some bases => filter (λ n, kind n = "type_identifier") (named_children bases) | None => [] end.

(** src/crates/weave-graph-parse/src/extract/cpp.rs:15-95 [walk] *)
Fixpoint cpp_walk (c : Cst) (scope : list string) (f : ParsedFile) {struct c} : ParsedFile :=
  match c with mkCst _ _ _ _ _ _ cs =>
    for_each (λ child f,
      match child with mkCst k _ _ _ _ _ parts =>
        let into_body scope f := default f (on_field (λ body, cpp_walk body scope f) "body" parts) in
        if decide (k = "class_specifier" ∨ k = "struct_specifier") then
          match field "name" child with
          | None => f
          | Some name =>
              let name := text source name in
              let kind_ := if decide (k = "class_specifier") then ClassKind else Struct in
              let f := push_symbol child scope name kind_ f in
              let f := add_edges ((λ t, mkStructural (moniker_of scope name) (text source t) Inherits) <$> cpp_bases child) f in
              into_body (scope ++ [name]) f
          end
        else if decide (k = "namespace_definition") then
          match field "name" child with Some name => into_body (scope ++ [text source name]) f | None => f end
        else if decide (k = "function_definition") then
          match declared_name true child with
          | None => f
          | Some name => push_function c_collect_calls child scope (text source name) (function_kind scope) (field "body" child) f
          end
        else if decide (k = "preproc_include") then c_include child f
        else cpp_walk child scope f
      end) cs f
  end.
(** src/crates/weave-graph-parse/src/extract/cpp.rs:9-13 [extract] *)
Definition cpp_extract (root : Cst) : ParsedFile := cpp_walk root [] no_file.
End extract.
