(* ===== verification/ExtractMore.v ===== *)
(** * The extractors of the extended languages (weave-graph-parse: extract/)

    C#, Kotlin, Swift, Scala, Zig, Ruby, PHP, the shells, Lua, SQL, HTML, CSS, R,
    Dart and Elixir, each as its file writes it. *)

From S2P Require Import Prelude Str Language Interner ProjectIndex Http Cst Extract.

Section extended.
Context (source path : string).
#[local] Notation card_of := (card_of path).
#[local] Notation push_symbol := (push_symbol source path).
#[local] Notation push_function := (push_function source path).
#[local] Notation moniker_of := (moniker_of path).
#[local] Notation simple_call := (simple_call source).
#[local] Notation text := (text source).
#[local] Notation import_of target := (mkStructural (module_moniker path) target Imports) (only parsing).

(** The edges of a declaration. *)
Definition edges_from (moniker : string) (k : StructuralEdgeKind) (targets : list Cst) : list RawStructuralEdge :=
  (λ t, mkStructural moniker (text t) k) <$> targets.
(** A call named by a field of its node. *)
Definition field_call (call_kind name_field : string) (member : Cst → bool) (caller : string) (c : Cst) (f : ParsedFile) : ParsedFile :=
  if decide (kind c = call_kind) then
    match field name_field c with Some name => add_call (mkCall caller (text name) (member c)) f | None => f end
  else f.

(** ** Bash *)

(** src/crates/weave-graph-parse/src/extract/bash.rs:67-81 [collect_calls] *)
Definition bash_collect_calls (caller : string) : Cst → ParsedFile → ParsedFile := preorder_fold (field_call "command" "name" (λ _, false) caller).
(** src/crates/weave-graph-parse/src/extract/bash.rs:18-42 [walk]
    The scope is always empty. *)
Fixpoint bash_walk (c : Cst) (f : ParsedFile) {struct c} : ParsedFile :=
  match c with mkCst _ _ _ _ _ _ cs =>
    for_each (λ child f,
      if decide (kind child = "function_definition") then
        match field "name" child with
        | Some name => push_function bash_collect_calls child [] (text name) Function (Some child) f
        | None => f
        end
      else bash_walk child f) cs f
  end.
(** src/crates/weave-graph-parse/src/extract/bash.rs:12-16 [extract] *)
Definition bash_extract (root : Cst) : ParsedFile := bash_walk root no_file.

(** ** C# *)

(** src/crates/weave-graph-parse/src/extract/csharp.rs:115-141 [collect_calls] *)
Definition csharp_collect_calls (caller : string) : Cst → ParsedFile → ParsedFile :=
  preorder_fold (simple_call "invocation_expression" "function" "member_access_expression" "name" caller).
(** src/crates/weave-graph-parse/src/extract/csharp.rs:15-90 [walk] *)
Fixpoint csharp_walk (c : Cst) (scope : list string) (f : ParsedFile) {struct c} : ParsedFile :=
  match c with mkCst _ _ _ _ _ _ cs =>
    for_each (λ child f,
      match child with mkCst k _ _ _ _ _ parts =>
        let into_body scope f := default f (on_field (λ body, csharp_walk body scope f) "body" parts) in
        if decide (k = "namespace_declaration") then
          match field "name" child with Some name => into_body (scope ++ [text name]) f | None => f end
        else if decide (k = "interface_declaration" ∨ k = "class_declaration") then
          match field "name" child with
          | None => f
          | Some name =>
              let name := text name in
              let f := push_symbol child scope name (if decide (k = "interface_declaration") then Interface else ClassKind) f in
              let bases := match child_by_kind "base_list" child with Some l => named_children l | None => [] end in
              into_body (scope ++ [name]) (add_edges (edges_from (moniker_of scope name) Inherits bases) f)
          end
        else if decide (k = "method_declaration") then
          match field "name" child with
          | Some name => push_function csharp_collect_calls child scope (text name) Method (field "body" child) f
          | None => f
          end
        else if decide (k = "using_directive") then
          match named_child 0 child with Some target => add_edge (import_of (text target)) f | None => f end
        else csharp_walk child scope f
      end) cs f
  end.
(** src/crates/weave-graph-parse/src/extract/csharp.rs:9-13 [extract] *)
Definition csharp_extract (root : Cst) : ParsedFile := csharp_walk root [] no_file.

(** ** Kotlin *)

(** src/crates/weave-graph-parse/src/extract/kotlin.rs:94-101 [inheritance_target] *)
Definition inheritance_target (spec : Cst) : option Cst :=
  user_type ← (if decide (kind spec = "user_type") then Some spec else child_by_kind "user_type" spec);
  child_by_kind "identifier" user_type.
(** src/crates/weave-graph-parse/src/extract/kotlin.rs:103-132 [push_symbol] *)
Definition kotlin_push_symbol (c : Cst) (scope : list string) (name : string) (k : SymbolKind) (f : ParsedFile) : ParsedFile :=
  let body_kind := if decide (kind c = "class_declaration") then "class_body" else "function_body" in
  add_card (card_of c (signature_by_body_kind source body_kind c) scope name k) f.
(** src/crates/weave-graph-parse/src/extract/kotlin.rs:134-154 [collect_calls]
    What one node adds. *)
Definition kotlin_call (caller : string) (c : Cst) (f : ParsedFile) : ParsedFile :=
  if decide (kind c = "call_expression") then
    match named_child 0 c with
    | None => f
    | Some callee =>
        if decide (kind callee = "navigation_expression") then call_named caller (text <$> last (named_children callee)) true f
        else if decide (kind callee = "identifier" ∨ kind callee = "simple_identifier") then call_named caller (Some (text callee)) false f
        else f
    end
  else f.
(** src/crates/weave-graph-parse/src/extract/kotlin.rs:134-159 [collect_calls] *)
Definition kotlin_collect_calls (caller : string) : Cst → ParsedFile → ParsedFile := preorder_fold (kotlin_call caller).
(** src/crates/weave-graph-parse/src/extract/kotlin.rs:69-84 [walk] *)
Definition kotlin_import (c : Cst) (f : ParsedFile) : ParsedFile :=
  match (qi ← child_by_kind "qualified_identifier" c; last (filter (λ n, kind n = "identifier") (named_children qi))) with
  | Some leaf => add_edge (import_of (text leaf)) f
  | None => f
  end.
(** src/crates/weave-graph-parse/src/extract/kotlin.rs:20-88 [walk] *)
Fixpoint kotlin_walk (c : Cst) (scope : list string) (f : ParsedFile) {struct c} : ParsedFile :=
  match c with mkCst _ _ _ _ _ _ cs =>
    for_each (λ child f,
      match child with mkCst k _ _ _ _ _ parts =>
        if decide (k = "class_declaration") then
          match field "name" child with
          | None => f
          | Some name =>
              let name := text name in
              let f := kotlin_push_symbol child scope name (match child_by_kind "interface" child with Some _ => Interface | None => ClassKind end) f in
              let targets := match child_by_kind "delegation_specifiers" child with
                             | Some l => omap inheritance_target (named_children l)
                             | None => []
                             end in
              let f := add_edges (edges_from (moniker_of scope name) Inherits targets) f in
              default f (on_kind (λ body, kotlin_walk body (scope ++ [name]) f) "class_body" parts)
          end
        else if decide (k = "function_declaration") then
          match field "name" child with
          | None => f
          | Some name =>
              let f := kotlin_push_symbol child scope (text name) (function_kind scope) f in
              match child_by_kind "function_body" child with
              | Some body => kotlin_collect_calls (moniker_of scope (text name)) body f
              | None => f
              end
          end
        else if decide (k = "import") then kotlin_import child f
        else kotlin_walk child scope f
      end) cs f
  end.
(** src/crates/weave-graph-parse/src/extract/kotlin.rs:14-18 [extract] *)
Definition kotlin_extract (root : Cst) : ParsedFile := kotlin_walk root [] no_file.

(** ** Lua *)

(** src/crates/weave-graph-parse/src/extract/lua.rs:50-75 [collect_calls] *)
Definition lua_collect_calls (caller : string) : Cst → ParsedFile → ParsedFile :=
  preorder_fold (simple_call "function_call" "name" "method_index_expression" "method" caller).
(** src/crates/weave-graph-parse/src/extract/lua.rs:18-34 [walk] *)
Fixpoint lua_walk (c : Cst) (f : ParsedFile) {struct c} : ParsedFile :=
  match c with mkCst _ _ _ _ _ _ cs =>
    for_each (λ child f,
      if decide (kind child = "function_declaration") then
        match field "name" child with
        | Some name =>
            if decide (kind name = "identifier") then push_function lua_collect_calls child [] (text name) Function (field "body" child) f else f
        | None => f
        end
      else lua_walk child f) cs f
  end.
(** src/crates/weave-graph-parse/src/extract/lua.rs:12-16 [extract] *)
Definition lua_extract (root : Cst) : ParsedFile := lua_walk root no_file.

(** ** PowerShell *)

(** src/crates/weave-graph-parse/src/extract/powershell.rs:67-81 [collect_calls] *)
Definition powershell_collect_calls (caller : string) : Cst → ParsedFile → ParsedFile :=
  preorder_fold (field_call "command" "command_name" (λ _, false) caller).
(** src/crates/weave-graph-parse/src/extract/powershell.rs:18-42 [walk]
    With [push_symbol]; the scope is always empty. *)
Fixpoint powershell_walk (c : Cst) (f : ParsedFile) {struct c} : ParsedFile :=
  match c with mkCst _ _ _ _ _ _ cs =>
    for_each (λ child f,
      if decide (kind child = "function_statement") then
        match child_by_kind "function_name" child with
        | None => f
        | Some name =>
            let f := add_card (card_of child (signature_by_body_kind source "script_block" child) [] (text name) Function) f in
            powershell_collect_calls (moniker_of [] (text name)) child f
        end
      else powershell_walk child f) cs f
  end.
(** src/crates/weave-graph-parse/src/extract/powershell.rs:12-16 [extract] *)
Definition powershell_extract (root : Cst) : ParsedFile := powershell_walk root no_file.

(** ** Ruby *)

(** src/crates/weave-graph-parse/src/extract/ruby.rs:84-99 [collect_calls] *)
Definition ruby_collect_calls (caller : string) : Cst → ParsedFile → ParsedFile :=
  preorder_fold (field_call "call" "method" (λ c, bool_decide (is_Some (field "receiver" c))) caller).
(** src/crates/weave-graph-parse/src/extract/ruby.rs:15-59 [walk] *)
Fixpoint ruby_walk (c : Cst) (scope : list string) (f : ParsedFile) {struct c} : ParsedFile :=
  match c with mkCst _ _ _ _ _ _ cs =>
    for_each (λ child f,
      match child with mkCst k _ _ _ _ _ parts =>
        if decide (k = "class") then
          match field "name" child with
          | None => f
          | Some name =>
              let name := text name in
              let f := push_symbol child scope name ClassKind f in
              let bases := match (superclass ← field "superclass" child; named_child 0 superclass) with Some t => [t] | None => [] end in
              let f := add_edges (edges_from (moniker_of scope name) Inherits bases) f in
              default f (on_field (λ body, ruby_walk body (scope ++ [name]) f) "body" parts)
          end
        else if decide (k = "method") then
          match field "name" child with
          | Some name => push_function ruby_collect_calls child scope (text name) (function_kind scope) (field "body" child) f
          | None => f
          end
        else ruby_walk child scope f
      end) cs f
  end.
(** src/crates/weave-graph-parse/src/extract/ruby.rs:9-13 [extract] *)
Definition ruby_extract (root : Cst) : ParsedFile := ruby_walk root [] no_file.

(** ** Scala *)

(** src/crates/weave-graph-parse/src/extract/scala.rs:103-129 [collect_calls] *)
Definition scala_collect_calls (caller : string) : Cst → ParsedFile → ParsedFile :=
  preorder_fold (simple_call "call_expression" "function" "field_expression" "field" caller).
(** src/crates/weave-graph-parse/src/extract/scala.rs:15-78 [walk] *)
Fixpoint scala_walk (c : Cst) (scope : list string) (f : ParsedFile) {struct c} : ParsedFile :=
  match c with mkCst _ _ _ _ _ _ cs =>
    for_each (λ child f,
      match child with mkCst k _ _ _ _ _ parts =>
        if decide (k = "trait_definition" ∨ k = "class_definition") then
          match field "name" child with
          | None => f
          | Some name =>
              let name := text name in
              let f := push_symbol child scope name (if decide (k = "trait_definition") then Interface else ClassKind) f in
              let bases := match (extend ← field "extend" child; field "type" extend) with Some t => [t] | None => [] end in
              let f := add_edges (edges_from (moniker_of scope name) Inherits bases) f in
              default f (on_field (λ body, scala_walk body (scope ++ [name]) f) "body" parts)
          end
        else if decide (k = "function_declaration" ∨ k = "function_definition") then
          match field "name" child with
          | Some name => push_function scala_collect_calls child scope (text name) (function_kind scope) (field "body" child) f
          | None => f
          end
        else if decide (k = "import_declaration") then
          match last (filter (λ n, kind n = "identifier") (fields "path" child)) with
          | Some leaf => add_edge (import_of (text leaf)) f
          | None => f
          end
        else scala_walk child scope f
      end) cs f
  end.
(** src/crates/weave-graph-parse/src/extract/scala.rs:9-13 [extract] *)
Definition scala_extract (root : Cst) : ParsedFile := scala_walk root [] no_file.

(** ** Swift *)

(** src/crates/weave-graph-parse/src/extract/swift.rs:140-144 [member_name] *)
Definition swift_member_name (navigation : Cst) : option string :=
  suffix ← field "suffix" navigation;
  member ← field "suffix" suffix;
  Some (text member).
(** src/crates/weave-graph-parse/src/extract/swift.rs:117-133 [collect_calls]
    What one node adds. *)
Definition swift_call (caller : string) (c : Cst) (f : ParsedFile) : ParsedFile :=
  if decide (kind c = "call_expression") then
    match named_child 0 c with
    | None => f
    | Some callee =>
        if decide (kind callee = "navigation_expression") then call_named caller (swift_member_name callee) true f
        else if decide (kind callee = "simple_identifier") then call_named caller (Some (text callee)) false f
        else f
    end
  else f.
(** src/crates/weave-graph-parse/src/extract/swift.rs:117-138 [collect_calls] *)
Definition swift_collect_calls (caller : string) : Cst → ParsedFile → ParsedFile := preorder_fold (swift_call caller).
(** src/crates/weave-graph-parse/src/extract/swift.rs:34-36 [walk] *)
Definition swift_base (c : Cst) : list Cst :=
  match (spec ← child_by_kind "inheritance_specifier" c; user_type ← field "inherits_from" spec; child_by_kind "type_identifier" user_type) with
  | Some t => [t]
  | None => []
  end.
(** src/crates/weave-graph-parse/src/extract/swift.rs:15-92 [walk] *)
Fixpoint swift_walk (c : Cst) (scope : list string) (f : ParsedFile) {struct c} : ParsedFile :=
  match c with mkCst _ _ _ _ _ _ cs =>
    for_each (λ child f,
      match child with mkCst k _ _ _ _ _ parts =>
        if decide (k = "protocol_declaration" ∨ k = "class_declaration") then
          match field "name" child with
          | None => f
          | Some name =>
              let name := text name in
              let f := push_symbol child scope name (if decide (k = "protocol_declaration") then Interface else ClassKind) f in
              let f := add_edges (edges_from (moniker_of scope name) Inherits (swift_base child)) f in
              default f (on_field (λ body, swift_walk body (scope ++ [name]) f) "body" parts)
          end
        else if decide (k = "protocol_function_declaration") then
          match field "name" child with Some name => push_symbol child scope (text name) Method f | None => f end
        else if decide (k = "function_declaration") then
          match field "name" child with
          | Some name => push_function swift_collect_calls child scope (text name) (function_kind scope) (field "body" child) f
          | None => f
          end
        else if decide (k = "import_declaration") then
          match (i ← child_by_kind "identifier" child; child_by_kind "simple_identifier" i) with
          | Some id => add_edge (import_of (text id)) f
          | None => f
          end
        else swift_walk child scope f
      end) cs f
  end.
(** src/crates/weave-graph-parse/src/extract/swift.rs:9-13 [extract] *)
Definition swift_extract (root : Cst) : ParsedFile := swift_walk root [] no_file.

(** ** Zig *)

(** src/crates/weave-graph-parse/src/extract/zig.rs:105-131 [collect_calls] *)
Definition zig_collect_calls (caller : string) : Cst → ParsedFile → ParsedFile :=
  preorder_fold (simple_call "call_expression" "function" "field_expression" "member" caller).
(** src/crates/weave-graph-parse/src/extract/zig.rs:71-80 [import_call_target] *)
Definition import_call_target (c : Cst) : option string :=
  builtin ← child_by_kind "builtin_function" c;
  name ← child_by_kind "builtin_identifier" builtin;
  if negb (bool_decide (text name = "@import")) then None else
  arguments ← child_by_kind "arguments" builtin;
  string_node ← child_by_kind "string" arguments;
  text <$> child_by_kind "string_content" string_node.
(** src/crates/weave-graph-parse/src/extract/zig.rs:20-67 [walk] *)
Fixpoint zig_walk (c : Cst) (scope : list string) (f : ParsedFile) {struct c} : ParsedFile :=
  match c with mkCst _ _ _ _ _ _ cs =>
    for_each (λ child f,
      match child with mkCst k _ _ _ _ _ parts =>
        if decide (k = "variable_declaration") then
          match child_by_kind "identifier" child with
          | None => f
          | Some name =>
              let name := text name in
              match on_kind (λ decl, zig_walk decl (scope ++ [name]) (push_symbol child scope name Struct f)) "struct_declaration" parts with
              | Some f => f
              | None => match import_call_target child with Some target => add_edge (import_of target) f | None => f end
              end
          end
        else if decide (k = "function_declaration") then
          match field "name" child with
          | Some name => push_function zig_collect_calls child scope (text name) (function_kind scope) (field "body" child) f
          | None => f
          end
        else zig_walk child scope f
      end) cs f
  end.
(** src/crates/weave-graph-parse/src/extract/zig.rs:14-18 [extract] *)
Definition zig_extract (root : Cst) : ParsedFile := zig_walk root [] no_file.

(** ** PHP *)

(** src/crates/weave-graph-parse/src/extract/php.rs:9-14 [IMPORT_EXPRESSION_KINDS] *)
Definition IMPORT_EXPRESSION_KINDS : list string := ["require_expression"; "require_once_expression"; "include_expression"; "include_once_expression"].
(** src/crates/weave-graph-parse/src/extract/php.rs:113-128 [emit_targets] *)
Definition php_targets (clause : option Cst) : list Cst :=
  match clause with Some clause => filter (λ n, kind n = "name") (named_children clause) | None => [] end.
(** src/crates/weave-graph-parse/src/extract/php.rs:153-174 [collect_calls]
    What one node adds. *)
Definition php_call (caller : string) (c : Cst) (f : ParsedFile) : ParsedFile :=
  field_call "member_call_expression" "name" (λ _, true) caller c (field_call "function_call_expression" "function" (λ _, false) caller c f).
(** src/crates/weave-graph-parse/src/extract/php.rs:153-179 [collect_calls] *)
Definition php_collect_calls (caller : string) : Cst → ParsedFile → ParsedFile := preorder_fold (php_call caller).
(** src/crates/weave-graph-parse/src/extract/php.rs:22-111 [walk] *)
Fixpoint php_walk (c : Cst) (scope : list string) (f : ParsedFile) {struct c} : ParsedFile :=
  match c with mkCst _ _ _ _ _ _ cs =>
    for_each (λ child f,
      match child with mkCst k _ _ _ _ _ parts =>
        if decide (k ∈ IMPORT_EXPRESSION_KINDS) then
          match (s ← child_by_kind "string" child; child_by_kind "string_content" s) with
          | Some target => add_edge (import_of (text target)) f
          | None => f
          end
        else if decide (k = "interface_declaration" ∨ k = "class_declaration") then
          match field "name" child with
          | None => f
          | Some name =>
              let name := text name in
              let f := push_symbol child scope name (if decide (k = "interface_declaration") then Interface else ClassKind) f in
              let f := add_edges (edges_from (moniker_of scope name) Implements (php_targets (child_by_kind "class_interface_clause" child))) f in
              let f := add_edges (edges_from (moniker_of scope name) Inherits (php_targets (child_by_kind "base_clause" child))) f in
              default f (on_field (λ body, php_walk body (scope ++ [name]) f) "body" parts)
          end
        else if decide (k = "method_declaration") then
          match field "name" child with
          | Some name => push_function php_collect_calls child scope (text name) Method (field "body" child) f
          | None => f
          end
        else if decide (k = "function_definition") then
          match field "name" child with
          | Some name => push_function php_collect_calls child scope (text name) Function (field "body" child) f
          | None => f
          end
        else php_walk child scope f
      end) cs f
  end.
(** src/crates/weave-graph-parse/src/extract/php.rs:16-20 [extract] *)
Definition php_extract (root : Cst) : ParsedFile := php_walk root [] no_file.
End extended.
