(* ===== verification/ExtractData.v ===== *)
(** * The extractors of markup, data and dynamic languages (weave-graph-parse: extract/)

    CSS, HTML, R, SQL, Dart and Elixir. *)

From S2P Require Import Prelude Str Language Interner ProjectIndex Http Cst Extract ExtractMore.

Section data.
Context (source path : string).
#[local] Notation push_symbol := (push_symbol source path).
#[local] Notation push_function := (push_function source path).
#[local] Notation moniker_of := (moniker_of path).
#[local] Notation simple_call := (simple_call source).
#[local] Notation edges_from := (edges_from source).
#[local] Notation text := (text source).
#[local] Notation import_of target := (mkStructural (module_moniker path) target Imports) (only parsing).

(** A chain of [child_by_kind]. *)
Fixpoint down (kinds : list string) (c : Cst) : option Cst :=
  match kinds with [] => Some c | k :: kinds => d ← child_by_kind k c; down kinds d end.

(** ** CSS *)

(** src/crates/weave-graph-parse/src/extract/css.rs:27-46 [extract_import] *)
Definition css_import (c : Cst) (f : ParsedFile) : ParsedFile :=
  match (match down ["string_value"; "string_content"] c with
         | Some t => Some t
         | None => down ["call_expression"; "arguments"; "string_value"; "string_content"] c
         end) with
  | Some t => add_edge (import_of (text t)) f
  | None => f
  end.
(** src/crates/weave-graph-parse/src/extract/css.rs:70-107 [collect_selector_symbols]
    What one node adds; its children follow in every case. *)
Definition css_selector (rule : Cst) (c : Cst) (f : ParsedFile) : ParsedFile :=
  if decide (kind c = "class_selector") then
    match down ["class_name"; "identifier"] c with Some ident => push_symbol rule [] (text ident) ClassKind f | None => f end
  else if decide (kind c = "id_selector") then
    match child_by_kind "id_name" c with Some name => push_symbol rule [] (text name) Struct f | None => f end
  else f.
(** src/crates/weave-graph-parse/src/extract/css.rs:57-68 [extract_selectors] *)
Definition css_selectors (selectors rule : Cst) (f : ParsedFile) : ParsedFile :=
  foldl (λ f c, preorder_fold (css_selector rule) c f) f (children selectors).
(** src/crates/weave-graph-parse/src/extract/css.rs:130-148 [collect_var_calls]
    What one node adds. *)
Definition css_var_call (c : Cst) (f : ParsedFile) : ParsedFile :=
  if decide (kind c = "call_expression") then
    match child_by_kind "function_name" c, child_by_kind "arguments" c with
    | Some name, Some args =>
        if decide (text name = "var") then
          match snd <$> list_find (λ v, starts_with v "--" = true) ((λ a, trim (text a)) <$> children args) with
          | Some v => add_call (mkCall (module_moniker path) v false) f
          | None => f
          end
        else f
    | _, _ => f
    end
  else f.
(** src/crates/weave-graph-parse/src/extract/css.rs:118-128 [extract_declaration] *)
Definition css_declaration (c : Cst) (f : ParsedFile) : ParsedFile :=
  match child_by_kind "property_name" c with
  | None => f
  | Some name =>
      let f := if starts_with (text name) "--" then push_symbol c [] (text name) Struct f else f in
      preorder_fold css_var_call c f
  end.
(** src/crates/weave-graph-parse/src/extract/css.rs:48-55 [extract_rule_set]
    With [extract_block]. *)
Definition css_rule_set (c : Cst) (f : ParsedFile) : ParsedFile :=
  let f := match child_by_kind "selectors" c with Some selectors => css_selectors selectors c f | None => f end in
  match child_by_kind "block" c with
  | Some block => foldl (λ f d, css_declaration d f) f (filter (λ d, kind d = "declaration") (children block))
  | None => f
  end.
(** src/crates/weave-graph-parse/src/extract/css.rs:156-162 [extract_keyframes] *)
Definition css_keyframes (c : Cst) (f : ParsedFile) : ParsedFile :=
  match child_by_kind "keyframes_name" c with Some name => push_symbol c [] (text name) Function f | None => f end.
(** src/crates/weave-graph-parse/src/extract/css.rs:15-25 [walk] *)
Fixpoint css_walk (c : Cst) (f : ParsedFile) {struct c} : ParsedFile :=
  match c with mkCst _ _ _ _ _ _ cs =>
    for_each (λ child f,
      if decide (kind child = "import_statement") then css_import child f
      else if decide (kind child = "rule_set") then css_rule_set child f
      else if decide (kind child = "keyframes_statement") then css_keyframes child f
      else css_walk child f) cs f
  end.
(** src/crates/weave-graph-parse/src/extract/css.rs:9-13 [extract] *)
Definition css_extract (root : Cst) : ParsedFile := css_walk root no_file.

(** ** HTML *)

(** src/crates/weave-graph-parse/src/extract/html.rs:102-112 [attr_key_value] *)
Definition attr_key_value (attr : Cst) : string * string :=
  (default "" (text <$> child_by_kind "attribute_name" attr),
   match down ["quoted_attribute_value"; "attribute_value"] attr with
   | Some v => text v
   | None => default "" (text <$> child_by_kind "attribute_value" attr)
   end).
Definition attributes (tag : Cst) : list Cst := filter (λ a, kind a = "attribute") (children tag).
(** src/crates/weave-graph-parse/src/extract/html.rs:47-71 [extract_link_href] *)
Definition html_link_href (tag : Cst) (f : ParsedFile) : ParsedFile :=
  let '(is_stylesheet, href_target) :=
    foldl (λ (st : bool * option string) attr,
      let '(name, val) := attr_key_value attr in
      if bool_decide (name = "rel") && str_contains val "stylesheet" then (true, st.2)
      else if bool_decide (name = "href") && negb (is_empty val) then (st.1, Some val)
      else st) (false, None) (attributes tag) in
  match href_target with Some target => if is_stylesheet : bool then add_edge (import_of target) f else f | None => f end.
(** src/crates/weave-graph-parse/src/extract/html.rs:73-88 [extract_script_src] *)
Definition html_script_src (tag : Cst) (f : ParsedFile) : ParsedFile :=
  match snd <$> list_find (λ p : string * string, p.1 = "src" ∧ p.2 ≠ "") (attr_key_value <$> attributes tag) with
  | Some (_, val) => add_edge (import_of val) f
  | None => f
  end.
(** src/crates/weave-graph-parse/src/extract/html.rs:90-100 [extract_id_attributes] *)
Definition html_id_attributes (tag : Cst) (f : ParsedFile) : ParsedFile :=
  foldl (λ f attr, let '(name, val) := attr_key_value attr in
    if bool_decide (name = "id") && negb (is_empty val) then push_symbol attr [] val Struct f else f) f (attributes tag).
(** src/crates/weave-graph-parse/src/extract/html.rs:26-45 [extract_element] *)
Definition html_element (c : Cst) (f : ParsedFile) : ParsedFile :=
  match child_by_kind "start_tag" c with
  | None => f
  | Some tag =>
      let tag_name := default "" (text <$> child_by_kind "tag_name" tag) in
      let f := if str_contains tag_name "-" then push_symbol c [] tag_name ClassKind f else f in
      let f := if decide (tag_name = "link") then html_link_href tag f
               else if decide (tag_name = "script") then html_script_src tag f else f in
      html_id_attributes tag f
  end.
(** src/crates/weave-graph-parse/src/extract/html.rs:13-24 [walk] *)
Fixpoint html_walk (c : Cst) (f : ParsedFile) {struct c} : ParsedFile :=
  match c with mkCst _ _ _ _ _ _ cs =>
    for_each (λ child f,
      html_walk child (if decide (kind child = "element" ∨ kind child = "script_element" ∨ kind child = "style_element") then html_element child f else f)) cs f
  end.
(** src/crates/weave-graph-parse/src/extract/html.rs:7-11 [extract] *)
Definition html_extract (root : Cst) : ParsedFile := html_walk root no_file.

(** ** R *)

(** src/crates/weave-graph-parse/src/extract/r.rs:168-191 [resolve_callee] *)
Definition resolve_callee (c : Cst) : string * bool :=
  let rhs_name := default "" ((λ r, trim (text r)) <$> field "rhs" c) in
  if decide (kind c = "namespace_operator") then (rhs_name, false)
  else if decide (kind c = "extract_operator" ∨ kind c = "dollar_operator") then (rhs_name, true)
  else
    let raw := trim (text c) in
    match split_once raw "$" with
    | Some (_, r) => (trim r, true)
    | None => match split_once raw "::" with Some (_, r) => (trim r, false) | None => (raw, false) end
    end.
(** src/crates/weave-graph-parse/src/extract/r.rs:147-159 [collect_calls]
    What one node adds. *)
Definition r_call (caller : string) (c : Cst) (f : ParsedFile) : ParsedFile :=
  if decide (kind c = "call") then
    match field "function" c with
    | None => f
    | Some fn =>
        let '(name, member) := resolve_callee fn in
        if is_empty name || bool_decide (name = "return") then f else add_call (mkCall caller name member) f
    end
  else f.
(** src/crates/weave-graph-parse/src/extract/r.rs:147-164 [collect_calls] *)
Definition r_collect_calls (caller : string) : Cst → ParsedFile → ParsedFile := preorder_fold (r_call caller).
(** src/crates/weave-graph-parse/src/extract/r.rs:84-86 [is_function_definition] *)
Definition is_function_definition (c : Cst) : bool := bool_decide (kind c ∈ ["function_definition"; "lambda_function"]).
(** src/crates/weave-graph-parse/src/extract/r.rs:88-100 [is_class_constructor_call] *)
Definition is_class_constructor_call (c : Cst) : bool :=
  bool_decide (kind c = "call") &&
  match field "function" c with Some callee => bool_decide (trim (text callee) ∈ ["setRefClass"; "R6Class"; "setClass"; "setGeneric"]) | None => false end.
(** src/crates/weave-graph-parse/src/extract/r.rs:35-82 [extract_assignment]
    [None] where it answers [false]. *)
Definition r_assignment (c : Cst) (f : ParsedFile) : option ParsedFile :=
  lhs ← field "lhs" c;
  rhs ← field "rhs" c;
  if negb (bool_decide (kind lhs = "identifier")) then None else
  let name := trim (text lhs) in
  if is_empty name then None else
  if is_function_definition rhs then Some (push_function r_collect_calls c [] name Function (Some rhs) f)
  else if is_class_constructor_call rhs then Some (push_function r_collect_calls c [] name ClassKind (Some rhs) f)
  else None.
(** src/crates/weave-graph-parse/src/extract/r.rs:143-145 [clean_ident_or_string] *)
Definition clean_ident_or_string (raw : string) : string := trim_matches (one_of ["'"]%char) (trim_matches (one_of [dquote]) (trim raw)).
(** src/crates/weave-graph-parse/src/extract/r.rs:131-141 [extract_first_string_or_identifier] *)
Definition first_string_or_identifier (c : Cst) : option string :=
  args ← field "arguments" c;
  arg ← child_by_kind "argument" args;
  Some (clean_ident_or_string (text (default arg (field "value" arg)))).
(** src/crates/weave-graph-parse/src/extract/r.rs:102-129 [extract_top_level_call] *)
Definition r_top_level_call (c : Cst) (f : ParsedFile) : ParsedFile :=
  match field "function" c with
  | None => f
  | Some func =>
      let func_name := trim (text func) in
      if decide (func_name = "library" ∨ func_name = "require") then
        match first_string_or_identifier c with Some pkg => add_edge (import_of pkg) f | None => f end
      else if decide (func_name = "setClass" ∨ func_name = "setGeneric") then
        match first_string_or_identifier c with Some class_name => push_symbol c [] class_name ClassKind f | None => f end
      else f
  end.
(** src/crates/weave-graph-parse/src/extract/r.rs:15-31 [walk] *)
Fixpoint r_walk (c : Cst) (f : ParsedFile) {struct c} : ParsedFile :=
  match c with mkCst _ _ _ _ _ _ cs =>
    for_each (λ child f,
      if decide (kind child = "binary_operator" ∨ kind child = "equals_assignment") then
        match r_assignment child f with Some f => f | None => r_walk child f end
      else if decide (kind child = "call") then r_walk child (r_top_level_call child f)
      else r_walk child f) cs f
  end.
(** src/crates/weave-graph-parse/src/extract/r.rs:9-13 [extract] *)
Definition r_extract (root : Cst) : ParsedFile := r_walk root no_file.

(** ** SQL *)

Definition quotes_match (s : string) : bool :=
  existsb (λ p : string * string, starts_with s p.1 && ends_with s p.2)
    [(String dquote "", String dquote ""); ("`", "`"); ("'", "'"); ("[", "]")].
(** src/crates/weave-graph-parse/src/extract/sql.rs:247-262 [unquote] *)
Definition sql_unquote (s : string) : string :=
  let trimmed := trim s in
  if quotes_match trimmed && (2 <=? String.length trimmed) then str_take (String.length trimmed - 2) (str_drop 1 trimmed) else trimmed.
(** src/crates/weave-graph-parse/src/extract/sql.rs:228-245 [extract_object_name] *)
Definition object_name (c : Cst) : option string :=
  match field "name" c with
  | Some name =>
      let name := sql_unquote (text name) in
      Some (match field "schema" c with Some schema => sql_unquote (text schema) +:+ "." +:+ name | None => name end)
  | None => let raw := sql_unquote (text c) in if is_empty raw then None else Some raw
  end.
Definition referenced_name (c : Cst) : option string := r ← child_by_kind "object_reference" c; object_name r.
(** src/crates/weave-graph-parse/src/extract/sql.rs:181-207 [collect_foreign_references]
    The flag is passed along the children. *)
Fixpoint foreign_references (moniker : string) (c : Cst) (f : ParsedFile) {struct c} : ParsedFile :=
  match c with mkCst _ _ _ _ _ _ cs =>
    (for_each (λ child (st : ParsedFile * bool),
      let '(f, seen) := st in
      if decide (kind child = "keyword_references") then (f, true)
      else if decide (seen = true ∧ kind child = "object_reference") then
        (match object_name child with Some target => add_edge (mkStructural moniker target Imports) f | None => f end, false)
      else (foreign_references moniker child f, seen)) cs (f, false)).1
  end.
(** src/crates/weave-graph-parse/src/extract/sql.rs:209-226 [collect_relations] *)
Fixpoint relations (moniker : string) (c : Cst) (f : ParsedFile) {struct c} : ParsedFile :=
  match c with mkCst _ _ _ _ _ _ cs =>
    for_each (λ child f,
      if decide (kind child = "relation") then
        match referenced_name child with Some target => add_edge (mkStructural moniker target Imports) f | None => f end
      else relations moniker child f) cs f
  end.

(** src/crates/weave-graph-parse/src/extract/sql.rs:36-46 [extract_create_table] *)
Definition create_table (c : Cst) (f : ParsedFile) : ParsedFile :=
  match referenced_name c with
  | Some name => relations (moniker_of [] name) c (foreign_references (moniker_of [] name) c (push_symbol c [] name Struct f))
  | None => f
  end.
(** src/crates/weave-graph-parse/src/extract/sql.rs:48-57 [extract_alter_table] *)
Definition alter_table (c : Cst) (f : ParsedFile) : ParsedFile :=
  match referenced_name c with Some name => foreign_references (moniker_of [] name) c f | None => f end.
(** src/crates/weave-graph-parse/src/extract/sql.rs:59-68 [extract_create_view] *)
Definition create_view (c : Cst) (f : ParsedFile) : ParsedFile :=
  match referenced_name c with Some name => relations (moniker_of [] name) c (push_symbol c [] name Interface f) | None => f end.
(** src/crates/weave-graph-parse/src/extract/sql.rs:70-89 [extract_create_index] *)
Definition create_index (c : Cst) (f : ParsedFile) : ParsedFile :=
  let name := default "" ((λ n, sql_unquote (text n)) <$> match field "column" c with Some n => Some n | None => child_by_kind "identifier" c end) in
  if is_empty name then f else
  let f := push_symbol c [] name Impl f in
  match referenced_name c with Some table => add_edge (mkStructural (moniker_of [] name) table Imports) f | None => f end.
(** src/crates/weave-graph-parse/src/extract/sql.rs:91-123 [extract_create_trigger] *)
Definition create_trigger (c : Cst) (f : ParsedFile) : ParsedFile :=
  let refs := filter (λ d, kind d = "object_reference") (children c) in
  match refs !! 0 ≫= object_name with
  | None => f
  | Some name =>
      let f := push_symbol c [] name Impl f in
      let f := match refs !! 1 ≫= object_name with Some table => add_edge (mkStructural (moniker_of [] name) table Imports) f | None => f end in
      match refs !! 2 ≫= object_name with Some func => add_call (mkCall (moniker_of [] name) func false) f | None => f end
  end.
(** src/crates/weave-graph-parse/src/extract/sql.rs:126-130 [extract_create_function] *)
Definition created_name (c : Cst) : option string :=
  match referenced_name c with Some name => Some name | None => (λ i, sql_unquote (text i)) <$> child_by_kind "identifier" c end.
(** src/crates/weave-graph-parse/src/extract/sql.rs:125-136 [extract_create_function] *)
Definition create_function (c : Cst) (f : ParsedFile) : ParsedFile :=
  match created_name c with Some name => relations (moniker_of [] name) c (push_symbol c [] name Function f) | None => f end.
(** src/crates/weave-graph-parse/src/extract/sql.rs:138-148 [extract_create_type] *)
Definition create_type (c : Cst) (f : ParsedFile) : ParsedFile :=
  match created_name c with Some name => push_symbol c [] name Struct f | None => f end.
(** src/crates/weave-graph-parse/src/extract/sql.rs:150-158 [extract_create_schema] *)
Definition create_schema (c : Cst) (f : ParsedFile) : ParsedFile :=
  match child_by_kind "identifier" c with
  | Some ident => let name := sql_unquote (text ident) in if is_empty name then f else push_symbol c [] name ClassKind f
  | None => f
  end.
(** src/crates/weave-graph-parse/src/extract/sql.rs:15-34 [walk] *)
Fixpoint sql_walk (c : Cst) (f : ParsedFile) {struct c} : ParsedFile :=
  match c with mkCst _ _ _ _ _ _ cs =>
    for_each (λ child f,
      if decide (kind child = "create_table") then create_table child f
      else if decide (kind child = "alter_table") then alter_table child f
      else if decide (kind child = "create_view" ∨ kind child = "create_materialized_view") then create_view child f
      else if decide (kind child = "create_index") then create_index child f
      else if decide (kind child = "create_trigger") then create_trigger child f
      else if decide (kind child = "create_function" ∨ kind child = "create_procedure") then create_function child f
      else if decide (kind child = "create_type") then create_type child f
      else if decide (kind child = "create_schema") then create_schema child f
      else sql_walk child f) cs f
  end.
(** src/crates/weave-graph-parse/src/extract/sql.rs:9-13 [extract] *)
Definition sql_extract (root : Cst) : ParsedFile := sql_walk root no_file.

(** ** Dart *)

(** src/crates/weave-graph-parse/src/extract/dart.rs:39-52 [find_string_literal] *)
Fixpoint find_string_literal (c : Cst) : option string :=
  match c with mkCst k _ _ _ _ _ cs =>
    if decide (k = "string_literal") then Some (trim_matches (one_of ["'"; dquote]%char) (trim (text c)))
    else first_some find_string_literal cs
  end.
(** src/crates/weave-graph-parse/src/extract/dart.rs:29-37 [extract_import] *)
Definition dart_import (c : Cst) (f : ParsedFile) : ParsedFile :=
  match find_string_literal c with Some target => add_edge (import_of target) f | None => f end.
Definition types_in (c : option Cst) : list Cst := match c with Some c => filter (λ d, kind d = "type") (children c) | None => [] end.
(** src/crates/weave-graph-parse/src/extract/dart.rs:70-92 [extract_inheritance]
    With [collect_types]. *)
Definition dart_inheritance (c : Cst) (moniker : string) : list RawStructuralEdge :=
  match field "superclass" c with
  | Some superclass =>
      edges_from moniker Inherits (match child_by_kind "type" superclass with Some t => [t] | None => [] end) ++
      edges_from moniker Inherits (types_in (child_by_kind "mixins" superclass))
  | None => []
  end ++ edges_from moniker Implements (types_in (field "interfaces" c)).
(** src/crates/weave-graph-parse/src/extract/dart.rs:269-293 [collect_calls] *)
Definition dart_collect_calls (caller : string) : Cst → ParsedFile → ParsedFile :=
  preorder_fold (simple_call "call_expression" "function" "member_expression" "property" caller).
(** src/crates/weave-graph-parse/src/extract/dart.rs:258-267 [find_method_name] *)
Definition find_method_name (c : Cst) : option string :=
  match (sig ← field "signature" c; fn_sig ← child_by_kind "function_signature" sig; field "name" fn_sig) with
  | Some name => Some (text name)
  | None => text <$> field "name" c
  end.
(** src/crates/weave-graph-parse/src/extract/dart.rs:173-236 [extract_member]
    One child of a member: a method, a constructor or an abstract method, with
    [extract_method], [extract_constructor] and [extract_abstract_method]. *)
Definition dart_member_part (scope : list string) (c : Cst) (f : ParsedFile) : ParsedFile :=
  if decide (kind c = "method_declaration") then
    match find_method_name c with
    | Some name => push_function dart_collect_calls c scope name Method (field "body" c) f
    | None => f
    end
  else if decide (kind c = "declaration") then
    match child_by_kind "constructor_signature" c with
    | Some ctor =>
        match field "name" ctor with
        | Some name => push_function dart_collect_calls c scope (text name) Method (field "body" c) f
        | None => f
        end
    | None =>
        match child_by_kind "function_signature" c with
        | Some sig => match field "name" sig with Some name => push_symbol c scope (text name) Method f | None => f end
        | None => f
        end
    end
  else f.
(** src/crates/weave-graph-parse/src/extract/dart.rs:163-171 [walk_class_body]
    With [extract_member]. *)
Definition dart_class_body (scope : list string) (body : Cst) (f : ParsedFile) : ParsedFile :=
  foldl (λ f member, foldl (λ f c, dart_member_part scope c f) f (children member)) f (filter (λ m, kind m = "class_member") (children body)).
(** A body walked with the name in scope. *)
Definition dart_into (body : option Cst) (scope : list string) (name : string) (f : ParsedFile) : ParsedFile :=
  match body with Some body => dart_class_body (scope ++ [name]) body f | None => f end.
(** src/crates/weave-graph-parse/src/extract/dart.rs:54-68 [extract_class] *)
Definition dart_class (scope : list string) (c : Cst) (f : ParsedFile) : ParsedFile :=
  match field "name" c with
  | None => f
  | Some name =>
      let f := push_symbol c scope (text name) ClassKind f in
      let f := add_edges (dart_inheritance c (moniker_of scope (text name))) f in
      dart_into (field "body" c) scope (text name) f
  end.
(** src/crates/weave-graph-parse/src/extract/dart.rs:113-133 [extract_mixin] *)
Definition dart_mixin (scope : list string) (c : Cst) (f : ParsedFile) : ParsedFile :=
  match field "name" c with
  | None => f
  | Some name =>
      let f := push_symbol c scope (text name) Interface f in
      let f := add_edges (edges_from (moniker_of scope (text name)) Inherits (match child_by_kind "type" c with Some t => [t] | None => [] end)) f in
      dart_into (child_by_kind "class_body" c) scope (text name) f
  end.
(** src/crates/weave-graph-parse/src/extract/dart.rs:135-161 [extract_extension] *)
Definition dart_extension (scope : list string) (c : Cst) (f : ParsedFile) : ParsedFile :=
  match field "name" c with
  | None => f
  | Some name =>
      let f := push_symbol c scope (text name) Impl f in
      let f := add_edges (edges_from (moniker_of scope (text name)) Implements (match field "class" c with Some t => [t] | None => [] end)) f in
      dart_into (child_by_kind "extension_body" c) scope (text name) f
  end.
(** src/crates/weave-graph-parse/src/extract/dart.rs:238-256 [extract_function] *)
Definition dart_function (scope : list string) (c : Cst) (f : ParsedFile) : ParsedFile :=
  match (sig ← child_by_kind "function_signature" c; field "name" sig) with
  | Some name => push_function dart_collect_calls c scope (text name) Function (field "body" c) f
  | None => f
  end.
(** src/crates/weave-graph-parse/src/extract/dart.rs:15-27 [walk] *)
Fixpoint dart_walk (c : Cst) (scope : list string) (f : ParsedFile) {struct c} : ParsedFile :=
  match c with mkCst _ _ _ _ _ _ cs =>
    for_each (λ child f,
      if decide (kind child = "import_or_export") then dart_import child f
      else if decide (kind child = "class_declaration") then dart_class scope child f
      else if decide (kind child = "mixin_declaration") then dart_mixin scope child f
      else if decide (kind child = "extension_declaration") then dart_extension scope child f
      else if decide (kind child = "function_declaration") then dart_function scope child f
      else dart_walk child scope f) cs f
  end.
(** src/crates/weave-graph-parse/src/extract/dart.rs:9-13 [extract] *)
Definition dart_extract (root : Cst) : ParsedFile := dart_walk root [] no_file.

(** ** Elixir *)

(** src/crates/weave-graph-parse/src/extract/elixir.rs:278-304 [is_keyword] *)
Definition elixir_keywords : list string :=
  ["def"; "defp"; "defmacro"; "defmodule"; "defprotocol"; "defimpl"; "alias"; "import"; "require"; "use"; "quote"; "unquote";
   "case"; "cond"; "if"; "unless"; "with"; "for"; "fn"; "receive"; "try"; "raise"].
(** src/crates/weave-graph-parse/src/extract/elixir.rs:245-271 [collect_calls]
    What one node adds. *)
Definition elixir_call (caller : string) (c : Cst) (f : ParsedFile) : ParsedFile :=
  if decide (kind c = "call") then
    match field "target" c with
    | None => f
    | Some target =>
        if decide (kind target = "dot") then call_named caller (text <$> field "right" target) true f
        else if decide (kind target = "identifier") then
          if decide (text target ∈ elixir_keywords) then f else call_named caller (Some (text target)) false f
        else f
    end
  else f.
(** src/crates/weave-graph-parse/src/extract/elixir.rs:245-276 [collect_calls] *)
Definition elixir_collect_calls (caller : string) : Cst → ParsedFile → ParsedFile := preorder_fold (elixir_call caller).
(** src/crates/weave-graph-parse/src/extract/elixir.rs:135-150 [find_for_target] *)
Definition find_for_target (args : Cst) : option string :=
  keywords ← child_by_kind "keywords" args;
  head (omap (λ pair,
    if decide (kind pair = "pair") then
      key ← field "key" pair;
      value ← field "value" pair;
      if decide (trim_end_by (one_of [":"]%char) (trim (text key)) = "for") then Some (trim (text value)) else None
    else None) (children keywords)).
(** src/crates/weave-graph-parse/src/extract/elixir.rs:176-188 [extract_fn_name] *)
Fixpoint extract_fn_name (c : Cst) : option string :=
  match c with mkCst k _ _ _ _ _ cs =>
    if decide (k = "call") then text <$> field "target" c
    else if decide (k = "identifier") then Some (text c)
    else if decide (k = "binary_operator") then mjoin (on_field extract_fn_name "left" cs)
    else None
  end.
(** src/crates/weave-graph-parse/src/extract/elixir.rs:152-174 [extract_def] *)
Definition elixir_def (scope : list string) (c : Cst) (f : ParsedFile) : ParsedFile :=
  match (args ← child_by_kind "arguments" c; first ← head (children args); extract_fn_name first) with
  | Some name => push_function elixir_collect_calls c scope name (function_kind scope) (child_by_kind "do_block" c) f
  | None => f
  end.
(** src/crates/weave-graph-parse/src/extract/elixir.rs:198-202 [extract_import] *)
Definition scope_moniker (scope : list string) : string :=
  match scope with [] => module_moniker path | _ => moniker_build path (join "::" scope) end.
(** src/crates/weave-graph-parse/src/extract/elixir.rs:190-208 [extract_import] *)
Definition elixir_import (scope : list string) (c : Cst) (f : ParsedFile) : ParsedFile :=
  match down ["arguments"; "alias"] c with
  | Some alias => add_edge (mkStructural (scope_moniker scope) (text alias) Imports) f
  | None => f
  end.
(** src/crates/weave-graph-parse/src/extract/elixir.rs:210-243 [extract_unary_operator] *)
Definition elixir_unary (scope : list string) (c : Cst) (f : ParsedFile) : ParsedFile :=
  match (operand ← child_by_kind "call" c; target ← field "target" operand;
         if decide (text target = "behaviour") then down ["arguments"; "alias"] operand else None) with
  | Some alias => add_edge (mkStructural (scope_moniker scope) (text alias) Implements) f
  | None => f
  end.

(** src/crates/weave-graph-parse/src/extract/elixir.rs:15-133 [walk]
    With [extract_call_node], [extract_module], [extract_protocol] and
    [extract_impl]. *)
Fixpoint elixir_walk (c : Cst) (scope : list string) (f : ParsedFile) {struct c} : ParsedFile :=
  match c with mkCst _ _ _ _ _ _ cs =>
    for_each (λ child f,
      match child with mkCst k _ _ _ _ _ parts =>
        let into_block name f := default f (on_kind (λ block, elixir_walk block (scope ++ [name]) f) "do_block" parts) in
        if decide (k = "call") then
          match field "target" child with
          | None => elixir_walk child scope f
          | Some target =>
              let target_name := text target in
              if decide (target_name = "defmodule" ∨ target_name = "defprotocol") then
                match down ["arguments"; "alias"] child with
                | Some name => into_block (text name) (push_symbol child scope (text name) (if decide (target_name = "defmodule") then ClassKind else Interface) f)
                | None => f
                end
              else if decide (target_name = "defimpl") then
                match child_by_kind "arguments" child with
                | None => f
                | Some args =>
                    match child_by_kind "alias" args with
                    | None => f
                    | Some proto =>
                        let proto_name := text proto in
                        let for_target := default "" (find_for_target args) in
                        let impl_name := if is_empty for_target then proto_name else proto_name +:+ "." +:+ for_target in
                        let f := push_symbol child scope impl_name Impl f in
                        into_block impl_name (add_edge (mkStructural (moniker_of scope impl_name) proto_name Implements) f)
                    end
                end
              else if decide (target_name ∈ ["def"; "defp"; "defmacro"]) then elixir_def scope child f
              else if decide (target_name ∈ ["alias"; "import"; "require"; "use"]) then elixir_import scope child f
              else elixir_walk child scope f
          end
        else if decide (k = "unary_operator") then elixir_unary scope child f
        else elixir_walk child scope f
      end) cs f
  end.
(** src/crates/weave-graph-parse/src/extract/elixir.rs:9-13 [extract] *)
Definition elixir_extract (root : Cst) : ParsedFile := elixir_walk root [] no_file.
End data.
