(* ===== verification/ExtractAll.v ===== *)
(** * Extraction of every language (weave-graph-parse: extract/mod.rs, extract/query_vm.rs, parser.rs)

    The query-driven extractors of the configuration formats, the generic walker of
    the languages without an extractor of their own, the dispatch, and the parser
    with its cached tree.  tree-sitter's query engine and parser are parameters. *)

From S2P Require Import Prelude Str Language Interner ProjectIndex Http Cst Extract ExtractMore ExtractData.

(** The matches of a query in a tree, each a list of captures; [None] when the
    query does not compile for the grammar. *)
Class TreeQuery := tree_query : Language → string → Cst → option (list (list (string * Cst))).
(** Queries capture nodes of the tree they run on. *)
Class TreeQueryLaws `{TreeQuery} : Prop :=
  query_captures l q root ms m n c : tree_query l q root = Some ms → m ∈ ms → (n, c) ∈ m → c ∈ preorder root.

(** ** query_vm.rs *)

(** src/crates/weave-graph-parse/src/extract/query_vm.rs:23-29 [clean_key] *)
Definition clean_key (raw : string) : string :=
  trim (trim_matches (one_of [":"]%char) (trim_matches (one_of ["'"]%char) (trim_matches (one_of [dquote]) (trim raw)))).
(** src/crates/weave-graph-parse/src/extract/query_vm.rs:31-33 [node_for_capture] *)
Definition node_for_capture (m : list (string * Cst)) (name : string) : option Cst := snd <$> (snd <$> list_find (λ p : string * Cst, p.1 = name) m).

Section vm.
Context `{TreeQuery} (source path : string).
#[local] Notation text := (text source).

Definition matches_of (l : Language) (q : string) (root : Cst) : list (list (string * Cst)) := default [] (tree_query l q root).
(** The first line of a node, trimmed. *)
Definition first_line (c : Cst) : string := trim (default "" (head (lines (text c)))).
(** The card of a key. *)
Definition key_card (c : Cst) (key : string) : WiringCard :=
  let '(line_start, line_end) := line_range c in
  mkCard (moniker_build path key) key Struct line_start line_end (first_line c).
(** A match that names a key: its card, then what follows for the key. *)
Definition on_key (key_name node_name : string) (rest : string → ParsedFile → ParsedFile) (m : list (string * Cst)) (f : ParsedFile) : ParsedFile :=
  match node_for_capture m key_name, node_for_capture m node_name with
  | Some k, Some p =>
      let key := clean_key (text k) in
      if is_empty key then f else rest key (add_card (key_card p key) f)
  | _, _ => f
  end.
Definition for_matches (g : list (string * Cst) → ParsedFile → ParsedFile) (ms : list (list (string * Cst))) (f : ParsedFile) : ParsedFile :=
  foldl (λ f m, g m f) f ms.

(** src/crates/weave-graph-parse/src/extract/query_vm.rs:70-83 [extract_json] *)
Definition json_import (m : list (string * Cst)) (key : string) (f : ParsedFile) : ParsedFile :=
  match node_for_capture m "val" with
  | Some v =>
      if decide (kind v = "string") then
        let val := clean_key (text v) in
        if negb (is_empty val) && bool_decide (key = "extends" ∨ key = "main") then add_edge (mkStructural (moniker_build path key) val Imports) f else f
      else f
  | None => f
  end.
(** src/crates/weave-graph-parse/src/extract/query_vm.rs:35-86 [extract_json] *)
Definition extract_json (root : Cst) (f : ParsedFile) : ParsedFile :=
  for_matches (λ m, on_key "key" "pair" (json_import m) m) (matches_of LangJson "(pair key: (string) @key value: (_) @val) @pair" root) f.
(** src/crates/weave-graph-parse/src/extract/query_vm.rs:88-127 [extract_properties] *)
Definition extract_properties (root : Cst) (f : ParsedFile) : ParsedFile :=
  for_matches (on_key "key" "prop" (λ _ f, f)) (matches_of LangProperties "(property (key) @key) @prop" root) f.
(** src/crates/weave-graph-parse/src/extract/query_vm.rs:170-185 [extract_yaml] *)
Definition yaml_imports (m : list (string * Cst)) (key : string) (f : ParsedFile) : ParsedFile :=
  if decide (key = "depends_on" ∨ key = "include_role" ∨ key = "extends") then
    match node_for_capture m "val" with
    | Some v =>
        let targets := (λ line, clean_key (trim_start_by (one_of ["-"]%char) (trim line))) <$> lines (text v) in
        add_edges ((λ t, mkStructural (moniker_build path key) t Imports) <$> filter (λ t, t ≠ "") targets) f
    | None => f
    end
  else f.
(** src/crates/weave-graph-parse/src/extract/query_vm.rs:129-187 [extract_yaml] *)
Definition extract_yaml (root : Cst) (f : ParsedFile) : ParsedFile :=
  for_matches (λ m, on_key "key" "pair" (yaml_imports m) m) (matches_of LangYaml "(block_mapping_pair key: (_) @key value: (_) @val) @pair" root) f.
(** src/crates/weave-graph-parse/src/extract/query_vm.rs:189-260 [extract_toml] *)
Definition extract_toml (root : Cst) (f : ParsedFile) : ParsedFile :=
  let f := for_matches (on_key "table_name" "table" (λ _ f, f)) (matches_of LangToml "(table (bare_key) @table_name) @table" root) f in
  for_matches (on_key "key" "pair" (λ _ f, f)) (matches_of LangToml "(pair (bare_key) @key (_) @val) @pair" root) f.

(** src/crates/weave-graph-parse/src/extract/query_vm.rs:266-273 [SYMBOL_KIND_MARKERS] *)
Definition SYMBOL_KIND_MARKERS : list (string * SymbolKind) :=
  [("class", ClassKind); ("contract", ClassKind); ("interface", Interface); ("struct", Struct); ("method", Method); ("function", Function)].
(** src/crates/weave-graph-parse/src/extract/query_vm.rs:279-281 [is_call_kind] *)
Definition is_call_kind (k : string) : bool := str_contains k "call" || str_contains k "invocation".
(** src/crates/weave-graph-parse/src/extract/query_vm.rs:286-292 [is_member_access_kind] *)
Definition is_member_access_kind (k : string) : bool :=
  str_contains k "member" || str_contains k "navigation" || str_contains k "attribute" || str_contains k "field_expression" || bool_decide (k = "dot").
(** src/crates/weave-graph-parse/src/extract/query_vm.rs:298-298 [DECLARATION_SUFFIXES] *)
Definition DECLARATION_SUFFIXES : list string := ["_declaration"; "_definition"; "_item"; "_specifier"].
(** src/crates/weave-graph-parse/src/extract/query_vm.rs:300-310 [classify_symbol_kind] *)
Definition classify_symbol_kind (k : string) : option SymbolKind :=
  snd <$> (snd <$> list_find (λ p : string * SymbolKind,
    bool_decide (k = p.1) || (starts_with k (p.1 +:+ "_") && existsb (ends_with k) DECLARATION_SUFFIXES) = true) SYMBOL_KIND_MARKERS).

(** src/crates/weave-graph-parse/src/extract/query_vm.rs:316-336 [find_name_field] *)
Fixpoint find_name_field (c : Cst) : option Cst :=
  match c with mkCst _ _ _ _ _ _ cs =>
    match on_field id "name" cs with
    | Some n => Some n
    | None =>
        (fix go cs := match cs with
                      | [] => None
                      | (l, d) :: cs =>
                          if decide (l = Some "body" ∨ l = Some "block") then go cs
                          else match find_name_field d with Some n => Some n | None => go cs end
                      end) cs
    end
  end.
(** src/crates/weave-graph-parse/src/extract/query_vm.rs:338-351 [find_assignment_func] *)
Definition find_assignment_func (c : Cst) : option (Cst * Cst) :=
  lhs ← match field "lhs" c with Some l => Some l | None => field "name" c end;
  rhs ← match field "rhs" c with Some r => Some r | None => field "value" c end;
  if str_contains (kind rhs) "function" || str_contains (kind rhs) "lambda" || str_contains (kind rhs) "closure" then Some (lhs, rhs) else None.

(** src/crates/weave-graph-parse/src/extract/query_vm.rs:464-476 [last_identifier_like_descendant] *)
Fixpoint last_identifier_like (c : Cst) : option string :=
  match c with mkCst k _ _ _ _ _ cs =>
    match cs with
    | [] => if str_contains k "identifier" then Some (text c) else None
    | _ => for_each (λ d acc, match last_identifier_like d with Some s => Some s | None => acc end) cs None
    end
  end.
(** src/crates/weave-graph-parse/src/extract/query_vm.rs:431-453 [collect_calls_generic]
    What one node adds. *)
Definition generic_call (caller : string) (c : Cst) (f : ParsedFile) : ParsedFile :=
  if is_call_kind (kind c) then
    match (match field "function" c with
           | Some n => Some n
           | None => match field "name" c with Some n => Some n | None => field "target" c end
           end) with
    | None => f
    | Some callee =>
        let member := is_member_access_kind (kind callee) in
        let name := if member then default (text callee) (last_identifier_like callee) else text callee in
        if is_empty name then f else add_call (mkCall caller name member) f
    end
  else f.
(** src/crates/weave-graph-parse/src/extract/query_vm.rs:431-458 [collect_calls_generic] *)
Definition collect_calls_generic (caller : string) : Cst → ParsedFile → ParsedFile := preorder_fold (generic_call caller).

(** src/crates/weave-graph-parse/src/extract/query_vm.rs:366-388 [walk_generic]
    A function bound to a name; [None] when the child is not one. *)
Definition generic_assignment (scope : list string) (c : Cst) (f : ParsedFile) : option ParsedFile :=
  '(lhs, body) ← find_assignment_func c;
  let name := trim (text lhs) in
  if negb (is_empty name) && str_contains (kind lhs) "identifier" then
    Some (push_function source path collect_calls_generic c scope name (function_kind scope) (Some body) f)
  else None.
(** src/crates/weave-graph-parse/src/extract/query_vm.rs:363-429 [walk_generic] *)
Fixpoint walk_generic (c : Cst) (scope : list string) (f : ParsedFile) {struct c} : ParsedFile :=
  match c with mkCst _ _ _ _ _ _ cs =>
    for_each (λ child f,
      match generic_assignment scope child f with
      | Some f => f
      | None =>
          match classify_symbol_kind (kind child), find_name_field child with
          | Some marker_kind, Some name_node =>
              let k := match marker_kind, scope with Function, _ :: _ => Method | _, _ => marker_kind end in
              let name := text name_node in
              let f := push_symbol source path child scope name k f in
              match k with
              | ClassKind | Struct | Interface => walk_generic child (scope ++ [name]) f
              | _ => walk_generic child scope (collect_calls_generic (moniker_of path scope name) child f)
              end
          | _, _ => walk_generic child scope f
          end
      end) cs f
  end.

(** src/crates/weave-graph-parse/src/extract/query_vm.rs:11-21 [extract]
    With [extract_generic]. *)
Definition vm_extract (l : Language) (root : Cst) : ParsedFile :=
  match l with
  | LangJson => extract_json root no_file
  | LangYaml => extract_yaml root no_file
  | LangToml => extract_toml root no_file
  | LangProperties => extract_properties root no_file
  | _ => walk_generic root [] no_file
  end.

(** ** mod.rs *)

(** src/crates/weave-graph-parse/src/extract/mod.rs:47-109 [extract] *)
Definition extract (framework_routes : bool) (l : Language) (root : Cst) : ParsedFile :=
  match l with
  | LangRust => rust_extract framework_routes source path root
  | LangPython => python_extract framework_routes source path root
  | LangJavaScript => ecma_extract source path false root
  | LangTypeScript | LangTsx | LangArkTs => ecma_extract source path true root
  | LangGo => go_extract framework_routes source path root
  | LangJava => java_extract framework_routes source path root
  | LangC => c_extract source path root
  | LangCpp | LangObjC | LangMetal | LangCuda => cpp_extract source path root
  | LangCSharp => csharp_extract source path root
  | LangDart => dart_extract source path root
  | LangElixir => elixir_extract source path root
  | LangKotlin => kotlin_extract source path root
  | LangSwift => swift_extract source path root
  | LangScala => scala_extract source path root
  | LangZig => zig_extract source path root
  | LangRuby => ruby_extract source path root
  | LangPhp => php_extract source path root
  | LangBash => bash_extract source path root
  | LangPowerShell => powershell_extract source path root
  | LangLua | LangLuau => lua_extract source path root
  | LangSql => sql_extract source path root
  | LangHtml | LangSvelte | LangVue | LangAstro | LangLiquid | LangCfml => html_extract source path root
  | LangCss => css_extract source path root
  | LangR => r_extract source path root
  | _ => vm_extract l root
  end.
End vm.

(** ** parser.rs *)

(** tree-sitter's parser: the tree of a text, given an edited older tree to reuse;
    [None] when cancelled.  A grammar may be incompatible with the library. *)
Class TreeSitter := {
  compatible : Language → bool;
  ts_edit : Type;
  ts_apply : ts_edit → Cst → Cst;
  ts_parse : Language → string → option Cst → option Cst;
}.
(** src/crates/weave-graph-parse/src/parser.rs:10-16 [ParseError] *)
Inductive ParseError := IncompatibleGrammar (l : Language) | Cancelled.
(** src/crates/weave-graph-parse/src/parser.rs:29-33 [SourceParser] *)
Record SourceParser := mkParser { parser_language : Language; parser_tree : option Cst }.

Section parser.
Context `{TreeQuery} `{TreeSitter} (framework_routes : bool).

(** src/crates/weave-graph-parse/src/parser.rs:36-46 [SourceParser::new] *)
Definition parser_new (l : Language) : result SourceParser ParseError := if compatible l then Ok (mkParser l None) else Err (IncompatibleGrammar l).
(** src/crates/weave-graph-parse/src/parser.rs:48-56 [SourceParser::parse] *)
Definition parser_parse (p : SourceParser) (path source : string) : SourceParser * result ParsedFile ParseError :=
  match ts_parse (parser_language p) source None with
  | None => (p, Err Cancelled)
  | Some tree => (mkParser (parser_language p) (Some tree), Ok (extract source path framework_routes (parser_language p) tree))
  end.
(** src/crates/weave-graph-parse/src/parser.rs:62-78 [SourceParser::reparse]
    The cached tree is edited in place, also when the parse is cancelled. *)
Definition parser_reparse (p : SourceParser) (path new_source : string) (edit : ts_edit) : SourceParser * result ParsedFile ParseError :=
  let old := ts_apply edit <$> parser_tree p in
  match ts_parse (parser_language p) new_source old with
  | None => (mkParser (parser_language p) old, Err Cancelled)
  | Some tree => (mkParser (parser_language p) (Some tree), Ok (extract new_source path framework_routes (parser_language p) tree))
  end.
(** src/crates/weave-graph-parse/src/parser.rs:20-23 [parse_file] *)
Definition parse_file (path source : string) : option (result ParsedFile ParseError) :=
  l ← from_path path;
  Some (match parser_new l with Ok p => (parser_parse p path source).2 | Err e => Err e end).
End parser.
