(* ===== verification/ExtractProofs.v ===== *)
(** * What the extractors guarantee

    Every extractor gives a well-formed file, whatever the tree: cards with the
    monikers of the file, on the lines of nodes of the tree and with one-line
    signatures; calls and references from declared symbols.  The lemmas are about
    the two traversals and the three kinds of push; each extractor follows by
    induction on the tree. *)

From S2P Require Import Prelude Str Language Interner ProjectIndex Http HttpProofs Cst Extract ExtractMore ExtractData ExtractAll.

(** ** Parts of a tree *)

Definition child_of (c d : Cst) : Prop := d ∈ children c.
Definition part_of : Cst → Cst → Prop := rtc child_of.

(** Induction with the hypothesis for every proper part. *)
Lemma cst_parts_ind (P : Cst → Prop) : (∀ c, (∀ d e, d ∈ children c → part_of d e → P e) → P c) → ∀ c, P c.
Proof.
  intros Hs c. cut (∀ e, part_of c e → P e); [intros Hc; by apply Hc|].
  induction c as [c IH] using cst_ind'. intros e [<-|(d & Hd & Hp)]%rtc_inv; [apply Hs|]; eauto.
Qed.

Lemma on_field_eq {A} (f : Cst → A) name cs : on_field f name cs = f <$> on_field id name cs.
Proof. induction cs as [|[l c] cs IH]; cbn; [done|]. by case_decide. Qed.
Lemma on_kind_eq {A} (f : Cst → A) k cs : on_kind f k cs = f <$> on_kind id k cs.
Proof. induction cs as [|[l c] cs IH]; cbn; [done|]. by case_decide. Qed.
Lemma for_each_eq {S} (f : Cst → S → S) cs st : for_each f cs st = foldl (λ st c, f c st) st cs.*2.
Proof. revert st. induction cs as [|[l c] cs IH]; intros st; cbn; [done|]. apply IH. Qed.

Lemma field_child name c d : field name c = Some d → d ∈ children c.
Proof.
  unfold field, children. induction (labelled c) as [|[l x] cs IH]; cbn; [done|]. case_decide; [intros [= <-]; apply elem_of_cons; by left|].
  intros ?%IH. apply elem_of_cons. by right.
Qed.
Lemma kind_child k c d : child_by_kind k c = Some d → d ∈ children c.
Proof.
  unfold child_by_kind, children. induction (labelled c) as [|[l x] cs IH]; cbn; [done|]. case_decide; [intros [= <-]; apply elem_of_cons; by left|].
  intros ?%IH. apply elem_of_cons. by right.
Qed.

Lemma part_refl r : part_of r r.
Proof. done. Qed.
Lemma part_child r c d : d ∈ children c → part_of r c → part_of r d.
Proof. intros Hd Hc. eapply rtc_r; [exact Hc|exact Hd]. Qed.
Lemma part_field r c name d : field name c = Some d → part_of r c → part_of r d.
Proof. intros Hd%field_child. by apply part_child. Qed.
Lemma part_kind r c k d : child_by_kind k c = Some d → part_of r c → part_of r d.
Proof. intros Hd%kind_child. by apply part_child. Qed.
Lemma part_named r c i d : named_children c !! i = Some d → part_of r c → part_of r d.
Proof. intros [_ Hd]%list_elem_of_lookup_2%list_elem_of_filter. by apply part_child. Qed.

(** Induction over a walk from the root: every part below is available. *)
Lemma walk_ind (root : Cst) (Q : Cst → Prop) :
  (∀ c, part_of root c → (∀ d e, d ∈ children c → part_of d e → Q e) → Q c) → ∀ c, part_of root c → Q c.
Proof.
  intros Hs c. induction c as [c IH] using cst_parts_ind. intros Hc. apply Hs; [done|]. intros d e Hd He. apply (IH d e Hd He).
  etrans; [by eapply part_child; [exact Hd|]|done].
Qed.

Lemma preorder_eq c : preorder c = c :: (children c ≫= preorder).
Proof.
  destruct c as [k n a b ra rb cs]. cbn [preorder]. unfold children. cbn [labelled]. f_equal. rewrite for_each_eq.
  assert (∀ l acc, foldl (λ l d, l ++ preorder d) acc l = acc ++ (l ≫= preorder)) as Hf.
  { induction l as [|x l IH]; intros acc; cbn; [by rewrite app_nil_r|]. by rewrite IH, app_assoc. }
  by rewrite Hf.
Qed.
Lemma elem_of_preorder c d : d ∈ preorder c ↔ part_of c d.
Proof.
  split.
  - revert d. induction c as [c IH] using cst_ind'. intros d. rewrite preorder_eq, elem_of_cons, list_elem_of_bind.
    intros [->|(x & Hd & Hx)]; [done|]. eapply rtc_l; [exact Hx|by apply IH].
  - induction 1 as [c|c x d Hx Hp IH]; rewrite preorder_eq, elem_of_cons; [by left|]. right. apply list_elem_of_bind. eauto.
Qed.
Lemma preorder_fold_eq {S} (visit : Cst → S → S) c : ∀ st, preorder_fold visit c st = foldl (λ st d, visit d st) st (preorder c).
Proof.
  induction c as [c IH] using cst_ind'. intros st. rewrite preorder_eq. destruct c as [k n a b ra rb cs]. cbn [preorder_fold foldl].
  rewrite for_each_eq. unfold children in IH |- *. cbn [labelled] in *. generalize (visit (mkCst k n a b ra rb cs) st) as st'. clear st.
  induction (cs.*2) as [|x l IHl]; intros st'; cbn; [done|]. rewrite foldl_app, IH by (apply elem_of_cons; by left).
  apply IHl. intros d Hd. apply IH. apply elem_of_cons. by right.
Qed.

(** ** Well-formed files *)

Definition newline_char : ascii := "010"%char.

(** A card of a file: its moniker, the lines of a node of the tree, a signature on
    one line (that of a route quotes a string of the program). *)
Definition card_ok (path : string) (root : Cst) (c : WiringCard) : Prop :=
  card_moniker c = moniker_build path (card_symbol c) ∧
  (∃ d, part_of root d ∧ (card_line_start c, card_line_end c) = line_range d) ∧
  (card_kind c = Route ∨ no_char newline_char (card_signature c)).
Definition monikers (f : ParsedFile) : list string := card_moniker <$> symbols f.
(** [loose] are the kinds of edges that may start at a symbol of another file. *)
Definition file_ok (path : string) (root : Cst) (loose : StructuralEdgeKind → Prop) (f : ParsedFile) : Prop :=
  Forall (card_ok path root) (symbols f) ∧
  Forall (λ c, caller_moniker c ∈ monikers f ∨ caller_moniker c = module_moniker path) (calls f) ∧
  Forall (λ e, source_moniker e ∈ monikers f ∨ source_moniker e = module_moniker path ∨ loose (structural_kind e)) (structural_edges f).

Create HintDb extract discriminated.
#[export] Hint Resolve part_refl part_field part_kind part_named part_child : extract.

Section wf.
Context (path source : string) (root : Cst) (loose : StructuralEdgeKind → Prop).

(** A well-formed file that declares the given monikers. *)
Definition ok (m : list string) (f : ParsedFile) : Prop := file_ok path root loose f ∧ ∀ x, x ∈ m → x ∈ monikers f.

Definition from_here (m : list string) (x : string) : Prop := x ∈ m ∨ x = module_moniker path.

Lemma ok_no_file : ok [] no_file.
Proof. repeat split; try constructor. intros x Hx. by apply not_elem_of_nil in Hx. Qed.
Lemma ok_weaken m m' f : ok m f → (∀ x, x ∈ m' → x ∈ m) → ok m' f.
Proof. intros [? ?] ?. split; auto. Qed.

Lemma ok_card_new m c f : card_ok path root c → ok m f → ok (card_moniker c :: m) (add_card c f).
Proof.
  intros Hc [(Hs & Hcalls & Hed) Hm]. assert (∀ x, x ∈ monikers f → x ∈ monikers (add_card c f)) as Hmono.
  { intros x Hx. unfold monikers, add_card. cbn [symbols]. rewrite fmap_app, elem_of_app. by left. }
  split; [split_and!|].
  - cbn [add_card symbols]. apply Forall_app. split; [done|]. by apply Forall_singleton.
  - eapply Forall_impl; [exact Hcalls|]. intros x [?|?]; auto.
  - eapply Forall_impl; [exact Hed|]. intros x [?|[?|?]]; auto.
  - intros x [->|Hx]%elem_of_cons; [|auto]. unfold monikers, add_card. cbn [symbols]. rewrite fmap_app, elem_of_app. right. by apply elem_of_cons; left.
Qed.
Lemma ok_card m c f : card_ok path root c → ok m f → ok m (add_card c f).
Proof. intros Hc Ho. eapply ok_weaken; [by apply ok_card_new|]. intros x Hx. apply elem_of_cons. by right. Qed.
Lemma ok_call m caller name b f : from_here m caller → ok m f → ok m (add_call (mkCall caller name b) f).
Proof.
  intros Hc [(Hs & Hcalls & Hed) Hm]. split; [|done]. split_and!; [done| |done]. cbn [add_call calls]. apply Forall_app. split; [done|].
  constructor; [|done]. destruct Hc as [?|?]; auto.
Qed.
Lemma ok_edge m src t k f : from_here m src ∨ loose k → ok m f → ok m (add_edge (mkStructural src t k) f).
Proof.
  intros Hc [(Hs & Hcalls & Hed) Hm]. split; [|done]. split_and!; [done|done|]. cbn [add_edge structural_edges]. apply Forall_app. split; [done|].
  constructor; [|done]. destruct Hc as [[?|?]|?]; auto.
Qed.
Lemma ok_edges {A} m src (t : A → string) (k : A → StructuralEdgeKind) l f : from_here m src → ok m f → ok m (add_edges ((λ x, mkStructural src (t x) (k x)) <$> l) f).
Proof. intros Hc. revert f. induction l as [|x l IH]; intros f Ho; [done|]. cbn. apply IH. apply ok_edge; auto. Qed.
Lemma ok_fold {A} m (g : ParsedFile → A → ParsedFile) l f : (∀ x f, x ∈ l → ok m f → ok m (g f x)) → ok m f → ok m (foldl g f l).
Proof.
  revert f. induction l as [|x l IH]; intros f Hg Ho; [done|]. cbn. apply IH; [|apply Hg; [apply elem_of_cons; by left|done]].
  intros y f' Hy. apply Hg. apply elem_of_cons. by right.
Qed.
Lemma ok_for_each m (g : Cst → ParsedFile → ParsedFile) c f : (∀ d f, d ∈ children c → ok m f → ok m (g d f)) → ok m f → ok m (for_each g (labelled c) f).
Proof. intros Hg. rewrite for_each_eq. by apply ok_fold. Qed.
Lemma ok_preorder m visit c f : part_of root c → (∀ d f, part_of root d → ok m f → ok m (visit d f)) → ok m f → ok m (preorder_fold visit c f).
Proof.
  intros Hc Hv. rewrite preorder_fold_eq. apply ok_fold. intros d f' Hd%elem_of_preorder. apply Hv. by etrans.
Qed.
Lemma ok_default m (f : ParsedFile) (g : Cst → ParsedFile) o : (∀ b, o = Some b → ok m (g b)) → ok m f → ok m (default f (g <$> o)).
Proof. intros Hg Ho. destruct o as [b|]; cbn; [by apply Hg|done]. Qed.
Lemma ok_call_named m caller name b f : from_here m caller → ok m f → ok m (call_named caller name b f).
Proof. destruct name; [by apply ok_call|done]. Qed.

(** *** Cards *)

Lemma split_by_clean p s : Forall (λ w, str_all (λ a, negb (p a)) w = true) (split_by p s).
Proof.
  induction s as [|a s IH]; cbn [split_by]; [by apply Forall_singleton|]. destruct (p a) eqn:Ha; [by constructor|].
  destruct (split_by p s) as [|x l]; [constructor; [cbn; by rewrite Ha|done]|]. inversion IH; subst. constructor; [cbn; by rewrite Ha|done].
Qed.
Lemma join_no_char c sep l : no_char c sep → Forall (no_char c) l → no_char c (join sep l).
Proof.
  intros Hs. induction 1 as [|x l Hx Hl IH]; [done|]. destruct l as [|y l]; [done|]. change (join sep (x :: y :: l)) with (x +:+ sep +:+ join sep (y :: l)).
  by rewrite !no_char_append.
Qed.
Lemma one_line_clean s : no_char newline_char (one_line s).
Proof.
  apply join_no_char; [done|]. apply Forall_forall. intros w [_ Hw]%list_elem_of_filter. pose proof (split_by_clean is_space s) as Hf.
  rewrite Forall_forall in Hf. eapply str_all_impl; [|by apply Hf]. intros a Ha. apply negb_true_iff, bool_decide_eq_false. by intros ->.
Qed.

Lemma card_of_ok c sig scope name k : part_of root c → no_char newline_char sig → card_ok path root (card_of path c sig scope name k).
Proof. intros Hc Hs. split_and!; [done| |by right]. exists c. split; [done|]. unfold card_of. by destruct (line_range c). Qed.
Lemma card_of_moniker c sig scope name k : card_moniker (card_of path c sig scope name k) = moniker_of path scope name.
Proof. unfold card_of. by destruct (line_range c). Qed.
(** A card, then pushes from its moniker. *)
Lemma ok_card_then m c sig scope name k f g : part_of root c → no_char newline_char sig → ok m f →
  (∀ f, ok (moniker_build path (qualify scope name) :: m) f → ok (moniker_build path (qualify scope name) :: m) (g f)) →
  ok m (g (add_card (card_of path c sig scope name k) f)).
Proof.
  intros Hc Hs Ho Hg. eapply ok_weaken; [apply Hg|intros x Hx; apply elem_of_cons; by right].
  fold (moniker_of path scope name). rewrite <-(card_of_moniker c sig scope name k). apply ok_card_new; [|done]. by apply card_of_ok.
Qed.

Lemma from_here_new m x : from_here (x :: m) x.
Proof. left. apply elem_of_cons. by left. Qed.
Lemma from_here_module m : from_here m (module_moniker path).
Proof. by right. Qed.

(** [collect] keeps files well formed that declare the caller. *)
Definition collects (collect : string → Cst → ParsedFile → ParsedFile) : Prop :=
  ∀ m sym c f, part_of root c → moniker_build path sym ∈ m → ok m f → ok m (collect (moniker_build path sym) c f).
Lemma collects_preorder (visit : string → Cst → ParsedFile → ParsedFile) :
  (∀ m sym d f, part_of root d → moniker_build path sym ∈ m → ok m f → ok m (visit (moniker_build path sym) d f)) → collects (λ caller, preorder_fold (visit caller)).
Proof. intros Hv m sym c f Hc Hm. apply ok_preorder; [done|]. intros d f' Hd. by apply Hv. Qed.

(** A route that may be added. *)
Definition route_fits (r : option Route_) : Prop :=
  match r with Some (c, e) => card_ok path root c ∧ source_moniker e = card_moniker c | None => True end.
Lemma route_of_fits c method rp sig h : part_of root c → route_fits (Some (route_of path c method rp sig h)).
Proof.
  intros Hc. unfold route_of. destruct (line_range c) as [a b] eqn:Hl. cbn [route_fits]. split; [|done]. split_and!; [done| |by left].
  exists c. by rewrite Hl.
Qed.
Lemma ok_route m r f : route_fits r → ok m f → ok m (add_route r f).
Proof.
  destruct r as [[c [src t k]]|]; [|done]. cbn. intros [Hc ->] Ho. eapply ok_weaken; [apply ok_edge; [|by apply ok_card_new]|intros x Hx; apply elem_of_cons; by right].
  left. left. apply elem_of_cons. by left.
Qed.
Lemma head_omap_fits {A} (g : A → option Route_) l : (∀ x, x ∈ l → route_fits (g x)) → route_fits (head (omap g l)).
Proof.
  induction l as [|x l IH]; intros Hg; cbn; [done|]. pose proof (Hg x ltac:(apply elem_of_cons; by left)) as Hx. destruct (g x) as [r|]; [done|].
  apply IH. intros y Hy. apply Hg. apply elem_of_cons. by right.
Qed.
End wf.


Lemma in_filter {A} (P : A → Prop) `{∀ x, Decision (P x)} (x : A) (l : list A) : x ∈ filter P l → x ∈ l.
Proof. by intros [_ Hx]%list_elem_of_filter. Qed.
Lemma part_in_named r c d : d ∈ named_children c → part_of r c → part_of r d.
Proof. intros Hd%in_filter. by apply part_child. Qed.
Lemma part_named_child r c i d : named_child i c = Some d → part_of r c → part_of r d.
Proof. apply part_named. Qed.

#[export] Hint Resolve from_here_new from_here_module one_line_clean list_elem_of_here list_elem_of_further part_in_named part_named_child : extract.

Ltac declared := solve [assumption | reflexivity | left; declared | right; reflexivity | apply list_elem_of_here | apply list_elem_of_further; declared].

(** A card inside a term: the rest is from a file that declares its moniker. *)
Ltac after_card :=
  match goal with
  | |- ok ?p ?r ?l ?m ?t =>
      match t with
      | context [add_card (card_of p ?c ?sig ?sc ?n ?k) ?f] =>
          let card := constr:(add_card (card_of p c sig sc n k) f) in
          let t' := eval pattern card in t in
          match t' with ?g _ => change (ok p r l m (g card)); apply ok_card_then; [| | |intros ? ?; cbv beta] end
      end
  end.

Ltac fold_child :=
  repeat match goal with
  | child := mkCst _ _ _ _ _ _ ?parts, H : on_field id ?n ?parts = Some ?b |- _ => change (field n child = Some b) in H
  | child := mkCst _ _ _ _ _ _ ?parts, H : on_kind id ?n ?parts = Some ?b |- _ => change (child_by_kind n child = Some b) in H
  | H : _ ∈ filter _ _ |- _ => apply in_filter in H
  end.

(** One step through the body of an extractor: the branches, the pushes, the
    walks of parts. *)
Ltac ex_step :=
  match goal with
  | H : ok _ _ _ ?m ?f |- ok _ _ _ ?m ?f => exact H
  | |- part_of _ _ => solve [fold_child; eauto 6 with extract]
  | |- no_char _ _ => apply one_line_clean
  | |- from_here _ _ _ => declared
  | |- from_here _ _ _ ∨ _ => first [left; declared | right; assumption]
  | |- moniker_build _ _ ∈ _ => declared
  | |- ok _ _ _ _ (if decide _ then _ else _) => case_decide
  | |- ok _ _ _ _ (if ?b then _ else _) => destruct b eqn:?
  | |- ok _ _ _ _ (match on_kind ?g ?k ?p with Some _ => _ | None => _ end) =>
      rewrite (on_kind_eq g k p); destruct (on_kind id k p) eqn:?; cbn [fmap option_fmap option_map]
  | |- ok _ _ _ _ (match ?o with Some _ => _ | None => _ end) => destruct o eqn:?
  | |- ok _ _ _ _ _ => after_card
  | |- ok _ _ _ _ (default _ (on_field ?g _ _)) => rewrite (on_field_eq g); apply ok_default; [intros ? ?|]
  | |- ok _ _ _ _ (default _ (on_kind ?g _ _)) => rewrite (on_kind_eq g); apply ok_default; [intros ? ?|]
  | |- ok _ _ _ _ (add_edge _ _) => apply ok_edge
  | |- ok _ _ _ _ (add_edges ((λ _, mkStructural _ _ _) <$> _) _) => apply ok_edges
  | |- ok _ _ _ _ (add_call _ _) => apply ok_call
  | |- ok _ _ _ _ (add_route _ _) => apply ok_route
  | |- ok _ _ _ _ (call_named _ _ _ _) => apply ok_call_named
  | |- ok _ _ _ _ (foldl _ _ _) => apply ok_fold; [intros ? ? ? ?|]
  | H : collects _ _ _ ?c |- ok _ _ _ _ (?c _ _ _) => apply H
  | IH : ∀ d e, d ∈ _ → part_of d e → _, Hd : ?child ∈ children _ |- ok _ _ _ _ _ => eapply (IH child); [exact Hd|..]
  end.
Ltac cards := unfold push_function, push_symbol, ecma_push_symbol, kotlin_push_symbol, moniker_of, edges_from.
(** The file of a node's children, from that of one child. *)
Ltac into_children :=
  match goal with IH : ∀ d e, d ∈ children ?c → _ |- _ => apply (ok_for_each _ _ _ _ _ c); [|assumption] end;
  intros [k' n' a' b' ra' rb' parts] f' Hd Ho';
  pose (child := mkCst k' n' a' b' ra' rb' parts); fold child in Hd |- *; cbv zeta;
  match type of Hd with _ ∈ children ?c => match goal with Hc : part_of ?r c |- _ => assert (part_of r child) as Hchild by (eapply part_child; eassumption) end end;
  cards.
Ltac by_walk := match goal with |- ∀ c, part_of ?r c → @?Q c => apply (walk_ind r Q) end.
Tactic Notation "walks" reference(w) :=
  by_walk; intros [? ? ? ? ? ? ?] ? IH; intros;
  cbn [w]; into_children.

(** The routes a detector finds. *)
Ltac fits_step :=
  match goal with
  | |- route_fits _ _ None => exact I
  | |- route_fits _ _ (Some (route_of _ _ _ _ _ _)) => apply route_of_fits; fold_child; eauto 6 with extract
  | |- route_fits _ _ (mbind _ ?o) => destruct o eqn:?; cbn [mbind option_bind]
  | |- route_fits _ _ (head (omap _ _)) => apply head_omap_fits; intros ? ?
  | |- route_fits _ _ (if decide _ then _ else _) => case_decide
  | |- route_fits _ _ (if ?b then _ else _) => destruct b
  end.
(** A node of a body: its calls are from the declared caller. *)
Ltac calls visit :=
  apply (collects_preorder _ _ _ visit); intros m sym d f Hd Hm Ho;
  match goal with |- ok ?p _ _ _ _ => assert (from_here p m (moniker_build p sym)) as Hf by (left; exact Hm) end.

Section core.
Context (framework_routes : bool) (path source : string) (root : Cst) (loose : StructuralEdgeKind → Prop) (Hpath : no_char "#"%char path).
#[local] Notation ok := (ok path root loose).
#[local] Notation collects := (collects path root loose).

Lemma moniker_split sym : split_once (moniker_build path sym) "#" = Some (path, sym).
Proof. by apply split_once_no_char. Qed.


Lemma axum_fits c : part_of root c → route_fits path root (axum_detect source path c).
Proof. intros Hc. unfold axum_detect. repeat fits_step. Qed.

Lemma rust_collects : collects (rust_collect_calls framework_routes source).
Proof. calls (rust_call framework_routes source). unfold rust_call. rewrite moniker_split. repeat ex_step. by apply axum_fits. Qed.

Lemma rust_ok : loose Implements → ∀ c, part_of root c → ∀ scope m f, ok m f → ok m (rust_walk framework_routes source path c scope f).
Proof. intros Hl. pose proof rust_collects as Hcol. walks rust_walk. repeat ex_step. Qed.

Lemma simple_collects ck ff mk mf : collects (λ caller, preorder_fold (simple_call source ck ff mk mf caller)).
Proof. calls (simple_call source ck ff mk mf). unfold simple_call. repeat ex_step. Qed.

Lemma flask_fits names c : part_of root c → route_fits path root (flask_detect source path names c).
Proof. intros Hc. unfold flask_detect, route_from_decorator, flask_build_route. repeat fits_step. Qed.
Lemma python_ok names : ∀ c, part_of root c → ∀ scope m f, ok m f → ok m (python_walk framework_routes source path names c scope f).
Proof.
  pose proof (simple_collects "call" "function" "attribute" "attribute" : collects (python_collect_calls source)) as Hcol.
  walks python_walk. unfold python_imports. repeat ex_step. by apply flask_fits.
Qed.

Lemma ecma_collects : collects (ecma_collect_calls source).
Proof. calls (ecma_call source). unfold ecma_call, simple_call. repeat ex_step. Qed.
Lemma ecma_ok ts : ∀ c, part_of root c → (∀ scope m f, ok m f → ok m (ecma_walk source path ts c scope f)) ∧
  (∀ sig_start scope m f, part_of root sig_start → ok m f → ok m (ecma_declaration source path ts c sig_start scope f)).
Proof.
  pose proof ecma_collects as Hcol. apply (walk_ind root). intros c Hc IH.
  assert (∀ d e, d ∈ children c → part_of d e → ∀ scope m f, ok m f → ok m (ecma_walk source path ts e scope f)) as IHw by (intros; by eapply IH).
  assert (∀ d e, d ∈ children c → part_of d e → ∀ sig_start scope m f, part_of root sig_start → ok m f →
    ok m (ecma_declaration source path ts e sig_start scope f)) as IHd by (intros; by eapply IH).
  clear IH. destruct c as [k n a b ra rb cs]. split.
  - intros scope m f Ho. cbn [ecma_walk ecma_declaration]; fold (ecma_walk source path) (ecma_declaration source path). into_children. repeat ex_step.
  - intros sig_start scope m f Hs Ho. cbn [ecma_walk ecma_declaration]; fold (ecma_walk source path) (ecma_declaration source path). pose (child := mkCst k n a b ra rb cs). fold child in Hc, IHw |- *. cards. cbv zeta.
    repeat ex_step; (eapply IHw; [fold_child; by eapply field_child|done|repeat ex_step]).
Qed.

Lemma gin_fits names c : part_of root c → route_fits path root (gin_detect source names path c).
Proof. intros Hc. unfold gin_detect. repeat fits_step. Qed.
Lemma go_collects names : collects (go_collect_calls framework_routes source names).
Proof.
  calls (go_call framework_routes source names). unfold go_call, simple_call. cbv zeta. rewrite moniker_split.
  repeat ex_step. all: by apply gin_fits.
Qed.
Lemma go_ok names : ∀ c, part_of root c → ∀ scope m f, ok m f → ok m (go_walk framework_routes source path names c scope f).
Proof. pose proof (go_collects names) as Hcol. walks go_walk. unfold go_type_spec, go_import. cards. repeat ex_step. Qed.

Lemma spring_fits b name c : part_of root c → route_fits path root (spring_detect source path b name c).
Proof.
  intros Hc. unfold spring_detect, find_modifiers. destruct b; cbn [negb]; [|done]. destruct (list_find _ _) as [[i d]|] eqn:Hd; [|done].
  apply list_find_Some in Hd as (Hd & _). cbn. unfold route_from_annotation. cbv zeta. repeat fits_step.
Qed.
Lemma java_collects : collects (java_collect_calls source).
Proof. calls (java_call source). unfold java_call. repeat ex_step. Qed.
Lemma java_ok : ∀ c, part_of root c → ∀ scope b m f, ok m f → ok m (java_walk framework_routes source path c scope b f).
Proof. pose proof java_collects as Hcol. walks java_walk. repeat ex_step; by apply spring_fits. Qed.
Lemma c_ok : ∀ c, part_of root c → ∀ m f, ok m f → ok m (c_walk source path c f).
Proof.
  pose proof (simple_collects "call_expression" "function" "field_expression" "field" : collects (c_collect_calls source)) as Hcol.
  walks c_walk. unfold c_include. repeat ex_step.
Qed.
Lemma cpp_ok : ∀ c, part_of root c → ∀ scope m f, ok m f → ok m (cpp_walk source path c scope f).
Proof.
  pose proof (simple_collects "call_expression" "function" "field_expression" "field" : collects (c_collect_calls source)) as Hcol.
  walks cpp_walk. unfold c_include. repeat ex_step.
Qed.
End core.

Section extended.
Context (path source : string) (root : Cst) (loose : StructuralEdgeKind → Prop).
#[local] Notation ok := (ok path root loose).
#[local] Notation collects := (collects path root loose).
#[local] Notation simple_collects := (simple_collects path source root loose).

Lemma field_collects ck nf mem : collects (λ caller, preorder_fold (field_call source ck nf mem caller)).
Proof. calls (field_call source ck nf mem). unfold field_call. repeat ex_step. Qed.

Lemma bash_ok : ∀ c, part_of root c → ∀ m f, ok m f → ok m (bash_walk source path c f).
Proof. pose proof (field_collects "command" "name" (λ _, false) : collects (bash_collect_calls source)) as Hcol. walks bash_walk. repeat ex_step. Qed.

Lemma csharp_ok : ∀ c, part_of root c → ∀ scope m f, ok m f → ok m (csharp_walk source path c scope f).
Proof.
  pose proof (simple_collects "invocation_expression" "function" "member_access_expression" "name" : collects (csharp_collect_calls source)) as Hcol.
  walks csharp_walk. repeat ex_step.
Qed.

Lemma kotlin_collects : collects (kotlin_collect_calls source).
Proof. calls (kotlin_call source). unfold kotlin_call. repeat ex_step. Qed.
Lemma kotlin_ok : ∀ c, part_of root c → ∀ scope m f, ok m f → ok m (kotlin_walk source path c scope f).
Proof. pose proof kotlin_collects as Hcol. walks kotlin_walk. unfold kotlin_import. repeat ex_step. Qed.

Lemma lua_ok : ∀ c, part_of root c → ∀ m f, ok m f → ok m (lua_walk source path c f).
Proof.
  pose proof (simple_collects "function_call" "name" "method_index_expression" "method" : collects (lua_collect_calls source)) as Hcol.
  walks lua_walk. repeat ex_step.
Qed.
Lemma powershell_ok : ∀ c, part_of root c → ∀ m f, ok m f → ok m (powershell_walk source path c f).
Proof.
  pose proof (field_collects "command" "command_name" (λ _, false) : collects (powershell_collect_calls source)) as Hcol.
  walks powershell_walk. repeat ex_step.
Qed.
Lemma ruby_ok : ∀ c, part_of root c → ∀ scope m f, ok m f → ok m (ruby_walk source path c scope f).
Proof.
  pose proof (field_collects "call" "method" (λ c, bool_decide (is_Some (field "receiver" c))) : collects (ruby_collect_calls source)) as Hcol.
  walks ruby_walk. repeat ex_step.
Qed.
Lemma scala_ok : ∀ c, part_of root c → ∀ scope m f, ok m f → ok m (scala_walk source path c scope f).
Proof.
  pose proof (simple_collects "call_expression" "function" "field_expression" "field" : collects (scala_collect_calls source)) as Hcol.
  walks scala_walk. repeat ex_step.
Qed.
Lemma swift_collects : collects (swift_collect_calls source).
Proof. calls (swift_call source). unfold swift_call. repeat ex_step. Qed.
Lemma swift_ok : ∀ c, part_of root c → ∀ scope m f, ok m f → ok m (swift_walk source path c scope f).
Proof. pose proof swift_collects as Hcol. walks swift_walk. repeat ex_step. Qed.
Lemma zig_ok : ∀ c, part_of root c → ∀ scope m f, ok m f → ok m (zig_walk source path c scope f).
Proof.
  pose proof (simple_collects "call_expression" "function" "field_expression" "member" : collects (zig_collect_calls source)) as Hcol.
  walks zig_walk. repeat ex_step.
Qed.
Lemma php_collects : collects (php_collect_calls source).
Proof. calls (php_call source). unfold php_call, field_call. repeat ex_step. Qed.
Lemma php_ok : ∀ c, part_of root c → ∀ scope m f, ok m f → ok m (php_walk source path c scope f).
Proof. pose proof php_collects as Hcol. walks php_walk. repeat ex_step. Qed.
End extended.

Section data.
Context (path source : string) (root : Cst) (loose : StructuralEdgeKind → Prop).
#[local] Notation ok := (ok path root loose).
#[local] Notation collects := (collects path root loose).
#[local] Notation simple_collects := (simple_collects path source root loose).

Lemma css_selectors_ok m selectors rule f : part_of root selectors → part_of root rule → ok m f → ok m (css_selectors source path selectors rule f).
Proof.
  intros Hs Hr Ho. unfold css_selectors. apply ok_fold; [|done]. intros c f' Hc Ho'. apply ok_preorder; [by eapply part_child| |done].
  intros d f'' Hd Ho''. unfold css_selector. cards. repeat ex_step.
Qed.
Lemma css_declaration_ok m c f : part_of root c → ok m f → ok m (css_declaration source path c f).
Proof.
  intros Hc Ho. unfold css_declaration. destruct (child_by_kind _ c); [|done]. apply ok_preorder; [done| |cards; repeat ex_step].
  intros d f' Hd Ho'. unfold css_var_call. repeat ex_step.
Qed.
Lemma css_ok : ∀ c, part_of root c → ∀ m f, ok m f → ok m (css_walk source path c f).
Proof.
  walks css_walk. unfold css_import, css_rule_set, css_keyframes. cards. repeat ex_step.
  all: first [apply css_declaration_ok | apply css_selectors_ok]; repeat ex_step.
Qed.

Lemma html_element_ok m c f : part_of root c → ok m f → ok m (html_element source path c f).
Proof.
  intros Hc Ho. unfold html_element. destruct (child_by_kind "start_tag" c) as [tag|] eqn:Htag; [|done]. unfold html_id_attributes, attributes.
  apply ok_fold; [intros x f' Hx Ho'|]. 
  - destruct (attr_key_value source x). cards. repeat ex_step.
  - cut (ok m (if str_contains (default "" (text source <$> child_by_kind "tag_name" tag)) "-" then push_symbol source path c [] (default "" (text source <$> child_by_kind "tag_name" tag)) ClassKind f else f)); [|cards; repeat ex_step].
    intros Ho'. unfold html_link_href, html_script_src. destruct (foldl _ _ _). repeat ex_step. destruct p. repeat ex_step.
Qed.
Lemma html_ok : ∀ c, part_of root c → ∀ m f, ok m f → ok m (html_walk source path c f).
Proof. walks html_walk. repeat ex_step. by apply html_element_ok. Qed.

Lemma r_collects : collects (r_collect_calls source).
Proof. calls (r_call source). unfold r_call. repeat ex_step. destruct (resolve_callee _ _). repeat ex_step. Qed.
Lemma r_assignment_ok m c f g : part_of root c → ok m f → r_assignment source path c f = Some g → ok m g.
Proof.
  pose proof r_collects as Hcol. intros Hc Ho. unfold r_assignment, push_function, push_symbol, moniker_of. destruct (field "lhs" c) eqn:?; [|done]. destruct (field "rhs" c) eqn:?; [|done].
  cbn [mbind option_bind]. cbv zeta.
  repeat case_match; intros [= <-]; repeat ex_step.
Qed.
Lemma r_ok : ∀ c, part_of root c → ∀ m f, ok m f → ok m (r_walk source path c f).
Proof.
  walks r_walk. unfold r_top_level_call. cards. repeat ex_step. by eapply r_assignment_ok.
Qed.

Lemma relations_ok m src c f : part_of root c → from_here path m src → ok m f → ok m (relations source src c f).
Proof.
  intros Hc Hs. revert c Hc f. walks relations. repeat ex_step.
Qed.
Lemma foreign_references_ok m src c f : part_of root c → from_here path m src ∨ loose Imports → ok m f → ok m (foreign_references source src c f).
Proof.
  intros Hc Hs. revert c Hc f. by_walk. intros [k n a b ra rb cs] Hc IH f Ho. cbn [foreign_references].
  rewrite for_each_eq. change (cs.*2) with (children (mkCst k n a b ra rb cs)). revert IH Hc. generalize (mkCst k n a b ra rb cs) as c. intros c IH Hc.
  assert (∀ l st, (∀ d, d ∈ l → d ∈ children c) → ok m st.1 → ok m (foldl (λ st child, let '(f, seen) := st in
      if decide (kind child = "keyword_references") then (f, true)
      else if decide (seen = true ∧ kind child = "object_reference") then
        (match object_name source child with Some target => add_edge (mkStructural src target Imports) f | None => f end, false)
      else (foreign_references source src child f, seen)) st l).1) as Hf; [|by apply Hf].
  induction l as [|d l IHl]; intros [f' seen] Hl Ho'; [done|]. cbn [foldl]. apply IHl; [intros x Hx; apply Hl; apply elem_of_cons; by right|].
  assert (d ∈ children c) as Hd by (apply Hl, elem_of_cons; by left). cbn in Ho'. repeat case_decide; cbn; [done| |by eapply IH].
  destruct (object_name source d); [by apply ok_edge|done].
Qed.
Lemma sql_ok : loose Imports → ∀ c, part_of root c → ∀ m f, ok m f → ok m (sql_walk source path c f).
Proof.
  intros Hl. walks sql_walk. unfold create_table, alter_table, create_view, create_index, create_trigger, create_function, create_type, create_schema. cards. cbv zeta.
  repeat first [ex_step | apply relations_ok | apply foreign_references_ok].
Qed.

Lemma dart_class_body_ok m scope body f : part_of root body → ok m f → ok m (dart_class_body source path scope body f).
Proof.
  pose proof (simple_collects "call_expression" "function" "member_expression" "property" : collects (dart_collect_calls source)) as Hcol.
  intros Hb Ho. unfold dart_class_body, dart_member_part. cards. repeat ex_step.
Qed.
Lemma dart_edges_ok m src c f : from_here path m src → ok m f → ok m (add_edges (dart_inheritance source c src) f).
Proof.
  intros Hs Ho. assert (∀ es f, Forall (λ e, source_moniker e = src) es → ok m f → ok m (add_edges es f)) as Hes.
  { induction es as [|[s t k] es IH]; intros g Hg Hok; [done|]. inversion Hg; subst. cbn in *; subst. apply IH; [done|]. apply ok_edge; auto. }
  apply Hes; [|done]. unfold dart_inheritance, edges_from.
  destruct (field "superclass" c); repeat (apply Forall_app; split); try (apply Forall_fmap, Forall_true; done); done.
Qed.
Lemma dart_ok : ∀ c, part_of root c → ∀ scope m f, ok m f → ok m (dart_walk source path c scope f).
Proof.
  pose proof (simple_collects "call_expression" "function" "member_expression" "property" : collects (dart_collect_calls source)) as Hcol.
  walks dart_walk. unfold dart_import, dart_class, dart_mixin, dart_extension, dart_function, dart_into. cards. cbv zeta.
  repeat first [ex_step | apply dart_edges_ok | apply dart_class_body_ok].
Qed.

Lemma elixir_collects : collects (elixir_collect_calls source).
Proof. calls (elixir_call source). unfold elixir_call. repeat ex_step. Qed.
Lemma qualify_join scope name : join "::" (scope ++ [name]) = qualify scope name.
Proof.
  destruct scope as [|x scope]; [done|]. cbn [qualify]. revert x. induction scope as [|y scope IH]; intros x; [done|].
  cbn [app]. cbn [app] in IH. change (x +:+ "::" +:+ join "::" (y :: scope ++ [name]) = (x +:+ "::" +:+ join "::" (y :: scope)) +:+ "::" +:+ name).
  by rewrite IH, !append_assoc.
Qed.
Lemma scope_from_here m scope name : from_here path (moniker_build path (qualify scope name) :: m) (scope_moniker path (scope ++ [name])).
Proof.
  left. unfold scope_moniker. replace (match scope ++ [name] with [] => _ | _ => _ end) with (moniker_build path (join "::" (scope ++ [name]))) by by destruct scope.
  rewrite qualify_join. apply elem_of_cons. by left.
Qed.
Lemma elixir_ok : ∀ c, part_of root c → ∀ scope m f, from_here path m (scope_moniker path scope) → ok m f → ok m (elixir_walk source path c scope f).
Proof.
  pose proof elixir_collects as Hcol. walks elixir_walk. unfold elixir_def, elixir_import, elixir_unary. cards. repeat ex_step.
  all: apply scope_from_here.
Qed.
End data.

Section vm.
Context `{TreeQueryLaws} (path source : string) (root : Cst) (loose : StructuralEdgeKind → Prop).
#[local] Notation ok := (ok path root loose).
#[local] Notation collects := (collects path root loose).

Lemma generic_collects : collects (collect_calls_generic source).
Proof. calls (generic_call source). unfold generic_call. repeat ex_step. Qed.
Lemma assignment_part c lhs body : part_of root c → find_assignment_func c = Some (lhs, body) → part_of root body.
Proof.
  intros Hc. unfold find_assignment_func. intros (l & _ & Hf)%bind_Some. apply bind_Some in Hf as (r & Hr & Hf).
  case_match; [|done]. simplify_eq. destruct (field "rhs" c) eqn:?; simplify_eq; eauto with extract.
Qed.
Lemma generic_assignment_ok m scope c f g : part_of root c → ok m f → generic_assignment source path scope c f = Some g → ok m g.
Proof.
  pose proof generic_collects as Hcol. intros Hc Ho. unfold generic_assignment, push_function, push_symbol, moniker_of.
  destruct (find_assignment_func c) as [[lhs body]|] eqn:Hf; [|done]. apply assignment_part in Hf; [|done]. cbn [mbind option_bind]. cbv zeta.
  case_match; [|done]. intros [= <-]. repeat ex_step.
Qed.
Lemma generic_ok : ∀ c, part_of root c → ∀ scope m f, ok m f → ok m (walk_generic source path c scope f).
Proof.
  pose proof generic_collects as Hcol. walks walk_generic. repeat ex_step; [by eapply generic_assignment_ok|].
  repeat case_match; repeat ex_step.
Qed.

Lemma split_char_clean ch s : Forall (no_char ch) (split_char ch s).
Proof.
  induction s as [|a s IH]; cbn [split_char]; [by constructor|]. case_decide as Ha; [by constructor|].
  destruct (split_char ch s) as [|x l]; [constructor; [by apply no_char_cons|done]|]. inversion IH; subst. constructor; [by apply no_char_cons|done].
Qed.
Lemma lines_clean s : Forall (no_char newline_char) (lines s).
Proof.
  pose proof (split_char_clean newline_char s) as Hs. unfold lines. change "010"%char with newline_char.
  induction Hs as [|x l Hx Hl IH]; [constructor|]. destruct l as [|y l]; [destruct x; by repeat constructor|].
  change (unterminate (x :: y :: l)) with (default x (strip_suffix (String "013"%char "") x) :: unterminate (y :: l)). constructor; [|done].
  destruct (strip_suffix _ x) as [r|] eqn:Hr; [|done]. apply strip_suffix_Some in Hr as ->. by apply no_char_append in Hx as [? _].
Qed.
Lemma key_card_ok c key : part_of root c → card_ok path root (key_card source path c key).
Proof.
  intros Hc. unfold key_card. destruct (line_range c) as [a b] eqn:Hl. split_and!; [done|exists c; by rewrite Hl|]. right. cbn [card_signature].
  unfold first_line, trim. apply trim_end_by_no_char, trim_start_by_no_char. pose proof (lines_clean (text source c)) as Hf.
  destruct Hf; done.
Qed.
Lemma capture_part l q ms m n c : tree_query l q root = Some ms → m ∈ ms → node_for_capture m n = Some c → part_of root c.
Proof.
  intros Hq Hm Hn. apply elem_of_preorder. unfold node_for_capture in Hn. destruct (list_find _ m) as [[i [n' c']]|] eqn:Hf; cbn in Hn; simplify_eq.
  apply list_find_Some in Hf as (Hf & _ & _). eapply (query_captures l q root ms m n'); [done|done|]. by eapply list_elem_of_lookup_2.
Qed.
(** The cards of the keys a query finds. *)
Lemma on_key_ok m l q kn nn rest f :
  (∀ mt key m f, moniker_build path key ∈ m → ok m f → ok m (rest mt key f)) → ok m f →
  ok m (for_matches (λ mt, on_key source path kn nn (rest mt) mt) (matches_of l q root) f).
Proof.
  intros Hr Ho. unfold for_matches, matches_of. apply ok_fold; [|done]. intros mt f' Hmt Ho'. unfold on_key.
  destruct (tree_query l q root) as [ms|] eqn:Hq; cbn in Hmt; [|by apply not_elem_of_nil in Hmt].
  destruct (node_for_capture mt kn), (node_for_capture mt nn) as [p|] eqn:Hp; [|done..]. destruct (is_empty _); [done|].
  assert (part_of root p) as Hpart by by eapply capture_part.
  set (key := clean_key _). eapply ok_weaken; [apply Hr; [|apply ok_card_new; [by apply key_card_ok|done]]|intros x Hx; apply elem_of_cons; by right].
  unfold key_card. destruct (line_range p). apply elem_of_cons. by left.
Qed.
Lemma vm_ok l : ok [] (vm_extract source path l root).
Proof.
  pose proof (ok_no_file path root loose) as Hn.
  assert (∀ l q kn nn f, ok [] f → ok [] (for_matches (on_key source path kn nn (λ _ f, f)) (matches_of l q root) f)) as Hplain.
  { intros l' q kn nn f. apply (on_key_ok [] l' q kn nn (λ _ _ f, f)). auto. }
  destruct l; try (by apply generic_ok); cbn [vm_extract].
  - apply on_key_ok; [|done]. intros mt key m f Hk Ho. unfold yaml_imports. repeat ex_step.
  - unfold extract_toml. by apply Hplain, Hplain.
  - apply on_key_ok; [|done]. intros mt key m f Hk Ho. unfold json_import. repeat ex_step.
  - by apply Hplain.
Qed.
End vm.

(** ** Every language *)

(** What tree-sitter gives: rows in order and within those of the root, and fewer
    rows than a [u32] counts. *)
Definition tree_ok (root : Cst) : Prop :=
  Forall (λ c, (start_row c ≤ end_row c ∧ end_row c ≤ end_row root)%N) (preorder root) ∧ (end_row root < 4294967295)%N.
(** The edges that may start at a symbol of another file: [impl Trait for Type] of
    Rust and [ALTER TABLE] of SQL. *)
Definition loose_edges (l : Language) (k : StructuralEdgeKind) : Prop := l = LangRust ∧ k = Implements ∨ l = LangSql ∧ k = Imports.

Lemma extract_ok `{TreeQueryLaws} fr l source path root :
  no_char "#"%char path → ok path root (loose_edges l) [] (extract source path fr l root).
Proof.
  intros Hp. pose proof (ok_no_file path root (loose_edges l)) as Hn. pose proof (part_refl root) as Hr.
  destruct l; cbn [extract]; try (by apply vm_ok).
  all: lazymatch goal with
       | |- ok _ _ _ _ (rust_extract _ _ _ _) => apply rust_ok; [done|by left|done|done]
       | |- ok _ _ _ _ (sql_extract _ _ _) => apply sql_ok; [by right|done|done]
       | |- ok _ _ _ _ (elixir_extract _ _ _) => apply elixir_ok; [done|by right|done]
       | |- ok _ _ _ _ (ecma_extract _ _ _ _) => by apply ecma_ok
       | _ => first [by apply python_ok | by apply go_ok | by apply java_ok | by apply c_ok | by apply cpp_ok | by apply bash_ok | by apply csharp_ok
                    | by apply kotlin_ok | by apply lua_ok | by apply powershell_ok | by apply ruby_ok | by apply scala_ok | by apply swift_ok
                    | by apply zig_ok | by apply php_ok | by apply css_ok | by apply html_ok | by apply r_ok | by apply dart_ok]
       end.
Qed.

Lemma line_bounds root d a b : tree_ok root → part_of root d → (a, b) = line_range d → (1 ≤ a ∧ a ≤ b ∧ b ≤ end_row root + 1)%N.
Proof.
  intros [Ht Hmax] Hd%elem_of_preorder [= -> ->]. rewrite Forall_forall in Ht. apply Ht in Hd as [Hse Her]. unfold line_of.
  rewrite !(N.mod_small (start_row d)), !(N.mod_small (end_row d)), !N.mod_small by lia. lia.
Qed.

(** C32: whatever the language and the text, the file the extractors give for a path
    without a hash sign is well formed: every card has the moniker of its symbol in
    this file, which names the file back, the lines of a part of the tree, from 1 to the number of rows,
    and, but for routes, a signature on one line; every call and every structural
    reference starts at a symbol of the file or at its module, but for the
    implementations of Rust and the altered tables of SQL. *)
Theorem extract_well_formed `{TreeQueryLaws} fr l source path root : no_char "#"%char path → tree_ok root →
  let f := extract source path fr l root in
  file_ok path root (loose_edges l) f ∧
  Forall (λ c, file_of (card_moniker c) = path ∧ (1 ≤ card_line_start c ∧ card_line_start c ≤ card_line_end c ∧ card_line_end c ≤ end_row root + 1)%N) (symbols f).
Proof.
  intros Hp Ht f. destruct (extract_ok fr l source path root Hp) as [Hf _]. split; [done|]. eapply Forall_impl; [exact (proj1 Hf)|].
  intros c (Hm & (d & Hd & Hl) & _). split; [|by eapply line_bounds]. rewrite Hm. unfold file_of. by rewrite (moniker_split path Hp).
Qed.

(** A query engine for the pairs of configuration files, and a JSON text. *)
Definition pair_query : TreeQuery := λ _ _ root, Some (omap (λ c, if decide (kind c = "pair") then
  k ← field "key" c; v ← field "value" c; Some [("key", k); ("val", v); ("pair", c)] else None) (preorder root)).
Lemma pair_query_laws : @TreeQueryLaws pair_query.
Proof.
  intros l q root ms m n c [= <-] Hm Hc. apply list_elem_of_omap in Hm as (d & Hd%elem_of_preorder & Hm). case_decide; [|done].
  apply bind_Some in Hm as (k & Hk & Hm). apply bind_Some in Hm as (v & Hv & [= <-]). apply elem_of_preorder.
  repeat (apply elem_of_cons in Hc as [[= -> ->]|Hc]; [eauto with extract|]). by apply not_elem_of_nil in Hc.
Qed.
Definition json_text : string := "{" +:+ quoted_text "main" +:+ ":" +:+ quoted_text "a" +:+ "}".
Definition json_tree : Cst :=
  mkCst "document" true 0 12 0 0 [(None, mkCst "object" true 0 12 0 0
    [(None, mkCst "{" false 0 1 0 0 []);
     (None, mkCst "pair" true 1 11 0 0 [(Some "key", mkCst "string" true 1 7 0 0 []); (None, mkCst ":" false 7 8 0 0 []); (Some "value", mkCst "string" true 8 11 0 0 [])]);
     (None, mkCst "}" false 11 12 0 0 [])])].
Lemma extract_well_formed_witness :
  let f := @extract pair_query json_text "package.json" false LangJson json_tree in
  f = mkParsed [mkCard "package.json#main" "main" Struct 1 1 (quoted_text "main" +:+ ":" +:+ quoted_text "a")] []
        [mkStructural "package.json#main" "a" Imports] ∧
  file_ok "package.json" json_tree (loose_edges LangJson) f.
Proof.
  split; [vm_compute; reflexivity|].
  apply (@extract_well_formed pair_query pair_query_laws false LangJson json_text "package.json" json_tree).
  - reflexivity.
  - split; [|reflexivity]. vm_compute. repeat constructor; intro; discriminate.
Defined.
