(* ===== verification/ExtractExact.v ===== *)
(** * What the Rust extractor finds

    The symbols of a Rust file are exactly the structures and functions reached
    from the root through modules and implementations, whatever lies between; and
    examples of what the extractors record for some programs. *)

From S2P Require Import Prelude Str Language Interner ProjectIndex Http Cst Extract ExtractMore ExtractData ExtractAll ExtractProofs.

(** ** The symbols of Rust *)

Definition RUST_ITEMS : list string := ["mod_item"; "struct_item"; "impl_item"; "function_item"; "use_declaration"].

Section rust.
Context (fr : bool) (source path : string).
#[local] Notation text := (text source).

(** The walk from a node in a scope comes to a node in a scope. *)
Inductive rust_reaches : Cst → list string → Cst → list string → Prop :=
  | reach_child c scope d : d ∈ children c → rust_reaches c scope d scope
  | reach_deeper c scope d e scope' : d ∈ children c → kind d ∉ RUST_ITEMS → rust_reaches d scope e scope' → rust_reaches c scope e scope'
  | reach_mod c scope d name body e scope' : d ∈ children c → kind d = "mod_item" → field "name" d = Some name → field "body" d = Some body →
      rust_reaches body (scope ++ [text name]) e scope' → rust_reaches c scope e scope'
  | reach_impl c scope d ty body e scope' : d ∈ children c → kind d = "impl_item" → field "type" d = Some ty → field "body" d = Some body →
      rust_reaches body (scope ++ [text ty]) e scope' → rust_reaches c scope e scope'.
(** The card of a declaration in a scope. *)
Definition rust_declaration (d : Cst) (scope : list string) (card : WiringCard) : Prop :=
  ∃ name, field "name" d = Some name ∧
    (kind d = "struct_item" ∧ card = card_of path d (signature source d) scope (text name) Struct ∨
     kind d = "function_item" ∧ card = card_of path d (signature source d) scope (text name) (function_kind scope)).
Definition rust_declares (c : Cst) (scope : list string) (card : WiringCard) : Prop :=
  ∃ d scope', rust_reaches c scope d scope' ∧ rust_declaration d scope' card.

(** *** What a step adds *)

Context (card : WiringCard) (Hcard : card_kind card ≠ Route).

(** From [f] to [g] the card is added when [A]. *)
Definition adds (A : Prop) (f g : ParsedFile) : Prop := card ∈ symbols g ↔ card ∈ symbols f ∨ A.

Lemma adds_same f g : symbols g = symbols f → adds False f g.
Proof. unfold adds. intros ->. tauto. Qed.
Lemma adds_refl f : adds False f f.
Proof. by apply adds_same. Qed.
Lemma adds_card c f : adds (card = c) f (add_card c f).
Proof. unfold adds, add_card. cbn [symbols]. rewrite elem_of_app, list_elem_of_singleton. tauto. Qed.
Lemma adds_trans A B f g h : adds A f g → adds B g h → adds (A ∨ B) f h.
Proof. unfold adds. intros -> ->. tauto. Qed.
Lemma adds_iff A B f g : (A ↔ B) → adds A f g → adds B f g.
Proof. unfold adds. intros ->. done. Qed.
Lemma adds_fold {X} (A : X → Prop) (g : ParsedFile → X → ParsedFile) l f :
  (∀ x f, x ∈ l → adds (A x) f (g f x)) → adds (∃ x, x ∈ l ∧ A x) f (foldl g f l).
Proof.
  revert f. induction l as [|x l IH]; intros f Hg; cbn.
  - eapply adds_iff; [|apply adds_refl]. split; [done|]. intros (x & Hx & _). by apply not_elem_of_nil in Hx.
  - eapply adds_iff; [|eapply adds_trans; [apply Hg, elem_of_cons; by left|apply IH; intros y f' Hy; apply Hg, elem_of_cons; by right]].
    setoid_rewrite elem_of_cons. naive_solver.
Qed.
Lemma adds_edges es f : adds False f (add_edges es f).
Proof. unfold add_edges. eapply adds_iff; [|apply (adds_fold (λ _, False)); intros; by apply adds_same]. naive_solver. Qed.
Lemma adds_route r f : (∀ c e, r = Some (c, e) → card_kind c = Route) → adds False f (add_route r f).
Proof.
  intros Hr. destruct r as [[c e]|]; [|apply adds_refl]. cbn [add_route]. eapply adds_iff; [|eapply adds_trans; [apply adds_card|by apply adds_same]].
  split; [|done]. intros [->|[]]. by apply Hcard, (Hr c e).
Qed.
Lemma axum_kind file c r e : axum_detect source file c = Some (r, e) → card_kind r = Route.
Proof.
  unfold axum_detect, route_of. intros H. repeat (apply bind_Some in H as (? & _ & H) || (case_match; [done|])). destruct (line_range c). by simplify_eq.
Qed.
Lemma adds_then A f g h : adds False f g → adds A g h → adds A f h.
Proof. unfold adds. intros -> ->. tauto. Qed.
Lemma rust_call_symbols caller c f : adds False f (rust_call fr source caller c f).
Proof.
  unfold rust_call, call_named. repeat case_match; try (by apply adds_same).
  all: eapply adds_then; [|by apply adds_route; intros ? ?; apply axum_kind]; by apply adds_same.
Qed.
Lemma adds_calls caller c f : adds False f (rust_collect_calls fr source caller c f).
Proof.
  unfold rust_collect_calls. rewrite preorder_fold_eq. eapply adds_iff; [|apply (adds_fold (λ _, False))]; [naive_solver|]. intros d f' _.
  apply rust_call_symbols.
Qed.

(** What one child of a node declares. *)
Definition rust_child (scope : list string) (d : Cst) : Prop :=
  rust_declaration d scope card ∨ kind d ∉ RUST_ITEMS ∧ rust_declares d scope card ∨
  ∃ f_name node body, (kind d = "mod_item" ∧ f_name = "name" ∨ kind d = "impl_item" ∧ f_name = "type") ∧
    field f_name d = Some node ∧ field "body" d = Some body ∧ rust_declares body (scope ++ [text node]) card.
Lemma rust_declares_children c scope : rust_declares c scope card ↔ ∃ d, d ∈ children c ∧ rust_child scope d.
Proof.
  split.
  - intros (e & scope' & Hr & He). destruct Hr as [c scope d Hd|c scope d e scope' Hd Hk Hr|c scope d n b e scope' Hd Hk Hn Hb Hr|c scope d n b e scope' Hd Hk Hn Hb Hr];
      exists d; (split; [done|]); unfold rust_child, rust_declares; [by left|right; left; by eauto| |]; right; right.
    + exists "name", n, b. split_and!; [by left|done|done|by exists e, scope'].
    + exists "type", n, b. split_and!; [by right|done|done|by exists e, scope'].
  - intros (d & Hd & [He|[(Hk & e & scope' & Hr & He)|(fn & n & b & Hk & Hn & Hb & e & scope' & Hr & He)]]).
    + exists d, scope. split; [by constructor|done].
    + exists e, scope'. split; [by eapply reach_deeper|done].
    + exists e, scope'. split; [|done]. destruct Hk as [[Hk ->]|[Hk ->]]; [by eapply reach_mod|by eapply reach_impl].
Qed.

Lemma child_scope scope d fn : kind d = "mod_item" ∧ fn = "name" ∨ kind d = "impl_item" ∧ fn = "type" →
  rust_child scope d ↔ ∃ node, field fn d = Some node ∧ ∃ body, field "body" d = Some body ∧ rust_declares body (scope ++ [text node]) card.
Proof.
  intros Hk. assert (kind d ∈ RUST_ITEMS) by (by destruct Hk as [[-> _]|[-> _]]; compute_done). split.
  - intros [(name & _ & [[Hs _]|[Hs _]])|[[Hn _]|(fn' & node & body & Hk' & Hn & Hb & Hr)]]; [destruct Hk as [[Hk _]|[Hk _]]; congruence..|done|].
    assert (fn' = fn) as -> by (destruct Hk as [[Hk ->]|[Hk ->]], Hk' as [[Hk' ->]|[Hk' ->]]; congruence). eauto.
  - intros (node & Hn & body & Hb & Hr). right. right. by exists fn, node, body.
Qed.
Lemma child_declaration scope d : kind d = "struct_item" ∨ kind d = "function_item" → rust_child scope d ↔ rust_declaration d scope card.
Proof.
  intros Hk. assert (kind d ∈ RUST_ITEMS) by (by destruct Hk as [->| ->]; compute_done). split; [|by left].
  intros [?|[[? _]|(fn & ? & ? & Hk' & _)]]; [done|done|]. destruct Hk as [Hk|Hk], Hk' as [[Hk' _]|[Hk' _]]; congruence.
Qed.
Lemma child_use scope d : kind d = "use_declaration" → ¬ rust_child scope d.
Proof.
  intros Hk. assert (kind d ∈ RUST_ITEMS) by (by rewrite Hk; compute_done).
  intros [(? & _ & [[? _]|[? _]])|[[? _]|(fn & ? & ? & [[? _]|[? _]] & _)]]; congruence || done.
Qed.
Lemma child_other scope d : kind d ∉ RUST_ITEMS → rust_child scope d ↔ rust_declares d scope card.
Proof.
  intros Hk. split; [|by right; left].
  intros [(? & _ & [[Hs _]|[Hs _]])|[[_ ?]|(fn & ? & ? & [[Hs _]|[Hs _]] & _)]]; try done; destruct Hk; rewrite Hs; compute_done.
Qed.

Lemma adds_field {A} (o : option Cst) (P : Cst → Prop) f (g : Cst → ParsedFile) :
  (A ↔ ∃ x, o = Some x ∧ P x) → (∀ x, o = Some x → adds (P x) f (g x)) → adds A f (match o with Some x => g x | None => f end).
Proof.
  intros HA Hg. destruct o as [x|].
  - eapply adds_iff; [|by apply Hg]. rewrite HA. naive_solver.
  - eapply adds_iff; [|apply adds_refl]. rewrite HA. naive_solver.
Qed.
Lemma rust_walk_symbols c : ∀ scope f, adds (rust_declares c scope card) f (rust_walk fr source path c scope f).
Proof.
  induction c as [c IH] using cst_parts_ind. intros scope f. eapply adds_iff; [symmetry; apply rust_declares_children|].
  destruct c as [k n a b ra rb cs]. cbn [rust_walk]. rewrite for_each_eq. apply (adds_fold (rust_child scope)).
  intros [k' n' a' b' ra' rb' parts] g Hd. pose (child := mkCst k' n' a' b' ra' rb' parts). fold child in Hd |- *. cbv zeta.
  change k' with (kind child). assert (∀ d scope f, field "body" child = Some d → adds (rust_declares d scope card) f (rust_walk fr source path d scope f)) as IHb.
  { intros d sc f' Hb. eapply IH; [exact Hd|]. eapply part_field; [exact Hb|done]. }
  assert (∀ sc f, adds (∃ body, field "body" child = Some body ∧ rust_declares body sc card) f (default f (on_field (λ body, rust_walk fr source path body sc f) "body" parts))) as Hbody.
  { intros sc f'. rewrite (on_field_eq (λ body, rust_walk fr source path body sc f')). change (on_field id "body" parts) with (field "body" child).
    destruct (field "body" child) as [d|] eqn:Hb; cbn [fmap option_fmap option_map default].
    - eapply adds_iff; [|by apply IHb]. naive_solver.
    - eapply adds_iff; [|apply adds_refl]. naive_solver. }
  repeat case_decide.
  - eapply adds_field; [apply child_scope; by left|]. intros name Hn. apply Hbody.
  - eapply adds_field; [apply child_declaration; by left|]. intros name Hn. eapply adds_iff; [|apply adds_card]. naive_solver.
  - eapply adds_field; [apply child_scope; by right|]. intros ty Ht. eapply adds_then; [|apply Hbody]. case_match; by apply adds_same.
  - eapply adds_field; [apply child_declaration; by right|]. intros name Hn. unfold push_function. eapply adds_iff.
    2: { case_match; [eapply adds_trans; [apply adds_card|apply adds_calls]|eapply adds_trans; [apply adds_card|apply adds_refl]]. }
    naive_solver.
  - apply (adds_iff False); [by split; [|apply child_use]|]. case_match; [apply adds_edges|apply adds_refl].
  - eapply adds_iff; [symmetry; apply child_other|by eapply IH]. unfold RUST_ITEMS. rewrite !not_elem_of_cons. by split_and!; [..|apply not_elem_of_nil].
Qed.
End rust.

(** C33: but for routes, the symbols of a Rust file are exactly the cards of the
    structures and the functions the root leads to, through modules and
    implementations with a body, which qualify the name, and through any other
    node, which does not; the bodies of functions are not searched. *)
Theorem rust_symbols_exact fr source path root card : card_kind card ≠ Route →
  card ∈ symbols (rust_extract fr source path root) ↔ rust_declares source path root [] card.
Proof.
  intros Hk. pose proof (rust_walk_symbols fr source path card Hk root [] no_file) as Hw. unfold adds in Hw. cbn [no_file symbols] in Hw.
  rewrite elem_of_nil in Hw. unfold rust_extract. tauto.
Qed.

Definition leaf (k : string) (a b : N) : Cst := mkCst k true a b 0 0 [].
Definition rust_text : string := "struct S;mod m{fn f(){g()}}".
Definition rust_function : Cst :=
  mkCst "function_item" true 15 26 0 0 [(Some "name", leaf "identifier" 18 19); (Some "parameters", leaf "parameters" 19 21);
    (Some "body", mkCst "block" true 21 26 0 0 [(None, mkCst "call_expression" true 22 25 0 0 [(Some "function", leaf "identifier" 22 23); (Some "arguments", leaf "arguments" 23 25)])])].
Definition rust_module : Cst :=
  mkCst "mod_item" true 9 27 0 0 [(Some "name", leaf "identifier" 13 14); (Some "body", mkCst "declaration_list" true 14 27 0 0 [(None, rust_function)])].
Definition rust_tree : Cst :=
  mkCst "source_file" true 0 27 0 0 [(None, mkCst "struct_item" true 0 9 0 0 [(Some "name", leaf "type_identifier" 7 8)]); (None, rust_module)].
Definition rust_card : WiringCard := mkCard "a.rs#m::f" "m::f" Method 1 1 "fn f()".

Lemma rust_symbols_exact_witness : rust_declares rust_text "a.rs" rust_tree [] rust_card.
Proof. apply (rust_symbols_exact false); [discriminate|]. vm_compute. right. left. Defined.

(** ** What the extractors record for some programs *)

(** A method of a trait is a free function of the file: [trait T{fn f(){}}]. *)
Definition trait_text : string := "trait T{fn f(){}}".
Definition trait_tree : Cst :=
  mkCst "source_file" true 0 17 0 0 [(None, mkCst "trait_item" true 0 17 0 0 [(Some "name", leaf "type_identifier" 6 7);
    (Some "body", mkCst "declaration_list" true 7 17 0 0 [(None, mkCst "function_item" true 8 16 0 0
      [(Some "name", leaf "identifier" 11 12); (Some "parameters", leaf "parameters" 12 14); (Some "body", leaf "block" 14 16)])])])].
Example trait_method_is_free : symbols (rust_extract false trait_text "a.rs" trait_tree) = [mkCard "a.rs#f" "f" Function 1 1 "fn f()"].
Proof. reflexivity. Qed.

(** The implementation of a trait for a generic type starts at a symbol no card
    declares: [struct S<T>;impl<T> Q for S<T>{}]. *)
Definition generic_text : string := "struct S<T>;impl<T> Q for S<T>{}".
Definition generic_tree : Cst :=
  mkCst "source_file" true 0 32 0 0
    [(None, mkCst "struct_item" true 0 12 0 0 [(Some "name", leaf "type_identifier" 7 8); (Some "type_parameters", leaf "type_parameters" 8 11)]);
     (None, mkCst "impl_item" true 12 32 0 0 [(Some "type_parameters", leaf "type_parameters" 16 19); (Some "trait", leaf "type_identifier" 20 21);
       (Some "type", leaf "generic_type" 26 30); (Some "body", leaf "declaration_list" 30 32)])].
Example generic_impl_undeclared :
  let f := rust_extract false generic_text "a.rs" generic_tree in
  monikers f = ["a.rs#S"] ∧ structural_edges f = [mkStructural "a.rs#S<T>" "Q" Implements].
Proof. split; reflexivity. Qed.

(** A keyword argument of a Python class is one of its bases: [class C(metaclass=M):pass]. *)
Definition python_text : string := "class C(metaclass=M):pass".
Definition python_tree : Cst :=
  mkCst "module" true 0 25 0 0 [(None, mkCst "class_definition" true 0 25 0 0 [(Some "name", leaf "identifier" 6 7);
    (Some "superclasses", mkCst "argument_list" true 7 20 0 0 [(None, mkCst "keyword_argument" true 8 19 0 0 [(Some "name", leaf "identifier" 8 17); (Some "value", leaf "identifier" 18 19)])]);
    (Some "body", leaf "block" 21 25)])].
Example keyword_argument_is_base : structural_edges (python_extract false python_text "a.py" python_tree) = [mkStructural "a.py#C" "metaclass=M" Inherits].
Proof. reflexivity. Qed.

(** A file whose path has a hash sign is taken for another one. *)
Example hash_path_misattributed : file_of (moniker_build "c#/a.rs" "f") = "c".
Proof. reflexivity. Qed.
