(* ===== verification/Traces.v ===== *)
(** * Trace spans: import, aggregation, latency (weave-graph-core: trace.rs; weave-graph-cli: traces.rs)

    Spans exported as OTLP JSON are read, matched to the symbols of the graph and
    stored under their trace and span ids; a latency query summarises those of a
    symbol.  Reading JSON text is a parameter, percentiles are computed in
    [f64] as the source does. *)

From Stdlib Require Import Floats.SpecFloat.
From S2P Require Import Prelude Str Model SqlStore SqlProofs Json Http Modules Tools PolicyGate.

(** ** trace.rs *)

(** [n as i64] of a [u128], and a sum of [i64] that wraps. *)
Definition wrap_i64 (z : Z) : Z := ((z + 9223372036854775808) mod 18446744073709551616 - 9223372036854775808)%Z.

(** src/crates/weave-graph-core/src/trace.rs:30-34 [TraceSpan::is_error] *)
Definition is_error (s : TraceSpan) : bool := eq_ignore_ascii_case (status_code s) "error".

(** src/crates/weave-graph-core/src/trace.rs:38-48 [SpanStats] *)
Record SpanStats := mkStats {
  stats_count : nat;
  error_count : nat;
  total_us : Z;
  min_us : Z;
  max_us : Z;
  p50_us : Z;
  p95_us : Z;
  p99_us : Z;
}.

(** [n as f64] and [f64::ceil] followed by the cast, for a number that is not
    negative. *)
Definition f64_of (n : Z) : f64 := binary_normalize 53 1024 n 0 false.
Definition f64_ceil_usize (x : f64) : N :=
  match x with
  | S754_finite false m e => ((if (e <? 0)%Z then Z.to_N ((Z.pos m + 2 ^ (- e) - 1) / 2 ^ (- e)) else Z.to_N (Z.pos m * 2 ^ e)) `min` (u64_modulus - 1))%N
  | S754_infinity false => (u64_modulus - 1)%N
  | _ => 0%N
  end.
(** The rank of a percentile among [n] values. *)
Definition rank (percentile : Z) (n : nat) : nat :=
  N.to_nat (f64_ceil_usize (f64_mul (f64_div (f64_of percentile) (f64_of 100)) (f64_of (Z.of_nat n)))).
(** src/crates/weave-graph-core/src/trace.rs:50-56 [nearest_rank]
    The index is within the list. *)
Definition nearest_rank (sorted : list Z) (percentile : Z) : Z :=
  match sorted with
  | [] => 0
  | _ => default 0%Z (sorted !! ((rank percentile (length sorted) `max` 1 - 1) `min` (length sorted - 1)))
  end.
(** src/crates/weave-graph-core/src/trace.rs:60-73 [aggregate] *)
Definition aggregate (spans : list TraceSpan) : SpanStats :=
  let durations := sort_by Z.leb (duration_us <$> spans) in
  mkStats (length durations) (length (filter (λ s, is_error s = true) spans)) (foldl (λ a d, wrap_i64 (a + d)) 0%Z durations)
    (default 0%Z (head durations)) (default 0%Z (last durations))
    (nearest_rank durations 50) (nearest_rank durations 95) (nearest_rank durations 99).

(** ** traces.rs *)

(** src/crates/weave-graph-cli/src/traces.rs:122-133 [nanos]
    A [u128]; [debug] is the [Debug] text of a string. *)
Definition nanos (debug : string → string) (field : option Value) : result N string :=
  match field with
  | Some (JString s) => match parse_uint (2 ^ 128 - 1) s with Some n => Ok n | None => Err ("bad unix nano " +:+ debug s) end
  | Some (JNumber n) => match n with PosInt n => Ok n | _ => Err "bad unix nano number" end
  | _ => Err "missing startTimeUnixNano/endTimeUnixNano"
  end.
(** src/crates/weave-graph-cli/src/traces.rs:137-148 [attribute]
    The first attribute with the key decides. *)
Definition attribute (container : option Value) (key : string) : option string :=
  c ← container;
  l ← json_get c "attributes" ≫= as_array;
  a ← snd <$> list_find (λ a, get_str a "key" = Some key) l;
  v ← json_get a "value";
  get_str v "stringValue".

(** src/crates/weave-graph-cli/src/traces.rs:87-95 [parse_span] *)
Definition status_of (span : Value) : string :=
  match json_get span "status" ≫= λ s, get_str s "statusCode" with
  | Some c => if decide (c = "STATUS_CODE_ERROR") then "Error" else if decide (c = "STATUS_CODE_OK") then "Ok" else "Unset"
  | None => "Unset"
  end.
(** src/crates/weave-graph-cli/src/traces.rs:76-120 [parse_span] *)
Definition parse_span (debug : string → string) (span : Value) (service : option string) : result TraceSpan string :=
  let name := default "" (get_str span "name") in
  if is_empty name then Err "span with no `name`" else
  result_bind (nanos debug (json_get span "startTimeUnixNano")) (λ start_ns,
  result_bind (nanos debug (json_get span "endTimeUnixNano")) (λ end_ns,
  Ok (mkSpan (default "" (get_str span "traceId")) (default "" (get_str span "spanId"))
        (p ← get_str span "parentSpanId"; if is_empty p then None else Some p) service name
        (attribute (Some span) "code.function") (attribute (Some span) "code.filepath")
        (wrap_i64 (Z.of_N (start_ns / 1000))) (wrap_i64 (Z.of_N ((end_ns - start_ns) / 1000))) (status_of span)))).

Definition array_at (v : Value) (key : string) : list Value := default [] (json_get v key ≫= as_array).

Section traces.
Context `{Sqlite} (from_str : string → result Value string) (debug : string → string).

(** src/crates/weave-graph-cli/src/traces.rs:55-72 [parse_otlp_json]
    The spans of a resource, with its service. *)
Definition resource_spans (rs : Value) : list (Value * option string) :=
  let service := attribute (json_get rs "resource") "service.name" in
  (λ span, (span, service)) <$> (array_at rs "scopeSpans" ≫= λ scope, array_at scope "spans").
(** src/crates/weave-graph-cli/src/traces.rs:47-74 [parse_otlp_json] *)
Definition parse_otlp_json (content : string) : result (list TraceSpan) string :=
  match from_str content with
  | Err e => Err ("invalid JSON: " +:+ e)
  | Ok root =>
      match json_get root "resourceSpans" ≫= as_array with
      | None => Err "no `resourceSpans` array — not an OTLP JSON trace export"
      | Some l => try_map (λ p : Value * option string, parse_span debug p.1 p.2) (l ≫= resource_spans)
      end
  end.

(** src/crates/weave-graph-cli/src/traces.rs:154-166 [resolve_symbol] *)
Definition resolve_span_symbol (ns : list Node) (code_function : option string) (name : string) : option string :=
  let given := code_function ≫= λ c, if is_empty c then None else Some c in
  let named := if is_empty name then None else Some name in
  let indexed (c : option string) := c ≫= λ c, if existsb (λ n, bool_decide (node_symbol n = c)) ns then Some c else None in
  match indexed given with
  | Some c => Some c
  | None => match indexed named with Some c => Some c | None => match given with Some c => Some c | None => named end end
  end.
Definition with_symbol (s : TraceSpan) (symbol : option string) : TraceSpan :=
  mkSpan (trace_id s) (span_id s) (parent_span_id s) (service s) (span_name s) symbol (span_path s) (start_us s) (duration_us s) (status_code s).

(** src/crates/weave-graph-cli/src/traces.rs:18-41 [cmd_traces_import]
    The database after the import, and the number of spans with a symbol. *)
Definition cmd_traces_import (db : Db) (content : string) : Db * result nat string :=
  match parse_otlp_json content with
  | Err e => (db, Err e)
  | Ok spans =>
      match all_nodes db with
      | Err e => (db, Err (storage_error_text e))
      | Ok ns =>
          let spans := (λ s, with_symbol s (resolve_span_symbol ns (span_symbol s) (span_name s))) <$> spans in
          match try_loop upsert_trace_span spans db with
          | (db, Err e) => (db, Err (storage_error_text e))
          | (db, Ok _) => (db, Ok (length (filter (λ s, is_Some (span_symbol s)) spans)))
          end
      end
  end.

(** src/crates/weave-graph-cli/src/traces.rs:172-181 [carry_over] *)
Definition carry_over (previous rebuild : Db) : Db * result () StorageError :=
  match all_trace_spans previous with
  | Err e => (rebuild, Err e)
  | Ok spans => match try_loop upsert_trace_span spans rebuild with (db, Err e) => (db, Err e) | (db, Ok _) => (db, Ok ()) end
  end.

(** Decimal text of an [i64]. *)
Definition dec_i64 (z : Z) : string := if (z <? 0)%Z then "-" +:+ dec (Z.to_N (- z)) else dec (Z.to_N z).
(** src/crates/weave-graph-cli/src/traces.rs:197-209 [latency_text] *)
Definition stats_text (symbol : string) (st : SpanStats) : string :=
  symbol +:+ ": " +:+ dec (N.of_nat (stats_count st)) +:+ " span(s), " +:+ dec (N.of_nat (error_count st)) +:+ " error(s)" +:+ String "010"%char "" +:+
  "  p50 " +:+ dec_i64 (p50_us st) +:+ "µs · p95 " +:+ dec_i64 (p95_us st) +:+ "µs · p99 " +:+ dec_i64 (p99_us st) +:+ "µs · total " +:+
  dec_i64 (total_us st) +:+ "µs (min " +:+ dec_i64 (min_us st) +:+ "µs, max " +:+ dec_i64 (max_us st) +:+ "µs)".
(** src/crates/weave-graph-cli/src/traces.rs:187-210 [latency_text]
    The spans are those of the store. *)
Definition latency_text (spans : result (list TraceSpan) StorageError) (symbol : string) : result string string :=
  match spans with
  | Err e => Err (storage_error_text e)
  | Ok spans =>
      match filter (λ s, span_symbol s = Some symbol) spans with
      | [] => Ok ("no trace spans matched to symbol " +:+ symbol)
      | spans => Ok (stats_text symbol (aggregate spans))
      end
  end.
End traces.

(** ** Percentiles *)

Definition MAX_SPANS : nat := 1000.
Definition percentiles : list Z := [50; 95; 99]%Z.

Definition ranks_exact (n : nat) : bool :=
  forallb (λ p, bool_decide (rank p n = Z.to_nat ((p * Z.of_nat n + 99) / 100))) percentiles.
Fixpoint all_ranks (n : nat) : bool := match n with 0 => true | S n => ranks_exact n && all_ranks n end.
Lemma all_ranks_below k : ∀ n, all_ranks n = true → k < n → ranks_exact k = true.
Proof.
  induction n as [|n IH]; intros Ha Hk; [lia|]. cbn in Ha. apply andb_true_iff in Ha as [Hn Ha]. destruct (decide (k = n)) as [->|]; [done|]. apply IH; [done|lia].
Qed.
(** Rounding does not show in the rank of any list that is not larger. *)
Lemma ranks_checked : all_ranks (S MAX_SPANS) = true.
Proof. vm_compute. reflexivity. Qed.

(** The nearest rank: the least value that [p] percent of the values do not exceed. *)
Definition is_percentile (p : Z) (l : list Z) (v : Z) : Prop :=
  v ∈ l ∧ (p * Z.of_nat (length l) ≤ 100 * Z.of_nat (length (filter (λ d, d ≤ v) l)))%Z ∧
  ∀ w, w ∈ l → (w < v)%Z → (100 * Z.of_nat (length (filter (λ d, d ≤ w) l)) < p * Z.of_nat (length l))%Z.
#[export] Instance is_percentile_perm p : Proper ((≡ₚ) ==> eq ==> iff) (is_percentile p).
Proof. intros l k Hlk v ? <-. unfold is_percentile. setoid_rewrite Hlk. done. Qed.

(** In a sorted list, the values up to the one at an index. *)
Lemma sorted_prefix_le l i v : StronglySorted Z.le l → l !! i = Some v → S i ≤ length (filter (λ d, d ≤ v)%Z l).
Proof.
  revert i. induction l as [|x l IH]; intros i Hs Hi; [done|]. apply StronglySorted_inv in Hs as [Hs Hx]. destruct i as [|i]; cbn in Hi.
  - simplify_eq. rewrite filter_cons_True by lia. cbn. lia.
  - rewrite filter_cons_True; [cbn; specialize (IH i Hs Hi); lia|]. rewrite Forall_forall in Hx. eapply Hx, list_elem_of_lookup_2, Hi.
Qed.
Lemma sorted_prefix_lt l i v w : StronglySorted Z.le l → l !! i = Some v → (w < v)%Z → length (filter (λ d, d ≤ w)%Z l) ≤ i.
Proof.
  revert i. induction l as [|x l IH]; intros i Hs Hi Hw; [done|]. apply StronglySorted_inv in Hs as [Hs Hx]. destruct i as [|i]; cbn in Hi.
  - simplify_eq. rewrite filter_cons_False by lia. assert (filter (λ d, d ≤ w)%Z l = []) as ->; [|done].
    destruct (filter _ l) as [|y k] eqn:Hf; [done|]. assert (y ∈ filter (λ d, d ≤ w)%Z l) as [? Hy]%list_elem_of_filter by (rewrite Hf; apply elem_of_cons; by left).
    rewrite Forall_forall in Hx. specialize (Hx y Hy). lia.
  - rewrite filter_cons. specialize (IH i Hs Hi Hw). case_decide; cbn; lia.
Qed.

Lemma nearest_rank_percentile p l : StronglySorted Z.le l → p ∈ percentiles → 1 ≤ length l ≤ MAX_SPANS → is_percentile p l (nearest_rank l p).
Proof.
  intros Hs Hp Hn. pose proof (all_ranks_below (length l) (S MAX_SPANS) ranks_checked ltac:(lia)) as Hr. unfold ranks_exact in Hr.
  rewrite forallb_forall in Hr. specialize (Hr p ltac:(by apply list_elem_of_In)). apply bool_decide_eq_true in Hr.
  unfold nearest_rank. destruct l as [|x0 l0] eqn:Hl; [cbn in Hn; lia|]. rewrite <-Hl in *. clear x0 l0 Hl. rewrite Hr.
  assert (1 ≤ p ≤ 100)%Z as Hpr by (repeat (apply elem_of_cons in Hp as [->|Hp]; [lia|]); by apply not_elem_of_nil in Hp).
  set (n := Z.of_nat (length l)) in *. set (r := ((p * n + 99) / 100)%Z). assert (1 ≤ r ∧ r ≤ n ∧ p * n ≤ 100 * r ∧ 100 * (r - 1) < p * n)%Z as (H1 & Hrn & Hlo & Hhi).
  { unfold r. assert (1 ≤ n)%Z by lia. pose proof (Z.div_mod (p * n + 99) 100 ltac:(lia)). pose proof (Z.mod_pos_bound (p * n + 99) 100 ltac:(lia)). nia. }
  replace ((Z.to_nat r `max` 1 - 1) `min` (length l - 1)) with (Z.to_nat r - 1) by lia.
  destruct (lookup_lt_is_Some_2 l (Z.to_nat r - 1)) as [v Hv]; [lia|]. rewrite Hv. cbn. split_and!.
  - by eapply list_elem_of_lookup_2.
  - pose proof (sorted_prefix_le l _ v Hs Hv). unfold n in *. lia.
  - intros w Hw Hlt. pose proof (sorted_prefix_lt l _ v w Hs Hv Hlt). unfold n in *. lia.
Qed.

Lemma durations_sorted l : StronglySorted Z.le (sort_by Z.leb l).
Proof.
  assert (StronglySorted (λ x y, Z.leb x y = true) (sort_by Z.leb l)) as Hs.
  { apply sort_by_sorted_key; [intros x y; destruct (Z.leb_spec x y), (Z.leb_spec y x); auto; lia|]. intros x y z ?%Z.leb_le ?%Z.leb_le. apply Z.leb_le. lia. }
  induction Hs as [|x k Hs IH Hx]; constructor; [done|]. eapply Forall_impl; [exact Hx|]. intros y. apply Z.leb_le.
Qed.
Lemma wrap_small z : (- 9223372036854775808 ≤ z < 9223372036854775808)%Z → wrap_i64 z = z.
Proof. intros Hz. unfold wrap_i64. rewrite Z.mod_small; lia. Qed.
Definition sum_Z (l : list Z) : Z := foldr Z.add 0%Z l.
Lemma wrapped_sum l : ∀ a, Forall (λ d, 0 ≤ d)%Z l → (0 ≤ a)%Z → (a + sum_Z l < 9223372036854775808)%Z → foldl (λ a d, wrap_i64 (a + d)) a l = (a + sum_Z l)%Z.
Proof.
  induction l as [|d l IH]; intros a Hl Ha Hs; cbn in *; [lia|]. apply Forall_cons in Hl as [Hd Hl]. assert (0 ≤ sum_Z l)%Z.
  { clear -Hl. induction Hl; cbn; [lia|]. unfold sum_Z in *. lia. }
  unfold sum_Z in *. rewrite wrap_small by lia. rewrite IH; [lia|done|lia|lia].
Qed.
Lemma sum_Z_perm l k : l ≡ₚ k → sum_Z l = sum_Z k.
Proof. induction 1; cbn; unfold sum_Z in *; lia. Qed.

Lemma sorted_ends l : StronglySorted Z.le l → l ≠ [] →
  (default 0%Z (head l) ∈ l ∧ Forall (λ d, default 0 (head l) ≤ d)%Z l) ∧ (default 0%Z (last l) ∈ l ∧ Forall (λ d, d ≤ default 0 (last l))%Z l).
Proof.
  intros Hs Hl. split.
  - destruct l as [|x l]; [done|]. apply StronglySorted_inv in Hs as [_ Hs]. split; [apply elem_of_cons; by left|by constructor].
  - destruct l as [|x l _] using rev_ind; [done|]. rewrite last_snoc. cbn [default]. split; [apply elem_of_app; right; by apply list_elem_of_singleton|].
    apply Forall_app. split; [|by repeat constructor]. apply Forall_forall. intros y Hy.
    eapply (StronglySorted_app_1_elem_of _ _ _ y x Hs Hy). by apply list_elem_of_singleton.
Qed.
(** C14: The summary of at most a thousand spans ([MAX_SPANS]) is exact.  When no
    duration is negative and their sum fits an [i64], it holds the number of
    spans, that of the errors, the sum of the durations, the least and the
    greatest of them, and for each of the percentiles 50, 95 and 99 the nearest
    rank: the least duration that that share of the spans does not exceed.  The
    source computes the rank in floating point; rounding changes none. *)
Theorem aggregate_exact spans : 1 ≤ length spans ≤ MAX_SPANS → Forall (λ s, 0 ≤ duration_us s)%Z spans →
  (sum_Z (duration_us <$> spans) < 9223372036854775808)%Z →
  let st := aggregate spans in let ds := duration_us <$> spans in
  stats_count st = length spans ∧ error_count st = length (filter (λ s, is_error s = true) spans) ∧ total_us st = sum_Z ds ∧
  (min_us st ∈ ds ∧ Forall (λ d, min_us st ≤ d)%Z ds) ∧ (max_us st ∈ ds ∧ Forall (λ d, d ≤ max_us st)%Z ds) ∧
  is_percentile 50 ds (p50_us st) ∧ is_percentile 95 ds (p95_us st) ∧ is_percentile 99 ds (p99_us st).
Proof.
  intros Hn Hpos Hsum. cbv zeta. unfold aggregate. cbn [stats_count error_count total_us min_us max_us p50_us p95_us p99_us].
  set (ds := duration_us <$> spans). pose proof (sort_by_perm Z.leb ds) as Hperm. pose proof (durations_sorted ds) as Hs.
  assert (length (sort_by Z.leb ds) = length spans) as Hlen by (rewrite Hperm; apply length_fmap).
  assert (∀ p, p ∈ percentiles → is_percentile p ds (nearest_rank (sort_by Z.leb ds) p)) as Hp.
  { intros p Hp. rewrite <-Hperm at 1. apply nearest_rank_percentile; [done|done|lia]. }
  destruct (sorted_ends _ Hs) as [[Hmin Hmins] [Hmax Hmaxs]]; [intros E; rewrite E in Hlen; cbn in Hlen; lia|].
  assert (foldl (λ a d, wrap_i64 (a + d)) 0%Z (sort_by Z.leb ds) = sum_Z ds) as Htot.
  { rewrite <-(sum_Z_perm _ _ Hperm). apply (wrapped_sum _ 0); [|done|by rewrite (sum_Z_perm _ _ Hperm)]. rewrite Hperm. by apply Forall_fmap. }
  revert Hmin Hmins Hmax Hmaxs. generalize (default 0%Z (head (sort_by Z.leb ds))) as lo, (default 0%Z (last (sort_by Z.leb ds))) as hi.
  intros lo hi Hmin Hmins Hmax Hmaxs. rewrite Hperm in Hmin, Hmins, Hmax, Hmaxs.
  split_and!; try done; apply Hp; compute_done.
Qed.

(** ** The stored spans *)

Section stored.
Context `{SqliteLaws}.

Definition span_key (s : TraceSpan) : string * string := (trace_id s, span_id s).
(** The span stored under a key. *)
Definition stored_span (db : Db) (k : string * string) (s : TraceSpan) : Prop := ∃ i, trace_spans db !! i = Some s ∧ span_key s = k.

Lemma upsert_span_exact db s k x : db_ok db →
  stored_span (upsert_trace_span db s).1 k x ↔ (if decide (span_key s = k) then x = s else stored_span db k x).
Proof.
  intros Hok. unfold upsert_trace_span, stored_span. destruct (list_find _ _) as [[j [id old]]|] eqn:Hf; cbn.
  - apply list_find_Some in Hf as (Hl & [Ht Hs] & _). apply list_elem_of_lookup_2, elem_of_map_to_list in Hl. cbn in *. case_decide as Hk.
    + split; [|intros ->; exists id; by rewrite lookup_insert_eq]. intros (i & [[<- <-]|[Hne Hi]]%lookup_insert_Some & Hx); [done|].
      exfalso. apply Hne. symmetry. unfold span_key in *. eapply (do_spans _ Hok i id); eauto; congruence.
    + split; intros (i & Hi & Hx).
      * apply lookup_insert_Some in Hi as [[<- <-]|[Hne Hi]]; [done|]. eauto.
      * exists i. split; [|done]. rewrite lookup_insert_ne; [done|]. intros <-. simplify_eq. apply Hk. unfold span_key. congruence.
  - apply list_find_None in Hf. rewrite Forall_forall in Hf. pose proof (fresh_rowid_new (dom (trace_spans db))) as Hnew. apply not_elem_of_dom in Hnew. case_decide as Hk.
    + split; [|intros ->; eexists; by rewrite lookup_insert_eq]. intros (i & [[<- <-]|[Hne Hi]]%lookup_insert_Some & Hx); [done|].
      exfalso. apply (Hf (i, x)); [by apply elem_of_map_to_list|]. unfold span_key in *. cbn. split; congruence.
    + split; intros (i & Hi & Hx).
      * apply lookup_insert_Some in Hi as [[<- <-]|[Hne Hi]]; [done|]. eauto.
      * exists i. split; [|done]. rewrite lookup_insert_ne; [done|]. intros <-. congruence.
Qed.
(** The last of the spans with a key, if any. *)
Definition last_with (spans : list TraceSpan) (k : string * string) : option TraceSpan := last (filter (λ s, span_key s = k) spans).
Lemma upsert_spans_exact spans : ∀ db, db_ok db →
  ∃ db', try_loop upsert_trace_span spans db = (db', Ok (replicate (length spans) ())) ∧ db_ok db' ∧ nodes db' = nodes db ∧
    ∀ k x, stored_span db' k x ↔ match last_with spans k with Some s => x = s | None => stored_span db k x end.
Proof.
  induction spans as [|s spans IH]; intros db Hok; [by exists db|]. cbn [try_loop].
  assert ((upsert_trace_span db s).2 = Ok () ∧ nodes (upsert_trace_span db s).1 = nodes db) as [Hr Hn].
  { unfold upsert_trace_span. by destruct (list_find _ _) as [[? []]|]. }
  pose proof (upsert_trace_span_ok db s Hok) as Hok1. pose proof (λ k x, upsert_span_exact db s k x Hok) as Hst.
  destruct (upsert_trace_span db s) as [db1 r]. cbn [fst snd] in *. subst r. destruct (IH db1 Hok1) as (db' & -> & Hok' & Hn' & Hall).
  exists db'. split_and!; [done|done|congruence|]. intros k x. rewrite Hall. unfold last_with. rewrite filter_cons. specialize (Hst k x).
  case_decide as Hk.
  - rewrite last_cons. destruct (last (filter _ spans)); [done|]. by rewrite Hst.
  - destruct (last (filter _ spans)); [done|]. by rewrite Hst.
Qed.

(** An import stores, under every key, the last span of the file with that key,
    matched to a symbol, and keeps the others; a file that does not parse changes
    nothing. *)
Theorem traces_import_exact from_str debug db content : db_ok db →
  match parse_otlp_json from_str debug content, all_nodes db with
  | Ok spans, Ok ns =>
      let matched := (λ s, with_symbol s (resolve_span_symbol ns (span_symbol s) (span_name s))) <$> spans in
      ∃ db' n, cmd_traces_import from_str debug db content = (db', Ok n) ∧ db_ok db' ∧ nodes db' = nodes db ∧
        ∀ k x, stored_span db' k x ↔ match last_with matched k with Some s => x = s | None => stored_span db k x end
  | _, _ => (cmd_traces_import from_str debug db content).1 = db ∧ is_ok (cmd_traces_import from_str debug db content).2 = false
  end.
Proof.
  intros Hok. unfold cmd_traces_import. destruct (parse_otlp_json _ _ _) as [spans|e]; [|done]. destruct (all_nodes db) as [ns|e]; [|done].
  cbv zeta. destruct (upsert_spans_exact ((λ s, with_symbol s (resolve_span_symbol ns (span_symbol s) (span_name s))) <$> spans) db Hok) as (db' & -> & Hok' & Hn & Hall).
  eexists db', _. done.
Qed.
End stored.

(** ** What an import does with some files *)

Definition timed (d : Z) (status : string) : TraceSpan := mkSpan "t" "s" None None "f" (Some "f") None 0 d status.
Lemma aggregate_exact_witness :
  let spans := [timed 30 "Ok"; timed 10 "Error"; timed 20 "ERROR"; timed 10 "Unset"] in
  let st := aggregate spans in
  error_count st = 2 ∧ total_us st = 70%Z ∧ is_percentile 50 [30; 10; 20; 10]%Z (p50_us st) ∧ p50_us st = 10%Z ∧ p95_us st = 30%Z.
Proof.
  intros spans. destruct (aggregate_exact spans) as (_ & He & Ht & _ & _ & Hp & _ & _).
  - unfold MAX_SPANS. cbn. lia.
  - repeat constructor; cbn; lia.
  - vm_compute. reflexivity.
  - intros st. split_and!; [exact He|exact Ht|exact Hp|vm_compute; reflexivity|vm_compute; reflexivity].
Defined.

Definition otlp (spans : list Value) : Value :=
  JObject [("resourceSpans", JArray [JObject [("scopeSpans", JArray [JObject [("spans", JArray spans)]])]])].
Definition otlp_span (fields : list (string * Value)) : Value :=
  JObject (fields ++ [("startTimeUnixNano", JString "1000"); ("endTimeUnixNano", JString "5000")]).
Definition reads (v : Value) (s : string) : result Value string := Ok v.

(** One span without a name, and no span of the file is imported. *)
Example nameless_span_fails_file :
  parse_otlp_json (reads (otlp [otlp_span [("name", JString "f"); ("spanId", JString "1")]; otlp_span [("spanId", JString "2")]])) id "" = Err "span with no `name`".
Proof. reflexivity. Qed.
(** Two spans without ids are stored as one. *)
Example spans_without_ids_collide :
  let db := (cmd_traces_import (H := sqlite_default) (reads (otlp [otlp_span [("name", JString "f")]; otlp_span [("name", JString "g")]])) id empty_db "").1 in
  span_name <$> (map_to_list (trace_spans db)).*2 = ["g"].
Proof. vm_compute. reflexivity. Qed.
