(* ===== verification/Query.v ===== *)
(** * The query language (weave-graph-cli: query.rs)

    [weave query]: an expression names a function, its arguments and filters; the
    answer is a text over the graph.  With a mask, symbols are resolved and shown
    in the masked list; without one, the store is asked directly.  [None] is a
    panic or an unfinished search. *)

From S2P Require Import Prelude Str Bitmap Model Csr Paths CsrGraph Resolve Language Interner ProjectIndex SqlStore Contract Http HttpProofs Modules Tools ToolsProofs Review Traces.

Definition USAGE : string := "Supported forms: callers(<symbol>), callees(<symbol>), impact(<symbol>), path(<a>,<b>), latency(<symbol>), each optionally followed by space-separated path:/lang:/kind:/visibility:/edge: filters (path:!<prefix> excludes instead of requiring)".

(** ** Expressions *)

(** src/crates/weave-graph-cli/src/query.rs:11-24 [parse_call]
    The text up to and with the first closing parenthesis. *)
Definition parse_call (expr : string) : option (string * list string) :=
  '(name, rest) ← split_once expr "(";
  inner ← strip_suffix ")" rest;
  Some (trim name, if is_empty (trim inner) then [] else trim <$> split_char ","%char inner).

(** src/crates/weave-graph-cli/src/query.rs:34-49 [QueryFilters] *)
Record QueryFilters := mkFilters {
  f_path : option string;
  f_path_exclude : option string;
  f_lang : option string;
  f_kind : option string;
  f_visibility : option string;
  f_edge : option string;
  f_precise : option bool;
}.
Definition no_filters : QueryFilters := mkFilters None None None None None None None.

(** src/crates/weave-graph-cli/src/query.rs:55-94 [QueryFilters::parse]
    One token. *)
Definition add_filter (f : QueryFilters) (token : string) : result QueryFilters string :=
  let '(mkFilters p x l k v e r) := f in
  match split_once token ":" with
  | None => Err ("invalid filter '" +:+ token +:+ "': expected key:value (path/lang/kind/visibility/edge)")
  | Some (key, value) =>
      if decide (key = "path") then
        match strip_prefix "!" value with
        | Some prefix => Ok (mkFilters p (Some prefix) l k v e r)
        | None => Ok (mkFilters (Some value) x l k v e r)
        end
      else if decide (key = "lang") then Ok (mkFilters p x (Some value) k v e r)
      else if decide (key = "kind") then Ok (mkFilters p x l (Some value) v e r)
      else if decide (key = "visibility") then
        if negb (eq_ignore_ascii_case value "public") && negb (eq_ignore_ascii_case value "private")
        then Err ("invalid visibility:" +:+ value +:+ " — expected 'public' or 'private'")
        else Ok (mkFilters p x l k (Some value) e r)
      else if decide (key = "edge") then Ok (mkFilters p x l k v (Some value) r)
      else if decide (key = "precise") then
        if decide (value = "true") then Ok (mkFilters p x l k v e (Some true))
        else if decide (value = "false") then Ok (mkFilters p x l k v e (Some false))
        else Err ("invalid precise:" +:+ value +:+ " — expected 'true' or 'false'")
      else Err ("unknown filter '" +:+ key +:+ ":' — supported: path, lang, kind, visibility, edge")
  end.
(** src/crates/weave-graph-cli/src/query.rs:52-97 [QueryFilters::parse] *)
Definition parse_filters (rest : string) : result QueryFilters string :=
  foldl (λ r token, result_bind r (λ f, add_filter f token)) (Ok no_filters) (split_whitespace rest).
(** src/crates/weave-graph-cli/src/query.rs:99-107 [QueryFilters::is_empty] *)
Definition filters_empty (f : QueryFilters) : bool :=
  match f with mkFilters None None None None None None None => true | _ => false end.
(** src/crates/weave-graph-cli/src/query.rs:111-140 [QueryFilters::matches_node] *)
Definition matches_node (f : QueryFilters) (n : Node) : bool :=
  let given {A} (o : option A) (p : A → bool) := match o with Some a => p a | None => true end in
  given (f_path f) (starts_with (node_path n)) &&
  given (f_path_exclude f) (λ p, negb (starts_with (node_path n) p)) &&
  given (f_kind f) (λ k, bool_decide (node_kind n = k)) &&
  given (f_lang f) (λ lang, match from_path (node_path n) with Some l => eq_ignore_ascii_case (debug_name l) lang | None => false end) &&
  given (f_visibility f) (λ v,
    Bool.eqb (match from_path (node_path n) with
         | Some l => visibility_rule l (trim (node_signature n)) (short_name (node_symbol n))
         | None => true
         end) (eq_ignore_ascii_case v "public")).

(** src/crates/weave-graph-cli/src/query.rs:143-151 [single_arg] *)
Definition single_arg (args : list string) : result string string :=
  match args with
  | [a] => Ok a
  | _ => Err ("expected exactly one argument, got " +:+ dec (N.of_nat (length args)) +:+ ". " +:+ USAGE)
  end.
(** src/crates/weave-graph-cli/src/query.rs:153-161 [pair_args] *)
Definition pair_args (args : list string) : result (string * string) string :=
  match args with
  | [a; b] => Ok (a, b)
  | _ => Err ("expected exactly two arguments, got " +:+ dec (N.of_nat (length args)) +:+ ". " +:+ USAGE)
  end.

(** ** Answers *)

(** src/crates/weave-graph-cli/src/query.rs:334-336 [describe] *)
Definition describe (n : Node) : string := node_symbol n +:+ " (" +:+ node_path n +:+ ":" +:+ dec (node_line_start n) +:+ ")".
Definition lines_text (lines : list string) : string := match lines with [] => "no results" | _ => join (String "010"%char "") lines end.

(** src/crates/weave-graph-cli/src/query.rs:319-321 [resolve] *)
Definition resolve (ns : list Node) (symbol : string) : option (result NodeId string) :=
  r ← resolve_symbol ns symbol;
  Some (match r with Ok id => Ok id | Err suggestions => Err (format_not_found symbol suggestions) end).

Section query.
Context {S B : Type} `{Storage S} `{Bitmap B} (spans : S → result (list TraceSpan) StorageError).

(** src/crates/weave-graph-cli/src/query.rs:326-332 [resolve_fast]
    An error of the index lookup falls through. *)
Definition resolve_fast (storage : S) (symbol : string) : option (result NodeId string) :=
  match get_node_by_symbol storage symbol with
  | Ok (Some n) => Some (Ok (node_id n))
  | _ => match all_nodes storage with Err e => Some (Err (storage_error_text e)) | Ok ns => resolve ns symbol end
  end.

(** src/crates/weave-graph-cli/src/query.rs:351-353 [callers_text]
    The visited set, the queue, and the callers found with their edges. *)
Record callers := mkCallers { q_visited : gset NodeId; q_queue : list NodeId; q_found : list (Node * Edge) }.
(** src/crates/weave-graph-cli/src/query.rs:359-373 [callers_text] *)
Definition callers_visit (lookup : NodeId → option Node) (st : callers) (edge : Edge) : callers :=
  if decide (source_id edge ∈ q_visited st) then st else
  let visited := {[source_id edge]} ∪ q_visited st in
  match lookup (source_id edge) with
  | None => mkCallers visited (q_queue st) (q_found st)
  | Some node => mkCallers visited (q_queue st ++ [source_id edge]) (q_found st ++ [(node, edge)])
  end.
(** src/crates/weave-graph-cli/src/query.rs:354-375 [callers_text]
    Each round takes one caller from the queue. *)
Fixpoint callers_loop (fuel : nat) (storage : S) (lookup : NodeId → option Node) (st : callers) : option (result (list (Node * Edge)) string) :=
  match q_queue st with
  | [] => Some (Ok (q_found st))
  | current :: queue =>
      match fuel with
      | 0 => None
      | Datatypes.S fuel =>
          match get_callers storage current with
          | Err e => Some (Err ("failed to read callers for node " +:+ dec current +:+ ": " +:+ storage_error_text e))
          | Ok l => callers_loop fuel storage lookup (foldl (callers_visit lookup) (mkCallers (q_visited st) queue (q_found st)) l)
          end
      end
  end.
(** src/crates/weave-graph-cli/src/query.rs:363-369 [callers_text]
    Which callers are shown. *)
Definition shown (filters : QueryFilters) (ne : Node * Edge) : bool :=
  match f_edge filters with Some k => bool_decide (edge_kind ne.2 = k) | None => true end &&
  (negb (bool_decide (f_precise filters = Some true)) || bool_decide (edge_confidence (edge_kind ne.2) (resolution_kind ne.2) = Exact)) &&
  matches_node filters ne.1.
(** src/crates/weave-graph-cli/src/query.rs:345-381 [callers_text]
    Every node is queued at most once, for some edge from it. *)
Definition callers_text (storage : S) (lookup : NodeId → option Node) (root : NodeId) (filters : QueryFilters) : option (result string string) :=
  run_bind (callers_loop (Datatypes.S (length (unwrap_or_default (all_edges storage)))) storage lookup (mkCallers {[root]} [root] [])) (λ found,
    Some (Ok (lines_text ((λ ne : Node * Edge, describe ne.1) <$> filter (λ ne, shown filters ne = true) found)))).

(** src/crates/weave-graph-cli/src/query.rs:383-404 [reachable_text] *)
Definition reachable_text (csr : CsrGraph) (lookup : NodeId → option Node) (root : NodeId) (max_hops : N) (filters : QueryFilters) : option string :=
  reached ← reachable_within (B := B) csr root max_hops;
  Some (lines_text (describe <$> filter (λ n, matches_node filters n = true)
    (omap lookup (filter (λ i, i ≠ root) (omap (id_of_index csr) (bm_iter reached)))))).
(** src/crates/weave-graph-cli/src/query.rs:406-421 [path_text] *)
Definition path_text (csr : CsrGraph) (lookup : NodeId → option Node) (from to : NodeId) : option string :=
  r ← query_path (B := B) csr from to;
  Some (match r with Some path => join " → " (node_symbol <$> omap lookup path) | None => "no path found" end).

(** The graph a query loads. *)
Definition with_graph (storage : S) (k : CsrGraph → option string) : option (result string string) :=
  r ← load storage;
  match r with Err e => Some (Err (storage_error_text e)) | Ok csr => text ← k csr; Some (Ok text) end.
Definition pure_result {A E} (r : result A E) : option (result A E) := Some r.

(** src/crates/weave-graph-cli/src/query.rs:220-264 [run_masked]
    The five functions; the same in [run_unmasked] (267-316), with its own way to
    resolve and to look up. *)
Definition answer (storage : S) (name : string) (args : list string) (filters : QueryFilters)
    (resolve : string → option (result NodeId string)) (fetch : NodeId → result (option Node) StorageError) : option (result string string) :=
  let lookup id := match fetch id with Ok o => o | Err _ => None end in
  if decide (name = "callers") then
    run_bind (pure_result (single_arg args)) (λ a, run_bind (resolve a) (λ root, callers_text storage lookup root filters))
  else if decide (name = "callees") then
    run_bind (pure_result (single_arg args)) (λ a, run_bind (resolve a) (λ root, with_graph storage (λ csr, reachable_text csr lookup root 1 filters)))
  else if decide (name = "impact") then
    run_bind (pure_result (single_arg args)) (λ a, run_bind (resolve a) (λ root, with_graph storage (λ csr, reachable_text csr lookup root u32_MAX filters)))
  else if decide (name = "path") then
    run_bind (pure_result (pair_args args)) (λ p, run_bind (resolve p.1) (λ from, run_bind (resolve p.2) (λ to,
      with_graph storage (λ csr, path_text csr lookup from to))))
  else if decide (name = "latency") then
    run_bind (pure_result (single_arg args)) (λ a, run_bind (resolve a) (λ id,
      match fetch id with
      | Err e => Some (Err (storage_error_text e))
      | Ok (Some n) => Some (latency_text (spans storage) (node_symbol n))
      | Ok None => Some (Err ("Symbol " +:+ dec id +:+ " not found"))
      end))
  else Some (Err ("unknown query function '" +:+ name +:+ "'. " +:+ USAGE)).

(** src/crates/weave-graph-cli/src/query.rs:209-265 [run_masked] *)
Definition run_masked (storage : S) (name : string) (args : list string) (filters : QueryFilters) (mask : Node → Node) : option (result string string) :=
  match all_nodes storage with
  | Err e => Some (Err (storage_error_text e))
  | Ok ns => let ns := mask <$> ns in answer storage name args filters (resolve ns) (λ id, Ok (find_node ns id))
  end.
(** src/crates/weave-graph-cli/src/query.rs:267-317 [run_unmasked] *)
Definition run_unmasked (storage : S) (name : string) (args : list string) (filters : QueryFilters) : option (result string string) :=
  answer storage name args filters (resolve_fast storage) (get_node storage).

(** src/crates/weave-graph-cli/src/query.rs:178-207 [run] *)
Definition run (storage : S) (expression : string) (mask : option (Node → Node)) : option (result string string) :=
  let expr := trim expression in
  let unrecognized := Some (Err ("unrecognized query: " +:+ expr +:+ ". " +:+ USAGE)) in
  match split_once expr ")" with
  | None => unrecognized
  | Some (call, rest) =>
      match parse_call (call +:+ ")") with
      | None => unrecognized
      | Some (name, args) =>
          match parse_filters (trim rest) with
          | Err e => Some (Err e)
          | Ok filters =>
              if bool_decide (name = "path" ∨ name = "latency") && negb (filters_empty filters) then
                Some (Err ("filters are not supported for " +:+ name +:+ "() — only callers()/callees()/impact() accept path:/lang:/kind:/visibility: filters, and edge: is callers()-only"))
              else if negb (bool_decide (name = "callers")) && bool_decide (is_Some (f_edge filters)) then Some (Err "edge: filter is only supported for callers()")
              else if negb (bool_decide (name = "callers")) && bool_decide (is_Some (f_precise filters)) then Some (Err "precise: filter is only supported for callers()")
              else match mask with Some m => run_masked storage name args filters m | None => run_unmasked storage name args filters end
          end
      end
  end.
End query.

(** ** What a query answers *)

Section exact.
Context {S : Type} `{Storage S} (s : S) (ns : list Node) (es : list Edge) (Hview : StorageView s ns es).

(** The search for callers is that of the call trace, with a bound on the hops that
    is never reached. *)
Definition with_hops (st : incoming) : callers := mkCallers (in_visited st) (in_queue st).*1 (in_found st).
Lemma callers_visits_sim lookup hop l : ∀ st, foldl (callers_visit lookup) (with_hops st) l = with_hops (foldl (incoming_visit lookup hop) st l).
Proof.
  induction l as [|e l IH]; intros st; [done|]. cbn [foldl]. rewrite <-IH. f_equal. unfold callers_visit, incoming_visit, with_hops. cbn [q_visited q_queue q_found].
  case_decide; [done|]. destruct (lookup _); cbn; [by rewrite fmap_app|done].
Qed.
Lemma visits_hops lookup hop l : ∀ st i, (hop ≤ i)%N → Forall (λ p : NodeId * N, p.2 ≤ i + 1)%N (in_queue st) →
  Forall (λ p : NodeId * N, p.2 ≤ i + 1)%N (in_queue (foldl (incoming_visit lookup hop) st l)).
Proof.
  induction l as [|e l IH]; intros st i Hh Hq; [done|]. cbn [foldl]. apply IH; [done|]. unfold incoming_visit. case_decide; [done|].
  destruct (lookup _); cbn; [|done]. apply Forall_app. split; [done|]. repeat constructor. cbn. lia.
Qed.
Lemma callers_sim lookup fuel depth : ∀ st i, Forall (λ p : NodeId * N, p.2 ≤ i)%N (in_queue st) → (i + N.of_nat fuel ≤ depth)%N →
  callers_loop fuel s lookup (with_hops st) = (λ found, Ok found) <$> incoming_loop fuel s lookup depth st.
Proof.
  induction fuel as [|fuel IH]; intros [v q f] i Hq Hd; destruct q as [|[c h] q]; cbn [callers_loop incoming_loop with_hops in_queue in_visited in_found q_queue q_visited q_found fmap list_fmap]; [done..|].
  cbn [in_queue] in Hq. apply Forall_cons in Hq as [Hh Hq]. cbn in Hh. destruct (N.leb_spec depth h) as [?|_]; [lia|].
  cbn [fst]. destruct (view_get_callers _ _ _ Hview c) as (l & -> & _).
  match goal with |- context [mkCallers v ?x f] => change (mkCallers v x f) with (with_hops (mkIncoming v q f)) end. rewrite (callers_visits_sim lookup h). apply (IH _ (i + 1)%N); [|lia].
  apply visits_hops; [done|]. cbn [in_queue]. eapply Forall_impl; [exact Hq|]. cbn. lia.
Qed.

Context (lookup : NodeId → option Node) (Hlookup : ∀ i, is_Some (lookup i) ↔ i ∈ node_id <$> ns).
Lemma callers_exact root : root ∈ node_id <$> ns →
  ∃ found, callers_loop (Datatypes.S (length es)) s lookup (mkCallers {[root]} [root] []) = Some (Ok found) ∧ NoDup (found_id <$> found) ∧
    (∀ a, a ∈ found_id <$> found ↔ a ≠ root ∧ rtc (store_edge ns es) a root) ∧
    Forall (λ ne, ne.2 ∈ es ∧ lookup (found_id ne) = Some ne.1) found.
Proof.
  intros Hroot. set (depth := N.of_nat (Datatypes.S (length es) + length ns)).
  destruct (incoming_spec s ns es Hview lookup Hlookup root depth Hroot) as (found & Hl & Hnd & Hall & HF & _).
  exists found. split_and!; [|done| |done].
  - change (mkCallers {[root]} [root] []) with (with_hops (mkIncoming {[root]} [(root, 0%N)] [])). rewrite (callers_sim _ _ depth _ 0).
    + by rewrite Hl.
    + by repeat constructor.
    + unfold depth. lia.
  - intros a. rewrite Hall. f_equiv. unfold calls_into. rewrite <-(bsteps_flip (store_edge ns es)). split; [apply rtc_bsteps_2|].
    apply (rtc_bounded _ (node_id <$> ns)); [by intros x y (_ & ? & _)|rewrite length_fmap; unfold depth; lia].
Qed.

End exact.

(** The graph and the nodes a function of one symbol is about. *)
Lemma reachable_exact {B} `{BitmapLaws B} ns es lookup g root hops : graph_rep g (node_id <$> ns) (store_edge ns es) → root ∈ node_id <$> ns →
  ∃ ids, (∀ filters, reachable_text (B := B) g lookup root hops filters = Some (lines_text (describe <$> filter (λ n, matches_node filters n = true) (omap lookup ids)))) ∧
    StronglySorted N.lt ids ∧ ∀ y, y ∈ ids ↔ y ≠ root ∧ bsteps (store_edge ns es) (N.to_nat hops) root y.
Proof.
  intros Hg Hroot. destruct (reachable_within_rep (B := B) Hg root hops) as (b & Hb & Hspec).
  exists (filter (λ i, i ≠ root) (omap (id_of_index g) (bm_iter b))). split_and!.
  - intros filters. unfold reachable_text. by rewrite Hb.
  - apply StronglySorted_filter. unfold id_of_index. rewrite (gr_ids _ _ _ Hg). apply omap_index_sorted; [apply Hg|apply bm_iter_sorted].
  - intros y. rewrite list_elem_of_filter, list_elem_of_omap. f_equiv. unfold id_of_index. rewrite (gr_ids _ _ _ Hg). setoid_rewrite bm_iter_spec. setoid_rewrite Hspec.
    split; [naive_solver|]. intros Hy. assert (y ∈ node_id <$> ns) as (i & Hi)%list_elem_of_lookup.
    { eapply (bsteps_closed _ (λ y, y ∈ node_id <$> ns)); [exact Hroot| |exact Hy]. intros ? ? _ (_ & ? & _). done. }
    exists (N.of_nat i). unfold as_usize. rewrite Nat2N.id. split; [|done]. by exists y.
Qed.
Lemma masked_ids mask (ns : list Node) : (∀ n, node_id (mask n) = node_id n) → node_id <$> (mask <$> ns) = node_id <$> ns.
Proof. intros Hid. rewrite <-list_fmap_compose. apply list_fmap_ext. intros i n _. apply Hid. Qed.
Lemma find_node_some (ns : list Node) i : is_Some (find_node ns i) ↔ i ∈ node_id <$> ns.
Proof.
  unfold find_node. rewrite fmap_is_Some. split.
  - intros [[k n] (Hn & <- & _)%list_find_Some]. apply list_elem_of_fmap. exists n. split; [done|]. by eapply list_elem_of_lookup_2.
  - intros (n & -> & Hn)%list_elem_of_fmap. by eapply list_find_elem_of.
Qed.
Lemma resolve_member ns sym root : resolve ns sym = Some (Ok root) → root ∈ node_id <$> ns.
Proof.
  unfold resolve. destruct (resolve_symbol_spec ns sym) as (r & -> & Hr). cbn [mbind option_bind]. destruct r as [id|l]; [|done]. intros [= <-].
  destruct Hr as (n & Hn & <- & _). apply list_elem_of_fmap. eauto.
Qed.

(** ** What the filters ask *)

(** A filter as it is written after the call. *)
Inductive Filter :=
| InPath (prefix : string)
| NotInPath (prefix : string)
| InLanguage (language : string)
| OfKind (kind : string)
| Visible (public : bool)
| ByEdge (kind : string)
| Precise (precise : bool).
Definition filter_text (f : Filter) : string :=
  match f with
  | InPath p => "path:" +:+ p
  | NotInPath p => "path:!" +:+ p
  | InLanguage l => "lang:" +:+ l
  | OfKind k => "kind:" +:+ k
  | Visible b => "visibility:" +:+ (if b then "public" else "private")
  | ByEdge k => "edge:" +:+ k
  | Precise b => "precise:" +:+ (if b then "true" else "false")
  end.
(** Without blanks; a prefix that is required does not begin with the mark of one
    that is excluded. *)
Definition plain_filter (f : Filter) : Prop :=
  word (filter_text f) ∧ match f with InPath p => strip_prefix "!" p = None | _ => True end.
(** A call and its filters. *)
Definition query_text (name : string) (args : list string) (fs : list Filter) : string :=
  (name +:+ "(" +:+ join "," args) +:+ ")" +:+ foldr (λ f t, " " +:+ filter_text f +:+ t) "" fs.
(** An argument that stands for itself. *)
Definition plain_arg (a : string) : Prop := a ≠ "" ∧ trim a = a ∧ no_char ")" a ∧ no_char "," a.

(** The last filter of a kind counts. *)
Definition last_given {A} (sel : Filter → option A) (fs : list Filter) : option A := last (omap sel fs).
Definition in_path (f : Filter) := match f with InPath p => Some p | _ => None end.
Definition not_in_path (f : Filter) := match f with NotInPath p => Some p | _ => None end.
Definition in_language (f : Filter) := match f with InLanguage l => Some l | _ => None end.
Definition of_kind (f : Filter) := match f with OfKind k => Some k | _ => None end.
Definition is_visible (f : Filter) := match f with Visible b => Some b | _ => None end.
Definition by_edge (f : Filter) := match f with ByEdge k => Some k | _ => None end.
Definition is_precise (f : Filter) := match f with Precise b => Some b | _ => None end.

(** A symbol of a file of no known language is public. *)
Definition public_symbol (n : Node) : Prop :=
  ∀ l, from_path (node_path n) = Some l → visibility_rule l (trim (node_signature n)) (short_name (node_symbol n)) = true.
(** What the filters ask of a node, and of the edge a caller was found by. *)
Record kept (fs : list Filter) (n : Node) : Prop := {
  kept_path p : last_given in_path fs = Some p → ∃ rest, node_path n = p +:+ rest;
  kept_excluded p : last_given not_in_path fs = Some p → ¬ ∃ rest, node_path n = p +:+ rest;
  kept_language l : last_given in_language fs = Some l → ∃ lang, from_path (node_path n) = Some lang ∧ eq_ignore_ascii_case (debug_name lang) l = true;
  kept_kind k : last_given of_kind fs = Some k → node_kind n = k;
  kept_visible b : last_given is_visible fs = Some b → b = true ↔ public_symbol n
}.
Record kept_edge (fs : list Filter) (e : Edge) : Prop := {
  kept_edge_kind k : last_given by_edge fs = Some k → edge_kind e = k;
  kept_precise : last_given is_precise fs = Some true → edge_confidence (edge_kind e) (resolution_kind e) = Exact
}.

(** What parsing makes of them. *)
Definition visibility_text (b : bool) : string := if b then "public" else "private".
Definition filters_of (fs : list Filter) : QueryFilters :=
  mkFilters (last_given in_path fs) (last_given not_in_path fs) (last_given in_language fs) (last_given of_kind fs)
    (visibility_text <$> last_given is_visible fs) (last_given by_edge fs) (last_given is_precise fs).
Lemma last_given_snoc {A} (sel : Filter → option A) fs f : last_given sel (fs ++ [f]) = match sel f with Some a => Some a | None => last_given sel fs end.
Proof. unfold last_given. rewrite omap_app. cbn. destruct (sel f); [apply last_snoc|by rewrite app_nil_r]. Qed.
Lemma last_given_some {A} (sel : Filter → option A) fs : is_Some (last_given sel fs) ↔ ∃ f, f ∈ fs ∧ is_Some (sel f).
Proof.
  induction fs as [|f fs IH] using rev_ind; [split; [by intros []|by intros (f & ?%not_elem_of_nil & _)]|]. rewrite last_given_snoc. setoid_rewrite elem_of_app. setoid_rewrite list_elem_of_singleton.
  destruct (sel f) as [a|] eqn:Hf; [split; [intros _; exists f; rewrite Hf; eauto|by eexists]|]. rewrite IH. split; [intros (g & ? & ?); eauto|].
  intros (g & [?| ->] & [b Hg]); [exists g; eauto|congruence].
Qed.
Lemma filters_of_empty fs : fs ≠ [] → filters_empty (filters_of fs) = false.
Proof.
  induction fs as [|f fs _] using rev_ind; [done|]. intros _. unfold filters_empty, filters_of. rewrite !last_given_snoc.
  destruct f; cbn; repeat match goal with |- context [match ?o with Some _ => _ | None => _ end] => destruct o end; done.
Qed.
Lemma add_filter_text fs f : plain_filter f → add_filter (filters_of fs) (filter_text f) = Ok (filters_of (fs ++ [f])).
Proof.
  intros [_ Hf]. unfold filters_of. rewrite !last_given_snoc. destruct f as [p|p|l|k|b|k|b]; [|first [done|by destruct b]..].
  unfold add_filter. change (filter_text (InPath p)) with ("path" +:+ String ":" p). rewrite (split_once_no_char ":") by done.
  rewrite decide_True by done. by rewrite Hf.
Qed.
Lemma split_words l : Forall word l → split_whitespace (join " " l) = l.
Proof.
  unfold split_whitespace. induction l as [|x [|y l] IH]; intros HF; [done| |]; apply Forall_cons in HF as [Hx HF].
  - cbn [join]. rewrite split_by_none by by apply word_no_space. rewrite filter_cons_True by apply Hx. done.
  - change (join " " (x :: y :: l)) with (x +:+ String " " (join " " (y :: l))). rewrite split_by_cons by (done || by apply word_no_space).
    rewrite filter_cons_True by apply Hx. by rewrite IH.
Qed.
Lemma trim_end_word s : word s → trim_end_by is_space s = s.
Proof.
  intros Hw. rewrite <- (trim_word s Hw) at 2. unfold trim. f_equal. destruct s as [|a s]; [done|]. pose proof (word_no_space _ Hw) as Hs.
  cbn [str_all] in Hs. apply andb_true_iff in Hs as [Ha%negb_true_iff _]. cbn [trim_start_by]. by rewrite Ha.
Qed.
Lemma join_words x l : word x → join " " (x :: l) ≠ "".
Proof. intros [Hx _]. cbn [join]. by destruct l, x. Qed.
Lemma trim_end_words l : Forall word l → trim_end_by is_space (join " " l) = join " " l.
Proof.
  induction l as [|x [|y l] IH]; intros HF; [done| |]; apply Forall_cons in HF as [Hx HF]; [by apply trim_end_word|].
  change (join " " (x :: y :: l)) with (x +:+ " " +:+ join " " (y :: l)). specialize (IH HF). rewrite <- append_assoc, trim_end_append; [by rewrite IH|].
  rewrite IH. apply Forall_cons in HF as [Hy _]. by apply join_words.
Qed.
Lemma filters_text_join fs : Forall plain_filter fs →
  let t := foldr (λ f t, " " +:+ filter_text f +:+ t) "" fs in trim t = join " " (filter_text <$> fs) ∧ trim_end_by is_space (")" +:+ t) = ")" +:+ t.
Proof.
  intros HF t. assert (Forall word (filter_text <$> fs)) as Hw by (rewrite Forall_fmap; eapply Forall_impl; [exact HF|by intros f []]).
  assert (match fs with [] => t = "" | _ => t = " " +:+ join " " (filter_text <$> fs) end) as Ht.
  { subst t. clear. induction fs as [|f [|g fs] IH]; [done|cbn; by rewrite append_nil_r|]. cbn [foldr] in *. rewrite IH. done. }
  destruct fs as [|f fs]; [by rewrite Ht|]. rewrite Ht. split.
  - change (trim (" " +:+ ?x)) with (trim x). unfold trim. rewrite <- (trim_end_words _ Hw) at 2. f_equal. apply Forall_inv in Hw. cbn [fmap list_fmap].
    destruct (filter_text f) as [|a s] eqn:Hs; [by destruct Hw|]. pose proof (word_no_space _ Hw) as Hn. cbn [str_all] in Hn. apply andb_true_iff in Hn as [Ha%negb_true_iff _].
    destruct (filter_text <$> fs); cbn; by rewrite Ha.
  - change (")" +:+ " " +:+ ?x) with (") " +:+ x). rewrite trim_end_append; rewrite (trim_end_words _ Hw); [done|]. apply join_words. by apply Forall_inv in Hw.
Qed.
Lemma parse_filters_text fs : Forall plain_filter fs → parse_filters (trim (foldr (λ f t, " " +:+ filter_text f +:+ t) "" fs)) = Ok (filters_of fs).
Proof.
  intros HF. rewrite (proj1 (filters_text_join fs HF)). unfold parse_filters. rewrite split_words by (rewrite Forall_fmap; eapply Forall_impl; [exact HF|by intros f []]).
  induction fs as [|f fs IH] using rev_ind; [done|]. apply Forall_app in HF as [HF Hf]. rewrite fmap_app. cbn [fmap list_fmap]. rewrite foldl_snoc, IH by done. cbn [result_bind]. apply add_filter_text. by apply Forall_inv in Hf.
Qed.

(** The model's test is what the filters ask. *)
Lemma matches_node_kept fs n : matches_node (filters_of fs) n = true ↔ kept fs n.
Proof.
  unfold matches_node, filters_of. cbn [f_path f_path_exclude f_kind f_lang f_visibility]. rewrite !andb_true_iff. split.
  - intros ((((Hp & Hx) & Hk) & Hl) & Hv). split.
    + intros p Hg. rewrite Hg in Hp. by apply starts_with_true in Hp.
    + intros p Hg Hr%starts_with_true. rewrite Hg, Hr in Hx. done.
    + intros l Hg. rewrite Hg in Hl. destruct (from_path _) as [lang|]; [by exists lang|done].
    + intros k Hg. rewrite Hg in Hk. by apply bool_decide_eq_true in Hk.
    + intros b Hg. rewrite Hg in Hv. cbn in Hv. apply eqb_prop in Hv. unfold public_symbol.
      assert (eq_ignore_ascii_case (visibility_text b) "public" = b) as Hb by by destruct b. rewrite Hb in Hv. rewrite <- Hv.
      destruct (from_path _) as [lang|]; [|done]. split; [by intros ? ? [= <-]|auto].
  - intros [Hp Hx Hl Hk Hv]. split_and!.
    + destruct (last_given in_path fs) as [p|]; [|done]. by apply starts_with_true, Hp.
    + destruct (last_given not_in_path fs) as [p|]; [|done]. apply negb_true_iff, not_true_iff_false. intros Hr%starts_with_true. by apply (Hx p).
    + destruct (last_given of_kind fs) as [k|]; [|done]. by apply bool_decide_eq_true, Hk.
    + destruct (last_given in_language fs) as [l|]; [|done]. by destruct (Hl l eq_refl) as (lang & -> & ?).
    + destruct (last_given is_visible fs) as [b|]; [|done]. specialize (Hv b eq_refl). cbn.
      assert (eq_ignore_ascii_case (visibility_text b) "public" = b) as -> by by destruct b. unfold public_symbol in Hv. apply eqb_true_iff.
      destruct (from_path _) as [lang|]; [|destruct b; [done|]; symmetry; by apply Hv].
      destruct (visibility_rule _ _ _) eqn:Hr, b; try done; [symmetry; apply Hv; by intros ? [= <-]|]. exfalso. by specialize (proj1 Hv eq_refl lang eq_refl) as ?; congruence.
Qed.
Lemma shown_kept fs ne : shown (filters_of fs) ne = true ↔ kept_edge fs ne.2 ∧ kept fs ne.1.
Proof.
  unfold shown. rewrite !andb_true_iff, matches_node_kept. f_equiv. unfold filters_of. cbn [f_edge f_precise]. rewrite orb_true_iff, negb_true_iff, bool_decide_eq_false, bool_decide_eq_true. split.
  - intros [Hk Hp]. split; [intros k Hg; rewrite Hg in Hk; by apply bool_decide_eq_true in Hk|]. intros Hg. by destruct Hp.
  - intros [Hk Hp]. split; [destruct (last_given by_edge fs); [by apply bool_decide_eq_true, Hk|done]|]. destruct (decide (last_given is_precise fs = Some true)); auto.
Qed.
#[global] Instance kept_dec fs n : Decision (kept fs n).
Proof. refine (cast_if (decide (matches_node (filters_of fs) n = true))); by rewrite <- matches_node_kept. Defined.
Definition edge_tests (fs : list Filter) (e : Edge) : Prop :=
  match last_given by_edge fs with Some k => edge_kind e = k | None => True end ∧
  (last_given is_precise fs = Some true → edge_confidence (edge_kind e) (resolution_kind e) = Exact).
Lemma edge_tests_kept fs e : edge_tests fs e ↔ kept_edge fs e.
Proof.
  unfold edge_tests. split; intros [Hk Hp]; (split; [|done]).
  - intros k Hg. by rewrite Hg in Hk.
  - destruct (last_given by_edge fs); [by apply Hk|done].
Qed.
#[global] Instance edge_tests_dec fs e : Decision (edge_tests fs e).
Proof. unfold edge_tests. destruct (last_given by_edge fs); apply _. Defined.
#[global] Instance kept_edge_dec fs e : Decision (kept_edge fs e).
Proof. refine (cast_if (decide (edge_tests fs e))); by rewrite <- edge_tests_kept. Defined.

(** ** From the text to the answer *)

Lemma trim_start_word w x : word w → trim_start_by is_space (w +:+ x) = w +:+ x.
Proof.
  intros Hw. pose proof (word_no_space w Hw) as Hs. destruct w as [|a w]; [by destruct Hw|]. cbn [str_all] in Hs. apply andb_true_iff in Hs as [Ha%negb_true_iff _].
  cbn [String.append trim_start_by]. by rewrite Ha.
Qed.
Lemma trim_kept a x : trim a = a → a ≠ "" → trim (a +:+ x) ≠ "".
Proof.
  intros Ht Hne. destruct (trim_start_by_head is_space a) as [He|(c & r & He & Hc)]; [unfold trim in Ht; rewrite He in Ht; by subst|].
  assert (∃ b, a = String c b) as [b ->].
  { unfold trim in Ht. rewrite He in Ht. cbn [trim_end_by] in Ht. rewrite Hc in Ht. destruct (trim_end_by is_space r); subst; eauto. }
  unfold trim. cbn [String.append trim_start_by]. rewrite Hc. cbn [trim_end_by]. rewrite Hc. by destruct (trim_end_by _ _).
Qed.
Lemma parse_call_text name args : word name → no_char "(" name → args ≠ [] → Forall plain_arg args →
  parse_call ((name +:+ "(" +:+ join "," args) +:+ ")") = Some (name, args).
Proof.
  intros Hw Hn Hne Ha. unfold parse_call. rewrite !append_assoc. change ("(" +:+ join "," args +:+ ")") with (String "(" (join "," args +:+ ")")).
  rewrite split_once_no_char by done. cbn [mbind option_bind]. rewrite (proj2 (strip_suffix_Some ")" _ (join "," args)) eq_refl). cbn [mbind option_bind].
  rewrite (trim_word name Hw). assert (trim (join "," args) ≠ "") as Ht.
  { destruct args as [|a args]; [done|]. apply Forall_inv in Ha as (Hae & Hat & _). destruct args; cbn [join]; [by rewrite Hat|by apply trim_kept]. }
  destruct (is_empty _) eqn:He; [by apply is_empty_true in He|]. rewrite split_char_join; [|done|eapply Forall_impl; [exact Ha|by intros a (_ & _ & _ & ?)]].
  do 2 f_equal. clear -Ha. induction args as [|a args IH]; [done|]. apply Forall_cons in Ha as [(_ & Hat & _) Ha]. cbn. by rewrite Hat, IH.
Qed.
Lemma args_no_paren args : Forall plain_arg args → no_char ")" (join "," args).
Proof.
  induction args as [|a [|b args] IH]; intros Ha; [done| |]; apply Forall_cons in Ha as [(_ & _ & Hp & _) Ha]; [done|].
  change (join "," (a :: b :: args)) with (a +:+ "," +:+ join "," (b :: args)). rewrite !no_char_append. split_and!; [done..|by apply IH].
Qed.
(** The text of a call is read back. *)
Lemma run_text {S B} `{Storage S} `{Bitmap B} spans (s : S) name args fs mask :
  word name → no_char "(" name → no_char ")" name → args ≠ [] → Forall plain_arg args → Forall plain_filter fs →
  run (B := B) spans s (query_text name args fs) (Some mask) =
    if bool_decide (name = "path" ∨ name = "latency") && negb (filters_empty (filters_of fs)) then
      Some (Err ("filters are not supported for " +:+ name +:+ "() — only callers()/callees()/impact() accept path:/lang:/kind:/visibility: filters, and edge: is callers()-only"))
    else if negb (bool_decide (name = "callers")) && bool_decide (is_Some (last_given by_edge fs)) then Some (Err "edge: filter is only supported for callers()")
    else if negb (bool_decide (name = "callers")) && bool_decide (is_Some (last_given is_precise fs)) then Some (Err "precise: filter is only supported for callers()")
    else run_masked (B := B) spans s name args (filters_of fs) mask.
Proof.
  intros Hw Ho Hc Hne Ha Hf. unfold run. assert (trim (query_text name args fs) = query_text name args fs) as ->.
  { unfold query_text, trim. rewrite append_assoc, trim_start_word, <- append_assoc by done. destruct (filters_text_join fs Hf) as [_ Ht]. rewrite trim_end_append; by rewrite Ht. }
  unfold query_text. set (t := foldr _ "" fs). change (")" +:+ t) with (String ")" t). rewrite split_once_no_char.
  2:{ rewrite !no_char_append. split_and!; [done..|by apply args_no_paren]. }
  cbv zeta. subst t. by rewrite parse_call_text, parse_filters_text.
Qed.

(** Each caller is found by an edge from it to the symbol or to a caller found
    before it, and was not found before. *)
Inductive found_along (root : NodeId) : list (Node * Edge) → Prop :=
| found_none : found_along root []
| found_next found n e : found_along root found → source_id e ∉ root :: (found_id <$> found) → target_id e ∈ root :: (found_id <$> found) →
    found_along root (found ++ [(n, e)]).
Record along (root : NodeId) (st : callers) : Prop := {
  al_found : found_along root (q_found st);
  al_queue i : i ∈ q_queue st → i ∈ root :: (found_id <$> q_found st);
  al_visited i : i ∈ root :: (found_id <$> q_found st) → i ∈ q_visited st
}.
Lemma callers_visits_along lookup root c l : ∀ st, (∀ e, e ∈ l → target_id e = c) → c ∈ root :: (found_id <$> q_found st) → along root st →
  along root (foldl (callers_visit lookup) st l).
Proof.
  induction l as [|e l IH]; intros [v q f] Hl Hc [Hf Hq Hv]; cbn [foldl q_queue q_visited q_found] in *; [done|].
  assert (∀ e, e ∈ l → target_id e = c) as Hl' by (intros e' He'; apply Hl; by right). unfold callers_visit at 2. cbn [q_queue q_visited q_found].
  case_decide as Hd; [by apply IH|]. destruct (lookup (source_id e)) as [n|]; apply IH; try done.
  - cbn [q_found]. rewrite fmap_app. set_solver.
  - split; cbn [q_queue q_visited q_found].
    + apply found_next; [done|by intros ?%Hv|]. rewrite (Hl e) by left. done.
    + intros i. rewrite fmap_app, app_comm_cons. rewrite !elem_of_app. intros [Hi| ->%list_elem_of_singleton]; [left; by apply Hq|right; by left].
    + intros i. rewrite fmap_app, app_comm_cons, elem_of_app, elem_of_union. intros [Hi|Hi%list_elem_of_singleton]; [right; by apply Hv|left; by apply elem_of_singleton].
  - split; cbn [q_queue q_visited q_found]; [done..|]. intros i Hi. apply elem_of_union. right. by apply Hv.
Qed.
Lemma callers_found_along {S} `{Storage S} (s : S) ns es (Hview : StorageView s ns es) lookup root fuel : ∀ st found,
  along root st → callers_loop fuel s lookup st = Some (Ok found) → found_along root found.
Proof.
  induction fuel as [|fuel IH]; intros [v [|c q] f] found Hst; cbn [callers_loop q_queue q_visited q_found] in *; [intros [= <-]; apply Hst|done|intros [= <-]; apply Hst|].
  destruct (view_get_callers _ _ _ Hview c) as (l & -> & Hl). apply IH. destruct Hst as [Hf Hq Hv]. apply (callers_visits_along lookup root c).
  - intros e. rewrite Hl. by intros [? _]%list_elem_of_filter.
  - apply Hq. left.
  - split; [done| |done]. intros i Hi. apply Hq. by right.
Qed.

(** The functions on parsed arguments. *)
Lemma masked_exact {S B} `{Storage S} `{BitmapLaws B} spans (s : S) ns es (mask : Node → Node) filters sym sym' root root' :
  StorageView s ns es → (N.of_nat (length ns) ≤ u32_MAX)%N → (∀ n, node_id (mask n) = node_id n) →
  resolve (mask <$> ns) sym = Some (Ok root) → resolve (mask <$> ns) sym' = Some (Ok root') →
  let node := find_node (mask <$> ns) in
  let ask name args filters := run_masked (B := B) spans s name args filters mask in
  let listing ids := Some (Ok (lines_text (describe <$> filter (λ n, matches_node filters n = true) (omap node ids)))) in
  (∃ found, ask "callers" [sym] filters = Some (Ok (lines_text ((λ ne : Node * Edge, describe ne.1) <$> filter (λ ne, shown filters ne = true) found))) ∧
     found_along root found ∧ (∀ a, a ∈ found_id <$> found ↔ a ≠ root ∧ rtc (store_edge ns es) a root) ∧
     Forall (λ ne, ne.2 ∈ es ∧ node (source_id ne.2) = Some ne.1) found) ∧
  (∃ ids, ask "callees" [sym] filters = listing ids ∧ StronglySorted N.lt ids ∧ ∀ y, y ∈ ids ↔ y ≠ root ∧ store_edge ns es root y) ∧
  (∃ ids, ask "impact" [sym] filters = listing ids ∧ StronglySorted N.lt ids ∧ ∀ y, y ∈ ids ↔ y ≠ root ∧ rtc (store_edge ns es) root y) ∧
  ∃ r, ask "path" [sym; sym'] no_filters = Some (Ok (match r with Some p => join " → " (node_symbol <$> omap node p) | None => "no path found" end)) ∧
    match r with Some p => shortest_path (store_edge ns es) root root' p | None => ¬ rtc (store_edge ns es) root root' end.
Proof.
  intros Hview Hsmall Hid Hres Hres' node ask listing.
  assert (∀ i, is_Some (node i) ↔ i ∈ node_id <$> ns) as Hnode by (intros i; unfold node; by rewrite find_node_some, masked_ids).
  pose proof (resolve_member _ _ _ Hres) as Hroot. pose proof (resolve_member _ _ _ Hres') as Hroot'. rewrite masked_ids in Hroot, Hroot' by done.
  destruct (load_rep s ns es Hview Hsmall) as (g & Hl & Hg). unfold ask, run_masked, answer. rewrite (view_nodes _ _ _ Hview). cbv zeta.
  cbn [single_arg pair_args]. unfold pure_result, run_bind. cbn [mbind option_bind fst snd]. rewrite Hres, Hres'. unfold with_graph. rewrite Hl. cbn [mbind option_bind].
  split_and!.
  - destruct (callers_exact s ns es Hview node Hnode root Hroot) as (found & Hf & Hnd & Hall & HF). exists found. split_and!; [| |done..].
    2:{ eapply (callers_found_along s ns es Hview node root); [|exact Hf]. split; cbn; [constructor|done|]. intros i ->%list_elem_of_singleton. set_solver. }
    assert (callers_text s node root filters = Some (Ok (lines_text ((λ ne : Node * Edge, describe ne.1) <$> filter (λ ne, shown filters ne = true) found)))) as Ht; [|exact Ht].
    unfold callers_text, run_bind. rewrite (view_edges _ _ _ Hview). cbn [unwrap_or_default]. by rewrite Hf.
  - destruct (reachable_exact (B := B) ns es node g root 1 Hg Hroot) as (ids & Ht & Hs & Hall). exists ids. split_and!; [|done|].
    + specialize (Ht filters). transitivity (text ← reachable_text (B := B) g node root 1 filters; Some (Ok (E := string) text)); [done|by rewrite Ht].
    + intros y. rewrite Hall. split; intros [Hne Hy]; (split; [done|]).
      * inversion Hy as [|? ? z ? Hz Hzy]; subst; [done|]. by inversion Hzy; subst.
      * by apply bsteps_once.
  - destruct (reachable_exact (B := B) ns es node g root u32_MAX Hg Hroot) as (ids & Ht & Hs & Hall). exists ids. split_and!; [|done|].
    + specialize (Ht filters). transitivity (text ← reachable_text (B := B) g node root u32_MAX filters; Some (Ok (E := string) text)); [done|by rewrite Ht].
    + intros y. rewrite Hall. f_equiv. split; [apply rtc_bsteps_2|].
      apply (rtc_bounded _ (node_id <$> ns)); [by intros a c (_ & ? & _)|rewrite length_fmap; lia].
  - destruct (query_path_rep (B := B) g (node_id <$> ns) (store_edge ns es) root root' Hg) as (r & Hr & Hspec). exists r. split.
    + unfold path_text. rewrite Hr. done.
    + destruct r; [done|]. by destruct Hspec as [?|[?|?]].
Qed.

(** C35: A query answers what it names, from its text, over the masked nodes.
    [callers(x)] lists the transitive callers of the symbol, each once and each found by
    an edge from it to the symbol or to a caller found before; [callees(x)] its direct
    callees and [impact(x)] everything reachable from it, in the order of their ids;
    [path(a,b)] a shortest path to the other symbol, or that there is none.  The filters
    written after the call choose what is shown and do not cut the search: the last of
    each kind counts; a shown node lies under the required path and not under the
    excluded one, is of the language, kind and visibility asked for, and the edge a
    caller was found by is of the kind asked for and, if asked, exact.  An edge filter
    on another function is an error, and so is any filter of a path. *)
Theorem query_exact {S B} `{Storage S} `{BitmapLaws B} spans (s : S) ns es (mask : Node → Node) fs sym sym' root root' :
  StorageView s ns es → (N.of_nat (length ns) ≤ u32_MAX)%N → (∀ n, node_id (mask n) = node_id n) →
  Forall plain_filter fs → plain_arg sym → plain_arg sym' →
  resolve (mask <$> ns) sym = Some (Ok root) → resolve (mask <$> ns) sym' = Some (Ok root') →
  let node := find_node (mask <$> ns) in
  let ask name args fs := run (B := B) spans s (query_text name args fs) (Some mask) in
  let listing l := Some (Ok (lines_text (describe <$> l))) in
  let edge_filter := ∃ f, f ∈ fs ∧ (is_Some (by_edge f) ∨ is_Some (is_precise f)) in
  (∃ found, ask "callers" [sym] fs = listing (fst <$> filter (λ ne, kept_edge fs ne.2 ∧ kept fs ne.1) found) ∧
     found_along root found ∧ (∀ a, a ∈ found_id <$> found ↔ a ≠ root ∧ rtc (store_edge ns es) a root) ∧
     Forall (λ ne, ne.2 ∈ es ∧ node (source_id ne.2) = Some ne.1) found) ∧
  (¬ edge_filter → ∃ ids, ask "callees" [sym] fs = listing (filter (kept fs) (omap node ids)) ∧ StronglySorted N.lt ids ∧ ∀ y, y ∈ ids ↔ y ≠ root ∧ store_edge ns es root y) ∧
  (¬ edge_filter → ∃ ids, ask "impact" [sym] fs = listing (filter (kept fs) (omap node ids)) ∧ StronglySorted N.lt ids ∧ ∀ y, y ∈ ids ↔ y ≠ root ∧ rtc (store_edge ns es) root y) ∧
  (edge_filter → ∃ e e', ask "callees" [sym] fs = Some (Err e) ∧ ask "impact" [sym] fs = Some (Err e')) ∧
  (∃ r, ask "path" [sym; sym'] [] = Some (Ok (match r with Some p => join " → " (node_symbol <$> omap node p) | None => "no path found" end)) ∧
    match r with Some p => shortest_path (store_edge ns es) root root' p | None => ¬ rtc (store_edge ns es) root root' end) ∧
  (fs ≠ [] → ∃ e, ask "path" [sym; sym'] fs = Some (Err e)).
Proof.
  intros Hview Hsmall Hid Hfs Hsym Hsym' Hres Hres' node ask listing edge_filter.
  assert (Forall plain_arg [sym] ∧ Forall plain_arg [sym; sym']) as [Ha Ha'] by (rewrite !Forall_cons, Forall_nil; done).
  destruct (masked_exact (B := B) spans s ns es mask (filters_of fs) sym sym' root root' Hview Hsmall Hid Hres Hres') as (Hcallers & Hcallees & Himpact & Hpath).
  assert (∀ {A} (sel : Filter → option A), is_Some (last_given sel fs) ↔ ∃ f, f ∈ fs ∧ is_Some (sel f)) as Hgiven by (intros A sel; apply last_given_some).
  assert (∀ l, filter (λ n, matches_node (filters_of fs) n = true) l = filter (kept fs) l) as Hkept by (intros l; apply list_filter_iff; intros n; apply matches_node_kept).
  split_and!.
  - destruct Hcallers as (found & Hf & Hin & Hall & HF). exists found. split_and!; [|done..]. unfold ask; rewrite (run_text (B := B)) by done. etrans; [exact Hf|].
    unfold listing. rewrite <- list_fmap_compose. do 4 f_equal. apply list_filter_iff. intros ne. apply shown_kept.
  - intros Hno. destruct Hcallees as (ids & Hf & Hs & Hall). exists ids. split_and!; [|done..]. unfold ask; rewrite (run_text (B := B)) by done. rewrite !bool_decide_eq_false_2; [etrans; [exact Hf|]; by rewrite Hkept|..].
    all: try (intros (f & Hin & Hx)%Hgiven; apply Hno; exists f; auto). all: intros Hx; repeat destruct Hx as [Hx|Hx]; discriminate Hx.
  - intros Hno. destruct Himpact as (ids & Hf & Hs & Hall). exists ids. split_and!; [|done..]. unfold ask; rewrite (run_text (B := B)) by done. rewrite !bool_decide_eq_false_2; [etrans; [exact Hf|]; by rewrite Hkept|..].
    all: try (intros (f & Hin & Hx)%Hgiven; apply Hno; exists f; auto). all: intros Hx; repeat destruct Hx as [Hx|Hx]; discriminate Hx.
  - intros (f & Hin & Hx). unfold ask; rewrite !(run_text (B := B)) by done.
    destruct Hx as [Hx|Hx]; [rewrite (bool_decide_eq_true_2 (is_Some (last_given by_edge fs))) by (apply Hgiven; eauto); eexists _, _; split; reflexivity|].
    rewrite (bool_decide_eq_true_2 (is_Some (last_given is_precise fs))) by (apply Hgiven; eauto). destruct (bool_decide (is_Some (last_given by_edge fs))); eexists _, _; split; reflexivity.
  - destruct Hpath as (r & Hr & Hspec). exists r. split; [|done]. unfold ask. rewrite (run_text (B := B)) by done. exact Hr.
  - intros Hne. unfold ask. rewrite (run_text (B := B)) by done. rewrite filters_of_empty by done. eexists. reflexivity.
Qed.

(** ** Masks *)

Lemma callers_loop_hidden {S} `{Storage S} (s s' : S) (Hc : ∀ i, get_callers s i = get_callers s' i) lookup fuel : ∀ st,
  callers_loop fuel s lookup st = callers_loop fuel s' lookup st.
Proof. induction fuel as [|fuel IH]; intros [v [|c q] f]; cbn; [done..|]. rewrite Hc. by destruct (get_callers s' c). Qed.

(** C36: a masked query answers from what the mask shows: over two stores whose nodes
    look alike through it and whose edges and spans are the same, every expression
    has the same answer, errors and suggestions included. *)
Theorem query_masked_hides {S B} `{Storage S} `{Bitmap B} spans (s s' : S) ns ns' es (mask : Node → Node) expression :
  StorageView s ns es → StorageView s' ns' es → (∀ n, node_id (mask n) = node_id n) → mask <$> ns = mask <$> ns' →
  (∀ i, get_callers s i = get_callers s' i) → spans s = spans s' →
  run (B := B) spans s expression (Some mask) = run (B := B) spans s' expression (Some mask).
Proof.
  intros Hv Hv' Hid Hm Hc Hsp. unfold run. destruct (split_once _ _) as [[call rest]|]; [|done]. destruct (parse_call _) as [[name args]|]; [|done].
  destruct (parse_filters _) as [filters|]; [|done]. repeat (destruct (_ && _); [done|]). unfold run_masked.
  rewrite (view_nodes _ _ _ Hv), (view_nodes _ _ _ Hv'), Hm. cbv zeta. unfold answer, with_graph, callers_text. rewrite Hsp.
  rewrite (load_masked mask Hid s s' ns ns' es Hv Hv' Hm), (view_edges _ _ _ Hv), (view_edges _ _ _ Hv').
  repeat (case_decide; [|]); try done. unfold pure_result, run_bind. destruct (single_arg args); [|done]. cbn [mbind option_bind].
  destruct (resolve _ _) as [[root|]|]; [|done..]. by rewrite (callers_loop_hidden s s' Hc).
Qed.

(** Only the answers of the two lookups matter. *)
Lemma callers_loop_ext {S} `{Storage S} (s : S) lookup lookup' (He : ∀ i, lookup i = lookup' i) fuel : ∀ st,
  callers_loop fuel s lookup st = callers_loop fuel s lookup' st.
Proof.
  induction fuel as [|fuel IH]; intros [v [|c q] f]; cbn; [done..|]. destruct (get_callers s c) as [l|]; [|done]. rewrite IH. f_equal.
  generalize (mkCallers v q f) as st. clear IH. induction l as [|e l IH]; intros st; [done|]. cbn [foldl]. unfold callers_visit at 2 4. by rewrite He, IH.
Qed.
Lemma omap_lookup_ext (lookup lookup' : NodeId → option Node) (He : ∀ i, lookup i = lookup' i) (l : list NodeId) : omap lookup l = omap lookup' l.
Proof. induction l as [|x l IH]; [done|]. cbn [omap list_omap]. by rewrite He, IH. Qed.
Lemma answer_ext {S B} `{Storage S} `{Bitmap B} spans (s : S) name args filters resolve resolve' fetch fetch' :
  (∀ a, resolve a = resolve' a) → (∀ i, fetch i = fetch' i) →
  answer (B := B) spans s name args filters resolve fetch = answer (B := B) spans s name args filters resolve' fetch'.
Proof.
  intros Hr Hf. unfold answer, with_graph, pure_result, run_bind. cbv zeta.
  assert (∀ i, (match fetch i with Ok o => o | Err _ => None end) = (match fetch' i with Ok o => o | Err _ => None end)) as Hl by (intros i; by rewrite Hf).
  repeat case_decide; cbn [mbind option_bind]; try done.
  all: try (destruct (single_arg args) as [a|]; [|done]; cbn [mbind option_bind]; rewrite Hr; destruct (resolve' a) as [[root|]|]; [|done..]; cbn [mbind option_bind]).
  - unfold callers_text, run_bind. by rewrite (callers_loop_ext s _ _ Hl).
  - destruct (load s) as [[g|]|]; [|done..]. cbn [mbind option_bind]. unfold reachable_text. destruct (reachable_within g root 1); [|done]. cbn [mbind option_bind].
    by rewrite (omap_lookup_ext _ _ Hl).
  - destruct (load s) as [[g|]|]; [|done..]. cbn [mbind option_bind]. unfold reachable_text. destruct (reachable_within g root u32_MAX); [|done]. cbn [mbind option_bind].
    by rewrite (omap_lookup_ext _ _ Hl).
  - destruct (pair_args args) as [[a b]|]; [|done]. cbn [mbind option_bind fst snd]. rewrite !Hr. destruct (resolve' a) as [[from|]|]; [|done..].
    destruct (resolve' b) as [[to|]|]; [|done..]. cbn [mbind option_bind]. destruct (load s) as [[g|]|]; [|done..]. cbn [mbind option_bind].
    unfold path_text. destruct (query_path g from to) as [[p|]|]; [|done..]. cbn [mbind option_bind]. by rewrite (omap_lookup_ext _ _ Hl).
  - by rewrite Hf.
Qed.

(** Without a mask the store's lookups answer what the general path answers with
    the mask that shows everything, provided its symbol lookup gives the first
    match. *)
Theorem query_fast_path_agrees {S B} `{Storage S} `{Bitmap B} spans (s : S) ns es expression :
  StorageView s ns es → (∀ sym, get_node_by_symbol s sym = Ok (snd <$> list_find (λ n, node_symbol n = sym) ns)) →
  run (B := B) spans s expression None = run (B := B) spans s expression (Some (λ n, n)).
Proof.
  intros Hv Hfirst. unfold run. destruct (split_once _ _) as [[call rest]|]; [|done]. destruct (parse_call _) as [[name args]|]; [|done].
  destruct (parse_filters _) as [filters|]; [|done]. repeat (destruct (_ && _); [done|]). unfold run_masked, run_unmasked.
  rewrite (view_nodes _ _ _ Hv), list_fmap_id. cbv zeta.
  assert (∀ sym, resolve_fast s sym = resolve ns sym) as Hr.
  { intros sym. unfold resolve_fast. rewrite Hfirst. destruct (list_find _ ns) as [n|] eqn:Hf; cbn [fmap option_fmap option_map].
    - unfold resolve. by rewrite (resolve_exact ns _ _ Hf).
    - by rewrite (view_nodes _ _ _ Hv). }
  assert (∀ i, get_node s i = Ok (find_node ns i)) as Hg.
  { intros i. rewrite (view_get_node _ _ _ Hv). unfold find_node. by destruct (list_find _ ns) as [[? ?]|]. }
  by apply answer_ext.
Qed.


(** ** Examples *)

Definition no_spans (s : mem_store) : result (list TraceSpan) StorageError := Ok [].

Lemma query_exact_witness :
  run (B := gset N) no_spans tool_store "callers(root) path:p kind:fn path:!q" (Some (λ n, n)) =
    Some (Ok (join (String "010"%char "") ["b (p.rs:2)"; "c (p.rs:3)"; "a (p.rs:1)"; "d (p.rs:5)"])) ∧
  (∃ found, run (B := gset N) no_spans tool_store (query_text "callers" ["root"] [InPath "p"; OfKind "fn"; NotInPath "q"]) (Some (λ n, n)) =
     Some (Ok (lines_text (describe <$> (fst <$> filter (λ ne, kept_edge [InPath "p"; OfKind "fn"; NotInPath "q"] ne.2 ∧ kept [InPath "p"; OfKind "fn"; NotInPath "q"] ne.1) found)))) ∧
     found_along 4%N found) ∧
  ∃ e, run (B := gset N) no_spans tool_store (query_text "path" ["root"; "d"] [InPath "p"; OfKind "fn"; NotInPath "q"]) (Some (λ n, n)) = Some (Err e).
Proof.
  split; [vm_compute; reflexivity|].
  destruct (query_exact (B := gset N) no_spans tool_store tool_store.1 tool_store.2 (λ n, n) [InPath "p"; OfKind "fn"; NotInPath "q"] "root" "d" 4%N 5%N tool_store_view
    ltac:(vm_compute; discriminate) ltac:(reflexivity)) as ((found & Hf & Ha & _) & _ & _ & _ & _ & Hp).
  - repeat (apply Forall_cons; split); [split; [split; [discriminate|vm_compute; reflexivity]|exact I || reflexivity]..|apply Forall_nil_2].
  - split_and!; [discriminate|vm_compute; reflexivity..].
  - split_and!; [discriminate|vm_compute; reflexivity..].
  - vm_compute. reflexivity.
  - vm_compute. reflexivity.
  - split; [exists found; split; [exact Hf|exact Ha]|]. apply Hp. discriminate.
Defined.

(** A mask that hides the symbols of a path, and a store where they are others. *)
Definition hide_path (n : Node) : Node :=
  if decide (node_path n = "p.rs") then mkNode (node_id n) (node_repo_id n) "" "[masked]" (node_kind n) 0 0 "" else n.
Definition other_store : mem_store := ((λ n, mkNode (node_id n) (node_repo_id n) (node_path n) ("x" +:+ node_symbol n) (node_kind n) (node_line_start n) 9 "sig") <$> tool_store.1, tool_store.2).
Lemma query_masked_hides_witness :
  run (B := gset N) no_spans tool_store "callers(root)" (Some hide_path) = run (B := gset N) no_spans other_store "callers(root)" (Some hide_path).
Proof.
  apply (query_masked_hides (B := gset N) no_spans tool_store other_store tool_store.1 other_store.1 tool_store.2 hide_path "callers(root)").
  - apply tool_store_view.
  - apply mem_store_view. repeat constructor; cbn; lia.
  - intros n. unfold hide_path. by case_decide.
  - vm_compute. reflexivity.
  - reflexivity.
  - reflexivity.
Defined.

(** [precise:true] drops a caller with an exact edge when a heuristic one from it
    is listed first. *)
Example query_precise_caller_dropped :
  run (B := gset N) no_spans (([tool_node 1 "f"; tool_node 2 "g"], [tool_edge 1 2 1 "CALLS_DYNAMIC"; tool_edge 2 2 1 "CALLS_EXACT"]%N) : mem_store)
    "callers(f) precise:true" None = Some (Ok "no results").
Proof. vm_compute. reflexivity. Qed.
