(* ===== verification/Link.v ===== *)
(** * Linked repositories (weave-graph-cli: federation.rs)

    [weave link] composes the graphs of two repositories under one numbering,
    resolves across them what neither resolves by itself, reports the cycles and
    keeps the composite graph, the contracts each expects of the other and the
    link in both configurations.  A [RepoGraph] is what [load_repo] gives. *)

From S2P Require Import Prelude Str Model Language Interner ProjectIndex SqlStore SqlProofs SqlReindex Contract Federation Json Config Auth Bitmap Csr Paths CsrGraph Resolve Tools Reindex Traces Query.

(** src/crates/weave-graph-cli/src/federation.rs:36-42 [RepoGraph]
    With the hasher of its index; files are named relative to the root. *)
Record RepoGraph := mkRepo {
  label : string;
  repo_nodes : list Node;
  repo_edges : list (NodeId * NodeId);
  repo_hash : string → N;
  project_index : ProjectIndex;
  parsed_files : list (string * ParsedFile);
}.

(** ** The composite graph *)

(** src/crates/weave-graph-cli/src/federation.rs:121-124 [cmd_link]
    The maps and vectors under construction. *)
Record composite := mkComposite {
  composite_ids : gmap (N * NodeId) N;
  moniker_ids : gmap (N * string) N;
  composite_keys : list string;
  composite_nodes : list Node;
}.
(** src/crates/weave-graph-cli/src/federation.rs:126-136 [cmd_link]
    One node of repository [r]: its number, its moniker, its key, its copy. *)
Definition add_node (r : N) (lbl : string) (st : composite) (n : Node) : composite :=
  let idx := as_u32 (length (composite_keys st)) in
  mkComposite (<[(r, node_id n) := idx]> (composite_ids st)) (<[(r, moniker_build (node_path n) (node_symbol n)) := idx]> (moniker_ids st))
    (composite_keys st ++ [composite_key lbl (node_path n) (node_symbol n)])
    (composite_nodes st ++ [mkNode idx lbl (node_path n) (node_symbol n) (node_kind n) (node_line_start n) (node_line_end n) (node_signature n)]).
(** src/crates/weave-graph-cli/src/federation.rs:120-137 [cmd_link] *)
Definition compose_repos (a b : RepoGraph) : composite :=
  foldl (add_node 1 (label b)) (foldl (add_node 0 (label a)) (mkComposite ∅ ∅ [] []) (repo_nodes a)) (repo_nodes b).
(** src/crates/weave-graph-cli/src/federation.rs:142-150 [cmd_link] *)
Definition local_edges_of (st : composite) (r : N) (g : RepoGraph) : list (N * N) :=
  omap (λ e : NodeId * NodeId, u ← composite_ids st !! (r, e.1); v ← composite_ids st !! (r, e.2); Some (u, v)) (repo_edges g).
(** src/crates/weave-graph-cli/src/federation.rs:139-151 [cmd_link] *)
Definition local_edges (st : composite) (a b : RepoGraph) : list (N * N) := local_edges_of st 0 a ++ local_edges_of st 1 b.
(** src/crates/weave-graph-cli/src/federation.rs:459-468 [resolve_cross_repo_edges]
    From the files of one repository to the other. *)
Definition cross_edges_of (ids : gmap (N * string) N) (r r' : N) (g h : RepoGraph) : option (list (N * N)) :=
  found ← mapM (λ p : string * ParsedFile, resolve_cross_repo (repo_hash g) (repo_hash h) (project_index g) p.2 (project_index h)) (parsed_files g);
  Some (omap (λ e, u ← ids !! (r, re_source e); v ← ids !! (r', re_target e); Some (u, v)) (mjoin found)).
(** src/crates/weave-graph-cli/src/federation.rs:453-480 [resolve_cross_repo_edges] *)
Definition resolve_cross_repo_edges (a b : RepoGraph) (ids : gmap (N * string) N) : option (list (N * N)) :=
  l ← cross_edges_of ids 0 1 a b;
  k ← cross_edges_of ids 1 0 b a;
  Some (l ++ k).

(** src/crates/weave-graph-cli/src/federation.rs:158-162 [cmd_link] *)
Definition link_cycles (st : composite) (edges : list (N * N)) : option (list (list N)) :=
  comps ← tarjan_scc (N.of_nat <$> seq 0 (length (composite_keys st))) edges;
  Some (filter (λ c, 1 < length c) comps).

(** src/crates/weave-graph-cli/src/federation.rs:482-517 [render_report] *)
Definition render_report (a b : RepoGraph) (keys : list string) (locals crosses : nat) (cycles : list (list N)) : option string :=
  let d (n : nat) := dec (N.of_nat n) in
  lines ← mapM (λ c : list N, names ← mapM (λ i, keys !! as_usize i) c; Some ("  - " +:+ join " -> " names +:+ newline)) cycles;
  Some ("# Federation Report: " +:+ label a +:+ " + " +:+ label b +:+ newline +:+ newline +:+
    "- " +:+ d (length keys) +:+ " composite nodes (" +:+ d (length (repo_nodes a)) +:+ " from " +:+ label a +:+ ", " +:+ d (length (repo_nodes b)) +:+ " from " +:+ label b +:+ ")" +:+ newline +:+
    "- " +:+ d (locals + crosses) +:+ " composite edges (" +:+ d locals +:+ " repo-local, " +:+ d crosses +:+ " newly resolved cross-repo)" +:+ newline +:+
    "- " +:+ d (length cycles) +:+ " circular dependency group(s) detected" +:+ newline +:+ foldr String.append "" lines).

(** ** What is written *)

Section link.
Context `{Sqlite}.

(** src/crates/weave-graph-cli/src/federation.rs:254-262 [persist_composite_graph] *)
Definition link_edge (db_id : list NodeId) (kind : string) (e : N * N) : option Edge :=
  u ← db_id !! as_usize e.1;
  v ← db_id !! as_usize e.2;
  Some (mkEdge 0 u v kind one_f64 None None).
(** src/crates/weave-graph-cli/src/federation.rs:230-280 [persist_composite_graph]
    The database that replaces the one of the pair; [None] is a panic. *)
Definition persist_composite_graph (ns : list Node) (locals crosses : list (N * N)) : option (result Db StorageError) :=
  match try_loop upsert_node ns empty_db with
  | (_, Err e) => Some (Err e)
  | (db, Ok db_id) =>
      ls ← mapM (link_edge db_id "LOCAL") locals;
      cs ← mapM (link_edge db_id "CROSS_REPO") crosses;
      Some (match try_loop upsert_edge (ls ++ cs) db with (db, Ok _) => Ok db | (_, Err e) => Err e end)
  end.

Inductive link_error := SameLabel (l : string) | StorageFailed (e : StorageError) | ConfigFailed.
(** The files of the two repositories a link writes: the report, the databases with
    the expectations, the configurations, the composite graphs. *)
Record link_state := mkLinkState {
  ls_report : option string;
  ls_db_a : Db;
  ls_db_b : Db;
  ls_config_a : option string;
  ls_config_b : option string;
  ls_fed_a : option Db;
  ls_fed_b : option Db;
}.
(** What a link composes. *)
Record link_graph := mkLinkGraph { lg_composite : composite; lg_local : list (N * N); lg_cross : list (N * N); lg_cycles : list (list N) }.
(** src/crates/weave-graph-cli/src/federation.rs:120-162 [cmd_link] *)
Definition link_graph_of (a b : RepoGraph) : option link_graph :=
  let st := compose_repos a b in
  let locals := local_edges st a b in
  crosses ← resolve_cross_repo_edges a b (moniker_ids st);
  cycles ← link_cycles st (locals ++ crosses);
  Some (mkLinkGraph st locals crosses cycles).

Context `{TomlFormat} (sha256 : string → string).

(** src/crates/weave-graph-cli/src/federation.rs:108-224 [cmd_link]
    [sha_a] and [sha_b] are what git answers; the report is written where the
    directory exists. *)
Definition cmd_link (repo_a repo_b : string) (weave_dir : bool) (sha_a sha_b : option string) (a b : RepoGraph) (st : link_state) :
    option (link_state * result () link_error) :=
  if decide (label a = label b) then Some (st, Err (SameLabel (label a))) else
  g ← link_graph_of a b;
  report ← render_report a b (composite_keys (lg_composite g)) (length (lg_local g)) (length (lg_cross g)) (lg_cycles g);
  let st := if weave_dir then mkLinkState (Some report) (ls_db_a st) (ls_db_b st) (ls_config_a st) (ls_config_b st) (ls_fed_a st) (ls_fed_b st) else st in
  let map_a := repo_contract_map (parsed_files a) in
  let map_b := repo_contract_map (parsed_files b) in
  let '(db_a, ra) := record_one_side sha256 (label a) (label b) map_b None sha_b (ls_db_a st) in
  let st := mkLinkState (ls_report st) db_a (ls_db_b st) (ls_config_a st) (ls_config_b st) (ls_fed_a st) (ls_fed_b st) in
  match ra with Err e => Some (st, Err (StorageFailed e)) | Ok _ =>
  let '(db_b, rb) := record_one_side sha256 (label b) (label a) map_a None sha_a (ls_db_b st) in
  let st := mkLinkState (ls_report st) (ls_db_a st) db_b (ls_config_a st) (ls_config_b st) (ls_fed_a st) (ls_fed_b st) in
  match rb with Err e => Some (st, Err (StorageFailed e)) | Ok _ =>
  match add_linked_repo (ls_config_a st) repo_b with Err _ => Some (st, Err ConfigFailed) | Ok ca =>
  let st := mkLinkState (ls_report st) (ls_db_a st) (ls_db_b st) (match ca with Some c => Some c | None => ls_config_a st end) (ls_config_b st) (ls_fed_a st) (ls_fed_b st) in
  match add_linked_repo (ls_config_b st) repo_a with Err _ => Some (st, Err ConfigFailed) | Ok cb =>
  let st := mkLinkState (ls_report st) (ls_db_a st) (ls_db_b st) (ls_config_a st) (match cb with Some c => Some c | None => ls_config_b st end) (ls_fed_a st) (ls_fed_b st) in
  r ← persist_composite_graph (composite_nodes (lg_composite g)) (lg_local g) (lg_cross g);
  match r with Err e => Some (st, Err (StorageFailed e)) | Ok db =>
  Some (mkLinkState (ls_report st) (ls_db_a st) (ls_db_b st) (ls_config_a st) (ls_config_b st) (Some db) (Some db), Ok ())
  end end end end end.

(** src/crates/weave-graph-cli/src/federation.rs:45-49 [FederatedRbac]
    The guards of the two repositories. *)
Record FederatedRbac := mkFederated { partner_label : string; primary : RbacGuard; partner : RbacGuard }.
(** src/crates/weave-graph-cli/src/federation.rs:61-67 [FederatedRbac::guard]
    Each node is judged by the guard of its own repository. *)
Definition guard_of (f : FederatedRbac) (n : Node) : RbacGuard := if decide (node_repo_id n = partner_label f) then partner f else primary f.
(** src/crates/weave-graph-cli/src/federation.rs:69-71 [FederatedRbac::mask] *)
Definition federated_mask (f : FederatedRbac) (n : Node) : Node := mask_node (guard_of f n) n.
(** src/crates/weave-graph-cli/src/federation.rs:73-75 [FederatedRbac::visible] *)
Definition federated_visible (f : FederatedRbac) (n : Node) : bool := visible (guard_of f n) n.

(** src/crates/weave-graph-cli/src/federation.rs:308-334 [cmd_query_federated]
    [None] where the pair has no composite graph. *)
Definition cmd_query_federated {B} `{Bitmap B} (fed : option Db) (expression : string) (guard : option FederatedRbac) : option (option (result string string)) :=
  db ← fed;
  Some (run (B := B) all_trace_spans db expression (federated_mask <$> guard)).

(** src/crates/weave-graph-cli/src/federation.rs:384-405 [cmd_link_from_config]
    The partner, or how many are configured. *)
Definition choose_partner (configured : list string) (explicit : option string) : result string nat :=
  match explicit with
  | Some p => Ok p
  | None => match configured with [p] => Ok p | l => Err (length l) end
  end.
End link.

(** ** The numbering *)

(** The nodes of both repositories, in order. *)
Definition all_repo_nodes (a b : RepoGraph) : list (N * Node) := ((λ n, (0%N, n)) <$> repo_nodes a) ++ ((λ n, (1%N, n)) <$> repo_nodes b).
Definition lbl (a b : RepoGraph) (r : N) : string := if decide (r = 0%N) then label a else label b.
Definition key_of (a b : RepoGraph) (p : N * Node) : string := composite_key (lbl a b p.1) (node_path p.2) (node_symbol p.2).
Definition copy_of (a b : RepoGraph) (k : nat) (p : N * Node) : Node :=
  mkNode (N.of_nat k) (lbl a b p.1) (node_path p.2) (node_symbol p.2) (node_kind p.2) (node_line_start p.2) (node_line_end p.2) (node_signature p.2).

(** The composite graph of the nodes so far: numbers are positions. *)
Record numbered (a b : RepoGraph) (l : list (N * Node)) (st : composite) : Prop := {
  nb_keys : composite_keys st = key_of a b <$> l;
  nb_nodes : composite_nodes st = imap (copy_of a b) l;
  nb_ids r i u : composite_ids st !! (r, i) = Some u → ∃ k n, l !! k = Some (r, n) ∧ node_id n = i ∧ u = N.of_nat k;
  nb_has r n : (r, n) ∈ l → is_Some (composite_ids st !! (r, node_id n));
  nb_monikers r x u : moniker_ids st !! (r, x) = Some u → ∃ k n, l !! k = Some (r, n) ∧ x = moniker_build (node_path n) (node_symbol n) ∧ u = N.of_nat k;
  nb_named r n : (r, n) ∈ l → is_Some (moniker_ids st !! (r, moniker_build (node_path n) (node_symbol n)));
}.
Lemma numbered_snoc a b l st r n : numbered a b l st → (N.of_nat (length l) ≤ u32_MAX)%N → numbered a b (l ++ [(r, n)]) (add_node r (lbl a b r) st n).
Proof.
  intros [Hk Hn Hi Hh Hm Hs] Hfit. assert (as_u32 (length (composite_keys st)) = N.of_nat (length l)) as Hidx.
  { rewrite Hk, length_fmap. apply as_u32_small. lia. }
  unfold add_node. rewrite Hidx. split; cbn [composite_keys composite_nodes composite_ids moniker_ids].
  - by rewrite Hk, fmap_app.
  - rewrite Hn, imap_app. cbn. by rewrite Nat.add_0_r.
  - intros r' i u [[[= <- <-] <-]|[_ Hu]]%lookup_insert_Some.
    + exists (length l), n. by rewrite lookup_app_r, Nat.sub_diag by lia.
    + destruct (Hi _ _ _ Hu) as (k & m & Hl & He & ->). exists k, m. split_and!; [by apply lookup_app_l_Some|done|done].
  - intros r' m [Hl|[= -> ->]%list_elem_of_singleton]%elem_of_app; [|by rewrite lookup_insert_eq]. apply lookup_insert_is_Some. destruct (decide ((r, node_id n) = (r', node_id m))); auto.
  - intros r' x u [[[= <- <-] <-]|[_ Hu]]%lookup_insert_Some.
    + exists (length l), n. by rewrite lookup_app_r, Nat.sub_diag by lia.
    + destruct (Hm _ _ _ Hu) as (k & m & Hl & He & ->). exists k, m. split_and!; [by apply lookup_app_l_Some|done|done].
  - intros r' m [Hl|[= -> ->]%list_elem_of_singleton]%elem_of_app; [|by rewrite lookup_insert_eq]. apply lookup_insert_is_Some.
    destruct (decide ((r, moniker_build (node_path n) (node_symbol n)) = (r', moniker_build (node_path m) (node_symbol m)))); auto.
Qed.
Lemma numbered_nodes a b r ns : ∀ l st, numbered a b l st → (N.of_nat (length l + length ns) ≤ u32_MAX)%N →
  numbered a b (l ++ ((λ n, (r, n)) <$> ns)) (foldl (add_node r (lbl a b r)) st ns).
Proof.
  induction ns as [|n ns IH]; intros l st Hnb Hfit; cbn [foldl fmap list_fmap length] in *; [by rewrite app_nil_r|].
  rewrite (cons_middle _ l), app_assoc. apply IH; [apply numbered_snoc; [done|lia]|]. rewrite length_app. cbn. lia.
Qed.
Lemma compose_numbered a b : (N.of_nat (length (repo_nodes a) + length (repo_nodes b)) ≤ u32_MAX)%N → numbered a b (all_repo_nodes a b) (compose_repos a b).
Proof.
  intros Hfit. unfold compose_repos, all_repo_nodes. apply (numbered_nodes a b 1 (repo_nodes b)).
  - apply (numbered_nodes a b 0 (repo_nodes a) []); [|cbn; lia]. split; cbn; try done; intros *; by rewrite ?lookup_empty, ?elem_of_nil.
  - rewrite length_fmap. lia.
Qed.

(** ** What a link reports *)

(** A repository as [load_repo] leaves it: node ids differ, the index is that of its
    files. *)
Record repo_ok (g : RepoGraph) : Prop := {
  ro_ids : NoDup (node_id <$> repo_nodes g);
  ro_index : foldlM (add_file (repo_hash g)) (parsed_files g).*2 new = Some (project_index g);
  ro_fits : fits ((parsed_files g).*2 ≫= file_symbols);
}.
Definition declared_in (g : RepoGraph) (name : string) : list string := cands ((parsed_files g).*2 ≫= file_symbols) name.
Definition node_moniker (n : Node) : string := moniker_build (node_path n) (node_symbol n).

Lemma cross_edges_sound ids r r' g h : repo_ok g → repo_ok h →
  ∃ l, cross_edges_of ids r r' g h = Some l ∧ ∀ u v, (u, v) ∈ l → ∃ file src tgt name, file ∈ (parsed_files g).*2 ∧ refers file src name ∧
    declared_in g name = [] ∧ tgt ∈ declared_in h name ∧ ids !! (r, src) = Some u ∧ ids !! (r', tgt) = Some v.
Proof.
  intros [_ Hg Hfg] [_ Hh Hfh]. unfold cross_edges_of.
  assert (∀ p : string * ParsedFile, ∃ es, resolve_cross_repo (repo_hash g) (repo_hash h) (project_index g) p.2 (project_index h) = Some es ∧
    ∀ e, e ∈ es → ∃ name, refers p.2 (re_source e) name ∧ declared_in g name = [] ∧ re_target e ∈ declared_in h name) as Hfile.
  { intros p. destruct (cross_repo_sound (repo_hash g) (repo_hash h) _ _ p.2 Hfg Hfh) as (ix & fx & es & Hix & Hfx & Hes & Hall).
    rewrite Hg in Hix. rewrite Hh in Hfx. simplify_eq. exists es. split; [done|]. intros e He. by destruct (Hall e He) as [_ ?]. }
  destruct (proj2 (mapM_is_Some (λ p : string * ParsedFile, resolve_cross_repo (repo_hash g) (repo_hash h) (project_index g) p.2 (project_index h)) (parsed_files g))) as [found Hf].
  { apply Forall_forall. intros p _. destruct (Hfile p) as (es & Hes & _). exists es. exact Hes. }
  rewrite Hf. eexists. split; [done|]. intros u v (e & He & Huv)%list_elem_of_omap. apply list_elem_of_join in He as (es & He & Hes).
  apply mapM_Some in Hf. apply list_elem_of_lookup in Hes as [k Hk]. destruct (Forall2_lookup_r _ _ _ _ _ Hf Hk) as (p & Hp & Hr).
  destruct (Hfile p) as (es' & Hr' & Hall). cbn in Hr. rewrite Hr in Hr'. simplify_eq. destruct (Hall e He) as (name & Href & Hn & Ht).
  apply bind_Some in Huv as (u' & Hu & Huv). apply bind_Some in Huv as (v' & Hv & [= <- <-]).
  exists p.2, (re_source e), (re_target e), name. split_and!; try done. apply list_elem_of_fmap. exists p. split; [done|]. by eapply list_elem_of_lookup_2.
Qed.

Definition side (a b : RepoGraph) (r : N) : RepoGraph := if decide (r = 0%N) then a else b.
Definition node_at (a b : RepoGraph) (u : N) (r : N) (n : Node) : Prop := all_repo_nodes a b !! N.to_nat u = Some (r, n).

Lemma all_repo_nodes_unique a b : repo_ok a → repo_ok b → ∀ j k r n m, all_repo_nodes a b !! j = Some (r, n) → all_repo_nodes a b !! k = Some (r, m) → node_id n = node_id m → j = k.
Proof.
  intros [Ha _ _] [Hb _ _] j k r n m Hj Hk He. assert (NoDup ((λ p : N * Node, (p.1, node_id p.2)) <$> all_repo_nodes a b)) as Hnd.
  { unfold all_repo_nodes. rewrite fmap_app, <-!list_fmap_compose. apply NoDup_app. split_and!.
    - apply (NoDup_fmap_2 (λ i, (0%N, i))) in Ha. by rewrite <-list_fmap_compose in Ha.
    - intros x (y & -> & _)%list_elem_of_fmap (z & ? & _)%list_elem_of_fmap. done.
    - apply (NoDup_fmap_2 (λ i, (1%N, i))) in Hb. by rewrite <-list_fmap_compose in Hb. }
  eapply NoDup_lookup; [exact Hnd| |]; rewrite list_lookup_fmap; [rewrite Hj; done|]. rewrite Hk. cbn. by rewrite He.
Qed.
Lemma local_edges_exact a b st r : repo_ok a → repo_ok b → numbered a b (all_repo_nodes a b) st → ∀ u v,
  (u, v) ∈ local_edges_of st r (side a b r) ↔ ∃ n m, node_at a b u r n ∧ node_at a b v r m ∧ (node_id n, node_id m) ∈ repo_edges (side a b r).
Proof.
  intros Ha Hb Hnb u v. unfold local_edges_of. rewrite list_elem_of_omap. split.
  - intros ([x y] & He & Huv). apply bind_Some in Huv as (u' & Hu & Huv). apply bind_Some in Huv as (v' & Hv & [= <- <-]). cbn in *.
    apply (nb_ids _ _ _ _ Hnb) in Hu as (j & n & Hj & <- & ->). apply (nb_ids _ _ _ _ Hnb) in Hv as (k & m & Hk & <- & ->).
    exists n, m. unfold node_at. by rewrite !Nat2N.id.
  - intros (n & m & Hn & Hm & He). exists (node_id n, node_id m). split; [done|]. cbn. unfold node_at in *.
    assert (∀ w q, all_repo_nodes a b !! N.to_nat w = Some (r, q) → composite_ids st !! (r, node_id q) = Some w) as Hw.
    { intros w q Hq. destruct (nb_has _ _ _ _ Hnb r q) as [x Hx]; [by eapply list_elem_of_lookup_2|]. rewrite Hx. f_equal.
      apply (nb_ids _ _ _ _ Hnb) in Hx as (k & q' & Hk & Hid & ->). assert (k = N.to_nat w) as -> by (by eapply (all_repo_nodes_unique a b Ha Hb)). lia. }
    by rewrite (Hw u n Hn), (Hw v m Hm).
Qed.

(** An edge across, between nodes. *)
Lemma cross_nodes a b st r g h u v (l : list (N * N)) : numbered a b (all_repo_nodes a b) st →
  (∀ u v, (u, v) ∈ l → ∃ file src tgt name, file ∈ (parsed_files g).*2 ∧ refers file src name ∧ declared_in g name = [] ∧ tgt ∈ declared_in h name ∧
     moniker_ids st !! (r, src) = Some u ∧ moniker_ids st !! ((1 - r)%N, tgt) = Some v) → (u, v) ∈ l →
  ∃ n m file name, node_at a b u r n ∧ node_at a b v (1 - r) m ∧ file ∈ (parsed_files g).*2 ∧ refers file (node_moniker n) name ∧
    declared_in g name = [] ∧ node_moniker m ∈ declared_in h name.
Proof.
  intros Hnb Hl Huv. destruct (Hl u v Huv) as (file & src & tgt & name & Hf & Hr & Hn & Ht & Hu & Hv).
  apply (nb_monikers _ _ _ _ Hnb) in Hu as (j & n & Hj & -> & ->). apply (nb_monikers _ _ _ _ Hnb) in Hv as (k & m & Hk & -> & ->).
  exists n, m, file, name. unfold node_at. by rewrite !Nat2N.id.
Qed.
Definition positions (a b : RepoGraph) : list N := N.of_nat <$> seq 0 (length (all_repo_nodes a b)).
Lemma node_at_position a b u r n : node_at a b u r n → u ∈ positions a b.
Proof. intros Hn%lookup_lt_Some. apply list_elem_of_fmap. exists (N.to_nat u). rewrite N2Nat.id. split; [done|]. apply elem_of_seq. lia. Qed.
(** The cycles of edges between the nodes. *)
Lemma cycles_exact a b st edges : numbered a b (all_repo_nodes a b) st → (N.of_nat (length (all_repo_nodes a b)) ≤ u32_MAX)%N →
  (∀ u v, (u, v) ∈ edges → v ∈ positions a b) →
  ∃ cycles, link_cycles st edges = Some cycles ∧
    (∀ c, c ∈ cycles → 1 < length c ∧ NoDup c ∧ ∀ x y, x ∈ c → y ∈ c ↔ rtc (edge_in edges) x y ∧ rtc (edge_in edges) y x) ∧
    (∀ x y, x ∈ positions a b → x ≠ y → rtc (edge_in edges) x y → rtc (edge_in edges) y x → ∃ c, c ∈ cycles ∧ x ∈ c ∧ y ∈ c).
Proof.
  intros Hnb Hfit Hends. unfold link_cycles. rewrite (nb_keys _ _ _ _ Hnb), length_fmap. fold (positions a b).
  assert (N.of_nat (size (scc_universe (positions a b) edges)) ≤ u32_MAX)%N as Hsize.
  { assert (scc_universe (positions a b) edges ⊆ list_to_set (positions a b)) as Hsub.
    { unfold scc_universe. apply union_least; [done|]. intros v. rewrite !elem_of_list_to_set. intros ([u w] & -> & Huw)%list_elem_of_fmap. by eapply Hends. }
    apply subseteq_size in Hsub. pose proof (size_list_to_set_le (positions a b)). unfold positions in *. rewrite length_fmap, length_seq in *. lia. }
  destruct (tarjan_scc_spec (positions a b) edges Hsize) as (comps & -> & _ & Hnd & Hall & Hscc). eexists. split; [done|]. split.
  - intros c [Hlen Hc]%list_elem_of_filter. split_and!; [done| |by intros; apply Hscc].
    apply list_elem_of_split in Hc as (l1 & l2 & ->). rewrite concat_app in Hnd. cbn in Hnd. apply NoDup_app in Hnd as (_ & _ & Hnd). by apply NoDup_app in Hnd as (? & _).
  - intros x y Hx Hne Hxy Hyx. assert (x ∈ concat comps) as Hin by (apply Hall; by exists x). apply list_elem_of_In, in_concat in Hin as (c & Hc%list_elem_of_In & Hxc%list_elem_of_In).
    assert (y ∈ c) as Hyc by (by apply (Hscc c x y)). exists c. split_and!; [|done|done]. apply list_elem_of_filter. split; [|done].
    destruct c as [|z [|w c]]; [by apply not_elem_of_nil in Hxc| |cbn; lia]. apply list_elem_of_singleton in Hxc, Hyc. congruence.
Qed.

(** C37: the graph of a link is exact.  Its edges within a repository are those the
    repository stores between its nodes; every edge across comes from a reference
    of a file to a name that its own repository does not declare and the other
    does; and the reported cycles are the strongly connected components with more
    than one node of all of them. *)
Theorem link_graph_exact a b : repo_ok a → repo_ok b → (N.of_nat (length (repo_nodes a) + length (repo_nodes b)) ≤ u32_MAX)%N →
  ∃ g, link_graph_of a b = Some g ∧
    let edges := lg_local g ++ lg_cross g in
    composite_keys (lg_composite g) = key_of a b <$> all_repo_nodes a b ∧
    (∀ u v, (u, v) ∈ lg_local g ↔ ∃ r n m, (r = 0 ∨ r = 1)%N ∧ node_at a b u r n ∧ node_at a b v r m ∧ (node_id n, node_id m) ∈ repo_edges (side a b r)) ∧
    (∀ u v, (u, v) ∈ lg_cross g → ∃ r n m file name, (r = 0 ∨ r = 1)%N ∧ node_at a b u r n ∧ node_at a b v (1 - r) m ∧
       file ∈ (parsed_files (side a b r)).*2 ∧ refers file (node_moniker n) name ∧
       declared_in (side a b r) name = [] ∧ node_moniker m ∈ declared_in (side a b (1 - r)) name) ∧
    (∀ c, c ∈ lg_cycles g → 1 < length c ∧ NoDup c ∧ ∀ x y, x ∈ c → y ∈ c ↔ rtc (edge_in edges) x y ∧ rtc (edge_in edges) y x) ∧
    (∀ x y r n, node_at a b x r n → x ≠ y → rtc (edge_in edges) x y → rtc (edge_in edges) y x → ∃ c, c ∈ lg_cycles g ∧ x ∈ c ∧ y ∈ c).
Proof.
  intros Ha Hb Hfit. pose proof (compose_numbered a b Hfit) as Hnb. set (st := compose_repos a b) in *.
  destruct (cross_edges_sound (moniker_ids st) 0 1 a b Ha Hb) as (l & Hl & Hls). destruct (cross_edges_sound (moniker_ids st) 1 0 b a Hb Ha) as (k & Hk & Hks).
  assert (∀ u v, (u, v) ∈ local_edges st a b ↔ ∃ r n m, (r = 0 ∨ r = 1)%N ∧ node_at a b u r n ∧ node_at a b v r m ∧ (node_id n, node_id m) ∈ repo_edges (side a b r)) as Hlocal.
  { intros u v. unfold local_edges. rewrite elem_of_app. rewrite (local_edges_exact a b st 0 Ha Hb Hnb u v), (local_edges_exact a b st 1 Ha Hb Hnb u v). split.
    - intros [(n & m & ?)|(n & m & ?)]; [exists 0%N, n, m|exists 1%N, n, m]; auto.
    - intros (r & n & m & [->| ->] & ?); [left|right]; eauto. }
  assert (∀ u v, (u, v) ∈ l ++ k → ∃ r n m file name, (r = 0 ∨ r = 1)%N ∧ node_at a b u r n ∧ node_at a b v (1 - r) m ∧
       file ∈ (parsed_files (side a b r)).*2 ∧ refers file (node_moniker n) name ∧ declared_in (side a b r) name = [] ∧ node_moniker m ∈ declared_in (side a b (1 - r)) name) as Hcross.
  { intros u v [Huv|Huv]%elem_of_app; [destruct (cross_nodes a b st 0 a b u v l Hnb Hls Huv) as (n & m & file & name & ?)|destruct (cross_nodes a b st 1 b a u v k Hnb Hks Huv) as (n & m & file & name & ?)].
    - exists 0%N, n, m, file, name. auto.
    - exists 1%N, n, m, file, name. auto. }
  destruct (cycles_exact a b st (local_edges st a b ++ l ++ k) Hnb) as (cycles & Hc & Hcs & Hcc).
  { unfold all_repo_nodes. rewrite length_app, !length_fmap. done. }
  { intros u v [(r & n & m & _ & _ & Hm & _)%Hlocal|(r & n & m & file & name & _ & _ & Hm & _)%Hcross]%elem_of_app; by eapply node_at_position. }
  exists (mkLinkGraph st (local_edges st a b) (l ++ k) cycles). unfold link_graph_of, resolve_cross_repo_edges. fold st. rewrite Hl, Hk. cbn [mbind option_bind]. rewrite Hc.
  split; [done|]. cbn [lg_local lg_cross lg_cycles lg_composite]. split_and!; [apply Hnb|done|done|done|].
  intros x y r n Hx. by apply Hcc, (node_at_position a b x r n).
Qed.

(** ** Examples *)

(** [f] of one repository calls [g] of the other, which calls back. *)
Definition tiny_file (path symbol callee : string) : ParsedFile :=
  mkParsed [ProjectIndex.mkCard (moniker_build path symbol) symbol Function 1 2 ("fn " +:+ symbol)] [mkCall (moniker_build path symbol) callee false] [].
Definition tiny_hash (s : string) : N := N.of_nat (String.length s).
Definition tiny_repo (lbl path symbol callee : string) : RepoGraph :=
  let file := tiny_file path symbol callee in
  mkRepo lbl [mkNode 7 "local" path symbol "function" 1 2 ""] [] tiny_hash (default new (foldlM (add_file tiny_hash) [file] new)) [(path, file)].
Definition repo_f : RepoGraph := tiny_repo "left" "a.rs" "f" "g".
Definition repo_g : RepoGraph := tiny_repo "right" "b.rs" "g" "f".
Lemma tiny_repo_ok lbl path symbol callee :
  (is_Some (foldlM (add_file tiny_hash) [tiny_file path symbol callee] new)) → fits (file_symbols (tiny_file path symbol callee)) → repo_ok (tiny_repo lbl path symbol callee).
Proof.
  intros [ix Hix] Hf. split; cbn [tiny_repo repo_nodes parsed_files repo_hash project_index].
  - apply NoDup_singleton.
  - cbn [fmap list_fmap snd]. by rewrite Hix.
  - cbn [fmap list_fmap snd mbind list_bind]. by rewrite app_nil_r.
Qed.

Lemma link_graph_exact_witness :
  ∃ g, link_graph_of repo_f repo_g = Some g ∧ lg_cross g = [(0, 1); (1, 0)]%N ∧ lg_cycles g = [[1; 0]]%N ∧
    ∀ c, c ∈ lg_cycles g → 1 < length c ∧ NoDup c ∧ ∀ x y, x ∈ c → y ∈ c ↔ rtc (edge_in (lg_local g ++ lg_cross g)) x y ∧ rtc (edge_in (lg_local g ++ lg_cross g)) y x.
Proof.
  destruct (link_graph_exact repo_f repo_g) as (g & Hg & _ & _ & _ & Hc & _).
  - apply tiny_repo_ok; [vm_compute; eauto|split; vm_compute; discriminate].
  - apply tiny_repo_ok; [vm_compute; eauto|split; vm_compute; discriminate].
  - vm_compute. discriminate.
  - exists g. vm_compute in Hg. simplify_eq. split_and!; [vm_compute; reflexivity|reflexivity|reflexivity|exact Hc].
Defined.

(** Two declarations of one name and signature are two nodes of the report and one
    row of the composite graph that is kept. *)
Definition twin (line : N) : Node := mkNode line "left" "a.rs" "A::fmt" "method" line line "fn fmt(&self)".
Example persisted_twins_merge :
  match persist_composite_graph [twin 1; twin 9] [] [] with Some (Ok db) => size (nodes db) | _ => 0 end = 1.
Proof. vm_compute. reflexivity. Qed.
