(* ===== verification/Markdown.v ===== *)
(** * Markdown notes (weave-graph-parse: markdown.rs)

    Front matter, wikilinks, headings and code references of a note.  The events of
    the CommonMark parser are a parameter; what the source makes of them, the
    reading of front matter and the scan for wikilinks are written out. *)

From S2P Require Import Prelude Str Extract.

Definition nl : ascii := "010"%char.

(** src/crates/weave-graph-parse/src/markdown.rs:10-14 [Wikilink] *)
Record Wikilink := mkLink { link_target : string; link_section : option string }.
(** src/crates/weave-graph-parse/src/markdown.rs:17-29 [ParsedMarkdown] *)
Record ParsedMarkdown := mkMarkdown {
  tags : list string;
  aliases : list string;
  links : list Wikilink;
  headings : list string;
  code_refs : list string;
}.
(** The events the source looks at. *)
Inductive Event := Code (text : string) | Text (text : string) | StartHeading | EndHeading | OtherEvent.

(** src/crates/weave-graph-parse/src/markdown.rs:79-90 [split_frontmatter] *)
Definition split_frontmatter (source : string) : option string * string :=
  match strip_prefix ("---" +:+ String nl "") source with
  | None => (None, source)
  | Some rest =>
      match split_once rest (String nl "---") with
      | None => (None, source)
      | Some (frontmatter, after) => (Some frontmatter, default after (strip_prefix (String nl "") after))
      end
  end.

(** src/crates/weave-graph-parse/src/markdown.rs:92-94 [unquote] *)
Definition unquote (s : string) : string := trim_matches (one_of ["'"]%char) (trim_matches (one_of [dquote]) (trim s)).

(** src/crates/weave-graph-parse/src/markdown.rs:118-125 [extract_yaml_list]
    The items of a list in the lines that follow. *)
Fixpoint yaml_items (ls : list string) : list string :=
  match ls with
  | [] => []
  | l :: ls => match strip_prefix "- " (trim_start_by is_space l) with Some item => unquote item :: yaml_items ls | None => [] end
  end.
(** src/crates/weave-graph-parse/src/markdown.rs:102-129 [extract_yaml_list] *)
Fixpoint yaml_list (key : string) (ls : list string) : list string :=
  match ls with
  | [] => []
  | l :: ls =>
      match rest ← strip_prefix key l; strip_prefix ":" (trim_start_by is_space rest) with
      | None => yaml_list key ls
      | Some rest =>
          let rest := trim rest in
          match strip_prefix "[" rest ≫= strip_suffix "]" with
          | Some inline => filter (λ s, is_empty s = false) (unquote <$> split_char ","%char inline)
          | None => if is_empty rest then yaml_items ls else [unquote rest]
          end
      end
  end.
(** src/crates/weave-graph-parse/src/markdown.rs:100-130 [extract_yaml_list] *)
Definition extract_yaml_list (frontmatter key : string) : list string := yaml_list key (lines frontmatter).

(** src/crates/weave-graph-parse/src/markdown.rs:143-152 [scan_wikilinks]
    What stands between the brackets. *)
Definition link_of (inner : string) : option Wikilink :=
  let inner := trim inner in
  if is_empty inner then None else
  let '(target, section) := match split_once inner "#" with Some (t, s) => (trim t, Some (trim s)) | None => (inner, None) end in
  if is_empty target then None else Some (mkLink target section).
(** src/crates/weave-graph-parse/src/markdown.rs:138-157 [scan_wikilinks]
    On the text from the current position on; every round moves forward. *)
Fixpoint scan_from (fuel : nat) (text : string) : list Wikilink :=
  match fuel, text with
  | S fuel, String _ rest =>
      match after ← strip_prefix "[[" text; split_once after "]]" with
      | Some (inner, next) => match link_of inner with Some l => l :: scan_from fuel next | None => scan_from fuel next end
      | None => scan_from fuel rest
      end
  | _, _ => []
  end.
(** src/crates/weave-graph-parse/src/markdown.rs:134-159 [scan_wikilinks] *)
Definition scan_wikilinks (text : string) : list Wikilink := scan_from (String.length text) text.

(** src/crates/weave-graph-parse/src/markdown.rs:47-48 [parse_markdown] *)
Record md_state := mkMd { md_headings : list string; md_code_refs : list string; text_buffer : string; in_heading : option string }.
(** src/crates/weave-graph-parse/src/markdown.rs:63-63 [parse_markdown]
    A closing sequence of number signs is not part of the heading. *)
Definition heading_text (h : string) : string := trim (trim_end_by (λ a, bool_decide (a = "#"%char)) (trim h)).
(** src/crates/weave-graph-parse/src/markdown.rs:50-70 [parse_markdown] *)
Definition md_event (st : md_state) (e : Event) : md_state :=
  match e with
  | Code t => mkMd (md_headings st) (md_code_refs st ++ [t]) (text_buffer st) (in_heading st)
  | Text t => match in_heading st with
              | Some h => mkMd (md_headings st) (md_code_refs st) (text_buffer st) (Some (h +:+ t))
              | None => mkMd (md_headings st) (md_code_refs st) (text_buffer st +:+ t) None
              end
  | StartHeading => mkMd (md_headings st) (md_code_refs st) (text_buffer st) (Some "")
  | EndHeading => match in_heading st with
                  | Some h => mkMd (if is_empty (heading_text h) then md_headings st else md_headings st ++ [heading_text h]) (md_code_refs st) (text_buffer st) None
                  | None => st
                  end
  | OtherEvent => st
  end.
(** src/crates/weave-graph-parse/src/markdown.rs:31-74 [parse_markdown] *)
Definition parse_markdown (parser : string → list Event) (source : string) : ParsedMarkdown :=
  let '(frontmatter, body) := split_frontmatter source in
  let field key := match frontmatter with Some fm => extract_yaml_list fm key | None => [] end in
  let st := foldl md_event (mkMd [] [] "" None) (parser body) in
  mkMarkdown (field "tags") (field "aliases") (scan_wikilinks (text_buffer st)) (md_headings st) (md_code_refs st).

(** ** Trimming *)

Lemma trim_start_shrinks p s : String.length (trim_start_by p s) ≤ String.length s ∧ (String.length s ≤ String.length (trim_start_by p s) → trim_start_by p s = s).
Proof. induction s as [|a s [IH _]]; [done|]. cbn. destruct (p a); [|done]. split; [lia|]. intros ?. lia. Qed.
Lemma trim_end_shrinks p s : String.length (trim_end_by p s) ≤ String.length s.
Proof. induction s as [|a s IH]; [done|]. cbn. destruct (trim_end_by p s); [destruct (p a)|]; cbn in *; lia. Qed.
Lemma trimmed_ends s : trim s = s → trim_start_by is_space s = s ∧ trim_end_by is_space s = s.
Proof.
  intros Ht. destruct (trim_start_shrinks is_space s) as [Hl He]. pose proof (trim_end_shrinks is_space (trim_start_by is_space s)) as Hl'.
  fold (trim s) in Hl'. rewrite Ht in Hl'. specialize (He Hl'). split; [done|]. unfold trim in Ht. by rewrite He in Ht.
Qed.
Lemma trim_end_app p a b : trim_end_by p b ≠ "" → trim_end_by p (a +:+ b) = a +:+ trim_end_by p b.
Proof.
  intros Hb. induction a as [|c a IH]; [done|]. change (String c a +:+ b) with (String c (a +:+ b)). cbn [trim_end_by]. rewrite IH.
  change (String c a +:+ trim_end_by p b) with (String c (a +:+ trim_end_by p b)). by destruct a, (trim_end_by p b).
Qed.
Lemma trim_start_app p a b : a ≠ "" → trim_start_by p a = a → trim_start_by p (a +:+ b) = a +:+ b.
Proof.
  destruct a as [|c a]; [done|]. intros _. cbn [trim_start_by]. change (String c a +:+ b) with (String c (a +:+ b)). cbn [trim_start_by].
  destruct (p c) eqn:Hc; [|done]. intros He. destruct (trim_start_shrinks p a) as [Hl _]. rewrite He in Hl. cbn in Hl. lia.
Qed.
(** Text that starts and ends with something other than white space. *)
Lemma trim_framed a b c : a ≠ "" → trim_start_by is_space a = a → trim_end_by is_space c = c → c ≠ "" → trim (a +:+ b +:+ c) = a +:+ b +:+ c.
Proof.
  intros Hne Ha Hc Hcne. unfold trim. rewrite (trim_start_app is_space a (b +:+ c) Hne Ha). rewrite <- append_assoc.
  rewrite trim_end_app by (by rewrite Hc). by rewrite Hc.
Qed.

(** A separator is not found before its first character. *)
Lemma split_once_past c p a s : no_char c a → split_once (a +:+ s) (String c p) = (λ lr : string * string, (a +:+ lr.1, lr.2)) <$> split_once s (String c p).
Proof.
  induction a as [|x a IH]; intros Ha.
  - change ("" +:+ s) with s. destruct (split_once s (String c p)) as [[l r]|]; done.
  - apply no_char_cons in Ha as [Hx Ha]. change (String x a +:+ s) with (String x (a +:+ s)). cbn [split_once strip_prefix].
    rewrite decide_False by done. rewrite (IH Ha), <- option_fmap_compose. done.
Qed.
Lemma split_once_here s pat r : strip_prefix pat s = Some r → split_once s pat = Some ("", r).
Proof. intros Hs. destruct s; cbn [split_once]; by rewrite Hs. Qed.
Lemma strip_prefix_self p r : strip_prefix p (p +:+ r) = Some r.
Proof. by apply strip_prefix_Some. Qed.
Lemma split_once_before c p a r : no_char c a → split_once (a +:+ String c p +:+ r) (String c p) = Some (a, r).
Proof.
  intros Ha. rewrite (split_once_past c p a _ Ha), (split_once_here _ _ r) by apply strip_prefix_self. cbn. by rewrite append_nil_r.
Qed.

(** ** Wikilinks *)

Lemma scan_from_enough fuel : ∀ text, String.length text ≤ fuel → scan_from fuel text = scan_wikilinks text.
Proof.
  unfold scan_wikilinks. induction fuel as [fuel IH] using lt_wf_ind. intros text Hl. destruct text as [|c rest].
  { by destruct fuel. }
  destruct fuel as [|fuel]; [cbn in Hl; lia|]. cbn [String.length scan_from]. cbn in Hl.
  destruct (after ← strip_prefix "[[" (String c rest); split_once after "]]") as [[inner next]|] eqn:Hs.
  - apply bind_Some in Hs as (after & Ha & Hs). apply strip_prefix_Some in Ha. apply split_once_sound in Hs. subst after.
    assert (String.length (String c rest) = String.length inner + String.length next + 4) as Hlen.
    { rewrite Ha, !length_append. cbn [String.length]. lia. }
    cbn [String.length] in Hlen. rewrite (IH fuel) by lia. destruct (decide (String.length rest = fuel)) as [->|]; [|rewrite (IH (String.length rest)) by lia; done].
    rewrite (IH fuel) by lia. done.
  - rewrite (IH fuel) by lia. done.
Qed.
Lemma scan_cons c rest : (∀ inner next, String c rest ≠ "[[" +:+ inner +:+ "]]" +:+ next) → scan_wikilinks (String c rest) = scan_wikilinks rest.
Proof.
  intros Hno. unfold scan_wikilinks at 1. cbn [String.length scan_from].
  destruct (after ← strip_prefix "[[" (String c rest); split_once after "]]") as [[inner next]|] eqn:Hs; [|by apply scan_from_enough].
  apply bind_Some in Hs as (after & Ha%strip_prefix_Some & Hs%split_once_sound). subst after. by apply Hno in Ha.
Qed.
Lemma scan_plain t s : no_char "["%char t → scan_wikilinks (t +:+ s) = scan_wikilinks s.
Proof.
  induction t as [|c t IH]; intros Ht; [done|]. apply no_char_cons in Ht as [Hc Ht].
  change (String c t +:+ s) with (String c (t +:+ s)). rewrite scan_cons; [by apply IH|]. intros inner next Heq. by injection Heq.
Qed.
Lemma scan_link inner next : no_char "]"%char inner →
  scan_wikilinks ("[[" +:+ inner +:+ "]]" +:+ next) = match link_of inner with Some l => l :: scan_wikilinks next | None => scan_wikilinks next end.
Proof.
  intros Hi. assert ((after ← strip_prefix "[[" ("[[" +:+ inner +:+ "]]" +:+ next); split_once after "]]") = Some (inner, next)) as Hs.
  { rewrite strip_prefix_self. cbn [mbind option_bind]. apply (split_once_before "]"%char "]"), Hi. }
  unfold scan_wikilinks at 1. remember ("[[" +:+ inner +:+ "]]" +:+ next) as text eqn:Ht. destruct text as [|c rest]; [done|].
  cbn [String.length scan_from]. rewrite Hs.
  assert (String.length (String c rest) = String.length inner + String.length next + 4) as Hlen by (rewrite Ht, !length_append; cbn [String.length]; lia).
  cbn [String.length] in Hlen. rewrite scan_from_enough by lia. done.
Qed.

(** A link as it is written. *)
Definition print_link (l : Wikilink) : string := link_target l +:+ match link_section l with Some s => "#" +:+ s | None => "" end.
Record clean_link (l : Wikilink) : Prop := {
  cl_target : link_target l ≠ "" ∧ trim (link_target l) = link_target l;
  cl_section s : link_section l = Some s → trim s = s;
  cl_hash : no_char "#"%char (link_target l);
  cl_bracket : no_char "]"%char (print_link l);
}.
Lemma link_of_print l : clean_link l → link_of (print_link l) = Some l.
Proof.
  intros [[Hne Ht] Hsec Hh _]. destruct l as [target section]. unfold link_of, print_link. cbn [link_target link_section] in *. cbv zeta.
  destruct (trimmed_ends _ Ht) as [Hstart Hend]. destruct section as [s|].
  - specialize (Hsec s eq_refl). destruct (trimmed_ends _ Hsec) as [_ Hse].
    assert (trim (target +:+ "#" +:+ s) = target +:+ "#" +:+ s) as ->.
    { destruct s as [|c s]; [apply (trim_framed target "" "#"); done|]. by apply (trim_framed target "#"). }
    destruct (is_empty (target +:+ "#" +:+ s)) eqn:He; [by destruct target|]. rewrite (split_once_before "#"%char "" target s Hh), Ht, Hsec.
    by destruct target.
  - rewrite append_nil_r, Ht. replace (is_empty target) with false by (by destruct target).
    rewrite <- (append_nil_r target) at 1. rewrite (split_once_past "#"%char "" target "" Hh). cbn. by destruct target.
Qed.

(** Text with links in it: what stands before each, and what follows. *)
Definition linked_text (l : list (string * Wikilink)) (tail : string) : string :=
  foldr (λ p s, p.1 +:+ "[[" +:+ print_link p.2 +:+ "]]" +:+ s) tail l.

(** Writing links into running text and scanning it gives back exactly these
    links, in order: whatever stands around them that has no opening bracket adds
    none and hides none, and the scan ends. *)
Theorem wikilinks_roundtrip l tail : Forall (λ p, no_char "["%char p.1 ∧ clean_link p.2) l → no_char "["%char tail →
  scan_wikilinks (linked_text l tail) = l.*2.
Proof.
  intros Hl Ht. induction Hl as [|[t k] l [Hp Hk] _ IH]; cbn [linked_text foldr fst snd fmap list_fmap].
  - rewrite <- (append_nil_r tail), scan_plain by done. done.
  - rewrite scan_plain, scan_link by (done || apply Hk). rewrite link_of_print by done. by f_equal.
Qed.

(** ** Front matter *)

Definition print_list (key : string) (l : list string) : string := key +:+ ": [" +:+ join ", " l +:+ "]".
Definition print_note (ts als : list string) (body : string) : string :=
  "---" +:+ String nl "" +:+ print_list "tags" ts +:+ String nl "" +:+ print_list "aliases" als +:+ String nl "---" +:+ String nl "" +:+ body.
(** A name that needs no quotes. *)
Record plain_name (s : string) : Prop := {
  pn_nonempty : s ≠ "";
  pn_unquoted : unquote s = s;
  pn_trimmed : trim s = s;
  pn_comma : no_char ","%char s;
  pn_line : no_char nl s;
}.
Lemma unquote_spaced s : plain_name s → unquote (" " +:+ s) = s.
Proof. intros Hs. unfold unquote. change (trim (" " +:+ s)) with (trim s). apply Hs. Qed.
Lemma unquote_joined l : Forall plain_name l → l ≠ [] → unquote <$> split_char ","%char (join ", " l) = l.
Proof.
  assert (∀ l p, Forall plain_name l → l ≠ [] → (p = "" ∨ p = " ") → unquote <$> split_char ","%char (p +:+ join ", " l) = l) as Hgen.
  { clear l. induction l as [|x l IH]; intros p Hl Hne Hp; [done|]. apply Forall_cons in Hl as [Hx Hl].
    assert (no_char ","%char (p +:+ x)) as Hc by (apply no_char_append; split; [by destruct Hp as [->| ->]|apply Hx]).
    assert (unquote (p +:+ x) = x) as Hu by (destruct Hp as [->| ->]; [apply Hx|by apply unquote_spaced]).
    destruct l as [|y l].
    - cbn [join]. rewrite split_char_one by done. cbn. by rewrite Hu.
    - change (join ", " (x :: y :: l)) with (x +:+ String "," (" " +:+ join ", " (y :: l))). rewrite <- append_assoc, split_char_cons by done.
      rewrite fmap_cons, Hu. f_equal. apply IH; auto. }
  intros Hl Hne. by apply (Hgen l ""); auto.
Qed.
Lemma print_list_line key l : no_char nl key → Forall plain_name l → no_char nl (print_list key l).
Proof.
  intros Hk Hl. unfold print_list. rewrite !no_char_append. split_and!; [done|done| |done].
  induction Hl as [|x l Hx Hl IH]; [done|]. cbn [join]. destruct l; [apply Hx|]. rewrite !no_char_append. split_and!; [apply Hx|done|done].
Qed.
(** The line of a key is read back, whatever follows. *)
Lemma yaml_list_here key l ls : Forall plain_name l → yaml_list key (print_list key l :: ls) = l.
Proof.
  intros Hl. unfold print_list. cbn [yaml_list]. rewrite strip_prefix_self. cbn [mbind option_bind].
  change (": [" +:+ join ", " l +:+ "]") with (":" +:+ " [" +:+ join ", " l +:+ "]"). rewrite trim_start_app by done. rewrite strip_prefix_self.
  assert (trim (" [" +:+ join ", " l +:+ "]") = "[" +:+ join ", " l +:+ "]") as ->.
  { change (trim (" [" +:+ join ", " l +:+ "]")) with (trim ("[" +:+ join ", " l +:+ "]")). by apply trim_framed. }
  rewrite strip_prefix_self. cbn [mbind option_bind]. assert (strip_suffix "]" (join ", " l +:+ "]") = Some (join ", " l)) as -> by (by apply strip_suffix_Some).
  destruct (decide (l = [])) as [->|Hne]; [done|]. rewrite unquote_joined by done.
  induction Hl as [|x l Hx Hl IH]; [done|]. rewrite filter_cons_True by (pose proof (pn_nonempty _ Hx); by destruct x). f_equal.
  destruct l; [done|]. by apply IH.
Qed.
Lemma lines_two a b : no_char nl a → no_char nl b → (∃ r, a = r +:+ "]") → b ≠ "" → lines (a +:+ String nl "" +:+ b) = [a; b].
Proof.
  intros Ha Hb [r Hr] Hne. unfold lines. change (a +:+ String nl "" +:+ b) with (a +:+ String nl b). rewrite split_char_cons, split_char_one by done.
  cbn [unterminate]. replace (strip_suffix (String "013" "") a) with (@None string); [by destruct b|].
  symmetry. destruct (strip_suffix _ a) as [x|] eqn:Hs; [|done]. apply strip_suffix_Some in Hs. rewrite Hr in Hs.
  clear -Hs. exfalso. revert x Hs. induction r as [|c r IH]; intros [|y x] Hs; cbn in Hs; simplify_eq.
  - by destruct x.
  - by destruct r.
  - by eapply IH.
Qed.

(** The front matter of a note is read back: a note written with tags and
    aliases that need no quotes parses to these tags and aliases, and to the links,
    headings and code references of its body alone. *)
Theorem front_matter_roundtrip parser ts als body : Forall plain_name ts → Forall plain_name als →
  let st := foldl md_event (mkMd [] [] "" None) (parser body) in
  parse_markdown parser (print_note ts als body) = mkMarkdown ts als (scan_wikilinks (text_buffer st)) (md_headings st) (md_code_refs st).
Proof.
  intros Hts Hals st.
  pose proof (print_list_line "tags" ts eq_refl Hts) as Ht. pose proof (print_list_line "aliases" als eq_refl Hals) as Hal.
  set (T := print_list "tags" ts) in *. set (A := print_list "aliases" als) in *.
  assert (split_frontmatter (print_note ts als body) = (Some (T +:+ String nl "" +:+ A), body)) as Hsplit.
  { unfold split_frontmatter, print_note. fold T A. rewrite <- append_assoc, strip_prefix_self.
    rewrite (split_once_past nl "---" T _ Ht).
    change (String nl "" +:+ A +:+ String nl "---" +:+ String nl "" +:+ body) with (String nl (A +:+ String nl "---" +:+ String nl "" +:+ body)).
    cbn [split_once]. replace (strip_prefix (String nl "---") (String nl (A +:+ String nl "---" +:+ String nl "" +:+ body))) with (@None string) by done.
    rewrite (split_once_before nl "---" A _ Hal). cbn [fmap option_fmap option_map fst snd]. rewrite strip_prefix_self. done. }
  unfold parse_markdown. rewrite Hsplit. fold st. unfold extract_yaml_list.
  assert (lines (T +:+ String nl "" +:+ A) = [T; A]) as ->.
  { apply lines_two; try done. exists ("tags: [" +:+ join ", " ts). unfold T, print_list. by rewrite !append_assoc. }
  unfold T, A. rewrite yaml_list_here by done. f_equal.
  change (yaml_list "aliases" [print_list "tags" ts; print_list "aliases" als]) with (yaml_list "aliases" [print_list "aliases" als]). by apply yaml_list_here.
Qed.

(** ** Examples *)

Example two_links : scan_wikilinks "see [[Auth#Login flow]] and [[ Other ]], not [[]] or [x]" = [mkLink "Auth" (Some "Login flow"); mkLink "Other" None].
Proof. vm_compute. reflexivity. Qed.
Example tags_of_a_note :
  tags (parse_markdown (λ _, []) (print_note ["auth"; "design notes"] [] "text")) = ["auth"; "design notes"].
Proof. vm_compute. reflexivity. Qed.
(** A number sign that ends a heading is taken for a closing sequence. *)
Example heading_loses_sharp : headings (parse_markdown (λ _, [StartHeading; Text "Intro to C#"; EndHeading]) "") = ["Intro to C"].
Proof. vm_compute. reflexivity. Qed.
(** The text of a heading is not scanned for links. *)
Example link_in_heading_lost : links (parse_markdown (λ _, [StartHeading; Text "See [[Other]]"; EndHeading]) "") = [].
Proof. vm_compute. reflexivity. Qed.
