(* ===== verification/Docs.v ===== *)
(** * Markdown notes in the graph (weave-graph-cli: docs.rs)

    A note is a node, its tags and aliases are topic nodes, the headings links
    point at are section nodes; edges join a note to its topics, to the notes and
    sections it links and to the code it mentions.  Files are named relative to the
    root, with their parsed text. *)

From S2P Require Import Prelude Str Language Model ProjectIndex SqlStore SqlProofs SqlReindex Reindex ReindexProofs Http Contract Markdown.

Definition DOC_NOTE_KIND : string := "doc_note".
Definition DOC_TOPIC_KIND : string := "doc_topic".
Definition DOC_SECTION_KIND : string := "doc_section".

(** src/crates/weave-graph-cli/src/docs.rs:25-30 [is_markdown] *)
Definition is_markdown (path : string) : bool := bool_decide (extension path = Some "md" ∨ extension path = Some "markdown").
(** src/crates/weave-graph-cli/src/docs.rs:39-44 [stem]
    [Path::file_stem]: the file name without its extension. *)
Definition stem (rel : string) : string :=
  match file_name rel with
  | None => rel
  | Some f => match rsplit_once f "." with Some (s, _) => if decide (s = "") then f else s | None => f end
  end.
(** src/crates/weave-graph-cli/src/docs.rs:50-60 [parse_markdown_files]
    [read] is the file system; a file that cannot be read is skipped. *)
Definition parse_markdown_files (read : string → option string) (parser : string → list Event) (files : list string) : list (string * ParsedMarkdown) :=
  omap (λ p, src ← read p; Some (p, parse_markdown parser src)) (filter (λ p, is_markdown p = true) files).

(** src/crates/weave-graph-cli/src/docs.rs:73-82 [upsert_doc_nodes]
    A row that has no lines. *)
Definition doc_row (path symbol kind : string) : Node := mkNode 0 "local" path symbol kind 0 0 "".
(** src/crates/weave-graph-cli/src/docs.rs:73-82 [upsert_doc_nodes] *)
Definition note_node (rel : string) : Node := doc_row rel (stem rel) DOC_NOTE_KIND.
(** src/crates/weave-graph-cli/src/docs.rs:85-94 [upsert_doc_nodes] *)
Definition topic_node (tag : string) : Node := doc_row "" tag DOC_TOPIC_KIND.
(** src/crates/weave-graph-cli/src/docs.rs:341-351 [section_target] *)
Definition section_node (path section : string) : Node := doc_row path (stem path +:+ "#" +:+ section) DOC_SECTION_KIND.
Definition doc_tags (doc : ParsedMarkdown) : list string := tags doc ++ aliases doc.

(** src/crates/weave-graph-cli/src/docs.rs:162-166 [normalize_code_ref] *)
Definition normalize_code_ref (raw : string) : string :=
  let trimmed := trim raw in
  replace_char "."%char "::" (default trimmed (strip_suffix "()" trimmed)).
(** src/crates/weave-graph-cli/src/docs.rs:168-173 [dir_of]
    On a path of the index: components separated by single slashes. *)
Definition dir_of (path : string) : string :=
  match rsplit_once path "/" with Some (d, _) => if decide (d = "") then "/" else d | None => "" end.

(** src/crates/weave-graph-cli/src/docs.rs:107-107 [SymbolIndex] *)
Definition SymbolIndex : Type := gmap string (list (NodeId * string)).
(** [map.entry(key).or_default().push(x)]. *)
Definition push_under (key : Node → string) (m : SymbolIndex) (n : Node) : SymbolIndex :=
  <[key n := default [] (m !! key n) ++ [(node_id n, node_path n)]]> m.
(** src/crates/weave-graph-cli/src/docs.rs:123-135 [doc_note_ids_by_title] *)
Definition grouped (key : Node → string) (ns : list Node) : SymbolIndex := foldl (push_under key) ∅ ns.
(** src/crates/weave-graph-cli/src/docs.rs:317-324 [topic_id_by_symbol]
    Collecting pairs into a map: the last of a key stays. *)
Definition collected (key : Node → string) (ns : list Node) : gmap string NodeId := foldl (λ m n, <[key n := node_id n]> m) ∅ ns.

(** src/crates/weave-graph-cli/src/docs.rs:144-146 [code_symbol_ids] *)
Definition is_code (n : Node) : Prop := node_kind n ≠ DOC_NOTE_KIND ∧ node_kind n ≠ DOC_TOPIC_KIND ∧ node_kind n ≠ DOC_SECTION_KIND.
#[global] Instance is_code_dec n : Decision (is_code n).
Proof. unfold is_code. apply _. Defined.
(** src/crates/weave-graph-cli/src/docs.rs:180-191 [disambiguate] *)
Definition disambiguate (candidates : list (NodeId * string)) (note_dir : string) : list NodeId :=
  let same_dir := fst <$> filter (λ c : NodeId * string, dir_of c.2 = note_dir) candidates in
  if decide (length same_dir = 1) then same_dir else fst <$> candidates.
(** src/crates/weave-graph-cli/src/docs.rs:193-207 [resolve_code_ref] *)
Definition resolve_code_ref (raw : string) (by_full by_short : SymbolIndex) (note_dir : string) : option (list NodeId) :=
  let normalized := normalize_code_ref raw in
  candidates ← match by_full !! normalized with Some ids => Some ids | None => by_short !! short_name_of normalized end;
  Some (disambiguate candidates note_dir).

(** src/crates/weave-graph-cli/src/docs.rs:225-232 [upsert_doc_edges]
    The maps a run reads once: [doc_note_id_by_path], [doc_note_ids_by_title],
    [code_symbol_ids], [topic_id_by_symbol] and the headings. *)
Record doc_maps := mkMaps {
  note_id_by_path : gmap string NodeId;
  note_ids_by_title : SymbolIndex;
  code_by_full : SymbolIndex;
  code_by_short : SymbolIndex;
  topic_ids : gmap string NodeId;
  headings_by_path : gmap string (list string);
}.
(** src/crates/weave-graph-cli/src/docs.rs:109-160 [doc_note_id_by_path, doc_note_ids_by_title, code_symbol_ids] *)
Definition read_maps (ns : list Node) (all_parsed : list (string * ParsedMarkdown)) : doc_maps :=
  let of_kind k := filter (λ n, node_kind n = k) ns in
  mkMaps (collected node_path (of_kind DOC_NOTE_KIND)) (grouped node_symbol (of_kind DOC_NOTE_KIND))
    (grouped node_symbol (filter is_code ns)) (grouped (λ n, short_name_of (node_symbol n)) (filter is_code ns))
    (collected node_symbol (of_kind DOC_TOPIC_KIND)) (foldl (λ m p, <[p.1 := headings p.2]> m) ∅ all_parsed).

(** What one iteration of the inner loops does: an edge to a node, or to a heading
    of a note. *)
Inductive doc_action :=
| EdgeTo (source target : NodeId) (kind : string)
| SectionOf (source note : NodeId) (path section : string).

(** src/crates/weave-graph-cli/src/docs.rs:263-279 [upsert_doc_edges]
    One candidate of a link: a heading that exists narrows the target. *)
Definition link_action (m : doc_maps) (source : NodeId) (section : option string) (t : NodeId * string) : option doc_action :=
  if decide (t.1 = source) then None else
  Some (match section with
        | Some s => if existsb (λ h, eq_ignore_ascii_case h s) (default [] (headings_by_path m !! t.2)) then SectionOf source t.1 t.2 s else EdgeTo source t.1 "LINKS_TO"
        | None => EdgeTo source t.1 "LINKS_TO"
        end).
(** src/crates/weave-graph-cli/src/docs.rs:235-313 [upsert_doc_edges]
    What a note asks for, in order: its topics, its links, the code it mentions. *)
Definition note_actions (m : doc_maps) (p : string * ParsedMarkdown) : list doc_action :=
  match note_id_by_path m !! p.1 with
  | None => []
  | Some source =>
      omap (λ tag, t ← topic_ids m !! tag; Some (EdgeTo source t "TAGGED")) (doc_tags p.2) ++
      (links p.2 ≫= λ l, omap (link_action m source (link_section l)) (default [] (note_ids_by_title m !! link_target l))) ++
      (code_refs p.2 ≫= λ raw, (λ t, EdgeTo source t "EXPLAINS_RATIONALE") <$>
         default [] (resolve_code_ref raw (code_by_full m) (code_by_short m) (dir_of p.1)))
  end.

Section docs.
Context `{Sqlite}.

(** src/crates/weave-graph-cli/src/docs.rs:65-99 [upsert_doc_nodes] *)
Definition upsert_doc_nodes (db : Db) (parsed : list (string * ParsedMarkdown)) : Db * result nat StorageError :=
  match try_loop upsert_node (parsed ≫= λ p, note_node p.1 :: (topic_node <$> doc_tags p.2)) db with
  | (db, Ok ids) => (db, Ok (length ids))
  | (db, Err e) => (db, Err e)
  end.

Definition doc_edge (source target : NodeId) (kind : string) : Edge := mkEdge 0 source target kind one_f64 None None.
(** src/crates/weave-graph-cli/src/docs.rs:264-289 [upsert_doc_edges, section_target]
    The node of the heading is made or found first. *)
Definition do_action (db : Db) (a : doc_action) : Db * result EdgeId StorageError :=
  match a with
  | EdgeTo source target kind => upsert_edge db (doc_edge source target kind)
  | SectionOf source note path section =>
      match upsert_node db (section_node path section) with
      | (db, Ok target) => upsert_edge db (doc_edge source target "LINKS_TO")
      | (db, Err e) => (db, Err e)
      end
  end.
(** src/crates/weave-graph-cli/src/docs.rs:220-315 [upsert_doc_edges] *)
Definition upsert_doc_edges (db : Db) (all_parsed : list (string * ParsedMarkdown)) : Db * result nat StorageError :=
  match all_nodes db with
  | Err e => (db, Err e)
  | Ok ns =>
      let m := read_maps ns all_parsed in
      match try_loop do_action (all_parsed ≫= note_actions m) db with
      | (db, Ok es) => (db, Ok (length es))
      | (db, Err e) => (db, Err e)
      end
  end.
(** src/crates/weave-graph-cli/src/docs.rs:358-360 [gc_orphaned_doc_topics] *)
Definition gc_orphaned_doc_topics (db : Db) : Db * result N StorageError := purge_orphaned_nodes_by_kind db DOC_TOPIC_KIND.
End docs.

(** ** The rows of notes *)

Inductive doc_shape (n : Node) : Prop :=
| shape_note rel : rel ≠ "" → n = with_id (note_node rel) (node_id n) → doc_shape n
| shape_topic tag : n = with_id (topic_node tag) (node_id n) → doc_shape n
| shape_section path section : path ≠ "" → n = with_id (section_node path section) (node_id n) → doc_shape n.
(** Rows of the kinds of notes, and rows without a line, are those of notes: code
    starts at line one. *)
Definition doc_rows (db : Db) : Prop :=
  ∀ i n, nodes db !! i = Some n → ¬ is_code n ∨ (node_repo_id n = "local" ∧ node_line_start n = 0%N) → doc_shape n.

Lemma stem_not_section path section : stem path ≠ stem path +:+ "#" +:+ section.
Proof. intros He. apply (f_equal String.length) in He. rewrite !length_append in He. cbn in He. lia. Qed.
Lemma doc_shape_key a b : doc_shape a → doc_shape b → node_path a = node_path b → node_symbol a = node_symbol b → a = with_id b (node_id a).
Proof.
  intros Ha Hb Hp Hs. destruct Ha as [rel Hr Ha|tag Ha|path sec Hr Ha], Hb as [rel' Hr' Hb|tag' Hb|path' sec' Hr' Hb];
    rewrite Ha, Hb in Hp, Hs |- *; cbn in Hp, Hs; try congruence; subst; try done.
  - by apply stem_not_section in Hs.
  - symmetry in Hs. by apply stem_not_section in Hs.
  - apply append_inv_head in Hs. by simplify_eq.
Qed.
Lemma doc_shape_fields n : doc_shape n → node_repo_id n = "local" ∧ node_line_start n = 0%N ∧ ¬ is_code n.
Proof. intros [rel _ ->|tag ->|path sec _ ->]; split_and!; try done; unfold is_code; cbn; intuition done. Qed.
Lemma with_id_shape n i : doc_shape n → doc_shape (with_id n i).
Proof. intros [rel Hr ->|tag ->|path sec Hr ->]; [by eapply shape_note|by eapply shape_topic|by eapply shape_section]. Qed.

Definition has_edge (db : Db) (s t : NodeId) (k : string) : Prop := ∃ i e, edges db !! i = Some e ∧ source_id e = s ∧ target_id e = t ∧ edge_kind e = k.
Definition row_at (db : Db) (n : Node) (i : NodeId) : Prop := nodes db !! i = Some (with_id n i).

Section proofs.
Context `{SqliteLaws} (Hfk : foreign_keys = true).

Lemma row_unique db n i j : db_ok db → row_at db n i → row_at db n j → i = j.
Proof. intros Hok Hi Hj. eapply (no_key _ (do_nodes _ Hok)); [exact Hi|exact Hj|]. by apply same_key_true. Qed.

(** Writing a row of a note finds it or makes it; nothing else changes. *)
Lemma upsert_doc_row db n : db_ok db → doc_rows db → doc_shape n →
  ∃ id db', upsert_node db n = (db', Ok id) ∧ db_ok db' ∧ doc_rows db' ∧ nodes db' = <[id := with_id n id]> (nodes db) ∧ edges db' = edges db ∧
    (nodes db !! id = None ∨ row_at db n id).
Proof.
  intros Hok Hrows Hn. pose proof (upsert_one_node_cases db n Hok) as Hc. destruct (doc_shape_fields n Hn) as (Hrepo & Hline & Hcode).
  assert (∀ m i, nodes db !! i = Some m → m ∈ candidates db n → m = with_id n i) as Hcand.
  { intros m i Hi (_ & ? & ? & ? & Hk)%elem_of_candidates. rewrite <- (no_id _ (do_nodes _ Hok) _ _ Hi). apply doc_shape_key; [|done..].
    eapply Hrows; [exact Hi|]. left. unfold is_code in *. by rewrite Hk. }
  unfold upsert_node, upsert_nodes. cbn [try_loop]. destruct (upsert_one_node db n) as [db' [id|e]].
  - destruct Hc as (Hok' & Hns & Hes & Hold). exists id, db'. split_and!; try done.
    + intros i m Hi Hm. rewrite Hns in Hi. apply lookup_insert_Some in Hi as [[<- <-]|[_ Hi]]; [by apply with_id_shape|by eapply Hrows].
    + destruct (existing _ n) as [m|] eqn:He; [right|by left]. apply existing_elem in He as [He _]. unfold row_at. by rewrite <- (Hcand m id Hold He).
  - exfalso. destruct Hc as (_ & _ & j & m & Hj & Hkey & Hne). apply same_key_true in Hkey as (Hr & Hp & Hs & Hl).
    assert (doc_shape m) as Hm by (eapply Hrows; [exact Hj|right; split; congruence]).
    pose proof (doc_shape_key m n Hm Hn Hp Hs) as Heq. rewrite (no_id _ (do_nodes _ Hok) _ _ Hj) in Heq.
    assert (m ∈ candidates db n) as Hmc by (apply elem_of_candidates; split; [by exists j|]; by rewrite Heq).
    destruct (existing (candidates db n) n) as [x|] eqn:He.
    + apply existing_elem in He as [He _]. destruct (proj1 (elem_of_candidates _ _ _) He) as ([i Hi] & _).
      apply Hne. f_equal. pose proof (Hcand x i Hi He) as Hx. rewrite Hx in Hi. rewrite Heq in Hj. pose proof (row_unique db n i j Hok Hi Hj). congruence.
    + destruct (proj1 (existing_None _ _) He m Hmc) as [_ Hl']. done.
Qed.
Lemma upsert_doc_edge db e : db_ok db → is_Some (nodes db !! source_id e) → is_Some (nodes db !! target_id e) →
  ∃ id db', upsert_edge db e = (db', Ok id) ∧ db_ok db' ∧ nodes db' = nodes db ∧
    ∀ s t k, has_edge db' s t k ↔ has_edge db s t k ∨ (s = source_id e ∧ t = target_id e ∧ k = edge_kind e).
Proof.
  intros Hok Hs Ht. destruct (upsert_edge_row db e Hok Hs Ht) as (id & Hu & Hrow & _). pose proof (upsert_edge_ok db e Hfk Hok) as Hok'. rewrite Hu in Hok' |- *.
  eexists id, _. split; [done|]. split_and!; [apply Hok'|done|]. intros s t k. unfold has_edge. cbn [edges with_edges]. split.
  - intros (i & f & Hi & <- & <- & <-). apply lookup_insert_Some in Hi as [[<- <-]|[_ Hi]]; [by right|left; by exists i, f].
  - intros [(i & f & Hi & <- & <- & <-)|(-> & -> & ->)].
    + destruct (decide (i = id)) as [->|Hne].
      * destruct (proj1 (same_edge_true _ _) (Hrow f Hi)) as (-> & -> & ->). exists id, (with_edge_id e id). by rewrite lookup_insert_eq.
      * exists i, f. by rewrite lookup_insert_ne.
    + exists id, (with_edge_id e id). by rewrite lookup_insert_eq.
Qed.

(** ** Actions *)

Definition action_ok (db : Db) (a : doc_action) : Prop :=
  match a with
  | EdgeTo s t k => is_Some (nodes db !! s) ∧ is_Some (nodes db !! t)
  | SectionOf s n path section => is_Some (nodes db !! s) ∧ path ≠ ""
  end.
(** The edge an action asks for. *)
Definition effect (db : Db) (a : doc_action) (s t : NodeId) (k : string) : Prop :=
  match a with
  | EdgeTo s' t' k' => s = s' ∧ t = t' ∧ k = k'
  | SectionOf s' n path section => s = s' ∧ row_at db (section_node path section) t ∧ k = "LINKS_TO"
  end.
Definition new_row (acts : list doc_action) (n : Node) : Prop :=
  ∃ s m path section, SectionOf s m path section ∈ acts ∧ n = with_id (section_node path section) (node_id n).

Lemma action_ok_mono db db' a : nodes db ⊆ nodes db' → action_ok db a → action_ok db' a.
Proof.
  intros Hsub. assert (∀ i, is_Some (nodes db !! i) → is_Some (nodes db' !! i)) as Hi by (intros i [x Hx]; exists x; by eapply lookup_weaken).
  destruct a; cbn; intuition auto.
Qed.
Lemma do_action_exact db a : db_ok db → doc_rows db → action_ok db a →
  ∃ id db', do_action db a = (db', Ok id) ∧ db_ok db' ∧ doc_rows db' ∧ nodes db ⊆ nodes db' ∧
    (∀ i m, nodes db' !! i = Some m → nodes db !! i = Some m ∨ new_row [a] m) ∧ (∃ s t k, effect db' a s t k) ∧ ∀ s t k, has_edge db' s t k ↔ has_edge db s t k ∨ effect db' a s t k.
Proof.
  intros Hok Hrows Ha. destruct a as [s t k|s n path section]; cbn [do_action action_ok effect] in *.
  - destruct Ha as [Hs Ht]. destruct (upsert_doc_edge db (doc_edge s t k) Hok Hs Ht) as (id & db' & -> & Hok' & Hn & He).
    exists id, db'. split_and!; try done; [intros i m Hi; rewrite Hn in Hi; by eapply Hrows|by rewrite Hn|rewrite Hn; by left|]. by exists s, t, k.
  - destruct Ha as [Hs Hp]. destruct (upsert_doc_row db (section_node path section) Hok Hrows (shape_section _ path section Hp eq_refl)) as (t & db1 & -> & Hok1 & Hrows1 & Hn1 & He1 & Hold).
    assert (nodes db ⊆ nodes db1) as Hsub.
    { rewrite Hn1. apply map_subseteq_spec. intros i x Hi. destruct (decide (i = t)) as [->|]; [|by rewrite lookup_insert_ne]. rewrite lookup_insert_eq.
      destruct Hold as [Hold|Hold]; [congruence|]. unfold row_at in Hold. congruence. }
    assert (row_at db1 (section_node path section) t) as Hrow by (unfold row_at; by rewrite Hn1, lookup_insert_eq).
    destruct (upsert_doc_edge db1 (doc_edge s t "LINKS_TO") Hok1) as (id & db' & -> & Hok' & Hn & He).
    { destruct Hs as [x Hx]. exists x. by eapply lookup_weaken. }
    { eexists. exact Hrow. }
    exists id, db'. split_and!; try done; [intros i m Hi; rewrite Hn in Hi; by eapply Hrows1|by rewrite Hn| | |].
    + intros i m Hi. rewrite Hn, Hn1 in Hi. apply lookup_insert_Some in Hi as [[<- <-]|[_ Hi]]; [right|by left]. exists s, n, path, section. split; [by left|done].
    + exists s, t, "LINKS_TO". split_and!; try done. unfold row_at. by rewrite Hn.
    + intros s' t' k'. rewrite He. unfold has_edge at 1. rewrite He1. fold (has_edge db s' t' k'). cbn [source_id target_id edge_kind doc_edge].
      assert (row_at db' (section_node path section) t' ↔ t' = t) as Ht'; [|rewrite Ht'; naive_solver].
      unfold row_at. rewrite Hn. split; [|intros ->; exact Hrow]. intros Hr. by apply (row_unique db1 (section_node path section)).
Qed.
Lemma effect_mono db db' a s t k : db_ok db' → nodes db ⊆ nodes db' → (∃ s' t' k', effect db a s' t' k') → effect db' a s t k ↔ effect db a s t k.
Proof.
  intros Hok Hsub (s0 & t' & k0 & Ht'). destruct a as [|s' n path section]; [done|]. cbn in *. destruct Ht' as (_ & Hr & _). split; intros (? & Hr' & ?); split_and!; try done.
  - pose proof (lookup_weaken _ _ _ _ Hr Hsub) as Hr2. by rewrite (row_unique db' _ t t' Hok Hr' Hr2).
  - by eapply lookup_weaken.
Qed.
Lemma do_actions_exact acts : ∀ db, db_ok db → doc_rows db → (∀ a, a ∈ acts → action_ok db a) →
  ∃ es db', try_loop do_action acts db = (db', Ok es) ∧ db_ok db' ∧ doc_rows db' ∧ nodes db ⊆ nodes db' ∧ length es = length acts ∧
    (∀ i m, nodes db' !! i = Some m → nodes db !! i = Some m ∨ new_row acts m) ∧ (∀ a, a ∈ acts → ∃ s t k, effect db' a s t k) ∧
    ∀ s t k, has_edge db' s t k ↔ has_edge db s t k ∨ ∃ a, a ∈ acts ∧ effect db' a s t k.
Proof.
  induction acts as [|a acts IH]; intros db Hok Hrows Hacts; cbn [try_loop].
  { exists [], db. split_and!; try done; [by left|by intros a ?%not_elem_of_nil|]. intros s t k. split; [by left|]. intros [?|(a & []%not_elem_of_nil & _)]; done. }
  destruct (do_action_exact db a Hok Hrows (Hacts a (list_elem_of_here _ _))) as (id & db1 & -> & Hok1 & Hrows1 & Hsub1 & Hnew1 & Hex & He1).
  destruct (IH db1 Hok1 Hrows1) as (es & db' & -> & Hok' & Hrows' & Hsub & Hlen & Hnew & Hmade & He).
  { intros b Hb. eapply action_ok_mono; [exact Hsub1|]. apply Hacts. by right. }
  assert ((∀ m, new_row [a] m → new_row (a :: acts) m) ∧ ∀ m, new_row acts m → new_row (a :: acts) m) as [Hnr1 Hnr2].
  { split; intros m (s & n & p & sec & Hin & Hm); exists s, n, p, sec; (split; [|done]); [apply list_elem_of_singleton in Hin as ->; by left|by right]. }
  exists (id :: es), db'. split_and!; try done; [by etrans|cbn; lia| | |].
  - intros i m Hi. destruct (Hnew i m Hi) as [Hi1|?]; [|right; by apply Hnr2]. destruct (Hnew1 i m Hi1); [by left|right; by apply Hnr1].
  - intros b [->|Hb]%elem_of_cons; [|by apply Hmade]. destruct Hex as (s & t & k & Hx). exists s, t, k. apply (effect_mono db1 db' a s t k Hok' Hsub); [by exists s, t, k|done].
  - intros s t k. rewrite He, He1. setoid_rewrite elem_of_cons. split.
    + intros [[?|Ha]|(b & Hb & Hbe)]; [by left|right; exists a; split; [by left|]|right; exists b; auto]. by apply (effect_mono db1 db' a s t k Hok' Hsub Hex).
    + intros [?|(b & [->|Hb] & Hbe)]; [auto| |right; by exists b]. left. right. by apply (effect_mono db1 db' a s t k Hok' Hsub Hex).
Qed.

(** ** What the notes ask for *)

Definition note_at (db : Db) (rel : string) (s : NodeId) : Prop := row_at db (note_node rel) s.
Definition stored_code (db : Db) (n : Node) : Prop := (∃ i, nodes db !! i = Some n) ∧ is_code n.
(** The section is a heading of the note. *)
Definition heading_of (parsed : list (string * ParsedMarkdown)) (path section : string) : Prop :=
  ∃ doc h, (path, doc) ∈ parsed ∧ h ∈ headings doc ∧ eq_ignore_ascii_case h section = true.
(** A symbol with the full name, or with the last part of it where none has that. *)
Definition code_candidate (db : Db) (raw : string) (n : Node) : Prop :=
  stored_code db n ∧ let name := normalize_code_ref raw in
  (node_symbol n = name ∨ (∀ m, stored_code db m → node_symbol m ≠ name) ∧ short_name_of (node_symbol n) = short_name_of name).
(** The candidate in the directory of the note, if there is one such; all of them
    otherwise. *)
Definition mentions (db : Db) (raw dir : string) (t : NodeId) : Prop :=
  ∃ n, code_candidate db raw n ∧ node_id n = t ∧
    ((∃ m, code_candidate db raw m ∧ dir_of (node_path m) = dir ∧ ∀ m', code_candidate db raw m' → dir_of (node_path m') = dir → m' = m) → dir_of (node_path n) = dir).
Inductive asked (db db' : Db) (parsed : list (string * ParsedMarkdown)) : NodeId → NodeId → string → Prop :=
| asked_topic rel doc s tag t : (rel, doc) ∈ parsed → note_at db rel s → tag ∈ doc_tags doc → row_at db (topic_node tag) t → asked db db' parsed s t "TAGGED"
| asked_note rel doc s l path t : (rel, doc) ∈ parsed → note_at db rel s → l ∈ links doc → note_at db path t → stem path = link_target l → t ≠ s →
    (∀ section, link_section l = Some section → ¬ heading_of parsed path section) → asked db db' parsed s t "LINKS_TO"
| asked_section rel doc s l path n section t : (rel, doc) ∈ parsed → note_at db rel s → l ∈ links doc → note_at db path n → stem path = link_target l → n ≠ s →
    link_section l = Some section → heading_of parsed path section → row_at db' (section_node path section) t → asked db db' parsed s t "LINKS_TO"
| asked_code rel doc s raw t : (rel, doc) ∈ parsed → note_at db rel s → raw ∈ code_refs doc → mentions db raw (dir_of rel) t → asked db db' parsed s t "EXPLAINS_RATIONALE".

(** The heading of a note that some other note links by its section. *)
Definition linked_heading (db : Db) (parsed : list (string * ParsedMarkdown)) (path section : string) : Prop :=
  heading_of parsed path section ∧ ∃ rel doc s l n, (rel, doc) ∈ parsed ∧ note_at db rel s ∧ l ∈ links doc ∧
    note_at db path n ∧ stem path = link_target l ∧ n ≠ s ∧ link_section l = Some section.
(** A note mentions a symbol that lies in a directory whose path ends with that of
    the note's, as [src/notes] does for [notes]. *)
Definition lookalike (db : Db) (parsed : list (string * ParsedMarkdown)) (s : NodeId) : Prop :=
  ∃ rel doc raw n above, (rel, doc) ∈ parsed ∧ note_at db rel s ∧ raw ∈ code_refs doc ∧ code_candidate db raw n ∧
    dir_of (node_path n) = above +:+ "/" +:+ dir_of rel.

(** ** The maps *)

Lemma grouped_lookup key ns k : grouped key ns !! k =
  match filter (λ n, key n = k) ns with [] => None | l => Some ((λ n, (node_id n, node_path n)) <$> l) end.
Proof.
  unfold grouped. induction ns as [|n ns IH] using rev_ind; [done|]. rewrite foldl_snoc, filter_app, filter_cons, filter_nil.
  set (m := foldl _ ∅ ns) in *. unfold push_under. unfold SymbolIndex in *. case_decide as Hk.
  - rewrite Hk, lookup_insert_eq, IH. destruct (filter _ ns) as [|x l]; [done|]. cbn. by rewrite fmap_app.
  - rewrite lookup_insert_ne, IH, app_nil_r by done. done.
Qed.
Lemma grouped_elem key ns k i path : (i, path) ∈ default [] (grouped key ns !! k) ↔ ∃ n, n ∈ ns ∧ key n = k ∧ node_id n = i ∧ node_path n = path.
Proof.
  assert (default [] (grouped key ns !! k) = (λ n, (node_id n, node_path n)) <$> filter (λ n, key n = k) ns) as ->.
  { rewrite grouped_lookup. by destruct (filter _ ns). }
  rewrite list_elem_of_fmap. setoid_rewrite list_elem_of_filter. naive_solver.
Qed.
Lemma collected_lookup key ns k i : collected key ns !! k = Some i → ∃ n, n ∈ ns ∧ key n = k ∧ node_id n = i.
Proof.
  unfold collected. induction ns as [|n ns IH] using rev_ind; [done|]. rewrite foldl_snoc. setoid_rewrite elem_of_app.
  intros [[<- <-]|[_ Hi]]%lookup_insert_Some; [exists n; split; [right; by left|done]|]. destruct (IH Hi) as (m & ? & ?). exists m. auto.
Qed.
Lemma collected_has key ns n : n ∈ ns → is_Some (collected key ns !! key n).
Proof.
  unfold collected. induction ns as [|m ns IH] using rev_ind; [by intros ?%not_elem_of_nil|]. rewrite foldl_snoc.
  intros [Hn| ->%list_elem_of_singleton]%elem_of_app; [|by rewrite lookup_insert_eq]. apply lookup_insert_is_Some. destruct (decide (key m = key n)); auto.
Qed.
(** Keys that name one row. *)
Lemma collected_iff key ns k i : (∀ n m, n ∈ ns → m ∈ ns → key n = key m → n = m) → collected key ns !! k = Some i ↔ ∃ n, n ∈ ns ∧ key n = k ∧ node_id n = i.
Proof.
  intros Hinj. split; [apply collected_lookup|]. intros (n & Hn & <- & <-). destruct (collected_has key ns n Hn) as [j Hj]. rewrite Hj. f_equal.
  destruct (collected_lookup _ _ _ _ Hj) as (m & Hm & Hk & <-). by rewrite (Hinj m n Hm Hn Hk).
Qed.

Section reading.
Context (db : Db) (Hok : db_ok db) (Hrows : doc_rows db) (ns : list Node) (Hns : all_nodes db = Ok ns).

Lemma elem_of_all n : n ∈ ns ↔ nodes db !! node_id n = Some n.
Proof.
  cbn in Hns. unfold sql_all_nodes in Hns. simplify_eq. rewrite sort_by_perm, select_order_perm, elem_of_rows. split; [|eauto].
  intros [i Hi]. by rewrite (no_id _ (do_nodes _ Hok) _ _ Hi).
Qed.
Lemma NoDup_all : NoDup ns.
Proof.
  cbn in Hns. unfold sql_all_nodes in Hns. simplify_eq. rewrite sort_by_perm, select_order_perm. unfold rows.
  apply NoDup_fmap_2_strong, NoDup_map_to_list. intros [i x] [j y] Hx%elem_of_map_to_list Hy%elem_of_map_to_list Heq. cbn in *. subst.
  by rewrite <- (no_id _ (do_nodes _ Hok) _ _ Hx), <- (no_id _ (do_nodes _ Hok) _ _ Hy).
Qed.
Lemma stored_elem n : n ∈ ns ↔ ∃ i, nodes db !! i = Some n.
Proof. rewrite elem_of_all. split; [eauto|]. intros [i Hi]. by rewrite (no_id _ (do_nodes _ Hok) _ _ Hi). Qed.
Lemma elem_of_kind_note n : n ∈ filter (λ n, node_kind n = DOC_NOTE_KIND) ns ↔ n = with_id (note_node (node_path n)) (node_id n) ∧ note_at db (node_path n) (node_id n).
Proof.
  rewrite list_elem_of_filter, elem_of_all. unfold note_at, row_at. split; [|intros [He Hn]; rewrite <- He in Hn; split; [by rewrite He|done]].
  intros [Hk Hn]. assert (n = with_id (note_node (node_path n)) (node_id n)) as He; [|by rewrite <- He].
  destruct (Hrows _ _ Hn) as [rel _ He|tag He|path sec _ He]; [unfold is_code; left; intuition congruence| | |]; rewrite He in Hk |- *; done.
Qed.
Lemma elem_of_kind_topic n : n ∈ filter (λ n, node_kind n = DOC_TOPIC_KIND) ns ↔ n = with_id (topic_node (node_symbol n)) (node_id n) ∧ row_at db (topic_node (node_symbol n)) (node_id n).
Proof.
  rewrite list_elem_of_filter, elem_of_all. unfold row_at. split; [|intros [He Hn]; rewrite <- He in Hn; split; [by rewrite He|done]].
  intros [Hk Hn]. assert (n = with_id (topic_node (node_symbol n)) (node_id n)) as He; [|by rewrite <- He].
  destruct (Hrows _ _ Hn) as [rel _ He|tag He|path sec _ He]; [unfold is_code; left; intuition congruence| | |]; rewrite He in Hk |- *; done.
Qed.
Lemma note_path_nonempty rel s : note_at db rel s → rel ≠ "".
Proof.
  intros Hs. destruct (Hrows _ _ Hs) as [rel' Hr He|tag He|path sec _ He]; [by left; unfold is_code; cbn; intuition| | |].
  - apply (f_equal node_path) in He. cbn in He. by subst.
  - by apply (f_equal node_kind) in He.
  - by apply (f_equal node_kind) in He.
Qed.

Lemma note_ids_iff rel s : collected node_path (filter (λ n, node_kind n = DOC_NOTE_KIND) ns) !! rel = Some s ↔ note_at db rel s.
Proof.
  rewrite collected_iff.
  - setoid_rewrite elem_of_kind_note. split; [by intros (n & [_ Hn] & <- & <-)|]. intros Hs. by exists (with_id (note_node rel) s).
  - intros n m [Hn Hrn]%elem_of_kind_note [Hm Hrm]%elem_of_kind_note Hp. rewrite Hp in Hrn, Hn. rewrite Hn, Hm. f_equal. by apply (row_unique db _ _ _ Hok Hrn).
Qed.
Lemma topic_ids_iff tag t : collected node_symbol (filter (λ n, node_kind n = DOC_TOPIC_KIND) ns) !! tag = Some t ↔ row_at db (topic_node tag) t.
Proof.
  rewrite collected_iff.
  - setoid_rewrite elem_of_kind_topic. split; [by intros (n & [_ Hn] & <- & <-)|]. intros Hs. by exists (with_id (topic_node tag) t).
  - intros n m [Hn Hrn]%elem_of_kind_topic [Hm Hrm]%elem_of_kind_topic Hp. rewrite Hp in Hrn, Hn. rewrite Hn, Hm. f_equal. by apply (row_unique db _ _ _ Hok Hrn).
Qed.
Lemma titles_iff title t path : (t, path) ∈ default [] (grouped node_symbol (filter (λ n, node_kind n = DOC_NOTE_KIND) ns) !! title) ↔ note_at db path t ∧ stem path = title.
Proof.
  rewrite grouped_elem. setoid_rewrite elem_of_kind_note. split.
  - intros (n & [Hn Hr] & <- & <- & <-). split; [done|]. by rewrite Hn at 2.
  - intros [Hr <-]. by exists (with_id (note_node path) t).
Qed.

(** *** Code references *)

Definition candidate_list (raw : string) : list Node :=
  let code := filter is_code ns in
  match filter (λ n, node_symbol n = normalize_code_ref raw) code with
  | [] => filter (λ n, short_name_of (node_symbol n) = short_name_of (normalize_code_ref raw)) code
  | l => l
  end.
Lemma candidate_list_elem raw n : n ∈ candidate_list raw ↔ code_candidate db raw n.
Proof.
  unfold candidate_list, code_candidate. assert (∀ m, m ∈ filter is_code ns ↔ stored_code db m) as Hc by (intros m; rewrite list_elem_of_filter, stored_elem; unfold stored_code; tauto).
  destruct (filter (λ n, node_symbol n = normalize_code_ref raw) (filter is_code ns)) as [|x l] eqn:Hf.
  - rewrite list_elem_of_filter, Hc. assert (∀ m, stored_code db m → node_symbol m ≠ normalize_code_ref raw) as Hno.
    { intros m Hm He. apply (not_elem_of_nil m). rewrite <- Hf. apply list_elem_of_filter. split; [done|by apply Hc]. }
    split; [intros [? ?]; auto|]. intros [Hs [He|[_ ?]]]; [by destruct (Hno n Hs)|done].
  - rewrite <- Hf, list_elem_of_filter, Hc. split; [intros [? ?]; auto|]. intros [Hs [?|[Hno _]]]; [done|].
    assert (x ∈ x :: l) as Hx by left. rewrite <- Hf in Hx. apply list_elem_of_filter in Hx as [He Hx%Hc]. by destruct (Hno x Hx).
Qed.
Lemma NoDup_candidates raw : NoDup (candidate_list raw).
Proof.
  unfold candidate_list. pose proof (NoDup_filter (λ n, node_symbol n = normalize_code_ref raw) _ (NoDup_filter is_code _ NoDup_all)) as Hd.
  destruct (filter _ (filter is_code ns)); [|done]. apply NoDup_filter, NoDup_filter, NoDup_all.
Qed.
Lemma resolve_code_ref_list raw dir :
  default [] (resolve_code_ref raw (grouped node_symbol (filter is_code ns)) (grouped (λ n, short_name_of (node_symbol n)) (filter is_code ns)) dir) =
  disambiguate ((λ n, (node_id n, node_path n)) <$> candidate_list raw) dir.
Proof.
  unfold resolve_code_ref, candidate_list. rewrite !grouped_lookup. destruct (filter _ (filter is_code ns)) as [|x l]; [|done].
  destruct (filter _ (filter is_code ns)) as [|x l]; [|done]. unfold disambiguate. by case_decide.
Qed.
Lemma filter_fmap_list {A B} (f : A → B) (P : B → Prop) `{∀ x, Decision (P x)} (l : list A) : filter P (f <$> l) = f <$> filter (λ x, P (f x)) l.
Proof. induction l as [|x l IH]; [done|]. rewrite fmap_cons, !filter_cons. case_decide; cbn; by rewrite IH. Qed.
Lemma disambiguate_iff (l : list Node) dir t : NoDup l →
  t ∈ disambiguate ((λ n, (node_id n, node_path n)) <$> l) dir ↔ ∃ n, n ∈ l ∧ node_id n = t ∧
    ((∃ m, m ∈ l ∧ dir_of (node_path m) = dir ∧ ∀ m', m' ∈ l → dir_of (node_path m') = dir → m' = m) → dir_of (node_path n) = dir).
Proof.
  intros Hnd. unfold disambiguate. rewrite filter_fmap_list, <- !list_fmap_compose, length_fmap.
  set (near := filter _ l). assert (∀ m, m ∈ near ↔ m ∈ l ∧ dir_of (node_path m) = dir) as Hnear by (intros m; unfold near; rewrite list_elem_of_filter; cbn; tauto).
  assert (NoDup near) as Hnn by (by apply NoDup_filter). case_decide as Hlen.
  - destruct near as [|x [|]] eqn:Hx; [done| |done]. destruct (proj1 (Hnear x)) as [Hxl Hxd]; [left|]. cbn. rewrite list_elem_of_singleton. split.
    + intros ->. by exists x.
    + intros (n & Hn & <- & Hd). f_equal. apply list_elem_of_singleton, Hnear. split; [done|]. apply Hd. exists x. split_and!; [done..|].
      intros m' Hm' Hd'. apply list_elem_of_singleton, Hnear. done.
  - rewrite list_elem_of_fmap. split.
    + intros (n & -> & Hn). exists n. split_and!; [done..|]. intros (m & Hm & Hd & Huniq). exfalso. apply Hlen.
      assert (near ≡ₚ [m]) as ->; [|done]. apply NoDup_Permutation; [done|apply NoDup_singleton|]. intros x. rewrite Hnear, list_elem_of_singleton.
      split; [intros [? ?]; by apply Huniq|by intros ->].
    + intros (n & Hn & <- & _). by exists n.
Qed.
Lemma code_refs_iff raw dir t :
  t ∈ default [] (resolve_code_ref raw (grouped node_symbol (filter is_code ns)) (grouped (λ n, short_name_of (node_symbol n)) (filter is_code ns)) dir) ↔ mentions db raw dir t.
Proof.
  rewrite resolve_code_ref_list, disambiguate_iff by apply NoDup_candidates. unfold mentions. by setoid_rewrite candidate_list_elem.
Qed.

(** *** Headings *)

Lemma headings_lookup (parsed : list (string * ParsedMarkdown)) path hs : NoDup parsed.*1 →
  foldl (λ m p, <[p.1 := headings p.2]> m) (∅ : gmap string (list string)) parsed !! path = Some hs ↔ ∃ doc, (path, doc) ∈ parsed ∧ hs = headings doc.
Proof.
  revert hs. induction parsed as [|[q doc] parsed IH] using rev_ind; intros hs Hnd.
  { cbn. rewrite lookup_empty. split; [done|]. by intros (doc & ?%not_elem_of_nil & _). }
  rewrite fmap_app in Hnd. apply NoDup_app in Hnd as (Hnd & Hq & _). rewrite foldl_snoc. cbn [fst snd]. setoid_rewrite elem_of_app. setoid_rewrite list_elem_of_singleton.
  rewrite lookup_insert_Some, IH by done. split.
  - intros [[-> <-]|[_ (d & ? & ->)]]; eauto.
  - intros (d & [Hd|[= -> ->]] & ->); [right|by left]. split; [|by exists d]. intros ->. apply (Hq path); [|by left]. apply list_elem_of_fmap. by exists (path, d).
Qed.
Lemma heading_matched (parsed : list (string * ParsedMarkdown)) path section : NoDup parsed.*1 →
  existsb (λ h, eq_ignore_ascii_case h section) (default [] (foldl (λ m p, <[p.1 := headings p.2]> m) (∅ : gmap string (list string)) parsed !! path)) = true ↔ heading_of parsed path section.
Proof.
  intros Hnd. pose proof (λ hs, headings_lookup parsed path hs Hnd) as Hl. unfold heading_of. rewrite existsb_exists. setoid_rewrite <- list_elem_of_In.
  destruct (foldl _ _ parsed !! path) as [hs|]; cbn.
  - destruct (proj1 (Hl hs) eq_refl) as (doc & Hdoc & ->). split; [intros (h & ? & ?); eauto|]. intros (d & h & Hd & Hh & He). exists h. split; [|done].
    assert (Some (headings doc) = Some (headings d)) as [= ->]; [|done]. apply Hl. eauto.
  - split; [by intros (h & ?%not_elem_of_nil & _)|]. intros (d & h & Hd & _). assert (None = Some (headings d)); [|done]. apply Hl. eauto.
Qed.

(** *** What the actions amount to *)

Section actions.
Context (parsed : list (string * ParsedMarkdown)) (Hfiles : NoDup parsed.*1).

Lemma elem_of_actions a : a ∈ (parsed ≫= note_actions (read_maps ns parsed)) ↔ ∃ rel doc s, (rel, doc) ∈ parsed ∧ note_at db rel s ∧
  ((∃ tag t, tag ∈ doc_tags doc ∧ row_at db (topic_node tag) t ∧ a = EdgeTo s t "TAGGED") ∨
   (∃ l path t, l ∈ links doc ∧ note_at db path t ∧ stem path = link_target l ∧ t ≠ s ∧
      ((a = EdgeTo s t "LINKS_TO" ∧ ∀ section, link_section l = Some section → ¬ heading_of parsed path section) ∨
       ∃ section, link_section l = Some section ∧ heading_of parsed path section ∧ a = SectionOf s t path section)) ∨
   (∃ raw t, raw ∈ code_refs doc ∧ mentions db raw (dir_of rel) t ∧ a = EdgeTo s t "EXPLAINS_RATIONALE")).
Proof.
  rewrite list_elem_of_bind. assert (∀ p, a ∈ note_actions (read_maps ns parsed) p ↔ ∃ s, note_at db p.1 s ∧
    (a ∈ omap (λ tag, t ← topic_ids (read_maps ns parsed) !! tag; Some (EdgeTo s t "TAGGED")) (doc_tags p.2) ∨
     a ∈ (links p.2 ≫= λ l, omap (link_action (read_maps ns parsed) s (link_section l)) (default [] (note_ids_by_title (read_maps ns parsed) !! link_target l))) ∨
     a ∈ (code_refs p.2 ≫= λ raw, (λ t, EdgeTo s t "EXPLAINS_RATIONALE") <$>
         default [] (resolve_code_ref raw (code_by_full (read_maps ns parsed)) (code_by_short (read_maps ns parsed)) (dir_of p.1))))) as Hacts.
  { intros p. unfold note_actions. cbn [read_maps note_id_by_path]. pose proof (note_ids_iff p.1) as Hid. destruct (collected node_path _ !! p.1) as [s|].
    - rewrite !elem_of_app. split; [intros Ha; exists s; split; [by apply Hid|done]|]. intros (s' & Hs' & Ha). apply Hid in Hs' as [= ->]. done.
    - split; [by intros ?%not_elem_of_nil|]. intros (s' & Hs' & _). by apply Hid in Hs'. }
  setoid_rewrite Hacts. clear Hacts. cbn [read_maps topic_ids note_ids_by_title code_by_full code_by_short].
  assert (∀ p s, a ∈ omap (λ tag, t ← collected node_symbol (filter (λ n, node_kind n = DOC_TOPIC_KIND) ns) !! tag; Some (EdgeTo s t "TAGGED")) (doc_tags p) ↔
    ∃ tag t, tag ∈ doc_tags p ∧ row_at db (topic_node tag) t ∧ a = EdgeTo s t "TAGGED") as Htop.
  { intros p s. rewrite list_elem_of_omap. setoid_rewrite bind_Some. setoid_rewrite topic_ids_iff. naive_solver. }
  assert (∀ p s, a ∈ (links p ≫= λ l, omap (link_action (read_maps ns parsed) s (link_section l)) (default [] (grouped node_symbol (filter (λ n, node_kind n = DOC_NOTE_KIND) ns) !! link_target l))) ↔
    ∃ l path t, l ∈ links p ∧ note_at db path t ∧ stem path = link_target l ∧ t ≠ s ∧
      ((a = EdgeTo s t "LINKS_TO" ∧ ∀ section, link_section l = Some section → ¬ heading_of parsed path section) ∨
       ∃ section, link_section l = Some section ∧ heading_of parsed path section ∧ a = SectionOf s t path section)) as Hlink.
  { intros p s. rewrite list_elem_of_bind. setoid_rewrite list_elem_of_omap.
    assert (∀ l t path, link_action (read_maps ns parsed) s (link_section l) (t, path) = Some a ↔ t ≠ s ∧
      ((a = EdgeTo s t "LINKS_TO" ∧ ∀ section, link_section l = Some section → ¬ heading_of parsed path section) ∨
       ∃ section, link_section l = Some section ∧ heading_of parsed path section ∧ a = SectionOf s t path section)) as Hla.
    { intros l t path. unfold link_action. cbn [fst snd read_maps headings_by_path]. case_decide as Hts; [naive_solver|]. destruct (link_section l) as [sec|]; [|naive_solver].
      pose proof (heading_matched parsed path sec Hfiles) as Hm. destruct (existsb _ _); [|assert (¬ heading_of parsed path sec) by (intros ?%Hm; done)]; naive_solver. }
    split.
    - intros (l & ([t path] & Hin%titles_iff & Ha%Hla) & Hl). destruct Hin as [Hn Ht]. exists l, path, t. tauto.
    - intros (l & path & t & Hl & Hn & Ht & Ha). exists l. split; [|done]. exists (t, path). split; [by apply titles_iff|by apply Hla]. }
  assert (∀ p dir s, a ∈ (code_refs p ≫= λ raw, (λ t, EdgeTo s t "EXPLAINS_RATIONALE") <$>
         default [] (resolve_code_ref raw (grouped node_symbol (filter is_code ns)) (grouped (λ n, short_name_of (node_symbol n)) (filter is_code ns)) dir)) ↔
    ∃ raw t, raw ∈ code_refs p ∧ mentions db raw dir t ∧ a = EdgeTo s t "EXPLAINS_RATIONALE") as Hcode.
  { intros p dir s. rewrite list_elem_of_bind. setoid_rewrite list_elem_of_fmap. setoid_rewrite code_refs_iff. naive_solver. }
  split.
  - intros ([rel doc] & (s & Hs & Ha) & Hp). exists rel, doc, s. split_and!; [done..|]. rewrite Htop, Hlink, Hcode in Ha. exact Ha.
  - intros (rel & doc & s & Hp & Hs & Ha). exists (rel, doc). split; [|done]. exists s. split; [done|]. rewrite Htop, Hlink, Hcode. exact Ha.
Qed.
Lemma actions_ok a : a ∈ (parsed ≫= note_actions (read_maps ns parsed)) → action_ok db a.
Proof.
  rewrite elem_of_actions. assert (∀ n i, row_at db n i → is_Some (nodes db !! i)) as Hrow by (intros n i Hi; eexists; exact Hi).
  intros (rel & doc & s & _ & Hs%Hrow & [(tag & t & _ & Ht%Hrow & ->)|[(l & path & t & _ & Ht & _ & _ & Ha)|(raw & t & _ & (n & [[[i Hi] _] _] & <- & _) & ->)]]); cbn.
  - done.
  - pose proof (note_path_nonempty path t Ht). apply Hrow in Ht. destruct Ha as [[-> _]|(sec & _ & _ & ->)]; done.
  - rewrite (no_id _ (do_nodes _ Hok) _ _ Hi). split; [done|by exists n].
Qed.
Lemma effects_asked db' s t k : (∃ a, a ∈ (parsed ≫= note_actions (read_maps ns parsed)) ∧ effect db' a s t k) ↔ asked db db' parsed s t k.
Proof.
  setoid_rewrite elem_of_actions. split.
  - intros (a & (rel & doc & s' & Hp & Hs & [(tag & t' & ? & ? & ->)|[(l & path & t' & ? & ? & ? & ? & [[-> ?]|(sec & ? & ? & ->)])|(raw & t' & ? & ? & ->)]]) & He); cbn in He.
    + destruct He as (-> & -> & ->). by eapply asked_topic.
    + destruct He as (-> & -> & ->). by eapply asked_note.
    + destruct He as (-> & ? & ->). by eapply asked_section.
    + destruct He as (-> & -> & ->). by eapply asked_code.
  - intros [rel doc s' tag t' Hp Hs ? ?|rel doc s' l path t' Hp Hs ? ? ? ? ?|rel doc s' l path n sec t' Hp Hs ? ? ? ? ? ? ?|rel doc s' raw t' Hp Hs ? ?].
    + exists (EdgeTo s' t' "TAGGED"). split; [|done]. exists rel, doc, s'. split_and!; [done..|]. left. eauto.
    + exists (EdgeTo s' t' "LINKS_TO"). split; [|done]. exists rel, doc, s'. split_and!; [done..|]. right; left. exists l, path, t'. auto 10.
    + exists (SectionOf s' n path sec). split; [|done]. exists rel, doc, s'. split_and!; [done..|]. right; left. exists l, path, n. split_and!; [done..|]. right. by exists sec.
    + exists (EdgeTo s' t' "EXPLAINS_RATIONALE"). split; [|done]. exists rel, doc, s'. split_and!; [done..|]. right; right. eauto.
Qed.
Lemma section_linked s n path sec : SectionOf s n path sec ∈ (parsed ≫= note_actions (read_maps ns parsed)) → linked_heading db parsed path sec.
Proof.
  intros (rel & doc & s' & Hp & Hs & [(? & ? & _ & _ & ?)|[(l & p & t & Hl & Hn & Ht & Hne & [[? _]|(sec' & Hsec & Hh & ?)])|(? & ? & _ & _ & ?)]])%elem_of_actions; simplify_eq.
  split; [done|]. by exists rel, doc, s', l, t.
Qed.
Lemma linked_section path sec : linked_heading db parsed path sec → ∃ s n, SectionOf s n path sec ∈ (parsed ≫= note_actions (read_maps ns parsed)).
Proof.
  intros (Hh & rel & doc & s & l & n & Hp & Hs & Hl & Hn & Ht & Hne & Hsec). exists s, n. apply elem_of_actions. exists rel, doc, s. split_and!; [done..|].
  right; left. exists l, path, n. split_and!; [done..|]. right. by exists sec.
Qed.
End actions.
End reading.
End proofs.

(** C38: The edges of Markdown notes are exactly what the notes ask for.  Whatever
    the database (rows of notes have the form the indexer gives them, files are
    distinct), resolving all notes succeeds, keeps every node and edge, and makes no
    node but those of headings that exist and that another note links by their
    section, each of them once; afterwards an edge is there if it was before, or if a
    note has the tag, links the note (by title, never itself) or, where the heading
    exists, its section, or mentions the code symbol: by full name or else by its last
    part, the one in its own directory where that is unique, all of them otherwise.
    Mentions from a note that names a symbol in a directory whose path merely ends
    with the note's are left out ([lookalike], see [directory_of_same_name]). *)
Theorem doc_edges_exact `{SqliteLaws} db parsed : foreign_keys = true → db_ok db → doc_rows db → NoDup parsed.*1 →
  ∃ db' n, upsert_doc_edges db parsed = (db', Ok n) ∧ db_ok db' ∧ doc_rows db' ∧ nodes db ⊆ nodes db' ∧
    (∀ i m, nodes db' !! i = Some m → nodes db !! i = Some m ∨ ∃ path section, linked_heading db parsed path section ∧ m = with_id (section_node path section) i) ∧
    (∀ path section, linked_heading db parsed path section → exists! i, row_at db' (section_node path section) i) ∧
    ∀ s t k, k ≠ "EXPLAINS_RATIONALE" ∨ ¬ lookalike db parsed s → has_edge db' s t k ↔ has_edge db s t k ∨ asked db db' parsed s t k.
Proof.
  intros Hfk Hok Hrows Hfiles. unfold upsert_doc_edges. destruct (all_nodes db) as [ns|e] eqn:Hns; [|done].
  destruct (do_actions_exact Hfk (parsed ≫= note_actions (read_maps ns parsed)) db Hok Hrows) as (es & db' & -> & Hok' & Hrows' & Hsub & _ & Hnew & Hmade & He).
  { intros a. by apply actions_ok. }
  exists db', (length es). split_and!; try done.
  - intros i m Hi. destruct (Hnew i m Hi) as [?|(s & n & path & sec & Ha & Hm)]; [by left|right]. exists path, sec. rewrite (no_id _ (do_nodes _ Hok') _ _ Hi) in Hm. split; [|done].
    by apply (section_linked db Hok Hrows ns Hns parsed Hfiles s n).
  - intros path sec Hl. destruct (linked_section db Hok Hrows ns Hns parsed Hfiles path sec Hl) as (s & n & Ha).
    destruct (Hmade _ Ha) as (s' & t & k & _ & Ht & _). exists t. split; [done|]. intros t' Ht'. by apply (row_unique db' (section_node path sec)).
  - intros s t k _. rewrite He. by rewrite (effects_asked db Hok Hrows ns Hns parsed Hfiles).
Qed.

(** ** The nodes of notes and topics *)

Definition note_rows (parsed : list (string * ParsedMarkdown)) : list Node := parsed ≫= λ p, note_node p.1 :: (topic_node <$> doc_tags p.2).
Lemma note_rows_shape parsed n : Forall (λ p, p.1 ≠ "") parsed → n ∈ note_rows parsed → doc_shape n ∧ node_id n = 0%N.
Proof.
  intros Hp (p & Hn & Hin)%list_elem_of_bind. rewrite Forall_forall in Hp. apply elem_of_cons in Hn as [->|(tag & -> & _)%list_elem_of_fmap].
  - split; [|done]. by apply (shape_note _ p.1 (Hp _ Hin)).
  - split; [|done]. by apply (shape_topic _ tag).
Qed.
Lemma upsert_rows_exact `{SqliteLaws} ns : ∀ db, db_ok db → doc_rows db → (∀ n, n ∈ ns → doc_shape n) →
  ∃ ids db', try_loop upsert_node ns db = (db', Ok ids) ∧ length ids = length ns ∧ db_ok db' ∧ doc_rows db' ∧ edges db' = edges db ∧ nodes db ⊆ nodes db' ∧
    (∀ n, n ∈ ns → ∃ i, row_at db' n i) ∧ ∀ i m, nodes db' !! i = Some m → nodes db !! i = Some m ∨ ∃ n, n ∈ ns ∧ m = with_id n i.
Proof.
  induction ns as [|n ns IH]; intros db Hok Hrows Hns; cbn [try_loop].
  { exists [], db. split_and!; try done; [by intros n ?%not_elem_of_nil|by left]. }
  destruct (upsert_doc_row db n Hok Hrows) as (id & db1 & -> & Hok1 & Hrows1 & Hn1 & He1 & Hold); [apply Hns; left|].
  assert (nodes db ⊆ nodes db1) as Hsub1.
  { rewrite Hn1. apply map_subseteq_spec. intros i x Hi. destruct (decide (i = id)) as [->|]; [|by rewrite lookup_insert_ne]. rewrite lookup_insert_eq.
    destruct Hold as [Hold|Hold]; [congruence|]. unfold row_at in Hold. congruence. }
  destruct (IH db1 Hok1 Hrows1) as (ids & db' & -> & Hlen & Hok' & Hrows' & He & Hsub & Hhas & Hnew); [intros m Hm; apply Hns; by right|].
  exists (id :: ids), db'. split_and!; try done; [cbn; lia|congruence|by etrans| |].
  - intros m [->|Hm]%elem_of_cons; [|by apply Hhas]. exists id. unfold row_at. eapply lookup_weaken; [|exact Hsub]. by rewrite Hn1, lookup_insert_eq.
  - intros i m Hi. destruct (Hnew i m Hi) as [Hi1|(x & ? & ?)]; [|right; exists x; split; [by right|done]]. rewrite Hn1 in Hi1.
    apply lookup_insert_Some in Hi1 as [[<- <-]|[_ ?]]; [right; exists n; split; [left|done]|by left].
Qed.

(** Indexing notes makes one node per note and one per tag or alias, whichever are
    not there yet, and changes nothing else. *)
Theorem doc_nodes_exact `{SqliteLaws} db parsed : db_ok db → doc_rows db → Forall (λ p, p.1 ≠ "") parsed →
  ∃ db', upsert_doc_nodes db parsed = (db', Ok (length (note_rows parsed))) ∧ db_ok db' ∧ doc_rows db' ∧ edges db' = edges db ∧ nodes db ⊆ nodes db' ∧
    (∀ n, n ∈ note_rows parsed → ∃ i, row_at db' n i) ∧ ∀ i m, nodes db' !! i = Some m → nodes db !! i = Some m ∨ ∃ n, n ∈ note_rows parsed ∧ m = with_id n i.
Proof.
  intros Hok Hrows Hp. unfold upsert_doc_nodes. fold (note_rows parsed).
  destruct (upsert_rows_exact (note_rows parsed) db Hok Hrows) as (ids & db' & -> & -> & Hrest); [intros n Hn; by apply (note_rows_shape parsed)|]. by exists db'.
Qed.

(** The sweep removes exactly the topics no edge points at. *)
Theorem gc_topics_exact `{SqliteLaws} db : foreign_keys = true → db_ok db →
  (∀ i n, nodes db !! i = Some n → node_kind n = DOC_TOPIC_KIND → (∀ j e, edges db !! j = Some e → source_id e ≠ i) ∧ ∀ j l, doc_links db !! j = Some l → dl_target l ≠ i) →
  ∃ db' n, gc_orphaned_doc_topics db = (db', Ok n) ∧ db_ok db' ∧ edges db' = edges db ∧
    ∀ i m, nodes db' !! i = Some m ↔ nodes db !! i = Some m ∧ (node_kind m = DOC_TOPIC_KIND → ∃ s k, has_edge db s i k).
Proof.
  intros Hfk Hok Hquiet. unfold gc_orphaned_doc_topics, purge_orphaned_nodes_by_kind. set (gone := node_id <$> _).
  assert (∀ i, i ∈ gone ↔ ∃ m, nodes db !! i = Some m ∧ node_kind m = DOC_TOPIC_KIND ∧ ¬ ∃ s k, has_edge db s i k) as Hgone.
  { intros i. unfold gone. rewrite list_elem_of_fmap. setoid_rewrite list_elem_of_filter. setoid_rewrite elem_of_rows. setoid_rewrite list_elem_of_fmap. setoid_rewrite elem_of_rows. split.
    - intros (m & -> & [Hk Hno] & [j Hj]). rewrite (no_id _ (do_nodes _ Hok) _ _ Hj). exists m. split_and!; [done..|].
      intros (s & k & x & e & Hx & _ & Ht & _). apply Hno. exists e. rewrite (no_id _ (do_nodes _ Hok) _ _ Hj). split; [done|by exists x].
    - intros (m & Hm & Hk & Hno). exists m. pose proof (no_id _ (do_nodes _ Hok) _ _ Hm) as Hid. split_and!; [done..| |by exists i].
      intros (e & He & x & Hx). apply Hno. exists (source_id e), (edge_kind e), x, e. split_and!; try done. congruence. }
  pose proof (delete_nodes_ok db gone Hfk Hok) as Hd. destruct (delete_nodes db gone) as [db' [k|e]].
  - destruct Hd as (Hok' & _ & He & _ & Hn & _). exists db', k. split_and!; try done. intros i m. rewrite Hn, lookup_delete_list. case_decide as Hi.
    + split; [done|]. intros [Hm Hk]. apply Hgone in Hi as (m' & Hm' & Hk' & Hno). simplify_eq. by destruct (Hno (Hk Hk')).
    + split; [|by intros [? _]]. intros Hm. split; [done|]. intros Hk. destruct (decide (i ∈ target_id <$> rows (edges db))) as [Hin|Hin].
      * apply list_elem_of_fmap in Hin as (e & -> & [x Hx]%elem_of_rows). exists (source_id e), (edge_kind e), x, e. done.
      * destruct Hi. apply Hgone. exists m. split_and!; [done..|]. intros (s & k' & x & e & Hx & _ & Ht & _). apply Hin. apply list_elem_of_fmap. exists e. split; [done|]. apply elem_of_rows. by exists x.
  - exfalso. destruct Hd as (_ & _ & i & Hi & Ht). apply Hgone in Hi as (m & Hm & Hk & Hno). destruct (Hquiet i m Hm Hk) as [Hs Hl].
    destruct Ht as [(j & f & Hj & [He|He])|(j & l & Hj & Hl')]; [by apply (Hs j f)| |by apply (Hl j l)]. apply Hno. exists (source_id f), (edge_kind f), j, f. done.
Qed.

(** ** Examples *)

Definition code_node (path symbol : string) (line : N) : Node := mkNode 0 "local" path symbol "function" line line "".
Definition doc_ex : list (string * ParsedMarkdown) :=
  [("docs/auth.md", mkMarkdown ["security"] [] [mkLink "setup" (Some "install")] ["Auth"] ["verify()"; "missing"]); ("docs/setup.md", mkMarkdown [] [] [mkLink "setup" None] ["Install"] [])].
Definition db_code : Db := (upsert_nodes empty_db [code_node "src/auth.rs" "Auth::verify" 3; code_node "src/other.rs" "verify" 9]).1.
Definition db_notes : Db := (upsert_doc_nodes db_code doc_ex).1.
Definition edge_list (db : Db) : list (NodeId * NodeId * string) := (λ e, (source_id e, target_id e, edge_kind e)) <$> rows (edges db).
(** The topic, the heading of the other note, the symbol of that full name. *)
Example doc_ex_edges : edge_list (upsert_doc_edges db_notes doc_ex).1 = [(3, 6, "LINKS_TO"); (3, 2, "EXPLAINS_RATIONALE"); (3, 4, "TAGGED")]%N.
Proof. vm_compute. reflexivity. Qed.

Lemma doc_rows_ex : doc_rows db_notes.
Proof.
  assert (Forall (λ p : N * Node, is_code p.2 ∧ node_line_start p.2 ≠ 0%N ∨ p.2 = with_id (note_node "docs/auth.md") p.1 ∨ p.2 = with_id (topic_node "security") p.1 ∨ p.2 = with_id (note_node "docs/setup.md") p.1) (map_to_list (nodes db_notes))) as Hall.
  { vm_compute (map_to_list _). repeat (apply Forall_cons; split);
      first [apply Forall_nil_2|right; left; reflexivity|right; right; left; reflexivity|right; right; right; reflexivity|left; repeat split; discriminate]. }
  rewrite Forall_forall in Hall. intros i n Hn%elem_of_map_to_list Hk. destruct (Hall _ Hn) as [[Hc Hl]|[He|[He|He]]]; cbn in *.
  - destruct Hk as [Hk|[_ Hk]]; done.
  - rewrite He. by apply (shape_note _ "docs/auth.md").
  - rewrite He. by apply (shape_topic _ "security").
  - rewrite He. by apply (shape_note _ "docs/setup.md").
Qed.
Lemma db_notes_ok : db_ok db_notes.
Proof.
  apply (sql_run_ok empty_db); [done| |apply empty_db_ok].
  eapply rtc_l; [apply (step_upsert_nodes _ [code_node "src/auth.rs" "Auth::verify" 3; code_node "src/other.rs" "verify" 9])|]. fold db_code.
  eapply rtc_l; [apply (step_upsert_nodes _ (note_rows doc_ex))|]. replace (upsert_nodes db_code (note_rows doc_ex)).1 with db_notes; [done|vm_compute; reflexivity].
Qed.
Lemma doc_edges_exact_witness :
  ∃ db' n, upsert_doc_edges db_notes doc_ex = (db', Ok n) ∧ nodes db_notes ⊆ nodes db' ∧ has_edge db' 3 6 "LINKS_TO" ∧ asked db_notes db' doc_ex 3 6 "LINKS_TO".
Proof.
  assert (foreign_keys = true) as Hfk by reflexivity.
  destruct (doc_edges_exact db_notes doc_ex Hfk db_notes_ok doc_rows_ex) as (db' & n & Hr & _ & _ & Hsub & _ & _ & He).
  { apply (bool_decide_eq_true_1 (NoDup doc_ex.*1)). vm_compute. reflexivity. }
  assert (has_edge db' 3 6 "LINKS_TO") as Hl.
  { assert (db' = (upsert_doc_edges db_notes doc_ex).1) as -> by (rewrite Hr; reflexivity). clear Hr He Hsub.
    exists 2%N, (mkEdge 2 3 6 "LINKS_TO" one_f64 None None). split_and!; vm_compute; reflexivity. }
  exists db', n. split; [exact Hr|]. split; [exact Hsub|]. split; [exact Hl|]. destruct (proj1 (He 3 6 "LINKS_TO" (or_introl (λ E : "LINKS_TO" = "EXPLAINS_RATIONALE", eq_ind "LINKS_TO" (λ s, match s with String "L" _ => True | _ => False end) I _ E)))%N Hl) as [(i & e & Hi & _)|Ha]; [|exact Ha].
  assert (edges db_notes = ∅) as Hempty by (vm_compute; reflexivity). rewrite Hempty, lookup_empty in Hi. discriminate Hi.
Defined.

(** An unchanged note is resolved again, but its edges stay: when a symbol of the
    same name appears beside it, a fresh index points there only, an incremental one
    still points at the other, too. *)
Definition note_run : list (string * ParsedMarkdown) := [("notes/n.md", mkMarkdown [] [] [] [] ["run"])].
Definition db_far : Db := (upsert_nodes empty_db [code_node "src/a.rs" "run" 1]).1.
Definition step_docs (db : Db) : Db := (upsert_doc_edges (upsert_doc_nodes db note_run).1 note_run).1.
Definition add_near (db : Db) : Db := (upsert_nodes db [code_node "notes/x.rs" "run" 1]).1.
Example narrowed_reference_stays : size (edges (step_docs (add_near db_far))) = 1 ∧ size (edges (step_docs (add_near (step_docs db_far)))) = 2.
Proof. vm_compute. split; reflexivity. Qed.

(** A directory above the note's does not count as its own: for a note in [notes]
    the symbol in [src/notes] is not preferred. *)
Example directory_of_same_name :
  let db := (upsert_nodes empty_db [code_node "src/notes/util.rs" "run" 1; code_node "src/other/util.rs" "run" 1]).1 in
  edge_list (step_docs db) = [(3, 2, "EXPLAINS_RATIONALE"); (3, 1, "EXPLAINS_RATIONALE")]%N.
Proof. vm_compute. reflexivity. Qed.
