(* ===== verification/NoteCmds.v ===== *)
(** * Notes across re-indexing (weave-graph-cli: notes.rs)

    Pinning and listing notes, and what a re-index does with them: every note is
    attached again to the node of its moniker, or orphaned; that of a crystallized
    note whose text changed is marked stale; the expired ones go.  A rebuild copies
    the notes of the database it replaces.  Files are read below the root, [now] is
    the clock. *)

From S2P Require Import Prelude Str Model Csr Paths CsrGraph Language Interner ProjectIndex SqlStore SqlProofs SqlGraph SqlReindex Http Modules Tools Reindex ReindexProofs Mcp.

Section notes.
Context `{Sqlite} (hash_one : string → N) (blake3_hex : string → string).

(** src/crates/weave-graph-cli/src/notes.rs:31-40 [resolve_symbol] *)
Definition resolve_note_symbol (db : Db) (symbol : string) : option Node :=
  match all_nodes db with
  | Ok ns => snd <$> list_find (λ n, node_symbol n = symbol) ns
  | Err _ => None
  end.
(** src/crates/weave-graph-cli/src/notes.rs:44-87 [cmd_note_pin] *)
Definition cmd_note_pin (read : string → option string) (now : Z) (db : Db) (symbol text : string) (keep : bool) (kind : string) : Db * result N string :=
  match resolve_note_symbol db symbol with
  | None => (db, Err ("symbol not found: " +:+ symbol))
  | Some node =>
      let content_hash := (λ source, hash_span blake3_hex source (node_line_start node) (node_line_end node)) <$> read (node_path node) in
      let tier := if keep then Crystallized else Ephemeral in
      let note := mkNote 0 (Some (node_id node)) (moniker_build (node_path node) (node_symbol node)) kind tier "human" text content_hash false
                    (match tier with Ephemeral => Some (now + EPHEMERAL_TTL_SECS)%Z | Crystallized => None end) now in
      match pin_note db note with
      | (db, Ok id) => (db, Ok id)
      | (db, Err e) => (db, Err (storage_error_text e))
      end
  end.
(** src/crates/weave-graph-cli/src/notes.rs:91-115 [cmd_note_list]
    The lines printed; the format is that of the tool. *)
Definition cmd_note_list (now : Z) (db : Db) : result (list string) StorageError :=
  match recall_notes db now with
  | Err e => Err e
  | Ok [] => Ok ["No notes."]
  | Ok ns => Ok (note_text <$> ns)
  end.

(** src/crates/weave-graph-cli/src/notes.rs:119-135 [moniker_span_map]
    [files] are the files with what parsing gives; the last symbol of a moniker
    stays. *)
Definition moniker_span_map (files : list (string * option ParsedFile)) : gmap string (N * N) :=
  foldl (λ m f, match f.2 with
                | Some parsed => foldl (λ m s, <[moniker_build f.1 (card_symbol s) := (card_line_start s, card_line_end s)]> m) m (symbols parsed)
                | None => m
                end) ∅ files.

(** src/crates/weave-graph-cli/src/notes.rs:171-173 [reattach_and_prune]
    [None] is a panic of the interner. *)
Definition note_target_of (ix : ProjectIndex) (ids : gmap N NodeId) (moniker : string) : option (option NodeId) :=
  r ← get_moniker_id hash_one ix moniker;
  Some (r ≫= λ id, ids !! id).
(** src/crates/weave-graph-cli/src/notes.rs:174-187 [reattach_and_prune]
    A file is read once; it does not change during a run. *)
Definition note_staleness (read : string → option string) (spans : gmap string (N * N)) (n : Note) (target : option NodeId) : bool :=
  default (note_stale n)
    match note_tier n, note_hash n, target with
    | Crystallized, Some old_hash, Some _ =>
        span ← spans !! note_moniker n;
        '(file, _) ← split_once (note_moniker n) "#";
        source ← read file;
        Some (negb (bool_decide (hash_span blake3_hex source span.1 span.2 = old_hash)))
    | _, _, _ => None
    end.
Definition with_targets (ix : ProjectIndex) (ids : gmap N NodeId) (ns : list Note) : option (list (Note * option NodeId)) :=
  mapM (λ n, t ← note_target_of ix ids (note_moniker n); Some (n, t)) ns.

(** src/crates/weave-graph-cli/src/notes.rs:157-193 [reattach_and_prune] *)
Definition reattach_and_prune (read : string → option string) (now : Z) (files : list (string * option ParsedFile)) (ix : ProjectIndex) (ids : gmap N NodeId) (db : Db) :
    option (Db * result () StorageError) :=
  match all_notes db with
  | Err e => Some (db, Err e)
  | Ok ns =>
      l ← with_targets ix ids ns;
      let spans := moniker_span_map files in
      Some (match try_loop (λ db (p : Note * option NodeId), reattach_note db (note_id p.1) p.2 (note_staleness read spans p.1 p.2)) l db with
            | (db, Err e) => (db, Err e)
            | (db, Ok _) => match delete_expired_notes db now with (db, Ok _) => (db, Ok ()) | (db, Err e) => (db, Err e) end
            end)
  end.

(** src/crates/weave-graph-cli/src/notes.rs:229-241 [carry_over_and_prune]
    The copy of a note. *)
Definition carried (read : string → option string) (spans : gmap string (N * N)) (n : Note) (target : option NodeId) : Note :=
  mkNote 0 target (note_moniker n) (note_kind n) (note_tier n) (note_author n) (note_content n) (note_hash n) (note_staleness read spans n target) (note_expires_at n) (note_created_at n).
(** src/crates/weave-graph-cli/src/notes.rs:198-245 [carry_over_and_prune] *)
Definition carry_over_and_prune (read : string → option string) (now : Z) (files : list (string * option ParsedFile)) (ix : ProjectIndex) (ids : gmap N NodeId) (old new_db : Db) :
    option (Db * result () StorageError) :=
  match all_notes old with
  | Err e => Some (new_db, Err e)
  | Ok ns =>
      l ← with_targets ix ids ns;
      let spans := moniker_span_map files in
      Some (match try_loop (λ db (p : Note * option NodeId), pin_note db (carried read spans p.1 p.2)) l new_db with
            | (db, Err e) => (db, Err e)
            | (db, Ok _) => match delete_expired_notes db now with (db, Ok _) => (db, Ok ()) | (db, Err e) => (db, Err e) end
            end)
  end.
End notes.

(** ** What a re-index leaves *)

(** The row of a note after a run, with its node and its text looked up again. *)
Definition reattached_row (blake3_hex : string → string) (read : string → option string) (spans : gmap string (N * N)) (ns : list Node) (i : N) (r : note_row) : note_row :=
  let target := node_of ns (nr_moniker r) in
  mkNoteRow target (nr_moniker r) (nr_kind r) (nr_tier r) (nr_author r) (nr_content r) (nr_hash r)
    (note_staleness blake3_hex read spans (note_from_row (i, r)) target) (nr_expires_at r) (nr_created_at r).
(** The same of a copy: the tier is written as it was read. *)
Definition copied (blake3_hex : string → string) (read : string → option string) (spans : gmap string (N * N)) (ns : list Node) (p : N * note_row) : note_row :=
  let r := reattached_row blake3_hex read spans ns p.1 p.2 in
  mkNoteRow (nr_target r) (nr_moniker r) (nr_kind r) (tier_as_str (tier_parse (nr_tier r))) (nr_author r) (nr_content r) (nr_hash r) (nr_stale r) (nr_expires_at r) (nr_created_at r).

Section proofs.
Context `{SqliteLaws} (Hfk : foreign_keys = true) (hash_one : string → N) (blake3_hex : string → string).
Context (read : string → option string) (spans : gmap string (N * N)).

(** A moniker resolves to the node that has it. *)
Lemma note_target_rep ns ix strs ids m : index_rep hash_one ix (node_syms ns) strs → ids_rep ns strs ids → note_target_of hash_one ix ids m = Some (node_of ns m).
Proof.
  intros Hix Hids. unfold note_target_of, get_moniker_id. destruct (get_id_rep hash_one (interner ix) strs m (xr_interner _ _ _ _ Hix)) as ([id|] & -> & Hr); cbn.
  - f_equal. by apply (ids_of _ _ _ Hids).
  - f_equal. symmetry. destruct (node_of ns m) as [i|] eqn:Hn; [|done]. apply node_of_Some in Hn as (n & Hn & _ & <-). destruct Hr. apply (xr_known _ _ _ _ Hix). left.
    unfold node_syms. rewrite <-list_fmap_compose. by apply (list_elem_of_fmap_2 (λ n, node_moniker n)).
Qed.
Lemma with_targets_rep ns ix strs ids l : index_rep hash_one ix (node_syms ns) strs → ids_rep ns strs ids →
  with_targets hash_one ix ids l = Some ((λ n, (n, node_of ns (note_moniker n))) <$> l).
Proof.
  intros Hix Hids. unfold with_targets. apply mapM_Some. induction l as [|n l IH]; [constructor|]. constructor; [|exact IH].
  by rewrite (note_target_rep ns ix strs ids _ Hix Hids).
Qed.
Lemma all_notes_rows db ns : all_notes db = Ok ns → ns ≡ₚ note_from_row <$> map_to_list (notes db).
Proof. intros [= <-]. by rewrite sort_by_perm, select_order_perm. Qed.

Lemma reattach_loop ns l : ∀ db, db_ok db →
  (∀ m i, node_of ns m = Some i → is_Some (nodes db !! i)) → NoDup l.*1 → (∀ p, p ∈ l → notes db !! p.1 = Some p.2) →
  ∃ us db', try_loop (λ db (p : Note * option NodeId), reattach_note db (note_id p.1) p.2 (note_staleness blake3_hex read spans p.1 p.2))
      ((λ n, (n, node_of ns (note_moniker n))) <$> (note_from_row <$> l)) db = (db', Ok us) ∧ db_ok db' ∧ nodes db' = nodes db ∧ edges db' = edges db ∧
    ∀ i, notes db' !! i = match list_find (λ p : N * note_row, p.1 = i) l with Some (_, p) => Some (reattached_row blake3_hex read spans ns i p.2) | None => notes db !! i end.
Proof.
  induction l as [|[i r] l IH]; intros db Hok Hnode Hnd Hin; cbn [fmap list_fmap try_loop].
  { exists [], db. by split_and!. }
  cbn [fmap list_fmap fst] in Hnd. apply NoDup_cons in Hnd as [Hi Hnd]. pose proof (Hin (i, r) (list_elem_of_here _ _)) as Hr. cbn [fst snd] in Hr.
  set (t := node_of ns (note_moniker (note_from_row (i, r)))). set (st := note_staleness _ _ _ _ _).
  pose proof (reattach_note_ok db i t st Hfk Hok) as Hok1.
  assert (note_fk_ok db t = true) as Hfkt.
  { unfold note_fk_ok. destruct t as [j|] eqn:Ht; [|by rewrite orb_true_r]. apply Hnode in Ht. rewrite bool_decide_eq_true_2 by done. apply orb_true_r. }
  cbn [fst snd note_id note_from_row]. unfold reattach_note in *. rewrite Hr, Hfkt in *. cbn [negb fst] in *.
  set (db1 := with_notes db _) in *. destruct (IH db1 Hok1 Hnode Hnd) as (us & db' & -> & Hok' & Hn & He & Hall).
  { intros p Hp. unfold db1. cbn [notes with_notes]. rewrite lookup_insert_ne; [apply Hin; by right|]. intros ->. apply Hi. by apply list_elem_of_fmap_2. }
  exists (() :: us), db'. split_and!; [done..|]. intros j. rewrite Hall. cbn [list_find fst]. unfold db1. cbn [notes with_notes].
  destruct (decide (i = j)) as [->|Hij].
  - assert (list_find (λ p : N * note_row, p.1 = j) l = None) as ->.
    { apply list_find_None, Forall_forall. intros p Hp <-. apply Hi. by apply list_elem_of_fmap_2. }
    by rewrite lookup_insert_eq.
  - rewrite lookup_insert_ne by done. by destruct (list_find _ l) as [[]|].
Qed.

Definition sorted_notes (db : Db) : list (N * note_row) :=
  sort_by (λ a b : N * note_row, pair_leb Z.leb N.leb (nr_created_at a.2, a.1) (nr_created_at b.2, b.1)) (select_order (map_to_list (notes db))).
Lemma all_notes_sorted db : all_notes db = Ok (note_from_row <$> sorted_notes db).
Proof. done. Qed.
Lemma sorted_notes_perm db : sorted_notes db ≡ₚ map_to_list (notes db).
Proof. unfold sorted_notes. by rewrite sort_by_perm, select_order_perm. Qed.
Lemma find_row db i : match list_find (λ p : N * note_row, p.1 = i) (sorted_notes db) with Some (_, p) => p.1 = i ∧ notes db !! i = Some p.2 | None => notes db !! i = None end.
Proof.
  destruct (list_find _ _) as [[k p]|] eqn:Hf.
  - apply list_find_Some in Hf as (Hl%list_elem_of_lookup_2 & Hi & _). split; [done|]. rewrite sorted_notes_perm in Hl. destruct p as [j r]. cbn in *. subst. by apply elem_of_map_to_list.
  - apply list_find_None in Hf. rewrite Forall_forall in Hf. destruct (notes db !! i) as [r|] eqn:Hr; [|done]. exfalso.
    apply elem_of_map_to_list in Hr. rewrite <- sorted_notes_perm in Hr. by apply (Hf (i, r)).
Qed.

(** A copy of a note is a row of its own. *)
Lemma carry_loop ns l : ∀ db, db_ok db → (∀ m i, node_of ns m = Some i → is_Some (nodes db !! i)) →
  ∃ us db', try_loop (λ db (p : Note * option NodeId), pin_note db (carried blake3_hex read spans p.1 p.2))
      ((λ n, (n, node_of ns (note_moniker n))) <$> (note_from_row <$> l)) db = (db', Ok us) ∧ db_ok db' ∧ nodes db' = nodes db ∧ edges db' = edges db ∧
    rows (notes db') ≡ₚ rows (notes db) ++ (copied blake3_hex read spans ns <$> l).
Proof.
  induction l as [|[i r] l IH]; intros db Hok Hnode; cbn [fmap list_fmap try_loop].
  { exists [], db. split_and!; try done. by rewrite app_nil_r. }
  set (n := carried _ _ _ _ _). pose proof (pin_note_ok db n Hfk Hok) as Hok1.
  assert (note_fk_ok db (note_target n) = true) as Hfkt.
  { unfold note_fk_ok. destruct (note_target n) as [j|] eqn:Ht; [|by rewrite orb_true_r]. apply Hnode in Ht. rewrite bool_decide_eq_true_2 by done. apply orb_true_r. }
  unfold pin_note in *. rewrite Hfkt in *. cbn [negb fst] in *. set (db1 := with_notes db _) in *.
  destruct (IH db1 Hok1 Hnode) as (us & db' & -> & Hok' & Hn & He & Hall). eexists _, db'. split_and!; [done..|].
  rewrite Hall. unfold db1. cbn [notes with_notes]. unfold rows. rewrite map_to_list_insert by (apply not_elem_of_dom, fresh_rowid_new).
  rewrite fmap_cons. cbn [snd]. rewrite <- Permutation_middle. done.
Qed.
Lemma rows_filter {A} (P : A → Prop) `{∀ x, Decision (P x)} (t : gmap N A) : rows (filter (λ p, P p.2) t) ≡ₚ filter P (rows t).
Proof.
  unfold rows. induction t as [|i x t Hi IH] using map_ind; [done|]. rewrite map_to_list_insert, fmap_cons, filter_cons by done. cbn [snd]. case_decide.
  - rewrite map_filter_insert_True by done. by rewrite map_to_list_insert, fmap_cons, IH by (rewrite map_lookup_filter_None; auto).
  - by rewrite map_filter_insert_not' by naive_solver.
Qed.
End proofs.

(** A re-index, row by row. *)
Lemma reattach_and_prune_rows `{SqliteLaws} hash_one blake3_hex read now files db : foreign_keys = true → db_ok db → fits (node_syms (stored_nodes db)) →
  ∃ ix ids db', build_project_index_from_storage hash_one db = Some (Ok (ix, ids)) ∧ reattach_and_prune hash_one blake3_hex read now files ix ids db = Some (db', Ok ()) ∧
    db_ok db' ∧ nodes db' = nodes db ∧ edges db' = edges db ∧
    ∀ i r', notes db' !! i = Some r' ↔ ∃ r, notes db !! i = Some r ∧ expired now r = false ∧ r' = reattached_row blake3_hex read (moniker_span_map files) (stored_nodes db) i r.
Proof.
  intros Hfk Hok Hfit. destruct (build_index_rep hash_one db Hfit) as (ix & strs & ids & Hb & Hix & Hids). set (spans := moniker_span_map files). set (ns := stored_nodes db) in *.
  destruct (reattach_loop Hfk blake3_hex read spans ns (sorted_notes db) db Hok) as (us & db1 & Hloop & Hok1 & Hn & He & Hall).
  { intros m i. by apply node_of_stored. }
  { rewrite sorted_notes_perm. apply NoDup_fst_map_to_list. }
  { intros [i r]. rewrite sorted_notes_perm. apply elem_of_map_to_list. }
  exists ix, ids, (delete_expired_notes db1 now).1. split; [done|]. split.
  { unfold reattach_and_prune. rewrite all_notes_sorted, (with_targets_rep hash_one ns ix strs ids _ Hix Hids). cbn [mbind option_bind]. fold spans. by rewrite Hloop. }
  split_and!; [by apply delete_expired_ok|done|done|]. intros i r'. unfold delete_expired_notes. cbn [notes with_notes fst]. rewrite map_lookup_filter_Some, Hall.
  pose proof (find_row db i) as Hf. destruct (list_find _ _) as [[k p]|]; [|rewrite Hf; naive_solver]. destruct Hf as [_ Hf]. rewrite Hf. cbn [snd]. split.
  - intros [[= <-] Hx]. by exists p.2.
  - intros (r & [= <-] & Hx & ->). done.
Qed.

(** The span of a symbol that the parse of a file reports. *)
Definition symbol_at (files : list (string * option ParsedFile)) (m f : string) (first_line last_line : N) : Prop :=
  ∃ parsed c, (f, Some parsed) ∈ files ∧ c ∈ symbols parsed ∧ moniker_build f (card_symbol c) = m ∧
    first_line = card_line_start c ∧ last_line = card_line_end c.
(** A note that has run out. *)
Definition gone (now : Z) (r : note_row) : Prop := nr_tier r = "ephemeral" ∧ ∃ t, nr_expires_at r = Some t ∧ (t ≤ now)%Z.

(** What becomes of a note: [r] before, [r'] after. *)
Record reattached (blake3_hex : string → string) (read : string → option string) (files : list (string * option ParsedFile)) (ns : list Node) (r r' : note_row) : Prop := {
  ra_says : nr_moniker r' = nr_moniker r ∧ nr_kind r' = nr_kind r ∧ nr_tier r' = nr_tier r ∧ nr_author r' = nr_author r ∧
    nr_content r' = nr_content r ∧ nr_hash r' = nr_hash r ∧ nr_expires_at r' = nr_expires_at r ∧ nr_created_at r' = nr_created_at r;
  ra_there n : n ∈ ns → node_moniker n = nr_moniker r → (∀ n', n' ∈ ns → node_moniker n' = nr_moniker r → n' = n) → nr_target r' = Some (node_id n);
  ra_orphan : nr_target r' = None ↔ ∀ n, n ∈ ns → node_moniker n ≠ nr_moniker r;
  ra_unchecked : tier_parse (nr_tier r) = Ephemeral ∨ nr_hash r = None ∨ nr_target r' = None ∨ (∀ f a b, ¬ symbol_at files (nr_moniker r) f a b) → nr_stale r' = nr_stale r;
  ra_unreadable f sym : nr_moniker r = moniker_build f sym → no_char "#" f → read f = None → nr_stale r' = nr_stale r;
  ra_checked h f sym a b source : tier_parse (nr_tier r) = Crystallized → nr_hash r = Some h → is_Some (nr_target r') →
    nr_moniker r = moniker_build f sym → no_char "#" f → symbol_at files (nr_moniker r) f a b →
    (∀ f' a' b', symbol_at files (nr_moniker r) f' a' b' → a' = a ∧ b' = b) → read f = Some source →
    (nr_stale r' = true ↔ blake3_hex (span_lines source a b) ≠ h)
}.

(** The map of the spans holds spans of the moniker, and one if there is any. *)
Lemma moniker_span_map_spec files m :
  match moniker_span_map files !! m with
  | Some (a, b) => ∃ f, symbol_at files m f a b
  | None => ∀ f a b, ¬ symbol_at files m f a b
  end.
Proof.
  unfold moniker_span_map. induction files as [|[f parsed] files IH] using rev_ind.
  { cbn [foldl]. rewrite lookup_empty. by intros f a b (? & ? & ?%not_elem_of_nil & _). }
  rewrite foldl_app. cbn [foldl fst snd]. set (M := foldl _ _ files) in *.
  assert (∀ a b f', symbol_at files m f' a b → symbol_at (files ++ [(f, parsed)]) m f' a b) as Hmono.
  { intros a b f' (p & c & Hp & Hc). exists p, c. split; [apply elem_of_app; by left|done]. }
  destruct parsed as [parsed|].
  2:{ destruct (M !! m) as [[a b]|]; [destruct IH as [f' IH]; exists f'; by apply Hmono|]. intros f' a b (p & c & [Hp|[=]%list_elem_of_singleton]%elem_of_app & Hc). apply (IH f' a b). by exists p, c. }
  cut (∀ l, match foldl (λ m s, <[moniker_build f (card_symbol s):=(card_line_start s, card_line_end s)]> m) M l !! m with
       | Some (a, b) => (∃ f', symbol_at files m f' a b) ∨ ∃ c, c ∈ l ∧ moniker_build f (card_symbol c) = m ∧ a = card_line_start c ∧ b = card_line_end c
       | None => (∀ f' a b, ¬ symbol_at files m f' a b) ∧ ∀ c, c ∈ l → moniker_build f (card_symbol c) ≠ m end).
  { intros Hl. specialize (Hl (symbols parsed)). destruct (foldl _ M _ !! m) as [[a b]|].
    - destruct Hl as [[f' Hf]|(c & Hc & Hm & Ha & Hb)]; [exists f'; by apply Hmono|]. exists f, parsed, c. split; [apply elem_of_app; right; by apply list_elem_of_singleton|done].
    - destruct Hl as [Hold Hnew]. intros f' a b (p & c & [Hp|[= -> ->]%list_elem_of_singleton]%elem_of_app & Hc & Hm & Hs); [apply (Hold f' a b); by exists p, c|by apply (Hnew c)]. }
  induction l as [|c l IHl] using rev_ind; [cbn; destruct (M !! m) as [[a b]|]; [by left|split; [done|intros c Hc; by apply not_elem_of_nil in Hc]]|].
  rewrite foldl_app. cbn [foldl]. destruct (decide (moniker_build f (card_symbol c) = m)) as [<-|Hne].
  - rewrite lookup_insert_eq. right. exists c. split; [apply elem_of_app; right; by apply list_elem_of_singleton|done].
  - rewrite lookup_insert_ne by done. destruct (foldl _ M l !! m) as [[a b]|].
    + destruct IHl as [IHl|(c' & Hc & IHl)]; [by left|]. right. exists c'. split; [apply elem_of_app; by left|done].
    + destruct IHl as [? IHl]. split; [done|]. intros c' [Hc| ->%list_elem_of_singleton]%elem_of_app; [by apply IHl|done].
Qed.

Lemma node_of_None ns m : node_of ns m = None ↔ ∀ n, n ∈ ns → node_moniker n ≠ m.
Proof.
  split.
  - intros Hf n Hn Hm. apply last_None, fmap_nil_inv in Hf. apply (not_elem_of_nil n). rewrite <- Hf. by apply list_elem_of_filter.
  - intros Hall. destruct (node_of ns m) as [i|] eqn:Hi; [|done]. apply node_of_Some in Hi as (n & Hn & _ & Hm). by apply Hall in Hn.
Qed.

Lemma split_moniker f sym : no_char "#" f → split_once (moniker_build f sym) "#" = Some (f, sym).
Proof. apply split_once_no_char. Qed.

(** The row of the model is one the promise allows. *)
Lemma reattached_row_ok blake3_hex read files ns i r : reattached blake3_hex read files ns r (reattached_row blake3_hex read (moniker_span_map files) ns i r).
Proof.
  unfold reattached_row. set (t := node_of ns (nr_moniker r)).
  pose proof (moniker_span_map_spec files (nr_moniker r)) as Hspan.
  split; cbn [nr_moniker nr_kind nr_tier nr_author nr_content nr_hash nr_stale nr_expires_at nr_created_at nr_target].
  - by split_and!.
  - intros n Hn Hm Hone. subst t. destruct (node_of ns (nr_moniker r)) as [j|] eqn:Ht; [|by apply (proj1 (node_of_None _ _) Ht n) in Hn].
    apply node_of_Some in Ht as (n' & Hn' & <- & Hm'). by rewrite (Hone n' Hn' Hm').
  - apply node_of_None.
  - unfold note_staleness, note_from_row. cbn [note_tier note_hash note_stale note_moniker snd]. intros [->|[->|[->|Hno]]]; [done|by destruct (tier_parse _)|by destruct (tier_parse _), (nr_hash r)|].
    destruct (moniker_span_map files !! nr_moniker r) as [[a b]|]; [destruct Hspan as [f Hf]; by apply Hno in Hf|]. by destruct (tier_parse _), (nr_hash r), t.
  - clear Hspan. intros f sym Hm Hf Hr. unfold note_staleness, note_from_row. cbn [note_tier note_hash note_stale note_moniker snd]. rewrite Hm, (split_moniker f sym Hf). destruct (tier_parse _), (nr_hash r), t; try done. destruct (_ !! _); [|done]. cbn. by rewrite Hr.
  - intros h f sym a b source Ht Hh [j Hj] Hm Hf Hsym Hone Hr. unfold note_staleness, note_from_row. cbn [note_tier note_hash note_stale note_moniker snd]. rewrite Ht, Hh, Hj.
    destruct (moniker_span_map files !! nr_moniker r) as [[a' b']|]; [|by apply Hspan in Hsym]. destruct Hspan as [f' [-> ->]%Hone].
    rewrite Hm, (split_moniker f sym Hf). cbn. rewrite Hr. cbn. unfold hash_span. rewrite negb_true_iff, bool_decide_eq_false. done.
Qed.
Lemma expired_gone now r : expired now r = true ↔ gone now r.
Proof.
  unfold expired, gone. rewrite andb_true_iff, bool_decide_eq_true. destruct (nr_expires_at r) as [t|]; [rewrite Z.leb_le|]; naive_solver.
Qed.

(** C39: A re-index keeps every note that has not run out, with all it says, under its
    number, drops every one that has, and invents none.  The symbol of the note's
    moniker, when the graph has one, gets the note; the note is orphaned exactly when it
    has none.  A crystallized note that is attached, whose file can be read and whose
    moniker has one span in the files just parsed, is stale exactly when the text of
    that span does not have the recorded hash; an ephemeral or unhashed note, an orphan
    and one whose symbol or file cannot be read keep the mark they had.  Nothing else
    of the graph changes.  Monikers that several symbols share are outside the
    statement: which of them gets the note, and against which span it is checked,
    is not stated ([note_moves_to_twin]). *)
Theorem notes_reattached `{SqliteLaws} hash_one blake3_hex read now files db : foreign_keys = true → db_ok db → fits (node_syms (stored_nodes db)) →
  ∃ ix ids db', build_project_index_from_storage hash_one db = Some (Ok (ix, ids)) ∧ reattach_and_prune hash_one blake3_hex read now files ix ids db = Some (db', Ok ()) ∧
    db_ok db' ∧ nodes db' = nodes db ∧ edges db' = edges db ∧
    (∀ i r, notes db !! i = Some r → gone now r → notes db' !! i = None) ∧
    (∀ i r, notes db !! i = Some r → ¬ gone now r → ∃ r', notes db' !! i = Some r' ∧ reattached blake3_hex read files (stored_nodes db) r r') ∧
    (∀ i, notes db !! i = None → notes db' !! i = None).
Proof.
  intros Hfk Hok Hfit. destruct (reattach_and_prune_rows hash_one blake3_hex read now files db Hfk Hok Hfit) as (ix & ids & db' & H1 & H2 & H3 & H4 & H5 & Hall).
  exists ix, ids, db'. split_and!; [done..| | |].
  - intros i r Hr Hx%expired_gone. destruct (notes db' !! i) as [r'|] eqn:Hr'; [|done]. apply Hall in Hr' as (r0 & Hr0 & Hx0 & _). rewrite Hr in Hr0. injection Hr0 as <-. congruence.
  - intros i r Hr Hx. exists (reattached_row blake3_hex read (moniker_span_map files) (stored_nodes db) i r). split; [|apply reattached_row_ok].
    apply Hall. exists r. split_and!; [done| |done]. destruct (expired now r) eqn:He; [by apply expired_gone in He|done].
  - intros i Hi. destruct (notes db' !! i) as [r'|] eqn:Hr'; [|done]. apply Hall in Hr' as (r0 & Hr0 & _). congruence.
Qed.

(** A rebuild takes over the notes of the index it replaces, each once: the
    notes of the new database are the copies of those of the old one that have not
    expired, attached to the nodes of the new one. *)
Theorem notes_carried_over `{SqliteLaws} hash_one blake3_hex read now files old db : foreign_keys = true → db_ok db → notes db = ∅ → fits (node_syms (stored_nodes db)) →
  ∃ ix ids db', build_project_index_from_storage hash_one db = Some (Ok (ix, ids)) ∧ carry_over_and_prune hash_one blake3_hex read now files ix ids old db = Some (db', Ok ()) ∧
    db_ok db' ∧ nodes db' = nodes db ∧ edges db' = edges db ∧
    rows (notes db') ≡ₚ filter (λ r, expired now r = false) (copied blake3_hex read (moniker_span_map files) (stored_nodes db) <$> map_to_list (notes old)).
Proof.
  intros Hfk Hok Hempty Hfit. destruct (build_index_rep hash_one db Hfit) as (ix & strs & ids & Hb & Hix & Hids). set (spans := moniker_span_map files). set (ns := stored_nodes db) in *.
  destruct (carry_loop Hfk blake3_hex read spans ns (sorted_notes old) db Hok) as (us & db1 & Hloop & Hok1 & Hn & He & Hall).
  { intros m i. by apply node_of_stored. }
  exists ix, ids, (delete_expired_notes db1 now).1. split; [done|]. split.
  { unfold carry_over_and_prune. rewrite all_notes_sorted, (with_targets_rep hash_one ns ix strs ids _ Hix Hids). cbn [mbind option_bind]. fold spans. by rewrite Hloop. }
  split_and!; [by apply delete_expired_ok|done|done|]. unfold delete_expired_notes. cbn [notes with_notes fst]. pose proof (rows_filter (λ r, expired now r = false) (notes db1)) as Hr. etrans; [exact Hr|]. rewrite Hall, Hempty.
  unfold rows. rewrite map_to_list_empty. cbn. by rewrite sorted_notes_perm.
Qed.

(** ** Examples *)

Definition twin_fmt (line : N) (sig : string) : Node := mkNode 0 "local" "a.rs" "fmt" "function" line line sig.
Definition twin_db : Db := (insert_fresh_nodes empty_db [twin_fmt 1 "fn fmt(a)"; twin_fmt 2 "fn fmt(b)"]).1.
Definition twin_source (path : string) : option string := Some ("fn fmt(a)" +:+ String "010"%char "fn fmt(b)").
Definition twin_files : list (string * option ParsedFile) :=
  [("a.rs", Some (mkParsed [ProjectIndex.mkCard "a.rs#fmt" "fmt" Function 1 1 "fn fmt(a)"; ProjectIndex.mkCard "a.rs#fmt" "fmt" Function 2 2 "fn fmt(b)"] [] []))].
Definition twin_hash (s : string) : N := N.of_nat (String.length s).
Definition pinned_twin : Db := (cmd_note_pin id twin_source 0 twin_db "fmt" "why" true "note").1.
Definition reindexed_twin : option (list (option NodeId * bool)) :=
  r ← build_project_index_from_storage twin_hash pinned_twin;
  match r with
  | Ok (ix, ids) => p ← reattach_and_prune twin_hash id twin_source 1 twin_files ix ids pinned_twin; Some ((λ n, (nr_target n, nr_stale n)) <$> rows (notes p.1))
  | Err _ => None
  end.
(** Pinning takes the first symbol of a name, re-indexing the last: with two of the
    name, a note moves to the other and is called stale though nothing changed. *)
Example note_moves_to_twin : (nr_target <$> rows (notes pinned_twin)) = [Some 1%N] ∧ reindexed_twin = Some [(Some 2%N, true)].
Proof. vm_compute. split; reflexivity. Qed.

(** An index with one symbol, a note on it and one that has expired. *)
Definition one_db : Db := (insert_fresh_nodes empty_db [twin_fmt 1 "fn fmt(a)"]).1.
Definition noted_db : Db := (cmd_note_pin id twin_source (-100000) (cmd_note_pin id twin_source 0 one_db "fmt" "why" true "note").1 "fmt" "old" false "note").1.
Lemma noted_db_ok : db_ok noted_db.
Proof.
  apply (sql_run_ok empty_db); [done| |apply empty_db_ok].
  eapply rtc_l; [apply (step_fresh_nodes _ [twin_fmt 1 "fn fmt(a)"])|]. fold one_db.
  eapply rtc_l; [apply (step_pin _ (mkNote 0 (Some 1%N) "a.rs#fmt" "note" Crystallized "human" "why" (Some "fn fmt(a)") false None 0))|].
  eapply rtc_l; [apply (step_pin _ (mkNote 0 (Some 1%N) "a.rs#fmt" "note" Ephemeral "human" "old" (Some "fn fmt(a)") false (Some (-13600)%Z) (-100000)))|].
  match goal with |- rtc _ ?x _ => replace x with noted_db by (vm_compute; reflexivity) end. done.
Qed.
Lemma notes_reattached_witness :
  ∃ ix ids db', build_project_index_from_storage twin_hash noted_db = Some (Ok (ix, ids)) ∧ reattach_and_prune twin_hash id twin_source 1 twin_files ix ids noted_db = Some (db', Ok ()) ∧
    (∃ r', notes db' !! 1%N = Some r' ∧ reattached id twin_source twin_files (stored_nodes noted_db) (mkNoteRow (Some 1%N) "a.rs#fmt" "note" "crystallized" "human" "why" (Some "fn fmt(a)") false None 0) r') ∧
    notes db' !! 2%N = None ∧ size (notes noted_db) = 2.
Proof.
  assert (foreign_keys = true) as Hfk by reflexivity. assert (fits (node_syms (stored_nodes noted_db))) as Hfit by (split; vm_compute; discriminate).
  destruct (notes_reattached twin_hash id twin_source 1 twin_files noted_db Hfk noted_db_ok Hfit) as (ix & ids & db' & H1 & H2 & _ & _ & _ & Hgone & Hkept & _).
  exists ix, ids, db'. split; [exact H1|]. split; [exact H2|]. split; [|split].
  - apply (Hkept 1%N); [vm_compute; reflexivity|]. intros [[=] _].
  - eapply (Hgone 2%N); [vm_compute; reflexivity|]. split; [reflexivity|]. eexists. split; [reflexivity|]. vm_compute. discriminate.
  - vm_compute. reflexivity.
Defined.
