(* ===== verification/Migration.v ===== *)
(** * Migration plans (weave-graph-cli: migration.rs)

    [weave plan-migration] finds the repositories that call a deprecated symbol of
    another, orders them by dependency with Kahn's algorithm and writes the plan;
    where the dependencies are cyclic it names the cycles and refuses. *)

From S2P Require Import Prelude Str Bitmap Model Csr Paths CsrGraph Interner ProjectIndex Federation Contract Tools Link.

(** ** Kahn's algorithm *)

(** src/crates/weave-graph-cli/src/migration.rs:155-164 [kahn]
    The ready vector is a stack: its end is the head of the list. *)
Record kahn_state := mkKahn { indegree : list nat; ready : list N; order : list N }.
(** src/crates/weave-graph-cli/src/migration.rs:157-160 [kahn] *)
Definition count_edge (st : list nat * list (list N)) (e : N * N) : option (list nat * list (list N)) :=
  d ← st.1 !! as_usize e.2;
  indegree ← vec_set st.1 (as_usize e.2) (S d);
  l ← st.2 !! as_usize e.1;
  dependents ← vec_set st.2 (as_usize e.1) (l ++ [e.2]);
  Some (indegree, dependents).
(** src/crates/weave-graph-cli/src/migration.rs:168-171 [kahn]
    A count below zero is a panic. *)
Definition release (st : kahn_state) (dep : N) : option kahn_state :=
  d ← indegree st !! as_usize dep;
  match d with
  | 0 => None
  | S d =>
      ind ← vec_set (indegree st) (as_usize dep) d;
      Some (mkKahn ind (if decide (d = 0) then dep :: ready st else ready st) (order st))
  end.
(** src/crates/weave-graph-cli/src/migration.rs:165-173 [kahn]
    A node is taken from the stack once. *)
Fixpoint kahn_loop (fuel : nat) (dependents : list (list N)) (st : kahn_state) : option (list N) :=
  match ready st with
  | [] => Some (order st)
  | next :: rest =>
      match fuel with
      | 0 => None
      | S fuel =>
          deps ← dependents !! as_usize next;
          st ← foldlM release deps (mkKahn (indegree st) rest (order st ++ [next]));
          kahn_loop fuel dependents st
      end
  end.
(** src/crates/weave-graph-cli/src/migration.rs:154-175 [kahn]
    [None] is a panic, [Some None] a cycle. *)
Definition kahn (node_count : nat) (edges : list (N * N)) : option (option (list N)) :=
  '(indegree, dependents) ← foldlM count_edge edges (replicate node_count 0, replicate node_count []);
  let zero := filter (λ n, indegree !! as_usize n = Some 0) (N.of_nat <$> seq 0 node_count) in
  order ← kahn_loop node_count dependents (mkKahn indegree (reverse zero) []);
  Some (if decide (length order = node_count) then Some order else None).

Section kahn.
Context (n : nat) (edges : list (N * N)) (Hin : ∀ e, e ∈ edges → as_usize e.1 < n ∧ as_usize e.2 < n).

(** The edges into a node whose source is not in the order yet. *)
Definition pend (done : list N) (v : N) : nat := length (filter (λ e : N * N, e.2 = v ∧ e.1 ∉ done) edges).
Definition deps_of (u : N) : list N := snd <$> filter (λ e : N * N, e.1 = u) edges.
Definition times (v : N) (l : list N) : nat := length (filter (λ x, x = v) l).

Lemma pend_snoc dn u v : u ∉ dn → pend dn v = pend (dn ++ [u]) v + times v (deps_of u).
Proof.
  unfold pend, times, deps_of. clear Hin. intros Hu. induction edges as [|[a b] es IH]; [done|]. rewrite !filter_cons. cbn [fst snd].
  destruct (decide (a = u)) as [->|Ha].
  - rewrite fmap_cons, filter_cons. cbn [snd]. rewrite (decide_False (P := b = v ∧ u ∉ dn ++ [u])) by set_solver.
    destruct (decide (b = v)) as [->|Hb]; [rewrite decide_True by done; cbn [length]; lia|rewrite decide_False by tauto; lia].
  - destruct (decide (b = v ∧ a ∉ dn)) as [Hb|Hb].
    + rewrite decide_True by set_solver. cbn [length]. lia.
    + rewrite decide_False by set_solver. lia.
Qed.
Lemma pend_zero dn v : pend dn v = 0 ↔ ∀ u, (u, v) ∈ edges → u ∈ dn.
Proof.
  unfold pend. rewrite length_zero_iff_nil. split.
  - intros Hf u Hu. destruct (decide (u ∈ dn)) as [|Hno]; [done|]. exfalso. apply (not_elem_of_nil (u, v)). rewrite <- Hf. by apply list_elem_of_filter.
  - intros Hall. destruct (filter _ edges) as [|[a b] l] eqn:Hf; [done|]. assert ((a, b) ∈ (a, b) :: l) as Hx by left. rewrite <- Hf in Hx.
    apply list_elem_of_filter in Hx as [[? Hno] Hx]. cbn in *. subst. by destruct (Hno (Hall _ Hx)).
Qed.

(** Counts are those of the edges. *)
Lemma count_edges_exact es : (∀ e, e ∈ es → as_usize e.1 < n ∧ as_usize e.2 < n) → ∀ ind dep, length ind = n → length dep = n →
  ∃ ind' dep', foldlM count_edge es (ind, dep) = Some (ind', dep') ∧ length ind' = n ∧ length dep' = n ∧
    (∀ v d, ind !! as_usize v = Some d → ind' !! as_usize v = Some (d + length (filter (λ e : N * N, e.2 = v) es))) ∧
    (∀ u l, dep !! as_usize u = Some l → dep' !! as_usize u = Some (l ++ (snd <$> filter (λ e : N * N, e.1 = u) es))).
Proof.
  assert (∀ a b, as_usize a = as_usize b → a = b) as Hinj by (intros a b; apply N2Nat.inj).
  induction es as [|[a b] es IH]; intros Hes ind dep Hi Hd; cbn [foldlM].
  { exists ind, dep. split_and!; try done; intros; [by rewrite Nat.add_0_r|by rewrite app_nil_r]. }
  destruct (Hes (a, b)) as [Ha Hb]; [left|]. cbn [fst snd] in Ha, Hb.
  destruct (lookup_lt_is_Some_2 ind (as_usize b)) as [d Hdb]; [lia|]. destruct (lookup_lt_is_Some_2 dep (as_usize a)) as [l Hla]; [lia|].
  assert (count_edge (ind, dep) (a, b) = Some (<[as_usize b := S d]> ind, <[as_usize a := l ++ [b]]> dep)) as ->.
  { unfold count_edge. cbn [fst snd]. rewrite Hdb, Hla. cbn [mbind option_bind]. by rewrite !vec_set_lt by lia. }
  cbn [mbind option_bind].
  destruct (IH (λ e He, Hes e (list_elem_of_further _ _ _ He)) (<[as_usize b := S d]> ind) (<[as_usize a := l ++ [b]]> dep)) as (ind' & dep' & -> & Hi' & Hd' & Hind & Hdep).
  { by rewrite length_insert. } { by rewrite length_insert. }
  exists ind', dep'. split_and!; try done.
  - intros v d' Hv. rewrite filter_cons. cbn [snd]. destruct (decide (b = v)) as [->|Hne].
    + simplify_eq. rewrite (Hind v (S d)) by (rewrite list_lookup_insert_eq by lia; done). cbn [length]. f_equal. lia.
    + apply Hind. rewrite list_lookup_insert_ne by (intros ?%Hinj; congruence). done.
  - intros u l' Hu. rewrite filter_cons. cbn [fst]. destruct (decide (a = u)) as [->|Hne].
    + simplify_eq. rewrite (Hdep u (l ++ [b])) by (rewrite list_lookup_insert_eq by lia; done). rewrite <- app_assoc. done.
    + apply Hdep. rewrite list_lookup_insert_ne by (intros ?%Hinj; congruence). done.
Qed.

(** While the dependents [ds] of the last node are still to be released. *)
Record kahn_ok (ds : list N) (st : kahn_state) : Prop := {
  ko_len : length (indegree st) = n;
  ko_range v : v ∈ order st ++ ready st → as_usize v < n;
  ko_nodup : NoDup (order st ++ ready st);
  ko_count v : as_usize v < n → indegree st !! as_usize v = Some (pend (order st) v + times v ds);
  ko_zero v : as_usize v < n → v ∈ order st ++ ready st ↔ pend (order st) v + times v ds = 0;
  ko_topo l1 v l2 : order st = l1 ++ v :: l2 → ∀ u, (u, v) ∈ edges → u ∈ l1;
}.
Lemma times_cons v x l : times v (x :: l) = (if decide (x = v) then 1 else 0) + times v l.
Proof. unfold times. rewrite filter_cons. by case_decide. Qed.

Lemma release_ok d ds st : as_usize d < n → kahn_ok (d :: ds) st → ∃ st', release st d = Some st' ∧ kahn_ok ds st' ∧ order st' = order st.
Proof.
  intros Hd [Hlen Hrange Hnd Hcount Hzero Htopo]. assert (∀ a b, as_usize a = as_usize b → a = b) as Hinj by (intros a b; apply N2Nat.inj).
  unfold release. rewrite (Hcount d Hd), times_cons, decide_True by done. cbn [mbind option_bind]. replace (pend (order st) d + (1 + times d ds)) with (S (pend (order st) d + times d ds)) by lia.
  cbn [mbind option_bind]. rewrite vec_set_lt by lia. cbn [mbind option_bind]. eexists. split; [done|]. split; [|done].
  assert (d ∉ order st ++ ready st) as Hnew by (intros Hx; apply (Hzero d Hd) in Hx; rewrite times_cons, decide_True in Hx by done; lia).
  set (rd := if decide _ then _ else _). assert (∀ v, v ∈ order st ++ rd ↔ v ∈ order st ++ ready st ∨ (v = d ∧ pend (order st) d + times d ds = 0)) as Hrd.
  { intros v. unfold rd. case_decide; rewrite !elem_of_app, ?elem_of_cons; intuition. }
  split; cbn [indegree ready order].
  - by rewrite length_insert.
  - intros v [Hv|[-> _]]%Hrd; auto.
  - unfold rd. case_decide; [|done]. rewrite <- Permutation_middle. by apply NoDup_cons.
  - intros v Hv. destruct (decide (v = d)) as [->|Hne]; [by rewrite list_lookup_insert_eq by lia|].
    rewrite list_lookup_insert_ne by (intros ?%Hinj; congruence). rewrite (Hcount v Hv), times_cons, decide_False by done. done.
  - intros v Hv. rewrite Hrd, (Hzero v Hv), times_cons. destruct (decide (d = v)) as [->|Hne]; [|by naive_solver lia]. split; [intros [?|[_ ?]]; lia|intros; right; lia].
  - done.
Qed.
Lemma releases_ok ds : (∀ d, d ∈ ds → as_usize d < n) → ∀ st, kahn_ok ds st → ∃ st', foldlM release ds st = Some st' ∧ kahn_ok [] st' ∧ order st' = order st.
Proof.
  induction ds as [|d ds IH]; intros Hds st Hok; cbn [foldlM]; [by exists st|]. destruct (release_ok d ds st (Hds d (list_elem_of_here _ _)) Hok) as (st1 & -> & Hok1 & Ho1).
  destruct (IH (λ x Hx, Hds x (list_elem_of_further _ _ _ Hx)) st1 Hok1) as (st' & Hf & Hok' & Ho). exists st'. cbn [mbind option_bind]. split_and!; [done..|congruence].
Qed.
Lemma order_short st : kahn_ok [] st → length (order st ++ ready st) ≤ n.
Proof.
  intros Hok. assert (as_usize <$> order st ++ ready st ⊆+ seq 0 n) as Hs; [|apply submseteq_length in Hs; by rewrite length_fmap, length_seq in Hs].
  apply NoDup_submseteq.
  - apply NoDup_fmap_2; [intros a b; apply N2Nat.inj|]. apply Hok.
  - intros k (v & -> & Hv)%list_elem_of_fmap. apply elem_of_seq. pose proof (ko_range _ _ Hok v Hv). lia.
Qed.
Lemma kahn_loop_ok dep : (∀ u, as_usize u < n → dep !! as_usize u = Some (deps_of u)) → ∀ fuel st, n ≤ fuel + length (order st) → kahn_ok [] st →
  ∃ st', kahn_loop fuel dep st = Some (order st') ∧ kahn_ok [] st' ∧ ready st' = [].
Proof.
  intros Hdep. induction fuel as [|fuel IH]; intros st Hfuel Hok; cbn [kahn_loop]; destruct (ready st) as [|u rest] eqn:Hr; try by exists st.
  - pose proof (order_short st Hok) as Hs. rewrite Hr, length_app in Hs. cbn in Hs. lia.
  - assert (u ∈ order st ++ ready st) as Hu by (rewrite Hr; set_solver). pose proof (ko_range _ _ Hok u Hu) as Hun. rewrite (Hdep u Hun). cbn [mbind option_bind].
    assert (u ∉ order st) as Hno by (pose proof (ko_nodup _ _ Hok) as Hnd; rewrite Hr in Hnd; apply NoDup_app in Hnd as (_ & Hx & _); intros Hi; apply (Hx u Hi); left).
    destruct (releases_ok (deps_of u)) with (st := mkKahn (indegree st) rest (order st ++ [u])) as (st1 & -> & Hok1 & Ho1).
    { intros d (e & -> & [_ He]%list_elem_of_filter)%list_elem_of_fmap. apply (Hin e He). }
    { destruct Hok as [Hlen Hrange Hnd Hcount Hzero Htopo]. rewrite Hr in *. assert ((order st ++ [u]) ++ rest = order st ++ u :: rest) as Happ by (by rewrite <- app_assoc).
      split; cbn [indegree ready order]; rewrite ?Happ; try done.
      - intros v Hv. rewrite (Hcount v Hv), (pend_snoc _ u v Hno). unfold times at 1. cbn. by rewrite Nat.add_0_r.
      - intros v Hv. rewrite (Hzero v Hv), (pend_snoc _ u v Hno). unfold times at 2. cbn. by rewrite Nat.add_0_r.
      - intros l1 v l2 Hl w Hw. destruct l2 as [|x l2 _] using rev_ind.
        + apply app_inj_tail in Hl as [<- <-]. apply (proj1 (pend_zero (order st) u)); [|done]. pose proof (proj1 (Hzero u Hun) Hu). lia.
        + rewrite app_comm_cons, app_assoc in Hl. apply app_inj_tail in Hl as [Hl _]. by eapply Htopo. }
    apply IH; [|done]. rewrite Ho1. cbn [order]. rewrite length_app. cbn. lia.
Qed.

(** *** Orders and cycles *)

Lemma topo_before order : (∀ l1 v l2, order = l1 ++ v :: l2 → ∀ u, (u, v) ∈ edges → u ∈ l1) → ∀ u v, tc (edge_in edges) u v → ∀ l1 l2, order = l1 ++ v :: l2 → u ∈ l1.
Proof.
  intros Htopo. induction 1 as [u v Huv|u w v Huw _ IH]; intros l1 l2 Hl; [by eapply Htopo|].
  pose proof (IH l1 l2 Hl) as Hw. apply list_elem_of_split in Hw as (a & c & ->). rewrite <- app_assoc in Hl. cbn in Hl. pose proof (Htopo _ _ _ Hl u Huw). set_solver.
Qed.
Lemma tc_walk (walk : nat → N) i d : (∀ k, edge_in edges (walk (S k)) (walk k)) → tc (edge_in edges) (walk (S d + i)) (walk i).
Proof. intros Hw. induction d as [|d IH]; [apply tc_once, Hw|]. eapply tc_l; [apply Hw|exact IH]. Qed.
(** Where every node left has a predecessor left, there is a cycle. *)
Lemma stuck_cycle (X : N → Prop) w : X w → (∀ v, X v → as_usize v < n) → (∀ v, X v → ∃ u, X u ∧ (u, v) ∈ edges) →
  (∀ v, Decision (X v)) → ∃ v, tc (edge_in edges) v v.
Proof.
  intros Hw Hlt Hpred Hdec. set (pred v := match filter (λ e : N * N, e.2 = v ∧ X e.1) edges with e :: _ => e.1 | [] => v end).
  assert (∀ v, X v → X (pred v) ∧ (pred v, v) ∈ edges) as Hp.
  { intros v Hv. unfold pred. destruct (filter _ edges) as [|[a b] l] eqn:Hf.
    - destruct (Hpred v Hv) as (u & Hu & He). exfalso. apply (not_elem_of_nil (u, v)). rewrite <- Hf. by apply list_elem_of_filter.
    - assert ((a, b) ∈ (a, b) :: l) as Hx by left. rewrite <- Hf in Hx. apply list_elem_of_filter in Hx as [[? ?] ?]. cbn in *. by subst. }
  set (walk k := Nat.iter k pred w). assert (∀ k, X (walk k)) as HX by (induction k; [done|by apply Hp]).
  assert (∀ k, edge_in edges (walk (S k)) (walk k)) as Hedge by (intros k; by apply Hp).
  destruct (decide (Exists (λ j, Exists (λ i, i < j ∧ walk i = walk j) (seq 0 (S n))) (seq 0 (S n)))) as [Hex|Hno].
  - apply Exists_exists in Hex as (j & _ & (i & _ & Hij & Heq)%Exists_exists). exists (walk i). pose proof (tc_walk walk i (j - S i) Hedge) as Ht.
    replace (S (j - S i) + i) with j in Ht by lia. by rewrite <- Heq in Ht.
  - exfalso. assert (NoDup ((λ k, as_usize (walk k)) <$> seq 0 (S n))) as Hnd.
    { apply NoDup_fmap_2_strong, NoDup_seq. intros i j Hi Hj Heq. apply N2Nat.inj in Heq. destruct (Nat.lt_trichotomy i j) as [Hl|[?|Hl]]; [|done|]; exfalso; apply Hno, Exists_exists.
      - exists j. split; [done|]. apply Exists_exists. by exists i.
      - exists i. split; [done|]. apply Exists_exists. by exists j. }
    apply (NoDup_submseteq _ (seq 0 n)), submseteq_length in Hnd; [rewrite length_fmap, !length_seq in Hnd; lia|].
    intros k (i & -> & _)%list_elem_of_fmap. apply elem_of_seq. pose proof (Hlt _ (HX i)). lia.
Qed.
Lemma kahn_spec : ∃ r, kahn n edges = Some r ∧
  match r with
  | Some order => as_usize <$> order ≡ₚ seq 0 n ∧ (∀ l1 v l2, order = l1 ++ v :: l2 → ∀ u, (u, v) ∈ edges → u ∈ l1) ∧ ¬ ∃ v, tc (edge_in edges) v v
  | None => ∃ v, tc (edge_in edges) v v
  end.
Proof.
  destruct (count_edges_exact edges Hin (replicate n 0) (replicate n [])) as (ind & dep & Hf & Hli & Hld & Hind & Hdep); [by rewrite length_replicate..|].
  assert (∀ v, as_usize v < n → ind !! as_usize v = Some (pend [] v)) as Hind0.
  { intros v Hv. rewrite (Hind v 0) by (by apply lookup_replicate_2). f_equal. unfold pend. cbn [Nat.add]. apply f_equal, list_filter_iff. intros e. set_solver. }
  unfold kahn. rewrite Hf. cbn [mbind option_bind]. set (zero := filter _ _).
  assert (∀ v, v ∈ zero ↔ as_usize v < n ∧ pend [] v = 0) as Hz.
  { intros v. unfold zero. rewrite list_elem_of_filter, list_elem_of_fmap. setoid_rewrite elem_of_seq. split.
    - intros [Hz (k & -> & Hk)]. unfold as_usize in *. rewrite Nat2N.id in *. split; [lia|]. assert (as_usize (N.of_nat k) < n) as Hlt by (unfold as_usize; lia).
      pose proof (Hind0 (N.of_nat k) Hlt) as Hi. unfold as_usize in Hi. rewrite Nat2N.id in Hi. congruence.
    - intros [Hv Hz]. split; [by rewrite (Hind0 v Hv), Hz|]. exists (as_usize v). unfold as_usize. split; [lia|]. unfold as_usize in Hv. lia. }
  destruct (kahn_loop_ok dep) with (fuel := n) (st := mkKahn ind (reverse zero) []) as (st & -> & Hok & Hready).
  { intros u Hu. rewrite (Hdep u []) by (by apply lookup_replicate_2). done. }
  { cbn. lia. }
  { split; cbn [indegree ready order app]; try done.
    - intros v. rewrite elem_of_reverse. intros Hv. by apply Hz.
    - rewrite reverse_Permutation. apply NoDup_filter, NoDup_fmap_2; [intros a b; apply Nat2N.inj|apply NoDup_seq].
    - intros v Hv. rewrite (Hind0 v Hv). unfold times. cbn. by rewrite Nat.add_0_r.
    - intros v Hv. rewrite elem_of_reverse, Hz. unfold times. cbn. rewrite Nat.add_0_r. tauto.
    - intros l1 v l2 Hl. by destruct l1. }
  eexists. split; [done|]. destruct Hok as [Hlen Hrange Hnd Hcount Hzero Htopo]. rewrite Hready, app_nil_r in *.
  assert (NoDup (as_usize <$> order st)) as Hnd' by (apply NoDup_fmap_2; [intros a b; apply N2Nat.inj|done]).
  assert (as_usize <$> order st ⊆+ seq 0 n) as Hsub.
  { apply NoDup_submseteq; [done|]. intros k (v & -> & Hv)%list_elem_of_fmap. apply elem_of_seq. pose proof (Hrange v Hv). lia. }
  case_decide as Hall.
  - split_and!; [|done|].
    + apply submseteq_length_Permutation; [done|]. rewrite length_fmap, length_seq. lia.
    + intros [v Hv]. assert (∃ u, (u, v) ∈ edges) as [u Hu] by (clear -Hv; induction Hv; eauto). destruct (Hin _ Hu) as [_ Hvn]. cbn [snd] in Hvn.
      assert (as_usize v ∈ as_usize <$> order st) as (x & Hx & Hxo)%list_elem_of_fmap.
      { eapply elem_of_Permutation_proper; [apply submseteq_length_Permutation; [done|rewrite length_fmap, length_seq; lia]|]. apply elem_of_seq. lia. }
      apply N2Nat.inj in Hx as <-. apply list_elem_of_split in Hxo as (l1 & l2 & Hl). pose proof (topo_before (order st) Htopo v v Hv l1 l2 Hl) as Hv1.
      rewrite Hl in Hnd. apply NoDup_app in Hnd as (_ & Hno & _). by apply (Hno v Hv1); left.
  - destruct (decide (Forall (λ k, N.of_nat k ∈ order st) (seq 0 n))) as [Hfull|Hmiss].
    + exfalso. apply Hall. apply submseteq_length in Hsub. rewrite length_fmap, length_seq in Hsub.
      assert (seq 0 n ⊆+ as_usize <$> order st) as Hsup; [|apply submseteq_length in Hsup; rewrite length_fmap, length_seq in Hsup; lia].
      apply NoDup_submseteq; [apply NoDup_seq|]. intros k Hk. rewrite Forall_forall in Hfull. apply list_elem_of_fmap. exists (N.of_nat k). split; [unfold as_usize; lia|by apply Hfull].
    + apply not_Forall_Exists in Hmiss; [|apply _]. apply Exists_exists in Hmiss as (k & Hk%elem_of_seq & Hno).
      apply (stuck_cycle (λ v, as_usize v < n ∧ v ∉ order st) (N.of_nat k)); [split; [unfold as_usize; lia|done]|tauto| |apply _].
      intros v [Hv Hvo]. rewrite (Hzero v Hv) in Hvo. unfold times in Hvo. cbn in Hvo. rewrite Nat.add_0_r in Hvo.
      unfold pend in Hvo. destruct (filter _ edges) as [|[a b] l] eqn:Hfl; [done|]. assert ((a, b) ∈ (a, b) :: l) as Hx by left. rewrite <- Hfl in Hx.
      apply list_elem_of_filter in Hx as [[Hb Ha] Hx]. cbn in Hb, Ha. subst b. exists a. destruct (Hin _ Hx). done.
Qed.
End kahn.

(** ** The survey *)

(** src/crates/weave-graph-cli/src/migration.rs:41-46 [split_moniker] *)
Definition split_moniker (m : string) : string * string := match split_once m "#" with Some p => p | None => ("", m) end.
(** src/crates/weave-graph-cli/src/migration.rs:49-54 [CrossRef] *)
Record CrossRef := mkCross { cr_caller : string; cr_target : string; cr_file : string; cr_symbol : string }.
(** src/crates/weave-graph-cli/src/migration.rs:66-77 [cross_references]
    From a file of one repository to another. *)
Definition file_refs (caller provider : RepoGraph) (p : string * ParsedFile) : option (list CrossRef) :=
  match resolve_cross_repo (repo_hash caller) (repo_hash provider) (project_index caller) p.2 (project_index provider) with
  | Some es => Some (map (λ e, mkCross (label caller) (label provider) p.1 (split_moniker (re_target e)).2) es)
  | None => None
  end.
(** src/crates/weave-graph-cli/src/migration.rs:63-79 [cross_references] *)
Definition cross_of (p : (nat * RepoGraph) * (nat * RepoGraph)) : option (list CrossRef) :=
  if decide (p.1.1 = p.2.1) then Some [] else (λ ls, mjoin ls) <$> mapM (file_refs p.1.2 p.2.2) (parsed_files p.1.2).
(** src/crates/weave-graph-cli/src/migration.rs:59-82 [cross_references] *)
Definition cross_references (repos : list RepoGraph) : option (list CrossRef) :=
  let numbered := imap (λ i (g : RepoGraph), (i, g)) repos in
  (λ ls, mjoin ls) <$> mapM cross_of (numbered ≫= λ c, pair c <$> numbered).

(** src/crates/weave-graph-cli/src/migration.rs:23-26 [AffectedRepo] *)
Record AffectedRepo := mkAffected { ar_label : string; caller_files : list string }.
(** src/crates/weave-graph-cli/src/migration.rs:32-38 [Survey] *)
Record Survey := mkSurvey {
  provider : string;
  affected : list AffectedRepo;
  plan_order : option (list string);
  node_labels : list string;
  ordering_edges : list (N * N);
}.
Inductive survey_error := NoProvider | NothingToPlan.

(** src/crates/weave-graph-cli/src/migration.rs:96-108 [survey]
    The files under each caller. *)
Definition add_affected (prov symbol : string) (m : gmap string (list string)) (r : CrossRef) : gmap string (list string) :=
  if decide (cr_target r ≠ prov ∨ cr_symbol r ≠ symbol ∨ cr_caller r = prov) then m
  else <[cr_caller r := default [] (m !! cr_caller r) ++ [cr_file r]]> m.
(** src/crates/weave-graph-cli/src/migration.rs:125-129 [survey] *)
Definition ids_of (labels : list string) : gmap string N := list_to_map (imap (λ i l, (l, as_u32 i)) labels).
(** src/crates/weave-graph-cli/src/migration.rs:130-134 [survey]
    A label without a number is a panic. *)
Definition order_edges (labels : list string) (refs : list CrossRef) : option (list (N * N)) :=
  mapM (λ r, u ← ids_of labels !! cr_caller r; v ← ids_of labels !! cr_target r; Some (u, v))
    (filter (λ r, cr_caller r ∈ labels ∧ cr_target r ∈ labels) refs).
(** src/crates/weave-graph-cli/src/migration.rs:84-150 [survey] *)
Definition survey (repos : list RepoGraph) (symbol : string) : option (result Survey survey_error) :=
  match list_find (λ g, existsb (λ n, bool_decide (node_symbol n = symbol)) (repo_nodes g) = true) repos with
  | None => Some (Err NoProvider)
  | Some (_, g) =>
      let prov := label g in
      refs ← cross_references repos;
      let by_caller := foldl (add_affected prov symbol) ∅ refs in
      if decide (by_caller = ∅) then Some (Err NothingToPlan) else
      let callers := btree_iter String.leb (dom by_caller) in
      let labels := btree_iter String.leb ({[prov]} ∪ dom by_caller) in
      edges ← order_edges labels refs;
      r ← kahn (length labels) edges;
      order ← match r with None => Some None | Some seq => l ← mapM (λ i : N, labels !! as_usize i) seq; Some (Some l) end;
      Some (Ok (mkSurvey prov ((λ c, mkAffected c (dedup (sort_by String.leb (default [] (by_caller !! c))))) <$> callers) order labels edges))
  end.

(** ** The plan *)

(** src/crates/weave-graph-cli/src/migration.rs:190-208 [render_plan]
    One step; [step] counts from zero. *)
Definition plan_step (prov symbol : string) (aff : list AffectedRepo) (step : nat) (lbl : string) : string :=
  "## Step " +:+ dec (N.of_nat (S step)) +:+ ": " +:+ lbl +:+ newline +:+
  if decide (lbl = prov) then "- Remove or rename `" +:+ symbol +:+ "` now that every listed caller has migrated." +:+ newline else
  match list_find (λ r, ar_label r = lbl) aff with
  | None => "- Caller inventory was unavailable; re-run the migration survey." +:+ newline
  | Some (_, repo) =>
      "- Update callers of `" +:+ symbol +:+ "` (provided by " +:+ prov +:+ ") in:" +:+ newline +:+
      foldr String.append "" ((λ f, "  - " +:+ f +:+ newline) <$> caller_files repo)
  end.
(** src/crates/weave-graph-cli/src/migration.rs:177-210 [render_plan] *)
Definition render_plan (prov symbol : string) (aff : list AffectedRepo) (order : list string) : string :=
  "# Migration Plan: deprecate `" +:+ symbol +:+ "` (" +:+ prov +:+ ")" +:+ newline +:+ newline +:+
  dec (N.of_nat (length aff)) +:+ " repo(s) call it across the federation. Order is dependency-driven: a repo" +:+ newline +:+
  "that depends on another migrates first, so the deprecated symbol is only" +:+ newline +:+
  "removed after every caller is off it." +:+ newline +:+ newline +:+ foldr String.append "" (imap (plan_step prov symbol aff) order).
(** src/crates/weave-graph-cli/src/migration.rs:212-234 [cycle_message] *)
Definition cycle_message (s : Survey) : option string :=
  comps ← tarjan_scc (N.of_nat <$> seq 0 (length (node_labels s))) (ordering_edges s);
  names ← mapM (λ c : list N, l ← mapM (λ i : N, node_labels s !! as_usize i) c; Some (join " -> " l)) (filter (λ c, 1 < length c) comps);
  Some ("cross-repo dependency cycle detected (" +:+ join " | " names +:+ ") — refusing to pick an arbitrary migration order; break the cycle first").

Inductive plan_error := SameLabels | SurveyFailed (e : survey_error) | Cyclic (message : string).
(** src/crates/weave-graph-cli/src/migration.rs:238-275 [cmd_plan_migration]
    Of the repositories as loaded: the plan that is printed and written. *)
Definition cmd_plan_migration (repos : list RepoGraph) (symbol : string) : option (result string plan_error) :=
  if decide (size (list_to_set (label <$> repos) : gset string) ≠ length repos) then Some (Err SameLabels) else
  r ← survey repos symbol;
  match r with
  | Err e => Some (Err (SurveyFailed e))
  | Ok s => match plan_order s with
            | None => m ← cycle_message s; Some (Err (Cyclic m))
            | Some order => Some (Ok (render_plan (provider s) symbol (affected s) order))
            end
  end.

(** ** What a survey finds *)

Definition before (o : list string) (a b : string) : Prop := ∃ l1 l2, o = l1 ++ b :: l2 ∧ a ∈ l1.
(** [a] of the surveyed repositories references [b]. *)
Definition depends (refs : list CrossRef) (labels : list string) (a b : string) : Prop := a ∈ labels ∧ b ∈ labels ∧ ∃ r, r ∈ refs ∧ cr_caller r = a ∧ cr_target r = b.
(** A reference to the deprecated symbol from another repository. *)
Definition calls_it (prov symbol : string) (r : CrossRef) : Prop := cr_target r = prov ∧ cr_symbol r = symbol ∧ cr_caller r ≠ prov.

Lemma add_affected_spec prov symbol refs c :
  (∀ f, f ∈ default [] (foldl (add_affected prov symbol) ∅ refs !! c) ↔ ∃ r, r ∈ refs ∧ calls_it prov symbol r ∧ cr_caller r = c ∧ cr_file r = f) ∧
  (is_Some (foldl (add_affected prov symbol) ∅ refs !! c) ↔ ∃ r, r ∈ refs ∧ calls_it prov symbol r ∧ cr_caller r = c).
Proof.
  induction refs as [|r refs [IHf IHd]] using rev_ind.
  { cbn. rewrite lookup_empty. split; [intros f|]; (split; [|by intros (r & ?%not_elem_of_nil & _)]); [by intros ?%not_elem_of_nil|by intros [? ?]]. }
  rewrite foldl_snoc. set (m := foldl _ ∅ refs) in *. unfold add_affected. setoid_rewrite elem_of_app. setoid_rewrite list_elem_of_singleton.
  destruct (decide (cr_target r ≠ prov ∨ cr_symbol r ≠ symbol ∨ cr_caller r = prov)) as [Hskip|Htake].
  - assert (¬ calls_it prov symbol r) as Hno by (unfold calls_it; tauto).
    split; [intros f; rewrite IHf|rewrite IHd]; (split; [intros (x & ? & ?); exists x; auto|intros (x & [?| ->] & Hc & ?); [exists x; auto|done]]).
  - assert (calls_it prov symbol r) as Hyes.
    { unfold calls_it. split_and!; [destruct (decide (cr_target r = prov)); tauto|destruct (decide (cr_symbol r = symbol)); tauto|tauto]. }
    destruct (decide (cr_caller r = c)) as [<-|Hne].
    + rewrite lookup_insert_eq. cbn. split; [|split; [intros _; exists r; auto|done]]. intros f. rewrite elem_of_app, list_elem_of_singleton, IHf. split.
      * intros [(x & ? & ?)| ->]; [exists x; auto|exists r; auto].
      * intros (x & [?| ->] & ? & ? & <-); [left; exists x; auto|by right].
    + rewrite lookup_insert_ne by done.
      split; [intros f; rewrite IHf|rewrite IHd]; (split; [intros (x & ? & ?); exists x; auto|]).
      * intros (x & [?| ->] & ? & ? & ?); [exists x; auto|done].
      * intros (x & [?| ->] & ? & ?); [exists x; auto|done].
Qed.
Lemma NoDup_btree_iter (s : gset string) : NoDup (btree_iter String.leb s).
Proof. unfold btree_iter. rewrite merge_sort_Permutation. apply NoDup_elements. Qed.

Section labels.
Context (labels : list string) (Hnd : NoDup labels) (Hfit : (N.of_nat (length labels) ≤ u32_MAX)%N).

Lemma ids_of_lookup l u : ids_of labels !! l = Some u ↔ labels !! as_usize u = Some l.
Proof.
  unfold ids_of. assert (∀ i x, labels !! i = Some x → as_u32 i = N.of_nat i) as Hsmall.
  { intros i x Hi. apply lookup_lt_Some in Hi. apply as_u32_small. lia. }
  rewrite <- elem_of_list_to_map.
  - rewrite list_elem_of_lookup. setoid_rewrite list_lookup_imap. setoid_rewrite fmap_Some. split.
    + intros (i & x & Hx & Heq). injection Heq as -> ->. rewrite (Hsmall i x Hx). unfold as_usize. by rewrite Nat2N.id.
    + intros Hl. exists (as_usize u), l. split; [done|]. f_equal. rewrite (Hsmall _ _ Hl). unfold as_usize. by rewrite N2Nat.id.
  - match goal with |- NoDup ?l => assert (l = labels) as ->; [|done] end.
    clear. apply list_eq. intros i. rewrite list_lookup_fmap, list_lookup_imap. by destruct (labels !! i).
Qed.
Lemma label_number l : l ∈ labels → ∃ u, ids_of labels !! l = Some u ∧ as_usize u < length labels.
Proof.
  intros [i Hi]%list_elem_of_lookup. exists (N.of_nat i). rewrite ids_of_lookup. unfold as_usize. rewrite Nat2N.id. split; [done|]. by eapply lookup_lt_Some.
Qed.
Lemma order_edges_exact refs : ∃ edges, order_edges labels refs = Some edges ∧
  ∀ u v, (u, v) ∈ edges ↔ ∃ a b, labels !! as_usize u = Some a ∧ labels !! as_usize v = Some b ∧ depends refs labels a b.
Proof.
  unfold order_edges. set (g r := match ids_of labels !! cr_caller r, ids_of labels !! cr_target r with Some u, Some v => (u, v) | _, _ => (0%N, 0%N) end).
  set (rs := filter _ refs). assert (∀ r, r ∈ rs → (u ← ids_of labels !! cr_caller r; v ← ids_of labels !! cr_target r; Some (u, v)) = Some (g r)) as Hg.
  { intros r [[Ha Hb] _]%list_elem_of_filter. unfold g. destruct (label_number _ Ha) as (u & -> & _), (label_number _ Hb) as (v & -> & _). done. }
  exists (g <$> rs). split.
  - clear -Hg. induction rs as [|r rs IH]; [done|]. cbn [mapM]. rewrite (Hg r) by left. cbn [mbind option_bind]. rewrite IH; [done|]. intros x Hx. apply Hg. by right.
  - intros u v. rewrite list_elem_of_fmap. unfold depends. split.
    + intros (r & Hr & Hin). pose proof (proj1 (list_elem_of_filter _ _ _) Hin) as [[Ha Hb] Hin']. unfold g in Hr.
      destruct (label_number _ Ha) as (u' & Hu & _), (label_number _ Hb) as (v' & Hv & _). rewrite Hu, Hv in Hr. simplify_eq.
      exists (cr_caller r), (cr_target r). rewrite <- !ids_of_lookup. split_and!; try done. by exists r.
    + intros (a & b & Hu & Hv & Ha & Hb & r & Hr & <- & <-). exists r. rewrite <- !ids_of_lookup in *. unfold g. rewrite Hu, Hv. split; [done|]. by apply list_elem_of_filter.
Qed.
End labels.

(** *** From numbers to labels *)

Lemma order_perm (labels : list string) (order : list N) o : as_usize <$> order ≡ₚ seq 0 (length labels) → Forall2 (λ i l, labels !! as_usize i = Some l) order o → o ≡ₚ labels.
Proof.
  intros Hp HF. assert (o = (λ k, default "" (labels !! k)) <$> (as_usize <$> order)) as ->.
  { clear Hp. induction HF as [|i l order o Hi _ IH]; [done|]. cbn. by rewrite Hi, IH. }
  rewrite Hp. assert ((λ k, default "" (labels !! k)) <$> seq 0 (length labels) = labels) as ->; [|done]. apply list_eq. intros i. rewrite list_lookup_fmap.
  destruct (decide (i < length labels)) as [Hi|Hi].
  - rewrite lookup_seq_lt by done. cbn. by destruct (lookup_lt_is_Some_2 labels i Hi) as [x ->].
  - rewrite lookup_seq_ge by lia. cbn. symmetry. apply lookup_ge_None. lia.
Qed.
Lemma order_before (labels : list string) refs (edges : list (N * N)) (order : list N) o :
  (∀ u v, (u, v) ∈ edges ↔ ∃ a b, labels !! as_usize u = Some a ∧ labels !! as_usize v = Some b ∧ depends refs labels a b) → NoDup labels →
  as_usize <$> order ≡ₚ seq 0 (length labels) → (∀ l1 v l2, order = l1 ++ v :: l2 → ∀ u, (u, v) ∈ edges → u ∈ l1) →
  Forall2 (λ i l, labels !! as_usize i = Some l) order o → ∀ a b, depends refs labels a b → before o a b.
Proof.
  intros Hedges Hnd Hp Htopo HF a b Hd. pose proof Hd as (Ha & Hb & _). rewrite <- (order_perm labels order o Hp HF) in Hb. apply list_elem_of_split in Hb as (o1 & o2 & Ho).
  rewrite Ho in HF. apply Forall2_app_inv_r in HF as (l1 & l2 & HF1 & HF2 & Hl). apply Forall2_cons_inv_r in HF2 as (v & l3 & Hv & HF3 & ->).
  exists o1, o2. split; [done|]. apply list_elem_of_lookup in Ha as [k Hk].
  assert (N.of_nat k ∈ l1) as Hin.
  { eapply Htopo; [exact Hl|]. apply Hedges. exists a, b. split_and!; [|done|done]. unfold as_usize. by rewrite Nat2N.id. }
  apply list_elem_of_lookup in Hin as [p Hp1]. destruct (Forall2_lookup_l _ _ _ _ _ HF1 Hp1) as (x & Hx & Hxk). cbn in Hxk. unfold as_usize in Hxk. rewrite Nat2N.id in Hxk. simplify_eq.
  by eapply list_elem_of_lookup_2.
Qed.

(** A reference comes from a file that names what its own repository does not
    declare and the other does. *)
Record cross_ref (repos : list RepoGraph) (r : CrossRef) : Prop := {
  cx_from : ∃ i j g h file src tgt name, i ≠ j ∧ repos !! i = Some g ∧ repos !! j = Some h ∧ label g = cr_caller r ∧ label h = cr_target r ∧
    (cr_file r, file) ∈ parsed_files g ∧ refers file src name ∧ declared_in g name = [] ∧ tgt ∈ declared_in h name ∧ cr_symbol r = (split_moniker tgt).2;
}.
Lemma mapM_join_total {A B} (f : A → option (list B)) (P : B → Prop) l : (∀ x, x ∈ l → ∃ ys, f x = Some ys ∧ ∀ y, y ∈ ys → P y) →
  ∃ ys, (λ ls, mjoin ls) <$> mapM f l = Some ys ∧ ∀ y, y ∈ ys → P y.
Proof.
  induction l as [|x l IH]; intros Hl; [exists []; split; [done|by intros y ?%not_elem_of_nil]|]. destruct (Hl x) as (ys & Hf & Hys); [left|].
  destruct IH as (zs & Hm & Hzs); [intros z Hz; apply Hl; by right|]. cbn [mapM]. rewrite Hf. cbn [mbind option_bind].
  destruct (mapM f l) as [ls|]; [|done]. injection Hm as <-. cbn. eexists. split; [done|]. intros y [?|?]%elem_of_app; auto.
Qed.
Lemma file_refs_sound g h p : repo_ok g → repo_ok h → ∃ rs, file_refs g h p = Some rs ∧ ∀ r, r ∈ rs → cr_caller r = label g ∧ cr_target r = label h ∧ cr_file r = p.1 ∧
  ∃ src tgt name, refers p.2 src name ∧ declared_in g name = [] ∧ tgt ∈ declared_in h name ∧ cr_symbol r = (split_moniker tgt).2.
Proof.
  intros [_ Hg Hfg] [_ Hh Hfh]. unfold file_refs. destruct (cross_repo_sound (repo_hash g) (repo_hash h) _ _ p.2 Hfg Hfh) as (ix & fx & es & Hix & Hfx & Hes & Hall).
  rewrite Hg in Hix. rewrite Hh in Hfx. injection Hix as <-. injection Hfx as <-. rewrite Hes. eexists. split; [done|].
  intros r (e & -> & He)%list_elem_of_fmap. destruct (Hall e He) as (_ & name & ? & ? & ?). cbn. split_and!; [done..|]. by exists (re_source e), (re_target e), name.
Qed.
Lemma cross_references_sound repos : Forall repo_ok repos → ∃ refs, cross_references repos = Some refs ∧ ∀ r, r ∈ refs → cross_ref repos r.
Proof.
  intros Hok. rewrite Forall_forall in Hok. unfold cross_references. apply mapM_join_total.
  assert (∀ i g, (i, g) ∈ imap (λ i (g : RepoGraph), (i, g)) repos → repos !! i = Some g) as Hat.
  { intros i g [k Hk]%list_elem_of_lookup. rewrite list_lookup_imap in Hk. apply fmap_Some in Hk as (x & Hx & [= -> ->]). done. }
  intros [[i g] [j h]] ([i' g'] & Hb & Hig)%list_elem_of_bind. apply list_elem_of_fmap in Hb as (? & [= -> -> <-] & Hjh).
  apply Hat in Hig as Hi, Hjh as Hj. unfold cross_of. cbn [fst snd]. case_decide as Hij; [exists []; split; [done|by intros y ?%not_elem_of_nil]|].
  apply mapM_join_total. intros [path file] Hp.
  destruct (file_refs_sound g' h (path, file)) as (rs & Hrs & Hall); [by eapply Hok, list_elem_of_lookup_2..|]. exists rs. split; [done|].
  intros r Hr. destruct (Hall r Hr) as (Hc & Ht & Hf & src & tgt & name & ? & ? & ? & ?). cbn [fst snd] in *. split. exists i', j, g', h, file, src, tgt, name. rewrite Hf. split_and!; done.
Qed.

(** C27: a migration plan is a topological order, or there is none.  For
    repositories with distinct labels the survey returns: with an error where no
    repository defines the symbol, or none calls it across the federation; else
    with exactly the calling repositories and their files, and with an order of
    these and the provider in which every repository comes before those it
    references, the provider therefore after all callers, unless the references
    between them are cyclic. *)
Theorem survey_exact repos symbol : Forall repo_ok repos → NoDup (label <$> repos) → (N.of_nat (S (length repos)) ≤ u32_MAX)%N →
  ∃ refs, cross_references repos = Some refs ∧ (∀ r, r ∈ refs → cross_ref repos r) ∧
  match survey repos symbol with
  | None => False
  | Some (Err NoProvider) => ∀ g n, g ∈ repos → n ∈ repo_nodes g → node_symbol n ≠ symbol
  | Some (Err NothingToPlan) => ∃ g n, g ∈ repos ∧ n ∈ repo_nodes g ∧ node_symbol n = symbol ∧ ∀ r, r ∈ refs → ¬ calls_it (label g) symbol r
  | Some (Ok s) =>
      (∃ g n, g ∈ repos ∧ label g = provider s ∧ n ∈ repo_nodes g ∧ node_symbol n = symbol) ∧
      (∀ c f, (∃ a, a ∈ affected s ∧ ar_label a = c ∧ f ∈ caller_files a) ↔ ∃ r, r ∈ refs ∧ calls_it (provider s) symbol r ∧ cr_caller r = c ∧ cr_file r = f) ∧
      (∀ l, l ∈ node_labels s ↔ l = provider s ∨ l ∈ ar_label <$> affected s) ∧
      match plan_order s with
      | Some o => o ≡ₚ node_labels s ∧ (∀ a b, depends refs (node_labels s) a b → before o a b) ∧ ∀ a, a ∈ affected s → before o (ar_label a) (provider s)
      | None => ∃ l, tc (depends refs (node_labels s)) l l
      end
  end.
Proof.
  intros Hok Hnd Hfit. destruct (cross_references_sound repos Hok) as (refs & Hrefs & Hsound). exists refs. split_and!; [done..|]. unfold survey.
  destruct (list_find _ repos) as [[i g]|] eqn:Hf.
  2: { apply list_find_None in Hf. rewrite Forall_forall in Hf. intros g n Hg Hn Hs. apply (Hf g Hg), existsb_exists. exists n. rewrite <- list_elem_of_In. split; [done|]. by apply bool_decide_eq_true. }
  apply list_find_Some in Hf as (Hg & (n & Hn%list_elem_of_In & Hs%bool_decide_eq_true)%existsb_exists & _). apply list_elem_of_lookup_2 in Hg. rewrite Hrefs. cbn [mbind option_bind].
  set (m := foldl _ ∅ refs). pose proof (add_affected_spec (label g) symbol refs) as Hspec. fold m in Hspec.
  assert (∀ c, c ∈ dom m ↔ ∃ r, r ∈ refs ∧ calls_it (label g) symbol r ∧ cr_caller r = c) as Hdom by (intros c; rewrite elem_of_dom; apply Hspec).
  case_decide as Hempty.
  { exists g, n. split_and!; [done..|]. intros r Hr Hc. assert (cr_caller r ∈ dom m) as Hd by (apply Hdom; eauto). by rewrite Hempty, dom_empty_L in Hd. }
  set (labels := btree_iter String.leb ({[label g]} ∪ dom m)). assert (∀ l, l ∈ labels ↔ l = label g ∨ l ∈ dom m) as Hlab by (intros l; unfold labels; rewrite elem_of_btree_iter, elem_of_union, elem_of_singleton; tauto).
  assert (NoDup labels) as Hndl by apply NoDup_btree_iter.
  assert (length labels ≤ length repos) as Hlen.
  { rewrite <- (length_fmap label). apply submseteq_length, NoDup_submseteq; [done|]. intros l [->|(r & Hr & _ & <-)%Hdom]%Hlab; [by apply list_elem_of_fmap_2|].
    destruct (Hsound r Hr) as [(a & b & ga & gb & file & src & tgt & name & _ & Ha & _ & <- & _)]. apply list_elem_of_fmap_2. by eapply list_elem_of_lookup_2. }
  assert ((N.of_nat (length labels) ≤ u32_MAX)%N) as Hfit' by lia.
  destruct (order_edges_exact labels Hndl Hfit' refs) as (edges & -> & Hedges). cbn [mbind option_bind].
  destruct (kahn_spec (length labels) edges) as (r & -> & Hr).
  { intros [u v] (a & b & Hu%lookup_lt_Some & Hv%lookup_lt_Some & _)%Hedges. done. }
  cbn [mbind option_bind]. set (aff := _ <$> btree_iter _ (dom m)).
  assert (∀ a, a ∈ aff ↔ a = mkAffected (ar_label a) (dedup (sort_by String.leb (default [] (m !! ar_label a)))) ∧ ar_label a ∈ dom m) as Haff.
  { intros a. unfold aff. rewrite list_elem_of_fmap. setoid_rewrite elem_of_btree_iter. split; [by intros (c & -> & Hc)|]. intros [He Hc]. by exists (ar_label a). }
  assert (∀ c f, (∃ a, a ∈ aff ∧ ar_label a = c ∧ f ∈ caller_files a) ↔ ∃ r, r ∈ refs ∧ calls_it (label g) symbol r ∧ cr_caller r = c ∧ cr_file r = f) as Hfiles.
  { intros c f. rewrite <- (proj1 (Hspec c) f). split.
    - intros (a & [He Hc]%Haff & <- & Hfa). rewrite He in Hfa. cbn in Hfa. by rewrite elem_of_dedup, elem_of_sort_by in Hfa.
    - intros Hfc. exists (mkAffected c (dedup (sort_by String.leb (default [] (m !! c))))). cbn. rewrite elem_of_dedup, elem_of_sort_by. split_and!; try done. apply Haff. cbn.
      split; [done|]. apply elem_of_dom. destruct (m !! c); [done|]. by apply not_elem_of_nil in Hfc. }
  assert (∀ l, l ∈ labels ↔ l = label g ∨ l ∈ ar_label <$> aff) as Hlabels.
  { intros l. rewrite Hlab, list_elem_of_fmap. setoid_rewrite Haff. split; (intros [?|Hl]; [by left|right]).
    - by exists (mkAffected l (dedup (sort_by String.leb (default [] (m !! l))))).
    - by destruct Hl as (a & -> & _ & ?). }
  assert (∀ a, a ∈ aff → depends refs labels (ar_label a) (label g)) as Hdep.
  { intros a Ha. split_and!; [apply Hlabels; right; by apply list_elem_of_fmap_2|apply Hlabels; by left|]. apply Haff in Ha as [_ (r' & ? & (? & _) & ?)%Hdom]. by exists r'. }
  destruct r as [order|].
  - destruct Hr as (Hperm & Htopo & _).
    assert (∃ o, mapM (λ i : N, labels !! as_usize i) order = Some o ∧ Forall2 (λ i l, labels !! as_usize i = Some l) order o) as (o & Ho & HF).
    { destruct (mapM (λ i : N, labels !! as_usize i) order) as [o|] eqn:Ho; [exists o; split; [done|by apply mapM_Some]|]. exfalso. apply mapM_None in Ho. apply Exists_exists in Ho as (v & Hv & Hno).
      apply lookup_ge_None in Hno. assert (as_usize v ∈ seq 0 (length labels)) as Hin by (rewrite <- Hperm; by apply list_elem_of_fmap_2). apply elem_of_seq in Hin. lia. }
    rewrite Ho. cbn [mbind option_bind provider affected node_labels plan_order]. assert (∀ a b, depends refs labels a b → before o a b) as Hbefore by (by eapply order_before).
    split_and!; try done; [by exists g, n|by eapply order_perm|]. intros a Ha. by apply Hbefore, Hdep.
  - cbn [mbind option_bind provider affected node_labels plan_order]. split_and!; [by exists g, n|done|done|]. destruct Hr as [v Hv].
    exists (default "" (labels !! as_usize v)). apply (tc_congruence (R := edge_in edges) (λ v, default "" (labels !! as_usize v)) (depends refs labels) v v); [|done].
    intros x y (a & b & -> & -> & ?)%Hedges. done.
Qed.

(** ** Examples *)

(** [f] calls [g] of the other repository, which calls [h] of the third; [k] calls
    [h], too. *)
Definition chain : list RepoGraph := [tiny_repo "low" "c.rs" "h" "x"; tiny_repo "mid" "b.rs" "g" "h"; tiny_repo "top" "a.rs" "f" "h"].
Example chain_plan : (λ r, match r with Ok s => plan_order s | Err _ => None end) <$> survey chain "h" = Some (Some ["top"; "mid"; "low"]).
Proof. vm_compute. reflexivity. Qed.
(** Two repositories that call each other cannot be ordered. *)
Example ring_refused : cmd_plan_migration [repo_f; repo_g] "g" =
  Some (Err (Cyclic "cross-repo dependency cycle detected (right -> left) — refusing to pick an arbitrary migration order; break the cycle first")).
Proof. vm_compute. reflexivity. Qed.

Lemma chain_ok : Forall repo_ok chain.
Proof. repeat (apply Forall_cons; split); [..|by apply Forall_nil]; (apply tiny_repo_ok; [vm_compute; eauto|split; vm_compute; discriminate]). Qed.
Lemma survey_exact_witness : ∃ refs, cross_references chain = Some refs ∧ length refs = 2 ∧
  match survey chain "h" with
  | Some (Ok s) => ∀ a, a ∈ affected s → match plan_order s with Some o => before o (ar_label a) "low" | None => False end
  | _ => False
  end.
Proof.
  destruct (survey_exact chain "h" chain_ok) as (refs & Hr & _ & Hs).
  - apply (bool_decide_eq_true_1 (NoDup (label <$> chain))). vm_compute. reflexivity.
  - vm_compute. discriminate.
  - exists refs. split; [exact Hr|]. split; [vm_compute in Hr; injection Hr as <-; reflexivity|]. clear Hr. revert Hs. vm_compute (survey chain "h"). intros (_ & _ & _ & _ & _ & Hb). exact Hb.
Defined.
