(* ===== verification/Watch.v ===== *)
(** * The index command and the watcher (weave-graph-cli: main.rs, watch.rs, cache.rs)

    [weave index] serves a commit from the database it has, from a snapshot kept
    for the commit, or by re-indexing; [weave index --watch] collects file events
    into batches and updates the index, or leaves a marker where a batch reaches
    too far.  The directory of the index is explicit state; git, the lock, the
    files found and the success of the final rename are what an environment
    answers; the other writes are taken to succeed. *)

From S2P Require Import Prelude Str Bitmap Model Csr Paths CsrGraph SqlStore SqlProofs SqlGraph Language Interner ProjectIndex Pipeline Reindex ReindexProofs Incremental ToolsProofs Config.

(** ** The directory *)

(** src/crates/weave-graph-cli/src/watch.rs:61-65 [PendingMarker] *)
Record PendingMarker := mkMarker { marker_files : list string; marker_radius : nat }.
(** The live database and the small files beside it: the commit last indexed, the
    version of the extractor, the snapshots of commits, the two markers. *)
Record index_dir := mkIndexDir {
  live : weave_dir;
  last_indexed_sha : option string;
  extractor_version : option N;
  snapshots : gmap string Db;
  pending_marker : option PendingMarker;
  in_flight_file : option (list string);
}.
(** src/crates/weave-graph-core/src/schema.rs:18-18 [EXTRACTOR_VERSION] *)
Definition EXTRACTOR_VERSION : N := 1.
Definition set_live (d : index_dir) x := mkIndexDir x (last_indexed_sha d) (extractor_version d) (snapshots d) (pending_marker d) (in_flight_file d).
(** src/crates/weave-graph-cli/src/cache.rs:18-20 [write_last_indexed_sha] *)
Definition write_last_indexed_sha (d : index_dir) (sha : string) := mkIndexDir (live d) (Some (trim sha)) (extractor_version d) (snapshots d) (pending_marker d) (in_flight_file d).
(** src/crates/weave-graph-cli/src/cache.rs:36-38 [write_extractor_version] *)
Definition write_extractor_version (d : index_dir) (v : N) := mkIndexDir (live d) (last_indexed_sha d) (Some v) (snapshots d) (pending_marker d) (in_flight_file d).
(** src/crates/weave-graph-cli/src/cache.rs:45-51 [clear_snapshot_cache] *)
Definition clear_snapshot_cache (d : index_dir) := mkIndexDir (live d) (last_indexed_sha d) (extractor_version d) ∅ (pending_marker d) (in_flight_file d).
(** src/crates/weave-graph-cli/src/cache.rs:77-82 [save_snapshot] *)
Definition save_snapshot (d : index_dir) (sha : string) (db : Db) := mkIndexDir (live d) (last_indexed_sha d) (extractor_version d) (<[sha := db]> (snapshots d)) (pending_marker d) (in_flight_file d).
(** src/crates/weave-graph-cli/src/watch.rs:76-82 [write_pending_marker] *)
Definition write_pending_marker (d : index_dir) (m : PendingMarker) := mkIndexDir (live d) (last_indexed_sha d) (extractor_version d) (snapshots d) (Some m) (in_flight_file d).
(** src/crates/weave-graph-cli/src/watch.rs:86-88 [clear_pending_marker] *)
Definition clear_pending_marker (d : index_dir) := mkIndexDir (live d) (last_indexed_sha d) (extractor_version d) (snapshots d) None (in_flight_file d).
(** src/crates/weave-graph-cli/src/watch.rs:98-101 [write_in_flight] *)
Definition write_in_flight (d : index_dir) (files : list string) := mkIndexDir (live d) (last_indexed_sha d) (extractor_version d) (snapshots d) (pending_marker d) (Some files).
(** src/crates/weave-graph-cli/src/watch.rs:103-105 [clear_in_flight] *)
Definition clear_in_flight (d : index_dir) := mkIndexDir (live d) (last_indexed_sha d) (extractor_version d) (snapshots d) (pending_marker d) None.
(** src/crates/weave-graph-cli/src/cache.rs:57-70 [restore_snapshot]
    Copied to the staging file and renamed. *)
Definition restore_snapshot (d : index_dir) (sha : string) : index_dir * bool :=
  match snapshots d !! sha with
  | None => (d, false)
  | Some db => (set_live d (mkDir (Some db) false), true)
  end.

(** ** weave index *)

(** What is found outside: whether the data directory is on a network, the lock, the
    commit, whether the tree is clean, the files, the diff since a commit, whether
    the rename succeeds. *)
Record index_env := mkEnv {
  env_network : bool;
  env_lock : bool;
  env_sha : option string;
  env_clean : bool;
  env_files : list (string * option ParsedFile);
  env_changed : string → option (list string);
  env_renamed : bool;
}.
Inductive index_answer := UpToDate | Restored | NothingToIndex | Indexed (stats : IndexStats).
Inductive cmd_error := OnNetwork | Locked | Failed (e : index_error).

(** src/crates/weave-graph-cli/src/main.rs:1354-1383 [try_fast_path] *)
Definition try_fast_path (d : index_dir) (current_sha last_sha : option string) : index_dir * option index_answer :=
  match current_sha with
  | None => (d, None)
  | Some cur =>
      if decide (last_sha = Some cur ∧ is_Some (active_db (live d))) then (clear_pending_marker d, Some UpToDate)
      else match restore_snapshot d cur with
           | (d, true) => (clear_pending_marker (write_last_indexed_sha d cur), Some Restored)
           | (d, false) => (d, None)
           end
  end.

Section command.
Context {engine : Sqlite} (hash_one : string → N) (parse_chunk : nat) (ratio_of : nat → nat).

(** src/crates/weave-graph-cli/src/main.rs:1397-1428 [reindex]
    With the diff against the last commit, and the version that is recorded. *)
Definition run_reindex (e : index_env) (incremental : bool) (d : index_dir) : option (index_dir * result IndexStats index_error) :=
  '(l, r) ← reindex hash_one parse_chunk (env_renamed e) incremental (bool_decide (extractor_version d = Some EXTRACTOR_VERSION)) ratio_of
              (last_indexed_sha d ≫= env_changed e) (env_files e) (live d);
  let d := set_live d l in
  Some (match r with Ok s => (write_extractor_version d EXTRACTOR_VERSION, Ok s) | Err x => (d, Err x) end).
(** src/crates/weave-graph-cli/src/main.rs:1430-1504 [cmd_index]
    [None] is a call that does not return. *)
Definition cmd_index (e : index_env) (incremental : bool) (d : index_dir) : option (index_dir * result index_answer cmd_error) :=
  if env_network e then Some (d, Err OnNetwork) else
  if negb (env_lock e) then Some (d, Err Locked) else
  let extractor_ok := bool_decide (extractor_version d = Some EXTRACTOR_VERSION) in
  let d := if extractor_ok then d else clear_snapshot_cache d in
  let '(d, fast) := if extractor_ok then try_fast_path d (env_sha e) (last_indexed_sha d) else (d, None) in
  match fast with
  | Some a => Some (d, Ok a)
  | None =>
      match env_files e with
      | [] => Some (d, Ok NothingToIndex)
      | _ =>
          '(d, r) ← run_reindex e incremental d;
          match r with
          | Err x => Some (d, Err (Failed x))
          | Ok stats =>
              let d := match env_sha e with
                       | Some cur =>
                           let d := write_last_indexed_sha d cur in
                           match env_clean e, active_db (live d) with true, Some db => save_snapshot d cur db | _, _ => d end
                       | None => d
                       end in
              Some (clear_pending_marker d, Ok (Indexed stats))
          end
      end
  end.
End command.

(** ** Settings *)

(** src/crates/weave-graph-cli/src/watch.rs:20-23 [WatchConfig] *)
Record WatchConfig := mkWatchConfig { debounce_ms : N; blast_radius_ceiling : N }.
(** src/crates/weave-graph-cli/src/watch.rs:30-43 [WatchConfig::load]
    [content] is the text of the file of settings, if it can be read. *)
Definition watch_config_load `{TomlFormat} (content : option string) : WatchConfig :=
  mkWatchConfig
    (N.min 60000 (N.max 100 (default 2000%N (get_key content "watch.debounce_ms" ≫= parse_uint 18446744073709551615))))
    (default 200%N (get_key content "watch.blast_radius_ceiling" ≫= parse_uint 18446744073709551615)).
(** src/crates/weave-graph-cli/src/watch.rs:53-55 [enabled] *)
Definition watch_enabled `{TomlFormat} (content : option string) : bool := bool_decide (get_key content "watch.enabled" = Some "true").
(** Whatever the file of settings holds, the interval is between its bounds; with
    nothing set it is two seconds, and the watcher is off. *)
Lemma watch_config_bounds `{TomlFormat} content : (100 ≤ debounce_ms (watch_config_load content) ≤ 60000)%N ∧
  (get_key content "watch.debounce_ms" = None → debounce_ms (watch_config_load content) = 2000%N) ∧ (get_key content "watch.enabled" = None → watch_enabled content = false).
Proof. unfold watch_config_load, watch_enabled. cbn [debounce_ms]. split_and!; [lia..| |]; by intros ->. Qed.

(** ** Events and batches *)

(** What the channel delivers: a path, or nothing for the length of the debounce
    interval; the list ends where the sender is gone. *)
Inductive signal (E : Type) := Event (path : string) | Quiet (env : E).
Arguments Event {E} path.
Arguments Quiet {E} env.

Section run.
Context {St E : Type} (on_event : St → string → St) (on_batch : E → St → gset string → St) (final : E).

(** src/crates/weave-graph-cli/src/watch.rs:150-181 [run]
    [batch] is [None] while the outer loop waits for a first event: silence does
    not end that wait. *)
Fixpoint run (batch : option (gset string)) (sigs : list (signal E)) (st : St) : St :=
  match sigs, batch with
  | [], None => st
  | [], Some b => on_batch final st b
  | Event p :: sigs, None => run (Some {[p]}) sigs (on_event st p)
  | Event p :: sigs, Some b => run (Some ({[p]} ∪ b)) sigs (on_event st p)
  | Quiet _ :: sigs, None => run None sigs st
  | Quiet e :: sigs, Some b => run None sigs (on_batch e st b)
  end.

(** The same by bursts: the events between two silences, with the environment of
    the second. *)
Fixpoint bursts (acc : list string) (sigs : list (signal E)) : list (list string * E) :=
  match sigs with
  | [] => [(acc, final)]
  | Event p :: sigs => bursts (acc ++ [p]) sigs
  | Quiet e :: sigs => (acc, e) :: bursts [] sigs
  end.
Definition handle_burst (st : St) (b : list string * E) : St := on_batch b.2 (foldl on_event st b.1) (list_to_set b.1).

Lemma run_bursts_from sigs : ∀ acc st, run (if decide (acc = []) then None else Some (list_to_set acc)) sigs (foldl on_event st acc) =
  foldl handle_burst st (filter (λ b, b.1 ≠ []) (bursts acc sigs)).
Proof.
  induction sigs as [|[p|e] sigs IH]; intros acc st; cbn [bursts].
  - rewrite filter_cons, filter_nil. cbn [fst]. repeat case_decide; try done; by subst.
  - specialize (IH (acc ++ [p]) st). rewrite decide_False in IH by (by destruct acc). rewrite foldl_snoc in IH. rewrite <- IH. cbn [run]. case_decide as Ha.
    + subst acc. cbn. by rewrite (right_id_L ∅ (∪)).
    + f_equal. f_equal. apply set_eq. intros x. rewrite elem_of_union, elem_of_singleton, !elem_of_list_to_set, elem_of_app, list_elem_of_singleton. tauto.
  - rewrite filter_cons. cbn [fst run]. repeat case_decide; try done; subst.
    + apply (IH [] st).
    + cbn [foldl]. apply (IH [] (handle_burst st (acc, e))).
Qed.
End run.

Definition events_of {E} (sigs : list (signal E)) : list string := omap (λ x, match x with Event p => Some p | Quiet _ => None end) sigs.
Lemma bursts_events {E} (final : E) sigs : ∀ acc, mjoin (bursts final acc sigs).*1 = acc ++ events_of sigs.
Proof.
  induction sigs as [|[p|e] sigs IH]; intros acc; cbn [bursts]; [cbn; by rewrite !app_nil_r| |].
  - rewrite IH, <- app_assoc. done.
  - cbn. f_equal. apply (IH []).
Qed.

(** Debouncing is exact: whatever the events and silences, the batches handed
    on are the non-empty bursts of events between silences, each as a set, in
    order, the last one when the sender goes; every event is announced before its
    batch, and the bursts together are the events, none lost or repeated. *)
Theorem watch_debounce_exact {St E} (on_event : St → string → St) (on_batch : E → St → gset string → St) final sigs st :
  run on_event on_batch final None sigs st = foldl (handle_burst on_event on_batch) st (filter (λ b, b.1 ≠ []) (bursts final [] sigs)) ∧
  mjoin (bursts final [] sigs).*1 = events_of sigs.
Proof. split; [apply (run_bursts_from on_event on_batch final sigs [] st)|apply (bursts_events final sigs [])]. Qed.

(** ** One tick *)

Section radius.
Context {S : Type} `{Storage S} {B : Type} `{Bitmap B}.

(** src/crates/weave-graph-cli/src/watch.rs:118-135 [blast_radius] *)
Definition blast_radius (storage : S) (csr : CsrGraph) (changed : list string) : option (result nat StorageError) :=
  match for_each_node storage (λ seeds n, if decide (node_path n ∈ changed) then seeds ++ [node_id n] else seeds) [] with
  | Err e => Some (Err e)
  | Ok seeds =>
      reached ← foldlM (λ (acc : B) id, b ← reachable_within csr id u32_MAX; Some (bm_union acc b)) seeds bm_new;
      Some (Ok (length (bm_iter reached)))
  end.
End radius.

Section tick.
Context {engine : Sqlite} (hash_one : string → N) (parse_chunk : nat) {B : Type} `{Bitmap B}.
Inductive tick_error := TickLocked | TickStorage (e : StorageError) | TickFailed (e : index_error).

(** src/crates/weave-graph-cli/src/main.rs:1645-1688 [watch_tick]
    Opening a database that is missing makes an empty one. *)
Definition watch_tick (e : index_env) (ceiling : nat) (changed : gset string) (d : index_dir) : option (index_dir * result bool tick_error) :=
  if negb (env_lock e) then Some (d, Err TickLocked) else
  let changed := btree_iter String.leb changed in
  let db := default empty_db (active_db (live d)) in
  let d := set_live d (mkDir (Some db) (rebuild_exists (live d))) in
  r ← load db;
  match r with
  | Err x => Some (d, Err (TickStorage x))
  | Ok csr =>
      r ← blast_radius (B := B) db csr changed;
      match r with
      | Err x => Some (d, Err (TickStorage x))
      | Ok radius =>
          if ceiling <=? radius then Some (write_pending_marker d (mkMarker changed radius), Ok false) else
          '(l, r) ← incremental_reindex hash_one parse_chunk (env_renamed e) (env_files e) changed db;
          let d := set_live d l in
          match r with
          | Err x => Some (d, Err (TickFailed x))
          | Ok _ =>
              let d := match env_sha e with Some cur => write_last_indexed_sha d cur | None => d end in
              Some (clear_pending_marker d, Ok true)
          end
      end
  end.

(** src/crates/weave-graph-cli/src/main.rs:1630-1634 [relative_indexable_path]
    Below a root that is in normal form. *)
Definition relative_indexable_path (root path : string) : option string :=
  rel ← strip_prefix (root +:+ "/") path;
  if negb (is_empty rel) && is_indexable rel then Some rel else None.

(** src/crates/weave-graph-cli/src/main.rs:1575-1581 [run_watch_loop]
    [halted] stands for a call that did not return; [updated] lists the sets that
    were indexed, for the statements below. *)
Record loop_state := mkLoop { dir : index_dir; pending : gset string; in_flight : gset string; halted : bool; updated : list (gset string) }.
(** src/crates/weave-graph-cli/src/main.rs:1585-1594 [run_watch_loop] *)
Definition on_event (root : string) (st : loop_state) (path : string) : loop_state :=
  match relative_indexable_path root path with
  | None => st
  | Some rel =>
      let fl := {[rel]} ∪ in_flight st in
      mkLoop (write_in_flight (dir st) (btree_iter String.leb fl)) (pending st) fl (halted st) (updated st)
  end.
Definition indexable_of (root : string) (batch : gset string) : gset string := list_to_set (omap (relative_indexable_path root) (elements batch)).
(** src/crates/weave-graph-cli/src/main.rs:1595-1621 [run_watch_loop] *)
Definition on_batch (root : string) (ceiling : nat) (e : index_env) (st : loop_state) (batch : gset string) : loop_state :=
  let d := clear_in_flight (dir st) in
  let p := indexable_of root batch ∪ pending st in
  if decide (p = ∅) then mkLoop d p ∅ (halted st) (updated st) else
  match watch_tick e ceiling p d with
  | None => mkLoop d p ∅ true (updated st)
  | Some (d, Ok true) => mkLoop d ∅ ∅ (halted st) (p :: updated st)
  | Some (d, Ok false) => mkLoop d p ∅ (halted st) (updated st)
  | Some (d, Err _) => mkLoop d p ∅ (halted st) (updated st)
  end.
(** src/crates/weave-graph-cli/src/main.rs:1568-1623 [run_watch_loop] *)
Definition run_watch_loop (root : string) (ceiling : nat) (final : index_env) (sigs : list (signal index_env)) (d : index_dir) : loop_state :=
  run (on_event root) (on_batch root ceiling) final None sigs (mkLoop d ∅ ∅ false []).

(** *** No change is lost *)

(** [rel] is pending, or was part of an update made since [st]. *)
Definition accounted (st st' : loop_state) (rel : string) : Prop := rel ∈ pending st' ∨ ∃ news s, updated st' = news ++ updated st ∧ s ∈ news ∧ rel ∈ s.
Lemma on_events_pending root ps : ∀ st, pending (foldl (on_event root) st ps) = pending st ∧ updated (foldl (on_event root) st ps) = updated st.
Proof.
  induction ps as [|p ps IH]; intros st; [done|]. cbn [foldl]. destruct (IH (on_event root st p)) as [-> ->]. unfold on_event. by destruct (relative_indexable_path root p).
Qed.
Lemma elem_of_indexable root batch rel : rel ∈ indexable_of root batch ↔ ∃ p, p ∈ batch ∧ relative_indexable_path root p = Some rel.
Proof. unfold indexable_of. rewrite elem_of_list_to_set, list_elem_of_omap. by setoid_rewrite elem_of_elements. Qed.
Lemma handle_burst_accounted root ceiling st b rel : rel ∈ pending st ∨ (∃ p, p ∈ b.1 ∧ relative_indexable_path root p = Some rel) →
  accounted st (handle_burst (on_event root) (on_batch root ceiling) st b) rel.
Proof.
  intros Hr. unfold handle_burst, on_batch, accounted. destruct (on_events_pending root b.1 st) as [Hp Hu]. rewrite Hp, Hu. cbv zeta.
  set (p := indexable_of root (list_to_set b.1) ∪ pending st). assert (rel ∈ p) as Hin.
  { unfold p. rewrite elem_of_union, elem_of_indexable. setoid_rewrite elem_of_list_to_set. tauto. }
  case_decide; [by left|]. destruct (watch_tick _ ceiling p _) as [[d [[]|x]]|]; cbn [pending updated]; try by left.
  right. exists [p], p. split_and!; [done|left|done].
Qed.
Lemma updated_grows root ceiling bs : ∀ st, ∃ news, updated (foldl (handle_burst (on_event root) (on_batch root ceiling)) st bs) = news ++ updated st.
Proof.
  induction bs as [|b bs IH]; intros st; [by exists []|]. cbn [foldl]. destruct (IH (handle_burst (on_event root) (on_batch root ceiling) st b)) as [news ->].
  assert (∃ more, updated (handle_burst (on_event root) (on_batch root ceiling) st b) = more ++ updated st) as [more ->]; [|exists (news ++ more); by rewrite app_assoc].
  unfold handle_burst, on_batch. destruct (on_events_pending root b.1 st) as [Hp Hu]. rewrite Hp, Hu. cbv zeta. case_decide; [by exists []|].
  destruct (watch_tick _ _ _ _) as [[d [[]|x]]|]; cbn [updated]; [by eexists [_]|by exists []..].
Qed.
Lemma bursts_accounted root ceiling bs rel : ∀ st, rel ∈ pending st → accounted st (foldl (handle_burst (on_event root) (on_batch root ceiling)) st bs) rel.
Proof.
  induction bs as [|b bs IH]; intros st Hr; [by left|]. cbn [foldl]. destruct (handle_burst_accounted root ceiling st b rel (or_introl Hr)) as [Hp|(news & s & Hu & Hs & Hin)].
  - destruct (IH _ Hp) as [Hq|(news & s & Hu & Hs & Hin)]; [by left|right]. destruct (updated_grows root ceiling [b] st) as [more Hm]. cbn [foldl] in Hm. rewrite Hm in Hu.
    exists (news ++ more), s. rewrite <- app_assoc. split_and!; [done|apply elem_of_app; by left|done].
  - right. destruct (updated_grows root ceiling bs (handle_burst (on_event root) (on_batch root ceiling) st b)) as [more ->]. rewrite Hu.
    exists (more ++ news), s. rewrite <- app_assoc. split_and!; [done|apply elem_of_app; by right|done].
Qed.

(** C21: the watcher loses no change.  Whatever happens at the ticks (deferral, a
    held lock, an error, a rename that fails), an indexable file reported in a burst
    is, at the end, still pending, or it was part of an update completed after that
    burst began. *)
Theorem watch_loses_nothing root ceiling final sigs d bs1 b bs2 p rel :
  filter (λ b, b.1 ≠ []) (bursts final [] sigs) = bs1 ++ b :: bs2 → p ∈ b.1 → relative_indexable_path root p = Some rel →
  accounted (foldl (handle_burst (on_event root) (on_batch root ceiling)) (mkLoop d ∅ ∅ false []) bs1) (run_watch_loop root ceiling final sigs d) rel.
Proof.
  intros Hb Hp Hrel. unfold run_watch_loop. rewrite (run_bursts_from (on_event root) (on_batch root ceiling) final sigs [] (mkLoop d ∅ ∅ false []) :
    run (on_event root) (on_batch root ceiling) final None sigs (mkLoop d ∅ ∅ false []) = _), Hb, foldl_app. cbn [foldl].
  set (st := foldl _ (mkLoop d ∅ ∅ false []) bs1). destruct (handle_burst_accounted root ceiling st b rel (or_intror (ex_intro _ p (conj Hp Hrel)))) as [Hq|(news & s & Hu & Hs & Hin)].
  - destruct (bursts_accounted root ceiling bs2 rel _ Hq) as [?|(news & s & Hu & Hs & Hin)]; [by left|right]. destruct (updated_grows root ceiling [b] st) as [more Hm]. cbn [foldl] in Hm. rewrite Hm in Hu.
    exists (news ++ more), s. rewrite <- app_assoc. split_and!; [done|apply elem_of_app; by left|done].
  - right. destruct (updated_grows root ceiling bs2 (handle_burst (on_event root) (on_batch root ceiling) st b)) as [more ->]. rewrite Hu.
    exists (more ++ news), s. rewrite <- app_assoc. split_and!; [done|apply elem_of_app; by right|done].
Qed.
End tick.

(** ** The gate *)

Section gate.
Context {B : Type} `{BitmapLaws B}.

(** A node the change can reach. *)
Definition affected_by (ns : list Node) (es : list Edge) (changed : list string) (i : NodeId) : Prop :=
  ∃ a, a ∈ ns ∧ node_path a ∈ changed ∧ rtc (store_edge ns es) (node_id a) i.
Lemma seeds_exact (ns : list Node) (changed : list string) : foldl (λ seeds n, if decide (node_path n ∈ changed) then seeds ++ [node_id n] else seeds) [] ns = node_id <$> filter (λ n, node_path n ∈ changed) ns.
Proof. induction ns as [|n ns IH] using rev_ind; [done|]. rewrite foldl_snoc, IH, filter_app, filter_cons, filter_nil, fmap_app. case_decide; cbn; [done|by rewrite app_nil_r]. Qed.
Lemma reach_union g ids E seeds : graph_rep g ids E → ∀ acc : B, ∃ b : B, foldlM (λ (acc : B) id, b ← reachable_within g id u32_MAX; Some (bm_union acc b)) seeds acc = Some b ∧
  ∀ x, bm_contains b x = true ↔ bm_contains acc x = true ∨ ∃ a y, a ∈ seeds ∧ ids !! as_usize x = Some y ∧ a ∈ ids ∧ bsteps E (N.to_nat u32_MAX) a y.
Proof.
  intros Hg. induction seeds as [|a seeds IH]; intros acc; cbn [foldlM].
  { exists acc. split; [done|]. intros x. split; [by left|]. intros [?|(a & y & ?%not_elem_of_nil & _)]; done. }
  destruct (reachable_within_rep (B := B) Hg a u32_MAX) as (b & -> & Hb). cbn [mbind option_bind]. destruct (IH (bm_union acc b)) as (c & -> & Hc). exists c. split; [done|].
  intros x. rewrite Hc, bm_contains_union_true, Hb. setoid_rewrite elem_of_cons. split.
  - intros [[?|(y & ? & ? & ?)]|(c' & y & ? & ?)]; [by left|right; exists a, y; auto|right; exists c', y; auto].
  - intros [?|(c' & y & [->|?] & ? & ? & ?)]; [auto|left; right; by exists y|right; by exists c', y].
Qed.
Lemma blast_radius_exact {S} `{Storage S} (s : S) ns es g changed : StorageView s ns es → graph_rep g (node_id <$> ns) (store_edge ns es) → (N.of_nat (length ns) ≤ u32_MAX)%N →
  ∃ l, blast_radius (B := B) s g changed = Some (Ok (length l)) ∧ NoDup l ∧ ∀ i, i ∈ l ↔ affected_by ns es changed i.
Proof.
  intros HV Hg Hsmall. unfold blast_radius. rewrite (view_for_each_node _ _ _ HV), seeds_exact.
  destruct (reach_union g _ _ (node_id <$> filter (λ n, node_path n ∈ changed) ns) Hg bm_new) as (b & -> & Hb). cbn [mbind option_bind].
  set (ids := node_id <$> ns) in *. exists (omap (λ x, ids !! as_usize x) (bm_iter b)).
  assert (∀ x, x ∈ bm_iter b → is_Some (ids !! as_usize x)) as Hin.
  { intros x Hx. apply bm_iter_spec, Hb in Hx as [Hx|(a & y & _ & Hy & _)]; [by rewrite bm_contains_new in Hx|by rewrite Hy]. }
  assert (NoDup (bm_iter b)) as Hnd.
  { pose proof (bm_iter_sorted b) as Hs. eapply (strict_sorted_NoDup N.leb), StronglySorted_impl; [|exact Hs]. intros x y _ _ Hxy. split; [apply N.leb_le|]; lia. }
  split_and!.
  - do 2 f_equal. clear Hnd. induction (bm_iter b) as [|x l IH]; [done|]. destruct (Hin x) as [y Hy]; [left|]. cbn. rewrite Hy. cbn. f_equal. apply IH. intros z Hz. apply Hin. by right.
  - pose proof (omap_index_sorted ids (bm_iter b) (view_ids _ _ _ HV) (bm_iter_sorted b)) as Hs.
    eapply (strict_sorted_NoDup N.leb), StronglySorted_impl; [|exact Hs]. intros x y _ _ Hxy. split; [apply N.leb_le|]; lia.
  - intros i. rewrite list_elem_of_omap. setoid_rewrite bm_iter_spec. setoid_rewrite Hb. unfold affected_by. split.
    + intros (x & [Hx|(a & y & Ha & Hy & _ & Hsteps)] & Hi); [by rewrite bm_contains_new in Hx|]. simplify_eq. apply list_elem_of_fmap in Ha as (n & -> & [Hp Hn]%list_elem_of_filter).
      exists n. split_and!; [done..|by eapply rtc_bsteps_2].
    + intros (a & Ha & Hp & Hr). assert (node_id a ∈ ids) as Hai by (by apply list_elem_of_fmap_2).
      assert (i ∈ ids) as [k Hk]%list_elem_of_lookup by (apply rtc_inv_r in Hr as [<-|(z & _ & (_ & ? & _))]; done).
      exists (N.of_nat k). unfold as_usize. rewrite Nat2N.id. split; [|done]. right. exists (node_id a), i. split_and!; try done.
      * apply list_elem_of_fmap_2, list_elem_of_filter. done.
      * apply (rtc_bounded _ ids); [by intros x y (_ & ? & _)|unfold ids; rewrite length_fmap; lia|done].
Qed.
End gate.

Section ticks.
Context `{SqliteLaws} (hash_one : string → N) (parse_chunk : nat) {B : Type} `{BitmapLaws B}.
Definition live_db (d : index_dir) : Db := default empty_db (active_db (live d)).

Lemma tick_radius db changed : db_ok db → (N.of_nat (length (stored_nodes db)) ≤ u32_MAX)%N →
  ∃ csr l, load db = Some (Ok csr) ∧ blast_radius (B := B) db csr changed = Some (Ok (length l)) ∧ NoDup l ∧ ∀ i, i ∈ l ↔ affected_by (stored_nodes db) (stored_edges db) changed i.
Proof.
  intros Hok Hsmall. pose proof (sqlite_view_lemma db Hok) as HV. destruct (load_rep db _ _ HV Hsmall) as (g & Hl & Hg).
  destruct (blast_radius_exact (B := B) db _ _ g changed HV Hg Hsmall) as (l & Hr & ? & ?). by exists g, l.
Qed.

(** The gate of the watcher is exact.  With the lock and a sound index, a batch
    is deferred exactly when the nodes reachable from the changed files are as
    many as the ceiling; a deferral leaves the index as it is and a marker with the
    files and that number. *)
Theorem watch_gate_exact e ceiling changed d : env_lock e = true → db_ok (live_db d) → (N.of_nat (length (stored_nodes (live_db d))) ≤ u32_MAX)%N →
  ∃ l, NoDup l ∧ (∀ i, i ∈ l ↔ affected_by (stored_nodes (live_db d)) (stored_edges (live_db d)) (btree_iter String.leb changed) i) ∧
    if ceiling <=? length l
    then ∃ d', watch_tick hash_one parse_chunk (B := B) e ceiling changed d = Some (d', Ok false) ∧ live_db d' = live_db d ∧
           pending_marker d' = Some (mkMarker (btree_iter String.leb changed) (length l)) ∧ last_indexed_sha d' = last_indexed_sha d
    else ∀ d', watch_tick hash_one parse_chunk (B := B) e ceiling changed d ≠ Some (d', Ok false).
Proof.
  intros Hlock Hok Hsmall. destruct (tick_radius (live_db d) (btree_iter String.leb changed) Hok Hsmall) as (csr & l & Hl & Hr & Hnd & Hiff).
  exists l. split_and!; [done..|]. unfold watch_tick. rewrite Hlock. cbn [negb]. fold (live_db d). rewrite Hl. cbn [mbind option_bind]. rewrite Hr. cbn [mbind option_bind].
  destruct (ceiling <=? length l); [by eexists|]. intros d' Hd. destruct (incremental_reindex _ _ _ _ _ _) as [[x [s|r]]|]; cbn in Hd; by simplify_eq.
Qed.

(** What was deferred stays deferred: as long as the index is the same, no larger
    batch is taken, and the set of pending files only grows until one is. *)
Theorem deferral_sticks e e' ceiling changed changed' d d' : db_ok (live_db d) → (N.of_nat (length (stored_nodes (live_db d))) ≤ u32_MAX)%N →
  watch_tick hash_one parse_chunk (B := B) e ceiling changed d = Some (d', Ok false) → changed ⊆ changed' → env_lock e' = true →
  ∃ d'', watch_tick hash_one parse_chunk (B := B) e' ceiling changed' d' = Some (d'', Ok false) ∧ live_db d'' = live_db d.
Proof.
  intros Hok Hsmall Htick Hsub Hlock'. destruct (tick_radius (live_db d) (btree_iter String.leb changed) Hok Hsmall) as (csr & l & Hl & Hr & Hnd & Hiff).
  destruct (tick_radius (live_db d) (btree_iter String.leb changed') Hok Hsmall) as (csr' & l' & Hl' & Hr' & Hnd' & Hiff').
  assert (length l ≤ length l') as Hle.
  { apply submseteq_length, NoDup_submseteq; [done|]. intros i Hi. apply Hiff'. apply Hiff in Hi as (a & Ha & Hp & Hrt). exists a. split_and!; [done| |done].
    apply elem_of_btree_iter. apply elem_of_btree_iter in Hp. by apply Hsub. }
  unfold watch_tick in Htick. destruct (env_lock e); [|done]. cbn [negb] in Htick. fold (live_db d) in Htick. rewrite Hl in Htick. cbn [mbind option_bind] in Htick. rewrite Hr in Htick. cbn [mbind option_bind] in Htick.
  destruct (ceiling <=? length l) eqn:Hc; [|destruct (incremental_reindex _ _ _ _ _ _) as [[x [s|r]]|]; cbn in Htick; by simplify_eq].
  injection Htick as <-. unfold watch_tick. rewrite Hlock'. cbn [negb]. set (m := mkMarker _ _).
  assert (∀ x, x = write_pending_marker (set_live d (mkDir (Some (live_db d)) (rebuild_exists (live d)))) m → live_db x = live_db d) as Hlive by (by intros x ->).
  fold (live_db (write_pending_marker (set_live d (mkDir (Some (live_db d)) (rebuild_exists (live d)))) m)). rewrite (Hlive _ eq_refl).
  rewrite Hl'. cbn [mbind option_bind]. rewrite Hr'. cbn [mbind option_bind]. apply Nat.leb_le in Hc. rewrite (proj2 (Nat.leb_le ceiling (length l'))) by lia. by eexists.
Qed.
End ticks.

(** ** Snapshots *)

Section snapshots.
Context {engine : Sqlite} (hash_one : string → N) (parse_chunk : nat) (ratio_of : nat → nat) {B : Type} `{Bitmap B}.

(** A command or a tick, with the directory before and after and its answer. *)
Inductive entry :=
| Ran (e : index_env) (incremental : bool) (before after : index_dir) (r : result index_answer cmd_error)
| Ticked (e : index_env) (ceiling : nat) (changed : gset string) (before after : index_dir) (r : result bool tick_error).
(** What happened to a directory, in order. *)
Inductive history (d0 : index_dir) : list entry → index_dir → Prop :=
| history_none : history d0 [] d0
| history_index log d e inc d' r : history d0 log d → cmd_index hash_one parse_chunk ratio_of e inc d = Some (d', r) → history d0 (log ++ [Ran e inc d d' r]) d'
| history_tick log d e ceiling changed d' r : history d0 log d → watch_tick hash_one parse_chunk (B := B) e ceiling changed d = Some (d', r) →
    history d0 (log ++ [Ticked e ceiling changed d d' r]) d'.
(** A run that indexed the clean tree of a commit, and the database it left. *)
Definition indexed_at (x : entry) (sha : string) (db : Db) : Prop :=
  ∃ e inc d d' stats, x = Ran e inc d d' (Ok (Indexed stats)) ∧ env_clean e = true ∧ env_sha e = Some sha ∧ active_db (live d') = Some db.
(** The last such run of the history. *)
Definition saved_by (log : list entry) (sha : string) (db : Db) : Prop :=
  ∃ log1 x log2, log = log1 ++ x :: log2 ∧ indexed_at x sha db ∧ ∀ y db', y ∈ log2 → ¬ indexed_at y sha db'.
Definition trusted (log : list entry) (d : index_dir) : Prop :=
  extractor_version d = Some EXTRACTOR_VERSION → ∀ sha db, snapshots d !! sha = Some db → saved_by log sha db.

Lemma tick_trusted e ceiling changed d d' r : watch_tick hash_one parse_chunk (B := B) e ceiling changed d = Some (d', r) → snapshots d' = snapshots d ∧ extractor_version d' = extractor_version d.
Proof.
  unfold watch_tick. destruct (negb (env_lock e)); [by intros [= <- <-]|]. destruct (load _) as [[csr|x]|]; cbn [mbind option_bind]; [|by intros [= <- <-]|done].
  destruct (blast_radius _ _ _) as [[n|x]|]; cbn [mbind option_bind]; [|by intros [= <- <-]|done]. destruct (ceiling <=? n); [by intros [= <- <-]|].
  destruct (incremental_reindex _ _ _ _ _ _) as [[l [s|x]]|]; cbn [mbind option_bind]; [|by intros [= <- <-]|done]. destruct (env_sha e); by intros [= <- <-].
Qed.
Lemma fast_path_cases d cur last d' a : try_fast_path d cur last = (d', a) → extractor_version d' = extractor_version d ∧ snapshots d' = snapshots d ∧ match a with
  | Some UpToDate => live d' = live d
  | Some Restored => ∃ sha db, cur = Some sha ∧ snapshots d !! sha = Some db ∧ active_db (live d') = Some db
  | Some _ => False
  | None => d' = d
  end.
Proof.
  unfold try_fast_path, restore_snapshot. destruct cur as [sha|]; [|by intros [= <- <-]]. case_decide; [by intros [= <- <-]|].
  destruct (snapshots d !! sha) as [db|] eqn:Hs; intros [= <- <-]; [|done]. split_and!; [done..|]. by exists sha, db.
Qed.
Lemma cmd_index_cases e inc d d' r : cmd_index hash_one parse_chunk ratio_of e inc d = Some (d', r) →
  match r with
  | Ok (Indexed _) => extractor_version d' = Some EXTRACTOR_VERSION ∧ ∀ sha db, snapshots d' !! sha = Some db →
      (extractor_version d = Some EXTRACTOR_VERSION ∧ snapshots d !! sha = Some db ∧ ¬ (env_clean e = true ∧ env_sha e = Some sha ∧ is_Some (active_db (live d')))) ∨ (env_clean e = true ∧ env_sha e = Some sha ∧ active_db (live d') = Some db)
  | Ok Restored => extractor_version d = Some EXTRACTOR_VERSION ∧ extractor_version d' = extractor_version d ∧ snapshots d' = snapshots d ∧ ∃ sha db, env_sha e = Some sha ∧ snapshots d !! sha = Some db ∧ active_db (live d') = Some db
  | _ => extractor_version d' = extractor_version d ∧ (extractor_version d = Some EXTRACTOR_VERSION → snapshots d' = snapshots d)
  end.
Proof.
  unfold cmd_index. destruct (env_network e); [by intros [= <- <-]|]. destruct (negb (env_lock e)); [by intros [= <- <-]|].
  destruct (bool_decide_reflect (extractor_version d = Some EXTRACTOR_VERSION)) as [Hv|Hv].
  - destruct (try_fast_path d (env_sha e) (last_indexed_sha d)) as [d1 [a|]] eqn:Hf; apply fast_path_cases in Hf as (Hv1 & Hs1 & Ha).
    + intros [= <- <-]. by destruct a.
    + subst d1. destruct (env_files e) as [|f fs] eqn:Hfiles; [by intros [= <- <-]|]. unfold run_reindex. rewrite Hv. cbn [mbind option_bind].
      destruct (reindex _ _ _ _ _ _ _ _ _) as [[l [s|x]]|]; cbn [mbind option_bind]; [|by intros [= <- <-]|done]. destruct (env_sha e) as [sha|]; [|intros [= <- <-]; split; [done|]; intros sh db' Hin; left; split_and!; [done..|by intros (_ & [=] & _)]].
      destruct (env_clean e); [|intros [= <- <-]; split; [done|]; intros sh db' Hin; left; split_and!; [done..|by intros ([=] & _)]]. cbn [live write_last_indexed_sha write_extractor_version set_live]. destruct (active_db l) as [db|] eqn:Hdb; intros [= <- <-]; (split; [done|]).
      * intros sh db' Hin. cbn [snapshots clear_pending_marker save_snapshot] in Hin. apply lookup_insert_Some in Hin as [[<- <-]|[Hne Hin]]; [right; split_and!; [done..|exact Hdb]|left]. split_and!; [done..|]. by intros (_ & [= ?] & _).
      * intros sh db' Hin. left. split_and!; [done..|]. intros (_ & _ & [x Hx]). cbn in Hx. congruence.
  - destruct (env_files e) as [|f fs] eqn:Hfiles; [by intros [= <- <-]|]. unfold run_reindex.
    destruct (reindex _ _ _ _ _ _ _ _ _) as [[l [s|x]]|]; cbn [mbind option_bind]; [|by intros [= <- <-]|done]. destruct (env_sha e) as [sha|]; [|by intros [= <- <-]].
    destruct (env_clean e); [|by intros [= <- <-]]. cbn [live write_last_indexed_sha write_extractor_version set_live clear_snapshot_cache]. destruct (active_db l) as [db|] eqn:Hdb; intros [= <- <-]; (split; [done|]); [|done].
    intros sh db' Hin. cbn in Hin. apply lookup_insert_Some in Hin as [[<- <-]|[_ Hin]]; [right|done]. split_and!; [done..|]. exact Hdb.
Qed.
Lemma saved_by_snoc log x sha db : saved_by log sha db → (∀ db', ¬ indexed_at x sha db') → saved_by (log ++ [x]) sha db.
Proof.
  intros (log1 & y & log2 & -> & Hy & Hlast) Hx. exists log1, y, (log2 ++ [x]). rewrite <- app_assoc. split_and!; [done..|].
  intros z db' [Hz| ->%list_elem_of_singleton]%elem_of_app; [by apply Hlast|apply Hx].
Qed.
Lemma history_trusted d0 log d : extractor_version d0 ≠ Some EXTRACTOR_VERSION → history d0 log d → trusted log d.
Proof.
  intros Hv0. induction 1 as [|log d e inc d' r Hh IH Hc|log d e ceiling changed d' r Hh IH Hc]; [by intros ?| |].
  - pose proof (cmd_index_cases _ _ _ _ _ Hc) as Hcases. intros Hv sha db Hin.
    assert ((∀ stats, r ≠ Ok (Indexed stats)) → extractor_version d = Some EXTRACTOR_VERSION → snapshots d !! sha = Some db → saved_by (log ++ [Ran e inc d d' r]) sha db) as Hold.
    { intros Hr Hvd Hd. apply saved_by_snoc; [by apply IH|]. intros db' (e1 & i1 & b1 & a1 & s1 & He & _). injection He as _ _ _ _ He. by apply (Hr s1). }
    destruct r as [[| | |stats]|x].
    + destruct Hcases as [Hve Hs]. rewrite Hve in Hv. rewrite (Hs Hv) in Hin. by apply Hold.
    + destruct Hcases as (Hvd & _ & Hs & _). rewrite Hs in Hin. by apply Hold.
    + destruct Hcases as [Hve Hs]. rewrite Hve in Hv. rewrite (Hs Hv) in Hin. by apply Hold.
    + destruct Hcases as [_ Hs]. destruct (Hs sha db Hin) as [(Hvd & Hd & Hno)|(Hclean & Hsha & Hdb)].
      * apply saved_by_snoc; [by apply IH|]. intros db' (e1 & i1 & b1 & a1 & s1 & He & Hcl & Hsh & Hl). injection He as <- <- <- <- <-. apply Hno. eauto.
      * exists log, (Ran e inc d d' (Ok (Indexed stats))), []. split_and!; [done|by exists e, inc, d, d', stats|by intros y db' ?%not_elem_of_nil].
    + destruct Hcases as [Hve Hs]. rewrite Hve in Hv. rewrite (Hs Hv) in Hin. by apply Hold.
  - apply tick_trusted in Hc as [Hs Hv]. intros Hvd sha db Hin. rewrite Hs in Hin. rewrite Hv in Hvd. apply saved_by_snoc; [by apply IH|].
    by intros db' (? & ? & ? & ? & ? & ? & _).
Qed.

(** C28: a snapshot that is restored was saved in this history, by this version.
    Take a directory an earlier version left, with whatever snapshots, and any
    sequence of commands and ticks on it.  When [weave index] then answers a commit
    from its snapshot, one of those commands indexed that very commit on a clean
    tree, and the database that is live again is the one the last such command left. *)
Theorem restored_was_saved d0 log d e inc d' : extractor_version d0 ≠ Some EXTRACTOR_VERSION → history d0 log d →
  cmd_index hash_one parse_chunk ratio_of e inc d = Some (d', Ok Restored) →
  ∃ sha db, env_sha e = Some sha ∧ active_db (live d') = Some db ∧ saved_by log sha db.
Proof.
  intros Hv0 Hh Hc. destruct (cmd_index_cases _ _ _ _ _ Hc) as (Hv & _ & _ & sha & db & Hsha & Hin & Hdb). exists sha, db. split_and!; [done..|].
  by apply (history_trusted d0 log d).
Qed.
End snapshots.

(** ** What a second run at one commit does *)

(** At the commit last indexed nothing is read: the answer is that the index is up
    to date, whatever the files are now, and the marker of a deferred batch, whose
    text asks for this very command, is gone with its files not indexed. *)
Theorem index_drops_marker {engine : Sqlite} hash_one parse_chunk ratio_of e inc d sha : env_network e = false → env_lock e = true → extractor_version d = Some EXTRACTOR_VERSION →
  env_sha e = Some sha → last_indexed_sha d = Some sha → is_Some (active_db (live d)) →
  cmd_index hash_one parse_chunk ratio_of e inc d = Some (clear_pending_marker d, Ok UpToDate) ∧ live (clear_pending_marker d) = live d ∧ pending_marker (clear_pending_marker d) = None.
Proof. intros Hn Hl Hv Hs Hls Hdb. unfold cmd_index, try_fast_path. rewrite Hn, Hl. cbn [negb]. rewrite bool_decide_true by done. rewrite Hs, Hls. by rewrite decide_True. Qed.

(** ** Concrete runs *)

Definition files_at (name : string) : list (string * option ParsedFile) := [caller_file; defines "b.rs" name].
Definition env_at (sha name : string) (clean : bool) : index_env := mkEnv false true (Some sha) clean (files_at name) (λ _, None) true.
Definition fresh_dir : index_dir := mkIndexDir (mkDir None false) None None ∅ None None.
Definition names_of (d : index_dir) : option (list string) := (λ db, node_symbol <$> stored_nodes db) <$> active_db (live d).
Definition dir_after (d : index_dir) (e : index_env) : index_dir := match cmd_index len_hash 2 (λ n, n / 2) e false d with Some (d, Ok _) => d | _ => d end.
Definition answer_of (d : index_dir) (e : index_env) : option index_answer := match cmd_index len_hash 2 (λ n, n / 2) e false d with Some (_, Ok a) => Some a | _ => None end.

(** An edit is indexed on top of commit [c1] and then taken back: at the same commit
    the index keeps the edit that no longer exists, until another commit. *)
Example reverted_change_stays :
  let d := dir_after fresh_dir (env_at "c1" "edited" false) in
  answer_of d (env_at "c1" "foo" true) = Some UpToDate ∧
  names_of (dir_after d (env_at "c1" "foo" true)) = names_of (dir_after fresh_dir (env_at "c1" "edited" true)) ∧
  names_of (dir_after d (env_at "c1" "foo" true)) ≠ names_of (dir_after fresh_dir (env_at "c1" "foo" true)).
Proof. split_and!; [vm_compute; reflexivity..|]. intros H. vm_compute in H. discriminate H. Qed.

Definition root_dir : string := "/repo".
Definition storm : list (signal index_env) :=
  [Event "/repo/b.rs"; Event "/repo/notes.bin"; Quiet (env_at "c1" "edited" false); Quiet (env_at "c1" "edited" false); Event "/repo/b.rs"; Event "/repo/c.rs"].
Definition indexed_dir : index_dir := dir_after fresh_dir (env_at "c1" "foo" true).

(** The first burst reaches two symbols: below a ceiling of three it is indexed, and
    the last one, two known symbols and a new file, too; with a ceiling of one both stay pending. *)
Lemma watch_loses_nothing_witness :
  accounted (mkLoop indexed_dir ∅ ∅ false []) (run_watch_loop len_hash 2 (B := gset N) root_dir 3 (env_at "c1" "edited" false) storm indexed_dir) "b.rs" ∧
  pending (run_watch_loop len_hash 2 (B := gset N) root_dir 3 (env_at "c1" "edited" false) storm indexed_dir) = ∅ ∧
  pending (run_watch_loop len_hash 2 (B := gset N) root_dir 1 (env_at "c1" "edited" false) storm indexed_dir) = {["b.rs"; "c.rs"]}.
Proof.
  split_and!; [|vm_compute; reflexivity..].
  apply (watch_loses_nothing len_hash 2 (B := gset N) root_dir 3 (env_at "c1" "edited" false) storm indexed_dir []
    (["/repo/b.rs"; "/repo/notes.bin"], env_at "c1" "edited" false) [(["/repo/b.rs"; "/repo/c.rs"], env_at "c1" "edited" false)] "/repo/b.rs"); [reflexivity|left|vm_compute; reflexivity].
Defined.

(** The snapshots of an earlier version: one of the commit that is indexed first. *)
Definition older_dir : index_dir := mkIndexDir (mkDir None false) (Some "c1") (Some 0%N) {["c1" := empty_db; "c3" := empty_db]} None None.
Lemma restored_was_saved_witness :
  let d1 := dir_after older_dir (env_at "c1" "foo" true) in
  let d2 := dir_after d1 (env_at "c2" "bar" true) in
  ∃ log d' db, history len_hash 2 (λ n, n / 2) (B := gset N) older_dir log d2 ∧
    cmd_index len_hash 2 (λ n, n / 2) (env_at "c1" "foo" true) false d2 = Some (d', Ok Restored) ∧
    active_db (live d') = Some db ∧ saved_by log "c1" db ∧ (node_symbol <$> stored_nodes db) = default [] (names_of d1).
Proof.
  intros d1 d2.
  destruct (cmd_index len_hash 2 (λ n, n / 2) (env_at "c1" "foo" true) false d2) as [[d' [[| | |]|]]|] eqn:Hc; try (exfalso; vm_compute in Hc; discriminate Hc).
  assert (∃ r, cmd_index len_hash 2 (λ n, n / 2) (env_at "c1" "foo" true) false older_dir = Some (d1, r)) as [r1 H1] by (eexists; vm_compute; reflexivity).
  assert (∃ r, cmd_index len_hash 2 (λ n, n / 2) (env_at "c2" "bar" true) false d1 = Some (d2, r)) as [r2 H2] by (eexists; vm_compute; reflexivity).
  pose proof (history_index len_hash 2 (λ n, n / 2) (B := gset N) older_dir _ _ _ _ _ _ (history_index len_hash 2 (λ n, n / 2) older_dir _ _ _ _ _ _ (history_none len_hash 2 (λ n, n / 2) older_dir) H1) H2) as Hh.
  destruct (restored_was_saved len_hash 2 (λ n, n / 2) (B := gset N) older_dir _ d2 (env_at "c1" "foo" true) false d' ltac:(discriminate) Hh Hc) as (sha & db & Hsha & Hdb & Hsaved).
  injection Hsha as <-. eexists _, d', db. split_and!; [exact Hh|exact eq_refl|exact Hdb|exact Hsaved|].
  clear Hh Hsaved. vm_compute in Hc. injection Hc as <-. vm_compute in Hdb. injection Hdb as <-. vm_compute. reflexivity.
Defined.
