(* ===== verification/HubViews.v ===== *)
(** * The hub's views of snapshots (weave-graph-hub: canvas.rs, policy_lint.rs,
    and their routes in registry.rs and server.rs)

    A canvas draws the modules of a repository's latest snapshot on a grid, a mesh
    canvas those of several side by side, and a mesh lint checks each against the
    operator's policy.  Reading a database file, YAML and JSON text are parameters;
    coordinates are 32-bit, wrapping as in the release profile; an authorizer is a
    pair of functions. *)

From S2P Require Import Prelude Str Model Csr SqlStore SqlProofs SqlGraph Modules Spool Registry RegistryProofs Auth Http Hub HubProofs Json Policy PolicyGate Tools Mcp.

(** ** The canvas *)

Definition i32_wrap (z : Z) : Z := ((z + 2147483648) mod 4294967296 - 2147483648)%Z.
Definition MODULE_BUDGET : nat := 200.

(** src/crates/weave-graph-hub/src/canvas.rs:43-53 [CanvasNode] *)
Record CanvasNode := mkCanvasNode { cn_id : string; cn_kind : string; cn_x : Z; cn_y : Z; cn_width : Z; cn_height : Z; cn_text : string }.
(** src/crates/weave-graph-hub/src/canvas.rs:55-62 [Canvas] *)
Record Canvas := mkCanvas { canvas_nodes : list CanvasNode; overflow_count : nat }.
Definition at_xy (n : CanvasNode) (x y : Z) : CanvasNode := mkCanvasNode (cn_id n) (cn_kind n) x y (cn_width n) (cn_height n) (cn_text n).

(** src/crates/weave-graph-hub/src/canvas.rs:72-76 [grid_layout] *)
Definition place (i : nat) (node : CanvasNode) : CanvasNode :=
  let i := i32_wrap (Z.of_nat i) in at_xy node (i32_wrap (Z.rem i 6 * 260)) (i32_wrap (Z.quot i 6 * 140)).
(** src/crates/weave-graph-hub/src/canvas.rs:68-77 [grid_layout] *)
Definition grid_layout (nodes : list CanvasNode) : list CanvasNode := imap place nodes.

(** src/crates/weave-graph-hub/src/canvas.rs:79-89 [module_node] *)
Definition module_node (m : FileModule) : CanvasNode :=
  mkCanvasNode ("module-" +:+ dec (mod_id m)) "text" 0 0 240 120
    ("# " +:+ mod_label m +:+ newline +:+ newline +:+ dec (N.of_nat (length (mod_files m))) +:+ " file(s)").

(** src/crates/weave-graph-hub/src/canvas.rs:91-102 [retain_visible_files]
    The module with the files that stay, or nothing. *)
Definition retain_visible_files (exclude : list string) (m : FileModule) : option FileModule :=
  if existsb (starts_with (mod_label m)) exclude then None else
  let files := filter (λ path, existsb (starts_with path) exclude = false) (mod_files m) in
  match files with [] => None | _ => Some (mkModule (mod_id m) (mod_label m) files) end.

(** src/crates/weave-graph-hub/src/canvas.rs:116-132 [build_module_canvas]
    Of the modules that were found. *)
Definition canvas_of_modules (exclude : list string) (modules : list FileModule) : Canvas :=
  let modules := sort_by (λ a b, String.leb (mod_label a) (mod_label b)) (omap (retain_visible_files exclude) modules) in
  mkCanvas (grid_layout (module_node <$> take MODULE_BUDGET modules)) (length modules - MODULE_BUDGET).

Definition MESH_BAND_WIDTH : Z := 6 * 260 + 200.
(** src/crates/weave-graph-hub/src/canvas.rs:176-190 [build_mesh_canvas] *)
Definition mesh_band (i : nat) (band : string * Canvas) : list CanvasNode :=
  let x_offset := i32_wrap (i32_wrap (Z.of_nat i) * MESH_BAND_WIDTH) in
  mkCanvasNode ("mesh-header-" +:+ band.1) "text" x_offset (-160) 240 120 ("# " +:+ band.1) ::
  ((λ n, at_xy n (i32_wrap (cn_x n + x_offset)) (cn_y n)) <$> canvas_nodes band.2).
(** src/crates/weave-graph-hub/src/canvas.rs:173-197 [build_mesh_canvas] *)
Definition build_mesh_canvas (bands : list (string * Canvas)) : Canvas :=
  mkCanvas (mjoin (imap mesh_band bands)) (sum_list ((λ b, overflow_count b.2) <$> bands)).

(** ** Authorization *)

(** src/crates/weave-graph-hub/src/server.rs:22-31 [CanvasAuthorizer] *)
Record CanvasAuthorizer := mkAuthorizer { can_view : option string → string → bool; can_view_repo : option string → string → bool }.
(** src/crates/weave-graph-hub/src/server.rs:41-45 [filter_canvas]
    The first line, without the mark of a heading. *)
Definition shown_label (n : CanvasNode) : string :=
  match strip_prefix "# " (cn_text n) with Some text => default "" (hd_error (split_char "010"%char text)) | None => cn_text n end.
(** src/crates/weave-graph-hub/src/server.rs:34-50 [filter_canvas] *)
Definition filter_canvas (c : Canvas) (credential : option string) (authorizer : option CanvasAuthorizer) : Canvas :=
  match authorizer with
  | Some a => mkCanvas (filter (λ n, can_view a credential (shown_label n) = true) (canvas_nodes c)) (overflow_count c)
  | None => c
  end.
Definition repo_allowed (authorizer : option CanvasAuthorizer) (credential : option string) (repo_id : string) : bool :=
  match authorizer with Some a => can_view_repo a credential repo_id | None => true end.

(** src/crates/weave-graph-hub/src/server.rs:316-327 [parse_mesh_canvas_path]
    With the name of the view. *)
Definition parse_mesh_path (view path : string) : option (list string) :=
  '(_, rest) ← split_once path ("/mesh/" +:+ view +:+ "/");
  let rest := trim_end_by (λ a, bool_decide (a = "/"%char)) rest in
  if is_empty rest then None else
  let repo_ids := split_char ","%char rest in
  if forallb is_safe_path_component repo_ids then Some repo_ids else None.
Definition parse_mesh_canvas_path : string → option (list string) := parse_mesh_path "canvas".
(** src/crates/weave-graph-hub/src/server.rs:377-388 [parse_mesh_policy_lint_path] *)
Definition parse_mesh_policy_lint_path : string → option (list string) := parse_mesh_path "policy-lint".

(** ** JSON *)

Definition json_int (z : Z) : Value := JNumber (if (z <? 0)%Z then NegInt (Z.to_N (- z)) else PosInt (Z.to_N z)).
Definition json_nat (n : nat) : Value := JNumber (PosInt (N.of_nat n)).
Definition node_json (n : CanvasNode) : Value :=
  JObject [("id", JString (cn_id n)); ("type", JString (cn_kind n)); ("x", json_int (cn_x n)); ("y", json_int (cn_y n));
           ("width", json_int (cn_width n)); ("height", json_int (cn_height n)); ("text", JString (cn_text n))].
Definition canvas_json (c : Canvas) : Value := JObject [("nodes", JArray (node_json <$> canvas_nodes c)); ("overflow_count", json_nat (overflow_count c))].
(** src/crates/weave-graph-hub/src/server.rs:413-426 [handle_mesh_policy_lint]
    Fields in the order of the source; whether printing sorts them is up to the printer. *)
Definition lint_json (bands : list (string * list Violation)) : Value :=
  JObject [("repos", JArray ((λ b : string * list Violation, JObject [("repo_id", JString b.1); ("violations", JArray ((λ v,
    JObject [("kind", JString (v_kind v)); ("from", JString (v_from v)); ("to", JString (v_to v));
             ("examples", JArray (JString <$> v_examples v)); ("owner_role", from_option JString JNull (v_owner_role v))]) <$> b.2))]) <$> bands))].

(** ** Policy of the registry *)

(** src/crates/weave-graph-hub/src/policy_lint.rs:69-82 [load_rules]
    Unlike the command line, empty endpoints are taken. *)
Definition hub_rule (entry : RuleEntry) : result BoundaryRule string :=
  match to_boundary <$> re_disallow entry, to_boundary <$> re_require entry with
  | Some _, Some _ => Err "a rule cannot be both `disallow` and `require`"
  | Some b, None => Ok (Disallow b)
  | None, Some b => Ok (Require_ b)
  | None, None => Err "each rule needs exactly one of `disallow` or `require`"
  end.

Section views.
Context `{HashOrder} (rounds : nat) (open_read_only : string → result Db string) (from_yaml : string → result PolicyFile string) (json_text : Value → string).
Context (canvas_exclude : list string) (policy_text : option string) (authorizer : option CanvasAuthorizer).

(** src/crates/weave-graph-hub/src/policy_lint.rs:61-84 [load_rules] *)
Definition hub_load_rules : result (list BoundaryRule) string :=
  match policy_text with
  | None => Ok []
  | Some c => match from_yaml c with Err e => Err ("invalid policy YAML: " +:+ e) | Ok parsed => try_map hub_rule (default [] (pf_rules parsed)) end
  end.
(** src/crates/weave-graph-hub/src/policy_lint.rs:98-116 [lint_snapshot_bytes] *)
Definition lint_snapshot_bytes (bytes : string) (rules : list BoundaryRule) : result (list Violation) string :=
  let? db := open_read_only bytes in
  match all_nodes db, all_edges db with
  | Ok nodes, Ok edges => Ok (lint nodes edges rules)
  | Err e, _ | _, Err e => Err (storage_error_text e)
  end.

(** src/crates/weave-graph-hub/src/canvas.rs:108-133 [build_module_canvas]
    [None]: the clustering did not settle in [rounds]. *)
Definition build_module_canvas {S} `{Storage S} (s : S) : option (result Canvas StorageError) :=
  match all_nodes s, all_edges s with
  | Ok nodes, Ok edges =>
      modules ← build_modules rounds nodes (aggregate_file_edges edges (Policy.file_of nodes));
      Some (Ok (canvas_of_modules canvas_exclude modules))
  | Err e, _ | _, Err e => Some (Err e)
  end.
(** src/crates/weave-graph-hub/src/canvas.rs:140-153 [from_snapshot_bytes] *)
Definition from_snapshot_bytes (bytes : string) : option (result Canvas string) :=
  match open_read_only bytes with
  | Err e => Some (Err e)
  | Ok db => r ← build_module_canvas db; Some (match r with Ok c => Ok c | Err e => Err (storage_error_text e) end)
  end.

(** src/crates/weave-graph-hub/src/registry.rs:614-622 [Registry::canvas]
    The inner option is the answer of the method. *)
Definition registry_canvas (r : Registry) (repo_id : string) : option (option (result Canvas string)) :=
  match pull r repo_id "latest" with
  | Found bytes _ => Some <$> from_snapshot_bytes bytes
  | NotFound => Some None
  end.
(** src/crates/weave-graph-hub/src/registry.rs:634-650 [Registry::mesh_policy_lint] *)
Definition mesh_policy_lint (r : Registry) (repo_ids : list string) : result (list (string * list Violation)) string :=
  let? rules := hub_load_rules in
  Ok (omap (λ repo_id, match pull r repo_id "latest" with
                       | Found bytes _ => match lint_snapshot_bytes bytes rules with Ok vs => Some (repo_id, vs) | Err _ => None end
                       | NotFound => None
                       end) repo_ids).

Definition json_response (v : Value) : Response := mkResponse 200 "OK" [("Content-Type", "application/json")] (json_text v).
(** src/crates/weave-graph-hub/src/server.rs:272-308 [handle_canvas] *)
Definition handle_canvas (r : Registry) (repo_id : string) (credential : option string) : option Response :=
  answer ← registry_canvas r repo_id;
  Some (match answer with
        | Some (Ok c) => json_response (canvas_json (filter_canvas c credential authorizer))
        | Some (Err e) => plain 500 "Internal Server Error" e
        | None => plain 404 "Not Found" "no committed snapshot for this repo"
        end).
(** src/crates/weave-graph-hub/src/server.rs:337-353 [handle_mesh_canvas] *)
Definition band_of (r : Registry) (credential : option string) (repo_id : string) : option (option (string * Canvas)) :=
  if negb (repo_allowed authorizer credential repo_id) then Some None else
  answer ← registry_canvas r repo_id;
  Some (match answer with Some (Ok c) => Some (repo_id, filter_canvas c credential authorizer) | _ => None end).
Definition mesh_bands (r : Registry) (repo_ids : list string) (credential : option string) : option (list (string * Canvas)) :=
  omap id <$> mapM (band_of r credential) repo_ids.
(** src/crates/weave-graph-hub/src/server.rs:330-371 [handle_mesh_canvas] *)
Definition handle_mesh_canvas (r : Registry) (repo_ids : list string) (credential : option string) : option Response :=
  bands ← mesh_bands r repo_ids credential; Some (json_response (canvas_json (build_mesh_canvas bands))).
(** src/crates/weave-graph-hub/src/server.rs:395-443 [handle_mesh_policy_lint] *)
Definition handle_mesh_policy_lint (r : Registry) (repo_ids : list string) (credential : option string) : Response :=
  match mesh_policy_lint r (filter (λ id, repo_allowed authorizer credential id = true) repo_ids) with
  | Ok bands => json_response (lint_json bands)
  | Err e => plain 500 "Internal Server Error" e
  end.
(** src/crates/weave-graph-hub/src/server.rs:550-588 [handle_connection]
    The routes of the views; the inner [None] goes on to those of the snapshots. *)
Definition handle_view (r : Registry) (req : Request) : option (option Response) :=
  if negb (bool_decide (req_method req = "GET")) then Some None else
  let credential := header req "Authorization" in
  match parse_mesh_canvas_path (req_path req), parse_mesh_policy_lint_path (req_path req), parse_repo_scoped_path (req_path req) "canvas" with
  | Some ids, _, _ => Some <$> handle_mesh_canvas r ids credential
  | None, Some ids, _ => Some (Some (handle_mesh_policy_lint r ids credential))
  | None, None, Some id => Some <$> handle_canvas r id credential
  | None, None, None => Some None
  end.

(** *** A whole connection *)

(** How an I/O error prints. *)
Context `{ReadDir} (error_text : IoError → string).

(** What a PUT leaves whose completion panics: the upload was begun with its first
    chunk, the chunk is spooled, and the reservation is taken. *)
Definition crashed_put (now : N) (r : Registry) (repo_id sha : string) (req : Request) : Registry :=
  let start := (upload_range req).1.1 in
  let r := if (start =? 0)%N then (begin_upload now r repo_id sha (header req "X-Weave-Base-Sha")).1 else r in
  let r := (spool_chunk now r repo_id sha start (req_body req)).1 in
  (take_upload_reservation r repo_id sha).1.
Definition crashed_request (now : N) (r : Registry) (req : Request) : Registry :=
  match parse_snapshot_path (req_path req) with Some (repo_id, sha) => crashed_put now r repo_id sha req | None => r end.

(** src/crates/weave-graph-hub/src/server.rs:513-777 [handle_connection]
    With the views.  The registry afterwards, and the answer: [Some None] closes
    the connection without a response, [None] is a thread that panics in the completion
    of a push or a clustering that does not settle in [rounds]. *)
Definition serve_connection (now : N) (registerable : string → bool) (auth_token : option string) (r : Registry)
    (stream : list string) : Registry * option (option Response) :=
  match read_request_head stream with
  | Err _ | Ok None => (r, Some None)
  | Ok (Some (req, stream)) =>
      if match auth_token with Some token => negb (bearer_token_matches (header req "Authorization") token) | None => false end
      then (r, Some (Some (plain 401 "Unauthorized" "missing or invalid bearer token"))) else
      if (MAX_HUB_CHUNK_BYTES <? req_content_length req)%N
      then (r, Some (Some (plain 413 "Payload Too Large" "request body exceeds the hub chunk limit"))) else
      match read_request_body req stream with
      | Err _ => (r, Some None)
      | Ok req =>
          match handle_view r req with
          | None => (r, None)
          | Some (Some resp) => (r, Some (Some resp))
          | Some None =>
              match handle_request error_text now registerable r req with
              | Some (r, resp) => (r, Some resp)
              | None => (crashed_request now r req, None)
              end
          end
      end
  end.
End views.

(** ** Layout *)

(** Two rectangles that do not overlap. *)
Definition apart (a b : CanvasNode) : Prop :=
  (cn_x a + cn_width a ≤ cn_x b ∨ cn_x b + cn_width b ≤ cn_x a ∨ cn_y a + cn_height a ≤ cn_y b ∨ cn_y b + cn_height b ≤ cn_y a)%Z.
Definition on_grid (n : CanvasNode) : Prop := (0 ≤ cn_x n ≤ 1300 ∧ 0 ≤ cn_y n)%Z ∧ cn_width n = 240%Z ∧ cn_height n = 120%Z.
Definition tiled (c : Canvas) : Prop := StronglySorted apart (canvas_nodes c) ∧ Forall on_grid (canvas_nodes c).

Lemma i32_wrap_small z : (-2147483648 ≤ z < 2147483648)%Z → i32_wrap z = z.
Proof. intros Hz. unfold i32_wrap. rewrite Z.mod_small; lia. Qed.
Lemma place_xy i n : i < 1000 → cn_x (place i n) = (Z.of_nat i mod 6 * 260)%Z ∧ cn_y (place i n) = (Z.of_nat i / 6 * 140)%Z.
Proof.
  intros Hi. unfold place. cbn [cn_x cn_y at_xy]. rewrite (i32_wrap_small (Z.of_nat i)) by lia. rewrite Z.rem_mod_nonneg, Z.quot_div_nonneg by lia.
  rewrite !i32_wrap_small; [done|..]; (pose proof (Z.mod_pos_bound (Z.of_nat i) 6); pose proof (Z.div_le_upper_bound (Z.of_nat i) 6 1000); pose proof (Z.div_pos (Z.of_nat i) 6); lia).
Qed.
Lemma imap_StronglySorted {A B} (R : B → B → Prop) (f : nat → A → B) l :
  (∀ i j x y, i < j < length l → l !! i = Some x → l !! j = Some y → R (f i x) (f j y)) → StronglySorted R (imap f l).
Proof.
  revert f. induction l as [|x l IH]; intros f Hf; [constructor|]. rewrite imap_cons. constructor.
  - apply IH. intros i j a b Hij Ha Hb. apply (Hf (S i) (S j)); cbn; [lia|done..].
  - apply Forall_lookup. intros j b Hb. rewrite list_lookup_imap in Hb. apply fmap_Some in Hb as (y & Hy & ->).
    apply (Hf 0 (S j)); cbn; [|done..]. apply lookup_lt_Some in Hy. lia.
Qed.
Lemma grid_tiled nodes k : length nodes ≤ 200 → Forall (λ n, cn_width n = 240%Z ∧ cn_height n = 120%Z) nodes → tiled (mkCanvas (grid_layout nodes) k).
Proof.
  intros Hlen Hsize. split; cbn [canvas_nodes]; unfold grid_layout.
  - apply imap_StronglySorted. intros i j a b Hij Ha Hb. pose proof (proj1 (Forall_lookup _ _) Hsize _ _ Ha) as [Hwa Hha]. pose proof (proj1 (Forall_lookup _ _) Hsize _ _ Hb) as [Hwb Hhb].
    destruct (place_xy i a) as [Hxa Hya]; [lia|]. destruct (place_xy j b) as [Hxb Hyb]; [lia|]. unfold apart. rewrite Hxa, Hya, Hxb, Hyb.
    cbn [place at_xy cn_width cn_height]. rewrite Hwa, Hha, Hwb, Hhb. Z.to_euclidean_division_equations. lia.
  - apply Forall_lookup. intros i n Hn. rewrite list_lookup_imap in Hn. apply fmap_Some in Hn as (m & Hm & ->). pose proof (proj1 (Forall_lookup _ _) Hsize _ _ Hm) as [Hw Hh].
    apply lookup_lt_Some in Hm. destruct (place_xy i m) as [Hx Hy]; [lia|]. unfold on_grid. rewrite Hx, Hy. split; [|done]. Z.to_euclidean_division_equations. lia.
Qed.
Lemma canvas_tiled exclude ms : tiled (canvas_of_modules exclude ms).
Proof. apply grid_tiled; [rewrite length_fmap, length_take; unfold MODULE_BUDGET; lia|]. apply Forall_fmap, Forall_true. done. Qed.
Lemma filter_tiled c credential a : tiled c → tiled (filter_canvas c credential a).
Proof. intros [Hs Hg]. destruct a as [a|]; [|done]. split; cbn [filter_canvas canvas_nodes]; [by apply StronglySorted_filter|]. apply Forall_forall. intros n [_ Hn]%list_elem_of_filter. by apply (proj1 (Forall_forall _ _) Hg). Qed.

Lemma StronglySorted_mjoin {A} (R : A → A → Prop) (ls : list (list A)) :
  Forall (StronglySorted R) ls → (∀ i j l l' x y, i < j → ls !! i = Some l → ls !! j = Some l' → x ∈ l → y ∈ l' → R x y) → StronglySorted R (mjoin ls).
Proof.
  induction ls as [|l ls IH]; intros Hs Hx; [constructor|]. apply Forall_cons in Hs as [Hl Hs]. cbn. apply StronglySorted_app. split_and!; [|done|].
  - intros x y Hin (l' & Hy & Hl')%list_elem_of_join. apply list_elem_of_lookup in Hl' as [j Hj]. apply (Hx 0 (S j) l l'); [lia|done..].
  - apply IH; [done|]. intros i j l1 l2 x y Hij H1 H2. apply (Hx (S i) (S j) l1 l2); [lia|done..].
Qed.
Lemma mesh_band_xy i b n : (Z.of_nat i ≤ 1220000)%Z → tiled b.2 → n ∈ mesh_band i b → (Z.of_nat i * 1760 ≤ cn_x n ≤ Z.of_nat i * 1760 + 1300)%Z ∧ cn_width n = 240%Z.
Proof.
  intros Hi [_ Hg]. unfold mesh_band. rewrite (i32_wrap_small (Z.of_nat i)) by lia. change MESH_BAND_WIDTH with 1760%Z. rewrite (i32_wrap_small (Z.of_nat i * 1760)) by lia.
  rewrite elem_of_cons. intros [->|(m & -> & Hm)%list_elem_of_fmap]; [cbn; lia|]. apply (proj1 (Forall_forall _ _) Hg) in Hm as [Hx [Hw Hh]]. cbn [at_xy cn_x cn_width].
  rewrite i32_wrap_small by lia. lia.
Qed.
Lemma mesh_band_sorted i b : (Z.of_nat i ≤ 1220000)%Z → tiled b.2 → StronglySorted apart (mesh_band i b).
Proof.
  intros Hi [Hs Hg]. unfold mesh_band. rewrite (i32_wrap_small (Z.of_nat i)) by lia. change MESH_BAND_WIDTH with 1760%Z. rewrite (i32_wrap_small (Z.of_nat i * 1760)) by lia.
  constructor.
  - induction (canvas_nodes b.2) as [|n ns IH]; cbn; [constructor|]. apply Forall_cons in Hg as [Hn Hg]. apply StronglySorted_inv in Hs as [Hs Ha]. constructor; [by apply IH|].
    apply Forall_fmap, Forall_forall. intros m Hm. pose proof (proj1 (Forall_forall _ _) Ha m Hm) as Hap. pose proof (proj1 (Forall_forall _ _) Hg m Hm) as [Hx _]. destruct Hn as [Hx' _].
    unfold apart in *. cbn [compose at_xy cn_x cn_y cn_width cn_height]. rewrite !i32_wrap_small by lia. lia.
  - apply Forall_fmap, Forall_forall. intros m Hm. pose proof (proj1 (Forall_forall _ _) Hg m Hm) as [Hx _]. unfold apart. cbn. lia.
Qed.
Lemma mesh_tiled bands : (Z.of_nat (length bands) ≤ 1220000)%Z → Forall (λ b, tiled b.2) bands → StronglySorted apart (canvas_nodes (build_mesh_canvas bands)).
Proof.
  intros Hlen Hb. cbn [canvas_nodes build_mesh_canvas]. apply StronglySorted_mjoin.
  - apply Forall_lookup. intros i l Hl. rewrite list_lookup_imap in Hl. apply fmap_Some in Hl as (b & Hbi & ->). pose proof (lookup_lt_Some _ _ _ Hbi). apply mesh_band_sorted; [lia|by eapply (proj1 (Forall_lookup _ _) Hb)].
  - intros i j l l' x y Hij Hl Hl' Hx Hy. rewrite list_lookup_imap in Hl, Hl'. apply fmap_Some in Hl as (b & Hbi & ->). apply fmap_Some in Hl' as (b' & Hbj & ->).
    pose proof (lookup_lt_Some _ _ _ Hbi). pose proof (lookup_lt_Some _ _ _ Hbj).
    apply mesh_band_xy in Hx as [? ?]; [|lia|by eapply (proj1 (Forall_lookup _ _) Hb)]. apply mesh_band_xy in Hy as [? ?]; [|lia|by eapply (proj1 (Forall_lookup _ _) Hb)]. unfold apart. lia.
Qed.

(** ** What is drawn *)

Lemma retain_spec exclude m m' : retain_visible_files exclude m = Some m' ↔
  (∀ p, p ∈ exclude → starts_with (mod_label m) p = false) ∧ mod_files m' ≠ [] ∧
  m' = mkModule (mod_id m) (mod_label m) (filter (λ path, existsb (starts_with path) exclude = false) (mod_files m)).
Proof.
  unfold retain_visible_files. destruct (existsb (starts_with (mod_label m)) exclude) eqn:He.
  { split; [done|]. intros (Hl & _). apply existsb_exists in He as (p & Hp%list_elem_of_In & Hs). rewrite Hl in Hs; done. }
  assert (∀ p, p ∈ exclude → starts_with (mod_label m) p = false) as Hl.
  { intros p Hp. destruct (starts_with (mod_label m) p) eqn:Hs; [|done]. rewrite <- He. symmetry. apply existsb_exists. exists p. split; [by apply list_elem_of_In|done]. }
  destruct (filter _ (mod_files m)) as [|f fs] eqn:Hf; split; [done| |intros [= <-]; done|].
  - intros (_ & Hne & ->). done.
  - by intros (_ & _ & ->).
Qed.
Lemma existsb_starts_false path exclude : existsb (starts_with path) exclude = false ↔ ∀ p, p ∈ exclude → starts_with path p = false.
Proof.
  split.
  - intros He p Hp. destruct (starts_with path p) eqn:Hs; [|done]. rewrite <- He. symmetry. apply existsb_exists. exists p. split; [by apply list_elem_of_In|done].
  - intros Hall. destruct (existsb _ _) eqn:He; [|done]. apply existsb_exists in He as (p & Hp%list_elem_of_In & Hs). by rewrite Hall in Hs.
Qed.
Lemma omap_retain_ids exclude ms : sublist (mod_id <$> omap (retain_visible_files exclude) ms) (mod_id <$> ms).
Proof.
  induction ms as [|m ms IH]; cbn; [constructor|]. destruct (retain_visible_files exclude m) as [m'|] eqn:Hr; cbn; [|by constructor].
  apply retain_spec in Hr as (_ & _ & ->). cbn. by constructor.
Qed.
Lemma module_id_inj (a b : N) : "module-" +:+ dec a = "module-" +:+ dec b → a = b.
Proof. intros Hab. cbn in Hab. repeat (injection Hab as Hab). by apply dec_inj. Qed.
(** The label that is judged is that of the module. *)
Lemma shown_label_module m i : no_char "010"%char (mod_label m) → shown_label (place i (module_node m)) = mod_label m.
Proof.
  intros Hn. unfold shown_label, place, module_node. cbn [at_xy cn_text].
  rewrite (proj2 (strip_prefix_Some "# " _ _) eq_refl). 
  change (newline +:+ newline +:+ ?x) with (String "010" (newline +:+ x)). by rewrite (split_char_cons "010" (mod_label m) _ Hn).
Qed.
Lemma grid_keeps {B} (f : CanvasNode → B) l : (∀ n x y, f (at_xy n x y) = f n) → f <$> grid_layout l = f <$> l.
Proof. intros Hf. unfold grid_layout. rewrite fmap_imap, <- (imap_const f). apply imap_ext. intros i n _. apply Hf. Qed.

Section drawn.
Context `{HashOrderLaws} (rounds : nat) (exclude : list string).

(** A canvas draws exactly the modules that remain when the excluded files are taken
    out, sorted by label, the first two hundred of them, each once, on cells that do
    not overlap; the number of the others is told. *)
Theorem canvas_exact {S} `{Storage S} (s : S) ns es ms : all_nodes s = Ok ns → all_edges s = Ok es → build_modules rounds ns (aggregate_file_edges es (Policy.file_of ns)) = Some ms →
  ∃ c shown, build_module_canvas rounds exclude s = Some (Ok c) ∧ tiled c ∧ NoDup (cn_id <$> canvas_nodes c) ∧ cn_text <$> canvas_nodes c = cn_text ∘ module_node <$> take 200 shown ∧
    length (canvas_nodes c) + overflow_count c = length shown ∧ StronglySorted (λ a b, String.leb (mod_label a) (mod_label b) = true) shown ∧
    (∀ m', m' ∈ shown ↔ ∃ m, m ∈ ms ∧ retain_visible_files exclude m = Some m') ∧
    (∀ m' f, m' ∈ shown → f ∈ mod_files m' → (∃ n, n ∈ ns ∧ node_path n = f) ∧ ∀ p, p ∈ exclude → starts_with f p = false ∧ starts_with (mod_label m') p = false).
Proof.
  intros Hns Hes Hms. unfold build_module_canvas. rewrite Hns, Hes, Hms. cbn [mbind option_bind].
  set (shown := sort_by (λ a b, String.leb (mod_label a) (mod_label b)) (omap (retain_visible_files exclude) ms)).
  exists (canvas_of_modules exclude ms), shown.
  assert (∀ m', m' ∈ shown ↔ ∃ m, m ∈ ms ∧ retain_visible_files exclude m = Some m') as Hshown by (intros m'; unfold shown; by rewrite elem_of_sort_by, list_elem_of_omap).
  assert (NoDup (mod_id <$> shown)) as Hnd.
  { unfold shown. rewrite (fmap_Permutation mod_id _ _ (sort_by_perm _ _)). eapply sublist_NoDup; [|apply omap_retain_ids]. unfold build_modules in Hms. destruct (louvain_communities _ _ _); [|done]. injection Hms as <-. apply group_modules_partition. }
  split_and!; [done|apply canvas_tiled|..].
  - cbn [canvas_of_modules canvas_nodes]. fold shown. rewrite grid_keeps, <- list_fmap_compose by done.
    change (cn_id ∘ module_node) with ((λ x, "module-" +:+ dec x) ∘ mod_id). rewrite list_fmap_compose. apply NoDup_fmap_2; [exact module_id_inj|].
    rewrite fmap_take. by eapply sublist_NoDup, sublist_take.
  - cbn [canvas_of_modules canvas_nodes]. fold shown. by rewrite grid_keeps, list_fmap_compose.
  - cbn [canvas_of_modules canvas_nodes overflow_count]. fold shown. unfold grid_layout, MODULE_BUDGET. rewrite length_imap, length_fmap, length_take. lia.
  - apply sort_by_sorted_key; intros *; [apply (ordb_total (leb := String.leb))|apply (ordb_trans (leb := String.leb))].
  - done.
  - intros m' f (m & Hm & (Hl & _ & ->)%retain_spec)%Hshown Hf. cbn [mod_files mod_label] in *. apply list_elem_of_filter in Hf as [Hx Hf]. rewrite existsb_starts_false in Hx. split; [|auto].
    apply elem_of_distinct_files. rewrite <- (build_modules_files _ _ _ _ Hms). apply list_elem_of_In, in_concat. exists (mod_files m). split; apply list_elem_of_In; [by apply list_elem_of_fmap_2|done].
Qed.
End drawn.

(** ** What a caller of the mesh learns *)

Section mesh.
Context `{HashOrder} (rounds : nat) (open_read_only : string → result Db string) (from_yaml : string → result PolicyFile string) (json_text : Value → string).
Context (canvas_exclude : list string) (policy_text : option string).
Notation bands_of := (mesh_bands rounds open_read_only canvas_exclude).

Lemma registry_canvas_tiled r repo_id c : registry_canvas rounds open_read_only canvas_exclude r repo_id = Some (Some (Ok c)) → tiled c.
Proof.
  unfold registry_canvas, from_snapshot_bytes, build_module_canvas. destruct (pull r repo_id "latest") as [bytes sg|]; [|done]. destruct (open_read_only bytes) as [db|e]; [|done].
  destruct (all_nodes db) as [ns|e], (all_edges db) as [es|e']; try done. destruct (build_modules _ _ _) as [ms|]; [|done]. cbn. intros [= <-]. apply canvas_tiled.
Qed.
Lemma mesh_bands_elem a r ids credential bands repo_id c : bands_of a r ids credential = Some bands → (repo_id, c) ∈ bands →
  repo_id ∈ ids ∧ repo_allowed a credential repo_id = true ∧ tiled c ∧
  match a with Some a => ∀ n, n ∈ canvas_nodes c → can_view a credential (shown_label n) = true | None => True end.
Proof.
  unfold mesh_bands. intros Hb Hin. apply fmap_Some in Hb as (os & Hm & ->). apply list_elem_of_omap in Hin as (o & Ho & Hoc). cbn in Hoc. subst o.
  apply mapM_Some in Hm. apply list_elem_of_lookup in Ho as [k Hk]. destruct (Forall2_lookup_r _ _ _ _ _ Hm Hk) as (id & Hid & Hband).
  unfold band_of in Hband. destruct (repo_allowed a credential id) eqn:Hal; [|done]. cbn [negb] in Hband.
  destruct (registry_canvas _ _ _ r id) as [[[c'|e]|]|] eqn:Hc; try done. cbn in Hband. injection Hband as <- <-.
  split_and!; [by eapply list_elem_of_lookup_2|done|by eapply filter_tiled, registry_canvas_tiled|]. destruct a as [a|]; [|done]. intros n [Hv _]%list_elem_of_filter. done.
Qed.
Lemma mesh_bands_length a r ids credential bands : bands_of a r ids credential = Some bands → length bands ≤ length ids.
Proof.
  unfold mesh_bands. intros (os & Hm%mapM_Some%Forall2_length & ->)%fmap_Some. rewrite Hm. clear. induction os as [|[o|] os IH]; cbn; lia.
Qed.
Lemma mesh_bands_agree a r r' ids credential : (∀ id, id ∈ ids → repo_allowed a credential id = true → pull r id "latest" = pull r' id "latest") →
  bands_of a r ids credential = bands_of a r' ids credential.
Proof.
  intros Hag. unfold mesh_bands. f_equal. induction ids as [|id ids IH]; [done|]. cbn. rewrite IH by (intros i Hi; apply Hag; by right).
  assert (band_of rounds open_read_only canvas_exclude a r credential id = band_of rounds open_read_only canvas_exclude a r' credential id) as ->; [|done].
  unfold band_of, registry_canvas. destruct (repo_allowed a credential id) eqn:Hal; [|done]. by rewrite (Hag id (list_elem_of_here _ _) Hal).
Qed.
Lemma mesh_lint_agree a r r' ids credential : (∀ id, id ∈ ids → repo_allowed a credential id = true → pull r id "latest" = pull r' id "latest") →
  handle_mesh_policy_lint open_read_only from_yaml json_text policy_text a r ids credential = handle_mesh_policy_lint open_read_only from_yaml json_text policy_text a r' ids credential.
Proof.
  intros Hag. unfold handle_mesh_policy_lint, mesh_policy_lint. destruct (hub_load_rules _ _) as [rules|e]; [|done]. cbn. do 2 f_equal.
  apply list_omap_ext, Forall_Forall2_diag, Forall_forall. intros id [Hal Hid]%list_elem_of_filter. by rewrite (Hag id Hid Hal).
Qed.

(** C22: the mesh views read and show what the caller may see.  Two registries that
    agree on the latest snapshots of the requested repositories the authorizer
    allows give the same mesh canvas and the same mesh lint, whatever the other
    repositories hold; each band that is drawn is of an allowed repository and has
    only modules whose label the authorizer allows; and for every number of
    repositories the 32-bit coordinates can hold, no two cards of the whole mesh
    overlap. *)
Theorem mesh_shows_allowed a r r' ids credential :
  (∀ id, id ∈ ids → can_view_repo a credential id = true → pull r id "latest" = pull r' id "latest") → (Z.of_nat (length ids) ≤ 1220000)%Z →
  handle_mesh_canvas rounds open_read_only json_text canvas_exclude (Some a) r ids credential = handle_mesh_canvas rounds open_read_only json_text canvas_exclude (Some a) r' ids credential ∧
  handle_mesh_policy_lint open_read_only from_yaml json_text policy_text (Some a) r ids credential = handle_mesh_policy_lint open_read_only from_yaml json_text policy_text (Some a) r' ids credential ∧
  ∀ bands, bands_of (Some a) r ids credential = Some bands →
    handle_mesh_canvas rounds open_read_only json_text canvas_exclude (Some a) r ids credential = Some (json_response json_text (canvas_json (build_mesh_canvas bands))) ∧
    StronglySorted apart (canvas_nodes (build_mesh_canvas bands)) ∧
    ∀ repo_id c, (repo_id, c) ∈ bands → repo_id ∈ ids ∧ can_view_repo a credential repo_id = true ∧ ∀ n, n ∈ canvas_nodes c → can_view a credential (shown_label n) = true.
Proof.
  intros Hag Hlen. split_and!.
  - unfold handle_mesh_canvas. by rewrite (mesh_bands_agree (Some a) r r' ids credential Hag).
  - by apply (mesh_lint_agree (Some a)).
  - intros bands Hb. split_and!; [unfold handle_mesh_canvas; by rewrite Hb| |].
    + apply mesh_tiled; [pose proof (mesh_bands_length _ _ _ _ _ Hb); lia|]. apply Forall_forall. intros [repo_id c] Hin. by eapply mesh_bands_elem.
    + intros repo_id c Hin. destruct (mesh_bands_elem _ _ _ _ _ _ _ Hb Hin) as (? & ? & _ & ?). done.
Qed.
End mesh.

(** ** What a connection can do *)

Section connections.
Context `{HashOrder} `{ReadDirLaws} (rounds : nat) (open_read_only : string → result Db string) (from_yaml : string → result PolicyFile string) (json_text : Value → string).
Context (canvas_exclude : list string) (policy_text : option string) (authorizer : option CanvasAuthorizer) (error_text : IoError → string).
Notation serve := (serve_connection rounds open_read_only from_yaml json_text canvas_exclude policy_text authorizer error_text).
Notation view := (handle_view rounds open_read_only from_yaml json_text canvas_exclude policy_text authorizer).

Lemma crashed_request_steps now r req : rtc step r (crashed_request now r req).
Proof.
  unfold crashed_request, crashed_put. destruct (parse_snapshot_path _) as [[repo sha]|]; [|done]. cbv zeta.
  set (r1 := if (_ =? 0)%N then _ else r). assert (rtc step r r1) as Hb by (unfold r1; destruct (_ =? 0)%N; [apply rtc_once, step_begin|done]).
  etrans; [exact Hb|]. eapply rtc_l; [apply step_chunk|]. apply rtc_once, step_panic.
Qed.

(** C17: the HTTP server adds nothing to what the registry can do.  Whatever bytes
    arrive, in whatever packets, what a connection leaves is reached by registry
    operations, even where its thread panics or never answers, so the queue invariant
    survives it; a request without the server's bearer token, or whose head cannot be
    read, changes nothing; a body over the chunk limit is refused unread; and a request
    that one of the views answers changes nothing. *)
Theorem connection_safe now registerable auth_token r stream :
  let '(r', answer) := serve now registerable auth_token r stream in
  rtc step r r' ∧ (registry_ok r → registry_ok r') ∧
  match read_request_head stream with
  | Ok (Some (req, rest)) =>
      (∀ token, auth_token = Some token → header req "Authorization" ≠ Some ("Bearer " +:+ token) →
         r' = r ∧ option_map (option_map status) answer = Some (Some 401%N)) ∧
      ((MAX_HUB_CHUNK_BYTES < req_content_length req)%N →
         r' = r ∧ ∃ x, answer = Some (Some x) ∧ status x ∈ [401; 413]%N) ∧
      (∀ req', read_request_body req rest = Ok req' → view r req' ≠ Some None → r' = r)
  | _ => r' = r ∧ answer = Some None
  end.
Proof.
  destruct (serve now registerable auth_token r stream) as [r' answer] eqn:Hrun.
  assert (rtc step r r') as Hsteps.
  { unfold serve_connection in Hrun. repeat case_match; simplify_eq; try done; first [apply crashed_request_steps|by eapply handle_request_steps]. }
  split; [done|]. split; [intros Hok; by eapply steps_ok|].
  unfold serve_connection in Hrun. destruct (read_request_head stream) as [[[req rest]|]|]; [|by simplify_eq..]. split_and!.
  - intros token -> Hno. destruct (bearer_token_matches (header req "Authorization") token) eqn:Hb; cbn [negb] in Hrun; [|by simplify_eq].
    by apply bearer_match in Hb.
  - intros Hlen. case_match; simplify_eq; [split; [done|]; eexists; split; [done|]; cbn; set_solver|].
    rewrite (proj2 (N.ltb_lt _ _) Hlen) in Hrun. simplify_eq. split; [done|]. eexists. split; [done|]. cbn. set_solver.
  - intros req' Hbody Hview. rewrite Hbody in Hrun. case_match; [by simplify_eq|]. case_match; [by simplify_eq|].
    destruct (view r req') as [[resp|]|]; [by simplify_eq|done|by simplify_eq].
Qed.
End connections.

(** ** Concrete views *)

Definition three_files : Db :=
  let n p := mkNode 0 "local" p "f" "fn" 1 2 "fn f()" in
  let db := (upsert_nodes empty_db [n "secret/a.rs"; n "secret/b.rs"; n "pub/c.rs"]).1 in
  (upsert_edge (upsert_edge db (mkEdge 0 1 2 "CALLS" 0 None None)).1 (mkEdge 0 2 3 "CALLS" 0 None None)).1.
Definition demo_open (bytes : string) : result Db string := if decide (bytes = "three") then Ok three_files else Err "file is not a database".
Definition committed (bytes : string) : gmap string file := {["HEAD" := mkFile "s1" 0; "s1.tar.zst" := mkFile bytes 0]}.
Definition hub_of (stores : list (string * string)) : Registry := mkRegistry (mkRegConfig 2 10 100) None (list_to_map ((λ x, (x.1, committed x.2)) <$> stores)) ∅ ∅.
Definition only_a_b : CanvasAuthorizer := mkAuthorizer (λ _ label, negb (bool_decide (label = "hidden"))) (λ _ id, bool_decide (id ∈ ["a"; "b"])).
Definition drawn_by (exclude : list string) (r : Registry) (ids : list string) : option (list (string * string * Z)) :=
  (λ bands, (λ n, (cn_id n, cn_text n, cn_x n)) <$> canvas_nodes (build_mesh_canvas bands)) <$> mesh_bands 9 demo_open exclude (Some only_a_b) r ids None.

(** The two repositories of a mesh have a module of one id: the ids of the cards, which
    the format of the canvas takes to be unique, repeat. *)
Example mesh_ids_collide : option_map (map (λ x, x.1.1)) (drawn_by [] (hub_of [("a", "three"); ("b", "three")]) ["a"; "b"]) =
  Some ["mesh-header-a"; "module-0"; "mesh-header-b"; "module-0"].
Proof. vm_compute. reflexivity. Qed.
(** Excluding the files below [secret/] leaves one file in the module, and the name of
    the excluded directory as its label. *)
Example hidden_label_shown : option_map (map (λ x, x.1.2)) (drawn_by ["secret/"] (hub_of [("a", "three")]) ["a"]) =
  Some ["# a"; "# secret" +:+ newline +:+ newline +:+ "1 file(s)"].
Proof. vm_compute. reflexivity. Qed.

Lemma mesh_shows_allowed_witness :
  let r := hub_of [("a", "three"); ("c", "three")] in
  let r' := hub_of [("a", "three"); ("c", "other")] in
  handle_mesh_canvas 9 demo_open (λ _, "") [] (Some only_a_b) r ["a"; "b"; "c"] None = handle_mesh_canvas 9 demo_open (λ _, "") [] (Some only_a_b) r' ["a"; "b"; "c"] None ∧
  pull r "c" "latest" ≠ pull r' "c" "latest" ∧
  ∃ bands, mesh_bands 9 demo_open [] (Some only_a_b) r ["a"; "b"; "c"] None = Some bands ∧ bands.*1 = ["a"] ∧ StronglySorted apart (canvas_nodes (build_mesh_canvas bands)).
Proof.
  intros r r'. destruct (mesh_shows_allowed 9 demo_open (λ _, Err "") (λ _, "") [] None only_a_b r r' ["a"; "b"; "c"] None) as (Hc & _ & Hb).
  - intros id Hid Hv. cbn in Hv. apply bool_decide_eq_true in Hv. repeat (apply elem_of_cons in Hv as [->|Hv]; [vm_compute; reflexivity|]). by apply not_elem_of_nil in Hv.
  - cbn. lia.
  - split; [exact Hc|]. split; [intros He; vm_compute in He; discriminate He|]. eexists. split; [vm_compute; reflexivity|]. split; [reflexivity|]. apply Hb. vm_compute. reflexivity.
Defined.

(** A push with a signature that is not ASCII, to a registry that verifies: the thread
    panics, and what it leaves is a state of the registry. *)
Definition verifying : Registry := mkRegistry (mkRegConfig 4 10 1000) (Some (λ _ _ _ _, true)) ∅ ∅ ∅.
Definition bad_signature : list string :=
  ["PUT /snapshots/a/b.tar.zst HTTP/1.1" +:+ crlf +:+ "Authorization: Bearer tok" +:+ crlf +:+ "Content-Length: 2" +:+ crlf +:+
   "X-Weave-Signature: a" +:+ String "195" (String "169" "b") +:+ crlf +:+ crlf; "hi"].
Lemma connection_safe_witness :
  let run := serve_connection 9 demo_open (λ _, Err "") (λ _, "") [] None None (λ _, "") 7 (λ _, true) (Some "tok") verifying bad_signature in
  rtc step verifying run.1 ∧ run.2 = None ∧ option_map Spool.content (spool_of run.1 "a" !! upload_path "b") = Some "hi".
Proof.
  intros run. pose proof (connection_safe 9 demo_open (λ _, Err "") (λ _, "") [] None None (λ _, "") 7 (λ _, true) (Some "tok") verifying bad_signature) as Hsafe.
  fold run in Hsafe. destruct run as [r' answer] eqn:Hrun. split; [exact (proj1 Hsafe)|].
  unfold run in Hrun. vm_compute in Hrun. injection Hrun as <- <-. split; vm_compute; reflexivity.
Defined.
