(* ===== verification/Journal.v ===== *)
(** * The journal (weave-graph-cli: journal.rs)

    [weave journal] lists the files changed since a commit, the symbols stored in
    them, how many symbols these reach, and the notes that reference them.  The diff
    is git's answer; sets are printed in the order of the hash map. *)

From S2P Require Import Prelude Str Bitmap Model Csr Paths CsrGraph SqlStore SqlProofs SqlGraph Modules Tools ToolsProofs Mcp Verify Watch.

Section journal.
Context `{HashOrder} {S : Type} `{Storage S} {B : Type} `{Bitmap B}.
(** How a string prints with its quotes. *)
Context (debug_str : string → string).

(** The elements of a hash set as it is iterated. *)
Definition hs_iter {K} `{Countable K} (s : gset K) : list K := (hm_iter (gset_to_gmap () s)).*1.

(** src/crates/weave-graph-cli/src/journal.rs:73-79 [symbol_of] *)
Definition symbol_of (nodes : list Node) (id : NodeId) : string :=
  match list_find (λ n, node_id n = id) nodes with Some (_, n) => node_symbol n | None => "node " +:+ dec id end.

(** src/crates/weave-graph-cli/src/journal.rs:37-44 [cmd_journal] *)
Definition journal_blast (csr : CsrGraph) (nodes : list Node) (touched_ids : list NodeId) : option (gset NodeId) :=
  foldlM (λ (blast : gset NodeId) id,
      b ← reachable_within (B := B) csr id u32_MAX;
      Some (blast ∪ list_to_set ((λ i, from_option node_id id (nodes !! as_usize i)) <$> bm_iter b))) touched_ids ∅.

(** src/crates/weave-graph-cli/src/journal.rs:47-64 [cmd_journal]
    The map of kinds is keyed by the ids of the nodes. *)
Definition referencing_docs (storage : S) (nodes : list Node) (touched_ids : list NodeId) : gset string :=
  let kind_of : gmap NodeId string := foldl (λ m n, <[node_id n := node_kind n]> m) ∅ nodes in
  list_to_set (omap (λ edge,
      source ← snd <$> list_find (λ n, node_id n = source_id edge) nodes;
      if decide (kind_of !! node_id source = Some "doc_note")
      then Some (node_path source +:+ " (references " +:+ symbol_of nodes (target_id edge) +:+ ")") else None)
    (touched_ids ≫= λ id, match get_callers storage id with Ok es => es | Err _ => [] end)).

Definition section_of (title : string) (empty : string) (lines : list string) : string :=
  title +:+ newline +:+ newline +:+ String.concat "" ((λ l, "- " +:+ l +:+ newline) <$> (if decide (lines = []) then [empty] else lines)).
(** src/crates/weave-graph-cli/src/journal.rs:81-122 [render] *)
Definition journal_render (base : string) (changed : list string) (touched : list Node) (blast : gset NodeId) (referencing : list string) : string :=
  "# Weave Journal" +:+ newline +:+ newline +:+
  section_of ("## Changed since " +:+ base) "(working tree clean relative to the base)" changed +:+ newline +:+
  section_of "## Affected symbols" "(none indexed in the changed files)"
    ((λ n, node_symbol n +:+ " " +:+ node_path n +:+ ":" +:+ dec (node_line_start n) +:+ "-" +:+ dec (node_line_end n)) <$> touched) +:+ newline +:+
  section_of "## Blast radius" "" [dec (N.of_nat (size blast)) +:+ " symbol" +:+ (if decide (size blast = 1) then "" else "s") +:+ " reachable outbound from the changed set"] +:+ newline +:+
  section_of "## Referencing docs" "(no doc_note references the changed code)" referencing.

(** src/crates/weave-graph-cli/src/journal.rs:13-71 [cmd_journal]
    [changed_since] is git's answer for a base, [storage] the opened index. *)
Definition cmd_journal (changed_since : string → option (list string)) (storage : result S string) (since : option string) : option (result string string) :=
  let base := default "HEAD~1" since in
  match changed_since base with
  | None => Some (Err ("could not diff against " +:+ debug_str base +:+ " — pass --since <ref> explicitly (a single-commit repo has no HEAD~1)"))
  | Some changed =>
      match storage with
      | Err e => Some (Err e)
      | Ok storage =>
          match all_nodes storage with
          | Err e => Some (Err (storage_error_text e))
          | Ok nodes =>
              r ← load storage;
              match r with
              | Err e => Some (Err (storage_error_text e))
              | Ok csr =>
                  let touched := filter (λ n, node_path n ∈ changed) nodes in
                  let touched_ids := hs_iter (list_to_set (node_id <$> touched)) in
                  blast ← journal_blast csr nodes touched_ids;
                  Some (Ok (journal_render base changed touched blast (hs_iter (referencing_docs storage nodes touched_ids))))
              end
          end
      end
  end.
End journal.

Section exact.
Context `{HashOrderLaws} {B : Type} `{BitmapLaws B} {S : Type} `{Storage S}.
Context (s : S) (ns : list Node) (es : list Edge) (Hview : StorageView s ns es) (Hsmall : (N.of_nat (length ns) ≤ u32_MAX)%N).

Lemma hs_iter_spec {K} `{Countable K} (X : gset K) : NoDup (hs_iter X) ∧ ∀ x, x ∈ hs_iter X ↔ x ∈ X.
Proof.
  unfold hs_iter. pose proof (hm_iter_perm (gset_to_gmap () X)) as Hp. split.
  - rewrite Hp. apply NoDup_fst_map_to_list.
  - intros x. rewrite hm_iter_keys. by rewrite dom_gset_to_gmap.
Qed.
Lemma view_ids_nodup : NoDup (node_id <$> ns).
Proof. eapply (strict_sorted_NoDup N.leb), StronglySorted_impl; [|exact (view_ids _ _ _ Hview)]. intros x y _ _ Hxy. split; [apply N.leb_le|]; lia. Qed.
Lemma kinds_lookup (l : list Node) n : NoDup (node_id <$> l) → n ∈ l → foldl (λ m n, <[node_id n := node_kind n]> m) (∅ : gmap NodeId string) l !! node_id n = Some (node_kind n).
Proof.
  induction l as [|m l IH] using rev_ind; [by intros _ ?%not_elem_of_nil|]. rewrite fmap_app, foldl_snoc. intros (Hnd & Hx & _)%NoDup_app Hn.
  apply elem_of_app in Hn as [Hn|Hn%list_elem_of_singleton]; [|subst m; by rewrite lookup_insert_eq].
  rewrite lookup_insert_ne; [by apply IH|]. intros He. apply (Hx (node_id n)); [by apply list_elem_of_fmap_2|]. rewrite <- He. cbn. by left.
Qed.

Lemma journal_blast_exact g (ids : list NodeId) : graph_rep g (node_id <$> ns) (store_edge ns es) →
  ∃ X, journal_blast (B := B) g ns ids = Some X ∧ ∀ i, i ∈ X ↔ ∃ a, a ∈ ids ∧ a ∈ node_id <$> ns ∧ rtc (store_edge ns es) a i.
Proof.
  intros Hg. unfold journal_blast. assert (∀ l acc, ∃ X : gset NodeId, foldlM (λ (blast : gset NodeId) id, b ← reachable_within (B := B) g id u32_MAX;
      Some (blast ∪ list_to_set ((λ i, from_option node_id id (ns !! as_usize i)) <$> bm_iter b))) l acc = Some X ∧
    ∀ i, i ∈ X ↔ i ∈ acc ∨ ∃ a, a ∈ l ∧ a ∈ node_id <$> ns ∧ rtc (store_edge ns es) a i) as Hf.
  { induction l as [|a l IH]; intros acc; cbn [foldlM].
    { exists acc. split; [done|]. intros i. split; [by left|]. intros [?|(a & ?%not_elem_of_nil & _)]; done. }
    destruct (reachable_within_rep (B := B) Hg a u32_MAX) as (b & -> & Hb). cbn [mbind option_bind]. destruct (IH (acc ∪ list_to_set ((λ i, from_option node_id a (ns !! as_usize i)) <$> bm_iter b))) as (X & -> & HX).
    exists X. split; [done|]. intros i. rewrite HX, elem_of_union, elem_of_list_to_set, list_elem_of_fmap. setoid_rewrite elem_of_cons. setoid_rewrite bm_iter_spec. setoid_rewrite Hb.
    assert ((∃ y, i = from_option node_id a (ns !! as_usize y) ∧ ∃ y0, (node_id <$> ns) !! as_usize y = Some y0 ∧ a ∈ node_id <$> ns ∧ bsteps (store_edge ns es) (N.to_nat u32_MAX) a y0) ↔
      a ∈ node_id <$> ns ∧ rtc (store_edge ns es) a i) as Hone.
    { split.
      - intros (y & -> & y0 & Hy & Ha & Hs). split; [done|]. rewrite list_lookup_fmap in Hy. destruct (ns !! as_usize y); [|done]. cbn in *. injection Hy as <-. by eapply rtc_bsteps_2.
      - intros [Ha Hr]. assert (i ∈ node_id <$> ns) as [k Hk]%list_elem_of_lookup by (apply rtc_inv_r in Hr as [<-|(z & _ & (_ & ? & _))]; done).
        exists (N.of_nat k). unfold as_usize. rewrite Nat2N.id. split; [rewrite list_lookup_fmap in Hk; destruct (ns !! k); [|done]; cbn in *; by injection Hk|]. exists i. split_and!; [done..|].
        apply (rtc_bounded _ (node_id <$> ns)); [by intros x y (_ & ? & _)|rewrite length_fmap; lia|done]. }
    rewrite Hone. naive_solver. }
  destruct (Hf ids ∅) as (X & HX & Hi). exists X. split; [done|]. intros i. rewrite Hi. set_solver.
Qed.

(** A note that references a changed symbol, as a line. *)
Definition doc_line (changed : list string) (line : string) : Prop :=
  ∃ e src tgt, e ∈ es ∧ src ∈ ns ∧ node_id src = source_id e ∧ node_kind src = "doc_note" ∧ tgt ∈ ns ∧ node_id tgt = target_id e ∧ node_path tgt ∈ changed ∧
    line = node_path src +:+ " (references " +:+ node_symbol tgt +:+ ")".
Lemma referencing_exact (changed : list string) (ids : list NodeId) : (∀ i, i ∈ ids ↔ ∃ n, n ∈ ns ∧ node_path n ∈ changed ∧ node_id n = i) →
  ∀ line, line ∈ referencing_docs s ns ids ↔ doc_line changed line.
Proof.
  intros Hids line. unfold referencing_docs. rewrite elem_of_list_to_set, list_elem_of_omap. setoid_rewrite list_elem_of_bind. split.
  - intros (e & (i & He & Hi) & Hl). destruct (view_get_callers _ _ _ Hview i) as (l & Hc & Hp). rewrite Hc, Hp in He. apply list_elem_of_filter in He as [Ht He].
    destruct (snd <$> list_find (λ n, node_id n = source_id e) ns) as [src|] eqn:Hsrc; [|done]. cbn [mbind option_bind] in Hl. apply (find_by_id_Some _ _ _ view_ids_nodup) in Hsrc as [Hsrc Hid].
    rewrite (kinds_lookup ns src view_ids_nodup Hsrc) in Hl. case_decide as Hk; [|done]. injection Hl as <-. injection Hk as Hk. apply Hids in Hi as (tgt & Htgt & Hch & Hti).
    exists e, src, tgt. split_and!; try done; [congruence|]. unfold symbol_of.
    assert (snd <$> list_find (λ n, node_id n = target_id e) ns = Some tgt) as Hf by (apply (find_by_id_Some _ _ _ view_ids_nodup); split; [done|congruence]).
    destruct (list_find _ ns) as [[k n]|]; [|done]. by injection Hf as ->.
  - intros (e & src & tgt & He & Hsrc & Hid & Hk & Htgt & Hti & Hch & ->). exists e. split.
    + exists (target_id e). destruct (view_get_callers _ _ _ Hview (target_id e)) as (l & Hc & Hp). rewrite Hc, Hp. split; [by apply list_elem_of_filter|]. apply Hids. by exists tgt.
    + rewrite (proj2 (find_by_id_Some ns (source_id e) src view_ids_nodup)) by done. cbn [mbind option_bind]. rewrite (kinds_lookup ns src view_ids_nodup Hsrc), decide_True by (by rewrite Hk).
      do 3 f_equal. unfold symbol_of. assert (snd <$> list_find (λ n, node_id n = target_id e) ns = Some tgt) as Hf by (by apply (find_by_id_Some _ _ _ view_ids_nodup)).
      destruct (list_find _ ns) as [[k n]|]; [|done]. by injection Hf as ->.
Qed.

(** The journal is exact: it lists the symbols of the changed files in the order of
    the index, counts exactly the symbols reachable from them, and names each note that
    references one of them once; it fails only where git cannot diff. *)
Theorem journal_exact debug_str changed_since since :
  match changed_since (default "HEAD~1" since) with
  | None => ∃ e, cmd_journal (B := B) debug_str changed_since (Ok s) since = Some (Err e)
  | Some changed => ∃ blast docs, (∀ i, i ∈ blast ↔ affected_by ns es changed i) ∧ NoDup docs ∧ (∀ line, line ∈ docs ↔ doc_line changed line) ∧
      cmd_journal (B := B) debug_str changed_since (Ok s) since =
        Some (Ok (journal_render (default "HEAD~1" since) changed (filter (λ n, node_path n ∈ changed) ns) blast docs))
  end.
Proof.
  unfold cmd_journal. destruct (changed_since (default "HEAD~1" since)) as [changed|]; [|by eexists].
  rewrite (view_nodes _ _ _ Hview). destruct (load_rep s ns es Hview Hsmall) as (g & -> & Hg). cbn [mbind option_bind].
  set (touched := filter (λ n, node_path n ∈ changed) ns). destruct (hs_iter_spec (list_to_set (node_id <$> touched) : gset NodeId)) as [_ Hids]. set (ids := hs_iter _) in *.
  assert (∀ i, i ∈ ids ↔ ∃ n, n ∈ ns ∧ node_path n ∈ changed ∧ node_id n = i) as Hin.
  { intros i. rewrite Hids, elem_of_list_to_set, list_elem_of_fmap. unfold touched. setoid_rewrite list_elem_of_filter. naive_solver. }
  destruct (journal_blast_exact g ids Hg) as (X & -> & HX). cbn [mbind option_bind]. exists X, (hs_iter (referencing_docs s ns ids)). destruct (hs_iter_spec (referencing_docs s ns ids)) as [Hnd Hd].
  split_and!; [|done| |done].
  - intros i. rewrite HX. setoid_rewrite Hin. unfold affected_by. split; [naive_solver|]. intros (a & Ha & Hp & Hr). exists (node_id a). split_and!; [by exists a|by apply list_elem_of_fmap_2|done].
  - intros line. rewrite Hd. by apply referencing_exact.
Qed.
End exact.
