(* ===== verification/Rules.v ===== *)
(** * Rule candidates and their review (weave-graph-cli: rules.rs)

    Lines of Markdown that state an obligation are candidates; a reviewer confirms or
    rejects them by number, and the decisions are kept by text.  The TOML text of the
    state is a parameter with its round trip; lower case is that of ASCII, in which the
    patterns are. *)

From S2P Require Import Prelude Str Language.

(** src/crates/weave-graph-cli/src/rules.rs:15-20 [RuleCandidate] *)
Record RuleCandidate := mkCandidate { rc_file : string; rc_line : nat; rc_text : string }.
(** src/crates/weave-graph-cli/src/rules.rs:22-28 [RulesState] *)
Record RulesState := mkRules { confirmed : list RuleCandidate; rejected : list string }.
#[global] Instance RuleCandidate_eq_dec : EqDecision RuleCandidate.
Proof. solve_decision. Defined.

(** src/crates/weave-graph-cli/src/rules.rs:13-13 [RULE_PATTERNS] *)
Definition RULE_PATTERNS : list string := [" must "; " must not "; " must never "; " should never "].

(** src/crates/weave-graph-cli/src/rules.rs:49-51 [is_code_fence] *)
Definition is_code_fence (line : string) : bool := starts_with (trim_start_by is_space line) "```".
(** src/crates/weave-graph-cli/src/rules.rs:86-87 [candidates] *)
Definition states_rule (line : string) : bool :=
  let padded := " " +:+ to_ascii_lowercase (trim line) +:+ " " in existsb (str_contains padded) RULE_PATTERNS.
(** src/crates/weave-graph-cli/src/rules.rs:77-94 [candidates]
    From a line on, inside or outside a fence. *)
Fixpoint scan_lines (rel : string) (fenced : bool) (index : nat) (ls : list string) : list RuleCandidate :=
  match ls with
  | [] => []
  | line :: ls =>
      if is_code_fence line then scan_lines rel (negb fenced) (S index) ls
      else if fenced then scan_lines rel fenced (S index) ls
      else (if states_rule line then [mkCandidate rel (index + 1) (trim line)] else []) ++ scan_lines rel fenced (S index) ls
  end.
(** src/crates/weave-graph-cli/src/rules.rs:63-73 [candidates] *)
Definition is_rule_source (rel : string) : bool := bool_decide (extension rel = Some "md") && negb (starts_with rel ".weave" || starts_with rel "graft").
Definition candidate_leb (a b : RuleCandidate) : bool := pair_leb String.leb Nat.leb (rc_file a, rc_line a) (rc_file b, rc_line b).
(** src/crates/weave-graph-cli/src/rules.rs:57-98 [candidates]
    [tree]: the files found, as relative paths with their text where it is readable. *)
Definition candidates (tree : list (string * option string)) : list RuleCandidate :=
  sort_by candidate_leb (tree ≫= λ '(rel, content),
    if is_rule_source rel then from_option (λ c, scan_lines rel false 0 (lines c)) [] content else []).

(** src/crates/weave-graph-cli/src/rules.rs:102-111 [listing] *)
Definition pending_of (tree : list (string * option string)) (state : RulesState) : list RuleCandidate :=
  filter (λ c, rc_text c ∉ rejected state ∧ rc_text c ∉ rc_text <$> confirmed state) (candidates tree).

(** src/crates/weave-graph-cli/src/rules.rs:125-128 [cmd_review_rules] *)
Definition confirm_one (state : RulesState) (candidate : RuleCandidate) : RulesState :=
  mkRules (filter (λ c, rc_text c ≠ rc_text candidate) (confirmed state) ++ [candidate]) (filter (λ t, t ≠ rc_text candidate) (rejected state)).
(** src/crates/weave-graph-cli/src/rules.rs:133-136 [cmd_review_rules] *)
Definition reject_one (state : RulesState) (candidate : RuleCandidate) : RulesState :=
  mkRules (filter (λ c, rc_text c ≠ rc_text candidate) (confirmed state)) (filter (λ t, t ≠ rc_text candidate) (rejected state) ++ [rc_text candidate]).

Section review.
(** How a string prints with its quotes; TOML. *)
Context (debug_str : string → string) (from_toml : string → option RulesState) (to_toml : RulesState → string).

(** src/crates/weave-graph-cli/src/rules.rs:165-176 [selection_indexes] *)
Definition selection_index (pending : list RuleCandidate) (raw : string) : result nat string :=
  match parse_uint 18446744073709551615 (trim raw) with
  | None => Err ("--confirm/--reject take 1-based indexes, got " +:+ debug_str raw)
  | Some index =>
      if (index =? 0)%N || (N.of_nat (length pending) <? index)%N
      then Err ("index " +:+ dec index +:+ " out of range (1..=" +:+ dec (N.of_nat (length pending)) +:+ ")")
      else Ok (N.to_nat (index - 1))
  end.
Fixpoint try_all {A B E} (f : A → result B E) (l : list A) : result (list B) E :=
  match l with [] => Ok [] | x :: l => let? y := f x in let? ys := try_all f l in Ok (y :: ys) end.
(** src/crates/weave-graph-cli/src/rules.rs:162-178 [selection_indexes] *)
Definition selection_indexes (pending : list RuleCandidate) (spec : string) : result (list nat) string := try_all (selection_index pending) (split_char ","%char spec).

(** src/crates/weave-graph-cli/src/rules.rs:34-39 [load_state] *)
Definition load_state (file : option string) : RulesState := default (mkRules [] []) (file ≫= from_toml).

(** src/crates/weave-graph-cli/src/rules.rs:123-137 [cmd_review_rules]
    One option of the command; an index is a valid position. *)
Definition review_option (f : RulesState → RuleCandidate → RulesState) (pending : list RuleCandidate) (spec : option string) (state : RulesState) : result RulesState string :=
  match spec with
  | None => Ok state
  | Some spec => let? idx := selection_indexes pending spec in Ok (foldl (λ st i, from_option (f st) st (pending !! i)) state idx)
  end.
(** src/crates/weave-graph-cli/src/rules.rs:116-141 [cmd_review_rules]
    The file of the state after the command; the listing that follows is
    [pending_of] of it. *)
Definition cmd_review_rules (tree : list (string * option string)) (confirm reject : option string) (file : option string) : result (option string) string :=
  let state := load_state file in
  let pending := pending_of tree state in
  let? state := review_option confirm_one pending confirm state in
  let? state := review_option reject_one pending reject state in
  Ok (match confirm, reject with None, None => file | _, _ => Some (to_toml state) end).

(** ** Candidates *)

(** The lines that are outside a fence, with their numbers. *)
Inductive outside : bool → nat → list string → nat → string → Prop :=
| outside_here index line ls : is_code_fence line = false → outside false index (line :: ls) (index + 1) line
| outside_fence fenced index line ls k l : is_code_fence line = true → outside (negb fenced) (S index) ls k l → outside fenced index (line :: ls) k l
| outside_next fenced index line ls k l : is_code_fence line = false → outside fenced (S index) ls k l → outside fenced index (line :: ls) k l.

Lemma scan_lines_exact rel ls : ∀ fenced index c, c ∈ scan_lines rel fenced index ls ↔
  ∃ k line, outside fenced index ls k line ∧ states_rule line = true ∧ c = mkCandidate rel k (trim line).
Proof.
  induction ls as [|line ls IH]; intros fenced index c; cbn [scan_lines].
  { split; [by intros ?%not_elem_of_nil|]. intros (k & l & Ho & _). inversion Ho. }
  destruct (is_code_fence line) eqn:Hf; [|destruct fenced].
  - rewrite IH. split; intros (k & l & Ho & Hr); exists k, l; (split; [|done]); [by apply outside_fence|]. inversion Ho; subst; congruence.
  - rewrite IH. split; intros (k & l & Ho & Hr); exists k, l; (split; [|done]); [by apply outside_next|]. inversion Ho; subst; congruence.
  - rewrite elem_of_app, IH. split.
    + intros [Hc|(k & l & Ho & Hr)]; [|exists k, l; split; [by apply outside_next|done]]. destruct (states_rule line) eqn:Hs; [|by apply not_elem_of_nil in Hc].
      apply list_elem_of_singleton in Hc as ->. exists (index + 1), line. split; [by apply outside_here|done].
    + intros (k & l & Ho & Hr & ->). inversion Ho; subst; [left; rewrite Hr; by apply list_elem_of_singleton|congruence|right; by exists k, l].
Qed.
(** The candidates are exactly the lines outside fences that state a rule, of the
    Markdown files that are read, in the order of file and line. *)
Theorem candidates_exact tree : StronglySorted (λ a b, candidate_leb a b = true) (candidates tree) ∧
  ∀ c, c ∈ candidates tree ↔ ∃ rel content k line, (rel, Some content) ∈ tree ∧ is_rule_source rel = true ∧ outside false 0 (lines content) k line ∧ states_rule line = true ∧ c = mkCandidate rel k (trim line).
Proof.
  split.
  { apply sort_by_sorted_key; intros *; unfold candidate_leb; [apply (ordb_total (leb := pair_leb String.leb Nat.leb))|apply (ordb_trans (leb := pair_leb String.leb Nat.leb))]. }
  intros c. unfold candidates. rewrite elem_of_sort_by, list_elem_of_bind. split.
  - intros ([rel [content|]] & Hc & Hin); destruct (is_rule_source rel) eqn:Hr; try by apply not_elem_of_nil in Hc. cbn in Hc. apply scan_lines_exact in Hc as (k & line & Ho & Hs & ->). by exists rel, content, k, line.
  - intros (rel & content & k & line & Hin & Hr & Ho & Hs & ->). exists (rel, Some content). split; [|done]. rewrite Hr. cbn. apply scan_lines_exact. by exists k, line.
Qed.
End review.

(** ** Decisions *)

Section decisions.
Context (debug_str : string → string) (from_toml : string → option RulesState) (to_toml : RulesState → string).
Context (Htoml : ∀ st, from_toml (to_toml st) = Some st).

(** Every text is decided at most once. *)
Definition decided_once (st : RulesState) : Prop := NoDup ((rc_text <$> confirmed st) ++ rejected st).

Lemma fmap_filter_text (l : list RuleCandidate) t : rc_text <$> filter (λ c, rc_text c ≠ t) l = filter (λ x, x ≠ t) (rc_text <$> l).
Proof. induction l as [|c l IH]; [done|]. cbn [fmap list_fmap]. rewrite !filter_cons. case_decide; cbn [fmap list_fmap]; by rewrite <- IH. Qed.
Lemma filter_once (l k : list string) t : NoDup (l ++ k) → NoDup (filter (λ x, x ≠ t) l ++ [t] ++ filter (λ x, x ≠ t) k).
Proof.
  intros (Hl & Hx & Hk)%NoDup_app. apply NoDup_app. split_and!; [by apply NoDup_filter| |].
  - intros x [Hne Hin]%list_elem_of_filter Hx'. apply elem_of_app in Hx' as [->%list_elem_of_singleton|[_ ?]%list_elem_of_filter]; [done|]. by apply (Hx x).
  - cbn. apply NoDup_cons. split; [by intros [? _]%list_elem_of_filter|by apply NoDup_filter].
Qed.
Lemma confirm_once st c : decided_once st → decided_once (confirm_one st c).
Proof. intros Hd. unfold decided_once, confirm_one. cbn [confirmed rejected]. rewrite fmap_app, fmap_filter_text, <- app_assoc. by apply filter_once. Qed.
Lemma reject_once st c : decided_once st → decided_once (reject_one st c).
Proof.
  intros Hd. unfold decided_once, reject_one. cbn [confirmed rejected]. rewrite fmap_filter_text. pose proof (filter_once _ _ (rc_text c) Hd) as Hf.
  by rewrite (Permutation_app_comm (filter (λ t, t ≠ rc_text c) (rejected st)) [rc_text c]).
Qed.
Lemma foldl_once f (pending : list RuleCandidate) (idx : list nat) : (∀ st c, decided_once st → decided_once (f st c)) → ∀ st, decided_once st → decided_once (foldl (λ st i, from_option (f st) st (pending !! i)) st idx).
Proof. intros Hf. induction idx as [|i idx IH]; intros st Hst; [done|]. cbn. apply IH. destruct (pending !! i); [by apply Hf|done]. Qed.
Lemma review_option_once f pending spec st st' : (∀ st c, decided_once st → decided_once (f st c)) → decided_once st → review_option debug_str f pending spec st = Ok st' → decided_once st'.
Proof.
  intros Hf Hst. unfold review_option. destruct spec as [spec|]; [|by intros [= <-]]. destruct (selection_indexes _ _ _) as [idx|e]; [|done]. cbn. intros [= <-]. by apply foldl_once.
Qed.

(** One review by a command, of whatever the tree holds then. *)
Inductive review_step (file : option string) : option string → Prop :=
| reviewed tree confirm reject file' : cmd_review_rules debug_str from_toml to_toml tree confirm reject file = Ok file' → review_step file file'.
Lemma review_step_once file file' : decided_once (load_state from_toml file) → review_step file file' → decided_once (load_state from_toml file').
Proof.
  intros Hd [tree confirm reject f Hc]. unfold cmd_review_rules in Hc.
  destruct (review_option debug_str confirm_one _ confirm _) as [st1|e] eqn:H1; [|done]. cbn in Hc. destruct (review_option debug_str reject_one _ reject st1) as [st2|e] eqn:H2; [|done]. cbn in Hc.
  apply (review_option_once _ _ _ _ _ confirm_once Hd) in H1. apply (review_option_once _ _ _ _ _ reject_once H1) in H2.
  destruct confirm, reject; injection Hc as <-; try done; unfold load_state; cbn; by rewrite Htoml.
Qed.
(** Over every sequence of reviews, of trees that change between them, no text is both
    confirmed and rejected, and none is decided twice. *)
Theorem review_decides_once file : rtc review_step None file → decided_once (load_state from_toml file).
Proof.
  intros Hr. assert (decided_once (load_state from_toml None)) as H0 by constructor. revert Hr H0. generalize (@None string) as f0. intros f0 Hr H0. induction Hr; [done|]. eauto using review_step_once.
Qed.

Lemma foldl_confirm_texts (pending : list RuleCandidate) idx t : ∀ st, t ∈ rc_text <$> confirmed (foldl (λ st i, from_option (confirm_one st) st (pending !! i)) st idx) ↔
  t ∈ rc_text <$> confirmed st ∨ ∃ i c, i ∈ idx ∧ pending !! i = Some c ∧ rc_text c = t.
Proof.
  induction idx as [|i idx IH]; intros st; cbn [foldl].
  { split; [by left|]. intros [?|(i & c & ?%not_elem_of_nil & _)]; done. }
  rewrite IH. setoid_rewrite elem_of_cons. destruct (pending !! i) as [c|] eqn:Hc; cbn [from_option].
  - unfold confirm_one at 1. cbn [confirmed]. rewrite fmap_app, fmap_filter_text, elem_of_app, list_elem_of_filter. cbn. rewrite list_elem_of_singleton. split.
    + intros [[[_ ?]|Ht]|(j & d & ? & ? & ?)]; [by left|subst t; right; exists i, c; auto|right; exists j, d; auto].
    + intros [?|(j & d & [->|?] & Hd & Ht)]; [destruct (decide (t = rc_text c)); auto|simplify_eq; auto|right; by exists j, d].
  - split; [naive_solver|]. intros [?|(j & d & [->|?] & Hd & Ht)]; [by left|congruence|right; by exists j, d].
Qed.
Lemma selection_in_range (pending : list RuleCandidate) spec idx : selection_indexes debug_str pending spec = Ok idx → ∀ i, i ∈ idx → i < length pending.
Proof.
  unfold selection_indexes. generalize (split_char ","%char spec) as raws. intros raws. revert idx. induction raws as [|raw raws IH]; intros idx; cbn [try_all].
  { intros [= <-] i ?%not_elem_of_nil. done. }
  destruct (selection_index debug_str pending raw) as [k|e] eqn:Hk; [|done]. cbn. destruct (try_all _ raws) as [ks|e]; [|done]. cbn. intros [= <-] i Hi.
  apply elem_of_cons in Hi as [->|Hi]; [|by eapply IH]. unfold selection_index in Hk. destruct (parse_uint _ _) as [n|]; [|done].
  destruct ((n =? 0)%N || (N.of_nat (length pending) <? n)%N) eqn:Hb; [done|]. injection Hk as <-. apply orb_false_iff in Hb as [?%N.eqb_neq ?%N.ltb_ge]. lia.
Qed.
(** Confirming keeps what was confirmed, adds the texts at the given numbers of the
    listing and nothing else, and what is confirmed is no longer pending. *)
Theorem confirm_exact tree spec file file' : cmd_review_rules debug_str from_toml to_toml tree (Some spec) None file = Ok file' →
  let st := load_state from_toml file in let st' := load_state from_toml file' in
  ∃ idx, selection_indexes debug_str (pending_of tree st) spec = Ok idx ∧ (∀ i, i ∈ idx → i < length (pending_of tree st)) ∧
    (∀ t, t ∈ rc_text <$> confirmed st' ↔ t ∈ rc_text <$> confirmed st ∨ ∃ i c, i ∈ idx ∧ pending_of tree st !! i = Some c ∧ rc_text c = t) ∧
    ∀ c, c ∈ pending_of tree st' → rc_text c ∉ rc_text <$> confirmed st'.
Proof.
  unfold cmd_review_rules, review_option. destruct (selection_indexes _ _ spec) as [idx|e] eqn:Hs; [|done]. cbn. intros [= <-]. exists idx. split; [done|]. split; [by eapply selection_in_range|].
  assert (∀ x, load_state from_toml (Some (to_toml x)) = x) as Hls by (intros x; unfold load_state; cbn; by rewrite Htoml).
  rewrite Hls. split; [intros t; apply foldl_confirm_texts|]. by intros c [[_ ?] _]%list_elem_of_filter.
Qed.
End decisions.

(** *** A run *)

Definition rules_md : string := "Hosts must be checked." +:+ String "010" "```" +:+ String "010" "x must y" +:+ String "010" "```" +:+ String "010" " Tokens MUST never leak.".
Definition rules_tree : list (string * option string) := [("b.md", Some rules_md); ("grafting.md", Some "You must read this."); ("a.rs", Some "it must not")].
Example two_rules : candidates rules_tree = [mkCandidate "b.md" 1 "Hosts must be checked."; mkCandidate "b.md" 5 "Tokens MUST never leak."].
Proof. vm_compute. reflexivity. Qed.

(** The same command twice: the numbers count what is pending, so the second run, which is
    documented to change nothing, confirms the next candidate. *)
Example confirm_twice :
  let st1 := foldl confirm_one (mkRules [] []) (take 1 (pending_of rules_tree (mkRules [] []))) in
  review_option (λ s, s) confirm_one (pending_of rules_tree (mkRules [] [])) (Some "1") (mkRules [] []) = Ok st1 ∧
  (rc_text <$> confirmed st1) = ["Hosts must be checked."] ∧
  match review_option (λ s, s) confirm_one (pending_of rules_tree st1) (Some "1") st1 with
  | Ok st2 => rc_text <$> confirmed st2 = ["Hosts must be checked."; "Tokens MUST never leak."]
  | Err _ => False
  end.
Proof. vm_compute. done. Qed.
