(* ===== verification/Budget.v ===== *)
(** * The admission budget (weave-graph-cli: resource_budget.rs, index.rs)

    How many files are parsed at a time, how many rows are staged and how many threads
    work, from the limits of the container or the host.  The contents of the system's
    files are arguments; sizes are 64-bit and the scaling is in doubles. *)

From Stdlib Require Import SpecFloat.
From S2P Require Import Prelude Str Http Modules Traces.

(** What is read of the system: the files of control groups and of the kernel's memory
    information, the answer of sysctl, the parallelism that is available. *)
Record system := mkSystem {
  memory_max : option string; limit_in_bytes : option string; meminfo : option string; sysctl_memsize : option string;
  cpu_max : option string; cfs_quota_us : option string; cfs_period_us : option string; available_parallelism : option N }.

(** src/crates/weave-graph-cli/src/resource_budget.rs:14-20 [CeilingSource] *)
Inductive CeilingSource := CgroupV2 | CgroupV1 | HostPhysicalMemory | UnknownSource.
(** src/crates/weave-graph-cli/src/resource_budget.rs:22-26 [MemoryCeiling] *)
Record MemoryCeiling := mkCeiling { ceiling_bytes : option N; ceiling_source : CeilingSource }.

Definition parse_u64 : string → option N := parse_uint (u64_modulus - 1).
(** [str::parse::<i64>()]. *)
Definition parse_i64 (s : string) : option Z :=
  match strip_prefix "-" s with
  | Some r => if is_empty r then None else n ← parse_digits r 0; if (n <=? 9223372036854775808)%N then Some (- Z.of_N n)%Z else None
  | None => Z.of_N <$> parse_uint 9223372036854775807 s
  end.
(** [trim_start_matches] and [trim_end_matches] of a text, as often as it occurs. *)
Fixpoint strip_start (fuel : nat) (pat s : string) : string :=
  match fuel with O => s | Datatypes.S fuel => match strip_prefix pat s with Some r => strip_start fuel pat r | None => s end end.
Fixpoint strip_end (fuel : nat) (pat s : string) : string :=
  match fuel with O => s | Datatypes.S fuel => match strip_suffix pat s with Some r => strip_end fuel pat r | None => s end end.

(** src/crates/weave-graph-cli/src/resource_budget.rs:28-32 [read_cgroup_v2_memory] *)
Definition read_cgroup_v2_memory (sys : system) : option N :=
  raw ← trim <$> memory_max sys; if decide (raw = "max") then None else parse_u64 raw.
(** src/crates/weave-graph-cli/src/resource_budget.rs:37-45 [read_cgroup_v1_memory] *)
Definition read_cgroup_v1_memory (sys : system) : option N :=
  value ← limit_in_bytes sys ≫= parse_u64 ∘ trim; if (2 ^ 40 <? value)%N then None else Some value.
(** src/crates/weave-graph-cli/src/resource_budget.rs:47-57 [read_proc_meminfo_total]
    The product wraps, as in the release profile. *)
Definition read_proc_meminfo_total (sys : system) : option N :=
  content ← meminfo sys;
  line ← snd <$> list_find (λ l, starts_with l "MemTotal:" = true) (lines content);
  kib ← parse_u64 (let t := trim (strip_start (String.length line) "MemTotal:" line) in strip_end (String.length t) " kB" t);
  Some ((kib * 1024) mod u64_modulus)%N.
(** src/crates/weave-graph-cli/src/resource_budget.rs:62-73 [host_memory_via_sysctl] *)
Definition host_memory_via_sysctl (sys : system) : option N := sysctl_memsize sys ≫= parse_u64 ∘ trim.
(** src/crates/weave-graph-cli/src/resource_budget.rs:79-102 [detect_memory_ceiling] *)
Definition detect_memory_ceiling (sys : system) : MemoryCeiling :=
  match read_cgroup_v2_memory sys, read_cgroup_v1_memory sys, (match read_proc_meminfo_total sys with Some b => Some b | None => host_memory_via_sysctl sys end) with
  | Some b, _, _ => mkCeiling (Some b) CgroupV2
  | None, Some b, _ => mkCeiling (Some b) CgroupV1
  | None, None, Some b => mkCeiling (Some b) HostPhysicalMemory
  | None, None, None => mkCeiling None UnknownSource
  end.

(** src/crates/weave-graph-cli/src/resource_budget.rs:104-114 [read_cgroup_v2_cpu_threads] *)
Definition read_cgroup_v2_cpu_threads (sys : system) : option N :=
  raw ← cpu_max sys;
  let parts := split_whitespace raw in
  quota ← parts !! 0; period ← parts !! 1 ≫= parse_u64;
  if decide (quota = "max") then None else
  quota ← parse_u64 quota; Some (N.max 1 (quota / N.max 1 period)).
(** src/crates/weave-graph-cli/src/resource_budget.rs:116-131 [read_cgroup_v1_cpu_threads] *)
Definition read_cgroup_v1_cpu_threads (sys : system) : option N :=
  quota ← cfs_quota_us sys ≫= parse_i64 ∘ trim;
  if (quota <=? 0)%Z then None else
  period ← cfs_period_us sys ≫= parse_i64 ∘ trim;
  Some (N.max 1 (Z.to_N (quota / Z.max 1 period))).
(** src/crates/weave-graph-cli/src/resource_budget.rs:136-143 [detect_cpu_threads] *)
Definition detect_cpu_threads (sys : system) (available : N) : N :=
  match (match read_cgroup_v2_cpu_threads sys with Some q => Some q | None => read_cgroup_v1_cpu_threads sys end) with
  | Some q => N.max 1 (N.min q available)
  | None => N.max 1 available
  end.

Definition REFERENCE_BUDGET_BYTES : N := 512 * 1024 * 1024.
Definition MIN_PARSE_CHUNK : N := 4.
Definition MIN_STAGED_WRITE_ROWS : N := 500.
Definition CHUNK_FILES_PER_THREAD : N := 4.
(** src/crates/weave-graph-cli/src/resource_budget.rs:164-166 [thread_scaled_chunk] *)
Definition thread_scaled_chunk (default_parse_chunk worker_threads : N) : N :=
  N.max default_parse_chunk (N.min (u64_modulus - 1) (worker_threads * CHUNK_FILES_PER_THREAD)).

(** src/crates/weave-graph-cli/src/resource_budget.rs:168-175 [AdmissionBudget] *)
Record AdmissionBudget := mkBudget { parse_chunk : N; staged_write_rows : N; worker_threads : N; ceiling : MemoryCeiling; reserved_bytes : option N }.

(** [f64::round] and the cast, of a number that is not negative: halves go up. *)
Definition f64_round_usize (x : f64) : N :=
  match x with
  | S754_finite false m e => ((if (e <? 0)%Z then Z.to_N ((2 * Z.pos m + 2 ^ (- e)) / 2 ^ (1 - e)) else Z.to_N (Z.pos m * 2 ^ e)) `min` (u64_modulus - 1))%N
  | S754_infinity false => (u64_modulus - 1)%N
  | _ => 0%N
  end.
(** [Ord::clamp], which panics when the bounds are the wrong way round. *)
Definition clamp (x lo hi : N) : option N := if (hi <? lo)%N then None else Some (N.min hi (N.max lo x)).

(** src/crates/weave-graph-cli/src/resource_budget.rs:196-199 [compute_admission_budget] *)
Definition scaled (size : N) (scale : f64) : N := f64_round_usize (f64_mul (f64_of (Z.of_N size)) scale).
(** src/crates/weave-graph-cli/src/resource_budget.rs:185-211 [compute_admission_budget] *)
Definition compute_admission_budget (c : MemoryCeiling) (threads default_parse_chunk default_staged_write_rows : N) : option AdmissionBudget :=
  let baseline_chunk := thread_scaled_chunk default_parse_chunk threads in
  let reserved := (λ b, b / 4)%N <$> ceiling_bytes c in
  match reserved with
  | Some budget =>
      if (budget <? REFERENCE_BUDGET_BYTES)%N then
        let scale := f64_div (f64_of (Z.of_N budget)) (f64_of (Z.of_N REFERENCE_BUDGET_BYTES)) in
        chunk ← clamp (scaled baseline_chunk scale) MIN_PARSE_CHUNK baseline_chunk;
        rows ← clamp (scaled default_staged_write_rows scale) MIN_STAGED_WRITE_ROWS default_staged_write_rows;
        Some (mkBudget chunk rows threads c reserved)
      else Some (mkBudget baseline_chunk default_staged_write_rows threads c reserved)
  | None => Some (mkBudget baseline_chunk default_staged_write_rows threads c reserved)
  end.

(** src/crates/weave-graph-cli/src/resource_budget.rs:220-236 [AdmissionBudget::explain] *)
Definition explain (b : AdmissionBudget) (baseline_parse_chunk : N) : option string :=
  if (parse_chunk b =? baseline_parse_chunk)%N then None else
  let source := match ceiling_source (ceiling b) with
                | CgroupV2 => "cgroup v2 memory.max"
                | CgroupV1 => "cgroup v1 memory.limit_in_bytes"
                | HostPhysicalMemory => "host physical memory"
                | UnknownSource => "unknown"
                end in
  Some ("admission budget reduced under a detected " +:+ source +:+ " ceiling: parse_chunk=" +:+ dec (parse_chunk b) +:+
        ", staged_write_rows=" +:+ dec (staged_write_rows b) +:+ ", worker_threads=" +:+ dec (worker_threads b) +:+
        " (reserved ~" +:+ dec (default 0%N (reserved_bytes b) / (1024 * 1024)) +:+ " MiB)").

(** src/crates/weave-graph-cli/src/resource_budget.rs:253-274 [detect_admission_budget] *)
Definition detect_admission_budget (sys : system) (default_parse_chunk default_staged_write_rows : N) (threads_override : option N) : option AdmissionBudget :=
  let detected := detect_cpu_threads sys (default 1%N (available_parallelism sys)) in
  threads ← (match threads_override with Some t => clamp t 1 detected | None => Some detected end);
  compute_admission_budget (detect_memory_ceiling sys) threads default_parse_chunk default_staged_write_rows.

Definition PARSE_CHUNK : N := 32.
Definition STAGED_WRITE_ROWS : N := 10000.
(** src/crates/weave-graph-cli/src/index.rs:116-123 [threads_override_env] *)
Definition threads_override_env (var : option string) : option N :=
  n ← var ≫= parse_u64 ∘ trim; if (1 <=? n)%N then Some n else None.
(** src/crates/weave-graph-cli/src/index.rs:131-142 [admission_budget]
    The budget and the line that is printed. *)
Definition admission_budget (sys : system) (var : option string) : option (AdmissionBudget * option string) :=
  b ← detect_admission_budget sys PARSE_CHUNK STAGED_WRITE_ROWS (threads_override_env var);
  Some (b, explain b (thread_scaled_chunk PARSE_CHUNK (worker_threads b))).

(** ** Bounds *)

Lemma clamp_spec x lo hi : (lo ≤ hi)%N → ∃ y, clamp x lo hi = Some y ∧ (lo ≤ y ≤ hi)%N.
Proof. intros Hle. unfold clamp. rewrite (proj2 (N.ltb_ge hi lo)) by lia. eexists. split; [done|]. lia. Qed.
Lemma detect_cpu_threads_bounds sys n : (1 ≤ detect_cpu_threads sys n ≤ N.max 1 n)%N.
Proof. unfold detect_cpu_threads. destruct (read_cgroup_v2_cpu_threads sys) as [q|]; [lia|]. destruct (read_cgroup_v1_cpu_threads sys); lia. Qed.

(** Whatever the system's files hold, the budget is computed without a panic and stays
    within its bounds: at least one thread and no more than the system offers, an override
    only narrowing them; at least four files at a time and at most the baseline; between
    500 and 10000 staged rows; and where at least two gibibytes, or no limit, are found,
    exactly the baseline. *)
Theorem admission_bounds sys var : ∃ b line, admission_budget sys var = Some (b, line) ∧
  (1 ≤ worker_threads b ≤ N.max 1 (default 1 (available_parallelism sys)))%N ∧
  (4 ≤ parse_chunk b ≤ thread_scaled_chunk PARSE_CHUNK (worker_threads b))%N ∧ (500 ≤ staged_write_rows b ≤ STAGED_WRITE_ROWS)%N ∧
  (match ceiling_bytes (detect_memory_ceiling sys) with Some bytes => (2147483648 ≤ bytes)%N | None => True end →
    parse_chunk b = thread_scaled_chunk PARSE_CHUNK (worker_threads b) ∧ staged_write_rows b = STAGED_WRITE_ROWS ∧ line = None) ∧
  (line ≠ None ↔ (parse_chunk b < thread_scaled_chunk PARSE_CHUNK (worker_threads b))%N).
Proof.
  unfold admission_budget, detect_admission_budget. pose proof (detect_cpu_threads_bounds sys (default 1%N (available_parallelism sys))) as Hd. set (detected := detect_cpu_threads _ _) in *.
  assert (∃ t, match threads_override_env var with Some t => clamp t 1 detected | None => Some detected end = Some t ∧ (1 ≤ t ≤ detected)%N) as (t & -> & Ht).
  { destruct (threads_override_env var) as [o|]; [apply clamp_spec; lia|]. exists detected. split; [done|]. lia. }
  cbn [mbind option_bind]. set (c := detect_memory_ceiling sys). assert (32 ≤ thread_scaled_chunk PARSE_CHUNK t)%N as Hb by (unfold thread_scaled_chunk, PARSE_CHUNK; lia).
  assert (∃ b, compute_admission_budget c t PARSE_CHUNK STAGED_WRITE_ROWS = Some b ∧ worker_threads b = t ∧ (4 ≤ parse_chunk b ≤ thread_scaled_chunk PARSE_CHUNK t)%N ∧ (500 ≤ staged_write_rows b ≤ STAGED_WRITE_ROWS)%N ∧
    (match ceiling_bytes c with Some bytes => (2147483648 ≤ bytes)%N | None => True end → parse_chunk b = thread_scaled_chunk PARSE_CHUNK t ∧ staged_write_rows b = STAGED_WRITE_ROWS)) as (b & -> & Hw & Hc & Hr & Hample).
  { unfold compute_admission_budget. destruct (ceiling_bytes c) as [bytes|]; cbn [fmap option_fmap option_map].
    - destruct (bytes / 4 <? REFERENCE_BUDGET_BYTES)%N eqn:Hlt.
      + destruct (clamp_spec (scaled (thread_scaled_chunk PARSE_CHUNK t) (f64_div (f64_of (Z.of_N (bytes / 4))) (f64_of (Z.of_N REFERENCE_BUDGET_BYTES)))) MIN_PARSE_CHUNK (thread_scaled_chunk PARSE_CHUNK t)) as (chunk & -> & Hchunk); [unfold MIN_PARSE_CHUNK; lia|].
        cbn [mbind option_bind]. destruct (clamp_spec (scaled STAGED_WRITE_ROWS (f64_div (f64_of (Z.of_N (bytes / 4))) (f64_of (Z.of_N REFERENCE_BUDGET_BYTES)))) MIN_STAGED_WRITE_ROWS STAGED_WRITE_ROWS) as (rows & -> & Hrows); [unfold MIN_STAGED_WRITE_ROWS, STAGED_WRITE_ROWS; lia|].
        cbn [mbind option_bind]. eexists. split; [reflexivity|]. cbn. split_and!; [done|apply Hchunk|apply Hchunk|apply Hrows|apply Hrows|..]; apply N.ltb_lt in Hlt; unfold REFERENCE_BUDGET_BYTES in Hlt; intros Hge; exfalso;
          pose proof (N.div_le_lower_bound bytes 4 536870912); lia.
      + eexists. split; [reflexivity|]. cbn. unfold STAGED_WRITE_ROWS. split_and!; [done|lia..|done].
    - eexists. split; [reflexivity|]. cbn. unfold STAGED_WRITE_ROWS. split_and!; [done|lia..|done]. }
  cbn [mbind option_bind]. rewrite Hw. do 2 eexists. split; [reflexivity|]. rewrite Hw. split_and!; [lia..| |].
  - intros Ha. destruct (Hample Ha) as [Hp ->]. split_and!; [done..|]. unfold explain. by rewrite Hp, N.eqb_refl.
  - unfold explain. destruct (N.eqb_spec (parse_chunk b) (thread_scaled_chunk PARSE_CHUNK t)); split; [done|lia|lia|done].
Qed.

(** A quarter of a gibibyte in a container: an eighth of the files and of the rows. *)
Definition container (bytes : string) : system := mkSystem (Some bytes) None None None (Some "400000 100000") None None (Some 8%N).
Example small_container : (λ x : AdmissionBudget * option string, (parse_chunk x.1, staged_write_rows x.1, worker_threads x.1, bool_decide (is_Some x.2))) <$> admission_budget (container "268435456") None = Some (4, 1250, 4, true)%N.
Proof. vm_compute. reflexivity. Qed.
(** A limit a little under two gibibytes takes rows but, after rounding, no file: nothing is
    said, though the budget is documented to be explained unless it is the baseline. *)
Example reduction_not_explained : (λ x : AdmissionBudget * option string, (parse_chunk x.1, staged_write_rows x.1, x.2)) <$> admission_budget (container "2126008811") None = Some (32%N, 9900%N, None).
Proof. vm_compute. reflexivity. Qed.
